(* ===== verification/_CoqProject ===== *)
-Q . S2P
Prelude.v
Order.v
Ipv4.v
IpAlloc.v
Hostnames.v
HostsFile.v
Protocol.v
Helper.v
GlobalFwd.v
ForwardBooks.v
ForwardRuns.v
Cron.v
DirtyChannel.v
Watcher.v
HelmIndex.v
HelmWatch.v
Slots.v
Search.v
Forwarder.v
Health.v
AppState.v
Utf8.v
Json.v
Transcript.v
Classify.v
Session.v
Clip.v
Spool.v
Providers.v
Completion.v
Catalogue.v
OpenAiCompat.v
AnthropicApi.v
GeminiSchema.v
Gemini.v
Reasoning.v
Gateway.v
Serde.v
Settings.v
Secrets.v
Credentials.v
Codex.v
TurnLoop.v
Conversation.v
Approvals.v
Kinds.v
Registry.v
Access.v
Mcp.v
ObjectStatus.v
Logs.v
LogFeed.v
LogPods.v
Quantity.v
Metrics.v
