(* ===== verification/Prelude.v ===== *)
(** * FerrisScope: a verification development

    FerrisScope is a desktop client for Kubernetes clusters.  Its Rust side keeps one
    entry per connected cluster; an entry holds reference-counted watchers, one per
    resource kind and namespace scope, each of which turns a watch stream into a
    cache of encoded rows and a coalescing channel of changes; a forwarder drains
    that channel towards the webview and the search index; a health probe decides
    when the entry is dead.  Next to it, global port-forwarding gives services
    loopback addresses and host names through a privileged helper, an access cache
    says what the operator may do, and a chat agent runs turns of provider calls and
    tool calls over a transcript it logs, against a provider that its settings and
    credentials choose.  This development models that core, in the order of the files
    below, and proves what makes each part correct.

    ** Files

    - [Prelude]: Rust's strings ([str] is the list of the scalar values of a [&str]),
      results, decimal numbers; tactics ([tests], [bool_to_prop], [forall_list],
      [decided]), the hint database [ferris], lemmas on lists, strings, the string
      order and step relations that the other files share; [Order]: Ordering,
      comparators and slice::sort_by of the standard library.
    - [Ipv4]: std::net::Ipv4Addr; [IpAlloc]: core/src/globalfwd/ipalloc.rs.
    - [Hostnames]: core/src/globalfwd/hostnames.rs; [HostsFile]:
      core/src/globalfwd/hostsfile.rs; [Protocol]: core/src/globalfwd/protocol.rs.
    - [Helper]: the privileged helper (helper/src/server.rs, hosts.rs, netalias.rs,
      state.rs and the accept loop of lib.rs), on top of the four files before.
    - [GlobalFwd]: the manager in the app (app/src/globalfwd/mod.rs) and its client of
      the helper (client.rs), methods as programs over atomic actions that interleave;
      [ForwardBooks]: what holds of every interleaving of them; [ForwardRuns]: what one
      method does from its first action to its last, and runs that go wrong.
    - [Cron]: kube-ext/src/cron_schedule.rs.
    - [DirtyChannel]: the channel of kube-ext/src/watcher.rs and its wake-ups;
      [Watcher]: the event loops of the same file, typed and dynamic, the preview
      list, the reconciliation, and the system of watcher, forwarder and subscribers.
    - [HelmIndex]: ReleaseIndex and ChartUsage of kube-ext/src/kinds/helm_releases.rs;
      [HelmWatch]: the loops of start_helm_releases and start_helm_charts.
    - [Slots]: subscriptions, linger tasks and teardown of app/src/commands.rs over
      the KindSlot of app/src/state.rs.
    - [Search]: core/src/search (tables, triggers, writer task, queries, collector);
      [Forwarder]: spawn_resource_forwarder of app/src/commands.rs.
    - [Health]: core/src/health.rs and its forwarder in app/src/commands.rs.
    - [AppState]: app/src/state.rs (cluster map, SingleFlight, forwards, claims).
    - [Utf8]: std's decoding of UTF-8; [Transcript]: the messages of agent/src/types.rs,
      repair_tool_pairs of app/src/agent/compaction.rs and the queued messages of
      app/src/agent/turn.rs; [Classify]: app/src/agent/classify.rs and ProviderError;
      [Session]: agent/src/session/mod.rs, on a disk with failing and torn writes;
      [Clip]: the clamping of app/src/agent/tools.rs and render_head_for_summary;
      [Spool]: app/src/agent_native/tool_output.rs, where clamped results are kept.
    - [Json]: serde_json's values; [Providers]: ProviderKind of agent/src/config.rs, the
      table of provider/meta.rs, and the choice that build_provider of
      app/src/agent/turn.rs makes; [Completion]: what the providers share
      (provider/mod.rs); [Catalogue]: provider/catalogue.rs and the model picker of
      app/src/agent/commands.rs; [OpenAiCompat], [AnthropicApi], [GeminiSchema] with
      [Gemini]: the providers of openai_compat.rs, anthropic.rs, gemini_schema.rs with
      gemini.rs, request bodies, streams and model lists; [Reasoning]:
      provider/reasoning.rs; [Gateway]: provider/gateway.rs; [Codex]: openai_codex.rs, with
      the refresh of its tokens.
    - [Serde]: what serde derives; [Settings]: AgentSettings (agent/src/config.rs), its
      file (app/src/agent/settings.rs) and ai_set_settings of app/src/agent/commands.rs;
      [Secrets]: app/src/secret_storage.rs and agent_keyring.rs; [Credentials]:
      app/src/agent/credentials.rs and the commands around it.
    - [TurnLoop]: run_turn_loop of app/src/agent/turn.rs with the compaction of
      app/src/agent/compaction.rs, on top of the files of the chat before;
      [Conversation]: the turn loop over the streams of a provider.
    - [Approvals]: TurnGate of app/src/agent/runtime.rs ([Gate]), execute_tool_call of
      app/src/agent/tools.rs with the approvals ([Calls]), closing chats ([Chats]).
    - [Mcp]: the client of agent/src/mcp/mod.rs ([Client]), the framing of transport.rs
      ([Stdio]) and the responses of http.rs ([Http]).
    - [Kinds]: the tables of kinds (kube-ext/src/kinds/, well_known/); [Registry]:
      kube-ext/src/registry.rs and the ids of well_known.rs.
    - [Access]: kube-ext/src/access.rs, the requirements of an action, the combination
      of verdicts, the rules review ([Rules]) and the cache of reviews ([Cache]).
    - [ObjectStatus]: kube-ext/src/object_status.rs, from the references of a batch to
      their statuses: caches, discovery and the pool of LIST jobs.
    - [Logs]: the readers of container logs, core/src/logs.rs; [LogFeed]: their forwarder
      in app/src/commands.rs; [LogPods]: kube-ext/src/log_pods.rs, the pods of a log view
      and their watch.
    - [Quantity]: core/src/quantity.rs, in binary64; [Metrics]: core/src/metrics.rs and the
      slot of a cluster's metrics in app/src/commands.rs.

    ** How the code is rendered

    A struct is a Record, an enum an Inductive with its constructors, a HashMap a
    [gmap] and a HashSet a [gset]; where the code iterates over one, the order is an
    argument constrained to be a permutation.  A [&mut self] method takes and returns
    the state, on its error paths too.  Fixed-width integers are [N] or [Z] with the
    saturation, the [try_from] or the overflow check of the code written out.  What
    runs under one lock is one definition; tasks, timers and callers interleave as
    steps of an Inductive relation over a record of the shared state and the callers'
    positions, and the theorems about them are about every reachable state.  [Arc]s
    and tasks are numbered in the order of their creation, so that equal numbers are
    [Arc::ptr_eq].  The methods of [GlobalFwd], that await between their locks, are
    programs (a free monad of actions), of which a step runs one action.  Where a theorem
    speaks of the past (what was reviewed, decided, requested), the state carries a trace
    that no step reads.  Code outside the repository is an argument: kube-rs's streams and replies, serde_json
    ([Protocol.Wire], [to_raw_value], [Session.SessionWire], the readers of events),
    eventsource-stream ([Completion.Eventsource]), the answers of providers
    and tools ([TurnLoop.Round]), chrono ([Cron.Calendar]),
    the decoding of Helm secrets, the operating system's alias, bind and file calls
    ([Helper]), what the cluster, the helper's replies and the listeners answer
    ([GlobalFwd.World]), the answers to a log's requests ([Logs.World])
    and to a poll's ([Metrics.Answers]), the keychain and the cipher ([Secrets]), the url crate
    ([Settings]), SQLite's full-text engine ([Search]); what is assumed of it is named
    where the section introduces it, and the witnesses instantiate it.

    ** What the theorems show

    - Live rows: nothing recorded in the channel is lost, repeated or left behind
      asleep ([DirtyChannel]); in every interleaving the deltas on their way turn each
      subscriber into the watcher's cache, and a relist leaves exactly the listed rows
      ([Watcher]); one wake of the forwarder empties the channel in bounded chunks, and
      the search index gets the same changes as the interface ([Forwarder]).
    - Lifecycle: slots count their subscribers and own exactly one live watcher, a
      teardown leaves nothing running ([Slots]); a removed cluster is not brought back
      by connects in flight, and connects are shared ([AppState]); the probe declares
      an outage exactly after thirty seconds of failures and the interface learns of
      it whenever its forwarder starts ([Health]).
    - Helm: the index refines the set of live secrets, chart usage is counted exactly,
      and the rows shown follow ([HelmIndex], [HelmWatch]).
    - Search: a query answers from every earlier write whose transaction committed,
      returns exactly the rows its tokens select, and the collector removes what its ages
      say ([Search]).
    - Schedules: fields denote the stepped ranges, and the next fire is the first one
      after the given time, also through a time zone ([Cron]).
    - Global forwarding: addresses are fresh, stable and disjoint ([IpAlloc]); names
      are valid and unambiguous ([Hostnames]); the managed block is declarative and can
      be taken back ([HostsFile]); frames round-trip ([Protocol]); whatever the clients
      send, the helper stays within loopback and its block, and cleans up when a session
      ends ([Helper]).
      In every interleaving of the manager's tasks an address in use belongs to one
      service, and the names sent pass the helper's checks ([ForwardBooks]); a relist
      settles on the listed services, and disabling takes back what was given
      ([ForwardRuns]).
    - Chats: whatever a cancel or crash left is repaired into a transcript providers
      accept ([Transcript]); a turn ends, each of its requests is paired, and the log
      gives the transcript back ([TurnLoop], [Session]); no tool runs unasked and one
      loop runs at a time ([Approvals]); calls of an MCP server return with their own
      answers ([Mcp]); requests say what the transcript says within what the model takes,
      and what is streamed in pieces is put together again and announced ([OpenAiCompat],
      [AnthropicApi], [Gemini], [Codex]), so that a whole turn is accepted on the wire
      ([Conversation]); tool schemas of known types become valid ones of Gemini's dialect
      ([GeminiSchema]), a saved reasoning choice becomes fields the model takes
      ([Reasoning]), a wire that the gateway refuses is retried whole ([Gateway]), and
      tokens that are rotated for a retry are kept ([Codex]);
      texts are cut on characters and scrubbed of secrets ([Clip], [Classify]), and what
      is cut off is read back and searched exactly ([Spool]).
    - Settings: what is saved is loaded, migrations have nothing left to do, patches
      persist with an enabled active provider ([Settings]); both secret backends keep
      one contract ([Secrets.SecretLaws]), against which a written credential is read and
      a cleared one is gone, and the free gateway is not asked behind the operator's
      back ([Credentials]); a fresh chat prefers models that do not keep prompts
      ([Catalogue]).
    - Kinds and access: the tables are well formed, a discovered kind is found again
      under its id with its columns, and rows answer to them ([Registry]); verdicts
      combine as three-valued logic says, cached answers are of the current generation,
      and reviews are shared and bounded ([Access]); every reference of a batch gets the
      status that was seen, within the budget of requests ([ObjectStatus]).
    - Logs: across reconnects a reader sends an interval of the log, each line once, goes
      on only while there are lines, and ends with one final event ([Logs]); the panel
      gets that in order ([LogFeed]), and its set of pods is what the API server last told
      ([LogPods]).
    - Metrics: what a subscriber needs is polled or about to be, the snapshot that is kept is
      the one that was broadcast, every kubelet is asked once and its volumes are shown, and a
      slot runs a service exactly while it has subscribers ([Metrics]).

    Some lemmas record where the code departs from its comments: the carriage returns
    of a hosts file ([HostsFile.strip_rewrites_crlf], [HostsFile.upsert_cr_not_stable]),
    qualified names that two clusters share ([Hostnames.qualified_names_collide]),
    a cut header read as the end of the stream ([Protocol.partial_header_is_eof]), steps
    of single values and of Sundays ([Cron.step_one_is_single],
    [Cron.weekday_step_reaches_sunday]), a watcher started on a cluster being torn down
    ([Slots.watcher_after_teardown]), a teardown that hits the replacement of its
    cluster ([AppState.teardown_hits_replacement]), rows collected although they
    were seen within their age ([Search.quiet_row_purged]), reused call ids that make
    the repair panic ([Transcript.repair_duplicate_ids_panics]), images dropped from
    queued messages ([Transcript.merge_drops_images]), a token left in a text
    ([Classify.redact_misses_scheme]), crashes that make a session unloadable or lose
    the next event ([Session.torn_character_unloadable],
    [Session.torn_line_swallows_next]), a text logged unredacted
    ([TurnLoop.exhausted_error_not_redacted]), an answer placed before its question
    ([TurnLoop.answer_before_question]), a compaction trigger above the input cap
    ([TurnLoop.threshold_above_input]), a message logged twice or never answered around
    a compaction ([TurnLoop.late_append_doubles], [TurnLoop.compaction_hides_queued]), one
    lost with a failed write of the log ([TurnLoop.failed_append_loses]), an override that
    cannot be cleared in the log ([Session.cleared_override_unread]),
    a second loop after a cancel ([Approvals.Gate.cancel_after_claim]), trust and
    dispatch that take different servers ([Approvals.Calls.collision_runs_untrusted]),
    calls that share an id ([Approvals.Calls.same_id_denies_first]), a native tool that
    wins a name against its comment ([Approvals.native_shadows_mcp]), a call that waits
    for a reader that has ended ([Mcp.Client.late_call_hangs]), a byte that ends it
    ([Mcp.Stdio.bad_byte_ends_reader]), a printer value
    cut inside a character ([Registry.printer_value_panics]), columns shown on another
    cluster ([Registry.columns_of_another_cluster]), rules listed twice
    ([Access.Rules.repeated_rule_stays]), objects of an unknown shape reported missing
    ([ObjectStatus.undecodable_is_missing]), calls without an index that become one
    ([OpenAiCompat.unindexed_calls_merge]), a thinking budget above the limit of a small
    model ([AnthropicApi.budget_above_limit]), a gateway whose error is not shown
    ([AnthropicApi.unreachable_gateway_lists_nothing]), a free model that is preselected
    ([Catalogue.free_tier_collects]), efforts in the order of a hash map
    ([Catalogue.unknown_efforts_unstable]), user turns next to each other
    ([Gemini.user_turns_adjacent]), a schema type that is let through
    ([GeminiSchema.Samples.repair_lets_through]), a none that is sent
    ([Reasoning.none_switches_off]), a mismatch after events
    ([Gateway.late_mismatch_replayed]), static model lists
    ([Providers.zai_minimax_static]), a key filed under another provider
    ([Settings.old_key_misfiled]), a withdrawn key that still answers
    ([Credentials.withdrawn_key_served]), settings that could not be read once and are
    overwritten ([Settings.unread_file_lost]), with a gateway that is asked again
    ([Credentials.unread_settings_reenable_zen]), addresses and listeners left behind
    ([ForwardRuns.reenabled_service_leaks], [ForwardRuns.shared_listeners_stop],
    [ForwardRuns.refused_service_stays], [ForwardRuns.aborted_watch_leaks]), an error that
    becomes an empty answer ([Codex.Samples.bare_error_swallowed]), a refresh that fails
    otherwise ([Codex.Samples.refresh_unreachable_is_transport]), a page that never gets on
    ([Spool.Samples.narrow_page_stalls]), results that share a file
    ([Spool.Samples.handles_collide]), a sweep that takes what it cannot read
    ([Spool.Samples.blind_sweep_loses]), log lines repeated or skipped on a reconnect
    ([Logs.Samples.zoned_repeated], [Logs.Samples.same_instant_lost]), a tail that is not
    the default ([Logs.Samples.reconnect_keeps_tail]), a pod that no relist sends again
    ([LogPods.Samples.lost_added_stays_lost]), a poll of a dead cluster
    ([Metrics.Samples.metrics_after_teardown]), and a helper
    that is out of step ([ForwardRuns.stale_hosts_win],
    [ForwardRuns.respawned_helper_lacks_aliases],
    [ForwardRuns.late_listener_keeps_client]).

    ** Bounds and fuel

    Recursion is structural except where the code loops: [Cron.scan_days] runs for the
    MAX_LOOKAHEAD_DAYS of the code, so that its [Err Nothing] is the code's [None];
    [Cron.walk], the bit-set loop, [Protocol.read_all], a reader's loop, and
    [Forwarder.forward_wake] take fuel, and [Cron.parse_field_denotes],
    [Protocol.read_all_written] and [Forwarder.forward_wake_complete] show that the
    fuel given is enough (the number of pending deltas plus two for a wake).
    [Transcript.repair_loop] and [TurnLoop.advance_cut] get the length of the
    transcript, [Classify.redact_from] that of the text, [Registry.index_suffixes]
    that of the path; each step consumes some.  [TurnLoop.turn_rounds] takes the
    number of rounds: five hundred rounds of tools, each with five transient and two
    empty retries at most, and two recoveries, are below 4010, so that a turn that
    gets no message after its first K rounds ends within K + 4010
    ([TurnLoop.turn_ends]).  The pool of LIST jobs has no fuel: its steps are bounded by
    twice the jobs and forty ([ObjectStatus.lists_bounded]).  The readers of streams
    recurse on the chunks.  References of a schema are followed to the code's own depth
    of eight, and its sanitizing is two layers deep ([GeminiSchema.sanitize_unfold]);
    the model list of Gemini is read for the code's ten pages.  A watch of services runs
    over any finite list of events, of which it may see a part.  [Logs.run_live] takes the
    number of sessions, which the lines that were sent bound ([Logs.live_paced]);
    [Logs.OPEN_FUEL] is the sum of the retry caps and one ([Logs.open_stream_ok]), and
    [LogFeed.forward_log] gets one round per answer.

    ** Not modelled

    - What only moves bytes: sockets, SPDY streams, pipes and the spawning of the helper
      (the listeners are answers in [GlobalFwd]), terminals, SSE and
      handshake of MCP, browser sign-ins, SSH tunnels, kubeconfig discovery, exec and
      cloud identities, the updater and the platform shims.
    - What only calls other programs' interfaces: the tools of the agent, one-shot
      reads and edits of objects, the bootstrap of the search index, the
      Prometheus client, Helm's binary.
    - The row projections of the individual kinds and of GitOps objects, one function
      per kind over k8s-openapi's types: an argument of [Watcher]; Helm's chart
      extraction, manifests and detail view.
    - Prompts, titles and probes of the agent; preferences and other persisted files;
      resume detection from two clocks.
    - In what is modelled: the identity of the operator and the drop of the access
      cache; the steps of [Credentials], one command each, are not interleaved; a struct
      written as a list and repeated keys of a JSON object are not read ([Serde]).
      Logging, durations of debounce windows and memory hints are left out.
    - The interface in TypeScript. *)

From Stdlib Require Import NArith DecimalN DecimalFacts.
From Stdlib Require Export Lia.
From stdpp Require Export prelude strings gmap.

Set Default Proof Using "Type".

Declare Scope ferris_scope.

Delimit Scope ferris_scope with ferris.

Create HintDb ferris discriminated.

(** ** Rust data: strings, options, results

    A Rust [&str] is a sequence of Unicode scalar values; a [char] is one of
    them.  [lit] turns an ASCII literal into such a sequence. *)

Abbreviation char := N (only parsing).

Definition str : Set := list char.

Bind Scope list_scope with str.

#[global] Instance str_eq_dec : EqDecision str := (_ : EqDecision (list N)).

#[global] Instance str_countable : Countable str := (_ : Countable (list N)).

#[global] Instance str_inhabited : Inhabited str := populate [].

Definition lit (s : string) : str := Ascii.N_of_ascii <$> String.list_ascii_of_string s.

Coercion lit : string >-> str.

#[global] Arguments lit : simpl never.
#[global] Arguments N.eqb : simpl never.
#[global] Arguments N.leb : simpl never.
#[global] Arguments N.ltb : simpl never.

Definition str_eqb (a b : str) : bool := bool_decide (a = b).

#[global] Arguments str_eqb : simpl never.

Notation "a =s b" := (str_eqb a b) (at level 70, no associativity) : ferris_scope.

#[global] Open Scope ferris_scope.

Inductive result (A E : Type) : Type :=
  | Ok (a : A)
  | Err (e : E).

Arguments Ok {A E} a.
Arguments Err {A E} e.

Definition result_bind {A B E} (m : result A E) (f : A → result B E) : result B E :=
  match m with Ok a => f a | Err e => Err e end.

Notation "x <-? m ; k" := (result_bind m (λ x, k))
  (at level 100, m at next level, right associativity) : ferris_scope.

Notation "' x <-? m ; k" := (result_bind m (λ x : _, k))
  (at level 20, x pattern, m at level 100, k at level 200, only parsing) : ferris_scope.

(** ** [char] and [str] methods of the Rust standard library *)

Definition LF : char := 10%N.

Definition CR : char := 13%N.

Definition HYPHEN : char := 45%N.

Definition DOT : char := 46%N.

Definition SLASH : char := 47%N.

Definition COMMA : char := 44%N.

Definition COLON : char := 58%N.

(** [char::is_whitespace]: the Unicode [White_Space] property. *)
Definition is_whitespace (c : char) : bool :=
  ((9 <=? c) && (c <=? 13))%N || (c =? 32)%N || (c =? 133)%N || (c =? 160)%N
  || (c =? 5760)%N || ((8192 <=? c) && (c <=? 8202))%N || (c =? 8232)%N
  || (c =? 8233)%N || (c =? 8239)%N || (c =? 8287)%N || (c =? 12288)%N.

Definition is_ascii_digit (c : char) : bool := ((48 <=? c) && (c <=? 57))%N.

Definition is_ascii_lowercase (c : char) : bool := ((97 <=? c) && (c <=? 122))%N.

Definition is_ascii_uppercase (c : char) : bool := ((65 <=? c) && (c <=? 90))%N.

Definition is_ascii_alphanumeric (c : char) : bool :=
  is_ascii_digit c || is_ascii_lowercase c || is_ascii_uppercase c.

Definition to_ascii_lowercase (c : char) : char :=
  if is_ascii_uppercase c then (c + 32)%N else c.

Definition str_to_ascii_lowercase (s : str) : str := to_ascii_lowercase <$> s.

(** UTF-8 encoding: [str::as_bytes], [str::len]. *)
Definition char_bytes (c : char) : list N :=
  (if c <? 128 then [c]
   else if c <? 2048 then [192 + c / 64; 128 + c mod 64]
   else if c <? 65536 then [224 + c / 4096; 128 + (c / 64) mod 64; 128 + c mod 64]
   else [240 + c / 262144; 128 + (c / 4096) mod 64; 128 + (c / 64) mod 64; 128 + c mod 64])%N.

Definition str_bytes (s : str) : list N := s ≫= char_bytes.

Definition str_len (s : str) : N := N.of_nat (length (str_bytes s)).

Fixpoint drop_while (p : char → bool) (s : str) : str :=
  match s with
  | [] => []
  | c :: s' => if p c then drop_while p s' else s
  end.

Definition trim_start_matches (p : char → bool) (s : str) : str := drop_while p s.

Definition trim_end_matches (p : char → bool) (s : str) : str :=
  reverse (drop_while p (reverse s)).

Definition trim_matches (p : char → bool) (s : str) : str :=
  trim_end_matches p (trim_start_matches p s).

Definition trim (s : str) : str := trim_matches is_whitespace s.

#[global] Arguments trim : simpl never.

Definition trim_end (s : str) : str := trim_end_matches is_whitespace s.

(** [str::split] with a character predicate: always at least one piece. *)
Fixpoint split_by (p : char → bool) (s : str) : list str :=
  match s with
  | [] => [[]]
  | c :: s' =>
      if p c then [] :: split_by p s'
      else match split_by p s' with
           | piece :: rest => (c :: piece) :: rest
           | [] => [[c]]
           end
  end.

Definition split_char (c : char) (s : str) : list str := split_by (N.eqb c) s.

Definition split_whitespace (s : str) : list str :=
  filter (λ w, w ≠ []) (split_by is_whitespace s).

(** [str::split_once] with a character. *)
Fixpoint split_once (c : char) (s : str) : option (str * str) :=
  match s with
  | [] => None
  | x :: s' =>
      if N.eqb c x then Some ([], s')
      else match split_once c s' with
           | Some (a, b) => Some (x :: a, b)
           | None => None
           end
  end.

Fixpoint strip_prefix (p s : str) : option str :=
  match p, s with
  | [], _ => Some s
  | _ :: _, [] => None
  | c :: p', d :: s' => if N.eqb c d then strip_prefix p' s' else None
  end.

Definition starts_with (p s : str) : bool :=
  match strip_prefix p s with Some _ => true | None => false end.

(** [str::contains] with a string. *)
Fixpoint contains_str (p s : str) : bool :=
  starts_with p s || match s with [] => false | _ :: s' => contains_str p s' end.

(** [str::find], as what comes after the first [p] *)
Fixpoint find_str (p s : str) : option str :=
  match strip_prefix p s with
  | Some rest => Some rest
  | None => match s with [] => None | _ :: s => find_str p s end
  end.

(** What comes before the first [p]. *)
Fixpoint before_str (p s : str) : str :=
  if starts_with p s then [] else match s with [] => [] | c :: s => c :: before_str p s end.

Definition contains_char (c : char) (s : str) : bool := existsb (N.eqb c) s.

(** A line loses its [\n] and then one [\r]. *)
Definition strip_cr (l : str) : str :=
  match last l with
  | Some c => if N.eqb c CR then removelast l else l
  | None => l
  end.

(** [str::lines]; [cur] holds the characters of the current line, reversed. *)
Fixpoint lines_from (cur s : str) : list str :=
  match s with
  | [] => if decide (cur = []) then [] else [reverse cur]
  | c :: s' =>
      if N.eqb c LF then strip_cr (reverse cur) :: lines_from [] s'
      else lines_from (c :: cur) s'
  end.

Definition lines (s : str) : list str := lines_from [] s.

Fixpoint join (sep : str) (l : list str) : str :=
  match l with
  | [] => []
  | [x] => x
  | x :: l' => x ++ sep ++ join sep l'
  end.

(** Decimal rendering and the [FromStr] of the unsigned integers: an optional
    [+], at least one ASCII digit, and a value in range. *)
Fixpoint uint_str (d : Decimal.uint) : str :=
  match d with
  | Decimal.Nil => []
  | Decimal.D0 d => 48%N :: uint_str d
  | Decimal.D1 d => 49%N :: uint_str d
  | Decimal.D2 d => 50%N :: uint_str d
  | Decimal.D3 d => 51%N :: uint_str d
  | Decimal.D4 d => 52%N :: uint_str d
  | Decimal.D5 d => 53%N :: uint_str d
  | Decimal.D6 d => 54%N :: uint_str d
  | Decimal.D7 d => 55%N :: uint_str d
  | Decimal.D8 d => 56%N :: uint_str d
  | Decimal.D9 d => 57%N :: uint_str d
  end.

Definition dec_str (n : N) : str := uint_str (N.to_uint n).

Definition digit (c : char) : option (Decimal.uint → Decimal.uint) :=
  match c with
  | 48%N => Some Decimal.D0 | 49%N => Some Decimal.D1 | 50%N => Some Decimal.D2
  | 51%N => Some Decimal.D3 | 52%N => Some Decimal.D4 | 53%N => Some Decimal.D5
  | 54%N => Some Decimal.D6 | 55%N => Some Decimal.D7 | 56%N => Some Decimal.D8
  | 57%N => Some Decimal.D9 | _ => None
  end.

Fixpoint parse_digits (s : str) : option Decimal.uint :=
  match s with
  | [] => Some Decimal.Nil
  | c :: s' => d ← digit c; u ← parse_digits s'; Some (d u)
  end.

Definition nat_str (n : nat) : str := dec_str (N.of_nat n).

Definition parse_uint (max : N) (s : str) : option N :=
  let s := match strip_prefix (lit "+") s with Some r => r | None => s end in
  match s with
  | [] => None
  | _ => u ← parse_digits s;
         let n := N.of_uint u in
         if (n <=? max)%N then Some n else None
  end.

Definition u32_max : N := 4294967295%N.

Definition parse_u32 : str → option N := parse_uint u32_max.

(** ** Tactics *)

(** Case analysis on the boolean tests and [decide]s of the goal, closing the
    cases arithmetic or congruence settle. *)
Ltac tests :=
  repeat (case_match || case_decide || case_bool_decide);
  simplify_eq/=; try done; try lia.

(** Splits [Forall P [x; ...; y]] into its instances. *)
Ltac forall_list := repeat apply Forall_cons_2; try apply Forall_nil_2.

(** Evaluates a decidable closed statement. *)
Ltac decided := apply (bool_decide_unpack _); vm_compute; exact I.

Ltac bool_to_prop :=
  repeat match goal with
  | H : _ && _ = true |- _ => apply andb_true_iff in H as [? ?]
  | H : _ && _ = false |- _ => apply andb_false_iff in H
  | H : _ || _ = true |- _ => apply orb_true_iff in H
  | H : _ || _ = false |- _ => apply orb_false_iff in H as [? ?]
  | H : negb _ = true |- _ => apply negb_true_iff in H
  | H : negb _ = false |- _ => apply negb_false_iff in H
  | H : (_ =? _)%N = true |- _ => apply N.eqb_eq in H
  | H : (_ =? _)%N = false |- _ => apply N.eqb_neq in H
  | H : (_ <=? _)%N = true |- _ => apply N.leb_le in H
  | H : (_ <=? _)%N = false |- _ => apply N.leb_gt in H
  | H : (_ <? _)%N = true |- _ => apply N.ltb_lt in H
  | H : (_ <? _)%N = false |- _ => apply N.ltb_ge in H
  | H : bool_decide _ = true |- _ => apply bool_decide_eq_true in H
  | H : bool_decide _ = false |- _ => apply bool_decide_eq_false in H
  end.

Lemma forallb_Forall {A} (p : A → bool) (l : list A) :
  forallb p l = true ↔ Forall (λ x, p x = true) l.
Proof.
  induction l as [|x l IH]; simpl; [by split|].
  rewrite andb_true_iff, Forall_cons. by rewrite IH.
Qed.

Lemma list_filter_all {A} (P : A → Prop) `{!∀ x, Decision (P x)} (l : list A) :
  (∀ x, x ∈ l → P x) → filter P l = l.
Proof.
  induction l as [|x l IH]; intros Hall; [done|].
  rewrite filter_cons_True by (apply Hall; by left). f_equal. apply IH. intros; apply Hall; by right.
Qed.

Lemma list_filter_none {A} (P : A → Prop) `{!∀ x, Decision (P x)} (l : list A) :
  Forall (λ x, ¬ P x) l → filter P l = [].
Proof. induction 1 as [|x l Hx _ IH]; [done|]. by rewrite filter_cons, decide_False. Qed.

Lemma list_filter_iff' {A} (P Q : A → Prop) `{!∀ x, Decision (P x), !∀ x, Decision (Q x)} (l : list A) :
  (∀ x, x ∈ l → P x ↔ Q x) → filter P l = filter Q l.
Proof.
  induction l as [|x l IH]; intros Hiff; [done|]. assert (P x ↔ Q x) as Hx by (apply Hiff; by left).
  rewrite !filter_cons. destruct (decide (P x)), (decide (Q x)); [f_equal|tauto|tauto|];
    apply IH; intros y Hy; apply Hiff; by right.
Qed.

Lemma sublist_Forall {A} (P : A → Prop) (l k : list A) : l `sublist_of` k → Forall P k → Forall P l.
Proof. induction 1; inversion_clear 1; auto. Qed.

Lemma sublist_snoc_l {A} (l k : list A) (x : A) : l ++ [x] `sublist_of` k ++ [x] → l `sublist_of` k.
Proof.
  intros (l1 & l2 & E & H1 & H2)%sublist_app_r. apply sublist_cons_r in H2 as [H2|(l3 & -> & H2)];
    apply sublist_nil_r in H2 as ->.
  - rewrite app_nil_r in E. subst. etransitivity; [by apply sublist_inserts_r|exact H1].
  - by apply app_inj_tail in E as [-> _].
Qed.

Lemma prefix_snoc_inv {A} (l k : list A) (x : A) : l `prefix_of` k ++ [x] → l `prefix_of` k ∨ l = k ++ [x].
Proof.
  intros [m Hm]. destruct m as [|y m _] using rev_ind; [right; by rewrite app_nil_r in Hm|].
  left. rewrite app_assoc in Hm. apply app_inj_tail in Hm as [-> _]. by exists m.
Qed.

(** A step relation keeps its invariants. *)
Lemma rtc_preserves {A} (R : relation A) (P : A → Prop) (x y : A) :
  (∀ x y, P x → R x y → P y) → P x → rtc R x y → P y.
Proof. intros Hstep Hx Hr. induction Hr; eauto. Qed.

(** ** Strings *)

Lemma str_eqb_eq (a b : str) : (a =s b) = true ↔ a = b.
Proof. unfold str_eqb. apply bool_decide_eq_true. Qed.

Lemma str_eqb_neq (a b : str) : (a =s b) = false ↔ a ≠ b.
Proof. unfold str_eqb. apply bool_decide_eq_false. Qed.

Lemma str_eqb_refl (a : str) : (a =s a) = true.
Proof. by apply str_eqb_eq. Qed.

#[global] Instance N_of_ascii_inj : Inj (=) (=) Ascii.N_of_ascii.
Proof. intros a b H. by rewrite <- (Ascii.ascii_N_embedding a), H, Ascii.ascii_N_embedding. Qed.

#[global] Instance lit_inj : Inj (=) (=) lit.
Proof.
  intros s t H. rewrite <- (String.string_of_list_ascii_of_string s), <- (String.string_of_list_ascii_of_string t).
  f_equal. revert H. apply (inj (fmap Ascii.N_of_ascii)).
Qed.

Lemma strip_prefix_app (p s : str) : strip_prefix p (p ++ s) = Some s.
Proof. induction p as [|c p IH]; simpl; [done|]. by rewrite N.eqb_refl. Qed.

Lemma strip_prefix_Some (p s r : str) : strip_prefix p s = Some r → s = p ++ r.
Proof.
  revert s. induction p as [|c p IH]; intros [|d s]; simpl; intros H; simplify_eq; [done..|].
  destruct (N.eqb_spec c d) as [->|]; [|done]. by rewrite (IH s H).
Qed.

Lemma trim_matches_no (p : char → bool) (s : str) :
  (∀ c, head s = Some c → p c = false) →
  (∀ c, last s = Some c → p c = false) →
  trim_matches p s = s.
Proof.
  intros Hh Hl. unfold trim_matches, trim_start_matches.
  assert (drop_while p s = s) as ->.
  { destruct s as [|c s]; [done|]. simpl. by rewrite Hh. }
  unfold trim_end_matches. destruct s as [|c s _] using rev_ind; [done|].
  rewrite reverse_snoc. simpl. rewrite Hl by by rewrite last_snoc.
  by rewrite reverse_cons, reverse_involutive.
Qed.

Lemma drop_while_head (p : char → bool) (s : str) c :
  head (drop_while p s) = Some c → p c = false.
Proof.
  induction s as [|d s IH]; simpl; [done|]. destruct (p d) eqn:E; [done|].
  intros; simplify_eq/=. done.
Qed.

Lemma drop_while_suffix (p : char → bool) (s : str) :
  ∃ k, s = k ++ drop_while p s ∧ Forall (λ c, p c = true) k.
Proof.
  induction s as [|d s (k & IH & Hk)]; simpl; [by exists []|].
  destruct (p d) eqn:E; [exists (d :: k)|exists []]; split; [| |done..].
  - simpl. by f_equal.
  - by constructor.
Qed.

Lemma drop_while_Forall (Q : char → Prop) (p : char → bool) (s : str) :
  Forall Q s → Forall Q (drop_while p s).
Proof. induction 1; simpl; [done|]. by case_match; [|constructor]. Qed.

Lemma trim_matches_Forall (Q : char → Prop) (p : char → bool) (s : str) :
  Forall Q s → Forall Q (trim_matches p s).
Proof.
  intros H. unfold trim_matches, trim_end_matches.
  by apply Forall_reverse, drop_while_Forall, Forall_reverse, drop_while_Forall.
Qed.

Lemma trim_matches_head (p : char → bool) (s : str) c :
  head (trim_matches p s) = Some c → p c = false.
Proof.
  unfold trim_matches, trim_end_matches, trim_start_matches. intros H.
  destruct (drop_while_suffix p (reverse (drop_while p s))) as (k & Hk & _).
  apply (drop_while_head p s). revert H.
  rewrite <- (reverse_involutive (drop_while p s)) at 2. rewrite Hk at 2. rewrite reverse_app.
  by destruct (reverse (drop_while p (reverse (drop_while p s)))).
Qed.

Lemma trim_matches_last (p : char → bool) (s : str) c :
  last (trim_matches p s) = Some c → p c = false.
Proof.
  unfold trim_matches, trim_end_matches. rewrite last_reverse. apply drop_while_head.
Qed.

Lemma str_bytes_ascii (s : str) : Forall (λ c, (c < 128)%N) s → str_bytes s = s.
Proof.
  induction 1 as [|c s Hc _ IH]; [done|]. unfold str_bytes in *. simpl.
  unfold char_bytes at 1. rewrite (proj2 (N.ltb_lt c 128)) by done. simpl. by f_equal.
Qed.

(** *** Splitting *)

Lemma split_by_nonempty (p : char → bool) (s : str) : split_by p s ≠ [].
Proof. destruct s; simpl; repeat case_match; done. Qed.

Lemma split_by_none (p : char → bool) (s : str) :
  Forall (λ c, p c = false) s → split_by p s = [s].
Proof. induction 1 as [|c s Hc _ IH]; simpl; [done|]. by rewrite Hc, IH. Qed.

Lemma split_by_app (p : char → bool) (c : char) (a b : str) :
  Forall (λ c, p c = false) a → p c = true →
  split_by p (a ++ c :: b) = a :: split_by p b.
Proof. intros Ha Hc. induction Ha as [|x a Hx _ IH]; simpl; [by rewrite Hc|]. by rewrite Hx, IH. Qed.

Lemma split_by_pieces (p : char → bool) (s : str) :
  Forall (Forall (λ c, p c = false)) (split_by p s).
Proof.
  induction s as [|c s IH]; simpl; [repeat constructor|].
  destruct (p c) eqn:E; [by repeat constructor|].
  destruct (split_by p s) eqn:Es; inversion IH; subst; repeat constructor; done.
Qed.

Lemma split_char_join (c : char) (l : list str) :
  l ≠ [] → Forall (Forall (λ x, x ≠ c)) l → split_char c (join [c] l) = l.
Proof.
  intros Hne H. unfold split_char. induction H as [|x l Hx Hl IH]; [done|].
  assert (Forall (λ d, N.eqb c d = false) x).
  { eapply Forall_impl; [exact Hx|]. intros d ?. by apply N.eqb_neq. }
  destruct l as [|y l]; simpl; [by apply split_by_none|].
  rewrite split_by_app by (done || apply N.eqb_refl). f_equal. by apply IH.
Qed.

Lemma join_Forall (Q : char → Prop) (sep : str) (l : list str) :
  Forall Q sep → Forall (Forall Q) l → Forall Q (join sep l).
Proof.
  intros Hs H. induction H as [|x l Hx Hl IH]; [constructor|].
  destruct l as [|y l]; [done|]. change (join sep (x :: y :: l)) with (x ++ sep ++ join sep (y :: l)).
  rewrite !Forall_app. done.
Qed.

(** *** Lines *)

Lemma lines_from_line (cur l s : str) :
  LF ∉ l → lines_from cur (l ++ LF :: s) = strip_cr (reverse cur ++ l) :: lines_from [] s.
Proof.
  revert cur. induction l as [|c l IH]; intros cur Hl; simpl.
  - by rewrite app_nil_r.
  - apply not_elem_of_cons in Hl as [Hc Hl].
    rewrite (proj2 (N.eqb_neq c LF)) by done.
    rewrite IH by done. by rewrite reverse_cons, <- app_assoc.
Qed.

Lemma lines_cons (l s : str) : LF ∉ l → lines (l ++ LF :: s) = strip_cr l :: lines s.
Proof. intros. unfold lines. by rewrite lines_from_line. Qed.

Lemma strip_cr_id (l : str) : last l ≠ Some CR → strip_cr l = l.
Proof.
  unfold strip_cr. destruct (last l) as [c|]; [|done]. intros H.
  destruct (N.eqb_spec c CR) as [->|]; done.
Qed.

Lemma lines_from_app (cur a b : str) :
  lines_from cur (a ++ LF :: b) = lines_from cur (a ++ [LF]) ++ lines b.
Proof.
  revert cur. induction a as [|c a IH]; intros cur; simpl; [done|].
  case_match; [|apply IH]. by rewrite IH.
Qed.

Lemma lines_app (a b : str) : lines (a ++ LF :: b) = lines (a ++ [LF]) ++ lines b.
Proof. apply lines_from_app. Qed.

(** A line that [lines] gives back unchanged. *)
Definition clean_line (l : str) : Prop := (LF ∉ l) ∧ last l ≠ Some CR.

(** Text whose lines are [ls], each ended by [\n]. *)
Definition unlines (ls : list str) : str := ls ≫= (λ l, l ++ [LF]).

Lemma unlines_app (a b : list str) : unlines (a ++ b) = unlines a ++ unlines b.
Proof. apply bind_app. Qed.

Lemma unlines_cons (l : str) (ls : list str) : unlines (l :: ls) = l ++ LF :: unlines ls.
Proof. unfold unlines. simpl. by rewrite <- app_assoc. Qed.

Lemma unlines_join (ls : list str) : ls ≠ [] → unlines ls = join [LF] ls ++ [LF].
Proof.
  induction ls as [|l ls IH]; [done|]. intros _. rewrite unlines_cons.
  destruct ls as [|l' ls]; [done|]. rewrite IH by done.
  change (join [LF] (l :: l' :: ls)) with (l ++ [LF] ++ join [LF] (l' :: ls)).
  by rewrite <- !app_assoc.
Qed.

Lemma lines_unlines_app (ls : list str) (s : str) :
  Forall clean_line ls → lines (unlines ls ++ s) = ls ++ lines s.
Proof.
  induction 1 as [|l ls [Hl Hcr] _ IH]; [done|].
  rewrite unlines_cons, <- app_assoc, <- app_comm_cons, lines_cons by done.
  by rewrite strip_cr_id, IH.
Qed.

Lemma lines_unlines (ls : list str) : Forall clean_line ls → lines (unlines ls) = ls.
Proof.
  intros H. rewrite <- (app_nil_r (unlines ls)), lines_unlines_app by done.
  apply app_nil_r.
Qed.

Lemma lines_from_no_lf (cur s : str) :
  LF ∉ cur → Forall (λ l, LF ∉ l) (lines_from cur s).
Proof.
  revert cur. induction s as [|c s IH]; intros cur Hcur; simpl.
  - case_decide; repeat constructor. by rewrite elem_of_reverse.
  - destruct (N.eqb_spec c LF) as [->|Hc].
    + constructor; [|apply IH; set_solver]. unfold strip_cr.
      repeat case_match; rewrite ?elem_of_reverse; try done.
      intros Hin. apply Hcur. rewrite <- elem_of_reverse.
      destruct (reverse cur) as [|x r _] using rev_ind; [done|].
      rewrite removelast_last in Hin. set_solver.
    + apply IH. set_solver.
Qed.

Lemma lines_no_lf (s : str) : Forall (λ l, LF ∉ l) (lines s).
Proof. apply lines_from_no_lf. set_solver. Qed.

Lemma lines_unlines_cr (ls : list str) :
  Forall (λ l, LF ∉ l) ls → lines (unlines ls) = strip_cr <$> ls.
Proof.
  induction 1 as [|l ls Hl _ IH]; [done|].
  by rewrite unlines_cons, lines_cons, IH.
Qed.

Lemma drop_while_snoc (p : char → bool) (l : str) (c : char) :
  p c = true →
  drop_while p (l ++ [c]) = match drop_while p l with [] => [] | r => r ++ [c] end.
Proof.
  intros Hc. induction l as [|d l IH]; simpl; [by rewrite Hc|]. by destruct (p d).
Qed.

Lemma trim_snoc (l : str) (c : char) : is_whitespace c = true → trim (l ++ [c]) = trim l.
Proof.
  intros Hc. unfold trim, trim_matches, trim_start_matches. rewrite drop_while_snoc by done.
  destruct (drop_while is_whitespace l) as [|d r]; [done|].
  unfold trim_end_matches. rewrite reverse_snoc. simpl. by rewrite Hc.
Qed.

Lemma trim_strip_cr (l : str) : trim (strip_cr l) = trim l.
Proof.
  unfold strip_cr. destruct l as [|c l _] using rev_ind; [done|]. rewrite last_snoc.
  destruct (N.eqb_spec c CR) as [->|]; [|done]. rewrite removelast_last. by rewrite trim_snoc.
Qed.

(** *** Decimal numbers *)

Lemma digit_uint (d : Decimal.uint) : parse_digits (uint_str d) = Some d.
Proof. induction d as [|d IH|d IH|d IH|d IH|d IH|d IH|d IH|d IH|d IH|d IH]; simpl; rewrite ?IH; done. Qed.

Lemma uint_str_nonempty (n : N) : dec_str n ≠ [].
Proof.
  unfold dec_str. intros H.
  assert (N.to_uint n = Decimal.Nil) as E by (destruct (N.to_uint n); done).
  pose proof (DecimalN.Unsigned.of_to n) as Hn. rewrite E in Hn. by subst n.
Qed.

Lemma uint_str_digits (d : Decimal.uint) : Forall (λ c, is_ascii_digit c = true) (uint_str d).
Proof. induction d; simpl; constructor; done. Qed.

Lemma parse_uint_dec_str (max n : N) : (n ≤ max)%N → parse_uint max (dec_str n) = Some n.
Proof.
  intros Hn. unfold parse_uint.
  pose proof (uint_str_nonempty n). pose proof (uint_str_digits (N.to_uint n)) as Hd.
  assert (strip_prefix (lit "+") (dec_str n) = None) as ->.
  { change (lit "+") with [43%N]. fold (dec_str n) in Hd. destruct (dec_str n) as [|c s]; [done|]. simpl.
    inversion Hd as [|? ? Hc]; subst. destruct (N.eqb_spec 43 c) as [<-|]; [by vm_compute in Hc|done]. }
  destruct (dec_str n) as [|c s] eqn:E; [done|]. rewrite <- E.
  unfold dec_str. rewrite digit_uint. simpl. rewrite DecimalN.Unsigned.of_to.
  by rewrite (proj2 (N.leb_le n max)).
Qed.

(** ** The order of strings ([Ord for str]: by bytes, which for UTF-8 is the order
    of the code points) *)

Fixpoint str_leb (a b : str) : bool :=
  match a, b with
  | [], _ => true
  | _ :: _, [] => false
  | x :: a', y :: b' => if (x <? y)%N then true else if (y <? x)%N then false else str_leb a' b'
  end.

Lemma str_leb_refl (a : str) : str_leb a a = true.
Proof. induction a as [|x a IH]; [done|]. simpl. by rewrite N.ltb_irrefl. Qed.

Lemma str_leb_total (a b : str) : str_leb a b = true ∨ str_leb b a = true.
Proof.
  revert b. induction a as [|x a IH]; intros [|y b]; simpl; auto.
  destruct (N.ltb_spec x y), (N.ltb_spec y x); auto.
Qed.

Lemma str_leb_trans (a b c : str) : str_leb a b = true → str_leb b c = true → str_leb a c = true.
Proof.
  revert b c. induction a as [|x a IH]; intros [|y b] [|z c]; simpl; try done.
  destruct (N.ltb_spec x y), (N.ltb_spec y x), (N.ltb_spec y z), (N.ltb_spec z y),
    (N.ltb_spec x z), (N.ltb_spec z x); try done; try lia. apply IH.
Qed.

Lemma str_leb_antisym (a b : str) : str_leb a b = true → str_leb b a = true → a = b.
Proof.
  revert b. induction a as [|x a IH]; intros [|y b]; simpl; try done.
  destruct (N.ltb_spec x y), (N.ltb_spec y x); try done; try lia.
  intros. f_equal; [lia|by apply IH].
Qed.

(** ** [Iterator::max_by]: the last of the greatest elements *)

Section MaxBy.
Context {A : Type} (leb : A → A → bool).

Definition max_by (l : list A) : option A :=
  foldl (λ acc x, match acc with
                  | None => Some x
                  | Some y => if leb y x then Some x else Some y
                  end) None l.

Lemma max_by_spec (l : list A) :
  (∀ x y, leb x y = true ∨ leb y x = true) →
  (∀ x y z, leb x y = true → leb y z = true → leb x z = true) →
  match max_by l with
  | Some x => x ∈ l ∧ ∀ y, y ∈ l → leb y x = true
  | None => l = []
  end.
Proof.
  intros Htot Htrans. unfold max_by. induction l as [|y l IH] using rev_ind; [done|].
  rewrite foldl_app. simpl. destruct (foldl _ None l) as [x|].
  - destruct IH as [Hx Hall]. destruct (leb x y) eqn:E.
    + split; [set_solver|]. intros z [Hz| ->%list_elem_of_singleton]%elem_of_app; [eauto|].
      by destruct (Htot y y).
    + split; [set_solver|]. intros z [Hz| ->%list_elem_of_singleton]%elem_of_app; [auto|].
      destruct (Htot x y); congruence.
  - subst l. split; [set_solver|]. intros z ->%list_elem_of_singleton. by destruct (Htot y y).
Qed.
End MaxBy.
