(* ===== verification/Order.v ===== *)
(** * Orderings and sorts

    [std::cmp::Ordering] as [comparison], comparators built with [then_with], by a key and
    reversed, and [slice::sort_by], a stable sort, as insertion.  [Comparator] is what a
    sort asks of its comparator: a total preorder.  With a comparator that tells elements
    apart, a sort's result does not depend on the order of its input ([sort_by_canonical]). *)

From stdpp Require Import sorting.

From S2P Require Import Prelude.

(** ** Ordering *)

(** [Ordering::then_with] *)
Definition then_with (a b : comparison) : comparison := match a with Eq => b | _ => a end.

(** [Ord for str] *)
Definition str_cmp (a b : str) : comparison := if str_leb a b then if str_leb b a then Eq else Lt else Gt.

(** [Ord for bool] *)
Definition bool_cmp (a b : bool) : comparison :=
  match a, b with false, true => Lt | true, false => Gt | _, _ => Eq end.

Definition at_most {A} (cmp : A → A → comparison) (a b : A) : Prop := cmp a b ≠ Gt.

#[global] Instance at_most_dec {A} (cmp : A → A → comparison) a b : Decision (at_most cmp a b).
Proof. unfold at_most. apply _. Defined.

Class Comparator {A} (cmp : A → A → comparison) : Prop := {
  cmp_opp : ∀ a b, cmp b a = CompOpp (cmp a b);
  cmp_trans : ∀ a b c, at_most cmp a b → at_most cmp b c → at_most cmp a c;
}.

#[global] Hint Mode Comparator ! ! : typeclass_instances.

(** No two elements compare equal. *)
Class Distinguishes {A} (cmp : A → A → comparison) : Prop := cmp_eq : ∀ a b, cmp a b = Eq → a = b.

#[global] Hint Mode Distinguishes ! ! : typeclass_instances.

#[global] Instance str_comparator : Comparator str_cmp.
Proof.
  split; unfold at_most, str_cmp.
  - intros a b. destruct (str_leb_total a b) as [H|H]; destruct (str_leb a b), (str_leb b a); done.
  - intros a b c. destruct (str_leb a b) eqn:Hab; [|done]. destruct (str_leb b c) eqn:Hbc; [|done].
    rewrite (str_leb_trans a b c Hab Hbc). by destruct (str_leb c a).
Qed.

#[global] Instance str_distinguishes : Distinguishes str_cmp.
Proof.
  intros a b. unfold str_cmp. destruct (str_leb a b) eqn:Hab; [|done]. destruct (str_leb b a) eqn:Hba; [|done].
  intros _. by apply str_leb_antisym.
Qed.

#[global] Instance bool_comparator : Comparator bool_cmp.
Proof. split; [by intros [] []|by intros [] [] []]. Qed.

#[global] Instance N_comparator : Comparator N.compare.
Proof.
  split; [intros a b; apply N.compare_antisym|]. unfold at_most. intros a b c. rewrite !N.compare_le_iff. lia.
Qed.

#[global] Instance Z_comparator : Comparator Z.compare.
Proof.
  split; [intros a b; apply Z.compare_antisym|]. unfold at_most. intros a b c. rewrite !Z.compare_le_iff. lia.
Qed.

(** By a key, reversed, and by one comparator and then another; with names of their own, so
    that instances are found by them. *)
Definition by_key {A B} (f : A → B) (cmp : B → B → comparison) (a b : A) : comparison := cmp (f a) (f b).

Definition reversed {A} (cmp : A → A → comparison) (a b : A) : comparison := cmp b a.

Definition lex {A} (c1 c2 : A → A → comparison) (a b : A) : comparison := then_with (c1 a b) (c2 a b).

#[global] Typeclasses Opaque by_key reversed lex.

#[global] Instance key_comparator {A B} (f : A → B) cmp `{!Comparator cmp} : Comparator (by_key f cmp).
Proof. split; [intros a b; apply (cmp_opp (cmp := cmp))|intros a b c; apply (cmp_trans (cmp := cmp) (f a) (f b) (f c))]. Qed.

#[global] Instance reversed_comparator {A} (cmp : A → A → comparison) `{!Comparator cmp} : Comparator (reversed cmp).
Proof.
  split; [intros a b; apply (cmp_opp (cmp := cmp))|intros a b c Hab Hbc; exact (cmp_trans (cmp := cmp) c b a Hbc Hab)].
Qed.

Lemma cmp_eq_squeeze {A} (cmp : A → A → comparison) `{!Comparator cmp} a b c :
  at_most cmp a b → at_most cmp b c → cmp a c = Eq → cmp a b = Eq ∧ cmp b c = Eq.
Proof.
  unfold at_most. intros Hab Hbc Hac. pose proof (cmp_opp (cmp := cmp) a c) as Hca. rewrite Hac in Hca. simpl in Hca.
  assert (at_most cmp c a) as Hca' by (unfold at_most; by rewrite Hca).
  pose proof (cmp_trans (cmp := cmp) _ _ _ Hca' Hab) as Hcb. pose proof (cmp_trans (cmp := cmp) _ _ _ Hbc Hca') as Hba. unfold at_most in *.
  rewrite (cmp_opp (cmp := cmp) b c) in Hcb. rewrite (cmp_opp (cmp := cmp) a b) in Hba. by destruct (cmp a b), (cmp b c).
Qed.

#[global] Instance lex_comparator {A} (c1 c2 : A → A → comparison) `{!Comparator c1, !Comparator c2} : Comparator (lex c1 c2).
Proof.
  split; unfold lex.
  - intros a b. rewrite (cmp_opp (cmp := c1) a b), (cmp_opp (cmp := c2) a b). by destruct (c1 a b).
  - intros a b c Hab Hbc.
    assert (at_most c1 a b ∧ at_most c1 b c) as [H1 H2].
    { unfold at_most in *. by destruct (c1 a b), (c1 b c). }
    pose proof (cmp_trans (cmp := c1) _ _ _ H1 H2) as H3. unfold at_most in *. destruct (c1 a c) eqn:E; [|done|done].
    destruct (cmp_eq_squeeze c1 a b c H1 H2 E) as [E1 E2]. rewrite E1 in Hab. rewrite E2 in Hbc. simpl in *.
    exact (cmp_trans (cmp := c2) a b c Hab Hbc).
Qed.

#[global] Instance lex_distinguishes {A} (c1 c2 : A → A → comparison) `{!Distinguishes c2} : Distinguishes (lex c1 c2).
Proof. intros a b. unfold lex. intros H. apply (cmp_eq (cmp := c2)). by destruct (c1 a b). Qed.

#[global] Instance reversed_distinguishes {A} (cmp : A → A → comparison) `{!Distinguishes cmp} : Distinguishes (reversed cmp).
Proof. intros a b H. symmetry. by apply (cmp_eq (cmp := cmp)). Qed.

Lemma at_most_refl {A} (cmp : A → A → comparison) `{!Comparator cmp} a : at_most cmp a a.
Proof. unfold at_most. pose proof (cmp_opp (cmp := cmp) a a). by destruct (cmp a a). Qed.

Lemma at_most_total {A} (cmp : A → A → comparison) `{!Comparator cmp} a b : at_most cmp a b ∨ at_most cmp b a.
Proof. unfold at_most. rewrite (cmp_opp (cmp := cmp) a b). destruct (cmp a b); auto. Qed.

Lemma at_most_antisym {A} (cmp : A → A → comparison) `{!Comparator cmp, !Distinguishes cmp} a b :
  at_most cmp a b → at_most cmp b a → a = b.
Proof. unfold at_most. rewrite (cmp_opp (cmp := cmp) a b). intros H1 H2. apply (cmp_eq (cmp := cmp)). by destruct (cmp a b). Qed.

#[global] Instance at_most_anti {A} (cmp : A → A → comparison) `{!Comparator cmp, !Distinguishes cmp} : AntiSymm (=) (at_most cmp).
Proof. intros a b. by apply at_most_antisym. Qed.

Lemma StronglySorted_weaken {A} (R Q : A → A → Prop) l :
  (∀ x y, x ∈ l → y ∈ l → R x y → Q x y) → StronglySorted R l → StronglySorted Q l.
Proof.
  intros H. induction 1 as [|x l Hl IH Hx]; constructor.
  - apply IH. intros y z Hy Hz. apply H; by right.
  - rewrite Forall_forall in Hx |- *. intros y Hy. apply H; [by left|by right|by apply Hx].
Qed.

Lemma StronglySorted_map {A B} (f : A → B) (R : B → B → Prop) l :
  StronglySorted (λ x y, R (f x) (f y)) l → StronglySorted R (f <$> l).
Proof. induction 1; rewrite ?fmap_nil, ?fmap_cons; constructor; [done|]. by apply Forall_fmap. Qed.

Lemma StronglySorted_lookup {A} (R : A → A → Prop) l i j x y :
  StronglySorted R l → i < j → l !! i = Some x → l !! j = Some y → R x y.
Proof.
  intros Hs. revert i j. induction Hs as [|z l Hs IH Hz]; intros [|i] [|j] Hij Hx Hy; simplify_eq/=; try lia.
  - rewrite Forall_forall in Hz. apply Hz. by eapply list_elem_of_lookup_2.
  - eapply IH; [|done..]. lia.
Qed.

(** ** sort_by *)

Section Sort.
Context {A : Type} (cmp : A → A → comparison).

Fixpoint insert_by (x : A) (l : list A) : list A :=
  match l with
  | [] => [x]
  | y :: k => if decide (at_most cmp x y) then x :: y :: k else y :: insert_by x k
  end.

Definition sort_by (l : list A) : list A := foldr insert_by [] l.

Lemma insert_by_perm x l : insert_by x l ≡ₚ x :: l.
Proof.
  induction l as [|y l IH]; simpl; [done|]. case_decide; [done|]. rewrite IH. apply Permutation_swap.
Qed.

Lemma sort_by_perm l : sort_by l ≡ₚ l.
Proof. induction l as [|x l IH]; simpl; [done|]. by rewrite insert_by_perm, IH. Qed.

Context `{!Comparator cmp}.

Lemma insert_by_sorted x l : StronglySorted (at_most cmp) l → StronglySorted (at_most cmp) (insert_by x l).
Proof.
  induction 1 as [|y l Hl IH Hy]; simpl; [repeat constructor|]. case_decide as Hxy.
  - constructor; [by constructor|]. constructor; [done|]. eapply Forall_impl; [exact Hy|]. intros z. by apply (cmp_trans (cmp := cmp)).
  - constructor; [done|]. rewrite insert_by_perm. constructor; [|done]. by destruct (at_most_total cmp x y).
Qed.

Lemma sort_by_sorted l : StronglySorted (at_most cmp) (sort_by l).
Proof. induction l as [|x l IH]; simpl; [constructor|]. by apply insert_by_sorted. Qed.

(** A sorted list is left as it is. *)
Lemma sort_by_id l : StronglySorted (at_most cmp) l → sort_by l = l.
Proof.
  induction 1 as [|x l Hl IH Hx]; simpl; [done|]. rewrite IH. destruct Hx as [|y l Hy]; simpl; [done|].
  by rewrite decide_True.
Qed.

(** The first element is least. *)
Lemma sort_by_head l x y : head (sort_by l) = Some x → y ∈ l → at_most cmp x y.
Proof.
  intros Hx Hy. rewrite <- (sort_by_perm l) in Hy. pose proof (sort_by_sorted l) as Hs. destruct (sort_by l) as [|z k]; [done|].
  injection Hx as ->. apply elem_of_cons in Hy as [->|Hy]; [by apply at_most_refl|].
  apply StronglySorted_inv in Hs as [_ Hz]. rewrite Forall_forall in Hz. by apply Hz.
Qed.

(** Where elements that compare equal are equal, one list of them is sorted. *)
Lemma sort_by_canonical l k :
  (∀ x y, x ∈ l → y ∈ l → cmp x y = Eq → x = y) → l ≡ₚ k → sort_by l = sort_by k.
Proof.
  intros Heq Hp. apply (StronglySorted_unique_strong (at_most cmp)); [|apply sort_by_sorted..|by rewrite !sort_by_perm].
  intros x y Hx Hy H1 H2. rewrite sort_by_perm in Hx. rewrite sort_by_perm, <- Hp in Hy. apply Heq; [done..|].
  unfold at_most in *. rewrite (cmp_opp (cmp := cmp) x y) in H2. by destruct (cmp x y).
Qed.
End Sort.

(** [sort_by_key]: stable, by a number *)
Definition sort_by_key {A} (f : A → N) (l : list A) : list A := sort_by (by_key f N.compare) l.
