(* ===== verification/Ipv4.v ===== *)
(** * [std::net::Ipv4Addr]

    The address type of the Rust standard library: four octets, their dotted
    rendering ([Display]) and the strict parser ([FromStr]: exactly four
    decimal octets of one to three digits, no leading zero, at most 255). *)

From S2P Require Import Prelude.

Record Ipv4Addr : Set := Ipv4 { oct0 : N; oct1 : N; oct2 : N; oct3 : N }.

#[global] Instance Ipv4Addr_eq_dec : EqDecision Ipv4Addr.
Proof. solve_decision. Defined.

#[global] Instance Ipv4Addr_countable : Countable Ipv4Addr.
Proof.
  refine (inj_countable' (λ ip, (oct0 ip, oct1 ip, oct2 ip, oct3 ip))
                         (λ '(a, b, c, d), Ipv4 a b c d) _).
  by intros [].
Defined.

Definition is_octet (n : N) : bool := (n <=? 255)%N.

Definition ip_wf (ip : Ipv4Addr) : bool :=
  is_octet (oct0 ip) && is_octet (oct1 ip) && is_octet (oct2 ip) && is_octet (oct3 ip).

Definition LOCALHOST : Ipv4Addr := Ipv4 127 0 0 1.

Definition ip_display (ip : Ipv4Addr) : str :=
  join (lit ".") [dec_str (oct0 ip); dec_str (oct1 ip); dec_str (oct2 ip); dec_str (oct3 ip)].

Definition parse_octet (s : str) : option N :=
  if (3 <? length s)%nat then None
  else match s with
       | [] => None
       | c :: _ =>
           if N.eqb c 48 && (1 <? length s)%nat then None
           else u ← parse_digits s;
                let n := N.of_uint u in
                if is_octet n then Some n else None
       end.

Definition parse_ipv4 (s : str) : option Ipv4Addr :=
  match split_char 46 s with
  | [a; b; c; d] =>
      a ← parse_octet a; b ← parse_octet b; c ← parse_octet c; d ← parse_octet d;
      Some (Ipv4 a b c d)
  | _ => None
  end.

(** ** Rendering and parsing are inverse *)

Definition octets : list N := N.of_nat <$> seq 0 256.

Lemma elem_of_octets (n : N) : is_octet n = true → n ∈ octets.
Proof.
  unfold is_octet. intros H. bool_to_prop. apply list_elem_of_fmap.
  exists (N.to_nat n). split; [lia|]. apply elem_of_seq. lia.
Qed.

Lemma parse_octet_dec_str (n : N) : is_octet n = true → parse_octet (dec_str n) = Some n.
Proof.
  intros H%elem_of_octets.
  assert (Forall (λ n, parse_octet (dec_str n) = Some n) octets) as Hall.
  { refine (bool_decide_unpack (Forall (λ n, parse_octet (dec_str n) = Some n) octets) _).
    vm_compute. exact I. }
  by eapply Forall_forall in Hall.
Qed.

Lemma dec_str_no_sep (n : N) (c : char) : is_ascii_digit c = false → Forall (λ x, x ≠ c) (dec_str n).
Proof.
  intros Hc. eapply Forall_impl; [apply uint_str_digits|].
  intros x Hx ->. congruence.
Qed.

Lemma parse_ipv4_display (ip : Ipv4Addr) : ip_wf ip = true → parse_ipv4 (ip_display ip) = Some ip.
Proof.
  unfold ip_wf. intros H. bool_to_prop. destruct ip as [a b c d]; simpl in *.
  unfold parse_ipv4, ip_display. simpl oct0; simpl oct1; simpl oct2; simpl oct3.
  change (lit ".") with [46%N]. rewrite split_char_join; [|done|].
  - simpl. rewrite !parse_octet_dec_str by done. done.
  - repeat constructor; by apply dec_str_no_sep.
Qed.

Lemma ip_display_chars (ip : Ipv4Addr) :
  Forall (λ c, is_ascii_digit c = true ∨ c = 46%N) (ip_display ip).
Proof.
  assert (∀ n, Forall (λ c, is_ascii_digit c = true ∨ c = 46%N) (dec_str n)).
  { intros n. eapply Forall_impl; [apply uint_str_digits|]. by left. }
  apply join_Forall; [|by repeat constructor].
  constructor; [by right|done].
Qed.

Lemma ip_display_nonempty (ip : Ipv4Addr) : ip_display ip ≠ [].
Proof.
  unfold ip_display. simpl. pose proof (uint_str_nonempty (oct0 ip)). unfold dec_str in *.
  by destruct (uint_str (N.to_uint (oct0 ip))).
Qed.
