(* ===== verification/IpAlloc.v ===== *)
(** * Loopback allocation (core/src/globalfwd/ipalloc.rs)

    [IpAllocator] with its maps and cursors, [allocate], [reserve] and
    [release].  Every operation returns the new state, also when it fails:
    a failed [allocate] may already have created an octet cursor. *)

From S2P Require Import Prelude Ipv4.

Definition is_loopback_v4 (ip : Ipv4Addr) : bool := (oct0 ip =? 127)%N.

Inductive AllocError : Set :=
  | Exhausted (what : str)
  | AlreadyUsed (ip : Ipv4Addr)
  | NotLoopback (ip : Ipv4Addr).

Record IpAllocator : Type := {
  used : gset Ipv4Addr;
  cluster_octet : gmap str N;
  next_cluster : N;
  ns_octet : gmap (str * str) N;
  next_ns : gmap str N;
  next_svc : gmap (str * str) N;
  assigned : gmap (str * str * str) Ipv4Addr
}.

Definition new : IpAllocator :=
  {| used := ∅; cluster_octet := ∅; next_cluster := 1%N; ns_octet := ∅;
     next_ns := ∅; next_svc := ∅; assigned := ∅ |}.

Definition is_used (a : IpAllocator) (ip : Ipv4Addr) : bool := bool_decide (ip ∈ used a).

Definition in_use (a : IpAllocator) : nat := size (used a).

Definition cluster_octet_for (a : IpAllocator) (cluster : str)
    : result N AllocError * IpAllocator :=
  match cluster_octet a !! cluster with
  | Some o => (Ok o, a)
  | None =>
      if (255 <? next_cluster a)%N then (Err (Exhausted "cluster"), a)
      else
        let o := next_cluster a in
        (Ok o, {| used := used a;
                  cluster_octet := <[cluster := o]> (cluster_octet a);
                  next_cluster := (next_cluster a + 1)%N;
                  ns_octet := ns_octet a; next_ns := next_ns a;
                  next_svc := next_svc a; assigned := assigned a |})
  end.

Definition ns_octet_for (a : IpAllocator) (cluster ns : str)
    : result N AllocError * IpAllocator :=
  match ns_octet a !! (cluster, ns) with
  | Some o => (Ok o, a)
  | None =>
      let next := default 0%N (next_ns a !! cluster) in
      if (255 <? next)%N then
        (Err (Exhausted "namespace"),
         {| used := used a; cluster_octet := cluster_octet a;
            next_cluster := next_cluster a; ns_octet := ns_octet a;
            next_ns := <[cluster := next]> (next_ns a);
            next_svc := next_svc a; assigned := assigned a |})
      else
        (Ok next,
         {| used := used a; cluster_octet := cluster_octet a;
            next_cluster := next_cluster a;
            ns_octet := <[(cluster, ns) := next]> (ns_octet a);
            next_ns := <[cluster := (next + 1)%N]> (next_ns a);
            next_svc := next_svc a; assigned := assigned a |})
  end.

(** [(start..=255).chain(1..start)] *)
Definition candidates (start : N) : list N :=
  (N.of_nat <$> seq (N.to_nat start) (256 - N.to_nat start))
  ++ (N.of_nat <$> seq 1 (N.to_nat start - 1)).

(** [u8::saturating_add] *)
Definition saturating_add_u8 (x y : N) : N := N.min 255 (x + y).

Definition insert_used (a : IpAllocator) (ip : Ipv4Addr) : IpAllocator :=
  {| used := ({[ip]} ∪ used a); cluster_octet := cluster_octet a;
     next_cluster := next_cluster a; ns_octet := ns_octet a; next_ns := next_ns a;
     next_svc := next_svc a; assigned := assigned a |}.

(** The scan of [allocate] over the candidate octets of row [127.c.n.*]. *)
Fixpoint scan (a : IpAllocator) (skey : str * str * str) (key : str * str) (c n : N)
    (ds : list N) : result Ipv4Addr AllocError * IpAllocator :=
  match ds with
  | [] => (Err (Exhausted "service"), a)
  | d :: ds' =>
      let ip := Ipv4 127 c n d in
      if is_used a ip then scan a skey key c n ds'
      else
        (Ok ip,
         {| used := ({[ip]} ∪ used a); cluster_octet := cluster_octet a;
            next_cluster := next_cluster a; ns_octet := ns_octet a; next_ns := next_ns a;
            next_svc := <[key := saturating_add_u8 d 1]> (next_svc a);
            assigned := <[skey := ip]> (assigned a) |})
  end.

Definition allocate_fresh (a : IpAllocator) (cluster ns service : str)
    : result Ipv4Addr AllocError * IpAllocator :=
  match cluster_octet_for a cluster with
  | (Err e, a1) => (Err e, a1)
  | (Ok c, a1) =>
      match ns_octet_for a1 cluster ns with
      | (Err e, a2) => (Err e, a2)
      | (Ok n, a2) =>
          let start := default 1%N (next_svc a2 !! (cluster, ns)) in
          scan a2 (cluster, ns, service) (cluster, ns) c n (candidates start)
      end
  end.

Definition allocate (a : IpAllocator) (cluster ns service : str)
    : result Ipv4Addr AllocError * IpAllocator :=
  match assigned a !! (cluster, ns, service) with
  | Some ip =>
      if is_used a ip then allocate_fresh a cluster ns service
      else (Ok ip, insert_used a ip)
  | None => allocate_fresh a cluster ns service
  end.

Definition reserve (a : IpAllocator) (ip : Ipv4Addr) : result unit AllocError * IpAllocator :=
  if negb (is_loopback_v4 ip) then (Err (NotLoopback ip), a)
  else if is_used a ip then (Err (AlreadyUsed ip), a)
  else (Ok tt, insert_used a ip).

Definition release (a : IpAllocator) (ip : Ipv4Addr) : IpAllocator :=
  {| used := used a ∖ {[ip]}; cluster_octet := cluster_octet a;
     next_cluster := next_cluster a; ns_octet := ns_octet a; next_ns := next_ns a;
     next_svc := next_svc a; assigned := assigned a |}.

(** ** Runs of the allocator *)

Inductive op : Set :=
  | Allocate (cluster ns service : str)
  | Reserve (ip : Ipv4Addr)
  | Release (ip : Ipv4Addr).

Definition step (a : IpAllocator) (o : op) : IpAllocator :=
  match o with
  | Allocate c n s => (allocate a c n s).2
  | Reserve ip => (reserve a ip).2
  | Release ip => release a ip
  end.

Definition run (a : IpAllocator) (ops : list op) : IpAllocator := foldl step a ops.

(** ** Invariant *)

(** The address is in the row of (cluster, ns) and its last octet is a host. *)
Definition in_row (a : IpAllocator) (cluster ns : str) (ip : Ipv4Addr) : Prop :=
  ∃ c n d, cluster_octet a !! cluster = Some c ∧ ns_octet a !! (cluster, ns) = Some n ∧
           ip = Ipv4 127 c n d ∧ (1 ≤ d ≤ 255)%N.

Record wf (a : IpAllocator) : Prop := {
  wf_next_cluster : (1 ≤ next_cluster a ≤ 256)%N;
  wf_cluster : ∀ k o, cluster_octet a !! k = Some o → (1 ≤ o < next_cluster a)%N;
  wf_cluster_inj : ∀ k k' o, cluster_octet a !! k = Some o → cluster_octet a !! k' = Some o → k = k';
  wf_next_ns : ∀ k o, next_ns a !! k = Some o → (o ≤ 256)%N;
  wf_ns : ∀ k ns o, ns_octet a !! (k, ns) = Some o → ∃ nx, next_ns a !! k = Some nx ∧ (o < nx)%N;
  wf_ns_inj : ∀ k ns ns' o, ns_octet a !! (k, ns) = Some o → ns_octet a !! (k, ns') = Some o → ns = ns';
  wf_svc : ∀ k d, next_svc a !! k = Some d → (1 ≤ d ≤ 255)%N;
  wf_assigned : ∀ k ns s ip, assigned a !! (k, ns, s) = Some ip → in_row a k ns ip
}.

(** The octet tables only grow. *)
Definition grows (a a' : IpAllocator) : Prop :=
  cluster_octet a ⊆ cluster_octet a' ∧ ns_octet a ⊆ ns_octet a'.

#[export] Instance grows_preorder : PreOrder grows.
Proof.
  split; [by split|]. intros a b c [H1 H2] [H3 H4]. split; by etrans.
Qed.

Lemma in_row_grows a a' k ns ip : grows a a' → in_row a k ns ip → in_row a' k ns ip.
Proof.
  intros [Hc Hn] (c & n & d & H1 & H2 & H3). exists c, n, d.
  split; [by eapply lookup_weaken|]. split; [by eapply lookup_weaken|done].
Qed.

Lemma in_row_inj a k ns k' ns' ip :
  wf a → in_row a k ns ip → in_row a k' ns' ip → k = k' ∧ ns = ns'.
Proof.
  intros W (c & n & d & Hc & Hn & -> & _) (c' & n' & d' & Hc' & Hn' & [= -> -> ->] & _).
  assert (k = k') as -> by eauto using wf_cluster_inj. split; [done|].
  eauto using wf_ns_inj.
Qed.

Lemma in_row_host a k ns ip : wf a → in_row a k ns ip →
  is_loopback_v4 ip = true ∧ ip_wf ip = true ∧ ip ≠ LOCALHOST ∧ oct3 ip ≠ 0%N.
Proof.
  intros W (c & n & d & Hc & Hn & -> & Hd). unfold is_loopback_v4, ip_wf, is_octet, LOCALHOST; simpl.
  apply (wf_cluster _ W) in Hc. apply (wf_ns _ W) in Hn as (nx & Hnx & Hn).
  apply (wf_next_ns _ W) in Hnx. pose proof (wf_next_cluster _ W).
  split_and!; [done| |intros [= ? ? ?]; lia|lia].
  rewrite !andb_true_iff, !N.leb_le. lia.
Qed.

(** ** The two octet tables *)

Lemma cluster_octet_for_spec a cl :
  wf a →
  match cluster_octet_for a cl with
  | (Ok c, a') => wf a' ∧ grows a a' ∧ cluster_octet a' !! cl = Some c
                  ∧ used a' = used a ∧ ns_octet a' = ns_octet a ∧ next_ns a' = next_ns a
                  ∧ next_svc a' = next_svc a ∧ assigned a' = assigned a
  | (Err e, a') => e = Exhausted "cluster" ∧ a' = a
                   ∧ cluster_octet a !! cl = None ∧ next_cluster a = 256%N
  end.
Proof.
  intros W. unfold cluster_octet_for. destruct (cluster_octet a !! cl) as [o|] eqn:E.
  { by split_and!. }
  destruct (N.ltb_spec 255 (next_cluster a)); simpl.
  { destruct W. split_and!; [done..|lia]. }
  assert (grows a {| used := used a; cluster_octet := <[cl:=next_cluster a]> (cluster_octet a);
     next_cluster := next_cluster a + 1; ns_octet := ns_octet a; next_ns := next_ns a;
     next_svc := next_svc a; assigned := assigned a |}) as Hg.
  { split; simpl; [by apply insert_subseteq|done]. }
  split_and!; try done; [|by rewrite lookup_insert_eq].
  destruct W. constructor; simpl; [lia|..|by eauto using in_row_grows]; try done.
  - intros k o. rewrite lookup_insert. intros Hk. case_decide; simplify_eq; [lia|].
    apply wf_cluster0 in Hk. lia.
  - intros k k' o. rewrite !lookup_insert. intros Hk Hk'.
    repeat case_decide; simplify_eq; eauto;
      match goal with H : cluster_octet a !! _ = _ |- _ => apply wf_cluster0 in H; lia end.
Qed.

Lemma ns_octet_for_spec a cl ns :
  wf a →
  match ns_octet_for a cl ns with
  | (Ok n, a') => wf a' ∧ grows a a' ∧ ns_octet a' !! (cl, ns) = Some n
                  ∧ used a' = used a ∧ cluster_octet a' = cluster_octet a
                  ∧ next_svc a' = next_svc a ∧ assigned a' = assigned a
  | (Err e, a') => wf a' ∧ grows a a' ∧ e = Exhausted "namespace"
                   ∧ ns_octet a !! (cl, ns) = None ∧ next_ns a !! cl = Some 256%N
                   ∧ used a' = used a ∧ assigned a' = assigned a
  end.
Proof.
  intros W. unfold ns_octet_for. destruct (ns_octet a !! (cl, ns)) as [o|] eqn:E.
  { by split_and!. }
  set (next := default 0%N (next_ns a !! cl)).
  destruct (N.ltb_spec 255 next) as [Hlt|Hle]; simpl.
  - assert (next_ns a !! cl = Some 256%N) as Hns.
    { unfold next in Hlt. destruct (next_ns a !! cl) as [x|] eqn:Ex; simpl in Hlt; [|lia].
      apply (wf_next_ns _ W) in Ex. f_equal. lia. }
    unfold next. rewrite Hns. simpl. rewrite insert_id by done.
    destruct a; simpl in *. by split_and!.
  - assert (grows a {| used := used a; cluster_octet := cluster_octet a;
       next_cluster := next_cluster a; ns_octet := <[(cl, ns):=next]> (ns_octet a);
       next_ns := <[cl:=(next + 1)%N]> (next_ns a);
       next_svc := next_svc a; assigned := assigned a |}) as Hg.
    { split; simpl; [done|by apply insert_subseteq]. }
    split_and!; try done; [|by rewrite lookup_insert_eq].
    assert (∀ ns' o, ns_octet a !! (cl, ns') = Some o → (o < next)%N) as Hbelow.
    { intros ns' o (nx & Hnx & ?)%(wf_ns _ W). unfold next. by rewrite Hnx. }
    destruct W. constructor; simpl; try done; [..|by eauto using in_row_grows].
    + intros k o. rewrite lookup_insert. intros Hk. case_decide; simplify_eq; [lia|eauto].
    + intros k ns' o. rewrite !lookup_insert. intros Hk. repeat case_decide; simplify_eq.
      * eexists; split; [done|lia].
      * apply Hbelow in Hk. eexists; split; [done|lia].
      * eauto.
    + intros k ns1 ns2 o. rewrite !lookup_insert. intros Hk Hk'.
      repeat case_decide; simplify_eq; eauto;
        match goal with H : ns_octet a !! _ = _ |- _ => apply Hbelow in H; lia end.
Qed.

(** ** The candidate scan *)

Lemma elem_of_candidates (start d : N) :
  (1 ≤ start ≤ 255)%N → d ∈ candidates start ↔ (1 ≤ d ≤ 255)%N.
Proof.
  intros Hs. unfold candidates. rewrite elem_of_app, !list_elem_of_fmap.
  setoid_rewrite elem_of_seq. split.
  - intros [(x & -> & ?)|(x & -> & ?)]; lia.
  - intros Hd. destruct (decide (start ≤ d)%N); [left|right]; exists (N.to_nat d); lia.
Qed.

Lemma scan_spec a skey key c n ds :
  match scan a skey key c n ds with
  | (Ok ip, a') => ∃ d, d ∈ ds ∧ ip = Ipv4 127 c n d ∧ (ip ∉ used a)
                    ∧ a' = {| used := ({[ip]} ∪ used a); cluster_octet := cluster_octet a;
                              next_cluster := next_cluster a; ns_octet := ns_octet a;
                              next_ns := next_ns a;
                              next_svc := <[key := saturating_add_u8 d 1]> (next_svc a);
                              assigned := <[skey := ip]> (assigned a) |}
  | (Err e, a') => e = Exhausted "service" ∧ a' = a ∧ ∀ d, d ∈ ds → Ipv4 127 c n d ∈ used a
  end.
Proof.
  induction ds as [|d ds IH]; simpl.
  { split_and!; try done. set_solver. }
  unfold is_used. case_bool_decide as Hu; simpl.
  - destruct (scan a skey key c n ds) as [[ip|e] a'].
    + destruct IH as (d' & Hd' & Hrest). exists d'. split; [by right|exact Hrest].
    + destruct IH as (-> & -> & Hds). split_and!; [done..|].
      intros d' [->|Hd']%elem_of_cons; auto.
  - exists d. split; [by left|done].
Qed.

(** ** The operations *)

Definition alloc_failure (a a' : IpAllocator) (k ns : str) (e : AllocError) : Prop :=
  (e = Exhausted "cluster" ∧ cluster_octet a !! k = None ∧ next_cluster a = 256%N)
  ∨ (e = Exhausted "namespace" ∧ ns_octet a !! (k, ns) = None ∧ next_ns a !! k = Some 256%N)
  ∨ (e = Exhausted "service" ∧ ∃ c n, cluster_octet a' !! k = Some c ∧ ns_octet a' !! (k, ns) = Some n
       ∧ ∀ d, (1 ≤ d ≤ 255)%N → Ipv4 127 c n d ∈ used a).

Definition alloc_post (a : IpAllocator) (k ns s : str)
    (out : result Ipv4Addr AllocError * IpAllocator) : Prop :=
  let a' := out.2 in
  wf a' ∧ grows a a' ∧
  match out.1 with
  | Ok ip => in_row a' k ns ip ∧ (ip ∉ used a) ∧ used a' = {[ip]} ∪ used a
             ∧ assigned a' = <[(k, ns, s) := ip]> (assigned a)
  | Err e => alloc_failure a a' k ns e ∧ used a' = used a ∧ assigned a' = assigned a
  end.

Lemma wf_used a u : wf a →
  wf {| used := u; cluster_octet := cluster_octet a; next_cluster := next_cluster a;
        ns_octet := ns_octet a; next_ns := next_ns a; next_svc := next_svc a;
        assigned := assigned a |}.
Proof. intros []. by constructor. Qed.

Lemma allocate_fresh_spec a k ns s : wf a → alloc_post a k ns s (allocate_fresh a k ns s).
Proof.
  intros W. unfold allocate_fresh, alloc_post, alloc_failure.
  pose proof (cluster_octet_for_spec a k W) as Hc.
  destruct (cluster_octet_for a k) as [[c|e] a1]; simpl.
  2: { destruct Hc as (-> & -> & ? & ?). split_and!; try done. by left. }
  destruct Hc as (W1 & G1 & Hc & Hu1 & Hno1 & Hnn1 & _ & Has1).
  pose proof (ns_octet_for_spec a1 k ns W1) as Hn.
  destruct (ns_octet_for a1 k ns) as [[n|e] a2]; simpl.
  2: { destruct Hn as (W2 & G2 & -> & ? & ? & Hu2 & Has2).
       split_and!; [done|by etrans|right; left|congruence..]. by rewrite <- Hno1, <- Hnn1. }
  destruct Hn as (W2 & G2 & Hn & Hu2 & Hco2 & Hsv2 & Has2).
  set (start := default 1%N (next_svc a2 !! (k, ns))).
  assert (1 ≤ start ≤ 255)%N as Hstart.
  { unfold start. destruct (next_svc a2 !! (k, ns)) eqn:E; simpl; [|lia]. by eapply wf_svc in E. }
  pose proof (scan_spec a2 (k, ns, s) (k, ns) c n (candidates start)) as Hscan.
  destruct (scan _ _ _ _ _ _) as [[ip|e] a3]; simpl.
  - destruct Hscan as (d & Hd & -> & Hnu & ->). apply (elem_of_candidates _ _ Hstart) in Hd.
    assert (cluster_octet a2 !! k = Some c) as Hc2 by congruence.
    assert (in_row a2 k ns (Ipv4 127 c n d)) as Hrow by by exists c, n, d.
    split_and!; simpl; [|by etrans|done|congruence..].
    destruct W2. constructor; simpl; try done.
    + intros k' d'. rewrite lookup_insert. case_decide; intros; simplify_eq; [|eauto].
      unfold saturating_add_u8. lia.
    + intros k' ns' s' ip. rewrite lookup_insert. case_decide; intros; simplify_eq; [done|].
      by eapply (wf_assigned0 _ _ _ _ H0).
  - destruct Hscan as (-> & -> & Hall). split_and!; [done|by etrans| |congruence..].
    right; right. split; [done|]. exists c, n. split_and!; [congruence|done|].
    intros d Hd. rewrite <- Hu1, <- Hu2. by apply Hall, elem_of_candidates.
Qed.

Lemma allocate_spec a k ns s : wf a → alloc_post a k ns s (allocate a k ns s).
Proof.
  intros W. unfold allocate.
  destruct (assigned a !! (k, ns, s)) as [ip|] eqn:E; [|by apply allocate_fresh_spec].
  unfold is_used. case_bool_decide; [by apply allocate_fresh_spec|].
  split; [by apply wf_used|]. split; [done|]. simpl.
  split_and!; [exact (wf_assigned _ W _ _ _ _ E)|done..|by rewrite insert_id].
Qed.

Lemma wf_new : wf new.
Proof. constructor; simpl; [lia|..]; intros *; rewrite ?lookup_empty; done. Qed.

Lemma wf_step a o : wf a → wf (step a o).
Proof.
  intros W. destruct o as [k ns s|ip|ip]; simpl.
  - by destruct (allocate_spec a k ns s W).
  - unfold reserve. repeat case_match; simpl; try done. by apply wf_used.
  - by apply wf_used.
Qed.

Lemma wf_run a ops : wf a → wf (run a ops).
Proof. revert a. induction ops as [|o ops IH]; intros a W; simpl; [done|]. by apply IH, wf_step. Qed.

Lemma wf_reachable ops : wf (run new ops).
Proof. apply wf_run, wf_new. Qed.

Lemma grows_step a o : wf a → grows a (step a o).
Proof.
  intros W. destruct o as [k ns s|ip|ip]; simpl; [|unfold reserve; by repeat case_match|done].
  by destruct (allocate_spec a k ns s W) as (_ & G & _).
Qed.

Lemma grows_run a ops : wf a → grows a (run a ops).
Proof.
  revert a. induction ops as [|o ops IH]; intros a W; simpl; [done|].
  etrans; [by apply grows_step|]. by apply IH, wf_step.
Qed.

#[export] Hint Resolve wf_new wf_step wf_run wf_reachable : ferris.

(** Operations other than [allocate] of the same service keep its assignment. *)
Lemma assigned_step a o key :
  (∀ k ns s, o = Allocate k ns s → (k, ns, s) ≠ key) → wf a →
  assigned (step a o) !! key = assigned a !! key.
Proof.
  intros Ho W. destruct o as [k ns s|ip|ip]; simpl; [| |done].
  - destruct (allocate_spec a k ns s W) as (_ & _ & H).
    destruct (allocate a k ns s) as [[ip|e] a']; simpl in *.
    + destruct H as (_ & _ & _ & ->). by rewrite lookup_insert_ne by eauto.
    + by destruct H as (_ & _ & ->).
  - unfold reserve. by repeat case_match.
Qed.

Lemma assigned_run a ops key :
  Forall (λ o, ∀ k ns s, o = Allocate k ns s → (k, ns, s) ≠ key) ops → wf a →
  assigned (run a ops) !! key = assigned a !! key.
Proof.
  intros H. revert a. induction H as [|o ops Ho _ IH]; intros a W; simpl; [done|].
  rewrite IH by auto with ferris. by apply assigned_step.
Qed.

(** ** Properties *)

(** whatever sequence of operations came before, an address [allocate] hands
    out is a well-formed loopback address other than [127.0.0.1], never a [.0]
    network address, was not in use, and is the only address the call adds. *)
Theorem allocate_fresh_host ops k ns s ip a' :
  allocate (run new ops) k ns s = (Ok ip, a') →
  is_loopback_v4 ip = true ∧ ip_wf ip = true ∧ ip ≠ LOCALHOST ∧ oct3 ip ≠ 0%N
  ∧ (ip ∉ used (run new ops)) ∧ used a' = {[ip]} ∪ used (run new ops).
Proof.
  intros H. pose proof (allocate_spec (run new ops) k ns s (wf_reachable ops)) as Hs.
  rewrite H in Hs. destruct Hs as (W & _ & Hrow & Hnu & Hu & _); simpl in *.
  destruct (in_row_host _ _ _ _ W Hrow) as (? & ? & ? & ?). by split_and!.
Qed.

Lemma allocate_fresh_host_witness :
  let ops := [Allocate "ctx" "default" "a"; Release (Ipv4 127 1 0 1)] in
  let ip := Ipv4 127 1 0 2 in
  is_loopback_v4 ip = true ∧ ip_wf ip = true ∧ ip ≠ LOCALHOST ∧ oct3 ip ≠ 0%N
  ∧ (ip ∉ used (run new ops))
  ∧ used (allocate (run new ops) "ctx" "default" "b").2 = {[ip]} ∪ used (run new ops).
Proof.
  intros ops ip. apply (allocate_fresh_host ops "ctx" "default" "b").
  vm_compute. reflexivity.
Defined.

(** two allocations for different (cluster, namespace) pairs of one history
    never get the same address, however much happens in between. *)
Theorem allocate_rows_disjoint ops k ns s ip a1 ops' k' ns' s' ip' a2 :
  allocate (run new ops) k ns s = (Ok ip, a1) →
  allocate (run a1 ops') k' ns' s' = (Ok ip', a2) →
  (k, ns) ≠ (k', ns') → ip ≠ ip'.
Proof.
  intros H1 H2 Hne ->.
  pose proof (allocate_spec (run new ops) k ns s (wf_reachable ops)) as S1. rewrite H1 in S1.
  destruct S1 as (W1 & _ & Hrow & _); simpl in *.
  pose proof (allocate_spec (run a1 ops') k' ns' s' (wf_run _ _ W1)) as S2. rewrite H2 in S2.
  destruct S2 as (W2 & G2 & Hrow' & _); simpl in *.
  apply Hne. apply (in_row_grows _ a2) in Hrow.
  - by destruct (in_row_inj _ _ _ _ _ _ W2 Hrow Hrow') as [-> ->].
  - etrans; [by apply grows_run|done].
Qed.

Lemma allocate_rows_disjoint_witness : Ipv4 127 1 0 1 ≠ Ipv4 127 1 1 1.
Proof.
  eapply (allocate_rows_disjoint [] "ctx" "a" "svc" _ _ [Release (Ipv4 127 1 0 1)] "ctx" "b" "svc");
    [vm_compute; reflexivity|vm_compute; reflexivity|by vm_compute].
Defined.

(** in a row that exists, [allocate] succeeds exactly when some host address
    of the row is free: the wrap-around scan misses none, so repeated
    enable/disable cycles cannot exhaust a namespace. *)
Theorem allocate_complete ops k ns s c n :
  cluster_octet (run new ops) !! k = Some c →
  ns_octet (run new ops) !! (k, ns) = Some n →
  (∃ ip, (allocate (run new ops) k ns s).1 = Ok ip) ↔
  (∃ d, (1 ≤ d ≤ 255)%N ∧ (Ipv4 127 c n d ∉ used (run new ops))).
Proof.
  intros Hc Hn. pose proof (allocate_spec (run new ops) k ns s (wf_reachable ops)) as (W & [Gc Gn] & H).
  destruct (allocate (run new ops) k ns s) as [[ip|e] a']; simpl in *.
  - destruct H as ((c' & n' & d & Hc' & Hn' & -> & Hd) & Hnu & _). split; [|by eauto].
    intros _. exists d. split; [done|].
    eapply lookup_weaken in Hc, Hn; [|done..]. by simplify_eq.
  - destruct H as [[(_ & ? & _)|[(_ & ? & _)|(_ & c' & n' & Hc' & Hn' & Hall)]] _]; [congruence..|].
    eapply lookup_weaken in Hc, Hn; [|done..]. simplify_eq.
    split; [by intros []|]. intros (d & Hd & Hnu). by destruct Hnu; auto.
Qed.

Lemma allocate_complete_witness :
  (∃ ip, (allocate (run new [Allocate "ctx" "default" "a"]) "ctx" "default" "b").1 = Ok ip) ↔
  (∃ d, (1 ≤ d ≤ 255)%N ∧ (Ipv4 127 1 0 d ∉ used (run new [Allocate "ctx" "default" "a"]))).
Proof.
  apply (allocate_complete [Allocate "ctx" "default" "a"] "ctx" "default" "b");
    vm_compute; reflexivity.
Defined.

(** a service keeps its address across disable/enable cycles: after it was
    given [ip], as long as the address is free again and nobody allocated for
    that same service in between, [allocate] returns [ip] once more. *)
Theorem allocate_stable ops k ns s ip a1 ops' :
  allocate (run new ops) k ns s = (Ok ip, a1) →
  Forall (λ o, ∀ k' ns' s', o = Allocate k' ns' s' → (k', ns', s') ≠ (k, ns, s)) ops' →
  ip ∉ used (run a1 ops') →
  allocate (run a1 ops') k ns s = (Ok ip, insert_used (run a1 ops') ip).
Proof.
  intros H Hops Hfree.
  pose proof (allocate_spec (run new ops) k ns s (wf_reachable ops)) as S1. rewrite H in S1.
  destruct S1 as (W1 & _ & _ & _ & _ & Has); simpl in *.
  unfold allocate. rewrite (assigned_run a1 ops' (k, ns, s)) by done.
  rewrite Has, lookup_insert_eq. unfold is_used. by rewrite bool_decide_eq_false_2.
Qed.

Lemma allocate_stable_witness :
  let ip := Ipv4 127 1 0 1 in
  let a1 := (allocate (run new []) "ctx" "pulsar" "core").2 in
  let ops := [Release ip; Allocate "ctx" "pulsar" "envoy"; Release (Ipv4 127 1 0 2)] in
  allocate (run a1 ops) "ctx" "pulsar" "core" = (Ok ip, insert_used (run a1 ops) ip).
Proof.
  intros ip a1 ops. apply (allocate_stable [] "ctx" "pulsar" "core" ip a1 ops).
  - vm_compute. reflexivity.
  - repeat constructor; intros ? ? ? [=]; subst; by vm_compute.
  - decided.
Defined.
