(* ===== verification/Hostnames.v ===== *)
(** * In-cluster host names (core/src/globalfwd/hostnames.rs)

    Derivation of the DNS names of a service, removal of ambiguous bare names,
    and the host-name check the privileged helper applies. *)

From S2P Require Import Prelude.

Definition sanitize_label (s : str) : str :=
  trim_matches (N.eqb HYPHEN)
    ((λ ch, if is_ascii_alphanumeric ch then to_ascii_lowercase ch else HYPHEN) <$> s).

Definition variants (service namespace : str) : list str :=
  let svc := sanitize_label service in
  let ns := sanitize_label namespace in
  if bool_decide (svc = []) || bool_decide (ns = []) then []
  else [svc;
        svc ++ lit "." ++ ns;
        svc ++ lit "." ++ ns ++ lit ".svc";
        svc ++ lit "." ++ ns ++ lit ".svc.cluster.local"].

Definition variants_with_context (service namespace : str) (context : option str) : list str :=
  let out := variants service namespace in
  match context with
  | None => out
  | Some ctx =>
      let svc := sanitize_label service in
      let ns := sanitize_label namespace in
      let ctx := sanitize_label ctx in
      if negb (bool_decide (svc = [])) && negb (bool_decide (ns = []))
         && negb (bool_decide (ctx = []))
      then out ++ [svc ++ lit "." ++ ctx; svc ++ lit "." ++ ns ++ lit "." ++ ctx]
      else out
  end.

Definition is_bare (h : str) : bool := negb (contains_char DOT h).

(** The counting pass of one entry: each bare label once per entry. *)
Definition count_list (counts : gmap str nat) (l : list str) : gmap str nat :=
  (foldl (λ '(counts, seen) h,
            if is_bare h && bool_decide (h ∉ seen)
            then (<[h := S (default 0 (counts !! h))]> counts, {[h]} ∪ seen)
            else (counts, seen))
         (counts, ∅ : gset str) l).1.

Definition count_lists (lists : list (list str)) : gmap str nat :=
  foldl count_list ∅ lists.

Definition ambiguous_names (counts : gmap str nat) : gset str :=
  dom (filter (λ kc : str * nat, 1 < kc.2) counts).

Definition drop_ambiguous_bare_names (lists : list (list str)) : list (list str) :=
  let ambiguous := ambiguous_names (count_lists lists) in
  if bool_decide (ambiguous = ∅) then lists
  else (λ l, filter (λ h, contains_char DOT h = true ∨ h ∉ ambiguous) l) <$> lists.

Definition is_label_byte (b : N) : bool :=
  is_ascii_lowercase b || is_ascii_digit b || (b =? HYPHEN)%N.

Definition is_valid_label (label : str) : bool :=
  let bytes := str_bytes label in
  if bool_decide (label = []) || (63 <? str_len label)%N then false
  else if bool_decide (head bytes = Some HYPHEN) || bool_decide (last bytes = Some HYPHEN) then false
  else forallb is_label_byte bytes.

Definition is_valid_hostname (h : str) : bool :=
  if bool_decide (h = []) || (253 <? str_len h)%N then false
  else forallb is_valid_label (split_char DOT h).

(** ** Sanitised labels are labels *)

Definition label_char (c : char) : Prop := is_label_byte c = true.

Lemma sanitize_char (c : char) :
  label_char (if is_ascii_alphanumeric c then to_ascii_lowercase c else HYPHEN).
Proof.
  unfold label_char, is_label_byte, is_ascii_alphanumeric, to_ascii_lowercase, HYPHEN,
    is_ascii_digit, is_ascii_lowercase, is_ascii_uppercase.
  destruct (N.leb_spec 48 c), (N.leb_spec c 57), (N.leb_spec 97 c), (N.leb_spec c 122),
    (N.leb_spec 65 c), (N.leb_spec c 90); simpl; try done; try lia;
  rewrite ?orb_true_iff, ?andb_true_iff, ?N.leb_le, ?N.eqb_eq; lia.
Qed.

Lemma sanitize_label_chars (s : str) : Forall label_char (sanitize_label s).
Proof.
  unfold sanitize_label. apply trim_matches_Forall, Forall_fmap, Forall_true, sanitize_char.
Qed.

Lemma label_char_ascii (c : char) : label_char c → (c < 128)%N ∧ c ≠ DOT.
Proof.
  unfold label_char, is_label_byte, is_ascii_lowercase, is_ascii_digit, HYPHEN, DOT.
  rewrite !orb_true_iff, !andb_true_iff, !N.leb_le, N.eqb_eq. lia.
Qed.

Lemma label_bytes (s : str) : Forall label_char s → str_bytes s = s.
Proof.
  intros H. apply str_bytes_ascii. eapply Forall_impl; [done|].
  intros c Hc. by apply label_char_ascii.
Qed.

Lemma sanitize_label_valid (s : str) :
  sanitize_label s ≠ [] → length (sanitize_label s) ≤ 63 →
  is_valid_label (sanitize_label s) = true.
Proof.
  intros Hne Hlen. pose proof (sanitize_label_chars s) as Hc.
  unfold is_valid_label, str_len. rewrite label_bytes by done.
  rewrite bool_decide_eq_false_2 by done. rewrite (proj2 (N.ltb_ge 63 _)) by lia. simpl.
  assert (∀ c, N.eqb HYPHEN c = false → c ≠ HYPHEN) as Hneq.
  { intros c Hcc ->. by rewrite N.eqb_refl in Hcc. }
  rewrite !bool_decide_eq_false_2; simpl.
  - by apply forallb_Forall.
  - intros H%trim_matches_last. by apply Hneq in H.
  - intros H%trim_matches_head. by apply Hneq in H.
Qed.

Lemma sanitize_label_idem (s : str) : sanitize_label (sanitize_label s) = sanitize_label s.
Proof.
  unfold sanitize_label at 1.
  assert ((λ ch : N, if is_ascii_alphanumeric ch then to_ascii_lowercase ch else HYPHEN)
            <$> sanitize_label s = sanitize_label s) as ->.
  { pose proof (sanitize_label_chars s) as H. revert H.
    generalize (sanitize_label s). intros t H. induction H as [|c t Hc _ IH]; [done|].
    rewrite fmap_cons, IH. f_equal. revert Hc.
    unfold label_char, is_label_byte, is_ascii_alphanumeric, to_ascii_lowercase, HYPHEN,
      is_ascii_digit, is_ascii_lowercase, is_ascii_uppercase.
    rewrite !orb_true_iff, !andb_true_iff, !N.leb_le, N.eqb_eq. intros Hc.
    destruct (N.leb_spec 48 c), (N.leb_spec c 57), (N.leb_spec 97 c), (N.leb_spec c 122),
      (N.leb_spec 65 c), (N.leb_spec c 90); simpl; try done; lia. }
  apply trim_matches_no.
  - intros c. apply trim_matches_head.
  - intros c. apply trim_matches_last.
Qed.

(** A dotted sequence of valid labels is a valid host name. *)
Lemma join_labels_valid (ls : list str) :
  ls ≠ [] → Forall (λ l, is_valid_label l = true ∧ Forall label_char l) ls →
  length (join [DOT] ls) ≤ 253 → is_valid_hostname (join [DOT] ls) = true.
Proof.
  intros Hne H Hlen. unfold is_valid_hostname.
  assert (Forall (λ c, (c < 128)%N) (join [DOT] ls)) as Hascii.
  { apply join_Forall; [by repeat constructor|]. eapply Forall_impl; [done|].
    intros l [_ Hl]. eapply Forall_impl; [done|]. intros c Hc. by apply label_char_ascii. }
  rewrite bool_decide_eq_false_2.
  - unfold str_len. rewrite str_bytes_ascii by done. rewrite (proj2 (N.ltb_ge 253 _)) by lia.
    simpl. rewrite split_char_join; [|done|].
    + apply forallb_Forall. eapply Forall_impl; [exact H|]. by intros ? [].
    + eapply Forall_impl; [done|]. intros l [_ Hl]. eapply Forall_impl; [done|].
      intros c Hc. by apply label_char_ascii.
  - destruct ls as [|l ls]; [done|]. inversion H as [|? ? [Hv _]]; subst.
    destruct l as [|c l]; [done|]. destruct ls; done.
Qed.

(** ** The counting passes *)

(** How many entries claim the name. *)
Definition claims (lists : list (list str)) (h : str) : nat :=
  length (filter (λ l, h ∈ l) lists).

(** Specification of the removal: keep what is qualified or claimed once. *)
Definition keep_unambiguous (lists : list (list str)) : list (list str) :=
  (λ l, filter (λ h, contains_char DOT h = true ∨ claims lists h ≤ 1) l) <$> lists.

Lemma count_list_seen (l : list str) (counts : gmap str nat) (seen : gset str) (h : str) :
  (foldl (λ '(counts, seen) h,
            if is_bare h && bool_decide (h ∉ seen)
            then (<[h := S (default 0 (counts !! h))]> counts, {[h]} ∪ seen)
            else (counts, seen)) (counts, seen) l).1 !! h
  = if bool_decide (is_bare h = true ∧ h ∈ l ∧ h ∉ seen)
    then Some (S (default 0 (counts !! h))) else counts !! h.
Proof.
  revert counts seen. induction l as [|x l IH]; intros counts seen; simpl.
  { rewrite bool_decide_eq_false_2; [done|]. intros (_ & H & _). by apply elem_of_nil in H. }
  destruct (is_bare x && bool_decide (x ∉ seen)) eqn:E; rewrite IH; bool_to_prop.
  - destruct (decide (x = h)) as [->|Hne].
    + rewrite bool_decide_eq_false_2 by set_solver. rewrite lookup_insert_eq.
      rewrite bool_decide_eq_true_2; [done|]. split; [done|]. split; [by left|done].
    + rewrite lookup_insert_ne by done.
      repeat case_bool_decide; try done; exfalso; set_solver.
  - assert (¬ (is_bare x = true ∧ x ∉ seen)) as Hx.
    { intros [Hb Hs]. destruct E as [E|E]; [congruence|]. by apply bool_decide_eq_false in E. }
    clear E.
    repeat case_bool_decide; try done; exfalso; set_solver.
Qed.

Lemma count_list_lookup (counts : gmap str nat) (l : list str) (h : str) :
  default 0 (count_list counts l !! h)
  = default 0 (counts !! h) + (if bool_decide (is_bare h = true ∧ h ∈ l) then 1 else 0).
Proof.
  unfold count_list. rewrite count_list_seen.
  rewrite (bool_decide_ext _ (is_bare h = true ∧ h ∈ l)) by set_solver.
  case_bool_decide; simpl; lia.
Qed.

Lemma count_lists_lookup (lists : list (list str)) (h : str) :
  default 0 (count_lists lists !! h) = if is_bare h then claims lists h else 0.
Proof.
  unfold count_lists. rewrite <- (Nat.add_0_l (if is_bare h then _ else _)).
  change 0 with (default 0 ((∅ : gmap str nat) !! h)) at 2.
  generalize (∅ : gmap str nat). unfold claims.
  induction lists as [|l lists IH]; intros m; simpl; [destruct (is_bare h); simpl; lia|].
  rewrite IH, count_list_lookup, filter_cons. destruct (is_bare h); simpl.
  - case_bool_decide; case_decide; simpl; naive_solver lia.
  - lia.
Qed.

Lemma elem_of_ambiguous (counts : gmap str nat) (h : str) :
  h ∈ ambiguous_names counts ↔ 1 < default 0 (counts !! h).
Proof.
  unfold ambiguous_names. rewrite elem_of_dom. unfold is_Some.
  setoid_rewrite map_lookup_filter_Some. simpl. split.
  - by intros (n & -> & ?).
  - destruct (counts !! h) as [n|]; simpl; [by exists n|lia].
Qed.

Lemma kept_iff (lists : list (list str)) (h : str) :
  (contains_char DOT h = true ∨ h ∉ ambiguous_names (count_lists lists)) ↔
  (contains_char DOT h = true ∨ claims lists h ≤ 1).
Proof.
  rewrite elem_of_ambiguous, count_lists_lookup. unfold is_bare.
  destruct (contains_char DOT h); simpl; [tauto|]. intuition lia.
Qed.

Lemma drop_ambiguous_spec (lists : list (list str)) :
  drop_ambiguous_bare_names lists = keep_unambiguous lists.
Proof.
  unfold drop_ambiguous_bare_names, keep_unambiguous. case_bool_decide as He.
  - symmetry. etrans; [|apply list_fmap_id]. apply list_fmap_ext.
    intros i l Hl. simpl. apply list_filter_all. intros h _. apply kept_iff. right. by rewrite He.
  - apply list_fmap_ext. intros i l _. apply list_filter_iff. intros h. apply kept_iff.
Qed.

Lemma claims_two (lists : list (list str)) (h : str) i j li lj :
  lists !! i = Some li → lists !! j = Some lj → h ∈ li → h ∈ lj → claims lists h ≤ 1 → i = j.
Proof.
  unfold claims. revert i j. induction lists as [|l lists IH]; intros i j Hi Hj Hhi Hhj Hle; [done|].
  assert (∀ k lk, lists !! k = Some lk → h ∈ lk → 1 ≤ length (filter (λ l, h ∈ l) lists)) as Hpos.
  { intros k lk Hk Hin. destruct (filter (λ l, h ∈ l) lists) eqn:E; simpl; [|lia].
    assert (lk ∈ filter (λ l, h ∈ l) lists) as Hf.
    { apply list_elem_of_filter. split; [done|]. by eapply list_elem_of_lookup_2. }
    rewrite E in Hf. by apply elem_of_nil in Hf. }
  rewrite filter_cons in Hle.
  destruct i as [|i], j as [|j]; simpl in *; simplify_eq; [done|..].
  - rewrite decide_True in Hle by done. simpl in Hle. specialize (Hpos j lj Hj Hhj). lia.
  - rewrite decide_True in Hle by done. simpl in Hle. specialize (Hpos i li Hi Hhi). lia.
  - f_equal. eapply IH; try done. case_decide; simpl in Hle; lia.
Qed.

(** ** The derived names are dotted sequences of labels *)

Definition good_label (l : str) : Prop := is_valid_label l = true ∧ Forall label_char l.

#[export] Instance good_label_dec l : Decision (good_label l) := _.

Lemma sanitize_good (s : str) :
  length (sanitize_label s) ≤ 63 → sanitize_label s ≠ [] → good_label (sanitize_label s).
Proof. split; [by apply sanitize_label_valid|apply sanitize_label_chars]. Qed.

Lemma join_length (ls : list str) (n : nat) :
  Forall (λ l, length l ≤ n) ls → length (join [DOT] ls) ≤ length ls * S n.
Proof.
  induction 1 as [|l ls Hl _ IH]; [done|]. destruct ls as [|l' ls]; [simpl; lia|].
  change (join [DOT] (l :: l' :: ls)) with (l ++ [DOT] ++ join [DOT] (l' :: ls)).
  rewrite !length_app. simpl in *. lia.
Qed.

Lemma good_labels_valid (ls : list str) :
  ls ≠ [] → length (join [DOT] ls) ≤ 253 → Forall good_label ls →
  is_valid_hostname (join [DOT] ls) = true.
Proof. intros. by apply join_labels_valid. Qed.

Lemma variants_base_valid (svc ns h : str) :
  length (sanitize_label svc) ≤ 63 → length (sanitize_label ns) ≤ 63 →
  h ∈ variants svc ns → is_valid_hostname h = true.
Proof.
  intros Hs Hn. unfold variants.
  pose proof (sanitize_good svc Hs) as Gs. pose proof (sanitize_good ns Hn) as Gn.
  set (s := sanitize_label svc) in *. set (n := sanitize_label ns) in *.
  repeat case_bool_decide; simpl; try (by intros ?%elem_of_nil).
  assert (∀ tail, Forall good_label tail → length (join [DOT] (s :: n :: tail)) ≤ 253 →
            is_valid_hostname (join [DOT] (s :: n :: tail)) = true) as Hjoin.
  { intros tail Ht Hlen. apply good_labels_valid; [done|done|]. constructor; [auto|]. by constructor; auto. }
  rewrite !elem_of_cons, elem_of_nil. intros [->|[->|[->|[->|[]]]]].
  - apply (good_labels_valid [s]); [done|simpl; lia|by repeat constructor; apply Gs].
  - apply (Hjoin []); [done|]. simpl. rewrite length_app. simpl. lia.
  - apply (Hjoin [lit "svc"]); [decided|].
    simpl. rewrite !length_app. simpl. rewrite length_app. simpl. lia.
  - apply (Hjoin [lit "svc"; lit "cluster"; lit "local"]); [decided|].
    simpl. rewrite !length_app. simpl. rewrite length_app. simpl. lia.
Qed.

(** ** Properties *)

(** every name derived for a service, with or without a context qualifier,
    passes the check of the privileged helper, as soon as the sanitised parts
    fit in a DNS label. *)
Theorem variants_valid (svc ns : str) (ctx : option str) (h : str) :
  length (sanitize_label svc) ≤ 63 →
  length (sanitize_label ns) ≤ 63 →
  length (sanitize_label (default [] ctx)) ≤ 63 →
  h ∈ variants_with_context svc ns ctx → is_valid_hostname h = true.
Proof.
  intros Hs Hn Hc. unfold variants_with_context.
  destruct ctx as [ctx|]; [|by apply variants_base_valid].
  case_match; [|by apply variants_base_valid]. simpl in Hc. bool_to_prop.
  rewrite elem_of_app. intros [?|Hin]; [by apply (variants_base_valid svc ns)|].
  assert (good_label (sanitize_label svc)) as Gs by by apply sanitize_good.
  assert (good_label (sanitize_label ns)) as Gn by by apply sanitize_good.
  assert (good_label (sanitize_label ctx)) as Gc by by apply sanitize_good.
  assert (∀ ls, Forall good_label ls → ls ≠ [] → Forall (λ l, length l ≤ 63) ls → length ls ≤ 3 →
            is_valid_hostname (join [DOT] ls) = true) as Hjoin.
  { intros ls Hg Hne Hl Hlen. apply good_labels_valid; [done| |done].
    pose proof (join_length ls 63 Hl). lia. }
  rewrite !elem_of_cons, elem_of_nil in Hin. destruct Hin as [->|[->|[]]].
  - apply (Hjoin [sanitize_label svc; sanitize_label ctx]); [by forall_list|done|by forall_list|simpl; lia].
  - apply (Hjoin [sanitize_label svc; sanitize_label ns; sanitize_label ctx]);
      [by forall_list|done|by forall_list|simpl; lia].
Qed.

Lemma variants_valid_witness :
  is_valid_hostname (lit "my-svc.team-a") = true.
Proof.
  apply (variants_valid "My_Svc!" "Team A" (Some (lit "prod")) (lit "my-svc.team-a"));
    [vm_compute; lia|vm_compute; lia|vm_compute; lia|].
  decided.
Defined.

(** the in-place removal keeps exactly the names that are qualified or
    claimed by at most one entry, so that afterwards no bare name is left in
    two entries and name resolution no longer depends on line order. *)
Theorem drop_ambiguous_unique (lists : list (list str)) :
  drop_ambiguous_bare_names lists = keep_unambiguous lists ∧
  ∀ h i j li lj,
    drop_ambiguous_bare_names lists !! i = Some li →
    drop_ambiguous_bare_names lists !! j = Some lj →
    h ∈ li → h ∈ lj → is_bare h = true → i = j.
Proof.
  split; [apply drop_ambiguous_spec|]. rewrite drop_ambiguous_spec. unfold keep_unambiguous.
  intros h i j li lj. rewrite !list_lookup_fmap, !fmap_Some.
  intros (l1 & Hi & ->) (l2 & Hj & ->) [H1 H1']%list_elem_of_filter [H2 H2']%list_elem_of_filter Hb.
  unfold is_bare in Hb. apply negb_true_iff in Hb.
  destruct H1 as [H1|H1]; [congruence|]. by eapply claims_two.
Qed.

(** The comment of [drop_ambiguous_bare_names] says that the names that embed the
    namespace never collide; those of one service in the same namespace of two
    clusters do, and both entries keep them. *)
Lemma qualified_names_collide :
  let prod := variants_with_context "api" "default" (Some (lit "prod")) in
  let dev := variants_with_context "api" "default" (Some (lit "dev")) in
  Forall (λ l, lit "api.default" ∈ l ∧ lit "api" ∉ l) (drop_ambiguous_bare_names [prod; dev]).
Proof. vm_compute. repeat constructor; set_solver. Qed.
