(* ===== verification/HostsFile.v ===== *)
(** * The managed block of a hosts file (core/src/globalfwd/hostsfile.rs)

    Pure functions on the text of the file: rendering, stripping and replacing
    the block between the two sentinel lines, and reading its addresses back. *)

From S2P Require Import Prelude Ipv4.

(** The opening sentinel; 8212 is its em dash. *)
Definition BEGIN : str :=
  lit "# >>> ferrisscope managed " ++ [8212%N] ++ lit " removed automatically on disable >>>".

Definition END : str := lit "# <<< ferrisscope managed <<<".

#[global] Arguments BEGIN : simpl never.
#[global] Arguments END : simpl never.

Record Entry : Set := { ip : Ipv4Addr; hostnames : list str }.

Definition TAB : char := 9%N.

Definition render_row (e : Entry) : str :=
  ip_display (ip e) ++ [TAB] ++ join (lit " ") (hostnames e) ++ [LF].

Definition render_block (entries : list Entry) : str :=
  let rows := filter (λ e, hostnames e ≠ []) entries in
  match rows with
  | [] => []
  | _ => BEGIN ++ [LF] ++ (rows ≫= render_row) ++ END ++ [LF]
  end.

(** The line loop of [strip_block]. *)
Fixpoint strip_lines (inside : bool) (ls : list str) : list str :=
  match ls with
  | [] => []
  | line :: ls' =>
      let t := trim line in
      if negb inside && (t =s BEGIN) then strip_lines true ls'
      else if inside then strip_lines (negb (t =s END)) ls'
      else line :: strip_lines inside ls'
  end.

Definition is_blank (l : str) : bool := bool_decide (trim l = []).

Fixpoint drop_blank (ls : list str) : list str :=
  match ls with
  | [] => []
  | l :: ls' => if is_blank l then drop_blank ls' else ls
  end.

(** [while matches!(out.last(), Some(l) if blank) { out.pop() }] *)
Definition pop_blank (out : list str) : list str := reverse (drop_blank (reverse out)).

Definition strip_block (existing : str) : str :=
  let out := pop_blank (strip_lines false (lines existing)) in
  match out with
  | [] => []
  | _ => join [LF] out ++ [LF]
  end.

Definition upsert_block (existing : str) (entries : list Entry) : str :=
  let base := strip_block existing in
  let block := render_block entries in
  match block with
  | [] => base
  | _ => (match base with [] => base | _ => base ++ [LF] end) ++ block
  end.

Definition has_block (existing : str) : bool := existsb (λ l, trim l =s BEGIN) (lines existing).

Fixpoint block_ips_lines (inside : bool) (ls : list str) : list Ipv4Addr :=
  match ls with
  | [] => []
  | line :: ls' =>
      let t := trim line in
      if negb inside then block_ips_lines (t =s BEGIN) ls'
      else if t =s END then []
      else match split_whitespace t with
           | tok :: _ => match parse_ipv4 tok with
                         | Some ip => ip :: block_ips_lines inside ls'
                         | None => block_ips_lines inside ls'
                         end
           | [] => block_ips_lines inside ls'
           end
  end.

Definition block_ips (existing : str) : list Ipv4Addr := block_ips_lines false (lines existing).

(** ** Lines of the managed block *)

(** A host name fit for the block: visible characters only (every name the
    helper accepts is one, see [Helper]). *)
Definition plain_name (h : str) : Prop := h ≠ [] ∧ Forall (λ c, is_whitespace c = false) h.

Definition plain_entry (e : Entry) : Prop := Forall plain_name (hostnames e).

Definition row_line (e : Entry) : str := ip_display (ip e) ++ [TAB] ++ join (lit " ") (hostnames e).

Definition rows_of (entries : list Entry) : list Entry := filter (λ e, hostnames e ≠ []) entries.

Definition block_lines (entries : list Entry) : list str :=
  match rows_of entries with
  | [] => []
  | rows => BEGIN :: (row_line <$> rows) ++ [END]
  end.

(** A line that is neither in nor opens a managed block. *)
Definition foreign_line (l : str) : Prop := trim l ≠ BEGIN.

Lemma render_block_unlines (entries : list Entry) :
  render_block entries = unlines (block_lines entries).
Proof.
  unfold render_block, block_lines, rows_of.
  assert (∀ rows, rows ≫= render_row = unlines (row_line <$> rows)) as Hrows.
  { clear. intros rows. induction rows as [|e rows IH]; [done|].
    rewrite fmap_cons, unlines_cons, bind_cons, IH. unfold render_row, row_line.
    by rewrite <- !app_assoc. }
  destruct (filter _ entries) as [|e rows]; [done|].
  rewrite unlines_cons, unlines_app, Hrows. f_equal.
Qed.

Lemma strip_block_unlines (s : str) :
  strip_block s = unlines (pop_blank (strip_lines false (lines s))).
Proof.
  unfold strip_block. destruct (pop_blank _) as [|l ls] eqn:E; [done|].
  by rewrite unlines_join.
Qed.

Lemma trim_id_head_last (s : str) (c d : char) :
  head s = Some c → last s = Some d → is_whitespace c = false → is_whitespace d = false → trim s = s.
Proof. intros Hc Hd Hwc Hwd. apply trim_matches_no; intros x; simplify_eq/=; congruence. Qed.

Lemma trim_BEGIN : trim BEGIN = BEGIN.
Proof. vm_compute. reflexivity. Qed.

Lemma trim_END : trim END = END.
Proof. vm_compute. reflexivity. Qed.

Lemma ip_char_not_ws (c : char) : is_ascii_digit c = true ∨ c = 46%N → is_whitespace c = false.
Proof.
  unfold is_ascii_digit, is_whitespace. rewrite andb_true_iff, !N.leb_le.
  intros H. rewrite !orb_false_iff, !andb_false_iff, !N.eqb_neq, !N.leb_gt. lia.
Qed.

Lemma row_line_head (e : Entry) :
  ∃ c l, row_line e = c :: l ∧ is_whitespace c = false ∧ c ≠ 35%N.
Proof.
  unfold row_line. pose proof (ip_display_nonempty (ip e)). pose proof (ip_display_chars (ip e)) as Hc.
  destruct (ip_display (ip e)) as [|c l]; [done|]. inversion Hc; subst.
  exists c. eexists. split; [reflexivity|]. split; [by apply ip_char_not_ws|].
  intros ->. destruct H2; done.
Qed.

Lemma trim_cons (c : char) (l : str) : is_whitespace c = false → ∃ l', trim (c :: l) = c :: l'.
Proof.
  intros Hc. unfold trim, trim_matches, trim_start_matches, trim_end_matches. simpl. rewrite Hc.
  rewrite reverse_cons. destruct (drop_while_suffix is_whitespace (reverse l ++ [c])) as (k & Hk & Hall).
  destruct (drop_while is_whitespace (reverse l ++ [c])) as [|d r _] using rev_ind.
  - rewrite app_nil_r in Hk. rewrite <- Hk in Hall. apply Forall_app in Hall as [_ Hall].
    inversion Hall; congruence.
  - rewrite app_assoc in Hk. apply app_inj_tail in Hk as [_ <-].
    rewrite reverse_snoc. by eexists.
Qed.

Lemma trim_row (e : Entry) : trim (row_line e) ≠ BEGIN ∧ trim (row_line e) ≠ END.
Proof.
  destruct (row_line_head e) as (c & l & -> & Hw & Hc).
  destruct (trim_cons c l Hw) as [l' ->]. split; intros [=]; done.
Qed.

Lemma join_last (ls : list str) :
  ls ≠ [] → Forall plain_name ls →
  ∃ c, last (join (lit " ") ls) = Some c ∧ is_whitespace c = false.
Proof.
  intros Hne H. induction H as [|l ls [Hl Hws] _ IH]; [done|].
  destruct ls as [|l' ls].
  - destruct l as [|c l _] using rev_ind; [done|]. exists c. simpl. rewrite last_snoc.
    split; [done|]. apply Forall_app in Hws as [_ Hws]. by inversion Hws.
  - destruct IH as (c & Hc & ?); [done|]. exists c. split; [|done].
    change (join (lit " ") (l :: l' :: ls)) with (l ++ lit " " ++ join (lit " ") (l' :: ls)).
    by rewrite !last_app, Hc.
Qed.

Lemma row_line_last (e : Entry) :
  plain_entry e → hostnames e ≠ [] → ∃ c, last (row_line e) = Some c ∧ is_whitespace c = false.
Proof.
  intros He Hne. destruct (join_last _ Hne He) as (c & Hc & ?). exists c. split; [|done].
  unfold row_line. by rewrite !last_app, Hc.
Qed.

Lemma row_line_chars (e : Entry) :
  plain_entry e → Forall (λ c, is_whitespace c = false ∨ c = TAB ∨ c = 32%N) (row_line e).
Proof.
  intros He. unfold row_line. rewrite !Forall_app. split_and!.
  - eapply Forall_impl; [apply ip_display_chars|]. intros c Hc. left. by apply ip_char_not_ws.
  - apply Forall_singleton. auto.
  - apply join_Forall; [apply Forall_singleton; by right; right|].
    eapply Forall_impl; [exact He|]. intros h [_ Hh]. eapply Forall_impl; [exact Hh|]. by left.
Qed.

Lemma row_line_clean (e : Entry) : plain_entry e → hostnames e ≠ [] → clean_line (row_line e).
Proof.
  intros He Hne. split.
  - intros Hin. pose proof (row_line_chars e He) as Hc. eapply Forall_forall in Hc; [|done].
    by destruct Hc as [Hc|[Hc|Hc]].
  - destruct (row_line_last e He Hne) as (c & -> & Hc). by intros [= ->].
Qed.

Lemma trim_row_id (e : Entry) : plain_entry e → hostnames e ≠ [] → trim (row_line e) = row_line e.
Proof.
  intros He Hne. destruct (row_line_head e) as (c & l & Hcl & Hw & _).
  destruct (row_line_last e He Hne) as (d & Hd & Hwd).
  apply (trim_id_head_last _ c d); [by rewrite Hcl|done..].
Qed.

Lemma sentinel_clean : clean_line BEGIN ∧ clean_line END.
Proof.
  repeat split; try (by vm_compute); decided.
Qed.

Lemma rows_of_spec (entries : list Entry) :
  Forall (λ e, hostnames e ≠ []) (rows_of entries) ∧
  (Forall plain_entry entries → Forall plain_entry (rows_of entries)).
Proof.
  unfold rows_of. split.
  - apply Forall_forall. intros e He. by apply list_elem_of_filter in He as [? _].
  - rewrite !Forall_forall. intros H e He. apply list_elem_of_filter in He as [_ ?]. auto.
Qed.

Lemma block_lines_clean (entries : list Entry) :
  Forall plain_entry entries → Forall clean_line (block_lines entries).
Proof.
  intros H. unfold block_lines. destruct (rows_of_spec entries) as [Hne Hp]. specialize (Hp H).
  destruct (rows_of entries) as [|e rows]; [constructor|]. destruct sentinel_clean as [HB HE].
  constructor; [done|]. apply Forall_app. split; [|by constructor].
  apply Forall_fmap. apply Forall_forall. intros x Hx. simpl.
  eapply Forall_forall in Hne, Hp; [|done..]. by apply row_line_clean.
Qed.

(** ** Stripping *)

Lemma strip_lines_foreign (ls rest : list str) :
  Forall foreign_line ls → strip_lines false (ls ++ rest) = ls ++ strip_lines false rest.
Proof.
  induction 1 as [|l ls Hl _ IH]; [done|]. simpl. rewrite (proj2 (str_eqb_neq _ _) Hl). simpl.
  by rewrite IH.
Qed.

Lemma strip_lines_inside (ls rest : list str) :
  Forall (λ l, trim l ≠ END) ls → strip_lines true (ls ++ END :: rest) = strip_lines false rest.
Proof.
  induction 1 as [|l ls Hl _ IH]; simpl.
  - done.
  - by rewrite (proj2 (str_eqb_neq _ _) Hl).
Qed.

Lemma strip_lines_begin (ls : list str) : strip_lines false (BEGIN :: ls) = strip_lines true ls.
Proof. done. Qed.

Lemma strip_lines_block (entries : list Entry) (rest : list str) :
  strip_lines false (block_lines entries ++ rest) = strip_lines false rest.
Proof.
  unfold block_lines. destruct (rows_of entries) as [|e rows]; [done|].
  rewrite <- app_comm_cons, strip_lines_begin, <- app_assoc. apply strip_lines_inside.
  apply Forall_fmap, Forall_true. intros x. by apply trim_row.
Qed.

(** What is left is foreign, and made of lines of the file. *)
Lemma strip_lines_out (b : bool) (ls : list str) :
  Forall foreign_line (strip_lines b ls) ∧ strip_lines b ls ⊆ ls.
Proof.
  revert b. induction ls as [|l ls IH]; intros b; simpl; [by split|].
  destruct b; simpl.
  - destruct (IH (negb (trim l =s END))) as [? ?]. split; [done|]. set_solver.
  - destruct (trim l =s BEGIN) eqn:E.
    + destruct (IH true). split; [done|set_solver].
    + destruct (IH false) as [? ?]. split; [|set_solver]. constructor; [|done].
      by apply str_eqb_neq.
Qed.

Lemma pop_blank_prefix (ls : list str) : ∃ k, ls = pop_blank ls ++ k ∧ Forall (λ l, is_blank l = true) k.
Proof.
  unfold pop_blank.
  assert (∀ ls, ∃ k, ls = k ++ drop_blank ls ∧ Forall (λ l, is_blank l = true) k) as H.
  { clear. induction ls as [|l ls (k & Hk & Hb)]; simpl; [by exists []|].
    destruct (is_blank l) eqn:E; [exists (l :: k)|by exists []]. simpl. split; [by f_equal|by constructor]. }
  destruct (H (reverse ls)) as (k & Hk & Hb). exists (reverse k). split; [|by apply Forall_reverse].
  rewrite <- reverse_app, <- Hk. by rewrite reverse_involutive.
Qed.

Lemma pop_blank_snoc (ls : list str) (l : str) :
  pop_blank (ls ++ [l]) = if is_blank l then pop_blank ls else ls ++ [l].
Proof.
  unfold pop_blank. rewrite reverse_snoc. simpl. destruct (is_blank l); [done|].
  by rewrite reverse_cons, reverse_involutive.
Qed.

Lemma pop_blank_idem (ls : list str) : pop_blank (pop_blank ls) = pop_blank ls.
Proof.
  induction ls as [|l ls IH] using rev_ind; [done|]. rewrite pop_blank_snoc.
  destruct (is_blank l) eqn:E; [done|]. by rewrite pop_blank_snoc, E.
Qed.

Lemma pop_blank_Forall (P : str → Prop) (ls : list str) : Forall P ls → Forall P (pop_blank ls).
Proof.
  intros H. destruct (pop_blank_prefix ls) as (k & Hk & _). rewrite Hk in H.
  by apply Forall_app in H as [? _].
Qed.

(** The foreign lines of a file, without trailing blank ones. *)
Definition foreign (s : str) : list str := pop_blank (strip_lines false (lines s)).

(** A file none of whose lines ends in a carriage return once its line ending
    is taken off. *)
Definition cr_free (s : str) : Prop := Forall (λ l, last l ≠ Some CR) (lines s).

Lemma foreign_spec (s : str) :
  Forall foreign_line (foreign s) ∧ pop_blank (foreign s) = foreign s ∧
  (cr_free s → Forall clean_line (foreign s)).
Proof.
  unfold foreign. destruct (strip_lines_out false (lines s)) as [Hf Hsub]. split_and!.
  - by apply pop_blank_Forall.
  - apply pop_blank_idem.
  - intros Hcr. apply pop_blank_Forall, Forall_forall. intros l Hl. apply Hsub in Hl.
    pose proof (lines_no_lf s) as Hlf. unfold cr_free in Hcr.
    rewrite Forall_forall in Hlf, Hcr. split; auto.
Qed.

Lemma upsert_block_unlines (s : str) (es : list Entry) :
  upsert_block s es =
  unlines (foreign s ++ (if bool_decide (foreign s = []) then [] else
                         if bool_decide (block_lines es = []) then [] else [[]]) ++ block_lines es).
Proof.
  unfold upsert_block. rewrite render_block_unlines, strip_block_unlines. fold (foreign s).
  destruct (block_lines es) as [|b bs] eqn:E.
  - simpl. rewrite app_nil_r. case_bool_decide; by rewrite app_nil_r.
  - rewrite !unlines_app. rewrite (bool_decide_eq_false_2 (b :: bs = [])) by done.
    destruct (unlines (b :: bs)) eqn:Eb.
    { rewrite unlines_cons in Eb. by destruct b. }
    destruct (foreign s) as [|l ls] eqn:Ef.
    + by rewrite bool_decide_eq_true_2.
    + rewrite bool_decide_eq_false_2 by done. rewrite unlines_cons.
      destruct l; simpl; by rewrite <- !app_assoc.
Qed.

Lemma upsert_lines_clean (s : str) (es : list Entry) :
  cr_free s → Forall plain_entry es →
  Forall clean_line (foreign s ++ (if bool_decide (foreign s = []) then [] else
     if bool_decide (block_lines es = []) then [] else [[]]) ++ block_lines es).
Proof.
  intros Hcr Hes. destruct (foreign_spec s) as (_ & _ & Hclean).
  apply Forall_app. split; [by apply Hclean|]. apply Forall_app.
  split; [|by apply block_lines_clean].
  repeat case_bool_decide; repeat constructor; [by intros ?%elem_of_nil|done].
Qed.

Lemma foreign_upsert (s : str) (es : list Entry) :
  cr_free s → Forall plain_entry es → foreign (upsert_block s es) = foreign s.
Proof.
  intros Hcr Hes. destruct (foreign_spec s) as (Hf & Hp & _).
  unfold foreign at 1. rewrite upsert_block_unlines, lines_unlines by by apply upsert_lines_clean.
  rewrite strip_lines_foreign by done. transitivity (pop_blank (foreign s)); [|done].
  repeat case_bool_decide; simpl.
  - by rewrite <- (app_nil_r (block_lines es)), strip_lines_block, app_nil_r.
  - rewrite H0. simpl. by rewrite app_nil_r.
  - rewrite <- (app_nil_r (block_lines es)), strip_lines_block.
    change (trim []) with (@nil N). simpl. by rewrite pop_blank_snoc.
Qed.

Lemma cr_free_upsert (s : str) (es : list Entry) :
  cr_free s → Forall plain_entry es → cr_free (upsert_block s es).
Proof.
  intros Hcr Hes. unfold cr_free.
  rewrite upsert_block_unlines, lines_unlines by by apply upsert_lines_clean.
  eapply Forall_impl; [by apply upsert_lines_clean|]. by intros ? [].
Qed.

Lemma strip_upsert (s : str) (es : list Entry) :
  cr_free s → Forall plain_entry es → strip_block (upsert_block s es) = strip_block s.
Proof. intros. rewrite !strip_block_unlines. f_equal. by apply foreign_upsert. Qed.

Lemma upsert_base (s s' : str) (es : list Entry) :
  strip_block s = strip_block s' → upsert_block s es = upsert_block s' es.
Proof. unfold upsert_block. by intros ->. Qed.

(** ** Reading the addresses back *)

Lemma block_ips_foreign (ls rest : list str) :
  Forall foreign_line ls → block_ips_lines false (ls ++ rest) = block_ips_lines false rest.
Proof.
  induction 1 as [|l ls Hl _ IH]; [done|]. simpl. by rewrite (proj2 (str_eqb_neq _ _) Hl).
Qed.

Lemma row_token (e : Entry) :
  plain_entry e → hostnames e ≠ [] →
  ∃ rest, split_whitespace (trim (row_line e)) = ip_display (ip e) :: rest.
Proof.
  intros He Hne. rewrite trim_row_id by done. unfold split_whitespace, row_line.
  change ([TAB] ++ ?x) with (TAB :: x).
  rewrite split_by_app; [| |done].
  - rewrite filter_cons_True by apply ip_display_nonempty. by eexists.
  - eapply Forall_impl; [apply ip_display_chars|]. intros c. apply ip_char_not_ws.
Qed.

Lemma block_ips_rows (rows : list Entry) (rest : list str) :
  Forall plain_entry rows → Forall (λ e, hostnames e ≠ []) rows →
  Forall (λ e, ip_wf (ip e) = true) rows →
  block_ips_lines true ((row_line <$> rows) ++ END :: rest) = ip <$> rows.
Proof.
  induction rows as [|e rows IH]; intros Hp Hne Hwf; [done|].
  apply Forall_cons in Hp as [Hp ?], Hne as [Hne ?], Hwf as [Hwf ?].
  rewrite fmap_cons. simpl. rewrite (proj2 (str_eqb_neq _ _) (proj2 (trim_row e))).
  destruct (row_token e Hp Hne) as [r ->]. rewrite parse_ipv4_display by done. f_equal. by apply IH.
Qed.

Lemma block_ips_begin (ls : list str) :
  block_ips_lines false (BEGIN :: ls) = block_ips_lines true ls.
Proof. done. Qed.

(** ** Blocks in the file *)

Lemma has_block_foreign (ls : list str) :
  Forall foreign_line ls → existsb (λ l, trim l =s BEGIN) ls = false.
Proof. induction 1 as [|l ls Hl _ IH]; [done|]. simpl. by rewrite (proj2 (str_eqb_neq _ _) Hl). Qed.

(** The lines of a stripped file are foreign, up to a carriage return. *)
Lemma lines_strip (s : str) :
  lines (strip_block s) = strip_cr <$> foreign s ∧ Forall foreign_line (strip_cr <$> foreign s).
Proof.
  destruct (foreign_spec s) as (Hf & _ & _). rewrite strip_block_unlines. fold (foreign s). split.
  - apply lines_unlines_cr, pop_blank_Forall, Forall_forall. intros l Hl.
    apply strip_lines_out in Hl. pose proof (lines_no_lf s) as Hlf. rewrite Forall_forall in Hlf. auto.
  - apply Forall_fmap. eapply Forall_impl; [exact Hf|]. intros l Hl. unfold foreign_line. simpl.
    by rewrite trim_strip_cr.
Qed.

Lemma has_block_strip (s : str) : has_block (strip_block s) = false.
Proof. unfold has_block. destruct (lines_strip s) as [-> ?]. by apply has_block_foreign. Qed.

Lemma has_block_upsert (s : str) (es : list Entry) :
  cr_free s → Forall plain_entry es →
  has_block (upsert_block s es) = negb (bool_decide (rows_of es = [])).
Proof.
  intros Hcr Hes. unfold has_block.
  rewrite upsert_block_unlines, lines_unlines by by apply upsert_lines_clean.
  destruct (foreign_spec s) as (Hf & _ & _). rewrite existsb_app, has_block_foreign by done. simpl.
  unfold block_lines. destruct (rows_of es) as [|e rows]; [by repeat case_bool_decide|].
  rewrite existsb_app. apply orb_true_iff. right. cbn [existsb].
  by rewrite trim_BEGIN, str_eqb_refl.
Qed.

Lemma upsert_no_rows (s : str) (es : list Entry) : rows_of es = [] → upsert_block s es = strip_block s.
Proof.
  intros H. unfold upsert_block. rewrite render_block_unlines. unfold block_lines. by rewrite H.
Qed.

(** ** Properties *)

(** applying a set of entries is declarative and idempotent: it leaves the
    foreign part of the file exactly as stripping would, it overrides whatever
    block was there before, and applying the same set twice gives the same
    bytes.  (Carriage returns are the exception, see [upsert_cr_not_stable].) *)
Theorem upsert_declarative (s : str) (es es' : list Entry) :
  cr_free s → Forall plain_entry es →
  strip_block (upsert_block s es) = strip_block s
  ∧ upsert_block (upsert_block s es) es' = upsert_block s es'
  ∧ upsert_block (upsert_block s es) es = upsert_block s es.
Proof.
  intros Hcr Hes. pose proof (strip_upsert s es Hcr Hes) as H.
  split; [done|]. split; by apply upsert_base.
Qed.

Definition demo_hosts : str := unlines [lit "127.0.0.1 localhost"; lit "10.0.0.5 laptop.local"].

Definition demo_entries : list Entry :=
  [{| ip := Ipv4 127 1 0 1; hostnames := [lit "api"; lit "api.default"] |};
   {| ip := Ipv4 127 1 0 2; hostnames := [] |};
   {| ip := Ipv4 127 1 0 3; hostnames := [lit "db"] |}].

Lemma demo_plain : Forall plain_entry demo_entries.
Proof.
  repeat constructor; try done; decided.
Qed.

Lemma upsert_declarative_witness :
  strip_block (upsert_block demo_hosts demo_entries) = strip_block demo_hosts
  ∧ upsert_block (upsert_block demo_hosts demo_entries) [] = upsert_block demo_hosts []
  ∧ upsert_block (upsert_block demo_hosts demo_entries) demo_entries = upsert_block demo_hosts demo_entries.
Proof.
  apply (upsert_declarative demo_hosts demo_entries []); [|apply demo_plain].
  decided.
Defined.

(** Stripping removes every managed block of any file, however many there
    are and whether or not they are terminated, and keeps only lines the file
    had. *)
Lemma strip_no_block (s : str) :
  has_block (strip_block s) = false ∧ block_ips (strip_block s) = []
  ∧ ∃ ls, strip_block s = unlines ls ∧ ls ⊆ lines s.
Proof.
  destruct (lines_strip s) as [Hl Hf]. split_and!.
  - apply has_block_strip.
  - unfold block_ips. rewrite Hl, <- (app_nil_r (_ <$> _)). by rewrite block_ips_foreign.
  - exists (foreign s). split; [apply strip_block_unlines|]. intros l Hin.
    destruct (pop_blank_prefix (strip_lines false (lines s))) as (k & Hk & _).
    destruct (strip_lines_out false (lines s)) as [_ Hsub]. apply Hsub.
    rewrite Hk. apply elem_of_app. by left.
Qed.

(** a well-behaved file (lines ended by a line feed, no block, no trailing
    blank line) gets its exact bytes back once the block is removed. *)
Theorem strip_restores_foreign (ls : list str) (es : list Entry) :
  Forall clean_line ls → Forall foreign_line ls → pop_blank ls = ls → Forall plain_entry es →
  strip_block (upsert_block (unlines ls) es) = unlines ls.
Proof.
  intros Hc Hf Hp Hes.
  assert (cr_free (unlines ls)) as Hcr.
  { unfold cr_free. rewrite lines_unlines by done. eapply Forall_impl; [exact Hc|]. by intros ? []. }
  rewrite strip_upsert by done. rewrite strip_block_unlines, lines_unlines by done.
  rewrite <- (app_nil_r ls) at 1. rewrite strip_lines_foreign by done. simpl.
  by rewrite app_nil_r, Hp.
Qed.

Lemma strip_restores_foreign_witness :
  strip_block (upsert_block demo_hosts demo_entries) = demo_hosts.
Proof.
  apply (strip_restores_foreign [lit "127.0.0.1 localhost"; lit "10.0.0.5 laptop.local"] demo_entries);
    [| | |apply demo_plain].
  - repeat constructor; decided.
  - repeat constructor; decided.
  - vm_compute. reflexivity.
Defined.

(** after a crash, the addresses read from the block that is in the file are
    exactly those of the entries last applied (entries without names write no
    row), and never one of a foreign line. *)
Theorem block_ips_upsert (s : str) (es : list Entry) :
  cr_free s → Forall plain_entry es → Forall (λ e, ip_wf (ip e) = true) es →
  block_ips (upsert_block s es) = ip <$> rows_of es.
Proof.
  intros Hcr Hes Hwf. destruct (foreign_spec s) as (Hf & _ & Hclean). specialize (Hclean Hcr).
  destruct (rows_of_spec es) as [Hne Hp]. specialize (Hp Hes).
  assert (Forall (λ e, ip_wf (ip e) = true) (rows_of es)) as Hwf'.
  { rewrite Forall_forall in Hwf |- *. intros e He. apply list_elem_of_filter in He as [_ ?]. auto. }
  unfold block_ips. rewrite upsert_block_unlines, lines_unlines by by apply upsert_lines_clean.
  rewrite block_ips_foreign by done.
  assert (block_ips_lines false (block_lines es) = ip <$> rows_of es) as Hb.
  { unfold block_lines. destruct (rows_of es) as [|e rows]; [done|].
    rewrite block_ips_begin. by apply block_ips_rows. }
  repeat case_bool_decide; done.
Qed.

Lemma block_ips_upsert_witness :
  block_ips (upsert_block demo_hosts demo_entries) = [Ipv4 127 1 0 1; Ipv4 127 1 0 3].
Proof.
  apply (block_ips_upsert demo_hosts demo_entries); [|apply demo_plain|by repeat constructor].
  decided.
Defined.

(** ** Carriage returns *)

(** A file with Windows line endings loses them: the foreign bytes change. *)
Example strip_rewrites_crlf : strip_block (lit "a" ++ [CR; LF]) = lit "a" ++ [LF].
Proof. vm_compute. reflexivity. Qed.

(** And re-applying the same entries is then not always byte-stable. *)
Example upsert_cr_not_stable :
  let s := lit "a" ++ [CR; CR; LF] in
  upsert_block (upsert_block s demo_entries) demo_entries ≠ upsert_block s demo_entries.
Proof. vm_compute. discriminate. Qed.
