(* ===== verification/Protocol.v ===== *)
(** * Helper wire protocol (core/src/globalfwd/protocol.rs)

    The closed message set and the length-prefixed framing.  JSON encoding is
    [serde_json]'s: it appears as the class [Wire] of the message types, with
    the one law the framing relies on. *)

From S2P Require Import Prelude Ipv4.

Definition MAX_FRAME : N := (1024 * 1024)%N.

Definition PROTOCOL_VERSION : N := 1%N.

Record Handshake : Set := { token : str; version : N }.

Record HostEntry : Set := { he_ip : Ipv4Addr; he_hostnames : list str }.

Inductive Request : Set :=
  | Ping
  | AddLoopback (ip : Ipv4Addr)
  | DelLoopback (ip : Ipv4Addr)
  | BindListener (ip : Ipv4Addr) (port : N)
  | HostsApply (entries : list HostEntry)
  | HostsRemove
  | PurgeStale
  | Shutdown.

Definition kind (r : Request) : str :=
  match r with
  | Ping => "ping"
  | AddLoopback _ => "add_loopback"
  | DelLoopback _ => "del_loopback"
  | BindListener _ _ => "bind_listener"
  | HostsApply _ => "hosts_apply"
  | HostsRemove => "hosts_remove"
  | PurgeStale => "purge_stale"
  | Shutdown => "shutdown"
  end.

Inductive Response : Set :=
  | ROk
  | Pong
  | Purged (ips : list Ipv4Addr)
  | RError (message : str).

Inductive ProtocolError : Set :=
  | Serde
  | TooLarge (n : N)
  | Truncated (need have : N).

(** [serde_json::to_vec] and [serde_json::from_slice] at a message type. *)
Class Wire (T : Type) : Type := {
  to_vec : T → option (list N);
  from_slice : list N → option T;
  from_to_vec : ∀ m bytes, to_vec m = Some bytes → from_slice bytes = Some m
}.

(** [u32::to_be_bytes] and [u32::from_be_bytes]. *)
Definition to_be_bytes (n : N) : list N :=
  [(n / 16777216) mod 256; (n / 65536) mod 256; (n / 256) mod 256; n mod 256]%N.

Definition from_be_bytes (b : list N) : N := foldl (λ acc x, acc * 256 + x)%N 0%N b.

Definition len (b : list N) : N := N.of_nat (length b).

(** An asynchronous reader: the bytes still to come, and whether the stream
    then ends or fails. *)
Record reader : Set := { pending : list N; fails : bool }.

Inductive io_error : Set := UnexpectedEof | OtherIo.

Definition read_exact (r : reader) (n : nat) : result (list N) io_error * reader :=
  if (n <=? length (pending r))%nat
  then (Ok (take n (pending r)), {| pending := drop n (pending r); fails := fails r |})
  else (Err (if fails r then OtherIo else UnexpectedEof),
        {| pending := []; fails := fails r |}).

Section Framing.
Context {T : Type} `{!Wire T}.

Definition encode (msg : T) : result (list N) ProtocolError :=
  match to_vec msg with
  | None => Err Serde
  | Some payload =>
      if (MAX_FRAME <? len payload)%N then Err (TooLarge (len payload))
      else Ok (to_be_bytes (len payload) ++ payload)
  end.

Definition decode (buf : list N) : result (T * N) ProtocolError :=
  if (len buf <? 4)%N then Err (Truncated 4 (len buf))
  else
    let n := from_be_bytes (take 4 buf) in
    if (MAX_FRAME <? n)%N then Err (TooLarge n)
    else
      let stop := (4 + n)%N in
      if (len buf <? stop)%N then Err (Truncated stop (len buf))
      else match from_slice (take (N.to_nat n) (drop 4 buf)) with
           | None => Err Serde
           | Some msg => Ok (msg, stop)
           end.

(** [write_message] on a writer that accepts ([ok]) or refuses the bytes. *)
Definition write_message (ok : bool) (out : list N) (msg : T)
    : result unit ProtocolError * list N :=
  match encode msg with
  | Err e => (Err e, out)
  | Ok frame => if ok then (Ok tt, out ++ frame) else (Err Serde, out)
  end.

Definition read_message (r : reader) : result (option T) ProtocolError * reader :=
  match read_exact r 4 with
  | (Err UnexpectedEof, r1) => (Ok None, r1)
  | (Err OtherIo, r1) => (Err Serde, r1)
  | (Ok len_buf, r1) =>
      let n := from_be_bytes len_buf in
      if (MAX_FRAME <? n)%N then (Err (TooLarge n), r1)
      else match read_exact r1 (N.to_nat n) with
           | (Err _, r2) => (Err Serde, r2)
           | (Ok payload, r2) =>
               match from_slice payload with
               | None => (Err Serde, r2)
               | Some msg => (Ok (Some msg), r2)
               end
           end
  end.

(** Every message of a stream, until it ends or fails; a frame takes at least
    four bytes, so [length (pending r)] rounds are enough. *)
Fixpoint read_all (fuel : nat) (r : reader) : list T * result unit ProtocolError :=
  match fuel with
  | O => ([], Ok tt)
  | S fuel =>
      match read_message r with
      | (Err e, _) => ([], Err e)
      | (Ok None, _) => ([], Ok tt)
      | (Ok (Some m), r') => let '(ms, e) := read_all fuel r' in (m :: ms, e)
      end
  end.

(** ** Lengths *)

Lemma from_to_be_bytes (n : N) : (n < 4294967296)%N → from_be_bytes (to_be_bytes n) = n.
Proof.
  intros Hn. unfold from_be_bytes, to_be_bytes. simpl.
  zify. Z.to_euclidean_division_equations. lia.
Qed.

Lemma encode_frame (msg : T) (frame : list N) :
  encode msg = Ok frame →
  ∃ payload, to_vec msg = Some payload ∧ frame = to_be_bytes (len payload) ++ payload
             ∧ (len payload ≤ MAX_FRAME)%N.
Proof.
  unfold encode. destruct (to_vec msg) as [payload|]; [|done].
  destruct (N.ltb_spec MAX_FRAME (len payload)); [done|].
  intros [= <-]. by exists payload.
Qed.

Lemma payload_len (payload : list N) :
  (len payload ≤ MAX_FRAME)%N → from_be_bytes (to_be_bytes (len payload)) = len payload.
Proof. intros H. apply from_to_be_bytes. unfold MAX_FRAME in H. lia. Qed.

Lemma len_app (a b : list N) : len (a ++ b) = (len a + len b)%N.
Proof. unfold len. rewrite length_app. lia. Qed.

Lemma read_exact_header (n : N) (rest : list N) (f : bool) :
  read_exact {| pending := to_be_bytes n ++ rest; fails := f |} 4
  = (Ok (to_be_bytes n), {| pending := rest; fails := f |}).
Proof. done. Qed.

Lemma read_exact_app (a rest : list N) (f : bool) (n : nat) :
  n = length a →
  read_exact {| pending := a ++ rest; fails := f |} n = (Ok a, {| pending := rest; fails := f |}).
Proof.
  intros ->. unfold read_exact; simpl. rewrite length_app.
  rewrite (proj2 (Nat.leb_le _ _)) by lia. by rewrite take_app_length, drop_app_length.
Qed.

Lemma read_message_frame (msg : T) (frame rest : list N) (f : bool) :
  encode msg = Ok frame →
  read_message {| pending := frame ++ rest; fails := f |}
  = (Ok (Some msg), {| pending := rest; fails := f |}).
Proof.
  intros (payload & Hv & -> & Hlen)%encode_frame. unfold read_message.
  rewrite <- app_assoc, read_exact_header, payload_len by done.
  rewrite (proj2 (N.ltb_ge _ _)) by done.
  rewrite read_exact_app by (unfold len; lia). by rewrite (from_to_vec _ _ Hv).
Qed.

Lemma decode_header (n : N) (rest : list N) :
  decode (to_be_bytes n ++ rest) =
    let n := from_be_bytes (to_be_bytes n) in
    if (MAX_FRAME <? n)%N then Err (TooLarge n)
    else if (4 + len rest <? 4 + n)%N then Err (Truncated (4 + n) (4 + len rest))
         else match from_slice (take (N.to_nat n) rest) with
              | None => Err Serde
              | Some msg => Ok (msg, (4 + n)%N)
              end.
Proof.
  unfold decode. rewrite len_app. change (len (to_be_bytes n)) with 4%N.
  rewrite (proj2 (N.ltb_ge _ 4)) by lia. done.
Qed.

(** ** Properties *)

(** decoding an encoded message from the front of a buffer gives the
    message back with the exact number of bytes it occupied, whatever follows;
    and on every strict prefix of the frame it asks for more bytes instead of
    producing a message. *)
Theorem decode_encode (msg : T) (frame rest : list N) :
  encode msg = Ok frame →
  decode (frame ++ rest) = Ok (msg, len frame) ∧
  ∀ k, k < length frame → ∃ need have, decode (take k frame) = Err (Truncated need have) ∧ (have < need)%N.
Proof.
  intros (payload & Hv & -> & Hlen)%encode_frame. split.
  - rewrite <- app_assoc, decode_header, payload_len by done. cbv zeta.
    rewrite (proj2 (N.ltb_ge MAX_FRAME _)) by done. rewrite !len_app.
    rewrite (proj2 (N.ltb_ge (4 + _) _)) by lia.
    unfold len at 1. rewrite Nat2N.id, take_app_length, (from_to_vec _ _ Hv). done.
  - intros k Hk. destruct (decide (k < 4)) as [Hk4|Hk4].
    + unfold decode. exists 4%N, (N.of_nat k). rewrite length_app in Hk.
      assert (len (take k (to_be_bytes (len payload) ++ payload)) = N.of_nat k) as ->.
      { unfold len. rewrite length_take, length_app. simpl. lia. }
      rewrite (proj2 (N.ltb_lt _ 4)) by lia. split; [done|lia].
    + rewrite length_app in Hk. change (length (to_be_bytes (len payload))) with 4 in Hk.
      rewrite take_app_ge by (simpl; lia). rewrite decode_header, payload_len by done. cbv zeta.
      rewrite (proj2 (N.ltb_ge MAX_FRAME _)) by done.
      set (p' := take _ payload). assert (len p' < len payload)%N.
      { unfold len, p'. rewrite length_take. simpl. lia. }
      rewrite (proj2 (N.ltb_lt (4 + len p') _)) by lia.
      eexists _, _. split; [done|lia].
Qed.

Lemma read_all_frames (msgs : list T) (frames : list (list N)) (fuel : nat) :
  Forall2 (λ m f, encode m = Ok f) msgs frames → length msgs < fuel →
  read_all fuel {| pending := mjoin frames; fails := false |} = (msgs, Ok tt).
Proof.
  intros H. revert fuel. induction H as [|m f msgs frames Hm _ IH]; intros [|fuel] Hf; simpl in *; try lia.
  - done.
  - rewrite (read_message_frame _ _ _ _ Hm). by rewrite IH by lia.
Qed.

(** the messages written one after the other on a stream are read back in
    order, none lost, merged or invented, and the reader then sees a clean
    end of stream. *)
Theorem read_all_written (msgs : list T) (frames : list (list N)) :
  Forall2 (λ m f, encode m = Ok f) msgs frames →
  read_all (S (length (mjoin frames))) {| pending := mjoin frames; fails := false |} = (msgs, Ok tt).
Proof.
  intros H. apply read_all_frames; [done|].
  assert (length msgs ≤ length (mjoin frames)); [|lia].
  induction H as [|m f msgs frames Hm _ IH]; simpl; [lia|]. rewrite length_app.
  apply encode_frame in Hm as (payload & _ & -> & _). rewrite length_app. simpl. lia.
Qed.

(** A header cut short (one to three bytes, then end of stream) is reported
    as a clean end, not as an error. *)
Lemma partial_header_is_eof (r : reader) :
  length (pending r) < 4 → fails r = false → (read_message r).1 = Ok None.
Proof.
  intros Hlen Hf. unfold read_message, read_exact.
  rewrite (proj2 (Nat.leb_gt 4 _)) by lia. by rewrite Hf.
Qed.
End Framing.

(** A concrete codec, to exercise the framing: booleans as one byte. *)
Definition bool_to_vec (b : bool) : option (list N) := Some [if b then 1%N else 0%N].

Definition bool_from_slice (l : list N) : option bool :=
  match l with [1%N] => Some true | [0%N] => Some false | _ => None end.

#[local] Instance bool_wire : Wire bool.
Proof.
  refine {| to_vec := bool_to_vec; from_slice := bool_from_slice |}.
  intros [] bytes [= <-]; done.
Defined.

Lemma decode_encode_witness :
  decode ([0; 0; 0; 1; 1] ++ [7])%N = Ok (true, len [0; 0; 0; 1; 1]%N) ∧
  ∀ k, k < length [0; 0; 0; 1; 1]%N →
    ∃ need have, decode (T := bool) (take k [0; 0; 0; 1; 1]%N) = Err (Truncated need have) ∧ (have < need)%N.
Proof. apply (decode_encode true [0; 0; 0; 1; 1]%N [7%N]). reflexivity. Defined.

Lemma read_all_written_witness :
  read_all 11 {| pending := [0; 0; 0; 1; 1; 0; 0; 0; 1; 0]%N; fails := false |} = ([true; false], Ok tt).
Proof.
  apply (read_all_written [true; false] [[0; 0; 0; 1; 1]; [0; 0; 0; 1; 0]]%N).
  repeat constructor.
Defined.
