(* ===== verification/Helper.v ===== *)
(** * The privileged helper (helper/src/server.rs, hosts.rs, state.rs,
      netalias.rs and the accept loop of lib.rs)

    One control connection at a time: handshake, then a loop of requests, then
    teardown.  The operating system (alias commands, socket binding, file
    access) is the section's context: which calls succeed is arbitrary. *)

From S2P Require Import Prelude Ipv4 IpAlloc Hostnames HostsFile Protocol.

(** ** Files: the hosts file and its one-time backup *)

Record Fs : Set := {
  hosts_content : option str;      (** [None]: not found *)
  backup_content : option str;
  can_read : bool;                 (** the hosts file can be read when it exists *)
  can_write_hosts : bool;
  can_write_backup : bool
}.

Definition set_hosts (fs : Fs) (c : str) : Fs :=
  {| hosts_content := Some c; backup_content := backup_content fs; can_read := can_read fs;
     can_write_hosts := can_write_hosts fs; can_write_backup := can_write_backup fs |}.

Definition set_backup (fs : Fs) (c : str) : Fs :=
  {| hosts_content := hosts_content fs; backup_content := Some c; can_read := can_read fs;
     can_write_hosts := can_write_hosts fs; can_write_backup := can_write_backup fs |}.

Definition read (fs : Fs) : result str str :=
  match hosts_content fs with
  | None => Ok []
  | Some c => if can_read fs then Ok c else Err (lit "reading")
  end.

Definition write_hosts (fs : Fs) (c : str) : result unit str * Fs :=
  if can_write_hosts fs then (Ok tt, set_hosts fs c) else (Err (lit "writing"), fs).

Definition backup_once (fs : Fs) : result unit str * Fs :=
  match backup_content fs with
  | Some _ => (Ok tt, fs)
  | None =>
      match hosts_content fs with
      | Some c =>
          if negb (can_read fs) then (Ok tt, fs)
          else if can_write_backup fs then (Ok tt, set_backup fs c)
          else (Err (lit "writing hosts backup"), fs)
      | None => (Ok tt, fs)
      end
  end.

Definition to_entry (e : HostEntry) : Entry :=
  {| HostsFile.ip := he_ip e; HostsFile.hostnames := he_hostnames e |}.

Definition hosts_apply (fs : Fs) (entries : list HostEntry) : result unit str * Fs :=
  match backup_once fs with
  | (Err e, fs1) => (Err e, fs1)
  | (Ok _, fs1) =>
      match read fs1 with
      | Err e => (Err e, fs1)
      | Ok current => write_hosts fs1 (upsert_block current (to_entry <$> entries))
      end
  end.

Definition hosts_remove (fs : Fs) : result unit str * Fs :=
  match read fs with
  | Err e => (Err e, fs)
  | Ok current =>
      if negb (has_block current) then (Ok tt, fs) else write_hosts fs (strip_block current)
  end.

Definition purge_stale (fs : Fs) : result (list Ipv4Addr) str * Fs :=
  match read fs with
  | Err e => (Err e, fs)
  | Ok current =>
      let ips := block_ips current in
      if has_block current then
        match write_hosts fs (strip_block current) with
        | (Err e, fs') => (Err e, fs')
        | (Ok _, fs') => (Ok ips, fs')
        end
      else (Ok ips, fs)
  end.

(** ** Loopback aliases *)

Inductive Platform : Set := Linux | MacOs | Windows | OtherOs.

Record HelperState : Type := {
  secret : str;                      (** [token] *)
  fs : Fs;
  aliases : gset Ipv4Addr;
  os_aliases : gset Ipv4Addr;        (** what the operating system has *)
  bound : list (Ipv4Addr * N)        (** listeners handed to the app *)
}.

Definition with_fs (st : HelperState) (f : Fs) : HelperState :=
  {| secret := secret st; fs := f; aliases := aliases st; os_aliases := os_aliases st;
     bound := bound st |}.

Definition with_aliases (st : HelperState) (a os : gset Ipv4Addr) : HelperState :=
  {| secret := secret st; fs := fs st; aliases := a; os_aliases := os; bound := bound st |}.

Inductive Outcome : Set := Continue | OShutdown | Rejected.

(** One incoming connection: what reading the handshake gives, what each
    further read gives (the end of the list is a clean end of stream), whether
    file descriptors can be passed, and which writes the peer still takes. *)
Record Connection : Type := {
  hello : result (option Handshake) ProtocolError;
  incoming : list (result Request ProtocolError);
  ctl_fd : bool;
  writes : nat → bool
}.

Section Server.
Context (platform : Platform).
(** Whether [ifconfig]/[netsh] succeeds for the address, and [bind]. *)
Context (add_ok del_ok : Ipv4Addr → bool) (bind_ok : Ipv4Addr → N → bool).
(** [Debug] for strings and the text of input/output errors. *)
Context (debug : str → str).

Definition netalias_add (os : gset Ipv4Addr) (ip : Ipv4Addr) : result unit str * gset Ipv4Addr :=
  match platform with
  | Linux => (Ok tt, os)
  | MacOs | Windows =>
      if add_ok ip then (Ok tt, {[ip]} ∪ os) else (Err (lit "alias command failed"), os)
  | OtherOs => (Err (lit "loopback aliasing is not supported on this platform"), os)
  end.

Definition netalias_del (os : gset Ipv4Addr) (ip : Ipv4Addr) : gset Ipv4Addr :=
  match platform with
  | Linux | OtherOs => os
  | MacOs | Windows => if del_ok ip then os ∖ {[ip]} else os
  end.

(** The checks of [HostsApply], in order, with the reply of the first failure. *)
Fixpoint check_names (names : list str) : option Response :=
  match names with
  | [] => None
  | h :: names' =>
      if is_valid_hostname h then check_names names'
      else Some (RError (lit "invalid hostname " ++ debug h))
  end.

Fixpoint check_entries (entries : list HostEntry) : option Response :=
  match entries with
  | [] => None
  | e :: entries' =>
      if negb (is_loopback_v4 (he_ip e)) then
        Some (RError (lit "non-loopback ip " ++ ip_display (he_ip e)))
      else match check_names (he_hostnames e) with
           | Some r => Some r
           | None => check_entries entries'
           end
  end.

Definition teardown (st : HelperState) : HelperState :=
  let os := foldl netalias_del (os_aliases st) (elements (aliases st)) in
  let st := with_aliases st ∅ os in
  with_fs st (hosts_remove (fs st)).2.

Definition reply_of (r : result unit str) : Response :=
  match r with Ok _ => ROk | Err e => RError e end.

Definition handle (st : HelperState) (req : Request) : Response * Outcome * HelperState :=
  match req with
  | Ping => (Pong, Continue, st)
  | AddLoopback ip =>
      if negb (is_loopback_v4 ip) then
        (RError (ip_display ip ++ lit " is not a loopback address"), Continue, st)
      else
        match netalias_add (os_aliases st) ip with
        | (Ok _, os) => (ROk, Continue, with_aliases st ({[ip]} ∪ aliases st) os)
        | (Err e, os) => (RError e, Continue, with_aliases st (aliases st) os)
        end
  | DelLoopback ip =>
      (ROk, Continue, with_aliases st (aliases st ∖ {[ip]}) (netalias_del (os_aliases st) ip))
  | HostsApply entries =>
      match check_entries entries with
      | Some r => (r, Continue, st)
      | None =>
          let '(r, f) := hosts_apply (fs st) entries in (reply_of r, Continue, with_fs st f)
      end
  | HostsRemove =>
      let '(r, f) := hosts_remove (fs st) in (reply_of r, Continue, with_fs st f)
  | PurgeStale =>
      match purge_stale (fs st) with
      | (Ok ips, f) =>
          let st := with_fs st f in
          (Purged ips, Continue,
           foldl (λ st ip, with_aliases st (aliases st ∖ {[ip]}) (netalias_del (os_aliases st) ip)) st ips)
      | (Err e, f) => (RError e, Continue, with_fs st f)
      end
  | Shutdown => (ROk, OShutdown, teardown st)
  | BindListener _ _ => (RError (lit "bind_listener must be handled inline"), Continue, st)
  end.

Definition handle_bind_listener (fd : bool) (ip : Ipv4Addr) (port : N) (st : HelperState)
    : HelperState :=
  if negb fd then st
  else if negb (is_loopback_v4 ip) then st
  else if bind_ok ip port
  then {| secret := secret st; fs := fs st; aliases := aliases st; os_aliases := os_aliases st;
          bound := bound st ++ [(ip, port)] |}
  else st.

(** The command loop; [n] counts the replies written so far. *)
Fixpoint serve_loop (conn : Connection) (reqs : list (result Request ProtocolError)) (n : nat)
    (st : HelperState) : Outcome * list Response * HelperState :=
  match reqs with
  | [] => (Continue, [], st)
  | Err _ :: _ => (Continue, [], st)
  | Ok (BindListener ip port) :: reqs' =>
      serve_loop conn reqs' n (handle_bind_listener (ctl_fd conn) ip port st)
  | Ok req :: reqs' =>
      let '(resp, outcome, st') := handle st req in
      if negb (writes conn n) then (Continue, [], st')
      else match outcome with
           | OShutdown => (OShutdown, [resp], st')
           | _ => let '(o, rs, st'') := serve_loop conn reqs' (S n) st' in (o, resp :: rs, st'')
           end
  end.

Definition serve_connection (conn : Connection) (st : HelperState)
    : Outcome * list Response * HelperState :=
  match hello conn with
  | Err _ => (Rejected, [], st)
  | Ok None => (Rejected, [], st)
  | Ok (Some h) =>
      if negb (version h =? PROTOCOL_VERSION)%N || negb (token h =s secret st) then
        (Rejected, if writes conn 0 then [RError (lit "unauthorized")] else [], st)
      else if negb (writes conn 0) then (Rejected, [], st)
      else let '(o, rs, st') := serve_loop conn (incoming conn) 1 st in (o, ROk :: rs, st')
  end.

(** The accept loop of [listen] on Unix: what [accept] gives before the
    deadline, a connection or an error, until a connection authenticates.  The
    end of the list is the deadline. *)
Fixpoint accept_loop (arrivals : list (result Connection str)) (st : HelperState)
    : result unit str * HelperState :=
  match arrivals with
  | [] => (Ok tt, st)
  | Err e :: _ => (Err (lit "accept: " ++ e), st)
  | Ok c :: arrivals' =>
      match serve_connection c st with
      | (Rejected, _, st') => accept_loop arrivals' st'
      | (_, _, st') => (Ok tt, st')
      end
  end.

(** The loop's [return Err] leaves [listen] at once; only a [break] reaches the
    teardown. *)
Definition listen_unix (arrivals : list (result Connection str)) (st : HelperState)
    : result unit str * HelperState :=
  match accept_loop arrivals st with
  | (Ok _, st') => (Ok tt, teardown st')
  | (Err e, st') => (Err e, st')
  end.

(** On Windows one client is waited for, given no file descriptors, and torn
    down however it ends. *)
Definition without_fd (conn : Connection) : Connection :=
  {| hello := hello conn; incoming := incoming conn; ctl_fd := false; writes := writes conn |}.

Definition serve_until_disconnect (conn : Connection) (st : HelperState) : HelperState :=
  teardown (serve_connection (without_fd conn) st).2.

Definition listen_windows (first : option (result Connection str)) (st : HelperState)
    : result unit str * HelperState :=
  match first with
  | Some (Ok c) => (Ok tt, serve_until_disconnect c st)
  | Some (Err e) => (Err (lit "named pipe connect: " ++ e), st)
  | None => (Ok tt, st)
  end.

Definition listen (arrivals : list (result Connection str)) (st : HelperState)
    : result unit str * HelperState :=
  match platform with
  | Windows => listen_windows (head arrivals) st
  | _ => listen_unix arrivals st
  end.
End Server.

(** *** Accepted names are plain *)

Lemma label_byte_head (c b : N) : b ∈ char_bytes c → is_label_byte b = true → label_char c.
Proof.
  unfold char_bytes. intros Hin Hb.
  destruct (label_char_ascii b Hb) as [Hlt _].
  repeat case_match; bool_to_prop; rewrite ?elem_of_cons, ?elem_of_nil in Hin.
  - by destruct Hin as [->|[]].
  - exfalso. destruct Hin as [->|[->|[]]]; revert Hlt; generalize (c / 64)%N (c mod 64)%N; lia.
  - exfalso. destruct Hin as [->|[->|[->|[]]]]; revert Hlt;
      generalize (c / 4096)%N ((c / 64) mod 64)%N (c mod 64)%N; lia.
  - exfalso. destruct Hin as [->|[->|[->|[->|[]]]]]; revert Hlt;
      generalize (c / 262144)%N ((c / 4096) mod 64)%N ((c / 64) mod 64)%N (c mod 64)%N; lia.
Qed.

Lemma char_bytes_nonempty (c : char) : char_bytes c ≠ [].
Proof. unfold char_bytes. repeat case_match; done. Qed.

Lemma valid_label_chars (l : str) : is_valid_label l = true → Forall label_char l.
Proof.
  unfold is_valid_label. case_match; [done|]. case_match; [done|]. rewrite forallb_Forall.
  rewrite !Forall_forall. intros H1 c Hc.
  destruct (char_bytes c) as [|b bs] eqn:E; [by destruct (char_bytes_nonempty c)|].
  apply (label_byte_head c b); [rewrite E; by left|]. apply H1. unfold str_bytes.
  apply list_elem_of_bind. exists c. split; [rewrite E; by left|done].
Qed.

Lemma split_by_elem (p : char → bool) (s : str) (c : char) :
  c ∈ s → p c = true ∨ ∃ w, w ∈ split_by p s ∧ c ∈ w.
Proof.
  induction s as [|x s IH]; simpl; [by intros ?%elem_of_nil|].
  intros [->|Hin]%elem_of_cons.
  - destruct (p x) eqn:E; [by left|]. right. case_match.
    + exists [x]. split; by left.
    + eexists. split; by left.
  - destruct (IH Hin) as [?|(w & Hw & Hcw)]; [by left|]. right. destruct (p x).
    + exists w. split; [by right|done].
    + destruct (split_by p s) as [|w' ws]; [by apply elem_of_nil in Hw|].
      apply elem_of_cons in Hw as [->|Hw].
      * eexists. split; [by left|by right].
      * exists w. split; [by right|done].
Qed.

Lemma valid_hostname_plain (h : str) : is_valid_hostname h = true → plain_name h.
Proof.
  unfold is_valid_hostname. case_match; [done|]. bool_to_prop. rewrite forallb_Forall.
  intros Hl. split; [done|]. apply Forall_forall. intros c Hc.
  assert (label_char c ∨ c = DOT) as Hd.
  { destruct (split_by_elem (N.eqb DOT) h c Hc) as [->%N.eqb_eq|(w & Hw & Hcw)]; [by right|].
    left. eapply Forall_forall in Hl; [|done]. apply valid_label_chars in Hl.
    by eapply Forall_forall in Hl. }
  destruct Hd as [Hlc| ->]; [|done]. revert Hlc.
  unfold label_char, is_label_byte, is_ascii_lowercase, is_ascii_digit, HYPHEN, is_whitespace.
  rewrite !orb_true_iff, !andb_true_iff, !N.leb_le, N.eqb_eq.
  rewrite !orb_false_iff, !andb_false_iff, !N.eqb_neq, !N.leb_gt. lia.
Qed.

(** An entry the helper accepts: a loopback address with valid host names. *)
Definition accepted_entry (e : Entry) : Prop :=
  is_loopback_v4 (HostsFile.ip e) = true ∧ Forall (λ h, is_valid_hostname h = true) (HostsFile.hostnames e).

Lemma accepted_plain (es : list Entry) : Forall accepted_entry es → Forall plain_entry es.
Proof.
  intros H. eapply Forall_impl; [exact H|]. intros e [_ Hn].
  eapply Forall_impl; [exact Hn|]. apply valid_hostname_plain.
Qed.

Lemma check_names_valid (debug : str → str) (names : list str) :
  check_names debug names = None → Forall (λ h, is_valid_hostname h = true) names.
Proof. induction names as [|h names IH]; simpl; [constructor|]. case_match; [|done]. by constructor; auto. Qed.

Lemma check_entries_accepted (debug : str → str) (es : list HostEntry) :
  check_entries debug es = None → Forall accepted_entry (to_entry <$> es).
Proof.
  induction es as [|e es IH]; simpl; [by constructor|].
  case_match; [done|]. case_match; [done|]. bool_to_prop. intros ?%IH.
  constructor; [|done]. split; [done|]. by eapply check_names_valid.
Qed.

(** ** The file part *)

(** What the session may have made of a hosts file that was [c0]. *)
Definition hosts_of (c0 : option str) (c : option str) : Prop :=
  c = c0 ∨ c = Some (strip_block (default [] c0))
  ∨ ∃ es, Forall accepted_entry es ∧ c = Some (upsert_block (default [] c0) es).

(** ... before any block was written. *)
Definition hosts_unmanaged (c0 : option str) (c : option str) : Prop :=
  c = c0 ∨ c = Some (strip_block (default [] c0)).

Record fs_evolved (f0 f : Fs) : Prop := {
  fe_hosts : hosts_of (hosts_content f0) (hosts_content f);
  fe_flags : can_read f = can_read f0 ∧ can_write_hosts f = can_write_hosts f0;
  fe_backup_kept : ∀ b, backup_content f0 = Some b → backup_content f = Some b;
  fe_backup_unmanaged : hosts_content f0 ≠ None → backup_content f0 = None →
    match backup_content f with
    | None => hosts_unmanaged (hosts_content f0) (hosts_content f)
    | Some b => hosts_unmanaged (hosts_content f0) (Some b)
    end
}.

Lemma upsert_nil (s : str) : upsert_block s [] = strip_block s.
Proof. done. Qed.

Lemma strip_idem (s : str) : cr_free s → strip_block (strip_block s) = strip_block s.
Proof. intros H. rewrite <- (upsert_nil s) at 1. by apply strip_upsert. Qed.

(** All that a session writes is a function of the foreign part of the file. *)
Lemma hosts_of_strip (c0 : option str) (c : str) :
  cr_free (default [] c0) → hosts_of c0 (Some c) → strip_block c = strip_block (default [] c0).
Proof.
  intros Hcr [<-|[[= ->]|(es & Hes%accepted_plain & [= ->])]];
    [done|by apply strip_idem|by apply strip_upsert].
Qed.

Lemma fs_evolved_refl (f : Fs) : fs_evolved f f.
Proof. split; [by left|done|done|]. intros _ ->. by left. Qed.

Lemma read_content (f : Fs) (c : str) : read f = Ok c → c = default [] (hosts_content f).
Proof. unfold read. intros H. tests. Qed.

Lemma read_hosts_of (f0 f : Fs) (c : str) :
  cr_free (default [] (hosts_content f0)) → fs_evolved f0 f → read f = Ok c →
  strip_block c = strip_block (default [] (hosts_content f0)).
Proof.
  intros Hcr [Hh _ _ _] ->%read_content. destruct (hosts_content f) as [c|] eqn:E; simpl.
  - by apply hosts_of_strip.
  - destruct Hh as [<-|[?|(? & _ & ?)]]; done.
Qed.

Lemma backup_once_evolved (f0 f : Fs) :
  fs_evolved f0 f → fs_evolved f0 (backup_once f).2.
Proof.
  intros Hf. unfold backup_once. destruct (backup_content f) eqn:Eb; [done|].
  destruct (hosts_content f) as [c|] eqn:Ec; [|done]. repeat case_match; try done.
  destruct Hf as [Hh Hflags Hk Hu]. rewrite Ec in Hh, Hu. rewrite Eb in Hk, Hu.
  split; simpl; [by rewrite Ec|done| |done].
  intros b Hb. by specialize (Hk b Hb).
Qed.

Lemma backup_once_done (f : Fs) (c : str) :
  hosts_content f ≠ None → (backup_once f).1 = Ok tt → read (backup_once f).2 = Ok c →
  backup_content (backup_once f).2 ≠ None.
Proof.
  unfold backup_once, read. intros Hh.
  destruct (backup_content f) eqn:Eb, (hosts_content f) eqn:Ec; simpl; try done; try congruence.
  destruct (can_read f) eqn:Er; simpl; [|by rewrite Ec, Er].
  by destruct (can_write_backup f).
Qed.

Lemma write_evolved (f0 f : Fs) (c : str) :
  fs_evolved f0 f → hosts_of (hosts_content f0) (Some c) →
  (hosts_content f0 ≠ None → backup_content f = None → hosts_unmanaged (hosts_content f0) (Some c)) →
  fs_evolved f0 (write_hosts f c).2.
Proof.
  intros Hf Hc Hb. unfold write_hosts. case_match; [|done]. destruct Hf as [Hh Hflags Hk Hu].
  split; simpl; [done..|]. intros Hne H0. specialize (Hu Hne H0).
  destruct (backup_content f); [done|]. by apply Hb.
Qed.

Lemma strip_write_evolved (f0 f : Fs) (c : str) :
  cr_free (default [] (hosts_content f0)) → fs_evolved f0 f → read f = Ok c →
  fs_evolved f0 (write_hosts f (strip_block c)).2.
Proof.
  intros Hcr Hf Hr. apply write_evolved; [done|..]; rewrite (read_hosts_of f0 f c Hcr Hf Hr).
  - right. by left.
  - intros _ _. by right.
Qed.

Lemma hosts_remove_evolved (f0 f : Fs) :
  cr_free (default [] (hosts_content f0)) → fs_evolved f0 f → fs_evolved f0 (hosts_remove f).2.
Proof.
  intros Hcr Hf. unfold hosts_remove. destruct (read f) eqn:Er; [|done].
  case_match; [done|]. by apply strip_write_evolved.
Qed.

Lemma purge_stale_evolved (f0 f : Fs) :
  cr_free (default [] (hosts_content f0)) → fs_evolved f0 f → fs_evolved f0 (purge_stale f).2.
Proof.
  intros Hcr Hf. unfold purge_stale. destruct (read f) eqn:Er; [|done]. case_match; [|done].
  pose proof (strip_write_evolved f0 f _ Hcr Hf Er) as H'.
  by destruct (write_hosts _ _) as [[] ?].
Qed.

Lemma backup_once_hosts (f : Fs) : hosts_content (backup_once f).2 = hosts_content f.
Proof. unfold backup_once. repeat case_match; done. Qed.

Lemma hosts_none_evolved (f0 f : Fs) : fs_evolved f0 f → hosts_content f0 ≠ None → hosts_content f ≠ None.
Proof.
  intros [Hh _ _ _] Hne Hn. rewrite Hn in Hh. destruct Hh as [?|[?|(? & _ & ?)]]; done.
Qed.

Lemma hosts_apply_evolved (f0 f : Fs) (es : list HostEntry) :
  cr_free (default [] (hosts_content f0)) → Forall accepted_entry (to_entry <$> es) →
  fs_evolved f0 f → fs_evolved f0 (hosts_apply f es).2.
Proof.
  intros Hcr Hes Hf. unfold hosts_apply. pose proof (backup_once_evolved f0 f Hf) as Hf1.
  pose proof (backup_once_done f) as Hdone.
  destruct (backup_once f) as [[[]|e] f1] eqn:Eb; simpl in *; [|done].
  destruct (read f1) as [c|] eqn:Er; [|done].
  apply write_evolved; [done|..].
  - right; right. exists (to_entry <$> es). split; [done|]. f_equal. apply upsert_base.
    by eapply read_hosts_of.
  - intros Hne Hb. destruct (Hdone c); [by eapply hosts_none_evolved|done|done|done].
Qed.

(** ** Sessions *)

Section Sessions.
Context (platform : Platform) (add_ok del_ok : Ipv4Addr → bool) (bind_ok : Ipv4Addr → N → bool)
        (debug : str → str).

Local Abbreviation handle := (handle platform add_ok del_ok debug).
Local Abbreviation handle_bind := (handle_bind_listener bind_ok).
Local Abbreviation serve_loop := (serve_loop platform add_ok del_ok bind_ok debug).
Local Abbreviation serve_connection := (serve_connection platform add_ok del_ok bind_ok debug).
Local Abbreviation accept_loop := (accept_loop platform add_ok del_ok bind_ok debug).
Local Abbreviation listen := (listen platform add_ok del_ok bind_ok debug).
Local Abbreviation listen_unix := (listen_unix platform add_ok del_ok bind_ok debug).
Local Abbreviation listen_windows := (listen_windows platform add_ok del_ok bind_ok debug).
Local Abbreviation teardown := (teardown platform del_ok).
Local Abbreviation netalias_del := (netalias_del platform del_ok).

(** What every request keeps, every history of connections keeps. *)
Section Preserved.
Context (P : HelperState → Prop).
Context (P_handle : ∀ st req, P st → P (handle st req).2).
Context (P_bind : ∀ fd ip port st, P st → P (handle_bind fd ip port st)).

Lemma serve_loop_keeps conn reqs n st : P st → P (serve_loop conn reqs n st).2.
Proof using P_handle P_bind.
  revert n st. induction reqs as [|[req|e] reqs IH]; intros n st Hst; simpl; [done| |done].
  pose proof (P_handle st req Hst) as Hh.
  assert (P (let '(resp, outcome, st') := handle st req in
             if negb (writes conn n) then (Continue, [], st')
             else match outcome with
                  | OShutdown => (OShutdown, [resp], st')
                  | _ => let '(o, rs, st'') := serve_loop conn reqs (S n) st' in
                         (o, resp :: rs, st'')
                  end).2) as Hreq.
  { destruct (handle st req) as [[resp o] st']. simpl in Hh.
    destruct (negb _); [done|]. specialize (IH (S n) st' Hh).
    destruct o; try done; by destruct (serve_loop _ _ _ _) as [[]]. }
  destruct req; try exact Hreq. apply IH. by apply P_bind.
Qed.

Lemma serve_connection_keeps conn st : P st → P (serve_connection conn st).2.
Proof using P_handle P_bind.
  intros Hst. unfold serve_connection. repeat (case_match; try done); simpl.
  match goal with H : serve_loop ?c ?r ?n ?s = _ |- _ =>
    pose proof (serve_loop_keeps c r n s Hst) as Hs; by rewrite H in Hs end.
Qed.

Lemma accept_loop_keeps arrivals st : P st → P (accept_loop arrivals st).2.
Proof using P_handle P_bind.
  revert st. induction arrivals as [|[c|e] arrivals IH]; intros st Hst; simpl; [done| |done].
  pose proof (serve_connection_keeps c st Hst) as Hs.
  destruct (serve_connection c st) as [[[] ?] ?]; auto.
Qed.

End Preserved.

(** A connection that was never authenticated left no trace. *)
Lemma serve_loop_not_rejected conn reqs n st : (serve_loop conn reqs n st).1.1 ≠ Rejected.
Proof.
  revert n st. induction reqs as [|[req|e] reqs IH]; intros n st; simpl; [done| |done].
  assert ((let '(resp, outcome, st') := handle st req in
             if negb (writes conn n) then (Continue, [], st')
             else match outcome with
                  | OShutdown => (OShutdown, [resp], st')
                  | _ => let '(o, rs, st'') := serve_loop conn reqs (S n) st' in
                         (o, resp :: rs, st'')
                  end).1.1 ≠ Rejected) as Hreq.
  { destruct (handle st req) as [[resp o] st']. destruct (negb _); [done|].
    specialize (IH (S n) st'). destruct o; try done; by destruct (serve_loop _ _ _ _) as [[]]. }
  destruct req; try exact Hreq. apply IH.
Qed.

Lemma rejected_inert conn st rs st' : serve_connection conn st = (Rejected, rs, st') → st' = st.
Proof.
  unfold serve_connection. repeat (case_match; try (intros; congruence)).
  pose proof (serve_loop_not_rejected conn (incoming conn) 1 st) as Hn.
  match goal with H : serve_loop _ _ _ _ = _ |- _ => rewrite H in Hn end. simpl in Hn. congruence.
Qed.

(** Removing addresses one after the other. *)
Lemma netalias_del_sub (os : gset Ipv4Addr) (ip : Ipv4Addr) : netalias_del os ip ⊆ os.
Proof. unfold netalias_del. repeat case_match; set_solver. Qed.

Lemma netalias_del_list (ips : list Ipv4Addr) (os : gset Ipv4Addr) :
  foldl netalias_del os ips ⊆ os
  ∧ (platform ≠ Linux → platform ≠ OtherOs → (∀ ip, del_ok ip = true) →
     foldl netalias_del os ips = os ∖ list_to_set ips).
Proof.
  revert os. induction ips as [|ip ips IH]; intros os; simpl.
  { split; [done|]. set_solver. }
  destruct (IH (netalias_del os ip)) as [IH1 IH2]. split.
  - pose proof (netalias_del_sub os ip). set_solver.
  - intros Hl Ho Hd. rewrite IH2 by done. unfold netalias_del. rewrite Hd.
    destruct platform; try done; set_solver.
Qed.

Definition purge_one (st : HelperState) (ip : Ipv4Addr) : HelperState :=
  with_aliases st (aliases st ∖ {[ip]}) (netalias_del (os_aliases st) ip).

Lemma purge_fold (ips : list Ipv4Addr) (st : HelperState) :
  foldl purge_one st ips
  = with_aliases st (aliases st ∖ list_to_set ips) (foldl netalias_del (os_aliases st) ips).
Proof.
  revert st. induction ips as [|ip ips IH]; intros st; simpl.
  - destruct st; unfold with_aliases; simpl. f_equal. set_solver.
  - rewrite IH. unfold with_aliases; simpl. f_equal. set_solver.
Qed.

(** *** What any session does to the machine *)

Record evolved (st0 st : HelperState) : Prop := {
  ev_secret : secret st = secret st0;
  ev_fs : cr_free (default [] (hosts_content (fs st0))) → fs_evolved (fs st0) (fs st);
  ev_aliases : ∀ ip, ip ∈ aliases st → ip ∈ aliases st0 ∨ is_loopback_v4 ip = true;
  ev_os : ∀ ip, ip ∈ os_aliases st → ip ∈ os_aliases st0 ∨ is_loopback_v4 ip = true;
  ev_bound : ∀ b, b ∈ bound st → b ∈ bound st0 ∨ is_loopback_v4 b.1 = true
}.

Lemma evolved_refl st : evolved st st.
Proof. split; [done|by intros; apply fs_evolved_refl|by left..]. Qed.

(** A step that leaves the files alone, and one that leaves the network alone. *)
Lemma evolved_net st0 st a os :
  evolved st0 st →
  (∀ ip, ip ∈ a → ip ∈ aliases st ∨ is_loopback_v4 ip = true) →
  (∀ ip, ip ∈ os → ip ∈ os_aliases st ∨ is_loopback_v4 ip = true) →
  evolved st0 (with_aliases st a os).
Proof. intros [? ? ? ? ?] Ha Hos. split; simpl; [done..| | |done]; naive_solver. Qed.

Lemma evolved_fs st0 st f :
  evolved st0 st →
  (cr_free (default [] (hosts_content (fs st0))) → fs_evolved (fs st0) (fs st) →
   fs_evolved (fs st0) f) →
  evolved st0 (with_fs st f).
Proof. intros [? ? ? ? ?] Hf. split; simpl; auto. Qed.

Lemma teardown_evolved st0 st : evolved st0 st → evolved st0 (teardown st).
Proof.
  intros H. apply evolved_fs; [|intros; by apply hosts_remove_evolved].
  apply evolved_net; [done|set_solver|]. intros ip Hip. left.
  by apply (netalias_del_list (elements (aliases st)) (os_aliases st)).
Qed.

Lemma handle_evolved st0 st req : evolved st0 st → evolved st0 (handle st req).2.
Proof.
  intros H. destruct req as [|ip|ip|ip port|es| | |]; simpl; [done|..].
  - destruct (is_loopback_v4 _) eqn:El; [simpl|done].
    unfold netalias_add. repeat case_match; simplify_eq/=; apply evolved_net; set_solver.
  - apply evolved_net; [done|set_solver|]. intros i Hi. left. by apply netalias_del_sub in Hi.
  - done.
  - destruct (check_entries debug es) eqn:Ec; [done|]. apply check_entries_accepted in Ec as Hp.
    pose proof (λ f0 f Hcr, hosts_apply_evolved f0 f es Hcr Hp) as Ha.
    destruct (hosts_apply (fs st) es) as [r f] eqn:E. apply evolved_fs; [done|].
    intros Hcr Hf. specialize (Ha _ _ Hcr Hf). by rewrite E in Ha.
  - pose proof (hosts_remove_evolved (fs st0) (fs st)) as Ha.
    destruct (hosts_remove (fs st)) as [r f]. by apply evolved_fs.
  - pose proof (purge_stale_evolved (fs st0) (fs st)) as Ha.
    destruct (purge_stale (fs st)) as [[ips|e] f]; simpl; [|by apply evolved_fs].
    fold purge_one. change (foldl _ ?s ips) with (foldl purge_one s ips).
    rewrite purge_fold. apply evolved_net; [by apply evolved_fs|set_solver|].
    intros i Hi. left. by apply (netalias_del_list ips) in Hi.
  - by apply teardown_evolved.
Qed.

Lemma bind_evolved st0 fd ip port st : evolved st0 st → evolved st0 (handle_bind fd ip port st).
Proof.
  intros H. unfold handle_bind_listener. repeat case_match; try done. bool_to_prop.
  destruct H. split; simpl; try done. intros b [?| ->%list_elem_of_singleton]%elem_of_app; auto.
Qed.

Lemma accept_loop_evolved arrivals st : evolved st (accept_loop arrivals st).2.
Proof.
  apply (accept_loop_keeps (evolved st)); [|apply bind_evolved|apply evolved_refl].
  apply handle_evolved.
Qed.

Lemma serve_connection_evolved conn st : evolved st (serve_connection conn st).2.
Proof.
  apply (serve_connection_keeps (evolved st)); [|apply bind_evolved|apply evolved_refl].
  apply handle_evolved.
Qed.


(** *** What is left behind *)

(** An alias the helper does not know it holds was there before. *)
Definition os_tracked (os0 : gset Ipv4Addr) (st : HelperState) : Prop :=
  match platform with
  | MacOs | Windows => os_aliases st ⊆ os0 ∪ aliases st
  | Linux | OtherOs => os_aliases st ⊆ os0
  end.

Lemma del_list_tracked os0 st ips :
  (∀ ip, del_ok ip = true) → os_tracked os0 st →
  os_tracked os0 (with_aliases st (aliases st ∖ list_to_set ips) (foldl netalias_del (os_aliases st) ips)).
Proof.
  intros Hd. destruct (netalias_del_list ips (os_aliases st)) as [Hsub Heq].
  unfold os_tracked in *. destruct platform eqn:Ep; simpl; intros H; try set_solver;
    rewrite Heq by done; set_solver.
Qed.

Lemma teardown_tracked os0 st :
  (∀ ip, del_ok ip = true) → os_tracked os0 st →
  os_tracked os0 (teardown st) ∧ os_aliases (teardown st) ⊆ os0.
Proof.
  intros Hd H. pose proof (del_list_tracked os0 st (elements (aliases st)) Hd H) as Ht.
  rewrite list_to_set_elements_L, difference_diag_L in Ht. split; [exact Ht|].
  unfold os_tracked in Ht. simpl in *. destruct platform; set_solver.
Qed.

Lemma handle_tracked os0 st req :
  (∀ ip, del_ok ip = true) → os_tracked os0 st → os_tracked os0 (handle st req).2.
Proof.
  intros Hd H. destruct req as [|ip|ip|ip port|es| | |]; simpl; try done.
  - destruct (is_loopback_v4 _); [simpl|done]. unfold netalias_add, os_tracked in *.
    destruct platform; simpl; repeat case_match; simplify_eq/=; set_solver.
  - pose proof (del_list_tracked os0 st [ip] Hd H) as Ht. simpl in Ht.
    by rewrite union_empty_r_L in Ht.
  - destruct (check_entries debug es); [done|]. by destruct (hosts_apply _ _).
  - by destruct (hosts_remove _).
  - destruct (purge_stale _) as [[ips|e] f]; simpl; [|done].
    fold purge_one. change (foldl _ ?s ips) with (foldl purge_one s ips).
    rewrite purge_fold. by apply (del_list_tracked os0 (with_fs st f)).
  - by apply teardown_tracked.
Qed.

Lemma bind_tracked os0 fd ip port st : os_tracked os0 st → os_tracked os0 (handle_bind fd ip port st).
Proof. intros H. unfold handle_bind_listener. by repeat case_match. Qed.

Lemma tracked_refl st : os_tracked (os_aliases st) st.
Proof. unfold os_tracked. destruct platform; set_solver. Qed.

Lemma serve_connection_tracked conn st :
  (∀ ip, del_ok ip = true) → os_tracked (os_aliases st) (serve_connection conn st).2.
Proof.
  intros Hd. apply (serve_connection_keeps (os_tracked (os_aliases st)));
    [|apply bind_tracked|apply tracked_refl].
  intros st' req. by apply handle_tracked.
Qed.

Lemma accept_loop_tracked arrivals st :
  (∀ ip, del_ok ip = true) → os_tracked (os_aliases st) (accept_loop arrivals st).2.
Proof.
  intros Hd. apply (accept_loop_keeps (os_tracked (os_aliases st)));
    [|apply bind_tracked|apply tracked_refl].
  intros st' req. by apply handle_tracked.
Qed.

(** The block is gone once it could be removed. *)
Lemma hosts_remove_unmanaged (f0 f : Fs) :
  cr_free (default [] (hosts_content f0)) → fs_evolved f0 f →
  can_read f0 = true → can_write_hosts f0 = true →
  hosts_unmanaged (hosts_content f0) (hosts_content (hosts_remove f).2)
  ∧ has_block (default [] (hosts_content (hosts_remove f).2)) = false.
Proof.
  intros Hcr Hf Hr Hw. destruct (fe_flags _ _ Hf) as [Hr' Hw']. rewrite Hr in Hr'. rewrite Hw in Hw'.
  pose proof (read_hosts_of f0 f) as Hread. destruct Hf as [Hh _ _ _].
  unfold hosts_remove, read, write_hosts in *. rewrite Hr', Hw' in *.
  destruct (hosts_content f) as [c|] eqn:Ec; simpl.
  - destruct (has_block c) eqn:Eb; simpl.
    + split; [|by apply has_block_strip]. right. f_equal. by apply hosts_of_strip.
    + rewrite Ec. split; [|done]. destruct Hh as [H|[H|(es & Hes & H)]]; [by left|by right|right].
      simplify_eq. f_equal. apply upsert_no_rows. rewrite has_block_upsert in Eb by (done || by apply accepted_plain).
      by bool_to_prop.
  - rewrite Ec. split; [|done]. destruct Hh as [H|[H|(es & _ & H)]]; [by left|done..].
Qed.

(** ** Properties *)

Definition authenticated (st : HelperState) (conn : Connection) : bool :=
  match hello conn with
  | Ok (Some h) => bool_decide (version h = PROTOCOL_VERSION) && bool_decide (token h = secret st)
  | _ => false
  end.

(** connections that do not open with a handshake of the right version and
    secret are inert: whatever requests follow, none is carried out, the state
    stays as it was, at most the one refusal is written, and the helper goes on
    accepting. *)
Theorem unauthenticated_inert (conns : list Connection) (arrivals : list (result Connection str))
    (st : HelperState) :
  Forall (λ c, authenticated st c = false) conns →
  accept_loop ((Ok <$> conns) ++ arrivals) st = accept_loop arrivals st
  ∧ Forall (λ c, ∃ rs, serve_connection c st = (Rejected, rs, st)
                       ∧ (rs = [] ∨ rs = [RError (lit "unauthorized")])) conns.
Proof.
  induction 1 as [|c conns Hc _ [IH1 IH2]]; [done|].
  assert (∃ rs, serve_connection c st = (Rejected, rs, st)
                ∧ (rs = [] ∨ rs = [RError (lit "unauthorized")])) as (rs & Hs & Hrs).
  { unfold Helper.serve_connection, authenticated in *.
    destruct (hello c) as [[h|]|]; [|by eexists; split; [done|left]..].
    assert (negb (version h =? PROTOCOL_VERSION)%N || negb (token h =s secret st) = true) as ->.
    { destruct (N.eqb_spec (version h) PROTOCOL_VERSION), (str_eqb (token h) (secret st)) eqn:E;
        try done. apply str_eqb_eq in E. bool_to_prop.
      rewrite !bool_decide_eq_false in Hc. tauto. }
    destruct (writes c 0); eexists; (split; [done|]); auto. }
  split; [simpl; by rewrite Hs|]. constructor; [by exists rs|done].
Qed.




(** A session was served: some connection authenticated and could be told so. *)
Definition admitted (st : HelperState) (conn : Connection) : bool :=
  authenticated st conn && writes conn 0.

Definition served (st : HelperState) (arrivals : list (result Connection str)) : Prop :=
  match platform with
  | Windows => ∃ c rest, arrivals = Ok c :: rest ∧ admitted st c = true
  | _ => ∃ before c rest, arrivals = (Ok <$> before) ++ Ok c :: rest ∧ admitted st c = true
  end.

Lemma admitted_not_rejected st conn :
  admitted st conn = true → (serve_connection conn st).1.1 ≠ Rejected.
Proof.
  unfold admitted, authenticated, serve_connection. destruct (hello conn) as [[h|]|]; try done.
  intros H. bool_to_prop. rename H into Hv, H0 into Hw, H1 into Ht.
  rewrite Hv, Ht, N.eqb_refl, str_eqb_refl, Hw. simpl.
  pose proof (serve_loop_not_rejected conn (incoming conn) 1 st) as Hn.
  by destruct (serve_loop _ _ _ _) as [[]].
Qed.

(** Every end of the accept loop: an error with nothing set up, or a break. *)
Lemma accept_loop_ends arrivals st :
  match accept_loop arrivals st with
  | (Err _, st') => st' = st
  | (Ok _, _) => True
  end.
Proof.
  revert st. induction arrivals as [|[c|e] arrivals IH]; intros st; simpl; [done| |done].
  destruct (serve_connection c st) as [[o rs] st'] eqn:E. destruct o; try done.
  apply rejected_inert in E as ->. apply IH.
Qed.

Lemma accept_loop_served before c rest st :
  admitted st c = true → ∃ st', accept_loop ((Ok <$> before) ++ Ok c :: rest) st = (Ok tt, st').
Proof.
  intros Hc. induction before as [|b before IH]; simpl.
  - pose proof (admitted_not_rejected st c Hc) as Hn.
    destruct (serve_connection c st) as [[o rs] st']. destruct o; by eauto.
  - destruct (serve_connection b st) as [[o rs] st'] eqn:E. destruct o; eauto.
    by apply rejected_inert in E as ->.
Qed.
(** What a teardown leaves of a helper that started as [st]. *)
Record cleaned (st st' : HelperState) : Prop := {
  cl_aliases : aliases st' = ∅;
  cl_os : os_aliases st' ⊆ os_aliases st;
  cl_hosts : hosts_unmanaged (hosts_content (fs st)) (hosts_content (fs st'));
  cl_block : has_block (default [] (hosts_content (fs st'))) = false
}.

Lemma teardown_cleaned st st' :
  cr_free (default [] (hosts_content (fs st))) →
  can_read (fs st) = true → can_write_hosts (fs st) = true → (∀ ip, del_ok ip = true) →
  evolved st st' → os_tracked (os_aliases st) st' → cleaned st (teardown st').
Proof.
  intros Hcr Hr Hw Hd He Ht. destruct (hosts_remove_unmanaged (fs st) (fs st')) as [H1 H2]; try done.
  - by apply (ev_fs _ _ He).
  - split; [done| |done..]. by apply teardown_tracked.
Qed.

(** C17: when the hosts file has no carriage return and can be read and written,
    and removing an alias works, then however the helper ends (a shutdown
    request, the app gone, a failed read or write, the deadline, a failing
    [accept] or pipe), it leaves nothing behind: either it has torn down, no
    alias it added remains and the hosts file has no managed block and is the
    original text or that text without its managed lines; or it returned
    without a teardown (the error exits, and the deadline on Windows), and then
    no session was served and everything is as it was at the start.  A session
    that was served is always torn down, and the helper returns no error. *)
Theorem listen_cleans_up (arrivals : list (result Connection str)) (st : HelperState) :
  cr_free (default [] (hosts_content (fs st))) →
  can_read (fs st) = true → can_write_hosts (fs st) = true → (∀ ip, del_ok ip = true) →
  let '(r, st') := listen arrivals st in
  (cleaned st st' ∧ r = Ok tt) ∨ (st' = st ∧ ¬ served st arrivals).
Proof.
  intros Hcr Hr Hw Hd.
  pose proof (accept_loop_ends arrivals st) as Hends.
  pose proof (accept_loop_tracked arrivals st Hd) as Ht.
  pose proof (accept_loop_evolved arrivals st) as He.
  pose proof (λ before c rest, accept_loop_served before c rest st) as Hs.
  assert (let '(r, st') := listen_unix arrivals st in
          (cleaned st st' ∧ r = Ok tt) ∨ (st' = st ∧ ¬ ∃ before c rest,
             arrivals = (Ok <$> before) ++ Ok c :: rest ∧ admitted st c = true)) as Hu.
  { unfold Helper.listen_unix. destruct (accept_loop arrivals st) as [[[]|e] st'] eqn:E; simpl in *.
    - left. split; [|done]. by apply teardown_cleaned.
    - right. split; [done|]. intros (before & c & rest & -> & Hc).
      destruct (Hs before c rest Hc) as [st1 E1]. by rewrite E in E1. }
  assert (let '(r, st') := listen_windows (head arrivals) st in
          (cleaned st st' ∧ r = Ok tt) ∨ (st' = st ∧ ¬ ∃ c rest,
             arrivals = Ok c :: rest ∧ admitted st c = true)) as Hwin.
  { destruct arrivals as [|[c|e] rest]; simpl; [by right; naive_solver| |by right; naive_solver].
    left. split; [|done]. apply teardown_cleaned; try done.
    - apply serve_connection_evolved.
    - by apply serve_connection_tracked. }
  unfold Helper.listen, served. revert Hu Hwin. clear.
  generalize (listen_unix arrivals st) (listen_windows (head arrivals) st). by destruct platform.
Qed.
End Sessions.

(** ** A session on a Mac: an intruder, then the app, which crashes *)

Definition demo_state : HelperState :=
  {| secret := lit "s3cret";
     fs := {| hosts_content := Some demo_hosts; backup_content := None; can_read := true;
              can_write_hosts := true; can_write_backup := true |};
     aliases := ∅; os_aliases := {[ Ipv4 127 0 0 1 ]}; bound := [] |}.

Definition demo_connection (tok : str) : Connection :=
  {| hello := Ok (Some {| version := PROTOCOL_VERSION; token := tok |});
     incoming := [Ok (AddLoopback (Ipv4 127 1 0 1)); Ok (BindListener (Ipv4 127 1 0 1) 80);
                  Ok (AddLoopback (Ipv4 10 0 0 1));
                  Ok (HostsApply [{| he_ip := Ipv4 127 1 0 1; he_hostnames := [lit "api.default"] |}])];
     ctl_fd := true; writes := λ _, true |}.

Definition demo_conns : list (result Connection str) :=
  [Ok (demo_connection (lit "guess")); Ok (demo_connection (lit "s3cret"))].

Definition yes {A : Type} (_ : A) : bool := true.

Lemma demo_cr_free : cr_free (default [] (hosts_content (fs demo_state))).
Proof. decided. Qed.

Definition demo_end : HelperState :=
  (accept_loop MacOs yes yes (λ _ _, true) (λ s, s) demo_conns demo_state).2.

Example demo_session :
  os_aliases demo_end = {[ Ipv4 127 0 0 1; Ipv4 127 1 0 1 ]} ∧ bound demo_end = [(Ipv4 127 1 0 1, 80%N)]
  ∧ backup_content (fs demo_end) = Some demo_hosts
  ∧ has_block (default [] (hosts_content (fs demo_end))) = true.
Proof. decided. Qed.

Lemma unauthenticated_inert_witness :
  accept_loop MacOs yes yes (λ _ _, true) (λ s, s) demo_conns demo_state
  = accept_loop MacOs yes yes (λ _ _, true) (λ s, s) [Ok (demo_connection (lit "s3cret"))] demo_state.
Proof.
  apply (unauthenticated_inert MacOs yes yes (λ _ _, true) (λ s, s)
           [demo_connection (lit "guess")] [Ok (demo_connection (lit "s3cret"))] demo_state).
  constructor; [reflexivity|constructor].
Defined.


Lemma listen_cleans_up_witness :
  let '(r, st') := listen MacOs yes yes (λ _ _, true) (λ s, s) demo_conns demo_state in
  (cleaned demo_state st' ∧ r = Ok tt) ∨ (st' = demo_state ∧ ¬ served MacOs demo_state demo_conns).
Proof.
  apply (listen_cleans_up MacOs yes yes (λ _ _, true) (λ s, s) demo_conns demo_state demo_cr_free);
    reflexivity.
Defined.

(** The error exit: the guess is turned away, then [accept] fails. *)
Example demo_accept_fails :
  listen MacOs yes yes (λ _ _, true) (λ s, s)
    [Ok (demo_connection (lit "guess")); Err (lit "EMFILE")] demo_state
  = (Err (lit "accept: EMFILE"), demo_state).
Proof. vm_compute. reflexivity. Qed.
