(* ===== verification/GlobalFwd.v ===== *)
(** * The manager of global forwards (app/src/globalfwd/mod.rs, client.rs)

    The unprivileged side of global port-forwarding: sessions of services, each under a loopback
    address of its own with the names of the service in the hosts file, the privileged helper
    behind a request and reply, the registry of listeners, and the watch that keeps a session
    in step with the cluster.

    A method is a program over atomic actions, one per lock that it takes or call that it
    awaits; a task is a program and may stop between any two of them.  What the outside answers
    to an action (the helper's reply, the listed services, the listener that is started) is in
    a [World], an argument of the step.  The allocator, the names and the requests are those of
    IpAlloc, Hostnames and Protocol. *)

From stdpp Require Import gmultiset.

From S2P Require Import Prelude Ipv4 IpAlloc Hostnames Protocol Helper.

(** ** The data *)

Inductive HelperStatus : Set := NotStarted | Running | Failed (message : str).

Record ServiceForward : Set := {
  sf_name : str; sf_namespace : str; local_ip : Ipv4Addr; sf_hostnames : list str; sf_ports : list N; forward_ids : list str;
}.

(** [watch] is the number of the task. *)
Record GlobalSession : Set := {
  gs_id : str; gs_cluster : str; gs_namespace : str; services : list ServiceForward; watch : option nat;
}.

Record ServiceForwardEntry : Set := {
  en_name : str; en_namespace : str; en_local_ip : str; en_hostnames : list str; en_ports : list N;
}.

Record GlobalSessionSnapshot : Set := {
  sn_id : str; sn_cluster : str; sn_namespace : str; sn_services : list ServiceForwardEntry;
}.

Definition snapshot_of_session (s : GlobalSession) : GlobalSessionSnapshot :=
  {| sn_id := gs_id s; sn_cluster := gs_cluster s; sn_namespace := gs_namespace s;
     sn_services := (λ f, {| en_name := sf_name f; en_namespace := sf_namespace f; en_local_ip := ip_display (local_ip f);
                             en_hostnames := sf_hostnames f; en_ports := sf_ports f |}) <$> services s |}.

(** A [Service] of the cluster, as far as it is read. *)
Record Service : Set := { svc_name : option str; svc_namespace : option str; svc_ports : option (list Z) }.

Definition u16_of (z : Z) : option N := if bool_decide (0 ≤ z ≤ 65535)%Z then Some (Z.to_N z) else None.

Definition service_ports (svc : Service) : list N := omap u16_of (default [] (svc_ports svc)).

Inductive ForwardMode : Set := Simple | Global.

Record ForwardTarget : Set := { ft_kind : str; ft_namespace : str; ft_name : str }.

Record ForwardSpec : Set := {
  fs_id : str; fs_cluster : str; target : ForwardTarget; remote_port : N; requested_local_port : option N; fs_autostart : bool;
  mode : ForwardMode; fs_local_ip : option Ipv4Addr;
}.

Definition make_global_id (cluster : str) (t : ForwardTarget) (port : N) : str :=
  cluster ++ lit "::global::" ++ ft_kind t ++ lit "/" ++ ft_namespace t ++ lit "/" ++ ft_name t ++ lit ":" ++ dec_str port.

Definition service_specs (cluster ns name : str) (ip : Ipv4Addr) (ports : list N) : list ForwardSpec :=
  (λ port,
    let t := {| ft_kind := lit "Service"; ft_namespace := ns; ft_name := name |} in
    {| fs_id := make_global_id cluster t port; fs_cluster := cluster; target := t; remote_port := port;
       requested_local_port := Some port; fs_autostart := false; mode := Global; fs_local_ip := Some ip |}) <$> ports.

Definition host_entry (ip : Ipv4Addr) (name ns : str) : HostEntry := {| he_ip := ip; he_hostnames := variants name ns |}.

Definition query_session_id (cluster : str) (ns sel : option str) : str :=
  cluster ++ lit "::q::" ++ default (lit "*") ns ++ lit "::" ++ default [] sel.

Definition service_session_id (cluster ns name : str) : str := cluster ++ lit "::svc::" ++ ns ++ lit "/" ++ name.

(** Two lists sorted are equal. *)
Definition same_port_set (a b : list N) : bool := bool_decide (a ≡ₚ b).

Definition is_service (ns name : str) (f : ServiceForward) : bool := (sf_name f =s name) && (sf_namespace f =s ns).

(** What the tasks share.  [helper] is the client, with its flag [broken]; [by_id] are the live
    listeners of the registry by their specs, [stopped] the statuses that were sent; [calls]
    records the requests and what came back. *)
Record Manager : Type := {
  helper : option bool; status : HelperStatus; allocator : IpAllocator; sessions : gmap str GlobalSession;
  by_id : gmap str ForwardSpec; stopped : list str; calls : list (Request * option Response); attached : bool; next_task : nat;
}.

Definition set_helper (h : option bool) (st : HelperStatus) (m : Manager) : Manager :=
  {| helper := h; status := st; allocator := allocator m; sessions := sessions m; by_id := by_id m; stopped := stopped m;
     calls := calls m; attached := attached m; next_task := next_task m |}.

Definition set_allocator (a : IpAllocator) (m : Manager) : Manager :=
  {| helper := helper m; status := status m; allocator := a; sessions := sessions m; by_id := by_id m; stopped := stopped m;
     calls := calls m; attached := attached m; next_task := next_task m |}.

Definition set_sessions (s : gmap str GlobalSession) (m : Manager) : Manager :=
  {| helper := helper m; status := status m; allocator := allocator m; sessions := s; by_id := by_id m; stopped := stopped m;
     calls := calls m; attached := attached m; next_task := next_task m |}.

Definition set_registry (r : gmap str ForwardSpec) (sent : list str) (m : Manager) : Manager :=
  {| helper := helper m; status := status m; allocator := allocator m; sessions := sessions m; by_id := r; stopped := sent;
     calls := calls m; attached := attached m; next_task := next_task m |}.

Definition record_call (q : Request) (r : option Response) (m : Manager) : Manager :=
  {| helper := helper m; status := status m; allocator := allocator m; sessions := sessions m; by_id := by_id m; stopped := stopped m;
     calls := calls m ++ [(q, r)]; attached := attached m; next_task := next_task m |}.

Definition set_next (n : nat) (m : Manager) : Manager :=
  {| helper := helper m; status := status m; allocator := allocator m; sessions := sessions m; by_id := by_id m; stopped := stopped m;
     calls := calls m; attached := attached m; next_task := n |}.

(** ** The actions *)

(** [EnsureHelper], [Call], [Prebind] and [ShutdownHelper] are under the lock of the helper,
    [Allocate] and [Release] under that of the allocator, [Register] and [Unregister] under that
    of the registry, the ones from [HasSession] on under that of the sessions. *)
Inductive Act : Type :=
  | EnsureHelper
  | Call (req : Request)
  | Prebind (ip : Ipv4Addr) (port : N)
  | ShutdownHelper
  | ListServices (ns sel : option str)
  | GetService (ns name : str)
  | StartForward (spec : ForwardSpec) (prebound : bool)
  | AllocateIp (cluster ns name : str)
  | ReleaseIp (ip : Ipv4Addr)
  | Register (spec : ForwardSpec)
  | Unregister (id : str)
  | SpawnWatch (cluster id : str)
  | HasSession (id : str)
  | InsertSession (s : GlobalSession)
  | RemoveSession (id : str)
  | AttachWatch (id : str) (task : nat)
  | AllHostEntries
  | FindService (id ns name : str)
  | PushService (id : str) (f : ServiceForward)
  | TakeService (id ns name : str)
  | StaleServices (id : str) (seen : gset (str * str))
  | ClusterSessions (cluster : str)
  | SnapshotOf (id : str)
  | ListSessions
  | ClearSessions
  | GetStatus.

Definition answer (a : Act) : Type :=
  match a with
  | EnsureHelper | Call _ | StartForward _ _ => result () str
  | Prebind _ _ | HasSession _ | PushService _ _ => bool
  | ShutdownHelper | ReleaseIp _ | Register _ | Unregister _ | InsertSession _ | AttachWatch _ _ | ClearSessions => ()
  | ListServices _ _ => result (list Service) str
  | GetService _ _ => result Service str
  | AllocateIp _ _ _ => result Ipv4Addr AllocError
  | SpawnWatch _ _ => option nat
  | RemoveSession _ => option GlobalSession
  | AllHostEntries => list HostEntry
  | FindService _ _ _ => option (option ServiceForward)
  | TakeService _ _ _ => option ServiceForward
  | StaleServices _ _ => list (str * str)
  | ClusterSessions _ => list str
  | SnapshotOf _ => option GlobalSessionSnapshot
  | ListSessions => list GlobalSessionSnapshot
  | GetStatus => HelperStatus
  end.

Inductive Prog (A : Type) : Type :=
  | Ret (x : A)
  | Do (a : Act) (k : answer a → Prog A).

#[global] Arguments Ret {A} x.

#[global] Arguments Do {A} a k.

Fixpoint bind {A B} (p : Prog A) (f : A → Prog B) : Prog B :=
  match p with
  | Ret x => f x
  | Do a k => Do a (λ r, bind (k r) f)
  end.

Definition act (a : Act) : Prog (answer a) := Do a Ret.

Notation "x <-! p ; q" := (bind p (λ x, q)) (at level 100, p at next level, right associativity) : ferris_scope.

(** ** The methods *)

Definition helper_add_loopback (ip : Ipv4Addr) : Prog (result () str) := act (Call (AddLoopback ip)).

Definition helper_del_loopback (ip : Ipv4Addr) : Prog (result () str) := act (Call (DelLoopback ip)).

Definition helper_hosts_apply (es : list HostEntry) : Prog (result () str) := act (Call (HostsApply es)).

Definition reapply_hosts : Prog (result () str) := es <-! act AllHostEntries; helper_hosts_apply es.

Fixpoint stop_listeners (ids : list str) : Prog () :=
  match ids with
  | [] => Ret tt
  | id :: ids => _ <-! act (Unregister id); stop_listeners ids
  end.

Definition discard_service (f : ServiceForward) : Prog () :=
  _ <-! stop_listeners (forward_ids f);
  _ <-! helper_del_loopback (local_ip f);
  act (ReleaseIp (local_ip f)).

Fixpoint discard_services (fs : list ServiceForward) : Prog () :=
  match fs with
  | [] => Ret tt
  | f :: fs => _ <-! discard_service f; discard_services fs
  end.

(** The watch of a session that is removed is aborted with it. *)
Definition disable (id : str) : Prog () :=
  s <-! act (RemoveSession id);
  match s with
  | None => Ret tt
  | Some s => _ <-! discard_services (services s); _ <-! reapply_hosts; Ret tt
  end.

Definition teardown_service (id ns name : str) : Prog () :=
  f <-! act (TakeService id ns name);
  match f with
  | None => Ret tt
  | Some f => _ <-! discard_service f; _ <-! reapply_hosts; Ret tt
  end.

Section Methods.
(** [cfg!(unix)] *)
Context (unix : bool).

Definition needs_privileged_bind (port : N) : bool := unix && ((1 <=? port)%N && (port <? 1024)%N).

Definition prebind_privileged (spec : ForwardSpec) : Prog bool :=
  let port := default 0%N (requested_local_port spec) in
  if needs_privileged_bind port then
    match fs_local_ip spec with
    | Some ip => act (Prebind ip port)
    | None => Ret false
    end
  else Ret false.

Fixpoint start_listeners (specs : list ForwardSpec) (ids : list str) : Prog (list str) :=
  match specs with
  | [] => Ret ids
  | spec :: specs =>
      prebound <-! prebind_privileged spec;
      r <-! act (StartForward spec prebound);
      match r with
      | Ok () => _ <-! act (Register spec); start_listeners specs (ids ++ [fs_id spec])
      | Err _ => start_listeners specs ids
      end
  end.

Definition alloc_text (e : AllocError) : str :=
  match e with
  | Exhausted what => lit "loopback address space exhausted for this " ++ what
  | AlreadyUsed ip => lit "address " ++ ip_display ip ++ lit " is already in use"
  | NotLoopback ip => lit "address " ++ ip_display ip ++ lit " is not a loopback address"
  end.

Definition no_listener_text (ns name : str) (ports : list N) : str :=
  lit "no listeners could be started for " ++ ns ++ lit "/" ++ name ++ lit " (all " ++ nat_str (length ports) ++ lit " port(s) failed)".

Definition start_service (cluster ns name : str) (ports : list N) : Prog (result ServiceForward str) :=
  a <-! act (AllocateIp cluster ns name);
  match a with
  | Err e => Ret (Err (alloc_text e))
  | Ok ip =>
      r <-! helper_add_loopback ip;
      match r with
      | Err e => _ <-! act (ReleaseIp ip); Ret (Err e)
      | Ok () =>
          ids <-! start_listeners (service_specs cluster ns name ip ports) [];
          if bool_decide (ids = []) then
            _ <-! helper_del_loopback ip;
            _ <-! act (ReleaseIp ip);
            Ret (Err (no_listener_text ns name ports))
          else
            Ret (Ok {| sf_name := name; sf_namespace := ns; local_ip := ip; sf_hostnames := variants name ns; sf_ports := ports;
                       forward_ids := ids |})
      end
  end.

(** The loop of [enable_query]: a service without a name, a namespace or a port is left out, and
    one that cannot be forwarded. *)
Fixpoint forward_services (cluster : str) (namespace : option str) (svcs : list Service) (fs : list ServiceForward) :
    Prog (list ServiceForward) :=
  match svcs with
  | [] => Ret fs
  | svc :: svcs =>
      match svc_name svc with
      | None => forward_services cluster namespace svcs fs
      | Some name =>
          let ns := default (default [] namespace) (svc_namespace svc) in
          let ports := service_ports svc in
          if bool_decide (ns = []) || bool_decide (ports = []) then forward_services cluster namespace svcs fs
          else
            r <-! start_service cluster ns name ports;
            forward_services cluster namespace svcs (match r with Ok f => fs ++ [f] | Err _ => fs end)
      end
  end.

Definition enable_query (cluster : str) (namespace selector : option str) : Prog (result GlobalSessionSnapshot str) :=
  r <-! act EnsureHelper;
  match r with
  | Err e => Ret (Err e)
  | Ok () =>
      let id := query_session_id cluster namespace selector in
      there <-! act (HasSession id);
      _ <-! (if there : bool then disable id else Ret tt);
      l <-! act (ListServices namespace selector);
      match l with
      | Err e => Ret (Err (lit "listing services: " ++ e))
      | Ok svcs =>
          fs <-! forward_services cluster namespace svcs [];
          let label := default (lit "(all namespaces)") namespace in
          _ <-! act (InsertSession {| gs_id := id; gs_cluster := cluster; gs_namespace := label; services := fs; watch := None |});
          h <-! reapply_hosts;
          match h with
          | Err e => _ <-! disable id; Ret (Err e)
          | Ok () =>
              t <-! act (SpawnWatch cluster id);
              _ <-! match t with Some t => act (AttachWatch id t) | None => Ret tt end;
              s <-! act (SnapshotOf id);
              Ret (Ok (default {| sn_id := id; sn_cluster := cluster; sn_namespace := label; sn_services := [] |} s))
          end
      end
  end.

Definition enable_namespace (cluster ns : str) : Prog (result GlobalSessionSnapshot str) := enable_query cluster (Some ns) None.

Definition enable_service (cluster ns name : str) : Prog (result GlobalSessionSnapshot str) :=
  r <-! act EnsureHelper;
  match r with
  | Err e => Ret (Err e)
  | Ok () =>
      g <-! act (GetService ns name);
      match g with
      | Err e => Ret (Err (lit "getting service " ++ name ++ lit ": " ++ e))
      | Ok svc =>
          let ports := service_ports svc in
          if bool_decide (ports = []) then Ret (Err (lit "service " ++ name ++ lit " exposes no ports"))
          else
            r <-! start_service cluster ns name ports;
            match r with
            | Err e => Ret (Err e)
            | Ok f =>
                let id := service_session_id cluster ns name in
                _ <-! act (InsertSession {| gs_id := id; gs_cluster := cluster; gs_namespace := ns; services := [f]; watch := None |});
                h <-! reapply_hosts;
                match h with
                | Err e => Ret (Err e)
                | Ok () =>
                    s <-! act (SnapshotOf id);
                    Ret (match s with Some s => Ok s | None => Err (lit "session vanished after insert") end)
                end
            end
      end
  end.

(** The end of [watch_apply]: a service that the session no longer wants, or has by now, is
    discarded again. *)
Definition forward_new (cluster id ns name : str) (ports : list N) : Prog () :=
  r <-! start_service cluster ns name ports;
  match r with
  | Err _ => Ret tt
  | Ok f =>
      pushed <-! act (PushService id f);
      if pushed : bool then _ <-! reapply_hosts; Ret tt else discard_service f
  end.

Definition watch_apply (cluster id : str) (svc : Service) : Prog () :=
  match svc_name svc with
  | None => Ret tt
  | Some name =>
      let ns := default [] (svc_namespace svc) in
      if bool_decide (ns = []) then Ret tt
      else
        let ports := service_ports svc in
        if bool_decide (ports = []) then teardown_service id ns name
        else
          found <-! act (FindService id ns name);
          match found with
          | None => Ret tt
          | Some None => forward_new cluster id ns name ports
          | Some (Some f) =>
              if same_port_set (sf_ports f) ports then Ret tt
              else _ <-! teardown_service id ns name; forward_new cluster id ns name ports
          end
  end.

Definition watch_delete (id : str) (svc : Service) : Prog () :=
  teardown_service id (default [] (svc_namespace svc)) (default [] (svc_name svc)).

Fixpoint teardown_services (id : str) (l : list (str * str)) : Prog () :=
  match l with
  | [] => Ret tt
  | (ns, name) :: l => _ <-! teardown_service id ns name; teardown_services id l
  end.

Definition watch_reconcile_init (id : str) (seen : gset (str * str)) : Prog () :=
  stale <-! act (StaleServices id seen); teardown_services id stale.

(** The events of kube-rs's watcher *)
Inductive Event : Set := Init | InitApply (svc : Service) | InitDone | Apply (svc : Service) | Delete (svc : Service) | WatchError.

Definition note_seen (svc : Service) (seen : option (gset (str * str))) : option (gset (str * str)) :=
  match seen, svc_name svc, svc_namespace svc with
  | Some s, Some n, Some ns => Some ({[(ns, n)]} ∪ s)
  | _, _, _ => seen
  end.

(** The task of [spawn_service_watch], over the events that come until it ends. *)
Fixpoint watch_loop (cluster id : str) (seen : option (gset (str * str))) (evs : list Event) : Prog () :=
  match evs with
  | [] => Ret tt
  | ev :: evs =>
      there <-! act (HasSession id);
      if negb there then Ret tt
      else
        match ev with
        | Init => watch_loop cluster id (Some ∅) evs
        | InitApply svc => _ <-! watch_apply cluster id svc; watch_loop cluster id (note_seen svc seen) evs
        | InitDone =>
            _ <-! match seen with Some s => watch_reconcile_init id s | None => Ret tt end;
            watch_loop cluster id None evs
        | Apply svc => _ <-! watch_apply cluster id svc; watch_loop cluster id seen evs
        | Delete svc => _ <-! watch_delete id svc; watch_loop cluster id seen evs
        | WatchError => watch_loop cluster id seen evs
        end
  end.
End Methods.

Fixpoint disable_all (ids : list str) : Prog () :=
  match ids with
  | [] => Ret tt
  | id :: ids => _ <-! disable id; disable_all ids
  end.

Definition disable_cluster (cluster : str) : Prog () := ids <-! act (ClusterSessions cluster); disable_all ids.

(** The helper's lock is held to the end, which only keeps others from calling it. *)
Definition shutdown : Prog () := _ <-! act ShutdownHelper; act ClearSessions.

(** ** What an action does *)

(** What comes back from the helper: a reply, or the end of the connection (a timeout, an error, a
    stream that is closed), which marks the client as broken. *)
Inductive Reply : Set := Answered (r : Response) | Lost (e : str).

(** What the outside answers, whatever is asked.  [order] is the order of the hash map of sessions. *)
Record World : Type := {
  w_spawn : result () str; w_ping : Reply; w_purge : Reply; w_reply : Reply; w_bound : bool;
  w_listed : result (list Service) str; w_got : result Service str; w_started : result () str; w_order : list str;
}.

Definition expect_ok (r : Response) : result () str :=
  match r with
  | ROk => Ok ()
  | RError m => Err (lit "helper error: " ++ m)
  | Pong | Purged _ => Err (lit "unexpected reply")
  end.

(** [HelperClient::request]: the reply, and whether the client is broken behind it. *)
Definition request (q : Request) (w : Reply) (broken : bool) (m : Manager) : result Response str * bool * Manager :=
  match w with
  | Answered r => (Ok r, broken, record_call q (Some r) m)
  | Lost e => (Err e, true, record_call q None m)
  end.

Definition ensure_helper (w : World) (m : Manager) : result () str * Manager :=
  match helper m with
  | Some _ => (Ok (), m)
  | None =>
      match w_spawn w with
      | Err e => (Err e, set_helper None (Failed e) m)
      | Ok () =>
          let '(r, broken, m) := request Ping (w_ping w) false m in
          match (r <-? r; match r with Pong => Ok () | _ => Err (lit "unexpected ping reply") end) with
          | Err e => (Err e, set_helper None (Failed e) m)
          | Ok () =>
              let '(_, broken, m) := request PurgeStale (w_purge w) broken m in
              (Ok (), set_helper (Some broken) Running m)
          end
      end
  end.

(** A request under the lock, and the client dropped when it is broken. *)
Definition call (q : Request) (w : World) (m : Manager) : result () str * Manager :=
  match helper m with
  | None => (Err (lit "helper not running"), m)
  | Some broken =>
      let '(r, broken, m) := request q (w_reply w) broken m in
      (r <-? r; expect_ok r, if broken then set_helper None NotStarted m else set_helper (Some broken) (status m) m)
  end.

(** The sessions in the order of the hash map. *)
Definition in_order (w : World) (m : gmap str GlobalSession) : list GlobalSession :=
  let keys := (map_to_list m).*1 in
  omap (λ id, m !! id) (if bool_decide (w_order w ≡ₚ keys) then w_order w else keys).

Definition with_names (es : list HostEntry) (names : list (list str)) : list HostEntry :=
  zip_with (λ e l, {| he_ip := he_ip e; he_hostnames := l |}) es names.

Definition with_hostnames (ss : list GlobalSession) : list ServiceForward := filter (λ f, sf_hostnames f ≠ []) (ss ≫= services).

Definition all_host_entries (ss : list GlobalSession) : list HostEntry :=
  let es := (λ f, host_entry (local_ip f) (sf_name f) (sf_namespace f)) <$> with_hostnames ss in
  with_names es (drop_ambiguous_bare_names (he_hostnames <$> es)).

(** [Vec::remove] at the first that is the service. *)
Fixpoint take_first (p : ServiceForward → bool) (fs : list ServiceForward) : option (ServiceForward * list ServiceForward) :=
  match fs with
  | [] => None
  | f :: fs => if p f then Some (f, fs) else '(g, fs) ← take_first p fs; Some (g, f :: fs)
  end.

Definition set_services (fs : list ServiceForward) (s : GlobalSession) : GlobalSession :=
  {| gs_id := gs_id s; gs_cluster := gs_cluster s; gs_namespace := gs_namespace s; services := fs; watch := watch s |}.

Definition set_watch (t : option nat) (s : GlobalSession) : GlobalSession :=
  {| gs_id := gs_id s; gs_cluster := gs_cluster s; gs_namespace := gs_namespace s; services := services s; watch := t |}.

Definition perform (a : Act) (w : World) (m : Manager) : answer a * Manager :=
  match a return answer a * Manager with
  | EnsureHelper => ensure_helper w m
  | Call q => call q w m
  | Prebind ip port =>
      match helper m with Some _ => (w_bound w, record_call (BindListener ip port) None m) | None => (false, m) end
  | ShutdownHelper =>
      (tt, set_helper None (status m) match helper m with Some b => (request Shutdown (w_reply w) b m).2 | None => m end)
  | ListServices _ _ => (w_listed w, m)
  | GetService _ _ => (w_got w, m)
  | StartForward _ _ => (w_started w, m)
  | AllocateIp cluster ns name => let '(r, al) := allocate (allocator m) cluster ns name in (r, set_allocator al m)
  | ReleaseIp ip => (tt, set_allocator (release (allocator m) ip) m)
  | Register spec => (tt, set_registry (<[fs_id spec := spec]> (by_id m)) (stopped m) m)
  | Unregister id =>
      (tt, match by_id m !! id with Some _ => set_registry (delete id (by_id m)) (stopped m ++ [id]) m | None => m end)
  | SpawnWatch _ _ => if attached m then (Some (next_task m), set_next (S (next_task m)) m) else (None, m)
  | HasSession id => (bool_decide (is_Some (sessions m !! id)), m)
  | InsertSession s => (tt, set_sessions (<[gs_id s := s]> (sessions m)) m)
  | RemoveSession id => (sessions m !! id, set_sessions (delete id (sessions m)) m)
  | AttachWatch id t => (tt, set_sessions (alter (set_watch (Some t)) id (sessions m)) m)
  | AllHostEntries => (all_host_entries (in_order w (sessions m)), m)
  | FindService id ns name => ((λ s, List.find (is_service ns name) (services s)) <$> sessions m !! id, m)
  | PushService id f =>
      match sessions m !! id with
      | Some s =>
          if existsb (is_service (sf_namespace f) (sf_name f)) (services s) then (false, m)
          else (true, set_sessions (<[id := set_services (services s ++ [f]) s]> (sessions m)) m)
      | None => (false, m)
      end
  | TakeService id ns name =>
      match sessions m !! id with
      | Some s =>
          match take_first (is_service ns name) (services s) with
          | Some (f, fs) => (Some f, set_sessions (<[id := set_services fs s]> (sessions m)) m)
          | None => (None, m)
          end
      | None => (None, m)
      end
  | StaleServices id seen =>
      (match sessions m !! id with
       | Some s => filter (λ k, k ∉ seen) ((λ f, (sf_namespace f, sf_name f)) <$> services s)
       | None => []
       end, m)
  | ClusterSessions cluster => (gs_id <$> filter (λ s, gs_cluster s = cluster) (in_order w (sessions m)), m)
  | SnapshotOf id => (snapshot_of_session <$> sessions m !! id, m)
  | ListSessions => (snapshot_of_session <$> in_order w (sessions m), m)
  | ClearSessions => (tt, set_helper (helper m) NotStarted (set_sessions ∅ m))
  | GetStatus => (status m, m)
  end.

(** A program that runs alone, the n-th action in the n-th world. *)
Fixpoint run {A} (p : Prog A) (w : nat → World) (n : nat) (m : Manager) : A * nat * Manager :=
  match p with
  | Ret x => (x, n, m)
  | Do a k => let '(r, m) := perform a (w n) m in run (k r) w (S n) m
  end.

(** ** Tasks that interleave *)

(** [held] has the addresses that the task has allocated or taken out of a session and not yet put
    into one or released; no step reads it.  [doomed] is a task that was aborted: it stops at
    one of its next actions. *)
Record Task : Type := { prog : Prog (); held : gmultiset Ipv4Addr; doomed : bool }.

(** [lost] has the addresses that nothing owns any more: what a task held when it was aborted,
    and what the sessions held that another replaced or the shutdown dropped.  A task that runs
    to its end adds nothing to it, so an address it forgot would be in nobody's books. *)
Record System : Type := { mgr : Manager; tasks : gmap nat Task; lost : gmultiset Ipv4Addr }.

Definition ips (fs : list ServiceForward) : gmultiset Ipv4Addr := list_to_set_disj (local_ip <$> fs).

Definition session_ips (s : GlobalSession) : gmultiset Ipv4Addr := ips (services s).

Definition total {K A} `{Countable K} (f : A → gmultiset Ipv4Addr) (m : gmap K A) : gmultiset Ipv4Addr :=
  map_fold (λ _ x acc, f x ⊎ acc) ∅ m.

(** What a task holds behind an action. *)
Definition hold (a : Act) (h : gmultiset Ipv4Addr) : answer a → gmultiset Ipv4Addr :=
  match a return answer a → gmultiset Ipv4Addr with
  | AllocateIp _ _ _ => λ r, match r with Ok ip => {[+ ip +]} ⊎ h | Err _ => h end
  | ReleaseIp ip => λ _, h ∖ {[+ ip +]}
  | InsertSession s => λ _, h ∖ session_ips s
  | RemoveSession _ => λ r, match r with Some s => session_ips s ⊎ h | None => h end
  | PushService _ f => λ r, if r then h ∖ {[+ local_ip f +]} else h
  | TakeService _ _ _ => λ r, match r with Some f => {[+ local_ip f +]} ⊎ h | None => h end
  | _ => λ _, h
  end.

(** What an action takes from under its owner: the session that another replaces, and all of them
    at the end. *)
Definition displaced (a : Act) (m : Manager) : gmultiset Ipv4Addr :=
  match a with
  | InsertSession s => match sessions m !! gs_id s with Some old => session_ips old | None => ∅ end
  | ClearSessions => total session_ips (sessions m)
  | _ => ∅
  end.

(** The watches that an action aborts. *)
Definition aborts (a : Act) (m : Manager) : list nat :=
  match a with
  | RemoveSession id => match sessions m !! id with Some s => option_list (watch s) | None => [] end
  | ClearSessions => map_to_list (sessions m) ≫= λ p, option_list (watch p.2)
  | _ => []
  end.

Definition doom (ts : gmap nat Task) (t : nat) : gmap nat Task :=
  alter (λ k, {| prog := prog k; held := held k; doomed := true |}) t ts.

Inductive Command : Set :=
  | EnableNamespace (cluster ns : str)
  | EnableQuery (cluster : str) (ns sel : option str)
  | EnableService (cluster ns name : str)
  | Disable (id : str)
  | DisableCluster (cluster : str)
  | ListAll
  | GetHelperStatus
  | ShutDown.

Definition ignore {A} (p : Prog A) : Prog () := _ <-! p; Ret tt.

Section System.
Context (unix : bool).

Definition command (c : Command) : Prog () :=
  match c with
  | EnableNamespace cluster ns => ignore (enable_namespace unix cluster ns)
  | EnableQuery cluster ns sel => ignore (enable_query unix cluster ns sel)
  | EnableService cluster ns name => ignore (enable_service unix cluster ns name)
  | Disable id => disable id
  | DisableCluster cluster => disable_cluster cluster
  | ListAll => ignore (act ListSessions)
  | GetHelperStatus => ignore (act GetStatus)
  | ShutDown => shutdown
  end.

(** The task that an action starts: the watch, over the events that will come. *)
Definition spawns (a : Act) (evs : list Event) : answer a → gmap nat Task → gmap nat Task :=
  match a return answer a → gmap nat Task → gmap nat Task with
  | SpawnWatch cluster id => λ r ts,
      match r with
      | Some t => <[t := {| prog := watch_loop unix cluster id None evs; held := ∅; doomed := false |}]> ts
      | None => ts
      end
  | _ => λ _ ts, ts
  end.

(** A task that has come to its end is gone. *)
Definition finish (t : nat) (s : System) : System :=
  {| mgr := mgr s; tasks := delete t (tasks s); lost := lost s |}.

(** A task that is aborted is gone with what it held. *)
Definition kill (t : nat) (k : Task) (s : System) : System :=
  {| mgr := mgr s; tasks := delete t (tasks s); lost := held k ⊎ lost s |}.

(** The next action of a task. *)
Definition advance (w : World) (evs : list Event) (t : nat) (s : System) : option System :=
  k ← tasks s !! t;
  match prog k with
  | Ret _ => Some (finish t s)
  | Do a next =>
      let '(r, m) := perform a w (mgr s) in
      let ts := foldl doom (tasks s) (aborts a (mgr s)) in
      let again := match ts !! t with Some k => doomed k | None => doomed k end in
      let ts := <[t := {| prog := next r; held := hold a (held k) r; doomed := again |}]> ts in
      Some {| mgr := m; tasks := spawns a evs r ts; lost := displaced a (mgr s) ⊎ lost s |}
  end.

(** A command of the interface or of an agent. *)
Definition start (c : Command) (s : System) : System :=
  {| mgr := set_next (S (next_task (mgr s))) (mgr s);
     tasks := <[next_task (mgr s) := {| prog := command c; held := ∅; doomed := false |}]> (tasks s); lost := lost s |}.

Inductive step : System → System → Prop :=
  | step_start c s : step s (start c s)
  | step_act w evs t s s' : advance w evs t s = Some s' → step s s'
  | step_abort t k s : tasks s !! t = Some k → doomed k = true → step s (kill t k s).

Definition initial (app : bool) : System :=
  {| mgr := {| helper := None; status := NotStarted; allocator := new; sessions := ∅; by_id := ∅; stopped := []; calls := [];
               attached := app; next_task := 0 |};
     tasks := ∅; lost := ∅ |}.

Definition reachable (app : bool) : System → Prop := rtc step (initial app).
End System.

(** ** On concrete runs *)
Module Samples.
Definition web : Service := {| svc_name := Some (lit "web"); svc_namespace := Some (lit "shop"); svc_ports := Some [8080%Z] |}.

(** Everything goes through. *)
Definition good : World :=
  {| w_spawn := Ok (); w_ping := Answered Pong; w_purge := Answered (Purged []); w_reply := Answered ROk; w_bound := true;
     w_listed := Ok [web]; w_got := Ok web; w_started := Ok (); w_order := [] |}.

(** The helper refuses, and it hangs. *)
Definition refusing : World :=
  {| w_spawn := Ok (); w_ping := Answered Pong; w_purge := Answered (Purged []); w_reply := Answered (RError (lit "disk full")); w_bound := true;
     w_listed := Ok [web]; w_got := Ok web; w_started := Ok (); w_order := [] |}.

Definition hung : World :=
  {| w_spawn := Ok (); w_ping := Answered Pong; w_purge := Answered (Purged []); w_reply := Lost (lit "timeout"); w_bound := true;
     w_listed := Ok [web]; w_got := Ok web; w_started := Ok (); w_order := [] |}.

Definition fresh (app : bool) : Manager := mgr (initial app).

Definition alone {A} (p : Prog A) (w : nat → World) (m : Manager) : Manager := (run p w 0 m).2.

Definition the_web : Prog (result GlobalSessionSnapshot str) := enable_service true (lit "c") (lit "shop") (lit "web").

Definition the_shop : Prog (result GlobalSessionSnapshot str) := enable_namespace true (lit "c") (lit "shop").

Definition web_id : str := service_session_id (lit "c") (lit "shop") (lit "web").

Definition shop_id : str := query_session_id (lit "c") (Some (lit "shop")) None.

Definition in_sessions (m : Manager) : list Ipv4Addr := local_ip <$> ((map_to_list (sessions m)).*2 ≫= services).

(** A schedule: which task is next, [n] actions of it in a row. *)
Fixpoint actions (w : World) (evs : list Event) (t n : nat) (s : System) : System :=
  match n with
  | O => s
  | S n => match advance true w evs t s with Some s' => actions w evs t n s' | None => s end
  end.

Lemma actions_rtc w evs t n s : rtc (step true) s (actions w evs t n s).
Proof.
  revert s. induction n as [|n IH]; intros s; simpl; [done|]. destruct (advance true w evs t s) as [s'|] eqn:Ha; [|done].
  eapply rtc_l; [by eapply step_act|apply IH].
Qed.
End Samples.
