(* ===== verification/ForwardBooks.v ===== *)
(** * Loopback addresses and host names of the global forwards

    Every method of the manager keeps the books of the addresses it holds ([accounted]), and so
    every interleaving of its tasks does; and what is sent to the helper passes its checks. *)

From stdpp Require Import gmultiset.

From S2P Require Import Prelude Ipv4 IpAlloc Hostnames Protocol Helper GlobalFwd.

Section Books.
Context (unix : bool).

#[local] Notation command := (command unix).

#[local] Notation spawns := (spawns unix).

#[local] Notation advance := (advance unix).

#[local] Notation start := (start unix).

#[local] Notation step := (step unix).

#[local] Notation reachable := (reachable unix).

(** ** Who owns an address *)

(** What an action needs of the addresses that the task holds. *)
Definition needs (a : Act) (h : gmultiset Ipv4Addr) : Prop :=
  match a with
  | ReleaseIp ip => {[+ ip +]} ⊆ h
  | InsertSession s => session_ips s ⊆ h
  | PushService _ f => {[+ local_ip f +]} ⊆ h
  | _ => True
  end.

(** A program releases and gives away only what it holds, whatever is answered. *)
Fixpoint accounted {A} (p : Prog A) (h : gmultiset Ipv4Addr) (Q : A → gmultiset Ipv4Addr → Prop) : Prop :=
  match p with
  | Ret x => Q x h
  | Do a k => needs a h ∧ ∀ r, accounted (k r) (hold a h r) Q
  end.

Lemma accounted_mono {A} (p : Prog A) h (Q Q' : A → gmultiset Ipv4Addr → Prop) :
  accounted p h Q → (∀ x h', Q x h' → Q' x h') → accounted p h Q'.
Proof.
  intros Hp HQ. revert h Hp. induction p as [x|a k IH]; intros h; simpl; [apply HQ|]. intros [Hn Hk]. split; [done|].
  intros r. by apply IH.
Qed.

Lemma accounted_bind {A B} (p : Prog A) (f : A → Prog B) h Q :
  accounted p h (λ x h', accounted (f x) h' Q) → accounted (bind p f) h Q.
Proof.
  revert h. induction p as [x|a k IH]; intros h; simpl; [done|]. intros [Hn Hk]. split; [done|]. intros r. by apply IH.
Qed.

(** A method that keeps the books: it holds behind it what it held before. *)
Definition even {A} (p : Prog A) : Prop := ∀ h, accounted p h (λ _ h', h' = h).

Lemma even_then {A B} (p : Prog A) (f : A → Prog B) h Q :
  even p → (∀ x, accounted (f x) h Q) → accounted (bind p f) h Q.
Proof. intros Hp Hf. apply accounted_bind. eapply accounted_mono; [apply Hp|]. intros x ? ->. apply Hf. Qed.

Lemma even_ret {A} (x : A) : even (Ret x).
Proof. done. Qed.

Lemma act_then {B} a (f : answer a → Prog B) h Q :
  needs a h → (∀ r, accounted (f r) (hold a h r) Q) → accounted (bind (act a) f) h Q.
Proof. intros Hn Hf. by split. Qed.

(** An action that moves no address, and what comes behind it. *)
Lemma idle_then {B} a (f : answer a → Prog B) h Q :
  needs a h → (∀ r, hold a h r = h) → (∀ r, accounted (f r) h Q) → accounted (bind (act a) f) h Q.
Proof. intros Hn Hh Hf. apply act_then; [done|]. intros r. rewrite Hh. apply Hf. Qed.

Lemma even_call q : even (act (Call q)).
Proof. intros h. by split. Qed.

Lemma even_reapply : even reapply_hosts.
Proof. intros h. apply idle_then; [done|done|]. intros es. apply even_call. Qed.

Lemma even_stop ids : even (stop_listeners ids).
Proof. induction ids as [|id ids IH]; intros h; [done|]. apply idle_then; [done|done|]. intros r. apply IH. Qed.

(** What holds exactly what a method consumes. *)
Lemma release_accounted ip h : accounted (act (ReleaseIp ip)) ({[+ ip +]} ⊎ h) (λ _ h', h' = h).
Proof. split; [simpl; multiset_solver|]. intros r. simpl. multiset_solver. Qed.

Lemma discard_accounted f h : accounted (discard_service f) ({[+ local_ip f +]} ⊎ h) (λ _ h', h' = h).
Proof.
  apply even_then; [apply even_stop|]. intros _. apply even_then; [apply even_call|]. intros _. apply release_accounted.
Qed.

Lemma ips_cons f fs h : ips (f :: fs) ⊎ h = {[+ local_ip f +]} ⊎ (ips fs ⊎ h).
Proof. unfold ips. simpl. multiset_solver. Qed.

Lemma ips_app fs fs' : ips (fs ++ fs') = ips fs ⊎ ips fs'.
Proof. unfold ips. by rewrite fmap_app, list_to_set_disj_app. Qed.

Lemma discard_all_accounted fs h : accounted (discard_services fs) (ips fs ⊎ h) (λ _ h', h' = h).
Proof.
  revert h. induction fs as [|f fs IH]; intros h; [simpl; unfold ips; simpl; multiset_solver|]. apply accounted_bind. rewrite ips_cons.
  eapply accounted_mono; [apply discard_accounted|]. intros _ h' ->. apply IH.
Qed.

Lemma even_disable id : even (disable id).
Proof.
  intros h. apply act_then; [done|]. intros [s|]; cbn [hold]; [|done]. apply accounted_bind.
  eapply accounted_mono; [apply discard_all_accounted|]. intros _ h' ->. apply even_then; [apply even_reapply|done].
Qed.

Lemma even_teardown id ns name : even (teardown_service id ns name).
Proof.
  intros h. apply act_then; [done|]. intros [f|]; cbn [hold]; [|done]. apply accounted_bind.
  eapply accounted_mono; [apply discard_accounted|]. intros _ h' ->. apply even_then; [apply even_reapply|done].
Qed.

Lemma even_prebind spec : even (prebind_privileged unix spec).
Proof.
  intros h. unfold prebind_privileged. destruct (needs_privileged_bind _ _); [|done]. destruct (fs_local_ip spec); [|done]. by split.
Qed.

Lemma even_listeners specs ids : even (start_listeners unix specs ids).
Proof.
  revert ids. induction specs as [|spec specs IH]; intros ids h; [done|]. apply even_then; [apply even_prebind|]. intros b.
  apply idle_then; [done|done|]. intros [[]|e]; [|apply IH]. apply idle_then; [done|done|]. intros r. apply IH.
Qed.

Lemma start_accounted cluster ns name ports h :
  accounted (start_service unix cluster ns name ports) h (λ r h', h' = match r with Ok f => {[+ local_ip f +]} ⊎ h | Err _ => h end).
Proof.
  apply act_then; [done|]. intros [ip|e]; cbn [hold]; [|done].
  assert (∀ e : str, accounted (_ <-! act (ReleaseIp ip); Ret (Err e)) ({[+ ip +]} ⊎ h)
    (λ (r : result ServiceForward str) h', h' = match r with Ok f => {[+ local_ip f +]} ⊎ h | Err _ => h end)) as Hr.
  { intros e. apply accounted_bind. eapply accounted_mono; [apply release_accounted|]. by intros _ h' ->. }
  apply idle_then; [done|done|]. intros [[]|e]; [|apply Hr]. apply even_then; [apply even_listeners|]. intros ids.
  case_bool_decide; [|done]. apply even_then; [apply even_call|]. intros _. apply Hr.
Qed.

Lemma forward_accounted cluster namespace svcs fs h :
  accounted (forward_services unix cluster namespace svcs fs) (ips fs ⊎ h) (λ fs' h', h' = ips fs' ⊎ h).
Proof.
  revert fs. induction svcs as [|svc svcs IH]; intros fs; [done|]. cbn [forward_services]. destruct (svc_name svc) as [name|]; [|apply IH].
  destruct (_ || _); [apply IH|]. apply accounted_bind. eapply accounted_mono; [apply start_accounted|].
  intros [f|e] h' ->; [|apply IH]. replace ({[+ local_ip f +]} ⊎ (ips fs ⊎ h)) with (ips (fs ++ [f]) ⊎ h); [apply IH|].
  rewrite ips_app. unfold ips. simpl. multiset_solver.
Qed.

Lemma insert_accounted s h : accounted (act (InsertSession s)) (session_ips s ⊎ h) (λ _ h', h' = h).
Proof. split; [simpl; multiset_solver|]. intros r. simpl. multiset_solver. Qed.

Lemma even_query cluster namespace selector : even (enable_query unix cluster namespace selector).
Proof.
  intros h. apply idle_then; [done|done|]. intros [[]|e]; [|done]. apply idle_then; [done|done|]. intros b.
  apply even_then; [destruct b; [apply even_disable|done]|]. intros _. apply idle_then; [done|done|]. intros [svcs|e]; [|done].
  apply accounted_bind. replace h with (ips [] ⊎ h) by (unfold ips; simpl; multiset_solver).
  eapply accounted_mono; [apply forward_accounted|]. intros fs h' ->. apply accounted_bind.
  eapply accounted_mono; [exact (insert_accounted {| services := fs |} h)|]. intros _ h' ->.
  replace (ips [] ⊎ h) with h by (unfold ips; simpl; multiset_solver).
  apply even_then; [apply even_reapply|]. intros [[]|e]; [|by apply even_then; [apply even_disable|]].
  apply idle_then; [done|done|]. intros t. apply even_then; [by destruct t; [intros h'; split|]|]. intros _. apply idle_then; done.
Qed.

Lemma even_service cluster ns name : even (enable_service unix cluster ns name).
Proof.
  intros h. apply idle_then; [done|done|]. intros [[]|e]; [|done]. apply idle_then; [done|done|]. intros [svc|e]; [|done].
  cbn beta zeta. case_bool_decide; [done|]. apply accounted_bind. eapply accounted_mono; [apply start_accounted|]. intros [f|e] h' ->; [|done].
  apply accounted_bind. replace {[+ local_ip f +]} with (ips [f]) by (unfold ips; simpl; multiset_solver).
  eapply accounted_mono; [exact (insert_accounted {| services := [f] |} h)|]. intros _ h' ->.
  apply even_then; [apply even_reapply|]. intros [[]|e]; [|done]. apply idle_then; done.
Qed.

Lemma even_forward_new cluster id ns name ports : even (forward_new unix cluster id ns name ports).
Proof.
  intros h. apply accounted_bind. eapply accounted_mono; [apply start_accounted|]. intros [f|e] h' ->; [|done].
  apply act_then; [simpl; multiset_solver|]. intros [|]; cbn [hold]; [|apply discard_accounted].
  replace (({[+ local_ip f +]} ⊎ h) ∖ {[+ local_ip f +]}) with h by multiset_solver. apply even_then; [apply even_reapply|done].
Qed.

Lemma even_apply cluster id svc : even (watch_apply unix cluster id svc).
Proof.
  intros h. unfold watch_apply. destruct (svc_name svc) as [name|]; [|done]. case_bool_decide; [done|]. case_bool_decide; [apply even_teardown|].
  apply idle_then; [done|done|]. intros [[f|]|]; [|apply even_forward_new|done]. destruct (same_port_set _ _); [done|].
  apply even_then; [apply even_teardown|]. intros _. apply even_forward_new.
Qed.

Lemma even_reconcile id seen : even (watch_reconcile_init id seen).
Proof.
  intros h. apply idle_then; [done|done|]. intros l. revert h. induction l as [|[ns name] l IH]; intros h; [done|].
  apply even_then; [apply even_teardown|]. intros _. apply IH.
Qed.

Lemma even_watch cluster id seen evs : even (watch_loop unix cluster id seen evs).
Proof.
  revert seen. induction evs as [|ev evs IH]; intros seen h; [done|]. apply idle_then; [done|done|]. intros [|]; [|done]. cbn [negb].
  destruct ev as [|svc| |svc|svc|]; try apply IH; (apply even_then; [|intros _; apply IH]); try apply even_apply; [|apply even_teardown].
  destruct seen; [apply even_reconcile|done].
Qed.

Lemma even_command c : even (command c).
Proof.
  assert (∀ A (p : Prog A), even p → even (ignore p)) as Hi by (intros A p Hp h; by apply even_then).
  destruct c; try (apply Hi); [apply even_query|apply even_query|apply even_service|apply even_disable| |by intros h; split|by intros h; split|].
  - intros h. apply idle_then; [done|done|]. intros ids. revert h. induction ids as [|id ids IH]; intros h; [done|].
    apply even_then; [apply even_disable|]. intros _. apply IH.
  - intros h. by split.
Qed.

(** *** Sums over a map *)

Lemma total_delete {K A} `{Countable K} (f : A → gmultiset Ipv4Addr) (m : gmap K A) i :
  total f m = from_option f ∅ (m !! i) ⊎ total f (delete i m).
Proof.
  destruct (m !! i) as [x|] eqn:Hi; simpl; [|rewrite delete_id by done; multiset_solver]. unfold total.
  rewrite (map_fold_delete_L _ _ i x m) by (done || intros; multiset_solver). done.
Qed.

Lemma total_insert {K A} `{Countable K} (f : A → gmultiset Ipv4Addr) (m : gmap K A) i x :
  total f (<[i := x]> m) ⊎ from_option f ∅ (m !! i) = f x ⊎ total f m.
Proof.
  rewrite (total_delete f (<[i := x]> m) i), lookup_insert, decide_True by done. rewrite delete_insert_eq. simpl.
  rewrite (total_delete f m i). multiset_solver.
Qed.

Lemma total_same {K A} `{Countable K} (f : A → gmultiset Ipv4Addr) (g : A → A) (m : gmap K A) i :
  (∀ x, f (g x) = f x) → total f (alter g i m) = total f m.
Proof.
  intros Hg. destruct (m !! i) as [x|] eqn:Hi; [|by rewrite alter_id by (intros y Hy; congruence)].
  rewrite (total_delete f (alter g i m) i), lookup_alter, decide_True, Hi by done. simpl. rewrite delete_alter_eq, Hg.
  rewrite (total_delete f m i), Hi. done.
Qed.

Lemma take_first_ips p fs f fs' : take_first p fs = Some (f, fs') → ips fs = {[+ local_ip f +]} ⊎ ips fs'.
Proof.
  revert fs'. induction fs as [|g fs IH]; intros fs'; simpl; [done|]. destruct (p g); [intros [= <- <-]; unfold ips; simpl; multiset_solver|].
  intros ([g' l] & Hl & [= <- <-])%bind_Some. specialize (IH l Hl). unfold ips in *. simpl in *. multiset_solver.
Qed.

(** *** The invariant *)

(** The addresses in use are those that a session, a task, or the loss has, each once. *)
Definition books (X : gmultiset Ipv4Addr) (m : Manager) : Prop :=
  ∀ ip, multiplicity ip X + multiplicity ip (total session_ips (sessions m)) = if decide (ip ∈ used (allocator m)) then 1 else 0.

Record sound (m : Manager) : Prop := {
  sound_wf : wf (allocator m);
  sound_loopback : ∀ ip, ip ∈ used (allocator m) → is_loopback_v4 ip = true;
  sound_ids : ∀ id s, sessions m !! id = Some s → gs_id s = id;
}.

(** What an action leaves alone. *)
Definition same_books (m m' : Manager) : Prop := sessions m' = sessions m ∧ allocator m' = allocator m.

Lemma call_same q w m : same_books m (call q w m).2.
Proof. unfold call. destruct (helper m) as [b|]; [|done]. unfold request. destruct (w_reply w); simpl; by destruct b. Qed.

Lemma ensure_same w m : same_books m (ensure_helper w m).2.
Proof.
  unfold ensure_helper. destruct (helper m); [done|]. destruct (w_spawn w) as [[]|]; [|done]. unfold request.
  destruct (w_ping w) as [[]|]; simpl; try done. by destruct (w_purge w).
Qed.

Lemma books_mono X Y m m' : same_books m m' → (∀ ip, multiplicity ip Y = multiplicity ip X) → books X m → books Y m'.
Proof. intros [Hs Ha] HXY Hb ip. rewrite HXY, Hs, Ha. apply Hb. Qed.

Lemma sound_same m m' : same_books m m' → sound m → sound m'.
Proof. intros [Hs Ha] [H1 H2 H3]. split; [by rewrite Ha|by rewrite Ha|by rewrite Hs]. Qed.

Lemma multiplicity_diff (X Y : gmultiset Ipv4Addr) ip : Y ⊆ X → multiplicity ip (X ∖ Y) + multiplicity ip Y = multiplicity ip X.
Proof. intros HXY. rewrite multiplicity_difference. specialize (HXY ip). lia. Qed.

(** The sum over the sessions behind a change of one of them. *)
Lemma books_session m id s s' (X Y : gmultiset Ipv4Addr) :
  sessions m !! id = Some s → books X m →
  (∀ ip, multiplicity ip Y + multiplicity ip (session_ips s') = multiplicity ip X + multiplicity ip (session_ips s)) →
  books Y (set_sessions (<[id := s']> (sessions m)) m).
Proof.
  intros Hs Hb HXY ip. specialize (Hb ip). specialize (HXY ip). simpl.
  pose proof (f_equal (multiplicity ip) (total_insert session_ips (sessions m) id s')) as Ht. rewrite Hs in Ht. simpl in Ht.
  rewrite !multiplicity_disj_union in Ht. lia.
Qed.

Lemma sound_insert m id s : sound m → gs_id s = id → sound (set_sessions (<[id := s]> (sessions m)) m).
Proof.
  intros [H1 H2 H3] Hs. split; [done|done|]. simpl. intros id' s'. rewrite lookup_insert. case_decide; [by intros [= <-]; subst|].
  apply H3.
Qed.

Lemma allocate_books cluster ns name w m h X :
  sound m → books (h ⊎ X) m →
  let '(r, m') := perform (AllocateIp cluster ns name) w m in
  sound m' ∧ books (hold (AllocateIp cluster ns name) h r ⊎ X) m'.
Proof.
  intros [H1 H2 H3] Hb. simpl. pose proof (allocate_spec (allocator m) cluster ns name H1) as (Hwf & _ & Hr).
  destruct (allocate (allocator m) cluster ns name) as [[ip|e] al]; simpl in *.
  - destruct Hr as ((c & n & d & _ & _ & Hip & _) & Hnew & Hu & _). split.
    + split; simpl; [done| |done]. intros ip'. rewrite Hu. intros [->%elem_of_singleton|Hin]%elem_of_union; [by rewrite Hip|by apply H2].
    + intros ip'. specialize (Hb ip'). simpl. rewrite Hu, !multiplicity_disj_union in *. destruct (decide (ip' = ip)) as [->|Hne].
      * rewrite multiplicity_singleton_eq, decide_True by set_solver. rewrite decide_False in Hb by done. lia.
      * rewrite multiplicity_singleton_ne by done. destruct (decide (ip' ∈ used (allocator m))).
        -- rewrite decide_True by set_solver. lia.
        -- rewrite decide_False by set_solver. lia.
  - destruct Hr as (_ & Hu & _). split; [split; simpl; [done|by rewrite Hu|done]|]. intros ip. simpl. rewrite Hu. apply Hb.
Qed.

Lemma release_books ip w m h X :
  sound m → {[+ ip +]} ⊆ h → books (h ⊎ X) m →
  let '(r, m') := perform (ReleaseIp ip) w m in sound m' ∧ books (hold (ReleaseIp ip) h r ⊎ X) m'.
Proof.
  intros [H1 H2 H3] Hh Hb. split.
  - split; simpl; [by apply wf_used| |done]. intros ip' [Hin _]%elem_of_difference. by apply H2.
  - intros ip'. specialize (Hb ip'). pose proof (multiplicity_diff h _ ip' Hh) as Hd. simpl. rewrite !multiplicity_disj_union in *.
    destruct (decide (ip' = ip)) as [->|Hne].
    + rewrite multiplicity_singleton_eq in Hd. rewrite decide_False by set_solver. case_decide; lia.
    + rewrite multiplicity_singleton_ne in Hd by done. destruct (decide (ip' ∈ used (allocator m))).
      * rewrite decide_True by set_solver. lia.
      * rewrite decide_False by set_solver. lia.
Qed.

Lemma perform_books a w m h X :
  sound m → needs a h → books (h ⊎ X) m →
  let '(r, m') := perform a w m in sound m' ∧ books (hold a h r ⊎ (displaced a m ⊎ X)) m'.
Proof.
  intros Hm Hn Hb.
  assert (∀ m', same_books m m' → sound m' ∧ books (h ⊎ (∅ ⊎ X)) m') as Hsame.
  { intros m' Hs. split; [by eapply sound_same|]. eapply books_mono; [done| |exact Hb]. intros ip.
    rewrite !multiplicity_disj_union, multiplicity_empty. lia. }
  destruct a as [|q|ip port| |ns sel|ns name|spec b|cluster ns name|ip|spec|id|cluster id|id|s|id|id t| |id ns name|id f|id ns name
    |id seen|cluster|id| | |]; simpl; try by apply Hsame.
  - pose proof (ensure_same w m) as Hs. destruct (ensure_helper w m). by apply Hsame.
  - pose proof (call_same q w m) as Hs. destruct (call q w m). by apply Hsame.
  - destruct (helper m); by apply Hsame.
  - apply Hsame. destruct (helper m); [|done]. by destruct (w_reply w).
  - pose proof (allocate_books cluster ns name w m h (∅ ⊎ X) Hm) as H. simpl in H. destruct (allocate _ _ _ _). apply H.
    by replace (∅ ⊎ X) with X by multiset_solver.
  - replace (∅ ⊎ X) with X by multiset_solver. by apply (release_books ip w).
  - destruct (by_id m !! id); by apply Hsame.
  - destruct (attached m); by apply Hsame.
  - split; [by apply sound_insert|]. intros ip. specialize (Hb ip). pose proof (multiplicity_diff h _ ip Hn) as Hd. simpl.
    pose proof (f_equal (multiplicity ip) (total_insert session_ips (sessions m) (gs_id s) s)) as Ht.
    rewrite !multiplicity_disj_union in *. destruct (sessions m !! gs_id s); simpl in *; rewrite ?multiplicity_empty in *; lia.
  - destruct Hm as [H1 H2 H3]. split; [split; simpl; [done|done|]; intros id' s [_ Hs]%lookup_delete_Some; by apply H3|].
    intros ip. specialize (Hb ip). simpl. pose proof (f_equal (multiplicity ip) (total_delete session_ips (sessions m) id)) as Ht.
    destruct (sessions m !! id); simpl in *; rewrite !multiplicity_disj_union in *; rewrite ?multiplicity_empty in *; lia.
  - destruct Hm as [H1 H2 H3]. split.
    + split; simpl; [done|done|]. intros id' s. rewrite lookup_alter. case_decide; [|apply H3]. subst.
      intros (s' & Hs & ->)%fmap_Some. by rewrite <- (H3 _ _ Hs).
    + intros ip. specialize (Hb ip). simpl. rewrite total_same by done. rewrite !multiplicity_disj_union in *. rewrite multiplicity_empty. lia.
  - destruct (sessions m !! id) as [s|] eqn:Hs; [|by apply Hsame]. destruct (existsb _ _); [by apply Hsame|].
    split; [apply sound_insert; [done|exact (sound_ids _ Hm _ _ Hs)]|]. eapply books_session; [done|exact Hb|]. intros ip.
    pose proof (multiplicity_diff h _ ip Hn) as Hd. unfold session_ips. simpl. rewrite ips_app, !multiplicity_disj_union, multiplicity_empty.
    unfold ips at 2. simpl. rewrite multiplicity_disj_union, multiplicity_empty. lia.
  - destruct (sessions m !! id) as [s|] eqn:Hs; [|by apply Hsame]. destruct (take_first _ _) as [[f fs]|] eqn:Hf; [|by apply Hsame].
    split; [apply sound_insert; [done|exact (sound_ids _ Hm _ _ Hs)]|]. eapply books_session; [done|exact Hb|]. intros ip.
    unfold session_ips. simpl. rewrite (take_first_ips _ _ _ _ Hf). rewrite !multiplicity_disj_union, multiplicity_empty. lia.
  - destruct Hm as [H1 H2 H3]. split; [split; [done|done|]; simpl; intros id s; by rewrite lookup_empty|].
    intros ip. specialize (Hb ip). simpl. unfold total at 2. rewrite map_fold_empty. rewrite !multiplicity_disj_union, multiplicity_empty in *. lia.
Qed.

(** A task that runs to its end gives back all it holds. *)
Definition tasks_ok (ts : gmap nat Task) (n : nat) : Prop :=
  map_Forall (λ t k, t < n ∧ accounted (prog k) (held k) (λ _ h, h = ∅)) ts.

Record inv (s : System) : Prop := {
  inv_sound : sound (mgr s);
  inv_tasks : tasks_ok (tasks s) (next_task (mgr s));
  inv_books : books (total held (tasks s) ⊎ lost s) (mgr s);
}.

Lemma doom_spec l ts n :
  total held (foldl doom ts l) = total held ts ∧ (tasks_ok ts n → tasks_ok (foldl doom ts l) n)
  ∧ ∀ t, held <$> foldl doom ts l !! t = held <$> ts !! t.
Proof.
  revert ts. induction l as [|i l IH]; intros ts; [done|]. simpl. destruct (IH (doom ts i)) as (-> & Hok & Hh).
  split; [by apply total_same|]. split.
  - intros Ht. apply Hok. intros t k. unfold doom. rewrite lookup_alter. case_decide as Hi; [|apply Ht].
    intros (k' & Hk & ->)%fmap_Some. apply (Ht _ k'). by subst.
  - intros t. rewrite Hh. unfold doom. rewrite lookup_alter. case_decide; [|done]. subst. by destruct (ts !! t).
Qed.

Lemma next_task_grows a w m : next_task m ≤ next_task (perform a w m).2.
Proof.
  destruct a; simpl; try done; repeat (case_match; simpl; try done); unfold ensure_helper, call, request in *;
    repeat (case_match; simpl in *; try done); simplify_eq; simpl; try done; lia.
Qed.

Lemma books_initial app : inv (initial app).
Proof.
  split; [split; [apply wf_new| |]|by intros t k|]; simpl.
  - intros ip Hip. set_solver.
  - intros id s. by rewrite lookup_empty.
  - intros ip. simpl. unfold total. rewrite !map_fold_empty, !multiplicity_disj_union, !multiplicity_empty. by rewrite decide_False by set_solver.
Qed.

Lemma ended_holds_nothing s t k x : inv s → tasks s !! t = Some k → prog k = Ret x → held k = ∅.
Proof. intros [_ H2 _] Hk Hp. destruct (H2 t k Hk) as [_ Ha]. by rewrite Hp in Ha. Qed.

Lemma inv_finish t k x s : tasks s !! t = Some k → prog k = Ret x → inv s → inv (finish t s).
Proof.
  intros Hk Hp Hi. pose proof (ended_holds_nothing s t k x Hi Hk Hp) as Hh. destruct Hi as [H1 H2 H3].
  split; [done| |]; simpl.
  - by apply map_Forall_delete.
  - intros ip. specialize (H3 ip). rewrite (total_delete held (tasks s) t), Hk in H3. simpl in H3.
    rewrite Hh in H3. rewrite !multiplicity_disj_union, multiplicity_empty in *. lia.
Qed.

Lemma inv_kill t k s : tasks s !! t = Some k → inv s → inv (kill t k s).
Proof.
  intros Hk [H1 H2 H3]. split; [done| |]; simpl.
  - by apply map_Forall_delete.
  - intros ip. specialize (H3 ip). rewrite (total_delete held (tasks s) t), Hk in H3. simpl in H3.
    rewrite !multiplicity_disj_union in *. lia.
Qed.

Lemma books_start c s : inv s → inv (start c s).
Proof.
  intros [H1 H2 H3]. split; simpl.
  - by apply (sound_same (mgr s)).
  - apply map_Forall_insert_2; [split; [lia|]; simpl; eapply accounted_mono; [apply even_command|]; by intros x h ->|].
    intros t k Hk. destruct (H2 t k Hk). split; [lia|done].
  - assert (tasks s !! next_task (mgr s) = None) as Hn.
    { apply eq_None_not_Some. intros [k Hk]. destruct (H2 _ _ Hk). lia. }
    intros ip. specialize (H3 ip). simpl.
    pose proof (f_equal (multiplicity ip) (total_insert held (tasks s) (next_task (mgr s)) {| prog := command c; held := ∅; doomed := false |})) as Ht.
    rewrite Hn in Ht. simpl in Ht. rewrite !multiplicity_disj_union, ?multiplicity_empty in *. lia.
Qed.

Lemma spawns_spec a w m evs (ts : gmap nat Task) :
  let '(r, m') := perform a w m in
  tasks_ok ts (next_task m) →
  tasks_ok (spawns a evs r ts) (next_task m') ∧ total held (spawns a evs r ts) = total held ts.
Proof.
  pose proof (next_task_grows a w m) as Hn. destruct (perform a w m) as [r m'] eqn:Hp. simpl in Hn. intros Hok.
  assert (tasks_ok ts (next_task m')) as Hok' by (intros t k Hk; destruct (Hok t k Hk); split; [lia|done]).
  destruct a; try done. simpl in *. destruct (attached m); injection Hp as <- <-; [|done]. simpl in *. split.
  - apply map_Forall_insert_2; [|done]. split; [lia|]. simpl. eapply accounted_mono; [apply even_watch|]. by intros x h ->.
  - assert (ts !! next_task m = None) as Hno by (apply eq_None_not_Some; intros [k Hk]; destruct (Hok _ _ Hk); lia).
    match goal with |- total _ (<[_ := ?k]> _) = _ => pose proof (total_insert held ts (next_task m) k) as Ht end.
    rewrite Hno in Ht. simpl in Ht. multiset_solver.
Qed.

Lemma books_advance w evs t s s' : advance w evs t s = Some s' → inv s → inv s'.
Proof.
  unfold advance. intros Ha Hi. destruct (tasks s !! t) as [k|] eqn:Hk; [|done]. simpl in Ha.
  destruct (prog k) as [x|a next] eqn:Hp; [injection Ha as <-; by eapply inv_finish|]. destruct Hi as [H1 H2 H3].
  destruct (H2 t k Hk) as [Ht Hacc]. rewrite Hp in Hacc. destruct Hacc as [Hn Hnext].
  set (ts := foldl doom (tasks s) _) in Ha. destruct (doom_spec (aborts a (mgr s)) (tasks s) (next_task (mgr s))) as (Htot & Hok & Hheld).
  fold ts in Htot, Hok, Hheld. specialize (Hheld t). rewrite Hk in Hheld. simpl in Hheld.
  destruct (ts !! t) as [k'|] eqn:Hk'; [|done]. injection Hheld as Hheld.
  assert (books (held k ⊎ (total held (delete t ts) ⊎ lost s)) (mgr s)) as Hb.
  { intros ip. specialize (H3 ip). rewrite <- Htot, (total_delete held ts t), Hk' in H3. simpl in H3. rewrite Hheld in H3.
    rewrite !multiplicity_disj_union in *. lia. }
  pose proof (perform_books a w (mgr s) (held k) _ H1 Hn Hb) as Hperf.
  pose proof (spawns_spec a w (mgr s) evs) as Hsp. destruct (perform a w (mgr s)) as [r m'] eqn:Hr. destruct Hperf as [Hm' Hb'].
  injection Ha as <-. set (k2 := {| prog := next r; held := hold a (held k) r; doomed := _ |}) in *.
  destruct (Hsp (<[t := k2]> ts)) as [Hspok Hsptot].
  { apply map_Forall_insert_2; [split; [done|apply Hnext]|by apply Hok]. }
  split; simpl; [done|exact Hspok|]. intros ip. specialize (Hb' ip). rewrite Hsptot.
  pose proof (f_equal (multiplicity ip) (total_insert held ts t k2)) as Hti. rewrite Hk' in Hti. simpl in Hti.
  pose proof (f_equal (multiplicity ip) (total_delete held ts t)) as Htd. rewrite Hk' in Htd. simpl in Htd.
  rewrite !multiplicity_disj_union in *. lia.
Qed.

Lemma inv_reachable app s : reachable app s → inv s.
Proof.
  apply (rtc_ind_r inv); [apply books_initial|]. intros s1 s2 _ Hs Hi. destruct Hs as [c s0|w evs t s0 s1 Ha|t k s0 Hk _].
  - by apply books_start.
  - by eapply books_advance.
  - by apply inv_kill.
Qed.

(** What a step adds to the losses. *)
Lemma lost_by s s' :
  step s s' →
  lost s' = lost s
  ∨ (∃ t k, tasks s !! t = Some k ∧ doomed k = true ∧ lost s' = held k ⊎ lost s)
  ∨ (∃ t k a next, tasks s !! t = Some k ∧ prog k = Do a next ∧ lost s' = displaced a (mgr s) ⊎ lost s
     ∧ (a = ClearSessions ∨ ∃ gs, a = InsertSession gs ∧ is_Some (sessions (mgr s) !! gs_id gs))).
Proof.
  intros [c s0|w evs t s0 s1 Ha|t k s0 Hk Hd]; [by left| |right; left; by eauto].
  unfold advance in Ha. apply bind_Some in Ha as (k & Hk & Ha).
  destruct (prog k) as [x|a next] eqn:Hp; [injection Ha as <-; by left|].
  destruct (perform a w (mgr s0)) as [r m] eqn:Hr. injection Ha as <-. cbn [lost].
  assert (displaced a (mgr s0) = ∅ ∨ a = ClearSessions
          ∨ ∃ gs, a = InsertSession gs ∧ is_Some (sessions (mgr s0) !! gs_id gs)) as [He|Hc].
  { destruct a as [| | | | | | | | | | | | |gs| | | | | | | | | | | |]; try (by left); [|by right; left]. simpl.
    destruct (sessions (mgr s0) !! gs_id gs) eqn:E; [|by left]. right. right. exists gs. by rewrite E. }
  - left. rewrite He. multiset_solver.
  - right. right. by exists t, k, a, next.
Qed.


(** *** Two owners of an address *)

Lemma multiplicity_ips fs f : f ∈ fs → 1 ≤ multiplicity (local_ip f) (ips fs).
Proof.
  intros Hf. unfold ips. assert (local_ip f ∈ list_to_set_disj (C := gmultiset Ipv4Addr) (local_ip <$> fs)) as H; [|exact H].
  apply elem_of_list_to_set_disj. by apply list_elem_of_fmap_2.
Qed.

Lemma ips_two fs i j f g : fs !! i = Some f → fs !! j = Some g → i ≠ j → local_ip f = local_ip g → 2 ≤ multiplicity (local_ip f) (ips fs).
Proof.
  assert (∀ i j f g, fs !! i = Some f → fs !! j = Some g → i < j → local_ip f = local_ip g → 2 ≤ multiplicity (local_ip f) (ips fs)) as H.
  { clear. intros i j f g Hi Hj Hlt Hip. rewrite <- (take_drop (S i) fs), ips_app, multiplicity_disj_union.
    assert (f ∈ take (S i) fs) as Hf by (apply (list_elem_of_lookup_2 _ i); by rewrite lookup_take_lt by lia).
    assert (g ∈ drop (S i) fs) as Hg
      by (apply (list_elem_of_lookup_2 _ (j - S i)); rewrite lookup_drop; by replace (S i + (j - S i)) with j by lia).
    apply multiplicity_ips in Hf, Hg. rewrite <- Hip in Hg. lia. }
  intros Hi Hj Hij Hip. destruct (decide (i < j)); [by eapply H|]. rewrite Hip. eapply (H j i g f); try done. lia.
Qed.

Lemma total_lookup (m : gmap str GlobalSession) id s : m !! id = Some s → total session_ips m = session_ips s ⊎ total session_ips (delete id m).
Proof. intros Hs. by rewrite (total_delete _ m id), Hs. Qed.

Lemma total_elem {K A} `{Countable K} (F : A → gmultiset Ipv4Addr) (m : gmap K A) ip :
  0 < multiplicity ip (total F m) → ∃ i x, m !! i = Some x ∧ 0 < multiplicity ip (F x).
Proof.
  unfold total. apply (map_fold_weak_ind (λ X m, 0 < multiplicity ip X → ∃ i x, m !! i = Some x ∧ 0 < multiplicity ip (F x))).
  - rewrite multiplicity_empty. lia.
  - intros i x m' X Hi IH. rewrite multiplicity_disj_union. intros Hm. destruct (decide (0 < multiplicity ip (F x))) as [Hx|Hx].
    + exists i, x. by rewrite lookup_insert, decide_True.
    + destruct IH as (j & y & Hj & Hy); [lia|]. exists j, y. split; [|done]. rewrite lookup_insert_ne; [done|]. intros ->. congruence.
Qed.

Lemma one_owner app s id1 id2 s1 s2 i j f g :
  reachable app s → sessions (mgr s) !! id1 = Some s1 → sessions (mgr s) !! id2 = Some s2 →
  services s1 !! i = Some f → services s2 !! j = Some g → local_ip f = local_ip g → id1 = id2 ∧ i = j.
Proof.
  intros Hr H1 H2 Hf Hg Hip. apply inv_reachable in Hr as [_ _ Hb]. specialize (Hb (local_ip f)).
  rewrite (total_lookup _ id1 s1 H1), !multiplicity_disj_union in Hb.
  assert (multiplicity (local_ip f) (session_ips s1) + multiplicity (local_ip f) (total session_ips (delete id1 (sessions (mgr s)))) ≤ 1) as Hle
    by (case_decide; lia).
  clear Hb. destruct (decide (id1 = id2)) as [->|Hne].
  - split; [done|]. destruct (decide (i = j)) as [|Hij]; [done|]. assert (s1 = s2) as -> by congruence.
    pose proof (ips_two _ _ _ _ _ Hf Hg Hij Hip). unfold session_ips in Hle. lia.
  - pose proof (multiplicity_ips _ _ (list_elem_of_lookup_2 _ _ _ Hf)).
    rewrite (total_lookup _ id2 s2), multiplicity_disj_union in Hle by (by rewrite lookup_delete_ne).
    pose proof (multiplicity_ips _ _ (list_elem_of_lookup_2 _ _ _ Hg)) as Hg'. rewrite <- Hip in Hg'. unfold session_ips in Hle. lia.
Qed.

(** A service of a session has the address. *)
Definition owned (m : Manager) (ip : Ipv4Addr) : Prop :=
  ∃ id gs f, sessions m !! id = Some gs ∧ f ∈ services gs ∧ local_ip f = ip.

(** C6: Loopback addresses are accounted for, in every interleaving of commands, watches, aborts
    and failures of the helper or the cluster: no two services have the same address; an
    address in use belongs to one service of one session, to a task that is about to put it
    into a session or release it, or was lost; a task that comes to its end holds none, and
    none is lost by it: addresses are lost only with a watch that is aborted, with the session
    that an insertion replaces, and when the shutdown drops the sessions; and when all tasks
    are done and none was lost, the addresses in use are exactly those of the services. *)
Theorem addresses_accounted (app : bool) (s : System) :
  reachable app s →
  (∀ id1 id2 s1 s2 i j f g, sessions (mgr s) !! id1 = Some s1 → sessions (mgr s) !! id2 = Some s2 →
     services s1 !! i = Some f → services s2 !! j = Some g → local_ip f = local_ip g → id1 = id2 ∧ i = j)
  ∧ (∀ ip, ip ∈ used (allocator (mgr s)) ↔ owned (mgr s) ip ∨ (∃ t k, tasks s !! t = Some k ∧ ip ∈ held k) ∨ ip ∈ lost s)
  ∧ (∀ t k ip, tasks s !! t = Some k → ip ∈ held k → ¬ owned (mgr s) ip)
  ∧ (∀ t k x, tasks s !! t = Some k → prog k = Ret x → held k = ∅)
  ∧ (∀ s', step s s' →
     lost s' = lost s
     ∨ (∃ t k, tasks s !! t = Some k ∧ doomed k = true ∧ lost s' = held k ⊎ lost s)
     ∨ (∃ t k a next, tasks s !! t = Some k ∧ prog k = Do a next ∧ lost s' = displaced a (mgr s) ⊎ lost s
        ∧ (a = ClearSessions ∨ ∃ gs, a = InsertSession gs ∧ is_Some (sessions (mgr s) !! gs_id gs))))
  ∧ (tasks s = ∅ → lost s = ∅ → ∀ ip, ip ∈ used (allocator (mgr s)) ↔ owned (mgr s) ip).
Proof.
  intros Hr. pose proof (inv_reachable _ _ Hr) as [_ _ Hb].
  assert (∀ ip, owned (mgr s) ip ↔ 0 < multiplicity ip (total session_ips (sessions (mgr s)))) as Hown.
  { intros ip. split.
    - intros (id & gs & f & Hs & Hf & <-). rewrite (total_lookup _ id gs Hs), multiplicity_disj_union. apply multiplicity_ips in Hf.
      unfold session_ips. lia.
    - intros (id & gs & Hs & Hm)%total_elem. exists id, gs. apply elem_of_list_to_set_disj, list_elem_of_fmap in Hm as (f & -> & Hf). eauto. }
  assert (∀ ip, (∃ t k, tasks s !! t = Some k ∧ ip ∈ held k) ↔ 0 < multiplicity ip (total held (tasks s))) as Hheld.
  { intros ip. split; [|apply total_elem]. intros (t & k & Hk & Hip). rewrite (total_delete held _ t), Hk. simpl.
    rewrite multiplicity_disj_union. unfold elem_of, gmultiset_elem_of in Hip. lia. }
  assert (∀ ip, ip ∈ used (allocator (mgr s)) ↔ owned (mgr s) ip ∨ (∃ t k, tasks s !! t = Some k ∧ ip ∈ held k) ∨ ip ∈ lost s) as Hused.
  { intros ip. rewrite Hown, Hheld. unfold elem_of at 2, gmultiset_elem_of. specialize (Hb ip). rewrite multiplicity_disj_union in Hb.
    case_decide as Hd; [|split; [done|lia]]. split; [lia|done]. }
  split_and!; [|exact Hused| | |apply lost_by|].
  - intros *. by apply (one_owner app s).
  - intros t k ip Hk Hip Ho. apply Hown in Ho. assert (0 < multiplicity ip (total held (tasks s))) by (apply Hheld; eauto).
    specialize (Hb ip). rewrite multiplicity_disj_union in Hb. case_decide; lia.
  - intros t k x. apply ended_holds_nothing. by apply (inv_reachable app).
  - intros Ht Hl ip. rewrite Hused, Ht, Hl. split; [|by left]. intros [Ho|[(t & k & Hk & _)|Hip]]; [done|by rewrite lookup_empty in Hk|multiset_solver].
Qed.

(** *** What the helper is sent *)

Lemma in_order_ids w m : ∃ ids, NoDup ids ∧ in_order w m = omap (λ id, m !! id) ids ∧ ∀ id, id ∈ ids ↔ is_Some (m !! id).
Proof.
  unfold in_order. set (keys := (map_to_list m).*1).
  assert (∀ id, id ∈ keys ↔ is_Some (m !! id)) as Hk.
  { intros id. unfold keys. rewrite list_elem_of_fmap. split.
    - intros ([i x] & -> & Hx%elem_of_map_to_list). by exists x.
    - intros [x Hx]. exists (id, x). split; [done|]. by apply elem_of_map_to_list. }
  case_bool_decide as Hw; [exists (w_order w)|exists keys].
  - split; [rewrite Hw; apply NoDup_fst_map_to_list|]. split; [done|]. intros id. by rewrite Hw.
  - split; [apply NoDup_fst_map_to_list|]. by split.
Qed.

Lemma in_order_sessions w m s : s ∈ in_order w m ↔ ∃ id, m !! id = Some s.
Proof.
  destruct (in_order_ids w m) as (ids & _ & -> & Hid). rewrite list_elem_of_omap. split; [intros (id & _ & Hs); by exists id|].
  intros [id Hs]. exists id. split; [|done]. apply Hid. by eexists.
Qed.

Lemma ordered_ips (m : gmap str GlobalSession) ids : NoDup ids → ips (omap (λ id, m !! id) ids ≫= services) ⊆ total session_ips m.
Proof.
  intros Hd. revert m. induction Hd as [|id ids Hid Hd IH]; intros m; [simpl; unfold ips; simpl; multiset_solver|].
  cbn [omap list_omap]. specialize (IH (delete id m)).
  assert (omap (λ i, delete id m !! i) ids = omap (λ i, m !! i) ids) as He.
  { clear IH Hd. induction ids as [|i ids IH]; [done|]. apply not_elem_of_cons in Hid as [Hne Hid]. csimpl.
    rewrite lookup_delete_ne by done. by rewrite IH. }
  rewrite He in IH. rewrite (total_delete session_ips m id). destruct (m !! id) as [s|]; simpl.
  - rewrite ips_app. match goal with |- ips _ ⊎ ips ?l ⊆ _ => change l with (omap (λ i, m !! i) ids ≫= services) end. unfold session_ips at 1.
    intros ip. specialize (IH ip). rewrite !multiplicity_disj_union. lia.
  - multiset_solver.
Qed.

Lemma disj_NoDup {A} `{Countable A} (l : list A) : (∀ x, multiplicity x (list_to_set_disj (C := gmultiset A) l) ≤ 1) → NoDup l.
Proof.
  induction l as [|a l IH]; intros Hm; constructor.
  - intros Ha. specialize (Hm a). simpl in Hm. rewrite multiplicity_disj_union, multiplicity_singleton_eq in Hm.
    assert (a ∈ list_to_set_disj (C := gmultiset A) l) as Hin by (by apply elem_of_list_to_set_disj).
    unfold elem_of, gmultiset_elem_of in Hin. lia.
  - apply IH. intros x. specialize (Hm x). simpl in Hm. rewrite multiplicity_disj_union in Hm. lia.
Qed.

Lemma filter_ips (P : ServiceForward → Prop) `{!∀ f, Decision (P f)} fs : NoDup (local_ip <$> fs) → NoDup (local_ip <$> filter P fs).
Proof.
  induction fs as [|f fs IH]; [done|]. rewrite fmap_cons, filter_cons. intros [Hf Hd]%NoDup_cons. specialize (IH Hd).
  case_decide; [|done]. rewrite fmap_cons. apply NoDup_cons. split; [|done]. intros (g & Hg & [_ Hin]%list_elem_of_filter)%list_elem_of_fmap.
  apply Hf, list_elem_of_fmap. by exists g.
Qed.

Lemma check_entries_ok (debug : str → str) es :
  Forall (λ e, is_loopback_v4 (he_ip e) = true ∧ Forall (λ h, is_valid_hostname h = true) (he_hostnames e)) es → check_entries debug es = None.
Proof.
  induction 1 as [|e es [Hl Hn] _ IH]; [done|]. simpl. rewrite Hl. simpl.
  assert (check_names debug (he_hostnames e) = None) as -> by (induction Hn as [|h l Hh _ IHl]; [done|]; simpl; by rewrite Hh). done.
Qed.

Lemma length_drop_while (p : char → bool) s : length (drop_while p s) ≤ length s.
Proof. induction s as [|c s IH]; simpl; [lia|]. destruct (p c); simpl; lia. Qed.

Lemma length_sanitize s : length (sanitize_label s) ≤ length s.
Proof.
  unfold sanitize_label, trim_matches, trim_start_matches, trim_end_matches. rewrite length_reverse.
  etrans; [apply length_drop_while|]. rewrite length_reverse. etrans; [apply length_drop_while|]. by rewrite length_fmap.
Qed.

Lemma with_names_lookup es names i e : with_names es names !! i = Some e ↔
  ∃ e0 l, es !! i = Some e0 ∧ names !! i = Some l ∧ e = {| he_ip := he_ip e0; he_hostnames := l |}.
Proof.
  unfold with_names. rewrite lookup_zip_with_Some. split.
  - intros (e0 & l & -> & He & Hl). by exists e0, l.
  - intros (e0 & l & He & Hl & ->). by exists e0, l.
Qed.

(** A name of a service or a namespace is a DNS label. *)
Definition named_in_dns (s : System) : Prop :=
  ∀ id gs f, sessions (mgr s) !! id = Some gs → f ∈ services gs → length (sf_name f) ≤ 63 ∧ length (sf_namespace f) ≤ 63.

(** C15: What the manager sends as the hosts file is never refused and never ambiguous: in every
    state that its tasks can reach, in whatever order the sessions are walked, the entries pass
    the checks of the privileged helper, each service has a line under an address of its own,
    and no bare name stands in two lines. *)
Theorem hosts_accepted (app : bool) (s : System) (w : World) (debug : str → str) :
  reachable app s → named_in_dns s →
  let es := all_host_entries (in_order w (sessions (mgr s))) in
  check_entries debug es = None
  ∧ NoDup (he_ip <$> es)
  ∧ (∀ h i j e e', es !! i = Some e → es !! j = Some e' → h ∈ he_hostnames e → h ∈ he_hostnames e' → is_bare h = true → i = j).
Proof.
  intros Hr Hdns es. pose proof (inv_reachable _ _ Hr) as [Hm _ Hb].
  set (fs := with_hostnames (in_order w (sessions (mgr s)))).
  set (es0 := (λ f, host_entry (local_ip f) (sf_name f) (sf_namespace f)) <$> fs).
  assert (∀ f, f ∈ fs → ∃ id gs, sessions (mgr s) !! id = Some gs ∧ f ∈ services gs) as Hfs.
  { intros f [_ (gs & Hf & [id Hs]%in_order_sessions)%list_elem_of_bind]%list_elem_of_filter. by exists id, gs. }
  assert (length (drop_ambiguous_bare_names (he_hostnames <$> es0)) = length es0) as Hlen
    by (rewrite drop_ambiguous_spec; unfold keep_unambiguous; by rewrite !length_fmap).
  assert (NoDup (local_ip <$> fs)) as Hnd.
  { apply filter_ips, disj_NoDup. intros ip. destruct (in_order_ids w (sessions (mgr s))) as (ids & Hd & -> & _).
    pose proof (ordered_ips (sessions (mgr s)) ids Hd ip) as Hle. unfold ips in Hle. specialize (Hb ip). case_decide; lia. }
  split_and!.
  - apply check_entries_ok, Forall_lookup. intros i e (e0 & l & He & Hl & ->)%with_names_lookup. simpl. fold es0 in Hl.
    apply list_lookup_fmap_Some in He as (f & -> & Hf). simpl. fold fs in Hf. apply list_elem_of_lookup_2 in Hf as Hin.
    destruct (Hfs f Hin) as (id & gs & Hs & Hg). split.
    + apply (sound_loopback _ Hm). specialize (Hb (local_ip f)). apply multiplicity_ips in Hg.
      rewrite (total_lookup _ id gs Hs), !multiplicity_disj_union in Hb. unfold session_ips in Hb. case_decide; [done|lia].
    + rewrite drop_ambiguous_spec in Hl. unfold keep_unambiguous in Hl. rewrite list_lookup_fmap in Hl. unfold es0 in Hl.
      rewrite !list_lookup_fmap in Hl. fold fs in Hl. rewrite Hf in Hl. injection Hl as <-. apply Forall_forall. intros h [_ Hh]%list_elem_of_filter. simpl in Hh.
      destruct (Hdns id gs f Hs Hg) as [Hn1 Hn2]. pose proof (length_sanitize (sf_name f)). pose proof (length_sanitize (sf_namespace f)).
      apply (variants_base_valid (sf_name f) (sf_namespace f)); [lia|lia|done].
  - assert (he_ip <$> es = local_ip <$> fs) as ->; [|done]. unfold es, all_host_entries. fold fs es0. unfold with_names.
    apply list_eq. intros i. rewrite !list_lookup_fmap.
    destruct (fs !! i) as [f|] eqn:Hf.
    + assert (es0 !! i = Some (host_entry (local_ip f) (sf_name f) (sf_namespace f))) as He by (unfold es0; by rewrite list_lookup_fmap, Hf).
      assert (i < length es0) as Hi by (by eapply lookup_lt_Some). rewrite <- Hlen in Hi. apply lookup_lt_is_Some in Hi as [l Hl].
      by rewrite lookup_zip_with, He, Hl.
    + assert (es0 !! i = None) as He by (unfold es0; by rewrite list_lookup_fmap, Hf). by rewrite lookup_zip_with, He.
  - intros h i j e e' (e0 & l & _ & Hl & ->)%with_names_lookup (e0' & l' & _ & Hl' & ->)%with_names_lookup. simpl. intros Hh Hh' Hbare.
    rewrite drop_ambiguous_spec in *. unfold keep_unambiguous in *.
    apply list_lookup_fmap_Some in Hl as (l1 & -> & Hl), Hl' as (l2 & -> & Hl').
    apply list_elem_of_filter in Hh as [[Hd|Hc] Hh]; [unfold is_bare in Hbare; by rewrite Hd in Hbare|].
    apply list_elem_of_filter in Hh' as [_ Hh']. by eapply claims_two.
Qed.
End Books.

Import Samples.

Lemma hosts_accepted_witness :
  let s := actions good [] 0 12 (start true (EnableService (lit "c") (lit "shop") (lit "web")) (initial false)) in
  let es := all_host_entries (in_order good (sessions (mgr s))) in
  he_hostnames <$> es = [[lit "web"; lit "web.shop"; lit "web.shop.svc"; lit "web.shop.svc.cluster.local"]] ∧ check_entries id es = None.
Proof.
  intros s es. split; [vm_compute; reflexivity|].
  assert (reachable true false s) as Hr.
  { unfold s. eapply rtc_l; [apply step_start|]. apply actions_rtc. }
  assert (named_in_dns s) as Hn.
  { intros i gs f Hs Hf. assert (Forall (λ p, Forall (λ f, length (sf_name f) ≤ 63 ∧ length (sf_namespace f) ≤ 63) (services p.2)) (map_to_list (sessions (mgr s)))) as H
      by (vm_compute; repeat constructor; lia).
    apply elem_of_map_to_list in Hs. rewrite Forall_forall in H. specialize (H _ Hs). rewrite Forall_forall in H. by apply H. }
  exact (proj1 (hosts_accepted true false s good id Hr Hn)).
Defined.

Lemma addresses_accounted_witness :
  let s := actions good [] 0 12 (start true (EnableService (lit "c") (lit "shop") (lit "web")) (initial false)) in
  tasks s = ∅ ∧ ∀ ip, ip ∈ used (allocator (mgr s)) ↔ ∃ id gs f, sessions (mgr s) !! id = Some gs ∧ f ∈ services gs ∧ local_ip f = ip.
Proof.
  intros s. assert (reachable true false s) as Hr by (unfold s; eapply rtc_l; [apply step_start|]; apply actions_rtc).
  assert (tasks s = ∅) as Ht by (vm_compute; reflexivity). assert (lost s = ∅) as Hl by (vm_compute; reflexivity).
  split; [exact Ht|]. destruct (addresses_accounted true false s Hr) as (_ & _ & _ & _ & _ & H). exact (H Ht Hl).
Defined.
