(* ===== verification/ForwardRuns.v ===== *)
(** * The methods of the global forwards, each on its own

    What a method does from its first action to its last with nothing in between: disabling a
    session, the events of a service, a relist; and concrete runs, alone and interleaved, that
    show where addresses, listeners and names are left behind. *)

From stdpp Require Import gmultiset.

From S2P Require Import Prelude Ipv4 IpAlloc Hostnames Protocol Helper GlobalFwd ForwardBooks.

Section Runs.
Context (unix : bool).

(** ** A method that runs alone *)

Lemma run_bind {A B} (p : Prog A) (f : A → Prog B) w n m : run (bind p f) w n m = let '(x, n', m') := run p w n m in run (f x) w n' m'.
Proof. revert n m. induction p as [x|a k IH]; intros n m; [done|]. simpl. destruct (perform a (w n) m) as [r m1]. apply IH. Qed.

(** What releasing some services leaves: the sessions as they were, the addresses free and the
    listeners stopped. *)
Definition released (l : list Ipv4Addr) (fids : list str) (m m' : Manager) : Prop :=
  sessions m' = sessions m ∧ used (allocator m') = used (allocator m) ∖ list_to_set l
  ∧ ∀ fid, by_id m' !! fid = if decide (fid ∈ fids) then None else by_id m !! fid.

Lemma released_trans l l' fids fids' m1 m2 m3 :
  released l fids m1 m2 → released l' fids' m2 m3 → released (l ++ l') (fids ++ fids') m1 m3.
Proof.
  intros (Hs & Hu & Hb) (Hs' & Hu' & Hb'). split; [congruence|]. split; [rewrite Hu', Hu, list_to_set_app_L; set_solver|].
  intros fid. rewrite Hb', Hb. destruct (decide (fid ∈ fids')); [by rewrite decide_True by set_solver|].
  destruct (decide (fid ∈ fids)); [by rewrite decide_True by set_solver|by rewrite decide_False by set_solver].
Qed.

Lemma released_same m m' : same_books m m' → by_id m' = by_id m → released [] [] m m'.
Proof. intros [Hs Ha] Hb. split; [done|]. split; [rewrite Ha; set_solver|]. intros fid. by rewrite Hb. Qed.

Lemma call_by_id q w m : by_id (call q w m).2 = by_id m.
Proof. unfold call. destruct (helper m) as [b|]; [|done]. unfold request. destruct (w_reply w); simpl; by destruct b. Qed.

Lemma run_stop ids w n m : released [] ids m (run (stop_listeners ids) w n m).2.
Proof.
  revert n m. induction ids as [|id ids IH]; intros n m; [by apply released_same|]. cbn [stop_listeners]. rewrite run_bind. cbn [run act].
  destruct (perform (Unregister id) (w n) m) as [r m1] eqn:Hp. apply (released_trans [] [] [id] ids m m1); [|apply IH].
  simpl in Hp. destruct (by_id m !! id) eqn:Hi; injection Hp as <- <-; (split; [done|]; split; [set_solver|]); intros fid; simpl.
  - rewrite lookup_delete. repeat case_decide; set_solver.
  - case_decide as Hf; [|done]. apply list_elem_of_singleton in Hf as ->. done.
Qed.

Lemma run_discard f w n m : released [local_ip f] (forward_ids f) m (run (discard_service f) w n m).2.
Proof.
  unfold discard_service. rewrite run_bind. pose proof (run_stop (forward_ids f) w n m) as H1.
  destruct (run (stop_listeners _) w n m) as [[u n1] m1]. simpl in H1. cbn [bind helper_del_loopback act run perform].
  destruct (call (DelLoopback (local_ip f)) (w n1) m1) as [r m2] eqn:Hc.
  assert (released [] [] m1 m2) as H2.
  { pose proof (call_same (DelLoopback (local_ip f)) (w n1) m1) as Hs. pose proof (call_by_id (DelLoopback (local_ip f)) (w n1) m1) as Hb.
    rewrite Hc in Hs, Hb. by apply released_same. }
  pose proof (released_trans _ _ _ _ _ _ _ H1 H2) as (Hs & Hu & Hb). rewrite app_nil_r in Hb. split; [done|].
  split; [simpl; rewrite Hu; set_solver|done].
Qed.

Lemma run_discard_all fs w n m : released (local_ip <$> fs) (fs ≫= forward_ids) m (run (discard_services fs) w n m).2.
Proof.
  revert n m. induction fs as [|f fs IH]; intros n m; [by apply released_same|]. cbn [discard_services]. rewrite run_bind.
  pose proof (run_discard f w n m) as H. destruct (run (discard_service f) w n m) as [[u n1] m1].
  exact (released_trans _ _ _ _ _ _ _ H (IH n1 m1)).
Qed.

(** The hosts are applied behind what was done, unless the helper is gone. *)
Lemma run_reapply w n m :
  let m' := (run reapply_hosts w n m).2 in
  released [] [] m m' ∧ (is_Some (helper m') → ∃ r, last (calls m') = Some (HostsApply (all_host_entries (in_order (w n) (sessions m))), Some r)).
Proof.
  unfold reapply_hosts. cbn [bind helper_hosts_apply act run perform]. set (q := HostsApply _).
  pose proof (call_same q (w (S n)) m) as Hs. pose proof (call_by_id q (w (S n)) m) as Hb.
  destruct (call q (w (S n)) m) as [r m2] eqn:Hc. simpl in *. split; [by apply released_same|].
  unfold call in Hc. destruct (helper m) as [b|] eqn:Hh; [|injection Hc as <- <-; rewrite Hh; by intros [? ?]].
  unfold request in Hc. destruct (w_reply (w (S n))) as [x|e]; injection Hc as <- <-; [|by intros [? ?]].
  destruct b; simpl; [by intros [? ?]|]. intros _. exists x. by rewrite last_snoc.
Qed.

(** Disabling a session takes back all that it had: whatever the helper answers, when the
    call ends the session is gone, its addresses are free, each of its listeners is stopped and
    no other is, the other sessions are as they were; and the last that a helper which is still
    there has accepted are the names of the sessions that are left. *)
Theorem disabled_is_gone (w : nat → World) (n : nat) (m : Manager) (id : str) (gs : GlobalSession) :
  sessions m !! id = Some gs →
  let m' := (run (disable id) w n m).2 in
  sessions m' = delete id (sessions m)
  ∧ used (allocator m') = used (allocator m) ∖ list_to_set (local_ip <$> services gs)
  ∧ (∀ fid, by_id m' !! fid = if decide (fid ∈ services gs ≫= forward_ids) then None else by_id m !! fid)
  ∧ (is_Some (helper m') → ∃ k r,
       last (calls m') = Some (HostsApply (all_host_entries (in_order (w k) (delete id (sessions m)))), Some r)).
Proof.
  intros Hs. unfold disable. rewrite run_bind. cbn [run act perform]. rewrite Hs. rewrite run_bind.
  set (m0 := set_sessions (delete id (sessions m)) m). pose proof (run_discard_all (services gs) w (S n) m0) as H1.
  destruct (run (discard_services _) w (S n) m0) as [[u n1] m1]. simpl in H1. rewrite run_bind.
  pose proof (run_reapply w n1 m1) as [H2 Hc]. destruct (run reapply_hosts w n1 m1) as [[r n2] m2]. simpl in *.
  pose proof (released_trans _ _ _ _ _ _ _ H1 H2) as (Hs' & Hu & Hb). rewrite !app_nil_r in *. split_and!; [done|done|exact Hb|].
  intros Hh. destruct (Hc Hh) as [r' Hl]. exists n1, r'. rewrite Hl. destruct H1 as [-> _]. done.
Qed.
(** ** A relist *)

(** A method that leaves the sessions alone. *)
Fixpoint quiet {A} (p : Prog A) : Prop :=
  match p with
  | Ret _ => True
  | Do a k =>
      match a with
      | InsertSession _ | RemoveSession _ | AttachWatch _ _ | PushService _ _ | TakeService _ _ _ | ClearSessions => False
      | _ => True
      end ∧ ∀ r, quiet (k r)
  end.

Lemma quiet_bind {A B} (p : Prog A) (f : A → Prog B) : quiet p → (∀ x, quiet (f x)) → quiet (bind p f).
Proof. induction p as [x|a k IH]; simpl; [auto|]. intros [Ha Hk] Hf. split; [done|]. intros r. by apply IH. Qed.

Lemma quiet_run {A} (p : Prog A) w n m : quiet p → sessions (run p w n m).2 = sessions m.
Proof.
  revert n m. induction p as [x|a k IH]; intros n m; [done|]. intros [Ha Hk]. simpl.
  destruct (perform a (w n) m) as [r m1] eqn:Hp. rewrite (IH r) by apply Hk.
  destruct a; try done; simpl in Hp; try by injection Hp as <- <-.
  - pose proof (ensure_same (w n) m) as [Hs _]. by rewrite Hp in Hs.
  - pose proof (call_same req (w n) m) as [Hs _]. by rewrite Hp in Hs.
  - destruct (helper m); by injection Hp as <- <-.
  - injection Hp as <- <-. destruct (helper m); [by destruct (w_reply (w n))|done].
  - destruct (allocate _ _ _ _). by injection Hp as <- <-.
  - injection Hp as <- <-. by destruct (by_id m !! id).
  - destruct (attached m); by injection Hp as <- <-.
Qed.

Lemma quiet_listeners specs ids : quiet (start_listeners unix specs ids).
Proof.
  revert ids. induction specs as [|spec specs IH]; intros ids; [done|]. apply quiet_bind.
  - unfold prebind_privileged. destruct (needs_privileged_bind _ _); [|done]. by destruct (fs_local_ip spec).
  - intros b. split; [done|]. intros [[]|e]; simpl; [|apply IH]. split; [done|]. intros r. apply IH.
Qed.

Lemma quiet_start cluster ns name ports : quiet (start_service unix cluster ns name ports).
Proof.
  split; [done|]. intros [ip|e]; simpl; [|done]. split; [done|]. intros [[]|e]; simpl; [|by split].
  apply quiet_bind; [apply quiet_listeners|]. intros ids. case_bool_decide; [|done]. by repeat split.
Qed.

Lemma quiet_reapply : quiet reapply_hosts.
Proof. by repeat split. Qed.

Definition key (f : ServiceForward) : str * str := (sf_namespace f, sf_name f).

Definition keys (fs : list ServiceForward) : list (str * str) := key <$> fs.

(** The services of a session. *)
Definition of_session (id : str) (m : Manager) : option (list ServiceForward) := services <$> sessions m !! id.

Lemma is_service_key ns name f : is_service ns name f = bool_decide (key f = (ns, name)).
Proof. unfold is_service, key, str_eqb. repeat case_bool_decide; simpl; simplify_eq; congruence. Qed.

(** What taking a service out of a list without doubles leaves. *)
Lemma take_first_rest ns name fs :
  NoDup (keys fs) →
  match take_first (is_service ns name) fs with Some (_, fs') => fs' | None => fs end = filter (λ f, key f ≠ (ns, name)) fs.
Proof.
  induction fs as [|f fs IH]; [done|]. intros [Hf Hd]%NoDup_cons. specialize (IH Hd). simpl. rewrite is_service_key, filter_cons.
  case_bool_decide as Hk.
  - rewrite decide_False by (by intros []). symmetry. apply list_filter_all. intros g Hg ?. apply Hf, list_elem_of_fmap. exists g. by rewrite Hk.
  - rewrite decide_True by done. destruct (take_first _ fs) as [[g fs']|]; simpl; f_equal; exact IH.
Qed.

Lemma run_teardown id ns name w n m fs :
  of_session id m = Some fs → NoDup (keys fs) →
  of_session id (run (teardown_service id ns name) w n m).2 = Some (filter (λ f, key f ≠ (ns, name)) fs).
Proof.
  unfold of_session. intros (s & Hs & ->)%fmap_Some Hd. pose proof (take_first_rest ns name (services s) Hd) as Ht.
  unfold teardown_service. rewrite run_bind. cbn [run act perform]. rewrite Hs.
  destruct (take_first _ (services s)) as [[f fs']|]; [|simpl; by rewrite Hs, <- Ht]. rewrite run_bind.
  set (m1 := set_sessions _ m). pose proof (run_discard f w (S n) m1) as (Hd1 & _).
  destruct (run (discard_service f) w (S n) m1) as [[u n2] m2]. simpl in Hd1. rewrite run_bind.
  pose proof (quiet_run reapply_hosts w n2 m2 quiet_reapply) as Hq. destruct (run reapply_hosts w n2 m2) as [[r n3] m3]. simpl in *.
  rewrite Hq, Hd1. unfold m1. simpl. rewrite lookup_insert, decide_True by done. simpl. by rewrite Ht.
Qed.
(** A program whose results, if any, are as [P] says. *)
Fixpoint gives {A} (P : A → Prop) (p : Prog A) : Prop :=
  match p with
  | Ret x => P x
  | Do a k => ∀ r, gives P (k r)
  end.

Lemma gives_bind {A B} (P : B → Prop) (p : Prog A) (f : A → Prog B) : (∀ x, gives P (f x)) → gives P (bind p f).
Proof. intros Hf. induction p as [x|a k IH]; simpl; [apply Hf|]. intros r. apply IH. Qed.

Lemma gives_run {A} (P : A → Prop) (p : Prog A) w n m : gives P p → P (run p w n m).1.1.
Proof. revert n m. induction p as [x|a k IH]; intros n m; [done|]. simpl. intros Hp. destruct (perform a (w n) m) as [r m1]. by apply IH. Qed.

(** What is started is what was asked for. *)
Lemma start_named cluster ns name ports w n m :
  match (run (start_service unix cluster ns name ports) w n m).1.1 with
  | Ok f => sf_name f = name ∧ sf_namespace f = ns ∧ sf_ports f = ports
  | Err _ => True
  end.
Proof.
  apply (gives_run (λ r, match r with Ok f => sf_name f = name ∧ sf_namespace f = ns ∧ sf_ports f = ports | Err _ => True end)).
  apply gives_bind. intros [ip|e]; [|done]. apply gives_bind. intros [[]|e]; [|by apply gives_bind].
  apply gives_bind. intros ids. case_bool_decide; [|done]. apply gives_bind. intros _. by apply gives_bind.
Qed.

(** Behind an event of a service, the session has it with the ports of the event or not at all,
    and all others as they were. *)
Definition follows (svc : Service) (fs fs' : list ServiceForward) : Prop :=
  NoDup (keys fs')
  ∧ (∀ f, f ∈ fs' → svc_name svc = Some (sf_name f) → svc_namespace svc = Some (sf_namespace f) → sf_ports f ≡ₚ service_ports svc)
  ∧ (∀ f, svc_name svc ≠ Some (sf_name f) ∨ svc_namespace svc ≠ Some (sf_namespace f) → f ∈ fs' ↔ f ∈ fs)
  ∧ (∀ f, f ∈ fs → sf_ports f ≡ₚ service_ports svc → service_ports svc ≠ [] → f ∈ fs').

Lemma filter_keys (P : ServiceForward → Prop) `{!∀ f, Decision (P f)} fs : NoDup (keys fs) → NoDup (keys (filter P fs)).
Proof.
  unfold keys. induction fs as [|f fs IH]; [done|]. rewrite fmap_cons, filter_cons. intros [Hf Hd]%NoDup_cons. specialize (IH Hd).
  case_decide; [|done]. rewrite fmap_cons. apply NoDup_cons. split; [|done]. intros (g & Hg & [_ Hin]%list_elem_of_filter)%list_elem_of_fmap.
  apply Hf, list_elem_of_fmap. by exists g.
Qed.

(** The list without a service, and with it started anew. *)
Lemma follows_without svc name ns fs fs' :
  svc_name svc = Some name → svc_namespace svc = Some ns → NoDup (keys fs) → fs' = filter (λ f, key f ≠ (ns, name)) fs →
  (∀ f, f ∈ fs → key f = (ns, name) → sf_ports f ≡ₚ service_ports svc → service_ports svc = []) →
  follows svc fs fs'.
Proof.
  intros Hn Hns Hd -> Hp. unfold follows. rewrite Hn, Hns.
  split_and!; [by apply filter_keys| | |].
  - intros f [Hk _]%list_elem_of_filter [= ->] [= ->]. by destruct Hk.
  - intros f Hf. rewrite list_elem_of_filter. unfold key. split; [by intros [_ ?]|]. intros Hin. split; [|done]. intros [= Ha Hb]. rewrite Ha, Hb in Hf.
    by destruct Hf.
  - intros f Hf Hports Hne. apply list_elem_of_filter. split; [|done]. intros Hk. by apply Hne, (Hp f).
Qed.

Lemma run_forward_new cluster id svc name ns fs w n m :
  svc_name svc = Some name → svc_namespace svc = Some ns → service_ports svc ≠ [] → NoDup (keys fs) →
  (∀ f, f ∈ fs → key f = (ns, name) → ¬ sf_ports f ≡ₚ service_ports svc) →
  of_session id m = Some (filter (λ f, key f ≠ (ns, name)) fs) →
  ∃ fs', of_session id (run (forward_new unix cluster id ns name (service_ports svc)) w n m).2 = Some fs' ∧ follows svc fs fs'.
Proof.
  intros Hn Hns Hne Hd Hports Hs. set (without := filter (λ f, key f ≠ (ns, name)) fs) in *.
  assert (follows svc fs without) as Hwo by (eapply follows_without; try done; intros f Hf Hk Hx; by destruct (Hports f Hf Hk)).
  unfold forward_new. rewrite run_bind.
  pose proof (quiet_run (start_service unix cluster ns name (service_ports svc)) w n m (quiet_start _ _ _ _)) as Hq.
  pose proof (start_named cluster ns name (service_ports svc) w n m) as Hnamed.
  destruct (run (start_service _ _ _ _ _) w n m) as [[r n1] m1]. simpl in Hq, Hnamed.
  assert (of_session id m1 = Some without) as Hs1 by (unfold of_session; by rewrite Hq).
  destruct r as [f|e]; [|simpl; by exists without]. destruct Hnamed as (Hfn & Hfns & Hfp). rewrite run_bind. cbn [run act perform].
  unfold of_session in Hs1. apply fmap_Some in Hs1 as (s & Hs1 & Hw). rewrite Hs1.
  assert (existsb (is_service (sf_namespace f) (sf_name f)) (services s) = false) as ->.
  { apply not_true_is_false. intros (g & Hg & Hk)%existsb_exists. rewrite is_service_key, Hfn, Hfns in Hk. apply bool_decide_eq_true in Hk.
    apply list_elem_of_In in Hg. rewrite <- Hw in Hg. apply list_elem_of_filter in Hg as [[] _]. done. }
  rewrite run_bind. set (m2 := set_sessions _ m1). pose proof (quiet_run reapply_hosts w (S n1) m2 quiet_reapply) as Hq2.
  destruct (run reapply_hosts w (S n1) m2) as [[x n3] m3]. simpl in Hq2. exists (without ++ [f]). split.
  { unfold of_session. simpl. rewrite Hq2. simpl. rewrite lookup_insert, decide_True by done. simpl. by rewrite <- Hw. }
  destruct Hwo as (H1 & H2 & H3 & H4). split_and!.
  - unfold keys. rewrite fmap_app. apply NoDup_app. split; [exact H1|]. split; [|apply NoDup_singleton].
    intros k (g & -> & [Hg _]%list_elem_of_filter)%list_elem_of_fmap [= Hk]%list_elem_of_singleton. unfold key in *. congruence.
  - intros g [Hg| ->%list_elem_of_singleton]%elem_of_app; [by apply H2|]. intros _ _. by rewrite Hfp.
  - intros g Hg. rewrite elem_of_app, H3 by done. split; [|by left]. intros [?| ->%list_elem_of_singleton]; [done|].
    rewrite Hn, Hns, Hfn, Hfns in Hg. by destruct Hg.
  - intros g Hg Hx Hy. apply elem_of_app. left. by apply H4.
Qed.

(** Services without doubles are told apart by their keys. *)
Lemma keys_inj fs f g : NoDup (keys fs) → f ∈ fs → g ∈ fs → key f = key g → f = g.
Proof.
  intros Hd [i Hi]%list_elem_of_lookup [j Hj]%list_elem_of_lookup Hk.
  assert (i = j) as -> by (eapply (NoDup_lookup (keys fs) i j (key g)); [done| |]; unfold keys; rewrite list_lookup_fmap, ?Hi, ?Hj; simpl; by rewrite ?Hk).
  congruence.
Qed.

Lemma run_watch_apply cluster id svc w n m fs name ns :
  of_session id m = Some fs → NoDup (keys fs) → svc_name svc = Some name → svc_namespace svc = Some ns → ns ≠ [] →
  ∃ fs', of_session id (run (watch_apply unix cluster id svc) w n m).2 = Some fs' ∧ follows svc fs fs'.
Proof.
  intros Hs Hd Hn Hns Hne. unfold watch_apply. rewrite Hn, Hns. change (default [] (Some ns)) with ns.
  rewrite bool_decide_eq_false_2 by done. case_bool_decide as Hp.
  { eexists. split; [by apply run_teardown|]. by eapply follows_without. }
  rewrite run_bind. cbn [run act perform]. unfold of_session in Hs. apply fmap_Some in Hs as (s & Hs & ->).
  rewrite Hs. cbn [fmap option_fmap option_map]. destruct (List.find (is_service ns name) (services s)) as [f|] eqn:Hf.
  - apply find_some in Hf as [Hin Hk]. apply list_elem_of_In in Hin. rewrite is_service_key in Hk. apply bool_decide_eq_true in Hk.
    unfold same_port_set. case_bool_decide as Hsame.
    + exists (services s). split; [cbn; unfold of_session; by rewrite Hs|]. split_and!; [done| |done|done].
      intros g Hg Hgn Hgns. rewrite Hn in Hgn. rewrite Hns in Hgns. injection Hgn as ->. injection Hgns as ->.
      by rewrite (keys_inj _ g f Hd Hg Hin).
    + rewrite run_bind. pose proof (run_teardown id ns name w (S n) m (services s)) as Ht.
      destruct (run (teardown_service id ns name) w (S n) m) as [[u n1] m1]. simpl in Ht. unfold of_session in Ht at 1. rewrite Hs in Ht.
      apply (run_forward_new cluster id svc name ns (services s) w n1 m1); try done; [|by apply Ht].
      intros g Hg Hgk. rewrite (keys_inj _ g f Hd Hg Hin); [done|congruence].
  - assert (∀ g, g ∈ services s → key g ≠ (ns, name)) as Hno.
    { intros g Hg Hk. apply list_elem_of_In in Hg. pose proof (find_none _ _ Hf g Hg) as Hfalse. rewrite is_service_key in Hfalse.
      by apply bool_decide_eq_false in Hfalse. }
    apply (run_forward_new cluster id svc name ns (services s) w (S n) m); try done; [intros g Hg Hk; by destruct (Hno g Hg)|].
    unfold of_session. rewrite Hs. simpl. f_equal. symmetry. by apply list_filter_all.
Qed.
Definition svc_key (svc : Service) : str * str := (default [] (svc_namespace svc), default [] (svc_name svc)).

(** A service as the cluster lists them: named, and in a namespace. *)
Definition listed (svc : Service) : Prop := is_Some (svc_name svc) ∧ ∃ ns, svc_namespace svc = Some ns ∧ ns ≠ [].

(** What a list of services makes of a session: those that are in the list have its ports, those
    that are not are as they were, and one that has its ports already is kept. *)
Record followed (l : list Service) (fs fs' : list ServiceForward) : Prop := {
  followed_nodup : NoDup (keys fs');
  followed_ports svc f : svc ∈ l → f ∈ fs' → key f = svc_key svc → sf_ports f ≡ₚ service_ports svc;
  followed_rest f : key f ∉ svc_key <$> l → f ∈ fs' ↔ f ∈ fs;
  followed_kept svc f : svc ∈ l → f ∈ fs → key f = svc_key svc → sf_ports f ≡ₚ service_ports svc → service_ports svc ≠ [] → f ∈ fs';
}.

Lemma follows_key svc fs fs' : listed svc → follows svc fs fs' →
  NoDup (keys fs') ∧ (∀ f, f ∈ fs' → key f = svc_key svc → sf_ports f ≡ₚ service_ports svc)
  ∧ (∀ f, key f ≠ svc_key svc → f ∈ fs' ↔ f ∈ fs)
  ∧ (∀ f, f ∈ fs → sf_ports f ≡ₚ service_ports svc → service_ports svc ≠ [] → f ∈ fs').
Proof.
  intros ([name Hn] & ns & Hns & _) (H1 & H2 & H3 & H4). unfold svc_key, key. rewrite Hn, Hns. simpl. split_and!; [done| | |done].
  - intros f Hf [= Ha Hb]. apply H2; congruence.
  - intros f Hk. apply H3. rewrite Hn, Hns. destruct (decide (name = sf_name f)) as [->|]; [|left; congruence].
    right. intros [= ->]. done.
Qed.

Lemma run_applies cluster id l seen rest fs w n m :
  of_session id m = Some fs → NoDup (keys fs) → Forall listed l → NoDup (svc_key <$> l) →
  ∃ fs' n' m', run (watch_loop unix cluster id (Some seen) ((InitApply <$> l) ++ rest)) w n m
               = run (watch_loop unix cluster id (Some (list_to_set (svc_key <$> l) ∪ seen)) rest) w n' m'
    ∧ of_session id m' = Some fs' ∧ followed l fs fs'.
Proof.
  intros Hs Hd Hl Hk. revert seen fs n m Hs Hd. induction Hl as [|svc l Hsvc Hl IH]; intros seen fs n m Hs Hd.
  { exists fs, n, m. simpl. rewrite (left_id_L ∅ (∪)). split_and!; [done|done|]. split; [done| |done|]; intros ? ? []%not_elem_of_nil. }
  rewrite fmap_cons in Hk. apply NoDup_cons in Hk as [Hnew Hk]. specialize (IH Hk). pose proof Hsvc as ([name Hn] & ns & Hns & Hne).
  destruct (run_watch_apply cluster id svc w (S n) m fs name ns Hs Hd Hn Hns Hne) as (fs1 & Hs1 & Hf1).
  destruct (follows_key svc fs fs1 Hsvc Hf1) as (Hd1 & Hp1 & Hr1 & Hk1).
  rewrite fmap_cons. cbn [app]. cbn [watch_loop]. rewrite run_bind. cbn [run act perform].
  assert (is_Some (sessions m !! id)) as Hsome by (apply fmap_Some in Hs as (s & -> & _); by eexists).
  rewrite (bool_decide_eq_true_2 _ Hsome). cbn [negb]. rewrite run_bind.
  destruct (run (watch_apply unix cluster id svc) w (S n) m) as [[u n1] m1]. cbn [snd] in Hs1.
  destruct (IH (({[(ns, name)]} ∪ seen)) fs1 n1 m1 Hs1 Hd1) as (fs' & n' & m' & Hrun & Hs' & Hf').
  unfold note_seen. rewrite Hn, Hns. rewrite Hrun. exists fs', n', m'. split_and!; [|done|].
  { assert (svc_key svc = (ns, name)) as Hsk by (unfold svc_key; by rewrite Hn, Hns). rewrite fmap_cons, Hsk.
    replace (list_to_set ((ns, name) :: (svc_key <$> l)) ∪ seen) with (list_to_set (svc_key <$> l) ∪ ({[(ns, name)]} ∪ seen) : gset (str * str));
      [done|]. apply set_eq. intros k. simpl. set_solver. }
  destruct Hf' as [F1 F2 F3 F4]. split; [done| | |].
  - intros svc' f [->|Hin]%elem_of_cons Hf Hkey; [|by eapply F2]. apply Hp1; [|done]. apply F3; [by rewrite Hkey|done].
  - intros f Hnot. rewrite fmap_cons, not_elem_of_cons in Hnot. destruct Hnot as [Hne' Hnot]. rewrite F3 by done. by apply Hr1.
  - intros svc' f [->|Hin]%elem_of_cons Hf Hkey Hports Hnn.
    + apply F3; [by rewrite Hkey|]. by apply Hk1.
    + apply (F4 svc'); try done. apply Hr1; [|done]. intros Heq. apply Hnew. rewrite <- Heq, Hkey. by apply list_elem_of_fmap_2.
Qed.

Lemma run_teardowns id l w n m fs :
  of_session id m = Some fs → NoDup (keys fs) →
  of_session id (run (teardown_services id l) w n m).2 = Some (filter (λ f, key f ∉ l) fs).
Proof.
  revert n m fs. induction l as [|[ns name] l IH]; intros n m fs Hs Hd.
  { simpl. rewrite Hs. f_equal. symmetry. apply list_filter_all. intros f _. by apply not_elem_of_nil. }
  cbn [teardown_services]. rewrite run_bind. pose proof (run_teardown id ns name w n m fs Hs Hd) as H1.
  destruct (run (teardown_service id ns name) w n m) as [[u n1] m1]. cbn [snd] in H1. rewrite (IH n1 m1 _ H1).
  - f_equal. rewrite list_filter_filter. apply list_filter_iff. intros f. rewrite not_elem_of_cons. tauto.
  - by apply filter_keys.
Qed.

(** C21: A relist brings a session in step with the cluster: when the watch has taken in a whole
    list of services, whatever could be started, each service of the session is in the list and
    has the ports of the list; and one that had them before, with its address and its
    listeners, is still there. *)
Theorem relist_settles (cluster id : str) (l : list Service) (fs : list ServiceForward) (w : nat → World) (n : nat) (m : Manager) :
  of_session id m = Some fs → NoDup (keys fs) → Forall listed l → NoDup (svc_key <$> l) →
  ∃ fs', of_session id (run (watch_loop unix cluster id None (Init :: (InitApply <$> l) ++ [InitDone])) w n m).2 = Some fs'
    ∧ NoDup (keys fs')
    ∧ (∀ f, f ∈ fs' → ∃ svc, svc ∈ l ∧ svc_key svc = key f ∧ sf_ports f ≡ₚ service_ports svc)
    ∧ (∀ f svc, f ∈ fs → svc ∈ l → svc_key svc = key f → sf_ports f ≡ₚ service_ports svc → service_ports svc ≠ [] → f ∈ fs').
Proof.
  intros Hs Hd Hl Hk. assert (∀ m fs, of_session id m = Some fs → bool_decide (is_Some (sessions m !! id)) = true) as Hthere.
  { clear. intros m fs Hs. apply bool_decide_eq_true_2. apply fmap_Some in Hs as (s & -> & _). by eexists. }
  cbn [watch_loop]. rewrite run_bind. cbn [run act perform]. rewrite (Hthere m fs Hs). cbn [negb].
  destruct (run_applies cluster id l ∅ [InitDone] fs w (S n) m Hs Hd Hl Hk) as (fs1 & n1 & m1 & -> & Hs1 & [F1 F2 F3 F4]).
  cbn [watch_loop]. rewrite run_bind. cbn [run act perform]. rewrite (Hthere m1 fs1 Hs1). cbn [negb]. rewrite run_bind.
  unfold watch_reconcile_init. rewrite run_bind. cbn [run act perform]. set (seen := _ ∪ ∅).
  set (stale := match sessions m1 !! id with Some _ => _ | None => _ end).
  assert (∀ k, k ∈ stale ↔ k ∈ keys fs1 ∧ k ∉ seen) as Hst.
  { intros k. unfold stale. apply fmap_Some in Hs1 as (s & -> & ->). rewrite list_elem_of_filter. unfold keys, key. tauto. }
  pose proof (run_teardowns id stale w (S (S n1)) m1 fs1 Hs1 F1) as Ht. destruct (run (teardown_services id stale) w _ m1) as [[u n2] m2].
  cbn [snd] in Ht. cbn [run snd]. exists (filter (λ f, key f ∉ stale) fs1). split; [exact Ht|].
  assert (∀ f, f ∈ filter (λ f, key f ∉ stale) fs1 ↔ f ∈ fs1 ∧ key f ∈ svc_key <$> l) as Hin.
  { intros f. rewrite list_elem_of_filter, Hst. unfold seen. rewrite elem_of_union, elem_of_list_to_set. split.
    - intros [Hn Hf]. split; [done|]. destruct (decide (key f ∈ svc_key <$> l)) as [|Hno]; [done|]. exfalso. apply Hn.
      split; [by apply list_elem_of_fmap_2|set_solver].
    - intros [Hf Hkey]. split; [|done]. intros [_ Hno]. apply Hno. by left. }
  split_and!.
  - by apply filter_keys.
  - intros f [Hf (svc & Hkey & Hsvc)%list_elem_of_fmap]%Hin. exists svc. split_and!; [done|done|]. by apply F2.
  - intros f svc Hf Hsvc Hkey Hports Hne. apply Hin. split; [by apply (F4 svc)|]. rewrite <- Hkey. by apply list_elem_of_fmap_2.
Qed.
End Runs.

(** ** Concrete runs *)

Import Samples.


(** A service that is enabled again gets a second address; its session is replaced, and the
    first address, its alias and its lines stay with nobody to take them back. *)
Lemma reenabled_service_leaks :
  let m := alone the_web (λ _, good) (alone the_web (λ _, good) (fresh false)) in
  in_sessions m = [Ipv4 127 1 0 2] ∧ elements (used (allocator m)) ≡ₚ [Ipv4 127 1 0 1; Ipv4 127 1 0 2]
  ∧ used (allocator (alone (disable web_id) (λ _, good) m)) = {[Ipv4 127 1 0 1]}.
Proof. vm_compute. split_and!; [done|apply Permutation_refl || apply perm_swap|done]. Qed.

(** A service that is in two sessions has its listeners once: disabling one session stops those of
    the other, whose lines stay in the hosts file. *)
Lemma shared_listeners_stop :
  let m := alone (disable web_id) (λ _, good) (alone the_web (λ _, good) (alone the_shop (λ _, good) (fresh false))) in
  by_id m = ∅ ∧ in_sessions m = [Ipv4 127 1 0 1]
  ∧ (λ e, (he_ip e, length (he_hostnames e))) <$> all_host_entries (in_order good (sessions m)) = [(Ipv4 127 1 0 1, 4)].
Proof. vm_compute. done. Qed.

(** The hosts file cannot be written: a namespace is rolled back, a single service stays. *)
Lemma refused_service_stays :
  let w n := if n <? 5 then good else refusing in
  (∃ e, (run the_web w 0 (fresh false)).1.1 = Err e) ∧ in_sessions (alone the_web w (fresh false)) = [Ipv4 127 1 0 1]
  ∧ in_sessions (alone the_shop w (fresh false)) = [].
Proof. vm_compute. split_and!; [by eexists|done|done]. Qed.

(** A watch that is aborted while it starts a service leaves the address in use: nothing that runs
    or is kept has it. *)
Definition cut_short : System :=
  let s := start true (EnableNamespace (lit "c") (lit "shop")) (initial true) in
  let none := {| w_spawn := Ok (); w_ping := Answered Pong; w_purge := Answered (Purged []); w_reply := Answered ROk; w_bound := true;
                 w_listed := Ok []; w_got := Ok web; w_started := Ok (); w_order := [] |} in
  let s := actions none [Apply web] 0 10 s in
  let s := actions good [] 1 3 s in
  actions good [] 2 10 (start true (Disable shop_id) s).

Lemma aborted_watch_leaks :
  ∃ s, reachable true true s ∧ tasks s = ∅ ∧ sessions (mgr s) = ∅ ∧ used (allocator (mgr s)) = {[Ipv4 127 1 0 1]}.
Proof.
  destruct (tasks cut_short !! 1) as [k|] eqn:Hk; [|by vm_compute in Hk]. exists (kill 1 k cut_short). split; [|vm_compute in Hk; injection Hk as <-; vm_compute; done].
  eapply rtc_r; [|eapply step_abort; [exact Hk|vm_compute in Hk; by injection Hk as <-]].
  unfold cut_short. etrans; [|apply actions_rtc]. eapply rtc_r; [|apply step_start]. etrans; [|apply actions_rtc].
  etrans; [|apply actions_rtc]. apply rtc_once, step_start.
Qed.

(** Two sessions that are disabled at a time: the entries of the one are taken while the other is
    there and applied when it has gone, and its lines stay. *)
Definition crossed : System :=
  let s := {| mgr := alone the_shop (λ _, good) (alone the_web (λ _, good) (fresh false)); tasks := ∅; lost := ∅ |} in
  let s := start true (Disable shop_id) (start true (Disable web_id) s) in
  let s := actions good [] 0 5 s in
  let s := actions good [] 1 10 s in
  actions good [] 0 10 s.

Lemma stale_hosts_win :
  tasks crossed = ∅ ∧ sessions (mgr crossed) = ∅
  ∧ ((λ q, match q.1 with HostsApply es => he_ip <$> es | _ => [] end) <$> last (calls (mgr crossed))) = Some [Ipv4 127 1 0 2].
Proof. vm_compute. done. Qed.

(** A listener that the helper does not pass in time leaves the client in use, with the reply
    still to come, where the comment of [broken] says that whatever makes the stream unusable
    marks it. *)
Lemma late_listener_keeps_client ip port w m : helper (perform (Prebind ip port) w m).2 = helper m.
Proof. simpl. by destruct (helper m) eqn:H. Qed.

(** A helper that is spawned in the place of one that hung is told the names of every session and
    the addresses of none but the new one. *)
Lemma respawned_helper_lacks_aliases :
  let m := alone the_shop (λ n, if n =? 4 then hung else good) (alone the_web (λ _, good) (fresh false)) in
  let m' := alone the_shop (λ _, good) m in
  helper m = None ∧ in_sessions m' = [Ipv4 127 1 0 2; Ipv4 127 1 0 1]
  ∧ omap (λ q, match q with (AddLoopback ip, Some ROk) => Some ip | _ => None end) (drop (length (calls m)) (calls m')) = [Ipv4 127 1 0 2].
Proof. vm_compute. done. Qed.



Lemma disabled_is_gone_witness :
  let m := alone the_shop (λ _, good) (alone the_web (λ _, good) (fresh false)) in
  let m' := (run (disable web_id) (λ _, good) 0 m).2 in
  sessions m' = delete web_id (sessions m) ∧ used (allocator m') = {[Ipv4 127 1 0 2]}.
Proof.
  intros m m'. destruct (sessions m !! web_id) as [gs|] eqn:Hs; [|by vm_compute in Hs].
  split; [exact (proj1 (disabled_is_gone (λ _, good) 0 m web_id gs Hs))|vm_compute; reflexivity].
Defined.

Lemma relist_settles_witness :
  let api := {| svc_name := Some (lit "api"); svc_namespace := Some (lit "shop"); svc_ports := Some [9000%Z] |} in
  let m := alone the_shop (λ _, good) (fresh true) in
  let m' := (run (watch_loop true (lit "c") shop_id None (Init :: (InitApply <$> [api]) ++ [InitDone])) (λ _, good) 0 m).2 in
  (keys <$> of_session shop_id m) = Some [(lit "shop", lit "web")] ∧ (keys <$> of_session shop_id m') = Some [(lit "shop", lit "api")]
  ∧ ∃ fs', of_session shop_id m' = Some fs' ∧ NoDup (keys fs').
Proof.
  intros api. assert (Forall listed [api]) as Hl.
  { constructor; [|constructor]. split; [exists (lit "api"); reflexivity|]. exists (lit "shop"). split; [reflexivity|discriminate]. }
  assert (NoDup (svc_key <$> [api])) as Hk by (vm_compute; apply NoDup_singleton). intros m m'.
  split; [vm_compute; reflexivity|]. split; [vm_compute; reflexivity|].
  assert (∃ fs, of_session shop_id m = Some fs ∧ NoDup (keys fs)) as (fs & Hs & Hd)
    by (eexists; split; [vm_compute; reflexivity|vm_compute; apply NoDup_singleton]).
  destruct (relist_settles true (lit "c") shop_id [api] fs (λ _, good) 0 m Hs Hd Hl Hk) as (fs' & Hr & Hd' & _).
  exists fs'. split; [exact Hr|exact Hd'].
Defined.
