(* ===== verification/Cron.v ===== *)
(** * Cron schedules (kube-ext/src/cron_schedule.rs)

    Parsing of the five-field expressions into bit sets, the day rule, the search
    for the next fire, and its conversion through a time zone.  Dates, the time
    zone database and rendering are chrono's: they are the class [Calendar] and
    the context of the section [Zones]. *)

From S2P Require Import Prelude.

(** [None] of the source, and an arithmetic overflow. *)
Inductive stop : Set := Nothing | Panic.

Definition some_or {A} (o : option A) : result A stop :=
  match o with Some a => Ok a | None => Err Nothing end.

(** ** Fields *)

Definition STAR : str := lit "*".

Definition QUESTION : str := lit "?".

Definition is_star (range : str) : bool := (range =s STAR) || (range =s QUESTION).

Fixpoint position (names : list str) (lower : str) : option N :=
  match names with
  | [] => None
  | n :: names' => if n =s lower then Some 0%N else N.succ <$> position names' lower
  end.

Definition parse_value (raw : str) (min max : N) (names : option (list str)) : option N :=
  let raw := trim raw in
  match parse_u32 raw with
  | Some n => if ((min <=? n) && (n <=? max))%N then Some n else None
  | None =>
      names ← names;
      i ← position names (str_to_ascii_lowercase raw);
      Some (i + min)%N
  end.

(** The part before [/], and the clamped step. *)
Definition part_step (part : str) (min max : N) : option (str * N) :=
  match split_once SLASH part with
  | Some (r, s) =>
      n ← parse_u32 s;
      if (0 <? n)%N then Some (r, N.min n (max - min + 1)) else None
  | None => Some (part, 1%N)
  end.

Definition part_range (range : str) (step min max : N) (names : option (list str)) : option (N * N) :=
  if is_star range then Some (min, max)
  else match split_once HYPHEN range with
       | Some (a, b) =>
           lo ← parse_value a min max names;
           hi ← parse_value b min max names;
           Some (lo, hi)
       | None =>
           v ← parse_value range min max names;
           Some (if (1 <? step)%N then (v, max) else (v, v))
       end.

(** First value, last value and step of one comma part. *)
Definition parse_part (part : str) (min max : N) (names : option (list str)) : option (N * N * N) :=
  let part := trim part in
  if bool_decide (part = []) then None
  else
    '(range, step) ← part_step part min max;
    '(lo, hi) ← part_range range step min max names;
    if (hi <? lo)%N then None else Some (lo, hi, step).

(** [while v <= hi { bits |= 1 << v; v += step }] on [u32]s; [fuel] bounds the
    rounds. *)
Fixpoint walk (fuel : nat) (v hi step bits : N) : result N stop :=
  match fuel with
  | O => Ok bits
  | S fuel =>
      if (v <=? hi)%N then
        let bits := N.lor bits (N.shiftl 1 v) in
        if (u32_max <? v + step)%N then Err Panic else walk fuel (v + step)%N hi step bits
      else Ok bits
  end.

Fixpoint parse_parts (parts : list str) (min max : N) (names : option (list str)) (bits : N)
    : result N stop :=
  match parts with
  | [] => Ok bits
  | part :: parts' =>
      match parse_part part min max names with
      | None => Err Nothing
      | Some (lo, hi, step) =>
          bits <-? walk (S (N.to_nat (hi - lo + 1))) lo hi step bits;
          parse_parts parts' min max names bits
      end
  end.

Definition parse_field (field : str) (min max : N) (names : option (list str)) : result N stop :=
  bits <-? parse_parts (split_char COMMA field) min max names 0%N;
  if (bits =? 0)%N then Err Nothing else Ok bits.

Definition is_restricted (field : str) : bool :=
  negb (existsb (λ part, is_star (match split_once SLASH (trim part) with
                                  | Some (r, _) => r
                                  | None => trim part
                                  end))
                (split_char COMMA field)).

Definition bit_set (bits n : N) : bool := negb (N.land bits (N.shiftl 1 n) =? 0)%N.

Definition normalize_dow (bits : N) : N :=
  if bit_set bits 7 then N.lor (N.ldiff bits (N.shiftl 1 7)) 1 else bits.

(** ** Schedules *)

Record CronSchedule : Set := {
  minutes : N;
  hours : N;
  doms : N;
  months : N;
  dows : N;
  dom_restricted : bool;
  dow_restricted : bool
}.

Definition MONTH_NAMES : list str :=
  lit <$> ["jan"; "feb"; "mar"; "apr"; "may"; "jun"; "jul"; "aug"; "sep"; "oct"; "nov"; "dec"]%string.

Definition DOW_NAMES : list str := lit <$> ["sun"; "mon"; "tue"; "wed"; "thu"; "fri"; "sat"]%string.

(** [uW::try_from] of a [u128]. *)
Definition try_from (w : N) (bits : N) : result N stop :=
  if (bits <? 2 ^ w)%N then Ok bits else Err Nothing.

Definition parse_fields (expr : str) : result CronSchedule stop :=
  match split_whitespace expr with
  | [f0; f1; f2; f3; f4] =>
      minutes <-? parse_field f0 0 59 None;
      hours <-? (bits <-? parse_field f1 0 23 None; try_from 32 bits);
      doms <-? (bits <-? parse_field f2 1 31 None; try_from 32 bits);
      months <-? (bits <-? parse_field f3 1 12 (Some MONTH_NAMES); try_from 16 bits);
      dows <-? (bits <-? parse_field f4 0 7 (Some DOW_NAMES); try_from 8 (normalize_dow bits));
      Ok {| minutes := (minutes mod 2 ^ 64)%N; hours := hours; doms := doms; months := months;
            dows := dows; dom_restricted := is_restricted f2; dow_restricted := is_restricted f4 |}
  | _ => Err Nothing
  end.

Definition expand_macro (name : str) : option str :=
  if (name =s "yearly") || (name =s "annually") then Some (lit "0 0 1 1 *")
  else if name =s "monthly" then Some (lit "0 0 1 * *")
  else if name =s "weekly" then Some (lit "0 0 * * 0")
  else if (name =s "daily") || (name =s "midnight") then Some (lit "0 0 * * *")
  else if name =s "hourly" then Some (lit "0 * * * *")
  else None.

Definition parse (expr : str) : result CronSchedule stop :=
  let expr := trim expr in
  if bool_decide (expr = []) then Err Nothing
  else match strip_prefix (lit "@") expr with
       | Some macro_name =>
           expanded <-? some_or (expand_macro (str_to_ascii_lowercase macro_name));
           parse_fields expanded
       | None => parse_fields expr
       end.

(** ** Dates *)

(** chrono's [NaiveDate]: [ord] is the day number. *)
Class Calendar (Date : Type) : Type := {
  month : Date → N;
  day : Date → N;
  weekday : Date → N;
  succ_opt : Date → option Date;
  ord : Date → Z;
  ord_inj : ∀ d d', ord d = ord d' → d = d';
  ord_succ : ∀ d d', succ_opt d = Some d' → ord d' = (ord d + 1)%Z;
  ord_last : ∀ d, succ_opt d = None → ∀ d', (ord d' ≤ ord d)%Z
}.

Record NaiveDateTime (Date : Type) : Type := {
  date : Date; hour : N; minute : N; second : N; nano : N
}.

Arguments Build_NaiveDateTime {Date} date hour minute second nano.
Arguments date {Date} n.
Arguments hour {Date} n.
Arguments minute {Date} n.
Arguments second {Date} n.
Arguments nano {Date} n.

Definition MAX_LOOKAHEAD_DAYS : nat := 5 * 366.

Section Search.
Context {Date : Type} `{!Calendar Date}.

Definition matches_date (s : CronSchedule) (d : Date) : bool :=
  if negb (bit_set (months s) (month d)) then false
  else
    let dom_hit := bit_set (doms s) (day d) in
    let dow_hit := bit_set (dows s) (weekday d) in
    if dom_restricted s && dow_restricted s then dom_hit || dow_hit else dom_hit && dow_hit.

(** The minute after the one the time falls in. *)
Definition next_minute (t : NaiveDateTime Date) : result (NaiveDateTime Date) stop :=
  if (minute t <? 59)%N then Ok (Build_NaiveDateTime (date t) (hour t) (minute t + 1) 0 0)
  else if (hour t <? 23)%N then Ok (Build_NaiveDateTime (date t) (hour t + 1) 0 0 0)
  else match succ_opt (date t) with
       | Some d => Ok (Build_NaiveDateTime d 0 0 0 0)
       | None => Err Panic
       end.

Definition and_hms_opt (d : Date) (h m s : N) : option (NaiveDateTime Date) :=
  if ((h <? 24) && (m <? 60) && (s <? 60))%N then Some (Build_NaiveDateTime d h m s 0) else None.

(** [for m in from_minute..24 * 60]: [n] minutes are left. *)
Fixpoint find_minute (s : CronSchedule) (n : nat) (m : N) : option (N * N) :=
  match n with
  | O => None
  | S n =>
      let '(h, min) := (m / 60, m mod 60)%N in
      if bit_set (hours s) h && bit_set (minutes s) min then Some (h, min)
      else find_minute s n (m + 1)%N
  end.

Fixpoint scan_days (s : CronSchedule) (n : nat) (d : Date) (from_minute : N)
    : result (NaiveDateTime Date) stop :=
  match n with
  | O => Err Nothing
  | S n =>
      match (if matches_date s d then find_minute s (N.to_nat (24 * 60 - from_minute)) from_minute
             else None) with
      | Some (h, min) => some_or (and_hms_opt d h min 0)
      | None =>
          match succ_opt d with
          | None => Err Nothing
          | Some d' => scan_days s n d' 0
          end
      end
  end.

Definition next_after (s : CronSchedule) (after : NaiveDateTime Date)
    : result (NaiveDateTime Date) stop :=
  start <-? next_minute after;
  scan_days s MAX_LOOKAHEAD_DAYS (date start) (hour start * 60 + minute start)%N.
End Search.

Section Zones.
Context {Date : Type} `{!Calendar Date}.
(** chrono_tz: the zone of a name, the instants of a local time, the local
    time of an instant; [Utc] is a zone too. *)
Context {Tz Instant : Type}.
Context (parse_tz : str → option Tz) (Utc : Tz).
Context (earliest : Tz → NaiveDateTime Date → option Instant).
Context (naive_local : Tz → Instant → NaiveDateTime Date).
Context (plus_minutes : NaiveDateTime Date → N → NaiveDateTime Date).
Context (to_rfc3339 : Instant → str).
(** [Utc.from_utc_datetime]. *)
Context (from_utc : NaiveDateTime Date → Instant).

Fixpoint probe (tz : Tz) (naive : NaiveDateTime Date) (n : nat) (m : N) : option Instant :=
  match n with
  | O => None
  | S n =>
      match earliest tz (plus_minutes naive m) with
      | Some dt => Some dt
      | None => probe tz naive n (m + 1)%N
      end
  end.

Definition resolve_local (tz : Tz) (naive : NaiveDateTime Date) : option Instant :=
  match earliest tz naive with
  | Some dt => Some dt
  | None => probe tz naive 180 1
  end.

Definition next_run_rfc3339 (schedule : str) (time_zone : option str) (now : Instant)
    : result str stop :=
  parsed <-? parse schedule;
  match time_zone with
  | None =>
      t <-? next_after parsed (naive_local Utc now);
      Ok (to_rfc3339 (from_utc t))
  | Some tz_name =>
      tz <-? some_or (parse_tz tz_name);
      next_local <-? next_after parsed (naive_local tz now);
      resolved <-? some_or (resolve_local tz next_local);
      Ok (to_rfc3339 resolved)
  end.
End Zones.

(** ** Bits *)

Lemma bit_set_testbit (bits n : N) : bit_set bits n = N.testbit bits n.
Proof.
  unfold bit_set. rewrite N.shiftl_1_l.
  assert (N.land bits (2 ^ n) = if N.testbit bits n then 2 ^ n else 0)%N as ->.
  { apply N.bits_inj. intros i. rewrite N.land_spec, N.pow2_bits_eqb.
    destruct (N.eqb_spec n i) as [->|Hne].
    - rewrite andb_true_r. destruct (N.testbit bits i) eqn:E; [|by rewrite N.bits_0].
      by rewrite N.pow2_bits_true.
    - rewrite andb_false_r. destruct (N.testbit bits n); [|by rewrite N.bits_0].
      by rewrite N.pow2_bits_false. }
  destruct (N.testbit bits n); [|done]. apply negb_true_iff, N.eqb_neq, N.pow_nonzero. done.
Qed.

(** All bits of [bits] are in [lo..=hi]. *)
Definition bits_in (lo hi bits : N) : Prop :=
  ∀ n, N.testbit bits n = true → (lo ≤ n ≤ hi)%N.

Lemma bits_in_lt (lo hi bits w : N) : (hi < w)%N → bits_in lo hi bits → (bits < 2 ^ w)%N.
Proof.
  intros Hw Hb. destruct (decide (bits = 0%N)) as [->|Hne].
  { pose proof (N.pow_nonzero 2 w). lia. }
  apply N.log2_lt_pow2; [lia|]. pose proof (Hb (N.log2 bits) (N.bit_log2 bits Hne)). lia.
Qed.

Definition in_step (lo hi step n : N) : Prop := (lo ≤ n ≤ hi ∧ (n - lo) mod step = 0)%N.

#[export] Instance in_step_dec lo hi step n : Decision (in_step lo hi step n) := _.

Lemma in_step_next (lo hi step n : N) :
  (0 < step)%N → in_step lo hi step n ↔ n = lo ∧ (lo ≤ hi)%N ∨ in_step (lo + step) hi step n.
Proof.
  intros Hs. unfold in_step. split.
  - intros [[Hlo Hhi] Hm]. destruct (decide (n = lo)) as [->|Hne]; [by left|right].
    assert (step ≤ n - lo)%N.
    { destruct (N.lt_ge_cases (n - lo) step) as [Hlt|]; [|done]. rewrite N.mod_small in Hm by done. lia. }
    split; [lia|]. replace (n - (lo + step))%N with (n - lo - step)%N by lia.
    rewrite <- Hm. rewrite <- (N.Div0.mod_add (n - lo - step) 1 step). f_equal. lia.
  - intros [[-> Hle]|[[Hlo Hhi] Hm]].
    + split; [lia|]. by rewrite N.sub_diag, N.Div0.mod_0_l.
    + split; [lia|]. rewrite <- Hm. rewrite <- (N.Div0.mod_add (n - (lo + step)) 1 step). f_equal. lia.
Qed.

(** The walk sets exactly the stepped values, within [hi - v + 1] rounds and
    without overflow. *)
Lemma walk_spec (fuel : nat) (v hi step bits : N) :
  (0 < step)%N → (hi + step ≤ u32_max)%N → N.to_nat (hi + 1 - v) < fuel →
  ∃ bits', walk fuel v hi step bits = Ok bits' ∧
    ∀ n, N.testbit bits' n = true ↔ N.testbit bits n = true ∨ in_step v hi step n.
Proof.
  intros Hs Hmax. revert v bits. induction fuel as [|fuel IH]; intros v bits Hf; [lia|]. simpl.
  destruct (N.leb_spec v hi) as [Hle|Hgt].
  - rewrite (proj2 (N.ltb_ge u32_max _)) by lia.
    destruct (IH (v + step)%N (N.lor bits (N.shiftl 1 v))) as (bits' & -> & Hb); [lia|].
    exists bits'. split; [done|]. intros n. rewrite Hb, N.lor_spec, orb_true_iff, (in_step_next v) by done.
    rewrite N.shiftl_1_l, N.pow2_bits_eqb, N.eqb_eq. intuition (subst; auto).
  - eexists. split; [done|]. intros n. unfold in_step. intuition lia.
Qed.

(** ** Fields stay in their domain *)

(** A field's domain: small, and with as many names as values at most. *)
Definition domain (min max : N) (names : option (list str)) : Prop :=
  (min ≤ max ∧ max < 128 ∧ N.of_nat (length (default [] names)) + min ≤ max + 1)%N.

#[export] Instance domain_dec min max names : Decision (domain min max names) := _.

Lemma position_lt (names : list str) (x : str) (i : N) :
  position names x = Some i → (i < N.of_nat (length names))%N.
Proof.
  revert i. induction names as [|n names IH]; intros i; simpl; [done|]. case_match.
  - intros [= <-]. lia.
  - intros (j & Hj & ->)%fmap_Some. specialize (IH j Hj). lia.
Qed.

Lemma parse_value_in (raw : str) (min max : N) (names : option (list str)) (v : N) :
  domain min max names → parse_value raw min max names = Some v → (min ≤ v ≤ max)%N.
Proof.
  intros (H1 & H2 & H3). unfold parse_value. destruct (parse_u32 (trim raw)).
  - case_match; [|done]. intros [= <-]. bool_to_prop. lia.
  - destruct names as [names|]; simpl in *; [|done].
    destruct (position _ _) as [i|] eqn:E; simpl; [|done]. intros [= <-].
    apply position_lt in E. lia.
Qed.

Lemma parse_part_in (part : str) (min max : N) (names : option (list str)) (lo hi step : N) :
  domain min max names → parse_part part min max names = Some (lo, hi, step) →
  (min ≤ lo ∧ lo ≤ hi ∧ hi ≤ max ∧ 1 ≤ step ≤ max - min + 1)%N.
Proof.
  intros Hd. unfold parse_part. case_bool_decide; [done|].
  destruct (part_step _ _ _) as [[range s]|] eqn:Es; simpl; [|done].
  destruct (part_range _ _ _ _ _) as [[l h]|] eqn:Er; simpl; [|done].
  case_match; [done|]. intros [= -> -> ->]. bool_to_prop.
  assert (1 ≤ step ≤ max - min + 1)%N.
  { unfold part_step in Es. destruct (split_once _ _) as [[r' s']|].
    - destruct (parse_u32 s') as [n|]; simpl in Es; [|done]. case_match; [|done]. simplify_eq.
      bool_to_prop. lia.
    - simplify_eq. lia. }
  assert (min ≤ lo ∧ hi ≤ max)%N; [|lia]. pose proof Hd as (Hd1 & _).
  unfold part_range in Er. case_match; [simplify_eq; lia|].
  destruct (split_once HYPHEN range) as [[a b]|].
  - destruct (parse_value a _ _ _) eqn:Ea; simpl in Er; [|done].
    destruct (parse_value b _ _ _) eqn:Eb; simpl in Er; [|done]. simplify_eq.
    apply parse_value_in in Ea, Eb; [lia|done..].
  - destruct (parse_value range _ _ _) eqn:Ea; simpl in Er; [|done].
    apply parse_value_in in Ea; [|done]. case_match; simplify_eq; lia.
Qed.

(** The values a field denotes. *)
Definition denotes (field : str) (min max : N) (names : option (list str)) (n : N) : Prop :=
  ∃ part lo hi step, part ∈ split_char COMMA field
    ∧ parse_part part min max names = Some (lo, hi, step) ∧ in_step lo hi step n.

Lemma parse_parts_spec (parts : list str) (min max : N) (names : option (list str)) (bits : N) :
  domain min max names →
  match parse_parts parts min max names bits with
  | Ok bits' => Forall (λ p, is_Some (parse_part p min max names)) parts ∧
      ∀ n, N.testbit bits' n = true ↔ N.testbit bits n = true ∨
        ∃ part lo hi step, part ∈ parts ∧ parse_part part min max names = Some (lo, hi, step)
                           ∧ in_step lo hi step n
  | Err Nothing => ∃ part, part ∈ parts ∧ parse_part part min max names = None
  | Err Panic => False
  end.
Proof.
  intros Hd. revert bits. induction parts as [|p parts IH]; intros bits; cbn [parse_parts].
  - split; [done|]. intros n. set_solver.
  - destruct (parse_part p min max names) as [[[lo hi] step]|] eqn:Ep; [|exists p; set_solver].
    pose proof (parse_part_in _ _ _ _ _ _ _ Hd Ep) as Hin. destruct Hd as (_ & Hmax & _).
    destruct (walk_spec (S (N.to_nat (hi - lo + 1))) lo hi step bits) as (bits1 & -> & H1);
      [lia|unfold u32_max; lia|lia|]. cbn [result_bind].
    specialize (IH bits1). destruct (parse_parts _ _ _ _ _) as [bits'|[]]; [|set_solver|done].
    destruct IH as [HF IH]. split; [constructor; [by eexists|done]|].
    intros n. rewrite IH, H1. split.
    + intros [[?|?]|(q & l & h & s & ? & ? & ?)]; [by left|right..].
      * exists p, lo, hi, step. set_solver.
      * exists q, l, h, s. set_solver.
    + intros [?|(q & l & h & s & [->|?]%elem_of_cons & ? & ?)]; [by left; left|..].
      * left; right. naive_solver.
      * right. exists q, l, h, s. done.
Qed.

Lemma denotes_in (field : str) (min max : N) (names : option (list str)) (n : N) :
  domain min max names → denotes field min max names n → (min ≤ n ≤ max)%N.
Proof.
  intros Hd (p & lo & hi & step & _ & Hp & [? _]). apply parse_part_in in Hp; [|done]. lia.
Qed.

Lemma parse_field_spec (field : str) (min max : N) (names : option (list str)) :
  domain min max names →
  match parse_field field min max names with
  | Ok bits => bits ≠ 0%N ∧ bits_in min max bits
      ∧ ∀ n, N.testbit bits n = true ↔ denotes field min max names n
  | Err Nothing => ∃ part, part ∈ split_char COMMA field ∧ parse_part part min max names = None
  | Err Panic => False
  end.
Proof.
  intros Hd. unfold parse_field.
  pose proof (parse_parts_spec (split_char COMMA field) min max names 0 Hd) as H.
  destruct (parse_parts _ _ _ _ _) as [bits|[]]; cbn [result_bind]; [|done..]. destruct H as [HF H].
  assert (∀ n, N.testbit bits n = true ↔ denotes field min max names n) as Hden.
  { intros n. rewrite H, N.bits_0. unfold denotes. naive_solver. }
  assert (bits ≠ 0%N) as Hne.
  { intros ->. destruct (split_char COMMA field) as [|p ps] eqn:E.
    { by apply split_by_nonempty in E. }
    apply Forall_cons in HF as [[[[lo hi] step] Hp] _].
    pose proof (parse_part_in _ _ _ _ _ _ _ Hd Hp).
    assert (N.testbit 0 lo = true) as Hb; [|by rewrite N.bits_0 in Hb].
    apply H. right. exists p, lo, hi, step. unfold in_step.
    split_and!; [by left|done|lia|lia|]. by rewrite N.sub_diag, N.Div0.mod_0_l. }
  destruct (N.eqb_spec bits 0) as [|_]; [done|]. split_and!; [done| |done].
  intros n Hn. apply Hden in Hn. by eapply denotes_in.
Qed.

(** ** Schedules are well formed *)

Record schedule_wf (s : CronSchedule) : Prop := {
  wf_minutes : minutes s ≠ 0%N ∧ bits_in 0 59 (minutes s);
  wf_hours : hours s ≠ 0%N ∧ bits_in 0 23 (hours s);
  wf_doms : doms s ≠ 0%N ∧ bits_in 1 31 (doms s);
  wf_months : months s ≠ 0%N ∧ bits_in 1 12 (months s);
  wf_dows : dows s ≠ 0%N ∧ bits_in 0 6 (dows s)
}.

Lemma normalize_dow_bits (bits n : N) :
  N.testbit (normalize_dow bits) n = true ↔
  n ≠ 7%N ∧ (N.testbit bits n = true ∨ n = 0%N ∧ N.testbit bits 7 = true).
Proof.
  unfold normalize_dow. rewrite bit_set_testbit. destruct (N.testbit bits 7) eqn:E7.
  - rewrite N.lor_spec, N.ldiff_spec, N.shiftl_1_l, N.pow2_bits_eqb. change 1%N with (2 ^ 0)%N.
    rewrite N.pow2_bits_eqb, orb_true_iff, andb_true_iff, negb_true_iff, N.eqb_eq, N.eqb_neq.
    intuition (subst; auto; lia).
  - split; [|by intros [_ [?|[_ ?]]]]. intros H. split; [intros ->; congruence|by left].
Qed.

Lemma normalize_dow_in (bits : N) :
  bits ≠ 0%N → bits_in 0 7 bits →
  normalize_dow bits ≠ 0%N ∧ bits_in 0 6 (normalize_dow bits).
Proof.
  intros Hne Hb. split.
  - pose proof (N.bit_log2 bits Hne) as Hl. intros H0.
    assert (∀ n, N.testbit (normalize_dow bits) n = true → False) as Hno.
    { intros n. by rewrite H0, N.bits_0. }
    destruct (decide (N.log2 bits = 7%N)) as [H7|H7].
    + apply (Hno 0%N), normalize_dow_bits. rewrite H7 in Hl. auto.
    + apply (Hno (N.log2 bits)), normalize_dow_bits. auto.
  - intros n [Hn7 Hn]%normalize_dow_bits. destruct Hn as [Hn|[-> _]]; [|lia]. specialize (Hb n Hn). lia.
Qed.

Lemma try_from_in (lo hi bits w : N) :
  (hi < w)%N → bits_in lo hi bits → try_from w bits = Ok bits.
Proof.
  intros Hw Hb. unfold try_from. rewrite (proj2 (N.ltb_lt _ _)); [done|]. by eapply bits_in_lt.
Qed.

(** One field with its width: the conversion cannot fail. *)
Lemma parse_field_width (field : str) (min max w : N) (names : option (list str)) :
  domain min max names → (max < w)%N →
  match (bits <-? parse_field field min max names; try_from w bits) with
  | Ok bits => bits ≠ 0%N ∧ bits_in min max bits
  | Err e => e = Nothing
  end.
Proof.
  intros Hd Hw. pose proof (parse_field_spec field min max names Hd) as H.
  destruct (parse_field _ _ _ _) as [bits|[]]; cbn [result_bind]; [|done..].
  destruct H as (? & Hb & _). by erewrite try_from_in.
Qed.

Lemma parse_dow_width (field : str) (names : option (list str)) :
  domain 0 7 names →
  match (bits <-? parse_field field 0 7 names; try_from 8 (normalize_dow bits)) with
  | Ok bits => bits ≠ 0%N ∧ bits_in 0 6 bits
  | Err e => e = Nothing
  end.
Proof.
  intros Hd. pose proof (parse_field_spec field 0 7 names Hd) as H.
  destruct (parse_field _ _ _ _) as [bits|[]]; cbn [result_bind]; [|done..].
  destruct H as (? & Hb & _). destruct (normalize_dow_in bits) as [? Hn]; [done..|].
  by rewrite (try_from_in 0 6) by (done || lia).
Qed.

Lemma minutes_width (field : str) :
  match (bits <-? parse_field field 0 59 None; Ok (bits mod 2 ^ 64)%N) with
  | Ok bits => bits ≠ 0%N ∧ bits_in 0 59 bits
  | Err e => e = Nothing
  end.
Proof.
  pose proof (parse_field_spec field 0 59 None) as H. specialize (H ltac:(decided)).
  destruct (parse_field _ _ _ _) as [bits|[]]; cbn [result_bind]; [|done..].
  destruct H as (? & Hb & _). by rewrite N.mod_small by (apply (bits_in_lt 0 59); [lia|done]).
Qed.

Lemma parse_fields_wf (expr : str) :
  match parse_fields expr with Ok s => schedule_wf s | Err e => e = Nothing end.
Proof.
  unfold parse_fields. destruct (split_whitespace expr) as [|f0 [|f1 [|f2 [|f3 [|f4 [|]]]]]]; try done.
  pose proof (minutes_width f0) as H0.
  pose proof (parse_field_width f1 0 23 32 None ltac:(decided) eq_refl) as H1.
  pose proof (parse_field_width f2 1 31 32 None ltac:(decided) eq_refl) as H2.
  pose proof (parse_field_width f3 1 12 16 (Some MONTH_NAMES) ltac:(decided) eq_refl) as H3.
  pose proof (parse_dow_width f4 (Some DOW_NAMES) ltac:(decided)) as H4.
  destruct (parse_field f0 _ _ _); cbn [result_bind] in *; [|done].
  destruct (result_bind (parse_field f1 _ _ _) _); cbn [result_bind]; [|done].
  destruct (result_bind (parse_field f2 _ _ _) _); cbn [result_bind]; [|done].
  destruct (result_bind (parse_field f3 _ _ _) _); cbn [result_bind]; [|done].
  destruct (result_bind (parse_field f4 _ _ _) _); cbn [result_bind]; [|done].
  by split.
Qed.

(** ** The search *)

Section SearchSpec.
Context {Date : Type} `{!Calendar Date}.

Implicit Types (t : NaiveDateTime Date) (s : CronSchedule).

(** The specification of a fire: the day rule and a minute of the day. *)
Definition fires s t : Prop :=
  matches_date s (date t) = true
  ∧ N.testbit (hours s) (hour t) = true ∧ N.testbit (minutes s) (minute t) = true
  ∧ (hour t < 24)%N ∧ (minute t < 60)%N ∧ second t = 0%N ∧ nano t = 0%N.

(** Minutes since day 0. *)
Definition at_minute t : Z := (ord (date t) * 1440 + Z.of_N (hour t) * 60 + Z.of_N (minute t))%Z.

Definition time_ok t : Prop := (hour t < 24 ∧ minute t < 60)%N.

Lemma next_minute_spec t :
  time_ok t →
  match next_minute t with
  | Ok t' => at_minute t' = (at_minute t + 1)%Z ∧ time_ok t'
  | Err e => e = Panic ∧ succ_opt (date t) = None ∧ hour t = 23%N ∧ minute t = 59%N
  end.
Proof.
  intros [Hh Hm]. unfold next_minute, at_minute, time_ok.
  destruct (N.ltb_spec (minute t) 59); simpl; [lia|].
  destruct (N.ltb_spec (hour t) 23); simpl; [lia|].
  destruct (succ_opt (date t)) as [d|] eqn:E; simpl; [|split_and!; try done; lia].
  apply ord_succ in E. rewrite E. lia.
Qed.

(** A minute of the day at which the schedule allows a fire. *)
Definition hit s (m : N) : bool := bit_set (hours s) (m / 60) && bit_set (minutes s) (m mod 60).

Lemma find_minute_spec s (n : nat) (m : N) :
  match find_minute s n m with
  | Some (h, min) => ∃ k, (m ≤ k < m + N.of_nat n)%N ∧ hit s k = true ∧ h = (k / 60)%N
      ∧ min = (k mod 60)%N ∧ ∀ j, (m ≤ j < k)%N → hit s j = false
  | None => ∀ j, (m ≤ j < m + N.of_nat n)%N → hit s j = false
  end.
Proof.
  revert m. induction n as [|n IH]; intros m; cbn [find_minute]; [lia|].
  destruct (bit_set (hours s) (m / 60) && bit_set (minutes s) (m mod 60)) eqn:E.
  - exists m. split_and!; [lia|lia|done..|]. intros; lia.
  - specialize (IH (m + 1)%N). destruct (find_minute s n (m + 1)) as [[h min]|].
    + destruct IH as (k & Hk & Hh & -> & -> & Hj). exists k. split_and!; [lia|lia|done..|].
      intros j Hjk. destruct (decide (j = m)) as [->|]; [done|]. apply Hj. lia.
    + intros j Hjk. destruct (decide (j = m)) as [->|]; [done|]. apply IH. lia.
Qed.

Lemma fires_hit s t : fires s t → hit s (hour t * 60 + minute t) = true ∧ matches_date s (date t) = true.
Proof.
  intros (Hd & Hh & Hm & Hh24 & Hm60 & _). split; [|done]. unfold hit. rewrite !bit_set_testbit.
  rewrite N.div_add_l, N.div_small, N.add_0_r by lia.
  rewrite N.add_comm, N.Div0.mod_add, N.mod_small by lia. by rewrite Hh, Hm.
Qed.

(** What the search from minute [from] of day [d] must give. *)
Definition first_from s (n : nat) (d : Date) (from : N) (r : result (NaiveDateTime Date) stop) : Prop :=
  let start := (ord d * 1440 + Z.of_N from)%Z in
  match r with
  | Ok t => fires s t ∧ (start ≤ at_minute t)%Z ∧ (ord (date t) < ord d + Z.of_nat n)%Z
            ∧ ∀ t', fires s t' → (start ≤ at_minute t')%Z → (at_minute t ≤ at_minute t')%Z
  | Err Nothing => ∀ t', fires s t' → (start ≤ at_minute t')%Z →
                         (ord d + Z.of_nat n ≤ ord (date t'))%Z
  | Err Panic => False
  end.

(** No fire on the rest of the first day. *)
Lemma day_misses s d from t' :
  (if matches_date s d then find_minute s (N.to_nat (24 * 60 - from)) from else None) = None →
  fires s t' → (ord d * 1440 + Z.of_N from ≤ at_minute t')%Z →
  ((ord d + 1) * 1440 ≤ at_minute t')%Z ∧ (ord d + 1 ≤ ord (date t'))%Z.
Proof.
  intros Hnone Hf Hge. destruct (fires_hit s t' Hf) as [Hhit Hdate].
  destruct Hf as (_ & _ & _ & Hh & Hm & _). unfold at_minute in *.
  destruct (decide (ord (date t') = ord d)) as [Heq|Hne]; [|lia]. exfalso.
  apply ord_inj in Heq. rewrite Heq in Hdate, Hge. rewrite Hdate in Hnone.
  pose proof (find_minute_spec s (N.to_nat (24 * 60 - from)) from) as Hs. rewrite Hnone in Hs.
  rewrite Hs in Hhit; [done|]. lia.
Qed.

Lemma scan_days_spec s (n : nat) (d : Date) (from : N) :
  (from ≤ 1440)%N → first_from s n d from (scan_days s n d from).
Proof.
  revert d from. induction n as [|n IH]; intros d from Hfrom; cbn [scan_days].
  - intros t' (_ & _ & _ & Hh & Hm & _). unfold at_minute. lia.
  - destruct (if matches_date s d then _ else _) as [[h min]|] eqn:E.
    + destruct (matches_date s d) eqn:Ed; [|done].
      pose proof (find_minute_spec s (N.to_nat (24 * 60 - from)) from) as Hs. rewrite E in Hs.
      destruct Hs as (k & Hk & Hhit & -> & -> & Hmin).
      assert (k / 60 < 24)%N as Hh by (apply N.Div0.div_lt_upper_bound; lia).
      assert (k mod 60 < 60)%N as Hm by (by apply N.mod_lt).
      unfold and_hms_opt. rewrite (proj2 (N.ltb_lt _ 24)), (proj2 (N.ltb_lt _ 60)) by done. simpl.
      unfold hit in Hhit. rewrite !bit_set_testbit in Hhit. bool_to_prop.
      assert (k = k / 60 * 60 + k mod 60)%N as Hk60 by (rewrite N.mul_comm; by apply N.div_mod).
      unfold first_from, at_minute; cbn [date hour minute]. split_and!; [done|lia|lia|].
      intros t' Hf' Hge. destruct (decide (ord (date t') = ord d)) as [Heq|Hne].
      * destruct (fires_hit s t' Hf') as [Hhit' _].
        destruct (decide (hour t' * 60 + minute t' < k)%N) as [Hlt|]; [|lia].
        rewrite Hmin in Hhit'; [done|lia].
      * destruct Hf' as (_ & _ & _ & ? & ? & _). lia.
    + pose proof (λ t', day_misses s d from t' E) as Hmiss.
      destruct (succ_opt d) as [d'|] eqn:Es.
      * apply ord_succ in Es. specialize (IH d' 0%N ltac:(lia)). unfold first_from in *.
        destruct (scan_days s n d' 0) as [t|[]]; [|intros t' Hf Hge|done].
        -- destruct IH as (Hf & Hge & Hlt & Hfirst). split_and!; [done|lia|lia|].
           intros t' Hf' Hge'. apply Hfirst; [done|]. destruct (Hmiss t' Hf' Hge'). lia.
        -- destruct (Hmiss t' Hf Hge). specialize (IH t' Hf). lia.
      * intros t' Hf Hge. destruct (Hmiss t' Hf Hge).
        pose proof (ord_last d Es (date t')). lia.
Qed.

(** ** Properties *)

(** C27: [next_after] gives the first fire strictly after the given time: it
    satisfies the schedule, it is later, and no fire in between is skipped;
    [None] means that no fire exists in the 1830 days searched, and nothing but
    the minute after the calendar's last one overflows. *)
Theorem next_after_first s (after : NaiveDateTime Date) :
  time_ok after →
  match next_after s after with
  | Ok t => fires s t ∧ (at_minute after < at_minute t)%Z
      ∧ ∀ t', fires s t' → (at_minute after < at_minute t')%Z → (at_minute t ≤ at_minute t')%Z
  | Err Nothing => ∀ t', fires s t' → (at_minute after < at_minute t')%Z →
      (ord (date after) + 1830 ≤ ord (date t'))%Z
  | Err Panic => succ_opt (date after) = None ∧ hour after = 23%N ∧ minute after = 59%N
  end.
Proof.
  intros Hok. unfold next_after. pose proof (next_minute_spec after Hok) as Hn.
  destruct (next_minute after) as [start|e]; cbn [result_bind]; [|by destruct Hn as (-> & ? & ? & ?)].
  destruct Hn as [Hn [Hh Hm]].
  pose proof (scan_days_spec s MAX_LOOKAHEAD_DAYS (date start) (hour start * 60 + minute start)
                ltac:(lia)) as Hs.
  unfold first_from in Hs. unfold at_minute in Hn at 1.
  change (Z.of_nat MAX_LOOKAHEAD_DAYS) with 1830%Z in Hs.
  assert (∀ t', (at_minute after < at_minute t' →
            ord (date start) * 1440 + Z.of_N (hour start * 60 + minute start) ≤ at_minute t')%Z) as Hst.
  { intros t' ?. lia. }
  destruct (scan_days _ _ _ _) as [t|[]]; [| |done].
  - destruct Hs as (Hf & Hge & _ & Hfirst). split_and!; [done|lia|auto].
  - intros t' Hf Hlt. specialize (Hs t' Hf (Hst t' Hlt)).
    destruct Hok. unfold at_minute in Hn. lia.
Qed.
End SearchSpec.

(** Parsing is total (no shift, sum or conversion overflows, whatever the
    operator wrote), and a schedule it accepts has every field non-empty and
    within its domain, so each day, hour and minute lookup is in range. *)
Lemma parse_wf (expr : str) :
  match parse expr with Ok s => schedule_wf s | Err e => e = Nothing end.
Proof.
  unfold parse. case_bool_decide; [done|]. destruct (strip_prefix _ _) as [name|].
  - destruct (expand_macro _); cbn [result_bind some_or]; [|done]. apply parse_fields_wf.
  - apply parse_fields_wf.
Qed.

(** a field is rejected exactly when one of its comma parts is malformed,
    and otherwise its bit set holds exactly the values that some part reaches from
    its first value by its step, all within the field's bounds. *)
Theorem parse_field_denotes (field : str) (min max : N) (names : option (list str)) :
  domain min max names →
  match parse_field field min max names with
  | Ok bits => bits ≠ 0%N ∧ bits_in min max bits
      ∧ ∀ n, N.testbit bits n = true ↔ denotes field min max names n
  | Err Nothing => ∃ part, part ∈ split_char COMMA field ∧ parse_part part min max names = None
  | Err Panic => False
  end.
Proof. apply parse_field_spec. Qed.

Lemma parse_field_denotes_witness :
  match parse_field (lit "9-17/4,20") 0 23 None with
  | Ok bits => bits ≠ 0%N ∧ bits_in 0 23 bits
      ∧ ∀ n, N.testbit bits n = true ↔ denotes (lit "9-17/4,20") 0 23 None n
  | Err Nothing => ∃ part, part ∈ split_char COMMA (lit "9-17/4,20") ∧ parse_part part 0 23 None = None
  | Err Panic => False
  end.
Proof. apply (parse_field_denotes (lit "9-17/4,20") 0 23 None). decided. Defined.

Section ZonesSpec.
Context {Date : Type} `{!Calendar Date} {Tz Instant : Type}.
Context (parse_tz : str → option Tz) (Utc : Tz).
Context (earliest : Tz → NaiveDateTime Date → option Instant).
Context (naive_local : Tz → Instant → NaiveDateTime Date).
Context (plus_minutes : NaiveDateTime Date → N → NaiveDateTime Date).
Context (to_rfc3339 : Instant → str) (from_utc : NaiveDateTime Date → Instant).

Lemma probe_spec (tz : Tz) (t : NaiveDateTime Date) (n : nat) (m : N) :
  match probe earliest plus_minutes tz t n m with
  | Some i => ∃ k, (m ≤ k < m + N.of_nat n)%N ∧ earliest tz (plus_minutes t k) = Some i
                   ∧ ∀ j, (m ≤ j < k)%N → earliest tz (plus_minutes t j) = None
  | None => ∀ j, (m ≤ j < m + N.of_nat n)%N → earliest tz (plus_minutes t j) = None
  end.
Proof.
  revert m. induction n as [|n IH]; intros m; cbn [probe]; [lia|].
  destruct (earliest tz (plus_minutes t m)) as [i|] eqn:E.
  - exists m. split_and!; [lia|lia|done|]. intros; lia.
  - specialize (IH (m + 1)%N). destruct (probe _ _ _ _ _ _) as [i|].
    + destruct IH as (k & Hk & Hi & Hj). exists k. split_and!; [lia|lia|done|].
      intros j Hjk. destruct (decide (j = m)) as [->|]; [done|]. apply Hj. lia.
    + intros j Hjk. destruct (decide (j = m)) as [->|]; [done|]. apply IH. lia.
Qed.

(** with a time zone, the instant shown is the local next fire, moved
    forward by the fewest minutes that make the clock time exist (none outside a
    daylight-saving gap), and nothing is shown only when three hours of clock
    times do not exist. *)
Theorem next_run_zoned (schedule tz_name : str) (now : Instant) (s : CronSchedule) (tz : Tz)
    (t : NaiveDateTime Date) :
  (∀ t, plus_minutes t 0 = t) →
  parse schedule = Ok s → parse_tz tz_name = Some tz → next_after s (naive_local tz now) = Ok t →
  match next_run_rfc3339 parse_tz Utc earliest naive_local plus_minutes to_rfc3339 from_utc
          schedule (Some tz_name) now with
  | Ok out => ∃ m i, (m ≤ 180)%N ∧ earliest tz (plus_minutes t m) = Some i
      ∧ (∀ j, (j < m)%N → earliest tz (plus_minutes t j) = None) ∧ out = to_rfc3339 i
  | Err Nothing => ∀ j, (j ≤ 180)%N → earliest tz (plus_minutes t j) = None
  | Err Panic => False
  end.
Proof.
  intros H0 Hp Htz Hn. unfold next_run_rfc3339. rewrite Hp. cbn [result_bind].
  rewrite Htz. cbn [result_bind some_or]. rewrite Hn. cbn [result_bind]. unfold resolve_local.
  destruct (earliest tz t) as [i|] eqn:E; cbn [result_bind some_or].
  - exists 0%N, i. rewrite H0. split_and!; [lia|done|intros; lia|done].
  - pose proof (probe_spec tz t 180 1) as Hs.
    assert (∀ j, (j < 1)%N → earliest tz (plus_minutes t j) = None) as Hz.
    { intros j Hj. replace j with 0%N by lia. by rewrite H0. }
    destruct (probe _ _ _ _ _ _) as [i|]; cbn [result_bind some_or].
    + destruct Hs as (k & Hk & Hi & Hj). exists k, i. split_and!; [lia|done| |done].
      intros j Hjk. destruct (decide (j < 1)%N); [by apply Hz|]. apply Hj. lia.
    + intros j Hj. destruct (decide (j < 1)%N); [by apply Hz|]. apply Hs. lia.
Qed.
End ZonesSpec.

(** ** The Gregorian calendar, by day numbers from 1970-01-01 *)

Definition civil (d : Z) : Z * Z :=
  (let z := d + 719468 in
   let doe := z mod 146097 in
   let yoe := (doe - doe / 1460 + doe / 36524 - doe / 146096) / 365 in
   let doy := doe - (365 * yoe + yoe / 4 - yoe / 100) in
   let mp := (5 * doy + 2) / 153 in
   ((if mp <? 10 then mp + 3 else mp - 9), doy - (153 * mp + 2) / 5 + 1))%Z.

#[local] Instance gregorian : Calendar Z.
Proof.
  refine {| month := λ d, Z.to_N (civil d).1; day := λ d, Z.to_N (civil d).2;
            weekday := λ d, Z.to_N ((d + 4) mod 7); succ_opt := λ d, Some (d + 1)%Z; ord := λ d, d |}.
  - done.
  - by intros d d' [= <-].
  - done.
Defined.

(** 2026-08-27, a Thursday. *)
Definition demo_date : Z := 20692.

Definition demo_time (h m s : N) : NaiveDateTime Z := Build_NaiveDateTime demo_date h m s 0.

Definition next (expr : string) (t : NaiveDateTime Z) : result (Z * N * N) stop :=
  s <-? parse expr; r <-? next_after s t; Ok ((date r - demo_date)%Z, hour r, minute r).

Example next_examples :
  next "*/15 * * * *" (demo_time 10 16 0) = Ok (0%Z, 10%N, 30%N)
  ∧ next "0 9-17/4 * * *" (demo_time 10 0 0) = Ok (0%Z, 13%N, 0%N)
  ∧ next "0 0 1 * mon" (demo_time 12 0 0) = Ok (4%Z, 0%N, 0%N)
  ∧ next "@daily" (demo_time 10 0 0) = Ok (1%Z, 0%N, 0%N)
  ∧ next "0 0 30 2 *" (demo_time 10 0 0) = Err Nothing
  ∧ next "5/4294967295 * * * *" (demo_time 10 0 0) = Ok (0%Z, 10%N, 5%N)
  ∧ next "0 0 ? * fri" (demo_time 0 0 0) = Ok (1%Z, 0%N, 0%N).
Proof. vm_compute. done. Qed.

Definition weekdays_at_nine : CronSchedule :=
  match parse "0 9 * * 1-5" with
  | Ok s => s
  | Err _ => Build_CronSchedule 0 0 0 0 0 false false
  end.

Lemma next_after_first_witness :
  match next_after weekdays_at_nine (demo_time 10 0 30) with
  | Ok t => fires weekdays_at_nine t ∧ (at_minute (demo_time 10 0 30) < at_minute t)%Z
      ∧ ∀ t', fires weekdays_at_nine t' → (at_minute (demo_time 10 0 30) < at_minute t')%Z →
              (at_minute t ≤ at_minute t')%Z
  | Err Nothing => ∀ t', fires weekdays_at_nine t' → (at_minute (demo_time 10 0 30) < at_minute t')%Z →
      (ord demo_date + 1830 ≤ ord (date t'))%Z
  | Err Panic => succ_opt demo_date = None ∧ hour (demo_time 10 0 30) = 23%N
                 ∧ minute (demo_time 10 0 30) = 59%N
  end.
Proof. apply (next_after_first weekdays_at_nine (demo_time 10 0 30)). split; reflexivity. Defined.

(** A zone whose clock skips 02:00-02:59 each day. *)
Definition gap_earliest (_ : unit) (t : NaiveDateTime Z) : option (NaiveDateTime Z) :=
  if (hour t =? 2)%N then None else Some t.

Definition gap_plus (t : NaiveDateTime Z) (m : N) : NaiveDateTime Z :=
  if (m =? 0)%N then t
  else let k := (hour t * 60 + minute t + m)%N in
       Build_NaiveDateTime (date t + Z.of_N (k / 1440))%Z (k mod 1440 / 60) (k mod 60) (second t) (nano t).

Lemma next_run_zoned_witness :
  ∃ m i, (m ≤ 180)%N ∧ gap_earliest tt (gap_plus (Build_NaiveDateTime (demo_date + 1)%Z 2 30 0 0) m) = Some i
    ∧ (∀ j, (j < m)%N →
         gap_earliest tt (gap_plus (Build_NaiveDateTime (demo_date + 1)%Z 2 30 0 0) j) = None)
    ∧ dec_str 3 = dec_str (hour i).
Proof.
  pose proof (next_run_zoned (λ _, Some tt) tt gap_earliest (λ _ t, t) gap_plus
                (λ t, dec_str (hour t)) (λ t, t) "30 2 * * *" "x" (demo_time 10 0 0)
                (match parse "30 2 * * *" with Ok s => s | Err _ => weekdays_at_nine end) tt
                (Build_NaiveDateTime (demo_date + 1)%Z 2 30 0 0)
                (λ t, eq_refl) ltac:(vm_compute; reflexivity) eq_refl ltac:(vm_compute; reflexivity)) as H.
  vm_compute in H. exact H.
Defined.

(** ** Where the code and its comments part *)

(** A bare value with the step 1 selects that value only, not "from it to the
    end". *)
Example step_one_is_single :
  parse_field (lit "5/1") 0 23 None = parse_field (lit "5") 0 23 None
  ∧ parse_field (lit "5/1") 0 23 None ≠ parse_field (lit "5-23") 0 23 None.
Proof. split; [vm_compute; reflexivity|vm_compute; discriminate]. Qed.

(** Sunday's second number is part of the weekday range, so "from Monday every
    second day" also selects Sunday. *)
Example weekday_step_reaches_sunday :
  ∃ s, parse "0 0 * * 1/2" = Ok s ∧ N.testbit (dows s) 0 = true.
Proof. eexists. split; vm_compute; reflexivity. Qed.
