(* ===== verification/DirtyChannel.v ===== *)
(** * The coalescing dirty channel (kube-ext/src/watcher.rs, [DirtyChannel])

    The watcher task records upserts and deletes per uid, the forwarder drains
    them in bounded batches.  First the state and its operations, then what a
    batch means for a mirror of the rows, then the wake-up protocol around
    [tokio::sync::Notify]. *)

From S2P Require Import Prelude.

(** A projected row: its encoded bytes and what the search index needs. *)
Record Row : Set := {
  json : str;
  namespace : option str;
  name : option str;
  labels : str
}.

#[global] Instance row_eq_dec : EqDecision Row.
Proof. solve_decision. Defined.

Record DirtyState : Set := {
  changed : gmap str Row;
  deleted : gset str;
  init_done_pending : bool;
  closed : bool
}.

Record DrainedBatch : Set := {
  upserts : gmap str Row;
  deletes : gset str;
  init_done : bool
}.

Definition new : DirtyState :=
  {| changed := ∅; deleted := ∅; init_done_pending := false; closed := false |}.

Definition is_empty (b : DrainedBatch) : bool :=
  bool_decide (upserts b = ∅) && bool_decide (deletes b = ∅) && negb (init_done b).

Definition delta_count (b : DrainedBatch) : nat := size (upserts b) + size (deletes b).

Definition record_upsert (uid : str) (row : Row) (s : DirtyState) : DirtyState :=
  if closed s then s
  else {| changed := <[uid := row]> (changed s); deleted := deleted s ∖ {[uid]};
          init_done_pending := init_done_pending s; closed := false |}.

Definition record_delete (uid : str) (s : DirtyState) : DirtyState :=
  if closed s then s
  else {| changed := delete uid (changed s); deleted := {[uid]} ∪ deleted s;
          init_done_pending := init_done_pending s; closed := false |}.

Definition mark_init_done (s : DirtyState) : DirtyState :=
  if closed s then s
  else {| changed := changed s; deleted := deleted s; init_done_pending := true; closed := false |}.

Definition close (s : DirtyState) : DirtyState :=
  {| changed := changed s; deleted := deleted s; init_done_pending := init_done_pending s;
     closed := true |}.

Definition has_work (s : DirtyState) : bool :=
  negb (bool_decide (changed s = ∅)) || negb (bool_decide (deleted s = ∅)) || init_done_pending s.

Definition drain (s : DirtyState) : DrainedBatch * DirtyState :=
  ({| upserts := changed s; deletes := deleted s; init_done := init_done_pending s |},
   {| changed := ∅; deleted := ∅; init_done_pending := false; closed := closed s |}).

(** Moving the entries of the listed uids from one map to the other. *)
Definition move_entries (uids : list str) (from to : gmap str Row) : gmap str Row * gmap str Row :=
  foldl (λ '(from, to) uid,
           match from !! uid with
           | Some v => (delete uid from, <[uid := v]> to)
           | None => (from, to)
           end) (from, to) uids.

(** [od] and [oc]: the order in which the hash set of deletes and the keys of
    the hash map of upserts are iterated this time. *)
Definition drain_capped (max : nat) (od oc : list str) (s : DirtyState) : DrainedBatch * DirtyState :=
  if bool_decide (max = 0) || (size (changed s) + size (deleted s) <=? max)%nat then drain s
  else
    let out_d : gset str := list_to_set (take max od) in
    let budget := max - size out_d in
    let '(kept, out_u) := move_entries (take budget oc) (changed s) ∅ in
    ({| upserts := out_u; deletes := out_d; init_done := false |},
     {| changed := kept; deleted := deleted s ∖ out_d;
        init_done_pending := init_done_pending s; closed := closed s |}).

(** ** What deltas do to a mirror of the encoded rows *)

Abbreviation mirror := (gmap str str).

Definition overlay (ups : gmap str Row) (dels : gset str) (m : mirror) : mirror :=
  (json <$> ups) ∪ filter (λ kv, kv.1 ∉ dels) m.

Definition pending (s : DirtyState) : mirror → mirror := overlay (changed s) (deleted s).

Definition deliver (b : DrainedBatch) : mirror → mirror := overlay (upserts b) (deletes b).

Lemma lookup_overlay ups dels (m : mirror) (u : str) :
  overlay ups dels m !! u
  = match ups !! u with
    | Some r => Some (json r)
    | None => if decide (u ∈ dels) then None else m !! u
    end.
Proof.
  unfold overlay. rewrite lookup_union, lookup_fmap. destruct (ups !! u) as [r|]; simpl.
  - by rewrite union_Some_l.
  - rewrite (left_id_L None _). case_decide.
    + apply map_lookup_filter_None. right. by intros ? _ [].
    + destruct (m !! u) as [x|] eqn:E.
      * by apply map_lookup_filter_Some.
      * apply map_lookup_filter_None. by left.
Qed.

(** The channel never holds both an upsert and a delete of one uid. *)
Definition disjoint_state (s : DirtyState) : Prop := dom (changed s) ## deleted s.

#[global] Instance disjoint_state_dec s : Decision (disjoint_state s) := _.

Lemma record_upsert_disjoint uid row s : disjoint_state s → disjoint_state (record_upsert uid row s).
Proof. unfold disjoint_state, record_upsert. destruct (closed s); simpl; [done|]. set_solver. Qed.

Lemma record_delete_disjoint uid s : disjoint_state s → disjoint_state (record_delete uid s).
Proof. unfold disjoint_state, record_delete. destruct (closed s); simpl; [done|]. set_solver. Qed.

Lemma mark_init_done_disjoint s : disjoint_state s → disjoint_state (mark_init_done s).
Proof. unfold disjoint_state, mark_init_done. by destruct (closed s). Qed.

#[export] Hint Resolve record_upsert_disjoint record_delete_disjoint mark_init_done_disjoint : ferris.

Lemma pending_record_upsert uid row s (m : mirror) :
  closed s = false → pending (record_upsert uid row s) m = <[uid := json row]> (pending s m).
Proof.
  intros Hc. unfold pending, record_upsert. rewrite Hc. simpl. apply map_eq. intros u.
  destruct (decide (u = uid)) as [->|Hne].
  - by rewrite lookup_overlay, !lookup_insert_eq.
  - rewrite lookup_insert_ne, !lookup_overlay, lookup_insert_ne by done.
    destruct (changed s !! u); [done|]. repeat case_decide; set_solver.
Qed.

Lemma pending_record_delete uid s (m : mirror) :
  closed s = false → pending (record_delete uid s) m = delete uid (pending s m).
Proof.
  intros Hc. unfold pending, record_delete. rewrite Hc. simpl. apply map_eq. intros u.
  destruct (decide (u = uid)) as [->|Hne].
  - rewrite lookup_overlay, !lookup_delete_eq. by rewrite decide_True by set_solver.
  - rewrite lookup_delete_ne, !lookup_overlay, lookup_delete_ne by done.
    destruct (changed s !! u); [done|]. repeat case_decide; set_solver.
Qed.

Lemma pending_mark_init_done s (m : mirror) : pending (mark_init_done s) m = pending s m.
Proof. unfold pending, mark_init_done. by destruct (closed s). Qed.

(** ** Draining *)

Lemma move_entries_spec (uids : list str) (from to : gmap str Row) :
  let '(kept, out) := move_entries uids from to in
  ∀ u, kept !! u = (if decide (u ∈ uids) then None else from !! u)
       ∧ out !! u = (if decide (u ∈ uids) then from !! u ∪ to !! u else to !! u).
Proof.
  unfold move_entries. revert from to. induction uids as [|x uids IH]; intros from to; cbn [foldl].
  { intros u. by rewrite !decide_False by set_solver. }
  destruct (from !! x) as [v|] eqn:E.
  - specialize (IH (delete x from) (<[x := v]> to)). destruct (foldl _ _ _) as [kept out].
    intros u. destruct (IH u) as [-> ->]. destruct (decide (u = x)) as [->|Hne].
    + rewrite lookup_delete_eq, lookup_insert_eq, E. rewrite !(decide_True (P := x ∈ x :: uids)) by set_solver.
      split; case_decide; by rewrite ?(left_id_L None (∪)), ?union_Some_l.
    + rewrite lookup_delete_ne, lookup_insert_ne by done. split; repeat case_decide; set_solver.
  - specialize (IH from to). destruct (foldl _ _ _) as [kept out].
    intros u. destruct (IH u) as [-> ->]. destruct (decide (u = x)) as [->|Hne].
    + rewrite E, !(decide_True (P := x ∈ x :: uids)) by set_solver. split; case_decide; by rewrite ?(left_id_L None (∪)).
    + split; repeat case_decide; set_solver.
Qed.

Lemma move_entries_empty (uids : list str) (from : gmap str Row) :
  let '(kept, out) := move_entries uids from ∅ in
  ∀ u, kept !! u = (if decide (u ∈ uids) then None else from !! u)
       ∧ out !! u = (if decide (u ∈ uids) then from !! u else None).
Proof.
  pose proof (move_entries_spec uids from ∅) as H. destruct (move_entries _ _ _) as [kept out].
  intros u. destruct (H u) as [-> ->]. split; [done|]. rewrite lookup_empty.
  case_decide; [|done]. apply (right_id_L None _).
Qed.

(** A drained batch followed by what stays pending is what was pending. *)
Lemma drain_capped_split max od oc s b s' (m : mirror) :
  disjoint_state s → od ⊆ elements (deleted s) → drain_capped max od oc s = (b, s') →
  disjoint_state s' ∧ pending s' (deliver b m) = pending s m.
Proof.
  intros Hd Hod. unfold drain_capped.
  destruct (bool_decide (max = 0) || _).
  { intros [= <- <-]. split; [done|]. apply map_eq. intros u. unfold pending. by rewrite lookup_overlay. }
  pose proof (move_entries_empty (take (max - size (list_to_set (take max od) : gset str)) oc) (changed s)) as Hmv.
  set (out_d := list_to_set (take max od) : gset str) in *.
  assert (out_d ⊆ deleted s) as Hsub.
  { intros u. unfold out_d. rewrite elem_of_list_to_set. intros Hu. apply elem_of_elements, Hod.
    by eapply elem_of_take in Hu as (? & ? & _); eapply list_elem_of_lookup_2. }
  destruct (move_entries _ _ _) as [kept out]. intros [= <- <-]. split.
  - unfold disjoint_state in *. simpl. intros u Hu. rewrite elem_of_dom in Hu. destruct (Hmv u) as [Hk _].
    assert (u ∈ dom (changed s)); [|set_solver]. rewrite elem_of_dom. rewrite Hk in Hu.
    by case_decide; [destruct Hu|].
  - unfold disjoint_state in Hd. apply map_eq. intros u. unfold pending, deliver. simpl.
    rewrite !lookup_overlay. destruct (Hmv u) as [-> ->].
    assert (is_Some (changed s !! u) → u ∉ deleted s) as Hdis.
    { rewrite <- elem_of_dom. set_solver. }
    repeat case_decide; destruct (changed s !! u) as [r|] eqn:E; try done; try set_solver.
    all: destruct Hdis; [by eexists|set_solver].
Qed.

(** *** Counting *)

Definition total (s : DirtyState) : nat := size (changed s) + size (deleted s).

Lemma size_take_set (n : nat) (l : list str) (X : gset str) :
  l ≡ₚ elements X → size (list_to_set (take n l) : gset str) = n `min` size X
                    ∧ (list_to_set (take n l) : gset str) ⊆ X.
Proof.
  intros Hl. assert (NoDup (take n l)) as Hnd.
  { eapply sublist_NoDup; [|apply sublist_take]. rewrite Hl. apply NoDup_elements. }
  split.
  - rewrite size_list_to_set by done. rewrite length_take. f_equal. by rewrite Hl.
  - intros u. rewrite elem_of_list_to_set. intros (i & Hi & _)%elem_of_take.
    apply elem_of_elements. rewrite <- Hl. by eapply list_elem_of_lookup_2.
Qed.

Lemma move_entries_size (n : nat) (oc : list str) (from kept out : gmap str Row) :
  oc ≡ₚ elements (dom from) → move_entries (take n oc) from ∅ = (kept, out) →
  size out = n `min` size from ∧ size kept + size out = size from.
Proof.
  intros Hoc Hmv. pose proof (move_entries_empty (take n oc) from) as H. rewrite Hmv in H.
  destruct (size_take_set n oc (dom from) Hoc) as [Hsz Hsub].
  assert (dom out = list_to_set (take n oc)) as Ho.
  { apply set_eq. intros u. destruct (H u) as [_ Hu]. rewrite elem_of_dom, elem_of_list_to_set, Hu.
    case_decide as Hin.
    - split; [done|]. intros _. apply elem_of_dom, Hsub, elem_of_list_to_set. done.
    - split; [by intros []|done]. }
  assert (dom kept = dom from ∖ dom out) as Hk.
  { apply set_eq. intros u. destruct (H u) as [Hu _]. rewrite Ho, elem_of_difference, elem_of_list_to_set.
    rewrite !elem_of_dom, Hu. case_decide; [|tauto]. split; [by intros []|tauto]. }
  rewrite <- !size_dom, Hk, size_difference by (rewrite Ho; done).
  rewrite Ho, Hsz, !size_dom. lia.
Qed.

Lemma drain_capped_count max od oc s b s' :
  od ≡ₚ elements (deleted s) → oc ≡ₚ elements (dom (changed s)) →
  drain_capped max od oc s = (b, s') →
  delta_count b = (if decide (max = 0) then total s else max `min` total s)
  ∧ delta_count b + total s' = total s.
Proof.
  intros Hod Hoc. unfold drain_capped, total, delta_count.
  destruct (bool_decide (max = 0) || _) eqn:E; simpl.
  { intros [= <- <-]. cbn [changed deleted upserts deletes]. rewrite map_size_empty, size_empty. bool_to_prop.
    split; [|lia]. case_decide; [done|]. destruct E as [E|E]; [by bool_to_prop|].
    apply Nat.leb_le in E. rewrite Nat.min_r; done. }
  bool_to_prop. apply Nat.leb_gt in H0. destruct (size_take_set max od _ Hod) as [Hsz Hsub].
  destruct (move_entries _ _ _) as [kept out] eqn:Em.
  apply move_entries_size in Em as [Ho Hk]; [|done]. intros [= <- <-]. simpl.
  rewrite decide_False by done. rewrite size_difference by done. lia.
Qed.

Lemma drain_capped_init_done max od oc s b s' :
  drain_capped max od oc s = (b, s') →
  (init_done b = true → has_work s' = false)
  ∧ init_done b || init_done_pending s' = init_done_pending s.
Proof.
  unfold drain_capped. destruct (_ || _); [intros [= <- <-]|].
  - simpl. split; [done|]. by destruct (init_done_pending s).
  - destruct (move_entries _ _ _). intros [= <- <-]. done.
Qed.

Lemma perm_sub (od : list str) (X : gset str) : od ≡ₚ elements X → od ⊆ elements X.
Proof. intros H u. by rewrite H. Qed.

(** draining in capped batches, in whatever order the hash tables iterate,
    neither loses nor repeats a delta: a batch and what stays pending amount to
    what was pending, for any mirror of the rows; a batch takes exactly as many
    deltas as the cap allows (so repeated draining empties the channel), never an
    upsert and a delete of one uid, and the end-of-initial-sync flag leaves only
    with the last of them. *)
Theorem drain_capped_exact max od oc s b s' :
  disjoint_state s → od ≡ₚ elements (deleted s) → oc ≡ₚ elements (dom (changed s)) →
  drain_capped max od oc s = (b, s') →
  (∀ m, pending s' (deliver b m) = pending s m)
  ∧ disjoint_state s'
  ∧ delta_count b = (if decide (max = 0) then total s else max `min` total s)
  ∧ delta_count b + total s' = total s
  ∧ (init_done b = true → has_work s' = false)
  ∧ init_done b || init_done_pending s' = init_done_pending s.
Proof.
  intros Hd Hod Hoc Hdr.
  pose proof (λ m, drain_capped_split _ _ _ _ _ _ m Hd (perm_sub _ _ Hod) Hdr) as Hs.
  destruct (drain_capped_count _ _ _ _ _ _ Hod Hoc Hdr).
  destruct (drain_capped_init_done _ _ _ _ _ _ Hdr).
  split_and!; try done; [intros m; apply Hs|apply (Hs ∅)].
Qed.

Definition demo_row (j : string) : Row := {| json := j; namespace := None; name := None; labels := [] |}.

Definition demo_dirty : DirtyState :=
  mark_init_done (record_delete "a" (record_upsert "c" (demo_row "3")
    (record_upsert "b" (demo_row "2") (record_upsert "a" (demo_row "1") new)))).

Lemma drain_capped_exact_witness :
  let b := (drain_capped 2 [lit "a"] [lit "c"; lit "b"] demo_dirty).1 in
  let s' := (drain_capped 2 [lit "a"] [lit "c"; lit "b"] demo_dirty).2 in
  (∀ m, pending s' (deliver b m) = pending demo_dirty m)
  ∧ disjoint_state s'
  ∧ delta_count b = 2
  ∧ delta_count b + total s' = 3
  ∧ (init_done b = true → has_work s' = false)
  ∧ init_done b || init_done_pending s' = true.
Proof.
  apply (drain_capped_exact 2 [lit "a"] [lit "c"; lit "b"] demo_dirty); [decided|decided|decided|].
  apply surjective_pairing.
Defined.

(** ** Waking the drainer ([tokio::sync::Notify]) *)

(** Where the drainer is in [wait_for_change]: not in it, with its future
    created ([signalled]: a [notify_waiters] came since), past an empty check of
    the state, parked in the await, or returned. *)
Inductive WaitPc : Set :=
  | Idle
  | Created (signalled : bool)
  | Awaiting (signalled : bool)
  | Parked
  | Returned (more : bool).

(** [owed_one], [owed_all]: writers between their unlock and their notify. *)
Record Wait : Set := {
  chan : DirtyState;
  permit : bool;
  owed_one : nat;
  owed_all : nat;
  pc : WaitPc
}.

(** [Notify::notify_one] and [Notify::notify_waiters]. *)
Definition notify_one (permit : bool) (pc : WaitPc) : bool * WaitPc :=
  match pc with
  | Parked => (permit, Created false)
  | _ => (true, pc)
  end.

Definition notify_waiters (pc : WaitPc) : WaitPc :=
  match pc with
  | Parked => Created false
  | Created _ => Created true
  | Awaiting _ => Awaiting true
  | _ => pc
  end.

Inductive WriteOp : Set :=
  | WUpsert (uid : str) (row : Row)
  | WDelete (uid : str)
  | WInitDone.

Definition write (op : WriteOp) (s : DirtyState) : DirtyState :=
  match op with
  | WUpsert uid row => record_upsert uid row s
  | WDelete uid => record_delete uid s
  | WInitDone => mark_init_done s
  end.

Inductive wait_step : Wait → Wait → Prop :=
  (** writers: the locked update (nothing on a closed channel), then the notify *)
  | ws_write op c p o a k : closed c = false →
      wait_step (Build_Wait c p o a k) (Build_Wait (write op c) p (S o) a k)
  | ws_notify c p o a k :
      wait_step (Build_Wait c p (S o) a k)
        (Build_Wait c (notify_one p k).1 o a (notify_one p k).2)
  | ws_close c p o a k : wait_step (Build_Wait c p o a k) (Build_Wait (close c) p o (S a) k)
  | ws_notify_all c p o a k :
      wait_step (Build_Wait c p o (S a) k) (Build_Wait c p o a (notify_waiters k))
  (** the drainer *)
  | ws_call c p o a : wait_step (Build_Wait c p o a Idle) (Build_Wait c p o a (Created false))
  | ws_check c p o a sg :
      wait_step (Build_Wait c p o a (Created sg))
        (Build_Wait c p o a
           (if has_work c then Returned true else if closed c then Returned false else Awaiting sg))
  | ws_await c p o a sg :
      wait_step (Build_Wait c p o a (Awaiting sg))
        (if sg then Build_Wait c p o a (Created false)
         else if p then Build_Wait c false o a (Created false)
         else Build_Wait c p o a Parked)
  | ws_drain max od oc c p o a more :
      wait_step (Build_Wait c p o a (Returned more))
        (Build_Wait (drain_capped max od oc c).2 p o a Idle).

Definition wait_init : Wait := Build_Wait new false 0 0 Idle.

(** Whatever could unblock the drainer is announced, or about to be. *)
Definition wait_inv (w : Wait) : Prop :=
  (has_work (chan w) = true → owed_one w = 0 →
     match pc w with Parked => False | Awaiting sg => sg = true ∨ permit w = true | _ => True end)
  ∧ (closed (chan w) = true → owed_all w = 0 →
     match pc w with Parked => False | Awaiting sg => sg = true | _ => True end).

Lemma closed_write op s : closed (write op s) = closed s.
Proof.
  destruct op; simpl; unfold record_upsert, record_delete, mark_init_done;
    by destruct (closed s) eqn:E.
Qed.

Lemma wait_step_inv w w' : wait_step w w' → wait_inv w → wait_inv w'.
Proof.
  intros Hs. destruct Hs; intros [H1 H2]; unfold wait_inv in *; simpl in *.
  - rewrite closed_write. split; [done|]. by rewrite H.
  - destruct k; simpl; split; auto; try done; intros; try (by right); by apply H2.
  - split; [|done]. unfold has_work in *. simpl. done.
  - destruct k; simpl in *; split; intros; auto; try done.
  - done.
  - destruct (has_work c) eqn:Ew; [done|]. destruct (closed c) eqn:Ec; done.
  - destruct sg; [done|]. destruct p; [done|]. simpl. split; intros Hw Ho.
    + by destruct (H1 Hw Ho).
    + by specialize (H2 Hw Ho).
  - done.
Qed.

(** C18: no wake-up is lost: in every interleaving of the writers' updates and
    notifications with the drainer's steps, once the notifications due have been
    given, a parked drainer means that nothing is pending and the channel is
    open; so neither a delta nor the end of the watcher can leave the forwarder
    asleep. *)
Theorem no_lost_wakeup (w : Wait) :
  rtc wait_step wait_init w → pc w = Parked → owed_one w = 0 → owed_all w = 0 →
  has_work (chan w) = false ∧ closed (chan w) = false.
Proof.
  intros Hr Hp Ho Ha.
  assert (wait_inv w) as [H1 H2] by (eapply (rtc_preserves wait_step); [by eauto using wait_step_inv| |done]; done).
  rewrite Hp in *. split.
  - destruct (has_work (chan w)); [|done]. by destruct H1.
  - destruct (closed (chan w)); [|done]. by destruct H2.
Qed.

(** A row is recorded, drained before its notification, and the drainer parks
    after the stale permit. *)
Lemma no_lost_wakeup_witness :
  let c := (drain_capped 0 [] [] (record_upsert "a" (demo_row "1") new)).2 in
  has_work c = false ∧ closed c = false.
Proof.
  intros c. apply (no_lost_wakeup (Build_Wait c false 0 0 Parked)); try reflexivity.
  eapply rtc_l; [apply (ws_write (WUpsert "a" (demo_row "1"))); reflexivity|].
  eapply rtc_l; [apply ws_call|]. eapply rtc_l; [apply ws_check|].
  eapply rtc_l; [apply (ws_drain 0 [] [])|]. eapply rtc_l; [apply ws_notify|].
  eapply rtc_l; [apply ws_call|]. eapply rtc_l; [apply ws_check|].
  eapply rtc_l; [apply ws_await|]. eapply rtc_l; [apply ws_check|].
  eapply rtc_l; [apply ws_await|]. apply rtc_refl.
Defined.
