(* ===== verification/Watcher.v ===== *)
(** * Resource watchers (kube-ext/src/watcher.rs)

    From watch events to the cache of encoded rows and the dirty channel: building
    a row, the preview list, the event loop of the typed and dynamic watchers, the
    reconciliation at the end of a list, and the system made of the watcher task,
    the forwarder and the subscribers, step by step. *)

From S2P Require Import Prelude DirtyChannel.

(** ** Namespace scopes *)

Inductive NsScope : Set := All | One (ns : str).

#[global] Instance ns_scope_eq_dec : EqDecision NsScope.
Proof. solve_decision. Defined.

#[global] Instance ns_scope_countable : Countable NsScope.
Proof.
  refine (inj_countable' (λ s, match s with All => None | One ns => Some ns end)
            (λ o, match o with None => All | Some ns => One ns end) _).
  by intros [].
Defined.

Definition scope_namespace (s : NsScope) : option str :=
  match s with All => None | One ns => Some ns end.

Definition from_selection (selected : list str) : NsScope :=
  match selected with [one] => One one | _ => All end.

Definition scope_key (s : NsScope) : str :=
  match s with All => lit "all" | One ns => lit "ns:" ++ ns end.

(** ** Rows *)

(** [serde_json::Value]; numbers by their text. *)
Inductive Value : Type :=
  | VNull
  | VBool (b : bool)
  | VNumber (n : str)
  | VString (s : str)
  | VArray (l : list Value)
  | VObject (m : gmap str Value).

(** [Value::get] with a string key, then [Value::as_str]. *)
Definition get_str (v : Value) (key : str) : option str :=
  match v with
  | VObject m => match m !! key with Some (VString s) => Some s | _ => None end
  | _ => None
  end.

Definition with_uid (uid : str) (projected : Value) : Value :=
  match projected with
  | VObject m => VObject (<[lit "uid" := VString uid]> m)
  | other => VObject {[ lit "uid" := VString uid; lit "value" := other ]}
  end.

(** The labels of an object, in key order. *)
Definition with_labels (row : Value) (labels : option (list (str * str))) : Value :=
  match labels with
  | Some ((_ :: _) as l) =>
      match row with
      | VObject m => VObject (<[lit "__labels" := VObject (list_to_map (prod_map id VString <$> l))]> m)
      | _ => row
      end
  | _ => row
  end.

Definition label_terms (labels : list (str * str)) : str :=
  foldl (λ out '(k, v), (if bool_decide (out = []) then out else out ++ lit " ") ++ k ++ lit "=" ++ v)
    [] labels.

Definition HELM_LIST_PAGE_SIZE : N := 25%N.

Definition MIN_PAGE_SIZE : N := 50%N.

(** The part of the list configuration the retry looks at. *)
Record ListConfig : Set := { list_watch : bool; page_size : option N }.

Inductive ListError : Set := ApiError | TransportError.

Definition shrunk_page_size (cfg : ListConfig) (err : ListError) : option N :=
  if negb (list_watch cfg) || (match err with ApiError => true | _ => false end) then None
  else
    current ← page_size cfg;
    if (MIN_PAGE_SIZE <? current)%N then Some (N.max (current / 2) MIN_PAGE_SIZE) else None.

(** One item of the watch stream through [adaptive_watcher]: the configuration
    the stream goes on with. *)
Definition adapt (cfg : ListConfig) (initial_list_failed : option ListError) : ListConfig :=
  match initial_list_failed with
  | Some e =>
      match shrunk_page_size cfg e with
      | Some size => {| list_watch := list_watch cfg; page_size := Some size |}
      | None => cfg
      end
  | None => cfg
  end.

Section Watch.
(** The kind: its objects, their uid, labels and projection; [serde_json]'s
    encoder. *)
Context {Obj : Type} (uid_of : Obj → option str) (labels_of : Obj → list (str * str))
        (project : Obj → Value) (to_raw_value : Value → option str).

Definition Row_build (uid : str) (projected : Value) (labels : option (list (str * str)))
    : option Row :=
  let terms := label_terms (default [] labels) in
  let v := with_labels (with_uid uid projected) labels in
  let field key := match get_str v key with
                   | Some s => if bool_decide (s = []) then None else Some s
                   | None => None
                   end in
  json ← to_raw_value v;
  Some {| json := json; namespace := field (lit "namespace"); name := field (lit "name");
          labels := terms |}.

Definition build (uid : str) (o : Obj) : option Row := Row_build uid (project o) (Some (labels_of o)).

Inductive Event : Type :=
  | Apply (o : Obj)
  | InitApply (o : Obj)
  | Delete (o : Obj)
  | Init
  | InitDone
  | StreamError
  | PreviewReady (rows : list (str * Row)).

(** The watcher task: the shared cache and init flag, and its locals. *)
Record Task : Type := {
  cache : mirror;
  init_seen : option (gset str);
  init_flag : bool;
  preview : bool                    (** the preview list is still awaited *)
}.

Definition set_cache (t : Task) (c : mirror) : Task :=
  {| cache := c; init_seen := init_seen t; init_flag := init_flag t; preview := preview t |}.

Definition drop_preview (t : Task) : Task :=
  {| cache := cache t; init_seen := init_seen t; init_flag := init_flag t; preview := false |}.

(** The rows of the preview the real list has not delivered: the cache, and the
    records made. *)
Definition apply_preview (rows : list (str * Row)) (c : mirror) (done : bool)
    : mirror * list WriteOp :=
  if done then (c, [])
  else foldl (λ '(c, ops) '(uid, row),
                match c !! uid with
                | Some _ => (c, ops)
                | None => (<[uid := json row]> c, ops ++ [WUpsert uid row])
                end) (c, []) rows.

Definition preview_rows (items : list Obj) : list (str * Row) :=
  omap (λ o, uid ← uid_of o; row ← build uid o; Some (uid, row)) items.

(** [order]: how the hash map iterates its keys. *)
Definition reconcile_init_seen (order : list str) (seen : option (gset str)) (c : mirror)
    : mirror * list WriteOp :=
  match seen with
  | None => (c, [])
  | Some seen =>
      let stale := filter (λ uid, uid ∉ seen) order in
      (foldl (λ c uid, delete uid c) c stale, WDelete <$> stale)
  end.

Definition apply_object (is_init_apply : bool) (o : Obj) (t : Task) : Task * list WriteOp :=
  match uid_of o with
  | None => (t, [])
  | Some uid =>
      let t := drop_preview t in
      let seen := if is_init_apply then (λ s, {[uid]} ∪ s) <$> init_seen t else init_seen t in
      let t := {| cache := cache t; init_seen := seen; init_flag := init_flag t;
                  preview := preview t |} in
      match build uid o with
      | None => (t, [])
      | Some row =>
          if bool_decide (cache t !! uid = Some (json row)) then (t, [])
          else (set_cache t (<[uid := json row]> (cache t)), [WUpsert uid row])
      end
  end.

(** One turn of the loop: the new locals and cache, and the records it goes on
    to make in the channel. *)
Definition handle_event (order : list str) (ev : Event) (t : Task) : Task * list WriteOp :=
  match ev with
  | PreviewReady rows =>
      if preview t then
        let '(c, ops) := apply_preview rows (cache t) (init_flag t) in
        (drop_preview (set_cache t c), ops)
      else (t, [])
  | Delete o =>
      match uid_of o with
      | Some uid => (set_cache t (delete uid (cache t)), [WDelete uid])
      | None => (t, [])
      end
  | Init =>
      ({| cache := cache t; init_seen := Some ∅; init_flag := init_flag t; preview := preview t |}, [])
  | InitDone =>
      let '(c, ops) := reconcile_init_seen order (init_seen t) (cache t) in
      ({| cache := c; init_seen := None; init_flag := true; preview := false |}, ops ++ [WInitDone])
  | StreamError => (t, [])
  | Apply o => apply_object false o t
  | InitApply o => apply_object true o t
  end.

(** The loop of the dynamic watcher, which awaits no preview list. *)
Definition dynamic_object (is_init_apply : bool) (o : Obj) (t : Task) : Task * list WriteOp :=
  match uid_of o with
  | None => (t, [])
  | Some uid =>
      let seen := if is_init_apply then (λ s, {[uid]} ∪ s) <$> init_seen t else init_seen t in
      let t := {| cache := cache t; init_seen := seen; init_flag := init_flag t;
                  preview := preview t |} in
      match build uid o with
      | None => (t, [])
      | Some row =>
          if bool_decide (cache t !! uid = Some (json row)) then (t, [])
          else (set_cache t (<[uid := json row]> (cache t)), [WUpsert uid row])
      end
  end.

Definition dynamic_event (order : list str) (ev : Event) (t : Task) : Task * list WriteOp :=
  match ev with
  | Apply o => dynamic_object false o t
  | InitApply o => dynamic_object true o t
  | Delete o =>
      match uid_of o with
      | Some uid => (set_cache t (delete uid (cache t)), [WDelete uid])
      | None => (t, [])
      end
  | Init =>
      ({| cache := cache t; init_seen := Some ∅; init_flag := init_flag t; preview := preview t |}, [])
  | InitDone =>
      let '(c, ops) := reconcile_init_seen order (init_seen t) (cache t) in
      ({| cache := c; init_seen := None; init_flag := true; preview := preview t |}, ops ++ [WInitDone])
  | StreamError | PreviewReady _ => (t, [])
  end.

(** The typed watcher without a preview list is the dynamic one. *)
Lemma dynamic_is_typed (order : list str) (ev : Event) (t : Task) :
  preview t = false → dynamic_event order ev t = handle_event order ev t.
Proof.
  intros Hp. destruct ev; simpl; try done; try (by rewrite Hp).
  all: unfold dynamic_object, apply_object; destruct (uid_of o); [|done].
  all: by destruct t; simpl in *; subst.
Qed.

(** The initial task of [start_with_api] and of [start_dynamic]. *)
Definition start_with_api : Task :=
  {| cache := ∅; init_seen := None; init_flag := false; preview := true |}.

Definition start_dynamic : Task :=
  {| cache := ∅; init_seen := None; init_flag := false; preview := false |}.

Definition snapshot (t : Task) : list str := (map_to_list (cache t)).*2.

(** ** The records follow the cache *)

Definition apply_op (op : WriteOp) (m : mirror) : mirror :=
  match op with
  | WUpsert uid row => <[uid := json row]> m
  | WDelete uid => delete uid m
  | WInitDone => m
  end.

Definition apply_ops (ops : list WriteOp) (m : mirror) : mirror :=
  foldl (λ m op, apply_op op m) m ops.

Lemma apply_ops_app ops ops' m : apply_ops (ops ++ ops') m = apply_ops ops' (apply_ops ops m).
Proof. apply foldl_app. Qed.

Lemma apply_preview_ops rows c done :
  let '(c', ops) := apply_preview rows c done in apply_ops ops c = c'.
Proof.
  unfold apply_preview. destruct done; [done|].
  assert (∀ c1 ops, apply_ops ops c = c1 →
    let '(c', ops) := foldl (λ '(c, ops) '(uid, row),
                match c !! uid with
                | Some _ => (c, ops)
                | None => (<[uid := json row]> c, ops ++ [WUpsert uid row])
                end) (c1, ops) rows in apply_ops ops c = c') as H; [|by apply H].
  induction rows as [|[uid row] rows IH]; intros c1 ops Hc; cbn [foldl]; [done|].
  destruct (c1 !! uid); apply IH; [done|]. rewrite apply_ops_app, Hc. done.
Qed.

Lemma reconcile_ops order seen c :
  let '(c', ops) := reconcile_init_seen order seen c in apply_ops ops c = c'.
Proof.
  destruct seen as [seen|]; [|done]. cbn [reconcile_init_seen].
  generalize (filter (λ uid, uid ∉ seen) order). intros stale. revert c.
  induction stale as [|u stale IH]; intros c; [done|]. apply IH.
Qed.

Lemma apply_object_ops b o t :
  apply_ops (apply_object b o t).2 (cache t) = cache (apply_object b o t).1.
Proof.
  unfold apply_object. destruct (uid_of o) as [uid|]; [|done].
  destruct (build uid o) as [row|]; [|done]. by case_bool_decide.
Qed.

(** The records of a turn, replayed on the old cache, give the new one. *)
Lemma handle_event_ops order ev t :
  apply_ops (handle_event order ev t).2 (cache t) = cache (handle_event order ev t).1.
Proof.
  destruct ev; simpl; try done; try apply apply_object_ops.
  - by destruct (uid_of o).
  - pose proof (reconcile_ops order (init_seen t) (cache t)) as H.
    destruct (reconcile_init_seen _ _ _) as [c ops]. simpl. by rewrite apply_ops_app, H.
  - destruct (preview t); [|done]. pose proof (apply_preview_ops rows (cache t) (init_flag t)) as H.
    by destruct (apply_preview _ _ _) as [c ops].
Qed.

(** ** Watcher, forwarder and subscribers *)

(** [todo]: the records between the update of the cache and the lock of the
    channel; [inflight]: the batch the forwarder is emitting; [mirrors]: the rows
    each subscriber has, from its snapshot and the batches since. *)
Record Sys : Type := {
  task : Task;
  todo : list WriteOp;
  ch : DirtyState;
  inflight : option DrainedBatch;
  mirrors : list mirror
}.

Inductive sys_step : Sys → Sys → Prop :=
  | sys_event order ev t c i ms : closed c = false →
      sys_step (Build_Sys t [] c i ms)
        (Build_Sys (handle_event order ev t).1 (handle_event order ev t).2 c i ms)
  | sys_record t op ops c i ms :
      sys_step (Build_Sys t (op :: ops) c i ms) (Build_Sys t ops (write op c) i ms)
  | sys_drain max od oc t ops c ms :
      od ⊆ elements (deleted c) →
      sys_step (Build_Sys t ops c None ms)
        (Build_Sys t ops (drain_capped max od oc c).2 (Some (drain_capped max od oc c).1) ms)
  | sys_emit t ops c b ms :
      sys_step (Build_Sys t ops c (Some b) ms) (Build_Sys t ops c None (deliver b <$> ms))
  | sys_subscribe t ops c i ms :
      sys_step (Build_Sys t ops c i ms) (Build_Sys t ops c i (cache t :: ms))
  | sys_drop t ops c i ms :
      sys_step (Build_Sys t ops c i ms) (Build_Sys t ops (close c) i ms).

Definition sys_init (t : Task) : Sys := Build_Sys t [] new None [].
End Watch.

(** ** Patches

    Every delivery overwrites a fixed set of uids with fixed values; composing
    patches gives a patch, and a patch is idempotent. *)

Definition is_patch (F : mirror → mirror) : Prop :=
  ∃ v : str → option (option str), ∀ m u, F m !! u = default (m !! u) (v u).

Lemma patch_id : is_patch (λ m, m).
Proof. by exists (λ _, None). Qed.

Lemma patch_compose F G : is_patch F → is_patch G → is_patch (λ m, G (F m)).
Proof.
  intros [v Hv] [w Hw]. exists (λ u, match w u with Some x => Some x | None => v u end).
  intros m u. rewrite Hw. destruct (w u); simpl; [done|]. apply Hv.
Qed.

Lemma patch_idem F m : is_patch F → F (F m) = F m.
Proof.
  intros [v Hv]. apply map_eq. intros u. rewrite !Hv. by destruct (v u).
Qed.

(** What a patch produced, it leaves alone. *)
Lemma patch_fixed F m m' : is_patch F → F m = m' → F m' = m'.
Proof. intros HF <-. by apply patch_idem. Qed.

Lemma patch_overlay ups dels : is_patch (overlay ups dels).
Proof.
  exists (λ u, match ups !! u with
               | Some r => Some (Some (json r))
               | None => if decide (u ∈ dels) then Some None else None
               end).
  intros m u. rewrite lookup_overlay. destruct (ups !! u); [done|]. by case_decide.
Qed.

Lemma patch_op op : is_patch (apply_op op).
Proof.
  destruct op as [uid row|uid|]; [| |apply patch_id].
  - exists (λ u, if decide (u = uid) then Some (Some (json row)) else None). intros m u. simpl.
    case_decide as H; [by rewrite H, lookup_insert_eq|by rewrite lookup_insert_ne].
  - exists (λ u, if decide (u = uid) then Some None else None). intros m u. simpl.
    case_decide as H; [by rewrite H, lookup_delete_eq|by rewrite lookup_delete_ne].
Qed.

Lemma patch_ops ops : is_patch (apply_ops ops).
Proof.
  induction ops as [|op ops IH]; [apply patch_id|].
  apply (patch_compose (apply_op op) (apply_ops ops)); [apply patch_op|done].
Qed.

Lemma pending_write op s m :
  closed s = false → pending (write op s) m = apply_op op (pending s m).
Proof.
  intros Hc. destruct op; simpl.
  - by apply pending_record_upsert.
  - by apply pending_record_delete.
  - apply pending_mark_init_done.
Qed.

Lemma write_disjoint op s : disjoint_state s → disjoint_state (write op s).
Proof.
  destruct op; simpl; auto with ferris.
Qed.

#[global] Arguments Event : clear implicits.

Section Convergence.
Context {Obj : Type} (uid_of : Obj → option str) (labels_of : Obj → list (str * str))
        (project : Obj → Value) (to_raw_value : Value → option str).

Local Abbreviation handle_event := (handle_event uid_of labels_of project to_raw_value).
Local Abbreviation sys_step := (sys_step uid_of labels_of project to_raw_value).
Local Abbreviation build := (build labels_of project to_raw_value).
Local Abbreviation apply_object := (apply_object uid_of labels_of project to_raw_value).

(** What is on its way: the batch being emitted, the channel, the records due. *)
Definition on_the_way (s : Sys) (m : mirror) : mirror :=
  apply_ops (todo s) (pending (ch s) (match inflight s with Some b => deliver b m | None => m end)).

Lemma patch_on_the_way s : is_patch (on_the_way s).
Proof.
  unfold on_the_way. apply patch_compose; [|apply patch_ops].
  apply patch_compose; [|apply patch_overlay].
  destruct (inflight s); [apply patch_overlay|apply patch_id].
Qed.

Record sys_inv (s : Sys) : Prop := {
  si_disjoint : disjoint_state (ch s);
  si_cache : closed (ch s) = false → on_the_way s (cache (task s)) = cache (task s);
  si_mirrors : closed (ch s) = false → Forall (λ m, on_the_way s m = cache (task s)) (mirrors s)
}.

Lemma sys_step_inv s s' : sys_step s s' → sys_inv s → sys_inv s'.
Proof.
  intros Hs [Hd Hc Hm]. destruct Hs as [order ev t c i ms Ho|t op ops c i ms|max od oc t ops c ms Hod
    |t ops c b ms|t ops c i ms|t ops c i ms]; simpl in *.
  - (* the cache moves, and what is due with it *)
    pose proof (handle_event_ops uid_of labels_of project to_raw_value order ev t) as He.
    assert (∀ m, on_the_way (Build_Sys t [] c i ms) m = cache t →
      on_the_way (Build_Sys (handle_event order ev t).1 (handle_event order ev t).2 c i ms) m
      = cache (handle_event order ev t).1) as Hmove.
    { intros m Hm'. rewrite <- He, <- Hm'. done. }
    split; simpl; [done| |].
    + intros Hcl. apply (patch_fixed _ (cache t)); [apply patch_on_the_way|]. by apply Hmove, Hc.
    + intros Hcl. eapply Forall_impl; [by apply Hm|]. apply Hmove.
  -
    assert (∀ m, closed c = false → on_the_way (Build_Sys t ops (write op c) i ms) m
                 = on_the_way (Build_Sys t (op :: ops) c i ms) m) as Heq.
    { intros m Hcl. unfold on_the_way. simpl. by rewrite pending_write. }
    split; simpl; [by apply write_disjoint|..]; rewrite closed_write; intros Hcl.
    + rewrite (Heq _ Hcl). auto.
    + eapply Forall_impl; [by apply Hm|]. intros m. simpl. by rewrite (Heq m Hcl).
  - destruct (drain_capped max od oc c) as [b c'] eqn:Edr.
    pose proof (λ m, drain_capped_split _ _ _ _ _ _ m Hd Hod Edr) as Hsp.
    assert (closed c' = closed c) as Hcl.
    { revert Edr. unfold drain_capped. case_match; [by intros [= <- <-]|].
      destruct (move_entries _ _ _). by intros [= <- <-]. }
    assert (∀ m, on_the_way (Build_Sys t ops c' (Some b) ms) m
                 = on_the_way (Build_Sys t ops c None ms) m) as Heq.
    { intros m. unfold on_the_way. simpl. by rewrite (proj2 (Hsp m)). }
    split; simpl; [apply (Hsp ∅)|..]; rewrite Hcl; intros Ho.
    + rewrite Heq. auto.
    + eapply Forall_impl; [by apply Hm|]. intros m. simpl. by rewrite Heq.
  - assert (∀ m, on_the_way (Build_Sys t ops c None ms) (deliver b m)
                 = on_the_way (Build_Sys t ops c (Some b) ms) m) as Heq by done.
    split; simpl; [done|..]; intros Ho.
    + apply (patch_fixed _ (deliver b (cache t))); [apply patch_on_the_way|]. by apply Hc.
    + apply Forall_fmap. by apply Hm.
  - split; simpl; [done..|]. intros Ho. constructor; [by apply Hc|by apply Hm].
  - split; simpl; done.
Qed.

(** ** A complete list *)

(** The rows a list of objects denotes, later objects winning. *)
Definition add_listed (m : mirror) (o : Obj) : mirror :=
  match uid_of o with
  | Some uid => match build uid o with
                | Some row => <[uid := json row]> m
                | None => m
                end
  | None => m
  end.

Definition listed (os : list Obj) : mirror := foldl add_listed ∅ os.

(** What may come between [Init] and [InitDone]. *)
Definition window_event (ev : Event Obj) : Prop :=
  match ev with InitApply _ | PreviewReady _ | StreamError => True | _ => False end.

Definition listed_object (ev : Event Obj) : option Obj :=
  match ev with InitApply o => Some o | _ => None end.

Definition encodable (o : Obj) : Prop := ∀ uid, uid_of o = Some uid → is_Some (build uid o).

Definition run (t : Task) (evs : list (Event Obj)) : Task :=
  foldl (λ t ev, (handle_event [] ev t).1) t evs.

Definition in_window (m : mirror) (t : Task) : Prop := init_seen t = Some (dom m) ∧ m ⊆ cache t.

Lemma apply_preview_extends rows c done : c ⊆ (apply_preview rows c done).1.
Proof.
  unfold apply_preview. destruct done; [done|].
  assert (∀ c1 (ops : list WriteOp), c ⊆ c1 → c ⊆ (foldl (λ '(c, ops) '(uid, row),
                match c !! uid with
                | Some _ => (c, ops)
                | None => (<[uid := json row]> c, ops ++ [WUpsert uid row])
                end) (c1, ops) rows).1) as H; [|by apply H].
  induction rows as [|[uid row] rows IH]; intros c1 ops Hc; cbn [foldl]; [done|].
  destruct (c1 !! uid) eqn:E; apply IH; [done|]. by apply insert_subseteq_r; [apply (lookup_weaken_None _ c1)|].
Qed.

Lemma window_step m t ev :
  window_event ev → (∀ o, listed_object ev = Some o → encodable o) → in_window m t →
  in_window (match listed_object ev with Some o => add_listed m o | None => m end)
    (handle_event [] ev t).1.
Proof.
  intros Hw He [Hs Hm]. destruct ev as [|o| | | | |rows]; try done; simpl.
  - unfold apply_object, add_listed. specialize (He o eq_refl). unfold encodable in He.
    destruct (uid_of o) as [uid|]; [|done]. destruct (He uid eq_refl) as [row Hrow].
    rewrite Hrow. simpl. rewrite Hs. simpl.
    case_bool_decide as Hc; (split; simpl; [by rewrite dom_insert_L|]).
    + by apply insert_subseteq_l.
    + by apply insert_mono.
  - destruct (preview t); [|done]. pose proof (apply_preview_extends rows (cache t) (init_flag t)) as Hp.
    destruct (apply_preview _ _ _) as [c ops]. simpl in *. split; [done|]. by etrans.
Qed.

Lemma window_run m t evs :
  Forall window_event evs → Forall encodable (omap listed_object evs) → in_window m t →
  in_window (foldl add_listed m (omap listed_object evs)) (run t evs).
Proof.
  revert m t. induction evs as [|ev evs IH]; intros m t Hw He Hin; [done|].
  apply Forall_cons in Hw as [Hw ?]. pose proof (window_step m t ev Hw) as Hstep.
  cbn [run foldl]. destruct (listed_object ev) as [o|] eqn:E; simpl in *; rewrite E in *.
  - apply Forall_cons in He as [? ?]. apply IH; [done..|]. apply Hstep; [|done].
    by intros ? [= <-].
  - apply IH; [done..|]. by apply Hstep.
Qed.

Lemma delete_all_lookup (l : list str) (c : mirror) (u : str) :
  foldl (λ c uid, delete uid c) c l !! u = if decide (u ∈ l) then None else c !! u.
Proof.
  revert c. induction l as [|x l IH]; intros c; cbn [foldl].
  - by rewrite decide_False by apply not_elem_of_nil.
  - rewrite IH. destruct (decide (u = x)) as [->|Hne].
    + rewrite lookup_delete_eq, (decide_True (P := x ∈ x :: l)) by by left. by case_decide.
    + rewrite lookup_delete_ne by done. repeat case_decide; set_solver.
Qed.

Lemma reconcile_keeps_seen order (m c : mirror) :
  m ⊆ c → order ≡ₚ elements (dom c) →
  (reconcile_init_seen order (Some (dom m)) c).1 = m.
Proof.
  intros Hmc Ho. apply map_eq. intros u. cbn [reconcile_init_seen fst]. rewrite delete_all_lookup.
  destruct (m !! u) as [x|] eqn:E.
  - rewrite decide_False; [by eapply lookup_weaken|]. intros [Hu _]%list_elem_of_filter.
    apply Hu, elem_of_dom. by eexists.
  - destruct (c !! u) eqn:Ec.
    + rewrite decide_True; [done|]. apply list_elem_of_filter. split.
      * by apply not_elem_of_dom.
      * rewrite Ho. apply elem_of_elements, elem_of_dom. by eexists.
    + by case_decide.
Qed.

(** ** Properties *)

(** a complete list (the first one, or the relist after a sleep or an expired
    watch) leaves the cache with exactly the rows of the objects listed, whatever
    the cache held, whatever the preview list brought in meanwhile, and whatever
    errors the stream reported: no ghost row survives and none is missing; the
    watcher then reports the end of the initial sync, after the deletes. *)
Theorem resync_exact (t : Task) (evs : list (Event Obj)) (order : list str) :
  Forall window_event evs → Forall encodable (omap listed_object evs) →
  let t1 := run (handle_event [] Init t).1 evs in
  order ≡ₚ elements (dom (cache t1)) →
  cache (handle_event order InitDone t1).1 = listed (omap listed_object evs)
  ∧ init_flag (handle_event order InitDone t1).1 = true
  ∧ ∃ gone, (handle_event order InitDone t1).2 = (WDelete <$> gone) ++ [WInitDone].
Proof.
  intros Hw He t1 Ho. assert (in_window (listed (omap listed_object evs)) t1) as [Hs Hm].
  { apply window_run; [done..|]. split; [by simpl; rewrite dom_empty_L|apply map_empty_subseteq]. }
  simpl. rewrite Hs. pose proof (reconcile_keeps_seen order _ _ Hm Ho) as Hc.
  cbn [reconcile_init_seen fst] in *. split_and!; [done|done|by eexists].
Qed.

(** C1: every subscriber converges: in any interleaving of watch events, records,
    bounded drains, emissions and new subscriptions, the batch being emitted, the
    pending deltas and the records due turn each subscriber's rows into the
    watcher's cache; so as soon as the channel is quiet every subscriber has exactly
    the cached rows, whenever it joined. *)
Theorem subscribers_converge (t : Task) (s : Sys) :
  rtc sys_step (sys_init t) s → closed (ch s) = false →
  Forall (λ m, on_the_way s m = cache (task s)) (mirrors s)
  ∧ (todo s = [] → has_work (ch s) = false → inflight s = None →
     Forall (λ m, m = cache (task s)) (mirrors s)).
Proof.
  intros Hr Hc. assert (sys_inv s) as [_ _ Hm].
  { eapply (rtc_preserves sys_step); [by eauto using sys_step_inv| |exact Hr].
    by split; [decided|intros; apply map_eq; intros u; unfold on_the_way, pending; simpl;
      rewrite lookup_overlay|constructor]. }
  specialize (Hm Hc). split; [done|]. intros Ht Hw Hi. eapply Forall_impl; [exact Hm|].
  intros m. unfold on_the_way. rewrite Ht, Hi. simpl. intros <-. unfold has_work in Hw. bool_to_prop.
  apply map_eq. intros u. unfold pending. by rewrite lookup_overlay, H, H1, lookup_empty.
Qed.
End Convergence.

(** ** A small kind: a uid and a status *)

Definition demo_obj : Type := str * str.

Definition demo_uid (o : demo_obj) : option str := Some o.1.

Definition demo_labels (o : demo_obj) : list (str * str) := [(lit "app", lit "web")].

Definition demo_project (o : demo_obj) : Value :=
  VObject {[ lit "name" := VString o.1; lit "status" := VString o.2 ]}.

(** An encoder: the status is all that changes. *)
Definition demo_encode (v : Value) : option str := get_str v (lit "status").

Local Abbreviation demo_handle := (handle_event demo_uid demo_labels demo_project demo_encode).
Local Abbreviation demo_run := (run demo_uid demo_labels demo_project demo_encode).

Definition demo_old : Task :=
  {| cache := {[ lit "a" := lit "up"; lit "gone" := lit "up" ]}; init_seen := None; init_flag := true;
     preview := false |}.

Definition demo_relist : list (Event demo_obj) :=
  [InitApply (lit "a", lit "down"); StreamError; InitApply (lit "b", lit "up")].

Lemma resync_exact_witness :
  cache (demo_handle [lit "gone"; lit "b"; lit "a"] InitDone
           (demo_run (demo_handle [] Init demo_old).1 demo_relist)).1
  = {[ lit "a" := lit "down"; lit "b" := lit "up" ]}.
Proof.
  destruct (resync_exact demo_uid demo_labels demo_project demo_encode demo_old demo_relist
              [lit "gone"; lit "b"; lit "a"]) as [-> _].
  - repeat constructor.
  - repeat constructor; intros uid [= <-]; eexists; vm_compute; reflexivity.
  - decided.
  - vm_compute. reflexivity.
Defined.

(** Two objects, one drained before the second event; a subscriber joins between. *)
Definition demo_sys : Sys :=
  {| task := {| cache := {[ lit "a" := lit "down" ]}; init_seen := None; init_flag := false; preview := false |};
     todo := []; ch := new; inflight := None; mirrors := [ {[ lit "a" := lit "down" ]} ] |}.

Lemma demo_sys_reachable :
  rtc (sys_step demo_uid demo_labels demo_project demo_encode) (sys_init start_dynamic) demo_sys.
Proof.
  eapply rtc_l; [apply (sys_event _ _ _ _ [] (Apply (lit "a", lit "up"))); reflexivity|].
  eapply rtc_l; [apply sys_record|]. eapply rtc_l; [apply sys_subscribe|].
  eapply rtc_l; [apply (sys_event _ _ _ _ [] (Apply (lit "a", lit "down"))); reflexivity|].
  eapply rtc_l; [apply (sys_drain _ _ _ _ 1000 [] []); intros ? []%elem_of_nil|].
  eapply rtc_l; [apply sys_emit|]. eapply rtc_l; [apply sys_record|].
  eapply rtc_l; [apply (sys_drain _ _ _ _ 1000 [] []); intros ? []%elem_of_nil|].
  eapply rtc_l; [apply sys_emit|].
  match goal with |- rtc _ ?x _ => replace x with demo_sys by (vm_compute; reflexivity) end.
  apply rtc_refl.
Qed.

Lemma subscribers_converge_witness :
  Forall (λ m, m = cache (task demo_sys)) (mirrors demo_sys).
Proof.
  apply (subscribers_converge demo_uid demo_labels demo_project demo_encode start_dynamic demo_sys
           demo_sys_reachable); reflexivity.
Defined.
