(* ===== verification/HelmIndex.v ===== *)
(** * The Helm release index (kube-ext/src/kinds/helm_releases.rs)

    The per-secret revision index of the Helm watchers, the changes it reports
    about the latest revision of each release, and the chart usage counts derived
    from those changes. *)

From S2P Require Import Prelude.

Abbreviation ReleaseKey := (str * str)%type.

Section Index.
Context {T : Type} `{!EqDecision T}.

Inductive LatestChange : Type :=
  | CUpsert (key : ReleaseKey) (prev : option T) (latest : T)
  | CDelete (key : ReleaseKey) (prev : T).

Record Revision : Type := {
  version : Z;
  resource_version : option str;
  payload : T
}.

Record ReleaseIndex : Type := {
  owner : gmap str ReleaseKey;
  releases : gmap ReleaseKey (gmap str Revision)
}.

Definition empty_index : ReleaseIndex := {| owner := ∅; releases := ∅ |}.

(** The order of [latest_of]: by version, then by secret uid. *)
Definition rev_leb (a b : str * Revision) : bool :=
  match (version a.2 ?= version b.2)%Z with
  | Lt => true
  | Gt => false
  | Eq => str_leb a.1 b.1
  end.

Definition latest_of (revs : gmap str Revision) : option Revision :=
  snd <$> max_by rev_leb (map_to_list revs).

Definition is_current (i : ReleaseIndex) (secret_uid : str) (rv : option str) : bool :=
  bool_decide (is_Some rv)
  && match (k ← owner i !! secret_uid; revs ← releases i !! k; revs !! secret_uid) with
     | Some r => bool_decide (resource_version r = rv)
     | None => false
     end.

Definition latest (i : ReleaseIndex) (key : ReleaseKey) : option T :=
  revs ← releases i !! key; payload <$> latest_of revs.

Definition iter_latest (i : ReleaseIndex) : list (ReleaseKey * T) :=
  omap (λ '(k, revs), r ← latest_of revs; Some (k, payload r)) (map_to_list (releases i)).

Definition remove (secret_uid : str) (i : ReleaseIndex) : option LatestChange * ReleaseIndex :=
  match owner i !! secret_uid with
  | None => (None, i)
  | Some key =>
      let i := {| owner := delete secret_uid (owner i); releases := releases i |} in
      match releases i !! key with
      | None => (None, i)
      | Some revs =>
          match latest_of revs with
          | None => (None, i)
          | Some r =>
              let prev := payload r in
              let revs := delete secret_uid revs in
              match latest_of revs with
              | None =>
                  (Some (CDelete key prev),
                   {| owner := owner i; releases := delete key (releases i) |})
              | Some l =>
                  (if bool_decide (payload l = prev) then None
                   else Some (CUpsert key (Some prev) (payload l)),
                   {| owner := owner i; releases := <[key := revs]> (releases i) |})
              end
          end
      end
  end.

Definition insert_revision (secret_uid : str) (key : ReleaseKey) (rev : Revision)
    (i : ReleaseIndex) : ReleaseIndex :=
  {| owner := <[secret_uid := key]> (owner i);
     releases := <[key := <[secret_uid := rev]> (default ∅ (releases i !! key))]> (releases i) |}.

Definition upsert (secret_uid : str) (key : ReleaseKey) (v : Z) (rv : option str) (p : T)
    (i : ReleaseIndex) : list LatestChange * ReleaseIndex :=
  let '(out, i) :=
    match owner i !! secret_uid with
    | Some k => if bool_decide (k = key) then ([], i)
                else let '(c, i') := remove secret_uid i in (option_list c, i')
    | None => ([], i)
    end in
  let prev := latest i key in
  let i := insert_revision secret_uid key
             {| version := v; resource_version := rv; payload := p |} i in
  (out ++ match latest i key with
          | Some l => if bool_decide (prev = Some l) then [] else [CUpsert key prev l]
          | None => []
          end, i).

(** [order]: how the hash map of owners iterates. *)
Definition retain_seen (order : list str) (seen : gset str) (i : ReleaseIndex)
    : list LatestChange * ReleaseIndex :=
  foldl (λ '(out, i) u, let '(c, i') := remove u i in (out ++ option_list c, i'))
    ([], i) (filter (λ u, u ∉ seen) order).

(** ** The latest view, and what changes say of it *)

Definition view (i : ReleaseIndex) : gmap ReleaseKey T :=
  omap (λ revs, payload <$> latest_of revs) (releases i).

Definition apply_change (c : LatestChange) (V : gmap ReleaseKey T) : gmap ReleaseKey T :=
  match c with
  | CUpsert k _ l => <[k := l]> V
  | CDelete k _ => delete k V
  end.

(** The change carries what was there before, and changes something. *)
Definition change_ok (c : LatestChange) (V : gmap ReleaseKey T) : Prop :=
  match c with
  | CUpsert k prev l => V !! k = prev ∧ prev ≠ Some l
  | CDelete k prev => V !! k = Some prev
  end.

Fixpoint changes_ok (cs : list LatestChange) (V : gmap ReleaseKey T) : Prop :=
  match cs with
  | [] => True
  | c :: cs' => change_ok c V ∧ changes_ok cs' (apply_change c V)
  end.

Definition apply_changes (cs : list LatestChange) (V : gmap ReleaseKey T) : gmap ReleaseKey T :=
  foldl (λ V c, apply_change c V) V cs.

(** ** The index as a set of secrets *)

Definition secret (i : ReleaseIndex) (u : str) : option (ReleaseKey * Revision) :=
  k ← owner i !! u; revs ← releases i !! k; r ← revs !! u; Some (k, r).

Record index_ok (i : ReleaseIndex) : Prop := {
  ok_owner : ∀ u k, owner i !! u = Some k ↔ ∃ revs, releases i !! k = Some revs ∧ is_Some (revs !! u);
  ok_nonempty : ∀ k revs, releases i !! k = Some revs → revs ≠ ∅
}.

Lemma rev_leb_total x y : rev_leb x y = true ∨ rev_leb y x = true.
Proof.
  unfold rev_leb. rewrite (Z.compare_antisym (version y.2)).
  destruct (version y.2 ?= version x.2)%Z eqn:E; simpl; auto. apply str_leb_total.
Qed.

Lemma rev_leb_spec x y :
  rev_leb x y = true ↔
  (version x.2 < version y.2)%Z ∨ version x.2 = version y.2 ∧ str_leb x.1 y.1 = true.
Proof. unfold rev_leb. destruct (Z.compare_spec (version x.2) (version y.2)); intuition lia. Qed.

Lemma rev_leb_trans x y z : rev_leb x y = true → rev_leb y z = true → rev_leb x z = true.
Proof.
  rewrite !rev_leb_spec. intros [?|[? ?]] [?|[? ?]]; try (left; lia).
  right. split; [lia|]. by eapply str_leb_trans.
Qed.

Lemma latest_of_spec (revs : gmap str Revision) :
  match latest_of revs with
  | Some r => ∃ u, revs !! u = Some r ∧ ∀ u' r', revs !! u' = Some r' → rev_leb (u', r') (u, r) = true
  | None => revs = ∅
  end.
Proof.
  unfold latest_of.
  pose proof (max_by_spec rev_leb (map_to_list revs) rev_leb_total rev_leb_trans) as H.
  destruct (max_by rev_leb (map_to_list revs)) as [[u r]|]; simpl.
  - destruct H as [Hin Hmax]. exists u. split; [by apply elem_of_map_to_list|].
    intros u' r' Hr. apply Hmax. by apply elem_of_map_to_list.
  - by apply map_to_list_empty_iff.
Qed.

Lemma latest_of_some (revs : gmap str Revision) : revs ≠ ∅ → is_Some (latest_of revs).
Proof. intros H. pose proof (latest_of_spec revs). by destruct (latest_of revs). Qed.

Lemma lookup_view (i : ReleaseIndex) (k : ReleaseKey) : view i !! k = latest i k.
Proof. unfold view, latest. rewrite lookup_omap. by destruct (releases i !! k). Qed.

Lemma secret_owner (i : ReleaseIndex) (u : str) :
  index_ok i → fst <$> secret i u = owner i !! u.
Proof.
  intros [Ho _]. unfold secret. destruct (owner i !! u) as [k|] eqn:E; simpl; [|done].
  apply Ho in E as (revs & -> & [r Hr]). simpl. by rewrite Hr.
Qed.

(** Setting or clearing the revisions of one release. *)
Lemma view_insert i k revs l o :
  latest_of revs = Some l →
  view {| owner := o; releases := <[k := revs]> (releases i) |} = <[k := payload l]> (view i).
Proof.
  intros Hl. apply map_eq. intros k'. unfold view; simpl. rewrite lookup_omap.
  destruct (decide (k' = k)) as [->|Hne].
  - rewrite !lookup_insert_eq. simpl. by rewrite Hl.
  - by rewrite !lookup_insert_ne, lookup_omap by done.
Qed.

Lemma view_delete i k o :
  view {| owner := o; releases := delete k (releases i) |} = delete k (view i).
Proof. unfold view. simpl. by rewrite omap_delete. Qed.

(** *** Removing a secret *)

Lemma removed_ok u key revs (i i' : ReleaseIndex) :
  index_ok i → releases i !! key = Some revs → is_Some (revs !! u) →
  owner i' = delete u (owner i) →
  (∀ k, releases i' !! k = if decide (k = key)
                           then if decide (delete u revs = ∅) then None else Some (delete u revs)
                           else releases i !! k) →
  index_ok i' ∧ ∀ w, secret i' w = if decide (w = u) then None else secret i w.
Proof.
  intros Hok Hr Hu Ho Hl. destruct Hok as [Hown Hne].
  assert (∀ k revs', releases i !! k = Some revs' → is_Some (revs' !! u) → k = key) as Huniq.
  { intros k revs' Hk Hk'. assert (owner i !! u = Some k) by (apply Hown; eauto).
    assert (owner i !! u = Some key) by (apply Hown; eauto). congruence. }
  assert (∀ w k, owner i' !! w = Some k ↔ ∃ revs', releases i' !! k = Some revs' ∧ is_Some (revs' !! w)) as Hown'.
  { intros w k. rewrite Ho, Hl. destruct (decide (w = u)) as [->|Hwu].
    - rewrite lookup_delete_eq. split; [done|]. intros (revs' & Hk & Hw). destruct (decide (k = key)) as [->|Hne'].
      + destruct (decide (delete u revs = ∅)); [done|]. simplify_eq.
        rewrite lookup_delete_eq in Hw. by destruct Hw.
      + by destruct Hne'; eapply Huniq.
    - rewrite lookup_delete_ne, Hown by done. destruct (decide (k = key)) as [->|]; [|done]. split.
      + intros (revs' & Hrevs & Hw). simplify_eq. exists (delete u revs).
        rewrite lookup_delete_ne by done. split; [|done]. rewrite decide_False; [done|].
        intros He. rewrite <- (lookup_delete_ne revs u w), He, lookup_empty in Hw by done. by destruct Hw.
      + intros (revs' & Hrevs & Hw). destruct (decide (delete u revs = ∅)); [done|].
        simplify_eq. exists revs.
        by rewrite lookup_delete_ne in Hw by done. }
  split.
  - split; [done|]. intros k revs'. rewrite Hl. destruct (decide (k = key)); [|by apply Hne].
    destruct (decide (delete u revs = ∅)); [done|]. by intros [= <-].
  - intros w. unfold secret. rewrite Ho. destruct (decide (w = u)) as [->|Hwu].
    + by rewrite lookup_delete_eq.
    + rewrite lookup_delete_ne by done. destruct (owner i !! w) as [k|] eqn:Ew; simpl; [|done].
      rewrite Hl. apply Hown in Ew as (revs' & Hk & [r Hw]). rewrite Hk.
      destruct (decide (k = key)) as [->|]; simpl; [|done]. simplify_eq. rewrite decide_False.
      * simpl. by rewrite lookup_delete_ne.
      * intros He. rewrite <- (lookup_delete_ne revs u w), He, lookup_empty in Hw by done. done.
Qed.

Lemma remove_spec u (i i' : ReleaseIndex) c :
  index_ok i → remove u i = (c, i') →
  index_ok i' ∧ changes_ok (option_list c) (view i)
  ∧ view i' = apply_changes (option_list c) (view i)
  ∧ ∀ w, secret i' w = if decide (w = u) then None else secret i w.
Proof.
  intros Hok. unfold remove. destruct (owner i !! u) as [key|] eqn:Eo.
  2:{ intros [= <- <-]. split_and!; [done..|]. intros w. case_decide; [subst w|done].
      unfold secret. by rewrite Eo. }
  destruct (proj1 (ok_owner _ Hok u key) Eo) as (revs & Hr & Hu).
  cbn [releases owner]. rewrite Hr.
  pose proof (latest_of_some revs (ok_nonempty _ Hok _ _ Hr)) as [r Hlr]. rewrite Hlr.
  assert (view i !! key = Some (payload r)) as Hv.
  { rewrite lookup_view. unfold latest. rewrite Hr. simpl. by rewrite Hlr. }
  cbv zeta. pose proof (latest_of_spec (delete u revs)) as Hl.
  destruct (latest_of (delete u revs)) as [l|] eqn:El.
  - assert (delete u revs ≠ ∅) as Hne.
    { intros He. destruct Hl as (u' & Hu' & _). by rewrite He, lookup_empty in Hu'. }
    intros [= <- <-].
    destruct (removed_ok u key revs i {| owner := delete u (owner i);
                releases := <[key := delete u revs]> (releases i) |}) as [Hok' Hsec]; [done..| |].
    { intros k. simpl. rewrite (decide_False (P := delete u revs = ∅)) by done. case_decide.
      - subst k. by rewrite lookup_insert_eq.
      - by rewrite lookup_insert_ne. }
    split; [exact Hok'|]. rewrite (view_insert i key _ l) by done.
    case_bool_decide as Hp; simpl; split_and!; try done.
    + rewrite Hp. by rewrite insert_id.
    + congruence.
  - intros [= <- <-]. simpl. rewrite view_delete.
    destruct (removed_ok u key revs i {| owner := delete u (owner i);
                releases := delete key (releases i) |}) as [Hok' Hsec]; [done..| |].
    { intros k. simpl. rewrite (decide_True (P := delete u revs = ∅)) by done. case_decide.
      - subst k. by rewrite lookup_delete_eq.
      - by rewrite lookup_delete_ne. }
    split_and!; done.
Qed.

(** *** Inserting a secret *)

Lemma insert_revision_ok u key rev (i : ReleaseIndex) :
  index_ok i → (∀ k, owner i !! u = Some k → k = key) →
  index_ok (insert_revision u key rev i)
  ∧ ∀ w, secret (insert_revision u key rev i) w = if decide (w = u) then Some (key, rev) else secret i w.
Proof.
  intros [Hown Hne] Hu.
  assert (∀ w, w ≠ u → default ∅ (releases i !! key) !! w
                       = (revs ← releases i !! key; revs !! w)) as Hd.
  { intros w Hw. destruct (releases i !! key); simpl; [done|]. apply lookup_empty. }
  split; [split|].
  - intros w k. simpl. destruct (decide (w = u)) as [->|Hwu].
    + rewrite lookup_insert_eq. split.
      * intros [= <-]. eexists. by rewrite !lookup_insert_eq.
      * intros (revs & Hr & Hw). f_equal. destruct (decide (key = k)) as [|Hk]; [done|].
        rewrite lookup_insert_ne in Hr by done. symmetry. apply Hu, Hown. eauto.
    + rewrite lookup_insert_ne, Hown by done. destruct (decide (k = key)) as [->|Hk].
      * rewrite lookup_insert_eq. setoid_rewrite (inj_iff Some). split.
        -- intros (revs & Hr & Hw). eexists. split; [done|]. by rewrite lookup_insert_ne, Hr.
        -- intros (revs & <- & Hw). rewrite lookup_insert_ne, Hd in Hw by done.
           destruct (releases i !! key); [by eexists|by destruct Hw].
      * by rewrite lookup_insert_ne.
  - intros k revs. simpl. destruct (decide (k = key)) as [->|Hk].
    + rewrite lookup_insert_eq. intros [= <-]. apply insert_non_empty.
    + rewrite lookup_insert_ne by done. apply Hne.
  - intros w. unfold secret. simpl. case_decide as Hwu.
    + subst w. rewrite lookup_insert_eq. simpl. rewrite lookup_insert_eq. simpl. by rewrite lookup_insert_eq.
    + rewrite lookup_insert_ne by done. destruct (owner i !! w) as [k|] eqn:Ew; simpl; [|done].
      apply Hown in Ew as (revs & Hr & [r Hw]). destruct (decide (k = key)) as [->|Hk].
      * rewrite lookup_insert_eq, Hr. simpl. by rewrite lookup_insert_ne.
      * by rewrite lookup_insert_ne.
Qed.

(** The release was moved away from before being inserted elsewhere. *)
Lemma upsert_spec u key v rv p (i i' : ReleaseIndex) cs :
  index_ok i → upsert u key v rv p i = (cs, i') →
  index_ok i' ∧ changes_ok cs (view i) ∧ view i' = apply_changes cs (view i)
  ∧ ∀ w, secret i' w = if decide (w = u)
                       then Some (key, {| version := v; resource_version := rv; payload := p |})
                       else secret i w.
Proof.
  intros Hok. unfold upsert.
  set (rev := {| version := v; resource_version := rv; payload := p |}).
  set (first := match owner i !! u with Some k => _ | None => _ end).
  assert (∃ out i1, first = (out, i1) ∧ index_ok i1 ∧ changes_ok out (view i)
    ∧ view i1 = apply_changes out (view i) ∧ (∀ k, owner i1 !! u = Some k → k = key)
    ∧ ∀ w, w ≠ u → secret i1 w = secret i w) as (out & i1 & -> & Hok1 & Hcs & Hv & Hu & Hsec).
  { unfold first. destruct (owner i !! u) as [k|] eqn:Eo; [|eexists _, _; split_and!; try done; congruence].
    case_bool_decide as Hk; [eexists _, _; split_and!; try done; congruence|].
    destruct (remove u i) as [c i1] eqn:Er. apply remove_spec in Er as (? & ? & ? & Hs); [|done].
    eexists _, _. split_and!; try done.
    - intros k'. rewrite <- secret_owner, Hs, decide_True by done. done.
    - intros w Hw. by rewrite Hs, decide_False. }
  destruct (insert_revision_ok u key rev i1 Hok1 Hu) as [Hok2 Hsec2].
  assert (∃ l, latest (insert_revision u key rev i1) key = Some l
               ∧ view (insert_revision u key rev i1) = <[key := l]> (view i1)) as (l & Hl & Hv2).
  { destruct (latest_of_some (<[u := rev]> (default ∅ (releases i1 !! key)))) as [r Hr];
      [apply insert_non_empty|].
    exists (payload r). split.
    - unfold latest. simpl. rewrite lookup_insert_eq. simpl. by rewrite Hr.
    - unfold insert_revision. by rewrite (view_insert i1 key _ r). }
  rewrite Hl. intros [= <- <-].
  assert (∀ a b V, apply_changes (a ++ b) V = apply_changes b (apply_changes a V)) as Happ
    by (intros; apply foldl_app).
  assert (∀ a b V, changes_ok (a ++ b) V ↔ changes_ok a V ∧ changes_ok b (apply_changes a V)) as Hcapp.
  { induction a as [|x a IH]; intros b V; simpl; [tauto|]. rewrite IH. tauto. }
  split; [done|]. rewrite Hcapp, Happ, <- Hv, Hv2. split_and!; [done|..].
  - case_bool_decide as Hp; simpl; [done|]. by rewrite lookup_view.
  - case_bool_decide as Hp; simpl; [|done]. by rewrite insert_id by by rewrite lookup_view.
  - intros w. rewrite Hsec2. case_decide; [done|auto].
Qed.

Lemma apply_changes_app (a b : list LatestChange) (V : gmap ReleaseKey T) :
  apply_changes (a ++ b) V = apply_changes b (apply_changes a V).
Proof. apply foldl_app. Qed.

Lemma changes_ok_app (a b : list LatestChange) (V : gmap ReleaseKey T) :
  changes_ok (a ++ b) V ↔ changes_ok a V ∧ changes_ok b (apply_changes a V).
Proof. revert V. induction a as [|x a IH]; intros V; simpl; [tauto|]. rewrite IH. tauto. Qed.

(** *** Removing what a relist did not show *)

Lemma remove_all_spec (l : list str) (out : list LatestChange) (i : ReleaseIndex) :
  index_ok i →
  let '(out', i') := foldl (λ '(out, i) u, let '(c, i') := remove u i in (out ++ option_list c, i'))
                       (out, i) l in
  ∃ cs, out' = out ++ cs ∧ index_ok i' ∧ changes_ok cs (view i)
    ∧ view i' = apply_changes cs (view i)
    ∧ ∀ w, secret i' w = if decide (w ∈ l) then None else secret i w.
Proof.
  revert out i. induction l as [|u l IH]; intros out i Hok; cbn [foldl].
  { exists []. rewrite app_nil_r. by split_and!. }
  destruct (remove u i) as [c i1] eqn:Er. apply remove_spec in Er as (Hok1 & Hc & Hv & Hs); [|done].
  specialize (IH (out ++ option_list c) i1 Hok1). destruct (foldl _ _ _) as [out' i'].
  destruct IH as (cs & -> & Hok' & Hcs & Hv' & Hs'). exists (option_list c ++ cs).
  rewrite changes_ok_app, apply_changes_app, <- Hv. split_and!; try done; [by rewrite app_assoc|].
  intros w. rewrite Hs', Hs. destruct (decide (w = u)) as [->|Hw].
  - rewrite (decide_True (P := u ∈ u :: l)) by by left. by destruct (decide (u ∈ l)).
  - repeat case_decide; set_solver.
Qed.

Lemma retain_seen_spec order seen (i i' : ReleaseIndex) cs :
  index_ok i → order ≡ₚ elements (dom (owner i)) → retain_seen order seen i = (cs, i') →
  index_ok i' ∧ changes_ok cs (view i) ∧ view i' = apply_changes cs (view i)
  ∧ ∀ w, secret i' w = if decide (w ∈ seen) then secret i w else None.
Proof.
  intros Hok Ho. unfold retain_seen.
  pose proof (remove_all_spec (filter (λ u, u ∉ seen) order) [] i Hok) as H.
  destruct (foldl _ _ _) as [out i1]. intros [= -> ->]. destruct H as (cs' & -> & ? & ? & ? & Hs).
  split_and!; try done. intros w. rewrite Hs. destruct (decide (w ∈ seen)) as [Hw|Hw].
  - rewrite decide_False; [done|]. rewrite list_elem_of_filter. tauto.
  - case_decide as Hin; [done|]. destruct (secret i w) as [[k r]|] eqn:E; [|done]. destruct Hin.
    apply list_elem_of_filter. split; [done|]. rewrite Ho. apply elem_of_elements, elem_of_dom.
    rewrite <- secret_owner, E by done. by eexists.
Qed.

(** *** A property of all stored payloads *)

Section Payloads.
Context (Q : ReleaseKey → T → Prop).

Definition index_all (i : ReleaseIndex) : Prop :=
  ∀ k revs u r, releases i !! k = Some revs → revs !! u = Some r → Q k (payload r).

Definition change_all (c : LatestChange) : Prop :=
  match c with CUpsert k _ l => Q k l | CDelete k prev => Q k prev end.

Lemma latest_of_all i k revs r :
  index_all i → releases i !! k = Some revs → latest_of revs = Some r → Q k (payload r).
Proof.
  intros Hi Hk Hl. pose proof (latest_of_spec revs) as H. rewrite Hl in H.
  destruct H as (u & Hu & _). by eapply Hi.
Qed.

Lemma index_all_set i k revs o :
  index_all i → (∀ u r, revs !! u = Some r → Q k (payload r)) →
  index_all {| owner := o; releases := <[k := revs]> (releases i) |}.
Proof.
  intros Hi Hr k' revs' u r. simpl. destruct (decide (k' = k)) as [->|].
  - rewrite lookup_insert_eq. intros [= <-]. apply Hr.
  - rewrite lookup_insert_ne by done. apply Hi.
Qed.

Lemma remove_all u i i' c :
  index_all i → remove u i = (c, i') → index_all i' ∧ Forall change_all (option_list c).
Proof.
  intros Hi. unfold remove. destruct (owner i !! u) as [k|]; [|by intros [= <- <-]].
  cbn [releases owner]. destruct (releases i !! k) as [revs|] eqn:Er; [|by intros [= <- <-]].
  destruct (latest_of revs) as [r|] eqn:El; [|by intros [= <- <-]]. cbv zeta.
  pose proof (latest_of_all i k revs r Hi Er El) as Hr.
  assert (∀ u' r', delete u revs !! u' = Some r' → Q k (payload r')) as Hd.
  { intros u' r' [_ Hu']%lookup_delete_Some. by eapply Hi. }
  pose proof (latest_of_spec (delete u revs)) as Hl.
  destruct (latest_of (delete u revs)) as [l|]; intros [= <- <-].
  - destruct Hl as (u' & Hu' & _). split; [by apply index_all_set|].
    case_bool_decide; repeat constructor. by eapply Hd.
  - split; [|by repeat constructor]. intros k' revs' u' r'. simpl.
    intros [_ Hk']%lookup_delete_Some. by eapply Hi.
Qed.

Lemma upsert_all u k v rv p i i' cs :
  index_all i → Q k p → upsert u k v rv p i = (cs, i') → index_all i' ∧ Forall change_all cs.
Proof.
  intros Hi Hq. unfold upsert. set (first := match owner i !! u with Some _ => _ | None => _ end).
  assert (∃ out i1, first = (out, i1) ∧ index_all i1 ∧ Forall change_all out)
    as (out & i1 & -> & Hi1 & Hout).
  { unfold first. destruct (owner i !! u) as [k'|]; [|by eexists _, _].
    case_bool_decide; [by eexists _, _|]. destruct (remove u i) as [c i1] eqn:E.
    eexists _, _. split; [done|]. by eapply remove_all. }
  set (rev := {| version := v; resource_version := rv; payload := p |}).
  assert (index_all (insert_revision u k rev i1)) as Hi2.
  { apply index_all_set; [done|]. intros u' r'. destruct (decide (u' = u)) as [->|].
    - rewrite lookup_insert_eq. by intros [= <-].
    - rewrite lookup_insert_ne by done. destruct (releases i1 !! k) eqn:E; simpl; [|by rewrite lookup_empty].
      by eapply Hi1. }
  intros [= <- <-]. split; [done|]. apply Forall_app. split; [done|].
  unfold latest. destruct (releases (insert_revision u k rev i1) !! k) as [revs|] eqn:E; simpl; [|done].
  destruct (latest_of revs) as [l|] eqn:El; simpl; [|done].
  case_bool_decide; repeat constructor. by eapply latest_of_all.
Qed.

Lemma retain_seen_all order seen i i' cs :
  index_all i → retain_seen order seen i = (cs, i') → index_all i' ∧ Forall change_all cs.
Proof.
  unfold retain_seen. generalize (filter (λ u, u ∉ seen) order). intros l Hi.
  assert (∀ out i, Forall change_all out → index_all i →
    let '(out', i') := foldl (λ '(out, i) u, let '(c, i') := remove u i in (out ++ option_list c, i'))
                         (out, i) l in index_all i' ∧ Forall change_all out') as H.
  { clear. induction l as [|u l IH]; intros out i Ho Hi; cbn [foldl]; [done|].
    destruct (remove u i) as [c i1] eqn:E. apply remove_all in E as [? ?]; [|done].
    apply IH; [by apply Forall_app|done]. }
  specialize (H [] i (Forall_nil_2 _) Hi). destruct (foldl _ _ _). by intros [= <- <-].
Qed.
End Payloads.

(** ** Specification: a set of secrets *)

Abbreviation Secrets := (gmap str (ReleaseKey * Revision)).

(** The index next to the secrets it stands for, and the changes reported. *)
Inductive index_step : ReleaseIndex * Secrets * list LatestChange →
                       ReleaseIndex * Secrets * list LatestChange → Prop :=
  | step_upsert u k v rv p i X cs :
      index_step (i, X, cs)
        ((upsert u k v rv p i).2,
         <[u := (k, {| version := v; resource_version := rv; payload := p |})]> X,
         cs ++ (upsert u k v rv p i).1)
  | step_remove u i X cs :
      index_step (i, X, cs) ((remove u i).2, delete u X, cs ++ option_list (remove u i).1)
  | step_retain order seen i X cs :
      order ≡ₚ elements (dom (owner i)) →
      index_step (i, X, cs)
        ((retain_seen order seen i).2, filter (λ kv, kv.1 ∈ seen) X,
         cs ++ (retain_seen order seen i).1).

(** The revision shown for a release: the greatest of its secrets. *)
Definition is_latest (X : Secrets) (k : ReleaseKey) (p : T) : Prop :=
  ∃ u rev, X !! u = Some (k, rev) ∧ payload rev = p
    ∧ ∀ u' rev', X !! u' = Some (k, rev') → rev_leb (u', rev') (u, rev) = true.

Lemma latest_secrets (i : ReleaseIndex) (k : ReleaseKey) (X : Secrets) :
  index_ok i → (∀ u, secret i u = X !! u) →
  match latest i k with
  | Some p => is_latest X k p
  | None => ∀ u rev, X !! u ≠ Some (k, rev)
  end.
Proof.
  intros [Hown Hne] HS.
  assert (∀ u rev, X !! u = Some (k, rev) ↔ ∃ revs, releases i !! k = Some revs ∧ revs !! u = Some rev) as Hk.
  { intros u rev. rewrite <- HS. unfold secret. split.
    - destruct (owner i !! u) as [k'|]; simpl; [|done].
      destruct (releases i !! k') as [revs|] eqn:Er; simpl; [|done].
      destruct (revs !! u) eqn:Eu; simpl; [|done]. intros [= -> ->]. eauto.
    - intros (revs & Hr & Hu). assert (owner i !! u = Some k) as -> by (apply Hown; eauto).
      simpl. rewrite Hr. simpl. by rewrite Hu. }
  unfold latest. destruct (releases i !! k) as [revs|] eqn:Er; simpl.
  - pose proof (latest_of_spec revs) as Hl. destruct (latest_of revs) as [r|]; simpl.
    + destruct Hl as (u & Hu & Hmax). exists u, r. split_and!; [apply Hk; eauto|done|].
      intros u' r' (revs' & [= <-] & ?)%Hk. by apply Hmax.
    + by destruct (Hne k revs).
  - intros u rev (revs & ? & _)%Hk. done.
Qed.

Definition index_inv (x : ReleaseIndex * Secrets * list LatestChange) : Prop :=
  let '(i, X, cs) := x in
  index_ok i ∧ (∀ u, secret i u = X !! u) ∧ changes_ok cs ∅ ∧ apply_changes cs ∅ = view i.

Lemma index_step_inv x y : index_step x y → index_inv x → index_inv y.
Proof.
  intros Hs. destruct Hs as [u k v rv p i X cs|u i X cs|order seen i X cs Ho];
    intros (Hok & HS & Hcs & Hv); unfold index_inv.
  - destruct (upsert u k v rv p i) as [cs' i'] eqn:E. apply upsert_spec in E as (? & ? & ? & Hs); [|done].
    rewrite changes_ok_app, apply_changes_app, Hv. split_and!; try done. intros w. rewrite Hs.
    destruct (decide (w = u)) as [->|]; simpl; [by rewrite lookup_insert_eq|by rewrite lookup_insert_ne].
  - destruct (remove u i) as [c i'] eqn:E. apply remove_spec in E as (? & ? & ? & Hs); [|done].
    rewrite changes_ok_app, apply_changes_app, Hv. split_and!; try done. intros w. rewrite Hs.
    destruct (decide (w = u)) as [->|]; simpl; [by rewrite lookup_delete_eq|by rewrite lookup_delete_ne].
  - destruct (retain_seen order seen i) as [cs' i'] eqn:E.
    apply retain_seen_spec in E as (? & ? & ? & Hs); [|done..].
    rewrite changes_ok_app, apply_changes_app, Hv. split_and!; try done. intros w. rewrite Hs, HS.
    simpl. symmetry. case_decide.
    + destruct (X !! w) as [x|] eqn:Ew; [by apply map_lookup_filter_Some|].
      apply map_lookup_filter_None. by left.
    + apply map_lookup_filter_None. by right.
Qed.

Lemma index_reachable_inv i X cs :
  rtc index_step (empty_index, ∅, []) (i, X, cs) → index_inv (i, X, cs).
Proof.
  apply rtc_preserves; [by eauto using index_step_inv|].
  {  split_and!; try done. split; [|done]. intros u k. split; [done|]. by intros (revs & ? & _). }
Qed.

(** ** Properties *)

(** C26: after any history of applied, removed and relisted secrets, the index
    stands for exactly the live secrets; what it shows for a release is its
    secret of the highest revision (ties by uid), and nothing once the last is
    gone; a secret counts as current exactly when it is stored with that resource
    version; and the changes it reported, each carrying the previous value and
    each a real change, build exactly the view shown. *)
Theorem index_refines (i : ReleaseIndex) (X : Secrets) (cs : list LatestChange) :
  rtc index_step (empty_index, ∅, []) (i, X, cs) →
  (∀ k, match latest i k with
        | Some p => is_latest X k p
        | None => ∀ u rev, X !! u ≠ Some (k, rev)
        end)
  ∧ (∀ u rv, is_current i u rv = true ↔
       ∃ k rev, X !! u = Some (k, rev) ∧ resource_version rev = rv ∧ is_Some rv)
  ∧ changes_ok cs ∅ ∧ (∀ k, apply_changes cs ∅ !! k = latest i k).
Proof.
  intros (Hok & HS & Hcs & Hv)%index_reachable_inv. split_and!; [|..|done|].
  - intros k. by apply latest_secrets.
  - intros u rv. rewrite <- HS. unfold is_current, secret. rewrite andb_true_iff, bool_decide_eq_true.
    destruct (owner i !! u) as [k|]; simpl; [|naive_solver].
    destruct (releases i !! k) as [revs|]; simpl; [|naive_solver].
    destruct (revs !! u) as [r|]; simpl; [|naive_solver]. rewrite bool_decide_eq_true. naive_solver.
  - intros k. by rewrite Hv, lookup_view.
Qed.
End Index.

#[global] Arguments LatestChange : clear implicits.
#[global] Arguments Revision : clear implicits.
#[global] Arguments ReleaseIndex : clear implicits.

(** ** Chart usage *)

Record ChartRef : Set := {
  cr_name : str;
  cr_version : str;
  app_version : option str;
  description : option str
}.

#[export] Instance chart_ref_eq_dec : EqDecision ChartRef.
Proof. solve_decision. Defined.

Abbreviation ChartKey := (str * str)%type.

Abbreviation ChartUsage := (gmap ChartKey (ChartRef * nat)).

Definition chart_key (c : ChartRef) : ChartKey := (cr_name c, cr_version c).

(** One release less, one release more on a chart. *)
Definition release_chart (U : ChartUsage) (key : ChartKey) : ChartUsage :=
  match U !! key with
  | Some (c, n) => if bool_decide (n - 1 = 0) then delete key U else <[key := (c, n - 1)]> U
  | None => U
  end.

Definition use_chart (U : ChartUsage) (c : ChartRef) : ChartUsage :=
  let '(c', n) := default (c, 0) (U !! chart_key c) in <[chart_key c := (c', n + 1)]> U.

(** [ChartUsage::apply]: the keys whose row changed, and the counts. *)
Definition usage_apply (change : LatestChange (option ChartRef)) (U : ChartUsage)
    : list ChartKey * ChartUsage :=
  let '(prev, next) :=
    match change with
    | CUpsert _ prev latest => (mjoin prev, latest)
    | CDelete _ prev => (prev, None)
    end in
  let '(touched, U) :=
    match prev with
    | Some p => ([chart_key p], release_chart U (chart_key p))
    | None => ([], U)
    end in
  match next with
  | Some n =>
      (if bool_decide (chart_key n ∈ touched) then touched else touched ++ [chart_key n],
       use_chart U n)
  | None => (touched, U)
  end.

Definition usage_get (U : ChartUsage) (key : ChartKey) : option (ChartRef * nat) := U !! key.

Definition usage_apply_all (cs : list (LatestChange (option ChartRef))) (U : ChartUsage) : ChartUsage :=
  foldl (λ U c, (usage_apply c U).2) U cs.

(** How many releases' latest revision is of the chart. *)
Definition on_chart (key : ChartKey) (p : option ChartRef) : nat :=
  if decide (chart_key <$> p = Some key) then 1 else 0.

Definition uses (V : gmap ReleaseKey (option ChartRef)) (key : ChartKey) : nat :=
  size (filter (λ kp, chart_key <$> kp.2 = Some key) V).

Definition on_entry (key : ChartKey) (o : option (option ChartRef)) : nat :=
  match o with Some p => on_chart key p | None => 0 end.

Lemma uses_delete V k key : uses V key = uses (delete k V) key + on_entry key (V !! k).
Proof.
  unfold uses, on_entry, on_chart. rewrite map_filter_delete.
  destruct (V !! k) as [p|] eqn:E.
  - case_decide as Hp.
    + assert (filter (λ kp, chart_key <$> kp.2 = Some key) V !! k = Some p) as Hk
        by by apply map_lookup_filter_Some.
      rewrite map_size_delete, Hk.
      assert (size (filter (λ kp, chart_key <$> kp.2 = Some key) V) ≠ 0); [|lia].
      apply map_size_non_empty_iff. intros He. by rewrite He, lookup_empty in Hk.
    + rewrite delete_id; [lia|]. apply map_lookup_filter_None. right. intros ? ?. by simplify_eq.
  - rewrite delete_id; [lia|]. apply map_lookup_filter_None. by left.
Qed.

Lemma uses_insert V k p key : uses (<[k := p]> V) key = uses (delete k V) key + on_chart key p.
Proof.
  rewrite (uses_delete (<[k := p]> V) k). by rewrite delete_insert_eq, lookup_insert_eq.
Qed.

(** The counts are those of the view. *)
Definition usage_ok (V : gmap ReleaseKey (option ChartRef)) (U : ChartUsage) : Prop :=
  ∀ key, match U !! key with
         | Some (c, n) => chart_key c = key ∧ 0 < n ∧ n = uses V key
         | None => uses V key = 0
         end.

(** A table holding given positive counts. *)
Definition counts (U : ChartUsage) (f : ChartKey → nat) : Prop :=
  ∀ key, match U !! key with
         | Some (c, n) => chart_key c = key ∧ 0 < n ∧ n = f key
         | None => f key = 0
         end.

Lemma counts_ext U f g : (∀ key, f key = g key) → counts U f → counts U g.
Proof. intros Hfg HU key. rewrite <- Hfg. apply HU. Qed.

Lemma release_chart_counts U f c :
  counts U (λ key, f key + on_chart key (Some c)) → counts (release_chart U (chart_key c)) f.
Proof.
  intros HU. unfold release_chart. pose proof (HU (chart_key c)) as Hc.
  assert (on_chart (chart_key c) (Some c) = 1) as H1 by (unfold on_chart; by rewrite decide_True).
  assert (∀ key, key ≠ chart_key c → on_chart key (Some c) = 0) as H0.
  { intros key Hk. unfold on_chart. rewrite decide_False; [done|]. simpl. congruence. }
  destruct (U !! chart_key c) as [[c' n]|] eqn:E; [|lia]. destruct Hc as (Hk & Hn & Hf).
  rewrite H1 in Hf. intros key. destruct (decide (key = chart_key c)) as [->|Hne].
  - case_bool_decide.
    + rewrite lookup_delete_eq. lia.
    + rewrite lookup_insert_eq. split_and!; [done|lia..].
  - specialize (HU key). cbv beta in HU. rewrite H0, Nat.add_0_r in HU by done.
    case_bool_decide; [by rewrite lookup_delete_ne|by rewrite lookup_insert_ne].
Qed.

Lemma use_chart_counts U f c :
  counts U f → counts (use_chart U c) (λ key, f key + on_chart key (Some c)).
Proof.
  intros HU. unfold use_chart. pose proof (HU (chart_key c)) as Hc.
  assert (on_chart (chart_key c) (Some c) = 1) as H1 by (unfold on_chart; by rewrite decide_True).
  assert (∀ key, key ≠ chart_key c → on_chart key (Some c) = 0) as H0.
  { intros key Hk. unfold on_chart. rewrite decide_False; [done|]. simpl. congruence. }
  destruct (U !! chart_key c) as [[c' n]|] eqn:E; simpl; intros key;
    (destruct (decide (key = chart_key c)) as [->|Hne];
     [rewrite lookup_insert_eq, H1|rewrite lookup_insert_ne, H0, Nat.add_0_r by done; by apply HU]).
  - destruct Hc as (? & ? & ?). split_and!; [done|lia..].
  - split_and!; [done|lia..].
Qed.

Lemma usage_apply_ok V U c :
  change_ok c V → usage_ok V U → usage_ok (apply_change c V) (usage_apply c U).2.
Proof.
  intros Hc HU. change (counts (usage_apply c U).2 (uses (apply_change c V))).
  assert (counts U (uses V)) as HU' by exact HU. destruct c as [k prev l|k prev]; simpl in *.
  - destruct Hc as [Hprev _].
    assert (counts (match mjoin prev with Some p => release_chart U (chart_key p) | None => U end)
              (uses (delete k V))) as H1.
    { pose proof (counts_ext _ _ _ (uses_delete V k) HU') as H1. rewrite Hprev in H1.
      destruct prev as [[p|]|]; simpl in *.
      - by apply release_chart_counts.
      - eapply counts_ext; [|exact H1]. intros key. simpl. unfold on_chart. rewrite decide_False; [lia|done].
      - eapply counts_ext; [|exact H1]. intros key. simpl. lia. }
    assert (counts (match l with
                    | Some n => use_chart (match mjoin prev with Some p => release_chart U (chart_key p) | None => U end) n
                    | None => match mjoin prev with Some p => release_chart U (chart_key p) | None => U end
                    end) (uses (<[k := l]> V))) as H2.
    { destruct l as [n|].
      - eapply counts_ext; [|by apply use_chart_counts]. intros key. by rewrite uses_insert.
      - eapply counts_ext; [|exact H1]. intros key. rewrite uses_insert. unfold on_chart.
        rewrite decide_False; [lia|done]. }
    unfold usage_apply. destruct (mjoin prev), l; exact H2.
  - pose proof (counts_ext _ _ _ (uses_delete V k) HU') as H1. rewrite Hc in H1.
    destruct prev as [p|]; simpl in *.
    + by apply release_chart_counts.
    + eapply counts_ext; [|exact H1]. intros key. simpl. unfold on_chart. rewrite decide_False; [lia|done].
Qed.

(** Only touched rows change. *)
Lemma usage_apply_touched c U key :
  key ∉ (usage_apply c U).1 → (usage_apply c U).2 !! key = U !! key.
Proof.
  assert (∀ U p, key ≠ p → release_chart U p !! key = U !! key) as H1.
  { intros U' p Hp. unfold release_chart. repeat case_match; try done.
    - by rewrite lookup_delete_ne.
    - by rewrite lookup_insert_ne. }
  assert (∀ U c, key ≠ chart_key c → use_chart U c !! key = U !! key) as H2.
  { intros U' c' Hp. unfold use_chart. destruct (default _ _). by rewrite lookup_insert_ne. }
  unfold usage_apply.
  destruct c as [k prev [n|]|k [p|]]; [destruct (mjoin prev)|destruct (mjoin prev)|..]; simpl;
    try case_bool_decide; rewrite ?elem_of_cons, ?elem_of_nil; intros Hk;
    rewrite ?H2 by set_solver; rewrite ?H1 by set_solver; done.
Qed.

(** the chart catalogue counts, for every chart, exactly the releases whose
    latest revision uses it, at any point of the history of an index whose
    payloads are charts: a chart nobody uses any more has no row, the counts never
    go below zero, and only the rows reported as touched change. *)
Theorem chart_usage_counts (i : ReleaseIndex (option ChartRef)) secrets cs :
  rtc index_step (empty_index, ∅, []) (i, secrets, cs) →
  let U := usage_apply_all cs ∅ in
  (∀ key, match usage_get U key with
          | Some (c, n) => chart_key c = key ∧ 0 < n ∧ n = uses (view i) key
          | None => uses (view i) key = 0
          end)
  ∧ ∀ c key, key ∉ (usage_apply c U).1 → usage_get (usage_apply c U).2 key = usage_get U key.
Proof.
  intros (Hok & _ & Hcs & Hv)%index_reachable_inv. split; [|intros; by apply usage_apply_touched].
  assert (∀ cs V U, changes_ok cs V → usage_ok V U →
            usage_ok (apply_changes cs V) (usage_apply_all cs U)) as Hgen.
  { clear. induction cs as [|c cs IH]; intros V U Hcs HU; [done|]. destruct Hcs as [Hc Hcs].
    apply IH; [done|]. by apply usage_apply_ok. }
  rewrite <- Hv. apply (Hgen cs ∅ ∅); [done|]. intros key. rewrite lookup_empty. done.
Qed.

(** ** Two revisions of one release, then a rollback by deletion *)

Definition demo_chart (v : string) : option ChartRef :=
  Some {| cr_name := lit "web"; cr_version := v; app_version := None; description := None |}.

Definition demo_key : ReleaseKey := (lit "default", lit "shop").

Definition demo_index : ReleaseIndex (option ChartRef) :=
  (upsert (lit "s2") demo_key 2 (Some (lit "11")) (demo_chart "1.1")
     (upsert (lit "s1") demo_key 1 (Some (lit "10")) (demo_chart "1.0") empty_index).2).2.

Definition demo_secrets : gmap str (ReleaseKey * Revision (option ChartRef)) :=
  {[ lit "s1" := (demo_key, {| version := 1; resource_version := Some (lit "10"); payload := demo_chart "1.0" |});
     lit "s2" := (demo_key, {| version := 2; resource_version := Some (lit "11"); payload := demo_chart "1.1" |}) ]}.

Definition demo_changes : list (LatestChange (option ChartRef)) :=
  [CUpsert demo_key None (demo_chart "1.0");
   CUpsert demo_key (Some (demo_chart "1.0")) (demo_chart "1.1");
   CUpsert demo_key (Some (demo_chart "1.1")) (demo_chart "1.0")].

Lemma demo_index_reachable :
  rtc index_step (empty_index, ∅, [])
    ((remove (lit "s2") demo_index).2, delete (lit "s2") demo_secrets, demo_changes).
Proof.
  eapply rtc_l; [apply (step_upsert (lit "s1") demo_key 1 (Some (lit "10")) (demo_chart "1.0"))|].
  eapply rtc_l; [apply (step_upsert (lit "s2") demo_key 2 (Some (lit "11")) (demo_chart "1.1"))|].
  eapply rtc_l; [apply (step_remove (lit "s2"))|].
  match goal with |- rtc _ ?x ?y => replace x with y by (vm_compute; reflexivity) end.
  apply rtc_refl.
Qed.

Lemma index_refines_witness :
  is_latest (delete (lit "s2") demo_secrets) demo_key (demo_chart "1.0").
Proof.
  destruct (index_refines _ _ _ demo_index_reachable) as [H _]. specialize (H demo_key).
  assert (latest (remove (lit "s2") demo_index).2 demo_key = Some (demo_chart "1.0")) as E
    by (vm_compute; reflexivity).
  rewrite E in H. exact H.
Defined.

Lemma chart_usage_counts_witness :
  uses (view (remove (lit "s2") demo_index).2) (lit "web", lit "1.0") = 1.
Proof.
  destruct (chart_usage_counts _ _ _ demo_index_reachable) as [H _].
  specialize (H (lit "web", lit "1.0")).
  assert (usage_get (usage_apply_all demo_changes ∅) (lit "web", lit "1.0")
          = Some ({| cr_name := lit "web"; cr_version := lit "1.0"; app_version := None; description := None |}, 1))
    as E by (vm_compute; reflexivity).
  rewrite E in H. destruct H as (_ & _ & H). symmetry. exact H.
Defined.
