(* ===== verification/HelmWatch.v ===== *)
(** * The Helm watchers (kube-ext/src/watcher.rs, [start_helm_releases] and
      [start_helm_charts]; the row shapes of kinds/helm_releases.rs and
      kinds/helm_charts.rs)

    Both turn the changes of a [ReleaseIndex] into deltas of synthetic rows.  The
    secrets' payload decoding (base64, gzip, serde) is the context. *)

From S2P Require Import Prelude DirtyChannel Watcher HelmIndex.

#[global] Instance value_eq_dec : EqDecision Value.
Proof.
  refine (fix go (x y : Value) : Decision (x = y) :=
    let _ : EqDecision Value := @go in
    match x, y with
    | VNull, VNull => left _
    | VBool a, VBool b => cast_if (decide (a = b))
    | VNumber a, VNumber b => cast_if (decide (a = b))
    | VString a, VString b => cast_if (decide (a = b))
    | VArray a, VArray b => cast_if (decide (a = b))
    | VObject a, VObject b => cast_if (decide (a = b))
    | _, _ => right _
    end); congruence.
Defined.

(** ** Release summaries and their rows *)

Record ReleaseSummary : Type := {
  rs_name : str;
  rs_namespace : option str;
  rs_version : Z;
  rs_status : option str;
  rs_last_deployed : option str;
  rs_chart_metadata : option Value
}.

Definition meta_str (meta : option Value) (key : str) : option str :=
  m ← meta; get_str m key.

Definition chart_label (meta : option Value) : str :=
  match meta_str meta (lit "name"), meta_str meta (lit "version") with
  | Some n, Some v => n ++ lit "-" ++ v
  | Some n, None => n
  | None, _ => [8212%N]
  end.

Definition chart_ref (rel : ReleaseSummary) : option ChartRef :=
  n ← meta_str (rs_chart_metadata rel) (lit "name");
  v ← meta_str (rs_chart_metadata rel) (lit "version");
  Some {| cr_name := n; cr_version := v;
          app_version := meta_str (rs_chart_metadata rel) (lit "appVersion");
          description := meta_str (rs_chart_metadata rel) (lit "description") |}.

Definition key (rel : ReleaseSummary) : ReleaseKey := (default [] (rs_namespace rel), rs_name rel).

Definition opt_string (o : option str) : Value := match o with Some s => VString s | None => VNull end.

Definition z_text (z : Z) : str :=
  match z with
  | Z0 => dec_str 0
  | Zpos p => dec_str (Npos p)
  | Zneg p => lit "-" ++ dec_str (Npos p)
  end.

Definition project_row (rel : ReleaseSummary) : Value :=
  VObject (list_to_map
    [(lit "name", VString (rs_name rel));
     (lit "namespace", VString (default [] (rs_namespace rel)));
     (lit "revision", VNumber (z_text (rs_version rel)));
     (lit "status", VString (default (lit "unknown") (rs_status rel)));
     (lit "chart", VString (chart_label (rs_chart_metadata rel)));
     (lit "app_version", opt_string (meta_str (rs_chart_metadata rel) (lit "appVersion")));
     (lit "updated", opt_string (rs_last_deployed rel))]).

Definition project_cluster_row (chart : ChartRef) (used_by : nat) : Value :=
  VObject (list_to_map
    [(lit "name", VString (cr_name chart));
     (lit "version", VString (cr_version chart));
     (lit "app_version", opt_string (app_version chart));
     (lit "repo", VString (lit "in-cluster"));
     (lit "description", opt_string (description chart));
     (lit "used_by", VNumber (dec_str (N.of_nat used_by)))]).

Record HelmRepoChart : Type := { repo : str; repo_chart : ChartRef }.

Definition project_repo_row (rc : HelmRepoChart) : Value :=
  VObject (list_to_map
    [(lit "name", VString (cr_name (repo_chart rc)));
     (lit "version", VString (cr_version (repo_chart rc)));
     (lit "app_version", opt_string (app_version (repo_chart rc)));
     (lit "repo", VString (repo rc));
     (lit "description", opt_string (description (repo_chart rc)));
     (lit "used_by", VNumber (lit "0"))]).

(** [helm_releases::synthetic_uid] and [helm_charts::synthetic_uid]. *)
Definition release_uid (k : ReleaseKey) : str := lit "helm:" ++ k.1 ++ [COLON] ++ k.2.

Definition chart_uid (source : str) (k : ChartKey) : str :=
  lit "helm:chart:" ++ source ++ [COLON] ++ k.1 ++ [COLON] ++ k.2.

Definition HELM_CLUSTER_SOURCE : str := lit "cluster".

(** ** Keyed rows

    The rows of a table [V] of entries, each under the uid of its key. *)

Section Keyed.
Context {K : Type} `{Countable K} {R : Type} (uid : K → str) (row : str → R → option Row)
        (valid : K → Prop).

Definition shows (V : gmap K R) (m : mirror) : Prop :=
  ∀ k, valid k → m !! uid k = (r ← V !! k; json <$> row (uid k) r).

Context (uid_inj : ∀ k k', valid k → valid k' → uid k = uid k' → k = k').
Context (row_total : ∀ u r, is_Some (row u r)).

Lemma shows_insert V m k r w :
  valid k → shows V m → row (uid k) r = Some w → shows (<[k := r]> V) (<[uid k := json w]> m).
Proof using uid_inj.
  intros Hk HV Hw k' Hk'. destruct (decide (k' = k)) as [->|Hne].
  - rewrite !lookup_insert_eq. simpl. by rewrite Hw.
  - rewrite !lookup_insert_ne; [by apply HV|done|]. intros He. by destruct Hne; apply uid_inj.
Qed.

Lemma shows_delete V m k : valid k → shows V m → shows (delete k V) (delete (uid k) m).
Proof using uid_inj.
  intros Hk HV k' Hk'. destruct (decide (k' = k)) as [->|Hne].
  - by rewrite !lookup_delete_eq.
  - rewrite !lookup_delete_ne; [by apply HV|done|]. intros He. by destruct Hne; apply uid_inj.
Qed.

Lemma shows_ext V V' m : (∀ k, V !! k = V' !! k) → shows V m → shows V' m.
Proof. intros He HV k Hk. by rewrite <- He, HV. Qed.
End Keyed.

Section HelmWatch.
Context {Obj : Type} (uid_of resource_version_of : Obj → option str).
(** [secret_payload] and serde, and the namespace of the secret. *)
Context (decode_payload : Obj → option ReleaseSummary) (namespace_of : Obj → option str).
Context (to_raw_value : Value → option str).

Definition decode_release_summary (o : Obj) : option ReleaseSummary :=
  rel ← decode_payload o;
  Some {| rs_name := rs_name rel;
          rs_namespace := match namespace_of o with Some ns => Some ns | None => rs_namespace rel end;
          rs_version := rs_version rel; rs_status := rs_status rel;
          rs_last_deployed := rs_last_deployed rel; rs_chart_metadata := rs_chart_metadata rel |}.

Definition synth_row (uid : str) (projected : Value) : option Row :=
  Row_build to_raw_value uid projected None.

Definition record_synth (uid : str) (projected : Value) : list WriteOp :=
  match synth_row uid projected with
  | Some row => [WUpsert uid row]
  | None => []
  end.

(** *** Releases *)

Definition emit (change : LatestChange Value) : list WriteOp :=
  match change with
  | CUpsert k _ latest => record_synth (release_uid k) latest
  | CDelete k _ => [WDelete (release_uid k)]
  end.

Record HelmTask (S : Type) : Type := {
  store : S;
  h_init_seen : option (gset str);
  h_init_done : bool
}.

Arguments Build_HelmTask {S} store h_init_seen h_init_done.
Arguments store {S} h.
Arguments h_init_seen {S} h.
Arguments h_init_done {S} h.

(** The two loops differ in what an index change means: [T] is the payload,
    [payload_of] makes it, [report] turns changes into records. *)
Section Loop.
Context {T : Type} `{!EqDecision T} {S : Type}.
Context (index : S → ReleaseIndex T) (payload_of : ReleaseSummary → T).
Context (report : ReleaseIndex T → list (LatestChange T) → S → list WriteOp * S).

Definition see (is_init : bool) (uid : str) (seen : option (gset str)) : option (gset str) :=
  if is_init then (λ s, {[uid]} ∪ s) <$> seen else seen.

Definition helm_object (is_init : bool) (o : Obj) (t : HelmTask S) : list WriteOp * HelmTask S :=
  match uid_of o with
  | None => ([], t)
  | Some uid =>
      let seen := see is_init uid (h_init_seen t) in
      let rv := resource_version_of o in
      if is_current (index (store t)) uid rv
      then ([], Build_HelmTask (store t) seen (h_init_done t))
      else
        let '(changes, idx) :=
          match decode_release_summary o with
          | Some rel => upsert uid (key rel) (rs_version rel) rv (payload_of rel) (index (store t))
          | None => let '(c, idx) := remove uid (index (store t)) in (option_list c, idx)
          end in
        let '(ops, st) := report idx changes (store t) in
        (ops, Build_HelmTask st seen (h_init_done t))
  end.

Definition helm_event (order : list str) (ev : Event Obj) (t : HelmTask S)
    : list WriteOp * HelmTask S :=
  match ev with
  | Apply o => helm_object false o t
  | InitApply o => helm_object true o t
  | Delete o =>
      match uid_of o with
      | Some uid =>
          let '(c, idx) := remove uid (index (store t)) in
          let '(ops, st) := report idx (option_list c) (store t) in
          (ops, Build_HelmTask st (h_init_seen t) (h_init_done t))
      | None => ([], t)
      end
  | Init => ([], Build_HelmTask (store t) (Some ∅) (h_init_done t))
  | InitDone =>
      match h_init_seen t with
      | Some seen =>
          let '(changes, idx) := retain_seen order seen (index (store t)) in
          let '(ops, st) := report idx changes (store t) in
          (ops ++ [WInitDone], Build_HelmTask st None true)
      | None => ([WInitDone], Build_HelmTask (store t) None true)
      end
  | StreamError | PreviewReady _ => ([], t)
  end.
End Loop.

(** The releases watcher keeps the index alone. *)
Definition report_releases (idx : ReleaseIndex Value) (cs : list (LatestChange Value))
    (_ : ReleaseIndex Value) : list WriteOp * ReleaseIndex Value := (cs ≫= emit, idx).

Definition helm_releases_event := helm_event (λ i, i) project_row report_releases.

Definition start_helm_releases : HelmTask (ReleaseIndex Value) :=
  Build_HelmTask empty_index None false.

Definition releases_snapshot (i : ReleaseIndex Value) : list str :=
  omap (λ '(k, row), json <$> synth_row (release_uid k) row) (iter_latest i).

(** *** Charts *)

Record ClusterCharts : Type := {
  cc_index : ReleaseIndex (option ChartRef);
  cc_usage : ChartUsage
}.

Definition emit_chart (U : ChartUsage) (k : ChartKey) : list WriteOp :=
  match usage_get U k with
  | Some (chart, n) => record_synth (chart_uid HELM_CLUSTER_SOURCE k) (project_cluster_row chart n)
  | None => [WDelete (chart_uid HELM_CLUSTER_SOURCE k)]
  end.

(** [ClusterCharts::apply] *)
Fixpoint report_usage (cs : list (LatestChange (option ChartRef))) (U : ChartUsage)
    : list WriteOp * ChartUsage :=
  match cs with
  | [] => ([], U)
  | c :: cs' =>
      let '(touched, U1) := usage_apply c U in
      let '(ops, U2) := report_usage cs' U1 in
      ((touched ≫= emit_chart U1) ++ ops, U2)
  end.

Definition report_charts (idx : ReleaseIndex (option ChartRef))
    (cs : list (LatestChange (option ChartRef))) (st : ClusterCharts)
    : list WriteOp * ClusterCharts :=
  let '(ops, U) := report_usage cs (cc_usage st) in
  (ops, {| cc_index := idx; cc_usage := U |}).

Definition helm_charts_event := helm_event cc_index chart_ref report_charts.

Definition start_helm_charts : HelmTask ClusterCharts :=
  Build_HelmTask {| cc_index := empty_index; cc_usage := ∅ |} None false.

Definition load_repos (entries : list HelmRepoChart) : list WriteOp :=
  entries ≫= λ rc, record_synth (chart_uid (repo rc) (chart_key (repo_chart rc))) (project_repo_row rc).

Definition charts_snapshot (st : ClusterCharts) (repos : list HelmRepoChart) : list str :=
  omap (λ '(k, (chart, n)), json <$> synth_row (chart_uid HELM_CLUSTER_SOURCE k)
                                               (project_cluster_row chart n))
    (map_to_list (cc_usage st))
  ++ omap (λ rc, json <$> synth_row (chart_uid (repo rc) (chart_key (repo_chart rc)))
                                    (project_repo_row rc)) repos.
End HelmWatch.

Arguments Build_HelmTask {S} store h_init_seen h_init_done.
Arguments store {S} h.
Arguments h_init_seen {S} h.
Arguments h_init_done {S} h.

(** ** The loop keeps what its reports keep *)

Section LoopSpec.
Context {Obj : Type} (uid_of resource_version_of : Obj → option str).
Context (decode_payload : Obj → option ReleaseSummary) (namespace_of : Obj → option str).
Context {T : Type} `{!EqDecision T} {S : Type}.
Context (index : S → ReleaseIndex T) (payload_of : ReleaseSummary → T).
Context (report : ReleaseIndex T → list (LatestChange T) → S → list WriteOp * S).
Context (Q : ReleaseKey → T → Prop) (J : S → mirror → Prop).
Context (decoded_Q : ∀ o rel, decode_release_summary decode_payload namespace_of o = Some rel →
                              Q (key rel) (payload_of rel)).
Context (report_J : ∀ idx cs st m ops st', report idx cs st = (ops, st') →
  changes_ok cs (view (index st)) → Forall (change_all Q) cs →
  view idx = apply_changes cs (view (index st)) → index_all Q (index st) → J st m →
  index st' = idx ∧ J st' (apply_ops ops m)).

Definition loop_inv (t : HelmTask S) (m : mirror) : Prop :=
  index_ok (index (store t)) ∧ index_all Q (index (store t)) ∧ J (store t) m.

Lemma report_inv idx cs t seen done m ops st' :
  report idx cs (store t) = (ops, st') →
  index_ok idx → index_all Q idx → changes_ok cs (view (index (store t))) → Forall (change_all Q) cs →
  view idx = apply_changes cs (view (index (store t))) → loop_inv t m →
  loop_inv (Build_HelmTask st' seen done) (apply_ops ops m).
Proof using report_J.
  intros Hr Hok Hall Hcs HQ Hv (_ & Hall0 & HJ).
  destruct (report_J idx cs (store t) m ops st' Hr Hcs HQ Hv Hall0 HJ) as [Hi HJ'].
  unfold loop_inv. simpl. by rewrite Hi.
Qed.

Lemma helm_event_inv order ev t m :
  loop_inv t m →
  let '(ops, t') := helm_event uid_of resource_version_of decode_payload namespace_of
                      index payload_of report order ev t in
  loop_inv t' (apply_ops ops m).
Proof using report_J decoded_Q.
  intros Hinv. pose proof Hinv as (Hok & Hall & HJ).
  assert (∀ b o, let '(ops, t') := helm_object uid_of resource_version_of decode_payload namespace_of
                   index payload_of report b o t in loop_inv t' (apply_ops ops m)) as Hobj.
  { intros b o. unfold helm_object. destruct (uid_of o) as [uid|]; [|done].
    destruct (is_current _ _ _); [done|].
    destruct (decode_release_summary _ _ o) as [rel|] eqn:Ed.
    - destruct (upsert _ _ _ _ _ _) as [cs idx] eqn:E. destruct (report _ _ _) as [ops st] eqn:Er.
      pose proof (upsert_all Q _ _ _ _ _ _ _ _ Hall (decoded_Q _ _ Ed) E) as [? ?].
      apply upsert_spec in E as (? & ? & ? & _); [|done]. by eapply report_inv.
    - destruct (remove _ _) as [c idx] eqn:E. destruct (report _ _ _) as [ops st] eqn:Er.
      pose proof (remove_all Q _ _ _ _ Hall E) as [? ?].
      apply remove_spec in E as (? & ? & ? & _); [|done]. by eapply report_inv. }
  destruct ev as [o|o|o| | | |rows]; simpl; try done; try apply Hobj.
  - destruct (uid_of o) as [uid|]; [|done].
    destruct (remove _ _) as [c idx] eqn:E. destruct (report _ _ _) as [ops st] eqn:Er.
    pose proof (remove_all Q _ _ _ _ Hall E) as [? ?].
    apply remove_spec in E as (? & ? & ? & _); [|done]. by eapply report_inv.
  - destruct (h_init_seen t) as [seen|]; [|done].
    destruct (retain_seen _ _ _) as [cs idx] eqn:E. destruct (report _ _ _) as [ops st] eqn:Er.
    pose proof (retain_seen_all Q _ _ _ _ _ Hall E) as [? ?].
    pose proof (remove_all_spec (filter (λ u, u ∉ seen) order) [] _ Hok) as Hs.
    unfold retain_seen in E. rewrite E in Hs. destruct Hs as (cs' & -> & ? & ? & ? & _).
    rewrite apply_ops_app. cbn [app] in *.
    change (apply_ops [WInitDone] (apply_ops ops m)) with (apply_ops ops m). by eapply report_inv.
Qed.
End LoopSpec.

Lemma colon_split (a b a' b' : str) :
  COLON ∉ a → COLON ∉ a' → a ++ [COLON] ++ b = a' ++ [COLON] ++ b' → a = a' ∧ b = b'.
Proof.
  revert a'. induction a as [|x a IH]; intros [|x' a'] Ha Ha'; simpl; intros [= ].
  - by simplify_eq.
  - simplify_eq. destruct Ha'. by left.
  - simplify_eq. destruct Ha. by left.
  - simplify_eq. destruct (IH a') as [-> ->]; [| |done|done]; intros ?; [apply Ha|apply Ha']; by right.
Qed.

Section HelmRows.
Context {Obj : Type} (uid_of resource_version_of : Obj → option str).
Context (decode_payload : Obj → option ReleaseSummary) (namespace_of : Obj → option str).
Context (to_raw_value : Value → option str).
(** [serde_json] encodes every [Value]. *)
Context (encodes : ∀ v, is_Some (to_raw_value v)).

Local Abbreviation decode := (decode_release_summary decode_payload namespace_of).
Local Abbreviation synth_row := (synth_row to_raw_value).

Lemma synth_row_total u v : is_Some (synth_row u v).
Proof using encodes.
  unfold HelmWatch.synth_row, Row_build. destruct (encodes (with_labels (with_uid u v) None)) as [j ->].
  by eexists.
Qed.

Lemma apply_synth u v w m :
  synth_row u v = Some w → apply_ops (record_synth to_raw_value u v) m = <[u := json w]> m.
Proof. unfold record_synth. by intros ->. Qed.

(** *** Releases *)

Definition plain_release (k : ReleaseKey) : Prop := COLON ∉ k.1.

Lemma release_uid_inj k k' :
  plain_release k → plain_release k' → release_uid k = release_uid k' → k = k'.
Proof.
  intros Hk Hk' He. unfold release_uid in He. apply (app_inv_head (lit "helm:")) in He.
  apply colon_split in He as [? ?]; [|done..]. destruct k, k'. simpl in *. by subst.
Qed.

Abbreviation shows_releases := (shows release_uid synth_row plain_release).

Lemma report_releases_shows idx cs (st : ReleaseIndex Value) m ops st' :
  report_releases to_raw_value idx cs st = (ops, st') →
  changes_ok cs (view st) → Forall (change_all (λ k _, plain_release k)) cs →
  view idx = apply_changes cs (view st) → index_all (λ k _, plain_release k) st →
  shows_releases (view st) m → st' = idx ∧ shows_releases (view st') (apply_ops ops m).
Proof using encodes.
  intros [= <- <-] Hcs HQ Hv _ Hs. split; [done|]. rewrite Hv. clear Hv Hcs idx. revert m Hs.
  generalize (view st) as V. induction HQ as [|c cs Hc _ IH]; intros V m Hs; [done|].
  rewrite bind_cons, apply_ops_app. cbn [apply_changes foldl]. apply IH.
  destruct c as [k prev l|k prev]; cbn [emit apply_change].
  - destruct (synth_row_total (release_uid k) l) as [w Hw]. rewrite (apply_synth _ _ _ _ Hw).
    apply shows_insert; [apply release_uid_inj|done..].
  - apply shows_delete; [apply release_uid_inj|done..].
Qed.

(** *** Charts *)

Definition plain_chart (k : ChartKey) : Prop := COLON ∉ k.1.

Definition plain_source (source : str) : Prop := COLON ∉ source ∧ source ≠ HELM_CLUSTER_SOURCE.

Lemma chart_uid_source source source' k k' :
  COLON ∉ source → COLON ∉ source' → chart_uid source k = chart_uid source' k' → source = source'.
Proof.
  intros Hs Hs' He. unfold chart_uid in He. apply (app_inv_head (lit "helm:chart:")) in He.
  by apply colon_split in He as [? _].
Qed.

Lemma chart_uid_inj source k k' :
  plain_chart k → plain_chart k' → chart_uid source k = chart_uid source k' → k = k'.
Proof.
  intros Hk Hk' He. unfold chart_uid in He. apply (app_inv_head (lit "helm:chart:")) in He.
  apply app_inv_head, (app_inv_head [COLON]) in He.
  apply colon_split in He as [? ?]; [|done..]. destruct k, k'. simpl in *. by subst.
Qed.

Definition cluster_row (u : str) (cn : ChartRef * nat) : option Row :=
  synth_row u (project_cluster_row cn.1 cn.2).

Abbreviation shows_charts := (shows (chart_uid HELM_CLUSTER_SOURCE) cluster_row plain_chart).

Definition chart_Q (_ : ReleaseKey) (p : option ChartRef) : Prop :=
  match p with Some c => plain_chart (chart_key c) | None => True end.

(** Re-recording every touched row brings the mirror up to the new counts. *)
Lemma emit_touched U U' touched m :
  Forall plain_chart touched → (∀ k, k ∉ touched → U' !! k = U !! k) → shows_charts U m →
  shows_charts U' (apply_ops (touched ≫= emit_chart to_raw_value U') m).
Proof using encodes.
  intros Ht Hsame Hs.
  assert (∀ (dn td : list ChartKey) (m : mirror), Forall plain_chart td →
    (∀ k, plain_chart k → k ∈ dn ∨ k ∉ td →
       m !! chart_uid HELM_CLUSTER_SOURCE k = (cn ← U' !! k; json <$> cluster_row (chart_uid HELM_CLUSTER_SOURCE k) cn)) →
    shows_charts U' (apply_ops (td ≫= emit_chart to_raw_value U') m)) as H.
  { clear Ht Hsame Hs m touched U. intros dn td. revert dn. induction td as [|k td IH]; intros dn m Hp Hm.
    { intros k Hk. apply Hm; [done|]. right. apply not_elem_of_nil. }
    apply Forall_cons in Hp as [Hk Hp]. rewrite bind_cons, apply_ops_app.
    apply (IH (k :: dn)); [done|]. intros k' Hk' Hin.
    assert (∀ w, <[chart_uid HELM_CLUSTER_SOURCE k := w]> m !! chart_uid HELM_CLUSTER_SOURCE k
                 = Some w) as Hself by (intros; apply lookup_insert_eq).
    unfold emit_chart, usage_get. destruct (decide (k' = k)) as [->|Hne].
    - destruct (U' !! k) as [[c n]|]; simpl.
      + destruct (synth_row_total (chart_uid HELM_CLUSTER_SOURCE k) (project_cluster_row c n)) as [w Hw].
        rewrite (apply_synth _ _ _ _ Hw), Hself. unfold cluster_row. simpl. by rewrite Hw.
      + apply lookup_delete_eq.
    - assert (chart_uid HELM_CLUSTER_SOURCE k ≠ chart_uid HELM_CLUSTER_SOURCE k') as Hu.
      { intros He. apply Hne. symmetry. by eapply chart_uid_inj. }
      rewrite <- (Hm k' Hk') by (rewrite elem_of_cons in Hin; rewrite elem_of_cons; tauto).
      destruct (U' !! k) as [[c n]|]; simpl.
      + destruct (synth_row_total (chart_uid HELM_CLUSTER_SOURCE k) (project_cluster_row c n)) as [w Hw].
        by rewrite (apply_synth _ _ _ _ Hw), lookup_insert_ne.
      + by rewrite lookup_delete_ne. }
  apply (H []); [done|]. intros k Hk [?%elem_of_nil|Hin]; [done|]. by rewrite Hsame, Hs.
Qed.

Lemma touched_plain c V U :
  change_ok c V → change_all chart_Q c → (∀ k p, V !! k = Some p → chart_Q k p) →
  Forall plain_chart (usage_apply c U).1.
Proof.
  intros Hc HQ HV.
  assert (∀ k p, V !! k = Some (Some p) → plain_chart (chart_key p)) as Hp.
  { intros k p Hk. apply (HV k _ Hk). }
  unfold usage_apply. destruct c as [k prev l|k prev]; simpl in *.
  - destruct Hc as [Hprev _]. destruct prev as [[p|]|], l as [n|]; simpl in *;
      try case_bool_decide; repeat constructor; eauto.
  - destruct prev as [p|]; repeat constructor; eauto.
Qed.

Lemma report_usage_shows cs V U m ops U' :
  report_usage to_raw_value cs U = (ops, U') → changes_ok cs V → Forall (change_all chart_Q) cs →
  (∀ k p, V !! k = Some p → chart_Q k p) → usage_ok V U → shows_charts U m →
  usage_ok (apply_changes cs V) U' ∧ shows_charts U' (apply_ops ops m).
Proof using encodes.
  revert V U m ops. induction cs as [|c cs IH]; intros V U m ops; simpl; [by intros [= <- <-]|].
  intros Hr [Hc Hcs] [HQ HQs]%Forall_cons HV HU Hs.
  pose proof (touched_plain c V U Hc HQ HV) as Ht. pose proof (usage_apply_ok V U c Hc HU) as HU1.
  pose proof (λ k, usage_apply_touched c U k) as Hsame.
  destruct (usage_apply c U) as [touched U1]. simpl in *.
  destruct (report_usage _ cs U1) as [ops' U2] eqn:E. simplify_eq. rewrite apply_ops_app.
  eapply IH; [done|done|done| |done|by eapply emit_touched].
  intros k p. destruct c as [k' prev l|k' prev]; simpl.
  - destruct (decide (k = k')) as [->|]; [rewrite lookup_insert_eq; by intros [= <-]|].
    rewrite lookup_insert_ne by done. apply HV.
  - intros [_ Hk]%lookup_delete_Some. by apply HV.
Qed.

Definition charts_J (st : ClusterCharts) (m : mirror) : Prop :=
  usage_ok (view (cc_index st)) (cc_usage st) ∧ shows_charts (cc_usage st) m.

Lemma report_charts_shows idx cs st m ops st' :
  report_charts to_raw_value idx cs st = (ops, st') →
  changes_ok cs (view (cc_index st)) → Forall (change_all chart_Q) cs →
  view idx = apply_changes cs (view (cc_index st)) → index_all chart_Q (cc_index st) →
  charts_J st m → cc_index st' = idx ∧ charts_J st' (apply_ops ops m).
Proof using encodes.
  unfold report_charts. destruct (report_usage _ _ _) as [ops' U] eqn:E. intros [= <- <-].
  intros Hcs HQ Hv Hall [HU Hs]. split; [done|]. unfold charts_J. simpl. rewrite Hv.
  eapply report_usage_shows; try done. intros k p. rewrite lookup_view. unfold latest.
  destruct (releases (cc_index st) !! k) as [revs|] eqn:Er; simpl; [|done].
  destruct (latest_of revs) as [r|] eqn:El; simpl; [|done]. intros [= <-]. by eapply latest_of_all.
Qed.

(** Loading the repositories' charts records rows of other sources only. *)
Lemma load_repos_other entries st m :
  Forall (λ rc, plain_source (repo rc)) entries → charts_J st m →
  charts_J st (apply_ops (load_repos to_raw_value entries) m).
Proof using encodes.
  intros He [HU Hs]. split; [done|]. revert m Hs.
  induction He as [|rc entries [Hsrc Hne] _ IH]; intros m Hs; [done|].
  unfold load_repos. rewrite bind_cons, apply_ops_app. apply IH. clear IH.
  destruct (synth_row_total (chart_uid (repo rc) (chart_key (repo_chart rc))) (project_repo_row rc)) as [w Hw].
  rewrite (apply_synth _ _ _ _ Hw). intros k Hk. rewrite lookup_insert_ne; [by apply Hs|].
  intros Heq. apply Hne. apply chart_uid_source in Heq; [done|done|]. decided.
Qed.

(** ** Whole runs: events with the iteration order of the owner table *)

Local Abbreviation releases_event :=
  (helm_releases_event uid_of resource_version_of decode_payload namespace_of to_raw_value).
Local Abbreviation charts_event :=
  (helm_charts_event uid_of resource_version_of decode_payload namespace_of to_raw_value).

Fixpoint releases_run (evs : list (list str * Event Obj)) (t : HelmTask (ReleaseIndex Value))
    : list WriteOp * HelmTask (ReleaseIndex Value) :=
  match evs with
  | [] => ([], t)
  | (order, ev) :: evs' =>
      let '(ops, t1) := releases_event order ev t in
      let '(ops', t2) := releases_run evs' t1 in (ops ++ ops', t2)
  end.

(** The chart watcher's task joins the watch with the loading of repositories. *)
Fixpoint charts_run (inputs : list (list str * Event Obj + list HelmRepoChart))
    (t : HelmTask ClusterCharts) : list WriteOp * HelmTask ClusterCharts :=
  match inputs with
  | [] => ([], t)
  | inl (order, ev) :: inputs' =>
      let '(ops, t1) := charts_event order ev t in
      let '(ops', t2) := charts_run inputs' t1 in (ops ++ ops', t2)
  | inr entries :: inputs' =>
      let '(ops', t2) := charts_run inputs' t in (load_repos to_raw_value entries ++ ops', t2)
  end.

Lemma empty_index_ok {T} `{!EqDecision T} : index_ok (T := T) empty_index.
Proof. split; [|done]. intros u k. split; [done|]. by intros (revs & ? & _). Qed.

Lemma releases_run_inv evs t m :
  (∀ o rel, decode o = Some rel → plain_release (key rel)) →
  loop_inv (λ i, i) (λ k _, plain_release k) (λ st m, shows_releases (view st) m) t m →
  let '(ops, t') := releases_run evs t in
  loop_inv (λ i, i) (λ k _, plain_release k) (λ st m, shows_releases (view st) m) t' (apply_ops ops m).
Proof using encodes.
  intros Hd. revert t m. induction evs as [|[order ev] evs IH]; intros t m Hinv; [done|].
  cbn [releases_run].
  pose proof (helm_event_inv uid_of resource_version_of decode_payload namespace_of (λ i, i) project_row
    (report_releases to_raw_value) (λ k _, plain_release k) (λ st m, shows_releases (view st) m)
    Hd report_releases_shows order ev t m Hinv) as H1.
  unfold helm_releases_event. destruct (helm_event _ _ _ _ _ _ _ order ev t) as [ops t1].
  specialize (IH t1 _ H1). destruct (releases_run evs t1) as [ops' t2]. by rewrite apply_ops_app.
Qed.

(** the deltas of the Helm releases watcher, from its start and through any
    sequence of events (undecodable secrets, moved secrets and relists included),
    add up to one row per release: that of its latest revision, and none for a
    release that is gone. *)
Theorem helm_releases_mirror (evs : list (list str * Event Obj)) :
  (∀ o rel, decode o = Some rel → plain_release (key rel)) →
  let '(ops, t) := releases_run evs start_helm_releases in
  ∀ k, plain_release k →
    apply_ops ops ∅ !! release_uid k
    = (row ← latest (store t) k; json <$> synth_row (release_uid k) row).
Proof using encodes.
  intros Hd. pose proof (releases_run_inv evs start_helm_releases ∅ Hd) as H.
  destruct (releases_run evs start_helm_releases) as [ops t].
  destruct H as (_ & _ & Hs).
  { split_and!; [apply empty_index_ok|done|]. intros k _. by rewrite lookup_view. }
  intros k Hk. rewrite (Hs k Hk). by rewrite lookup_view.
Qed.

Lemma charts_run_inv inputs t m :
  (∀ o rel, decode o = Some rel → chart_Q (key rel) (chart_ref rel)) →
  Forall (λ x, match x with inl _ => True | inr entries => Forall (λ rc, plain_source (repo rc)) entries end)
    inputs →
  loop_inv cc_index chart_Q charts_J t m →
  let '(ops, t') := charts_run inputs t in loop_inv cc_index chart_Q charts_J t' (apply_ops ops m).
Proof using encodes.
  intros Hd Hin. revert t m. induction Hin as [|[[order ev]|entries] inputs Hx _ IH]; intros t m Hinv;
    [done|..]; cbn [charts_run].
  - pose proof (helm_event_inv uid_of resource_version_of decode_payload namespace_of cc_index chart_ref
      (report_charts to_raw_value) chart_Q charts_J Hd report_charts_shows order ev t m Hinv) as H1.
    unfold helm_charts_event. destruct (helm_event _ _ _ _ _ _ _ order ev t) as [ops t1].
    specialize (IH t1 _ H1). destruct (charts_run inputs t1) as [ops' t2]. by rewrite apply_ops_app.
  - specialize (IH t (apply_ops (load_repos to_raw_value entries) m)).
    destruct (charts_run inputs t) as [ops' t2]. rewrite apply_ops_app. apply IH.
    destruct Hinv as (? & ? & ?). split_and!; [done|done|]. by apply load_repos_other.
Qed.

(** the chart catalogue stays exact while repositories load at any moment of
    the watch: the row of an in-cluster chart shows the number of releases whose
    latest revision uses it, and an unused chart has no row. *)
Theorem helm_charts_mirror (inputs : list (list str * Event Obj + list HelmRepoChart)) :
  (∀ o rel, decode o = Some rel → chart_Q (key rel) (chart_ref rel)) →
  Forall (λ x, match x with inl _ => True | inr entries => Forall (λ rc, plain_source (repo rc)) entries end)
    inputs →
  let '(ops, t) := charts_run inputs start_helm_charts in
  ∀ k, plain_chart k →
    if decide (uses (view (cc_index (store t))) k = 0)
    then apply_ops ops ∅ !! chart_uid HELM_CLUSTER_SOURCE k = None
    else ∃ c w, chart_key c = k
      ∧ synth_row (chart_uid HELM_CLUSTER_SOURCE k)
          (project_cluster_row c (uses (view (cc_index (store t))) k)) = Some w
      ∧ apply_ops ops ∅ !! chart_uid HELM_CLUSTER_SOURCE k = Some (json w).
Proof using encodes.
  intros Hd Hin. pose proof (charts_run_inv inputs start_helm_charts ∅ Hd Hin) as H.
  destruct (charts_run inputs start_helm_charts) as [ops t].
  destruct H as (_ & _ & HU & Hs).
  { split_and!; [apply empty_index_ok|done|]. split; [done|]. intros k _. done. }
  intros k Hk. specialize (HU k). rewrite (Hs k Hk).
  destruct (cc_usage (store t) !! k) as [[c n]|]; simpl.
  - destruct HU as (Hc & Hn & ->). rewrite decide_False by lia.
    destruct (synth_row_total (chart_uid HELM_CLUSTER_SOURCE k)
                (project_cluster_row c (uses (view (cc_index (store t))) k))) as [w Hw].
    exists c, w. unfold cluster_row. simpl. by rewrite Hw.
  - by rewrite decide_True.
Qed.
End HelmRows.

(** ** Two revisions of a release, a rollback, and a repository *)

Definition demo_release (o : str * Z) : option ReleaseSummary :=
  Some {| rs_name := lit "shop"; rs_namespace := Some (lit "default"); rs_version := o.2;
          rs_status := None; rs_last_deployed := None;
          rs_chart_metadata := Some (VObject (list_to_map
            [(lit "name", VString (lit "web")); (lit "version", VString (z_text o.2))])) |}.

(** An encoder that tells rows apart by chart, version and use count. *)
Definition demo_encode_row (v : Value) : option str :=
  Some (default [] (get_str v (lit "chart")) ++ default [] (get_str v (lit "version"))
        ++ match v with
           | VObject m => match m !! lit "used_by" with Some (VNumber n) => lit " x" ++ n | _ => [] end
           | _ => []
           end).

Definition demo_events : list (list str * Event (str * Z)) :=
  [([], Init); ([], InitApply (lit "s1", 1%Z)); ([], InitApply (lit "s2", 2%Z));
   ([lit "s1"; lit "s2"], InitDone); ([], Delete (lit "s2", 2%Z))].

Definition demo_repo : list HelmRepoChart :=
  [{| repo := lit "bitnami"; repo_chart := {| cr_name := lit "web"; cr_version := lit "9";
      app_version := None; description := None |} |}].

Lemma helm_releases_mirror_witness :
  let '(ops, t) := releases_run (λ o, Some o.1) (λ o, Some o.1) demo_release (λ _, None) demo_encode_row
                     demo_events start_helm_releases in
  apply_ops ops ∅ !! release_uid (lit "default", lit "shop") = Some (lit "web-1").
Proof.
  pose proof (helm_releases_mirror (λ o : str * Z, Some o.1) (λ o, Some o.1) demo_release (λ _, None)
    demo_encode_row (λ v, ex_intro _ _ eq_refl) demo_events) as H.
  destruct (releases_run _ _ _ _ _ demo_events start_helm_releases) as [ops t] eqn:E.
  rewrite H.
  - vm_compute in E. injection E as _ <-. vm_compute. reflexivity.
  - intros o rel [= <-]. decided.
  - decided.
Defined.

Lemma helm_charts_mirror_witness :
  let '(ops, t) := charts_run (λ o, Some o.1) (λ o, Some o.1) demo_release (λ _, None) demo_encode_row
                     (inr demo_repo :: (inl <$> demo_events)) start_helm_charts in
  ∃ c w, chart_key c = (lit "web", lit "1")
    ∧ synth_row demo_encode_row (chart_uid HELM_CLUSTER_SOURCE (lit "web", lit "1")) (project_cluster_row c 1) = Some w
    ∧ apply_ops ops ∅ !! chart_uid HELM_CLUSTER_SOURCE (lit "web", lit "1") = Some (json w).
Proof.
  pose proof (helm_charts_mirror (λ o : str * Z, Some o.1) (λ o, Some o.1) demo_release (λ _, None)
    demo_encode_row (λ v, ex_intro _ _ eq_refl) (inr demo_repo :: (inl <$> demo_events))) as H.
  destruct (charts_run _ _ _ _ _ _ start_helm_charts) as [ops t] eqn:E.
  assert (uses (view (cc_index (store t))) (lit "web", lit "1") = 1) as Hu.
  { vm_compute in E. injection E as _ <-. vm_compute. reflexivity. }
  rewrite <- Hu. specialize (H ltac:(intros o rel [= <-]; decided)).
  assert (Forall (λ x : list str * Event (str * Z) + list HelmRepoChart,
    match x with inl _ => True | inr entries => Forall (λ rc, plain_source (repo rc)) entries end)
    (inr demo_repo :: (inl <$> demo_events))) as Hf.
  { repeat constructor; decided. }
  specialize (H Hf (lit "web", lit "1") ltac:(decided)). rewrite Hu in H. rewrite Hu. exact H.
Defined.
