(* ===== verification/Slots.v ===== *)
(** * Kind slots (app/src/commands.rs: [subscribe_resource_with_entry],
      [unsubscribe_resource] and its linger task, [drop_entry_watchers],
      [tear_down_unhealthy]; [KindSlot] of app/src/state.rs)

    One reference-counted watcher per (kind, scope) of a connected cluster.  What
    runs under the [kinds] lock is one step; the check of [unavailable] before the
    lock, the timers and the teardown are steps of their own. *)

From S2P Require Import Prelude DirtyChannel Watcher.

Abbreviation SlotKey := (str * NsScope)%type.

(** Watchers and linger tasks are named by numbers, in the order of their start. *)
Record KindSlot : Set := {
  watcher : option nat;
  subscribers : nat;
  shutdown_handle : option nat
}.

Definition empty_slot : KindSlot := {| watcher := None; subscribers := 0; shutdown_handle := None |}.

Record MetricsSlot : Set := { m_subscribers : nat; service : option nat }.

Section Slots.
(** A watcher, how it starts, its snapshot and init flag; the kind registry:
    [Some true] for a namespaced kind. *)
Context {W : Type} (start : str → NsScope → W) (w_snapshot : W → list str) (w_init_done : W → bool)
        (kind_namespaced : str → option bool).

Record ClusterEntry : Type := {
  unavailable : bool;
  kinds : gmap SlotKey KindSlot;
  running : gmap nat W;                    (** the watchers not dropped *)
  next_watcher : nat;
  lingering : gmap nat (SlotKey * bool);   (** linger tasks not ended; [true]: the timer fired *)
  next_task : nat;
  health_forwarder : option nat;
  metrics_forwarder : option nat;
  metrics : MetricsSlot
}.

Definition set_kinds (e : ClusterEntry) (k : gmap SlotKey KindSlot) : ClusterEntry :=
  {| unavailable := unavailable e; kinds := k; running := running e; next_watcher := next_watcher e;
     lingering := lingering e; next_task := next_task e; health_forwarder := health_forwarder e;
     metrics_forwarder := metrics_forwarder e; metrics := metrics e |}.

Definition set_lingering (e : ClusterEntry) (l : gmap nat (SlotKey * bool)) (n : nat) : ClusterEntry :=
  {| unavailable := unavailable e; kinds := kinds e; running := running e;
     next_watcher := next_watcher e; lingering := l; next_task := n;
     health_forwarder := health_forwarder e; metrics_forwarder := metrics_forwarder e;
     metrics := metrics e |}.

Definition set_running (e : ClusterEntry) (r : gmap nat W) (n : nat) : ClusterEntry :=
  {| unavailable := unavailable e; kinds := kinds e; running := r; next_watcher := n;
     lingering := lingering e; next_task := next_task e; health_forwarder := health_forwarder e;
     metrics_forwarder := metrics_forwarder e; metrics := metrics e |}.

(** [JoinHandle::abort] of a linger task, and the drop of a watcher's last [Arc]. *)
Definition abort (h : option nat) (e : ClusterEntry) : ClusterEntry :=
  match h with
  | Some t => set_lingering e (delete t (lingering e)) (next_task e)
  | None => e
  end.

Definition drop_watcher (w : option nat) (e : ClusterEntry) : ClusterEntry :=
  match w with
  | Some w => set_running e (delete w (running e)) (next_watcher e)
  | None => e
  end.

Definition scope_of (namespaced : bool) (namespaces : option (list str)) : NsScope :=
  match namespaces with
  | Some list => if namespaced then from_selection list else All
  | None => All
  end.

(** The part of a subscription before the lock: the slot to use. *)
Definition subscribe_check (cluster_id kind_id : str) (namespaces : option (list str)) (e : ClusterEntry)
    : result SlotKey str :=
  match kind_namespaced kind_id with
  | None => Err (lit "unknown kind: " ++ kind_id)
  | Some namespaced =>
      if unavailable e then
        Err (lit "cluster " ++ cluster_id ++ lit " is unavailable " ++ [8212%N] ++ lit " reconnect first")
      else Ok (kind_id, scope_of namespaced namespaces)
  end.

(** The part under the lock. *)
Definition subscribe_locked (key : SlotKey) (e : ClusterEntry)
    : (list str * bool) * ClusterEntry :=
  let slot := default empty_slot (kinds e !! key) in
  let e := abort (shutdown_handle slot) e in
  let '(w, e) :=
    match watcher slot with
    | Some w => (w, e)
    | None =>
        let w := next_watcher e in
        (w, set_running e (<[w := start key.1 key.2]> (running e)) (S w))
    end in
  let e := set_kinds e (<[key := {| watcher := Some w; subscribers := S (subscribers slot);
                                    shutdown_handle := None |}]> (kinds e)) in
  (match running e !! w with
   | Some x => (w_snapshot x, w_init_done x)
   | None => ([], false)
   end, e).

Definition unsubscribe_resource (kind_id : str) (namespaces : option (list str)) (e : ClusterEntry)
    : ClusterEntry :=
  let key := (kind_id, scope_of (default false (kind_namespaced kind_id)) namespaces) in
  match kinds e !! key with
  | None => e
  | Some slot =>
      let n := subscribers slot - 1 in
      if bool_decide (n = 0) then
        let e := abort (shutdown_handle slot) e in
        let t := next_task e in
        let e := set_lingering e (<[t := (key, false)]> (lingering e)) (S t) in
        set_kinds e (<[key := {| watcher := watcher slot; subscribers := 0;
                                 shutdown_handle := Some t |}]> (kinds e))
      else
        set_kinds e (<[key := {| watcher := watcher slot; subscribers := n;
                                 shutdown_handle := shutdown_handle slot |}]> (kinds e))
  end.

(** The end of a linger task whose timer fired, under the lock. *)
Definition linger_expired (t : nat) (key : SlotKey) (e : ClusterEntry) : ClusterEntry :=
  let e := set_lingering e (delete t (lingering e)) (next_task e) in
  match kinds e !! key with
  | None => e
  | Some slot =>
      if negb (bool_decide (subscribers slot = 0)) then e
      else set_kinds (drop_watcher (watcher slot) e) (delete key (kinds e))
  end.

Definition drop_slot (en : ClusterEntry * nat) (slot : KindSlot) : ClusterEntry * nat :=
  let '(e, n) := en in
  let e := abort (shutdown_handle slot) e in
  match watcher slot with
  | Some w => (drop_watcher (Some w) e, S n)
  | None => (e, n)
  end.

Definition drop_entry_watchers (e : ClusterEntry) : nat * ClusterEntry :=
  let '(e, dropped) := foldl drop_slot (e, 0) (map_to_list (kinds e)).*2 in
  (dropped,
   {| unavailable := unavailable e; kinds := ∅; running := running e;
      next_watcher := next_watcher e; lingering := lingering e; next_task := next_task e;
      health_forwarder := None; metrics_forwarder := None;
      metrics := {| m_subscribers := 0; service := None |} |}).

Definition set_unavailable (e : ClusterEntry) : ClusterEntry :=
  {| unavailable := true; kinds := kinds e; running := running e; next_watcher := next_watcher e;
     lingering := lingering e; next_task := next_task e; health_forwarder := health_forwarder e;
     metrics_forwarder := metrics_forwarder e; metrics := metrics e |}.

(** [tear_down_unhealthy]: the gate, then the drop, are two steps. *)
Definition tear_down_unhealthy (e : ClusterEntry) : ClusterEntry :=
  (drop_entry_watchers (set_unavailable e)).2.

Definition new_entry : ClusterEntry :=
  {| unavailable := false; kinds := ∅; running := ∅; next_watcher := 0; lingering := ∅;
     next_task := 0; health_forwarder := None; metrics_forwarder := None;
     metrics := {| m_subscribers := 0; service := None |} |}.

(** ** Interleavings

    [waiting]: the subscriptions past their check and before the lock;
    [held]: how many subscriptions each slot has granted and not released since
    the last teardown. *)
Record Sys : Type := { entry : ClusterEntry; waiting : list SlotKey; held : gmap SlotKey nat }.

Definition held_of (h : gmap SlotKey nat) (key : SlotKey) : nat := default 0 (h !! key).

Inductive step : Sys → Sys → Prop :=
  | step_check cluster_id kind_id namespaces key e ws h :
      subscribe_check cluster_id kind_id namespaces e = Ok key →
      step (Build_Sys e ws h) (Build_Sys e (key :: ws) h)
  | step_lock key e ws ws' h :
      step (Build_Sys e (ws ++ key :: ws') h)
        (Build_Sys (subscribe_locked key e).2 (ws ++ ws') (<[key := S (held_of h key)]> h))
  | step_unsubscribe kind_id namespaces e ws h :
      let key := (kind_id, scope_of (default false (kind_namespaced kind_id)) namespaces) in
      step (Build_Sys e ws h)
        (Build_Sys (unsubscribe_resource kind_id namespaces e) ws (<[key := held_of h key - 1]> h))
  | step_timer t key e ws h :
      lingering e !! t = Some (key, false) →
      step (Build_Sys e ws h)
        (Build_Sys (set_lingering e (<[t := (key, true)]> (lingering e)) (next_task e)) ws h)
  | step_linger t key e ws h :
      lingering e !! t = Some (key, true) →
      step (Build_Sys e ws h) (Build_Sys (linger_expired t key e) ws h)
  | step_gate e ws h : step (Build_Sys e ws h) (Build_Sys (set_unavailable e) ws h)
  | step_drop e ws h :
      step (Build_Sys e ws h) (Build_Sys (drop_entry_watchers e).2 ws ∅).

Definition sys_init : Sys := Build_Sys new_entry [] ∅.

(** ** Invariant *)

(** A slot has a running watcher, and a linger task exactly when nobody
    subscribes. *)
Definition slot_ok (e : ClusterEntry) (key : SlotKey) (slot : KindSlot) : Prop :=
  (∃ w, watcher slot = Some w ∧ is_Some (running e !! w))
  ∧ match subscribers slot with
    | O => ∃ t fired, shutdown_handle slot = Some t ∧ lingering e !! t = Some (key, fired)
    | S _ => shutdown_handle slot = None
    end.

Record inv (s : Sys) : Prop := {
  inv_slots : ∀ key slot, kinds (entry s) !! key = Some slot → slot_ok (entry s) key slot;
  inv_running : ∀ w, is_Some (running (entry s) !! w) →
    ∃ key slot, kinds (entry s) !! key = Some slot ∧ watcher slot = Some w;
  inv_unique : ∀ k1 k2 s1 s2 w, kinds (entry s) !! k1 = Some s1 → kinds (entry s) !! k2 = Some s2 →
    watcher s1 = Some w → watcher s2 = Some w → k1 = k2;
  inv_lingering : ∀ t key fired, lingering (entry s) !! t = Some (key, fired) →
    ∃ slot, kinds (entry s) !! key = Some slot ∧ shutdown_handle slot = Some t;
  inv_fresh_w : ∀ w, next_watcher (entry s) ≤ w → running (entry s) !! w = None;
  inv_fresh_t : ∀ t, next_task (entry s) ≤ t → lingering (entry s) !! t = None;
  inv_held : ∀ key, held_of (held s) key
    = match kinds (entry s) !! key with Some slot => subscribers slot | None => 0 end
}.

Lemma inv_init : inv sys_init.
Proof.
  split; simpl; try done.
  - intros w [x Hx]. by rewrite lookup_empty in Hx.
Qed.

(** A slot changes its count and linger task, not its watcher. *)
Lemma inv_replace e e' ws ws' h h' key slot slot' :
  inv (Build_Sys e ws h) → kinds e !! key = Some slot → watcher slot' = watcher slot →
  kinds e' = <[key := slot']> (kinds e) → running e' = running e → next_watcher e' = next_watcher e →
  (∀ t k f, k ≠ key → lingering e' !! t = Some (k, f) ↔ lingering e !! t = Some (k, f)) →
  (∀ t f, lingering e' !! t = Some (key, f) → shutdown_handle slot' = Some t) →
  match subscribers slot' with
  | O => ∃ t f, shutdown_handle slot' = Some t ∧ lingering e' !! t = Some (key, f)
  | S _ => shutdown_handle slot' = None
  end →
  (∀ t, next_task e' ≤ t → lingering e' !! t = None) →
  (∀ k, held_of h' k = if decide (k = key) then subscribers slot' else held_of h k) →
  inv (Build_Sys e' ws' h').
Proof.
  intros [Hs Hr Hu Hl Hfw Hft Hh] Hk Hw Ek Er En Hl1 Hl2 Hl3 Hl4 Hh'. simpl in *.
  split; simpl; rewrite ?Ek, ?Er, ?En; try done.
  - intros k sl. destruct (decide (k = key)) as [->|Hne].
    + rewrite lookup_insert_eq. intros [= <-]. destruct (Hs _ _ Hk) as [(w & Hw1 & Hw2) _].
      split; [|done]. exists w. by rewrite Er, Hw.
    + rewrite lookup_insert_ne by done. intros Hsl. destruct (Hs _ _ Hsl) as [Hw1 Hsub].
      split; [by rewrite Er|]. destruct (subscribers sl); [|done].
      destruct Hsub as (t & f & ? & ?). exists t, f. split; [done|]. by apply Hl1.
  - intros w Hx. destruct (Hr w Hx) as (k & sl & Hsl & Hwsl). destruct (decide (k = key)) as [->|Hne].
    + exists key, slot'. rewrite lookup_insert_eq. split; [done|]. simplify_eq. congruence.
    + exists k, sl. by rewrite lookup_insert_ne.
  - intros k1 k2 s1 s2 w H1 H2 W1 W2.
    assert (∀ k sl, <[key := slot']> (kinds e) !! k = Some sl → watcher sl = Some w →
              ∃ sl0, kinds e !! k = Some sl0 ∧ watcher sl0 = Some w) as Hback.
    { intros k sl. destruct (decide (k = key)) as [->|Hne].
      - rewrite lookup_insert_eq. intros [= <-] ?. exists slot. split; [done|congruence].
      - rewrite lookup_insert_ne by done. eauto. }
    destruct (Hback _ _ H1 W1) as (? & ? & ?), (Hback _ _ H2 W2) as (? & ? & ?). eauto.
  - intros t k f Ht. destruct (decide (k = key)) as [->|Hne].
    + exists slot'. rewrite lookup_insert_eq. eauto.
    + apply Hl1 in Ht; [|done]. destruct (Hl _ _ _ Ht) as (sl & ? & ?). exists sl.
      by rewrite lookup_insert_ne.
  - intros k. rewrite Hh'. case_decide as Hd; [by rewrite Hd, lookup_insert_eq|].
    by rewrite lookup_insert_ne, Hh.
Qed.

Lemma held_insert h (key k : SlotKey) n : held_of (<[key := n]> h) k = if decide (k = key) then n else held_of h k.
Proof.
  unfold held_of. case_decide as Hd; [by rewrite Hd, lookup_insert_eq|by rewrite lookup_insert_ne].
Qed.

(** The linger tasks once the one of a slot is aborted. *)
Lemma abort_lingering e ws h key slot :
  inv (Build_Sys e ws h) → kinds e !! key = Some slot →
  let l := lingering (abort (shutdown_handle slot) e) in
  (∀ t k f, l !! t = Some (k, f) ↔ lingering e !! t = Some (k, f) ∧ k ≠ key)
  ∧ ∀ t, next_task e ≤ t → l !! t = None.
Proof.
  intros [Hs _ _ Hl _ Hft _] Hk l. simpl in *. destruct (Hs _ _ Hk) as [_ Hsub]. split.
  - intros t k f. unfold l, abort. destruct (shutdown_handle slot) as [t'|] eqn:Eh; simpl.
    + rewrite lookup_delete_Some. destruct (subscribers slot); [|done].
      destruct Hsub as (t0 & f0 & [= <-] & Ht0). split.
      * intros [Hne Ht]. split; [done|]. intros ->. destruct (Hl _ _ _ Ht) as (sl & ? & ?). congruence.
      * intros [Ht Hne]. split; [|done]. intros ->. congruence.
    + split; [|tauto]. intros Ht. split; [done|]. intros ->.
      destruct (Hl _ _ _ Ht) as (sl & ? & ?). congruence.
  - intros t Ht. unfold l, abort. destruct (shutdown_handle slot); simpl; [|by apply Hft].
    apply lookup_delete_None. right. by apply Hft.
Qed.

Lemma inv_lock key e ws ws' h :
  inv (Build_Sys e (ws ++ key :: ws') h) →
  inv (Build_Sys (subscribe_locked key e).2 (ws ++ ws') (<[key := S (held_of h key)]> h)).
Proof.
  intros Hinv. unfold subscribe_locked. destruct (kinds e !! key) as [slot|] eqn:Ek; simpl.
  - destruct (inv_slots _ Hinv _ _ Ek) as [(w & Hw & _) _]. rewrite Hw.
    destruct (abort_lingering _ _ _ _ _ Hinv Ek) as [Hal Haf].
    apply (inv_replace e _ (ws ++ key :: ws') _ h _ key slot
             {| watcher := Some w; subscribers := S (subscribers slot); shutdown_handle := None |});
      try done; simpl.
    + unfold abort. by destruct (shutdown_handle slot).
    + unfold abort. by destruct (shutdown_handle slot).
    + unfold abort. by destruct (shutdown_handle slot).
    + intros t k f Hne. rewrite Hal. tauto.
    + intros t f [_ ?]%Hal. done.
    + intros t. unfold abort at 1. destruct (shutdown_handle slot); apply Haf.
    + intros k. rewrite held_insert. case_decide; [|done]. f_equal.
      pose proof (inv_held _ Hinv key) as Hh. simpl in Hh. by rewrite Hh, Ek.
  - destruct Hinv as [Hs Hr Hu Hl Hfw Hft Hh]. simpl in *.
    assert (running e !! next_watcher e = None) as Hnew by by apply Hfw.
    split; simpl.
    + intros k sl. destruct (decide (k = key)) as [->|Hne].
      * rewrite lookup_insert_eq. intros [= <-]. split; [|done]. eexists. split; [done|].
        simpl. rewrite lookup_insert_eq. by eexists.
      * rewrite lookup_insert_ne by done. intros Hsl. destruct (Hs _ _ Hsl) as [(w & Hw & Hw') Hsub].
        split; [|done]. exists w. split; [done|]. simpl. destruct (decide (w = next_watcher e)) as [->|].
        -- rewrite lookup_insert_eq. by eexists.
        -- by rewrite lookup_insert_ne.
    + intros w. destruct (decide (w = next_watcher e)) as [->|Hw].
      * intros _. exists key. eexists. by rewrite lookup_insert_eq.
      * rewrite lookup_insert_ne by done. intros Hx. destruct (Hr w Hx) as (k & sl & Hsl & ?).
        exists k, sl. rewrite lookup_insert_ne by congruence. done.
    + assert (∀ k sl, kinds e !! k = Some sl → watcher sl ≠ Some (next_watcher e)) as Hno.
      { intros k sl Hsl Hw. destruct (Hs _ _ Hsl) as [(w & Hw' & [x Hx]) _]. congruence. }
      intros k1 k2 s1 s2 w. destruct (decide (k1 = key)) as [->|], (decide (k2 = key)) as [->|]; try done;
        rewrite ?lookup_insert_eq, ?lookup_insert_ne by done; intros; simplify_eq/=.
      * by destruct (Hno k2 s2).
      * by destruct (Hno k1 s1).
      * eauto.
    + intros t k f Ht. destruct (Hl _ _ _ Ht) as (sl & ? & ?). exists sl.
      rewrite lookup_insert_ne by congruence. done.
    + intros w Hw. rewrite lookup_insert_ne by lia. apply Hfw. lia.
    + done.
    + intros k. rewrite held_insert. destruct (decide (k = key)) as [->|].
      * rewrite lookup_insert_eq. simpl. by rewrite Hh, Ek.
      * by rewrite lookup_insert_ne, Hh.
Qed.

Lemma inv_unsubscribe kind_id namespaces e ws h :
  let key := (kind_id, scope_of (default false (kind_namespaced kind_id)) namespaces) in
  inv (Build_Sys e ws h) →
  inv (Build_Sys (unsubscribe_resource kind_id namespaces e) ws (<[key := held_of h key - 1]> h)).
Proof.
  intros key Hinv. unfold unsubscribe_resource. fold key.
  pose proof (inv_held _ Hinv key) as Hh. simpl in Hh.
  destruct (kinds e !! key) as [slot|] eqn:Ek.
  2:{ destruct Hinv as [Hs Hr Hu Hl Hfw Hft Hheld]. split; simpl in *; try done.
      intros k. rewrite held_insert. case_decide as Hd; [|done]. subst k. by rewrite Hh, Ek. }
  assert (∀ n k, n = subscribers slot - 1 → held_of (<[key:=held_of h key - 1]> h) k
            = if decide (k = key) then n else held_of h k) as Hheld.
  { intros n k ->. rewrite held_insert. by rewrite Hh. }
  cbv zeta. case_bool_decide as Hn.
  - destruct (abort_lingering _ _ _ _ _ Hinv Ek) as [Hal Haf].
    set (e1 := abort (shutdown_handle slot) e) in *.
    assert (kinds e1 = kinds e ∧ running e1 = running e ∧ next_watcher e1 = next_watcher e
            ∧ next_task e1 = next_task e) as (Ek1 & Er1 & En1 & Et1).
    { unfold e1, abort. by destruct (shutdown_handle slot). }
    apply (inv_replace e _ ws _ h _ key slot
             {| watcher := watcher slot; subscribers := 0; shutdown_handle := Some (next_task e1) |});
      simpl; try done.
    + by rewrite Ek1.
    + intros t k f Hk. rewrite lookup_insert_Some. rewrite Hal, Et1.
      assert (lingering e !! next_task e = None) by by apply (inv_fresh_t _ Hinv).
      split; [intros [[_ [=]]|(? & ? & ?)]; congruence|]. intros Ht. right. split; [congruence|done].
    + intros t f. rewrite lookup_insert_Some. intros [[<- _]|(_ & [_ ?]%Hal)]; done.
    + exists (next_task e1), false. by rewrite lookup_insert_eq.
    + intros t Ht. rewrite lookup_insert_ne by lia. apply Haf. lia.
    + intros k. by apply Hheld.
  - apply (inv_replace e _ ws _ h _ key slot
             {| watcher := watcher slot; subscribers := subscribers slot - 1;
                shutdown_handle := shutdown_handle slot |}); simpl; try done.
    + intros t f Ht. destruct (inv_lingering _ Hinv _ _ _ Ht) as (sl & ? & ?). simpl in *. congruence.
    + destruct (inv_slots _ Hinv _ _ Ek) as [_ Hsub]. simpl in Hsub.
      destruct (subscribers slot) as [|n]; [done|]. simpl in Hn |- *. rewrite Nat.sub_0_r in Hn |- *.
      by destruct n.
    + apply (inv_fresh_t _ Hinv).
    + intros k. by apply Hheld.
Qed.

Lemma inv_timer t key e ws h :
  lingering e !! t = Some (key, false) → inv (Build_Sys e ws h) →
  inv (Build_Sys (set_lingering e (<[t := (key, true)]> (lingering e)) (next_task e)) ws h).
Proof.
  intros Ht Hinv. destruct (inv_lingering _ Hinv _ _ _ Ht) as (slot & Ek & Hsh). simpl in *.
  assert (∀ t' k, (∃ f, <[t:=(key, true)]> (lingering e) !! t' = Some (k, f))
                  ↔ ∃ f, lingering e !! t' = Some (k, f)) as Hsame.
  { intros t' k. setoid_rewrite lookup_insert_Some. destruct (decide (t = t')) as [<-|Hne].
    - rewrite Ht. naive_solver.
    - naive_solver. }
  apply (inv_replace e _ ws _ h _ key slot slot); simpl; try done.
  - by rewrite insert_id.
  - intros t' k f Hk. rewrite lookup_insert_Some. naive_solver congruence.
  - intros t' f Ht'. destruct (proj1 (Hsame t' key)) as [f' Hf']; [by eexists|].
    destruct (inv_lingering _ Hinv _ _ _ Hf') as (sl & ? & ?). simpl in *. congruence.
  - destruct (inv_slots _ Hinv _ _ Ek) as [_ Hsub]. simpl in Hsub. destruct (subscribers slot); [|done].
    destruct Hsub as (t' & f & Ht' & Hf). exists t'. destruct (proj2 (Hsame t' key)) as [f' ?]; [by eexists|].
    by exists f'.
  - intros t' Ht'. rewrite lookup_insert_ne; [by apply (inv_fresh_t _ Hinv)|].
    intros <-. pose proof (inv_fresh_t _ Hinv t Ht') as H. simpl in H. congruence.
  - intros k. case_decide as Hd; [|done]. subst k. rewrite (inv_held _ Hinv). simpl. by rewrite Ek.
Qed.

Lemma inv_linger t key e ws h :
  lingering e !! t = Some (key, true) → inv (Build_Sys e ws h) →
  inv (Build_Sys (linger_expired t key e) ws h).
Proof.
  intros Ht Hinv. pose proof Hinv as [Hs Hr Hu Hl Hfw Hft Hh]. simpl in *.
  destruct (Hl _ _ _ Ht) as (slot & Ek & Hsh). destruct (Hs _ _ Ek) as [(w & Hw & Hrun) Hsub].
  destruct (subscribers slot) as [|n] eqn:En; [|congruence]. destruct Hsub as (t' & f & Ht' & Hf').
  assert (linger_expired t key e
          = {| unavailable := unavailable e; kinds := delete key (kinds e);
               running := delete w (running e); next_watcher := next_watcher e;
               lingering := delete t (lingering e); next_task := next_task e;
               health_forwarder := health_forwarder e; metrics_forwarder := metrics_forwarder e;
               metrics := metrics e |}) as ->.
  { unfold linger_expired. simpl. rewrite Ek, En. simpl. by rewrite Hw. }
  split; simpl.
  - intros k sl [Hne Hk]%lookup_delete_Some. destruct (Hs _ _ Hk) as [(w' & Hw' & Hr') Hsub'].
    split.
    + exists w'. split; [done|]. simpl. rewrite lookup_delete_ne; [done|]. intros <-.
      apply Hne. by eapply Hu.
    + destruct (subscribers sl); [|done]. destruct Hsub' as (t2 & f2 & ? & Hf2). exists t2, f2.
      split; [done|]. simpl. rewrite lookup_delete_ne; [done|]. intros <-. congruence.
  - intros w' [x Hx]. apply lookup_delete_Some in Hx as [Hne Hx].
    destruct (Hr w') as (k & sl & Hk & ?); [by eexists|]. exists k, sl.
    rewrite lookup_delete_ne; [done|]. intros <-. congruence.
  - intros k1 k2 s1 s2 w' [_ H1]%lookup_delete_Some [_ H2]%lookup_delete_Some. eauto.
  - intros t2 k f2 [Hne Ht2]%lookup_delete_Some. destruct (Hl _ _ _ Ht2) as (sl & Hk & ?).
    exists sl. rewrite lookup_delete_ne; [done|]. intros <-. congruence.
  - intros w' ?. apply lookup_delete_None. auto.
  - intros t2 ?. apply lookup_delete_None. auto.
  - intros k. rewrite Hh. destruct (decide (k = key)) as [->|].
    + by rewrite lookup_delete_eq, Ek.
    + by rewrite lookup_delete_ne.
Qed.

(** *** Dropping every slot *)

Lemma drop_slots_spec (l : list KindSlot) e n :
  let '(e', n') := foldl drop_slot (e, n) l in
  (∀ w, running e' !! w = if decide (Some w ∈ watcher <$> l) then None else running e !! w)
  ∧ (∀ t, lingering e' !! t = if decide (Some t ∈ shutdown_handle <$> l) then None else lingering e !! t)
  ∧ n' = n + length (filter (λ s, is_Some (watcher s)) l)
  ∧ next_watcher e' = next_watcher e ∧ next_task e' = next_task e ∧ unavailable e' = unavailable e.
Proof.
  revert e n. induction l as [|slot l IH]; intros e n; cbn [foldl].
  { simpl. rewrite Nat.add_0_r. by split_and!. }
  set (e1 := abort (shutdown_handle slot) e).
  assert (∀ t, lingering e1 !! t = if decide (Some t = shutdown_handle slot) then None else lingering e !! t) as Hl.
  { intros t. unfold e1, abort. destruct (shutdown_handle slot) as [t'|]; simpl.
    - case_decide as Hd; [simplify_eq; by rewrite lookup_delete_eq|]. rewrite lookup_delete_ne; [done|congruence].
    - done. }
  assert (running e1 = running e ∧ next_watcher e1 = next_watcher e ∧ next_task e1 = next_task e
          ∧ unavailable e1 = unavailable e) as (Er1 & En1 & Et1 & Eu1).
  { unfold e1, abort. by destruct (shutdown_handle slot). }
  set (en := drop_slot (e, n) slot).
  assert ((∀ w, running en.1 !! w = if decide (Some w = watcher slot) then None else running e !! w)
    ∧ lingering en.1 = lingering e1
    ∧ en.2 = n + (if decide (is_Some (watcher slot)) then 1 else 0)
    ∧ next_watcher en.1 = next_watcher e ∧ next_task en.1 = next_task e
    ∧ unavailable en.1 = unavailable e) as (Hr2 & Hl2 & Hn2 & En2 & Et2 & Eu2).
  { unfold en, drop_slot. fold e1. destruct (watcher slot) as [w'|] eqn:Ew; simpl.
    - split_and!; try done; try lia.
      intros w. rewrite Er1. case_decide; [simplify_eq; by rewrite lookup_delete_eq|].
      rewrite lookup_delete_ne; [done|congruence].
    - split_and!; try done; try lia. intros w. by rewrite Er1. }
  specialize (IH en.1 en.2). rewrite <- surjective_pairing in IH.
  destruct (foldl drop_slot en l) as [e' n']. destruct IH as (Hr & Hl' & Hn & ? & ? & ?).
  split_and!; try congruence.
  - intros w. rewrite Hr, Hr2, fmap_cons. repeat case_decide; set_solver.
  - intros t. rewrite Hl', Hl2, Hl, fmap_cons. repeat case_decide; set_solver.
  - rewrite Hn, Hn2, filter_cons. case_decide; simpl; lia.
Qed.

Lemma drop_entry_spec e ws h :
  inv (Build_Sys e ws h) →
  let '(n, e') := drop_entry_watchers e in
  n = size (kinds e) ∧ kinds e' = ∅ ∧ running e' = ∅ ∧ lingering e' = ∅
  ∧ health_forwarder e' = None ∧ metrics_forwarder e' = None ∧ service (metrics e') = None
  ∧ next_watcher e' = next_watcher e ∧ next_task e' = next_task e ∧ unavailable e' = unavailable e.
Proof.
  intros Hinv. unfold drop_entry_watchers.
  pose proof (drop_slots_spec (map_to_list (kinds e)).*2 e 0) as Hd.
  destruct (foldl drop_slot _ _) as [e' n]. destruct Hd as (Hr & Hl & Hn & En & Et & Eu). simpl.
  assert (∀ key slot, kinds e !! key = Some slot → slot ∈ (map_to_list (kinds e)).*2) as Hin.
  { intros key slot Hk. apply list_elem_of_fmap. exists (key, slot). split; [done|].
    by apply elem_of_map_to_list. }
  split_and!; try done.
  - rewrite Hn. simpl. rewrite list_filter_all.
    + by rewrite length_fmap, length_map_to_list.
    + intros slot ([key sl] & -> & Hs)%list_elem_of_fmap. apply elem_of_map_to_list in Hs.
      destruct (inv_slots _ Hinv _ _ Hs) as [(w & Hw & _) _]. simpl. rewrite Hw. by eexists.
  - apply map_empty. intros w. rewrite Hr. case_decide as Hd; [done|].
    destruct (running e !! w) eqn:Ew; [|done]. destruct Hd.
    destruct (inv_running _ Hinv w) as (key & slot & Hk & Hw); [by eexists|].
    apply list_elem_of_fmap. exists slot. split; [done|]. by eapply Hin.
  - apply map_empty. intros t. rewrite Hl. case_decide as Hd; [done|].
    destruct (lingering e !! t) as [[key f]|] eqn:Et'; [|done]. destruct Hd.
    destruct (inv_lingering _ Hinv _ _ _ Et') as (slot & Hk & Hw).
    apply list_elem_of_fmap. exists slot. split; [done|]. by eapply Hin.
Qed.

Lemma step_inv s s' : step s s' → inv s → inv s'.
Proof.
  intros Hs Hinv. destruct Hs as [kind_id namespaces key e ws h Hc|key e ws ws' h|kind_id namespaces e ws h
    |t key e ws h Ht|t key e ws h Ht|e ws h|e ws h].
  - by destruct Hinv; split.
  - by apply inv_lock.
  - by apply inv_unsubscribe.
  - by apply inv_timer.
  - by apply inv_linger.
  - by destruct Hinv; split.
  - pose proof (drop_entry_spec e ws h Hinv) as Hd. destruct (drop_entry_watchers e) as [n e'].
    destruct Hd as (_ & Ek & Er & El & _ & _ & _ & En & Et & _).
    split; simpl; rewrite ?Ek, ?Er, ?El; try done.
    intros w [x Hx]. by rewrite lookup_empty in Hx.
Qed.

Lemma reachable_inv s : rtc step sys_init s → inv s.
Proof.
  eapply rtc_preserves; [by eauto using step_inv|apply inv_init].
Qed.

(** ** Properties *)

(** C5: in every interleaving of subscriptions, releases, linger timers and
    teardowns, a slot exists exactly for a running watcher of its own; its count is
    the number of subscriptions granted and not released since the last teardown;
    while the count is positive no shutdown is pending, and at zero exactly one
    linger task, its own, is.  So no watcher is lost while someone uses it and none
    runs on without an owner. *)
Theorem slots_sound (s : Sys) :
  rtc step sys_init s →
  (∀ key slot, kinds (entry s) !! key = Some slot →
     (∃ w x, watcher slot = Some w ∧ running (entry s) !! w = Some x)
     ∧ subscribers slot = held_of (held s) key
     ∧ (shutdown_handle slot = None ↔ 0 < subscribers slot))
  ∧ (∀ key, kinds (entry s) !! key = None → held_of (held s) key = 0)
  ∧ (∀ w x, running (entry s) !! w = Some x →
     ∃ key, (∃ slot, kinds (entry s) !! key = Some slot ∧ watcher slot = Some w)
       ∧ ∀ key' slot', kinds (entry s) !! key' = Some slot' → watcher slot' = Some w → key' = key)
  ∧ (∀ t key fired, lingering (entry s) !! t = Some (key, fired) →
     ∃ slot, kinds (entry s) !! key = Some slot ∧ subscribers slot = 0 ∧ shutdown_handle slot = Some t).
Proof.
  intros [Hs Hr Hu Hl _ _ Hh]%reachable_inv. split_and!.
  - intros key slot Hk. destruct (Hs _ _ Hk) as [(w & Hw & [x Hx]) Hsub]. split_and!.
    + by exists w, x.
    + by rewrite Hh, Hk.
    + destruct (subscribers slot); [|split; [lia|done]].
      destruct Hsub as (t & f & -> & _). split; [done|lia].
  - intros key Hk. by rewrite Hh, Hk.
  - intros w x Hx. destruct (Hr w) as (key & slot & Hk & Hw); [by eexists|]. exists key. split.
    + eauto.
    + intros key' slot' Hk' Hw'. by eapply Hu.
  - intros t key f Ht. destruct (Hl _ _ _ Ht) as (slot & Hk & Hsh). exists slot. split_and!; try done.
    destruct (Hs _ _ Hk) as [_ Hsub]. destruct (subscribers slot); [done|congruence].
Qed.

(** a subscription on a slot that exists reuses its watcher, lingering or not,
    cancels the pending shutdown and starts nothing; on a new slot it starts exactly
    one watcher; either way it returns that watcher's rows and leaves every other
    slot and watcher as they were. *)
Theorem subscribe_reuses (s : Sys) (key : SlotKey) :
  rtc step sys_init s →
  let '(reply, e') := subscribe_locked key (entry s) in
  ∃ w x, running e' !! w = Some x ∧ reply = (w_snapshot x, w_init_done x)
    ∧ kinds e' = <[key := {| watcher := Some w; subscribers := S (held_of (held s) key);
                             shutdown_handle := None |}]> (kinds (entry s))
    ∧ match kinds (entry s) !! key with
      | Some slot => watcher slot = Some w ∧ running e' = running (entry s)
          ∧ ∀ t fired, lingering e' !! t ≠ Some (key, fired)
      | None => x = start key.1 key.2 ∧ running (entry s) !! w = None
          ∧ running e' = <[w := x]> (running (entry s)) ∧ lingering e' = lingering (entry s)
      end.
Proof.
  intros Hinv%reachable_inv. destruct s as [e ws h]. simpl.
  unfold subscribe_locked. pose proof (inv_held _ Hinv key) as Hh. simpl in Hh.
  destruct (kinds e !! key) as [slot|] eqn:Ek; simpl.
  - destruct (inv_slots _ Hinv _ _ Ek) as [(w & Hw & [x Hx]) _]. simpl in Hx. rewrite Hw.
    destruct (abort_lingering _ _ _ _ _ Hinv Ek) as [Hal _].
    assert (running (abort (shutdown_handle slot) e) = running e
            ∧ kinds (abort (shutdown_handle slot) e) = kinds e) as [Er Ek'].
    { unfold abort. by destruct (shutdown_handle slot). }
    simpl. rewrite Er, Ek', Hx. exists w, x. rewrite Hh. split_and!; try done.
    intros t f [_ ?]%Hal. done.
  - pose proof (inv_fresh_w _ Hinv (next_watcher e) (Nat.le_refl _)) as Hnew. simpl in Hnew.
    rewrite lookup_insert_eq. exists (next_watcher e), (start key.1 key.2). rewrite Hh.
    split_and!; try done. by rewrite lookup_insert_eq.
Qed.

(** tearing a cluster down stops everything: every watcher is dropped and
    counted, every linger task is aborted, both event forwarders and the metrics
    service are released, whatever the interleaving before. *)
Theorem teardown_complete (s : Sys) :
  rtc step sys_init s →
  let '(dropped, e') := drop_entry_watchers (set_unavailable (entry s)) in
  dropped = size (kinds (entry s)) ∧ kinds e' = ∅ ∧ running e' = ∅ ∧ lingering e' = ∅
  ∧ health_forwarder e' = None ∧ metrics_forwarder e' = None ∧ service (metrics e') = None
  ∧ unavailable e' = true.
Proof.
  intros Hinv%reachable_inv. destruct s as [e ws h].
  assert (inv (Build_Sys (set_unavailable e) ws h)) as Hinv' by (by destruct Hinv; split).
  pose proof (drop_entry_spec _ _ _ Hinv') as Hd. simpl in *.
  destruct (drop_entry_watchers (set_unavailable e)) as [n e'].
  destruct Hd as (? & ? & ? & ? & ? & ? & ? & _ & _ & ?). by split_and!.
Qed.

(** The gate is only checked before the lock: a subscription past the check when
    the teardown runs starts a watcher on the unavailable entry. *)
Lemma watcher_after_teardown (kind_id : str) :
  kind_namespaced kind_id = Some true →
  ∃ s, rtc step sys_init s ∧ unavailable (entry s) = true
    ∧ ∃ slot w x, kinds (entry s) !! (kind_id, All) = Some slot ∧ watcher slot = Some w
                  ∧ running (entry s) !! w = Some x.
Proof.
  intros Hk. eexists. split.
  - eapply rtc_l; [apply (step_check [] kind_id None (kind_id, All)); unfold subscribe_check; by rewrite Hk|].
    eapply rtc_l; [apply step_gate|]. eapply rtc_l; [apply step_drop|].
    eapply rtc_l; [apply (step_lock _ _ [] [])|]. apply rtc_refl.
  - unfold subscribe_locked. cbn [entry].
    assert (kinds (drop_entry_watchers (set_unavailable new_entry)).2 !! (kind_id, All) = None) as E
      by apply lookup_empty.
    rewrite E. split; [done|]. eexists _, _, _. split_and!; [apply lookup_insert_eq|done|apply lookup_insert_eq].
Qed.
End Slots.

(** ** Pods watched twice, released once, and one lingering slot *)

Definition demo_namespaced (kind_id : str) : option bool :=
  if kind_id =s "pods" then Some true else if kind_id =s "nodes" then Some false else None.

Definition demo_start (kind_id : str) (scope : NsScope) : str := kind_id ++ scope_key scope.

Local Abbreviation demo_step := (step demo_start demo_namespaced).
Local Abbreviation demo_lock := (subscribe_locked demo_start (λ w : str, [w]) (λ _, true)).

Definition pods : SlotKey := (lit "pods", All).

Definition nodes : SlotKey := (lit "nodes", All).

Definition demo_entry : ClusterEntry :=
  unsubscribe_resource demo_namespaced "nodes" None
    (unsubscribe_resource demo_namespaced "pods" None
      (demo_lock nodes (demo_lock pods (demo_lock pods new_entry).2).2).2).

Definition demo_sys : Sys :=
  {| entry := demo_entry; waiting := [];
     held := <[nodes := 0]> (<[pods := 1]> (<[nodes := 1]> (<[pods := 2]> (<[pods := 1]> ∅)))) |}.

Lemma demo_slots_reachable : rtc (step demo_start (λ w : str, [w]) (λ _, true) demo_namespaced) sys_init demo_sys.
Proof.
  eapply rtc_l; [apply (step_check _ _ _ _ [] (lit "pods") None pods); reflexivity|].
  eapply rtc_l; [apply (step_lock _ _ _ _ pods _ [] [])|].
  eapply rtc_l; [apply (step_check _ _ _ _ [] (lit "pods") (Some []) pods); vm_compute; reflexivity|].
  eapply rtc_l; [apply (step_lock _ _ _ _ pods _ [] [])|].
  eapply rtc_l; [apply (step_check _ _ _ _ [] (lit "nodes") None nodes); vm_compute; reflexivity|].
  eapply rtc_l; [apply (step_lock _ _ _ _ nodes _ [] [])|].
  eapply rtc_l; [apply (step_unsubscribe _ _ _ _ (lit "pods") None)|].
  eapply rtc_l; [apply (step_unsubscribe _ _ _ _ (lit "nodes") None)|].
  match goal with |- rtc _ ?x ?y => replace x with y by (vm_compute; reflexivity) end.
  apply rtc_refl.
Qed.

Lemma slots_sound_witness :
  ∃ w x, running (entry demo_sys) !! w = Some x
         ∧ shutdown_handle {| watcher := Some w; subscribers := 0; shutdown_handle := Some 0 |} ≠ None.
Proof.
  destruct (slots_sound _ _ _ _ _ demo_slots_reachable) as [H _].
  destruct (H nodes {| watcher := Some 1; subscribers := 0; shutdown_handle := Some 0 |}) as
    [(w & x & _ & Hx) [_ Hs]]; [vm_compute; reflexivity|].
  exists w, x. split; [exact Hx|]. intros He. apply Hs in He. inversion He.
Defined.

Lemma subscribe_reuses_witness :
  (demo_lock nodes (entry demo_sys)).1 = ([demo_start nodes.1 nodes.2], true).
Proof.
  pose proof (subscribe_reuses _ _ _ _ _ nodes demo_slots_reachable) as H.
  destruct (demo_lock nodes (entry demo_sys)) as [reply e'].
  destruct H as (w & x & Hx & Hr & _ & Hm).
  assert (kinds (entry demo_sys) !! nodes
          = Some {| watcher := Some 1; subscribers := 0; shutdown_handle := Some 0 |}) as Ek
    by (vm_compute; reflexivity).
  rewrite Ek in Hm. destruct Hm as (Hw & Hrun & _). injection Hw as <-. rewrite Hrun in Hx.
  assert (running (entry demo_sys) !! 1 = Some (demo_start nodes.1 nodes.2)) as E1
    by (vm_compute; reflexivity).
  rewrite E1 in Hx. injection Hx as <-. exact Hr.
Defined.

Lemma teardown_complete_witness :
  (drop_entry_watchers (set_unavailable (entry demo_sys))).1 = 2
  ∧ running (drop_entry_watchers (set_unavailable (entry demo_sys))).2 = ∅.
Proof.
  pose proof (teardown_complete _ _ _ _ _ demo_slots_reachable) as H.
  destruct (drop_entry_watchers (set_unavailable (entry demo_sys))) as [n e'].
  destruct H as (Hn & _ & Hr & _). split; [|exact Hr]. rewrite Hn. vm_compute. reflexivity.
Defined.
