(* ===== verification/Search.v ===== *)
(** * The search index (core/src/search: mod.rs, writer.rs, query.rs, gc.rs, db.rs)

    The tables of a per-cluster index with the triggers that keep the full-text
    one in step, the writer task that batches the writes and serves queries and
    collections in order, and the queries. SQLite executes the statements: their
    meaning on the [rows] table is written out; the full-text engine (parsing of a
    MATCH string, phrase matching, bm25) is a parameter. *)

From stdpp Require Import sorting.

From S2P Require Import Prelude.

Open Scope Z_scope.

(** ** Handle (mod.rs) *)

Inductive WriteOp : Set :=
  | WUpsert (kind_id uid : str) (namespace : option str) (name labels : str)
  | WDelete (kind_id uid : str).

Definition non_empty (s : str) : option str := if bool_decide (s = []) then None else Some s.

(** [SearchIndex::upsert] and [SearchIndex::delete]: what they send. *)
Definition upsert (kind_id uid : str) (namespace : option str) (name labels : str) : WriteOp :=
  WUpsert kind_id uid (namespace ≫= non_empty) name labels.

Definition delete (kind_id uid : str) : WriteOp := WDelete kind_id uid.

Definition indexes_kind (kind_id : str) : bool := negb (kind_id =s "events").

(** ** Tables (db.rs) *)

Abbreviation Key := (prod str str).

Record IndexRow : Set := {
  namespace : option str;
  name : str;
  labels : str;
  updated_at : Z;
  deleted_at : option Z
}.

Record FtsRow : Set := { f_name : str; f_namespace : option str; f_kind_id : str; f_labels : str }.

#[global] Instance fts_row_eq_dec : EqDecision FtsRow.
Proof. solve_decision. Defined.

(** The [rows] table, and the documents the full-text index knows, by row. *)
Record Conn : Set := { rows : gmap Key IndexRow; rows_fts : gmap Key FtsRow }.

Definition open_index : Conn := {| rows := ∅; rows_fts := ∅ |}.

Definition fts_row (k : Key) (r : IndexRow) : FtsRow :=
  {| f_name := name r; f_namespace := namespace r; f_kind_id := k.1; f_labels := labels r |}.

(** The 'delete' command of an external-content table removes the document it is
    given; with other values than the indexed ones it removes nothing. *)
Definition fts_delete (k : Key) (old : FtsRow) (fts : gmap Key FtsRow) : gmap Key FtsRow :=
  if bool_decide (fts !! k = Some old) then base.delete k fts else fts.

Definition rows_ai (k : Key) (new : IndexRow) (fts : gmap Key FtsRow) : gmap Key FtsRow :=
  <[k := fts_row k new]> fts.

Definition rows_au (k : Key) (old new : IndexRow) (fts : gmap Key FtsRow) : gmap Key FtsRow :=
  if negb (name old =s name new) || negb (bool_decide (namespace old = namespace new))
     || negb (labels old =s labels new)
  then <[k := fts_row k new]> (fts_delete k (fts_row k old) fts) else fts.

(** DELETE FROM rows WHERE [p], with the [rows_ad] trigger on every row. *)
Definition rows_ad (p : IndexRow → bool) (c : Conn) : gmap Key FtsRow :=
  filter (λ kd, match rows c !! kd.1 with
                | Some r => negb (p r && bool_decide (kd.2 = fts_row kd.1 r))
                | None => true
                end = true) (rows_fts c).

Definition delete_where (p : IndexRow → bool) (c : Conn) : Conn * nat :=
  ({| rows := filter (λ kr, p kr.2 = false) (rows c); rows_fts := rows_ad p c |},
   size (filter (λ kr, p kr.2 = true) (rows c))).

(** ** Writes (writer.rs) *)

Definition BATCH_MAX : nat := 500.

Definition BATCH_WINDOW : Z := 200.

Definition TOUCH_INTERVAL_MS : Z := 60 * 60 * 1000.

Definition set_row (k : Key) (r : IndexRow) (fts : gmap Key FtsRow) (c : Conn) : Conn :=
  {| rows := <[k := r]> (rows c); rows_fts := fts |}.

Definition needs_write (now : Z) (old new : IndexRow) : bool :=
  bool_decide (deleted_at old ≠ None) || negb (name old =s name new)
  || negb (bool_decide (namespace old = namespace new)) || negb (labels old =s labels new)
  || (updated_at old <? now - TOUCH_INTERVAL_MS).

Definition apply_op (now : Z) (c : Conn) (op : WriteOp) : Conn :=
  match op with
  | WUpsert kind_id uid ns nm lab =>
      let k := (kind_id, uid) in
      let new := {| namespace := ns; name := nm; labels := lab; updated_at := now; deleted_at := None |} in
      match rows c !! k with
      | None => set_row k new (rows_ai k new (rows_fts c)) c
      | Some old => if needs_write now old new then set_row k new (rows_au k old new (rows_fts c)) c else c
      end
  | WDelete kind_id uid =>
      let k := (kind_id, uid) in
      match rows c !! k with
      | Some old =>
          if bool_decide (deleted_at old = None) then
            let new := {| namespace := namespace old; name := name old; labels := labels old;
                          updated_at := updated_at old; deleted_at := Some now |} in
            set_row k new (rows_au k old new (rows_fts c)) c
          else c
      | None => c
      end
  end.

Definition apply_writes (now : Z) (ops : list WriteOp) (c : Conn) : Conn := foldl (apply_op now) c ops.

(** ** Garbage collection (gc.rs) *)

Definition i64_max : Z := 9223372036854775807.

Definition i64_min : Z := -9223372036854775808.

Definition saturating_sub (a b : Z) : Z := Z.max i64_min (Z.min i64_max (a - b)).

Definition millis_i64 (d : Z) : Z := if d <=? i64_max then d else 0.

Record GcStats : Set := { tombstones_purged : nat; stale_purged : nat }.

Definition is_tombstone (cutoff : Z) (r : IndexRow) : bool :=
  match deleted_at r with Some d => d <? cutoff | None => false end.

Definition is_stale (cutoff : Z) (r : IndexRow) : bool :=
  match deleted_at r with Some _ => false | None => updated_at r <? cutoff end.

Definition gc_run (now tombstone_age stale_age : Z) (c : Conn) : GcStats * Conn :=
  let tombstone_cutoff := saturating_sub now (millis_i64 tombstone_age) in
  let stale_cutoff := saturating_sub now (millis_i64 stale_age) in
  let '(c, tombstones) := delete_where (is_tombstone tombstone_cutoff) c in
  let '(c, stale) := delete_where (is_stale stale_cutoff) c in
  ({| tombstones_purged := tombstones; stale_purged := stale |}, c).

(** ** Queries (query.rs) *)

Definition MIN_QUERY_LEN : nat := 2.

Definition TRIGRAM_MIN : nat := 3.

Definition MAX_RESULTS : Z := 200.

Definition DQUOTE : char := 34%N.

Definition PERCENT : char := 37%N.

Definition UNDERSCORE : char := 95%N.

Definition BACKSLASH : char := 92%N.

(** [str::replace] with a one-character pattern. *)
Definition replace (c : char) (by_ s : str) : str := s ≫= (λ d, if (d =? c)%N then by_ else [d]).

Definition escape_fts_phrase (token : str) : str :=
  [DQUOTE] ++ replace DQUOTE [DQUOTE; DQUOTE] token ++ [DQUOTE].

Definition escape_like (s : str) : str :=
  replace UNDERSCORE [BACKSLASH; UNDERSCORE]
    (replace PERCENT [BACKSLASH; PERCENT] (replace BACKSLASH [BACKSLASH; BACKSLASH] s)).

(** SQL's [s LIKE p ESCAPE '\']: SQLite ignores the case of ASCII letters. *)
Definition same_char (a b : char) : bool := (to_ascii_lowercase a =? to_ascii_lowercase b)%N.

Fixpoint any_suffix (k : str → bool) (s : str) : bool :=
  k s || match s with [] => false | _ :: s' => any_suffix k s' end.

Fixpoint like (p s : str) {struct p} : bool :=
  match p with
  | [] => match s with [] => true | _ => false end
  | c :: p' =>
      if (c =? PERCENT)%N then any_suffix (like p') s
      else if (c =? UNDERSCORE)%N then match s with _ :: s' => like p' s' | [] => false end
      else if (c =? BACKSLASH)%N then
        match p', s with
        | d :: p'', x :: s' => same_char x d && like p'' s'
        | _, _ => false
        end
      else match s with x :: s' => same_char x c && like p' s' | [] => false end
  end.

(** One [AND (r.name LIKE ? OR r.namespace LIKE ?)] per token. *)
Definition like_filter (r : IndexRow) (token : str) : bool :=
  let pattern := [PERCENT] ++ escape_like token ++ [PERCENT] in
  like pattern (name r) || match namespace r with Some ns => like pattern ns | None => false end.

(** ** LIKE patterns *)

Lemma escape_like_cons c t :
  escape_like (c :: t)
  = (if (c =? BACKSLASH)%N || (c =? PERCENT)%N || (c =? UNDERSCORE)%N then [BACKSLASH; c] else [c])
    ++ escape_like t.
Proof.
  unfold escape_like, replace. cbn [mbind list_bind]. rewrite !bind_app. f_equal.
  destruct (N.eqb_spec c BACKSLASH) as [->|]; [done|]. destruct (N.eqb_spec c PERCENT) as [->|]; [done|].
  destruct (N.eqb_spec c UNDERSCORE) as [->|Hu]; [done|]. simpl.
  rewrite (proj2 (N.eqb_neq _ _)) by done. simpl. by rewrite (proj2 (N.eqb_neq _ _)).
Qed.

Lemma any_suffix_true k s : any_suffix k s = true ↔ ∃ a b, s = a ++ b ∧ k b = true.
Proof.
  induction s as [|x s IH]; cbn [any_suffix]; rewrite orb_true_iff, ?IH; split.
  - intros [H|]; [|done]. by exists [], [].
  - intros ([] & b & E & H); simplify_eq/=. by left.
  - intros [H|(a & b & -> & H)]; [by exists [], (x :: s)|by exists (x :: a), b].
  - intros ([|y a] & b & E & H); simplify_eq/=; [by left|]. right. by exists a, b.
Qed.

Lemma like_escaped t p s :
  like (escape_like t ++ p) s = true
  ↔ ∃ m b, s = m ++ b ∧ str_to_ascii_lowercase m = str_to_ascii_lowercase t ∧ like p b = true.
Proof.
  revert s. induction t as [|c t IH]; intros s.
  - split; [intros H; by exists [], s|]. intros (m & b & -> & Hm & H). by apply fmap_nil_inv in Hm as ->.
  - assert (like (escape_like (c :: t) ++ p) s
            = match s with x :: s' => same_char x c && like (escape_like t ++ p) s' | [] => false end) as ->.
    { rewrite escape_like_cons, <- app_assoc.
      destruct (N.eqb_spec c BACKSLASH) as [->|]; [by destruct s|].
      destruct (N.eqb_spec c PERCENT) as [->|]; [by destruct s|].
      destruct (N.eqb_spec c UNDERSCORE) as [->|]; [by destruct s|]. cbn [orb app like].
      by rewrite !(proj2 (N.eqb_neq c _)) by done. }
    destruct s as [|x s]; [split; [done|by intros ([] & b & [=] & [=] & _)]|].
    rewrite andb_true_iff, IH. unfold same_char. rewrite N.eqb_eq. split.
    + intros (Hx & m & b & -> & Hm & H). exists (x :: m), b. split_and!; [done| |done].
      unfold str_to_ascii_lowercase in *. rewrite !fmap_cons. by f_equal.
    + intros ([|y m] & b & E & Hm & H); [done|]. unfold str_to_ascii_lowercase in *.
      rewrite !fmap_cons in Hm. injection E as -> ->. injection Hm as Hy Hm. split; [done|]. by exists m, b.
Qed.

(** The filter of a token selects the strings that contain it. *)
Definition contains_ci (t s : str) : Prop :=
  ∃ a m b, s = a ++ m ++ b ∧ str_to_ascii_lowercase m = str_to_ascii_lowercase t.

Lemma like_contains t s : like ([PERCENT] ++ escape_like t ++ [PERCENT]) s = true ↔ contains_ci t s.
Proof.
  cbn [app like]. rewrite N.eqb_refl, any_suffix_true. unfold contains_ci. split.
  - intros (a & b & -> & H). apply like_escaped in H as (m & b' & -> & Hm & _). by exists a, m, b'.
  - intros (a & m & b & -> & Hm). exists a, (m ++ b). split; [done|]. apply like_escaped.
    exists m, b. split_and!; [done..|]. cbn [like]. rewrite N.eqb_refl. apply any_suffix_true.
    exists b, []. by rewrite app_nil_r.
Qed.

Lemma like_filter_true r t :
  like_filter r t = true
  ↔ contains_ci t (name r) ∨ ∃ ns, namespace r = Some ns ∧ contains_ci t ns.
Proof.
  unfold like_filter. rewrite orb_true_iff, like_contains. f_equiv.
  destruct (namespace r) as [ns|]; [rewrite like_contains|]; naive_solver.
Qed.

(** The kind bias, in tenths. *)
Definition KIND_BIAS_CASE (kind_id : str) : Z :=
  let when (names : list string) := existsb (λ n, kind_id =s lit n) names in
  if when ["pods"%string] then 15
  else if when ["deployments"; "services"]%string then 14
  else if when ["statefulsets"; "daemonsets"]%string then 13
  else if when ["configmaps"; "secrets"; "ingresses"; "nodes"; "namespaces"; "cronjobs";
                "helm_releases"]%string then 12
  else if when ["jobs"; "persistentvolumeclaims"]%string then 11
  else if when ["events"%string] then 2
  else if when ["endpoints"; "endpointslices"; "leases"]%string then 3
  else if when ["replicasets"%string] then 4
  else 10.

Record SearchHit : Set := { hit_kind_id : str; hit_uid : str; hit_namespace : option str; hit_name : str }.

Definition parse_hit (kr : Key * IndexRow) : SearchHit :=
  {| hit_kind_id := kr.1.1; hit_uid := kr.1.2; hit_namespace := namespace kr.2; hit_name := name kr.2 |}.

Definition clamp_limit (limit : N) : nat :=
  Z.to_nat (Z.max 1 (Z.min MAX_RESULTS (if Z.of_N limit <=? i64_max then Z.of_N limit else MAX_RESULTS))).

(** The columns of live rows. *)
Abbreviation View := (gmap Key (option str * str * str)).

(** The relation of a boolean order. *)
Definition ordered {A} (leb : A → A → bool) (a b : A) : Prop := leb a b = true.

#[global] Instance ordered_dec {A} (leb : A → A → bool) : RelDecision (ordered leb).
Proof. intros a b. unfold ordered. apply _. Defined.

Section Engine.
(** The full-text engine: how a MATCH string parses into phrases, whether a phrase
    matches a document, the bm25 score (weighted by the kind bias; lower is
    better) of a row for a MATCH string. *)
Context {Score : Type} (fts_parse : str → option (list str)) (phrase_match : str → FtsRow → bool)
        (bm25 : Conn → str → Key → Score) (weight : Score → Z → Score) (score_leb : Score → Score → bool).

Inductive SearchError : Set := Sqlite | WriterGone.

Definition live (r : IndexRow) : bool := bool_decide (deleted_at r = None).

(** The rows a statement selects, before ORDER BY and LIMIT. *)
Definition fts_match (phrases : list str) (c : Conn) (k : Key) : bool :=
  match rows_fts c !! k with
  | Some d => forallb (λ t, phrase_match t d) phrases
  | None => false
  end.

Definition select (where_ : Key * IndexRow → bool) (c : Conn) : list (Key * IndexRow) :=
  filter (λ kr, live kr.2 && where_ kr = true) (map_to_list (rows c)).

Definition fts_leb (c : Conn) (q : str) (a b : Key * IndexRow) : bool :=
  score_leb (weight (bm25 c q a.1) (KIND_BIAS_CASE a.1.1)) (weight (bm25 c q b.1) (KIND_BIAS_CASE b.1.1)).

(** [(bias) DESC, updated_at DESC]. *)
Definition like_leb (a b : Key * IndexRow) : bool :=
  let ba := KIND_BIAS_CASE a.1.1 in
  let bb := KIND_BIAS_CASE b.1.1 in
  (bb <? ba) || (bb =? ba) && (updated_at b.2 <=? updated_at a.2).

Definition order_limit (leb : Key * IndexRow → Key * IndexRow → bool) (limit : nat)
    (l : list (Key * IndexRow)) : list SearchHit :=
  parse_hit <$> take limit (merge_sort (ordered leb) l).

Definition like_fallback (c : Conn) (tokens : list str) (limit : nat) : list SearchHit :=
  order_limit like_leb limit (select (λ kr, forallb (like_filter kr.2) tokens) c).

Definition long_token (t : str) : bool := (TRIGRAM_MIN <=? length t)%nat.

Definition run (c : Conn) (query : str) (limit : N) : result (list SearchHit) SearchError :=
  let trimmed := trim query in
  if (length trimmed <? MIN_QUERY_LEN)%nat then Ok []
  else
    let limit := clamp_limit limit in
    let tokens := split_whitespace trimmed in
    let long := filter (λ t, long_token t = true) tokens in
    let short := filter (λ t, long_token t = false) tokens in
    if bool_decide (long = []) then Ok (like_fallback c short limit)
    else
      let match_query := join (lit " ") (escape_fts_phrase <$> long) in
      match fts_parse match_query with
      | Some phrases =>
          Ok (order_limit (fts_leb c match_query) limit
                (select (λ kr, fts_match phrases c kr.1 && forallb (like_filter kr.2) short) c))
      | None => Err Sqlite
      end.

(** ** The writer task (writer.rs: [writer_loop], [flush]) *)

Inductive IndexCommand : Set :=
  | Write (op : WriteOp)
  | Search (query : str) (limit : N)
  | Gc (tombstone_age stale_age : Z).

Inductive Reply : Set :=
  | SearchReply (r : result (list SearchHit) SearchError)
  | GcReply (r : result GcStats SearchError).

(** What a receive returned: a command, the end of the batching window, or the
    closed channel. *)
Inductive Received : Set := Command (c : IndexCommand) | Elapsed | Closed.

(** The moment of one turn of the loop: the monotonic clock, the wall clock, and
    whether the transaction it may run commits. *)
Record Turn : Set := { instant : Z; unix_ms : Z; commits : bool }.

Record Writer : Set := { conn : Conn; buffer : list WriteOp; window_start : option Z }.

(** How the next receive waits: forever, or until a deadline; [None] is the
    [expect] on a missing window failing. *)
Definition next_receive (w : Writer) : option (option Z) :=
  if bool_decide (buffer w = []) then Some None
  else started ← window_start w; Some (Some (started + BATCH_WINDOW)).

Definition flush (t : Turn) (w : Writer) : Writer :=
  if bool_decide (buffer w = []) then w
  else {| conn := if commits t then apply_writes (unix_ms t) (buffer w) (conn w) else conn w;
          buffer := []; window_start := window_start w |}.

(** A flush followed by [window_start = None]. *)
Definition flush_reset (t : Turn) (w : Writer) : Writer :=
  let w := flush t w in {| conn := conn w; buffer := buffer w; window_start := None |}.

Definition flush_pending (t : Turn) (w : Writer) : Writer :=
  if bool_decide (buffer w = []) then w else flush_reset t w.

Definition on_write (t : Turn) (op : WriteOp) (w : Writer) : Writer :=
  let started := if bool_decide (buffer w = []) then Some (instant t) else window_start w in
  let w := {| conn := conn w; buffer := buffer w ++ [op]; window_start := started |} in
  if (BATCH_MAX <=? length (buffer w))%nat then flush_reset t w else w.

Definition writer_turn (w : Writer) (t : Turn) (r : Received) : Writer * option Reply :=
  match r with
  | Elapsed => (flush_reset t w, None)
  | Closed => (flush t w, None)
  | Command (Write op) => (on_write t op w, None)
  | Command (Search query limit) =>
      let w := flush_pending t w in
      (w, Some (SearchReply (run (conn w) query limit)))
  | Command (Gc tombstone_age stale_age) =>
      let w := flush_pending t w in
      let '(stats, c) := gc_run (unix_ms t) tombstone_age stale_age (conn w) in
      ({| conn := c; buffer := buffer w; window_start := window_start w |}, Some (GcReply (Ok stats)))
  end.

(** A receive elapses only when it has a deadline, and not before. *)
Definition may_receive (w : Writer) (t : Turn) (r : Received) : bool :=
  match r with
  | Elapsed => match next_receive w with
               | Some (Some deadline) => deadline <=? instant t
               | _ => false
               end
  | _ => true
  end.

Definition writer_start : Writer := {| conn := open_index; buffer := []; window_start := None |}.

(** The loop over a script of turns, and the replies it sends; it stops when the
    channel is closed, [None] when a receive panics. *)
Fixpoint writer_loop (w : Writer) (script : list (Turn * Received)) : option (Writer * list Reply) :=
  match script with
  | [] => Some (w, [])
  | (t, r) :: script =>
      _ ← next_receive w;
      let '(w, reply) := writer_turn w t r in
      match r with
      | Closed => Some (w, [])
      | _ => '(w, replies) ← writer_loop w script;
             Some (w, match reply with Some x => x :: replies | None => replies end)
      end
  end.

(** The database could not be opened: every request is refused. *)
Definition drain_with_writer_gone (c : IndexCommand) : option Reply :=
  match c with
  | Write _ => None
  | Search _ _ => Some (SearchReply (Err WriterGone))
  | Gc _ _ => Some (GcReply (Err WriterGone))
  end.

(** ** Tables *)

Definition in_sync (c : Conn) : Prop :=
  ∀ k, rows_fts c !! k = fts_row k <$> rows c !! k.

(** What a query can see: the columns of the live rows. *)
Definition view (c : Conn) : View :=
  omap (λ r, if live r then Some (namespace r, name r, labels r) else None) (rows c).

Definition view_op (m : View) (op : WriteOp) : View :=
  match op with
  | WUpsert kind_id uid ns nm lab => <[(kind_id, uid) := (ns, nm, lab)]> m
  | WDelete kind_id uid => base.delete (kind_id, uid) m
  end.

Lemma set_row_sync k r old c :
  in_sync c → rows c !! k = old →
  in_sync (set_row k r (match old with Some o => rows_au k o r (rows_fts c)
                                     | None => rows_ai k r (rows_fts c) end) c).
Proof.
  intros Hs Ho k'. unfold set_row. simpl. pose proof (Hs k) as Hk. pose proof (Hs k') as Hk'.
  rewrite Ho in Hk. destruct (decide (k' = k)) as [->|Hne].
  - rewrite lookup_insert_eq. simpl. destruct old as [o|]; [|by unfold rows_ai; rewrite lookup_insert_eq].
    unfold rows_au. destruct (_ || _) eqn:E; [by rewrite lookup_insert_eq|]. rewrite Hk. simpl.
    bool_to_prop. unfold fts_row. rewrite str_eqb_eq in *. by f_equal; f_equal; symmetry.
  - rewrite lookup_insert_ne by done. rewrite <- Hk'.
    destruct old as [o|]; [unfold rows_au, fts_delete|unfold rows_ai].
    + destruct (_ || _); [|done]. rewrite lookup_insert_ne by done.
      case_bool_decide; [by rewrite lookup_delete_ne|done].
    + by rewrite lookup_insert_ne.
Qed.

Lemma view_set_row k r fts c :
  view (set_row k r fts c)
  = if live r then <[k := (namespace r, name r, labels r)]> (view c) else base.delete k (view c).
Proof.
  apply map_eq. intros k'. unfold view, set_row. simpl. rewrite lookup_omap.
  destruct (decide (k' = k)) as [->|Hne].
  - rewrite lookup_insert_eq. simpl. destruct (live r); [by rewrite lookup_insert_eq|by rewrite lookup_delete_eq].
  - rewrite lookup_insert_ne by done.
    destruct (live r); [rewrite lookup_insert_ne by done|rewrite lookup_delete_ne by done]; by rewrite lookup_omap.
Qed.

Lemma view_lookup c k : view c !! k = r ← rows c !! k; if live r then Some (namespace r, name r, labels r) else None.
Proof. unfold view. by rewrite lookup_omap. Qed.

Lemma apply_op_view now c op : view (apply_op now c op) = view_op (view c) op.
Proof.
  destruct op as [kind uid ns nm lab|kind uid]; unfold apply_op, view_op.
  - destruct (rows c !! _) as [old|] eqn:Eo; [|by rewrite view_set_row].
    destruct (needs_write _ _ _) eqn:En; [by rewrite view_set_row|].
    symmetry. apply insert_id. rewrite view_lookup, Eo. simpl. unfold needs_write in En. bool_to_prop.
    unfold live. rewrite bool_decide_true by (by apply dec_stable). rewrite str_eqb_eq in *. simpl in *. by subst.
  - destruct (rows c !! _) as [old|] eqn:Eo.
    + case_bool_decide as Ed; [by rewrite view_set_row|]. symmetry. apply delete_id.
      rewrite view_lookup, Eo. simpl. unfold live. by rewrite bool_decide_false.
    + symmetry. apply delete_id. by rewrite view_lookup, Eo.
Qed.

Lemma apply_op_sync now c op : in_sync c → in_sync (apply_op now c op).
Proof.
  intros Hs. destruct op as [kind uid ns nm lab|kind uid]; unfold apply_op.
  - destruct (rows c !! _) as [old|] eqn:Eo; [destruct (needs_write _ _ _); [|done]|].
    + exact (set_row_sync _ _ (Some old) c Hs Eo).
    + exact (set_row_sync _ _ None c Hs Eo).
  - destruct (rows c !! _) as [old|] eqn:Eo; [|done]. case_bool_decide; [|done].
    exact (set_row_sync _ _ (Some old) c Hs Eo).
Qed.

Lemma apply_writes_spec now ops c :
  view (apply_writes now ops c) = foldl view_op (view c) ops
  ∧ (in_sync c → in_sync (apply_writes now ops c)).
Proof.
  unfold apply_writes. revert c. induction ops as [|op ops IH]; intros c; cbn [foldl]; [done|].
  destruct (IH (apply_op now c op)) as [-> Hs]. rewrite apply_op_view. split; [done|].
  intros ?. by apply Hs, apply_op_sync.
Qed.

Lemma delete_where_spec p c :
  (∀ k, rows (delete_where p c).1 !! k = r ← rows c !! k; if p r then None else Some r)
  ∧ (in_sync c → in_sync (delete_where p c).1).
Proof.
  assert (∀ k, rows (delete_where p c).1 !! k = r ← rows c !! k; if p r then None else Some r) as Hr.
  { intros k. simpl. rewrite map_lookup_filter. destruct (rows c !! k) as [r|]; [|done]. simpl.
    destruct (p r) eqn:E; [by rewrite option_guard_False|by rewrite option_guard_True]. }
  split; [done|]. intros Hs k. rewrite Hr. simpl. unfold rows_ad. rewrite map_lookup_filter, (Hs k).
  destruct (rows c !! k) as [r|] eqn:Ek; [|done]. simpl. rewrite Ek, bool_decide_true, andb_true_r by done.
  by destruct (p r); [rewrite option_guard_False|rewrite option_guard_True].
Qed.

(** ** The writer *)

Definition good_window (w : Writer) : Prop :=
  (length (buffer w) < BATCH_MAX)%nat ∧ (buffer w ≠ [] → is_Some (window_start w)).

Definition written (rs : list (Turn * Received)) : list WriteOp :=
  omap (λ r, match r.2 with Command (Write op) => Some op | _ => None end) rs.

Lemma flush_sync t w : in_sync (conn w) → in_sync (conn (flush t w)) ∧ buffer (flush t w) = [].
Proof.
  intros Hs. unfold flush. case_bool_decide; [done|]. simpl. split; [|done].
  destruct (commits t); [|done]. by apply apply_writes_spec.
Qed.

Lemma flush_pending_conn t w : conn (flush_pending t w) = conn (flush t w) ∧ buffer (flush_pending t w) = buffer (flush t w).
Proof. unfold flush_pending, flush_reset. case_bool_decide as E; [|done]. unfold flush. by rewrite bool_decide_eq_true_2. Qed.

Lemma flush_pending_spec t w : in_sync (conn w) → in_sync (conn (flush_pending t w)) ∧ buffer (flush_pending t w) = [].
Proof. intros Hs. destruct (flush_pending_conn t w) as [-> ->]. by apply flush_sync. Qed.

Lemma on_write_spec t op w :
  in_sync (conn w) → good_window w → in_sync (conn (on_write t op w)) ∧ good_window (on_write t op w).
Proof.
  intros Hs [Hb Hw]. unfold on_write. cbn [buffer conn].
  set (w1 := {| conn := conn w; buffer := buffer w ++ [op]; window_start := _ |}).
  destruct (Nat.leb_spec BATCH_MAX (length (buffer w ++ [op]))) as [Hl|Hl].
  - unfold flush_reset. destruct (flush_sync t w1 Hs) as [Hs1 Hn]. split; [done|].
    split; simpl; rewrite Hn; [unfold BATCH_MAX; simpl; lia|done].
  - split; [done|]. split; [done|]. intros _. simpl. case_bool_decide as E; [by eexists|by apply Hw].
Qed.

Lemma writer_turn_good w t r :
  in_sync (conn w) → good_window w →
  in_sync (conn (writer_turn w t r).1) ∧ good_window (writer_turn w t r).1.
Proof.
  intros Hs Hg. assert (∀ c ws, good_window {| conn := c; buffer := []; window_start := ws |}) as Hnil.
  { intros c ws. split; simpl; [unfold BATCH_MAX; lia|done]. }
  destruct r as [[op|query limit|ta sa]| |]; cbn [writer_turn fst].
  - by apply on_write_spec.
  - destruct (flush_pending_spec t w Hs) as [Hs' Hb]. split; [done|].
    destruct (flush_pending t w) as [c b ws]; simpl in *; subst. apply Hnil.
  - destruct (flush_pending_spec t w Hs) as [Hs' Hb]. unfold gc_run.
    pose proof (delete_where_spec (is_tombstone (saturating_sub (unix_ms t) (millis_i64 ta)))
                  (conn (flush_pending t w))) as [_ H1].
    destruct (delete_where _ (conn _)) as [c1 n1].
    pose proof (delete_where_spec (is_stale (saturating_sub (unix_ms t) (millis_i64 sa))) c1) as [_ H2].
    destruct (delete_where _ c1) as [c2 n2]. simpl. rewrite Hb. split; [auto|apply Hnil].
  - unfold flush_reset. destruct (flush_sync t w Hs) as [? Hb]. simpl. rewrite Hb. split; [done|apply Hnil].
  - destruct (flush_sync t w Hs) as [? Hb]. split; [done|].
    destruct (flush t w) as [c b ws]; simpl in *; subst. apply Hnil.
Qed.

Lemma next_receive_good w : good_window w → is_Some (next_receive w).
Proof.
  intros [_ Hw]. unfold next_receive. case_bool_decide as E; [by eexists|].
  destruct (Hw E) as [s ->]. by eexists.
Qed.

Lemma writer_loop_cons w t r script :
  r ≠ Closed →
  writer_loop w ((t, r) :: script)
  = (_ ← next_receive w;
     '(w', replies) ← writer_loop (writer_turn w t r).1 script;
     Some (w', match (writer_turn w t r).2 with Some x => x :: replies | None => replies end)).
Proof.
  intros Hr. cbn [writer_loop]. destruct (next_receive w); [|done]. simpl.
  destruct (writer_turn w t r) as [w1 reply]. by destruct r.
Qed.

(** *** The transactions *)

(** The rows alive after the transactions that committed, each of some writes at a turn. *)
Definition landed (bs : list (Turn * list WriteOp)) : View :=
  foldl view_op ∅ (concat (snd <$> filter (λ b, commits b.1 = true) bs)).

Definition is_gc (r : Received) : bool := match r with Command (Gc _ _) => true | _ => false end.

(** The turns of [past] put the writes of [sent] into the transactions [bs], in order, apart
    from what is buffered; [swept]: a collection has run. *)
Record accounted (w : Writer) (past : list Turn) (sent : list WriteOp) (swept : bool) (bs : list (Turn * list WriteOp)) : Prop := {
  acc_sent : concat bs.*2 ++ buffer w = sent;
  acc_past : bs.*1 `sublist_of` past;
  acc_small : Forall (λ b, b.2 ≠ [] ∧ (length b.2 ≤ BATCH_MAX)%nat) bs;
  acc_within : view (conn w) ⊆ landed bs;
  acc_exact : swept = false → view (conn w) = landed bs;
}.

Lemma view_op_mono (m m' : View) op : m ⊆ m' → view_op m op ⊆ view_op m' op.
Proof. intros Hm. destruct op; simpl; [by apply insert_mono|by apply delete_mono]. Qed.

Lemma view_ops_mono (ops : list WriteOp) (m m' : View) : m ⊆ m' → foldl view_op m ops ⊆ foldl view_op m' ops.
Proof. revert m m'. induction ops as [|op ops IH]; intros m m' Hm; [done|]. by apply IH, view_op_mono. Qed.

Lemma landed_snoc (bs : list (Turn * list WriteOp)) (t : Turn) (ops : list WriteOp) :
  landed (bs ++ [(t, ops)]) = if commits t then foldl view_op (landed bs) ops else landed bs.
Proof.
  unfold landed. rewrite filter_app, fmap_app, concat_app, foldl_app. f_equal.
  destruct (commits t) eqn:E; [rewrite filter_cons_True by done|by rewrite filter_cons_False by (simpl; congruence)].
  cbn [filter list_filter fmap list_fmap concat]. by rewrite app_nil_r.
Qed.

(** A flush is a transaction of what was buffered. *)
Lemma flush_accounted t w past sent swept bs :
  accounted w past sent swept bs → (length (buffer w) ≤ BATCH_MAX)%nat →
  ∃ bs', accounted (flush t w) (past ++ [t]) sent swept bs'.
Proof.
  intros [Hsent Hpast Hsmall Hin Hex] Hlen. unfold flush. case_bool_decide as E.
  { exists bs. split; try done. etransitivity; [done|]. by apply sublist_inserts_r. }
  exists (bs ++ [(t, buffer w)]). destruct (apply_writes_spec (unix_ms t) (buffer w) (conn w)) as [Hv _].
  split; cbn [buffer conn].
  - by rewrite fmap_app, concat_app, app_nil_r; simpl; rewrite app_nil_r.
  - rewrite fmap_app. by apply sublist_app.
  - apply Forall_app. split; [done|]. by constructor.
  - rewrite landed_snoc. destruct (commits t); [|done]. rewrite Hv. by apply view_ops_mono.
  - intros Hs. rewrite landed_snoc. destruct (commits t); [|by apply Hex]. by rewrite Hv, Hex.
Qed.

Lemma accounted_same w w' past sent swept bs :
  conn w' = conn w → buffer w' = buffer w → accounted w past sent swept bs → accounted w' past sent swept bs.
Proof. intros Hc Hb [H1 H2 H3 H4 H5]. split; by rewrite ?Hc, ?Hb. Qed.

Lemma delete_where_view p c : view (delete_where p c).1 ⊆ view c.
Proof.
  apply map_subseteq_spec. intros k x. rewrite !view_lookup, (proj1 (delete_where_spec p c) k).
  destruct (rows c !! k) as [r|]; [|done]. simpl. by destruct (p r).
Qed.

Lemma gc_view now ta sa c : view (gc_run now ta sa c).2 ⊆ view c.
Proof.
  unfold gc_run. pose proof (delete_where_view (is_tombstone (saturating_sub now (millis_i64 ta))) c) as H1.
  destruct (delete_where _ c) as [c1 n1]. simpl in H1.
  pose proof (delete_where_view (is_stale (saturating_sub now (millis_i64 sa))) c1) as H2.
  destruct (delete_where _ c1) as [c2 n2]. simpl in *. by etransitivity.
Qed.

Lemma turn_accounted w t r past sent swept bs :
  good_window w → accounted w past sent swept bs →
  ∃ bs', accounted (writer_turn w t r).1 (past ++ [t]) (sent ++ written [(t, r)]) (swept || is_gc r) bs'.
Proof.
  intros [Hg _] Ha. destruct r as [[op|query limit|ta sa]| |]; cbn [writer_turn fst is_gc];
    rewrite ?orb_false_r, ?orb_true_r; try (change (written _) with (@nil WriteOp); rewrite app_nil_r).
  - change (written _) with [op]. unfold on_write. cbn [buffer conn].
    set (w1 := {| conn := conn w; buffer := buffer w ++ [op]; window_start := _ |}).
    assert (accounted w1 past (sent ++ [op]) swept bs) as H1.
    { destruct Ha as [H1 H2 H3 H4 H5]. split; try done. simpl. by rewrite app_assoc, H1. }
    destruct (Nat.leb_spec BATCH_MAX (length (buffer w ++ [op]))) as [Hl|Hl].
    + destruct (flush_accounted t w1 _ _ _ _ H1) as [bs' H']; [simpl; rewrite length_app; simpl; lia|].
      exists bs'. by eapply accounted_same, H'.
    + exists bs. destruct H1 as [? ? ? ? ?]. split; try done. etransitivity; [done|]. by apply sublist_inserts_r.
  - destruct (flush_accounted t w _ _ _ _ Ha) as [bs' H']; [lia|]. exists bs'. destruct (flush_pending_conn t w).
    by eapply accounted_same, H'.
  - destruct (flush_accounted t w _ _ _ _ Ha) as [bs' [H1 H2 H3 H4 H5]]; [lia|]. exists bs'.
    destruct (flush_pending_conn t w) as [Ec Eb]. rewrite <- Ec in H4. rewrite <- Eb in H1.
    pose proof (gc_view (unix_ms t) ta sa (conn (flush_pending t w))) as Hgc. destruct (gc_run _ _ _ _) as [stats c].
    split; try done. simpl in *. by etransitivity.
  - destruct (flush_accounted t w _ _ _ _ Ha) as [bs' H']; [lia|]. exists bs'. by eapply accounted_same, H'.
  - destruct (flush_accounted t w _ _ _ _ Ha) as [bs' H']; [lia|]. by exists bs'.
Qed.

Lemma writer_loop_accounted w script past sent swept bs :
  in_sync (conn w) → good_window w → accounted w past sent swept bs → Forall (λ tr, tr.2 ≠ Closed) script →
  ∃ w' replies bs', (∀ rest, writer_loop w (script ++ rest)
                         = '(w2, more) ← writer_loop w' rest; Some (w2, replies ++ more))
  ∧ in_sync (conn w') ∧ good_window w'
  ∧ accounted w' (past ++ script.*1) (sent ++ written script) (swept || existsb (λ tr, is_gc tr.2) script) bs'.
Proof.
  intros Hs Hg Ha Ho. revert w past sent swept bs Hs Hg Ha. induction Ho as [|[t r] script Hr _ IH]; intros w past sent swept bs Hs Hg Ha.
  { exists w, [], bs. simpl. rewrite !app_nil_r, orb_false_r. split_and!; [|done..]. intros rest.
    by destruct (writer_loop w rest) as [[]|]. }
  destruct (writer_turn_good w t r Hs Hg) as [Hs1 Hg1]. destruct (turn_accounted w t r _ _ _ _ Hg Ha) as [bs1 Ha1].
  destruct (IH _ _ _ _ _ Hs1 Hg1 Ha1) as (w' & replies & bs' & Hloop & ? & ? & Hacc).
  exists w', (match (writer_turn w t r).2 with Some x => x :: replies | None => replies end), bs'.
  split_and!; [|done..|].
  - intros rest. rewrite <- app_comm_cons, writer_loop_cons by done.
    destruct (next_receive_good w Hg) as [d ->]. simpl. rewrite Hloop.
    destruct (writer_loop w' rest) as [[w2 more]|]; [|done]. simpl. by destruct (writer_turn w t r).2.
  - rewrite <- !app_assoc, <- orb_assoc in Hacc. unfold written in *. rewrite <- omap_app in Hacc. exact Hacc.
Qed.

(** C35: a search answers from what was sent before it.  Whatever the clocks, the batching
    windows, full batches, other queries, collections and failing transactions, the writes
    sent before a search are cut, in order and without a loss or a repeat, into transactions of
    1 to 500 writes, each run at a turn of its own no later than the search; the table it is
    run on holds no row that those that commit do not leave alive, and exactly those rows as
    long as no collection has run, so exactly what all the writes leave where every
    transaction commits; the full-text index has the documents of that table.  Closing the
    channel instead writes what the search would have written. *)
Theorem search_reads_writes (script : list (Turn * Received)) (t : Turn) (query : str) (limit : N) :
  Forall (λ tr, tr.2 ≠ Closed) script →
  ∃ c w w' replies bs,
    writer_loop writer_start (script ++ [(t, Command (Search query limit))])
    = Some (w, replies ++ [SearchReply (run c query limit)])
    ∧ writer_loop writer_start (script ++ [(t, Closed)]) = Some (w', replies)
    ∧ concat bs.*2 = written script ∧ bs.*1 `sublist_of` script.*1 ++ [t]
    ∧ Forall (λ b, b.2 ≠ [] ∧ (length b.2 ≤ BATCH_MAX)%nat) bs
    ∧ view c ⊆ landed bs ∧ (existsb (λ tr, is_gc tr.2) script = false → view c = landed bs)
    ∧ (Forall (λ tr, commits tr.1 = true) script → commits t = true → landed bs = foldl view_op ∅ (written script))
    ∧ in_sync c ∧ view (conn w') = view c.
Proof.
  intros Ho. assert (in_sync (conn writer_start)) as Hs by done.
  assert (good_window writer_start) as Hg by (split; simpl; [unfold BATCH_MAX; lia|done]).
  assert (accounted writer_start [] [] false []) as Ha by (by split).
  destruct (writer_loop_accounted writer_start script [] [] false [] Hs Hg Ha Ho) as (w & replies & bs0 & Hloop & Hsw & Hgw & Hacc).
  destruct (next_receive_good w Hgw) as [d Hd]. destruct (flush_sync t w Hsw) as [Hs1 Hb].
  destruct (flush_accounted t w _ _ _ _ Hacc) as [bs [H1 H2 H3 H4 H5]]; [destruct Hgw; lia|].
  destruct (flush_pending_conn t w) as [Ec _].
  exists (conn (flush_pending t w)), (flush_pending t w), (flush t w), replies, bs. split_and!; try done.
  - rewrite Hloop. cbn [writer_loop]. rewrite Hd. done.
  - rewrite Hloop. cbn [writer_loop]. rewrite Hd. simpl. by rewrite app_nil_r.
  - rewrite Hb, app_nil_r in H1. exact H1.
  - by rewrite Ec.
  - intros Hn. rewrite Ec. by apply H5.
  - intros Hall Ht. rewrite Hb, app_nil_r in H1. change (concat bs.*2 = written script) in H1. rewrite <- H1.
    unfold landed. f_equal. f_equal. f_equal. apply list_filter_all.
    assert (Forall (λ u, commits u = true) (script.*1 ++ [t])) as Hc by (apply Forall_app; split; [by apply Forall_fmap|by repeat constructor]).
    intros b Hb'. rewrite Forall_forall in Hc. apply Hc. eapply sublist_subseteq, list_elem_of_fmap_2; [exact H2|exact Hb'].
  - by rewrite Ec.
  - by rewrite Ec.
Qed.

Definition is_request (r : Received) : bool :=
  match r with Command (Search _ _) | Command (Gc _ _) => true | _ => false end.

Fixpoint requests (script : list (Turn * Received)) : nat :=
  match script with
  | [] => 0
  | (_, r) :: script => match r with Closed => 0 | _ => Nat.b2n (is_request r) + requests script end
  end.

(** whatever the clocks and whichever transactions fail, the writer never
    panics, keeps fewer writes than a full batch between two turns, keeps the
    full-text index in step with the table, and answers every query and collection
    exactly once. *)
Theorem writer_never_panics (script : list (Turn * Received)) :
  ∃ w replies, writer_loop writer_start script = Some (w, replies)
  ∧ in_sync (conn w) ∧ (length (buffer w) < BATCH_MAX)%nat ∧ length replies = requests script.
Proof.
  assert (in_sync (conn writer_start)) as Hs by done.
  assert (good_window writer_start) as Hg by (split; simpl; [unfold BATCH_MAX; lia|done]).
  revert Hs Hg. generalize writer_start as w. induction script as [|[t r] script IH]; intros w Hs Hg.
  { exists w, []. by destruct Hg. }
  destruct (writer_turn_good w t r Hs Hg) as [Hs1 Hg1]. destruct (next_receive_good w Hg) as [d Hd].
  assert (r = Closed ∨ r ≠ Closed) as [->|Hr] by (destruct r; auto).
  { exists (flush t w), []. cbn [writer_loop]. rewrite Hd. split_and!; [done|done|apply Hg1|done]. }
  destruct (IH _ Hs1 Hg1) as (w' & replies & Hloop & ? & ? & Hlen).
  rewrite writer_loop_cons, Hd, Hloop by done. simpl. eexists _, _.
  split; [done|]. split; [done|]. split; [done|].
  destruct r as [[]| |]; simpl in *; try done; try (by f_equal).
Qed.

(** ** Queries *)

Lemma like_leb_order : Total (ordered like_leb) ∧ Transitive (ordered like_leb).
Proof.
  split.
  - intros a b. unfold ordered, like_leb. rewrite !orb_true_iff, !andb_true_iff, !Z.ltb_lt, !Z.eqb_eq, !Z.leb_le. lia.
  - intros a b c. unfold ordered, like_leb. rewrite !orb_true_iff, !andb_true_iff, !Z.ltb_lt, !Z.eqb_eq, !Z.leb_le. lia.
Qed.

(** What a row must satisfy for a token: long ones match a phrase of the indexed
    document, short ones occur in the name or the namespace. *)
Definition token_selects (k : Key) (r : IndexRow) (t : str) : Prop :=
  if long_token t then phrase_match t (fts_row k r) = true
  else contains_ci t (name r) ∨ ∃ ns, namespace r = Some ns ∧ contains_ci t ns.

Lemma token_tests k r tokens (long := filter (λ t, long_token t = true) tokens)
    (short := filter (λ t, long_token t = false) tokens) :
  forallb (λ t, phrase_match t (fts_row k r)) long && forallb (like_filter r) short = true
  ↔ Forall (token_selects k r) tokens.
Proof.
  subst long short. rewrite andb_true_iff, !forallb_Forall, !Forall_forall. unfold token_selects. split.
  - intros [Hl Hs] t Ht. destruct (long_token t) eqn:E.
    + apply Hl. by apply list_elem_of_filter.
    + apply like_filter_true, Hs. by apply list_elem_of_filter.
  - intros H. split; intros t [Et Ht]%list_elem_of_filter; specialize (H t Ht); rewrite Et in H; [done|].
    by apply like_filter_true.
Qed.

Lemma select_spec where_ c k r :
  (k, r) ∈ select where_ c ↔ rows c !! k = Some r ∧ deleted_at r = None ∧ where_ (k, r) = true.
Proof.
  unfold select. rewrite list_elem_of_filter, elem_of_map_to_list, andb_true_iff. unfold live.
  rewrite bool_decide_eq_true. simpl. tauto.
Qed.

Lemma select_NoDup where_ c : NoDup (select where_ c).
Proof. unfold select. apply NoDup_filter, NoDup_map_to_list. Qed.

(** The order of the hits of a query. *)
Definition hit_order (c : Conn) (query : str) : Key * IndexRow → Key * IndexRow → bool :=
  let long := filter (λ t, long_token t = true) (split_whitespace (trim query)) in
  if bool_decide (long = []) then like_leb else fts_leb c (join (lit " ") (escape_fts_phrase <$> long)).

(** Documented behaviour of the engine: a MATCH string made of quoted strings,
    with the quotes inside them doubled, means all these phrases; scores are
    totally ordered. *)
Fixpoint quoted (t : str) : str :=
  match t with
  | [] => [DQUOTE]
  | c :: t => if (c =? DQUOTE)%N then DQUOTE :: DQUOTE :: quoted t else c :: quoted t
  end.

Context (fts_phrases : ∀ ts : list str, ts ≠ [] → Forall (λ t, t ≠ []) ts →
           fts_parse (join (lit " ") ((λ t, DQUOTE :: quoted t) <$> ts)) = Some ts).
Context (score_total : ∀ a b, score_leb a b = true ∨ score_leb b a = true)
        (score_trans : ∀ a b c, score_leb a b = true → score_leb b c = true → score_leb a c = true).

Lemma escape_fts_phrase_quoted t : escape_fts_phrase t = DQUOTE :: quoted t.
Proof.
  unfold escape_fts_phrase, replace. cbn [app]. f_equal. induction t as [|c t IH]; [done|].
  cbn [mbind list_bind quoted]. rewrite <- app_assoc, IH. by destruct (N.eqb_spec c DQUOTE) as [->|].
Qed.

Lemma fts_parse_escaped long :
  long ≠ [] → Forall (λ t, t ≠ []) long →
  fts_parse (join (lit " ") (escape_fts_phrase <$> long)) = Some long.
Proof using fts_phrases.
  intros. rewrite (list_fmap_ext _ (λ t, DQUOTE :: quoted t) long) by (intros; apply escape_fts_phrase_quoted).
  by apply fts_phrases.
Qed.

Lemma hit_order_sorts c query :
  Total (ordered (hit_order c query)) ∧ Transitive (ordered (hit_order c query)).
Proof using score_total score_trans.
  unfold hit_order. case_bool_decide; [apply like_leb_order|]. unfold fts_leb, ordered.
  split; [intros a b; apply score_total|intros a b d; apply score_trans].
Qed.

(** a query returns the rows it should, best first: with at least two
    characters, the hits are a prefix of the live rows all tokens select, without
    repetition and sorted by the weighted score (by kind bias and recency when
    every token is short), cut at the clamped limit.  Tokens stand for themselves:
    no quote, wildcard or operator in them has a meaning. *)
Theorem run_exact (c : Conn) (query : str) (limit : N) :
  in_sync c → (MIN_QUERY_LEN ≤ length (trim query))%nat →
  ∃ all, run c query limit = Ok (parse_hit <$> take (clamp_limit limit) all)
  ∧ NoDup all ∧ StronglySorted (ordered (hit_order c query)) all
  ∧ (∀ k r, (k, r) ∈ all ↔ rows c !! k = Some r ∧ deleted_at r = None
                           ∧ Forall (token_selects k r) (split_whitespace (trim query)))
  ∧ (1 ≤ clamp_limit limit ≤ 200)%nat.
Proof using fts_phrases score_total score_trans.
  intros Hs Hq. set (tokens := split_whitespace (trim query)).
  set (long := filter (λ t, long_token t = true) tokens).
  set (short := filter (λ t, long_token t = false) tokens).
  set (where_ kr := forallb (λ t, phrase_match t (fts_row kr.1 kr.2)) long && forallb (like_filter kr.2) short).
  destruct (hit_order_sorts c query) as [Htot Htr].
  assert (select (if bool_decide (long = []) then λ kr, forallb (like_filter kr.2) short
                  else λ kr, fts_match long c kr.1 && forallb (like_filter kr.2) short) c
          = select where_ c) as Hsel.
  { unfold select. apply list_filter_iff'. intros [k r] Hin%elem_of_map_to_list. simpl. f_equiv.
    f_equiv. unfold where_. simpl. case_bool_decide as El; [by rewrite El|].
    cbn [fst]. unfold fts_match. pose proof (Hs k) as Hk. rewrite Hin in Hk. simpl in *. by rewrite Hk. }
  exists (merge_sort (ordered (hit_order c query)) (select where_ c)). split_and!.
  - unfold run. rewrite (proj2 (Nat.ltb_ge _ _)) by done. fold tokens long short. rewrite <- Hsel.
    unfold hit_order. fold tokens long. case_bool_decide as El; [done|].
    rewrite fts_parse_escaped; [done|done|]. unfold long, tokens, split_whitespace.
    apply Forall_forall. intros t [_ [Ht _]%list_elem_of_filter]%list_elem_of_filter. done.
  - rewrite merge_sort_Permutation. apply select_NoDup.
  - by apply StronglySorted_merge_sort.
  - intros k r. rewrite merge_sort_Permutation, select_spec. unfold where_. simpl.
    unfold long, short. by rewrite token_tests.
  - unfold clamp_limit. unfold MAX_RESULTS. lia.
  - unfold clamp_limit. unfold MAX_RESULTS. lia.
Qed.
End Engine.

(** ** Collection *)

Lemma delete_where_size p c : (size (rows (delete_where p c).1) + (delete_where p c).2 = size (rows c))%nat.
Proof.
  simpl. rewrite <- (map_filter_union_complement (λ kr, p kr.2 = false) (rows c)) at 3.
  rewrite map_size_disj_union by apply map_disjoint_filter_complement. f_equal. f_equal.
  apply map_filter_ext. intros k r _. simpl. by destruct (p r).
Qed.

Lemma upsert_fresh t c kind uid ns nm lab :
  ∃ r, rows (apply_op t c (WUpsert kind uid ns nm lab)) !! (kind, uid) = Some r
  ∧ deleted_at r = None ∧ t - TOUCH_INTERVAL_MS ≤ updated_at r
  ∧ namespace r = ns ∧ name r = nm ∧ labels r = lab.
Proof.
  unfold apply_op. destruct (rows c !! _) as [old|] eqn:Eo;
    [destruct (needs_write _ _ _) eqn:En|]; unfold set_row; simpl; rewrite ?lookup_insert_eq, ?Eo.
  1,3: eexists; split_and!; try done; simpl; unfold TOUCH_INTERVAL_MS; lia.
  eexists. split; [done|]. unfold needs_write in En. bool_to_prop. rewrite str_eqb_eq in *.
  rewrite Z.ltb_ge in *. split_and!; try done. by apply dec_stable.
Qed.

(** a collection removes exactly the tombstones and the unrefreshed rows past
    their age, counts them, and leaves the full-text index in step; a row whose
    latest upsert is younger than the stale age less the touch interval stays. *)
Theorem gc_exact (c : Conn) (now tombstone_age stale_age : Z) :
  in_sync c → 0 ≤ now ≤ i64_max → 0 ≤ tombstone_age ≤ i64_max → 0 ≤ stale_age ≤ i64_max →
  let '(stats, c') := gc_run now tombstone_age stale_age c in
  in_sync c'
  ∧ (∀ k, rows c' !! k
          = r ← rows c !! k;
            if match deleted_at r with Some d => d <? now - tombstone_age
                                     | None => updated_at r <? now - stale_age end
            then None else Some r)
  ∧ (size (rows c') + tombstones_purged stats + stale_purged stats = size (rows c))%nat
  ∧ ∀ t c0 kind uid ns nm lab,
      c = apply_op t c0 (WUpsert kind uid ns nm lab) → now - t + TOUCH_INTERVAL_MS ≤ stale_age →
      ∃ r, rows c' !! (kind, uid) = Some r ∧ deleted_at r = None
           ∧ namespace r = ns ∧ name r = nm ∧ labels r = lab.
Proof.
  intros Hs Hn Hta Hsa. unfold gc_run.
  assert (∀ a, 0 ≤ a ≤ i64_max → saturating_sub now (millis_i64 a) = now - a) as Hcut.
  { intros a Ha. unfold millis_i64, saturating_sub. rewrite (proj2 (Z.leb_le _ _)) by lia.
    unfold i64_min, i64_max in *. lia. }
  rewrite !Hcut by done.
  set (p1 := is_tombstone (now - tombstone_age)). set (p2 := is_stale (now - stale_age)).
  destruct (delete_where_spec p1 c) as [Hr1 Hs1]. pose proof (delete_where_size p1 c) as Hz1.
  destruct (delete_where p1 c) as [c1 n1]. cbn [fst snd] in *.
  destruct (delete_where_spec p2 c1) as [Hr2 Hs2]. pose proof (delete_where_size p2 c1) as Hz2.
  destruct (delete_where p2 c1) as [c2 n2]. cbn [fst snd tombstones_purged stale_purged] in *.
  assert (∀ k, rows c2 !! k = r ← rows c !! k;
                 if match deleted_at r with Some d => d <? now - tombstone_age
                                          | None => updated_at r <? now - stale_age end
                 then None else Some r) as Hr.
  { intros k. rewrite Hr2, Hr1. destruct (rows c !! k) as [r|]; [|done]. simpl.
    unfold p1, p2, is_tombstone, is_stale. destruct (deleted_at r) as [d|] eqn:Ed; simpl;
      [destruct (d <? _); [done|]|]; simpl; by rewrite Ed. }
  split_and!; [auto|done|lia|]. intros t c0 kind uid ns nm lab Hc Ht.
  destruct (upsert_fresh t c0 kind uid ns nm lab) as (r & Hk & Hd & Hu & ? & ? & ?). rewrite <- Hc in Hk.
  exists r. rewrite Hr, Hk. simpl. rewrite Hd, (proj2 (Z.ltb_ge _ _)) by lia. done.
Qed.

(** The documentation of the collector drops "rows last seen alive more than
    [stale_age] ago"; an upsert that changes nothing does not count as seen within
    the touch interval: a row upserted 167 hours and a half ago, half an hour after
    its insertion, is dropped at the age of 168 hours. *)
Lemma quiet_row_purged :
  let hour := 3600000 in
  let op := upsert "configmaps" "u1" None "settings" "" in
  let c := apply_op (hour / 2) (apply_op 0 open_index op) op in
  size (rows c) = 1%nat ∧ rows (gc_run (168 * hour + 1) (24 * hour) (168 * hour) c).2 = ∅.
Proof. vm_compute. done. Qed.

(** ** Witnesses: an engine *)

Module Demo.

Inductive State : Set := Out | In (cur : str) | Quote (cur : str).

Fixpoint parse_from (st : State) (s : str) : option (list str) :=
  match s, st with
  | [], Out => Some []
  | [], In _ => None
  | [], Quote cur => Some [cur]
  | c :: s, Out => if (c =? DQUOTE)%N then parse_from (In []) s
                   else if (c =? 32)%N then parse_from Out s else None
  | c :: s, In cur => if (c =? DQUOTE)%N then parse_from (Quote cur) s else parse_from (In (cur ++ [c])) s
  | c :: s, Quote cur => if (c =? DQUOTE)%N then parse_from (In (cur ++ [DQUOTE])) s
                         else if (c =? 32)%N then l ← parse_from Out s; Some (cur :: l) else None
  end.

Lemma parse_quoted t cur rest :
  parse_from (In cur) (quoted t ++ rest) = parse_from (Quote (cur ++ t)) rest.
Proof.
  revert cur. induction t as [|c t IH]; intros cur; [by rewrite app_nil_r|]. cbn [quoted].
  destruct (N.eqb_spec c DQUOTE) as [->|Hc].
  - change (parse_from (In (cur ++ [DQUOTE])) (quoted t ++ rest) = parse_from (Quote (cur ++ DQUOTE :: t)) rest).
    rewrite IH. by rewrite <- app_assoc.
  - cbn [app parse_from]. rewrite (proj2 (N.eqb_neq _ _)) by done. rewrite IH. by rewrite <- app_assoc.
Qed.

Lemma fts_phrases (ts : list str) :
  ts ≠ [] → Forall (λ t, t ≠ []) ts →
  parse_from Out (join (lit " ") ((λ t, DQUOTE :: quoted t) <$> ts)) = Some ts.
Proof.
  intros Hne _. induction ts as [|t ts IH]; [done|]. destruct ts as [|t' ts].
  - change (parse_from (In []) (quoted t) = Some [t]). rewrite <- (app_nil_r (quoted t)). by rewrite parse_quoted.
  - change (parse_from (In []) (quoted t ++ 32%N :: join (lit " ") ((λ t, DQUOTE :: quoted t) <$> t' :: ts))
            = Some (t :: t' :: ts)). rewrite parse_quoted. cbn [parse_from]. by rewrite IH.
Qed.

Definition phrase_match (t : str) (d : FtsRow) : bool :=
  any_suffix (starts_with t) (f_name d) || any_suffix (starts_with t) (f_labels d).

Definition turn (n : Z) : Turn := {| instant := n; unix_ms := n; commits := true |}.

Definition script : list (Turn * Received) :=
  [(turn 1, Command (Write (upsert "pods" "u1" (Some (lit "default")) "mysql-0" "app=mysql")));
   (turn 2, Command (Write (upsert "pods" "u2" (Some []) "api-0" "")));
   (turn 250, Elapsed);
   (turn 251, Command (Write (delete "pods" "u2")));
   (turn 252, Command (Write (upsert "services" "u3" (Some (lit "db")) "mysql" "")))].

Definition loop := writer_loop (parse_from Out) phrase_match (λ _ _ _, -1) Z.mul Z.leb.

Definition hits : list SearchHit :=
  [{| hit_kind_id := "pods"; hit_uid := "u1"; hit_namespace := Some (lit "default"); hit_name := "mysql-0" |};
   {| hit_kind_id := "services"; hit_uid := "u3"; hit_namespace := Some (lit "db"); hit_name := "mysql" |}].

Lemma only_reply w replies r :
  loop writer_start (script ++ [(turn 300, Command (Search "mysql" 10))]) = Some (w, replies ++ [SearchReply r]) →
  r = Ok hits.
Proof.
  intros H. apply (f_equal (λ o, o ≫= last ∘ snd)) in H. simpl in H. rewrite last_snoc in H.
  assert (∀ a b : result (list SearchHit) SearchError, Some (SearchReply a) = Some (SearchReply b) → b = a) as Hinj
    by congruence.
  apply Hinj. rewrite <- H. vm_compute. reflexivity.
Qed.
End Demo.

Lemma search_reads_writes_witness :
  ∃ c w replies,
    Demo.loop writer_start (Demo.script ++ [(Demo.turn 300, Command (Search "mysql" 10))])
    = Some (w, replies ++ [SearchReply (Ok Demo.hits)])
    ∧ view c = {[ (lit "pods", lit "u1") := (Some (lit "default"), lit "mysql-0", lit "app=mysql");
                  (lit "services", lit "u3") := (Some (lit "db"), lit "mysql", []) ]}.
Proof.
  destruct (search_reads_writes (Demo.parse_from Demo.Out) Demo.phrase_match (λ _ _ _, -1) Z.mul Z.leb
              Demo.script (Demo.turn 300) "mysql" 10) as (c & w & w' & replies & bs & H & _ & _ & _ & _ & _ & Hv & Hall & _).
  - repeat apply Forall_cons_2; try apply Forall_nil_2; discriminate.
  - exists c, w, replies. split.
    2: { rewrite Hv by reflexivity. rewrite Hall; [vm_compute; reflexivity| |reflexivity].
         repeat apply Forall_cons_2; try apply Forall_nil_2; exact eq_refl. }
    rewrite <- (Demo.only_reply _ _ _ H). exact H.
Defined.

Lemma run_exact_witness :
  ∃ all, run (Demo.parse_from Demo.Out) Demo.phrase_match (λ _ _ _, -1) Z.mul Z.leb
           (apply_writes 0 [upsert "pods" "u1" None "mysql-0" ""] open_index) "mysql 0" 10
         = Ok (parse_hit <$> take 10 all) ∧ length all = 1%nat.
Proof.
  destruct (run_exact (Demo.parse_from Demo.Out) Demo.phrase_match (λ _ _ _, -1) Z.mul Z.leb Demo.fts_phrases
              ltac:(intros a b; rewrite !Z.leb_le; lia) ltac:(intros a b c; rewrite !Z.leb_le; lia)
              (apply_writes 0 [upsert "pods" "u1" None "mysql-0" ""] open_index) "mysql 0" 10)
    as (all & Hr & Hn & _ & Hin & _).
  - apply apply_writes_spec. done.
  - vm_compute. lia.
  - exists all. split; [exact Hr|].
    assert (take 10 all ≡ₚ take 10 all) as _ by reflexivity.
    assert (length (take 10 all) = 1%nat) as Hl.
    { rewrite <- (length_fmap parse_hit). replace (parse_hit <$> take 10 all)
        with [{| hit_kind_id := "pods"; hit_uid := "u1"; hit_namespace := None; hit_name := "mysql-0" |}]; [reflexivity|].
      transitivity (parse_hit <$> take (clamp_limit 10) all); [|reflexivity].
      assert (∀ (x y : list SearchHit), @Ok _ SearchError x = Ok y → x = y) as Hok by congruence.
      apply Hok. rewrite <- Hr. vm_compute. reflexivity. }
    rewrite length_take in Hl. lia.
Defined.

Lemma gc_exact_witness :
  let c := apply_op 0 open_index (WUpsert "pods" "u1" None "mysql-0" []) in
  let '(stats, c') := gc_run 700000000 86400000 604800000 c in stale_purged stats = 1%nat ∧ in_sync c'.
Proof.
  pose proof (gc_exact (apply_op 0 open_index (WUpsert "pods" "u1" None "mysql-0" [])) 700000000 86400000 604800000
                ltac:(apply apply_op_sync; done) ltac:(unfold i64_max; lia) ltac:(unfold i64_max; lia)
                ltac:(unfold i64_max; lia)) as H.
  cbv zeta. destruct (gc_run _ _ _ _) as [stats c'] eqn:E. destruct H as (Hs & _). split; [|exact Hs].
  apply (f_equal (stale_purged ∘ fst)) in E. simpl in E. rewrite <- E. vm_compute. reflexivity.
Defined.
