(* ===== verification/Forwarder.v ===== *)
(** * The resource forwarder (app/src/commands.rs: [spawn_resource_forwarder],
      [resource_event_name], [sanitize_event_segment])

    What one wake of the forwarder drains from the dirty channel, emits to the
    webview and feeds to the search index. *)

From S2P Require Search.

From S2P Require Import Prelude DirtyChannel Watcher.

(** ** Event names *)

Definition UNDERSCORE : char := 95%N.

Definition event_char (c : char) : bool :=
  is_ascii_alphanumeric c || (c =? HYPHEN)%N || (c =? SLASH)%N || (c =? COLON)%N || (c =? UNDERSCORE)%N.

Definition sanitize_event_segment (s : str) : str :=
  (λ c, if event_char c then c else UNDERSCORE) <$> s.

Definition resource_event_name (cluster_id kind_id : str) (scope : NsScope) : str :=
  lit "resource://" ++ sanitize_event_segment cluster_id ++ lit "/" ++ sanitize_event_segment kind_id
  ++ lit "/" ++ sanitize_event_segment (scope_key scope).

(** ** Batches *)

Inductive ResourceDelta : Set :=
  | DUpsert (row : str)
  | DDelete (uid : str)
  | DInitDone.

Definition MAX_EMIT_DELTAS : nat := 1000.

Section Forwarder.
(** The iteration orders of the hash tables: of the drained maps, and of the
    channel's when it is drained. *)
Context (iter_map : gmap str Row → list (str * Row)) (iter_set : gset str → list str).
Context (iter_map_perm : ∀ m, iter_map m ≡ₚ map_to_list m) (iter_set_perm : ∀ X, iter_set X ≡ₚ elements X).

Definition forward_upsert (index : bool) (kind_id uid : str) (row : Row)
    : ResourceDelta * list Search.WriteOp :=
  (DUpsert (json row),
   match name row with
   | Some n => if index then [Search.upsert kind_id uid (namespace row) n (labels row)] else []
   | None => []
   end).

(** The batch emitted for a drained one, and what is sent to the index when the
    cluster has one. *)
Definition forward_batch (has_index : bool) (kind_id : str) (b : DrainedBatch)
    : list ResourceDelta * list Search.WriteOp :=
  let index := Search.indexes_kind kind_id && has_index in
  let ups := (λ '(uid, row), forward_upsert index kind_id uid row) <$> iter_map (upserts b) in
  let dels := iter_set (deletes b) in
  (ups.*1 ++ (DDelete <$> dels) ++ (if init_done b then [DInitDone] else []),
   mjoin ups.*2 ++ (if index then Search.delete kind_id <$> dels else [])).

Definition drain_chunk (s : DirtyState) : DrainedBatch * DirtyState :=
  drain_capped MAX_EMIT_DELTAS (iter_set (deleted s)) (iter_set (dom (changed s))) s.

(** The inner loop of one wake: chunk after chunk until a drain is empty;
    [steady] is the batching phase. *)
Fixpoint forward_wake (fuel : nat) (s : DirtyState) (steady : bool)
    : list DrainedBatch * DirtyState * bool :=
  match fuel with
  | O => ([], s, steady)
  | S fuel =>
      let '(drained, s1) := drain_chunk s in
      if is_empty drained then ([], s1, steady)
      else
        let '(bs, s2, st) := forward_wake fuel s1 (steady || init_done drained) in
        (drained :: bs, s2, st)
  end.

(** ** One chunk *)

Lemma drain_chunk_spec s b s' :
  disjoint_state s → drain_chunk s = (b, s') →
  (∀ m, pending s' (deliver b m) = pending s m) ∧ disjoint_state s'
  ∧ delta_count b = MAX_EMIT_DELTAS `min` total s ∧ delta_count b + total s' = total s
  ∧ (init_done b = true → has_work s' = false)
  ∧ init_done b || init_done_pending s' = init_done_pending s.
Proof using iter_set_perm.
  intros Hd Hdr. unfold drain_chunk in Hdr.
  pose proof (λ m, drain_capped_split _ _ _ _ _ _ m Hd (perm_sub _ _ (iter_set_perm _)) Hdr) as Hs.
  destruct (drain_capped_count _ _ _ _ _ _ (iter_set_perm _) (iter_set_perm _) Hdr) as [Hc Ht].
  destruct (drain_capped_init_done _ _ _ _ _ _ Hdr). rewrite decide_False in Hc by done.
  split_and!; try done; [intros m; apply Hs|apply (Hs ∅)].
Qed.

Lemma total_empty s : total s = 0 → changed s = ∅ ∧ deleted s = ∅.
Proof.
  unfold total. intros H. split.
  - apply map_size_empty_iff. lia.
  - apply leibniz_equiv, size_empty_inv. lia.
Qed.

Lemma has_work_total s : has_work s = true ↔ 0 < total s ∨ init_done_pending s = true.
Proof.
  unfold has_work. rewrite !orb_true_iff, !negb_true_iff, !bool_decide_eq_false. split.
  - intros [[H|H]|H]; [left..|by right].
    + apply map_size_non_empty_iff in H. unfold total. lia.
    + assert (size (deleted s) ≠ 0); [|unfold total; lia]. by intros ?%size_empty_inv%leibniz_equiv.
  - intros [H|H]; [left|by right]. unfold total in H.
    destruct (decide (changed s = ∅)) as [E|]; [|by left]. right.
    rewrite E, map_size_empty in H. intros E'. rewrite E', size_empty in H. lia.
Qed.

Lemma is_empty_count b : is_empty b = true ↔ delta_count b = 0 ∧ init_done b = false.
Proof.
  unfold is_empty, delta_count. rewrite !andb_true_iff, !bool_decide_eq_true, negb_true_iff. split.
  - intros [[-> ->] ->]. by rewrite map_size_empty, size_empty.
  - intros [H ->]. split_and!; [apply map_size_empty_iff; lia|apply leibniz_equiv, size_empty_inv; lia|done].
Qed.

(** An empty drain means there was nothing; a full one takes a whole chunk. *)
Lemma drain_chunk_empty s b s' :
  disjoint_state s → drain_chunk s = (b, s') → is_empty b = true →
  has_work s = false ∧ has_work s' = false.
Proof using iter_set_perm.
  intros Hd Hdr He. destruct (drain_chunk_spec _ _ _ Hd Hdr) as (_ & _ & Hc & Ht & Hi & Hf).
  apply is_empty_count in He as [Hz Hib].
  assert (total s = 0) as Hts by (unfold MAX_EMIT_DELTAS in Hc; lia).
  destruct (drain_capped_count MAX_EMIT_DELTAS _ _ s b s' (iter_set_perm _) (iter_set_perm _) Hdr) as [_ ?].
  assert (init_done_pending s = false) as Hs.
  { unfold drain_chunk, drain_capped in Hdr. unfold total in Hts.
    rewrite (proj2 (Nat.leb_le _ MAX_EMIT_DELTAS)) in Hdr by lia.
    rewrite orb_true_r in Hdr. injection Hdr as <- <-. exact Hib. }
  rewrite Hib in Hf. simpl in Hf.
  split; apply not_true_iff_false; rewrite has_work_total; intros [?|?]; try lia; congruence.
Qed.

Lemma drain_chunk_progress s b s' :
  disjoint_state s → drain_chunk s = (b, s') → is_empty b = false →
  total s' + Nat.b2n (init_done_pending s') < total s + Nat.b2n (init_done_pending s).
Proof using iter_set_perm.
  intros Hd Hdr He. destruct (drain_chunk_spec _ _ _ Hd Hdr) as (_ & _ & Hc & Ht & Hi & Hf).
  assert (¬ (delta_count b = 0 ∧ init_done b = false)) as Hn.
  { rewrite <- is_empty_count. congruence. }
  destruct (init_done b); simpl in Hf.
  - rewrite <- Hf. destruct (init_done_pending s') eqn:E; simpl; [|lia].
    assert (has_work s' = true) by (apply has_work_total; by right).
    by rewrite Hi in *.
  - rewrite Hf. destruct (delta_count b); [tauto|lia].
Qed.

(** ** Properties *)

(** An idle channel: nothing to drain, and a wake that starts there ends at once. *)
Lemma idle_total s : has_work s = false ↔ total s = 0 ∧ init_done_pending s = false.
Proof.
  rewrite <- not_true_iff_false, has_work_total. destruct (init_done_pending s); split; naive_solver lia.
Qed.

Lemma idle_pending s m : has_work s = false → m = pending s m.
Proof.
  intros [Ht _]%idle_total. apply total_empty in Ht as [Hch Hde]. apply map_eq. intros u.
  unfold pending. by rewrite lookup_overlay, Hch, Hde, lookup_empty.
Qed.

Lemma wake_idle fuel s steady :
  disjoint_state s → has_work s = false → (forward_wake fuel s steady).1.1 = [].
Proof using iter_set_perm.
  intros Hd [Ht Hf]%idle_total. destruct fuel as [|fuel]; [done|]. cbn [forward_wake].
  destruct (drain_chunk s) as [b s'] eqn:E. destruct (drain_chunk_spec _ _ _ Hd E) as (_ & _ & _ & Hc & _ & Hi).
  rewrite Hf in Hi. apply orb_false_iff in Hi as [Hi _].
  by rewrite (proj2 (is_empty_count b)) by (split; [lia|done]).
Qed.

Lemma wake_busy fuel s steady :
  disjoint_state s → has_work s = true → 0 < fuel → (forward_wake fuel s steady).1.1 ≠ [].
Proof using iter_set_perm.
  intros Hd Hw Hn. destruct fuel as [|fuel]; [lia|]. cbn [forward_wake].
  destruct (drain_chunk s) as [b s'] eqn:E. destruct (is_empty b) eqn:Eb.
  - destruct (drain_chunk_empty _ _ _ Hd E Eb). congruence.
  - by destruct (forward_wake fuel s' _) as [[bs s2] st].
Qed.

(** one wake of the forwarder delivers everything: chunk by chunk, in at most as
    many rounds as there are pending deltas plus two, it empties the channel; the
    chunks, applied in order to any mirror, are what was pending; none exceeds the
    cap; and the end of the initial sync comes with the last chunk and switches the
    forwarder to its steady phase. *)
Theorem forward_wake_complete (s : DirtyState) (steady : bool) (fuel : nat) :
  disjoint_state s → total s + 2 ≤ fuel →
  let '(bs, s', st) := forward_wake fuel s steady in
  has_work s' = false
  ∧ (∀ m, foldl (λ m b, deliver b m) m bs = pending s m)
  ∧ Forall (λ b, delta_count b ≤ MAX_EMIT_DELTAS) bs
  ∧ st = steady || init_done_pending s
  ∧ ∀ i b, bs !! i = Some b → init_done b = bool_decide (S i = length bs) && init_done_pending s.
Proof using iter_set_perm.
  intros Hd Hf. assert (total s + Nat.b2n (init_done_pending s) < fuel) as Hfuel
    by (destruct (init_done_pending s); simpl; lia).
  clear Hf. revert s steady Hd Hfuel. induction fuel as [|fuel IH]; intros s steady Hd Hfuel; [lia|].
  cbn [forward_wake]. destruct (drain_chunk s) as [b s1] eqn:Edr.
  destruct (drain_chunk_spec _ _ _ Hd Edr) as (Hp & Hd1 & Hc & Ht & Hi & Hflag).
  destruct (is_empty b) eqn:Eb.
  - destruct (drain_chunk_empty _ _ _ Hd Edr Eb) as [Hw Hw1].
    destruct (proj1 (idle_total s) Hw) as [_ Hfl].
    split_and!; [done|intros m; by apply idle_pending|by constructor|by rewrite Hfl, orb_false_r|done].
  - pose proof (drain_chunk_progress _ _ _ Hd Edr Eb) as Hprog.
    pose proof (wake_idle fuel s1 (steady || init_done b) Hd1) as Hidle.
    pose proof (wake_busy fuel s1 (steady || init_done b) Hd1) as Hbusy.
    specialize (IH s1 (steady || init_done b) Hd1 ltac:(lia)).
    destruct (forward_wake fuel s1 _) as [[bs s2] st]. simpl in Hidle, Hbusy.
    destruct IH as (Hw & Hdel & Hcap & Hst & Hlast). split_and!; try done.
    + intros m. cbn [foldl]. by rewrite Hdel.
    + constructor; [lia|done].
    + rewrite Hst, <- Hflag. by rewrite orb_assoc.
    + intros [|i] b' Hb'; simpl in Hb'; [injection Hb' as <-|rewrite (Hlast i b' Hb')]; destruct (init_done b) eqn:Eib.
      * rewrite (Hidle (Hi eq_refl)). by rewrite <- Hflag.
      * simpl in Hflag. rewrite <- Hflag. destruct (init_done_pending s1) eqn:E1; [|by rewrite andb_false_r].
        destruct bs as [|b2 bs]; [|done]. destruct Hbusy; [apply has_work_total; by right|simpl in *; lia|done].
      * by rewrite (Hidle (Hi eq_refl)) in Hb'.
      * simpl in Hflag. rewrite <- Hflag. f_equal. apply bool_decide_ext. simpl. lia.
Qed.

(** ** What reaches the index *)

Definition index_entry (row : Row) : option (option str * str * str) :=
  n ← name row; Some (namespace row ≫= Search.non_empty, n, labels row).

Lemma index_upserts (index : bool) (kind_id : str) (l : list (str * Row)) (m : Search.View) (u : str) :
  NoDup l.*1 →
  foldl Search.view_op m (mjoin ((λ '(uid, row), forward_upsert index kind_id uid row) <$> l).*2) !! (kind_id, u)
  = match (list_to_map l : gmap str Row) !! u with
    | Some row => if index then from_option Some (m !! (kind_id, u)) (index_entry row) else m !! (kind_id, u)
    | None => m !! (kind_id, u)
    end.
Proof using Type.
  revert m. induction l as [|[u' row] l IH]; intros m Hnd; [done|]. inversion_clear Hnd as [|? ? Hni Hnd'].
  cbn [fmap list_fmap mjoin list_join snd list_to_map foldr]. rewrite foldl_app, IH by done.
  assert (foldl Search.view_op m (forward_upsert index kind_id u' row).2 !! (kind_id, u)
          = if decide (u = u') then if index then from_option Some (m !! (kind_id, u)) (index_entry row)
                                    else m !! (kind_id, u)
            else m !! (kind_id, u)) as ->.
  { unfold forward_upsert, index_entry. simpl. destruct (name row) as [n|], index; simpl; destruct (decide (u = u')) as [->|];
      try done; [by rewrite lookup_insert_eq|by rewrite lookup_insert_ne by congruence]. }
  simpl. destruct (decide (u = u')) as [->|Hne].
  - rewrite lookup_insert_eq. apply not_elem_of_list_to_map_1 in Hni as ->. done.
  - by rewrite lookup_insert_ne.
Qed.

Lemma index_other_kind (index : bool) (kind_id : str) (l : list (str * Row)) (m : Search.View) (k : Search.Key) :
  k.1 ≠ kind_id →
  foldl Search.view_op m (mjoin ((λ '(uid, row), forward_upsert index kind_id uid row) <$> l).*2) !! k = m !! k.
Proof using Type.
  revert m. induction l as [|[u row] l IH]; intros m Hk; [done|].
  cbn [fmap list_fmap mjoin list_join snd]. rewrite foldl_app, IH by done. unfold forward_upsert.
  destruct (name row), index; try done. apply lookup_insert_ne. by intros <-.
Qed.

Lemma index_deletes (kind_id : str) (l : list str) (m : Search.View) (k : Search.Key) :
  foldl Search.view_op m (Search.delete kind_id <$> l) !! k
  = if decide (k.1 = kind_id ∧ k.2 ∈ l) then None else m !! k.
Proof using Type.
  clear iter_map_perm iter_set_perm. revert m. induction l as [|u l IH]; intros m; [by rewrite decide_False by set_solver|].
  cbn [fmap list_fmap foldl]. rewrite IH. simpl. destruct (decide (k = (kind_id, u))) as [->|Hk].
  - rewrite (decide_True (P := _ ∧ _ ∈ u :: l)) by set_solver. destruct (decide _); [done|]. apply lookup_delete_eq.
  - rewrite lookup_delete_ne by done. destruct k as [k u']. simpl in *.
    destruct (decide (k = kind_id ∧ u' ∈ l)), (decide (k = kind_id ∧ u' ∈ u :: l)); try done; set_solver.
Qed.

(** a batch carries one delta per change and the end of the sync last; the
    index, when the cluster has one and the kind is indexed, gets exactly the same
    changes: a row under each upserted uid that has a name, none under the deleted
    ones, and nothing else moves. *)
Theorem forward_batch_exact (has_index : bool) (kind_id : str) (b : DrainedBatch) (m : Search.View) (k : Search.Key)
    (index := Search.indexes_kind kind_id && has_index) :
  dom (upserts b) ## deletes b →
  let '(deltas, ops) := forward_batch has_index kind_id b in
  length deltas = delta_count b + Nat.b2n (init_done b)
  ∧ (∀ i, deltas !! i = Some DInitDone → init_done b = true ∧ S i = length deltas)
  ∧ foldl Search.view_op m ops !! k
    = if index && (k.1 =s kind_id) then
        match upserts b !! k.2 with
        | Some row => from_option Some (m !! k) (index_entry row)
        | None => if decide (k.2 ∈ deletes b) then None else m !! k
        end
      else m !! k.
Proof using iter_map_perm iter_set_perm.
  intros Hd. destruct (forward_batch has_index kind_id b) as [deltas ops] eqn:E. injection E as <- <-.
  assert (NoDup (iter_map (upserts b)).*1) as Hnd by (rewrite iter_map_perm; apply NoDup_fst_map_to_list).
  assert (list_to_map (iter_map (upserts b)) = upserts b) as Hlm.
  { rewrite <- (list_to_map_to_list (upserts b)) at 2. by apply list_to_map_proper. }
  split_and!.
  - rewrite !length_app, !length_fmap, (iter_map_perm (upserts b)), (iter_set_perm (deletes b)), length_map_to_list.
    unfold delta_count. destruct (init_done b); simpl; unfold size, set_size; simpl; lia.
  - intros i Hi. rewrite app_assoc in Hi |- *. apply lookup_app_Some in Hi as [Hi|[Hl Hi]].
    + apply list_elem_of_lookup_2, elem_of_app in Hi as [Hi|Hi].
      * rewrite <- list_fmap_compose in Hi. apply list_elem_of_fmap in Hi as ([u row] & [=] & _).
      * by apply list_elem_of_fmap in Hi as (? & [=] & _).
    + destruct (init_done b); [|done]. split; [done|]. rewrite length_app. simpl.
      destruct (i - _) as [|j] eqn:Ei; [lia|by destruct j].
  - fold index. rewrite foldl_app. destruct k as [k u]. cbn [fst snd].
    destruct index eqn:Ei; cbn [andb]; [rewrite index_deletes; cbn [fst snd]|].
    + destruct (str_eqb k kind_id) eqn:Ek.
      * apply str_eqb_eq in Ek as ->. rewrite index_upserts, Hlm by done.
        destruct (upserts b !! u) as [row|] eqn:Eu.
        -- rewrite decide_False; [done|]. intros [_ Hin]. rewrite iter_set_perm, elem_of_elements in Hin.
           apply (Hd u); [by eapply elem_of_dom_2|done].
        -- apply decide_ext. rewrite iter_set_perm, elem_of_elements. tauto.
      * apply str_eqb_neq in Ek. rewrite decide_False by tauto. by apply index_other_kind.
    + cbn [foldl]. destruct (decide (k = kind_id)) as [->|]; [|by apply index_other_kind].
      rewrite index_upserts by done. by destruct (_ !! u).
Qed.
End Forwarder.

(** Whatever the ids contain, an event name has only the characters Tauri
    accepts, and ids made of those characters are kept as they are. *)
Lemma event_name_valid (cluster_id kind_id : str) (scope : NsScope) :
  Forall (λ c, event_char c = true) (resource_event_name cluster_id kind_id scope)
  ∧ ∀ s, Forall (λ c, event_char c = true) s → sanitize_event_segment s = s.
Proof.
  assert (∀ s, Forall (λ c, event_char c = true) (sanitize_event_segment s)) as Hs.
  { intros s. apply Forall_fmap, Forall_true. intros c. simpl. by destruct (event_char c) eqn:E. }
  split.
  - unfold resource_event_name. rewrite !Forall_app. split_and!; try apply Hs; decided.
  - intros s Hf. unfold sanitize_event_segment. induction Hf as [|c s Hc _ IH]; [done|].
    rewrite fmap_cons, Hc. by f_equal.
Qed.

Lemma forward_wake_complete_witness :
  let '(bs, s', st) := forward_wake elements 5 demo_dirty false in
  has_work s' = false ∧ st = true ∧ length bs = 1.
Proof.
  pose proof (forward_wake_complete elements (λ X, Permutation_refl _) demo_dirty false 5
                ltac:(decided) ltac:(vm_compute; lia)) as H.
  destruct (forward_wake elements 5 demo_dirty false) as [[bs s'] st] eqn:E.
  destruct H as (Hw & _ & _ & Hst & _). split; [exact Hw|]. split; [rewrite Hst; reflexivity|].
  vm_compute in E. injection E as <- _ _. reflexivity.
Defined.

Lemma forward_batch_exact_witness :
  let b := {| upserts := {[lit "u1" := {| json := lit "{}"; namespace := Some []; name := Some (lit "web"); labels := [] |}]};
              deletes := {[lit "u2"]}; init_done := true |} in
  let '(deltas, ops) := forward_batch map_to_list elements true "pods" b in
  length deltas = 3
  ∧ foldl Search.view_op ∅ ops !! (lit "pods", lit "u1") = Some (None, lit "web", [])
  ∧ foldl Search.view_op {[(lit "pods", lit "u2") := (None, [], [])]} ops !! (lit "pods", lit "u2") = None.
Proof.
  intros b. assert (dom (upserts b) ## deletes b) as Hd by decided.
  pose proof (λ m k, forward_batch_exact map_to_list elements (λ m, Permutation_refl _) (λ X, Permutation_refl _)
                       true "pods" b m k Hd) as H.
  destruct (forward_batch map_to_list elements true "pods" b) as [deltas ops]. split_and!.
  - rewrite (proj1 (H ∅ (lit "pods", lit "u1"))). reflexivity.
  - rewrite (proj2 (proj2 (H ∅ (lit "pods", lit "u1")))). reflexivity.
  - rewrite (proj2 (proj2 (H _ (lit "pods", lit "u2")))). reflexivity.
Defined.
