(* ===== verification/Health.v ===== *)
(** * The health probe (core/src/health.rs) and its forwarder (app/src/commands.rs:
      [spawn_health_forwarder], [get_cluster_health])

    The requests that decide whether an apiserver is alive, the probe loop tick by
    tick, and how its events reach the interface and the teardown.  Times are
    milliseconds since the probe started. *)

From stdpp Require Import sorting.

From S2P Require Import Prelude.

Open Scope Z_scope.

(** ** Requests *)

(** The parts of [kube::Error] the probe looks at. *)
Inductive KubeError : Set :=
  | Api (code : N) (reason message : str)
  | OtherError (text : str).

Inductive Liveness : Set := Alive | Restricted (message : str).

Inductive Request : Set := ListNamespaces | Readyz.

Definition is_anonymous (e : KubeError) : bool :=
  match e with
  | Api _ _ message => contains_str ([34%N] ++ lit "system:anonymous" ++ [34%N]) message
  | OtherError _ => false
  end.

Definition is_forbidden (e : KubeError) : bool :=
  match e with
  | Api code reason _ => (code =? 403)%N && (reason =s "Forbidden")
  | OtherError _ => false
  end.

Definition PROBE_INTERVAL : Z := 5000.

Definition UNHEALTHY_AFTER : Z := 30000.

(** ** [AliveBeacon] *)

Definition u64_max : Z := 18446744073709551615.

(** [mark], [elapsed] milliseconds after the epoch: the value stored. *)
Definition mark (elapsed : Z) : Z := Z.max (if elapsed <=? u64_max then elapsed else u64_max) 1.

Definition seen_within (at_ms window elapsed : Z) : bool :=
  negb (at_ms =? 0) && (elapsed <=? at_ms + window).

(** ** Events *)

Inductive ClusterHealthStatus : Set := Healthy | Unavailable.

Record ClusterHealthEvent : Set := { status : ClusterHealthStatus; reason : option str }.

Abbreviation monotone := (StronglySorted (λ x y : Z * bool, x.1 ≤ y.1)).

Section Probe.
(** The rendering of an error. *)
Context (to_string : KubeError → str).

(** The answers of the server to the two requests, if they are sent. *)
Definition ready_probe (ready : result unit KubeError) : result unit KubeError :=
  match ready with
  | Ok _ => Ok tt
  | Err e => if is_forbidden e then Ok tt else Err e
  end.

Definition liveness_probe (list_ ready : result unit KubeError) : list Request * result Liveness KubeError :=
  match list_ with
  | Ok _ => ([ListNamespaces], Ok Alive)
  | Err e =>
      if is_forbidden e && negb (is_anonymous e) then
        ([ListNamespaces; Readyz],
         match ready_probe ready with Ok _ => Ok (Restricted (to_string e)) | Err e' => Err e' end)
      else ([ListNamespaces], Err e)
  end.

(** One tick of the loop: when it starts, what the server would answer, whether
    the probe runs into its timeout, when it is over. *)
Record Tick : Type := {
  started_at : Z;
  list_reply : result unit KubeError;
  ready_reply : result unit KubeError;
  timed_out : bool;
  over_at : Z
}.

(** The task's locals, the beacon, the shared snapshot, the broadcast events and
    the requests made. *)
Record Probe : Type := {
  beacon : Z;
  first_failure_at : option Z;
  last_reason : option str;
  failure_streak : N;
  restricted : bool;
  snapshot : ClusterHealthEvent;
  sent : list ClusterHealthEvent;
  requests : list Request;
  running : bool
}.

Definition healthy_event : ClusterHealthEvent := {| status := Healthy; reason := None |}.

Definition start : Probe :=
  {| beacon := 0; first_failure_at := None; last_reason := None; failure_streak := 0%N;
     restricted := false; snapshot := healthy_event; sent := []; requests := []; running := true |}.

Inductive Outcome : Set := Answered (l : Liveness) | Failed (reason : str).

Definition timeout_reason : str := lit "probe timed out after 4s".

Definition outcome_of (timed_out : bool) (r : result Liveness KubeError) : Outcome :=
  if timed_out then Failed timeout_reason
  else match r with Ok l => Answered l | Err e => Failed (to_string e) end.

Definition probe (p : Probe) (t : Tick) : list Request * Outcome :=
  if seen_within (beacon p) PROBE_INTERVAL (started_at t) then ([], Answered Alive)
  else if restricted p then
    ([Readyz],
     outcome_of (timed_out t)
       (match ready_probe (ready_reply t) with Ok _ => Ok (Restricted []) | Err e => Err e end))
  else
    let '(rs, r) := liveness_probe (list_reply t) (ready_reply t) in
    (rs, outcome_of (timed_out t) r).

Definition on_answer (l : Liveness) (p : Probe) : Probe :=
  let restricted' := match l with Restricted _ => true | Alive => restricted p end in
  match first_failure_at p with
  | Some _ =>
      {| beacon := beacon p; first_failure_at := None; last_reason := None; failure_streak := 0%N;
         restricted := restricted'; snapshot := healthy_event; sent := sent p ++ [healthy_event];
         requests := requests p; running := true |}
  | None =>
      {| beacon := beacon p; first_failure_at := None; last_reason := last_reason p;
         failure_streak := failure_streak p; restricted := restricted'; snapshot := snapshot p; sent := sent p;
         requests := requests p; running := true |}
  end.

Definition on_failure (r : str) (p : Probe) : Probe :=
  {| beacon := beacon p; first_failure_at := first_failure_at p; last_reason := Some r;
     failure_streak := (failure_streak p + 1)%N; restricted := restricted p; snapshot := snapshot p;
     sent := sent p; requests := requests p; running := true |}.

Definition check_window (now : Z) (p : Probe) : Probe :=
  match last_reason p with
  | None => p
  | Some _ =>
      let started := default now (first_failure_at p) in
      if UNHEALTHY_AFTER <=? now - started then
        let evt := {| status := Unavailable; reason := last_reason p |} in
        {| beacon := beacon p; first_failure_at := Some started; last_reason := None;
           failure_streak := failure_streak p; restricted := restricted p; snapshot := evt;
           sent := sent p ++ [evt]; requests := requests p; running := false |}
      else
        {| beacon := beacon p; first_failure_at := Some started; last_reason := last_reason p;
           failure_streak := failure_streak p; restricted := restricted p; snapshot := snapshot p;
           sent := sent p; requests := requests p; running := true |}
  end.

Definition log_requests (rs : list Request) (p : Probe) : Probe :=
  {| beacon := beacon p; first_failure_at := first_failure_at p; last_reason := last_reason p;
     failure_streak := failure_streak p; restricted := restricted p; snapshot := snapshot p; sent := sent p;
     requests := requests p ++ rs; running := running p |}.

Definition tick (p : Probe) (t : Tick) : Probe :=
  let '(rs, o) := probe p t in
  let p := log_requests rs p in
  check_window (over_at t)
    (match o with Answered l => on_answer l p | Failed r => on_failure r p end).

(** The loop ends with the task; a mark comes from the watchers at any time. *)
Inductive Input : Type := Mark (elapsed : Z) | Ticked (t : Tick).

Definition set_beacon (at_ms : Z) (p : Probe) : Probe :=
  {| beacon := at_ms; first_failure_at := first_failure_at p; last_reason := last_reason p;
     failure_streak := failure_streak p; restricted := restricted p; snapshot := snapshot p; sent := sent p;
     requests := requests p; running := running p |}.

Definition step (p : Probe) (i : Input) : Probe :=
  match i with
  | Mark elapsed => set_beacon (mark elapsed) p
  | Ticked t => if running p then tick p t else p
  end.

Definition run (inputs : list Input) : Probe := foldl step start inputs.

(** ** Windows of failures *)

(** The ticks the loop has processed: when each was over, and whether it failed. *)
Definition failed (o : Outcome) : bool := match o with Failed _ => true | Answered _ => false end.

Definition observe (p : Probe) (i : Input) : list (Z * bool) :=
  match i with
  | Ticked t => if running p then [(over_at t, failed (probe p t).2)] else []
  | Mark _ => []
  end.

Fixpoint history (p : Probe) (inputs : list Input) : list (Z * bool) :=
  match inputs with
  | [] => []
  | i :: inputs => observe p i ++ history (step p i) inputs
  end.

Definition window (h : list (Z * bool)) : option Z :=
  foldl (λ w '(t, f), if f : bool then Some (default t w) else None) None h.

Lemma history_snoc p inputs i :
  history p (inputs ++ [i]) = history p inputs ++ observe (foldl step p inputs) i.
Proof.
  revert p. induction inputs as [|j inputs IH]; intros p; simpl; [by rewrite app_nil_r|].
  by rewrite IH, app_assoc.
Qed.

Lemma window_snoc h t f : window (h ++ [(t, f)]) = if f : bool then Some (default t (window h)) else None.
Proof. unfold window. by rewrite foldl_app. Qed.

Lemma window_Some h w :
  window h = Some w → ∃ pre mid, h = pre ++ (w, true) :: mid ∧ Forall (λ x, x.2 = true) mid.
Proof.
  induction h as [|[t f] h IH] using rev_ind; [done|]. rewrite window_snoc. destruct f; [|done].
  intros [= Hw]. destruct (window h) as [w'|]; simpl in Hw; subst.
  - destruct (IH eq_refl) as (pre & mid & -> & Hm). exists pre, (mid ++ [(t, true)]).
    rewrite <- app_assoc. split; [done|]. by apply Forall_app_2; [|constructor].
  - by exists h, [].
Qed.

Lemma monotone_app l1 l2 x y : monotone (l1 ++ l2) → x ∈ l1 → y ∈ l2 → x.1 ≤ y.1.
Proof. intros H Hx Hy. by apply (StronglySorted_app_1_elem_of _ _ _ _ _ H). Qed.

(** The window starts no later than any run of failures that reaches the end. *)
Lemma window_le h pre t0 mid :
  monotone h → h = pre ++ (t0, true) :: mid → Forall (λ x, x.2 = true) mid →
  ∃ w, window h = Some w ∧ w ≤ t0.
Proof.
  intros Hm -> Hf. induction mid as [|[t f] mid IH] using rev_ind.
  - rewrite window_snoc. destruct (window pre) as [w|] eqn:Ew; simpl; [|by exists t0].
    exists w. split; [done|]. apply window_Some in Ew as (p1 & p2 & -> & _).
    apply (monotone_app _ _ (w, true) (t0, true) Hm); set_solver.
  - apply Forall_app in Hf as [Hf Hf1]. inversion_clear Hf1. simpl in *. subst f.
    rewrite app_comm_cons, app_assoc in Hm |- *. rewrite window_snoc.
    destruct IH as (w & -> & Hw); [by eapply StronglySorted_app_1_l|done|]. by exists w.
Qed.

Definition long_failure (h : list (Z * bool)) : Prop :=
  ∃ pre t0 mid t1, h = pre ++ (t0, true) :: mid ++ [(t1, true)]
                   ∧ Forall (λ x, x.2 = true) mid ∧ UNHEALTHY_AFTER ≤ t1 - t0.

Record probe_inv (p : Probe) (h : list (Z * bool)) : Prop := {
  inv_first : running p = true → first_failure_at p = window h;
  inv_reason : running p = true → is_Some (last_reason p) ↔ is_Some (first_failure_at p);
  inv_short : running p = true → ¬ long_failure h;
  inv_long : running p = false → long_failure h;
  inv_sent : ∃ hs, Forall (healthy_event =.) hs ∧ sent p = if running p then hs else hs ++ [snapshot p];
  inv_last : if running p then snapshot p = healthy_event
             else status (snapshot p) = Unavailable ∧ is_Some (reason (snapshot p))
}.

Lemma long_failure_snoc h t f :
  monotone (h ++ [(t, f)]) → long_failure (h ++ [(t, f)]) ↔
  f = true ∧ ∃ w, window h = Some w ∧ UNHEALTHY_AFTER ≤ t - w.
Proof.
  intros Hm. split.
  - intros (pre & t0 & mid & t1 & E & Hf & Hspan). rewrite app_comm_cons, app_assoc in E.
    apply app_inj_tail in E as [-> [= -> ->]]. split; [done|].
    destruct (window_le _ pre t0 mid ltac:(by eapply StronglySorted_app_1_l) eq_refl Hf) as (w & Hw & ?).
    exists w. split; [done|lia].
  - intros (-> & w & (pre & mid & -> & Hf)%window_Some & Hspan). exists pre, w, mid, t.
    by rewrite <- app_assoc.
Qed.

Lemma inv_start : probe_inv start [].
Proof.
  split; try done; [| |by exists []].
  { intros _. split; intros []; simplify_eq/=. }
  intros _ (pre & t0 & mid & t1 & E & _). by destruct pre.
Qed.

Lemma inv_tick p h t :
  running p = true → probe_inv p h → monotone (h ++ observe p (Ticked t)) →
  probe_inv (tick p t) (h ++ observe p (Ticked t)).
Proof.
  intros Hrun [Hfirst Hreason Hshort _ (hs & Hhs & Hsent) Hlast]. unfold observe, tick. rewrite Hrun in *.
  specialize (Hfirst eq_refl). specialize (Hreason eq_refl). specialize (Hshort eq_refl).
  destruct (probe p t) as [rs o]. cbn [snd]. intros Hm.
  destruct o as [l|r]; cbn [failed] in *.
  - (* answered: no window any more *)
    assert (last_reason (on_answer l (log_requests rs p)) = None) as Hnone.
    { unfold on_answer. simpl. destruct (first_failure_at p) eqn:E; [done|]. simpl.
      apply eq_None_not_Some. rewrite Hreason. by intros []. }
    unfold check_window. rewrite Hnone.
    assert (first_failure_at (on_answer l (log_requests rs p)) = None
            ∧ running (on_answer l (log_requests rs p)) = true
            ∧ snapshot (on_answer l (log_requests rs p)) = healthy_event) as (Hf & Hr & Hl).
    { unfold on_answer. simpl. by destruct (first_failure_at p). }
    split; rewrite ?Hr, ?Hf, ?Hl, ?Hnone; try done.
    + by rewrite window_snoc.
    + rewrite long_failure_snoc by done. by intros _ [].
    + unfold on_answer. simpl. destruct (first_failure_at p); simpl; rewrite Hsent; [|by exists hs].
      exists (hs ++ [healthy_event]). split; [|done]. by apply Forall_app_2; [|constructor].
  - (* failed *)
    unfold check_window, on_failure. simpl. rewrite Hfirst.
    assert (long_failure (h ++ [(over_at t, true)])
            ↔ UNHEALTHY_AFTER ≤ over_at t - default (over_at t) (window h)) as Hlong.
    { rewrite long_failure_snoc by done. split.
      - by intros (_ & w & -> & ?).
      - intros ?. split; [done|]. destruct (window h) as [w|]; [by exists w|]. simpl in *.
        unfold UNHEALTHY_AFTER in *. lia. }
    destruct (Z.leb_spec UNHEALTHY_AFTER (over_at t - default (over_at t) (window h))) as [Hw|Hw];
      split; simpl; try done; rewrite ?window_snoc; try done.
    + intros _. by apply Hlong.
    + exists hs. by rewrite Hsent.
    + intros _. rewrite Hlong. lia.
    + by exists hs.
Qed.

Lemma run_inv inputs :
  monotone (history start inputs) → probe_inv (run inputs) (history start inputs).
Proof.
  unfold run. induction inputs as [|i inputs IH] using rev_ind; intros Hm; [apply inv_start|].
  rewrite history_snoc in Hm |- *. rewrite foldl_app. cbn [foldl].
  pose proof (IH (StronglySorted_app_1_l _ _ _ Hm)) as Hinv. destruct i as [elapsed|t]; cbn [step observe].
  - rewrite app_nil_r. by destruct Hinv; split.
  - destruct (running (foldl step start inputs)) eqn:Hrun.
    + pose proof (inv_tick _ _ t Hrun Hinv Hm) as H. unfold observe in H. by rewrite Hrun in H.
    + by rewrite app_nil_r.
Qed.

(** C31: the probe declares a cluster unavailable exactly when its probes have failed
    without an answer in between for thirty seconds; it says so once, as its last
    event, with a reason, and until then the snapshot is healthy and only
    recoveries are announced. *)
Theorem unavailable_exactly (inputs : list Input) :
  monotone (history start inputs) →
  let p := run inputs in
  (running p = false ↔ long_failure (history start inputs))
  ∧ (∃ hs, Forall (healthy_event =.) hs ∧ sent p = if running p then hs else hs ++ [snapshot p])
  ∧ (if running p then snapshot p = healthy_event else status (snapshot p) = Unavailable ∧ is_Some (reason (snapshot p))).
Proof.
  intros Hm. destruct (run_inv inputs Hm) as [_ _ Hshort Hlong Hsent Hlast]. cbv zeta.
  split; [|done]. split; [done|]. intros Hl. destruct (running (run inputs)); [|done]. by destruct Hshort.
Qed.

Lemma step_restricted p i :
  restricted p = true →
  restricted (step p i) = true ∧ ∃ n, requests (step p i) = requests p ++ replicate n Readyz.
Proof.
  intros Hr. destruct i as [elapsed|t]; simpl.
  { split; [done|]. exists 0%nat. by rewrite app_nil_r. }
  destruct (running p); [|split; [done|]; exists 0%nat; by rewrite app_nil_r].
  assert (∃ n, (probe p t).1 = replicate n Readyz) as [n Hn].
  { unfold probe. rewrite Hr. destruct (seen_within _ _ _); [by exists 0%nat|by exists 1%nat]. }
  unfold tick. destruct (probe p t) as [rs o]. simpl in Hn. subst rs.
  assert (∀ now q, restricted (check_window now q) = restricted q ∧ requests (check_window now q) = requests q) as Hw.
  { intros now q. unfold check_window. destruct (last_reason q); [|done]. by destruct (_ <=? _). }
  destruct (Hw (over_at t) (match o with Answered l => on_answer l (log_requests (replicate n Readyz) p)
                                      | Failed r => on_failure r (log_requests (replicate n Readyz) p) end)) as [-> ->].
  split; [|exists n]; destruct o as [[]|]; unfold on_answer; simpl; try done; by destruct (first_failure_at p).
Qed.

(** Once the identity is known to be restricted the refused LIST is not sent
    again, only the readiness request; and a tick soon after watch traffic sends
    nothing, counts as an answer and closes the window of failures. *)
Lemma probe_requests (p : Probe) :
  (restricted p = true → ∀ inputs, restricted (foldl step p inputs) = true
     ∧ ∃ n, requests (foldl step p inputs) = requests p ++ replicate n Readyz)
  ∧ ∀ t, beacon p ≠ 0 → started_at t ≤ beacon p + PROBE_INTERVAL → (last_reason p = None ∨ first_failure_at p ≠ None) →
    requests (tick p t) = requests p ∧ first_failure_at (tick p t) = None
    ∧ failure_streak (tick p t) = (if first_failure_at p then 0%N else failure_streak p).
Proof.
  split.
  - intros Hr inputs. induction inputs as [|i inputs IH] using rev_ind.
    { split; [done|]. exists 0%nat. by rewrite app_nil_r. }
    rewrite foldl_app. destruct IH as [Hr' [n Hn]]. destruct (step_restricted _ i Hr') as [? [m Hm]].
    split; [done|]. exists (n + m)%nat. cbn [foldl]. by rewrite Hm, Hn, replicate_add, <- app_assoc.
  - intros t Hb Ht Hreason. unfold tick, probe, seen_within.
    rewrite (proj2 (Z.eqb_neq _ _)), (proj2 (Z.leb_le _ _)) by done. simpl. unfold on_answer. simpl.
    destruct (first_failure_at p) eqn:E; unfold check_window; simpl; [by rewrite app_nil_r|].
    destruct Hreason as [->|]; [|done]. by rewrite app_nil_r.
Qed.
End Probe.

(** ** The forwarder to the interface *)

Definition torn_down_reason : str :=
  lit "No response from the apiserver. Watchers and metrics have been torn down.".

Definition health_event_for (unavailable : bool) (snapshot : ClusterHealthEvent) : ClusterHealthEvent :=
  if negb unavailable then snapshot
  else {| status := Unavailable;
          reason := match reason snapshot with Some r => Some r | None => Some torn_down_reason end |}.

Definition get_cluster_health (existing : option (bool * ClusterHealthEvent)) : ClusterHealthEvent :=
  match existing with
  | None => healthy_event
  | Some (unavailable, snapshot) => health_event_for unavailable snapshot
  end.

Definition health_status_triggers_teardown (s : ClusterHealthStatus) : bool :=
  match s with Unavailable => true | Healthy => false end.

(** What the forwarder emits, and whether it leaves a teardown behind: [snap] is the
    replayed snapshot, [received] what the broadcast delivers after it. *)
Fixpoint forward_events (received : list ClusterHealthEvent) : list ClusterHealthEvent * bool :=
  match received with
  | [] => ([], false)
  | evt :: received =>
      if health_status_triggers_teardown (status evt) then ([evt], true)
      else let '(out, down) := forward_events received in (evt :: out, down)
  end.

Definition spawn_health_forwarder (snap : ClusterHealthEvent) (received : list ClusterHealthEvent)
    : list ClusterHealthEvent * bool :=
  if health_status_triggers_teardown (status snap) then ([snap], true) else forward_events received.

Section Reports.
Context (to_string : KubeError → str).

Lemma history_app p l1 l2 :
  history to_string p (l1 ++ l2)
  = history to_string p l1 ++ history to_string (foldl (step to_string) p l1) l2.
Proof. revert p. induction l1 as [|i l1 IH]; intros p; simpl; [done|]. by rewrite IH, app_assoc. Qed.

Lemma steps_sent p inputs : sent p `prefix_of` sent (foldl (step to_string) p inputs).
Proof.
  revert p. induction inputs as [|i inputs IH]; intros p; [done|]. cbn [foldl].
  transitivity (sent (step to_string p i)); [|apply IH]. destruct i as [elapsed|t]; [done|]. simpl.
  destruct (running p); [|done]. unfold tick. destruct (probe to_string p t) as [rs o].
  assert (∀ now q, sent q `prefix_of` sent (check_window now q)) as Hw.
  { intros now q. unfold check_window. destruct (last_reason q); [|done].
    destruct (_ <=? _); [by apply prefix_app_r|done]. }
  etransitivity; [|apply Hw]. destruct o as [l|r]; [|done]. unfold on_answer. simpl.
  destruct (first_failure_at p); [by apply prefix_app_r|done].
Qed.

Lemma steps_stopped p inputs :
  running p = false →
  running (foldl (step to_string) p inputs) = false ∧ snapshot (foldl (step to_string) p inputs) = snapshot p
  ∧ sent (foldl (step to_string) p inputs) = sent p.
Proof.
  intros Hp. revert p Hp. induction inputs as [|i inputs IH]; intros p Hp; [done|]. cbn [foldl].
  destruct i as [elapsed|t]; cbn [step]; [apply (IH (set_beacon (mark elapsed) p) Hp)|].
  rewrite Hp. by apply IH.
Qed.

Lemma forward_healthy l : Forall (healthy_event =.) l → forward_events l = (l, false).
Proof. induction 1 as [|e l <- _ IH]; [done|]. simpl. by rewrite IH. Qed.

Lemma forward_unavailable l e :
  Forall (healthy_event =.) l → status e = Unavailable → forward_events (l ++ [e]) = (l ++ [e], true).
Proof. intros Hl He. induction Hl as [|x l <- _ IH]; simpl; [by rewrite He|]. by rewrite IH. Qed.

Lemma stopped_sent inputs :
  monotone (history to_string start inputs) →
  let p := run to_string inputs in
  Forall (healthy_event =.) (if running p then sent p else removelast (sent p))
  ∧ (if running p then snapshot p = healthy_event
     else status (snapshot p) = Unavailable ∧ sent p = removelast (sent p) ++ [snapshot p]).
Proof.
  intros Hm. destruct (run_inv to_string inputs Hm) as [_ _ _ _ (hs & Hhs & Hs) Hl]. cbv zeta.
  rewrite Hs. destruct (running (run to_string inputs)); [done|]. rewrite removelast_last. by destruct Hl.
Qed.

(** the interface learns of an unavailable cluster whenever its forwarder starts:
    spawned after [pre], snapshot taken after [mid], receiving what is broadcast
    since (a lagging receiver may miss older events, not the newest), it ends with
    the unavailable event and leaves exactly one teardown behind if the probe has
    declared the cluster dead, and triggers none otherwise. *)
Theorem forwarder_reports (pre mid post : list Input) (received : list ClusterHealthEvent) :
  monotone (history to_string start (pre ++ mid ++ post)) →
  let p := run to_string (pre ++ mid ++ post) in
  let broadcast := drop (length (sent (run to_string pre))) (sent p) in
  received `sublist_of` broadcast → last received = last broadcast →
  let '(out, down) := spawn_health_forwarder (snapshot (run to_string (pre ++ mid))) received in
  down = negb (running p) ∧ (running p = false → last out = Some (snapshot p)).
Proof.
  intros Hm p broadcast Hsub Hlast.
  pose proof Hm as Hm1. rewrite app_assoc, history_app in Hm1. apply StronglySorted_app_1_l in Hm1.
  pose proof Hm1 as Hm0. rewrite history_app in Hm0. apply StronglySorted_app_1_l in Hm0.
  destruct (stopped_sent _ Hm) as [Hh2 Hl2]. destruct (stopped_sent _ Hm1) as [_ Hl1].
  destruct (stopped_sent _ Hm0) as [Hh0 Hl0]. fold p in Hh2, Hl2.
  assert (p = foldl (step to_string) (run to_string (pre ++ mid)) post) as Hp.
  { unfold p, run. by rewrite app_assoc, foldl_app. }
  unfold spawn_health_forwarder. destruct (running (run to_string (pre ++ mid))) eqn:E1.
  - rewrite Hl1. cbn [status healthy_event health_status_triggers_teardown].
    assert (running (run to_string pre) = true) as E0.
    { destruct (running (run to_string pre)) eqn:E0; [done|]. exfalso.
      destruct (steps_stopped _ mid E0) as [Hr _]. unfold run in *. rewrite foldl_app in E1. congruence. }
    rewrite E0 in Hh0. destruct (running p) eqn:E2.
    + rewrite forward_healthy; [done|]. eapply sublist_Forall; [exact Hsub|]. by apply Forall_drop.
    + destruct Hl2 as [Hst Hs2].
      assert (sent (run to_string pre) `prefix_of` removelast (sent p)) as [k Hk].
      { assert (sent (run to_string pre) `prefix_of` sent p) as Hpre.
        { unfold p, run. rewrite foldl_app. apply steps_sent. }
        rewrite Hs2 in Hpre. apply prefix_snoc_inv in Hpre as [?|Heq]; [done|]. exfalso.
        rewrite Heq, Forall_app in Hh0. destruct Hh0 as [_ Hx]. inversion_clear Hx as [|? ? He].
        rewrite <- He in Hst. done. }
      assert (broadcast = k ++ [snapshot p]) as Hb.
      { unfold broadcast. rewrite Hs2, Hk, <- app_assoc. apply drop_app_length. }
      rewrite Hb in Hsub, Hlast. rewrite last_snoc in Hlast.
      apply last_Some in Hlast as [l ->].
      assert (Forall (healthy_event =.) l) as Hl.
      { rewrite Hk, Forall_app in Hh2. destruct Hh2 as [_ Hk2]. eapply sublist_Forall; [|exact Hk2].
        by eapply sublist_snoc_l. }
      rewrite forward_unavailable by done. split; [done|]. intros _. apply last_snoc.
  - destruct (steps_stopped _ post E1) as (Hr & Hl & _). rewrite <- Hp in *. destruct Hl1 as [Hst _].
    rewrite Hst. simpl. rewrite Hr. split; [done|]. intros _. by rewrite Hl.
Qed.
End Reports.

(** ** A server that stops answering *)

Definition demo_to_string (e : KubeError) : str := match e with Api _ _ m => m | OtherError t => t end.

Definition demo_tick (n : Z) (r : result unit KubeError) : Input :=
  Ticked {| started_at := n; list_reply := r; ready_reply := r; timed_out := false; over_at := n + 10 |}.

Definition refused : result unit KubeError := Err (OtherError (lit "connection refused")).

Definition demo_inputs : list Input :=
  [demo_tick 5000 (Ok tt); demo_tick 10000 refused; demo_tick 15000 refused; Mark 19000;
   demo_tick 20000 refused; demo_tick 25000 refused].

Definition demo_outage : list Input :=
  (λ n, demo_tick n refused) <$> [30000; 35000; 40000; 45000; 50000; 55000; 60000].

Lemma monotone_by_compute (h : list (Z * bool)) :
  forallb (λ xy, xy.1.1 <=? xy.2.1) (zip h (tail h)) = true → monotone h.
Proof.
  intros H. apply Sorted_StronglySorted; [intros x y z; lia|].
  induction h as [|x h IH]; [constructor|]. destruct h as [|y h]; [by repeat constructor|].
  simpl in H. apply andb_true_iff in H as [Hxy H]. constructor; [by apply IH|]. constructor. simpl in *. lia.
Qed.

Lemma unavailable_exactly_witness :
  running (run demo_to_string (demo_inputs ++ demo_outage)) = false
  ∧ long_failure (history demo_to_string start (demo_inputs ++ demo_outage)).
Proof.
  destruct (unavailable_exactly demo_to_string (demo_inputs ++ demo_outage)) as [[H _] _].
  - apply monotone_by_compute. vm_compute. reflexivity.
  - assert (running (run demo_to_string (demo_inputs ++ demo_outage)) = false) as Hr by (vm_compute; reflexivity).
    split; [exact Hr|exact (H Hr)].
Defined.

Lemma forwarder_reports_witness :
  let p := run demo_to_string (demo_inputs ++ [] ++ demo_outage) in
  let broadcast := drop (length (sent (run demo_to_string demo_inputs))) (sent p) in
  (spawn_health_forwarder (snapshot (run demo_to_string (demo_inputs ++ []))) broadcast).2 = true.
Proof.
  pose proof (forwarder_reports demo_to_string demo_inputs [] demo_outage
    (drop (length (sent (run demo_to_string demo_inputs))) (sent (run demo_to_string (demo_inputs ++ [] ++ demo_outage))))
    ltac:(apply monotone_by_compute; vm_compute; reflexivity) (reflexivity _) eq_refl) as H.
  cbv zeta. destruct (spawn_health_forwarder _ _) as [out down]. destruct H as [Hd _]. simpl. rewrite Hd.
  vm_compute. reflexivity.
Defined.
