(* ===== verification/AppState.v ===== *)
(** * Application state (app/src/state.rs)

    The cluster map with its lazy connects: [SingleFlight], [AppState::entry],
    [cache_lazy], [insert_connected] and [remove_cluster], as operations under their
    locks and as a transition system of concurrent callers; the registries of log
    streams and port forwards.  Entries, flights and callers are named by numbers in
    the order of their creation, so that equal numbers are [Arc::ptr_eq]. *)

From S2P Require Import Prelude.

(** ** Registries *)

(** [retain_other_cluster]: the streams left and how many were dropped. *)
Definition retain_other_cluster {V} (m : gmap str (str * V)) (cluster_id : str) : gmap str (str * V) * nat :=
  let m' := filter (λ kv, kv.2.1 ≠ cluster_id) m in (m', size m - size m').

Record ForwardSpec : Set := { spec_id : str; spec_cluster_id : str; autostart : bool }.

Definition select_unpinned_cluster_forwards (forwards : list (str * str * bool))
    (overrides : gmap str bool) (cluster_id : str) : list str :=
  (λ f, f.1.1) <$> filter (λ f, negb (default f.2 (overrides !! f.1.1)) = true)
                     (filter (λ f, f.1.2 = cluster_id) forwards).

(** [PortForwardRegistry]; [status_sent] is what went to the status channel. *)
Record PortForwardRegistry : Set := {
  by_id : gmap str ForwardSpec;
  pin_overrides : gmap str bool;
  status_sent : list str
}.

Definition stop_forward (rn : PortForwardRegistry * nat) (id : str) : PortForwardRegistry * nat :=
  let '(r, stopped) := rn in
  match by_id r !! id with
  | Some _ => ({| by_id := delete id (by_id r); pin_overrides := delete id (pin_overrides r);
                  status_sent := status_sent r ++ [id] |}, S stopped)
  | None => (r, stopped)
  end.

Definition stop_cluster_forwards (r : PortForwardRegistry) (cluster_id : str) : PortForwardRegistry * nat :=
  let ids := select_unpinned_cluster_forwards
               ((λ h, (spec_id h, spec_cluster_id h, autostart h)) <$> (map_to_list (by_id r)).*2)
               (pin_overrides r) cluster_id in
  foldl stop_forward (r, 0) ids.

(** ** Entries and flights *)

(** What of a [ClusterEntry] the map operations read. *)
Record Entry : Set := {
  unavailable : bool;
  connect_probes_done : bool;
  health_wired : bool;
  namespaces_pinned : bool
}.

Definition new_entry : Entry :=
  {| unavailable := false; connect_probes_done := false; health_wired := false; namespaces_pinned := false |}.

(** The compare-and-swap guards. *)
Definition claim_connect_probes (e : Entry) : bool * Entry :=
  (negb (connect_probes_done e),
   {| unavailable := unavailable e; connect_probes_done := true; health_wired := health_wired e;
      namespaces_pinned := namespaces_pinned e |}).

Definition claim_health_wiring (e : Entry) : bool * Entry :=
  (negb (health_wired e),
   {| unavailable := unavailable e; connect_probes_done := connect_probes_done e; health_wired := true;
      namespaces_pinned := namespaces_pinned e |}).

Definition release_health_wiring (e : Entry) : Entry :=
  {| unavailable := unavailable e; connect_probes_done := connect_probes_done e; health_wired := false;
     namespaces_pinned := namespaces_pinned e |}.

Definition claim_namespaces_pinning (e : Entry) : bool * Entry :=
  (negb (namespaces_pinned e),
   {| unavailable := unavailable e; connect_probes_done := connect_probes_done e;
      health_wired := health_wired e; namespaces_pinned := true |}).

Definition set_unavailable (e : Entry) : Entry :=
  {| unavailable := true; connect_probes_done := connect_probes_done e; health_wired := health_wired e;
     namespaces_pinned := namespaces_pinned e |}.

Record Flight : Set := { cell : option (result nat str); cancelled : bool }.

(** The map under its lock, the flights under theirs, and all entries and flights
    ever created. *)
Record AppState : Set := {
  inner : gmap str nat;
  entries : gmap nat Entry;
  next_entry : nat;
  flights : gmap str nat;
  flight : gmap nat Flight;
  next_flight : nat
}.

Definition init : AppState :=
  {| inner := ∅; entries := ∅; next_entry := 0; flights := ∅; flight := ∅; next_flight := 0 |}.

Definition set_flights (fs : gmap str nat) (tbl : gmap nat Flight) (n : nat) (s : AppState) : AppState :=
  {| inner := inner s; entries := entries s; next_entry := next_entry s; flights := fs; flight := tbl;
     next_flight := n |}.

Definition add_entry (id : str) (s : AppState) : nat * AppState :=
  let e := next_entry s in
  (e, {| inner := <[id := e]> (inner s); entries := <[e := new_entry]> (entries s); next_entry := S e;
         flights := flights s; flight := flight s; next_flight := next_flight s |}).

Definition set_inner (m : gmap str nat) (s : AppState) : AppState :=
  {| inner := m; entries := entries s; next_entry := next_entry s; flights := flights s;
     flight := flight s; next_flight := next_flight s |}.

Definition get_existing (id : str) (s : AppState) : option nat := inner s !! id.

Definition is_unavailable (s : AppState) (e : nat) : bool :=
  match entries s !! e with Some x => unavailable x | None => false end.

(** ** [SingleFlight] *)

(** The start of [run]: join the flight of the key or open one. *)
Definition flight_join (key : str) (s : AppState) : nat * AppState :=
  match flights s !! key with
  | Some f => (f, s)
  | None =>
      let f := next_flight s in
      (f, set_flights (<[key := f]> (flights s))
            (<[f := {| cell := None; cancelled := false |}]> (flight s)) (S f) s)
  end.

(** Its end: forget the flight once settled, unless another has replaced it. *)
Definition flight_leave (key : str) (f : nat) (s : AppState) : AppState :=
  if bool_decide (flights s !! key = Some f)
  then set_flights (delete key (flights s)) (flight s) (next_flight s) s else s.

Definition flight_cancel (key : str) (s : AppState) : AppState :=
  match flights s !! key with
  | Some f =>
      set_flights (delete key (flights s))
        (alter (λ x, {| cell := cell x; cancelled := true |}) f (flight s)) (next_flight s) s
  | None => s
  end.

Definition settle (f : nat) (v : result nat str) (s : AppState) : AppState :=
  set_flights (flights s) (alter (λ x, {| cell := Some v; cancelled := cancelled x |}) f (flight s))
    (next_flight s) s.

Definition is_cancelled (s : AppState) (f : nat) : bool :=
  match flight s !! f with Some x => cancelled x | None => false end.

(** ** The cluster map *)

Definition cache_lazy (id : str) (f : nat) (s : AppState) : result nat str * AppState :=
  match inner s !! id with
  | Some existing => (Ok existing, s)
  | None =>
      if is_cancelled s f then (Err (id ++ lit ": disconnected while connecting"), s)
      else let '(e, s) := add_entry id s in (Ok e, s)
  end.

Definition insert_connected (id : str) (s : AppState) : (nat * option nat) * AppState :=
  match inner s !! id with
  | Some existing =>
      if is_unavailable s existing then let '(e, s) := add_entry id s in ((e, Some existing), s)
      else ((existing, None), s)
  | None => let '(e, s) := add_entry id s in ((e, None), s)
  end.

Definition remove_cluster (id : str) (s : AppState) : option nat * AppState :=
  let s := flight_cancel id s in (inner s !! id, set_inner (delete id (inner s)) s).

Definition remove_cluster_if_same (id : str) (e : nat) (s : AppState) : bool * AppState :=
  if bool_decide (inner s !! id = Some e) then (true, set_inner (delete id (inner s)) s) else (false, s).

Definition entries_snapshot (s : AppState) : list (str * nat) := map_to_list (inner s).

Definition cluster_count (s : AppState) : nat := size (inner s).

(** The gate of [tear_down_unhealthy]: the entry the id maps to when it runs. *)
Definition mark_unavailable (id : str) (s : AppState) : AppState :=
  match inner s !! id with
  | Some e =>
      {| inner := inner s; entries := alter set_unavailable e (entries s); next_entry := next_entry s;
         flights := flights s; flight := flight s; next_flight := next_flight s |}
  | None => s
  end.

(** ** Concurrent callers of [AppState::entry] *)

(** Where a caller stands: before its lookup, after a miss, waiting for its flight,
    running the connect, done with [cache_lazy], leaving the flight, returned. *)
Inductive Pc : Set :=
  | Looking
  | Joining
  | Waiting (f : nat)
  | Connecting (f : nat)
  | Cached (f : nat) (v : result nat str)
  | Leaving (f : nat) (v : result nat str)
  | Returned (v : result nat str).

Record Sys : Set := { app : AppState; callers : gmap nat (str * Pc) }.

(** The flight a caller is waiting for, and the one it computes. *)
Definition joined (pc : Pc) : option nat :=
  match pc with Waiting f | Connecting f | Cached f _ => Some f | _ => None end.

Definition computing (pc : Pc) : option nat :=
  match pc with Connecting f | Cached f _ => Some f | _ => None end.

(** The label of a step is the cluster it opens a new way to: a new flight, or a
    [connect_context] that has its client. *)
Inductive step : option str → Sys → Sys → Prop :=
  | step_call c id a cs :
      cs !! c = None → step None (Build_Sys a cs) (Build_Sys a (<[c := (id, Looking)]> cs))
  | step_hit c id e a cs :
      cs !! c = Some (id, Looking) → get_existing id a = Some e →
      step None (Build_Sys a cs) (Build_Sys a (<[c := (id, Returned (Ok e))]> cs))
  | step_miss c id a cs :
      cs !! c = Some (id, Looking) → get_existing id a = None →
      step None (Build_Sys a cs) (Build_Sys a (<[c := (id, Joining)]> cs))
  | step_join c id f a a' cs :
      cs !! c = Some (id, Joining) → flight_join id a = (f, a') →
      step (match flights a !! id with Some _ => None | None => Some id end)
        (Build_Sys a cs) (Build_Sys a' (<[c := (id, Waiting f)]> cs))
  | step_begin c id f x a cs :
      cs !! c = Some (id, Waiting f) → flight a !! f = Some x → cell x = None →
      (∀ c' id' pc, cs !! c' = Some (id', pc) → computing pc ≠ Some f) →
      step None (Build_Sys a cs) (Build_Sys a (<[c := (id, Connecting f)]> cs))
  | step_fail c id f msg a cs :
      cs !! c = Some (id, Connecting f) →
      step None (Build_Sys a cs) (Build_Sys a (<[c := (id, Cached f (Err msg))]> cs))
  | step_cache c id f v a a' cs :
      cs !! c = Some (id, Connecting f) → cache_lazy id f a = (v, a') →
      step None (Build_Sys a cs) (Build_Sys a' (<[c := (id, Cached f v)]> cs))
  | step_settle c id f v a cs :
      cs !! c = Some (id, Cached f v) →
      step None (Build_Sys a cs) (Build_Sys (settle f v a) (<[c := (id, Leaving f v)]> cs))
  | step_receive c id f x v a cs :
      cs !! c = Some (id, Waiting f) → flight a !! f = Some x → cell x = Some v →
      step None (Build_Sys a cs) (Build_Sys a (<[c := (id, Leaving f v)]> cs))
  | step_leave c id f v a cs :
      cs !! c = Some (id, Leaving f v) →
      step None (Build_Sys a cs) (Build_Sys (flight_leave id f a) (<[c := (id, Returned v)]> cs))
  | step_dropped c a cs :
      step None (Build_Sys a cs) (Build_Sys a (delete c cs))
  | step_insert id a cs :
      step (Some id) (Build_Sys a cs) (Build_Sys (insert_connected id a).2 cs)
  | step_remove id a cs :
      step None (Build_Sys a cs) (Build_Sys (remove_cluster id a).2 cs)
  | step_remove_if_same id e a cs :
      step None (Build_Sys a cs) (Build_Sys (remove_cluster_if_same id e a).2 cs)
  | step_unavailable id a cs :
      step None (Build_Sys a cs) (Build_Sys (mark_unavailable id a) cs).

Definition sys_init : Sys := Build_Sys init ∅.

Definition any_step (s s' : Sys) : Prop := ∃ l, step l s s'.

(** A flight that will still run its connect and cache the result. *)
Definition open_flight (a : AppState) (f : nat) : Prop :=
  ∃ x, flight a !! f = Some x ∧ cell x = None ∧ cancelled x = false.

Record inv (s : Sys) : Prop := {
  inv_joined : ∀ c id pc f, callers s !! c = Some (id, pc) → joined pc = Some f →
    is_Some (flight (app s) !! f) ∧ (open_flight (app s) f → flights (app s) !! id = Some f);
  inv_leaving : ∀ c id f v, callers s !! c = Some (id, Leaving f v) →
    ∃ x, flight (app s) !! f = Some x ∧ cell x = Some v;
  inv_computing : ∀ c id pc f, callers s !! c = Some (id, pc) → computing pc = Some f →
    ∃ x, flight (app s) !! f = Some x ∧ cell x = None;
  inv_one : ∀ c1 c2 id1 id2 pc1 pc2 f, callers s !! c1 = Some (id1, pc1) → callers s !! c2 = Some (id2, pc2) →
    computing pc1 = Some f → computing pc2 = Some f → c1 = c2;
  inv_flights : ∀ id f, flights (app s) !! id = Some f → is_Some (flight (app s) !! f);
  inv_fresh_flight : ∀ f, next_flight (app s) ≤ f → flight (app s) !! f = None;
  inv_entries : ∀ id e, inner (app s) !! id = Some e → e < next_entry (app s);
  inv_inner : ∀ id1 id2 e, inner (app s) !! id1 = Some e → inner (app s) !! id2 = Some e → id1 = id2
}.

(** *** Steps that only move a caller *)

Lemma inv_move a cs c id pc :
  inv (Build_Sys a cs) →
  (∀ f, joined pc = Some f → is_Some (flight a !! f) ∧ (open_flight a f → flights a !! id = Some f)) →
  (∀ f v, pc = Leaving f v → ∃ x, flight a !! f = Some x ∧ cell x = Some v) →
  (∀ f, computing pc = Some f → (∃ x, flight a !! f = Some x ∧ cell x = None)
     ∧ ∀ c' id' pc', c' ≠ c → cs !! c' = Some (id', pc') → computing pc' ≠ Some f) →
  inv (Build_Sys a (<[c := (id, pc)]> cs)).
Proof.
  intros [Hj Hl Hc Ho Hf Hff He Hi] H1 H2 H3. simpl in *.
  assert (∀ c' id' pc', <[c := (id, pc)]> cs !! c' = Some (id', pc') →
            c' = c ∧ id' = id ∧ pc' = pc ∨ c' ≠ c ∧ cs !! c' = Some (id', pc')) as Hcs.
  { intros c' id' pc' [[<- [= <- <-]]|[? ?]]%lookup_insert_Some; auto. }
  split; simpl; try done.
  - intros c' id' pc' f [(-> & -> & ->)|[? ?]]%Hcs; eauto.
  - intros c' id' f v [(-> & -> & E)|[? ?]]%Hcs; [by apply H2|eauto].
  - intros c' id' pc' f [(-> & -> & ->)|[? ?]]%Hcs; [intros; by apply H3|eauto].
  - intros c1 c2 id1 id2 pc1 pc2 f [(-> & -> & ->)|[? ?]]%Hcs [(-> & -> & ->)|[? ?]]%Hcs ? ?; [done| | |eauto].
    + exfalso. destruct (H3 f) as [_ Hn]; [done|]. by eapply Hn.
    + exfalso. destruct (H3 f) as [_ Hn]; [done|]. by eapply Hn.
Qed.

(** *** Steps that only change the state *)

(** [a'] knows the flights of [a], forgets only flights that are settled or
    cancelled, and keeps the map injective. *)
Lemma inv_app a a' cs :
  inv (Build_Sys a cs) →
  (∀ f x, flight a !! f = Some x → ∃ x', flight a' !! f = Some x' ∧ cell x' = cell x
                                       ∧ (cancelled x = true → cancelled x' = true)) →
  (∀ id f, flights a !! id = Some f → open_flight a' f → flights a' !! id = Some f) →
  (∀ id f, flights a' !! id = Some f → is_Some (flight a' !! f)) →
  (∀ f, next_flight a' ≤ f → flight a' !! f = None) →
  (∀ id e, inner a' !! id = Some e → e < next_entry a') →
  (∀ id1 id2 e, inner a' !! id1 = Some e → inner a' !! id2 = Some e → id1 = id2) →
  inv (Build_Sys a' cs).
Proof.
  intros [Hj Hl Hc Ho _ _ _ _] Hfl Hop. simpl in *. split; simpl; try done.
  - intros c id pc f Hpc Hf. destruct (Hj _ _ _ _ Hpc Hf) as [[x Hx] Hopen].
    destruct (Hfl _ _ Hx) as (x' & Hx' & Hcell & Hcan). split; [by eexists|]. intros Hop'.
    apply Hop; [|done]. apply Hopen. destruct Hop' as (y & Hy & Hy1 & Hy2). simplify_eq.
    exists x. split_and!; [done|congruence|]. destruct (cancelled x); [|done]. by rewrite Hcan in Hy2.
  - intros c id f v Hpc. destruct (Hl _ _ _ _ Hpc) as (x & Hx & Hv).
    destruct (Hfl _ _ Hx) as (x' & Hx' & Hcell & _). exists x'. split; [done|congruence].
  - intros c id pc f Hpc Hf. destruct (Hc _ _ _ _ Hpc Hf) as (x & Hx & Hv).
    destruct (Hfl _ _ Hx) as (x' & Hx' & Hcell & _). exists x'. split; [done|congruence].
Qed.

Lemma inv_same_flights a a' cs :
  inv (Build_Sys a cs) →
  flights a' = flights a → flight a' = flight a → next_flight a' = next_flight a →
  (∀ id e, inner a' !! id = Some e → e < next_entry a') →
  (∀ id1 id2 e, inner a' !! id1 = Some e → inner a' !! id2 = Some e → id1 = id2) →
  inv (Build_Sys a' cs).
Proof.
  intros Hinv E1 E2 E3 He Hi. apply (inv_app a); try done; rewrite ?E1, ?E2, ?E3.
  - intros f x Hx. exists x. done.
  - done.
  - apply (inv_flights _ Hinv).
  - apply (inv_fresh_flight _ Hinv).
Qed.

Lemma inv_add_entry id a cs : inv (Build_Sys a cs) → inv (Build_Sys (add_entry id a).2 cs).
Proof.
  intros Hinv. pose proof (inv_entries _ Hinv) as He. pose proof (inv_inner _ Hinv) as Hi. simpl in *.
  apply (inv_same_flights a); try done; simpl.
  - intros id' e [[_ <-]|[_ Hx]]%lookup_insert_Some; [lia|]. specialize (He _ _ Hx). lia.
  - intros id1 id2 e [[<- <-]|[? H1]]%lookup_insert_Some [[<- E]|[? H2]]%lookup_insert_Some; try done.
    + specialize (He _ _ H2). lia.
    + specialize (He _ _ H1). lia.
    + by eapply Hi.
Qed.

Lemma inv_delete_inner id a cs : inv (Build_Sys a cs) → inv (Build_Sys (set_inner (delete id (inner a)) a) cs).
Proof.
  intros Hinv. pose proof (inv_entries _ Hinv) as He. pose proof (inv_inner _ Hinv) as Hi. simpl in *.
  apply (inv_same_flights a); try done; simpl.
  - intros id' e [_ Hx]%lookup_delete_Some. eauto.
  - intros id1 id2 e [_ H1]%lookup_delete_Some [_ H2]%lookup_delete_Some. eauto.
Qed.

Lemma inv_cancel id a cs : inv (Build_Sys a cs) → inv (Build_Sys (flight_cancel id a) cs).
Proof.
  intros Hinv. unfold flight_cancel. destruct (flights a !! id) as [f|] eqn:Ef; [|done].
  pose proof (inv_entries _ Hinv). pose proof (inv_inner _ Hinv).
  apply (inv_app a); try done; simpl.
  - intros f' x Hx. destruct (decide (f' = f)) as [->|].
    + rewrite lookup_alter_eq, Hx. by eexists.
    + rewrite lookup_alter_ne by done. by exists x.
  - intros id' f' Hf' (x & Hx & _ & Hcan). simpl in Hx. destruct (decide (f' = f)) as [->|Hne].
    + rewrite lookup_alter_eq in Hx. apply fmap_Some in Hx as (y & _ & ->). done.
    + rewrite lookup_delete_ne; [done|]. intros ->. congruence.
  - intros id' f' [_ Hf']%lookup_delete_Some. apply (inv_flights _ Hinv) in Hf'. simpl in Hf'.
    destruct (decide (f' = f)) as [->|]; [rewrite lookup_alter_eq|by rewrite lookup_alter_ne].
    destruct Hf' as [x ->]. by eexists.
  - intros f' Hf'. apply (inv_fresh_flight _ Hinv) in Hf'. simpl in Hf'.
    destruct (decide (f' = f)) as [->|]; [rewrite lookup_alter_eq|by rewrite lookup_alter_ne]. by rewrite Hf'.
Qed.

Lemma inv_join c id a cs :
  inv (Build_Sys a cs) →
  inv (Build_Sys (flight_join id a).2 (<[c := (id, Waiting (flight_join id a).1)]> cs)).
Proof.
  intros Hinv. unfold flight_join. destruct (flights a !! id) as [f|] eqn:Ef; cbn [fst snd].
  - apply inv_move; try done. simpl. intros f' [= <-]. split; [by apply (inv_flights _ Hinv id)|done].
  - assert (flight a !! next_flight a = None) as Hnew by by apply (inv_fresh_flight _ Hinv).
    pose proof (inv_entries _ Hinv). pose proof (inv_inner _ Hinv). apply inv_move.
    + apply (inv_app a); try done; simpl.
      * intros f x Hx. exists x. rewrite lookup_insert_ne by congruence. done.
      * intros id' f Hf (x & Hx & _). rewrite lookup_insert_ne; [done|]. intros ->. congruence.
      * intros id' f [[_ <-]|[_ Hf]]%lookup_insert_Some; [rewrite lookup_insert_eq; by eexists|].
        apply (inv_flights _ Hinv) in Hf. simpl in Hf. destruct (decide (f = next_flight a)) as [->|].
        -- by rewrite Hnew in Hf; destruct Hf.
        -- by rewrite lookup_insert_ne.
      * intros f Hf. rewrite lookup_insert_ne by lia. apply (inv_fresh_flight _ Hinv). simpl. lia.
    + simpl. intros f [= <-]. rewrite !lookup_insert_eq. split; [by eexists|done].
    + done.
    + done.
Qed.

Lemma inv_settle c id f v a cs :
  inv (Build_Sys a cs) → cs !! c = Some (id, Cached f v) →
  inv (Build_Sys (settle f v a) (<[c := (id, Leaving f v)]> cs)).
Proof.
  intros [Hj Hl Hc Ho Hf Hff He Hi] Hcs. simpl in *.
  destruct (Hc c id _ f Hcs eq_refl) as (x & Hx & Hcell).
  assert (∀ f', flight (settle f v a) !! f' = if decide (f' = f) then Some {| cell := Some v; cancelled := cancelled x |}
                                              else flight a !! f') as Hset.
  { intros f'. simpl. case_decide as E; [subst; by rewrite lookup_alter_eq, Hx|by rewrite lookup_alter_ne]. }
  assert (∀ f', open_flight (settle f v a) f' → f' ≠ f ∧ open_flight a f') as Hopen.
  { intros f' (y & Hy & Hy1 & Hy2). rewrite Hset in Hy. case_decide; [by simplify_eq|]. split; [done|]. by exists y. }
  assert (∀ f', is_Some (flight a !! f') → is_Some (flight (settle f v a) !! f')) as Hsome.
  { intros f'. rewrite Hset. case_decide; [by eexists|done]. }
  split; cbn [app callers]; try done.
  - intros c' id' pc' f' [[<- [= <- <-]]|[? Hc']]%lookup_insert_Some Hf'; [done|].
    destruct (Hj _ _ _ _ Hc' Hf') as [? Hop]. split; [by apply Hsome|]. intros [_ ?]%Hopen. by apply Hop.
  - intros c' id' f' v' [[<- [= <- <- <-]]|[? Hc']]%lookup_insert_Some; rewrite Hset.
    + rewrite decide_True by done. by eexists.
    + destruct (Hl _ _ _ _ Hc') as (y & Hy & Hv). case_decide as E; [|by exists y].
      subst. rewrite Hx in Hy. injection Hy as <-. congruence.
  - intros c' id' pc' f' [[<- [= <- <-]]|[Hne Hc']]%lookup_insert_Some Hf'; [done|].
    rewrite Hset. case_decide as E; [|by eapply Hc]. subst. exfalso. apply Hne. by eapply Ho.
  - intros c1 c2 id1 id2 pc1 pc2 f' [[<- [= <- <-]]|[? H1]]%lookup_insert_Some
      [[<- [= <- <-]]|[? H2]]%lookup_insert_Some ? ?; try done. by eapply Ho.
  - intros id' f' Hf'. by apply Hsome, (Hf id').
  - intros f' Hf'. rewrite Hset. rewrite decide_False; [by apply Hff|]. intros ->. rewrite Hff in Hx; done.
Qed.

Lemma inv_leave c id f v a cs :
  inv (Build_Sys a cs) → cs !! c = Some (id, Leaving f v) → inv (Build_Sys (flight_leave id f a) cs).
Proof.
  intros Hinv Hcs. unfold flight_leave. case_bool_decide as Ef; [|done].
  destruct (inv_leaving _ Hinv _ _ _ _ Hcs) as (x & Hx & Hv). simpl in *.
  pose proof (inv_entries _ Hinv). pose proof (inv_inner _ Hinv). apply (inv_app a); try done; simpl.
  - intros f' y Hy. by exists y.
  - intros id' f' Hf' (y & Hy & Hcell & _). simpl in Hy. rewrite lookup_delete_ne; [done|].
    intros <-. simplify_eq.
  - intros id' f' [_ Hf']%lookup_delete_Some. by apply (inv_flights _ Hinv) in Hf'.
  - apply (inv_fresh_flight _ Hinv).
Qed.

Lemma inv_dropped c a cs : inv (Build_Sys a cs) → inv (Build_Sys a (delete c cs)).
Proof.
  intros [Hj Hl Hc Ho Hf Hff He Hi]. simpl in *. split; simpl; try done.
  - intros ? ? ? ? [_ ?]%lookup_delete_Some. eauto.
  - intros ? ? ? ? [_ ?]%lookup_delete_Some. eauto.
  - intros ? ? ? ? [_ ?]%lookup_delete_Some. eauto.
  - intros ? ? ? ? ? ? ? [_ ?]%lookup_delete_Some [_ ?]%lookup_delete_Some. eauto.
Qed.

Lemma inv_insert_connected id a cs : inv (Build_Sys a cs) → inv (Build_Sys (insert_connected id a).2 cs).
Proof.
  intros Hinv. unfold insert_connected. destruct (inner a !! id) as [e|]; [destruct (is_unavailable a e)|];
    [by apply inv_add_entry|done|by apply inv_add_entry].
Qed.

Lemma inv_remove id a cs : inv (Build_Sys a cs) → inv (Build_Sys (remove_cluster id a).2 cs).
Proof. intros Hinv. unfold remove_cluster. simpl. by apply inv_delete_inner, inv_cancel. Qed.

Lemma cache_lazy_flights id f a : flight (cache_lazy id f a).2 = flight a ∧ flights (cache_lazy id f a).2 = flights a.
Proof. unfold cache_lazy. destruct (inner a !! id); [done|]. by destruct (is_cancelled a f). Qed.

Lemma inv_cache c id f a cs :
  inv (Build_Sys a cs) → cs !! c = Some (id, Connecting f) →
  inv (Build_Sys (cache_lazy id f a).2 (<[c := (id, Cached f (cache_lazy id f a).1)]> cs)).
Proof.
  intros Hinv Hcs. assert (inv (Build_Sys (cache_lazy id f a).2 cs)) as Hinv'.
  { unfold cache_lazy. destruct (inner a !! id) as [e|]; [done|].
    destruct (is_cancelled a f); [done|by apply inv_add_entry]. }
  apply inv_move; [done| |done|]; simpl; intros f' [= <-].
  - by eapply (inv_joined _ Hinv').
  - split; [by eapply (inv_computing _ Hinv')|]. intros c' id' pc' Hne Hc' Hf'.
    apply Hne. by eapply (inv_one _ Hinv').
Qed.

#[export] Hint Resolve inv_move inv_add_entry inv_delete_inner inv_cancel inv_settle inv_leave inv_dropped
  inv_insert_connected inv_remove : ferris.

Lemma inv_step l s s' : inv s → step l s s' → inv s'.
Proof.
  intros Hinv Hstep. destruct Hstep as
    [c id a cs Hc|c id e a cs Hc|c id a cs Hc|c id f a a' cs Hc Hj|c id f x a cs Hc Hx Hcell Hno|c id f msg a cs Hc
    |c id f v a a' cs Hc Hv|c id f v a cs Hc|c id f x v a cs Hc Hx Hv|c id f v a cs Hc|c a cs|id a cs|id a cs|id e a cs|id a cs];
    try (by eauto with ferris); try (by apply inv_move).
  - replace f with (flight_join id a).1 by by rewrite Hj. replace a' with (flight_join id a).2 by by rewrite Hj.
    by apply inv_join.
  - apply inv_move; [done| |done|]; simpl; intros f' [= <-].
    + by eapply (inv_joined _ Hinv).
    + split; [by exists x|]. intros c' id' pc' _ Hc' Hf'. by eapply Hno.
  - apply inv_move; [done| |done|]; simpl; intros f' [= <-].
    + by eapply (inv_joined _ Hinv).
    + split; [by eapply (inv_computing _ Hinv)|]. intros c' id' pc' Hne Hc' Hf'.
      apply Hne. by eapply (inv_one _ Hinv).
  - replace v with (cache_lazy id f a).1 by by rewrite Hv. replace a' with (cache_lazy id f a).2 by by rewrite Hv.
    by apply inv_cache.
  - apply inv_move; try done. intros f' v' [= <- <-]. by exists x.
  - apply inv_move; [by eauto with ferris|done..].
  - unfold remove_cluster_if_same. case_bool_decide; [by apply inv_delete_inner|done].
  - unfold mark_unavailable. destruct (inner a !! id); [|done].
    apply (inv_same_flights a); try done; [apply (inv_entries _ Hinv)|apply (inv_inner _ Hinv)].
Qed.

Lemma inv_sys_init : inv sys_init.
Proof. by split. Qed.

Lemma app_reachable_inv s : rtc any_step sys_init s → inv s.
Proof.
  apply rtc_preserves; [|apply inv_sys_init]. intros x y Hx [l Hl]. by eapply inv_step.
Qed.

(** ** Properties *)

(** No way to the cluster is open: it is not cached, and every flight for it is
    settled or cancelled. *)
Record closed (id : str) (s : Sys) : Prop := {
  closed_inner : inner (app s) !! id = None;
  closed_flights : flights (app s) !! id = None;
  closed_joined : ∀ c pc f, callers s !! c = Some (id, pc) → joined pc = Some f → ¬ open_flight (app s) f
}.

Lemma closed_remove id a cs : inv (Build_Sys a cs) → closed id (Build_Sys (remove_cluster id a).2 cs).
Proof.
  intros Hinv. pose proof (inv_remove id _ _ Hinv) as Hinv'.
  assert (flights (remove_cluster id a).2 !! id = None) as Hf.
  { unfold remove_cluster, flight_cancel. destruct (flights a !! id) eqn:E; simpl; [apply lookup_delete_eq|done]. }
  split; [apply lookup_delete_eq|done|]. intros c pc f Hc Hj Ho.
  destruct (inv_joined _ Hinv' _ _ _ _ Hc Hj) as [_ H]. simpl in *. rewrite H in Hf; done.
Qed.

(** Keeping a closed cluster closed: nothing cached under it, no flight opened, and no
    flight reopened. *)
Lemma closed_mono id a a' cs cs' :
  closed id (Build_Sys a cs) → inner a' !! id = None → flights a' !! id = None →
  (∀ f, open_flight a' f → open_flight a f) →
  (∀ c pc f, cs' !! c = Some (id, pc) → joined pc = Some f →
     ∃ c0 pc0, cs !! c0 = Some (id, pc0) ∧ joined pc0 = Some f) →
  closed id (Build_Sys a' cs').
Proof.
  intros [_ _ Hj] Hi Hf Ho Hc. split; [done|done|]. simpl in *. intros c pc f Hpc Hpf Hop.
  destruct (Hc _ _ _ Hpc Hpf) as (c0 & pc0 & ? & ?). eapply Hj; eauto.
Qed.

Lemma callers_move (cs : gmap nat (str * Pc)) c id id' pc0 pc1 :
  cs !! c = Some (id, pc0) → (∀ f, joined pc1 = Some f → joined pc0 = Some f) →
  ∀ c' pc f, <[c := (id, pc1)]> cs !! c' = Some (id', pc) → joined pc = Some f →
     ∃ c0 pc0, cs !! c0 = Some (id', pc0) ∧ joined pc0 = Some f.
Proof. intros H0 H1 c' pc f [[<- [= <- <-]]|[? ?]]%lookup_insert_Some ?; eauto. Qed.

(** Changes of the map that open nothing. *)
Lemma closed_same id a a' cs :
  closed id (Build_Sys a cs) → flights a' = flights a → flight a' = flight a → inner a' !! id = None →
  closed id (Build_Sys a' cs).
Proof.
  intros Hcl E1 E2 Hi. apply (closed_mono id a a' cs cs); [done|done|rewrite E1; apply (closed_flights _ _ Hcl)| |].
  - intros f. unfold open_flight. by rewrite E2.
  - intros c pc f Hc Hf. by exists c, pc.
Qed.

Lemma closed_move id a cs c id0 pc0 pc1 :
  closed id (Build_Sys a cs) → cs !! c = Some (id0, pc0) → (∀ f, joined pc1 = Some f → joined pc0 = Some f) →
  closed id (Build_Sys a (<[c := (id0, pc1)]> cs)).
Proof.
  intros Hcl Hc Hj. destruct (Hcl) as [Hi Hf _]. apply (closed_mono id a a cs); try done.
  by eapply callers_move.
Qed.

Lemma closed_cache id a cs c id0 f :
  inv (Build_Sys a cs) → closed id (Build_Sys a cs) → cs !! c = Some (id0, Connecting f) →
  closed id (Build_Sys (cache_lazy id0 f a).2 (<[c := (id0, Cached f (cache_lazy id0 f a).1)]> cs)).
Proof.
  intros Hinv Hcl Hc. destruct (cache_lazy_flights id0 f a) as [E1 E2].
  apply (closed_move _ _ _ c id0 (Connecting f)); [|done|done]. apply (closed_same id a); try done.
  destruct Hcl as [Hi _ Hj]. simpl in *. unfold cache_lazy. destruct (inner a !! id0) as [e|] eqn:E0; [done|].
  destruct (is_cancelled a f) eqn:Ecan; [done|]. simpl. rewrite lookup_insert_ne; [done|]. intros ->.
  destruct (inv_computing _ Hinv _ _ _ _ Hc eq_refl) as (x & Hx & Hcell). simpl in Hx.
  apply (Hj c (Connecting f) f Hc eq_refl). exists x. split_and!; [done..|].
  unfold is_cancelled in Ecan. by rewrite Hx in Ecan.
Qed.

Lemma closed_settle id a cs f v : closed id (Build_Sys a cs) → closed id (Build_Sys (settle f v a) cs).
Proof.
  intros Hcl. destruct (Hcl) as [Hi Hf _]. apply (closed_mono id a _ cs cs); try done; simpl.
  - intros f' (x & Hx & Hcell & Hcan). simpl in Hx. destruct (decide (f' = f)) as [->|].
    + rewrite lookup_alter_eq in Hx. apply fmap_Some in Hx as (y & _ & ->). done.
    + rewrite lookup_alter_ne in Hx by done. by exists x.
  - intros c pc f' Hc Hj. by exists c, pc.
Qed.

Lemma closed_cancel id id0 a cs : closed id (Build_Sys a cs) → closed id (Build_Sys (flight_cancel id0 a) cs).
Proof.
  intros Hcl. unfold flight_cancel. destruct (flights a !! id0) as [f|]; [|done].
  destruct (Hcl) as [Hi Hf _]. apply (closed_mono id a _ cs cs); try done; simpl.
  - by apply lookup_delete_None; right.
  - intros f' (x & Hx & Hcell & Hcan). simpl in Hx. destruct (decide (f' = f)) as [->|].
    + rewrite lookup_alter_eq in Hx. apply fmap_Some in Hx as (y & _ & ->). done.
    + rewrite lookup_alter_ne in Hx by done. by exists x.
  - intros c pc f' Hc Hj. by exists c, pc.
Qed.

Lemma closed_leave id id0 f a cs : closed id (Build_Sys a cs) → closed id (Build_Sys (flight_leave id0 f a) cs).
Proof.
  intros Hcl. unfold flight_leave. case_bool_decide; [|done]. destruct (Hcl) as [Hi Hf _].
  apply (closed_mono id a _ cs cs); try done; simpl.
  - by apply lookup_delete_None; right.
  - intros c pc f' Hc Hj. by exists c, pc.
Qed.

Lemma closed_join id id0 a cs c :
  inv (Build_Sys a cs) → closed id (Build_Sys a cs) → id0 ≠ id →
  closed id (Build_Sys (flight_join id0 a).2 (<[c := (id0, Waiting (flight_join id0 a).1)]> cs)).
Proof.
  intros Hinv [Hi Hf Hj] Hne. simpl in *. split; simpl.
  - unfold flight_join. by destruct (flights a !! id0).
  - unfold flight_join. destruct (flights a !! id0); simpl; [done|by rewrite lookup_insert_ne].
  - intros c' pc f [[_ [= E _]]|[_ Hc]]%lookup_insert_Some Hpc; [done|].
    intros (x & Hx & Hx'). apply (Hj _ _ _ Hc Hpc). exists x. split; [|done].
    destruct (inv_joined _ Hinv _ _ _ _ Hc Hpc) as [[y Hy] _]. simpl in Hy.
    unfold flight_join in Hx. destruct (flights a !! id0); [done|]. simpl in Hx.
    rewrite lookup_insert_ne in Hx; [done|]. intros <-.
    by rewrite (inv_fresh_flight _ Hinv) in Hy.
Qed.

Lemma closed_step id l s s' : inv s → closed id s → step l s s' → l ≠ Some id → closed id s'.
Proof.
  intros Hinv Hcl Hstep Hl. destruct Hstep as
    [c id0 a cs Hc|c id0 e a cs Hc|c id0 a cs Hc|c id0 f a a' cs Hc Hj|c id0 f x a cs Hc|c id0 f msg a cs Hc
    |c id0 f v a a' cs Hc Hv|c id0 f v a cs Hc|c id0 f x v a cs Hc|c id0 f v a cs Hc|c a cs|id0 a cs|id0 a cs|id0 e a cs|id0 a cs];
    try (by eapply closed_move).
  - apply (closed_mono id a a cs); try apply Hcl; try done.
    intros c' pc f [[<- [= <- <-]]|[? ?]]%lookup_insert_Some ?; [done|eauto].
  - replace f with (flight_join id0 a).1 by by rewrite Hj. replace a' with (flight_join id0 a).2 by by rewrite Hj.
    apply closed_join; [done..|]. destruct (flights a !! id0) eqn:Ef; [|congruence]. intros ->.
    pose proof (closed_flights _ _ Hcl) as H. simpl in H. congruence.
  - replace v with (cache_lazy id0 f a).1 by by rewrite Hv. replace a' with (cache_lazy id0 f a).2 by by rewrite Hv.
    by apply closed_cache.
  - eapply closed_move; [by apply closed_settle|done|done].
  - eapply closed_move; [by apply closed_leave|done|done].
  - apply (closed_mono id a a cs); try apply Hcl; try done.
    intros c' pc f [_ ?]%lookup_delete_Some ?. eauto.
  - assert (id ≠ id0) as Hne by congruence. pose proof (closed_inner _ _ Hcl) as Hi. simpl in Hi.
    unfold insert_connected. destruct (inner a !! id0) as [e|]; [destruct (is_unavailable a e)|]; simpl;
      try done; apply (closed_same id a); try done; simpl; by rewrite lookup_insert_ne.
  - pose proof (closed_cancel id id0 a cs Hcl) as Hcl'. unfold remove_cluster. simpl.
    apply (closed_same id (flight_cancel id0 a)); try done. simpl.
    apply lookup_delete_None. right. apply Hcl'.
  - unfold remove_cluster_if_same. case_bool_decide; [|done]. apply (closed_same id a); try done. simpl.
    apply lookup_delete_None. right. apply Hcl.
  - unfold mark_unavailable. destruct (inner a !! id0); [|done]. apply (closed_same id a); try done. apply Hcl.
Qed.

(** C8: a cluster the operator has left stays out of the map: whatever was connecting
    when it was removed (callers waiting, connecting, or about to cache their
    client) never brings it back, until a new flight or [connect_context] for it
    begins. *)
Theorem removed_stays_removed (s s' : Sys) (id : str) :
  rtc any_step sys_init s →
  rtc (λ x y, ∃ l, l ≠ Some id ∧ step l x y) (Build_Sys (remove_cluster id (app s)).2 (callers s)) s' →
  get_existing id (app s') = None.
Proof.
  intros Hinv%app_reachable_inv Hsteps. destruct s as [a cs]. cbn [app callers] in Hsteps.
  assert (closed id s') as Hcl; [|apply Hcl].
  assert (inv (Build_Sys (remove_cluster id a).2 cs)) as Hinv' by by apply inv_remove.
  apply (closed_remove id) in Hinv. revert Hinv Hinv'. induction Hsteps as [|x y z (l & Hl & Hstep) _ IH]; [done|].
  intros Hcl Hi. apply IH; [by eapply closed_step|by eapply inv_step].
Qed.

(** at most one connect runs per cluster, callers share it: two callers that are
    connecting to the same cluster with neither flight cancelled are the same one,
    every caller of a settled flight leaves with its one result, a caller waiting on
    a flight nobody computes can go on (also when the one that was computing it was
    dropped), and no two clusters ever share an entry. *)
Theorem single_flight (s : Sys) :
  rtc any_step sys_init s →
  (∀ c1 c2 id f1 f2, callers s !! c1 = Some (id, Connecting f1) → callers s !! c2 = Some (id, Connecting f2) →
     is_cancelled (app s) f1 = false → is_cancelled (app s) f2 = false → c1 = c2)
  ∧ (∀ c id f v, callers s !! c = Some (id, Leaving f v) → cell <$> flight (app s) !! f = Some (Some v))
  ∧ (∀ c id f, callers s !! c = Some (id, Waiting f) →
       (∀ c' id' pc, callers s !! c' = Some (id', pc) → computing pc ≠ Some f) →
       ∃ pc, pc ≠ Waiting f ∧ step None s (Build_Sys (app s) (<[c := (id, pc)]> (callers s))))
  ∧ (∀ id1 id2 e, get_existing id1 (app s) = Some e → get_existing id2 (app s) = Some e → id1 = id2).
Proof.
  intros Hinv%app_reachable_inv. split_and!.
  - intros c1 c2 id f1 f2 H1 H2 Hn1 Hn2.
    assert (∀ c f, callers s !! c = Some (id, Connecting f) → is_cancelled (app s) f = false →
              flights (app s) !! id = Some f) as Hop.
    { intros c f Hc Hn. apply (inv_joined _ Hinv _ _ _ _ Hc eq_refl).
      destruct (inv_computing _ Hinv _ _ _ _ Hc eq_refl) as (x & Hx & Hcell). exists x.
      unfold is_cancelled in Hn. by rewrite Hx in Hn. }
    pose proof (Hop _ _ H1 Hn1) as E1. rewrite (Hop _ _ H2 Hn2) in E1. injection E1 as ->.
    by apply (inv_one _ Hinv _ _ _ _ _ _ f1 H1 H2).
  - intros c id f v Hc. by destruct (inv_leaving _ Hinv _ _ _ _ Hc) as (x & -> & <-).
  - intros c id f Hc Hno. destruct (inv_joined _ Hinv _ _ _ _ Hc eq_refl) as [[x Hx] _]. destruct s as [a cs].
    destruct (cell x) as [v|] eqn:Hcell.
    + exists (Leaving f v). split; [done|]. by eapply step_receive.
    + exists (Connecting f). split; [done|]. by eapply step_begin.
  - apply (inv_inner _ Hinv).
Qed.

(** a connect that carries its own client caches it under its cluster unless a
    healthy entry is there, which it returns; a wedged entry never wins and is handed
    back for its teardown; the other clusters keep their entries. *)
Theorem insert_connected_spec (s : Sys) (id : str) :
  rtc any_step sys_init s →
  let '((e, displaced), a') := insert_connected id (app s) in
  get_existing id a' = Some e ∧ is_unavailable a' e = false
  ∧ (∀ id', id' ≠ id → get_existing id' a' = get_existing id' (app s) ∧ get_existing id' a' ≠ Some e)
  ∧ match get_existing id (app s) with
    | Some old => if is_unavailable (app s) old then displaced = Some old ∧ e ≠ old
                  else e = old ∧ displaced = None ∧ a' = app s
    | None => displaced = None
    end.
Proof.
  intros Hinv%app_reachable_inv. destruct s as [a cs]. pose proof (inv_entries _ Hinv) as He. simpl in *.
  assert (∀ d, let '(e, a') := add_entry id a in
            get_existing id a' = Some e ∧ is_unavailable a' e = false
            ∧ (∀ id', id' ≠ id → get_existing id' a' = get_existing id' a ∧ get_existing id' a' ≠ Some e)
            ∧ (inner a !! id = Some d → e ≠ d)) as Hadd.
  { intros d. simpl. unfold get_existing, is_unavailable. simpl. rewrite !lookup_insert_eq. split_and!; [done..| |].
    - intros id' Hne. rewrite lookup_insert_ne by done. split; [done|]. intros Hx%He. lia.
    - intros Hx%He. lia. }
  unfold insert_connected. change (get_existing id a) with (inner a !! id).
  destruct (inner a !! id) as [old|] eqn:E.
  - destruct (is_unavailable a old) eqn:Eu.
    + specialize (Hadd old). destruct (add_entry id a) as [e a'].
      destruct Hadd as (? & ? & ? & ?). split_and!; auto.
    + split_and!; try done. intros id' Hne. split; [done|]. unfold get_existing.
      intros Hx. apply Hne. by apply (inv_inner _ Hinv id' id old).
  - specialize (Hadd 0). destruct (add_entry id a) as [e a']. destruct Hadd as (? & ? & ? & _). by split_and!.
Qed.

(** A detached teardown names its cluster by id: when the operator has reconnected
    before it runs, it marks the fresh entry unavailable. *)
Lemma teardown_hits_replacement :
  let id := lit "prod" in
  let '((e1, _), s1) := insert_connected id init in
  let '((e2, _), s2) := insert_connected id (remove_cluster id s1).2 in
  e1 ≠ e2 ∧ is_unavailable s2 e2 = false ∧ is_unavailable (mark_unavailable id s2) e2 = true.
Proof. vm_compute. by split_and!. Qed.

(** ** Port forwards *)

(** What a disconnect stops: the forwards of the cluster that are not pinned. *)
Definition unpinned (r : PortForwardRegistry) (cluster_id : str) (id : str) (h : ForwardSpec) : bool :=
  (spec_cluster_id h =s cluster_id) && negb (default (autostart h) (pin_overrides r !! id)).

Lemma NoDup_fmap_filter {A B} (g : A → B) (P : A → Prop) `{!∀ x, Decision (P x)} (l : list A) :
  NoDup (g <$> l) → NoDup (g <$> filter P l).
Proof.
  induction l as [|x l IH]; intros Hnd; [constructor|]. inversion_clear Hnd as [|? ? Hx Hl].
  rewrite filter_cons. destruct (decide (P x)); [|auto]. rewrite fmap_cons. constructor; [|auto].
  intros (y & E & [_ Hy]%list_elem_of_filter)%list_elem_of_fmap. apply Hx. rewrite E. by apply list_elem_of_fmap_2.
Qed.

Lemma select_unpinned_spec r cluster_id id :
  (∀ i h, by_id r !! i = Some h → spec_id h = i) →
  id ∈ select_unpinned_cluster_forwards
         ((λ h, (spec_id h, spec_cluster_id h, autostart h)) <$> (map_to_list (by_id r)).*2)
         (pin_overrides r) cluster_id
  ↔ ∃ h, by_id r !! id = Some h ∧ unpinned r cluster_id id h = true.
Proof.
  intros Hid. unfold select_unpinned_cluster_forwards, unpinned. rewrite list_elem_of_fmap. split.
  - intros ([[i c] b] & -> & Hin). rewrite !list_elem_of_filter in Hin. simpl in *.
    destruct Hin as (Hp & Hc & (h & [= -> -> ->] & ([i' h'] & -> & Hh)%list_elem_of_fmap)%list_elem_of_fmap).
    apply elem_of_map_to_list in Hh. simpl in *. rewrite (Hid _ _ Hh) in *. exists h'. split; [done|].
    by rewrite Hp, Hc, str_eqb_refl.
  - intros (h & Hh & (Hc & Hp)%andb_true_iff). apply str_eqb_eq in Hc.
    exists (id, spec_cluster_id h, autostart h). split; [done|]. rewrite !list_elem_of_filter. simpl.
    split; [done|]. split; [done|]. apply list_elem_of_fmap. exists h. rewrite (Hid _ _ Hh). split; [done|].
    apply list_elem_of_fmap. exists (id, h). split; [done|]. by apply elem_of_map_to_list.
Qed.

Lemma stop_forwards_spec (ids : list str) (r : PortForwardRegistry) n :
  NoDup ids → (∀ id, id ∈ ids → is_Some (by_id r !! id)) →
  let '(r', n') := foldl stop_forward (r, n) ids in
  (∀ id, by_id r' !! id = if decide (id ∈ ids) then None else by_id r !! id)
  ∧ (∀ id, pin_overrides r' !! id = if decide (id ∈ ids) then None else pin_overrides r !! id)
  ∧ status_sent r' = status_sent r ++ ids ∧ n' = n + length ids.
Proof.
  revert r n. induction ids as [|i ids IH]; intros r n Hnd Hin.
  { simpl. rewrite app_nil_r, Nat.add_0_r. done. }
  inversion_clear Hnd as [|? ? Hi Hnd']. cbn [foldl]. unfold stop_forward at 2.
  destruct (Hin i) as [h Hh]; [by left|]. rewrite Hh.
  specialize (IH {| by_id := delete i (by_id r); pin_overrides := delete i (pin_overrides r);
                    status_sent := status_sent r ++ [i] |} (S n) Hnd').
  destruct (foldl stop_forward _ ids) as [r' n']. destruct IH as (Hb & Hp & Hs & Hn).
  { intros id Hid. simpl. rewrite lookup_delete_ne by (intros ->; done). apply Hin. by right. }
  simpl in *. split_and!; [| |by rewrite Hs, <- app_assoc|lia].
  - intros id. rewrite Hb. destruct (decide (id = i)) as [->|Hne].
    + rewrite decide_False, lookup_delete_eq, decide_True by (done || by left). done.
    + rewrite lookup_delete_ne by done. apply decide_ext. set_solver.
  - intros id. rewrite Hp. destruct (decide (id = i)) as [->|Hne].
    + rewrite decide_False, lookup_delete_eq, decide_True by (done || by left). done.
    + rewrite lookup_delete_ne by done. apply decide_ext. set_solver.
Qed.

(** a disconnect stops exactly the unpinned forwards of its cluster, forgets
    their pin overrides, announces each of them once and counts them; pinned forwards
    and those of other clusters stay, with their overrides. *)
Theorem stop_cluster_forwards_exact (r : PortForwardRegistry) (cluster_id : str) :
  (∀ id h, by_id r !! id = Some h → spec_id h = id) →
  let '(r', n) := stop_cluster_forwards r cluster_id in
  let stopped id := match by_id r !! id with Some h => unpinned r cluster_id id h | None => false end in
  (∀ id, by_id r' !! id = if stopped id then None else by_id r !! id)
  ∧ (∀ id, pin_overrides r' !! id = if stopped id then None else pin_overrides r !! id)
  ∧ ∃ ids, status_sent r' = status_sent r ++ ids ∧ NoDup ids ∧ length ids = n
           ∧ ∀ id, id ∈ ids ↔ stopped id = true.
Proof.
  intros Hid. unfold stop_cluster_forwards. set (ids := select_unpinned_cluster_forwards _ _ _).
  set (stopped id := match by_id r !! id with Some h => unpinned r cluster_id id h | None => false end).
  assert (∀ id, id ∈ ids ↔ stopped id = true) as Hids.
  { intros id. unfold ids, stopped. rewrite select_unpinned_spec by done. destruct (by_id r !! id); naive_solver. }
  assert (NoDup ids) as Hnd.
  { unfold ids, select_unpinned_cluster_forwards. do 2 apply NoDup_fmap_filter.
    rewrite <- !list_fmap_compose.
    rewrite (list_fmap_ext _ fst (map_to_list (by_id r))); [apply NoDup_fst_map_to_list|].
    intros i [id h] Hx%list_elem_of_lookup_2%elem_of_map_to_list. simpl. by apply Hid. }
  pose proof (stop_forwards_spec ids r 0 Hnd) as H. destruct (foldl stop_forward (r, 0) ids) as [r' n].
  destruct H as (Hb & Hp & Hs & Hn).
  { intros id Hin%Hids. unfold stopped in Hin. by destruct (by_id r !! id). }
  split_and!.
  - intros id. change (by_id r' !! id = if stopped id then None else by_id r !! id).
    rewrite Hb. destruct (decide (id ∈ ids)) as [Hin|Hin]; rewrite Hids in Hin.
    + by rewrite Hin.
    + by apply not_true_is_false in Hin as ->.
  - intros id. change (pin_overrides r' !! id = if stopped id then None else pin_overrides r !! id).
    rewrite Hp. destruct (decide (id ∈ ids)) as [Hin|Hin]; rewrite Hids in Hin.
    + by rewrite Hin.
    + by apply not_true_is_false in Hin as ->.
  - exists ids. by split_and!.
Qed.

(** ** A connect in flight when its cluster is removed *)

Definition demo_id : str := lit "prod".

Definition joined_app : AppState := (flight_join demo_id init).2.

Definition waiting_sys : Sys :=
  Build_Sys joined_app (<[0 := (demo_id, Waiting 0)]> (<[0 := (demo_id, Joining)]>
    (<[0 := (demo_id, Looking)]> ∅))).

Definition connecting_sys : Sys :=
  Build_Sys joined_app (<[0 := (demo_id, Connecting 0)]> (callers waiting_sys)).

Lemma waiting_reachable : rtc any_step sys_init waiting_sys.
Proof.
  eapply rtc_l; [eexists; apply (step_call 0 demo_id); reflexivity|].
  eapply rtc_l; [eexists; eapply (step_miss 0 demo_id); reflexivity|].
  eapply rtc_l; [eexists; eapply (step_join 0 demo_id); reflexivity|apply rtc_refl].
Qed.

Lemma waiting_alone c' id' pc : callers waiting_sys !! c' = Some (id', pc) → computing pc ≠ Some 0.
Proof.
  intros H. unfold waiting_sys in H. simpl in H. apply lookup_insert_Some in H as [[<- [= <- <-]]|[Hne H]]; [done|].
  by rewrite !lookup_insert_ne, lookup_empty in H by done.
Qed.

Lemma connecting_reachable : rtc any_step sys_init connecting_sys.
Proof.
  eapply rtc_r; [apply waiting_reachable|]. eexists. eapply (step_begin 0 demo_id 0); try reflexivity.
  apply waiting_alone.
Qed.

Definition after_remove : AppState := (remove_cluster demo_id joined_app).2.

Lemma removed_stays_removed_witness :
  is_cancelled after_remove 0 = true
  ∧ get_existing demo_id (cache_lazy demo_id 0 after_remove).2 = None.
Proof.
  split; [vm_compute; reflexivity|].
  apply (removed_stays_removed connecting_sys
           (Build_Sys (cache_lazy demo_id 0 after_remove).2
              (<[0 := (demo_id, Cached 0 (cache_lazy demo_id 0 after_remove).1)]> (callers connecting_sys))) demo_id
           connecting_reachable).
  eapply rtc_l; [|apply rtc_refl]. exists None. split; [discriminate|].
  apply (step_cache 0 demo_id 0); [reflexivity|]. apply surjective_pairing.
Defined.

Lemma single_flight_witness :
  ∃ pc, pc ≠ Waiting 0
        ∧ step None waiting_sys (Build_Sys (app waiting_sys) (<[0 := (demo_id, pc)]> (callers waiting_sys))).
Proof.
  destruct (single_flight waiting_sys waiting_reachable) as (_ & _ & H & _).
  apply (H 0 demo_id 0); [reflexivity|exact waiting_alone].
Defined.

Lemma insert_connected_spec_witness :
  get_existing demo_id (insert_connected demo_id joined_app).2 = Some 0.
Proof.
  pose proof (insert_connected_spec connecting_sys demo_id connecting_reachable) as H.
  cbn [app connecting_sys] in H. destruct (insert_connected demo_id joined_app) as [[e d] a'] eqn:E.
  destruct H as [H _]. apply (f_equal (fst ∘ fst)) in E. cbn [fst snd compose]. rewrite H. f_equal.
  exact (eq_sym E).
Defined.

Definition demo_forwards : PortForwardRegistry :=
  {| by_id := {[ lit "a" := {| spec_id := "a"; spec_cluster_id := demo_id; autostart := false |};
                 lit "b" := {| spec_id := "b"; spec_cluster_id := demo_id; autostart := true |};
                 lit "c" := {| spec_id := "c"; spec_cluster_id := "dev"; autostart := false |} ]};
     pin_overrides := {[ lit "a" := false ]}; status_sent := [] |}.

Lemma stop_cluster_forwards_exact_witness :
  by_id (stop_cluster_forwards demo_forwards demo_id).1 !! lit "a" = None
  ∧ is_Some (by_id (stop_cluster_forwards demo_forwards demo_id).1 !! lit "b").
Proof.
  assert (∀ id h, by_id demo_forwards !! id = Some h → spec_id h = id) as Hid
    by (apply (map_Forall_lookup (λ id h, spec_id h = id)); decided).
  pose proof (stop_cluster_forwards_exact demo_forwards demo_id Hid) as H.
  destruct (stop_cluster_forwards demo_forwards demo_id) as [r' n]. destruct H as [H _]. simpl. split.
  - rewrite H. reflexivity.
  - rewrite H. eexists. vm_compute. reflexivity.
Defined.
