(* ===== verification/Utf8.v ===== *)
(** * UTF-8

    [String::from_utf8] and what [read_to_string] and [write_all] do with text: the
    encoding is [Prelude.str_bytes]; the decoder accepts exactly the encodings of
    Unicode scalar values.  Files that are cut inside a character do not decode
    ([utf8_torn]). *)

From S2P Require Import Prelude.

#[local] Ltac Zify.zify_post_hook ::= Z.to_euclidean_division_equations.

(** A [char]: a code point that is not a surrogate. *)
Definition scalar (c : char) : bool := (c <? 55296)%N || ((57344 <=? c) && (c <? 1114112))%N.

Definition valid_char (c : char) (bs : list N) : bool := scalar c && bool_decide (char_bytes c = bs).

Fixpoint utf8_decode (l : list N) : option str :=
  match l with
  | [] => Some []
  | b0 :: l1 =>
      if valid_char b0 [b0] then cons b0 <$> utf8_decode l1
      else match l1 with
      | [] => None
      | b1 :: l2 =>
          let c := ((b0 - 192) * 64 + (b1 - 128))%N in
          if valid_char c [b0; b1] then cons c <$> utf8_decode l2
          else match l2 with
          | [] => None
          | b2 :: l3 =>
              let c := ((b0 - 224) * 4096 + (b1 - 128) * 64 + (b2 - 128))%N in
              if valid_char c [b0; b1; b2] then cons c <$> utf8_decode l3
              else match l3 with
              | [] => None
              | b3 :: l4 =>
                  let c := ((b0 - 240) * 262144 + (b1 - 128) * 4096 + (b2 - 128) * 64 + (b3 - 128))%N in
                  if valid_char c [b0; b1; b2; b3] then cons c <$> utf8_decode l4 else None
              end
          end
      end
  end.

Definition is_cont (b : N) : bool := ((128 <=? b) && (b <? 192))%N.

Definition lead_length (b : N) : nat :=
  if (b <? 128)%N then 1 else if (b <? 224)%N then 2 else if (b <? 240)%N then 3 else 4.

#[global] Arguments char_bytes : simpl never.
#[global] Arguments valid_char : simpl never.

Lemma valid_char_true (c : char) (bs : list N) :
  valid_char c bs = true ↔ scalar c = true ∧ char_bytes c = bs.
Proof. unfold valid_char. rewrite andb_true_iff, bool_decide_eq_true. done. Qed.

Lemma valid_char_length (c : char) (bs : list N) :
  length (char_bytes c) ≠ length bs → valid_char c bs = false.
Proof. intros H. destruct (valid_char c bs) eqn:E; [|done]. apply valid_char_true in E as [_ <-]. done. Qed.

(** The first byte says how many follow, and the others are continuation bytes. *)
Lemma char_bytes_shape (c : char) :
  scalar c = true →
  ∃ b0 tl, char_bytes c = b0 :: tl ∧ is_cont b0 = false ∧ Forall (λ b, is_cont b = true) tl
    ∧ lead_length b0 = S (length tl).
Proof.
  intros H. assert (c < 1114112)%N as Hc by (unfold scalar in H; bool_to_prop; destruct H; bool_to_prop; lia).
  clear H. unfold char_bytes, is_cont, lead_length.
  destruct (N.ltb_spec c 128); [|destruct (N.ltb_spec c 2048); [|destruct (N.ltb_spec c 65536)]];
    eexists _, _; (split; [done|]); split_and!; try (forall_list);
    rewrite ?andb_true_iff, ?andb_false_iff, ?N.leb_le, ?N.ltb_lt, ?N.leb_gt, ?N.ltb_ge; try lia;
    repeat match goal with |- context [(?a <? ?b)%N] => destruct (N.ltb_spec a b) end; simpl; lia.
Qed.

Lemma char_bytes_inv1 (c : char) b0 : char_bytes c = [b0] → b0 = c.
Proof. unfold char_bytes. repeat case_match; intros; simplify_eq; done. Qed.

Lemma char_bytes_inv2 (c : char) b0 b1 :
  char_bytes c = [b0; b1] → ((b0 - 192) * 64 + (b1 - 128))%N = c.
Proof. unfold char_bytes. repeat case_match; intros; simplify_eq; lia. Qed.

Lemma char_bytes_inv3 (c : char) b0 b1 b2 :
  char_bytes c = [b0; b1; b2] → ((b0 - 224) * 4096 + (b1 - 128) * 64 + (b2 - 128))%N = c.
Proof. unfold char_bytes. repeat case_match; intros; simplify_eq; lia. Qed.

Lemma char_bytes_inv4 (c : char) b0 b1 b2 b3 :
  char_bytes c = [b0; b1; b2; b3] →
  ((b0 - 240) * 262144 + (b1 - 128) * 4096 + (b2 - 128) * 64 + (b3 - 128))%N = c.
Proof. unfold char_bytes. repeat case_match; intros; simplify_eq; lia. Qed.

(** A shorter group that starts with the same byte encodes nothing. *)
Lemma valid_char_lead (c' : char) (b0 : N) (bs : list N) :
  lead_length b0 ≠ S (length bs) → valid_char c' (b0 :: bs) = false.
Proof.
  intros Hl. destruct (valid_char c' (b0 :: bs)) eqn:E; [|done]. apply valid_char_true in E as [Hs E].
  destruct (char_bytes_shape c' Hs) as (x & tl & E' & _ & _ & Hx). rewrite E in E'. by simplify_eq.
Qed.

Lemma utf8_decode_char (c : char) (l : list N) :
  scalar c = true → utf8_decode (char_bytes c ++ l) = cons c <$> utf8_decode l.
Proof.
  intros Hc. destruct (char_bytes_shape c Hc) as (b0 & tl & E & _ & _ & Hl).
  assert (valid_char c (char_bytes c) = true) as Hv by by apply valid_char_true.
  rewrite E in *. destruct tl as [|b1 [|b2 [|b3 [|? tl]]]]; cbn [utf8_decode app];
    rewrite ?(valid_char_lead _ b0 []), ?(valid_char_lead _ b0 [b1]), ?(valid_char_lead _ b0 [b1; b2])
      by (rewrite Hl; simpl; lia); cbv zeta.
  - rewrite (char_bytes_inv1 _ _ E) in *. by rewrite Hv.
  - rewrite (char_bytes_inv2 _ _ _ E). by rewrite Hv.
  - rewrite (char_bytes_inv3 _ _ _ _ E). by rewrite Hv.
  - rewrite (char_bytes_inv4 _ _ _ _ _ E). by rewrite Hv.
  - exfalso. revert Hl. unfold lead_length. simpl. repeat case_match; lia.
Qed.

Lemma str_bytes_cons (c : char) (s : str) : str_bytes (c :: s) = char_bytes c ++ str_bytes s.
Proof. done. Qed.

Lemma utf8_decode_app (s : str) (l : list N) :
  Forall (λ c, scalar c = true) s → utf8_decode (str_bytes s ++ l) = app s <$> utf8_decode l.
Proof.
  induction 1 as [|c s Hc _ IH]; [simpl; by destruct (utf8_decode l)|].
  rewrite str_bytes_cons, <- (assoc_L (++)), utf8_decode_char, IH by done.
  by destruct (utf8_decode l).
Qed.

Lemma utf8_round_trip (s : str) :
  Forall (λ c, scalar c = true) s → utf8_decode (str_bytes s) = Some s.
Proof. intros H. rewrite <- (app_nil_r (str_bytes s)), utf8_decode_app by done. simpl. by rewrite app_nil_r. Qed.

(** A sequence that decodes and is not empty starts with the bytes of a character. *)
Lemma utf8_decode_head (b0 : N) (l : list N) :
  is_Some (utf8_decode (b0 :: l)) →
  ∃ c l', scalar c = true ∧ b0 :: l = char_bytes c ++ l'.
Proof.
  cbn [utf8_decode]. intros H.
  destruct (valid_char b0 [b0]) eqn:E1; [apply valid_char_true in E1 as [? E]; by exists b0, l; rewrite E|].
  destruct l as [|b1 l]; [by destruct H|]. cbv zeta in H.
  destruct (valid_char _ [b0; b1]) eqn:E2; [apply valid_char_true in E2 as [? E]; eexists _, l; split; [done|by rewrite E]|].
  destruct l as [|b2 l]; [by destruct H|].
  destruct (valid_char _ [b0; b1; b2]) eqn:E3; [apply valid_char_true in E3 as [? E]; eexists _, l; split; [done|by rewrite E]|].
  destruct l as [|b3 l]; [by destruct H|].
  destruct (valid_char _ [b0; b1; b2; b3]) eqn:E4; [|by destruct H].
  apply valid_char_true in E4 as [? E]; eexists _, l; split; [done|by rewrite E].
Qed.

(** Cut inside a character, and whatever text follows: it does not decode. *)
Lemma utf8_torn (s t : str) (c : char) (k : nat) :
  Forall (λ c, scalar c = true) s → Forall (λ c, scalar c = true) t → scalar c = true →
  0 < k < length (char_bytes c) →
  utf8_decode (str_bytes s ++ take k (char_bytes c) ++ str_bytes t) = None.
Proof.
  intros Hs Ht Hc Hk. rewrite utf8_decode_app by done.
  destruct (char_bytes_shape c Hc) as (b0 & tl & E & Hb0 & Htl & Hl). rewrite E in *.
  destruct k as [|k]; [lia|]. simpl in Hk.
  change (take (S k) (b0 :: tl) ++ str_bytes t) with (b0 :: take k tl ++ str_bytes t).
  destruct (utf8_decode (b0 :: take k tl ++ str_bytes t)) as [u|] eqn:Eu; [exfalso|done].
  destruct (utf8_decode_head b0 (take k tl ++ str_bytes t)) as (c' & l' & Hc' & E'); [by rewrite Eu|].
  destruct (char_bytes_shape c' Hc') as (b0' & tl' & Ec' & _ & Htl' & Hl').
  rewrite Ec' in E'. simpl in E'. injection E' as <- E'.
  assert (length tl' = length tl) as Elen by lia.
  assert ((take k tl ++ str_bytes t) !! k = tl' !! k) as Hlk by (rewrite E'; apply lookup_app_l; lia).
  rewrite lookup_app_r in Hlk by (rewrite length_take; lia).
  rewrite length_take, Nat.min_l, Nat.sub_diag in Hlk by lia.
  destruct (tl' !! k) as [x|] eqn:Ex; [|apply lookup_ge_None_1 in Ex; lia].
  rewrite Forall_lookup in Htl'. specialize (Htl' _ _ Ex).
  destruct t as [|d t]; [done|]. apply Forall_cons in Ht as [Hd _].
  destruct (char_bytes_shape d Hd) as (y & tl'' & Ed & Hy & _).
  rewrite str_bytes_cons, Ed in Hlk. simpl in Hlk. simplify_eq. congruence.
Qed.
