(* ===== verification/Json.v ===== *)
(** * JSON values

    [serde_json::Value] as far as the code looks into it.  A number is its text
    ([Number]'s [Display]); an object lists its entries in the order of their keys, each
    key once: serde_json is built with its [BTreeMap]. *)

From stdpp Require Import sorting.

From S2P Require Import Prelude.

Unset Elimination Schemes.

Inductive Json : Set :=
  | Null
  | Bool (b : bool)
  | Number (text : str)
  | String_ (s : str)
  | Array (l : list Json)
  | Object (m : list (str * Json)).

Set Elimination Schemes.

#[global] Instance Json_eq_dec : EqDecision Json.
Proof.
  refine (fix go v w := let _ : EqDecision Json := go in
    match v, w with
    | Null, Null => left eq_refl
    | Bool b, Bool c => cast_if (decide (b = c))
    | Number s, Number t | String_ s, String_ t => cast_if (decide (s = t))
    | Array l, Array k => cast_if (decide (l = k))
    | Object l, Object k => cast_if (decide (l = k))
    | _, _ => right _
    end); congruence.
Defined.

Definition Map : Set := list (str * Json).

(** [Map::get] *)
Fixpoint map_get (k : str) (m : Map) : option Json :=
  match m with
  | [] => None
  | p :: m => if decide (p.1 = k) then Some p.2 else map_get k m
  end.

(** [Map::insert]: in place of the old value, or before the first greater key. *)
Fixpoint map_insert (k : str) (v : Json) (m : Map) : Map :=
  match m with
  | [] => [(k, v)]
  | p :: m =>
      if decide (p.1 = k) then (k, v) :: m
      else if str_leb k p.1 then (k, v) :: p :: m
      else p :: map_insert k v m
  end.

(** [Map::remove] *)
Fixpoint map_remove (k : str) (m : Map) : Map :=
  match m with
  | [] => []
  | p :: m => if decide (p.1 = k) then map_remove k m else p :: map_remove k m
  end.

(** [Value::get] with a name, [as_str], [as_array] *)
Definition get (k : string) (v : Json) : option Json :=
  match v with Object m => map_get (lit k) m | _ => None end.

Definition as_str (v : Json) : option str := match v with String_ s => Some s | _ => None end.

Definition as_array (v : Json) : option (list Json) := match v with Array l => Some l | _ => None end.

Definition as_bool (v : Json) : option bool := match v with Bool b => Some b | _ => None end.

Definition u64_last : N := 18446744073709551615.

(** [Value::as_u64] *)
Definition as_u64 (v : Json) : option N :=
  match v with Number t => parse_uint u64_last t | _ => None end.

(** [json!] of an object. *)
Definition obj (l : list (string * Json)) : Json :=
  Object (foldl (λ m p, map_insert (lit p.1) p.2 m) [] l).

Definition bool_str (b : bool) : str := if b then lit "true" else lit "false".

Lemma map_get_insert (k k' : str) (v : Json) (m : Map) :
  map_get k' (map_insert k v m) = if decide (k = k') then Some v else map_get k' m.
Proof.
  induction m as [|p m IH]; simpl; [done|].
  destruct (decide (p.1 = k)) as [<-|Hne]; simpl; [by case_decide|].
  destruct (str_leb k p.1); simpl; [repeat case_decide; congruence|].
  rewrite IH. repeat case_decide; congruence.
Qed.

Lemma map_get_None (k : str) (m : Map) : map_get k m = None ↔ k ∉ m.*1.
Proof.
  induction m as [|p m IH]; [by split; [intros _; apply not_elem_of_nil|]|].
  simpl. rewrite not_elem_of_cons, <- IH. case_decide; naive_solver.
Qed.

Lemma map_insert_keys (k : str) (v : Json) (m : Map) x :
  x ∈ (map_insert k v m).*1 ↔ x = k ∨ x ∈ m.*1.
Proof.
  induction m as [|p m IH]; simpl; [by rewrite list_elem_of_singleton, elem_of_nil; tauto|].
  case_decide; [|destruct (str_leb k p.1)]; simpl; rewrite !elem_of_cons, ?IH; naive_solver.
Qed.

Definition key_lt (a b : str) : Prop := str_leb b a = false.

(** The keys of an object are in order. *)
Definition keys_sorted (m : Map) : Prop := StronglySorted key_lt m.*1.

Lemma key_lt_leb (a b : str) : str_leb a b = true → a ≠ b → key_lt a b.
Proof.
  intros H Hne. unfold key_lt. destruct (str_leb b a) eqn:E; [|done]. destruct Hne. by apply str_leb_antisym.
Qed.

Lemma keys_sorted_NoDup (m : Map) : keys_sorted m → NoDup m.*1.
Proof.
  unfold keys_sorted. induction 1 as [|k l _ IH Hk]; constructor; [|done].
  intros Hin. rewrite Forall_forall in Hk. specialize (Hk k Hin). unfold key_lt in Hk. by rewrite str_leb_refl in Hk.
Qed.

Lemma map_insert_sorted (k : str) (v : Json) (m : Map) : keys_sorted m → keys_sorted (map_insert k v m).
Proof.
  unfold keys_sorted. induction m as [|p m IH]; simpl; intros Hm; [by repeat constructor|].
  inversion Hm as [|? ? Hs Hp]; subst. case_decide as E; simpl; [subst; by constructor|].
  destruct (str_leb k p.1) eqn:Hk; simpl.
  - constructor; [done|]. constructor; [by apply key_lt_leb, not_eq_sym|]. eapply Forall_impl; [exact Hp|].
    intros x Hx. unfold key_lt in *. destruct (str_leb x k) eqn:Hxk; [|done].
    by rewrite (str_leb_trans x k p.1) in Hx.
  - constructor; [by apply IH|]. apply Forall_forall. intros x [->|Hx]%map_insert_keys; [done|].
    rewrite Forall_forall in Hp. by apply Hp.
Qed.

Lemma map_get_remove (k k' : str) (m : Map) :
  map_get k' (map_remove k m) = if decide (k = k') then None else map_get k' m.
Proof.
  induction m as [|p m IH]; simpl; [by case_decide|].
  destruct (decide (p.1 = k)) as [<-|Hne]; simpl; rewrite IH; repeat case_decide; congruence.
Qed.

(** Induction through the parts of a value. *)
Lemma json_ind (P : Json → Prop) :
  P Null → (∀ b, P (Bool b)) → (∀ t, P (Number t)) → (∀ s, P (String_ s)) →
  (∀ l, Forall P l → P (Array l)) → (∀ m, Forall (λ p, P p.2) m → P (Object m)) → ∀ v, P v.
Proof.
  intros Hn Hb Hu Hs Ha Ho. fix IH 1. intros [|b|t|s|l|m]; [done|apply Hb|apply Hu|apply Hs|apply Ha|apply Ho].
  - induction l as [|v l IHl]; constructor; [apply IH|exact IHl].
  - induction m as [|p m IHm]; constructor; [apply IH|exact IHm].
Qed.

Lemma map_insert_Forall (P : str * Json → Prop) (k : str) (v : Json) (m : Map) :
  P (k, v) → Forall P m → Forall P (map_insert k v m).
Proof.
  intros Hv. induction 1 as [|p m Hp Hm IH]; simpl; [by repeat constructor|].
  case_decide; [by constructor|]. destruct (str_leb k p.1); by repeat constructor.
Qed.

Lemma map_remove_Forall (P : str * Json → Prop) (k : str) (m : Map) : Forall P m → Forall P (map_remove k m).
Proof. induction 1 as [|p m Hp Hm IH]; simpl; [done|]. case_decide; [done|by constructor]. Qed.

Lemma map_get_Forall (P : str * Json → Prop) (k : str) (v : Json) (m : Map) : Forall P m → map_get k m = Some v → P (k, v).
Proof. induction 1 as [|[k' w] m Hp Hm IH]; simpl; [done|]. case_decide as E; [|done]. intros [= <-]. simpl in E. by subst. Qed.
