(* ===== verification/Transcript.v ===== *)
(** * The transcript of a chat

    The messages of a chat (agent/src/types.rs), the repair of tool calls and their
    results (repair_tool_pairs of app/src/agent/compaction.rs) and the functions of
    app/src/agent/turn.rs that place and fold messages the operator queued.

    A [Vec] is a list; [insert] past the end panics, which [Fault] records.  The
    [while] loop of the repair takes fuel, one step per message, which
    [repair_tool_pairs_total] shows to be enough. *)

From S2P Require Import Prelude Json.

(** ** agent/src/types.rs *)

Inductive MessageRole : Set := System | User | Assistant | Tool.

#[global] Instance MessageRole_eq_dec : EqDecision MessageRole.
Proof. solve_decision. Defined.

Record ImageAttachment : Set := { mime : str; data : str }.

Record ToolCall : Set := {
  tc_id : str;
  tc_name : str;
  arguments : str;
  thought_signature : option str;
}.

Record ChatMessage : Set := {
  role : MessageRole;
  content : str;
  tool_calls : list ToolCall;
  tool_call_id : option str;
  msg_name : option str;
  reasoning_content : option str;
  thinking_blocks : list Json;
  images : list ImageAttachment;
}.

#[global] Instance ImageAttachment_eq_dec : EqDecision ImageAttachment.
Proof. solve_decision. Defined.

#[global] Instance ToolCall_eq_dec : EqDecision ToolCall.
Proof. solve_decision. Defined.

#[global] Instance ChatMessage_eq_dec : EqDecision ChatMessage.
Proof. solve_decision. Defined.

(** [ChatMessage::default()] with a role and a content. *)
Definition plain (r : MessageRole) (c : str) : ChatMessage :=
  {| role := r; content := c; tool_calls := []; tool_call_id := None; msg_name := None;
     reasoning_content := None; thinking_blocks := []; images := [] |}.

(** ** repair_tool_pairs *)

Inductive Fault : Set := Panic | OutOfFuel.

Definition is_tool (m : ChatMessage) : bool := bool_decide (role m = Tool).

Definition is_call (m : ChatMessage) : bool :=
  bool_decide (role m = Assistant) && negb (bool_decide (tool_calls m = [])).

Definition answers_id (id : str) (m : ChatMessage) : Prop :=
  role m = Tool ∧ tool_call_id m = Some id.

#[global] Instance answers_id_dec (id : str) (m : ChatMessage) : Decision (answers_id id m).
Proof. unfold answers_id. apply _. Defined.

(** The [Tool] messages a list starts with. *)
Fixpoint tool_run (l : list ChatMessage) : list ChatMessage :=
  match l with
  | [] => []
  | m :: l' => if is_tool m then m :: tool_run l' else []
  end.

Definition interrupted (tc : ToolCall) : ChatMessage :=
  {| role := Tool;
     content := lit "[tool execution interrupted: `" ++ tc_name tc
                  ++ lit "` produced no result on the previous turn]";
     tool_calls := [];
     tool_call_id := Some (tc_id tc);
     msg_name := Some (tc_name tc);
     reasoning_content := None; thinking_blocks := []; images := [] |}.

(** [Vec::insert] *)
Definition vec_insert {A} (i : nat) (x : A) (l : list A) : option (list A) :=
  if decide (i ≤ length l) then Some (take i l ++ x :: drop i l) else None.

(** One call of the inner loop; the state is the transcript, [insert_at] and [fixed]. *)
Definition repair_call (run_end : nat) (answered : list str)
    (st : list ChatMessage * nat * nat) (tc : ToolCall) :
    result (list ChatMessage * nat * nat) Fault :=
  let '(messages, insert_at, fixed) := st in
  if decide (tc_id tc ∈ answered) then Ok st
  else
    let '(res, messages) :=
      match list_find (answers_id (tc_id tc)) (drop run_end messages) with
      | Some (k, m) => (m, delete (run_end + k) messages)
      | None => (interrupted tc, messages)
      end in
    match vec_insert insert_at res messages with
    | Some messages => Ok (messages, S insert_at, S fixed)
    | None => Err Panic
    end.

Fixpoint repair_calls (run_end : nat) (answered : list str)
    (st : list ChatMessage * nat * nat) (calls : list ToolCall) :
    result (list ChatMessage * nat * nat) Fault :=
  match calls with
  | [] => Ok st
  | tc :: calls => st <-? repair_call run_end answered st tc; repair_calls run_end answered st calls
  end.

(** The [while i < messages.len()] loop. *)
Fixpoint repair_loop (fuel i : nat) (messages : list ChatMessage) (fixed : nat) :
    result (list ChatMessage * nat) Fault :=
  match fuel with
  | 0 => Err OutOfFuel
  | S fuel =>
      match messages !! i with
      | None => Ok (messages, fixed)
      | Some m =>
          if is_call m then
            let run := tool_run (drop (S i) messages) in
            let run_end := S i + length run in
            '(messages, insert_at, fixed) <-?
              repair_calls run_end (omap tool_call_id run) (messages, run_end, fixed) (tool_calls m);
            repair_loop fuel (insert_at `max` S i) messages fixed
          else repair_loop fuel (S i) messages fixed
      end
  end.

(** The [retain] pass. *)
Fixpoint retain_answers (allowed : list str) (messages : list ChatMessage) : list ChatMessage :=
  match messages with
  | [] => []
  | m :: l =>
      match role m with
      | Assistant => m :: retain_answers (tc_id <$> tool_calls m) l
      | Tool =>
          match tool_call_id m with
          | Some id => if decide (id ∈ allowed) then m :: retain_answers allowed l
                       else retain_answers allowed l
          | None => retain_answers allowed l
          end
      | _ => m :: retain_answers [] l
      end
  end.

Definition repair_tool_pairs (messages : list ChatMessage) : result (list ChatMessage * nat) Fault :=
  '(messages, fixed) <-? repair_loop (S (length messages)) 0 messages 0;
  let kept := retain_answers [] messages in
  Ok (kept, fixed + (length messages - length kept)).

(** ** Queued user messages (app/src/agent/turn.rs) *)

Definition user_queued_during_round (messages : list ChatMessage) (pre_round_count : nat) : bool :=
  bool_decide (pre_round_count < length messages)
  && bool_decide (role <$> last messages = Some User).

(** The [while] of trailing_user_run_start, [i] counted down. *)
Fixpoint user_run_back (messages : list ChatMessage) (i : nat) : nat :=
  match i with
  | 0 => 0
  | S i' => if decide (role <$> messages !! i' = Some User) then user_run_back messages i' else i
  end.

Definition trailing_user_run_start (messages : list ChatMessage) : option nat :=
  let i := user_run_back messages (length messages) in
  if decide (i = length messages) then None else Some i.

Definition merge_trailing_user_run (messages : list ChatMessage) : list ChatMessage :=
  match trailing_user_run_start messages with
  | None => messages
  | Some start =>
      if decide (length messages ≤ start + 1) then messages
      else take start messages
           ++ [plain User (join [LF; LF] (content <$> drop start messages))]
  end.

(** The placement of the final assistant message before the queued ones. *)
Definition place_final (messages : list ChatMessage) (m : ChatMessage) : option (list ChatMessage) :=
  vec_insert (default (length messages) (trailing_user_run_start messages)) m messages.

(** ** What a provider accepts

    Every call of an assistant message is answered in the run of [Tool] messages that
    follows it, and a [Tool] message answers a call of the message its run follows. *)

Fixpoint paired_from (allowed : list str) (l : list ChatMessage) : Prop :=
  match l with
  | [] => True
  | m :: l =>
      match role m with
      | Assistant =>
          Forall (λ tc, tc_id tc ∈ omap tool_call_id (tool_run l)) (tool_calls m)
          ∧ paired_from (tc_id <$> tool_calls m) l
      | Tool => (∃ id, tool_call_id m = Some id ∧ id ∈ allowed) ∧ paired_from allowed l
      | _ => paired_from [] l
      end
  end.

Definition well_paired : list ChatMessage → Prop := paired_from [].

Definition call_ids (m : ChatMessage) : list str :=
  match role m with Assistant => tc_id <$> tool_calls m | _ => [] end.

(** No message calls twice under one id. *)
Definition ids_distinct (l : list ChatMessage) : Prop := Forall (λ m, NoDup (call_ids m)) l.

(** ** The repair, group by group *)

Definition pull_call (answered : list str) (st : list ChatMessage * list ChatMessage)
    (tc : ToolCall) : list ChatMessage * list ChatMessage :=
  if decide (tc_id tc ∈ answered) then st
  else match list_find (answers_id (tc_id tc)) st.2 with
       | Some (k, m) => (st.1 ++ [m], delete k st.2)
       | None => (st.1 ++ [interrupted tc], st.2)
       end.

#[global] Arguments repair_call : simpl never.
#[global] Arguments pull_call : simpl never.

Definition pull_calls (answered : list str) (calls : list ToolCall) (l : list ChatMessage) :=
  foldl (pull_call answered) ([], l) calls.

Inductive repaired : list ChatMessage → list ChatMessage → nat → Prop :=
  | Repaired_nil : repaired [] [] 0
  | Repaired_skip m l out n : is_call m = false → repaired l out n → repaired (m :: l) (m :: out) n
  | Repaired_call m run l ins l' out n :
      is_call m = true → tool_run (run ++ l) = run →
      pull_calls (omap tool_call_id run) (tool_calls m) l = (ins, l') →
      repaired l' out n →
      repaired (m :: run ++ l) (m :: run ++ ins ++ out) (length ins + n).

Lemma tool_run_split (l : list ChatMessage) : ∃ run rest, l = run ++ rest ∧ tool_run (run ++ rest) = run.
Proof.
  induction l as [|m l (run & rest & -> & E)]; [by exists [], []|].
  destruct (is_tool m) eqn:Em; [exists (m :: run), rest|exists [], (m :: run ++ rest)];
    (split; [done|]); simpl; rewrite Em; congruence.
Qed.

Lemma tool_run_Forall (l : list ChatMessage) : Forall (λ m, role m = Tool) (tool_run l).
Proof.
  induction l as [|m l IH]; simpl; [done|].
  destruct (is_tool m) eqn:E; constructor; [by apply bool_decide_eq_true in E|done].
Qed.

Lemma tool_run_app (k l : list ChatMessage) :
  Forall (λ m, role m = Tool) k → tool_run (k ++ l) = k ++ tool_run l.
Proof.
  induction 1 as [|m k Hm _ IH]; simpl; [done|]. unfold is_tool.
  by rewrite bool_decide_eq_true_2, IH.
Qed.

Lemma tool_run_idemp (l : list ChatMessage) : tool_run (tool_run l) = tool_run l.
Proof. pose proof (tool_run_app _ [] (tool_run_Forall l)) as E. by rewrite !app_nil_r in E. Qed.

Lemma pull_call_fst (answered : list str) st tc :
  ∃ ins, (pull_call answered st tc).1 = st.1 ++ ins ∧
    Forall (λ m, answers_id (tc_id tc) m) ins.
Proof.
  unfold pull_call. case_decide; [by exists []; rewrite app_nil_r|].
  destruct (list_find _ _) as [[k m]|] eqn:E; simpl; eexists; (split; [done|]); constructor; try done.
  by apply list_find_Some in E as (_ & ? & _).
Qed.

(** What a pull leaves behind, and what it takes. *)
Lemma pull_call_rest (answered : list str) st tc (P : ChatMessage → Prop) `{!∀ m, Decision (P m)} :
  (∀ m, answers_id (tc_id tc) m → ¬ P m) →
  filter P (pull_call answered st tc).2 = filter P st.2.
Proof.
  intros HP. unfold pull_call. case_decide; [done|].
  destruct (list_find _ _) as [[k m]|] eqn:E; simpl; [|done].
  apply list_find_Some in E as (Hk & Hm & _).
  rewrite <- (take_drop_middle _ _ _ Hk) at 2. rewrite delete_take_drop, !filter_app.
  by rewrite filter_cons_False by auto.
Qed.

Lemma pull_calls_rest (answered : list str) calls st (P : ChatMessage → Prop) `{!∀ m, Decision (P m)} :
  (∀ m tc, tc ∈ calls → answers_id (tc_id tc) m → ¬ P m) →
  filter P (foldl (pull_call answered) st calls).2 = filter P st.2.
Proof.
  revert st. induction calls as [|tc calls IH]; intros st HP; simpl; [done|].
  rewrite IH by (intros; eapply HP; [by right|done]).
  apply pull_call_rest. intros; eapply HP; [by left|done].
Qed.

Lemma pull_calls_sublist (answered : list str) calls st :
  (foldl (pull_call answered) st calls).2 `sublist_of` st.2.
Proof.
  revert st. induction calls as [|tc calls IH]; intros st; simpl; [done|].
  etransitivity; [apply IH|]. unfold pull_call. case_decide; [done|].
  destruct (list_find _ _) as [[k m]|]; [|done]. apply sublist_delete.
Qed.

Lemma vec_insert_app {A} (l k : list A) (x : A) :
  vec_insert (length l) x (l ++ k) = Some (l ++ x :: k).
Proof.
  unfold vec_insert. rewrite decide_True by (rewrite length_app; lia).
  by rewrite take_app_length, drop_app_length.
Qed.

Lemma delete_app_plus {A} (l k : list A) (i : nat) : delete (length l + i) (l ++ k) = l ++ delete i k.
Proof. induction l as [|x l IH]; simpl; [done|]. by f_equal. Qed.

(** One iteration of the inner loop is a pull, as long as what is inserted does not
    answer the call. *)
Lemma repair_call_pull (pre ins l : list ChatMessage) (answered : list str) tc fixed :
  Forall (λ m, ¬ answers_id (tc_id tc) m) ins →
  repair_call (length pre) answered (pre ++ ins ++ l, length pre + length ins, fixed) tc
  = let '(ins', l') := pull_call answered (ins, l) tc in
    Ok (pre ++ ins' ++ l', length pre + length ins', fixed + (length ins' - length ins)).
Proof.
  intros Hins. unfold repair_call, pull_call. simpl.
  destruct (decide (tc_id tc ∈ answered)); [by rewrite Nat.sub_diag, Nat.add_0_r|].
  rewrite drop_app_length, list_find_app_r by by apply list_find_None.
  assert (∀ m l, vec_insert (length pre + length ins) m (pre ++ ins ++ l)
    = Some (pre ++ (ins ++ [m]) ++ l)) as Hv.
  { intros m k. rewrite !(assoc_L (++)), <- length_app, vec_insert_app.
    by rewrite <- !(assoc_L (++)). }
  destruct (list_find _ l) as [[k m]|]; simpl;
    [rewrite (Nat.add_comm k), delete_app_plus, delete_app_plus|];
    rewrite Hv, length_app; simpl; repeat f_equal; lia.
Qed.

Lemma answers_id_inj (a b : str) (m : ChatMessage) : answers_id a m → answers_id b m → a = b.
Proof. unfold answers_id. intros [_ E] [_ F]. congruence. Qed.

Lemma repair_calls_pull (pre ins l : list ChatMessage) (answered : list str) calls fixed :
  NoDup (tc_id <$> calls) →
  Forall (λ tc, Forall (λ m, ¬ answers_id (tc_id tc) m) ins) calls →
  repair_calls (length pre) answered (pre ++ ins ++ l, length pre + length ins, fixed) calls
  = let '(ins', l') := foldl (pull_call answered) (ins, l) calls in
    Ok (pre ++ ins' ++ l', length pre + length ins', fixed + (length ins' - length ins)).
Proof.
  revert ins l fixed. induction calls as [|tc calls IH]; intros ins l fixed Hnd Hins; simpl.
  - by rewrite Nat.sub_diag, Nat.add_0_r.
  - apply NoDup_cons in Hnd as [Htc Hnd]. apply Forall_cons in Hins as [Hi Hins].
    rewrite repair_call_pull by done.
    destruct (pull_call_fst answered (ins, l) tc) as (new & E & Hnew).
    destruct (pull_call answered (ins, l) tc) as [ins' l'] eqn:Ep. simpl in E. subst ins'. simpl.
    rewrite IH; [|done|].
    + destruct (foldl _ _ calls) as [ins'' l''] eqn:Ef. f_equal. f_equal.
      assert (length (ins ++ new) ≤ length ins'').
      { clear -Ef. revert Ef. generalize (ins ++ new). intros k. revert k l'.
        induction calls as [|tc calls IH]; intros k l' Ef; simpl in Ef; simplify_eq; [lia|].
        destruct (pull_call_fst answered (k, l') tc) as (new' & E & _).
        destruct (pull_call answered (k, l') tc) as [k' r] eqn:Ep. simpl in E. subst k'.
        apply IH in Ef. rewrite length_app in Ef. lia. }
      rewrite length_app in *. lia.
    + rewrite Forall_forall in *. intros tc' Htc'. apply Forall_app; split; [by apply Hins|].
      eapply Forall_impl; [exact Hnew|]. intros m Hm Hm'.
      apply Htc, list_elem_of_fmap. exists tc'. split; [by eapply answers_id_inj|done].
Qed.

Lemma is_call_ids (m : ChatMessage) :
  is_call m = true → role m = Assistant ∧ call_ids m = tc_id <$> tool_calls m.
Proof. unfold is_call, call_ids. intros. bool_to_prop. by rewrite H. Qed.

(** The loop ends, without a panic, and has repaired the rest of the transcript. *)
Lemma repair_loop_repaired (fuel : nat) (pre l : list ChatMessage) (fixed : nat) :
  length l < fuel → ids_distinct l →
  ∃ out n, repaired l out n ∧
    repair_loop fuel (length pre) (pre ++ l) fixed = Ok (pre ++ out, fixed + n).
Proof.
  revert pre l fixed. induction fuel as [|fuel IH]; intros pre l fixed Hf Hd; [lia|].
  destruct l as [|m l]; cbn [repair_loop].
  { rewrite app_nil_r, lookup_ge_None_2 by lia. exists [], 0. split; [constructor|].
    by rewrite Nat.add_0_r, app_nil_r. }
  rewrite list_lookup_middle by done. apply Forall_cons in Hd as [Hm Hd]. simpl in Hf.
  assert (∀ k, pre ++ m :: k = (pre ++ [m]) ++ k) as Hsnoc by (intros; by rewrite <- (assoc_L (++))).
  assert (S (length pre) = length (pre ++ [m])) as Hlen by (rewrite length_app; simpl; lia).
  destruct (is_call m) eqn:Ec.
  - destruct (tool_run_split l) as (run & rest & -> & Er). rewrite length_app in Hf.
    rewrite (Hsnoc (run ++ rest)), Hlen, drop_app_length, Er, <- length_app, (assoc_L (++)).
    destruct (is_call_ids m Ec) as [_ Eids]. rewrite Eids in Hm.
    pose proof (repair_calls_pull ((pre ++ [m]) ++ run) [] rest (omap tool_call_id run) (tool_calls m) fixed Hm) as Hp.
    simpl in Hp. rewrite Nat.add_0_r in Hp. rewrite Hp by (apply Forall_true; intros; constructor).
    fold (pull_calls (omap tool_call_id run) (tool_calls m) rest).
    pose proof (pull_calls_sublist (omap tool_call_id run) (tool_calls m) ([], rest)) as Hsub.
    fold (pull_calls (omap tool_call_id run) (tool_calls m) rest) in Hsub.
    destruct (pull_calls _ _ rest) as [ins rest'] eqn:Epull. simpl in Hsub |- *.
    destruct (IH (((pre ++ [m]) ++ run) ++ ins) rest' (fixed + (length ins - 0))) as (out & n & Hr & E).
    { apply sublist_length in Hsub. lia. }
    { eapply sublist_Forall; [exact Hsub|]. by apply Forall_app in Hd as [_ ?]. }
    exists (m :: run ++ ins ++ out), (length ins + n). split; [by econstructor|].
    rewrite Nat.max_l by (rewrite !length_app; lia).
    rewrite <- length_app, (assoc_L (++)), E. f_equal. f_equal; [|lia].
    by rewrite <- !(assoc_L (++)).
  - rewrite (Hsnoc l), Hlen. destruct (IH (pre ++ [m]) l fixed) as (out & n & Hr & E); [lia|done|].
    exists (m :: out), n. split; [by constructor|]. rewrite E. by rewrite <- (assoc_L (++)).
Qed.

(** ** The [retain] pass *)

Definition allowed_answer (allowed : list str) (m : ChatMessage) : Prop :=
  match tool_call_id m with Some id => id ∈ allowed | None => False end.

#[global] Instance allowed_answer_dec allowed m : Decision (allowed_answer allowed m).
Proof. unfold allowed_answer. destruct (tool_call_id m); apply _. Defined.

Lemma retain_answers_run (allowed : list str) (run l : list ChatMessage) :
  Forall (λ m, role m = Tool) run →
  retain_answers allowed (run ++ l) = filter (allowed_answer allowed) run ++ retain_answers allowed l.
Proof.
  induction 1 as [|m run Hm _ IH]; [done|]. simpl. rewrite Hm.
  destruct (decide (allowed_answer allowed m)) as [Ha|Ha];
    [rewrite filter_cons_True by done|rewrite filter_cons_False by done];
    unfold allowed_answer in Ha; destruct (tool_call_id m); try done;
    [rewrite decide_True by done|rewrite decide_False by done]; by rewrite IH.
Qed.

Lemma retain_answers_sublist (allowed : list str) (l : list ChatMessage) :
  retain_answers allowed l `sublist_of` l.
Proof. revert allowed. induction l as [|m l IH]; intros allowed; simpl; [done|]. repeat case_match; by constructor. Qed.

Lemma retain_answers_kept (allowed : list str) (l : list ChatMessage) :
  filter (λ m, role m ≠ Tool) (retain_answers allowed l) = filter (λ m, role m ≠ Tool) l.
Proof.
  revert allowed. induction l as [|m l IH]; intros allowed; simpl; [done|].
  destruct (role m) eqn:Er;
    [rewrite !filter_cons_True by congruence; by rewrite IH..|].
  rewrite (filter_cons_False _ m l) by (rewrite Er; tauto).
  repeat case_match; rewrite ?filter_cons_False by (rewrite Er; tauto); apply IH.
Qed.

Lemma paired_from_run (allowed : list str) (run l : list ChatMessage) :
  Forall (λ m, role m = Tool) run → paired_from allowed l →
  paired_from allowed (filter (allowed_answer allowed) run ++ l).
Proof.
  intros Hrun Hl. induction Hrun as [|m run Hm _ IH]; [done|].
  rewrite filter_cons. destruct (decide _) as [Ha|]; [|done]. simpl. rewrite Hm. split; [|done].
  unfold allowed_answer in Ha. destruct (tool_call_id m) as [id|]; [|done]. by exists id.
Qed.

Lemma paired_from_retain (allowed : list str) (l : list ChatMessage) :
  paired_from allowed l → retain_answers allowed l = l.
Proof.
  revert allowed. induction l as [|m l IH]; intros allowed; simpl; [done|].
  destruct (role m); try (intros H; by rewrite IH).
  - intros [_ H]. by rewrite IH.
  - intros [(id & -> & Hid) H]. rewrite decide_True by done. by rewrite IH.
Qed.

(** ** The groups of a repaired transcript *)

Lemma pull_calls_tools (answered : list str) calls st :
  Forall (λ m, role m = Tool) st.1 →
  Forall (λ m, role m = Tool) (foldl (pull_call answered) st calls).1.
Proof.
  revert st. induction calls as [|tc calls IH]; intros st Hst; simpl; [done|]. apply IH.
  destruct (pull_call_fst answered st tc) as (k & -> & Hk). apply Forall_app; split; [done|].
  eapply Forall_impl; [exact Hk|]. by intros m [? _].
Qed.

Lemma pull_calls_mono (answered : list str) calls st m :
  m ∈ st.1 → m ∈ (foldl (pull_call answered) st calls).1.
Proof.
  revert st. induction calls as [|tc calls IH]; intros st Hm; simpl; [done|]. apply IH.
  destruct (pull_call_fst answered st tc) as (k & -> & _). set_solver.
Qed.

(** Every call is answered by the run or by what was pulled. *)
Lemma pull_calls_answer (answered : list str) calls st :
  Forall (λ tc, tc_id tc ∈ answered ∨
            ∃ m, m ∈ (foldl (pull_call answered) st calls).1 ∧ answers_id (tc_id tc) m) calls.
Proof.
  revert st. induction calls as [|tc calls IH]; intros st; constructor; [|apply IH].
  simpl. unfold pull_call at 2. case_decide; [by left|]. right.
  destruct (list_find _ st.2) as [[k m]|] eqn:E.
  - exists m. split; [apply pull_calls_mono; simpl; set_solver|].
    by apply list_find_Some in E as (_ & ? & _).
  - exists (interrupted tc). split; [apply pull_calls_mono; simpl; set_solver|done].
Qed.

Lemma pull_calls_elem (answered : list str) calls st m :
  m ∈ (foldl (pull_call answered) st calls).1 →
  m ∈ st.1 ∨ m ∈ st.2 ∨ ∃ tc, tc ∈ calls ∧ m = interrupted tc.
Proof.
  revert st. induction calls as [|tc calls IH]; intros st Hm; simpl in Hm; [by left|].
  apply IH in Hm as [Hm|[Hm|(tc' & ? & ->)]]; [| |right; right; exists tc'; set_solver];
    unfold pull_call in Hm; case_decide; [auto| |auto|];
    destruct (list_find _ st.2) as [[k x]|] eqn:E; simpl in Hm.
  - apply elem_of_app in Hm as [?| ->%list_elem_of_singleton]; [by left|].
    right; left. apply list_find_Some in E as (E & _). by apply list_elem_of_lookup_2 in E.
  - apply elem_of_app in Hm as [?| ->%list_elem_of_singleton]; [by left|].
    right; right. exists tc. set_solver.
  - right; left. by eapply elem_of_sublist in Hm; [|apply sublist_delete].
  - by right; left.
Qed.

(** What [pull_calls] takes is tools, and comes from the list or is made up; what it
    leaves is the rest. *)
Lemma pull_calls_facts (answered : list str) calls l ins l' :
  pull_calls answered calls l = (ins, l') →
  Forall (λ m, role m = Tool) ins ∧ l' `sublist_of` l
  ∧ (∀ x, x ∈ ins → x ∈ l ∨ ∃ tc, tc ∈ calls ∧ x = interrupted tc)
  ∧ Forall (λ tc, tc_id tc ∈ answered ∨ ∃ m, m ∈ ins ∧ answers_id (tc_id tc) m) calls
  ∧ (∀ (P : ChatMessage → Prop) `{!∀ m, Decision (P m)},
       (∀ m tc, tc ∈ calls → answers_id (tc_id tc) m → ¬ P m) → filter P l' = filter P l).
Proof.
  unfold pull_calls. intros E.
  pose proof (pull_calls_tools answered calls ([], l) (Forall_nil_2 _)) as H1.
  pose proof (pull_calls_sublist answered calls ([], l)) as H2.
  pose proof (λ x, pull_calls_elem answered calls ([], l) x) as H3.
  pose proof (pull_calls_answer answered calls ([], l)) as H4.
  pose proof (λ P d, pull_calls_rest answered calls ([], l) P (H := d)) as H5.
  rewrite E in H1, H2, H3, H4, H5. simpl in *. split_and!; try done.
  intros x Hx. destruct (H3 x Hx) as [?|?]; [set_solver|done].
Qed.

Lemma Repaired_run_tools (run l : list ChatMessage) :
  tool_run (run ++ l) = run → Forall (λ m, role m = Tool) run.
Proof. intros <-. apply tool_run_Forall. Qed.

Lemma repaired_paired (l out : list ChatMessage) n allowed :
  repaired l out n → paired_from allowed (retain_answers allowed out).
Proof.
  intros H. revert allowed. induction H as [|m l out n Hm _ IH|m run l ins l' out n Hm Hrun Hp _ IH];
    intros allowed; [done| |].
  - simpl. destruct (role m) eqn:Er; simpl; rewrite ?Er; [apply IH..| |].
    + split; [|apply IH]. unfold is_call in Hm. rewrite Er in Hm. simpl in Hm.
      bool_to_prop. rewrite Hm. constructor.
    + destruct (tool_call_id m) as [id|] eqn:Eid; [|apply IH].
      case_decide; [|apply IH]. simpl. rewrite Er. split; [by exists id|apply IH].
  - destruct (is_call_ids m Hm) as [Er Eids]. apply Repaired_run_tools in Hrun.
    destruct (pull_calls_facts _ _ _ _ _ Hp) as (Hins & _ & _ & Hans & _).
    simpl. rewrite Er, (assoc_L (++)). simpl. rewrite Er.
    assert (Forall (λ m, role m = Tool) (run ++ ins)) as Hri by by apply Forall_app.
    rewrite retain_answers_run by done. split; [|by apply paired_from_run].
    rewrite tool_run_app.
    2: { apply Forall_forall. intros x [_ Hx]%list_elem_of_filter. rewrite Forall_forall in Hri. auto. }
    apply Forall_forall. intros tc Htc. rewrite Forall_forall in Hans.
    assert (∃ x, x ∈ run ++ ins ∧ tool_call_id x = Some (tc_id tc)) as (x & Hx & Eid).
    { destruct (Hans tc Htc) as [(x & Hx & Ex)%list_elem_of_omap|(x & Hx & _ & Ex)];
        exists x; split; set_solver. }
    rewrite omap_app. apply elem_of_app. left. apply list_elem_of_omap. exists x. split; [|done].
    apply list_elem_of_filter. split; [|done]. unfold allowed_answer. rewrite Eid. by apply list_elem_of_fmap_2.
Qed.

Lemma repaired_elem (l out : list ChatMessage) n x :
  repaired l out n → x ∈ out →
  x ∈ l ∨ ∃ m tc, m ∈ l ∧ role m = Assistant ∧ tc ∈ tool_calls m ∧ x = interrupted tc.
Proof.
  intros H. induction H as [|m l out n Hm _ IH|m run l ins l' out n Hm Hrun Hp _ IH]; [by left| |].
  - intros [->|Hx]%elem_of_cons; [left; set_solver|]. destruct (IH Hx) as [?|(m' & tc & ?)]; [left; set_solver|].
    right. exists m', tc. set_solver.
  - destruct (pull_calls_facts _ _ _ _ _ Hp) as (_ & Hs & Hi & _).
    rewrite elem_of_cons, !elem_of_app. intros [->|[?|[Hx|Hx]]].
    + left. set_solver.
    + left. set_solver.
    + destruct (Hi x Hx) as [?|(tc & ? & ->)]; [left; set_solver|].
      right. exists m, tc. destruct (is_call_ids m Hm). set_solver.
    + assert (∀ y, y ∈ l' → y ∈ l) as Hl by (intros y Hy; by eapply elem_of_sublist).
      destruct (IH Hx) as [?|(m' & tc & ? & ?)]; [left; set_solver|]. right. exists m', tc.
      split; [|done]. rewrite elem_of_cons, elem_of_app. auto.
Qed.

Lemma filter_tools_nil (l : list ChatMessage) :
  Forall (λ m, role m = Tool) l → filter (λ m, role m ≠ Tool) l = [].
Proof. induction 1 as [|m l Hm _ IH]; [done|]. by rewrite filter_cons_False by tauto. Qed.

Lemma repaired_kept (l out : list ChatMessage) n :
  repaired l out n → filter (λ m, role m ≠ Tool) out = filter (λ m, role m ≠ Tool) l.
Proof.
  induction 1 as [|m l out n Hm _ IH|m run l ins l' out n Hm Hrun Hp _ IH]; [done| |].
  - rewrite !filter_cons. by rewrite IH.
  - destruct (pull_calls_facts _ _ _ _ _ Hp) as (Hi & _ & _ & _ & Hl).
    rewrite (filter_cons _ m (run ++ ins ++ out)), (filter_cons _ m (run ++ l)), !filter_app, IH.
    rewrite (filter_tools_nil ins Hi), Hl; [done|]. intros ? ? ? [? _]. tauto.
Qed.

(** Nothing happens to a transcript that is already paired. *)
Lemma pull_calls_paired (answered : list str) calls st :
  Forall (λ tc, tc_id tc ∈ answered) calls → foldl (pull_call answered) st calls = st.
Proof.
  induction 1 as [|tc calls Htc _ IH]; [done|]. simpl.
  rewrite <- IH at 2. f_equal. unfold pull_call. by rewrite decide_True.
Qed.

Lemma paired_from_skip_run (allowed : list str) (run l : list ChatMessage) :
  Forall (λ m, role m = Tool) run → paired_from allowed (run ++ l) → paired_from allowed l.
Proof. induction 1 as [|m run Hm _ IH]; simpl; [done|]. rewrite Hm. intros [_ ?]. auto. Qed.

Lemma repaired_id (l out : list ChatMessage) n allowed :
  repaired l out n → paired_from allowed l → out = l ∧ n = 0.
Proof.
  intros H. revert allowed. induction H as [|m l out n Hm _ IH|m run l ins l' out n Hm Hrun Hp _ IH];
    intros allowed Hl; [done| |].
  - assert (∃ a, paired_from a l) as [a Ha] by (simpl in Hl; destruct (role m); naive_solver).
    by destruct (IH a Ha) as [-> ->].
  - destruct (is_call_ids m Hm) as [Er Eids]. simpl in Hl. rewrite Er, Hrun in Hl. destruct Hl as [Hc Hl].
    unfold pull_calls in Hp. rewrite pull_calls_paired in Hp by done. simplify_eq.
    apply paired_from_skip_run in Hl; [|by apply (Repaired_run_tools run l')].
    by destruct (IH _ Hl) as [-> ->].
Qed.

(** *** No result is lost *)

Definition all_call_ids (l : list ChatMessage) : list str := l ≫= call_ids.

Lemma sublist_filter_iff {A} (P : A → Prop) `{!∀ x, Decision (P x)} (k l : list A) :
  k `sublist_of` l → Forall P k → k `sublist_of` filter P l.
Proof.
  induction 1 as [|x k l _ IH|x k l _ IH]; intros Hk; [constructor| |].
  - apply Forall_cons in Hk as [Hx Hk]. rewrite filter_cons_True by done. constructor. auto.
  - rewrite filter_cons. case_decide; [constructor|]; auto.
Qed.

Lemma sublist_filter {A} (P : A → Prop) `{!∀ x, Decision (P x)} (l : list A) : filter P l `sublist_of` l.
Proof. induction l as [|x l IH]; [constructor|]. rewrite filter_cons. case_decide; by constructor. Qed.

Lemma sublist_pair_app_r {A} (a t : A) (k l : list A) :
  a ∉ k → [a; t] `sublist_of` k ++ l → [a; t] `sublist_of` l.
Proof.
  intros Hk. induction k as [|x k IH]; [done|]. intros H.
  apply sublist_cons_r in H as [?|(k' & E & _)]; [apply IH; set_solver|]. simplify_eq. set_solver.
Qed.

Lemma all_call_ids_elem (l : list ChatMessage) (m : ChatMessage) (tc : ToolCall) :
  m ∈ l → role m = Assistant → tc ∈ tool_calls m → tc_id tc ∈ all_call_ids l.
Proof.
  intros Hm Hr Htc. apply list_elem_of_bind. exists m. split; [|done].
  unfold call_ids. rewrite Hr. by apply list_elem_of_fmap_2.
Qed.

Lemma all_call_ids_sublist (k l : list ChatMessage) :
  k `sublist_of` l → all_call_ids k `sublist_of` all_call_ids l.
Proof.
  unfold all_call_ids.
  induction 1 as [|x k l _ IH|x k l _ IH]; [done| |]; rewrite !bind_cons;
    [by apply sublist_app|by apply sublist_inserts_l].
Qed.

Lemma pull_call_survives (answered : list str) st tc (x : ChatMessage) :
  x ∈ st.2 → ¬ answers_id (tc_id tc) x → x ∈ (pull_call answered st tc).2.
Proof.
  intros Hx Hn. pose proof (pull_call_rest answered st tc (λ m, ¬ answers_id (tc_id tc) m)) as E.
  assert (x ∈ filter (λ m, ¬ answers_id (tc_id tc) m) st.2) as Hf by by apply list_elem_of_filter.
  rewrite <- E in Hf by auto. by apply list_elem_of_filter in Hf as [_ ?].
Qed.

Lemma pull_calls_found (answered : list str) calls st tc t :
  NoDup (tc_id <$> calls) → tc ∈ calls → tc_id tc ∉ answered → t ∈ st.2 → answers_id (tc_id tc) t →
  ∃ t', t' ∈ (foldl (pull_call answered) st calls).1 ∧ t' ∈ st.2 ∧ answers_id (tc_id tc) t'.
Proof.
  revert st. induction calls as [|tc0 calls IH]; intros st Hnd Htc Ha Ht Hid; [set_solver|].
  apply NoDup_cons in Hnd as [H0 Hnd]. simpl. apply elem_of_cons in Htc as [<-|Htc].
  - destruct (list_find (answers_id (tc_id tc)) st.2) as [[k m]|] eqn:E.
    + pose proof (proj1 (list_find_Some _ _ _ _) E) as (Hk & Hm & _).
      exists m. split; [|split; [by eapply list_elem_of_lookup_2|done]].
      apply pull_calls_mono. unfold pull_call. rewrite decide_False by done. rewrite E. simpl. set_solver.
    + apply list_find_None in E. rewrite Forall_forall in E. by destruct (E t).
  - destruct (IH (pull_call answered st tc0)) as (t' & ? & Hin & ?); [done..| |done|].
    + apply pull_call_survives; [done|]. intros Hid'. apply H0, list_elem_of_fmap. exists tc.
      split; [by eapply answers_id_inj|done].
    + exists t'. split; [done|]. split; [|done]. eapply elem_of_sublist; [exact Hin|].
      apply (pull_calls_sublist answered [tc0]).
Qed.

Lemma group_answers m run l ins l' tc t :
  Forall (λ m, role m = Tool) run →
  pull_calls (omap tool_call_id run) (tool_calls m) l = (ins, l') →
  NoDup (tc_id <$> tool_calls m) → tc ∈ tool_calls m → t ∈ run ++ l → answers_id (tc_id tc) t →
  ∃ t', t' ∈ filter (allowed_answer (tc_id <$> tool_calls m)) (run ++ ins) ∧
    answers_id (tc_id tc) t' ∧ t' ∈ run ++ l.
Proof.
  intros Hrun Hp Hnd Htc Ht Hid.
  assert (∃ t', t' ∈ run ++ ins ∧ answers_id (tc_id tc) t' ∧ t' ∈ run ++ l) as (t' & Hin & [Hr Hi] & Hl).
  { destruct (decide (tc_id tc ∈ omap tool_call_id run)) as [(x & Hx & Ex)%list_elem_of_omap|Hn].
    - rewrite Forall_forall in Hrun. exists x. split; [set_solver|]. split; [split; auto|set_solver].
    - apply elem_of_app in Ht as [Ht|Ht].
      { destruct Hn. apply list_elem_of_omap. exists t. split; [done|]. apply Hid. }
      destruct (pull_calls_found (omap tool_call_id run) (tool_calls m) ([], l) tc t) as (t' & Hi & ? & ?);
        [done..|].
      fold (pull_calls (omap tool_call_id run) (tool_calls m) l) in Hi. rewrite Hp in Hi.
      exists t'. set_solver. }
  exists t'. split; [|done]. apply list_elem_of_filter. split; [|done].
  unfold allowed_answer. rewrite Hi. by apply list_elem_of_fmap_2.
Qed.

(** A later group is not touched by the pulls of this one. *)
Lemma pull_calls_sublist_other (answered : list str) calls l ins l' a t tc :
  pull_calls answered calls l = (ins, l') → role a = Assistant → answers_id (tc_id tc) t →
  tc_id tc ∉ tc_id <$> calls → [a; t] `sublist_of` l → [a; t] `sublist_of` l'.
Proof.
  intros Hp Ha Ht Hn Hs. set (P := λ x : ChatMessage, Forall (λ tc, ¬ answers_id (tc_id tc) x) calls).
  destruct (pull_calls_facts _ _ _ _ _ Hp) as (_ & _ & _ & _ & Hf).
  etransitivity; [|apply (sublist_filter P)]. rewrite (Hf P).
  2: { unfold P. intros x tc' Htc' Hx. rewrite Forall_forall. eauto. }
  apply sublist_filter_iff; [done|]. unfold P. forall_list; apply Forall_forall; intros tc' Htc' Hx.
  - destruct Hx; congruence.
  - apply Hn. rewrite (answers_id_inj _ _ _ Ht Hx). by apply list_elem_of_fmap_2.
Qed.

Lemma repaired_results (l out : list ChatMessage) n allowed a t tc :
  repaired l out n → NoDup (all_call_ids l) →
  [a; t] `sublist_of` l → role a = Assistant → tc ∈ tool_calls a → answers_id (tc_id tc) t →
  ∃ t' k1 k2, retain_answers allowed out = k1 ++ a :: k2 ∧ t' ∈ tool_run k2 ∧
    answers_id (tc_id tc) t' ∧ t' ∈ l.
Proof.
  intros H. revert allowed. induction H as [|m l out n Hm _ IH|m run l ins l' out n Hm Hrun Hp Hr IH];
    intros allowed Hnd Hs Ha Htc Ht; [by apply sublist_nil_r in Hs| |].
  - apply sublist_cons_r in Hs as [Hs|(k & E & _)]; simplify_eq.
    + apply NoDup_app in Hnd as (_ & _ & Hnd).
      assert (∀ allowed, ∃ t' k1 k2, retain_answers allowed out = k1 ++ a :: k2 ∧ t' ∈ tool_run k2 ∧
        answers_id (tc_id tc) t' ∧ t' ∈ m :: l) as IH'.
      { intros al. destruct (IH al Hnd Hs Ha Htc Ht) as (t' & k1 & k2 & ? & ? & ? & ?).
        exists t', k1, k2. set_solver. }
      simpl. repeat case_match; try apply IH';
        match goal with |- context [retain_answers ?al out] =>
          destruct (IH' al) as (t' & k1 & k2 & -> & ?); by exists t', (m :: k1), k2 end.
    + unfold is_call in Hm. rewrite Ha in Hm. simpl in Hm. bool_to_prop. rewrite Hm in Htc. set_solver.
  - destruct (is_call_ids m Hm) as [Er Eids].
    assert (NoDup (tc_id <$> tool_calls m) ∧ (∀ id, id ∈ tc_id <$> tool_calls m → id ∉ all_call_ids l) ∧
      NoDup (all_call_ids l)) as (Hn1 & Hn2 & Hn3).
    { change (all_call_ids (m :: run ++ l)) with (call_ids m ++ all_call_ids (run ++ l)) in Hnd.
      unfold all_call_ids in Hnd. rewrite bind_app, Eids in Hnd.
      apply NoDup_app in Hnd as (? & Hx & (_ & _ & ?)%NoDup_app). split; [done|]. split; [|done].
      intros id Hid Hid'. apply (Hx id Hid). set_solver. }
    pose proof (Repaired_run_tools _ _ Hrun) as Htools.
    destruct (pull_calls_facts _ _ _ _ _ Hp) as (Hins & _).
    simpl. rewrite Er, (assoc_L (++)), retain_answers_run by by apply Forall_app.
    apply sublist_cons_r in Hs as [Hs|(k & E & Hk)].
    + apply sublist_pair_app_r in Hs.
      2: { intros Hin. rewrite Forall_forall in Htools. specialize (Htools a Hin). congruence. }
      assert ([a; t] `sublist_of` l') as Hs'.
      { eapply pull_calls_sublist_other; [done..| |done]. intros Hid. apply (Hn2 _ Hid).
        apply (all_call_ids_elem _ a); [|done..]. eapply elem_of_sublist; [|exact Hs]. set_solver. }
      destruct (pull_calls_facts _ _ _ _ _ Hp) as (_ & Hsub & _).
      destruct (IH (tc_id <$> tool_calls m)) as (t' & k1 & k2 & -> & ? & ? & ?); [|done..|].
      { eapply sublist_NoDup; [exact Hn3|]. by apply all_call_ids_sublist. }
      eexists t', (m :: _ ++ k1), k2. split; [|split; [done|split; [done|]]].
      * simpl. by rewrite <- (assoc_L (++)).
      * rewrite elem_of_cons, elem_of_app. right. right. by eapply elem_of_sublist.
    + injection E as <- <-. apply singleton_sublist_l in Hk.
      destruct (group_answers a run l ins l' tc t) as (t' & Hin & ? & ?); [done..|].
      eexists t', [], _. split; [done|]. split; [|split; [done|by right]].
      rewrite tool_run_app; [by apply elem_of_app; left|].
      eapply sublist_Forall; [apply sublist_filter|]. by apply Forall_app.
Qed.

Lemma repaired_zero (l out : list ChatMessage) : repaired l out 0 → out = l.
Proof.
  intros H. remember 0 as n eqn:En.
  induction H as [|m l out n Hm _ IH|m run l ins l' out n Hm Hrun Hp _ IH]; [done| |].
  - f_equal. auto.
  - destruct ins; [|done]. destruct (pull_calls_facts _ _ _ _ _ Hp) as (_ & _ & _ & Hans & _).
    unfold pull_calls in Hp. rewrite pull_calls_paired in Hp.
    + simplify_eq/=. by rewrite IH.
    + eapply Forall_impl; [exact Hans|]. intros tc [?|(x & Hx & _)]; [done|set_solver].
Qed.

Lemma sublist_length_eq {A} (k l : list A) : k `sublist_of` l → length l ≤ length k → k = l.
Proof.
  induction 1 as [|x k l _ IH|x k l H IH]; simpl; intros; [done| |].
  - f_equal. apply IH. lia.
  - apply sublist_length in H. lia.
Qed.

Lemma repair_tool_pairs_repaired (messages : list ChatMessage) :
  ids_distinct messages →
  ∃ out n, repaired messages out n ∧
    repair_tool_pairs messages
    = Ok (retain_answers [] out, n + (length out - length (retain_answers [] out))).
Proof.
  intros Hd. destruct (repair_loop_repaired (S (length messages)) [] messages 0) as (out & n & Hr & E);
    [lia|done|]. exists out, n. split; [done|]. unfold repair_tool_pairs.
  change ([] ++ messages) with messages in E. change (length ([] : list ChatMessage)) with 0 in E.
  by rewrite E.
Qed.

(** C29: Provided no assistant message calls twice under one id, repair_tool_pairs ends
    without a panic with a transcript providers accept: every call is answered in the
    run of tool messages right after it and every tool message answers such a call.
    Messages that are not tool results are kept in order; a tool result is an old one
    or the synthetic "interrupted" one of a call; nothing is reported fixed exactly when
    the transcript was already paired, which then stays as it is. *)
Theorem repair_pairs (messages : list ChatMessage) :
  ids_distinct messages →
  ∃ out n, repair_tool_pairs messages = Ok (out, n)
    ∧ well_paired out
    ∧ filter (λ m, role m ≠ Tool) out = filter (λ m, role m ≠ Tool) messages
    ∧ (∀ x, x ∈ out → x ∈ messages ∨
         ∃ m tc, m ∈ messages ∧ role m = Assistant ∧ tc ∈ tool_calls m ∧ x = interrupted tc)
    ∧ (n = 0 ↔ well_paired messages)
    ∧ (well_paired messages → out = messages).
Proof.
  intros Hd. destruct (repair_tool_pairs_repaired messages Hd) as (out & n & Hr & ->).
  eexists _, _. split; [done|]. pose proof (retain_answers_sublist [] out) as Hs.
  assert (well_paired messages → out = messages ∧ n = 0 ∧ retain_answers [] out = messages) as Hid.
  { intros Hw. destruct (repaired_id _ _ _ _ Hr Hw) as [-> ->]. by rewrite paired_from_retain. }
  split_and!.
  - by eapply repaired_paired.
  - by rewrite retain_answers_kept, (repaired_kept _ _ _ Hr).
  - intros x Hx. eapply repaired_elem; [done|]. by eapply elem_of_sublist.
  - split; [|intros Hw; destruct (Hid Hw) as (-> & -> & ->); lia]. intros Hn.
    assert (n = 0) as -> by lia. pose proof (repaired_zero _ _ Hr) as ->.
    rewrite <- (sublist_length_eq _ _ Hs) by lia. by eapply repaired_paired.
  - intros Hw. by apply Hid.
Qed.

(** When call ids are not reused, no result is lost: a call whose result comes
    anywhere later in the transcript keeps a result of the transcript, right after it. *)
Theorem repair_keeps_results (messages : list ChatMessage) (a t : ChatMessage) (tc : ToolCall) :
  NoDup (all_call_ids messages) →
  [a; t] `sublist_of` messages → role a = Assistant → tc ∈ tool_calls a →
  answers_id (tc_id tc) t →
  ∃ out n pre post t', repair_tool_pairs messages = Ok (out, n)
    ∧ out = pre ++ a :: post ∧ t' ∈ tool_run post ∧ t' ∈ messages ∧ answers_id (tc_id tc) t'.
Proof.
  intros Hnd Hs Ha Htc Ht.
  assert (ids_distinct messages) as Hd.
  { clear -Hnd. unfold ids_distinct, all_call_ids in *. induction messages as [|m l IH]; [constructor|].
    apply NoDup_app in Hnd as (? & _ & ?). constructor; auto. }
  destruct (repair_tool_pairs_repaired messages Hd) as (out & n & Hr & E).
  destruct (repaired_results _ _ _ [] a t tc Hr Hnd Hs Ha Htc Ht) as (t' & k1 & k2 & ? & ? & ? & ?).
  by eexists _, _, k1, k2, t'.
Qed.

(** ** Queued messages *)

Lemma user_run_back_app (pre us : list ChatMessage) :
  Forall (λ m, role m = User) us → role <$> last pre ≠ Some User →
  user_run_back (pre ++ us) (length (pre ++ us)) = length pre.
Proof.
  intros Hus Hpre. rewrite length_app.
  assert (∀ k, k ≤ length us → user_run_back (pre ++ us) (length pre + k) = length pre) as H; [|by apply H].
  induction k as [|k IH]; intros Hk.
  - rewrite Nat.add_0_r. destruct pre as [|x pre' _] using rev_ind; [done|].
    rewrite last_snoc in Hpre. rewrite length_app. simpl. rewrite Nat.add_1_r. simpl.
    rewrite lookup_app_l, lookup_app_r, Nat.sub_diag by (rewrite ?length_app; simpl; lia). simpl.
    by rewrite decide_False.
  - rewrite Nat.add_succ_r. simpl. rewrite lookup_app_r by lia.
    replace (length pre + k - length pre) with k by lia.
    destruct (lookup_lt_is_Some_2 us k) as [u Hu]; [lia|]. rewrite Hu. simpl.
    rewrite Forall_lookup in Hus. rewrite decide_True by by rewrite (Hus _ _ Hu). apply IH. lia.
Qed.

(** Every transcript is a part that does not end with a [User], and the trailing run. *)
Lemma trailing_users (l : list ChatMessage) :
  ∃ pre us, l = pre ++ us ∧ Forall (λ m, role m = User) us ∧ role <$> last pre ≠ Some User.
Proof.
  induction l as [|m l IH] using rev_ind; [by exists [], []|].
  destruct (decide (role m = User)) as [Hm|Hm].
  - destruct IH as (pre & us & -> & Hus & Hpre). exists pre, (us ++ [m]).
    rewrite (assoc_L (++)). split_and!; [done| |done]. by apply Forall_app; repeat constructor.
  - exists (l ++ [m]), []. rewrite app_nil_r, last_snoc. split_and!; [done|done|]. simpl. congruence.
Qed.

Lemma trailing_user_run_start_app (pre us : list ChatMessage) :
  Forall (λ m, role m = User) us → role <$> last pre ≠ Some User →
  trailing_user_run_start (pre ++ us) = if decide (us = []) then None else Some (length pre).
Proof.
  intros Hus Hpre. unfold trailing_user_run_start. rewrite user_run_back_app by done.
  rewrite length_app. destruct us as [|u us]; simpl; repeat case_decide; done || lia.
Qed.

(** What the provider is sent for the trailing run. *)
Definition folded (us : list ChatMessage) : list ChatMessage :=
  match us with
  | [] | [_] => us
  | _ => [plain User (join [LF; LF] (content <$> us))]
  end.

Lemma merge_trailing_users (pre us : list ChatMessage) :
  Forall (λ m, role m = User) us → role <$> last pre ≠ Some User →
  merge_trailing_user_run (pre ++ us) = pre ++ folded us.
Proof.
  intros Hus Hpre. unfold merge_trailing_user_run. rewrite trailing_user_run_start_app by done.
  case_decide as E; [by subst|]. rewrite length_app, take_app_length, drop_app_length.
  destruct us as [|u [|u' us]]; simpl; repeat case_decide; done || lia.
Qed.

Lemma place_final_app (pre us : list ChatMessage) (m : ChatMessage) :
  Forall (λ m, role m = User) us → role <$> last pre ≠ Some User →
  place_final (pre ++ us) m = Some (pre ++ m :: us).
Proof.
  intros Hus Hpre. unfold place_final. rewrite trailing_user_run_start_app by done.
  case_decide as E; simpl; [|by rewrite vec_insert_app].
  subst us. rewrite !app_nil_r. rewrite <- (app_nil_r pre) at 2. by rewrite vec_insert_app.
Qed.

(** *** Pairing and users *)

Lemma tool_run_app_other (l k : list ChatMessage) :
  role <$> head k ≠ Some Tool → tool_run (l ++ k) = tool_run l.
Proof.
  intros Hk. induction l as [|m l IH]; simpl; [|by rewrite IH].
  destruct k as [|x k]; [done|]. simpl in *. unfold is_tool. by rewrite bool_decide_eq_false_2 by congruence.
Qed.

Lemma tool_run_users (pre us : list ChatMessage) :
  Forall (λ m, role m = User) us → tool_run (pre ++ us) = tool_run pre.
Proof. intros Hus. apply tool_run_app_other. destruct Hus as [|u us Hu]; [done|]. simpl. congruence. Qed.

Lemma paired_users (us : list ChatMessage) (allowed : list str) :
  Forall (λ m, role m = User) us → paired_from allowed us.
Proof.
  intros Hus. revert allowed. induction Hus as [|m us Hm _ IH]; intros allowed; simpl; [done|].
  rewrite Hm. apply IH.
Qed.

(** Users behind a transcript change nothing to its pairing. *)
Lemma paired_app_users (allowed : list str) (pre us : list ChatMessage) :
  Forall (λ m, role m = User) us → paired_from allowed (pre ++ us) ↔ paired_from allowed pre.
Proof.
  intros Hus. revert allowed. induction pre as [|m pre IH]; intros allowed; simpl.
  - split; [done|]. intros _. by apply paired_users.
  - rewrite tool_run_users by done. by destruct (role m); rewrite IH.
Qed.

Lemma folded_users (us : list ChatMessage) :
  Forall (λ m, role m = User) us → Forall (λ m, role m = User) (folded us).
Proof. intros Hus. destruct us as [|u [|u' us]]; [done..|]. by repeat constructor. Qed.

Lemma paired_snoc (allowed : list str) (l : list ChatMessage) (m : ChatMessage) :
  role m = Assistant → tool_calls m = [] → paired_from allowed l → paired_from allowed (l ++ [m]).
Proof.
  intros Hm Hc. revert allowed. induction l as [|x l IH]; intros allowed; simpl.
  - rewrite Hm, Hc. by repeat constructor.
  - rewrite tool_run_app_other by (simpl; congruence).
    destruct (role x); intros H; try destruct H; try split; auto.
Qed.

(** The messages of a round: folding the queued users keeps a paired transcript
    paired, ends it with one user message at most, which holds their texts in order,
    and leaves the rest alone; the final answer goes before the users queued meanwhile,
    and the transcript stays paired. *)
Theorem queued_users (messages : list ChatMessage) (answer : ChatMessage) :
  well_paired messages → role answer = Assistant → tool_calls answer = [] →
  ∃ pre us, messages = pre ++ us ∧ Forall (λ m, role m = User) us
    ∧ role <$> last pre ≠ Some User
    ∧ merge_trailing_user_run messages = pre ++ folded us ∧ well_paired (pre ++ folded us)
    ∧ place_final messages answer = Some (pre ++ answer :: us) ∧ well_paired (pre ++ answer :: us).
Proof.
  intros Hw Ha Hc. destruct (trailing_users messages) as (pre & us & -> & Hus & Hpre).
  exists pre, us. apply paired_app_users in Hw; [|done]. split_and!; try done.
  - by apply merge_trailing_users.
  - by apply paired_app_users; [apply folded_users|].
  - by apply place_final_app.
  - change (answer :: us) with ([answer] ++ us). rewrite (assoc_L (++)).
    apply paired_app_users; [done|]. by apply paired_snoc.
Qed.

(** ** Concrete transcripts *)

Module Example_.

Definition user (s : str) : ChatMessage := plain User s.

Definition call (id name : str) : ToolCall :=
  {| tc_id := id; tc_name := name; arguments := []; thought_signature := None |}.

Definition asst (calls : list ToolCall) : ChatMessage :=
  {| role := Assistant; content := []; tool_calls := calls; tool_call_id := None; msg_name := None;
     reasoning_content := None; thinking_blocks := []; images := [] |}.

Definition answer (id res : str) : ChatMessage :=
  {| role := Tool; content := res; tool_calls := []; tool_call_id := Some id; msg_name := None;
     reasoning_content := None; thinking_blocks := []; images := [] |}.

(** A cancelled turn: [b] has no result, the result of [a] comes after a message of the
    operator, and a result of nothing closes the transcript. *)
Definition cancelled : list ChatMessage :=
  [user "hi"; asst [call "a" "pods_list"; call "b" "pods_delete"]; user "go on"; answer "a" "ok";
   answer "z" "?"].

End Example_.

Import Example_.

Example repair_cancelled :
  repair_tool_pairs cancelled
  = Ok ([user "hi"; asst [call "a" "pods_list"; call "b" "pods_delete"]; answer "a" "ok";
         interrupted (call "b" "pods_delete"); user "go on"], 3).
Proof. vm_compute. reflexivity. Qed.

Lemma ids_distinct_cancelled : ids_distinct cancelled.
Proof. decided. Qed.

Lemma repair_pairs_witness :
  ids_distinct cancelled ∧ ∃ out n, repair_tool_pairs cancelled = Ok (out, n) ∧ well_paired out.
Proof.
  split; [exact ids_distinct_cancelled|].
  destruct (repair_pairs cancelled ids_distinct_cancelled) as (out & n & H1 & H2 & _). by exists out, n.
Defined.

Lemma repair_keeps_results_witness :
  ∃ out n pre post t', repair_tool_pairs cancelled = Ok (out, n)
    ∧ out = pre ++ asst [call "a" "pods_list"; call "b" "pods_delete"] :: post
    ∧ t' ∈ tool_run post ∧ t' ∈ cancelled ∧ answers_id "a" t'.
Proof.
  apply (repair_keeps_results cancelled (asst [call "a" "pods_list"; call "b" "pods_delete"])
    (answer "a" "ok") (call "a" "pods_list")).
  - decided.
  - unfold cancelled. do 2 constructor. do 2 constructor. repeat constructor.
  - done.
  - simpl. left.
  - done.
Defined.

Lemma queued_users_witness :
  well_paired [user "hi"; asst []; user "a"; user "b"]
  ∧ ∃ pre us, [user "hi"; asst []; user "a"; user "b"] = pre ++ us
      ∧ merge_trailing_user_run [user "hi"; asst []; user "a"; user "b"] = pre ++ folded us.
Proof.
  assert (well_paired [user "hi"; asst []; user "a"; user "b"]) as Hw by by repeat constructor.
  split; [exact Hw|].
  destruct (queued_users _ (asst []) Hw eq_refl eq_refl) as (pre & us & E & _ & _ & Hm & _).
  by exists pre, us.
Defined.

(** The images of queued messages are not in the folded one. *)
Definition with_image : ChatMessage :=
  {| role := User; content := "what is this?"; tool_calls := []; tool_call_id := None;
     msg_name := None; reasoning_content := None; thinking_blocks := [];
     images := [{| mime := "image/png"; data := "iVBOR" |}] |}.

Example merge_drops_images :
  images <$> merge_trailing_user_run [with_image; user "look at the chart"] = [[]].
Proof. vm_compute. reflexivity. Qed.

(** Two calls under one id and no result yet: the second one finds the synthetic result
    of the first, removes it and inserts past the end. *)
Example repair_duplicate_ids_panics :
  repair_tool_pairs [user "hi"; asst [call "a" "pods_list"; call "a" "pods_list"]] = Err Panic.
Proof. vm_compute. reflexivity. Qed.

(** With a message behind them the call ends up without a result. *)
Example repair_duplicate_ids_unanswered :
  repair_tool_pairs [asst [call "a" "pods_list"; call "a" "pods_list"]; user "go on"]
  = Ok ([asst [call "a" "pods_list"; call "a" "pods_list"]; user "go on"], 3).
Proof. vm_compute. reflexivity. Qed.
