(* ===== verification/Classify.v ===== *)
(** * Provider errors

    [ProviderError] of agent/src/provider/mod.rs and app/src/agent/classify.rs: what is
    retried, what stops a turn, what compaction may recover, the back-off, and the
    redaction of secrets.

    The texts are lists of characters where the code looks at UTF-8 bytes: every
    character the tests of [redact_secrets] accept is ASCII, and a byte of a longer
    character passes none of them.  The scan takes fuel, one step per character
    ([redact_fuel]). *)

From S2P Require Import Prelude.

(** ** ProviderError *)

Inductive ProviderError : Set :=
  | Http (status : option N) (body : str)
  | Auth (msg : str)
  | InvalidResponse (msg : str)
  | Cancelled
  | Io (msg : str)
  | Decode (msg : str).

(** [Display] *)
Definition error_text (e : ProviderError) : str :=
  match e with
  | Http status body =>
      lit "http error" ++ match status with Some s => lit " " ++ dec_str s | None => [] end
        ++ lit ": " ++ body
  | Auth m => lit "auth error: " ++ m
  | InvalidResponse m => lit "provider returned an invalid response: " ++ m
  | Cancelled => lit "operation cancelled"
  | Io m => lit "io: " ++ m
  | Decode m => lit "decode: " ++ m
  end.

Definition from_http_status (status : N) (body : str) : ProviderError :=
  if (status =? 401)%N then Auth body else Http (Some status) body.

Definition transport (msg : str) : ProviderError := Http None msg.

(** ** Classification *)

Definition TRANSIENT_CODES : list str :=
  lit <$> ["rate_limit_exceeded"; "rate_limit_reached_error"; "server_is_overloaded";
           "engine_overloaded"; "rate_limit_error"; "overloaded_error"]%string.

Definition TRANSIENT_PHRASES : list str :=
  lit <$> ["upstream connect error"; "disconnect/reset before headers"; "connection reset";
           "connection refused"; "no healthy upstream"]%string.

Definition contains_any (needles : list str) (s : str) : bool :=
  existsb (λ n, contains_str n s) needles.

Definition is_transient_error (e : ProviderError) : option str :=
  match e with
  | Auth _ => None
  | Http (Some code) _ =>
      if (code =? 429)%N then Some (lit "rate limited")
      else if (500 <=? code)%N then Some (lit "upstream " ++ dec_str code)
      else None
  | _ =>
      let s := str_to_ascii_lowercase (error_text e) in
      if contains_any TRANSIENT_CODES s then Some (lit "rate limited")
      else if contains_any TRANSIENT_PHRASES s then Some (lit "upstream connection reset")
      else if contains_str "timed out" s || contains_str "operation timeout" s
           then Some (lit "request timeout")
      else None
  end.

Definition TRANSIENT_RETRY_INITIAL_DELAY_MS : N := 2000.

Definition TRANSIENT_RETRY_MAX_DELAY_MS : N := 30000.

Definition u64_max : N := 18446744073709551615.

(** [u64] saturating: [2.saturating_pow(exp)], [saturating_mul]. *)
Definition transient_retry_delay_ms (attempt : N) : N :=
  let exp := N.min (attempt - 1) 20 in
  let raw := N.min (TRANSIENT_RETRY_INITIAL_DELAY_MS * N.min (2 ^ exp) u64_max) u64_max in
  N.min raw TRANSIENT_RETRY_MAX_DELAY_MS.

Definition CODE_MARKERS : list str :=
  lit <$> ["insufficient_quota"; "billing_hard_limit_reached"; "usage_not_included";
           "freeusagelimiterror"; "gousagelimiterror"; "exceeded_current_quota";
           "tpd limit reached"; "billing_error"]%string.

Definition PROSE_MARKERS : list str :=
  lit <$> ["usage limit"; "credit balance"; "quota is insufficient"; "balance is insufficient";
           "quota exceeded"; "exceeded your current quota"; "exceed your quota"; "spend limit";
           "billing"]%string.

Definition account_limit (code : N) : str :=
  lit "account limit reached (HTTP " ++ dec_str code ++ lit ")".

Definition usage_429 : str := lit "usage limit / quota exhausted (HTTP 429)".

Definition quota_403 : str := lit "access denied " ++ 8212%N :: lit " quota or plan restriction (HTTP 403)".

Definition classify_usage_limit (e : ProviderError) : option str :=
  match e with
  | Http status body =>
      let code := default 0%N status in
      if (code =? 402)%N then Some (lit "billing / payment required (HTTP 402)")
      else
        let lower := str_to_ascii_lowercase body in
        if contains_any CODE_MARKERS lower then
          Some (if (code =? 0)%N then lit "account limit reached (usage quota exhausted)"
                else if (code =? 429)%N then usage_429
                else if (code =? 403)%N then quota_403
                else account_limit code)
        else
          let gemini_per_minute := contains_str "perminute" lower && negb (contains_str "perday" lower) in
          if negb gemini_per_minute && ((400 <=? code) && (code <? 500))%N
             && contains_any PROSE_MARKERS lower then
            Some (if (code =? 429)%N then usage_429
                  else if (code =? 403)%N then quota_403
                  else account_limit code)
          else None
  | _ => None
  end.

Definition OVERFLOW_MARKERS : list str :=
  lit <$> ["no tool output found for function call"; "context_length_exceeded"; "context length";
           "context window"; "maximum context"; "exceeds the maximum"; "input is too long";
           "input too large"; "prompt is too long"; "exceed the model"; "token limit";
           "tokens exceed"]%string.

Definition is_context_overflow_error (e : ProviderError) : bool :=
  let s := match e with
           | Http _ body => str_to_ascii_lowercase body
           | other => str_to_ascii_lowercase (error_text other)
           end in
  contains_any OVERFLOW_MARKERS s.

(** ** Redaction *)

Definition REDACTED : str := lit "<redacted>".

Definition KEY_PREFIXES : list str :=
  lit <$> ["sk-ant-"; "sk-"; "aiza"; "ghp_"; "gho_"; "xoxb-"; "xoxp-"]%string.

Definition VALUE_TRIGGERS : list str :=
  lit <$> ["bearer "; "authorization="; "access_token="; "refresh_token="; "api_key="; "api-key=";
           "apikey="; "token="; "secret="; "password="; "key="]%string.

Definition is_secret_char (c : char) : bool :=
  is_ascii_alphanumeric c
  || existsb (N.eqb c) (lit "-_.+/=~").

Definition is_word_char (c : char) : bool := is_ascii_alphanumeric c || existsb (N.eqb c) (lit "_-").

(** [lb[i..].starts_with(trig)], [lb] being the lowercased input. *)
Definition lower_starts (trig s : str) : bool := starts_with trig (str_to_ascii_lowercase s).

(** The [while j < n && is_secret_char(lb[j])] loops. *)
Fixpoint secret_run (s : str) : nat :=
  match s with
  | [] => 0
  | c :: s => if is_secret_char (to_ascii_lowercase c) then S (secret_run s) else 0
  end.

Definition at_boundary (prev : option char) : bool :=
  match prev with None => true | Some c => negb (is_word_char (to_ascii_lowercase c)) end.

(** What the scan finds at a position: the characters kept, those redacted. *)
Definition match_value (s : str) : option (nat * nat) :=
  match list_find (λ trig, lower_starts trig s = true) VALUE_TRIGGERS with
  | Some (_, trig) => Some (length trig, secret_run (drop (length trig) s))
  | None => None
  end.

Definition key_matches (s pre : str) : bool :=
  lower_starts pre s && bool_decide (length pre + 8 ≤ length pre + secret_run (drop (length pre) s)).

Definition match_key (s : str) : option nat :=
  match list_find (λ pre, key_matches s pre = true) KEY_PREFIXES with
  | Some (_, pre) => Some (length pre + secret_run (drop (length pre) s))
  | None => None
  end.

(** ['outer: while i < n]; [prev] is the character before position [i]. *)
Fixpoint redact_from (fuel : nat) (prev : option char) (s : str) : str :=
  match fuel, s with
  | 0, _ | _, [] => []
  | S fuel, c :: rest =>
      match (if at_boundary prev then match_value s else None) with
      | Some (kept, run) =>
          take kept s ++ (if decide (0 < run) then REDACTED else [])
            ++ redact_from fuel (last (take (kept + run) s)) (drop (kept + run) s)
      | None =>
          match (if at_boundary prev then match_key s else None) with
          | Some run => REDACTED ++ redact_from fuel (last (take run s)) (drop run s)
          | None => c :: redact_from fuel (Some c) rest
          end
      end
  end.

Definition redact_secrets (input : str) : str := redact_from (length input) None input.

(** ** Back-off *)

(** The n-th retry waits 2 s, doubled at each attempt, and 30 s at most, for every
    attempt: the saturating operations are never saturated, and waits never shrink. *)
Theorem transient_retry_delay_bounds (attempt : N) :
  (2000 ≤ transient_retry_delay_ms attempt ≤ 30000)%N
  ∧ (transient_retry_delay_ms attempt = N.min (2000 * 2 ^ (N.min (attempt - 1) 20)) 30000)%N
  ∧ (transient_retry_delay_ms attempt ≤ transient_retry_delay_ms (attempt + 1))%N.
Proof.
  unfold transient_retry_delay_ms, TRANSIENT_RETRY_INITIAL_DELAY_MS, TRANSIENT_RETRY_MAX_DELAY_MS.
  assert (∀ e, (e ≤ 20)%N → (1 ≤ 2 ^ e ≤ 1048576)%N) as Hpow.
  { intros e He. change 1048576%N with (2 ^ 20)%N. split; [|by apply N.pow_le_mono_r].
    change 1%N with (2 ^ 0)%N. apply N.pow_le_mono_r; lia. }
  pose proof (Hpow (N.min (attempt - 1) 20)%N) as H1.
  pose proof (Hpow (N.min (attempt + 1 - 1) 20)%N) as H2.
  assert (2 ^ N.min (attempt - 1) 20 ≤ 2 ^ N.min (attempt + 1 - 1) 20)%N by (apply N.pow_le_mono_r; lia).
  unfold u64_max. lia.
Qed.

(** ** Redaction *)

Lemma starts_with_app (p s : str) : starts_with p (p ++ s) = true.
Proof. unfold starts_with. by rewrite strip_prefix_app. Qed.

Lemma starts_with_true (p s : str) : starts_with p s = true → ∃ r, s = p ++ r.
Proof.
  unfold starts_with. destruct (strip_prefix p s) as [r|] eqn:E; [|done].
  exists r. by apply strip_prefix_Some.
Qed.

Lemma to_ascii_lowercase_lt (c : char) : to_ascii_lowercase c = 60%N ↔ c = 60%N.
Proof.
  unfold to_ascii_lowercase, is_ascii_uppercase.
  destruct ((65 <=? c) && (c <=? 90))%N eqn:E; [|done]. bool_to_prop. lia.
Qed.

(** Output and input agree up to the first redacted run. *)
Definition agree (out s : str) : Prop :=
  ∃ common o' s', out = common ++ o' ∧ s = common ++ s'
    ∧ (o' = [] ∧ s' = []
       ∨ head o' = Some 60%N ∧ ∃ c, head s' = Some c ∧ is_secret_char (to_ascii_lowercase c) = true).

Lemma agree_app (k out s : str) : agree out s → agree (k ++ out) (k ++ s).
Proof. intros (common & o' & s' & -> & -> & H). exists (k ++ common), o', s'. by rewrite <- !(assoc_L (++)). Qed.

Lemma agree_take (k : nat) (out s : str) : agree out (drop k s) → agree (take k s ++ out) s.
Proof. intros H. rewrite <- (take_drop k s) at 2. by apply agree_app. Qed.

(** A trigger found in the output is in the input. *)
Lemma agree_starts (p out s : str) :
  60%N ∉ p → agree out s → lower_starts p out = true →
  lower_starts p s = true ∧ agree (drop (length p) out) (drop (length p) s).
Proof.
  intros Hp (common & o' & s' & -> & -> & H) Hs. unfold lower_starts, str_to_ascii_lowercase in *.
  apply starts_with_true in Hs as [r Hs]. rewrite fmap_app in *.
  destruct (decide (length p ≤ length common)) as [Hl|Hl].
  - apply (f_equal (take (length p))) in Hs. rewrite take_app_length, take_app_le in Hs by by rewrite length_fmap.
    split.
    + rewrite <- (take_drop (length p) (to_ascii_lowercase <$> common)), Hs, <- (assoc_L (++)).
      apply starts_with_app.
    + rewrite !drop_app_le by done. by exists (drop (length p) common), o', s'.
  - assert (p !! length common = (to_ascii_lowercase <$> o') !! 0) as Hc.
    { rewrite <- (lookup_app_l p r) by lia. rewrite <- Hs.
      rewrite lookup_app_r by (rewrite length_fmap; lia). by rewrite length_fmap, Nat.sub_diag. }
    destruct (p !! length common) as [c|] eqn:Hlk; [|apply lookup_ge_None_1 in Hlk; lia].
    destruct H as [[-> _]|[Ho _]]; [done|]. destruct o' as [|x o']; [done|]. simpl in Hc, Ho. simplify_eq.
    destruct Hp. by eapply list_elem_of_lookup_2.
Qed.

Lemma agree_run (out s : str) : agree out s → secret_run out ≤ secret_run s.
Proof.
  intros (common & o' & s' & -> & -> & H).
  assert (secret_run o' = 0) as Ho.
  { destruct H as [[-> _]|[Ho _]]; [done|]. destruct o' as [|x o']; [done|]. simpl in *. by simplify_eq. }
  induction common as [|c common IH]; simpl; [lia|]. case_match; lia.
Qed.

(** ** Facts on the tables of triggers, by evaluation *)

Lemma triggers_no_lt : Forall (λ t, 60%N ∉ t) (VALUE_TRIGGERS ++ KEY_PREFIXES).
Proof. decided. Qed.

Lemma triggers_apart :
  Forall (λ t, Forall (λ p, starts_with p t || starts_with t p = false) KEY_PREFIXES) VALUE_TRIGGERS.
Proof. decided. Qed.

Lemma triggers_prefix_free :
  Forall (λ t, Forall (λ p, starts_with p t || starts_with t p = true → p = t) VALUE_TRIGGERS) VALUE_TRIGGERS.
Proof. decided. Qed.

(** Inside a trigger no position is at a boundary. *)
Lemma triggers_words :
  Forall (λ t, t ≠ [] ∧ Forall (λ c, is_word_char c = true) (removelast t)) VALUE_TRIGGERS.
Proof. decided. Qed.

Lemma triggers_secret_head :
  Forall (λ t, match t with c :: _ => is_secret_char c = true | [] => False end)
    (VALUE_TRIGGERS ++ KEY_PREFIXES).
Proof. repeat constructor. Qed.

(** Nothing to redact at the head of [s]. *)
Definition quiet (s : str) : Prop :=
  (∀ t, t ∈ VALUE_TRIGGERS → lower_starts t s = true → secret_run (drop (length t) s) = 0)
  ∧ (∀ p, p ∈ KEY_PREFIXES → lower_starts p s = true → secret_run (drop (length p) s) < 8).

(** Nothing to redact at any word boundary. *)
Fixpoint clean (prev : option char) (s : str) : Prop :=
  match s with
  | [] => True
  | c :: rest => (at_boundary prev = true → quiet s) ∧ clean (Some c) rest
  end.

Lemma match_value_None (s : str) :
  match_value s = None → ∀ t, t ∈ VALUE_TRIGGERS → lower_starts t s = false.
Proof.
  unfold match_value. destruct (list_find _ _) as [[i t]|] eqn:E; [done|]. intros _ t Ht.
  apply list_find_None in E. rewrite Forall_forall in E. specialize (E t Ht).
  by destruct (lower_starts t s).
Qed.

Lemma match_key_None (s : str) :
  match_key s = None → ∀ p, p ∈ KEY_PREFIXES → lower_starts p s = true →
  secret_run (drop (length p) s) < 8.
Proof.
  unfold match_key. destruct (list_find _ _) as [[i t]|] eqn:E; [done|]. intros _ p Hp Hs.
  apply list_find_None in E. rewrite Forall_forall in E. specialize (E p Hp).
  unfold key_matches in E. rewrite Hs in E. simpl in E. rewrite bool_decide_eq_true in E. lia.
Qed.

Lemma quiet_agree (out s : str) :
  agree out s → match_value s = None → match_key s = None → quiet out.
Proof.
  intros Ha Hv Hk. pose proof triggers_no_lt as Hlt. rewrite Forall_app, !Forall_forall in Hlt.
  split; intros t Ht Hs; (destruct (agree_starts t out s) as [Hs' Ha']; [destruct Hlt; auto|done|done|]).
  - by rewrite (match_value_None s Hv t Ht) in Hs'.
  - pose proof (match_key_None s Hk t Ht Hs'). apply agree_run in Ha'. lia.
Qed.

Lemma lower_starts_head (t s : str) c :
  head t = Some c → lower_starts t s = true → to_ascii_lowercase <$> head s = Some c.
Proof.
  unfold lower_starts. intros Ht [r Hr]%starts_with_true. destruct t as [|x t], s as [|y s]; try done.
  simpl in *. congruence.
Qed.

Lemma quiet_plain_head (s : str) :
  (∀ c, head s = Some c → is_secret_char (to_ascii_lowercase c) = false) → quiet s.
Proof.
  intros Hh. pose proof triggers_secret_head as Ht. rewrite Forall_app, !Forall_forall in Ht.
  assert (∀ t, t ∈ VALUE_TRIGGERS ∨ t ∈ KEY_PREFIXES → lower_starts t s = true → False) as Hno.
  { intros t Hin Hs. assert (match t with c :: _ => is_secret_char c = true | [] => False end) as Hc
      by (destruct Ht as [H1 H2], Hin; [by apply H1|by apply H2]).
    destruct t as [|c t]; [done|]. apply (lower_starts_head _ _ c) in Hs; [|done].
    destruct s as [|x s]; [done|]. simpl in *. simplify_eq. rewrite Hh in Hc; done. }
  split; intros t Hin Hs; exfalso; eauto.
Qed.

Lemma clean_words (prev : option char) (k rest : str) :
  Forall (λ c, is_word_char (to_ascii_lowercase c) = true) (removelast k) →
  (at_boundary prev = true → quiet (k ++ rest)) → k ≠ [] →
  clean (last k) rest → clean prev (k ++ rest).
Proof.
  revert prev. induction k as [|c k IH]; intros prev Hw Hq Hne Hr; [done|]. split; [done|].
  destruct k as [|d k]; [done|]. change (removelast (c :: d :: k)) with (c :: removelast (d :: k)) in Hw.
  apply Forall_cons in Hw as [Hc Hw]. apply IH; [done| |done|done]. simpl. by rewrite Hc.
Qed.

Lemma clean_redacted (prev : option char) (rest : str) :
  clean (Some 62%N) rest → clean prev (REDACTED ++ rest).
Proof.
  intros Hr. split.
  { intros _. apply quiet_plain_head. intros c Hc. change (Some 60%N = Some c) in Hc. by injection Hc as <-. }
  apply (clean_words _ (lit "redacted>")); [by repeat constructor| |done|done].
  intros _. assert (Forall (λ t, lower_starts t (lit "redacted>" ++ rest) = false) (VALUE_TRIGGERS ++ KEY_PREFIXES)) as Hf
    by repeat constructor.
  rewrite Forall_app, !Forall_forall in Hf. split; intros t Ht Hs;
    [rewrite (proj1 Hf t Ht) in Hs|rewrite (proj2 Hf t Ht) in Hs]; done.
Qed.

Lemma clean_prev (p p' : option char) (s : str) :
  (∀ c, head s = Some c → is_secret_char (to_ascii_lowercase c) = false) → clean p s → clean p' s.
Proof. intros Hh. destruct s as [|c s]; [done|]. intros [_ H]. split; [|done]. intros _. by apply quiet_plain_head. Qed.

Lemma secret_run_le (s : str) : secret_run s ≤ length s.
Proof. induction s as [|c s IH]; simpl; [done|]. case_match; lia. Qed.

Lemma secret_run_rest (s : str) c :
  head (drop (secret_run s) s) = Some c → is_secret_char (to_ascii_lowercase c) = false.
Proof. induction s as [|x s IH]; simpl; [done|]. destruct (is_secret_char (to_ascii_lowercase x)) eqn:E; simpl; [exact IH|]. by intros [= <-]. Qed.

Lemma secret_run_head (s : str) :
  0 < secret_run s → ∃ c, head s = Some c ∧ is_secret_char (to_ascii_lowercase c) = true.
Proof. destruct s as [|c s]; simpl; [lia|]. destruct (is_secret_char _) eqn:E; [|lia]. eauto. Qed.

(** What the matches are. *)
Lemma match_value_Some (s : str) k r :
  match_value s = Some (k, r) →
  ∃ i t, list_find (λ trig, lower_starts trig s = true) VALUE_TRIGGERS = Some (i, t)
    ∧ t ∈ VALUE_TRIGGERS ∧ lower_starts t s = true ∧ k = length t ∧ r = secret_run (drop k s).
Proof.
  unfold match_value. destruct (list_find _ _) as [[i t]|] eqn:E; [|done]. intros [= <- <-].
  exists i, t. pose proof (proj1 (list_find_Some _ _ _ _) E) as (Hi & Ht & _).
  split_and!; try done. by eapply list_elem_of_lookup_2.
Qed.

Lemma match_key_Some (s : str) run :
  match_key s = Some run →
  ∃ p, p ∈ KEY_PREFIXES ∧ lower_starts p s = true ∧ run = length p + secret_run (drop (length p) s).
Proof.
  unfold match_key. destruct (list_find _ _) as [[i p]|] eqn:E; [|done]. intros [= <-].
  exists p. pose proof (proj1 (list_find_Some _ _ _ _) E) as (Hi & Hp & _).
  unfold key_matches in Hp. bool_to_prop. split_and!; try done. by eapply list_elem_of_lookup_2.
Qed.

Lemma lower_starts_take (t s : str) :
  lower_starts t s = true → to_ascii_lowercase <$> take (length t) s = t ∧ length t ≤ length s.
Proof.
  unfold lower_starts, str_to_ascii_lowercase. intros [r Hr]%starts_with_true. split.
  - rewrite fmap_take, Hr. apply take_app_length.
  - rewrite <- (length_fmap to_ascii_lowercase s), Hr, length_app. lia.
Qed.

Lemma head_secret (t s : str) :
  t ∈ VALUE_TRIGGERS ++ KEY_PREFIXES → lower_starts t s = true →
  ∃ c, head s = Some c ∧ is_secret_char (to_ascii_lowercase c) = true.
Proof.
  intros Ht Hs. pose proof triggers_secret_head as Hh. rewrite Forall_forall in Hh. specialize (Hh t Ht).
  destruct t as [|x t]; [done|]. apply (lower_starts_head _ _ x) in Hs; [|done].
  destruct s as [|c s]; [done|]. simpl in *. simplify_eq. eauto.
Qed.

(** The output agrees with the input up to the first redaction. *)
Lemma redact_agree (fuel : nat) (prev : option char) (s : str) :
  length s ≤ fuel → agree (redact_from fuel prev s) s.
Proof.
  assert (∀ s, s = [] → agree [] s) as Hnil by (intros ? ->; exists [], [], []; auto).
  revert prev s. induction fuel as [|fuel IH]; intros prev s Hf.
  { apply Hnil. destruct s; simpl in *; [done|lia]. }
  destruct s as [|c rest]; [by apply Hnil|]. cbn [redact_from]. set (s := c :: rest) in *.
  destruct (if at_boundary prev then match_value s else None) as [[k r]|] eqn:Ev.
  - destruct (at_boundary prev); [|done]. apply match_value_Some in Ev as (i & t & _ & Ht & Hs & -> & Er).
    destruct (lower_starts_take _ _ Hs) as [_ Hl].
    assert (1 ≤ length t) by (pose proof triggers_words as Hw; rewrite Forall_forall in Hw;
      destruct (Hw t Ht) as [? _]; destruct t; [done|simpl; lia]).
    apply agree_take. case_decide as Hr.
    + eexists [], _, (drop (length t) s). split_and!; [done|done|]. right. split; [done|]. apply secret_run_head. by rewrite <- Er.
    + replace r with 0 in * by lia. rewrite Nat.add_0_r. simpl. apply IH. rewrite length_drop. simpl in Hf |- *. lia.
  - destruct (if at_boundary prev then match_key s else None) as [run|] eqn:Ek.
    + destruct (at_boundary prev); [|done]. apply match_key_Some in Ek as (p & Hp & Hs & _).
      eexists [], _, s. split_and!; [done|done|]. right. split; [done|]. apply (head_secret p); [|done].
      apply elem_of_app. by right.
    + apply (agree_app [c]), IH. simpl in Hf. lia.
Qed.

(** A trigger at the head of a text that starts with the trigger [t]. *)
Lemma lower_starts_comparable (t p s tail : str) :
  lower_starts t s = true → lower_starts p (take (length t) s ++ tail) = true →
  starts_with p t || starts_with t p = true.
Proof.
  intros Hs Hp. destruct (lower_starts_take _ _ Hs) as [Etake _].
  unfold lower_starts, str_to_ascii_lowercase in Hp. rewrite fmap_app, Etake in Hp.
  apply starts_with_true in Hp as [x Hx]. apply orb_true_iff.
  destruct (Nat.le_ge_cases (length p) (length t)).
  - left. apply (f_equal (take (length p))) in Hx. rewrite take_app_le, take_app_length in Hx by done.
    rewrite <- (take_drop (length p) t), Hx. apply starts_with_app.
  - right. apply (f_equal (take (length t))) in Hx. rewrite take_app_length, take_app_le in Hx by done.
    rewrite <- (take_drop (length t) p), <- Hx. apply starts_with_app.
Qed.

(** A matched value trigger: it is the one the output shows, and what follows it there
    is not secret any more. *)
Lemma quiet_kept (s tail t : str) :
  t ∈ VALUE_TRIGGERS → lower_starts t s = true → secret_run tail = 0 →
  quiet (take (length t) s ++ tail).
Proof.
  intros Hin Hs Ht. pose proof triggers_apart as Hap. pose proof triggers_prefix_free as Hpf.
  rewrite Forall_forall in Hap, Hpf. specialize (Hap t Hin). specialize (Hpf t Hin).
  rewrite Forall_forall in Hap, Hpf. destruct (lower_starts_take _ _ Hs) as [_ Hl].
  split; intros p Hp Hps; pose proof (lower_starts_comparable _ _ _ _ Hs Hps) as Hc.
  - rewrite (Hpf p Hp Hc), drop_app_length'; [done|]. rewrite length_take. lia.
  - by rewrite (Hap p Hp) in Hc.
Qed.

Lemma removelast_fmap {A B} (f : A → B) (l : list A) : removelast (f <$> l) = f <$> removelast l.
Proof. induction l as [|x l IH]; [done|]. destruct l; [done|]. simpl in *. by rewrite IH. Qed.

Lemma redact_clean_from (fuel : nat) (prev : option char) (s : str) :
  length s ≤ fuel → clean prev (redact_from fuel prev s).
Proof.
  revert prev s. induction fuel as [|fuel IH]; intros prev s Hf; [done|].
  destruct s as [|c rest]; [done|]. pose proof (redact_agree (S fuel) prev (c :: rest) Hf) as Hagree.
  cbn [redact_from] in *. set (s := c :: rest) in *.
  assert (∀ prev n, n ≠ 0 → clean prev (redact_from fuel prev (drop n s))
    ∧ agree (redact_from fuel prev (drop n s)) (drop n s)) as IH'.
  { intros p n Hn. assert (length (drop n s) ≤ fuel) by (rewrite length_drop; simpl in *; lia).
    split; [by apply IH|by apply redact_agree]. }
  assert (∀ n prev, (∀ c, head (drop n s) = Some c → is_secret_char (to_ascii_lowercase c) = false) → n ≠ 0 →
    clean (Some 62%N) (redact_from fuel prev (drop n s))) as Hafter.
  { intros n p Hh Hn. destruct (IH' p n Hn) as [Hc Ha]. eapply clean_prev; [|exact Hc]. intros x Hx.
    destruct Ha as (common & o' & s' & Eo & Es & H). rewrite Eo in Hx. apply Hh. rewrite Es.
    destruct common; [|done]. simpl in *. destruct H as [[-> ->]|[Ho (y & Hy & Hsec)]]; [done|].
    rewrite Es in Hh. rewrite (Hh y Hy) in Hsec. done. }
  destruct (if at_boundary prev then match_value s else None) as [[k r]|] eqn:Ev.
  - destruct (at_boundary prev) eqn:Eb; [|done]. apply match_value_Some in Ev as (i & t & _ & Ht & Hs & -> & Er).
    pose proof triggers_words as Hw. rewrite Forall_forall in Hw. destruct (Hw t Ht) as [Hne Hwords].
    destruct (lower_starts_take _ _ Hs) as [Etake Hl].
    assert (length t ≠ 0) by by destruct t.
    apply clean_words.
    + rewrite <- Etake, removelast_fmap in Hwords. by apply Forall_fmap in Hwords.
    + intros _. apply quiet_kept; [done..|]. case_decide; [done|]. simpl.
      replace r with 0 by lia. rewrite Nat.add_0_r.
      destruct (IH' (last (take (length t) s)) (length t)) as [_ Ha]; [done|]. apply agree_run in Ha. lia.
    + intros E. apply (f_equal length) in E. rewrite length_take in E. simpl in E. lia.
    + case_decide as Hr.
      * apply clean_redacted, Hafter; [|lia]. rewrite <- drop_drop, Er. apply secret_run_rest.
      * replace r with 0 by lia. rewrite Nat.add_0_r. simpl. by apply IH'.
  - destruct (if at_boundary prev then match_key s else None) as [run|] eqn:Ek.
    + destruct (at_boundary prev); [|done]. apply match_key_Some in Ek as (p & Hp & Hs & ->).
      apply clean_redacted, Hafter; [|].
      * rewrite <- drop_drop. apply secret_run_rest.
      * pose proof triggers_secret_head as Hh. rewrite Forall_app, !Forall_forall in Hh.
        destruct Hh as [_ Hh]. specialize (Hh p Hp). destruct p; [done|simpl; lia].
    + split; [|by apply (IH' (Some c) 1)]. intros Hb. rewrite Hb in Ev, Ek. by apply (quiet_agree _ s).
Qed.

Lemma clean_drop (prev : option char) (n : nat) (s : str) :
  n ≠ 0 → n ≤ length s → clean prev s → clean (last (take n s)) (drop n s).
Proof.
  revert prev s. induction n as [|n IH]; intros prev [|c s] Hn Hl Hc; try done; simpl in *.
  destruct Hc as [_ Hc].
  destruct n as [|n]; [done|]. destruct s as [|d s]; [simpl in Hl; lia|].
  apply (IH (Some c) (d :: s)); [done|simpl in *; lia|done].
Qed.

(** A text with nothing to redact is returned as it is. *)
Lemma redact_from_id (fuel : nat) (prev : option char) (s : str) :
  length s ≤ fuel → clean prev s → redact_from fuel prev s = s.
Proof.
  revert prev s. induction fuel as [|fuel IH]; intros prev s Hf Hc.
  { destruct s; simpl in *; [done|lia]. }
  destruct s as [|c rest]; [done|]. cbn [redact_from]. pose proof Hc as Hc0. destruct Hc as [Hq Hc].
  destruct (if at_boundary prev then match_value (c :: rest) else None) as [[k r]|] eqn:Ev.
  - destruct (at_boundary prev); [|done]. apply match_value_Some in Ev as (i & t & _ & Ht & Hs & -> & Er).
    destruct (Hq eq_refl) as [Hq1 _]. rewrite (Hq1 t Ht Hs) in Er. subst r. rewrite Nat.add_0_r. simpl.
    destruct (lower_starts_take _ _ Hs) as [_ Hl].
    pose proof triggers_words as Hw. rewrite Forall_forall in Hw. destruct (Hw t Ht) as [Hne _].
    assert (length t ≠ 0) by by destruct t.
    rewrite IH; [apply take_drop|rewrite length_drop; simpl in *; lia|].
    by apply (clean_drop prev).
  - destruct (if at_boundary prev then match_key (c :: rest) else None) as [run|] eqn:Ek.
    + destruct (at_boundary prev); [|done]. destruct (Hq eq_refl) as [_ Hq2]. unfold match_key in Ek.
      destruct (list_find _ _) as [[i p]|] eqn:Ef; [|done].
      apply list_find_Some in Ef as (Hi & Hkey & _). unfold key_matches in Hkey. bool_to_prop.
      assert (secret_run (drop (length p) (c :: rest)) < 8) by (apply Hq2; [by eapply list_elem_of_lookup_2|done]).
      lia.
    + f_equal. apply IH; [simpl in *; lia|done].
Qed.

Lemma clean_at (prev : option char) (pre suf : str) :
  clean prev (pre ++ suf) → at_boundary (match last pre with Some c => Some c | None => prev end) = true →
  suf ≠ [] → quiet suf.
Proof.
  revert prev. induction pre as [|c pre IH]; intros prev Hc Hb Hs.
  - destruct suf; [done|]. by apply Hc.
  - destruct Hc as [_ Hc]. apply (IH (Some c)); [done| |done].
    destruct pre as [|d pre]; [done|]. change (last (c :: d :: pre)) with (last (d :: pre)) in Hb.
    destruct (last (d :: pre)) eqn:E; [done|]. by apply last_None in E.
Qed.

(** After redact_secrets nothing of the shapes it looks for is left: at no word
    boundary of the output a "name=" or "Bearer " trigger is followed by a character of
    a secret, or a key prefix by eight of them.  A text in which nothing is found is
    returned unchanged, so redaction is idempotent. *)
Theorem redact_leaves_nothing (input : str) :
  (∀ pre suf, redact_secrets input = pre ++ suf → at_boundary (last pre) = true →
     (∀ t, t ∈ VALUE_TRIGGERS → lower_starts t suf = true → secret_run (drop (length t) suf) = 0)
     ∧ (∀ p, p ∈ KEY_PREFIXES → lower_starts p suf = true → secret_run (drop (length p) suf) < 8))
  ∧ (clean None input → redact_secrets input = input)
  ∧ redact_secrets (redact_secrets input) = redact_secrets input.
Proof.
  assert (∀ s, clean None s → redact_secrets s = s) as Hid by (intros; by apply redact_from_id).
  assert (clean None (redact_secrets input)) as Hc by by apply redact_clean_from.
  split_and!; [|auto|auto]. intros pre suf E Hb. rewrite E in Hc.
  destruct suf as [|c suf]; [by apply quiet_plain_head|].
  apply (clean_at None pre); [done|by destruct (last pre)|done].
Qed.

Example redact_bearer :
  redact_secrets "401 for Authorization: Bearer eyJhbGciOi.J9 (key sk-proj-0123456789)"
  = lit "401 for Authorization: Bearer <redacted> (key <redacted>)".
Proof. vm_compute. reflexivity. Qed.

Example redact_words : redact_secrets "task-force: monkey=1, sk-short" = lit "task-force: monkey=1, sk-short".
Proof. vm_compute. reflexivity. Qed.

(** The value of [authorization=] stops at the space behind the scheme: the token that
    follows [Bearer] there is kept, although [Bearer] stands at a word boundary. *)
Example redact_misses_scheme :
  redact_secrets "authorization=Bearer eyJhbGciOi.J9" = lit "authorization=<redacted> eyJhbGciOi.J9".
Proof. vm_compute. reflexivity. Qed.
