(* ===== verification/Session.v ===== *)
(** * Chat sessions on disk

    agent/src/session/mod.rs: one JSONL log per session and an index with one entry of
    metadata per session; the replay of a log; the operations of [SessionStore].

    serde_json is the interface [SessionWire]; a log is its bytes, so that a write cut in
    the middle is one.  An operation takes what the file system does with its writes
    ([IoPlan]); the index is replaced whole or not at all (agent/src/atomic_write.rs).
    Operations run one after the other: the index lock covers each read-modify-write,
    and a log grows by appends. *)

From S2P Require Import Prelude Utf8 Transcript.

(** ** Data *)

Inductive ProviderKind : Set :=
  | OpencodeZen | OpencodeGo | OpenRouter | Anthropic | Google | OpenAI | Zai | Minimax | Groq
  | Deepseek | Mistral | Together | Moonshot | KimiCoding | Ollama | CustomOpenAi | CustomAnthropic.

Inductive ApprovalMode : Set := ApprovePerWrite | AllowAllWrites.

#[global] Instance ApprovalMode_eq_dec : EqDecision ApprovalMode.
Proof. solve_decision. Defined.

Inductive ApprovalDecision : Set := Approved | Denied | ApprovedAlways.

#[global] Instance ApprovalDecision_eq_dec : EqDecision ApprovalDecision.
Proof. solve_decision. Defined.

(** An [f32] and a [serde_json::Value] are carried: the bits, the text. *)
Abbreviation f32 := N (only parsing).

Abbreviation json := str (only parsing).

Record SessionMeta : Set := {
  id : str;
  cluster_id : str;
  title : str;
  created_at_unix_ms : Z;
  updated_at_unix_ms : Z;
  provider_kind : ProviderKind;
  model : str;
  approval_mode : ApprovalMode;
  temperature : option f32;
  max_tokens : option N;
  provider_options : option json;
  last_total_tokens : option N;
  active_cluster_id : option str;
}.

(** [Some (Some v)] sets, [Some None] clears, [None] leaves alone. *)
Record SessionUpdate : Set := {
  u_title : option str;
  u_model : option str;
  u_approval_mode : option ApprovalMode;
  u_temperature : option (option f32);
  u_max_tokens : option (option N);
  u_provider_options : option (option json);
  u_active_cluster_id : option (option str);
}.

Definition no_update : SessionUpdate := Build_SessionUpdate None None None None None None None.

Inductive SessionEvent : Set :=
  | Message (message : ChatMessage) (ts : Z)
  | Approval (tool_call_id : str) (decision : ApprovalDecision) (ts : Z)
  | Update (update : SessionUpdate) (ts : Z)
  | ToolResult (call : ToolCall) (res : str) (error : option str) (ts : Z)
  | Usage (prompt_tokens completion_tokens total_tokens : N) (ts : Z)
  | Compaction (head_message_count tokens_before : N) (summary : str) (tail : list ChatMessage) (ts : Z).

Record SessionData : Set := { meta : SessionMeta; events : list SessionEvent }.

Inductive SessionError : Set := IoError | DecodeError | NotFound (id : str).

(** ** sanitize *)

Definition sanitize (s : str) : str :=
  (λ c, if is_ascii_alphanumeric c || (c =? 95)%N || (c =? HYPHEN)%N || (c =? DOT)%N then c else 95%N) <$> s.

(** ** apply_compaction *)

Definition checkpoint (summary : str) : ChatMessage :=
  {| role := Assistant; content := lit "[context checkpoint]" ++ LF :: summary; tool_calls := [];
     tool_call_id := None; msg_name := Some (lit "context_checkpoint"); reasoning_content := None;
     thinking_blocks := []; images := [] |}.

Definition is_compaction (e : SessionEvent) : bool :=
  match e with Compaction _ _ _ _ _ => true | _ => false end.

(** [rposition]: the events behind the last compaction, with it. *)
Fixpoint last_compaction (es : list SessionEvent) : option (SessionEvent * list SessionEvent) :=
  match es with
  | [] => None
  | e :: rest =>
      match last_compaction rest with
      | Some r => Some r
      | None => if is_compaction e then Some (e, rest) else None
      end
  end.

Definition apply_compaction (es : list SessionEvent) : list SessionEvent :=
  match last_compaction es with
  | Some (Compaction _ _ summary kept ts, tail) =>
      Message (checkpoint summary) ts :: ((λ m, Message m ts) <$> kept) ++ tail
  | _ => es
  end.

(** The transcript [chat_open] starts from (app/src/agent/commands.rs). *)
Definition message_of (e : SessionEvent) : option ChatMessage :=
  match e with Message m _ => Some m | _ => None end.

Definition replay (es : list SessionEvent) : list ChatMessage := omap message_of (apply_compaction es).

(** ** Files *)

(** What serde_json reads of what it wrote: a cleared field of an update ([Some None]) and a
    null value are both written as null, and null is read as a field that is not there; a
    number that is no JSON number (an infinity, a NaN) is written as null too.  [rt] is what is
    read of the text of an [f32]. *)
Definition NULL : json := lit "null".

Definition read_value (v : json) : option json := if decide (v = NULL) then None else Some v.

(** An [Option<Option<_>>] field of the update. *)
Definition read_sentinel {A} (read : A → option A) (x : option (option A)) : option (option A) :=
  match x with
  | Some (Some a) => Some <$> read a
  | Some None | None => None
  end.

Definition read_back_update (rt : f32 → option f32) (u : SessionUpdate) : SessionUpdate :=
  {| u_title := u_title u; u_model := u_model u; u_approval_mode := u_approval_mode u;
     u_temperature := read_sentinel rt (u_temperature u);
     u_max_tokens := read_sentinel Some (u_max_tokens u);
     u_provider_options := read_sentinel read_value (u_provider_options u);
     u_active_cluster_id := read_sentinel Some (u_active_cluster_id u) |}.

Definition read_back_event (rt : f32 → option f32) (e : SessionEvent) : SessionEvent :=
  match e with Update u ts => Update (read_back_update rt u) ts | e => e end.

Definition read_back_meta (rt : f32 → option f32) (m : SessionMeta) : SessionMeta :=
  {| id := id m; cluster_id := cluster_id m; title := title m;
     created_at_unix_ms := created_at_unix_ms m; updated_at_unix_ms := updated_at_unix_ms m;
     provider_kind := provider_kind m; model := model m; approval_mode := approval_mode m;
     temperature := t ← temperature m; rt t; max_tokens := max_tokens m;
     provider_options := v ← provider_options m; read_value v;
     last_total_tokens := last_total_tokens m; active_cluster_id := active_cluster_id m |}.

(** serde_json, as far as the store relies on it; an [f32] that was read is read again. *)
Class SessionWire := {
  read_f32 : f32 → option f32;
  encode_event : SessionEvent → option str;
  decode_event : str → option SessionEvent;
  encode_index : list SessionMeta → option (list N);
  decode_index : list N → option (list SessionMeta);
  decode_encode_event : ∀ e l, encode_event e = Some l → decode_event l = Some (read_back_event read_f32 e);
  encode_event_line : ∀ e l, encode_event e = Some l →
    clean_line l ∧ trim l ≠ [] ∧ Forall (λ c, scalar c = true) l;
  decode_encode_index : ∀ i b, encode_index i = Some b → b ≠ [] ∧ decode_index b = Some (read_back_meta read_f32 <$> i);
  read_f32_stable : ∀ t t', read_f32 t = Some t' → read_f32 t' = Some t';
}.

Inductive IndexFile : Set := Missing | Unreadable | Bytes (b : list N).

Record Disk : Set := {
  index_file : IndexFile;
  logs : gmap (str * str) (list N);
}.

Definition empty_disk : Disk := {| index_file := Missing; logs := ∅ |}.

(** What the file system does: whether the directory and the log open, how many bytes of
    the line are written before a failure, whether the index is replaced. *)
Record IoPlan : Set := {
  opens : bool;
  torn_at : option nat;
  index_written : bool;
}.

Definition all_well : IoPlan := {| opens := true; torn_at := None; index_written := true |}.

Section Store.
Context {W : SessionWire}.

Definition session_path (cluster session : str) : str * str := (sanitize cluster, session).

Definition set_index (f : IndexFile) (d : Disk) : Disk := {| index_file := f; logs := logs d |}.

Definition set_log (k : str * str) (b : list N) (d : Disk) : Disk :=
  {| index_file := index_file d; logs := <[k := b]> (logs d) |}.

Definition read_log (k : str * str) (d : Disk) : list N := default [] (logs d !! k).

Definition read_index (d : Disk) : result (list SessionMeta) SessionError :=
  match index_file d with
  | Missing | Bytes [] => Ok []
  | Unreadable => Err IoError
  | Bytes b => match decode_index b with Some i => Ok i | None => Err DecodeError end
  end.

Definition write_index (io : IoPlan) (idx : list SessionMeta) (d : Disk) : result unit SessionError * Disk :=
  match encode_index idx with
  | None => (Err DecodeError, d)
  | Some b => if index_written io then (Ok (), set_index (Bytes b) d) else (Err IoError, d)
  end.

Definition list_sessions (cluster_filter : option str) (d : Disk) : result (list SessionMeta) SessionError :=
  idx <-? read_index d;
  Ok (match cluster_filter with
      | Some c => filter (λ s, cluster_id s = c) idx
      | None => idx
      end).

Definition create (io : IoPlan) (m : SessionMeta) (d : Disk) : result unit SessionError * Disk :=
  if negb (opens io) then (Err IoError, d)
  else
    let d := set_log (session_path (cluster_id m) (id m)) (read_log (session_path (cluster_id m) (id m)) d) d in
    match read_index d with
    | Err e => (Err e, d)
    | Ok idx => write_index io (filter (λ s, id s ≠ id m) idx ++ [m]) d
    end.

Definition apply_update (u : SessionUpdate) (m : SessionMeta) : SessionMeta :=
  {| id := id m; cluster_id := cluster_id m;
     title := default (title m) (u_title u);
     created_at_unix_ms := created_at_unix_ms m; updated_at_unix_ms := updated_at_unix_ms m;
     provider_kind := provider_kind m;
     model := default (model m) (u_model u);
     approval_mode := default (approval_mode m) (u_approval_mode u);
     temperature := default (temperature m) (u_temperature u);
     max_tokens := default (max_tokens m) (u_max_tokens u);
     provider_options := default (provider_options m) (u_provider_options u);
     last_total_tokens := last_total_tokens m;
     active_cluster_id := default (active_cluster_id m) (u_active_cluster_id u) |}.

Definition set_total (t : option N) (m : SessionMeta) : SessionMeta :=
  {| id := id m; cluster_id := cluster_id m; title := title m;
     created_at_unix_ms := created_at_unix_ms m; updated_at_unix_ms := updated_at_unix_ms m;
     provider_kind := provider_kind m; model := model m; approval_mode := approval_mode m;
     temperature := temperature m; max_tokens := max_tokens m; provider_options := provider_options m;
     last_total_tokens := t; active_cluster_id := active_cluster_id m |}.

Definition touch (now : Z) (m : SessionMeta) : SessionMeta :=
  {| id := id m; cluster_id := cluster_id m; title := title m;
     created_at_unix_ms := created_at_unix_ms m; updated_at_unix_ms := now;
     provider_kind := provider_kind m; model := model m; approval_mode := approval_mode m;
     temperature := temperature m; max_tokens := max_tokens m; provider_options := provider_options m;
     last_total_tokens := last_total_tokens m; active_cluster_id := active_cluster_id m |}.

(** What an event does to the entry of its session. *)
Definition bump (now : Z) (e : SessionEvent) (m : SessionMeta) : SessionMeta :=
  let m := touch now m in
  match e with
  | Update u _ => apply_update u m
  | Usage _ _ total _ => set_total (Some total) m
  | Compaction _ _ _ _ _ => set_total (Some 0%N) m
  | _ => m
  end.

(** [idx.sessions.iter_mut().find(..)] *)
Fixpoint bump_first (session : str) (f : SessionMeta → SessionMeta) (idx : list SessionMeta) : list SessionMeta :=
  match idx with
  | [] => []
  | m :: idx => if decide (id m = session) then f m :: idx else m :: bump_first session f idx
  end.

Definition log_only (e : SessionEvent) : bool :=
  match e with ToolResult _ _ _ _ | Approval _ _ _ => true | _ => false end.

Definition append (io : IoPlan) (cluster session : str) (e : SessionEvent) (now : Z) (d : Disk) :
    result unit SessionError * Disk :=
  if negb (opens io) then (Err IoError, d)
  else
    let k := session_path cluster session in
    let d := set_log k (read_log k d) d in
    match encode_event e with
    | None => (Err DecodeError, d)
    | Some l =>
        let line := str_bytes (l ++ [LF]) in
        match torn_at io with
        | Some n => (Err IoError, set_log k (read_log k d ++ take n line) d)
        | None =>
            let d := set_log k (read_log k d ++ line) d in
            if log_only e then (Ok (), d)
            else match read_index d with
                 | Err err => (Err err, d)
                 | Ok idx => write_index io (bump_first session (bump now e) idx) d
                 end
        end
    end.

Definition find_meta (session : str) (idx : list SessionMeta) : option SessionMeta :=
  snd <$> list_find (λ m, id m = session) idx.

Definition parse_line (line : str) : option SessionEvent :=
  if decide (trim line = []) then None else decode_event line.

Definition load (session : str) (d : Disk) : result SessionData SessionError :=
  idx <-? read_index d;
  match find_meta session idx with
  | None => Err (NotFound session)
  | Some m =>
      match utf8_decode (read_log (session_path (cluster_id m) session) d) with
      | None => Err IoError
      | Some raw =>
          Ok {| meta := m; events := apply_compaction (omap parse_line (lines raw)) |}
      end
  end.

Definition rename (io : IoPlan) (session t : str) (now : Z) (d : Disk) : result unit SessionError * Disk :=
  match read_index d with
  | Err e => (Err e, d)
  | Ok idx =>
      match find_meta session idx with
      | None => (Err (NotFound session), d)
      | Some m =>
          append io (cluster_id m) session
            (Update {| u_title := Some t; u_model := None; u_approval_mode := None; u_temperature := None;
                       u_max_tokens := None; u_provider_options := None; u_active_cluster_id := None |} now)
            now d
      end
  end.

(** [removed] says whether the log could be removed. *)
Definition delete_session (io : IoPlan) (removed : bool) (session : str) (d : Disk) :
    result unit SessionError * Disk :=
  match read_index d with
  | Err e => (Err e, d)
  | Ok idx =>
      match list_find (λ m, id m = session) idx with
      | None => (Err (NotFound session), d)
      | Some (i, m) =>
          match write_index io (delete i idx) d with
          | (Err e, d) => (Err e, d)
          | (Ok _, d) =>
              let k := session_path (cluster_id m) session in
              if decide (logs d !! k = None) then (Ok (), d)
              else if removed then (Ok (), {| index_file := index_file d; logs := delete k (logs d) |})
              else (Err IoError, d)
          end
      end
  end.

(** ** A stored session *)

(** As it is read back. *)
Local Abbreviation rb_event := (read_back_event read_f32).
Local Abbreviation rb_meta := (read_back_meta read_f32).

(** The log under [k] holds the lines of [es]. *)
Definition logged (d : Disk) (k : str * str) (es : list SessionEvent) : Prop :=
  ∃ ls, Forall2 (λ e l, encode_event e = Some l) es ls ∧ read_log k d = str_bytes (unlines ls).

Definition stored (d : Disk) (session : str) (m : SessionMeta) (es : list SessionEvent) : Prop :=
  ∃ idx, read_index d = Ok idx ∧ find_meta session idx = Some (rb_meta m)
    ∧ logged d (session_path (cluster_id m) session) es.

Lemma rb_meta_idem (m : SessionMeta) : rb_meta (rb_meta m) = rb_meta m.
Proof.
  unfold read_back_meta. simpl. f_equal.
  - destruct (temperature m) as [t|]; simpl; [|done]. destruct (read_f32 t) eqn:E; simpl; [|done].
    by eapply read_f32_stable.
  - destruct (provider_options m) as [v|]; simpl; [|done]. unfold read_value. case_decide; simpl; [done|].
    by rewrite decide_False.
Qed.

(** An event changes the entry as it is read back as it changes the entry. *)
Lemma rb_meta_bump now e (m : SessionMeta) : rb_meta (bump now e (rb_meta m)) = rb_meta (bump now e m).
Proof.
  pose proof (rb_meta_idem m) as Hm. unfold read_back_meta in Hm. simpl in Hm. injection Hm as Ht Hp.
  destruct e as [| |u ts| | |]; unfold read_back_meta; simpl; rewrite ?Ht, ?Hp; try done.
  f_equal; [destruct (u_temperature u)|destruct (u_provider_options u)]; simpl; try done; by rewrite ?Ht, ?Hp.
Qed.

Lemma find_meta_back (session : str) (idx : list SessionMeta) :
  find_meta session (rb_meta <$> idx) = rb_meta <$> find_meta session idx.
Proof.
  unfold find_meta. rewrite list_find_fmap. rewrite <- !option_fmap_compose. by apply option_fmap_ext.
Qed.

Lemma str_bytes_app (a b : str) : str_bytes (a ++ b) = str_bytes a ++ str_bytes b.
Proof. apply bind_app. Qed.

Lemma logged_lines (es : list SessionEvent) (ls : list str) :
  Forall2 (λ e l, encode_event e = Some l) es ls →
  Forall clean_line ls ∧ Forall (λ l, Forall (λ c, scalar c = true) l) ls
  ∧ omap parse_line ls = rb_event <$> es.
Proof.
  induction 1 as [|e l es ls He _ (H1 & H2 & H3)]; [done|].
  destruct (encode_event_line e l He) as (Hc & Ht & Hs). split_and!; [by constructor..|].
  simpl. unfold parse_line at 1. rewrite decide_False by done.
  rewrite (decode_encode_event e l He). by f_equal.
Qed.

Lemma unlines_scalar (ls : list str) :
  Forall (λ l, Forall (λ c, scalar c = true) l) ls → Forall (λ c, scalar c = true) (unlines ls).
Proof.
  induction 1 as [|l ls Hl _ IH]; [constructor|]. rewrite unlines_cons. apply Forall_app; split; [done|].
  by constructor.
Qed.

Lemma load_stored (d : Disk) session m es :
  stored d session m es → load session d = Ok {| meta := rb_meta m; events := apply_compaction (rb_event <$> es) |}.
Proof.
  intros (idx & Hi & Hm & ls & Hls & Hlog). destruct (logged_lines es ls Hls) as (H1 & H2 & H3).
  unfold load. rewrite Hi. simpl. rewrite Hm. simpl. rewrite Hlog, utf8_round_trip by by apply unlines_scalar.
  by rewrite lines_unlines, H3.
Qed.

(** Reading back what an operation does to the index and to the logs. *)
Lemma write_index_index (io : IoPlan) idx d r d' :
  write_index io idx d = (r, d') →
  logs d' = logs d ∧ (r = Ok () ∧ read_index d' = Ok (rb_meta <$> idx) ∨ r ≠ Ok () ∧ index_file d' = index_file d).
Proof.
  unfold write_index. destruct (encode_index idx) as [b|] eqn:E; [|intros [= <- <-]; auto].
  destruct (index_written io); intros [= <- <-]; split; try done; [left|by right].
  split; [done|]. unfold read_index. simpl. destruct (decode_encode_index _ _ E) as [? ->].
  by destruct b.
Qed.

Lemma read_index_file (d d' : Disk) : index_file d' = index_file d → read_index d' = read_index d.
Proof. unfold read_index. by intros ->. Qed.

Lemma read_log_set (d : Disk) k b : read_log k (set_log k b d) = b.
Proof. unfold read_log, set_log. simpl. by rewrite lookup_insert_eq. Qed.

Lemma read_log_set_ne (d : Disk) k k' b : k ≠ k' → read_log k' (set_log k b d) = read_log k' d.
Proof. intros. unfold read_log, set_log. simpl. by rewrite lookup_insert_ne. Qed.

Lemma find_meta_cons (session : str) m idx :
  find_meta session (m :: idx) = if decide (id m = session) then Some m else find_meta session idx.
Proof.
  unfold find_meta. simpl. case_decide; [done|]. by destruct (list_find _ idx) as [[i x]|].
Qed.

Lemma find_meta_bump (session s' : str) f idx m :
  (∀ m, id (f m) = id m) → find_meta s' idx = Some m →
  find_meta s' (bump_first session f idx) = Some (if decide (session = s') then f m else m).
Proof.
  intros Hf. induction idx as [|x idx IH]; [done|]. simpl. rewrite find_meta_cons.
  destruct (decide (id x = session)); rewrite find_meta_cons, ?Hf; repeat case_decide; intros;
    simplify_eq; auto.
Qed.

Lemma bump_id now e m : id (bump now e m) = id m.
Proof. by destruct e. Qed.

Lemma bump_cluster now e m : cluster_id (bump now e m) = cluster_id m.
Proof. by destruct e. Qed.

(** The entry of a session after an event was appended to it. *)
Definition bumped (now : Z) (e : SessionEvent) (m : SessionMeta) : SessionMeta :=
  if log_only e then m else bump now e m.

Lemma append_cases (io : IoPlan) c session e now d r d' :
  append io c session e now d = (r, d') →
  (∃ extra, read_log (session_path c session) d' = read_log (session_path c session) d ++ extra
     ∧ (r = Ok () → ∃ l, encode_event e = Some l ∧ extra = str_bytes (l ++ [LF])))
  ∧ (∀ k, k ≠ session_path c session → read_log k d' = read_log k d)
  ∧ (index_file d' = index_file d ∧ (r = Ok () → log_only e = true)
     ∨ log_only e = false ∧ ∃ idx, read_index d = Ok idx ∧ r = Ok ()
         ∧ read_index d' = Ok (rb_meta <$> bump_first session (bump now e) idx)).
Proof.
  unfold append. set (k := session_path c session).
  assert (∀ b, read_log k (set_log k b (set_log k (read_log k d) d)) = b) as Hk by (intros; apply read_log_set).
  assert (∀ b k', k' ≠ k → read_log k' (set_log k b (set_log k (read_log k d) d)) = read_log k' d) as Hne
    by (intros; by rewrite !read_log_set_ne).
  destruct (opens io); simpl.
  2: { intros [= <- <-]. split_and!; [by exists []; rewrite app_nil_r|done|by left]. }
  destruct (encode_event e) as [l|].
  2: { intros [= <- <-]. split_and!; [exists []; rewrite read_log_set, app_nil_r; done| |by left].
    intros. by rewrite read_log_set_ne. }
  rewrite read_log_set. destruct (torn_at io) as [n|].
  { intros [= <- <-]. split_and!; [eexists; rewrite Hk; done|intros; by apply Hne|by left]. }
  destruct (log_only e).
  { intros [= <- <-]. split_and!; [eexists; rewrite Hk; eauto|intros; by apply Hne|by left]. }
  change (read_index (set_log k ?b ?x)) with (read_index d). destruct (read_index d) as [idx|err].
  2: { intros [= <- <-]. split_and!; [eexists; rewrite Hk; done|intros; by apply Hne|by left]. }
  intros Hw. apply write_index_index in Hw as [Hlogs Hi].
  assert (∀ k, read_log k d' = read_log k (set_log (session_path c session) (read_log (session_path c session) d
    ++ str_bytes (l ++ [LF])) (set_log (session_path c session) (read_log (session_path c session) d) d))) as Hl.
  { intros k'. unfold read_log. by rewrite Hlogs. }
  fold k in Hl. split_and!; [eexists; rewrite Hl, Hk; eauto|intros; rewrite Hl; by apply Hne|].
  destruct Hi as [[-> Hi]|[Hr Hi]]; [right; by eauto|by left].
Qed.

Lemma append_stored (io : IoPlan) session e now d d' m es :
  stored d session m es → append io (cluster_id m) session e now d = (Ok (), d') →
  stored d' session (bumped now e m) (es ++ [e]).
Proof.
  intros (idx & Hi & Hm & ls & Hls & Hlog) Ha. apply append_cases in Ha as ((extra & Hx & Hok) & _ & Hidx).
  destruct (Hok eq_refl) as (l & Hl & ->).
  assert (cluster_id (bumped now e m) = cluster_id m) as Hc by (unfold bumped; case_match; [done|apply bump_cluster]).
  unfold bumped in *. destruct Hidx as [[Hf Hlo]|(Hlo & idx' & Hi' & _ & Hb)].
  - rewrite Hlo by done. exists idx. split_and!; [by rewrite (read_index_file _ _ Hf)|done|].
    exists (ls ++ [l]). split; [by apply Forall2_app; repeat constructor|].
    by rewrite Hx, Hlog, unlines_app, (str_bytes_app (unlines ls)), unlines_cons.
  - rewrite Hlo in *. rewrite Hi in Hi'. injection Hi' as <-. eexists. split_and!; [exact Hb|..].
    + rewrite find_meta_back, (find_meta_bump _ _ _ _ (rb_meta m)); [|apply bump_id|done].
      rewrite decide_True by done. simpl. by rewrite rb_meta_bump.
    + rewrite Hc. exists (ls ++ [l]). split; [by apply Forall2_app; repeat constructor|].
      by rewrite Hx, Hlog, unlines_app, (str_bytes_app (unlines ls)), unlines_cons.
Qed.

(** A session's entry and log survive what happens to another one. *)
Lemma stored_other d d' s m es :
  stored d s m es →
  (∀ idx, read_index d = Ok idx → ∃ idx', read_index d' = Ok idx' ∧
     (∀ x, find_meta s idx = Some (rb_meta x) → find_meta s idx' = Some (rb_meta x))) →
  (∀ c, read_log (session_path c s) d' = read_log (session_path c s) d) →
  stored d' s m es.
Proof.
  intros (idx & Hi & Hm & ls & Hls & Hlog) Hidx Hk. destruct (Hidx idx Hi) as (idx' & Hi' & Hf).
  exists idx'. split_and!; [done|by apply Hf|]. exists ls. by rewrite Hk.
Qed.

Lemma append_other (io : IoPlan) c session e now d r d' s m es :
  s ≠ session → stored d s m es → append io c session e now d = (r, d') → stored d' s m es.
Proof.
  intros Hne Hs Ha. apply append_cases in Ha as (_ & Hk & Hidx). eapply stored_other; [done| |].
  - intros idx Hi. destruct Hidx as [[Hf _]|(_ & idx' & Hi' & _ & Hb)].
    + exists idx. by rewrite (read_index_file _ _ Hf).
    + rewrite Hi in Hi'. injection Hi' as <-. eexists. split; [exact Hb|]. intros x Hx.
      rewrite find_meta_back, (find_meta_bump _ _ _ _ (rb_meta x)); [|apply bump_id|done].
      rewrite decide_False by done. simpl. by rewrite rb_meta_idem.
  - intros c'. apply Hk. unfold session_path. congruence.
Qed.

Lemma find_meta_create (s : str) (m : SessionMeta) idx x :
  s ≠ id m → find_meta s idx = Some x → find_meta s (filter (λ s, id s ≠ id m) idx ++ [m]) = Some x.
Proof.
  intros Hne. induction idx as [|y idx IH]; [done|]. rewrite find_meta_cons, filter_cons.
  destruct (decide (id y = s)) as [Ey|Ey].
  - rewrite decide_True by congruence. simpl. by rewrite find_meta_cons, decide_True.
  - intros Hf. case_decide; [simpl; rewrite find_meta_cons, decide_False by done|]; auto.
Qed.

Lemma find_meta_delete (s session : str) idx i y x :
  s ≠ session → list_find (λ m, id m = session) idx = Some (i, y) →
  find_meta s idx = Some x → find_meta s (delete i idx) = Some x.
Proof.
  intros Hne. revert i. induction idx as [|z idx IH]; intros i; simpl; [done|].
  rewrite find_meta_cons. destruct (decide (id z = session)) as [Ez|Ez].
  - intros [= <- <-]. simpl. by rewrite decide_False by congruence.
  - destruct (list_find (λ m, id m = session) idx) as [[j w]|] eqn:E; simpl; [|done]. intros [= <- <-]. simpl.
    rewrite find_meta_cons. case_decide; [done|]. by apply IH.
Qed.

(** ** The operations as steps *)

Inductive Op : Type :=
  | OpCreate (io : IoPlan) (m : SessionMeta)
  | OpAppend (io : IoPlan) (c s : str) (e : SessionEvent) (now : Z)
  | OpRename (io : IoPlan) (s t : str) (now : Z)
  | OpDelete (io : IoPlan) (removed : bool) (s : str).

Definition run_op (op : Op) (d : Disk) : result unit SessionError * Disk :=
  match op with
  | OpCreate io m => create io m d
  | OpAppend io c s e now => append io c s e now d
  | OpRename io s t now => rename io s t now d
  | OpDelete io removed s => delete_session io removed s d
  end.

Definition target (op : Op) : str :=
  match op with
  | OpCreate _ m => id m
  | OpAppend _ _ s _ _ | OpRename _ s _ _ | OpDelete _ _ s => s
  end.

Lemma create_other io x d r d' s m es :
  s ≠ id x → stored d s m es → create io x d = (r, d') → stored d' s m es.
Proof.
  unfold create. intros Hne Hs. destruct (opens io); simpl; [|by intros [= <- <-]].
  set (d1 := set_log _ _ d). assert (stored d1 s m es) as H1.
  { eapply stored_other; [done| |]; [by intros idx Hi; exists idx|].
    intros c. apply read_log_set_ne. unfold session_path. congruence. }
  destruct (read_index d1) as [idx|err] eqn:Ei; [|by intros [= <- <-]].
  intros Hw. apply write_index_index in Hw as [Hl Hi]. eapply stored_other; [exact H1| |].
  - intros idx' Hi'. rewrite Ei in Hi'. injection Hi' as <-. destruct Hi as [[_ Hi]|[_ Hf]].
    + eexists. split; [exact Hi|]. intros y Hy. rewrite find_meta_back, (find_meta_create _ _ _ _ Hne Hy). simpl.
      by rewrite rb_meta_idem.
    + exists idx. by rewrite (read_index_file _ _ Hf).
  - intros c. unfold read_log. by rewrite Hl.
Qed.

Lemma delete_other io removed x d r d' s m es :
  s ≠ x → stored d s m es → delete_session io removed x d = (r, d') → stored d' s m es.
Proof.
  unfold delete_session. intros Hne Hs.
  destruct (read_index d) as [idx|err] eqn:Ei; [|by intros [= <- <-]].
  destruct (list_find _ idx) as [[i y]|] eqn:Ef; [|by intros [= <- <-]].
  destruct (write_index io (delete i idx) d) as [r1 d1] eqn:Ew.
  apply write_index_index in Ew as [Hl Hi].
  assert (stored d1 s m es) as H1.
  { eapply stored_other; [exact Hs| |].
    - intros idx' Hi'. rewrite Ei in Hi'. injection Hi' as <-. destruct Hi as [[_ Hi]|[_ Hf]].
      + eexists. split; [exact Hi|]. intros z Hz. rewrite find_meta_back, (find_meta_delete _ _ _ _ _ _ Hne Ef Hz). simpl.
        by rewrite rb_meta_idem.
      + exists idx. by rewrite (read_index_file _ _ Hf).
    - intros c. unfold read_log. by rewrite Hl. }
  destruct r1; [|by intros [= <- <-]].
  case_decide; [by intros [= <- <-]|]. destruct removed; intros [= <- <-]; [|done].
  eapply stored_other; [exact H1| |]; [by intros idx' Hi'; exists idx'|].
  intros c. unfold read_log. simpl. rewrite lookup_delete_ne; [done|]. unfold session_path. congruence.
Qed.

Lemma run_op_other (op : Op) (d : Disk) (s : str) m es :
  s ≠ target op → stored d s m es → stored (run_op op d).2 s m es.
Proof.
  destruct op as [io x|io c x e now|io x t now|io b x]; simpl; intros Hne Hs.
  - destruct (create io x d) eqn:E. by eapply create_other.
  - destruct (append io c x e now d) eqn:E. by eapply append_other.
  - unfold rename. destruct (read_index d); [|done]. destruct (find_meta x a) as [y|]; [|done].
    destruct (append io _ x _ now d) eqn:E. by eapply append_other.
  - destruct (delete_session io b x d) eqn:E. by eapply delete_other.
Qed.

(** The successful appends to a session, between any operations on other sessions,
    failing ones included. *)
Inductive history (c s : str) : Disk → list (SessionEvent * Z) → Disk → Prop :=
  | History_nil d : history c s d [] d
  | History_append io e now d d1 l d2 :
      append io c s e now d = (Ok (), d1) → history c s d1 l d2 → history c s d ((e, now) :: l) d2
  | History_other op d l d2 :
      s ≠ target op → history c s (run_op op d).2 l d2 → history c s d l d2.

Definition bumped_all (l : list (SessionEvent * Z)) (m : SessionMeta) : SessionMeta :=
  foldl (λ m en, bumped en.2 en.1 m) m l.

Lemma history_stored c s d l d' m es :
  history c s d l d' → c = cluster_id m → stored d s m es → stored d' s (bumped_all l m) (es ++ l.*1).
Proof.
  intros H. revert m es. induction H as [d|io e now d d1 l d2 Ha _ IH|op d l d2 Hne _ IH]; intros m es Hc Hs.
  - simpl. by rewrite app_nil_r.
  - subst c. eapply append_stored in Ha; [|exact Hs]. apply IH in Ha.
    + simpl in *. by rewrite <- (assoc_L (++)) in Ha.
    + unfold bumped. case_match; [done|]. by rewrite bump_cluster.
  - apply IH; [done|]. by apply run_op_other.
Qed.

Lemma create_stored io m d d' :
  logs d !! session_path (cluster_id m) (id m) = None →
  create io m d = (Ok (), d') → stored d' (id m) m [].
Proof.
  unfold create. intros Hnew. destruct (opens io); simpl; [|done].
  set (k := session_path (cluster_id m) (id m)) in *. set (d1 := set_log k _ d).
  assert (read_log k d1 = []) as Hk by (unfold d1; rewrite read_log_set; unfold read_log; by rewrite Hnew).
  destruct (read_index d1) as [idx|err] eqn:Ei; [|done].
  intros Hw. apply write_index_index in Hw as [Hl [[_ Hi]|[? _]]]; [|done].
  eexists. split_and!; [exact Hi| |exists []; split; [done|]; unfold read_log in *; by rewrite Hl].
  rewrite find_meta_back. change (Some (rb_meta m)) with (rb_meta <$> Some m). f_equal. clear Hi Ei.
  induction idx as [|y idx IH]; simpl; [by rewrite find_meta_cons, decide_True|].
  clear -Hnew. induction idx as [|z idx IH] in y |- *; rewrite filter_cons; case_decide; simpl;
    rewrite ?find_meta_cons, ?decide_False, ?decide_True by done; try done; apply (IH z).
Qed.

(** C13: A session that was created and appended to loads with the events appended, in order
    (folded at the last compaction), and the metadata they amount to, each as serde_json reads
    back what it wrote ([read_back_event], [read_back_meta]): as it was, but for an update that
    clears a field, which is read as one that leaves it alone, and a value that is null or no
    JSON number; whatever operations on other sessions, successful or failing half-way, ran in
    between. *)
Theorem session_round_trip (io : IoPlan) (m : SessionMeta) (d0 d1 d2 : Disk) (l : list (SessionEvent * Z)) :
  logs d0 !! session_path (cluster_id m) (id m) = None →
  create io m d0 = (Ok (), d1) →
  history (cluster_id m) (id m) d1 l d2 →
  load (id m) d2 = Ok {| meta := read_back_meta read_f32 (bumped_all l m);
                         events := apply_compaction (read_back_event read_f32 <$> l.*1) |}.
Proof.
  intros Hnew Hc Hh. assert (cluster_id (bumped_all l m) = cluster_id m) as Hcl.
  { unfold bumped_all. clear. revert m. induction l as [|[e n] l IH]; intros m; [done|]. simpl. rewrite IH.
    unfold bumped. case_match; [done|]. apply bump_cluster. }
  apply load_stored. apply create_stored in Hc; [|done].
  by apply (history_stored _ _ _ _ _ m []) in Hh.
Qed.

(** An index that cannot be read or decoded is never replaced: every operation leaves
    it as it is and fails, but for the appends that do not touch the index, and nothing
    is listed or loaded from it. *)
Theorem index_guard (op : Op) (d : Disk) (err : SessionError) :
  read_index d = Err err →
  index_file (run_op op d).2 = index_file d
  ∧ ((run_op op d).1 = Ok () → ∃ io c s e now, op = OpAppend io c s e now ∧ log_only e = true)
  ∧ (∀ s, load s d = Err err) ∧ (∀ c, list_sessions c d = Err err).
Proof.
  intros He. assert (∀ k b, read_index (set_log k b d) = Err err) as Hs by done.
  split_and!; [| |intros s; unfold load; by rewrite He|intros c; unfold list_sessions; by rewrite He].
  - destruct op as [io x|io c x e now|io x t now|io b x]; simpl.
    + unfold create. destruct (opens io); simpl; [|done]. by rewrite Hs.
    + destruct (append io c x e now d) as [r d'] eqn:E. simpl.
      apply append_cases in E as (_ & _ & [[? _]|(_ & idx & Hi & _)]); [done|congruence].
    + unfold rename. by rewrite He.
    + unfold delete_session. by rewrite He.
  - destruct op as [io x|io c x e now|io x t now|io b x]; simpl.
    + unfold create. destruct (opens io); simpl; [|done]. by rewrite Hs.
    + destruct (append io c x e now d) as [r d'] eqn:E. simpl. intros ->.
      apply append_cases in E as (_ & _ & [[_ Hlo]|(_ & idx & Hi & _)]); [|congruence].
      eexists _, _, _, _, _. split; [done|auto].
    + unfold rename. by rewrite He.
    + unfold delete_session. by rewrite He.
Qed.

(** ** Crashes *)

(** A line cut inside a character makes the log unreadable for good: whatever is appended
    later, the session does not load any more. *)
Lemma torn_character_unloadable (d : Disk) s idx m (es : list SessionEvent) (part rest : str) (c : char) k :
  read_index d = Ok idx → find_meta s idx = Some m →
  Forall (λ x, scalar x = true) part → Forall (λ x, scalar x = true) rest → scalar c = true →
  0 < k < length (char_bytes c) →
  read_log (session_path (cluster_id m) s) d = str_bytes part ++ take k (char_bytes c) ++ str_bytes rest →
  load s d = Err IoError.
Proof.
  intros Hi Hm Hp Hr Hc Hk Hlog. unfold load. rewrite Hi. simpl. by rewrite Hm, Hlog, utf8_torn.
Qed.

(** A torn line is skipped, but the next event is written behind it, on the same line,
    and is skipped with it. *)
Lemma torn_line_swallows_next (d : Disk) s m idx es ls part e l ts :
  read_index d = Ok idx → find_meta s idx = Some m →
  Forall2 (λ e l, encode_event e = Some l) es ls →
  clean_line part → Forall (λ x, scalar x = true) part →
  encode_event e = Some l → decode_event (part ++ l) = None → log_only e = true →
  read_log (session_path (cluster_id m) s) d = str_bytes (unlines ls ++ part) →
  (append all_well (cluster_id m) s e ts d).1 = Ok ()
  ∧ load s (append all_well (cluster_id m) s e ts d).2
    = Ok {| meta := m; events := apply_compaction (read_back_event read_f32 <$> es) |}.
Proof.
  intros Hi Hm Hls [Hp1 Hp2] Hp He Hdec Hlo Hlog. destruct (logged_lines es ls Hls) as (H1 & H2 & H3).
  destruct (encode_event_line e l He) as ([Hl1 Hl2] & Hlt & Hls').
  unfold append. simpl. rewrite He, Hlo. simpl. split; [done|].
  unfold load. change (read_index (set_log ?k ?b ?x)) with (read_index x).
  change (read_index (set_log ?k ?b ?x)) with (read_index x). rewrite Hi. simpl. rewrite Hm, !read_log_set, Hlog.
  rewrite <- str_bytes_app, utf8_round_trip.
  2: { rewrite !Forall_app. split_and!; try done; [by apply unlines_scalar|by constructor]. }
  rewrite <- !(assoc_L (++)), lines_unlines_app by done.
  rewrite (assoc_L (++) part), lines_cons by (rewrite elem_of_app; tauto).
  rewrite strip_cr_id.
  2: { destruct l as [|x l _] using rev_ind; [done|]. rewrite (assoc_L (++)), last_snoc. by rewrite last_snoc in Hl2. }
  rewrite omap_app, H3. simpl. unfold parse_line. case_decide; simpl; rewrite ?Hdec; by rewrite app_nil_r.
Qed.
End Store.

(** ** Replay *)

Definition replay_step (l : list ChatMessage) (e : SessionEvent) : list ChatMessage :=
  match e with
  | Message m _ => l ++ [m]
  | Compaction _ _ summary tail _ => checkpoint summary :: tail
  | _ => l
  end.

Lemma omap_messages (kept : list ChatMessage) ts : omap message_of ((λ m, Message m ts) <$> kept) = kept.
Proof. induction kept as [|m kept IH]; [done|]. simpl. f_equal. exact IH. Qed.

Lemma last_compaction_app (es : list SessionEvent) (e : SessionEvent) :
  last_compaction (es ++ [e])
  = if is_compaction e then Some (e, [])
    else match last_compaction es with Some (x, tail) => Some (x, tail ++ [e]) | None => None end.
Proof.
  induction es as [|x es IH]; simpl; [done|]. rewrite IH. destruct (is_compaction e); [done|].
  destruct (last_compaction es) as [[y tail]|]; [done|]. by destruct (is_compaction x).
Qed.

Lemma last_compaction_is (es : list SessionEvent) x tail :
  last_compaction es = Some (x, tail) → is_compaction x = true.
Proof.
  induction es as [|e es IH]; simpl; [done|]. destruct (last_compaction es) as [[y r]|].
  - intros [= <- <-]. by apply IH.
  - destruct (is_compaction e) eqn:E; [|done]. by intros [= <- <-].
Qed.

Lemma replay_snoc (es : list SessionEvent) (e : SessionEvent) :
  replay (es ++ [e]) = replay_step (replay es) e.
Proof.
  unfold replay, apply_compaction. rewrite last_compaction_app.
  destruct e as [m ts|? ? ts|? ts|? ? ? ts|? ? ? ts|h t summary kept ts]; simpl;
    [..|f_equal; rewrite app_nil_r; apply omap_messages];
    (destruct (last_compaction es) as [[x tail]|] eqn:E;
      [apply last_compaction_is in E; destruct x; try done; simpl; rewrite (assoc_L (++)), omap_app; simpl;
         by rewrite ?app_nil_r
      |rewrite omap_app; simpl; by rewrite ?app_nil_r]).
Qed.

(** Loading a log folds it: what apply_compaction leaves, seen as a transcript, is what
    appending each message and replacing everything at each compaction gives. *)
Theorem replay_folds (es : list SessionEvent) : replay es = foldl replay_step [] es.
Proof.
  induction es as [|e es IH] using rev_ind; [done|]. by rewrite replay_snoc, foldl_app, IH.
Qed.

(** The transcript is none of what serde_json reads otherwise. *)
Lemma replay_read_back (rt : f32 → option f32) (es : list SessionEvent) :
  replay (read_back_event rt <$> es) = replay es.
Proof.
  rewrite !replay_folds. generalize (@nil ChatMessage). induction es as [|e es IH]; intros l; [done|]. simpl.
  rewrite IH. by destruct e.
Qed.

(** ** An instance: files that name the entries of two tables *)

#[global] Instance ProviderKind_eq_dec : EqDecision ProviderKind.
Proof. solve_decision. Defined.

#[global] Instance SessionMeta_eq_dec : EqDecision SessionMeta.
Proof. solve_decision. Defined.

#[global] Instance SessionUpdate_eq_dec : EqDecision SessionUpdate.
Proof. solve_decision. Defined.

#[global] Instance SessionEvent_eq_dec : EqDecision SessionEvent.
Proof. solve_decision. Defined.

Section Table.
Context {A : Type} `{!EqDecision A} (table : list A).

Definition table_encode (a : A) : option (list N) :=
  match list_find (a =.) table with
  | Some (i, _) => if decide (i < 20) then Some [97 + N.of_nat i]%N else None
  | None => None
  end.

Definition table_decode (l : list N) : option A :=
  match l with [c] => table !! N.to_nat (c - 97) | _ => None end.

Lemma table_decode_encode (a : A) l :
  table_encode a = Some l → table_decode l = Some a ∧ ∃ c, l = [c] ∧ (97 ≤ c < 117)%N.
Proof.
  unfold table_encode. destruct (list_find _ table) as [[i x]|] eqn:E; [|done]. case_decide; [|done].
  intros [= <-]. apply list_find_Some in E as (Hi & -> & _). split; [|by exists (97 + N.of_nat i)%N; split; [|lia]].
  simpl. replace (97 + N.of_nat i - 97)%N with (N.of_nat i) by lia. by rewrite Nat2N.id.
Qed.
End Table.

Lemma small_letter_line (c : N) :
  (97 ≤ c < 117)%N → clean_line [c] ∧ trim [c] ≠ [] ∧ Forall (λ c, scalar c = true) [c].
Proof.
  intros Hc. assert (is_whitespace c = false) as Hw.
  { replace c with (97 + N.of_nat (N.to_nat (c - 97)))%N by lia.
    assert (N.to_nat (c - 97) < 20) as Hn by lia. revert Hn. generalize (N.to_nat (c - 97)). intros n Hn.
    do 20 (destruct n as [|n]; [reflexivity|]). lia. }
  split_and!.
  - split; [rewrite list_elem_of_singleton; unfold LF; lia|]. simpl. intros [= E]. unfold CR in E. lia.
  - unfold trim. rewrite trim_matches_no; [done|..]; simpl; by intros ? [= <-].
  - forall_list. unfold scalar. destruct (N.ltb_spec c 55296); [done|lia].
Qed.

Definition table_wire (evs : list SessionEvent) (idxs : list (list SessionMeta)) : SessionWire.
Proof.
  refine {| read_f32 := Some; encode_event := table_encode evs;
            decode_event := λ l, read_back_event Some <$> table_decode evs l; encode_index := table_encode idxs;
            decode_index := λ b, (λ i : list SessionMeta, read_back_meta Some <$> i) <$> table_decode idxs b |}.
  - intros e l H. by apply table_decode_encode in H as [-> _].
  - intros e l H. apply table_decode_encode in H as (_ & c & -> & Hc). by apply small_letter_line.
  - intros i b H. apply table_decode_encode in H as (E & c & -> & _). by rewrite E.
  - done.
Defined.

Definition a_session : SessionMeta :=
  {| id := "s1"; cluster_id := "kind-dev"; title := "New chat"; created_at_unix_ms := 1;
     updated_at_unix_ms := 1; provider_kind := OpenAI; model := "m"; approval_mode := ApprovePerWrite;
     temperature := None; max_tokens := None; provider_options := None; last_total_tokens := None;
     active_cluster_id := None |}.

Definition two_events : list (SessionEvent * Z) :=
  [(Message (plain User "hi") 2, 2); (Usage 7 3 10 3, 3)]%Z.

Definition small_wire : SessionWire :=
  table_wire two_events.*1
    [[a_session]; [bumped_all (take 1 two_events) a_session]; [bumped_all two_events a_session]].

Lemma session_round_trip_witness :
  ∃ d1 d2, create (W := small_wire) all_well a_session empty_disk = (Ok (), d1)
    ∧ history (W := small_wire) "kind-dev" "s1" d1 two_events d2
    ∧ load (W := small_wire) "s1" d2
      = Ok {| meta := bumped_all two_events a_session; events := apply_compaction two_events.*1 |}.
Proof.
  eexists _, _. assert (∀ A B C : Prop, A → B → (A → B → C) → A ∧ B ∧ C) as H by tauto. apply H; clear H.
  - vm_compute. reflexivity.
  - unfold two_events. eapply (History_append _ _ all_well); [vm_compute; reflexivity|].
    eapply (History_other _ _ (OpDelete all_well true "s2")); [by vm_compute|].
    eapply (History_append _ _ all_well); [vm_compute; reflexivity|]. constructor.
  - intros Hc Hh. by apply (session_round_trip (W := small_wire) all_well a_session empty_disk _ _ two_events eq_refl Hc).
Defined.

Lemma index_guard_witness :
  index_file (run_op (W := small_wire) (OpDelete all_well true "s1") {| index_file := Unreadable; logs := ∅ |}).2
  = Unreadable.
Proof.
  exact (proj1 (index_guard (W := small_wire) (OpDelete all_well true "s1")
    {| index_file := Unreadable; logs := ∅ |} IoError eq_refl)).
Defined.

(** The switch back to the cluster a chat started from, as chat_open logs it, is read as an update
    that changes nothing. *)
Lemma cleared_override_unread rt now :
  let back := {| u_title := None; u_model := None; u_approval_mode := None; u_temperature := None;
                 u_max_tokens := None; u_provider_options := None; u_active_cluster_id := Some None |} in
  read_back_event rt (Update back now) = Update no_update now
  ∧ active_cluster_id (apply_update back (apply_update {| u_title := None; u_model := None; u_approval_mode := None;
      u_temperature := None; u_max_tokens := None; u_provider_options := None;
      u_active_cluster_id := Some (Some (lit "prod")) |} a_session)) = None
  ∧ active_cluster_id (apply_update (read_back_update rt back) (apply_update {| u_title := None; u_model := None;
      u_approval_mode := None; u_temperature := None; u_max_tokens := None; u_provider_options := None;
      u_active_cluster_id := Some (Some (lit "prod")) |} a_session)) = Some (lit "prod").
Proof. done. Qed.

(** The hypotheses of the two lemmas on crashes meet on a concrete log: the first byte of
    the two of an "é", and the table's "a" torn off "b". *)
Example torn_character :
  load (W := small_wire) "s1"
    {| index_file := Bytes [97%N]; logs := {[ (lit "kind-dev", lit "s1") := [195%N] ]} |} = Err IoError.
Proof. vm_compute. reflexivity. Qed.

Example torn_line :
  let d := {| index_file := Bytes [97%N]; logs := {[ (lit "kind-dev", lit "s1") := [97; 10; 97]%N ]} |} in
  let d' := (append (W := small_wire) all_well "kind-dev" "s1" (Usage 7 3 10 3) 3 d).2 in
  (load (W := small_wire) "s1" d', read_log (lit "kind-dev", lit "s1") d')
  = (Ok {| meta := bumped 3 (Usage 7 3 10 3) a_session; events := [Message (plain User "hi") 2] |},
     [97; 10; 97; 98; 10]%N).
Proof. vm_compute. reflexivity. Qed.
