(* ===== verification/Clip.v ===== *)
(** * Clipping text to a budget of bytes

    char_boundary_floor, cap_tool_result and maybe_spill of app/src/agent/tools.rs and
    render_head_for_summary of app/src/agent/compaction.rs.  Indices are byte offsets into
    the UTF-8 text; a slice or a [truncate] off a character boundary panics ([None]).
    The write of the spool is an argument: whether it succeeded. *)

From S2P Require Import Prelude Utf8 Transcript.

(** ** Byte offsets *)

Definition byte_length (s : str) : nat := length (str_bytes s).

(** [str::is_char_boundary] *)
Definition is_char_boundary (b : list N) (i : nat) : bool :=
  match i with
  | 0 => true
  | _ => match b !! i with
         | Some x => negb (is_cont x)
         | None => bool_decide (i = length b)
         end
  end.

(** The [while] of char_boundary_floor, [end_] counted down. *)
Fixpoint floor_back (b : list N) (end_ : nat) : nat :=
  match end_ with
  | 0 => 0
  | S e => if is_char_boundary b end_ then end_ else floor_back b e
  end.

Definition char_boundary_floor (s : str) (max : nat) : nat :=
  if decide (byte_length s ≤ max) then byte_length s else floor_back (str_bytes s) max.

(** [&s[..n]], [String::truncate(n)] *)
Fixpoint slice_to (n : nat) (s : str) : option str :=
  match s with
  | [] => if decide (n = 0) then Some [] else None
  | c :: s =>
      if decide (n = 0) then Some []
      else if decide (length (char_bytes c) ≤ n) then cons c <$> slice_to (n - length (char_bytes c)) s
      else None
  end.

(** ** Tool results *)

Definition MAX_TOOL_RESULT_BYTES : nat := N.to_nat 30000.

(** A horizontal ellipsis, an em dash, a quotation mark. *)
Definition ELLIPSIS : char := 8230%N.

Definition EM_DASH : char := 8212%N.

Definition QUOTE : char := 34%N.

Definition cap_marker (handle : option str) (end_ total : nat) : str :=
  LF :: LF :: ELLIPSIS :: lit "[tool output truncated: " ++
  match handle with
  | Some h =>
      lit "showing the first " ++ nat_str end_ ++ lit " of " ++ nat_str total
        ++ lit " bytes. Full output saved as handle " ++ QUOTE :: h ++ QUOTE :: lit " " ++ EM_DASH
        :: lit " call `fs_tool_output_read` (offset/limit) to page through it or `fs_tool_output_grep` (pattern) to search it. Or narrow the original request and call again.]"
  | None =>
      nat_str (total - end_) ++ lit " of " ++ nat_str total
        ++ lit " bytes omitted. Narrow the request (label/field selector, a more specific name, namespace, time range, or limit) and call again to see the rest.]"
  end.

Definition cap_tool_result (content : str) (handle : option str) : option str :=
  if decide (byte_length content ≤ MAX_TOOL_RESULT_BYTES) then Some content
  else
    let end_ := char_boundary_floor content MAX_TOOL_RESULT_BYTES in
    out ← slice_to end_ content;
    Some (out ++ cap_marker handle end_ (byte_length content)).

(** [stored] is what [spool.put] answers. *)
Definition maybe_spill (stored : bool) (handle content : str) : option str :=
  if decide (byte_length content ≤ MAX_TOOL_RESULT_BYTES) then Some content
  else cap_tool_result content (if stored then Some handle else None).

(** ** The head a summary is made of *)

Definition PER_MSG_CAP : nat := N.to_nat 8000.

Definition role_name (r : MessageRole) : str :=
  match r with
  | System => lit "system" | User => lit "user" | Assistant => lit "assistant" | Tool => lit "tool"
  end.

Definition render_content (content : str) : option str :=
  if decide (content = []) then Some []
  else if decide (PER_MSG_CAP < byte_length content) then
    kept ← slice_to (char_boundary_floor content PER_MSG_CAP) content;
    Some (kept ++ LF :: ELLIPSIS :: lit "(truncated, " ++ nat_str (byte_length content)
            ++ lit " bytes)" ++ [LF])
  else Some (content ++ [LF]).

Definition render_call (tc : ToolCall) : str :=
  lit "called tool `" ++ tc_name tc ++ lit "` with " ++ arguments tc ++ [LF].

Definition render_message (m : ChatMessage) : option str :=
  body ← render_content (content m);
  Some (lit "[" ++ role_name (role m) ++ lit "]" ++ LF :: body ++ (tool_calls m ≫= render_call) ++ [LF]).

Definition concat_str (l : list str) : str := mjoin l.

Definition render_head_for_summary (messages : list ChatMessage) : option str :=
  parts ← mapM render_message messages;
  Some (lit "Conversation transcript to summarise:" ++ LF :: LF :: concat_str parts).

(** ** Boundaries *)

Lemma byte_length_app (s t : str) : byte_length (s ++ t) = byte_length s + byte_length t.
Proof. unfold byte_length, str_bytes. by rewrite bind_app, length_app. Qed.

Lemma slice_to_app (s t : str) : slice_to (byte_length s) (s ++ t) = Some s.
Proof.
  induction s as [|c s IH]; [by destruct t|]. unfold byte_length in *.
  simpl. rewrite length_app. assert (0 < length (char_bytes c)) as Hc.
  { unfold char_bytes. repeat case_match; simpl; lia. }
  rewrite decide_False, decide_True by lia. by rewrite Nat.add_comm, Nat.add_sub, IH.
Qed.

Lemma char_bytes_length (c : char) : scalar c = true → 0 < length (char_bytes c) ≤ 4.
Proof. intros _. unfold char_bytes. repeat case_match; simpl; lia. Qed.

Lemma boundary_shift (bs : list N) (s : str) (k : nat) :
  Forall (λ c, scalar c = true) s →
  is_char_boundary (bs ++ str_bytes s) (length bs + k) = is_char_boundary (str_bytes s) k.
Proof.
  intros Hs. unfold is_char_boundary at 1. destruct (length bs + k) as [|n] eqn:E.
  - by replace k with 0 by lia.
  - rewrite <- E, lookup_app_r, length_app by lia. replace (length bs + k - length bs) with k by lia.
    destruct k as [|k].
    + destruct Hs as [|c s Hc _]; [simpl; apply bool_decide_eq_true; lia|].
      destruct (char_bytes_shape c Hc) as (y & ty & Ey & Hy & _). rewrite str_bytes_cons, Ey. simpl. by rewrite Hy.
    + simpl. case_match; [done|]. apply bool_decide_ext. lia.
Qed.

(** Below each offset there is a character boundary at most three bytes away, with
    continuation bytes in between. *)
Lemma boundary_below (s : str) (i : nat) :
  Forall (λ c, scalar c = true) s → i ≤ byte_length s →
  ∃ pre post, s = pre ++ post ∧ byte_length pre ≤ i < byte_length pre + 4
    ∧ is_char_boundary (str_bytes s) (byte_length pre) = true
    ∧ ∀ j, byte_length pre < j ≤ i → is_char_boundary (str_bytes s) j = false.
Proof.
  intros Hs. revert i. induction Hs as [|c s Hc Hs IH]; intros i Hi.
  - exists [], []. unfold byte_length in *. simpl in *. split_and!; done || lia.
  - destruct (char_bytes_shape c Hc) as (b0 & tl & E & Hb0 & Htl & _).
    pose proof (char_bytes_length c Hc) as Hl. unfold byte_length in *.
    rewrite str_bytes_cons, ?length_app in *. destruct (decide (i < length (char_bytes c))) as [Hlt|Hge].
    + exists [], (c :: s). simpl. split_and!; [done|lia..|done|]. intros j Hj.
      destruct j as [|j]; [lia|]. unfold is_char_boundary. rewrite lookup_app_l by lia.
      rewrite E in *. simpl in *.
      destruct (tl !! j) as [x|] eqn:Ex; [|apply lookup_ge_None_1 in Ex; lia].
      rewrite Forall_lookup in Htl. by rewrite (Htl _ _ Ex).
    + destruct (IH (i - length (char_bytes c))) as (pre & post & -> & Hpre & Hb & Hj); [lia|].
      exists (c :: pre), post. rewrite !str_bytes_cons, !length_app. split_and!; [done|lia..| |].
      * by rewrite boundary_shift.
      * intros j Hjj. replace j with (length (char_bytes c) + (j - length (char_bytes c))) by lia.
        rewrite boundary_shift by done. apply Hj. lia.
Qed.

Lemma floor_back_to (b : list N) (k i : nat) :
  k ≤ i → is_char_boundary b k = true → (∀ j, k < j ≤ i → is_char_boundary b j = false) →
  floor_back b i = k.
Proof.
  intros Hki Hk. induction i as [|i IH]; intros Hj; [simpl; lia|]. destruct (decide (k = S i)) as [->|Hne].
  - cbn [floor_back]. by rewrite Hk.
  - cbn [floor_back]. rewrite Hj by lia. apply IH; [lia|]. intros; apply Hj; lia.
Qed.

Lemma char_boundary_floor_cut (s : str) (max : nat) :
  Forall (λ c, scalar c = true) s →
  ∃ kept rest, s = kept ++ rest ∧ char_boundary_floor s max = byte_length kept
    ∧ slice_to (char_boundary_floor s max) s = Some kept
    ∧ byte_length kept ≤ max ∧ (rest ≠ [] → max < byte_length kept + 4).
Proof.
  intros Hs. unfold char_boundary_floor. case_decide as Hm.
  - exists s, []. rewrite app_nil_r. split_and!; try done. rewrite <- (app_nil_r s) at 2. apply slice_to_app.
  - destruct (boundary_below s max Hs) as (kept & rest & -> & Hk & Hb & Hj); [lia|].
    rewrite (floor_back_to _ (byte_length kept)) by (done || lia).
    exists kept, rest. split_and!; [done..|apply slice_to_app|lia|lia].
Qed.

(** Whatever a tool returns, clipping it never cuts inside a character: a result of
    at most thirty thousand bytes is passed on as it is, a longer one keeps a prefix
    of at most that, short of it by three bytes at most, followed by the marker that
    counts the bytes kept or dropped, and names the handle exactly when the full output
    was stored. *)
Theorem maybe_spill_bounds (stored : bool) (handle content : str) :
  Forall (λ c, scalar c = true) content →
  if decide (byte_length content ≤ MAX_TOOL_RESULT_BYTES)
  then maybe_spill stored handle content = Some content
  else ∃ kept rest, content = kept ++ rest
    ∧ MAX_TOOL_RESULT_BYTES - 3 ≤ byte_length kept ≤ MAX_TOOL_RESULT_BYTES
    ∧ maybe_spill stored handle content
      = Some (kept ++ cap_marker (if stored then Some handle else None) (byte_length kept) (byte_length content)).
Proof.
  intros Hs. unfold maybe_spill, cap_tool_result. case_decide as Hc; [done|].
  destruct (char_boundary_floor_cut content MAX_TOOL_RESULT_BYTES Hs) as (kept & rest & E & Ef & Esl & Hk & Hr).
  exists kept, rest. rewrite Esl, Ef. split_and!; try done.
  enough (rest ≠ []) as Hne by (specialize (Hr Hne); lia).
  intros ->. rewrite app_nil_r in E. subst. lia.
Qed.

Lemma render_content_total (s : str) : Forall (λ c, scalar c = true) s → is_Some (render_content s).
Proof.
  intros Hs. destruct (char_boundary_floor_cut s PER_MSG_CAP Hs) as (kept & rest & _ & _ & E & _).
  unfold render_content. repeat case_decide; [by eexists| |by eexists]. rewrite E. by eexists.
Qed.

(** Rendering a head for its summary never panics. *)
Lemma render_head_total (messages : list ChatMessage) :
  Forall (λ m, Forall (λ c, scalar c = true) (content m)) messages →
  is_Some (render_head_for_summary messages).
Proof.
  intros Hm. unfold render_head_for_summary.
  assert (is_Some (mapM render_message messages)) as [parts ->]; [|by eexists].
  apply mapM_is_Some. eapply Forall_impl; [exact Hm|]. intros m Hc. simpl.
  destruct (render_content_total (content m) Hc) as [body E]. unfold render_message. rewrite E. by eexists.
Qed.

Lemma byte_length_replicate (n : nat) (c : char) :
  byte_length (replicate n c) = n * length (char_bytes c).
Proof.
  induction n as [|n IH]; [done|]. change (replicate (S n) c) with ([c] ++ replicate n c).
  rewrite byte_length_app, IH. unfold byte_length. simpl. by rewrite app_nil_r.
Qed.

(** A euro sign takes three bytes; one more of them than fits. *)
Definition euros : str := replicate (N.to_nat 10001) 8364%N.

Lemma maybe_spill_bounds_witness :
  Forall (λ c, scalar c = true) euros
  ∧ ∃ kept rest, euros = kept ++ rest ∧ byte_length kept ≤ MAX_TOOL_RESULT_BYTES
    ∧ maybe_spill false [] euros = Some (kept ++ cap_marker None (byte_length kept) (byte_length euros)).
Proof.
  assert (Forall (λ c, scalar c = true) euros) as Hs by by apply Forall_replicate.
  split; [exact Hs|]. pose proof (maybe_spill_bounds false [] euros Hs) as H.
  destruct (decide _) as [Hd|_] in H.
  - exfalso. unfold euros in Hd. rewrite byte_length_replicate in Hd.
    change (length (char_bytes 8364)) with 3 in Hd. unfold MAX_TOOL_RESULT_BYTES in Hd. lia.
  - destruct H as (kept & rest & E & [_ Hk] & Hm). exists kept, rest. repeat split; [exact E|exact Hk|exact Hm].
Defined.
