(* ===== verification/Spool.v ===== *)
(** * Spilled tool output (app/src/agent_native/tool_output.rs)

    A tool result that is too long is kept on disk under the id of its call
    ([ToolSpool]); two tools page through it and search it, and a sweep removes the
    directories of chats that were not written for a week.

    Of the file system an operation is told whether it works.  A directory is the files of
    one chat, under the names of its cluster and its session, a hash and a generated id.
    Texts are sequences of characters and offsets count bytes, as in Clip; a slice off a
    boundary is a panic, [None]. *)

From S2P Require Import Prelude Utf8 Clip.

(** ** The store *)

Definition RETENTION : Z := 7 * 24 * 60 * 60.

Definition sanitize_char (c : char) : char :=
  if is_ascii_alphanumeric c || (c =? 95)%N || (c =? HYPHEN)%N || (c =? DOT)%N then c else 95%N.

Definition sanitize (s : str) : str := sanitize_char <$> s.

(** A file: its bytes, and when it was written. *)
Record SpoolFile : Set := { bytes : list N; modified : Z }.

(** The directories by cluster and session. *)
Abbreviation Tree := (gmap str (gmap str (gmap str SpoolFile))).

Record ToolSpool : Set := { dir : option (str * str) }.

(** [root]: whether the platform has a cache directory. *)
Definition new_spool (root : bool) (cluster_id session_id : str) : ToolSpool :=
  {| dir := if root then Some (sanitize cluster_id, sanitize session_id) else None |}.

(** A name that joins to a directory: the directory itself, or the one above. *)
Definition is_dir_name (f : str) : bool := bool_decide (f ∈ [[]; [DOT]; [DOT; DOT]]).

Definition files_of (t : Tree) (d : str * str) : option (gmap str SpoolFile) := c ← t !! d.1; c !! d.2.

Definition set_files (d : str * str) (fs : gmap str SpoolFile) (t : Tree) : Tree :=
  <[d.1 := <[d.2 := fs]> (default ∅ (t !! d.1))]> t.

(** What the disk does with a [put]: creating the directory works or not; the write keeps
    all bytes, or some and fails. *)
Record PutIo : Set := { mkdir_ok : bool; torn : option nat; written_at : Z }.

Definition put (io : PutIo) (p : ToolSpool) (handle content : str) (t : Tree) : bool * Tree :=
  match dir p with
  | None => (false, t)
  | Some d =>
      if mkdir_ok io then
        let fs := default ∅ (files_of t d) in
        let t := set_files d fs t in
        let f := sanitize handle in
        if is_dir_name f then (false, t)
        else match torn io with
             | None => (true, set_files d (<[f := {| bytes := str_bytes content; modified := written_at io |}]> fs) t)
             | Some k => (false, set_files d (<[f := {| bytes := take k (str_bytes content); modified := written_at io |}]> fs) t)
             end
      else (false, t)
  end.

Inductive LoadError : Set := Unavailable | NotFound (handle : str) | ReadFailed.

(** [readable]: whether the read works. *)
Definition load (readable : bool) (p : ToolSpool) (handle : str) (t : Tree) : result str LoadError :=
  match dir p with
  | None => Err Unavailable
  | Some d =>
      let f := sanitize handle in
      match files_of t d with
      | None => Err (NotFound handle)
      | Some fs =>
          if is_dir_name f then Err ReadFailed
          else match fs !! f with
               | None => Err (NotFound handle)
               | Some file =>
                   if readable then match utf8_decode (bytes file) with Some s => Ok s | None => Err ReadFailed end
                   else Err ReadFailed
               end
      end
  end.

(** ** The sweep *)

(** What the disk answers to a sweep. *)
Record SweepIo : Type := {
  now : Z; lists : str → bool; reads : str → str → bool; stats : str → str → str → bool;
  removes : str → str → bool;
}.

Definition newest (io : SweepIo) (c s : str) (fs : gmap str SpoolFile) : option Z :=
  foldr (λ p acc, if stats io c s p.1 then Some (match acc with Some n => Z.max n (modified p.2) | None => modified p.2 end) else acc)
    None (map_to_list fs).

Definition dir_is_stale (io : SweepIo) (cutoff : Z) (c s : str) (fs : gmap str SpoolFile) : bool :=
  if reads io c s then match newest io c s fs with None => true | Some m => (m <? cutoff)%Z end else true.

(** The sessions of a cluster behind the sweep; the directory of the cluster goes when all
    were stale and nothing is left in it. *)
Definition sweep_cluster (io : SweepIo) (cutoff : Z) (c : str) (ss : gmap str (gmap str SpoolFile)) :
    option (gmap str (gmap str SpoolFile)) :=
  if lists io c then
    let left := filter (λ p, negb (dir_is_stale io cutoff c p.1 p.2 && removes io c p.1) = true) ss in
    let any_left := existsb (λ p, negb (dir_is_stale io cutoff c p.1 p.2)) (map_to_list ss) in
    if negb any_left && bool_decide (left = ∅) then None else Some left
  else Some ss.

Definition sweep_expired (io : SweepIo) (t : Tree) : Tree :=
  let cutoff := (now io - RETENTION)%Z in
  map_imap (sweep_cluster io cutoff) t.

(** ** Slices *)

(** [&s[n..]] *)
Fixpoint slice_from (n : nat) (s : str) : option str :=
  match n with
  | 0 => Some s
  | _ => match s with
         | [] => None
         | c :: s => if decide (length (char_bytes c) ≤ n) then slice_from (n - length (char_bytes c)) s else None
         end
  end.

(** [&s[a..b]] *)
Definition slice (a b : nat) (s : str) : option str :=
  if decide (a ≤ b) then rest ← slice_from a s; slice_to (b - a) rest else None.

(** ** fs_tool_output_read *)

Definition READ_DEFAULT_LIMIT : nat := N.to_nat 30000.

Definition READ_MAX_LIMIT : nat := N.to_nat 100000.

Definition clamp (x lo hi : nat) : nat := Nat.max lo (Nat.min x hi).

Record Page : Set := {
  total_bytes : nat; page_offset : nat; returned_bytes : nat; next_offset : option nat; eof : bool; page : str;
}.

(** What [call] makes of the loaded text. *)
Definition read_page (offset : nat) (limit : option nat) (content : str) : option Page :=
  let total := byte_length content in
  let limit := clamp (default READ_DEFAULT_LIMIT limit) 1 READ_MAX_LIMIT in
  let start := char_boundary_floor content (Nat.min offset total) in
  let end_ := char_boundary_floor content (Nat.min (start + limit) total) in
  text ← slice start (Nat.max end_ start) content;
  Some {| total_bytes := total; page_offset := start; returned_bytes := byte_length text;
          next_offset := if decide (end_ < total) then Some end_ else None;
          eof := bool_decide (total ≤ end_); page := text |}.

Definition read_call (readable : bool) (p : ToolSpool) (handle : str) (offset : nat) (limit : option nat) (t : Tree) :
    result (option Page) LoadError :=
  content <-? load readable p handle t; Ok (read_page offset limit content).

(** ** fs_tool_output_grep *)

Definition GREP_DEFAULT_MAX_MATCHES : nat := 50.

Definition GREP_MAX_MATCHES : nat := 500.

Definition GREP_DEFAULT_CONTEXT : nat := 160.

Definition GREP_MAX_CONTEXT : nat := N.to_nat 2000.

Definition fold_byte (ignore_case : bool) (b : N) : N := if ignore_case then to_ascii_lowercase b else b.

(** The first match in the bytes, by how many come before it. *)
Fixpoint find_bytes (ignore_case : bool) (n h : list N) : option nat :=
  if bool_decide (fold_byte ignore_case <$> take (length n) h = fold_byte ignore_case <$> n) then Some 0
  else match h with [] => None | _ :: h => S <$> find_bytes ignore_case n h end.

Definition next_match (content pattern : str) (from : nat) (ignore_case : bool) : option nat :=
  let h := str_bytes content in
  let n := str_bytes pattern in
  if bool_decide (n = []) || bool_decide (length h < from) then None
  else if ignore_case then Nat.add from <$> find_bytes true n (drop from h)
  else if is_char_boundary h from then Nat.add from <$> find_bytes false n (drop from h) else None.

Definition window (content : str) (pos match_len context : nat) : option (nat * str) :=
  let start := char_boundary_floor content (pos - context) in
  let raw_end := Nat.min (pos + match_len + context) (byte_length content) in
  let end_ := Nat.max (char_boundary_floor content raw_end) start in
  text ← slice start end_ content; Some (start, text).

Record Match : Set := { m_offset : nat; m_line : nat; window_offset : nat; snippet : str }.

(** [n] matches at most, from byte [from] on; [counted] and [line] are where the newlines have
    been counted to. *)
Fixpoint grep_loop (content pattern : str) (ignore_case : bool) (context : nat) (n from counted line : nat) :
    option (list Match * nat) :=
  match n with
  | 0 => Some ([], from)
  | S n =>
      match next_match content pattern from ignore_case with
      | None => Some ([], from)
      | Some pos =>
          let line := line + length (filter (eq LF) (drop counted (take pos (str_bytes content)))) in
          w ← window content pos (byte_length pattern) context;
          r ← grep_loop content pattern ignore_case context n (pos + byte_length pattern) pos line;
          Some ({| m_offset := pos; m_line := line; window_offset := w.1; snippet := w.2 |} :: r.1, r.2)
      end
  end.

Record Found : Set := { matches : list Match; truncated : bool }.

Definition grep (pattern : str) (ignore_case : bool) (max_matches context_bytes : option nat) (content : str) :
    option Found :=
  let max := clamp (default GREP_DEFAULT_MAX_MATCHES max_matches) 1 GREP_MAX_MATCHES in
  let context := Nat.min (default GREP_DEFAULT_CONTEXT context_bytes) GREP_MAX_CONTEXT in
  r ← grep_loop content pattern ignore_case context max 0 0 1;
  Some {| matches := r.1;
          truncated := bool_decide (length r.1 = max)
            && match next_match content pattern r.2 ignore_case with Some _ => true | None => false end |}.

Inductive GrepError : Set := EmptyPattern | NotLoaded (e : LoadError).

Definition grep_call (readable : bool) (p : ToolSpool) (handle pattern : str) (ignore_case : bool)
    (max_matches context_bytes : option nat) (t : Tree) : result (option Found) GrepError :=
  if bool_decide (pattern = []) then Err EmptyPattern
  else match load readable p handle t with
       | Err e => Err (NotLoaded e)
       | Ok content => Ok (grep pattern ignore_case max_matches context_bytes content)
       end.

(** ** Cuts *)

Definition text (s : str) : Prop := Forall (λ c, scalar c = true) s.

Lemma text_app (a b : str) : text (a ++ b) ↔ text a ∧ text b.
Proof. apply Forall_app. Qed.

Lemma char_bytes_pos (c : char) : 0 < length (char_bytes c).
Proof. unfold char_bytes. repeat case_match; simpl; lia. Qed.

Lemma byte_length_cons (c : char) (s : str) : byte_length (c :: s) = length (char_bytes c) + byte_length s.
Proof. unfold byte_length. by rewrite str_bytes_cons, length_app. Qed.

Lemma byte_length_0 (s : str) : byte_length s = 0 → s = [].
Proof. destruct s as [|c s]; [done|]. rewrite byte_length_cons. pose proof (char_bytes_pos c). lia. Qed.

Lemma slice_from_app (s t : str) : slice_from (byte_length s) (s ++ t) = Some t.
Proof.
  induction s as [|c s IH]; [by destruct t|]. rewrite byte_length_cons. pose proof (char_bytes_pos c).
  destruct (length (char_bytes c) + byte_length s) as [|n] eqn:E; [lia|]. cbn [slice_from app]. rewrite <- E.
  rewrite decide_True by lia. replace (_ + byte_length s - _) with (byte_length s) by lia. done.
Qed.

Lemma slice_app (a b c : str) : slice (byte_length a) (byte_length a + byte_length b) (a ++ b ++ c) = Some b.
Proof.
  unfold slice. rewrite decide_True, slice_from_app by lia. simpl. rewrite Nat.add_comm, Nat.add_sub. apply slice_to_app.
Qed.

Lemma boundary_at (s t : str) : text t → is_char_boundary (str_bytes (s ++ t)) (byte_length s) = true.
Proof.
  intros Ht. unfold str_bytes. rewrite bind_app. change (is_char_boundary (str_bytes s ++ str_bytes t) (byte_length s) = true).
  replace (byte_length s) with (length (str_bytes s) + 0) by (unfold byte_length; lia). by rewrite boundary_shift.
Qed.

(** Two cuts of a text, the first one not behind the second. *)
Lemma cut_between (a b c d : str) :
  a ++ b = c ++ d → byte_length a ≤ byte_length c → ∃ m, c = a ++ m ∧ b = m ++ d.
Proof.
  intros E H. apply app_eq_inv in E as [(k & Ea & Ed)|(k & Ec & Eb)]; [|by exists k].
  rewrite Ea, byte_length_app in H. assert (k = []) as -> by (apply byte_length_0; lia).
  exists []. rewrite (right_id_L [] (++)) in Ea. subst. by rewrite (right_id_L [] (++)).
Qed.

(** The floor is the last cut that is not behind the offset. *)
Lemma floor_cut (s : str) (max : nat) :
  text s →
  ∃ kept rest, s = kept ++ rest ∧ char_boundary_floor s max = byte_length kept ∧ byte_length kept ≤ max
    ∧ (rest ≠ [] → max < byte_length kept + 4)
    ∧ ∀ pre post, s = pre ++ post → byte_length pre ≤ max → byte_length pre ≤ byte_length kept.
Proof.
  intros Hs. unfold char_boundary_floor. case_decide as Hm.
  - exists s, []. rewrite (right_id_L [] (++)). split_and!; try done. intros pre post -> _. rewrite byte_length_app. lia.
  - destruct (boundary_below s max Hs) as (kept & rest & E & Hk & Hb & Hj); [lia|].
    rewrite (floor_back_to _ (byte_length kept)) by (done || lia). exists kept, rest. split_and!; try done; try lia.
    intros pre post E' Hp. destruct (decide (byte_length pre ≤ byte_length kept)) as [|Hn]; [done|].
    specialize (Hj (byte_length pre)). rewrite E' in Hj. rewrite boundary_at in Hj; [|rewrite E' in Hs; by apply text_app in Hs as [_ ?]].
    discriminate Hj. lia.
Qed.


(** ** Paging *)


(** The pages an agent reads that follows [next_offset]; [n] bounds the calls. *)
Fixpoint pages (n : nat) (offset : nat) (limit : option nat) (content : str) : option (list Page) :=
  match n with
  | 0 => None
  | S n =>
      p ← read_page offset limit content;
      match next_offset p with
      | None => Some [p]
      | Some o => cons p <$> pages n o limit content
      end
  end.


(** ** What stays on the disk *)













(** ** Searching *)

Definition fold_char (ignore_case : bool) (c : char) : char := if ignore_case then to_ascii_lowercase c else c.

Lemma fold_char_bytes ic c :
  scalar c = true → fold_byte ic <$> char_bytes c = char_bytes (fold_char ic c) ∧ scalar (fold_char ic c) = true.
Proof.
  intros Hc. destruct ic; [|split; [apply list_fmap_id|done]].
  assert (∀ b, (128 ≤ b)%N → fold_byte true b = b) as Hid.
  { intros b Hb. unfold fold_byte, to_ascii_lowercase, is_ascii_uppercase. tests; bool_to_prop; lia || done. }
  unfold fold_char. destruct (N.ltb_spec c 128) as [Hlt|Hge].
  - assert (to_ascii_lowercase c < 128)%N as Hl.
    { unfold to_ascii_lowercase, is_ascii_uppercase. destruct ((_ <=? c)%N) eqn:E1, ((c <=? _)%N) eqn:E2; simpl; bool_to_prop; lia. }
    assert (∀ x, (x < 128)%N → char_bytes x = [x] ∧ scalar x = true) as Hx.
    { intros x Hx. unfold char_bytes, scalar. rewrite (proj2 (N.ltb_lt _ _) Hx).
      rewrite (proj2 (N.ltb_lt x 55296)) by lia. done. }
    rewrite (proj1 (Hx _ Hlt)). split; [by rewrite (proj1 (Hx _ Hl))|by apply Hx].
  - assert (to_ascii_lowercase c = c) as ->.
    { unfold to_ascii_lowercase, is_ascii_uppercase. rewrite (proj2 (N.leb_gt c 90)) by lia. by rewrite andb_false_r. }
    split; [|done]. assert (Forall (λ b, (128 ≤ b)%N) (char_bytes c)) as Hb.
    { unfold char_bytes. rewrite (proj2 (N.ltb_ge c 128)) by done. repeat case_match; forall_list; (etransitivity; [|apply N.le_add_r]; done). }
    rewrite <- (list_fmap_id (char_bytes c)) at 2. apply Forall_fmap_ext_1. eapply Forall_impl; [exact Hb|]. exact Hid.
Qed.

Lemma fold_bytes ic s : text s → fold_byte ic <$> str_bytes s = str_bytes (fold_char ic <$> s) ∧ text (fold_char ic <$> s).
Proof.
  induction 1 as [|c s Hc _ [IH IHt]]; [by split; [|constructor]|]. destruct (fold_char_bytes ic c Hc) as [E Hs].
  rewrite fmap_cons, !str_bytes_cons, fmap_app, E, IH. split; [done|]. by constructor.
Qed.

(** A text whose bytes begin with those of another begins with it. *)
Lemma bytes_prefix a b l : text a → text b → str_bytes b = str_bytes a ++ l → ∃ r, b = a ++ r.
Proof.
  intros Ha Hb E. pose proof (utf8_round_trip b Hb) as H. rewrite E, utf8_decode_app in H by done.
  destruct (utf8_decode l) as [r|]; [|done]. exists r. by injection H.
Qed.

Lemma byte_length_fold ic s t : text s → text t → fold_char ic <$> s = fold_char ic <$> t → byte_length s = byte_length t.
Proof.
  intros Hs Ht E. unfold byte_length. rewrite <- (length_fmap (fold_byte ic) (str_bytes s)), <- (length_fmap (fold_byte ic) (str_bytes t)).
  by rewrite (proj1 (fold_bytes ic s Hs)), (proj1 (fold_bytes ic t Ht)), E.
Qed.

Section Search.
Context (content pattern : str) (ic : bool).
Context (Hcontent : text content) (Hpattern : text pattern) (Hne : pattern ≠ []).

(** The pattern stands at an offset. *)
Definition occurs (pre m post : str) : Prop :=
  content = pre ++ m ++ post ∧ fold_char ic <$> m = fold_char ic <$> pattern.

Definition occurs_at (o : nat) : Prop := ∃ pre m post, occurs pre m post ∧ byte_length pre = o.

Definition bytes_at (n h : list N) (k : nat) : Prop :=
  fold_byte ic <$> take (length n) (drop k h) = fold_byte ic <$> n.

Lemma find_bytes_spec n h :
  match find_bytes ic n h with
  | Some k => bytes_at n h k ∧ ∀ j, j < k → ¬ bytes_at n h j
  | None => ∀ j, j ≤ length h → ¬ bytes_at n h j
  end.
Proof.
  unfold bytes_at. induction h as [|b h IH]; cbn [find_bytes]; case_bool_decide as H; [split; [done|lia]| |split; [done|lia]|].
  - intros [|j]; simpl; [by intros _|lia].
  - destruct (find_bytes ic n h) as [k|]; simpl.
    + destruct IH as [Hk IH]. split; [done|]. intros [|j] Hj; [done|]. simpl. apply IH. lia.
    + intros [|j] Hj; [done|]. simpl. apply IH. lia.
Qed.

Lemma pattern_bytes : ∃ b n, str_bytes pattern = b :: n ∧ is_cont b = false.
Proof.
  destruct pattern as [|c p]; [done|]. apply Forall_cons in Hpattern as [Hc _].
  destruct (char_bytes_shape c Hc) as (b & tl & E & Hb & _). exists b, (tl ++ str_bytes p). by rewrite str_bytes_cons, E.
Qed.

Lemma fold_cont b : is_cont (fold_byte ic b) = is_cont b.
Proof.
  unfold fold_byte, to_ascii_lowercase, is_ascii_uppercase. destruct ic; [|done].
  destruct ((65 <=? b) && (b <=? 90))%N eqn:E; [|done]. bool_to_prop. unfold is_cont.
  rewrite (proj2 (N.leb_gt 128 (b + 32))), (proj2 (N.leb_gt 128 b)) by lia. done.
Qed.

(** An offset that is a boundary is a cut. *)
Lemma boundary_cut k :
  k ≤ byte_length content → is_char_boundary (str_bytes content) k = true →
  ∃ pre post, content = pre ++ post ∧ byte_length pre = k.
Proof.
  intros Hk Hb. destruct (boundary_below content k Hcontent Hk) as (pre & post & E & Hpre & _ & Hj).
  exists pre, post. split; [done|]. destruct (decide (byte_length pre = k)) as [|Hn]; [done|].
  rewrite Hj in Hb by lia. done.
Qed.

(** Where the bytes match, the characters do. *)
Lemma bytes_at_occurs k : bytes_at (str_bytes pattern) (str_bytes content) k ↔ occurs_at k.
Proof.
  unfold bytes_at. destruct pattern_bytes as (b & n & En & Hb). split.
  - intros Hm. assert (k < length (str_bytes content)) as Hk.
    { apply (f_equal length) in Hm. rewrite !length_fmap, length_take, length_drop, En in Hm. cbn [length] in Hm. lia. }
    assert (is_char_boundary (str_bytes content) k = true) as Hbound.
    { unfold is_char_boundary. destruct k as [|k]; [done|]. destruct (lookup_lt_is_Some_2 _ _ Hk) as [x Hx]. rewrite Hx.
      rewrite En, (drop_S _ _ _ Hx) in Hm. simpl in Hm. injection Hm as Hm _.
      rewrite <- fold_cont, Hm, fold_cont, Hb. done. }
    destruct (boundary_cut k) as (pre & post & E & Hpre); [unfold byte_length; lia|done|].
    assert (text post) as Hpost by (rewrite E in Hcontent; by apply text_app in Hcontent as [_ ?]).
    assert (drop k (str_bytes content) = str_bytes post) as Ed.
    { rewrite E. unfold str_bytes at 1. rewrite bind_app. apply drop_app_length'. done. }
    rewrite Ed in Hm. destruct (fold_bytes ic post Hpost) as [Efp Hfp], (fold_bytes ic pattern Hpattern) as [Efn Hfn].
    destruct (bytes_prefix (fold_char ic <$> pattern) (fold_char ic <$> post) (fold_byte ic <$> drop (length (str_bytes pattern)) (str_bytes post)))
      as (r & Er); [done..| |].
    { rewrite <- Efp, <- Efn, <- Hm, <- fmap_app. by rewrite take_drop. }
    apply fmap_app_inv in Er as (m & rest & Em & _ & ->). exists pre, m, rest. split; [by split|done].
  - intros (pre & m & post & [E Em] & <-). rewrite E. unfold str_bytes at 2. rewrite !bind_app.
    rewrite drop_app_length' by done. assert (text m) as Hm.
    { rewrite E in Hcontent. apply text_app in Hcontent as [_ Hcontent]. by apply text_app in Hcontent as [? _]. }
    pose proof (byte_length_fold ic m pattern Hm Hpattern Em) as El. unfold byte_length in El. rewrite <- El.
    change (m ≫= char_bytes) with (str_bytes m). rewrite take_app_length.
    by rewrite (proj1 (fold_bytes ic m Hm)), (proj1 (fold_bytes ic pattern Hpattern)), Em.
Qed.

Lemma occurs_length pre m post : occurs pre m post → byte_length m = byte_length pattern.
Proof.
  intros [E Em]. apply (byte_length_fold ic); [|done..]. rewrite E in Hcontent.
  apply text_app in Hcontent as [_ H]. by apply text_app in H as [? _].
Qed.

Lemma next_match_spec from pre0 post0 :
  content = pre0 ++ post0 → byte_length pre0 = from →
  match next_match content pattern from ic with
  | Some pos => from ≤ pos ∧ occurs_at pos ∧ ∀ o, from ≤ o < pos → ¬ occurs_at o
  | None => ∀ o, from ≤ o → ¬ occurs_at o
  end.
Proof.
  intros E Ef. assert (from ≤ byte_length content) as Hle by (rewrite E, byte_length_app; lia).
  assert (next_match content pattern from ic = Nat.add from <$> find_bytes ic (str_bytes pattern) (drop from (str_bytes content))) as ->.
  { unfold next_match. destruct pattern_bytes as (b & n & En & _). rewrite (bool_decide_eq_false_2 (str_bytes pattern = [])) by (by rewrite En).
    rewrite bool_decide_eq_false_2 by (unfold byte_length in Hle; lia). simpl. destruct ic; [done|].
    assert (is_char_boundary (str_bytes content) from = true) as ->; [|done]. rewrite E, <- Ef. apply boundary_at.
    rewrite E in Hcontent. by apply text_app in Hcontent as [_ ?]. }
  pose proof (find_bytes_spec (str_bytes pattern) (drop from (str_bytes content))) as H.
  assert (∀ j, bytes_at (str_bytes pattern) (drop from (str_bytes content)) j ↔ occurs_at (from + j)) as Hj.
  { intros j. rewrite <- bytes_at_occurs. unfold bytes_at. by rewrite drop_drop. }
  destruct (find_bytes _ _ _) as [k|]; cbn [fmap option_fmap option_map].
  - destruct H as [Hk H]. apply Hj in Hk. split_and!; [lia|done|]. intros o Ho. replace o with (from + (o - from)) by lia.
    rewrite <- Hj. apply H. lia.
  - intros o Ho Hocc. assert (o ≤ byte_length content) as Hol.
    { destruct Hocc as (pre & m & post & [Ec _] & <-). rewrite Ec, byte_length_app. lia. }
    apply (H (o - from)); [rewrite length_drop; unfold byte_length in *; lia|]. apply Hj. by replace (from + (o - from)) with o by lia.
Qed.

(** *** Lines and snippets *)

Definition newlines (s : list N) : nat := length (filter (eq LF) s).

Lemma newlines_app a b : newlines (a ++ b) = newlines a + newlines b.
Proof. unfold newlines. by rewrite filter_app, length_app. Qed.

(** A newline is a byte of its own. *)
Lemma newlines_bytes s : newlines (str_bytes s) = newlines s.
Proof.
  induction s as [|c s IH]; [done|]. rewrite str_bytes_cons, newlines_app, IH.
  change (newlines (c :: s)) with (newlines ([c] ++ s)). rewrite newlines_app. f_equal.
  unfold char_bytes. destruct (N.ltb_spec c 128) as [|Hc]; [done|].
  assert (∀ x y, (LF < x)%N → LF ≠ (x + y)%N) as Hx by (intros; lia).
  unfold newlines. rewrite (list_filter_none (eq LF) [c]) by (forall_list; unfold LF; lia).
  rewrite list_filter_none; [done|]. repeat case_match; forall_list; by apply Hx.
Qed.

Lemma lines_counted pre rest counted :
  content = pre ++ rest → counted ≤ byte_length pre →
  newlines (take counted (str_bytes content))
    + newlines (drop counted (take (byte_length pre) (str_bytes content))) = newlines pre.
Proof.
  intros E Hc. rewrite E. unfold str_bytes. rewrite bind_app. change (pre ≫= char_bytes) with (str_bytes pre).
  unfold byte_length in *. rewrite take_app_length, take_app_le by done. rewrite <- newlines_app, take_drop.
  apply newlines_bytes.
Qed.

(** A match with its surroundings, cut at characters. *)
Definition shows (context : nat) (x : Match) : Prop :=
  ∃ a before m after z, occurs (a ++ before) m (after ++ z)
    ∧ m_offset x = byte_length (a ++ before) ∧ m_line x = 1 + newlines (a ++ before)
    ∧ window_offset x = byte_length a ∧ snippet x = before ++ m ++ after
    ∧ byte_length before < context + 4 ∧ byte_length after ≤ context.

Lemma window_shows context pre m post :
  occurs pre m post →
  ∃ a before after z, pre = a ++ before ∧ post = after ++ z
    ∧ window content (byte_length pre) (byte_length pattern) context = Some (byte_length a, before ++ m ++ after)
    ∧ byte_length before < context + 4 ∧ byte_length after ≤ context.
Proof.
  intros Ho. pose proof (occurs_length _ _ _ Ho) as Hl. destruct Ho as [E _]. unfold window. rewrite <- Hl.
  destruct (floor_cut content (byte_length pre - context) Hcontent) as (a & r1 & E1 & -> & Ha & Hr1 & _).
  set (raw := Nat.min _ (byte_length content)) in *.
  destruct (floor_cut content raw Hcontent) as (b & z & E2 & -> & Hb & _ & Hmax).
  destruct (cut_between a r1 pre (m ++ post)) as (before & -> & ->); [congruence|lia|].
  specialize (Hmax ((a ++ before) ++ m) post). rewrite <- (assoc_L (++)), E in Hmax. specialize (Hmax eq_refl).
  assert (byte_length content = byte_length a + byte_length before + byte_length m + byte_length post) as Htot.
  { rewrite E, !byte_length_app. lia. }
  pose proof (byte_length_app a before) as Hab. unfold raw in *. clear raw. rewrite !byte_length_app in Hmax, Hb. destruct (cut_between ((a ++ before) ++ m) post b z) as (after & -> & ->).
  { rewrite <- (assoc_L (++)). congruence. }
  { rewrite !byte_length_app. lia. }
  exists a, before, after, z. split_and!; [done|done| |..].
  - rewrite !byte_length_app, Nat.max_l by lia. rewrite E.
    replace ((a ++ before) ++ m ++ after ++ z) with (a ++ (before ++ m ++ after) ++ z) by (by rewrite <- !(assoc_L (++))).
    replace (byte_length a + byte_length before + byte_length m + byte_length after)
      with (byte_length a + byte_length (before ++ m ++ after)) by (rewrite !byte_length_app; lia).
    by rewrite slice_app.
  - assert (m ≠ []) as Hm.
    { intros ->. apply Hne, byte_length_0. by rewrite <- Hl. }
    assert (before ++ m ++ after ++ z ≠ []) as Hn by (destruct before; [by destruct m|done]). specialize (Hr1 Hn). lia.
  - rewrite !byte_length_app in *. lia.
Qed.


(** *** The matches *)

(** The matches lie one behind the other between two offsets. *)
Fixpoint spaced (from : nat) (ms : list Match) (to : nat) : Prop :=
  match ms with
  | [] => from = to
  | x :: ms => from ≤ m_offset x ∧ spaced (m_offset x + byte_length pattern) ms to
  end.

(** An offset lies in a match that is shown. *)
Definition covered (ms : list Match) (o : nat) : Prop :=
  ∃ x, x ∈ ms ∧ m_offset x ≤ o < m_offset x + byte_length pattern.

Lemma spaced_le from ms to : spaced from ms to → from ≤ to.
Proof. revert from. induction ms as [|x ms IH]; simpl; intros from; [lia|]. intros [H Hs%IH]. lia. Qed.

Lemma grep_loop_spec context n from counted line pre0 post0 :
  content = pre0 ++ post0 → byte_length pre0 = from → counted ≤ from →
  line = 1 + newlines (take counted (str_bytes content)) →
  ∃ ms to, grep_loop content pattern ic context n from counted line = Some (ms, to)
    ∧ Forall (shows context) ms ∧ length ms ≤ n ∧ spaced from ms to
    ∧ (∃ p q, content = p ++ q ∧ byte_length p = to)
    ∧ (∀ o, from ≤ o < to → occurs_at o → covered ms o)
    ∧ (length ms < n → ∀ o, to ≤ o → ¬ occurs_at o).
Proof.
  revert from counted line pre0 post0. induction n as [|n IH]; intros from counted line pre0 post0 E Ef Hc Hl.
  { exists [], from. split_and!; [done|constructor|done|done|by exists pre0, post0|lia|simpl; lia]. }
  pose proof (next_match_spec from pre0 post0 E Ef) as Hnext. cbn [grep_loop].
  destruct (next_match content pattern from ic) as [pos|]; cycle 1.
  { exists [], from. split_and!; [done|constructor|simpl; lia|done|by exists pre0, post0|lia|by intros _]. }
  destruct Hnext as (Hle & (pre & m & post & Ho & Epos) & Hfirst).
  destruct (window_shows context pre m post Ho) as (a & before & after & z & Epre & Epost & Ew & Hb & Ha).
  pose proof (occurs_length _ _ _ Ho) as Hlen. pose proof (proj1 Ho) as Econt.
  rewrite <- Epos, Ew. cbn [mbind option_bind fst snd].
  assert (line + length (filter (eq LF) (drop counted (take (byte_length pre) (str_bytes content)))) = 1 + newlines pre) as ->.
  { rewrite Hl. rewrite <- (lines_counted pre (m ++ post) counted) by (done || lia). unfold newlines. lia. }
  destruct (IH (byte_length pre + byte_length pattern) (byte_length pre) (1 + newlines pre) (pre ++ m) post)
    as (ms & to & Eloop & Hshows & Hlms & Hsp & Hcut & Hcov & Hrest).
  - by rewrite Econt, <- (assoc_L (++)).
  - by rewrite byte_length_app, Hlen.
  - lia.
  - rewrite Econt. unfold str_bytes. rewrite bind_app. change (pre ≫= char_bytes) with (str_bytes pre).
    unfold byte_length. by rewrite take_app_length, newlines_bytes.
  - rewrite Eloop. cbn [mbind option_bind fst snd]. eexists (_ :: ms), to. split; [done|].
    split_and!; [|simpl; lia|simpl; split; [lia|done]|done| |simpl; intros Hn; apply Hrest; lia].
    + constructor; [|done]. exists a, before, m, after, z. simpl. rewrite <- Epre, <- Epost. split_and!; done.
    + intros o Hoo Hocc. destruct (decide (o < byte_length pre)) as [Hlt|Hge]; [destruct (Hfirst o); [lia|done]|].
      destruct (decide (o < byte_length pre + byte_length pattern)) as [Hin|Hout].
      * eexists. split; [left|]. simpl. lia.
      * destruct (Hcov o) as (x & Hx & Hxo); [lia|done|]. exists x. split; [by right|done].
Qed.

(** C37: A search shows the occurrences of its pattern, from the left and one behind the other: each
    match is one, with its offset, its line and its surroundings, which are whole characters of
    the content around it within the context; every occurrence is shown or lies within one
    that is, unless the search says that it stopped early, and then at the limit, with an
    occurrence behind the last match. *)
Theorem grep_exact (max_matches context_bytes : option nat) :
  let max := clamp (default GREP_DEFAULT_MAX_MATCHES max_matches) 1 GREP_MAX_MATCHES in
  let context := Nat.min (default GREP_DEFAULT_CONTEXT context_bytes) GREP_MAX_CONTEXT in
  ∃ f to, grep pattern ic max_matches context_bytes content = Some f
    ∧ Forall (shows context) (matches f) ∧ length (matches f) ≤ max ∧ spaced 0 (matches f) to
    ∧ (∀ o, occurs_at o → covered (matches f) o ∨ truncated f = true ∧ to ≤ o)
    ∧ (truncated f = true → length (matches f) = max ∧ ∃ o, to ≤ o ∧ occurs_at o).
Proof.
  intros max context. unfold grep. fold max context.
  destruct (grep_loop_spec context max 0 0 1 [] content) as (ms & to & E & Hs & Hl & Hsp & (p & q & Ec & Ep) & Hcov & Hrest); [done..|].
  rewrite E. cbn [mbind option_bind fst snd]. eexists _, to. split; [done|]. cbn [matches truncated].
  split_and!; [done..| |].
  - intros o Ho. destruct (decide (o < to)) as [Hlt|Hge]; [left; apply Hcov; [lia|done]|]. right.
    destruct (decide (length ms < max)) as [Hm|Hm]; [by destruct (Hrest Hm o); [lia|]|].
    rewrite bool_decide_eq_true_2 by lia. pose proof (next_match_spec to p q Ec Ep) as Hn.
    destruct (next_match content pattern to ic); [|destruct (Hn o); [lia|done]]. split; [done|lia].
  - intros [Hm%bool_decide_eq_true Hn]%andb_true_iff. split; [done|]. pose proof (next_match_spec to p q Ec Ep) as Hspec.
    destruct (next_match content pattern to ic) as [pos|]; [|done]. exists pos. by destruct Hspec as (? & ? & _).
Qed.
End Search.

(** A chat whose files are all older than a week is gone after a sweep that can remove it. *)
Lemma sweep_removes io t d fs :
  files_of t d = Some fs → lists io d.1 = true → removes io d.1 d.2 = true →
  (∀ f file, fs !! f = Some file → (modified file < now io - RETENTION)%Z) →
  files_of (sweep_expired io t) d = None.
Proof.
  unfold files_of, sweep_expired. rewrite map_lookup_imap. destruct (t !! d.1) as [ss|]; [|done].
  cbn [mbind option_bind]. intros Hss Hl Hrm Hold. unfold sweep_cluster. rewrite Hl.
  assert (dir_is_stale io (now io - RETENTION) d.1 d.2 fs = true) as Hst.
  { unfold dir_is_stale. destruct (reads io d.1 d.2); [|done]. destruct (newest io d.1 d.2 fs) as [m|] eqn:En; [|done].
    apply Z.ltb_lt. assert (∀ p, p ∈ map_to_list fs → (modified p.2 < now io - RETENTION)%Z) as Hall.
    { intros [f file] Hp%elem_of_map_to_list. by apply (Hold f). }
    revert m En. unfold newest. induction (map_to_list fs) as [|p l IH]; simpl; [done|]. intros m.
    assert (modified p.2 < now io - RETENTION)%Z as Hp by (apply Hall; left).
    assert (∀ m, foldr (λ p acc, if stats io d.1 d.2 p.1 then Some (match acc with Some n => Z.max n (modified p.2) | None => modified p.2 end) else acc)
      None l = Some m → (m < now io - RETENTION)%Z) as Hrec by (apply IH; intros q Hq; apply Hall; by right).
    destruct (stats io d.1 d.2 p.1); [|apply Hrec]. intros [= <-]. destruct (foldr _ None l) as [k|]; [|done].
    specialize (Hrec k eq_refl). lia. }
  assert (filter (λ p, negb (dir_is_stale io (now io - RETENTION) d.1 p.1 p.2 && removes io d.1 p.1) = true) ss !! d.2 = None) as Hnone.
  { apply map_lookup_filter_None. right. intros fs' Hfs'. simpl. assert (fs' = fs) as -> by congruence. by rewrite Hst, Hrm. }
  destruct (negb _ && _); [done|]. simpl. by rewrite Hnone.
Qed.

(** ** Samples *)

Module Samples.
Definition spool : ToolSpool := new_spool true (lit "c1") (lit "s1").

Definition works (at_ : Z) : PutIo := {| mkdir_ok := true; torn := None; written_at := at_ |}.


(** Euro signs, three bytes each, and a letter. *)
Definition euros : str := [8364; 8364; 97; 8364]%N.


(** A page of less than a character is empty, and the next one starts at the same offset. *)
Lemma narrow_page_stalls :
  read_page 0 (Some 1) euros
  = Some {| total_bytes := 10; page_offset := 0; returned_bytes := 0; next_offset := Some 0; eof := false; page := [] |}
  ∧ ∀ n, pages n 0 (Some 1) euros = None.
Proof.
  assert (read_page 0 (Some 1) euros
    = Some {| total_bytes := 10; page_offset := 0; returned_bytes := 0; next_offset := Some 0; eof := false; page := [] |}) as E
    by (vm_compute; reflexivity).
  split; [exact E|]. induction n as [|n IH]; [done|]. cbn [pages]. rewrite E. cbn [mbind option_bind next_offset]. by rewrite IH.
Qed.

(** Two calls whose ids differ in a character that file names leave out share a file. *)
Lemma handles_collide :
  let t := (put (works 1) spool (lit "call_1") (lit "second") (put (works 0) spool (lit "call/1") (lit "first") ∅).2).2 in
  load true spool (lit "call/1") t = Ok (lit "second").
Proof. vm_compute. reflexivity. Qed.

(** A sweep that cannot read a directory takes it for stale: a result of a moment ago is gone. *)
Lemma blind_sweep_loses :
  let blind := {| now := 10; lists := λ _, true; reads := λ _ _, false; stats := λ _ _ _, true; removes := λ _ _, true |} in
  let t := (put (works 0) spool (lit "call_1") euros ∅).2 in
  load true spool (lit "call_1") t = Ok euros
  ∧ load true spool (lit "call_1") (sweep_expired blind t) = Err (NotFound (lit "call_1")).
Proof. split; vm_compute; reflexivity. Qed.

Definition log : str := lit "one" ++ LF :: lit "Two two" ++ [LF; 8364%N] ++ lit "twotwo".

Example log_searched :
  (λ f, ((λ x, (m_offset x, m_line x, snippet x)) <$> matches f, truncated f)) <$> grep (lit "two") true (Some 3) (Some 1) log
  = Some ([(4, 2, LF :: lit "Two "); (8, 2, lit " two" ++ [LF]); (15, 3, 8364%N :: lit "twot")], true).
Proof. vm_compute. reflexivity. Qed.

Lemma grep_exact_witness :
  ∃ f, grep (lit "two") true (Some 3) (Some 1) log = Some f ∧ length (matches f) ≤ 3.
Proof.
  assert (text log) as Hl by (unfold text; apply (bool_decide_unpack _); vm_compute; exact I).
  assert (text (lit "two")) as Hp by (unfold text; apply (bool_decide_unpack _); vm_compute; exact I).
  destruct (grep_exact log (lit "two") true Hl Hp ltac:(discriminate) (Some 3) (Some 1)) as (f & to & E & _ & Hlen & _).
  exists f. split; [exact E|exact Hlen].
Defined.
End Samples.
