(* ===== verification/Providers.v ===== *)
(** * The providers (agent/src/config.rs, agent/src/provider/meta.rs)

    The kinds of providers with their ids, the table of what is known of each, and the
    provider that is built for a kind and a credential (build_provider of
    app/src/agent/turn.rs, as far as it chooses).  The texts of the interface are kept. *)

From stdpp Require Import finite.

From S2P Require Import Prelude Json Session.

(** ** Kinds *)

Definition all : list ProviderKind :=
  [OpenAI; Anthropic; Google; OpenRouter; Zai; Minimax; Groq; Deepseek; Moonshot; KimiCoding; Mistral; Together;
   OpencodeZen; OpencodeGo; Ollama; CustomOpenAi; CustomAnthropic].

(** The name of serde: in snake case unless it is renamed. *)
Definition kind_name (kind : ProviderKind) : str :=
  lit match kind with
      | OpencodeZen => "opencode_zen" | OpencodeGo => "opencode_go" | OpenRouter => "open_router"
      | Anthropic => "anthropic" | Google => "google" | OpenAI => "openai" | Zai => "zai" | Minimax => "minimax"
      | Groq => "groq" | Deepseek => "deepseek" | Mistral => "mistral" | Together => "together"
      | Moonshot => "moonshot" | KimiCoding => "kimi_coding" | Ollama => "ollama"
      | CustomOpenAi => "custom_openai" | CustomAnthropic => "custom_anthropic"
      end.

Definition from_id (id : str) : option ProviderKind := list_find (λ k, kind_name k = id) all ≫= λ p, Some p.2.

Definition default_kind : ProviderKind := OpenAI.

Definition supports_public_fallback (kind : ProviderKind) : bool :=
  match kind with OpencodeZen => true | _ => false end.

Definition default_enabled (kind : ProviderKind) : bool := negb (supports_public_fallback kind).

Definition is_opencode_gateway (kind : ProviderKind) : bool :=
  match kind with OpencodeZen | OpencodeGo => true | _ => false end.

Definition public_fallback_key (kind : ProviderKind) : option str :=
  match kind with OpencodeZen => Some (lit "public") | _ => None end.

(** ** What is known of each *)

Inductive AuthMode : Set := ApiKeyMode | OAuthMode.

#[global] Instance AuthMode_eq_dec : EqDecision AuthMode.
Proof. solve_decision. Defined.

Inductive ModelsEndpoint : Set := OpenAiCompatible | AnthropicCatalogue | GeminiCatalogue | Static.

#[global] Instance ModelsEndpoint_eq_dec : EqDecision ModelsEndpoint.
Proof. solve_decision. Defined.

Inductive ProviderFlavor : Set := OpenAiCompatFlavor | AnthropicFlavor | ResponsesFlavor | GeminiFlavor.

#[global] Instance ProviderFlavor_eq_dec : EqDecision ProviderFlavor.
Proof. solve_decision. Defined.

Record ProviderMeta : Set := {
  meta_id : str; meta_display_name : str; meta_default_base_url : str; meta_auth_modes : list AuthMode;
  meta_models_endpoint : ModelsEndpoint; meta_flavor : ProviderFlavor; meta_default_context_window : N;
  meta_allows_blank_key : bool; meta_key_hint : str; meta_oauth_label : option str; meta_signup_url : option str;
  meta_description : option str;
}.

Definition dash : str := [8212%N].

Definition dots : str := [8230%N].

Definition quote : str := [34%N].

Definition META_OPENCODE_ZEN : ProviderMeta :=
  {| meta_id := lit "opencode_zen"; meta_display_name := lit "OpenCode Zen";
     meta_default_base_url := lit "https://opencode.ai/zen/v1";
     meta_auth_modes := [ApiKeyMode]; meta_models_endpoint := OpenAiCompatible; meta_flavor := OpenAiCompatFlavor;
     meta_default_context_window := 200000; meta_allows_blank_key := false; meta_key_hint := lit "(blank = free tier)";
     meta_oauth_label := None; meta_signup_url := Some (lit "https://opencode.ai/zen");
     meta_description := Some (lit "Curated coding models behind one OpenAI-compatible endpoint. The free tier needs no key and lists zero-cost models only; add a key to unlock the full catalogue.") |}.

Definition META_OPENCODE_GO : ProviderMeta :=
  {| meta_id := lit "opencode_go"; meta_display_name := lit "OpenCode Go";
     meta_default_base_url := lit "https://opencode.ai/zen/go/v1";
     meta_auth_modes := [ApiKeyMode]; meta_models_endpoint := OpenAiCompatible; meta_flavor := OpenAiCompatFlavor;
     meta_default_context_window := 200000; meta_allows_blank_key := false; meta_key_hint := lit "OpenCode API key";
     meta_oauth_label := None; meta_signup_url := Some (lit "https://opencode.ai/auth");
     meta_description := Some (lit "OpenCode's subscription ($10 or $40 a month) for open coding models. Most run with zero data retention and no training; the " ++ quote ++ lit "Contributor" ++ quote ++ lit " models train Meta's models on your prompts.") |}.

Definition META_GOOGLE : ProviderMeta :=
  {| meta_id := lit "google"; meta_display_name := lit "Google Gemini";
     meta_default_base_url := lit "https://generativelanguage.googleapis.com/v1beta";
     meta_auth_modes := [ApiKeyMode]; meta_models_endpoint := GeminiCatalogue; meta_flavor := GeminiFlavor;
     meta_default_context_window := 1048576; meta_allows_blank_key := false; meta_key_hint := lit "AIza" ++ dots;
     meta_oauth_label := None; meta_signup_url := Some (lit "https://aistudio.google.com/apikey");
     meta_description := Some (lit "Gemini API with a Google AI Studio key. Vertex AI and Google sign-in aren't supported.") |}.

Definition META_OPENROUTER : ProviderMeta :=
  {| meta_id := lit "openrouter"; meta_display_name := lit "OpenRouter";
     meta_default_base_url := lit "https://openrouter.ai/api/v1";
     meta_auth_modes := [ApiKeyMode]; meta_models_endpoint := OpenAiCompatible; meta_flavor := OpenAiCompatFlavor;
     meta_default_context_window := 200000; meta_allows_blank_key := false; meta_key_hint := lit "sk-or-v1-" ++ dots;
     meta_oauth_label := None; meta_signup_url := Some (lit "https://openrouter.ai/keys");
     meta_description := None |}.

Definition META_ANTHROPIC : ProviderMeta :=
  {| meta_id := lit "anthropic"; meta_display_name := lit "Anthropic";
     meta_default_base_url := lit "https://api.anthropic.com/v1";
     meta_auth_modes := [ApiKeyMode]; meta_models_endpoint := AnthropicCatalogue; meta_flavor := AnthropicFlavor;
     meta_default_context_window := 200000; meta_allows_blank_key := false; meta_key_hint := lit "sk-ant-" ++ dots;
     meta_oauth_label := None; meta_signup_url := Some (lit "https://console.anthropic.com/settings/keys");
     meta_description := None |}.

Definition META_OPENAI : ProviderMeta :=
  {| meta_id := lit "openai"; meta_display_name := lit "OpenAI";
     meta_default_base_url := lit "https://api.openai.com/v1";
     meta_auth_modes := [OAuthMode; ApiKeyMode]; meta_models_endpoint := OpenAiCompatible; meta_flavor := OpenAiCompatFlavor;
     meta_default_context_window := 200000; meta_allows_blank_key := false; meta_key_hint := lit "sk-" ++ dots;
     meta_oauth_label := Some (lit "ChatGPT"); meta_signup_url := Some (lit "https://platform.openai.com/api-keys");
     meta_description := None |}.

Definition META_ZAI : ProviderMeta :=
  {| meta_id := lit "zai"; meta_display_name := lit "Z.AI";
     meta_default_base_url := lit "https://api.z.ai/api/coding/paas/v4";
     meta_auth_modes := [ApiKeyMode]; meta_models_endpoint := Static; meta_flavor := OpenAiCompatFlavor;
     meta_default_context_window := 200000; meta_allows_blank_key := false; meta_key_hint := lit "API key";
     meta_oauth_label := None; meta_signup_url := None;
     meta_description := None |}.

Definition META_MINIMAX : ProviderMeta :=
  {| meta_id := lit "minimax"; meta_display_name := lit "MiniMax";
     meta_default_base_url := lit "https://api.minimax.io/v1";
     meta_auth_modes := [ApiKeyMode]; meta_models_endpoint := Static; meta_flavor := OpenAiCompatFlavor;
     meta_default_context_window := 200000; meta_allows_blank_key := false; meta_key_hint := lit "API key";
     meta_oauth_label := None; meta_signup_url := None;
     meta_description := None |}.

Definition META_GROQ : ProviderMeta :=
  {| meta_id := lit "groq"; meta_display_name := lit "Groq";
     meta_default_base_url := lit "https://api.groq.com/openai/v1";
     meta_auth_modes := [ApiKeyMode]; meta_models_endpoint := OpenAiCompatible; meta_flavor := OpenAiCompatFlavor;
     meta_default_context_window := 131072; meta_allows_blank_key := false; meta_key_hint := lit "gsk_" ++ dots;
     meta_oauth_label := None; meta_signup_url := Some (lit "https://console.groq.com/keys");
     meta_description := None |}.

Definition META_DEEPSEEK : ProviderMeta :=
  {| meta_id := lit "deepseek"; meta_display_name := lit "DeepSeek";
     meta_default_base_url := lit "https://api.deepseek.com/v1";
     meta_auth_modes := [ApiKeyMode]; meta_models_endpoint := OpenAiCompatible; meta_flavor := OpenAiCompatFlavor;
     meta_default_context_window := 128000; meta_allows_blank_key := false; meta_key_hint := lit "sk-" ++ dots;
     meta_oauth_label := None; meta_signup_url := Some (lit "https://platform.deepseek.com/api_keys");
     meta_description := None |}.

Definition META_MISTRAL : ProviderMeta :=
  {| meta_id := lit "mistral"; meta_display_name := lit "Mistral";
     meta_default_base_url := lit "https://api.mistral.ai/v1";
     meta_auth_modes := [ApiKeyMode]; meta_models_endpoint := OpenAiCompatible; meta_flavor := OpenAiCompatFlavor;
     meta_default_context_window := 131072; meta_allows_blank_key := false; meta_key_hint := lit "API key";
     meta_oauth_label := None; meta_signup_url := Some (lit "https://console.mistral.ai/api-keys");
     meta_description := None |}.

Definition META_TOGETHER : ProviderMeta :=
  {| meta_id := lit "together"; meta_display_name := lit "Together";
     meta_default_base_url := lit "https://api.together.xyz/v1";
     meta_auth_modes := [ApiKeyMode]; meta_models_endpoint := OpenAiCompatible; meta_flavor := OpenAiCompatFlavor;
     meta_default_context_window := 131072; meta_allows_blank_key := false; meta_key_hint := lit "API key";
     meta_oauth_label := None; meta_signup_url := Some (lit "https://api.together.xyz/settings/api-keys");
     meta_description := None |}.

Definition META_OLLAMA : ProviderMeta :=
  {| meta_id := lit "ollama"; meta_display_name := lit "Ollama";
     meta_default_base_url := lit "http://localhost:11434/v1";
     meta_auth_modes := [ApiKeyMode]; meta_models_endpoint := OpenAiCompatible; meta_flavor := OpenAiCompatFlavor;
     meta_default_context_window := 32768; meta_allows_blank_key := true; meta_key_hint := lit "(blank for local)";
     meta_oauth_label := None; meta_signup_url := None;
     meta_description := None |}.

Definition META_MOONSHOT : ProviderMeta :=
  {| meta_id := lit "moonshot"; meta_display_name := lit "Moonshot (Kimi)";
     meta_default_base_url := lit "https://api.moonshot.ai/v1";
     meta_auth_modes := [ApiKeyMode]; meta_models_endpoint := OpenAiCompatible; meta_flavor := OpenAiCompatFlavor;
     meta_default_context_window := 131072; meta_allows_blank_key := false; meta_key_hint := lit "sk-" ++ dots;
     meta_oauth_label := None; meta_signup_url := Some (lit "https://platform.moonshot.ai/console/api-keys");
     meta_description := Some (lit "Moonshot AI's Kimi models over an OpenAI-compatible wire; the model list is fetched live once a key is saved. In mainland China set the base URL to https://api.moonshot.cn/v1.") |}.

Definition META_CUSTOM_OPENAI : ProviderMeta :=
  {| meta_id := lit "custom_openai"; meta_display_name := lit "Custom (OpenAI-compatible)";
     meta_default_base_url := lit "http://localhost:8080/v1";
     meta_auth_modes := [ApiKeyMode]; meta_models_endpoint := OpenAiCompatible; meta_flavor := OpenAiCompatFlavor;
     meta_default_context_window := 131072; meta_allows_blank_key := true; meta_key_hint := lit "(blank if endpoint is open)";
     meta_oauth_label := None; meta_signup_url := None;
     meta_description := Some (lit "Any endpoint speaking OpenAI Chat Completions (proxy, gateway, self-hosted). Set the base URL and key, press Test to probe GET /models; if the endpoint can't list models, add ids under Custom models.") |}.

Definition META_CUSTOM_ANTHROPIC : ProviderMeta :=
  {| meta_id := lit "custom_anthropic"; meta_display_name := lit "Custom (Anthropic-compatible)";
     meta_default_base_url := lit "http://localhost:8080/v1";
     meta_auth_modes := [ApiKeyMode]; meta_models_endpoint := AnthropicCatalogue; meta_flavor := AnthropicFlavor;
     meta_default_context_window := 200000; meta_allows_blank_key := true; meta_key_hint := lit "(blank if endpoint is open)";
     meta_oauth_label := None; meta_signup_url := None;
     meta_description := Some (lit "Any endpoint speaking Anthropic's Messages API (e.g. a Claude gateway or Kimi's /anthropic transport). Same probing rules as the OpenAI-compatible entry.") |}.

Definition META_KIMI_CODING : ProviderMeta :=
  {| meta_id := lit "kimi_coding"; meta_display_name := lit "Kimi For Coding";
     meta_default_base_url := lit "https://api.kimi.com/coding/v1";
     meta_auth_modes := [ApiKeyMode]; meta_models_endpoint := AnthropicCatalogue; meta_flavor := AnthropicFlavor;
     meta_default_context_window := 262144; meta_allows_blank_key := false; meta_key_hint := lit "sk-kimi-" ++ dots;
     meta_oauth_label := None; meta_signup_url := None;
     meta_description := Some (lit "The kimi.com coding subscription " ++ dash ++ lit " a separate product from the Moonshot platform with its own keys and models (K2.7 Coding, K3). Speaks Anthropic's Messages API; models are listed live once a key is saved.") |}.

Record EnableNotice : Set := { headline : str; points : list str; learn_more_url : str }.

Definition ZEN_ENABLE_NOTICE : EnableNotice :=
  {| headline := lit "Enable OpenCode Zen free tier?";
     points :=
      [lit "Free: no account or API key. FerrisScope uses OpenCode's public key and lists only zero-cost models.";
       lit "Everything the agent sends leaves your machine for OpenCode's proxy and on to third-party model hosts " ++ dash ++ lit " your prompts plus cluster data it reads (pod logs, manifests, events, tool output).";
       lit "Free models run on trial terms. Some providers log requests or use them to improve their models (e.g. Big Pickle, NVIDIA Nemotron " ++ dash ++ lit " " ++ quote ++ lit "no confidential data" ++ quote ++ lit "). Check the current list before use.";
       lit "Don't use it on clusters holding secrets, customer data or regulated workloads. Models and rate limits change without notice."];
     learn_more_url := lit "https://opencode.ai/docs/zen#privacy" |}.

Definition enable_notice (kind : ProviderKind) : option EnableNotice :=
  match kind with OpencodeZen => Some ZEN_ENABLE_NOTICE | _ => None end.

Definition for_kind (kind : ProviderKind) : ProviderMeta :=
  match kind with
  | OpencodeZen => META_OPENCODE_ZEN | OpencodeGo => META_OPENCODE_GO | OpenRouter => META_OPENROUTER
  | Anthropic => META_ANTHROPIC | Google => META_GOOGLE | OpenAI => META_OPENAI | Zai => META_ZAI
  | Minimax => META_MINIMAX | Groq => META_GROQ | Deepseek => META_DEEPSEEK | Mistral => META_MISTRAL
  | Together => META_TOGETHER | Ollama => META_OLLAMA | Moonshot => META_MOONSHOT | KimiCoding => META_KIMI_CODING
  | CustomOpenAi => META_CUSTOM_OPENAI | CustomAnthropic => META_CUSTOM_ANTHROPIC
  end.

Definition models_dev_id (kind : ProviderKind) : option str :=
  match kind with
  | OpencodeZen => Some (lit "opencode")
  | OpencodeGo => Some (lit "opencode-go")
  | OpenRouter => Some (lit "openrouter")
  | Anthropic => Some (lit "anthropic")
  | Google => Some (lit "google")
  | OpenAI => Some (lit "openai")
  | Groq => Some (lit "groq")
  | Deepseek => Some (lit "deepseek")
  | Mistral => Some (lit "mistral")
  | Together => Some (lit "togetherai")
  | Zai => Some (lit "zai")
  | Minimax => Some (lit "minimax")
  | Moonshot => Some (lit "moonshotai")
  | KimiCoding => Some (lit "kimi-for-coding")
  | Ollama | CustomOpenAi | CustomAnthropic => None
  end.

Definition static_models (kind : ProviderKind) : list (string * string) :=
  match kind with
  | Zai => [("glm-4.6", "GLM-4.6"); ("glm-4.5-air", "GLM-4.5 Air"); ("glm-4.5", "GLM-4.5"); ("glm-4.5-x", "GLM-4.5-X")]
  | Minimax => [("MiniMax-M2", "MiniMax-M2"); ("MiniMax-Text-01", "MiniMax-Text-01"); ("abab6.5s-chat", "abab6.5s")]
  | Moonshot => [("kimi-k2.5", "Kimi K2.5"); ("kimi-k2-thinking", "Kimi K2 Thinking"); ("kimi-k2-0905-preview", "Kimi K2 (0905 preview)"); ("moonshot-v1-128k", "Moonshot v1 128k")]
  | KimiCoding => [("kimi-for-coding", "K2.7 Coding"); ("kimi-for-coding-highspeed", "K2.7 Coding Highspeed"); ("k3", "K3 (1M)"); ("k3-256k", "K3 256k")]
  | Anthropic => [("claude-opus-4-7", "Claude Opus 4.7"); ("claude-opus-4-6", "Claude Opus 4.6"); ("claude-sonnet-4-6", "Claude Sonnet 4.6"); ("claude-haiku-4-5", "Claude Haiku 4.5"); ("claude-haiku-4-5-1m", "Claude Haiku 4.5 (1M)")]
  | Google => [("gemini-3.5-flash", "Gemini 3.5 Flash"); ("gemini-3.1-pro-preview", "Gemini 3.1 Pro Preview"); ("gemini-2.5-pro", "Gemini 2.5 Pro"); ("gemini-2.5-flash", "Gemini 2.5 Flash"); ("gemini-flash-latest", "Gemini Flash Latest")]
  | OpenAI => [("gpt-5.5", "GPT-5.5"); ("gpt-5.4", "GPT-5.4"); ("gpt-5.4-mini", "GPT-5.4 mini"); ("gpt-5.3-codex", "GPT-5.3 Codex"); ("gpt-5.2", "GPT-5.2")]
  | _ => []
  end%string.

(** ** The provider that is built *)

Inductive Built : Set := BuiltGateway | BuiltOpenAiCompat | BuiltAnthropic | BuiltCodex | BuiltGemini.

(** build_provider; [oauth] says that the credential is one of a sign-in. *)
Definition build_provider (kind : ProviderKind) (oauth : bool) : Built :=
  if is_opencode_gateway kind then BuiltGateway
  else
    let flavor := match kind, oauth with OpenAI, true => ResponsesFlavor | _, _ => meta_flavor (for_kind kind) end in
    match flavor with
    | OpenAiCompatFlavor => BuiltOpenAiCompat
    | AnthropicFlavor => BuiltAnthropic
    | ResponsesFlavor => BuiltCodex
    | GeminiFlavor => BuiltGemini
    end.

(** ** The kinds are told apart *)

Lemma all_complete (kind : ProviderKind) : kind ∈ all.
Proof. destruct kind; decided. Qed.

Lemma all_NoDup : NoDup all.
Proof. decided. Qed.

#[global] Instance ProviderKind_finite : Finite ProviderKind :=
  {| enum := all; NoDup_enum := all_NoDup; elem_of_enum := all_complete |}.

(** What tells the kinds apart in a list of all of them tells them apart. *)
Lemma enum_inj {A B} `{Finite A} (f : A → B) : NoDup (f <$> enum A) → Inj (=) (=) f.
Proof.
  intros Hd a b Hab. destruct (proj1 (list_elem_of_lookup _ _) (elem_of_enum a)) as [i Hi].
  destruct (proj1 (list_elem_of_lookup _ _) (elem_of_enum b)) as [j Hj].
  assert (i = j) as -> by (eapply (NoDup_lookup _ i j (f b) Hd); by rewrite list_lookup_fmap, ?Hi, ?Hj; simpl; rewrite ?Hab).
  congruence.
Qed.

#[global] Instance kind_name_inj : Inj (=) (=) kind_name.
Proof. apply enum_inj. decided. Qed.

Definition account_for (kind : ProviderKind) : str := meta_id (for_kind kind).

#[global] Instance account_for_inj : Inj (=) (=) account_for.
Proof. apply enum_inj. decided. Qed.

Lemma from_id_name (kind : ProviderKind) : from_id (kind_name kind) = Some kind.
Proof. by destruct kind; vm_compute. Qed.

Lemma from_id_Some (id : str) (kind : ProviderKind) : from_id id = Some kind ↔ id = kind_name kind.
Proof.
  split; [|intros ->; apply from_id_name]. unfold from_id. intros ([i k] & (Hi & Hk & _)%list_find_Some & [= <-])%bind_Some. by rewrite Hk.
Qed.

(** ** The table is of one piece *)

(** The rows of the table agree with each other and with the kinds: every kind is listed,
    once, under an account of its own; a row offers a sign-in exactly if it has a label for
    it, and takes a key in any case; a kind that works without a key is off until the
    operator switches it on, and exactly such a kind has a notice to show before; a kind
    whose models cannot be enumerated has a list of its own to fall back to. *)
Theorem provider_rows (kind : ProviderKind) :
  kind ∈ all
  ∧ (∀ kind', account_for kind' = account_for kind → kind' = kind)
  ∧ (is_Some (meta_oauth_label (for_kind kind)) ↔ OAuthMode ∈ meta_auth_modes (for_kind kind))
  ∧ ApiKeyMode ∈ meta_auth_modes (for_kind kind)
  ∧ (is_Some (public_fallback_key kind) ↔ default_enabled kind = false)
  ∧ (is_Some (enable_notice kind) ↔ default_enabled kind = false)
  ∧ (meta_models_endpoint (for_kind kind) = Static → static_models kind ≠ [] ∧ is_Some (models_dev_id kind))
  ∧ from_id (kind_name kind) = Some kind.
Proof.
  split_and!; [apply all_complete|by intros k ?%(inj account_for)| | | | | |apply from_id_name]; destruct kind; decided.
Qed.

(** Z.AI and MiniMax are not asked for their models, which the comment of
    [ModelsEndpoint::OpenAiCompatible] says of them. *)
Lemma zai_minimax_static :
  meta_models_endpoint (for_kind Zai) = Static ∧ meta_models_endpoint (for_kind Minimax) = Static.
Proof. decided. Qed.
