(* ===== verification/Completion.v ===== *)
(** * Completions (agent/src/provider/mod.rs)

    What every provider shares: the end of a completion and its stream of events, the
    operator's overrides of a request body, the note for images that are left out, the
    silence a stream tolerates.  [Keyed] is the shape of the three stream readers: a map
    of blocks keyed by an index, updated and announced one chunk at a time.  [Adapter] is
    what a reader promises to the turn loop: the calls it returns are the calls it
    announced. *)

From stdpp Require Import sorting.

From S2P Require Import Prelude Json Transcript Classify.

(** ** Data *)

Inductive FinishReason : Set := Stop | ToolCalls | Length | ContentFilter | Other.

#[global] Instance FinishReason_eq_dec : EqDecision FinishReason.
Proof. solve_decision. Defined.

Record TokenUsage : Set := { prompt_tokens : N; completion_tokens : N; total_tokens : N }.

Record CompletionFinal : Set := {
  finish_reason : FinishReason;
  final_calls : list ToolCall;
  usage : option TokenUsage;
  final_reasoning : option str;
  final_thinking : list Json;
}.

Inductive CompletionEvent : Set :=
  | TokenDelta (delta : str)
  | ToolCallStart (id name : str)
  | ToolCallArgsDelta (id json_delta : str)
  | ToolCallEnd (id : str).

(** What a provider sent to its sink, and how the completion ended. *)
Record Streamed : Set := { events : list CompletionEvent; outcome : result CompletionFinal ProviderError }.

Record ToolSchema : Set := { schema_name : str; description : str; parameters : Json }.

(** A temperature is an [f32], by its text. *)
Record CompletionRequest : Set := {
  model : str; messages : list ChatMessage; tools : list ToolSchema; temperature : option str;
  max_tokens : option N; provider_options : option Json;
}.

(** The request shape that serves a model. *)
Inductive Wire : Set := OpenAiChat | AnthropicMessages | Gemini | OpenAiResponses.

(** What a model offers for reasoning: names of efforts, a switch, a range of budgets. *)
Record ModelReasoning : Set := { efforts : list str; toggle : bool; budget : option (N * option N) }.

#[global] Instance ModelReasoning_eq_dec : EqDecision ModelReasoning.
Proof. solve_decision. Defined.

(** The capabilities of a model in models.dev; a model it does not list has none. *)
Record ModelCapabilities : Set := {
  cap_reasoning : bool; cap_tool_call : bool; cap_temperature : bool; cap_vision : bool;
  interleaved_field : option str; cap_wire : Wire; reasoning_options : option ModelReasoning;
}.

(** [caps.is_none_or] *)
Definition allowed (p : ModelCapabilities → bool) (caps : option ModelCapabilities) : bool :=
  match caps with Some c => p c | None => true end.

Definition u32_mod : N := 4294967296.

(** [as u32] *)
Definition as_u32 (n : N) : N := n mod u32_mod.

(** [min(u32::MAX, n)], as [u32::try_from(n).unwrap_or(u32::MAX)] *)
Definition clamp_u32 (n : N) : N := N.min n u32_max.

(** ** Bodies *)

(** [body[key] = v] *)
Definition set_key (k : string) (v : Json) (body : Json) : Json :=
  match body with Object m => Object (map_insert (lit k) v m) | _ => body end.

Definition set_when (b : bool) (k : string) (v : Json) (body : Json) : Json :=
  if b then set_key k v body else body.

Definition set_some (k : string) (v : option Json) (body : Json) : Json :=
  match v with Some v => set_key k v body | None => body end.

Definition remove_key (k : string) (body : Json) : Json :=
  match body with Object m => Object (map_remove (lit k) m) | _ => body end.

Definition nat_json (n : N) : Json := Json.Number (dec_str n).

(** [merge_top_level] *)
Fixpoint merge_top_level (body overrides : Json) {struct overrides} : Json :=
  match body, overrides with
  | Object b, Object o =>
      Object ((fix go (o b : Map) {struct o} : Map :=
        match o with
        | [] => b
        | (k, v) :: o =>
            go o (match map_get k b, v with
                  | Some (Object e), Object _ => map_insert k (merge_top_level (Object e) v) b
                  | _, _ => map_insert k v b
                  end)
        end) o b)
  | _, _ => body
  end.

Definition dropped_images_note (text : str) (count : nat) : str :=
  let note := lit "[" ++ nat_str count ++ lit " " ++ (if count =? 1 then lit "image" else lit "images")
    ++ lit " attached but omitted: the selected model does not support image input.]" in
  match text with [] => note | _ => text ++ [LF; LF] ++ note end.

Definition data_uri (img : ImageAttachment) : str := lit "data:" ++ mime img ++ lit ";base64," ++ data img.

(** ** The silence of a stream *)

(** What the body of a response does next: bytes, an error, or nothing for the time
    allowed. *)
Inductive Chunk : Set := Bytes (b : list N) | Broken (e : str) | Silent.

Definition STREAM_IDLE_TIMEOUT : N := 120.

Definition stream_stalled (idle : N) : ProviderError :=
  transport (lit "response stream stalled: timed out after " ++ dec_str idle ++ lit "s without data").

Fixpoint with_idle_timeout (idle : N) (body : list Chunk) : list (result (list N) ProviderError) :=
  match body with
  | [] => []
  | Bytes b :: body => Ok b :: with_idle_timeout idle body
  | Broken e :: body => Err (transport e) :: with_idle_timeout idle body
  | Silent :: _ => [Err (stream_stalled idle)]
  end.

(** What eventsource-stream makes of a body: the data of the events, and errors. *)
Inductive EventStreamError : Set := TransportError (e : ProviderError) | OtherError (text : str).

Definition Eventsource : Type := list (result (list N) ProviderError) → list (result str EventStreamError).

Definition sse_events (eventsource : Eventsource) (body : list Chunk) (idle : N) : list (result str ProviderError) :=
  (λ ev, match ev with
         | Ok data => Ok data
         | Err (TransportError e) => Err e
         | Err (OtherError t) => Err (Decode t)
         end) <$> eventsource (with_idle_timeout idle body).

(** ** A request and its response *)

(** A response, its body as a text (nothing when it cannot be read) and as it comes in. *)
Record Response : Set := { status : N; body_text : str; body_chunks : list Chunk }.

Definition is_success (r : Response) : bool := (200 <=? status r)%N && (status r <? 300)%N.

(** From sending the request to the stream: what every provider does. *)
Definition exchange (eventsource : Eventsource) (resp : result Response str)
    (read : list (result str ProviderError) → Streamed) : Streamed :=
  match resp with
  | Err e => {| events := []; outcome := Err (transport e) |}
  | Ok r =>
      if is_success r then read (sse_events eventsource (body_chunks r) STREAM_IDLE_TIMEOUT)
      else {| events := []; outcome := Err (from_http_status (status r) (body_text r)) |}
  end.

(** A failure inside the stream. *)
Definition failure (raw code msg : str) : ProviderError :=
  Http None (if bool_decide (code = []) && bool_decide (msg = []) then raw else code ++ lit ": " ++ msg).

Record ModelInfo : Set := { info_id : str; info_name : option str; context_length : option N }.

Lemma omap_fmap {A B C} (f : B → option C) (g : A → B) (l : list A) : omap f (g <$> l) = omap (λ x, f (g x)) l.
Proof. induction l as [|x l IH]; simpl; [done|]. destruct (f (g x)); [by f_equal|done]. Qed.

Lemma last_omap_snoc {A B} (f : A → option B) (l : list A) x :
  last (omap f (l ++ [x])) = match f x with Some y => Some y | None => last (omap f l) end.
Proof. rewrite omap_app. simpl. destruct (f x); [apply last_snoc|]. by rewrite (right_id_L [] (++)). Qed.

(** ** Blocks keyed by an index *)

(** The entries of a [BTreeMap] by their index. *)
Definition index_le {A} (p q : N * A) : Prop := (p.1 ≤ q.1)%N.

#[global] Instance index_le_dec {A} : RelDecision (@index_le A).
Proof. unfold index_le. intros p q. apply _. Defined.

Definition in_order {A} (m : gmap N A) : list (N * A) := merge_sort index_le (map_to_list m).

Section Keyed.
Context {D E V : Type} (ix : D → N) (upd : option E → D → option E * list V).

Definition keyed (s : gmap N E * list V) (d : D) : gmap N E * list V :=
  let '(e, out) := upd (s.1 !! ix d) d in (partial_alter (λ _, e) (ix d) s.1, s.2 ++ out).

(** The chunks of one block. *)
Definition of_index (i : N) (ds : list D) : list D := filter (λ d, ix d = i) ds.

(** One block, on its own. *)
Definition alone (s : option E * list V) (d : D) : option E * list V :=
  let '(e, out) := upd s.1 d in (e, s.2 ++ out).

Lemma keyed_entry (i : N) (ds : list D) :
  (foldl keyed (∅, []) ds).1 !! i = (foldl alone (None, []) (of_index i ds)).1.
Proof.
  induction ds as [|d ds IH] using rev_ind; [done|].
  unfold of_index in *. rewrite filter_app, !foldl_snoc. unfold keyed at 1.
  destruct (upd ((foldl keyed (∅, []) ds).1 !! ix d) d) as [e out] eqn:E1. simpl. rewrite filter_cons, filter_nil.
  destruct (decide (ix d = i)) as [<-|Hne].
  - rewrite lookup_partial_alter_eq, foldl_snoc. unfold alone at 1. rewrite <- IH, E1. done.
  - rewrite lookup_partial_alter_ne by done. by rewrite (right_id_L [] (++)).
Qed.

(** What is announced of one block, when the others announce nothing [P] holds of. *)
Lemma keyed_events (P : V → Prop) `{!∀ v, Decision (P v)} (i : N) (ds : list D) :
  (∀ j pre d post, j ≠ i → of_index j ds = pre ++ d :: post →
     Forall (λ v, ¬ P v) (upd (foldl alone (None, []) pre).1 d).2) →
  filter P (foldl keyed (∅, []) ds).2 = filter P (foldl alone (None, []) (of_index i ds)).2.
Proof.
  induction ds as [|d ds IH] using rev_ind; intros Hev; [done|].
  assert (filter P (foldl keyed (∅, []) ds).2 = filter P (foldl alone (None, []) (of_index i ds)).2) as IH'.
  { apply IH. intros j pre d' post Hj Ed. apply (Hev j pre d' (post ++ of_index j [d]) Hj).
    unfold of_index in *. rewrite filter_app, Ed. by rewrite <- (assoc_L (++)). }
  unfold of_index in *. rewrite filter_app, !foldl_snoc. unfold keyed at 1.
  pose proof (keyed_entry (ix d) ds) as He. unfold of_index in He. rewrite He.
  specialize (Hev (ix d) (filter (λ d', ix d' = ix d) ds) d []).
  destruct (upd _ d) as [e out] eqn:E1. simpl. rewrite filter_app, IH', filter_cons, filter_nil.
  destruct (decide (ix d = i)) as [<-|Hne].
  - rewrite foldl_snoc. unfold alone at 2. rewrite E1. simpl. by rewrite filter_app.
  - rewrite (right_id_L [] (++) (filter (λ d', ix d' = i) ds)).
    rewrite (list_filter_none P out), (right_id_L [] (++)); [done|].
    apply Hev; [done|]. rewrite filter_app, filter_cons, filter_nil. by rewrite decide_True.
Qed.

Lemma alone_grows (s : option E * list V) (ds : list D) v : v ∈ s.2 → v ∈ (foldl alone s ds).2.
Proof.
  revert s. induction ds as [|d ds IH]; intros s Hv; [done|]. simpl. apply IH. unfold alone.
  destruct (upd s.1 d) as [e out]. simpl. apply elem_of_app. by left.
Qed.

(** What a chunk announces is among what its block announces. *)
Lemma alone_announces (pre post : list D) d v :
  v ∈ (upd (foldl alone (None, []) pre).1 d).2 → v ∈ (foldl alone (None, []) (pre ++ d :: post)).2.
Proof.
  intros Hv. rewrite foldl_app. simpl. apply alone_grows. unfold alone at 1.
  destruct (upd _ d) as [e out]. simpl in *. apply elem_of_app. by right.
Qed.
End Keyed.

Lemma in_order_elem {A} (m : gmap N A) i x : (i, x) ∈ in_order m ↔ m !! i = Some x.
Proof. unfold in_order. by rewrite merge_sort_Permutation, elem_of_map_to_list. Qed.

Lemma in_order_sorted {A} (m : gmap N A) : StronglySorted N.lt (in_order m).*1.
Proof.
  assert (NoDup (in_order m).*1) as Hnd.
  { unfold in_order. rewrite merge_sort_Permutation. apply NoDup_fst_map_to_list. }
  assert (StronglySorted index_le (in_order m)) as Hs.
  { apply StronglySorted_merge_sort; [intros ???; unfold index_le; lia|intros ??; unfold index_le; lia]. }
  induction Hs as [|p l _ IH Hp]; simpl in *; [constructor|]. apply NoDup_cons in Hnd as [Hn Hnd].
  constructor; [by apply IH|]. apply Forall_forall. intros i Hi. pose proof Hi as (q & -> & Hq)%list_elem_of_fmap.
  rewrite Forall_forall in Hp. specialize (Hp q Hq). unfold index_le in Hp.
  assert (p.1 ≠ q.1) by congruence. lia.
Qed.

(** The entries in order, given which there are. *)
Lemma in_order_map {A} (m : gmap N A) (l : list N) (f : N → A) :
  StronglySorted N.lt l → (∀ i, m !! i = if decide (i ∈ l) then Some (f i) else None) →
  in_order m = (λ i, (i, f i)) <$> l.
Proof.
  intros Hl Hm.
  assert (∀ i, i ∈ (in_order m).*1 ↔ i ∈ l) as Helem.
  { intros i. rewrite list_elem_of_fmap. split.
    - intros ([j x] & -> & Hin). apply in_order_elem in Hin. rewrite Hm in Hin. simpl. by case_decide.
    - intros Hi. exists (i, f i). split; [done|]. apply in_order_elem. rewrite Hm. by rewrite decide_True. }
  assert (∀ l : list N, StronglySorted N.lt l → NoDup l) as Hnd.
  { induction 1 as [|i l' _ IH Hi]; constructor; [|done]. intros Hin. rewrite Forall_forall in Hi.
    specialize (Hi i Hin). lia. }
  assert ((in_order m).*1 = l) as E.
  { apply (StronglySorted_unique_strong N.lt);
      [intros ??????; lia|apply in_order_sorted|done|].
    apply NoDup_Permutation; [apply Hnd, in_order_sorted|by apply Hnd|done]. }
  rewrite <- E. rewrite <- list_fmap_compose. symmetry. rewrite <- (list_fmap_id (in_order m)) at 2.
  apply list_fmap_ext. intros k [i x] Hk. simpl. f_equal.
  apply list_elem_of_lookup_2, in_order_elem in Hk. rewrite Hm in Hk. case_decide; by simplify_eq.
Qed.

(** The indices of the chunks, each once, in order. *)
Definition indices {D} (ix : D → N) (ds : list D) : list N := merge_sort N.le (remove_dups (ix <$> ds)).

Lemma indices_elem {D} (ix : D → N) (ds : list D) i : i ∈ indices ix ds ↔ of_index ix i ds ≠ [].
Proof.
  unfold indices. rewrite merge_sort_Permutation, elem_of_remove_dups, list_elem_of_fmap. unfold of_index. split.
  - intros (d & -> & Hd) E. assert (d ∈ filter (λ d', ix d' = ix d) ds) as H by (by apply list_elem_of_filter).
    rewrite E in H. by apply not_elem_of_nil in H.
  - intros Hne. destruct (filter (λ d, ix d = i) ds) as [|d l] eqn:E; [done|].
    assert (d ∈ filter (λ d, ix d = i) ds) as H by (rewrite E; left). apply list_elem_of_filter in H as [<- Hd].
    by exists d.
Qed.

Lemma indices_sorted {D} (ix : D → N) (ds : list D) : StronglySorted N.lt (indices ix ds).
Proof.
  assert (NoDup (indices ix ds)) as Hnd by (unfold indices; rewrite merge_sort_Permutation; apply NoDup_remove_dups).
  assert (StronglySorted N.le (indices ix ds)) as Hs.
  { apply StronglySorted_merge_sort; [intros ???; lia|intros ??; lia]. }
  induction Hs as [|i l _ IH Hi]; [constructor|]. apply NoDup_cons in Hnd as [Hn Hnd].
  constructor; [by apply IH|]. eapply Forall_impl; [apply Forall_and; split; [exact Hi|]; apply Forall_forall|].
  - intros j Hj. exact (λ E : i = j, Hn (eq_ind_r (λ k, k ∈ l) Hj E)).
  - intros j [H1 H2]. simpl in *. lia.
Qed.

(** ** What a reader promises *)

(** The text of the answer. *)
Definition text_of (evs : list CompletionEvent) : str :=
  concat (omap (λ e, match e with TokenDelta s => Some s | _ => None end) evs).

Lemma text_of_app (a b : list CompletionEvent) : text_of (a ++ b) = text_of a ++ text_of b.
Proof. unfold text_of. by rewrite omap_app, concat_app. Qed.

Definition about (i : str) (e : CompletionEvent) : Prop :=
  match e with
  | TokenDelta _ => False
  | ToolCallStart j _ | ToolCallArgsDelta j _ | ToolCallEnd j => j = i
  end.

#[global] Instance about_dec i e : Decision (about i e).
Proof. destruct e; simpl; apply _. Defined.

Lemma about_inj i j e : about i e → about j e → i = j.
Proof. destruct e; simpl; congruence || done. Qed.

(** The events of a call: its start, the pieces of its arguments, its end.  A call
    without arguments runs with an empty object. *)
Definition announces (evs : list CompletionEvent) (c : ToolCall) : Prop :=
  ∃ pieces, filter (about (tc_id c)) evs
              = ToolCallStart (tc_id c) (tc_name c) :: (ToolCallArgsDelta (tc_id c) <$> pieces) ++ [ToolCallEnd (tc_id c)]
    ∧ (concat pieces = arguments c ∨ concat pieces = [] ∧ arguments c = lit "{}").

(** What a reader of a provider's stream promises to the turn loop, as long as the stream
    keeps to the provider's protocol: the calls it returns have ids of their own, and each
    was announced. *)
Class Adapter (conforming : list (result str ProviderError) → Prop)
    (read : list (result str ProviderError) → Streamed) : Prop := {
  calls_distinct : ∀ cs fin, conforming cs → outcome (read cs) = Ok fin → NoDup (tc_id <$> final_calls fin);
  calls_announced : ∀ cs fin, conforming cs → outcome (read cs) = Ok fin →
    Forall (announces (events (read cs))) (final_calls fin);
}.

(** ** The operator's overrides *)

Definition is_object (v : Json) : bool := match v with Object _ => true | _ => false end.

Fixpoint at_path (p : list str) (v : Json) : option Json :=
  match p with
  | [] => Some v
  | k :: p => match v with Object m => x ← map_get k m; at_path p x | _ => None end
  end.

(** Objects have each key once. *)
Definition distinct_keys (v : Json) : Prop := ∀ p m, at_path p v = Some (Object m) → NoDup m.*1.

Lemma distinct_keys_get (k : str) (m : Map) (v : Json) :
  distinct_keys (Object m) → map_get k m = Some v → distinct_keys v.
Proof. intros H E p m' Hp. apply (H (k :: p)). simpl. by rewrite E. Qed.

Lemma map_get_elem (k : str) (m : Map) (v : Json) : map_get k m = Some v → (k, v) ∈ m.
Proof.
  induction m as [|[k' v'] m IH]; simpl; [done|]. case_decide as E; [intros [= <-]; subst; left|].
  intros H. right. by apply IH.
Qed.

Lemma distinct_keys_object (m : Map) :
  NoDup m.*1 → Forall (λ e, distinct_keys e.2) m → distinct_keys (Object m).
Proof.
  intros Hnd Hm [|k p] m'; simpl; [by intros [= <-]|]. destruct (map_get k m) as [v|] eqn:E; [|done]. simpl.
  apply map_get_elem in E. rewrite Forall_forall in Hm. exact (Hm _ E p m').
Qed.

Lemma distinct_keys_leaf (v : Json) : is_object v = false → distinct_keys v.
Proof. intros Hv [|k p] m'; by destruct v. Qed.

(** What the merge has under a key of the overrides. *)
Definition merged_value (e : option Json) (v : Json) : Json :=
  match e with Some (Object e) => if is_object v then merge_top_level (Object e) v else v | _ => v end.

Lemma merge_get (k : str) (b o : Map) :
  NoDup o.*1 →
  ∃ m, merge_top_level (Object b) (Object o) = Object m
    ∧ map_get k m = match map_get k o with Some v => Some (merged_value (map_get k b) v) | None => map_get k b end.
Proof.
  simpl. set (go := fix go (o b : Map) : Map := _). intros Hnd. exists (go o b). split; [done|].
  revert b. induction o as [|[k' v] o IH]; intros b; [done|]. simpl in Hnd. apply NoDup_cons in Hnd as [Hk Hnd].
  simpl. assert (match map_get k' b, v with
                 | Some (Object e), Object _ => map_insert k' (merge_top_level (Object e) v) b
                 | _, _ => map_insert k' v b
                 end = map_insert k' (merged_value (map_get k' b) v) b) as ->.
  { unfold merged_value. destruct (map_get k' b) as [[]|], v; done. }
  rewrite IH by done. rewrite map_get_insert. destruct (decide (k' = k)) as [<-|Hne]; [|done].
  by apply map_get_None in Hk as ->.
Qed.

(** The operator's options win and nothing else changes: merged into a request body,
    every value of the overrides that is not an object is at its path, at any depth, and
    a path the overrides say nothing about keeps the value of the body. *)
Theorem overrides_win (b o : Map) (p : list str) :
  distinct_keys (Object o) →
  let merged := merge_top_level (Object b) (Object o) in
  (∀ v, at_path p (Object o) = Some v → is_object v = false → at_path p merged = Some v)
  ∧ (at_path p (Object o) = None →
     (∀ q v, q `prefix_of` p → at_path q (Object o) = Some v → is_object v = true) →
     at_path p merged = at_path p (Object b)).
Proof.
  intros Hd merged. revert b o Hd merged. induction p as [|k p IH]; intros b o Hd merged; unfold merged.
  { split; [|done]. intros v [= <-] H. done. }
  destruct (merge_get k b o) as (m & -> & Hm); [by apply (Hd [])|]. simpl. rewrite Hm.
  destruct (map_get k o) as [v|] eqn:Ho; simpl; [|split; done].
  pose proof (distinct_keys_get k o v Hd Ho) as Hv. unfold merged_value. split.
  - intros w Hw Hobj. destruct (map_get k b) as [[| | | | |e]|]; try done.
    destruct v as [| | | | |mv]; try done. by apply (proj1 (IH e mv Hv)).
  - intros Hw Hpre. assert (is_object v = true) as Hobj.
    { apply (Hpre [k] v); [by apply prefix_cons, prefix_nil|]. simpl. by rewrite Ho. }
    destruct v as [| | | | |mv]; try done. destruct p as [|k' p]; [done|].
    destruct (map_get k b) as [[| | | | |e]|]; try done. apply (proj2 (IH e mv Hv)); [done|].
    intros q w Hq Hqw. apply (Hpre (k :: q)); [by apply prefix_cons|]. simpl. by rewrite Ho.
Qed.

(** Deep objects merge as well, although the comment speaks of one level. *)
Definition deep_body : Map :=
  [(lit "a", obj [("b"%string, obj [("kept"%string, Null); ("set"%string, Null)])])].

Definition deep_overrides : Map := [(lit "a", obj [("b"%string, obj [("set"%string, Bool true)])])].

Lemma overrides_win_witness :
  let merged := merge_top_level (Object deep_body) (Object deep_overrides) in
  at_path (lit <$> ["a"; "b"; "set"]%string) merged = Some (Bool true)
  ∧ at_path (lit <$> ["a"; "b"; "kept"]%string) merged = Some Null.
Proof.
  assert (distinct_keys (Object deep_overrides)) as Hd.
  { repeat (apply distinct_keys_object; [apply (bool_decide_unpack _); vm_compute; done|];
            apply Forall_singleton; simpl). by apply distinct_keys_leaf. }
  split.
  - apply (proj1 (overrides_win _ deep_overrides (lit <$> ["a"; "b"; "set"]%string) Hd)); reflexivity.
  - rewrite (proj2 (overrides_win deep_body deep_overrides (lit <$> ["a"; "b"; "kept"]%string) Hd)); [done|done|].
    intros q v Hq. destruct Hq as [r Hr]. destruct q as [|q1 [|q2 [|q3 [|q4 q]]]]; simpl in Hr; simplify_eq;
      vm_compute; intros; by simplify_eq.
Defined.

(** The keys of a body. *)
Lemma get_set_key (k k' : string) (v body : Json) :
  is_object body = true → get k (set_key k' v body) = if decide (lit k' = lit k) then Some v else get k body.
Proof. destruct body; try done. intros _. simpl. apply map_get_insert. Qed.

Lemma get_remove_key (k k' : string) (body : Json) :
  get k (remove_key k' body) = if decide (lit k' = lit k) then None else get k body.
Proof. destruct body; simpl; try by case_decide. apply map_get_remove. Qed.

(** ** Stalls *)

(** A stalled stream is retried: its text says that it timed out. *)
Lemma stream_stalled_retried (idle : N) : is_Some (is_transient_error (stream_stalled idle)).
Proof.
  unfold is_transient_error, stream_stalled, transport. set (s := str_to_ascii_lowercase _).
  assert (contains_str "timed out" s = true) as ->.
  { subst s. unfold error_text, str_to_ascii_lowercase. rewrite !fmap_app. vm_compute. done. }
  repeat case_match; done.
Qed.
