(* ===== verification/Catalogue.v ===== *)
(** * The models.dev catalogue (agent/src/provider/catalogue.rs)

    The parse of the catalogue into its maps, the cache on disk, the lookups, the merge of
    what a provider's models offer for reasoning, the order in which models are offered,
    and the model picker built on them (provider_models and default_model_for of
    app/src/agent/commands.rs).

    serde_json's reading of the file is an argument.  A [HashMap] that the code iterates is
    a list of its entries in the order of the iteration, which is any; a [HashMap] it only
    looks up is a [gmap].  An [f64] is a [spec_float].  The lock of the catalogue is
    tried: [None] is a catalogue that somebody writes. *)

From Stdlib Require Import SpecFloat.
From stdpp Require Import sorting.

From S2P Require Import Prelude Order Json Transcript Classify Session Completion Providers.

(** ** Floats *)

(** [as u32] *)
Definition float_to_u32 (f : spec_float) : N :=
  match f with
  | S754_zero _ | S754_nan => 0
  | S754_infinity s => if s then 0 else u32_max
  | S754_finite true _ _ => 0
  | S754_finite false m e => N.min (Z.to_N (Z.shiftl (Zpos m) e)) u32_max
  end%N.

(** [x.max(0.0)] *)
Definition max_zero (x : spec_float) : spec_float :=
  match x with
  | S754_nan => S754_zero false
  | _ => if SFltb x (S754_zero false) then S754_zero false else x
  end.

(** ** What models.dev says *)

Record ModelLimits : Set := { context : N; input : N; output : N }.

Definition from_npm (npm : option str) : Wire :=
  match npm with
  | Some n =>
      if decide (n = lit "@ai-sdk/anthropic") then AnthropicMessages
      else if decide (n = lit "@ai-sdk/google") then Gemini
      else if decide (n = lit "@ai-sdk/openai") then OpenAiResponses
      else OpenAiChat
  | None => OpenAiChat
  end.

Record ReasoningOptionJson : Set := {
  option_kind : str; option_values : list (option str); option_min : option spec_float; option_max : option spec_float;
}.

Record ModalitiesJson : Set := { modalities_input : list str; modalities_output : list str }.

Record ModelLimitJson : Set := {
  limit_context : option spec_float; limit_input : option spec_float; limit_output : option spec_float;
}.

Inductive InterleavedJson : Set := InterleavedBool (b : bool) | InterleavedObj (field : option str).

(** [m_cost] is the cost of the input, [m_npm] the package of the provider. *)
Record ModelEntry : Set := {
  m_name : option str; m_limit : option ModelLimitJson; m_cost : option spec_float; m_reasoning : option bool;
  m_tool_call : option bool; m_temperature : option bool; m_interleaved : option InterleavedJson;
  m_modalities : option ModalitiesJson; m_npm : option str; m_reasoning_options : option (list ReasoningOptionJson);
}.

Definition ApiResponse : Set := list (str * list (str * ModelEntry)).

(** The names of [new] that [old] lacks, at its end. *)
Definition add_names (old new : list str) : list str :=
  foldl (λ l e, if bool_decide (e ∈ l) then l else l ++ [e]) old new.

Definition parse_option (out : ModelReasoning) (o : ReasoningOptionJson) : ModelReasoning :=
  if decide (option_kind o = lit "effort") then
    {| efforts := add_names (efforts out) (default (lit "none") <$> option_values o);
       toggle := toggle out; budget := budget out |}
  else if decide (option_kind o = lit "toggle") then
    {| efforts := efforts out; toggle := true; budget := budget out |}
  else if decide (option_kind o = lit "budget_tokens") then
    {| efforts := efforts out; toggle := toggle out;
       budget := Some (default 0%N ((λ m, float_to_u32 (max_zero m)) <$> option_min o),
                       (λ m, float_to_u32 (max_zero m)) <$> option_max o) |}
  else out.

Definition no_reasoning : ModelReasoning := {| efforts := []; toggle := false; budget := None |}.

Definition parse_reasoning (options : list ReasoningOptionJson) : ModelReasoning :=
  foldl parse_option no_reasoning options.

Definition is_chat_model (id : str) (modalities : option ModalitiesJson) : bool :=
  match modalities with
  | Some m => forallb (λ o, o =s lit "text") (modalities_output m)
  | None => true
  end && negb (contains_str (lit "embed") (str_to_ascii_lowercase id)).

Definition parse_limits (j : option ModelLimitJson) : option ModelLimits :=
  j ← j;
  let read := λ (x : option spec_float) (d : N), match x with Some x => float_to_u32 (max_zero x) | None => d end in
  let context := read (limit_context j) 0%N in
  let input := read (limit_input j) context in
  let output := read (limit_output j) 0%N in
  if (context =? 0)%N then None else Some {| context := context; input := input; output := output |}.

Definition caps_of (m : ModelEntry) : ModelCapabilities :=
  {| cap_reasoning := default false (m_reasoning m);
     cap_tool_call := default true (m_tool_call m);
     cap_temperature := default true (m_temperature m);
     cap_vision := match m_modalities m with
                   | Some md => existsb (λ s, s =s lit "image") (modalities_input md)
                   | None => false
                   end;
     interleaved_field := match m_interleaved m with
                          | Some (InterleavedObj (Some s)) => if bool_decide (s = []) then None else Some s
                          | _ => None
                          end;
     cap_wire := from_npm (m_npm m);
     reasoning_options := parse_reasoning <$> m_reasoning_options m |}.

(** ** The order of models *)

Definition DEFAULT_PRIORITY : list str := lit <$> ["gpt-5"; "claude-sonnet-4"; "big-pickle"; "gemini-3-pro"]%string.

(** [position] *)
Fixpoint position {A} (p : A → bool) (l : list A) : option nat :=
  match l with
  | [] => None
  | x :: l => if p x then Some 0 else S <$> position p l
  end.

Definition priority_index (id : str) : Z :=
  match position (λ p, contains_str p (str_to_ascii_lowercase id)) DEFAULT_PRIORITY with
  | Some i => Z.of_nat i
  | None => -1
  end.

Definition latest_rank (id : str) : N := if contains_str (lit "latest") (str_to_ascii_lowercase id) then 0%N else 1%N.

Definition default_order : str → str → comparison :=
  lex (reversed (by_key priority_index Z.compare)) (lex (by_key latest_rank N.compare) (reversed str_cmp)).

Definition collects_prompts (id : str) : bool :=
  let l := str_to_ascii_lowercase id in
  (l =s lit "big-pickle") || contains_str (lit "contributor") l
  || (starts_with (rev (lit "-free")) (rev l)
      && existsb (λ m, contains_str m l) (lit <$> ["mimo-"; "ling-"; "nemotron"]%string)).

Definition sort_for_default : list str → list str := sort_by default_order.

(** The comparator of [sort_for_default_for]. *)
Definition order_for (kind : ProviderKind) : str → str → comparison :=
  if is_opencode_gateway kind then lex (by_key collects_prompts bool_cmp) default_order else default_order.

Definition sort_for_default_for (kind : ProviderKind) : list str → list str := sort_by (order_for kind).

Definition sort_model_infos : list ModelInfo → list ModelInfo := sort_by (by_key info_id default_order).

(** ** The catalogue *)

Record Catalogue : Set := {
  by_id : gmap (str * str) ModelLimits;
  cost_by_id : gmap (str * str) spec_float;
  caps_by_id : gmap (str * str) ModelCapabilities;
  models_by_provider : gmap str (list ModelInfo);
}.

Definition no_catalogue : Catalogue :=
  {| by_id := ∅; cost_by_id := ∅; caps_by_id := ∅; models_by_provider := ∅ |}.

Definition info_of (id : str) (m : ModelEntry) : ModelInfo :=
  {| info_id := id; info_name := m_name m; context_length := context <$> parse_limits (m_limit m) |}.

Definition insert_some {K} `{Countable K} {A} (k : K) (x : option A) (m : gmap K A) : gmap K A :=
  match x with Some x => <[k := x]> m | None => m end.

Definition parse_model (provider : str) (c : Catalogue) (e : str * ModelEntry) : Catalogue :=
  let '(id, m) := e in
  let key := (provider, id) in
  {| by_id := insert_some key (parse_limits (m_limit m)) (by_id c);
     models_by_provider :=
       if is_chat_model id (m_modalities m)
       then <[provider := default [] (models_by_provider c !! provider) ++ [info_of id m]]> (models_by_provider c)
       else models_by_provider c;
     cost_by_id := insert_some key (max_zero <$> m_cost m) (cost_by_id c);
     caps_by_id := <[key := caps_of m]> (caps_by_id c) |}.

Definition parse_provider (c : Catalogue) (e : str * list (str * ModelEntry)) : Catalogue :=
  foldl (parse_model e.1) c e.2.

Definition parse_catalogue (resp : ApiResponse) : Catalogue :=
  let c := foldl parse_provider no_catalogue resp in
  {| by_id := by_id c; cost_by_id := cost_by_id c; caps_by_id := caps_by_id c;
     models_by_provider := sort_model_infos <$> models_by_provider c |}.

(** ** The cache on disk *)

Definition REFRESH_TTL : Z := 86400000.

(** The catalogue in memory with the time it was set, and the file with the time it was written. *)
Record World : Set := { memory : Catalogue; fetched_unix_ms : Z; cache : option (list N * Z) }.

Section Cache.
Context (from_slice : list N → option ApiResponse).

Definition load_from_disk (now : Z) (w : World) : World :=
  match (f ← cache w; from_slice f.1) with
  | Some resp => {| memory := parse_catalogue resp; fetched_unix_ms := now; cache := cache w |}
  | None => w
  end.

Definition cache_is_fresh (now : Z) (w : World) : bool :=
  match cache w with Some (_, at_) => (Z.max (now - at_) 0 <? REFRESH_TTL)%Z | None => false end.

(** [resp] is the body of a successful response; [written] says whether the file could be
    written. *)
Definition refresh (now : Z) (resp : option (list N)) (written : bool) (w : World) : World :=
  match (b ← resp; r ← from_slice b; Some (b, r)) with
  | Some (bytes, parsed) =>
      {| memory := parse_catalogue parsed; fetched_unix_ms := now;
         cache := if written then Some (bytes, now) else cache w |}
  | None => w
  end.

Definition refresh_if_stale (now : Z) (resp : option (list N)) (written : bool) (w : World) : World :=
  if cache_is_fresh now w then w else refresh now resp written w.
End Cache.

(** ** Lookups *)

(** catalogue::context_window, catalogue::reserved_tokens, given what was found *)
Definition context_window (found : option ModelLimits) (default_context_window : N) : N :=
  match found with Some l => context l | None => default_context_window end.

Definition reserved_tokens (found : option ModelLimits) : N :=
  let max_output := match found with Some l => N.max (output l) 1%N | None => 8192%N end in
  N.max (N.min 20000 max_output) 2048.

Section Lookups.
Context (slot : option Catalogue).

Definition lookup (kind : ProviderKind) (model : str) : option ModelLimits :=
  mdid ← models_dev_id kind; g ← slot; by_id g !! (mdid, model).

Definition is_known_free (kind : ProviderKind) (model : str) : bool :=
  match (mdid ← models_dev_id kind; g ← slot; cost_by_id g !! (mdid, model)) with
  | Some c => SFeqb c (S754_zero false)
  | None => false
  end.

Definition has_data_for (kind : ProviderKind) : bool :=
  match (mdid ← models_dev_id kind; g ← slot; Some (mdid, g)) with
  | Some (mdid, g) => existsb (λ k, k.1 =s mdid) (map_to_list (by_id g)).*1
  | None => false
  end.

Definition capabilities (kind : ProviderKind) (model : str) : option ModelCapabilities :=
  mdid ← models_dev_id kind; g ← slot; caps_by_id g !! (mdid, model).

Definition supports_vision (kind : ProviderKind) (model : str) : bool := allowed cap_vision (capabilities kind model).

Definition reasoning_options_of (kind : ProviderKind) (model : str) : option ModelReasoning :=
  c ← capabilities kind model; reasoning_options c.

Definition wire (kind : ProviderKind) (model : str) : Wire :=
  match capabilities kind model with Some c => cap_wire c | None => OpenAiChat end.

Definition list_models (kind : ProviderKind) : list ModelInfo :=
  match (mdid ← models_dev_id kind; g ← slot; models_by_provider g !! mdid) with Some l => l | None => [] end.
End Lookups.

(** ** What a provider's models offer for reasoning *)

Definition usize_last : N := 18446744073709551615.

Definition effort_rank (name : str) : N :=
  match position (λ n, n =s name) (lit <$> ["none"; "minimal"; "low"; "medium"; "high"; "xhigh"; "max"]%string) with
  | Some i => N.of_nat i
  | None => usize_last
  end.

Definition merge_budget (a b : option (N * option N)) : option (N * option N) :=
  match a, b with
  | None, b => b
  | a, None => a
  | Some (lo_a, hi_a), Some (lo_b, hi_b) =>
      Some (N.min lo_a lo_b, match hi_a, hi_b with Some a, Some b => Some (N.max a b) | _, _ => None end)
  end.

Definition merge_reasoning (u r : ModelReasoning) : ModelReasoning :=
  {| efforts := add_names (efforts u) (efforts r); toggle := toggle u || toggle r;
     budget := merge_budget (budget u) (budget r) |}.

(** The options of the models of [mdid], in the order of the iteration. *)
Definition options_of (mdid : str) (entries : list (str * str * ModelCapabilities)) : list ModelReasoning :=
  omap (λ e, if decide (e.1.1 = mdid) then reasoning_options e.2 else None) entries.

Definition provider_reasoning_union (kind : ProviderKind) (entries : option (list (str * str * ModelCapabilities))) :
    ModelReasoning :=
  match (mdid ← models_dev_id kind; g ← entries; Some (mdid, g)) with
  | Some (mdid, g) =>
      let u := foldl merge_reasoning no_reasoning (options_of mdid g) in
      {| efforts := sort_by_key effort_rank (efforts u); toggle := toggle u; budget := budget u |}
  | None => no_reasoning
  end.

(** ** The model picker (app/src/agent/commands.rs) *)

Definition bare (id : str) : ModelInfo := {| info_id := id; info_name := None; context_length := None |}.

Definition merge_custom_models (models : list ModelInfo) (custom : option (list str)) : list ModelInfo :=
  match custom with
  | Some ids => models ++ (bare <$> filter (λ id, id ∉ info_id <$> models) ids)
  | None => models
  end.

(** The place of an id among the sorted ids, the last one where it stands twice. *)
Definition places (ids : list str) : gmap str N := list_to_map (reverse (imap (λ i s, (s, N.of_nat i)) ids)).

Definition arrange (kind : ProviderKind) (models : list ModelInfo) : list ModelInfo :=
  let order := places (sort_for_default_for kind (info_id <$> models)) in
  sort_by_key (λ m, default usize_last (order !! info_id m)) models.

Section Picker.
Context {Credential : Type} (api_key : str → Credential) (display_name : ProviderKind → str).

(** What is enabled and configured, and what a built provider lists, are arguments. *)
Definition provider_models (slot : option Catalogue) (kind : ProviderKind) (enabled : bool)
    (operator_credential : option Credential) (custom : option (list str))
    (build_provider : Credential → result (result (list ModelInfo) ProviderError) str) : result (list ModelInfo) str :=
  if negb enabled
  then Err (display_name kind ++ lit " is disabled " ++ 8212%N :: lit " enable it in Settings " ++ 8594%N :: lit " AI")
  else
    let public_fallback_active :=
      match operator_credential, public_fallback_key kind with None, Some _ => true | _, _ => false end in
    match match operator_credential with Some c => Some c | None => api_key <$> public_fallback_key kind end with
    | None => Err (lit "no credential configured for this provider")
    | Some cred =>
        listed <-? build_provider cred;
        match listed with
        | Err e =>
            match merge_custom_models [] custom with
            | [] => Err (error_text e)
            | v => Ok v
            end
        | Ok models =>
            let models := merge_custom_models models custom in
            let models := if public_fallback_active && has_data_for slot kind
                          then filter (λ m, is_known_free slot kind (info_id m) = true) models else models in
            Ok (arrange kind models)
        end
    end.

(** [listed] is nothing when the listing takes too long. *)
Definition default_model_for (slot : option Catalogue) (kind : ProviderKind)
    (listed : option (result (list ModelInfo) str)) : option str :=
  match (l ← listed; match l with Ok models => info_id <$> head models | Err _ => None end) with
  | Some id => Some id
  | None => head (sort_for_default_for kind (info_id <$> list_models slot kind))
  end.
End Picker.

(** ** The order is one of the models, not of the file *)

#[global] Instance default_order_comparator : Comparator default_order.
Proof. unfold default_order. apply _. Qed.

#[global] Instance default_order_distinguishes : Distinguishes default_order.
Proof. unfold default_order. apply _. Qed.

#[global] Instance order_for_comparator kind : Comparator (order_for kind).
Proof. unfold order_for. destruct (is_opencode_gateway kind); apply _. Qed.

#[global] Instance order_for_distinguishes kind : Distinguishes (order_for kind).
Proof. unfold order_for. destruct (is_opencode_gateway kind); apply _. Qed.

Lemma sort_for_perm kind l k : l ≡ₚ k → sort_for_default_for kind l = sort_for_default_for kind k.
Proof. apply sort_by_canonical; [apply _|]. intros x y _ _. apply cmp_eq. Qed.

(** The head of a list sorted for a gateway collects prompts only where all do. *)
Lemma gateway_head kind ids id :
  is_opencode_gateway kind = true → head (sort_for_default_for kind ids) = Some id → collects_prompts id = true →
  Forall (λ i, collects_prompts i = true) ids.
Proof.
  intros Hk Hid Hc. apply Forall_forall. intros i Hi. pose proof (sort_by_head (order_for kind) ids id i Hid Hi) as H.
  unfold at_most, order_for in H. rewrite Hk in H. unfold lex, by_key in H. rewrite Hc in H.
  by destruct (collects_prompts i).
Qed.

Lemma merge_custom_ids models custom :
  ∃ new, merge_custom_models models custom = models ++ new.
Proof. destruct custom; [by eexists|]. exists []. by rewrite (right_id_L [] (++)). Qed.

(** *** The places of sorted ids are in their order *)

Lemma places_lookup ids i : i ∈ ids → ∃ n, places ids !! i = Some n ∧ ids !! N.to_nat n = Some i.
Proof.
  intros Hi. unfold places. set (l := reverse _).
  assert (∀ p, p ∈ l → ids !! N.to_nat p.2 = Some p.1) as Hl.
  { intros [s n] Hp. subst l. apply elem_of_reverse, elem_of_lookup_imap in Hp as (k & x & [= -> ->] & Hk). simpl. by rewrite Nat2N.id. }
  assert (i ∈ l.*1) as Hin.
  { subst l. rewrite fmap_reverse. apply elem_of_reverse. rewrite fmap_imap. apply list_elem_of_lookup in Hi as [k Hk].
    apply list_elem_of_lookup. exists k. by rewrite list_lookup_imap, Hk. }
  clearbody l. induction l as [|[s n] l IH]; [by apply not_elem_of_nil in Hin|]. simpl.
  destruct (decide (s = i)) as [->|Hne].
  - exists n. rewrite lookup_insert_eq. split; [done|]. apply (Hl (i, n)). by left.
  - rewrite lookup_insert_ne by done. apply IH; [intros p Hp; apply Hl; by right|].
    apply elem_of_cons in Hin as [E|Hin]; [by subst|done].
Qed.

(** The models come in the order of their ids. *)
Lemma arrange_ids kind models : info_id <$> arrange kind models = sort_for_default_for kind (info_id <$> models).
Proof.
  apply (StronglySorted_unique (at_most (order_for kind))).
  - apply StronglySorted_map. eapply StronglySorted_weaken; [|apply sort_by_sorted; apply _]. intros x y Hx Hy Hxy.
    assert (∀ z, z ∈ arrange kind models → info_id z ∈ sort_for_default_for kind (info_id <$> models)) as Hin.
    { intros z. unfold arrange, sort_by_key, sort_for_default_for. rewrite !sort_by_perm. apply list_elem_of_fmap_2. }
    destruct (places_lookup _ _ (Hin x Hx)) as (n & Hn & Hxn). destruct (places_lookup _ _ (Hin y Hy)) as (k & Hk & Hyk).
    unfold at_most, by_key in Hxy. rewrite Hn, Hk in Hxy. simpl in Hxy. change (n ≤ k)%N in Hxy.
    destruct (decide (n = k)) as [->|Hne].
    + rewrite Hxn in Hyk. injection Hyk as ->. by apply at_most_refl, _.
    + eapply (StronglySorted_lookup _ _ (N.to_nat n) (N.to_nat k)); [apply sort_by_sorted, _|lia|exact Hxn|exact Hyk].
  - by apply sort_by_sorted, _.
  - unfold arrange, sort_by_key, sort_for_default_for. by rewrite !sort_by_perm.
Qed.

Lemma arrange_head kind models m :
  is_opencode_gateway kind = true → head (arrange kind models) = Some m → collects_prompts (info_id m) = true →
  Forall (λ m, collects_prompts (info_id m) = true) models.
Proof.
  intros Hk Hm Hc. assert (head (sort_for_default_for kind (info_id <$> models)) = Some (info_id m)) as Hh.
  { rewrite <- arrange_ids. by destruct (arrange kind models); simplify_eq/=. }
  pose proof (gateway_head kind _ _ Hk Hh Hc) as H. by apply Forall_fmap in H.
Qed.

Section Picked.
Context {Credential : Type} (api_key : str → Credential) (display_name : ProviderKind → str).
Context (slot : option Catalogue) (kind : ProviderKind) (operator_credential : option Credential).
Context (custom : option (list str)) (build_provider : Credential → result (result (list ModelInfo) ProviderError) str).

Notation picked := (provider_models api_key display_name slot kind true operator_credential custom build_provider).

(** Nobody has configured the provider, and it has a free tier whose prices are known. *)
Definition free_tier : Prop := operator_credential = None ∧ kind = OpencodeZen ∧ has_data_for slot kind = true.

(** The models the picker chooses from. *)
Definition offered (models : list ModelInfo) (m : ModelInfo) : Prop :=
  (m ∈ models ∨ ∃ ids id, custom = Some ids ∧ id ∈ ids ∧ id ∉ info_id <$> models ∧ m = bare id)
  ∧ (free_tier → is_known_free slot kind (info_id m) = true).

Notation credential :=
  (match operator_credential with Some c => Some c | None => api_key <$> public_fallback_key kind end).

Lemma picked_ok (cred : Credential) (models : list ModelInfo) :
  credential = Some cred → build_provider cred = Ok (Ok models) →
  ∃ kept, picked = Ok (arrange kind kept) ∧ ∀ m, m ∈ kept ↔ offered models m.
Proof.
  unfold provider_models. simpl negb. cbv iota. intros -> Hb. rewrite Hb. cbn [result_bind].
  set (all := merge_custom_models models custom).
  set (active := match operator_credential, public_fallback_key kind with None, Some _ => true | _, _ => false end).
  eexists. split; [done|]. intros m.
  assert (m ∈ all ↔ m ∈ models ∨ ∃ ids id, custom = Some ids ∧ id ∈ ids ∧ id ∉ info_id <$> models ∧ m = bare id) as Hall.
  { subst all. unfold merge_custom_models. destruct custom as [ids|]; [|naive_solver]. rewrite elem_of_app, list_elem_of_fmap.
    setoid_rewrite list_elem_of_filter. naive_solver. }
  assert (active = true ↔ operator_credential = None ∧ kind = OpencodeZen) as Hactive.
  { subst active. destruct operator_credential, kind; naive_solver. }
  unfold offered, free_tier. rewrite <- Hall. destruct active, (has_data_for slot kind) eqn:Hd; simpl;
    rewrite ?list_elem_of_filter; naive_solver.
Qed.

Lemma picked_failed (cred : Credential) (e : ProviderError) (l : list ModelInfo) :
  credential = Some cred → build_provider cred = Ok (Err e) → picked = Ok l →
  ∃ ids, custom = Some ids ∧ l = bare <$> ids.
Proof.
  unfold provider_models. simpl negb. cbv iota. intros -> Hb. rewrite Hb. cbn [result_bind]. unfold merge_custom_models.
  destruct custom as [ids|]; [|done]. simpl. rewrite (list_filter_all _ ids) by (intros; apply not_elem_of_nil).
  destruct ids as [|i ids]; [done|]. intros [= <-]. by exists (i :: ids).
Qed.

(** The picker of a provider that answers lists exactly the models of its listing and the
    operator's own that it lacks, without the paid ones where nobody has a key for the free
    tier, in an order that is one of the ids alone. *)
Theorem picker_lists (cred : Credential) (models : list ModelInfo) :
  credential = Some cred → build_provider cred = Ok (Ok models) →
  ∃ l, picked = Ok l ∧ (∀ m, m ∈ l ↔ offered models m)
    ∧ ∀ ids, ids ≡ₚ info_id <$> l → sort_for_default_for kind ids = info_id <$> l.
Proof.
  intros Hc Hb. destruct (picked_ok _ _ Hc Hb) as (kept & -> & Hkept). eexists. split; [done|]. split.
  - intros m. rewrite <- Hkept. unfold arrange, sort_by_key. by rewrite sort_by_perm.
  - intros ids Hids. rewrite arrange_ids in Hids |- *. rewrite (sort_for_perm kind ids _ Hids).
    apply sort_by_id, sort_by_sorted, _.
Qed.

(** What a fresh chat sends cluster data to: on the OpenCode gateways the model a provider
    starts on is never one whose provider collects prompts, unless every model offered
    there is, or the gateway could not be listed and the operator named the model. *)
Theorem default_keeps_prompts (id : str) (in_time : bool) :
  is_opencode_gateway kind = true →
  default_model_for slot kind (if in_time then Some picked else None) = Some id → collects_prompts id = true →
  (∃ cred models, build_provider cred = Ok (Ok models) ∧ ∀ m, offered models m → collects_prompts (info_id m) = true)
  ∨ (∃ cred e ids, build_provider cred = Ok (Err e) ∧ custom = Some ids ∧ head ids = Some id)
  ∨ Forall (λ m, collects_prompts (info_id m) = true) (list_models slot kind).
Proof.
  intros Hk Hd Hcp. unfold default_model_for in Hd. destruct (_ ≫= _) as [i|] eqn:Hl.
  - injection Hd as ->. destruct in_time; [|done]. simpl in Hl. destruct picked as [l|] eqn:Hp; [|done].
    apply fmap_Some in Hl as (m & Hm & ->).
    destruct credential as [cred|] eqn:Hc; [|unfold provider_models in Hp; simpl in Hp; rewrite Hc in Hp; done].
    destruct (build_provider cred) as [[models|e]|] eqn:Hb.
    + left. exists cred, models. split; [done|]. destruct (picked_ok cred models Hc Hb) as (kept & Ek & Hkept).
      rewrite Hp in Ek. injection Ek as ->. intros m' Hm'%Hkept. pose proof (arrange_head kind kept m Hk Hm Hcp) as Hall.
      rewrite Forall_forall in Hall. by apply Hall.
    + right. left. destruct (picked_failed cred e l Hc Hb Hp) as (ids & -> & ->). exists cred, e, ids. split_and!; [done..|].
      by destruct ids; simplify_eq/=.
    + unfold provider_models in Hp. simpl in Hp. rewrite Hc, Hb in Hp. done.
  - right. right. pose proof (gateway_head kind _ _ Hk Hd Hcp) as H. by apply Forall_fmap in H.
Qed.
End Picked.

(** ** What the parse makes of the file does not depend on the order of its maps *)

(** The models of the file, with the provider each stands under. *)
Definition entries (resp : ApiResponse) : list (str * str * ModelEntry) :=
  resp ≫= λ p, (λ m, (p.1, m.1, m.2)) <$> p.2.

(** The keys of a JSON object are distinct. *)
Definition keys_distinct (resp : ApiResponse) : Prop := NoDup (entries resp).*1.

Definition parse_entry (c : Catalogue) (e : str * str * ModelEntry) : Catalogue := parse_model e.1.1 c (e.1.2, e.2).

Definition parsed (l : list (str * str * ModelEntry)) : Catalogue := foldl parse_entry no_catalogue l.

Lemma parse_entries resp : foldl parse_provider no_catalogue resp = parsed (entries resp).
Proof.
  unfold parsed, entries. generalize no_catalogue. induction resp as [|[p ms] resp IH]; intros c; [done|].
  rewrite bind_cons, foldl_app, <- IH. simpl. f_equal. unfold parse_provider. simpl. clear IH.
  revert c. induction ms as [|[id m] ms IH]; intros c; [done|]. simpl. apply IH.
Qed.

(** The models of a provider that chat. *)
Definition chat_infos (p : str) (l : list (str * str * ModelEntry)) : list ModelInfo :=
  omap (λ e, if decide (e.1.1 = p) then if is_chat_model e.1.2 (m_modalities e.2) then Some (info_of e.1.2 e.2) else None
             else None) l.

Definition maps_entry {A} (f : ModelEntry → option A) (m : gmap (str * str) A) (l : list (str * str * ModelEntry)) : Prop :=
  ∀ k, m !! k = match list_find (λ e, e.1 = k) l with Some (_, e) => f e.2 | None => None end.

Lemma maps_entry_snoc {A} (f : ModelEntry → option A) m l e :
  e.1 ∉ l.*1 → maps_entry f m l → maps_entry f (insert_some e.1 (f e.2) m) (l ++ [e]).
Proof.
  intros Hn Hm k. destruct (decide (e.1 = k)) as [<-|Hne].
  - assert (list_find (λ e', e'.1 = e.1) l = None) as Hnone.
    { apply list_find_None, Forall_forall. intros x Hx E. apply Hn. rewrite <- E. by apply list_elem_of_fmap_2. }
    rewrite list_find_app_r by done. simpl. rewrite decide_True by done. simpl.
    unfold insert_some. destruct (f e.2); [by rewrite lookup_insert_eq|]. rewrite Hm. by rewrite Hnone.
  - transitivity (m !! k); [unfold insert_some; destruct (f e.2); [by rewrite lookup_insert_ne|done]|]. rewrite Hm.
    destruct (list_find (λ e', e'.1 = k) l) as [[i x]|] eqn:Hf.
    + by rewrite (list_find_app_l _ _ _ _ _ Hf).
    + rewrite list_find_app_r by done. simpl. by rewrite decide_False.
Qed.

Record parses (l : list (str * str * ModelEntry)) (c : Catalogue) : Prop := {
  parses_limits : maps_entry (λ m, parse_limits (m_limit m)) (by_id c) l;
  parses_cost : maps_entry (λ m, max_zero <$> m_cost m) (cost_by_id c) l;
  parses_caps : maps_entry (λ m, Some (caps_of m)) (caps_by_id c) l;
  parses_models : ∀ p, models_by_provider c !! p = match chat_infos p l with [] => None | infos => Some infos end;
}.

Lemma parsed_parses l : NoDup l.*1 → parses l (parsed l).
Proof.
  induction l as [|e l IH] using rev_ind; [intros _; split; intros k; apply lookup_empty|].
  rewrite fmap_app. intros (Hnd & Hd & _)%NoDup_app. assert (e.1 ∉ l.*1) as Hn by (intros He; apply (Hd _ He); by left).
  destruct (IH Hnd) as [Hl Hco Hca Hm]. unfold parsed. rewrite foldl_snoc. fold (parsed l). destruct e as [[p id] m].
  unfold parse_entry, parse_model. simpl in *. split; simpl.
  - apply (maps_entry_snoc (λ m, parse_limits (m_limit m)) _ _ (p, id, m)); done.
  - apply (maps_entry_snoc (λ m, max_zero <$> m_cost m) _ _ (p, id, m)); done.
  - apply (maps_entry_snoc (λ m, Some (caps_of m)) _ _ (p, id, m)); done.
  - intros q. unfold chat_infos. rewrite omap_app. fold (chat_infos q l). simpl.
    destruct (is_chat_model id (m_modalities m)).
    + destruct (decide (p = q)) as [<-|Hne].
      * rewrite lookup_insert_eq, Hm. by destruct (chat_infos p l).
      * by rewrite lookup_insert_ne, Hm, (right_id_L [] (++)).
    + rewrite Hm. case_decide; by rewrite (right_id_L [] (++)).
Qed.

Lemma list_find_perm {A} (P : A → Prop) `{!∀ x, Decision (P x)} (l k : list A) :
  (∀ x y, x ∈ l → y ∈ l → P x → P y → x = y) → l ≡ₚ k → snd <$> list_find P l = snd <$> list_find P k.
Proof.
  intros Hu Hp. destruct (list_find P l) as [[i x]|] eqn:Hl, (list_find P k) as [[j y]|] eqn:Hk; simpl; [|exfalso..|done].
  - apply list_find_Some in Hl as (Hi & Hx & _). apply list_find_Some in Hk as (Hj & Hy & _). f_equal.
    apply Hu; [by eapply list_elem_of_lookup_2|rewrite Hp; by eapply list_elem_of_lookup_2|done..].
  - apply list_find_Some in Hl as (Hi & Hx & _). apply list_find_None in Hk. rewrite Forall_forall in Hk.
    apply (Hk x); [|done]. rewrite <- Hp. by eapply list_elem_of_lookup_2.
  - apply list_find_Some in Hk as (Hi & Hx & _). apply list_find_None in Hl. rewrite Forall_forall in Hl.
    apply (Hl y); [|done]. rewrite Hp. by eapply list_elem_of_lookup_2.
Qed.

Lemma NoDup_fst_unique {A B} (l : list (A * B)) x y : NoDup l.*1 → x ∈ l → y ∈ l → x.1 = y.1 → x = y.
Proof.
  intros Hnd Hx Hy E. apply list_elem_of_lookup in Hx as [i Hi]. apply list_elem_of_lookup in Hy as [j Hj].
  assert (i = j) as ->; [|congruence]. eapply (NoDup_lookup l.*1); [done|..]; rewrite list_lookup_fmap.
  - by rewrite Hi.
  - by rewrite Hj, E.
Qed.

Lemma maps_entry_perm {A} (f : ModelEntry → option A) m m' l k :
  NoDup l.*1 → l ≡ₚ k → maps_entry f m l → maps_entry f m' k → m = m'.
Proof.
  intros Hnd Hp Hm Hm'. apply map_eq. intros i. rewrite Hm, Hm'.
  assert (snd <$> list_find (λ e, e.1 = i) l = snd <$> list_find (λ e, e.1 = i) k) as E.
  { apply list_find_perm; [|done]. intros x y Hx Hy <- E. by apply (NoDup_fst_unique l). }
  by destruct (list_find _ l) as [[]|], (list_find _ k) as [[]|]; simplify_eq/=.
Qed.

(** The catalogue a file gives is one of its contents alone: the maps the parser iterates
    have no order of their own, and no limit, price, capability or list of models depends
    on the one they come in. *)
Theorem parse_deterministic (resp resp' : ApiResponse) :
  keys_distinct resp → entries resp ≡ₚ entries resp' → parse_catalogue resp = parse_catalogue resp'.
Proof.
  intros Hnd Hp. unfold parse_catalogue. rewrite !parse_entries.
  assert (NoDup (entries resp').*1) as Hnd' by (by rewrite <- Hp).
  destruct (parsed_parses _ Hnd) as [H1 H2 H3 H4], (parsed_parses _ Hnd') as [H1' H2' H3' H4'].
  f_equal; [exact (maps_entry_perm _ _ _ _ _ Hnd Hp H1 H1')|exact (maps_entry_perm _ _ _ _ _ Hnd Hp H2 H2')|
            exact (maps_entry_perm _ _ _ _ _ Hnd Hp H3 H3')|]. apply map_eq. intros p. rewrite !lookup_fmap, H4, H4'.
  assert (chat_infos p (entries resp) ≡ₚ chat_infos p (entries resp')) as Hc by (unfold chat_infos; by rewrite Hp).
  assert (sort_model_infos (chat_infos p (entries resp)) = sort_model_infos (chat_infos p (entries resp'))) as Hs.
  { apply sort_by_canonical; [apply _| |done]. intros x y Hx Hy E. apply (cmp_eq (cmp := default_order)) in E.
    unfold chat_infos in Hx, Hy. apply list_elem_of_omap in Hx as (ex & Hex & Ex). apply list_elem_of_omap in Hy as (ey & Hey & Ey).
    destruct (decide (ex.1.1 = p)) as [Epx|], (decide (ey.1.1 = p)) as [Epy|]; [|done..].
    destruct (is_chat_model ex.1.2 _); [|done]. destruct (is_chat_model ey.1.2 _); [|done]. injection Ex as <-. injection Ey as <-.
    assert (ex = ey) as ->; [|done]. apply (NoDup_fst_unique (entries resp)); [done..|]. destruct ex as [[]], ey as [[]]. simpl in *. congruence. }
  destruct (chat_infos p (entries resp)), (chat_infos p (entries resp')); simpl; try (by f_equal).
  - by apply Permutation_nil_l in Hc.
  - by apply Permutation_nil_r in Hc.
Qed.

(** ** A restart finds the catalogue it left *)

(** Two processes read a file alike, up to the order of its maps. *)
Definition reads_alike (f g : list N → option ApiResponse) : Prop :=
  ∀ b, match f b, g b with
       | Some r, Some r' => keys_distinct r ∧ entries r ≡ₚ entries r'
       | None, None => True
       | _, _ => False
       end.

(** What the process does to the catalogue after its start. *)
Inductive CacheOp : Set :=
  | Refreshed (now : Z) (resp : option (list N)) (written : bool)
  | RefreshedIfStale (now : Z) (resp : option (list N)) (written : bool).

Definition cache_op (from_slice : list N → option ApiResponse) (w : World) (o : CacheOp) : World :=
  match o with
  | Refreshed now resp written => refresh from_slice now resp written w
  | RefreshedIfStale now resp written => refresh_if_stale from_slice now resp written w
  end.

Definition writes (o : CacheOp) : bool :=
  match o with Refreshed _ _ written | RefreshedIfStale _ _ written => written end.

(** The file holds what is in memory. *)
Definition on_disk (from_slice : list N → option ApiResponse) (w : World) : Prop :=
  ∃ b t r, cache w = Some (b, t) ∧ from_slice b = Some r ∧ memory w = parse_catalogue r.

Section Restart.
Context (from_slice : list N → option ApiResponse).

Lemma refresh_on_disk now resp w : on_disk from_slice w → on_disk from_slice (refresh from_slice now resp true w).
Proof.
  intros Hw. unfold refresh. destruct resp as [b|]; [|done]. simpl. destruct (from_slice b) as [r|] eqn:Hr; [|done]. simpl.
  by exists b, now, r.
Qed.

Lemma cache_ops_on_disk ops w :
  Forall (λ o, writes o = true) ops → on_disk from_slice w → on_disk from_slice (foldl (cache_op from_slice) w ops).
Proof.
  intros Hops. revert w. induction Hops as [|o ops Ho _ IH]; intros w Hw; [done|]. simpl. apply IH.
  destruct o as [now resp written|now resp written]; simpl in *; subst written; [by apply refresh_on_disk|].
  unfold refresh_if_stale. destruct (cache_is_fresh now w); [done|by apply refresh_on_disk].
Qed.

Lemma load_on_disk now b t r w :
  cache w = Some (b, t) → from_slice b = Some r → on_disk from_slice (load_from_disk from_slice now w).
Proof. intros Hc Hr. unfold load_from_disk. rewrite Hc. simpl. rewrite Hr. by exists b, t, r. Qed.

(** Offline restarts: a process that found a readable file at its start, or fetched the
    catalogue once, leaves a file from which the next process loads the very catalogue it
    had in memory, however often and with whatever success it refreshed it, as long as its
    writes go through. *)
Theorem restart_restores (from_slice' : list N → option ApiResponse) (now : Z) (w : World) (ops : list CacheOp) :
  reads_alike from_slice from_slice' → on_disk from_slice w → Forall (λ o, writes o = true) ops →
  let left_ := foldl (cache_op from_slice) w ops in
  memory (load_from_disk from_slice' now {| memory := no_catalogue; fetched_unix_ms := 0; cache := cache left_ |})
  = memory left_.
Proof.
  intros Ha Hw Hops. cbv zeta. destruct (cache_ops_on_disk ops w Hops Hw) as (b & t & r & Hc & Hr & Hm).
  unfold load_from_disk. cbn [cache]. rewrite Hc. simpl. specialize (Ha b). rewrite Hr in Ha.
  destruct (from_slice' b) as [r'|]; [|done]. destruct Ha as [Hk Hp]. cbn. rewrite Hm. symmetry. by apply parse_deterministic.
Qed.
End Restart.

(** ** What all the models of a provider offer *)

Lemma add_names_elem old new e : e ∈ add_names old new ↔ e ∈ old ∨ e ∈ new.
Proof.
  unfold add_names. revert old. induction new as [|n new IH]; intros old; simpl; [set_solver|].
  rewrite IH. case_bool_decide; set_solver.
Qed.

Lemma add_names_nodup old new : NoDup old → NoDup (add_names old new).
Proof.
  unfold add_names. revert old. induction new as [|n new IH]; intros old Hnd; simpl; [done|].
  apply IH. case_bool_decide; [done|]. apply NoDup_app. split_and!; [done|set_solver|apply NoDup_singleton].
Qed.

Lemma merge_budget_swap a b c : merge_budget (merge_budget a b) c = merge_budget (merge_budget a c) b.
Proof.
  destruct a as [[? []]|], b as [[? []]|], c as [[? []]|]; simpl; try done; do 2 f_equal; try lia; f_equal; lia.
Qed.

Definition union_of (l : list ModelReasoning) : ModelReasoning := foldl merge_reasoning no_reasoning l.

Lemma foldl_perm {A B} (f : B → A → B) (l k : list A) b :
  (∀ b x y, f (f b x) y = f (f b y) x) → l ≡ₚ k → foldl f b l = foldl f b k.
Proof.
  intros Hf Hp. revert b. induction Hp as [|x l k _ IH|x y l|l k m _ IH1 _ IH2]; intros b; simpl; [done|apply IH|by rewrite Hf|].
  by rewrite IH1.
Qed.

Lemma union_toggle l : toggle (union_of l) = existsb toggle l.
Proof.
  induction l as [|r l IH] using rev_ind; [done|]. unfold union_of. rewrite foldl_snoc. fold (union_of l). simpl.
  rewrite IH, existsb_app. simpl. by rewrite orb_false_r.
Qed.

Lemma union_budget l : budget (union_of l) = foldl (λ b r, merge_budget b (budget r)) None l.
Proof.
  induction l as [|r l IH] using rev_ind; [done|]. unfold union_of. rewrite !foldl_snoc. fold (union_of l). simpl. by rewrite IH.
Qed.

Lemma union_efforts l : NoDup (efforts (union_of l)) ∧ ∀ e, e ∈ efforts (union_of l) ↔ ∃ r, r ∈ l ∧ e ∈ efforts r.
Proof.
  induction l as [|r l [IHn IHe]] using rev_ind; [split; [constructor|set_solver]|]. unfold union_of. rewrite foldl_snoc.
  fold (union_of l). simpl. split; [by apply add_names_nodup|]. intros e. rewrite add_names_elem, IHe.
  setoid_rewrite elem_of_app. set_solver.
Qed.

(** A budget as wide as the other. *)
Definition wider (a b : option (N * option N)) : Prop :=
  match a, b with
  | _, None => True
  | None, Some _ => False
  | Some (lo, hi), Some (lo', hi') => (lo ≤ lo')%N ∧ match hi, hi' with None, _ => True | Some h, Some h' => (h' ≤ h)%N | _, _ => False end
  end.

Lemma merge_wider a b : wider (merge_budget a b) a ∧ wider (merge_budget a b) b.
Proof. destruct a as [[? []]|], b as [[? []]|]; simpl; split_and!; try done; lia. Qed.

Lemma wider_trans a b c : wider a b → wider b c → wider a c.
Proof. destruct a as [[? []]|], b as [[? []]|], c as [[? []]|]; simpl; intuition lia. Qed.

Lemma union_wider l r : r ∈ l → wider (budget (union_of l)) (budget r).
Proof.
  rewrite union_budget. induction l as [|r' l IH] using rev_ind; [by intros ?%not_elem_of_nil|]. rewrite foldl_snoc.
  intros [Hr|Hr]%elem_of_app.
  - eapply wider_trans; [|by apply IH]. apply merge_wider.
  - apply list_elem_of_singleton in Hr as ->. apply merge_wider.
Qed.

Definition known_effort (e : str) : Prop := (effort_rank e < usize_last)%N.

Lemma position_is_Some {A} (p : A → bool) l i : position p l = Some i → ∃ x, l !! i = Some x ∧ p x = true.
Proof.
  revert i. induction l as [|x l IH]; intros i; simpl; [done|]. destruct (p x) eqn:Hp; [intros [= <-]; by exists x|].
  intros (j & Hj & ->)%fmap_Some. by apply IH.
Qed.

Lemma known_effort_inj a b : known_effort a → effort_rank a = effort_rank b → a = b.
Proof.
  unfold known_effort, effort_rank. destruct (position _ _) as [i|] eqn:Hi; [|lia]. apply position_is_Some in Hi as (x & Hx & Ea).
  destruct (position _ _) as [j|] eqn:Hj; [|lia]. apply position_is_Some in Hj as (y & Hy & Eb).
  apply str_eqb_eq in Ea, Eb. intros _ E. assert (i = j) as -> by lia. congruence.
Qed.

(** What a provider's models offer for reasoning, merged: a name is offered when a model
    offers it, from the least effort to the greatest, once; the range of budgets covers
    every model's; and, as long as the names are known ones, nothing depends on the order in
    which the catalogue is walked. *)
Theorem union_canonical (kind : ProviderKind) (mdid : str) (l k : list (str * str * ModelCapabilities)) :
  models_dev_id kind = Some mdid → l ≡ₚ k →
  let u := provider_reasoning_union kind (Some l) in
  let u' := provider_reasoning_union kind (Some k) in
  NoDup (efforts u)
  ∧ (∀ e, e ∈ efforts u ↔ ∃ r, r ∈ options_of mdid l ∧ e ∈ efforts r)
  ∧ StronglySorted (λ a b, (effort_rank a ≤ effort_rank b)%N) (efforts u)
  ∧ (∀ r, r ∈ options_of mdid l → wider (budget u) (budget r))
  ∧ toggle u = toggle u' ∧ budget u = budget u' ∧ efforts u ≡ₚ efforts u'
  ∧ (Forall known_effort (efforts u) → u = u').
Proof.
  intros Hk Hp. unfold provider_reasoning_union. rewrite Hk. cbn. fold (union_of (options_of mdid l)) (union_of (options_of mdid k)).
  assert (options_of mdid l ≡ₚ options_of mdid k) as Ho by (unfold options_of; by rewrite Hp).
  destruct (union_efforts (options_of mdid l)) as [Hn He], (union_efforts (options_of mdid k)) as [Hn' He'].
  assert (toggle (union_of (options_of mdid l)) = toggle (union_of (options_of mdid k))) as Et.
  { rewrite !union_toggle. apply eq_true_iff_eq. rewrite !existsb_exists. setoid_rewrite <- list_elem_of_In. by setoid_rewrite Ho. }
  assert (budget (union_of (options_of mdid l)) = budget (union_of (options_of mdid k))) as Eb.
  { rewrite !union_budget. apply foldl_perm; [|done]. intros. apply merge_budget_swap. }
  assert (efforts (union_of (options_of mdid l)) ≡ₚ efforts (union_of (options_of mdid k))) as Ee.
  { apply NoDup_Permutation; [done..|]. intros e. rewrite He, He'. by setoid_rewrite Ho. }
  unfold sort_by_key. rewrite Et, Eb. split_and!.
  - by rewrite sort_by_perm.
  - intros e. by rewrite sort_by_perm.
  - eapply StronglySorted_weaken; [|apply sort_by_sorted, _]. intros a b _ _ H. exact H.
  - intros r Hr. rewrite <- Eb. by apply union_wider.
  - done.
  - done.
  - by rewrite !sort_by_perm.
  - intros Hknown. f_equal. apply sort_by_canonical; [apply _| |done]. rewrite sort_by_perm, Forall_forall in Hknown.
    intros x y Hx _ E. apply known_effort_inj; [by apply Hknown|]. by apply N.compare_eq_iff.
Qed.

(** ** Samples *)

Module Samples.

Definition float (m : positive) (e : Z) : spec_float := S754_finite false m e.

Definition model (cost : spec_float) (efforts : list string) : ModelEntry :=
  {| m_name := None; m_limit := Some {| limit_context := Some (float 3125 6); limit_input := None; limit_output := Some (float 1 13) |};
     m_cost := Some cost; m_reasoning := Some true; m_tool_call := None; m_temperature := None; m_interleaved := None;
     m_modalities := Some {| modalities_input := [lit "text"]; modalities_output := [lit "text"] |}; m_npm := None;
     m_reasoning_options := Some [{| option_kind := lit "effort"; option_values := (λ e, Some (lit e)) <$> efforts;
                                     option_min := None; option_max := None |}] |}.

Definition a_file : ApiResponse :=
  [(lit "opencode", [(lit "big-pickle", model (S754_zero false) ["low"%string; "high"%string]);
                     (lit "grok-code", model (S754_zero false) ["max"%string; "high"%string]);
                     (lit "claude-sonnet-4", model (float 3 0) [])]);
   (lit "zai", [(lit "glm-4.6", model (float 1 0) [])])].

Definition another_order : ApiResponse :=
  [(lit "zai", [(lit "glm-4.6", model (float 1 0) [])]);
   (lit "opencode", [(lit "claude-sonnet-4", model (float 3 0) []);
                     (lit "grok-code", model (S754_zero false) ["max"%string; "high"%string]);
                     (lit "big-pickle", model (S754_zero false) ["low"%string; "high"%string])])].

Definition read_file (b : list N) : option ApiResponse := match b with [1%N] => Some a_file | _ => None end.

Definition read_again (b : list N) : option ApiResponse := match b with [1%N] => Some another_order | _ => None end.

Definition listing : list ModelInfo := bare ∘ lit <$> ["big-pickle"; "claude-sonnet-4"; "grok-code"]%string.

(** Nobody has a key: the free tier. *)
Definition free (models : list ModelInfo) : result (list ModelInfo) str :=
  provider_models (Credential := str) (λ k, k) (λ _, []) (Some (parse_catalogue a_file)) OpencodeZen true None None (λ _, Ok (Ok models)).

End Samples.

Import Samples.

Lemma keys_distinct_sample : keys_distinct a_file.
Proof. apply (bool_decide_unpack _). vm_compute. exact I. Qed.

Lemma entries_sample : entries a_file ≡ₚ entries another_order.
Proof.
  change (entries another_order) with (drop 3 (entries a_file) ++ reverse (take 3 (entries a_file))).
  rewrite reverse_Permutation, Permutation_app_comm. by rewrite take_drop.
Qed.

Lemma parse_deterministic_witness :
  parse_catalogue a_file = parse_catalogue another_order
  ∧ (info_id <$> list_models (Some (parse_catalogue a_file)) OpencodeZen)
    = lit <$> ["big-pickle"; "claude-sonnet-4"; "grok-code"]%string.
Proof. split; [apply parse_deterministic; [apply keys_distinct_sample|apply entries_sample]|vm_compute; reflexivity]. Defined.

Lemma restart_restores_witness :
  let w := load_from_disk read_file 5 {| memory := no_catalogue; fetched_unix_ms := 0; cache := Some ([1%N], 0%Z) |} in
  let left_ := foldl (cache_op read_file) w [RefreshedIfStale 6 None true; Refreshed 7 (Some [2%N]) true; Refreshed 8 (Some [1%N]) true] in
  memory (load_from_disk read_again 9 {| memory := no_catalogue; fetched_unix_ms := 0; cache := cache left_ |}) = memory left_
  ∧ cache left_ = Some ([1%N], 8%Z).
Proof.
  split; [|reflexivity]. apply (restart_restores read_file read_again).
  - intros b. destruct b as [|[|[]] []]; try exact I. split; [apply keys_distinct_sample|apply entries_sample].
  - exists [1%N], 0%Z, a_file. split; [reflexivity|]. split; reflexivity.
  - repeat constructor.
Defined.

Lemma picker_lists_witness :
  ∃ l, free listing = Ok l ∧ info_id <$> l = lit <$> ["grok-code"; "big-pickle"]%string
    ∧ ∀ m, m ∈ l ↔ offered (Credential := str) (Some (parse_catalogue a_file)) OpencodeZen None None listing m.
Proof.
  destruct (picker_lists (Credential := str) (λ k, k) (λ _, []) (Some (parse_catalogue a_file)) OpencodeZen None None
              (λ _, Ok (Ok listing)) (lit "public") listing eq_refl eq_refl) as (l & Hl & Hm & _).
  exists l. split; [exact Hl|]. split; [|exact Hm]. vm_compute in Hl. injection Hl as <-. reflexivity.
Defined.

Definition mixed : list ModelInfo := bare ∘ lit <$> ["claude-sonnet-4"; "big-pickle"]%string.

Lemma default_keeps_prompts_witness :
  default_model_for (Some (parse_catalogue a_file)) OpencodeZen (Some (free mixed)) = Some (lit "big-pickle")
  ∧ ((∃ cred models, (λ _ : str, Ok (E := str) (Ok (E := ProviderError) mixed)) cred = Ok (Ok models)
       ∧ ∀ m, offered (Credential := str) (Some (parse_catalogue a_file)) OpencodeZen None None models m → collects_prompts (info_id m) = true)
     ∨ (∃ cred e ids, (λ _ : str, Ok (E := str) (Ok (E := ProviderError) mixed)) cred = Ok (Err e) ∧ None = Some ids ∧ head ids = Some (lit "big-pickle"))
     ∨ Forall (λ m, collects_prompts (info_id m) = true) (list_models (Some (parse_catalogue a_file)) OpencodeZen)).
Proof.
  split; [vm_compute; reflexivity|].
  apply (default_keeps_prompts (Credential := str) (λ k, k) (λ _, []) (Some (parse_catalogue a_file)) OpencodeZen None None
           (λ _, Ok (Ok mixed)) (lit "big-pickle") true); vm_compute; reflexivity.
Defined.

Lemma union_canonical_witness :
  let l := map_to_list (caps_by_id (parse_catalogue a_file)) in
  provider_reasoning_union OpencodeZen (Some l) = provider_reasoning_union OpencodeZen (Some (reverse l))
  ∧ efforts (provider_reasoning_union OpencodeZen (Some l)) = lit <$> ["low"; "high"; "max"]%string.
Proof.
  assert (efforts (provider_reasoning_union OpencodeZen (Some (map_to_list (caps_by_id (parse_catalogue a_file)))))
          = lit <$> ["low"; "high"; "max"]%string) as E by (vm_compute; reflexivity).
  split; [|exact E].
  apply (union_canonical OpencodeZen (lit "opencode") _ _ eq_refl (symmetry (reverse_Permutation _))).
  rewrite E. repeat constructor.
Defined.

(** Where the only free models collect prompts, a fresh free-tier chat starts on one. *)
Lemma free_tier_collects :
  default_model_for (Some (parse_catalogue a_file)) OpencodeZen (Some (free (bare ∘ lit <$> ["claude-sonnet-4"; "big-pickle"]%string)))
  = Some (lit "big-pickle")
  ∧ collects_prompts (lit "big-pickle") = true ∧ collects_prompts (lit "claude-sonnet-4") = false.
Proof. vm_compute. split_and!; reflexivity. Qed.

(** Names of efforts the list does not know come in the order the map is walked. *)
Lemma unknown_efforts_unstable :
  let caps := λ e, {| cap_reasoning := true; cap_tool_call := true; cap_temperature := true; cap_vision := false;
                      interleaved_field := None; cap_wire := OpenAiChat;
                      reasoning_options := Some {| efforts := [lit e]; toggle := false; budget := None |} |} in
  let a := (lit "zai", lit "m", caps "ultra"%string) in
  let b := (lit "zai", lit "n", caps "deep"%string) in
  efforts (provider_reasoning_union Zai (Some [a; b])) = lit <$> ["ultra"; "deep"]%string
  ∧ efforts (provider_reasoning_union Zai (Some [b; a])) = lit <$> ["deep"; "ultra"]%string.
Proof. split; reflexivity. Qed.
