(* ===== verification/OpenAiCompat.v ===== *)
(** * The OpenAI-compatible provider (agent/src/provider/openai_compat.rs)

    The request body with its gates, the assembly of streamed tool calls
    ([ToolCallAccum]), the loop over the stream and the list of models.

    serde_json's reading of an event is an argument ([from_str]).  The [started] set and
    the map of entries stay apart, as in the code; [tracked] joins them for the
    proofs, so that the events of different calls are independent ([keyed_entry]). *)

From S2P Require Import Prelude Json Transcript Classify Session Providers Completion.

(** ** Messages *)

Definition role_str (r : MessageRole) : str :=
  match r with
  | System => lit "system"
  | User => lit "user"
  | Assistant => lit "assistant"
  | Tool => lit "tool"
  end.

Definition call_to_oa (tc : ToolCall) : Json :=
  obj [("id"%string, String_ (tc_id tc)); ("type"%string, String_ (lit "function"));
       ("function"%string, obj [("name"%string, String_ (tc_name tc)); ("arguments"%string, String_ (arguments tc))])].

Definition text_part (s : str) : Json :=
  obj [("type"%string, String_ (lit "text")); ("text"%string, String_ s)].

Definition image_part (img : ImageAttachment) : Json :=
  obj [("type"%string, String_ (lit "image_url"));
       ("image_url"%string, obj [("url"%string, String_ (data_uri img))])].

(** The [content] of a message, when it has one. *)
Definition oa_content (m : ChatMessage) (supports_vision : bool) : option Json :=
  let user_with_images := bool_decide (role m = User) && negb (bool_decide (images m = [])) in
  if user_with_images && supports_vision then
    Some (Array ((if bool_decide (content m = []) then [] else [text_part (content m)]) ++ (image_part <$> images m)))
  else if user_with_images then Some (String_ (dropped_images_note (content m) (length (images m))))
  else if bool_decide (content m = []) then None
  else Some (String_ (content m)).

Definition message_to_oa (m : ChatMessage) (interleaved : option str) (supports_vision : bool) : Json :=
  let o := set_key "role" (String_ (role_str (role m))) (Object []) in
  let o := set_some "content" (oa_content m supports_vision) o in
  let o := set_some "name" (String_ <$> msg_name m) o in
  let o := set_some "tool_call_id" (String_ <$> tool_call_id m) o in
  let o := set_when (negb (bool_decide (tool_calls m = []))) "tool_calls" (Array (call_to_oa <$> tool_calls m)) o in
  if bool_decide (role m = Assistant) then
    match interleaved, o with
    | Some field, Object e => Object (map_insert field (String_ (default [] (reasoning_content m))) e)
    | _, _ => o
    end
  else o.

(** ** The request *)

Record OpenAICompatibleProvider : Set := { kind : ProviderKind; oa_session : option str }.

Definition tool_to_oa (t : ToolSchema) : Json :=
  obj [("type"%string, String_ (lit "function"));
       ("function"%string, obj [("name"%string, String_ (schema_name t));
                                ("description"%string, String_ (description t));
                                ("parameters"%string, parameters t)])].

Definition interleaved_of (caps : option ModelCapabilities) : option str := c ← caps; interleaved_field c.

(** The body before the operator's overrides. *)
Definition default_body (p : OpenAICompatibleProvider) (caps : option ModelCapabilities)
    (req : CompletionRequest) : Json :=
  let supports_vision := allowed cap_vision caps in
  let body := obj [("model"%string, String_ (model req));
                   ("messages"%string, Array ((λ m, message_to_oa m (interleaved_of caps) supports_vision) <$> messages req));
                   ("stream"%string, Bool true)] in
  let body := if allowed cap_temperature caps
              then set_some "temperature" (Json.Number <$> temperature req) body else body in
  let body := set_some "max_tokens" (nat_json <$> max_tokens req) body in
  let body := set_when (allowed cap_tool_call caps && negb (bool_decide (tools req = [])))
                "tools" (Array (tool_to_oa <$> tools req)) body in
  if bool_decide (kind p = OpenRouter) then
    set_some "prompt_cache_key" (String_ <$> oa_session p)
      (set_key "usage" (obj [("include"%string, Bool true)]) body)
  else body.

Definition request_body (p : OpenAICompatibleProvider) (caps : option ModelCapabilities)
    (req : CompletionRequest) : Json :=
  let body := default_body p caps req in
  let body := match provider_options req with Some opts => merge_top_level body opts | None => body end in
  if allowed cap_reasoning caps then body
  else remove_key "thinking" (remove_key "reasoning" (remove_key "reasoning_effort" body)).

(** ** The stream *)

Record OaFunctionDelta : Set := { d_name : option str; d_arguments : option str }.

Record OaToolCallDelta : Set := { index : option N; d_id : option str; function : option OaFunctionDelta }.

Record OaDelta : Set := {
  d_content : option str; d_tool_calls : option (list OaToolCallDelta);
  d_reasoning_content : option str; reasoning_details : option str;
}.

Record OaStreamChoice : Set := { delta : OaDelta; oa_finish_reason : option str }.

Record OaStreamEvent : Set := {
  choices : list OaStreamChoice; oa_usage : option TokenUsage; oa_error : option Json;
}.

(** *** ToolCallAccum *)

Record AccumEntry : Set := { e_id : str; e_name : str; e_arguments : str }.

Definition no_entry : AccumEntry := {| e_id := []; e_name := []; e_arguments := [] |}.

Record ToolCallAccum : Set := { by_index : gmap N AccumEntry; started : gset N }.

Definition nonempty (s : str) : bool := negb (bool_decide (s = [])).

(** The value of a field that is set once: the first text that is not empty. *)
Definition set_once (old : str) (new : option str) : str :=
  match new with Some s => if nonempty s && negb (nonempty old) then s else old | None => old end.

(** What [apply] does to an entry, given whether its call has been started. *)
Definition apply_entry (e : AccumEntry) (st : bool) (d : OaToolCallDelta) :
    AccumEntry * bool * list CompletionEvent :=
  let e := {| e_id := set_once (e_id e) (d_id d); e_name := e_name e; e_arguments := e_arguments e |} in
  match function d with
  | None => (e, st, [])
  | Some func =>
      let e := {| e_id := e_id e; e_name := set_once (e_name e) (d_name func); e_arguments := e_arguments e |} in
      let start := negb st && nonempty (e_id e) && nonempty (e_name e) in
      let st := st || start in
      let out := if start then [ToolCallStart (e_id e) (e_name e)] else [] in
      match d_arguments func with
      | Some args =>
          if nonempty args then
            ({| e_id := e_id e; e_name := e_name e; e_arguments := e_arguments e ++ args |}, st,
             out ++ if st then [ToolCallArgsDelta (e_id e) args] else [])
          else (e, st, out)
      | None => (e, st, out)
      end
  end.

Definition index_of (d : OaToolCallDelta) : N := default 0%N (index d).

Definition apply (a : ToolCallAccum) (d : OaToolCallDelta) : ToolCallAccum * list CompletionEvent :=
  let idx := index_of d in
  let '(e, st, out) := apply_entry (default no_entry (by_index a !! idx)) (bool_decide (idx ∈ started a)) d in
  ({| by_index := <[idx := e]> (by_index a); started := if st then {[idx]} ∪ started a else started a |}, out).

(** The call of an entry, when it is one. *)
Definition call_of (e : AccumEntry) : option ToolCall :=
  if nonempty (e_id e) && nonempty (e_name e)
  then Some {| tc_id := e_id e; tc_name := e_name e; arguments := e_arguments e; thought_signature := None |}
  else None.

Definition end_of (st : gset N) (p : N * AccumEntry) : option CompletionEvent :=
  if bool_decide (p.1 ∈ st) then ToolCallEnd <$> (tc_id <$> call_of p.2) else None.

Definition finish (a : ToolCallAccum) : list ToolCall * list CompletionEvent :=
  (omap (λ p, call_of p.2) (in_order (by_index a)), omap (end_of (started a)) (in_order (by_index a))).

(** *** The loop *)

Record Reading : Set := {
  accum : ToolCallAccum; r_finish : FinishReason; r_usage : option TokenUsage; reasoning_buf : str;
}.

Definition start_reading : Reading :=
  {| accum := {| by_index := ∅; started := ∅ |}; r_finish := Stop; r_usage := None; reasoning_buf := [] |}.

Definition finish_of (fr : str) : FinishReason :=
  if decide (fr = lit "stop") then Stop
  else if decide (fr = lit "tool_calls") then ToolCalls
  else if decide (fr = lit "length") then Length
  else if decide (fr = lit "content_filter") then ContentFilter
  else Other.

Definition apply_all (a : ToolCallAccum) (ds : list OaToolCallDelta) : ToolCallAccum * list CompletionEvent :=
  foldl (λ s d, let '(a, out) := apply s.1 d in (a, s.2 ++ out)) (a, []) ds.

Definition token (text : option str) : list CompletionEvent :=
  match text with Some s => if nonempty s then [TokenDelta s] else [] | None => [] end.

Definition on_choice (s : Reading * list CompletionEvent) (c : OaStreamChoice) : Reading * list CompletionEvent :=
  let '(r, out) := s in
  let out := out ++ token (d_content (delta c)) in
  let buf := reasoning_buf r ++ default [] (d_reasoning_content (delta c)) ++ default [] (reasoning_details (delta c)) in
  let '(a, evs) := apply_all (accum r) (default [] (d_tool_calls (delta c))) in
  ({| accum := a; r_finish := match oa_finish_reason c with Some fr => finish_of fr | None => r_finish r end;
      r_usage := r_usage r; reasoning_buf := buf |}, out ++ evs).

Definition set_usage (u : option TokenUsage) (r : Reading) : Reading :=
  match u with
  | Some u => {| accum := accum r; r_finish := r_finish r; r_usage := Some u; reasoning_buf := reasoning_buf r |}
  | None => r
  end.

Definition str_field (k : string) (v : Json) : str := default [] (v ← get k v; as_str v).

Section Stream.
Context (from_str : str → option OaStreamEvent) (interleaved : option str).

Definition completed (s : Reading * list CompletionEvent) : Streamed :=
  let '(r, out) := s in
  let '(calls, ends) := finish (accum r) in
  {| events := out ++ ends;
     outcome := Ok {| finish_reason := r_finish r; final_calls := calls; usage := r_usage r;
                      final_reasoning := match interleaved with
                                         | Some _ => Some (reasoning_buf r)
                                         | None => if nonempty (reasoning_buf r) then Some (reasoning_buf r) else None
                                         end;
                      final_thinking := [] |} |}.

Fixpoint read_from (s : Reading * list CompletionEvent) (cs : list (result str ProviderError)) : Streamed :=
  match cs with
  | [] => completed s
  | Err e :: _ => {| events := s.2; outcome := Err e |}
  | Ok data :: cs =>
      if decide (trim data = lit "[DONE]") then completed s
      else match from_str data with
           | None => read_from s cs
           | Some ev =>
               match oa_error ev with
               | Some err => {| events := s.2; outcome := Err (failure data (str_field "code" err) (str_field "message" err)) |}
               | None =>
                   let '(r, out) := foldl on_choice s (choices ev) in
                   read_from (set_usage (oa_usage ev) r, out) cs
               end
           end
  end.

Definition read_stream : list (result str ProviderError) → Streamed := read_from (start_reading, []).
End Stream.

Definition stream_completion (from_str : str → option OaStreamEvent) (eventsource : Eventsource)
    (post : Json → result Response str) (p : OpenAICompatibleProvider) (caps : option ModelCapabilities)
    (req : CompletionRequest) : Streamed :=
  exchange eventsource (post (request_body p caps req)) (read_stream from_str (interleaved_of caps)).

(** ** Models *)

Definition fetch_live_models (decode : str → result (list ModelInfo) str) (resp : result Response str) :
    result (list ModelInfo) ProviderError :=
  match resp with
  | Err e => Err (transport e)
  | Ok r =>
      if is_success r
      then match decode (body_text r) with Ok l => Ok l | Err e => Err (Decode e) end
      else Err (from_http_status (status r) (body_text r))
  end.

Definition list_models (endpoint : ModelsEndpoint) (live : result (list ModelInfo) ProviderError)
    (cat static_models : list ModelInfo) : result (list ModelInfo) ProviderError :=
  match endpoint with
  | OpenAiCompatible =>
      match live with
      | Ok ((_ :: _) as list) => Ok list
      | _ =>
          if bool_decide (cat = []) then
            match live with
            | Ok list => Ok list
            | Err e => if bool_decide (static_models = []) then Err e else Ok static_models
            end
          else Ok cat
      end
  | _ => if bool_decide (cat = []) then Ok static_models else Ok cat
  end.

(** ** What a stream says *)

(** The events the loop acts on, and the error that ends it. *)
Fixpoint consumed (from_str : str → option OaStreamEvent) (cs : list (result str ProviderError)) :
    list OaStreamEvent * option ProviderError :=
  match cs with
  | [] => ([], None)
  | Err e :: _ => ([], Some e)
  | Ok data :: cs =>
      if decide (trim data = lit "[DONE]") then ([], None)
      else match from_str data with
           | None => consumed from_str cs
           | Some ev =>
               match oa_error ev with
               | Some err => ([], Some (failure data (str_field "code" err) (str_field "message" err)))
               | None => let '(evs, e) := consumed from_str cs in (ev :: evs, e)
               end
           end
  end.

Definition all_choices (evs : list OaStreamEvent) : list OaStreamChoice := evs ≫= choices.

Definition all_deltas (cs : list OaStreamChoice) : list OaToolCallDelta :=
  cs ≫= λ c, default [] (d_tool_calls (delta c)).

(** The first text that is not empty. *)
Definition some_text (x : option str) : option str := s ← x; if nonempty s then Some s else None.

Definition first_of (l : list (option str)) : str := default [] (head (omap some_text l)).

Definition all_of (l : list (option str)) : str := concat (default [] <$> l).

Definition name_of (d : OaToolCallDelta) : option str := f ← function d; d_name f.

Definition arguments_of (d : OaToolCallDelta) : option str := f ← function d; d_arguments f.

Definition assembled (ds : list OaToolCallDelta) : AccumEntry :=
  {| e_id := first_of (d_id <$> ds);
     e_name := first_of (name_of <$> ds);
     e_arguments := all_of (arguments_of <$> ds) |}.

(** The calls of the deltas: for each index, the first id, the first name and all the
    arguments. *)
Definition calls_of (ds : list OaToolCallDelta) : list ToolCall :=
  omap (λ i, call_of (assembled (of_index index_of i ds))) (indices index_of ds).

Definition reasoning_of (interleaved : option str) (buf : str) : option str :=
  match interleaved with
  | Some _ => Some buf
  | None => if nonempty buf then Some buf else None
  end.

Definition reference (interleaved : option str) (evs : list OaStreamEvent) : CompletionFinal :=
  let cs := all_choices evs in
  {| finish_reason := default Stop (finish_of <$> last (omap oa_finish_reason cs));
     final_calls := calls_of (all_deltas cs);
     usage := last (omap oa_usage evs);
     final_reasoning := reasoning_of interleaved
       (concat ((λ c, default [] (d_reasoning_content (delta c)) ++ default [] (reasoning_details (delta c))) <$> cs));
     final_thinking := [] |}.

(** ** One call *)

Definition upd (o : option (AccumEntry * bool)) (d : OaToolCallDelta) :
    option (AccumEntry * bool) * list CompletionEvent :=
  let '(e, st, out) := apply_entry (default no_entry (fst <$> o)) (default false (snd <$> o)) d in (Some (e, st), out).

Definition no_calls : ToolCallAccum := {| by_index := ∅; started := ∅ |}.

Record tracked (a : ToolCallAccum) (s : gmap N (AccumEntry * bool)) : Prop := {
  tracked_entry : ∀ i, s !! i = (λ e, (e, bool_decide (i ∈ started a))) <$> by_index a !! i;
  tracked_started : ∀ i, i ∈ started a → is_Some (by_index a !! i);
}.

Lemma nonempty_false (s : str) : nonempty s = false ↔ s = [].
Proof. unfold nonempty. rewrite negb_false_iff. apply bool_decide_eq_true. Qed.

Lemma nonempty_true (s : str) : nonempty s = true ↔ s ≠ [].
Proof. unfold nonempty. rewrite negb_true_iff. apply bool_decide_eq_false. Qed.

Lemma apply_entry_started (e : AccumEntry) (st : bool) (d : OaToolCallDelta) :
  st = true → (apply_entry e st d).1.2 = true.
Proof. intros ->. unfold apply_entry. by repeat (case_match; simplify_eq/=). Qed.

Lemma apply_tracked (a : ToolCallAccum) s out d :
  tracked a s →
  tracked (apply a d).1 (keyed index_of upd (s, out) d).1
  ∧ (keyed index_of upd (s, out) d).2 = out ++ (apply a d).2.
Proof.
  intros [He Hs]. unfold keyed, apply, upd. simpl. rewrite He. set (i := index_of d).
  assert (default false (snd <$> ((λ e, (e, bool_decide (i ∈ started a))) <$> by_index a !! i))
          = bool_decide (i ∈ started a)) as ->.
  { destruct (by_index a !! i) eqn:E; [done|]. simpl. symmetry. apply bool_decide_eq_false. intros Hi%Hs.
    rewrite E in Hi. by destruct Hi. }
  assert (default no_entry (fst <$> ((λ e, (e, bool_decide (i ∈ started a))) <$> by_index a !! i))
          = default no_entry (by_index a !! i)) as -> by (by destruct (by_index a !! i)).
  pose proof (apply_entry_started (default no_entry (by_index a !! i)) (bool_decide (i ∈ started a)) d) as Hst.
  destruct (apply_entry _ _ d) as [[e st] evs]. simpl in *. split; [|done].
  assert (bool_decide (i ∈ (if st then {[i]} ∪ started a else started a)) = st) as Hi.
  { destruct st; [apply bool_decide_eq_true; set_solver|]. destruct (decide (i ∈ started a)) as [Hi|Hi].
    - by rewrite bool_decide_eq_true_2 in Hst by done; discriminate Hst.
    - by apply bool_decide_eq_false. }
  split; simpl; intros j; destruct (decide (i = j)) as [<-|Hne].
  - rewrite lookup_partial_alter_eq, lookup_insert_eq. simpl. by rewrite Hi.
  - rewrite lookup_partial_alter_ne, lookup_insert_ne, He by done. destruct (by_index a !! j); [|done]. simpl.
    do 2 f_equal. apply bool_decide_ext. destruct st; set_solver.
  - rewrite lookup_insert_eq. intros _. by eexists.
  - rewrite lookup_insert_ne by done. intros Hj. apply Hs. destruct st; set_solver.
Qed.

Definition per_index (ds : list OaToolCallDelta) : gmap N (AccumEntry * bool) * list CompletionEvent :=
  foldl (keyed index_of upd) (∅, []) ds.

Lemma apply_all_snoc a ds d :
  apply_all a (ds ++ [d]) = let '(b, out) := apply (apply_all a ds).1 d in (b, (apply_all a ds).2 ++ out).
Proof. unfold apply_all. by rewrite foldl_snoc. Qed.

Lemma apply_all_tracked (ds : list OaToolCallDelta) :
  tracked (apply_all no_calls ds).1 (per_index ds).1 ∧ (per_index ds).2 = (apply_all no_calls ds).2.
Proof.
  induction ds as [|d ds [IH IHout]] using rev_ind; [split; [split; simpl; intros i; [done|set_solver]|done]|].
  rewrite apply_all_snoc. unfold per_index. rewrite foldl_snoc. fold (per_index ds).
  destruct (per_index ds) as [s out]. destruct (apply_tracked _ s out d IH) as [Ht Ho].
  destruct (apply (apply_all no_calls ds).1 d) as [b evs]. simpl in *. split; [done|]. by rewrite Ho, IHout.
Qed.

Definition alone_entry (ds : list OaToolCallDelta) : option (AccumEntry * bool) * list CompletionEvent :=
  foldl (alone upd) (None, []) ds.

Lemma all_of_snoc (l : list (option str)) x : all_of (l ++ [x]) = all_of l ++ default [] x.
Proof. unfold all_of. rewrite fmap_app, concat_app. simpl. by rewrite (right_id_L [] (++)). Qed.

Lemma first_of_snoc (l : list (option str)) x : first_of (l ++ [x]) = set_once (first_of l) x.
Proof.
  unfold first_of, set_once. rewrite omap_app. simpl.
  assert (∀ y, y ∈ omap some_text l → nonempty y = true) as Hne.
  { intros y (o & _ & Ho)%list_elem_of_omap. destruct o as [s|]; [|done]. simpl in Ho.
    destruct (nonempty s) eqn:E; by simplify_eq. }
  revert Hne. generalize (omap some_text l). intros [|y ys] Hne; simpl.
  - destruct x as [s|]; [|done]. simpl. by destruct (nonempty s).
  - rewrite (Hne y) by left. destruct x as [s|]; [|done]. simpl. by rewrite andb_false_r.
Qed.

Lemma apply_entry_fields (ds : list OaToolCallDelta) st d :
  (apply_entry (assembled ds) st d).1.1 = assembled (ds ++ [d]).
Proof.
  unfold assembled. rewrite !fmap_app. simpl. rewrite !first_of_snoc, all_of_snoc. unfold apply_entry, name_of, arguments_of.
  destruct d as [i id [[name args]|]]; simpl; [|by rewrite (right_id_L [] (++))].
  destruct args as [args|]; simpl; [|by rewrite (right_id_L [] (++))].
  destruct (nonempty args) eqn:E; simpl; [done|]. apply nonempty_false in E as ->. by rewrite (right_id_L [] (++)).
Qed.

Lemma alone_fields (ds : list OaToolCallDelta) :
  ds ≠ [] → ∃ st, (alone_entry ds).1 = Some (assembled ds, st).
Proof.
  induction ds as [|d ds IH] using rev_ind; [done|]. intros _. unfold alone_entry. rewrite foldl_snoc.
  fold (alone_entry ds). unfold alone, upd.
  assert (default no_entry (fst <$> (alone_entry ds).1) = assembled ds) as ->.
  { destruct ds as [|d' ds]; [done|]. by destruct IH as [st ->]. }
  pose proof (apply_entry_fields ds (default false (snd <$> (alone_entry ds).1)) d) as E.
  destruct (apply_entry _ _ d) as [[e st] out]. simpl in *. subst e. by exists st.
Qed.

(** The entry of an index. *)
Lemma by_index_assembled (ds : list OaToolCallDelta) i :
  by_index (apply_all no_calls ds).1 !! i
  = if decide (i ∈ indices index_of ds) then Some (assembled (of_index index_of i ds)) else None.
Proof.
  destruct (apply_all_tracked ds) as [[He _] _]. specialize (He i). unfold per_index in He.
  rewrite keyed_entry in He. fold (alone_entry (of_index index_of i ds)) in He.
  destruct (decide (i ∈ indices index_of ds)) as [Hi|Hi]; rewrite indices_elem in Hi.
  - destruct (alone_fields _ Hi) as [st E]. rewrite E in He. destruct (by_index _ !! i); by simplify_eq/=.
  - apply dec_stable in Hi. rewrite Hi in He. simpl in He. by destruct (by_index _ !! i).
Qed.

Lemma in_order_assembled (ds : list OaToolCallDelta) :
  in_order (by_index (apply_all no_calls ds).1)
  = (λ i, (i, assembled (of_index index_of i ds))) <$> indices index_of ds.
Proof. apply in_order_map; [apply indices_sorted|apply by_index_assembled]. Qed.

Lemma finish_calls (ds : list OaToolCallDelta) : (finish (apply_all no_calls ds).1).1 = calls_of ds.
Proof. unfold finish, calls_of. simpl. rewrite in_order_assembled. by rewrite omap_fmap. Qed.

(** ** The loop *)

Definition on_event (s : Reading * list CompletionEvent) (ev : OaStreamEvent) : Reading * list CompletionEvent :=
  let '(r, out) := foldl on_choice s (choices ev) in (set_usage (oa_usage ev) r, out).

Lemma read_from_consumed from_str interleaved s cs :
  read_from from_str interleaved s cs
  = let '(evs, e) := consumed from_str cs in
    let s' := foldl on_event s evs in
    match e with Some e => {| events := s'.2; outcome := Err e |} | None => completed interleaved s' end.
Proof.
  revert s. induction cs as [|[data|e] cs IH]; intros s; simpl; [done| |done].
  case_decide; [done|]. destruct (from_str data) as [ev|]; [|apply IH]. destruct (oa_error ev); [done|].
  destruct (foldl on_choice s (choices ev)) as [r out] eqn:Ef. rewrite IH.
  destruct (consumed from_str cs) as [evs e]. simpl.
  assert (on_event s ev = (set_usage (oa_usage ev) r, out)) as -> by (unfold on_event; by rewrite Ef). done.
Qed.

Definition ends_with_buf (cs : list OaStreamChoice) : str :=
  concat ((λ c, default [] (d_reasoning_content (delta c)) ++ default [] (reasoning_details (delta c))) <$> cs).

(** What the events leave behind. *)
Record has_read (evs : list OaStreamEvent) (cs : list OaStreamChoice) (s : Reading * list CompletionEvent) : Prop := {
  read_accum : accum s.1 = (apply_all no_calls (all_deltas cs)).1;
  read_finish : r_finish s.1 = default Stop (finish_of <$> last (omap oa_finish_reason cs));
  read_usage : r_usage s.1 = last (omap oa_usage evs);
  read_buf : reasoning_buf s.1 = ends_with_buf cs;
  read_calls : ∀ i, filter (about i) s.2 = filter (about i) (apply_all no_calls (all_deltas cs)).2;
  read_text : text_of s.2 = all_of (d_content ∘ delta <$> cs);
}.

Lemma apply_all_app a ds es :
  apply_all a (ds ++ es)
  = ((apply_all (apply_all a ds).1 es).1, (apply_all a ds).2 ++ (apply_all (apply_all a ds).1 es).2).
Proof.
  induction es as [|e es IH] using rev_ind.
  - rewrite (right_id_L [] (++)). simpl. rewrite (right_id_L [] (++)). by destruct (apply_all a ds).
  - rewrite (assoc_L (++)), !apply_all_snoc, IH. simpl.
    destruct (apply _ e) as [b out]. simpl. by rewrite (assoc_L (++)).
Qed.

(** A call's events are about it, and hold no text. *)
Lemma apply_entry_about e st d v : v ∈ (apply_entry e st d).2 → about (e_id (apply_entry e st d).1.1) v.
Proof.
  unfold apply_entry. destruct (function d) as [[name [args|]]|]; simpl; [| |by intros ?%not_elem_of_nil].
  - destruct (nonempty args); simpl; repeat case_match; set_solver.
  - repeat case_match; set_solver.
Qed.

Lemma apply_no_text a d : text_of (apply a d).2 = [].
Proof.
  unfold apply. destruct (apply_entry _ _ d) as [[e st] out] eqn:E. simpl.
  assert (∀ v, v ∈ out → about (e_id e) v) as H.
  { intros v Hv. epose proof (apply_entry_about _ _ d v) as Ha. rewrite E in Ha. by apply Ha. }
  clear E. induction out as [|v out IH]; [done|]. assert (about (e_id e) v) as Hv by (apply H; left).
  destruct v; try done; apply IH; intros w Hw; apply H; by right.
Qed.

Lemma apply_all_no_text a ds : text_of (apply_all a ds).2 = [].
Proof.
  induction ds as [|d ds IH] using rev_ind; [done|]. rewrite apply_all_snoc.
  pose proof (apply_no_text (apply_all a ds).1 d) as H. destruct (apply _ d) as [b out]. simpl in *.
  by rewrite text_of_app, IH.
Qed.

Lemma token_about i t : filter (about i) (token t) = [].
Proof. destruct t as [s|]; [|done]. simpl. by destruct (nonempty s). Qed.

Lemma token_text t : text_of (token t) = default [] t.
Proof.
  destruct t as [s|]; [|done]. simpl. destruct (nonempty s) eqn:E; [by apply (right_id_L [] (++))|].
  by apply nonempty_false in E as ->.
Qed.

Lemma on_choice_read evs cs s c : has_read evs cs s → has_read evs (cs ++ [c]) (on_choice s c).
Proof.
  destruct s as [r out]. intros [Ha Hf Hu Hb Hc Ht]. simpl in *. unfold on_choice. rewrite Ha.
  assert (all_deltas (cs ++ [c]) = all_deltas cs ++ default [] (d_tool_calls (delta c))) as Ed.
  { unfold all_deltas. rewrite bind_app. simpl. by rewrite (right_id_L [] (++)). }
  pose proof (apply_all_app no_calls (all_deltas cs) (default [] (d_tool_calls (delta c)))) as Eapp.
  rewrite <- Ed in Eapp.
  pose proof (apply_all_no_text (apply_all no_calls (all_deltas cs)).1 (default [] (d_tool_calls (delta c)))) as Etext.
  destruct (apply_all (apply_all no_calls (all_deltas cs)).1 _) as [a' evs'] eqn:Ea. simpl in *.
  split; simpl; [by rewrite Eapp| |done| | |].
  - rewrite last_omap_snoc. by destruct (oa_finish_reason c).
  - unfold ends_with_buf. rewrite fmap_app, concat_app. simpl. rewrite (right_id_L [] (++)). by rewrite Hb.
  - intros i. rewrite !filter_app, token_about, Hc, Eapp. simpl. rewrite filter_app. by rewrite (right_id_L [] (++)).
  - rewrite !text_of_app, token_text, Etext, Ht, fmap_app. simpl. rewrite all_of_snoc. by rewrite (right_id_L [] (++)).
Qed.

Lemma on_choices_read evs cs l s : has_read evs cs s → has_read evs (cs ++ l) (foldl on_choice s l).
Proof.
  revert cs s. induction l as [|c l IH]; intros cs s H; simpl; [by rewrite (right_id_L [] (++))|].
  rewrite cons_middle, (assoc_L (++)). apply IH. by apply on_choice_read.
Qed.

Lemma on_event_read evs s ev :
  has_read evs (all_choices evs) s → has_read (evs ++ [ev]) (all_choices (evs ++ [ev])) (on_event s ev).
Proof.
  intros H. apply (on_choices_read _ _ (choices ev)) in H. unfold on_event.
  assert (all_choices (evs ++ [ev]) = all_choices evs ++ choices ev) as ->.
  { unfold all_choices. rewrite bind_app. simpl. by rewrite (right_id_L [] (++)). }
  destruct (foldl on_choice s (choices ev)) as [r out]. destruct H as [Ha Hf Hu Hb Hc Ht]. simpl in *.
  split; simpl; try done; [| |rewrite last_omap_snoc|]; by destruct (oa_usage ev).
Qed.

Lemma on_events_read (evs : list OaStreamEvent) :
  has_read evs (all_choices evs) (foldl on_event (start_reading, []) evs).
Proof.
  induction evs as [|ev evs IH] using rev_ind; [by split|]. rewrite foldl_snoc. by apply on_event_read.
Qed.

Lemma finish_no_text a : text_of (finish a).2 = [].
Proof.
  unfold finish. simpl. induction (in_order (by_index a)) as [|p l IH]; simpl; [done|].
  unfold end_of at 1. case_bool_decide; [|done]. by destruct (call_of p.2).
Qed.

(** C22: Streamed tool calls are put together again: whatever the order in which the pieces
    of different calls come, the completion has, for each index, the call with the first
    id, the first name and all the arguments sent under it, next to the last finish
    reason, the last usage and all the reasoning; the text shown is all the content; and
    a stream that fails ends with its failure. *)
Theorem stream_assembled (from_str : str → option OaStreamEvent) (interleaved : option str)
    (cs : list (result str ProviderError)) :
  let '(evs, e) := consumed from_str cs in
  outcome (read_stream from_str interleaved cs)
  = match e with Some e => Err e | None => Ok (reference interleaved evs) end
  ∧ text_of (events (read_stream from_str interleaved cs)) = all_of (d_content ∘ delta <$> all_choices evs).
Proof.
  unfold read_stream. rewrite read_from_consumed. destruct (consumed from_str cs) as [evs e].
  pose proof (on_events_read evs) as H. destruct (foldl on_event _ evs) as [r out].
  destruct H as [Ha Hf Hu Hb Hc Ht]. simpl in *. destruct e as [e|]; [done|]. unfold completed.
  pose proof (finish_calls (all_deltas (all_choices evs))) as Hcalls. rewrite <- Ha in Hcalls.
  pose proof (finish_no_text (accum r)) as Hends. simpl in *.
  split; [|by rewrite text_of_app, Hends, (right_id_L [] (++))].
  rewrite Hcalls, Hf, Hu, Hb. done.
Qed.

(** ** What is announced *)

(** A chunk that opens a call: its id and its name. *)
Definition opens (d : OaToolCallDelta) : Prop :=
  ∃ id f name, d_id d = Some id ∧ id ≠ [] ∧ function d = Some f ∧ d_name f = Some name ∧ name ≠ [].

Definition deltas_of (from_str : str → option OaStreamEvent) (cs : list (result str ProviderError)) :
    list OaToolCallDelta := all_deltas (all_choices (consumed from_str cs).1).

Definition id_at (ds : list OaToolCallDelta) (i : N) : str := e_id (assembled (of_index index_of i ds)).

(** The protocol: the first chunk of a call opens it, and calls have ids of their own. *)
Record conforming (from_str : str → option OaStreamEvent) (cs : list (result str ProviderError)) : Prop := {
  conf_opens : ∀ i d rest, of_index index_of i (deltas_of from_str cs) = d :: rest → opens d;
  conf_ids : NoDup (id_at (deltas_of from_str cs) <$> indices index_of (deltas_of from_str cs));
}.

Lemma first_of_cons (s : str) (l : list (option str)) : s ≠ [] → first_of (Some s :: l) = s.
Proof. intros Hs%nonempty_true. unfold first_of. simpl. by rewrite Hs. Qed.

Lemma opens_fields (d : OaToolCallDelta) (rest : list OaToolCallDelta) :
  opens d →
  e_id (assembled (d :: rest)) = default [] (d_id d)
  ∧ e_name (assembled (d :: rest)) = default [] (name_of d)
  ∧ default [] (d_id d) ≠ [] ∧ default [] (name_of d) ≠ [].
Proof.
  intros (id & f & name & Hid & Hne & Hf & Hname & Hnn). unfold assembled. simpl.
  assert (name_of d = Some name) as -> by (unfold name_of; by rewrite Hf). rewrite Hid. simpl. by rewrite !first_of_cons.
Qed.

Definition args_of (d : OaToolCallDelta) : str := default [] (arguments_of d).

(** Once a call is announced, its chunks announce its arguments. *)
Lemma apply_entry_opened (e : AccumEntry) (d : OaToolCallDelta) :
  e_id e ≠ [] → e_name e ≠ [] →
  (apply_entry e true d).2 = ToolCallArgsDelta (e_id e) <$> (if nonempty (args_of d) then [args_of d] else []).
Proof.
  intros Hid%nonempty_true Hname%nonempty_true. unfold apply_entry, args_of, name_of, arguments_of, set_once.
  destruct d as [i id [[name [args|]]|]]; simpl; [|done..]. destruct (nonempty args); simpl; [|done].
  destruct id; simpl; rewrite ?Hid; simpl; by rewrite ?andb_false_r.
Qed.

Lemma apply_entry_opens (d : OaToolCallDelta) :
  opens d →
  (apply_entry no_entry false d).1.2 = true
  ∧ (apply_entry no_entry false d).2
    = ToolCallStart (default [] (d_id d)) (default [] (name_of d))
        :: (ToolCallArgsDelta (default [] (d_id d)) <$> (if nonempty (args_of d) then [args_of d] else [])).
Proof.
  intros (id & f & name & Hid & Hne%nonempty_true & Hf & Hname & Hnn%nonempty_true).
  unfold apply_entry, args_of, name_of, arguments_of. rewrite Hid, Hf. simpl. rewrite Hname. simpl. rewrite Hne, Hnn. simpl. rewrite Hne, Hnn.
  destruct (d_arguments f) as [args|]; [|done]. simpl. by destruct (nonempty args).
Qed.

Lemma concat_piece (s : str) : concat (if nonempty s then [s] else []) = s.
Proof.
  destruct (nonempty s) eqn:E; simpl; [by rewrite (right_id_L [] (++))|]. by apply nonempty_false in E as ->.
Qed.

Lemma assembled_args (ds : list OaToolCallDelta) d :
  e_arguments (assembled (ds ++ [d])) = e_arguments (assembled ds) ++ args_of d.
Proof. unfold assembled, args_of. simpl. rewrite fmap_app. simpl. by rewrite all_of_snoc. Qed.

Lemma alone_announced (d : OaToolCallDelta) (rest : list OaToolCallDelta) :
  opens d →
  ∃ pieces, alone_entry (d :: rest)
    = (Some (assembled (d :: rest), true),
       ToolCallStart (default [] (d_id d)) (default [] (name_of d))
         :: (ToolCallArgsDelta (default [] (d_id d)) <$> pieces))
    ∧ concat pieces = e_arguments (assembled (d :: rest)).
Proof.
  intros Ho. induction rest as [|d' rest (pieces & E & Hp)] using rev_ind.
  - destruct (apply_entry_opens d Ho) as [Hst Hout]. pose proof (apply_entry_fields [] false d) as Hf.
    unfold alone_entry, alone, upd. simpl. change (assembled []) with no_entry in Hf.
    destruct (apply_entry no_entry false d) as [[e st] out]. simpl in *. subst.
    eexists. split; [done|]. unfold assembled, all_of, args_of. simpl. rewrite (right_id_L [] (++)).
    apply concat_piece.
  - destruct (opens_fields d rest Ho) as (Eid & Ename & Hid & Hname).
    pose proof (apply_entry_fields (d :: rest) true d') as Hf.
    pose proof (apply_entry_opened (assembled (d :: rest)) d') as Hout.
    pose proof (apply_entry_started (assembled (d :: rest)) true d' eq_refl) as Hst.
    rewrite Eid, Ename in Hout. specialize (Hout Hid Hname).
    pose proof (assembled_args (d :: rest) d') as Hargs.
    rewrite app_comm_cons. set (e' := assembled ((d :: rest) ++ [d'])) in *. clearbody e'.
    unfold alone_entry in *. rewrite foldl_snoc, E. unfold alone, upd. simpl.
    destruct (apply_entry (assembled (d :: rest)) true d') as [[e st] out]. simpl in Hf, Hout, Hst. subst.
    eexists (pieces ++ _). split; [by rewrite fmap_app|].
    rewrite Hargs, concat_app, Hp. f_equal. apply concat_piece.
Qed.

(** The chunks of the other calls are not about this one. *)
Lemma others_silent (ds : list OaToolCallDelta) i j pre d post :
  (∀ d rest, of_index index_of j ds = d :: rest → opens d) →
  id_at ds i ≠ id_at ds j → of_index index_of j ds = pre ++ d :: post →
  Forall (λ v, ¬ about (id_at ds i) v) (upd (alone_entry pre).1 d).2.
Proof.
  intros Hopen Hne E. apply Forall_forall. intros v Hv Ha.
  assert (default no_entry (fst <$> (alone_entry pre).1) = assembled pre) as Ef.
  { destruct pre as [|p pre]; [done|]. by destruct (alone_fields (p :: pre)) as [st ->]. }
  assert (about (e_id (assembled (pre ++ [d]))) v) as Hv'.
  { unfold upd in Hv. rewrite Ef in Hv. rewrite <- (apply_entry_fields pre (default false (snd <$> (alone_entry pre).1)) d).
    apply apply_entry_about. by destruct (apply_entry _ _ d) as [[? ?] ?]. }
  apply Hne. unfold id_at in *. rewrite E in *.
  assert (e_id (assembled (pre ++ d :: post)) = e_id (assembled (pre ++ [d]))) as Eid.
  { destruct pre as [|p pre]; cbn [app] in *; pose proof (Hopen _ _ eq_refl) as Ho;
      by rewrite !(λ l, proj1 (opens_fields _ l Ho)). }
  rewrite Eid. by eapply about_inj.
Qed.

Lemma filter_args i (l : list str) : filter (about i) (ToolCallArgsDelta i <$> l) = ToolCallArgsDelta i <$> l.
Proof. induction l as [|s l IH]; [done|]. rewrite fmap_cons, filter_cons_True by done. by rewrite IH. Qed.

Lemma filter_ends (f : N → str) (l : list N) i :
  NoDup (f <$> l) → i ∈ l → filter (about (f i)) ((λ j, ToolCallEnd (f j)) <$> l) = [ToolCallEnd (f i)].
Proof.
  induction l as [|j l IH]; simpl; [by intros _ ?%not_elem_of_nil|]. intros [Hj Hnd]%NoDup_cons [->|Hi]%elem_of_cons.
  - rewrite filter_cons_True by done. f_equal. apply list_filter_none, Forall_forall.
    intros v (k & -> & Hk)%list_elem_of_fmap. simpl. intros E. apply Hj. rewrite <- E. by apply list_elem_of_fmap_2.
  - rewrite filter_cons_False; [by apply IH|]. simpl. intros E. apply Hj. rewrite E. by apply list_elem_of_fmap_2.
Qed.

(** The calls of a stream that keeps the protocol: one for each index. *)
Section Conforming.
Context (from_str : str → option OaStreamEvent) (cs : list (result str ProviderError)).
Context (Hc : conforming from_str cs).

Notation ds := (deltas_of from_str cs).

Lemma opened i : i ∈ indices index_of ds → ∃ d rest, of_index index_of i ds = d :: rest ∧ opens d.
Proof.
  rewrite indices_elem. intros Hi. destruct (of_index index_of i ds) as [|d rest] eqn:E; [done|].
  exists d, rest. split; [done|]. by eapply conf_opens.
Qed.

Lemma opened_call i :
  i ∈ indices index_of ds →
  call_of (assembled (of_index index_of i ds))
  = Some {| tc_id := id_at ds i; tc_name := e_name (assembled (of_index index_of i ds));
            arguments := e_arguments (assembled (of_index index_of i ds)); thought_signature := None |}.
Proof.
  intros (d & rest & E & Ho)%opened. destruct (opens_fields d rest Ho) as (Eid & En & Hi & Hn).
  unfold call_of, id_at. rewrite E. rewrite <- Eid in Hi. rewrite <- En in Hn.
  apply nonempty_true in Hi, Hn. by rewrite Hi, Hn.
Qed.

Lemma opened_started i : i ∈ indices index_of ds → i ∈ started (apply_all no_calls ds).1.
Proof.
  intros Hi. destruct (opened i Hi) as (d & rest & E & Ho). destruct (apply_all_tracked ds) as [[He _] _].
  specialize (He i). unfold per_index in He. rewrite keyed_entry, E in He.
  destruct (alone_announced d rest Ho) as (p & Ea & _). unfold alone_entry in Ea. rewrite Ea in He.
  destruct (by_index _ !! i); [|done]. simpl in He. injection He as _ Hb. by apply eq_sym, bool_decide_eq_true in Hb.
Qed.

Lemma calls_of_ids : tc_id <$> calls_of ds = id_at ds <$> indices index_of ds.
Proof.
  unfold calls_of. pose proof opened_call as H. revert H. induction (indices index_of ds) as [|i l IH]; intros H; [done|].
  simpl. rewrite (H i) by left. simpl. f_equal. apply IH. intros j Hj. apply H. by right.
Qed.

Lemma ends_of_calls :
  (finish (apply_all no_calls ds).1).2 = (λ i, ToolCallEnd (id_at ds i)) <$> indices index_of ds.
Proof.
  unfold finish. simpl. rewrite in_order_assembled, omap_fmap. pose proof opened_call as H. pose proof opened_started as Hs.
  revert H Hs. generalize (started (apply_all no_calls ds).1). intros st.
  induction (indices index_of ds) as [|i l IH]; intros H Hs; [done|].
  simpl. unfold end_of at 1. simpl. rewrite bool_decide_eq_true_2 by (apply Hs; left). rewrite (H i) by left. simpl.
  f_equal. apply IH; intros j Hj; [apply H|apply Hs]; by right.
Qed.

Lemma call_events i :
  i ∈ indices index_of ds →
  ∃ pieces, filter (about (id_at ds i)) (apply_all no_calls ds).2
      = ToolCallStart (id_at ds i) (e_name (assembled (of_index index_of i ds)))
          :: (ToolCallArgsDelta (id_at ds i) <$> pieces)
    ∧ concat pieces = e_arguments (assembled (of_index index_of i ds)).
Proof.
  intros Hi. destruct (opened i Hi) as (d & rest & E & Ho). destruct (apply_all_tracked ds) as [_ <-].
  unfold per_index. rewrite (keyed_events index_of upd _ i).
  - destruct (alone_announced d rest Ho) as (p & Ea & Hp). destruct (opens_fields d rest Ho) as (Eid & En & _).
    rewrite E. unfold id_at. rewrite E, Eid, En. unfold alone_entry in Ea. rewrite Ea. exists p. split; [|done].
    cbn [snd]. rewrite filter_cons_True by done. f_equal. apply filter_args.
  - intros j pre d' post Hj Ej. eapply others_silent; [by intros; eapply conf_opens| |done].
    intros Eid. apply Hj. pose proof (conf_ids _ _ Hc) as Hnd.
    assert (j ∈ indices index_of ds) as (kj & Hkj)%list_elem_of_lookup.
    { apply indices_elem. rewrite Ej. by destruct pre. }
    apply list_elem_of_lookup in Hi as (ki & Hki).
    rewrite NoDup_alt in Hnd. assert (ki = kj) as ->; [|congruence].
    apply (Hnd ki kj (id_at ds i)); rewrite list_lookup_fmap; [by rewrite Hki|]. rewrite Hkj. simpl. by rewrite Eid.
Qed.
End Conforming.

(** What a completion has of the calls. *)
Lemma completed_calls from_str interleaved cs fin :
  outcome (read_stream from_str interleaved cs) = Ok fin →
  let a := apply_all no_calls (deltas_of from_str cs) in
  final_calls fin = calls_of (deltas_of from_str cs)
  ∧ ∀ i, filter (about i) (events (read_stream from_str interleaved cs))
         = filter (about i) a.2 ++ filter (about i) (finish a.1).2.
Proof.
  unfold read_stream, deltas_of. rewrite read_from_consumed. destruct (consumed from_str cs) as [evs [e|]]; [done|].
  pose proof (on_events_read evs) as [Ha _ _ _ Hc _]. destruct (foldl on_event _ evs) as [r out].
  cbn [fst snd] in *. unfold completed. rewrite Ha.
  pose proof (finish_calls (all_deltas (all_choices evs))) as Hcalls. destruct (finish _) as [calls ends].
  cbn in *. intros [= <-]. split; [done|]. intros i. by rewrite filter_app, Hc.
Qed.

(** The reader keeps the interface of [Adapter]: as long as the stream keeps the protocol,
    the calls of a completion have distinct ids, and each was announced to the interface
    with its name and its arguments, which end before the completion does. *)
#[global] Instance openai_adapter (from_str : str → option OaStreamEvent) (interleaved : option str) :
  Adapter (conforming from_str) (read_stream from_str interleaved).
Proof.
  split; intros cs fin Hc [Hcalls Hev]%completed_calls; rewrite Hcalls.
  - rewrite (calls_of_ids _ _ Hc). apply (conf_ids _ _ Hc).
  - apply Forall_forall. intros c (i & Hi & E)%list_elem_of_omap. rewrite (opened_call _ _ Hc i Hi) in E.
    injection E as <-. destruct (call_events _ _ Hc i Hi) as (pieces & Ep & Hp).
    exists pieces. cbn [tc_id tc_name arguments]. split; [|by left].
    rewrite Hev, Ep, (ends_of_calls _ _ Hc), filter_ends; [done|apply (conf_ids _ _ Hc)|done].
Qed.

(** ** What the model is told *)

(** The fields of a message. *)
Definition reserved : list str := lit <$> ["role"; "content"; "name"; "tool_call_id"; "tool_calls"]%string.

Definition role_of (s : str) : option MessageRole :=
  snd <$> head (filter (λ p, p.1 = s) ((λ r, (role_str r, r)) <$> [System; User; Assistant; Tool])).

Definition text_at (k : string) (v : Json) : option (option str) :=
  match get k v with None => Some None | Some (String_ s) => Some (Some s) | Some _ => None end.

Definition SEMICOLON : char := 59%N.

(** [data:<mime>;base64,<data>] *)
Definition read_uri (s : str) : option ImageAttachment :=
  rest ← strip_prefix (lit "data:") s;
  p ← split_once SEMICOLON rest;
  data ← strip_prefix (lit "base64,") p.2;
  Some {| mime := p.1; data := data |}.

Definition read_part (v : Json) : option (str + ImageAttachment) :=
  match get "text" v, get "image_url" v with
  | Some (String_ s), None => Some (inl s)
  | None, Some u => match get "url" u with Some (String_ s) => inr <$> read_uri s | _ => None end
  | _, _ => None
  end.

Definition part_text (l : list (str + ImageAttachment)) : str :=
  concat (omap (λ p, match p with inl s => Some s | inr _ => None end) l).

Definition part_images (l : list (str + ImageAttachment)) : list ImageAttachment :=
  omap (λ p, match p with inl _ => None | inr img => Some img end) l.

Definition read_content (v : Json) : option (str * list ImageAttachment) :=
  match get "content" v with
  | None => Some ([], [])
  | Some (String_ s) => Some (s, [])
  | Some (Array ps) =>
      parts ← mapM read_part ps;
      Some (part_text parts, part_images parts)
  | Some _ => None
  end.

Definition read_call (v : Json) : option ToolCall :=
  id ← (v ← get "id" v; as_str v);
  f ← get "function" v;
  name ← (v ← get "name" f; as_str v);
  args ← (v ← get "arguments" f; as_str v);
  Some {| tc_id := id; tc_name := name; arguments := args; thought_signature := None |}.

(** A message of the request, read back. *)
Definition oa_read (interleaved : option str) (v : Json) : option ChatMessage :=
  r ← (v ← get "role" v; s ← as_str v; role_of s);
  content ← read_content v;
  calls ← match get "tool_calls" v with None => Some [] | Some (Array l) => mapM read_call l | Some _ => None end;
  call_id ← text_at "tool_call_id" v;
  name ← text_at "name" v;
  Some {| role := r; content := content.1; tool_calls := calls; tool_call_id := call_id; msg_name := name;
          reasoning_content := match v, interleaved with
                               | Object m, Some field => x ← map_get field m; as_str x
                               | _, _ => None
                               end;
          thinking_blocks := []; images := content.2 |}.

Definition unsigned (tc : ToolCall) : ToolCall :=
  {| tc_id := tc_id tc; tc_name := tc_name tc; arguments := arguments tc; thought_signature := None |}.

(** A message as the model gets it. *)
Definition as_sent (interleaved : option str) (supports_vision : bool) (m : ChatMessage) : ChatMessage :=
  let shown := bool_decide (role m = User) in
  {| role := role m;
     content := if shown && negb (bool_decide (images m = [])) && negb supports_vision
                then dropped_images_note (content m) (length (images m)) else content m;
     tool_calls := unsigned <$> tool_calls m; tool_call_id := tool_call_id m; msg_name := msg_name m;
     reasoning_content := if bool_decide (role m = Assistant)
                          then match interleaved with Some _ => Some (default [] (reasoning_content m)) | None => None end
                          else None;
     thinking_blocks := [];
     images := if shown && supports_vision then images m else [] |}.

Lemma role_of_str (r : MessageRole) : role_of (role_str r) = Some r.
Proof. by destruct r. Qed.

Lemma split_once_app (c : char) (a b : str) : c ∉ a → split_once c (a ++ c :: b) = Some (a, b).
Proof.
  induction a as [|x a IH]; simpl; [by rewrite N.eqb_refl|]. intros [Hx Ha]%not_elem_of_cons.
  destruct (N.eqb_spec c x); [done|]. by rewrite IH.
Qed.

Lemma read_uri_data (img : ImageAttachment) : SEMICOLON ∉ mime img → read_uri (data_uri img) = Some img.
Proof.
  intros H. unfold read_uri, data_uri. rewrite strip_prefix_app. cbn [mbind option_bind].
  change (lit ";base64," ++ data img) with (SEMICOLON :: lit "base64," ++ data img).
  rewrite split_once_app by done. cbn [mbind option_bind snd fst]. rewrite strip_prefix_app. by destruct img.
Qed.

Lemma read_call_oa (tc : ToolCall) : read_call (call_to_oa tc) = Some (unsigned tc).
Proof. reflexivity. Qed.

Lemma read_calls_oa (l : list ToolCall) : mapM read_call (call_to_oa <$> l) = Some (unsigned <$> l).
Proof. induction l as [|tc l IH]; [done|]. rewrite fmap_cons. simpl. by rewrite IH. Qed.

Lemma read_text_part (s : str) : read_part (text_part s) = Some (inl s).
Proof. reflexivity. Qed.

Lemma read_image_part (img : ImageAttachment) : SEMICOLON ∉ mime img → read_part (image_part img) = Some (inr img).
Proof. intros H. change (read_part (image_part img)) with (inr (A := str) <$> read_uri (data_uri img)). by rewrite read_uri_data. Qed.

Lemma read_image_parts (l : list ImageAttachment) :
  Forall (λ img, SEMICOLON ∉ mime img) l → mapM read_part (image_part <$> l) = Some (inr <$> l).
Proof.
  induction 1 as [|img l Hi _ IH]; [done|]. rewrite !fmap_cons. simpl. rewrite read_image_part by done. simpl.
  by rewrite IH.
Qed.

(** The message without the reasoning. *)
Definition plain_oa (m : ChatMessage) (supports_vision : bool) : Json := message_to_oa m None supports_vision.

Lemma plain_oa_fields (m : ChatMessage) (v : bool) :
  get "role" (plain_oa m v) = Some (String_ (role_str (role m)))
  ∧ get "content" (plain_oa m v) = oa_content m v
  ∧ get "name" (plain_oa m v) = String_ <$> msg_name m
  ∧ get "tool_call_id" (plain_oa m v) = String_ <$> tool_call_id m
  ∧ get "tool_calls" (plain_oa m v)
    = if bool_decide (tool_calls m = []) then None else Some (Array (call_to_oa <$> tool_calls m)).
Proof.
  unfold plain_oa, message_to_oa. assert (∀ b (o : Json), (if b : bool then o else o) = o) as -> by (by intros []).
  destruct (oa_content m v), (msg_name m), (tool_call_id m), (bool_decide (tool_calls m = [])); split_and!; reflexivity.
Qed.

Lemma message_to_oa_plain (m : ChatMessage) (field : str) (v : bool) :
  ∃ e, plain_oa m v = Object e ∧ (∀ k, k ∉ reserved → map_get k e = None)
    ∧ message_to_oa m (Some field) v
      = if bool_decide (role m = Assistant)
        then Object (map_insert field (String_ (default [] (reasoning_content m))) e) else Object e.
Proof.
  unfold plain_oa, message_to_oa. assert (∀ b (o : Json), (if b : bool then o else o) = o) as -> by (by intros []).
  destruct (oa_content m v), (msg_name m), (tool_call_id m), (bool_decide (tool_calls m = []));
    (eexists; split; [reflexivity|split; [|by destruct (bool_decide (role m = Assistant))]]).
  all: intros k Hk; apply map_get_None; intros Hin; apply Hk; revert Hin; simpl; unfold reserved; set_solver.
Qed.

Definition plain_mimes (m : ChatMessage) : Prop := Forall (λ img, SEMICOLON ∉ mime img) (images m).

Lemma part_text_images (l : list ImageAttachment) : part_text (inr <$> l) = [].
Proof. by induction l. Qed.

Lemma part_images_images (l : list ImageAttachment) : part_images (inr <$> l) = l.
Proof. unfold part_images. induction l as [|img l IH]; [done|]. rewrite fmap_cons. simpl. by f_equal. Qed.

Lemma read_content_oa (interleaved : option str) (m : ChatMessage) (vision : bool) (v : Json) :
  plain_mimes m → get "content" v = oa_content m vision →
  read_content v = Some (content (as_sent interleaved vision m), images (as_sent interleaved vision m)).
Proof.
  intros Hm E. unfold read_content, as_sent. rewrite E. unfold oa_content. cbn [content images].
  destruct (bool_decide (role m = User)); cbn [andb negb].
  2: { case_bool_decide as Hc; [by rewrite Hc|done]. }
  case_bool_decide as Hi; cbn [andb negb].
  { case_bool_decide as Hc; rewrite ?Hc, Hi; by destruct vision. }
  destruct vision; cbn [andb negb]; [|done].
  case_bool_decide as Hc; cbn [app mapM].
  - rewrite read_image_parts by done. cbn [mbind option_bind]. by rewrite part_text_images, part_images_images, Hc.
  - rewrite read_text_part. cbn [mbind option_bind]. rewrite read_image_parts by done. cbn [mbind option_bind mret option_ret].
    change (part_text (inl (content m) :: (inr <$> images m))) with (content m ++ part_text (inr <$> images m)).
    change (part_images (inl (content m) :: (inr <$> images m))) with (part_images (inr <$> images m)).
    by rewrite part_text_images, part_images_images, (right_id_L [] (++)).
Qed.

(** What [oa_read] looks at. *)
Lemma oa_read_fields (interleaved : option str) (m : ChatMessage) (vision : bool) (e : Map) :
  plain_mimes m →
  (∀ k, lit k ∈ reserved → map_get (lit k) e = get k (plain_oa m vision)) →
  match interleaved with Some field => x ← map_get field e; as_str x | None => None end
    = reasoning_content (as_sent interleaved vision m) →
  oa_read interleaved (Object e) = Some (as_sent interleaved vision m).
Proof.
  intros Hm He Hr. destruct (plain_oa_fields m vision) as (Hrole & Hcont & Hname & Hid & Hcalls).
  assert (∀ k, lit k ∈ reserved → get k (Object e) = get k (plain_oa m vision)) as Hg by done.
  unfold oa_read, text_at. rewrite (read_content_oa interleaved m vision _ Hm) by (rewrite Hg by decided; done).
  rewrite !Hg, Hrole, Hname, Hid, Hcalls by decided. cbn [mbind option_bind as_str]. rewrite role_of_str.
  cbn [mbind option_bind]. rewrite Hr. clear. unfold as_sent. cbn [content images reasoning_content].
  destruct (bool_decide_reflect (tool_calls m = [])) as [Hc|Hc]; [rewrite Hc|rewrite read_calls_oa];
    cbn [mbind option_bind fst snd]; by destruct (tool_call_id m), (msg_name m).
Qed.

(** C30: The model is told what the transcript says: each message of the request reads back
    to the message it was made of, with its role, its text, its tool calls, the call it
    answers and its images, or a note in their place when the model takes none; the
    reasoning goes back to a model that wants it, and only to one. *)
Theorem messages_read_back (interleaved : option str) (supports_vision : bool) (l : list ChatMessage) :
  (∀ field, interleaved = Some field → field ∉ reserved) → Forall plain_mimes l →
  mapM (oa_read interleaved) ((λ m, message_to_oa m interleaved supports_vision) <$> l)
  = Some (as_sent interleaved supports_vision <$> l).
Proof.
  intros Hf. induction 1 as [|m l Hm _ IH]; [done|]. rewrite !fmap_cons. cbn [mapM]. rewrite IH.
  enough (oa_read interleaved (message_to_oa m interleaved supports_vision)
          = Some (as_sent interleaved supports_vision m)) as -> by done.
  destruct interleaved as [field|].
  - destruct (message_to_oa_plain m field supports_vision) as (e & Ep & Hres & ->).
    specialize (Hf field eq_refl).
    destruct (bool_decide (role m = Assistant)) eqn:Er; apply oa_read_fields; try done.
    + intros k Hk. rewrite map_get_insert, decide_False by (by intros ->). by rewrite Ep.
    + rewrite map_get_insert, decide_True by done. unfold as_sent. cbn. by rewrite Er.
    + intros k _. by rewrite Ep.
    + rewrite Hres by done. unfold as_sent. cbn. by rewrite Er.
  - destruct (plain_oa m supports_vision) as [| | | | |e] eqn:Ep; try (by destruct (plain_oa_fields m supports_vision) as [H _]; rewrite Ep in H).
    unfold plain_oa in Ep. rewrite Ep. apply oa_read_fields; [done| |].
    + intros k _. unfold plain_oa. by rewrite Ep.
    + unfold as_sent. cbn. by case_bool_decide.
Qed.

(** ** The gates *)

(** The operator's options say nothing about a key. *)
Definition silent (k : string) (req : CompletionRequest) : Prop :=
  match provider_options req with Some o => get k o = None | None => True end.

Lemma merge_silent (k : string) (body o : Json) : get k o = None → get k (merge_top_level body o) = get k body.
Proof.
  destruct body as [| | | | |b], o as [| | | | |o]; try done. simpl. set (go := fix go (o b : Map) : Map := _).
  revert b. induction o as [|[k' v] o IH]; intros b Ho; [done|]. simpl in Ho. case_decide as E; [done|].
  simpl. rewrite IH by done.
  by destruct (map_get k' b) as [[]|], v; rewrite map_get_insert, decide_False by congruence.
Qed.

Definition reasoning_keys : list string := ["reasoning_effort"; "reasoning"; "thinking"]%string.

Lemma request_body_get (p : OpenAICompatibleProvider) caps req k :
  silent k req → k ∉ reasoning_keys → get k (request_body p caps req) = get k (default_body p caps req).
Proof.
  intros Hs Hk. unfold request_body.
  assert (get k (match provider_options req with
                 | Some opts => merge_top_level (default_body p caps req) opts
                 | None => default_body p caps req
                 end) = get k (default_body p caps req)) as E.
  { unfold silent in Hs. destruct (provider_options req); [by apply merge_silent|done]. }
  destruct (allowed cap_reasoning caps); [done|]. rewrite !get_remove_key, E.
  rewrite !decide_False; [done|..]; intros Hl%(inj lit); subst k; apply Hk; unfold reasoning_keys; set_solver.
Qed.

Lemma default_body_gates (p : OpenAICompatibleProvider) caps req :
  get "messages" (default_body p caps req)
    = Some (Array ((λ m, message_to_oa m (interleaved_of caps) (allowed cap_vision caps)) <$> messages req))
  ∧ (allowed cap_temperature caps = false → get "temperature" (default_body p caps req) = None)
  ∧ (allowed cap_tool_call caps = false → get "tools" (default_body p caps req) = None).
Proof.
  unfold default_body.
  destruct (allowed cap_temperature caps), (allowed cap_tool_call caps), (bool_decide (tools req = [])),
    (bool_decide (kind p = OpenRouter)), (temperature req), (max_tokens req), (oa_session p); split_and!; done.
Qed.

(** A model gets no field it rejects: what models.dev says it does not take (reasoning
    options, whoever set them; a temperature and tools, unless the operator asks for
    them) is not in the request, and the messages are those of the transcript unless the
    operator replaces them. *)
Theorem request_gated (p : OpenAICompatibleProvider) (caps : option ModelCapabilities) (req : CompletionRequest) :
  let body := request_body p caps req in
  (allowed cap_reasoning caps = false → ∀ k, k ∈ reasoning_keys → get k body = None)
  ∧ (allowed cap_temperature caps = false → silent "temperature" req → get "temperature" body = None)
  ∧ (allowed cap_tool_call caps = false → silent "tools" req → get "tools" body = None)
  ∧ (silent "messages" req →
     get "messages" body
     = Some (Array ((λ m, message_to_oa m (interleaved_of caps) (allowed cap_vision caps)) <$> messages req))).
Proof.
  intros body. destruct (default_body_gates p caps req) as (Hm & Ht & Htools). split_and!.
  - intros Hc k Hk. unfold body, request_body. rewrite Hc, !get_remove_key. unfold reasoning_keys in Hk.
    repeat (apply elem_of_cons in Hk as [->|Hk]; [by repeat case_decide|]). by apply not_elem_of_nil in Hk.
  - intros Hc Hs. unfold body. rewrite request_body_get by (done || decided). by apply Ht.
  - intros Hc Hs. unfold body. rewrite request_body_get by (done || decided). by apply Htools.
  - intros Hs. unfold body. by rewrite request_body_get by (done || decided).
Qed.

(** ** Tool calls on the wire *)

Definition wire_role (v : Json) : option str := x ← get "role" v; as_str x.

Definition wire_calls (v : Json) : list str :=
  omap (λ c, x ← get "id" c; as_str x) (default [] (x ← get "tool_calls" v; as_array x)).

Definition wire_answer (v : Json) : option str := x ← get "tool_call_id" v; as_str x.

Fixpoint wire_run (l : list Json) : list str :=
  match l with
  | [] => []
  | v :: l => if decide (wire_role v = Some (lit "tool")) then option_list (wire_answer v) ++ wire_run l else []
  end.

(** What the providers accept: each call is answered by the tool messages right behind it,
    and a tool message answers a call of the message its run follows. *)
Fixpoint wire_paired (open_ids : list str) (l : list Json) : Prop :=
  match l with
  | [] => True
  | v :: l =>
      if decide (wire_role v = Some (lit "assistant")) then
        Forall (λ id, id ∈ wire_run l) (wire_calls v) ∧ wire_paired (wire_calls v) l
      else if decide (wire_role v = Some (lit "tool")) then
        (∃ id, wire_answer v = Some id ∧ id ∈ open_ids) ∧ wire_paired open_ids l
      else wire_paired [] l
  end.

Lemma message_fields (m : ChatMessage) (interleaved : option str) (vision : bool) k :
  (∀ field, interleaved = Some field → field ∉ reserved) → lit k ∈ reserved →
  get k (message_to_oa m interleaved vision) = get k (plain_oa m vision).
Proof.
  intros Hf Hk. destruct interleaved as [field|]; [|done].
  destruct (message_to_oa_plain m field vision) as (e & Ep & _ & ->). rewrite Ep.
  case_bool_decide; [|done]. simpl. rewrite map_get_insert, decide_False; [done|].
  intros ->. by apply (Hf _ eq_refl).
Qed.

Section Wire.
Context (interleaved : option str) (vision : bool).
Context (Hf : ∀ field, interleaved = Some field → field ∉ reserved).

Notation wire m := (message_to_oa m interleaved vision).

Lemma wire_message (m : ChatMessage) :
  wire_role (wire m) = Some (role_str (role m)) ∧ wire_calls (wire m) = tc_id <$> tool_calls m
  ∧ wire_answer (wire m) = tool_call_id m.
Proof.
  destruct (plain_oa_fields m vision) as (Hr & _ & _ & Hid & Hc). unfold wire_role, wire_calls, wire_answer.
  rewrite !message_fields, Hr, Hid, Hc by (done || decided). split_and!; [done| |by destruct (tool_call_id m)].
  case_bool_decide as E; cbn [mbind option_bind as_array default from_option Datatypes.id]; [by rewrite E|].
  unfold Datatypes.id. rewrite omap_fmap. clear. induction (tool_calls m) as [|tc l IH]; [done|]. rewrite fmap_cons, <- IH. reflexivity.
Qed.

Lemma wire_run_messages (l : list ChatMessage) :
  wire_run ((λ m, wire m) <$> l) = omap tool_call_id (tool_run l).
Proof.
  induction l as [|m l IH]; [done|]. rewrite fmap_cons. cbn [wire_run tool_run].
  destruct (wire_message m) as (-> & _ & ->). unfold is_tool. rewrite IH.
  destruct (role m); cbn [role_str]; [by rewrite decide_False by decided..|]. rewrite decide_True by done. simpl.
  by destruct (tool_call_id m).
Qed.

Lemma wire_paired_messages (l : list ChatMessage) a : paired_from a l → wire_paired a ((λ m, wire m) <$> l).
Proof.
  revert a. induction l as [|m l IH]; intros a Hp; [done|]. rewrite fmap_cons. cbn [wire_paired].
  destruct (wire_message m) as (-> & -> & ->). rewrite wire_run_messages. simpl in Hp.
  destruct (role m); cbn [role_str]; rewrite ?(decide_False (P := Some _ = Some (lit "assistant"))) by decided;
    rewrite ?(decide_False (P := Some _ = Some (lit "tool"))) by decided; [by apply IH..| |].
  - rewrite decide_True by done. destruct Hp as [Hall Hp]. split; [|by apply IH].
    by apply Forall_fmap.
  - rewrite decide_True by done. destruct Hp as [Hid Hp]. split; [done|by apply IH].
Qed.
End Wire.

(** ** Samples *)

Module Samples.

Definition with_image : ChatMessage :=
  {| role := User; content := lit "see"; tool_calls := []; tool_call_id := None; msg_name := None;
     reasoning_content := None; thinking_blocks := [];
     images := [{| mime := lit "image/png"; data := lit "AAAA" |}] |}.

Definition calling : ChatMessage :=
  {| role := Assistant; content := []; tool_call_id := None; msg_name := None;
     tool_calls := [{| tc_id := lit "c1"; tc_name := lit "pods_list"; arguments := lit "{}"; thought_signature := None |}];
     reasoning_content := Some (lit "hm"); thinking_blocks := []; images := [] |}.

Definition text_only : ModelCapabilities :=
  {| cap_reasoning := false; cap_tool_call := false; cap_temperature := false; cap_vision := false;
     interleaved_field := None; cap_wire := OpenAiChat; reasoning_options := None |}.

Definition a_request (options : option Json) : CompletionRequest :=
  {| model := lit "m"; messages := [with_image]; tools := [{| schema_name := lit "t"; description := []; parameters := Null |}];
     temperature := Some (lit "0.5"); max_tokens := None; provider_options := options |}.

Definition piece (id name args : option str) : OaToolCallDelta :=
  {| index := None; d_id := id; function := Some {| d_name := name; d_arguments := args |} |}.

End Samples.

Import Samples.

Lemma messages_read_back_witness :
  mapM (oa_read (Some (lit "reasoning_content")))
    ((λ m, message_to_oa m (Some (lit "reasoning_content")) true) <$> [with_image; calling])
  = Some (as_sent (Some (lit "reasoning_content")) true <$> [with_image; calling]).
Proof. apply messages_read_back; [intros field [= <-]; decided|repeat constructor; decided]. Defined.

Lemma request_gated_witness :
  let opts := obj [("reasoning"%string, obj [("effort"%string, String_ (lit "high"))])] in
  let p := {| kind := OpenRouter; oa_session := Some (lit "s1") |} in
  get "reasoning" (request_body p (Some text_only) (a_request (Some opts))) = None
  ∧ get "temperature" (request_body p (Some text_only) (a_request (Some opts))) = None.
Proof.
  intros opts p. destruct (request_gated p (Some text_only) (a_request (Some opts))) as (Hr & Ht & _).
  split; [apply Hr; [reflexivity|decided]|apply Ht; reflexivity].
Defined.

(** A server that leaves out the index of its calls: the second call is lost in the first. *)
Lemma unindexed_calls_merge :
  calls_of [piece (Some (lit "c1")) (Some (lit "get")) (Some (lit "{}"));
            piece (Some (lit "c2")) (Some (lit "list")) (Some (lit "{}"))]
  = [{| tc_id := lit "c1"; tc_name := lit "get"; arguments := lit "{}{}"; thought_signature := None |}].
Proof. decided. Qed.
