(* ===== verification/AnthropicApi.v ===== *)
(** * The Anthropic provider (agent/src/provider/anthropic.rs)

    The messages and the request body, the room for extended thinking ([fit_thinking]),
    the state machine over the stream ([SseState]) and the list of models.

    serde_json's reading of a text is an argument ([from_str]).  The sum of two [u32]
    counters in [merge_usage] wraps, as a release build does. *)

From S2P Require Import Prelude Json Transcript Classify Session Completion.

(** ** Room for thinking *)

Definition DEFAULT_MAX_TOKENS_CAP : N := 32000.

Definition MIN_THINKING_BUDGET : N := 1024.

Definition ANSWER_HEADROOM : N := 4096.

(** [Value::pointer] of two names *)
Definition get2 (a b : string) (v : Json) : option Json := x ← get a v; get b x.

Definition kind_of (body : Json) : option str := t ← get2 "thinking" "type" body; as_str t.

(** The budget and the ceiling of a request with thinking enabled. *)
Definition fit_budget (output_limit : option N) (requested : N) : N :=
  let cap := default u32_max output_limit in
  let ceiling := N.max (cap - MIN_THINKING_BUDGET) MIN_THINKING_BUDGET in
  N.max MIN_THINKING_BUDGET (N.min (clamp_u32 requested) ceiling).

Definition fit_max (output_limit : option N) (budget : N) (old : option N) : N :=
  let cap := default u32_max output_limit in
  let max_tokens := default 0%N (clamp_u32 <$> old) in
  let wanted := N.min (N.min (budget + ANSWER_HEADROOM) u32_max) cap in
  N.max (N.max max_tokens wanted) (budget + 1).

Definition set_in (a b : string) (v : Json) (body : Json) : Json :=
  match get a body with Some x => set_key a (set_key b v x) body | None => body end.

Definition fit_thinking (body : Json) (output_limit : option N) : Json :=
  match kind_of body with
  | None => body
  | Some kind =>
      if decide (kind = lit "disabled") then body
      else
        let body := remove_key "top_k" (remove_key "temperature" body) in
        if decide (kind ≠ lit "enabled") then body
        else match (t ← get2 "thinking" "budget_tokens" body; as_u64 t) with
             | None => body
             | Some requested =>
                 let budget := fit_budget output_limit requested in
                 let max_tokens := fit_max output_limit budget (t ← get "max_tokens" body; as_u64 t) in
                 set_key "max_tokens" (nat_json max_tokens)
                   (set_in "thinking" "budget_tokens" (nat_json budget) body)
             end
  end.

(** ** Messages *)

Definition text_block (s : str) : Json := obj [("type"%string, String_ (lit "text")); ("text"%string, String_ s)].

Definition image_block (img : ImageAttachment) : Json :=
  obj [("type"%string, String_ (lit "image"));
       ("source"%string, obj [("type"%string, String_ (lit "base64")); ("media_type"%string, String_ (mime img));
                              ("data"%string, String_ (data img))])].

Definition user_content (m : ChatMessage) (supports_vision : bool) : list Json :=
  if supports_vision && negb (bool_decide (images m = [])) then
    (if bool_decide (content m = []) then [] else [text_block (content m)]) ++ (image_block <$> images m)
  else
    [text_block (if bool_decide (images m = []) then content m
                 else dropped_images_note (content m) (length (images m)))].

Definition message (r : string) (blocks : list Json) : Json :=
  obj [("role"%string, String_ (lit r)); ("content"%string, Array blocks)].

Section Messages.
Context (from_str : str → option Json) (supports_vision replay_thinking : bool).

Definition tool_use (tc : ToolCall) : Json :=
  obj [("type"%string, String_ (lit "tool_use")); ("id"%string, String_ (tc_id tc));
       ("name"%string, String_ (tc_name tc));
       ("input"%string, default (String_ (arguments tc)) (from_str (arguments tc)))].

Definition assistant_content (m : ChatMessage) : list Json :=
  let blocks := (if replay_thinking then thinking_blocks m else [])
    ++ (if bool_decide (content m = []) then [] else [text_block (content m)])
    ++ (tool_use <$> tool_calls m) in
  if bool_decide (blocks = []) then [text_block []] else blocks.

Definition tool_result (m : ChatMessage) : Json :=
  obj [("type"%string, String_ (lit "tool_result"));
       ("tool_use_id"%string, String_ (default [] (tool_call_id m))); ("content"%string, String_ (content m))].

Definition build_step (s : list str * list Json) (m : ChatMessage) : list str * list Json :=
  match role m with
  | System => (if bool_decide (content m = []) then s.1 else s.1 ++ [content m], s.2)
  | User => (s.1, s.2 ++ [message "user" (user_content m supports_vision)])
  | Assistant => (s.1, s.2 ++ [message "assistant" (assistant_content m)])
  | Tool => (s.1, s.2 ++ [message "user" [tool_result m]])
  end.

Definition build_messages (l : list ChatMessage) : str * list Json :=
  let '(system_parts, out) := foldl build_step ([], []) l in (join [LF; LF] system_parts, out).
End Messages.

Definition tool_schema (t : ToolSchema) : Json :=
  obj [("name"%string, String_ (schema_name t)); ("description"%string, String_ (description t));
       ("input_schema"%string, parameters t)].

(** The request; [output] is the output limit of models.dev, 0 when it has none. *)
Definition request_body (from_str : str → option Json) (kind : ProviderKind) (supports_vision : bool)
    (output : option N) (req : CompletionRequest) : Json :=
  let replay_thinking := negb (bool_decide (kind = KimiCoding)) in
  let '(system, msgs) := build_messages from_str supports_vision replay_thinking (messages req) in
  let output_limit := o ← output; if (0 <? o)%N then Some o else None in
  let default_max := match output_limit with Some l => N.min l DEFAULT_MAX_TOKENS_CAP | None => 8192%N end in
  let body := obj [("model"%string, String_ (model req)); ("messages"%string, Array msgs);
                   ("stream"%string, Bool true);
                   ("max_tokens"%string, nat_json (default default_max (max_tokens req)))] in
  let body := set_when (negb (bool_decide (system = []))) "system" (String_ system) body in
  let body := set_some "temperature" (Json.Number <$> temperature req) body in
  let body := set_when (negb (bool_decide (tools req = []))) "tools" (Array (tool_schema <$> tools req)) body in
  let body := match provider_options req with Some opts => merge_top_level body opts | None => body end in
  fit_thinking body output_limit.

(** ** The stream *)

Record ThinkingAcc : Set := { redacted : bool; th_text : str; signature : str; th_data : str }.

Record BlockEntry : Set := {
  tool_id : str; tool_name : str; b_arguments : str; b_started : bool; is_tool : bool; thinking : option ThinkingAcc;
}.

Definition no_block : BlockEntry :=
  {| tool_id := []; tool_name := []; b_arguments := []; b_started := false; is_tool := false; thinking := None |}.

Record SseState : Set := { blocks : gmap N BlockEntry; s_finish : FinishReason; s_usage : option TokenUsage }.

Definition no_state : SseState := {| blocks := ∅; s_finish := Stop; s_usage := None |}.

(** [as_str().unwrap_or_default()] of a field *)
Definition str_at (k : string) (v : Json) : str := default [] (x ← get k v; as_str x).

(** The [index] of an event, [as u32]. *)
Definition index_at (v : Json) : N := as_u32 (default 0%N (x ← get "index" v; as_u64 x)).

Definition merge_usage (prev : option TokenUsage) (raw : Json) : TokenUsage :=
  let u := default {| prompt_tokens := 0; completion_tokens := 0; total_tokens := 0 |} prev in
  let p := match (x ← get "input_tokens" raw; as_u64 x) with
           | Some n => N.max (prompt_tokens u) (as_u32 n) | None => prompt_tokens u end in
  let c := match (x ← get "output_tokens" raw; as_u64 x) with
           | Some n => N.max (completion_tokens u) (as_u32 n) | None => completion_tokens u end in
  {| prompt_tokens := p; completion_tokens := c; total_tokens := as_u32 (p + c) |}.

Definition use (raw : option Json) (s : SseState) : SseState :=
  match raw with
  | Some u => {| blocks := blocks s; s_finish := s_finish s; s_usage := Some (merge_usage (s_usage s) u) |}
  | None => s
  end.

Definition on_message_start (v : Json) (s : SseState) : SseState := use (get2 "message" "usage" v) s.

Definition stop_reason (r : str) : FinishReason :=
  if decide (r = lit "end_turn") then Stop
  else if decide (r = lit "tool_use") then ToolCalls
  else if decide (r = lit "max_tokens") then Length
  else if decide (r = lit "stop_sequence") then Stop
  else Other.

Definition on_message_delta (v : Json) (s : SseState) : SseState :=
  let s := match (x ← get2 "delta" "stop_reason" v; as_str x) with
           | Some r => {| blocks := blocks s; s_finish := stop_reason r; s_usage := s_usage s |}
           | None => s
           end in
  use (get "usage" v) s.

(** The entry a block starts with. *)
Definition start_entry (e : BlockEntry) (v : Json) : BlockEntry * list CompletionEvent :=
  let block := default Null (get "content_block" v) in
  let kind := x ← get "type" block; as_str x in
  if decide (kind = Some (lit "tool_use")) then
    let id := str_at "id" block in
    let name := str_at "name" block in
    let start := negb (bool_decide (id = [])) && negb (bool_decide (name = [])) in
    ({| tool_id := id; tool_name := name; b_arguments := b_arguments e; b_started := b_started e || start;
        is_tool := true; thinking := thinking e |},
     if start then [ToolCallStart id name] else [])
  else if decide (kind = Some (lit "thinking") ∨ kind = Some (lit "redacted_thinking")) then
    ({| tool_id := tool_id e; tool_name := tool_name e; b_arguments := b_arguments e; b_started := b_started e;
        is_tool := is_tool e;
        thinking := Some {| redacted := bool_decide (kind = Some (lit "redacted_thinking"));
                            th_text := str_at "thinking" block; signature := str_at "signature" block;
                            th_data := str_at "data" block |} |}, [])
  else (e, []).

Definition push_thinking (text sig : str) (e : BlockEntry) : BlockEntry :=
  {| tool_id := tool_id e; tool_name := tool_name e; b_arguments := b_arguments e; b_started := b_started e;
     is_tool := is_tool e;
     thinking := (λ acc, {| redacted := redacted acc; th_text := th_text acc ++ text;
                            signature := signature acc ++ sig; th_data := th_data acc |}) <$> thinking e |}.

Definition push_arguments (partial : str) (e : BlockEntry) : BlockEntry :=
  {| tool_id := tool_id e; tool_name := tool_name e; b_arguments := b_arguments e ++ partial; b_started := b_started e;
     is_tool := is_tool e; thinking := thinking e |}.

(** What a delta does to its entry. *)
Definition delta_entry (e : BlockEntry) (v : Json) : BlockEntry * list CompletionEvent :=
  let delta := default Null (get "delta" v) in
  let kind := x ← get "type" delta; as_str x in
  let field k := x ← get k delta; as_str x in
  if decide (kind = Some (lit "text_delta")) then
    (e, match field "text"%string with Some t => if bool_decide (t = []) then [] else [TokenDelta t] | None => [] end)
  else if decide (kind = Some (lit "thinking_delta")) then
    (match field "thinking"%string with Some t => push_thinking t [] e | None => e end, [])
  else if decide (kind = Some (lit "signature_delta")) then
    (match field "signature"%string with Some t => push_thinking [] t e | None => e end, [])
  else if decide (kind = Some (lit "input_json_delta")) then
    match field "partial_json"%string with
    | Some partial =>
        if bool_decide (partial = []) then (e, [])
        else (push_arguments partial e, if b_started e then [ToolCallArgsDelta (tool_id e) partial] else [])
    | None => (e, [])
    end
  else (e, []).

Definition stop_events (e : BlockEntry) : list CompletionEvent :=
  if is_tool e && b_started e then [ToolCallEnd (tool_id e)] else [].

Definition with_entry (f : BlockEntry → Json → BlockEntry * list CompletionEvent) (v : Json) (s : SseState) :
    SseState * list CompletionEvent :=
  let '(e, out) := f (default no_block (blocks s !! index_at v)) v in
  ({| blocks := <[index_at v := e]> (blocks s); s_finish := s_finish s; s_usage := s_usage s |}, out).

Definition on_block_start : Json → SseState → SseState * list CompletionEvent := with_entry start_entry.

Definition on_block_delta : Json → SseState → SseState * list CompletionEvent := with_entry delta_entry.

Definition on_block_stop (v : Json) (s : SseState) : SseState * list CompletionEvent :=
  (s, match blocks s !! index_at v with Some e => stop_events e | None => [] end).

Definition thinking_block (t : ThinkingAcc) : option Json :=
  if redacted t then
    if bool_decide (th_data t = []) then None
    else Some (obj [("type"%string, String_ (lit "redacted_thinking")); ("data"%string, String_ (th_data t))])
  else if bool_decide (signature t = []) then None
  else Some (obj [("type"%string, String_ (lit "thinking")); ("thinking"%string, String_ (th_text t));
                  ("signature"%string, String_ (signature t))]).

Definition thinking_of (e : BlockEntry) : option Json := t ← thinking e; thinking_block t.

Definition thinking_blocks_of (s : SseState) : list Json := omap (λ p, thinking_of p.2) (in_order (blocks s)).

Definition tool_call_of (e : BlockEntry) : option ToolCall :=
  if is_tool e && negb (bool_decide (tool_id e = [])) && negb (bool_decide (tool_name e = []))
  then Some {| tc_id := tool_id e; tc_name := tool_name e;
               arguments := if bool_decide (b_arguments e = []) then lit "{}" else b_arguments e;
               thought_signature := None |}
  else None.

Definition into_tool_calls (s : SseState) : list ToolCall := omap (λ p, tool_call_of p.2) (in_order (blocks s)).

(** The [type] of an event. *)
Definition is_kind (k : string) (v : Json) : Prop := str_at "type" v = lit k.

#[global] Instance is_kind_dec k v : Decision (is_kind k v).
Proof. unfold is_kind. apply _. Defined.

Section Stream.
Context (from_str : str → option Json) (kind : ProviderKind).

Definition completed (s : SseState) (out : list CompletionEvent) : Streamed :=
  {| events := out;
     outcome := Ok {| finish_reason := s_finish s; final_calls := into_tool_calls s; usage := s_usage s;
                      final_reasoning := None;
                      final_thinking := if bool_decide (kind = KimiCoding) then [] else thinking_blocks_of s |} |}.

Fixpoint read_from (s : SseState) (out : list CompletionEvent) (cs : list (result str ProviderError)) : Streamed :=
  match cs with
  | [] => completed s out
  | Err e :: _ => {| events := out; outcome := Err e |}
  | Ok data :: cs =>
      if decide (trim data = []) then read_from s out cs
      else match from_str data with
           | None => read_from s out cs
           | Some v =>
               if decide (is_kind "content_block_start" v) then
                 let '(s, evs) := on_block_start v s in read_from s (out ++ evs) cs
               else if decide (is_kind "content_block_delta" v) then
                 let '(s, evs) := on_block_delta v s in read_from s (out ++ evs) cs
               else if decide (is_kind "content_block_stop" v) then
                 let '(s, evs) := on_block_stop v s in read_from s (out ++ evs) cs
               else if decide (is_kind "message_delta" v) then read_from (on_message_delta v s) out cs
               else if decide (is_kind "message_start" v) then read_from (on_message_start v s) out cs
               else if decide (is_kind "message_stop" v) then completed s out
               else if decide (is_kind "error" v) then
                 {| events := out;
                    outcome := Err (failure data (default [] (x ← get2 "error" "type" v; as_str x))
                                      (default [] (x ← get2 "error" "message" v; as_str x))) |}
               else read_from s out cs
           end
  end.

Definition read_stream : list (result str ProviderError) → Streamed := read_from no_state [].
End Stream.

Definition stream_completion (from_str : str → option Json) (eventsource : Eventsource)
    (post : Json → result Response str) (kind : ProviderKind) (supports_vision : bool) (output : option N)
    (req : CompletionRequest) : Streamed :=
  exchange eventsource (post (request_body from_str kind supports_vision output req)) (read_stream from_str kind).

(** ** Models *)

Definition list_models (decode : str → option (list ModelInfo)) (resp : result Response str)
    (cat static_models : list ModelInfo) : result (list ModelInfo) ProviderError :=
  let fallback := if bool_decide (cat = []) then Ok static_models else Ok cat in
  match resp with
  | Err _ => fallback
  | Ok r =>
      if is_success r then match decode (body_text r) with Some l => Ok l | None => fallback end
      else if (status r =? 401)%N then Err (Auth (body_text r))
      else fallback
  end.

(** ** Thinking fits *)

Lemma fit_arith (limit : option N) (requested : N) (old : option N) :
  (∀ o, limit = Some o → (o ≤ u32_max)%N) →
  let cap := default u32_max limit in
  let b := fit_budget limit requested in
  let mx := fit_max limit b old in
  let old := default 0%N (clamp_u32 <$> old) in
  (1024 ≤ b < mx)%N ∧ (mx ≤ u32_max)%N ∧ (old ≤ mx)%N
  ∧ ((2048 ≤ cap)%N → (b ≤ cap - 1024)%N ∧ (mx ≤ N.max old cap)%N)
  ∧ ((1024 ≤ requested ≤ cap - 1024)%N → b = requested).
Proof.
  intros Hl cap b mx o.
  assert (cap ≤ u32_max)%N as Hcap by (unfold cap; destruct limit; simpl; [by apply Hl|lia]).
  assert (o ≤ u32_max)%N as Ho by (unfold o; destruct old; simpl; unfold clamp_u32; lia).
  subst b mx. unfold fit_max, fit_budget. fold cap. fold o. clearbody o cap.
  unfold clamp_u32, MIN_THINKING_BUDGET, ANSWER_HEADROOM, u32_max in *. lia.
Qed.

Lemma as_u64_nat (n : N) : (n ≤ u64_last)%N → as_u64 (nat_json n) = Some n.
Proof. intros H. by apply parse_uint_dec_str. Qed.

Lemma get_set_key_ne (k k' : string) (v body : Json) : lit k' ≠ lit k → get k (set_key k' v body) = get k body.
Proof. intros H. destruct body; try done. simpl. by rewrite map_get_insert, decide_False. Qed.

Lemma get_remove_ne (k k' : string) (body : Json) : lit k' ≠ lit k → get k (remove_key k' body) = get k body.
Proof. intros H. by rewrite get_remove_key, decide_False. Qed.

(** What is left of a body whose thinking is enabled: no sampling options, a budget and a
    ceiling that fit each other. *)
Lemma fit_thinking_body (body : Json) (limit : option N) (requested : N) :
  kind_of body = Some (lit "enabled") → (t ← get2 "thinking" "budget_tokens" body; as_u64 t) = Some requested →
  let b := fit_budget limit requested in
  let mx := fit_max limit b (t ← get "max_tokens" body; as_u64 t) in
  ∃ th, get "thinking" body = Some th ∧ is_object th = true ∧ is_object body = true
    ∧ fit_thinking body limit
      = set_key "max_tokens" (nat_json mx)
          (set_key "thinking" (set_key "budget_tokens" (nat_json b) th) (remove_key "top_k" (remove_key "temperature" body))).
Proof.
  intros Hk Hb b mx. unfold fit_thinking. rewrite Hk.
  set (body1 := remove_key "top_k" (remove_key "temperature" body)).
  assert (get "thinking" body1 = get "thinking" body) as Et by (unfold body1; by rewrite !get_remove_ne by decided).
  assert (get "max_tokens" body1 = get "max_tokens" body) as Em by (unfold body1; by rewrite !get_remove_ne by decided).
  unfold kind_of in *. rewrite decide_False, decide_False by decided.
  replace (get2 "thinking" "budget_tokens" body1) with (get2 "thinking" "budget_tokens" body) by (unfold get2; by rewrite Et).
  rewrite Hb, Em. unfold get2 in Hk. destruct (get "thinking" body) as [th|] eqn:Eth; [|done]. cbn [mbind option_bind] in Hk.
  exists th. split_and!; [done|by destruct th|by destruct body|]. unfold set_in. by rewrite Et.
Qed.

(** C40: A request with extended thinking enabled and a budget is made one the Messages API
    takes, for every output limit of a [u32]: the budget is at least 1024 and below
    [max_tokens], which never shrinks (where it is a [u32]); where the model's output limit
    leaves room for both, the budget stays 1024 under the limit and [max_tokens] is not
    raised past it, and a budget that fits is kept; nothing overflows, no sampling options
    are left, and the other fields are as they were. *)
Theorem thinking_fits (body : Json) (limit : option N) (requested : N) :
  kind_of body = Some (lit "enabled") → (t ← get2 "thinking" "budget_tokens" body; as_u64 t) = Some requested →
  (∀ o, limit = Some o → (o ≤ u32_max)%N) →
  let cap := default u32_max limit in
  let old := default 0%N (clamp_u32 <$> (t ← get "max_tokens" body; as_u64 t)) in
  let body' := fit_thinking body limit in
  ∃ b mx, (t ← get2 "thinking" "budget_tokens" body'; as_u64 t) = Some b
    ∧ (t ← get "max_tokens" body'; as_u64 t) = Some mx
    ∧ (1024 ≤ b < mx)%N ∧ (mx ≤ u32_max)%N ∧ (old ≤ mx)%N
    ∧ ((2048 ≤ cap)%N → (b ≤ cap - 1024)%N ∧ (mx ≤ N.max old cap)%N)
    ∧ ((1024 ≤ requested ≤ cap - 1024)%N → b = requested)
    ∧ kind_of body' = Some (lit "enabled")
    ∧ get "temperature" body' = None ∧ get "top_k" body' = None
    ∧ ∀ k, Forall (λ s, lit s ≠ lit k) ["temperature"; "top_k"; "thinking"; "max_tokens"]%string →
           get k body' = get k body.
Proof.
  intros Hk Hb Hl cap old body'. subst body'. pose proof (fit_thinking_body body limit requested Hk Hb) as (th & Eth & Hth & Hobj & ->).
  set (body1 := remove_key "top_k" (remove_key "temperature" body)). set (old' := t ← get "max_tokens" body; as_u64 t).
  pose proof (fit_arith limit requested old' Hl) as (Hbm & Hmx & Hold & Hroom & Hkeep).
  set (b := fit_budget limit requested) in *. set (mx := fit_max limit b old') in *.
  assert (is_object body1 = true) as Hbody by (unfold body1; by destruct body).
  unfold kind_of, get2 in Hk. rewrite Eth in Hk. cbn [mbind option_bind] in Hk. unfold kind_of.
  exists b, mx. set (body2 := set_key "thinking" _ body1).
  assert (is_object body2 = true) as Hbody2 by (unfold body2; by destruct body1).
  assert (get "thinking" (set_key "max_tokens" (nat_json mx) body2) = Some (set_key "budget_tokens" (nat_json b) th)) as E2.
  { rewrite get_set_key_ne by decided. unfold body2. by rewrite get_set_key, decide_True. }
  unfold get2. rewrite E2. cbn [mbind option_bind]. split_and!; try done.
  - rewrite get_set_key, decide_True by done. cbn. apply as_u64_nat. unfold u32_max, u64_last in *. lia.
  - rewrite get_set_key, decide_True by done. cbn. apply as_u64_nat. unfold u32_max, u64_last in *. lia.
  - by apply Hbm.
  - by apply Hbm.
  - by rewrite get_set_key_ne by decided.
  - rewrite get_set_key_ne by decided. unfold body2. rewrite get_set_key_ne by decided. unfold body1.
    by rewrite get_remove_ne, get_remove_key, decide_True by decided.
  - rewrite get_set_key_ne by decided. unfold body2. rewrite get_set_key_ne by decided. unfold body1.
    by rewrite get_remove_key, decide_True.
  - intros k Hne. rewrite !Forall_cons in Hne. destruct Hne as (? & ? & ? & ? & _).
    unfold body2, body1. by rewrite !get_set_key_ne, !get_remove_ne.
Qed.

(** ** What a stream says *)

(** The values the loop acts on, and the error that ends it. *)
Fixpoint consumed (from_str : str → option Json) (cs : list (result str ProviderError)) :
    list Json * option ProviderError :=
  match cs with
  | [] => ([], None)
  | Err e :: _ => ([], Some e)
  | Ok data :: cs =>
      if decide (trim data = []) then consumed from_str cs
      else match from_str data with
           | None => consumed from_str cs
           | Some v =>
               if decide (is_kind "message_stop" v) then ([], None)
               else if decide (is_kind "error" v) then
                 ([], Some (failure data (default [] (x ← get2 "error" "type" v; as_str x))
                              (default [] (x ← get2 "error" "message" v; as_str x))))
               else let '(vs, e) := consumed from_str cs in (v :: vs, e)
           end
  end.

Definition on_value (s : SseState * list CompletionEvent) (v : Json) : SseState * list CompletionEvent :=
  if decide (is_kind "content_block_start" v) then let '(t, evs) := on_block_start v s.1 in (t, s.2 ++ evs)
  else if decide (is_kind "content_block_delta" v) then let '(t, evs) := on_block_delta v s.1 in (t, s.2 ++ evs)
  else if decide (is_kind "content_block_stop" v) then let '(t, evs) := on_block_stop v s.1 in (t, s.2 ++ evs)
  else if decide (is_kind "message_delta" v) then (on_message_delta v s.1, s.2)
  else if decide (is_kind "message_start" v) then (on_message_start v s.1, s.2)
  else s.

Lemma read_values_consumed from_str kind s out cs :
  read_from from_str kind s out cs
  = let '(vs, e) := consumed from_str cs in
    let r := foldl on_value (s, out) vs in
    match e with Some e => {| events := r.2; outcome := Err e |} | None => completed kind r.1 r.2 end.
Proof.
  revert s out. induction cs as [|[data|e] cs IH]; intros s out; simpl; [done| |done].
  case_decide; [apply IH|]. destruct (from_str data) as [v|]; [|apply IH].
  destruct (decide (is_kind "message_stop" v)) as [E|Hstop].
  { by rewrite !decide_False by (unfold is_kind in *; rewrite E; decided). }
  destruct (decide (is_kind "error" v)) as [E|Herr].
  { by rewrite !decide_False by (unfold is_kind in *; rewrite E; decided). }
  assert (∀ t, (let '(vs, e) := (let '(vs, e) := consumed from_str cs in (v :: vs, e)) in
                let r := foldl on_value t vs in
                match e with Some e => {| events := r.2; outcome := Err e |} | None => completed kind r.1 r.2 end)
               = read_from from_str kind (on_value t v).1 (on_value t v).2 cs) as Hc.
  { intros t. rewrite IH. destruct (consumed from_str cs) as [vs e]. simpl. by destruct (on_value t v). }
  rewrite Hc. unfold on_value. cbn [fst snd].
  case_decide; [by destruct (on_block_start v s)|]. case_decide; [by destruct (on_block_delta v s)|].
  by repeat (case_decide; [done|]).
Qed.

(** ** One block *)

Definition upd (o : option BlockEntry) (v : Json) : option BlockEntry * list CompletionEvent :=
  if decide (is_kind "content_block_start" v) then
    let '(e, out) := start_entry (default no_block o) v in (Some e, out)
  else if decide (is_kind "content_block_delta" v) then
    let '(e, out) := delta_entry (default no_block o) v in (Some e, out)
  else (o, match o with Some e => stop_events e | None => [] end).

Definition is_block (v : Json) : Prop :=
  is_kind "content_block_start" v ∨ is_kind "content_block_delta" v ∨ is_kind "content_block_stop" v.

#[global] Instance is_block_dec v : Decision (is_block v).
Proof. unfold is_block. apply _. Defined.

(** The events of the blocks. *)
Definition block_values (vs : list Json) : list Json := filter is_block vs.

Lemma on_value_blocks (s : SseState * list CompletionEvent) v :
  (blocks (on_value s v).1, (on_value s v).2)
  = if decide (is_block v) then keyed index_at upd (blocks s.1, s.2) v else (blocks s.1, s.2).
Proof.
  assert (∀ raw t, blocks (use raw t) = blocks t) as Hu by (by intros [] ?).
  unfold on_value, is_block, keyed, upd. destruct s as [s out]. cbn [fst snd].
  destruct (decide (is_kind "content_block_start" v)) as [H1|H1].
  { rewrite decide_True by auto. unfold on_block_start, with_entry.
    destruct (start_entry _ v) as [e evs]. cbn [fst snd]. done. }
  destruct (decide (is_kind "content_block_delta" v)) as [H2|H2].
  { rewrite decide_True by auto. unfold on_block_delta, with_entry.
    destruct (delta_entry _ v) as [e evs]. cbn [fst snd]. done. }
  destruct (decide (is_kind "content_block_stop" v)) as [H3|H3].
  { rewrite decide_True by auto. unfold on_block_stop. cbn [fst snd]. by rewrite partial_alter_self. }
  rewrite (decide_False (P := _ ∨ _)) by tauto.
  case_decide; [|case_decide; [|done]]; cbn [fst snd]; f_equal; [unfold on_message_delta|apply Hu].
  rewrite Hu. by destruct (x ← get2 "delta" "stop_reason" v; as_str x).
Qed.

Lemma on_values_blocks (vs : list Json) (s : SseState) out :
  let r := foldl on_value (s, out) vs in
  (blocks r.1, r.2) = foldl (keyed index_at upd) (blocks s, out) (block_values vs).
Proof.
  induction vs as [|v vs IH] using rev_ind; [done|]. unfold block_values in *. rewrite foldl_snoc, filter_app.
  cbn zeta. rewrite on_value_blocks. cbn zeta in IH. rewrite IH. rewrite filter_cons, filter_nil.
  case_decide; [by rewrite foldl_snoc|]. by rewrite (right_id_L [] (++)).
Qed.

(** The pieces a delta carries. *)
Definition piece (kind field : string) (v : Json) : str :=
  let delta := default Null (get "delta" v) in
  if decide ((x ← get "type" delta; as_str x) = Some (lit kind)) then str_at field delta else [].

Definition args_of : Json → str := piece "input_json_delta" "partial_json".

Definition text_piece : Json → str := piece "text_delta" "text".

Definition grow (e : BlockEntry) (args text sig : str) : BlockEntry :=
  {| tool_id := tool_id e; tool_name := tool_name e; b_arguments := b_arguments e ++ args; b_started := b_started e;
     is_tool := is_tool e;
     thinking := (λ acc, {| redacted := redacted acc; th_text := th_text acc ++ text;
                            signature := signature acc ++ sig; th_data := th_data acc |}) <$> thinking e |}.

Lemma grow_nil (e : BlockEntry) : grow e [] [] [] = e.
Proof. destruct e as [? ? ? ? ? [[]|]]; unfold grow; simpl; by rewrite !(right_id_L [] (++)). Qed.

Lemma grow_grow (e : BlockEntry) a t g a' t' g' : grow (grow e a t g) a' t' g' = grow e (a ++ a') (t ++ t') (g ++ g').
Proof. destruct e as [? ? ? ? ? [[]|]]; unfold grow; simpl; by rewrite !(assoc_L (++)). Qed.

Lemma push_thinking_grow (e : BlockEntry) t g : push_thinking t g e = grow e [] t g.
Proof. unfold push_thinking, grow. by rewrite (right_id_L [] (++)). Qed.

Lemma push_arguments_grow (e : BlockEntry) a : push_arguments a e = grow e a [] [].
Proof. destruct e as [? ? ? ? ? [[]|]]; unfold push_arguments, grow; simpl; by rewrite ?(right_id_L [] (++)). Qed.

Definition shown (s : str) : list str := if bool_decide (s = []) then [] else [s].

(** Decides equalities of literals. *)
Ltac literals :=
  repeat match goal with
  | |- context [decide (Some (lit ?a) = Some (lit ?b))] =>
      first [rewrite (decide_True_pi (P := Some (lit a) = Some (lit b)) eq_refl)
            |rewrite (decide_False (P := Some (lit a) = Some (lit b))) by decided]
  end.

(** Splits on a field that is read as a text. *)
Ltac field k delta t :=
  match goal with
  | |- context [match ?X with Some _ => _ | None => _ end] =>
      change (str_at k delta) with (default [] X); destruct X as [t|]; simpl
  end.

(** A delta adds its pieces to the entry, and announces its text and its arguments. *)
Lemma delta_entry_spec (e : BlockEntry) (v : Json) :
  delta_entry e v
  = (grow e (args_of v) (piece "thinking_delta" "thinking" v) (piece "signature_delta" "signature" v),
     (TokenDelta <$> shown (text_piece v))
       ++ if b_started e then ToolCallArgsDelta (tool_id e) <$> shown (args_of v) else []).
Proof.
  unfold delta_entry, args_of, text_piece, piece. set (delta := default Null (get "delta" v)).
  set (k := x ← get "type" delta; as_str x). clearbody k.
  assert (grow e [] [] [] = e) as Hnil by apply grow_nil.
  assert (∀ b i, (if b : bool then ToolCallArgsDelta i <$> shown [] else []) = []) as Hnone by (by intros []).
  destruct (decide (k = Some (lit "text_delta"))) as [->|H1].
  { literals. rewrite Hnil, Hnone, (right_id_L [] (++)).
    field "text"%string delta t; [by destruct t|done]. }
  destruct (decide (k = Some (lit "thinking_delta"))) as [->|H2].
  { literals. rewrite Hnone. field "thinking"%string delta t; [by rewrite push_thinking_grow|by rewrite Hnil]. }
  destruct (decide (k = Some (lit "signature_delta"))) as [->|H3].
  { literals. rewrite Hnone. field "signature"%string delta t; [by rewrite push_thinking_grow|by rewrite Hnil]. }
  destruct (decide (k = Some (lit "input_json_delta"))) as [->|H4].
  { literals. field "partial_json"%string delta t; [|rewrite Hnil; by destruct (b_started e)].
    destruct t as [|c t]; simpl; [rewrite Hnil|rewrite push_arguments_grow]; by destruct (b_started e). }
  by rewrite Hnil, Hnone.
Qed.

(** ** A block of the protocol *)

(** A block is opened, carries deltas and is closed. *)
Definition block_shape (l : list Json) (s : Json) (ds : list Json) : Prop :=
  is_kind "content_block_start" s ∧ Forall (is_kind "content_block_delta") ds
  ∧ ∃ e, is_kind "content_block_stop" e ∧ l = s :: ds ++ [e].

Definition content_block (s : Json) : Json := default Null (get "content_block" s).

Definition block_type (s : Json) : option str := x ← get "type" (content_block s); as_str x.

(** What a block is: its call, its thinking. *)
Definition block_call (s : Json) (ds : list Json) : option ToolCall :=
  let id := str_at "id" (content_block s) in
  let name := str_at "name" (content_block s) in
  let args := concat (args_of <$> ds) in
  if decide (block_type s = Some (lit "tool_use") ∧ id ≠ [] ∧ name ≠ [])
  then Some {| tc_id := id; tc_name := name; arguments := if bool_decide (args = []) then lit "{}" else args;
               thought_signature := None |}
  else None.

Definition block_thinking (s : Json) (ds : list Json) : option Json :=
  let text := str_at "thinking" (content_block s) ++ concat (piece "thinking_delta" "thinking" <$> ds) in
  let sig := str_at "signature" (content_block s) ++ concat (piece "signature_delta" "signature" <$> ds) in
  let data := str_at "data" (content_block s) in
  if decide (block_type s = Some (lit "thinking") ∧ sig ≠ []) then
    Some (obj [("type"%string, String_ (lit "thinking")); ("thinking"%string, String_ text);
               ("signature"%string, String_ sig)])
  else if decide (block_type s = Some (lit "redacted_thinking") ∧ data ≠ []) then
    Some (obj [("type"%string, String_ (lit "redacted_thinking")); ("data"%string, String_ data)])
  else None.

Definition first_entry (s : Json) : BlockEntry := (start_entry no_block s).1.

Definition block_entry (s : Json) (ds : list Json) : BlockEntry :=
  grow (first_entry s) (concat (args_of <$> ds)) (concat (piece "thinking_delta" "thinking" <$> ds))
    (concat (piece "signature_delta" "signature" <$> ds)).

Lemma block_entry_call (s : Json) (ds : list Json) : tool_call_of (block_entry s ds) = block_call s ds.
Proof.
  unfold block_entry, first_entry, start_entry, block_call, block_type, tool_call_of. fold (content_block s).
  set (k := x ← get "type" (content_block s); as_str x). clearbody k.
  destruct (decide (k = Some (lit "tool_use"))) as [->|Hk]; cbn [fst].
  - unfold grow. cbn [is_tool tool_id tool_name b_arguments no_block app andb].
    destruct (decide (str_at "id" (content_block s) = [])) as [Hi|Hi].
    { by rewrite (bool_decide_eq_true_2 _ Hi), (decide_False (P := _ ∧ _)) by tauto. }
    destruct (decide (str_at "name" (content_block s) = [])) as [Hn|Hn].
    { rewrite (bool_decide_eq_true_2 _ Hn), (decide_False (P := _ ∧ _)) by tauto. by rewrite andb_false_r. }
    by rewrite (bool_decide_eq_false_2 _ Hi), (bool_decide_eq_false_2 _ Hn), (decide_True (P := _ ∧ _)).
  - rewrite (decide_False (P := _ ∧ _)) by tauto. by case_decide.
Qed.

Lemma block_entry_thinking (s : Json) (ds : list Json) : thinking_of (block_entry s ds) = block_thinking s ds.
Proof.
  unfold block_entry, first_entry, start_entry, block_thinking, block_type, thinking_of. fold (content_block s).
  set (k := x ← get "type" (content_block s); as_str x). clearbody k.
  destruct (decide (k = Some (lit "thinking"))) as [->|H1]; [|destruct (decide (k = Some (lit "redacted_thinking"))) as [->|H2]].
  - literals. rewrite decide_True by auto. cbn [fst grow thinking fmap option_fmap option_map mbind option_bind].
    unfold thinking_block. cbn [redacted th_text signature th_data].
    rewrite (bool_decide_eq_false_2 (Some (lit "thinking") = Some (lit "redacted_thinking"))) by decided.
    set (sig := str_at "signature" (content_block s) ++ _).
    destruct (decide (sig = [])) as [E|E].
    + rewrite (bool_decide_eq_true_2 _ E), !(decide_False (P := _ ∧ _)); [done|by intros [? _]|tauto].
    + by rewrite (bool_decide_eq_false_2 _ E), (decide_True (P := _ ∧ _)).
  - literals. rewrite decide_True by auto. cbn [fst grow thinking fmap option_fmap option_map mbind option_bind].
    unfold thinking_block. cbn [redacted th_text signature th_data].
    rewrite bool_decide_eq_true_2 by done. set (data := str_at "data" (content_block s)).
    rewrite (decide_False (P := _ = Some (lit "thinking") ∧ _)) by (by intros [? _]).
    destruct (decide (data = [])) as [E|E].
    + by rewrite (bool_decide_eq_true_2 _ E), (decide_False (P := _ ∧ _)) by tauto.
    + by rewrite (bool_decide_eq_false_2 _ E), (decide_True (P := _ ∧ _)).
  - rewrite !(decide_False (P := _ ∧ _)) by tauto. case_decide; [done|].
    rewrite decide_False by tauto. done.
Qed.

Lemma kinds_differ a b v : is_kind a v → lit a ≠ lit b → ¬ is_kind b v.
Proof. unfold is_kind. congruence. Qed.

Lemma alone_deltas (e : BlockEntry) out (ds : list Json) :
  Forall (is_kind "content_block_delta") ds →
  foldl (alone upd) (Some e, out) ds
  = (Some (grow e (concat (args_of <$> ds)) (concat (piece "thinking_delta" "thinking" <$> ds))
             (concat (piece "signature_delta" "signature" <$> ds))),
     out ++ (ds ≫= λ d, (delta_entry e d).2)).
Proof.
  induction ds as [|d ds IH] using rev_ind; [simpl; by rewrite grow_nil, (right_id_L [] (++) out)|].
  intros [Hds Hd]%Forall_app. apply Forall_cons in Hd as [Hd _]. rewrite foldl_snoc, IH by done. unfold alone, upd. cbn [fst snd].
  rewrite decide_False by (apply (kinds_differ "content_block_delta"); [done|decided]). rewrite decide_True by done.
  cbn [default Datatypes.id from_option]. rewrite delta_entry_spec. cbn [fst snd]. unfold Datatypes.id.
  rewrite grow_grow, !fmap_app, !concat_app, bind_app, <- (assoc_L (++) out). simpl. rewrite !(right_id_L [] (++)).
  by rewrite delta_entry_spec.
Qed.

Lemma alone_block (l : list Json) (s : Json) (ds : list Json) :
  block_shape l s ds →
  foldl (alone upd) (None, []) l
  = (Some (block_entry s ds),
     (start_entry no_block s).2 ++ (ds ≫= λ d, (delta_entry (first_entry s) d).2) ++ stop_events (first_entry s)).
Proof.
  intros (Hs & Hds & e & He & ->). rewrite app_comm_cons, foldl_snoc. cbn [foldl].
  assert (alone upd (None, []) s = (Some (first_entry s), (start_entry no_block s).2)) as ->.
  { unfold alone, upd, first_entry. cbn [fst default]. rewrite decide_True by done. by destruct (start_entry no_block s). }
  rewrite alone_deltas by done. unfold alone, upd. cbn [fst snd].
  rewrite !decide_False by (apply (kinds_differ "content_block_stop"); [done|decided]). cbn [fst snd].
  by rewrite (assoc_L (++)).
Qed.

Lemma start_entry_call (s : Json) (ds : list Json) c :
  block_call s ds = Some c →
  b_started (first_entry s) = true ∧ is_tool (first_entry s) = true ∧ tool_id (first_entry s) = tc_id c
  ∧ (start_entry no_block s).2 = [ToolCallStart (tc_id c) (tc_name c)]
  ∧ concat (args_of <$> ds) = (if bool_decide (concat (args_of <$> ds) = []) then [] else arguments c)
  ∧ (concat (args_of <$> ds) = [] → arguments c = lit "{}").
Proof.
  unfold block_call, first_entry, start_entry, block_type. fold (content_block s).
  set (k := x ← get "type" (content_block s); as_str x). clearbody k.
  case_decide as H; [|done]. destruct H as (-> & Hi & Hn). intros [= <-]. rewrite decide_True by done. cbn.
  rewrite (bool_decide_eq_false_2 _ Hi), (bool_decide_eq_false_2 _ Hn). cbn. split_and!; try done.
  - by case_bool_decide.
  - intros E. by rewrite bool_decide_eq_true_2.
Qed.

Lemma delta_events_about (e : BlockEntry) (ds : list Json) :
  b_started e = true →
  filter (about (tool_id e)) (ds ≫= λ d, (delta_entry e d).2)
  = ToolCallArgsDelta (tool_id e) <$> (ds ≫= λ d, shown (args_of d)).
Proof.
  intros Hst. induction ds as [|d ds IH]; [done|]. rewrite !bind_cons, filter_app, fmap_app, IH. f_equal.
  rewrite delta_entry_spec. cbn [snd]. rewrite Hst, filter_app. unfold shown.
  by do 2 case_bool_decide; simpl; rewrite ?filter_cons_True by done.
Qed.

(** Only a call has events about it. *)
Lemma block_about (l : list Json) (s : Json) (ds : list Json) i v :
  block_shape l s ds → v ∈ (foldl (alone upd) (None, []) l).2 → about i v →
  ∃ c, block_call s ds = Some c ∧ tc_id c = i.
Proof.
  intros Hl. rewrite (alone_block _ _ _ Hl). cbn [snd]. intros Hv Ha.
  enough (b_started (first_entry s) = true ∧ tool_id (first_entry s) = i) as [Hst Hi].
  { unfold first_entry, start_entry, block_call, block_type in *. fold (content_block s) in *.
    set (k := x ← get "type" (content_block s); as_str x) in *. clearbody k.
    destruct (decide (k = Some (lit "tool_use"))) as [->|Hk]; [|by case_decide].
    cbn in Hst, Hi. apply andb_true_iff in Hst as [H1 H2]. apply negb_true_iff, bool_decide_eq_false in H1, H2.
    rewrite decide_True by done. by eexists. }
  apply elem_of_app in Hv as [Hv|[Hv|Hv]%elem_of_app].
  - unfold first_entry, start_entry in *. fold (content_block s) in *.
    destruct (decide (_ = Some (lit "tool_use"))); [|case_decide; by apply not_elem_of_nil in Hv].
    cbn in *. destruct (negb _ && negb _); [|by apply not_elem_of_nil in Hv].
    apply list_elem_of_singleton in Hv as ->. done.
  - apply list_elem_of_bind in Hv as (d & Hv & _). rewrite delta_entry_spec in Hv. cbn [snd] in Hv.
    apply elem_of_app in Hv as [(t & -> & _)%list_elem_of_fmap|Hv]; [done|].
    destruct (b_started (first_entry s)); [|by apply not_elem_of_nil in Hv].
    apply list_elem_of_fmap in Hv as (t & -> & _). by split.
  - unfold stop_events in Hv. destruct (is_tool (first_entry s)), (b_started (first_entry s)); simpl in Hv;
      try (by apply not_elem_of_nil in Hv). apply list_elem_of_singleton in Hv as ->. by split.
Qed.

(** ** A stream of the protocol *)

Definition opening (l : list Json) : Json := default Null (head l).

Definition deltas_in (l : list Json) : list Json := removelast (tail l).

Lemma shape_parts (l : list Json) s ds : block_shape l s ds → opening l = s ∧ deltas_in l = ds.
Proof. intros (_ & _ & e & _ & ->). split; [done|]. unfold deltas_in. simpl. apply removelast_last. Qed.

Definition at_index {A} (f : Json → list Json → option A) (vs : list Json) (i : N) : option A :=
  f (opening (of_index index_at i vs)) (deltas_in (of_index index_at i vs)).

(** The calls and the thinking of the blocks, in their order. *)
Definition calls_of (vs : list Json) : list ToolCall := omap (at_index block_call vs) (indices index_at vs).

Definition thoughts_of (vs : list Json) : list Json := omap (at_index block_thinking vs) (indices index_at vs).

Definition values_of (from_str : str → option Json) (cs : list (result str ProviderError)) : list Json :=
  block_values (consumed from_str cs).1.

(** The protocol: each block is opened once, carries its deltas and is closed; calls have
    ids of their own. *)
Record conforming (from_str : str → option Json) (cs : list (result str ProviderError)) : Prop := {
  conf_shape : ∀ i, i ∈ indices index_at (values_of from_str cs) →
    ∃ s ds, block_shape (of_index index_at i (values_of from_str cs)) s ds;
  conf_ids : NoDup (tc_id <$> calls_of (values_of from_str cs));
}.

Section Conforming.
Context (from_str : str → option Json) (cs : list (result str ProviderError)).
Context (Hc : conforming from_str cs).

Notation vs := (values_of from_str cs).

Notation run := (foldl (keyed index_at upd) (∅, []) vs).

Lemma block_at i :
  i ∈ indices index_at vs →
  ∃ s ds, block_shape (of_index index_at i vs) s ds
    ∧ (∀ A (f : Json → list Json → option A), at_index f vs i = f s ds).
Proof.
  intros Hi. destruct (conf_shape _ _ Hc i Hi) as (s & ds & Hs). exists s, ds. split; [done|].
  intros A f. unfold at_index. by destruct (shape_parts _ _ _ Hs) as [-> ->].
Qed.

Definition entry_at (i : N) : BlockEntry :=
  block_entry (opening (of_index index_at i vs)) (deltas_in (of_index index_at i vs)).

Lemma in_order_blocks : in_order run.1 = (λ i, (i, entry_at i)) <$> indices index_at vs.
Proof.
  apply in_order_map; [apply indices_sorted|]. intros i. rewrite keyed_entry. case_decide as Hi.
  - destruct (block_at i Hi) as (s & ds & Hs & _). rewrite (alone_block _ _ _ Hs). unfold entry_at.
    by destruct (shape_parts _ _ _ Hs) as [-> ->].
  - rewrite indices_elem in Hi. apply dec_stable in Hi. by rewrite Hi.
Qed.

Lemma omap_entries {A} (g : BlockEntry → option A) (f : Json → list Json → option A) :
  (∀ s ds, g (block_entry s ds) = f s ds) →
  omap (λ p, g p.2) (in_order run.1) = omap (at_index f vs) (indices index_at vs).
Proof.
  intros H. rewrite in_order_blocks. induction (indices index_at vs) as [|i l IH]; [done|]. rewrite fmap_cons.
  simpl. unfold entry_at at 1. rewrite H. fold (at_index f vs i). destruct (at_index f vs i); [by f_equal|done].
Qed.

Lemma call_index i j c c' :
  i ∈ indices index_at vs → j ∈ indices index_at vs →
  at_index block_call vs i = Some c → at_index block_call vs j = Some c' → tc_id c = tc_id c' → i = j.
Proof.
  pose proof (conf_ids _ _ Hc) as Hnd. unfold calls_of in Hnd. revert Hnd.
  induction (indices index_at vs) as [|k l IH]; [by intros _ ?%not_elem_of_nil|].
  intros Hnd Hi Hj Ei Ej Eid. apply elem_of_cons in Hi, Hj. simpl in Hnd.
  assert (∀ m d, m ∈ l → at_index block_call vs m = Some d → tc_id d ∈ tc_id <$> omap (at_index block_call vs) l) as Hin.
  { intros m d Hm Ed. apply list_elem_of_fmap_2, list_elem_of_omap. by exists m. }
  destruct Hi as [->|Hi], Hj as [->|Hj]; [done| | |].
  - rewrite Ei in Hnd. simpl in Hnd. apply NoDup_cons in Hnd as [Hn _]. destruct Hn. rewrite Eid. by eapply Hin.
  - rewrite Ej in Hnd. simpl in Hnd. apply NoDup_cons in Hnd as [Hn _]. destruct Hn. rewrite <- Eid. by eapply Hin.
  - apply IH; try done. destruct (at_index block_call vs k); simpl in Hnd; [by apply NoDup_cons in Hnd as [_ Hnd]|done].
Qed.

(** The events of a call, whatever comes in between. *)
Lemma call_announced i c :
  i ∈ indices index_at vs → at_index block_call vs i = Some c → announces run.2 c.
Proof.
  intros Hi Ec. destruct (block_at i Hi) as (s & ds & Hs & Hat). rewrite Hat in Ec.
  destruct (start_entry_call s ds c Ec) as (Hst & Htool & Hid & Hstart & Hargs & Hnil).
  exists (ds ≫= λ d, shown (args_of d)). split.
  - rewrite (keyed_events index_at upd _ i).
    + rewrite (alone_block _ _ _ Hs). cbn [snd]. rewrite Hstart, !filter_app, filter_cons_True by done.
      rewrite filter_nil, <- app_comm_cons. f_equal. cbn [app]. f_equal.
      * rewrite <- Hid. by apply delta_events_about.
      * unfold stop_events. rewrite Htool, Hst, Hid. simpl. by rewrite filter_cons_True.
    + intros j pre d post Hj Ej. apply Forall_forall. intros v Hv Ha. apply Hj.
      assert (j ∈ indices index_at vs) as Hji by (apply indices_elem; rewrite Ej; by destruct pre).
      destruct (block_at j Hji) as (s' & ds' & Hs' & Hat').
      destruct (block_about _ s' ds' (tc_id c) v Hs') as (c' & Ec' & Eid); [|done|].
      { rewrite Ej. by apply alone_announces. }
      eapply (call_index j i c' c); try done; by rewrite ?Hat, ?Hat'.
  - assert (concat (ds ≫= λ d, shown (args_of d)) = concat (args_of <$> ds)) as ->.
    { clear. induction ds as [|d ds IH]; [done|]. rewrite bind_cons, fmap_cons, concat_app, IH. simpl. f_equal. unfold shown.
      case_bool_decide as E; simpl; by rewrite ?E, ?(right_id_L [] (++)). }
    destruct (decide (concat (args_of <$> ds) = [])) as [E|E]; [right; by split; [|apply Hnil]|left].
    by rewrite Hargs, (bool_decide_eq_false_2 _ E).
Qed.
End Conforming.

(** ** The text and the reason *)

Definition reason_of (v : Json) : option str :=
  if decide (is_kind "message_delta" v) then x ← get2 "delta" "stop_reason" v; as_str x else None.

Definition text_at (v : Json) : str := if decide (is_kind "content_block_delta" v) then text_piece v else [].

Lemma use_finish raw s : s_finish (use raw s) = s_finish s.
Proof. by destruct raw. Qed.

Lemma on_value_finish s v :
  s_finish (on_value s v).1 = match reason_of v with Some r => stop_reason r | None => s_finish s.1 end.
Proof.
  unfold on_value, reason_of.
  destruct (decide (is_kind "message_delta" v)) as [E|E].
  - rewrite !decide_False by (apply (kinds_differ "message_delta"); [done|decided]). cbn [fst].
    unfold on_message_delta. rewrite use_finish. by destruct (x ← get2 "delta" "stop_reason" v; as_str x).
  - unfold on_block_start, on_block_delta, with_entry, on_message_start.
    case_decide; [by destruct (start_entry _ v)|]. case_decide; [by destruct (delta_entry _ v)|].
    case_decide; [done|]. case_decide; [apply use_finish|done].
Qed.

Lemma start_entry_text e v : text_of (start_entry e v).2 = [].
Proof. unfold start_entry. repeat (case_decide; simpl; try done). by destruct (negb _ && negb _). Qed.

Lemma shown_text (s : str) : text_of (TokenDelta <$> shown s) = s.
Proof. unfold shown. case_bool_decide as E; simpl; [by rewrite E|]. unfold text_of. simpl. by rewrite (right_id_L [] (++)). Qed.

Lemma args_text i (l : list str) : text_of (ToolCallArgsDelta i <$> l) = [].
Proof. by induction l. Qed.

Lemma on_value_text s v : text_of (on_value s v).2 = text_of s.2 ++ text_at v.
Proof.
  unfold on_value, text_at.
  destruct (decide (is_kind "content_block_delta" v)) as [E|E].
  - rewrite decide_False by (apply (kinds_differ "content_block_delta"); [done|decided]).
    unfold on_block_delta, with_entry. rewrite delta_entry_spec. cbn [snd]. rewrite !text_of_app, shown_text.
    set (e := default _ _). assert (text_of (if b_started e then ToolCallArgsDelta (tool_id e) <$> shown (args_of v) else []) = []) as ->
      by (destruct (b_started e); [apply args_text|done]). by rewrite (right_id_L [] (++)).
  - rewrite (right_id_L [] (++)). unfold on_block_start, with_entry, on_block_stop.
    case_decide.
    { pose proof (start_entry_text (default no_block (blocks s.1 !! index_at v)) v) as Hno.
      destruct (start_entry _ v). simpl in *. by rewrite text_of_app, Hno, (right_id_L [] (++)). }
    case_decide; [|by repeat case_decide]. cbn [snd]. rewrite text_of_app. unfold stop_events.
    destruct (blocks s.1 !! index_at v) as [e|]; [destruct (is_tool e && b_started e)|]; apply (right_id_L [] (++)).
Qed.

Lemma on_values_read (vs : list Json) (r := foldl on_value (no_state, []) vs) :
  (blocks r.1, r.2) = foldl (keyed index_at upd) (∅, []) (block_values vs)
  ∧ s_finish r.1 = default Stop (stop_reason <$> last (omap reason_of vs))
  ∧ text_of r.2 = concat (text_at <$> vs).
Proof.
  split; [apply on_values_blocks|]. subst r. induction vs as [|v vs [IHf IHt]] using rev_ind; [done|].
  rewrite foldl_snoc, on_value_finish, on_value_text, last_omap_snoc, fmap_app, concat_app, IHf, IHt. simpl.
  rewrite (right_id_L [] (++)). by destruct (reason_of v).
Qed.

Lemma completed_blocks from_str kind cs fin :
  conforming from_str cs → outcome (read_stream from_str kind cs) = Ok fin →
  final_calls fin = calls_of (values_of from_str cs)
  ∧ final_thinking fin = (if bool_decide (kind = KimiCoding) then [] else thoughts_of (values_of from_str cs))
  ∧ finish_reason fin = default Stop (stop_reason <$> last (omap reason_of (consumed from_str cs).1))
  ∧ events (read_stream from_str kind cs) = (foldl (keyed index_at upd) (∅, []) (values_of from_str cs)).2.
Proof.
  intros Hc. unfold read_stream. rewrite read_values_consumed.
  pose proof (omap_entries from_str cs Hc tool_call_of block_call block_entry_call) as Hcalls.
  pose proof (omap_entries from_str cs Hc thinking_of block_thinking block_entry_thinking) as Hthink.
  unfold values_of in *. destruct (on_values_read (consumed from_str cs).1) as (Hb & Hf & _).
  destruct (consumed from_str cs) as [vs [e|]]; [done|]. cbn [fst] in *.
  destruct (foldl on_value _ vs) as [s out]. cbn [fst snd] in *. rewrite <- Hb in Hcalls, Hthink |- *.
  cbn [fst snd] in *. unfold completed. cbn. intros [= <-]. cbn. split_and!; try done.
  case_bool_decide; [done|exact Hthink].
Qed.

(** What the API streams in pieces is put together again: a stream that keeps the
    protocol ends in a completion with the calls of its tool blocks, each with all its
    arguments ([{}] where there are none), the thinking blocks with their whole text and
    signature, both in the order of the blocks, and the last stop reason; the text shown is
    all the text, and a stream that fails ends with its failure. *)
Theorem blocks_assembled (from_str : str → option Json) (kind : ProviderKind) (cs : list (result str ProviderError)) :
  conforming from_str cs →
  let '(vs, e) := consumed from_str cs in
  text_of (events (read_stream from_str kind cs)) = concat (text_at <$> vs)
  ∧ match e with
    | Some e => outcome (read_stream from_str kind cs) = Err e
    | None => ∃ fin, outcome (read_stream from_str kind cs) = Ok fin
        ∧ final_calls fin = calls_of (block_values vs)
        ∧ final_thinking fin = (if bool_decide (kind = KimiCoding) then [] else thoughts_of (block_values vs))
        ∧ finish_reason fin = default Stop (stop_reason <$> last (omap reason_of vs))
    end.
Proof.
  intros Hc. pose proof (completed_blocks from_str kind cs) as H. unfold values_of in H. revert H.
  unfold read_stream. rewrite read_values_consumed. destruct (on_values_read (consumed from_str cs).1) as (_ & _ & Ht).
  destruct (consumed from_str cs) as [vs [e|]]; intros H; cbn [fst] in *; [done|].
  split; [done|]. eexists. split; [done|]. edestruct H as (? & ? & ? & _); done.
Qed.

#[global] Instance anthropic_adapter (from_str : str → option Json) (kind : ProviderKind) :
  Adapter (conforming from_str) (read_stream from_str kind).
Proof.
  split; intros cs fin Hc (Hcalls & _ & _ & Hev)%(completed_blocks _ _ _ _ Hc); rewrite Hcalls.
  - apply (conf_ids _ _ Hc).
  - rewrite Hev. apply Forall_forall. intros c (i & Hi & E)%list_elem_of_omap. by eapply call_announced.
Qed.

(** ** Tool calls on the wire *)

Definition block_field (kind field : string) (b : Json) : option str :=
  if decide ((x ← get "type" b; as_str x) = Some (lit kind)) then x ← get field b; as_str x else None.

Definition content_of (v : Json) : list Json := default [] (x ← get "content" v; as_array x).

(** The calls a message makes and the results it brings. *)
Definition uses (v : Json) : list str := omap (block_field "tool_use" "id") (content_of v).

Definition results (v : Json) : list str := omap (block_field "tool_result" "tool_use_id") (content_of v).

Fixpoint results_run (l : list Json) : list str :=
  match l with
  | [] => []
  | v :: l => if bool_decide (results v = []) then [] else results v ++ results_run l
  end.

(** What the API accepts: a message has content, each call is answered by the results that
    follow it at once, and results answer calls of the message they follow. *)
Fixpoint wire_paired (open_ids : list str) (l : list Json) : Prop :=
  match l with
  | [] => True
  | v :: l =>
      content_of v ≠ []
      ∧ if decide (str_at "role" v = lit "assistant") then
          Forall (λ id, id ∈ results_run l) (uses v) ∧ wire_paired (uses v) l
        else if bool_decide (results v = []) then wire_paired [] l
        else Forall (λ id, id ∈ open_ids) (results v) ∧ wire_paired open_ids l
  end.

(** Stored thinking blocks are no calls. *)
Definition thinks (m : ChatMessage) : Prop :=
  Forall (λ b, block_field "tool_use" "id" b = None) (thinking_blocks m).

Section Wire.
Context (from_str : str → option Json) (supports_vision replay_thinking : bool).

Definition wire (m : ChatMessage) : Json :=
  match role m with
  | Assistant => message "assistant" (assistant_content from_str replay_thinking m)
  | Tool => message "user" [tool_result m]
  | _ => message "user" (user_content m supports_vision)
  end.

Lemma build_messages_wire (l : list ChatMessage) :
  (build_messages from_str supports_vision replay_thinking l).2 = wire <$> filter (λ m, role m ≠ System) l.
Proof.
  unfold build_messages. set (step := build_step _ _ _).
  assert (∀ s, (foldl step s l).2 = s.2 ++ (wire <$> filter (λ m, role m ≠ System) l)) as H.
  { induction l as [|m l IH]; intros s; [symmetry; apply (right_id_L [] (++))|]. simpl. rewrite IH, filter_cons.
    unfold step, build_step, wire. destruct (role m) eqn:E; cbn [snd]; [by rewrite decide_False by auto|..];
      rewrite decide_True by done; rewrite fmap_cons, E; by rewrite <- (assoc_L (++)). }
  specialize (H ([], [])). by destruct (foldl step ([], []) l).
Qed.

Lemma message_parts r (bs : list Json) :
  str_at "role" (message r bs) = lit r ∧ content_of (message r bs) = bs.
Proof. split; reflexivity. Qed.

Lemma omap_none {A B} (f : A → option B) (l : list A) : Forall (λ x, f x = None) l → omap f l = [].
Proof. induction 1 as [|x l Hx _ IH]; simpl; [done|]. by rewrite Hx. Qed.

Lemma tool_use_uses (tcs : list ToolCall) : omap (block_field "tool_use" "id") (tool_use from_str <$> tcs) = tc_id <$> tcs.
Proof. rewrite omap_fmap. induction tcs as [|tc tcs IH]; [done|]. rewrite fmap_cons, <- IH. reflexivity. Qed.

Lemma wire_assistant (m : ChatMessage) :
  role m = Assistant → thinks m →
  str_at "role" (wire m) = lit "assistant" ∧ content_of (wire m) ≠ [] ∧ uses (wire m) = tc_id <$> tool_calls m.
Proof.
  intros Hr Ht. unfold wire, uses. rewrite Hr. destruct (message_parts "assistant" (assistant_content from_str replay_thinking m)) as [-> ->].
  split; [done|]. unfold assistant_content. set (text := if bool_decide (content m = []) then [] else _).
  set (bs := _ ++ text ++ _). split; [by destruct (decide (bs = [])) as [E|E]; [rewrite bool_decide_eq_true_2|rewrite bool_decide_eq_false_2]|].
  assert (omap (block_field "tool_use" "id") bs = tc_id <$> tool_calls m) as E.
  { subst bs. rewrite !omap_app, tool_use_uses.
    rewrite (omap_none (A := Json) (B := str) _ (if replay_thinking then thinking_blocks m else [])) by (destruct replay_thinking; [exact Ht|constructor]).
    assert (omap (block_field "tool_use" "id") text = []) as -> by (subst text; by case_bool_decide). done. }
  destruct (decide (bs = [])) as [Eb|Eb]; [rewrite bool_decide_eq_true_2 by done|by rewrite bool_decide_eq_false_2].
  rewrite <- E, Eb. reflexivity.
Qed.

Lemma wire_tool (m : ChatMessage) id :
  role m = Tool → tool_call_id m = Some id →
  str_at "role" (wire m) ≠ lit "assistant" ∧ content_of (wire m) ≠ [] ∧ results (wire m) = [id].
Proof. intros Hr Hid. unfold wire, tool_result. rewrite Hr, Hid. split_and!; [decided|done|reflexivity]. Qed.

Lemma wire_user (m : ChatMessage) :
  role m = User → str_at "role" (wire m) ≠ lit "assistant" ∧ content_of (wire m) ≠ [] ∧ results (wire m) = [].
Proof.
  intros Hr. unfold wire, results. rewrite Hr. destruct (message_parts "user" (user_content m supports_vision)) as [-> ->].
  split; [decided|]. unfold user_content. destruct (supports_vision && _) eqn:Ev; [|by split].
  apply andb_true_iff in Ev as [_ Hi]. apply negb_true_iff, bool_decide_eq_false in Hi.
  split; [by destruct (images m), (bool_decide (content m = []))|]. rewrite omap_app, omap_fmap.
  rewrite (omap_none _ (images m)) by (apply Forall_forall; by intros).
  by case_bool_decide.
Qed.

Notation sent l := (wire <$> filter (λ m, role m ≠ System) l).

Lemma sent_cons m l : role m ≠ System → sent (m :: l) = wire m :: sent l.
Proof. intros H. by rewrite filter_cons_True. Qed.

Lemma run_answers (l : list ChatMessage) id : id ∈ omap tool_call_id (tool_run l) → ∀ a, paired_from a l → id ∈ results_run (sent l).
Proof.
  induction l as [|m l IH]; simpl; [by intros ?%not_elem_of_nil|]. unfold Transcript.is_tool. case_bool_decide as Hr; [|by intros ?%not_elem_of_nil].
  intros Hin a. rewrite Hr. intros [(i & Hi & _) Hl]. rewrite sent_cons by (by rewrite Hr). simpl in Hin |- *.
  rewrite Hi in Hin. destruct (wire_tool m i Hr Hi) as (_ & _ & Hres). rewrite Hres, bool_decide_eq_false_2 by done.
  apply elem_of_cons in Hin as [->|Hin]; [left|right]. by eapply IH.
Qed.

Lemma sent_paired (l : list ChatMessage) a b :
  paired_from a l → Forall thinks l → a ⊆ b → wire_paired b (sent l).
Proof.
  revert a b. induction l as [|m l IH]; intros a b Hp Ht Hab; [done|]. apply Forall_cons in Ht as [Hm Ht].
  simpl in Hp. destruct (role m) eqn:Hr.
  - rewrite filter_cons_False by (rewrite Hr; auto). apply (IH [] b); [done..|set_solver].
  - rewrite sent_cons by (by rewrite Hr). destruct (wire_user m Hr) as (Hrole & Hc & Hres). simpl.
    rewrite decide_False by done. rewrite Hres. split; [done|]. simpl. by apply (IH []).
  - rewrite sent_cons by (by rewrite Hr). destruct (wire_assistant m Hr Hm) as (Hrole & Hc & Hu). simpl.
    rewrite decide_True by done. rewrite Hu. destruct Hp as [Hall Hp]. split; [done|]. split; [|by eapply IH].
    apply Forall_fmap. eapply Forall_impl; [exact Hall|]. intros tc Hin. by eapply run_answers.
  - rewrite sent_cons by (by rewrite Hr). destruct Hp as [(i & Hi & Hia) Hp].
    destruct (wire_tool m i Hr Hi) as (Hrole & Hc & Hres). simpl. rewrite decide_False by done.
    rewrite Hres, bool_decide_eq_false_2 by done. split; [done|]. split; [|by eapply IH].
    apply Forall_singleton. by apply Hab.
Qed.
End Wire.

(** C32: The messages of a repaired transcript are what the Messages API accepts: none is
    empty, every [tool_use] is answered by the [tool_result]s right behind it, and no
    result stands where its call is not; system messages become the system prompt and leave
    no gap. *)
Theorem messages_accepted (from_str : str → option Json) (supports_vision replay_thinking : bool) (l : list ChatMessage) :
  well_paired l → Forall thinks l →
  wire_paired [] (build_messages from_str supports_vision replay_thinking l).2.
Proof. intros Hp Ht. rewrite build_messages_wire. by apply (sent_paired _ _ _ l [] []). Qed.

(** ** Samples *)

Module Samples.

Definition s_ (s : string) : Json := String_ (lit s).

Definition event (kind : string) (i : N) (fields : list (string * Json)) : Json :=
  obj ([("type"%string, s_ kind); ("index"%string, nat_json i)] ++ fields).

(** A thinking block and a call, their events mixed. *)
Definition an_answer : list Json :=
  [event "content_block_start" 0 [("content_block"%string, obj [("type"%string, s_ "thinking")])];
   event "content_block_start" 1 [("content_block"%string,
     obj [("type"%string, s_ "tool_use"); ("id"%string, s_ "c1"); ("name"%string, s_ "pods_list")])];
   event "content_block_delta" 0 [("delta"%string, obj [("type"%string, s_ "thinking_delta"); ("thinking"%string, s_ "hm")])];
   event "content_block_delta" 1 [("delta"%string, obj [("type"%string, s_ "input_json_delta"); ("partial_json"%string, s_ "{")])];
   event "content_block_delta" 0 [("delta"%string, obj [("type"%string, s_ "signature_delta"); ("signature"%string, s_ "sig")])];
   event "content_block_stop" 0 [];
   event "content_block_delta" 1 [("delta"%string, obj [("type"%string, s_ "input_json_delta"); ("partial_json"%string, s_ "}")])];
   event "content_block_stop" 1 []].

(** The data of an event names its place. *)
Definition sample_from_str (s : str) : option Json :=
  match s with [c] => an_answer !! N.to_nat (c - 48) | _ => None end.

Definition sample_stream : list (result str ProviderError) :=
  (λ n, Ok [(48 + N.of_nat n)%N]) <$> seq 0 8.

Definition thinking_body (budget max : N) : Json :=
  obj [("thinking"%string, obj [("type"%string, s_ "enabled"); ("budget_tokens"%string, nat_json budget)]);
       ("temperature"%string, Json.Number (lit "0.5")); ("max_tokens"%string, nat_json max)].

Definition asked : list ChatMessage :=
  [plain System (lit "be brief"); plain User (lit "pods?");
   {| role := Assistant; content := []; tool_call_id := None; msg_name := None;
      tool_calls := [{| tc_id := lit "c1"; tc_name := lit "pods_list"; arguments := lit "{}"; thought_signature := None |}];
      reasoning_content := None; images := [];
      thinking_blocks := [obj [("type"%string, s_ "thinking"); ("thinking"%string, s_ "hm"); ("signature"%string, s_ "sig")]] |};
   {| role := Tool; content := lit "three"; tool_calls := []; tool_call_id := Some (lit "c1");
      msg_name := Some (lit "pods_list"); reasoning_content := None; thinking_blocks := []; images := [] |}].

End Samples.

Import Samples.

Lemma sample_conforms : conforming sample_from_str sample_stream.
Proof.
  split; [|apply (bool_decide_unpack _); vm_compute; exact I]. intros i Hi.
  assert (i = 0%N ∨ i = 1%N) as [-> | ->].
  { assert (indices index_at (values_of sample_from_str sample_stream) = [0%N; 1%N]) as E by reflexivity.
    rewrite E in Hi. set_solver. }
  all: match goal with |- ∃ s ds, block_shape ?l s ds => exists (opening l), (deltas_in l); pose (e := default Null (last l)) end.
  all: split; [reflexivity|split; [|exists e; split; [reflexivity|vm_compute; reflexivity]]].
  all: apply (bool_decide_unpack _); vm_compute; exact I.
Qed.

Lemma blocks_assembled_witness :
  ∃ fin, outcome (read_stream sample_from_str Anthropic sample_stream) = Ok fin
    ∧ tc_id <$> final_calls fin = [lit "c1"] ∧ length (final_thinking fin) = 1.
Proof.
  pose proof (blocks_assembled sample_from_str Anthropic sample_stream sample_conforms) as H.
  destruct (consumed _ _) as [vs e] eqn:E. vm_compute in E. injection E as <- <-.
  destruct H as (_ & fin & Hout & Hcalls & Hthink & _). exists fin. rewrite Hcalls, Hthink. split; [exact Hout|split; reflexivity].
Defined.

Lemma thinking_fits_witness :
  ∃ b mx, (t ← get2 "thinking" "budget_tokens" (fit_thinking (thinking_body 30000 8192) (Some 16000%N)); as_u64 t) = Some b
    ∧ (t ← get "max_tokens" (fit_thinking (thinking_body 30000 8192) (Some 16000%N)); as_u64 t) = Some mx
    ∧ (b < mx ≤ 16000)%N.
Proof.
  destruct (thinking_fits (thinking_body 30000 8192) (Some 16000%N) 30000 eq_refl eq_refl) as (b & mx & Hb & Hmx & Hlt & _ & _ & Hroom & _).
  - intros o [= <-]. unfold u32_max. lia.
  - exists b, mx. split_and!; [exact Hb|exact Hmx|lia|].
    destruct Hroom as [_ H]; [vm_compute; discriminate|exact H].
Defined.

Lemma messages_accepted_witness :
  wire_paired [] (build_messages sample_from_str true true asked).2
  ∧ length (build_messages sample_from_str true true asked).2 = 3.
Proof.
  split; [|reflexivity]. apply messages_accepted.
  - split; [constructor; [left|constructor]|]. split; [exists (lit "c1"); split; [reflexivity|left]|exact I].
  - repeat constructor.
Defined.

(** An output limit below the least budget: the budget is above it. *)
Lemma budget_above_limit :
  let body := fit_thinking (thinking_body 4000 1000) (Some 1000%N) in
  (t ← get2 "thinking" "budget_tokens" body; as_u64 t) = Some 1024%N
  ∧ (t ← get "max_tokens" body; as_u64 t) = Some 1025%N.
Proof. split; reflexivity. Qed.

(** A gateway that cannot be reached lists no models, and no error. *)
Lemma unreachable_gateway_lists_nothing decode e : list_models decode (Err e) [] [] = Ok [].
Proof. reflexivity. Qed.
