(* ===== verification/GeminiSchema.v ===== *)
(** * Tool schemas for Gemini (agent/src/provider/gemini_schema.rs)

    JSON Schema into Gemini's dialect: references inlined, the schema sanitized, its keys
    picked, the result repaired ([convert]).

    A node is walked through the places a schema can stand.  Inlining is bounded by the
    code's own depth.  [sanitize] calls itself once more on the members it makes of a list
    of types; such a member has one type and sanitized parts, from which no more members
    come, so two layers are the whole recursion ([sanitize_unfold]).  [repair] edits a node
    and then goes into its parts; here the parts are repaired first, which the edits, that
    look only at which keys are there, do not notice.  serde_json's printing of a value that
    is no scalar is an argument. *)

From S2P Require Import Prelude Json.

Definition s_ (s : string) : Json := String_ (lit s).

Definition has (k : string) (o : Map) : bool := bool_decide (is_Some (map_get (lit k) o)).

Definition key_in (k : str) (l : list string) : bool := bool_decide (k ∈ lit <$> l).

Definition INTENT_KEYS : list string :=
  ["type"; "properties"; "items"; "prefixItems"; "enum"; "const"; "$ref"; "additionalProperties";
   "patternProperties"; "required"; "not"; "if"; "then"; "else"]%string.

Definition COMBINERS : list string := ["anyOf"; "oneOf"; "allOf"]%string.

Definition MAX_REF_DEPTH : nat := 8.

Definition is_array (v : option Json) : bool := match v with Some (Array _) => true | _ => false end.

Definition has_combiner (o : Map) : bool := existsb (λ k, is_array (map_get (lit k) o)) COMBINERS.

Definition has_intent (node : Json) : bool :=
  match node with Object o => has_combiner o || existsb (λ k, has k o) INTENT_KEYS | _ => false end.

Definition str_of (k : string) (o : Map) : option str := v ← map_get (lit k) o; as_str v.

Definition put (k : string) (v : Json) (o : Map) : Map := map_insert (lit k) v o.

Definition drop_key (k : string) (o : Map) : Map := map_remove (lit k) o.

Section Schema.
Context (to_string : Json → str).

Definition enum_member_to_string (v : Json) : Json :=
  match v with
  | String_ _ => v
  | Null => s_ "null"
  | Number n => String_ n
  | Bool b => String_ (bool_str b)
  | other => String_ (to_string other)
  end.

(** ** References *)

Definition defs_of (root : Json) : Map :=
  match root with
  | Object o =>
      foldl (λ defs key,
        match map_get (lit key) o with
        | Some (Object d) => foldl (λ defs p, map_insert (lit "#/" ++ lit key ++ lit "/" ++ p.1) p.2 defs) defs d
        | _ => defs
        end) [] ["$defs"; "definitions"]%string
  | _ => []
  end.

Definition generic (node : Map) : Json :=
  Object (match map_get (lit "description") node with
          | Some d => put "description" d [(lit "type", s_ "object")]
          | None => [(lit "type", s_ "object")]
          end).

(** [inline_ref] and [deref]; [d] references may still be followed. *)
Fixpoint deref (defs : Map) (d : nat) : list str → Json → Json :=
  fix walk (stack : list str) (node : Json) {struct node} : Json :=
    match node with
    | Array items => Array (map (walk stack) items)
    | Object o =>
        let parts := map (λ p, (p.1, walk stack p.2)) o in
        match map_get (lit "$ref") o with
        | Some (String_ target) =>
            match map_get target defs with
            | None => generic o
            | Some def =>
                match d with
                | 0 => generic o
                | S d =>
                    if bool_decide (target ∈ stack) then generic o
                    else match deref defs d (target :: stack) def with
                         | Object r =>
                             Object (foldl (λ r p, map_insert p.1 p.2 r) r (filter (λ p, p.1 ≠ lit "$ref") parts))
                         | other => other
                         end
                end
            end
        | _ => Object parts
        end
    | other => other
    end.

Definition resolve_refs (root : Json) : Json :=
  match deref (defs_of root) MAX_REF_DEPTH [] root with
  | Object o => Object (drop_key "definitions" (drop_key "$defs" o))
  | other => other
  end.

(** ** Sanitizing *)

(** [is_i64() || is_u64()], of a number by the text it prints as *)
Definition is_integer (n : str) : bool :=
  negb (existsb (λ c, (c =? 46)%N || (c =? 101)%N || (c =? 69)%N) n).

Definition infer_type (o : Map) : string :=
  let any := existsb (λ k, has k o) in
  if any ["properties"; "required"; "additionalProperties"; "patternProperties"]%string then "object"
  else if any ["items"; "prefixItems"]%string then "array"
  else if any ["minimum"; "maximum"; "exclusiveMinimum"; "exclusiveMaximum"; "multipleOf"]%string then "number"
  else match map_get (lit "const") o with
       | Some (Bool _) => "boolean"
       | Some (Number n) => if is_integer n then "integer" else "number"
       | Some _ => "string"
       | None =>
           match str_of "format" o with
           | Some f => if key_in f ["int32"; "int64"]%string then "integer"
                       else if key_in f ["float"; "double"]%string then "number" else "string"
           | None => "string"
           end
       end.

Definition SCHEMA_KEYS : list string :=
  ["items"; "additionalProperties"; "not"; "if"; "then"; "else"; "contains"; "propertyNames"]%string.

Definition SCHEMA_LIST_KEYS : list string := ["anyOf"; "oneOf"; "allOf"; "prefixItems"]%string.

Definition SCHEMA_MAP_KEYS : list string :=
  ["properties"; "patternProperties"; "$defs"; "definitions"; "dependentSchemas"]%string.

Definition type_keywords (ty : str) : list string :=
  if decide (ty = lit "object") then ["properties"; "required"; "additionalProperties"; "patternProperties"]%string
  else if decide (ty = lit "array") then ["items"; "prefixItems"; "minItems"; "maxItems"]%string
  else if decide (ty = lit "string") then ["format"; "minLength"; "maxLength"; "pattern"]%string
  else if decide (ty = lit "integer" ∨ ty = lit "number") then ["format"; "minimum"; "maximum"; "multipleOf"]%string
  else [].

(** Enums are string enums. *)
Definition sanitize_enum (o : Map) : Map :=
  let o := match map_get (lit "enum") o with
           | Some (Array members) => put "enum" (Array (map enum_member_to_string members)) o
           | _ => match map_get (lit "const") o with
                  | Some c => put "enum" (Array [enum_member_to_string c]) (drop_key "const" o)
                  | None => o
                  end
           end in
  if is_array (map_get (lit "enum") o)
     && match str_of "type" o with Some t => key_in t ["integer"; "number"; "boolean"]%string | None => false end
  then put "type" (s_ "string") o else o.

(** The keywords of [o] that go to the member of type [t]. *)
Definition member_keys (o : Map) (t : str) : list string :=
  filter (λ k, has k o = true) (type_keywords t ++ if decide (t = lit "string") then ["enum"%string] else []).

Definition member (o : Map) (t : str) : Map :=
  foldl (λ m k, match map_get (lit k) o with Some v => put k v m | None => m end) [(lit "type", String_ t)] (member_keys o t).

(** A list of types becomes an [anyOf] of members with one type each, sanitized by [self]. *)
Definition split_types (self : Json → Json) (o : Map) : Map :=
  match map_get (lit "type") o with
  | Some (Array types) =>
      let has_null := existsb (λ t, bool_decide (as_str t = Some (lit "null"))) types in
      let nullable := λ o, if has_null then put "nullable" (Bool true) o else o in
      match filter (λ t, t ≠ lit "null") (omap as_str types) with
      | [] => put "type" (s_ "null") o
      | non_null =>
          if has "anyOf" o then nullable (drop_key "type" o)
          else
            let o := drop_key "type" o in
            let members := map (λ t, self (Object (member o t))) non_null in
            let o' := foldl (λ o k, drop_key k o) o (non_null ≫= member_keys o) in
            nullable (put "anyOf" (Array members) o')
      end
  | _ => o
  end.

Definition declared (props : Map) (r : Json) : bool :=
  match as_str r with Some s => bool_decide (is_Some (map_get s props)) | None => false end.

Definition sanitize_required (o : Map) : Map :=
  match map_get (lit "properties") o, map_get (lit "required") o with
  | Some (Object props), Some (Array required) =>
      put "required" (Array (filter (λ r, declared props r = true) required)) o
  | _, _ => o
  end.

Definition sanitize_items (o : Map) : Map :=
  let items := match map_get (lit "items") o with None | Some Null => Object [] | Some v => v end in
  put "items" (match items with
               | Object i => if has_intent items then items else Object (put "type" (s_ "string") i)
               | _ => items
               end) (drop_key "items" o).

(** From the node with its parts sanitized. *)
Definition sanitize_node (self : Json → Json) (o : Map) : Map :=
  let o := split_types self (sanitize_enum o) in
  let combiner := has_combiner o in
  let '(o, type_str) :=
    match str_of "type" o with
    | None => if combiner then (o, None) else let t := infer_type o in (put "type" (s_ t) o, Some (lit t))
    | t => (o, t)
    end in
  let o := if bool_decide (type_str = Some (lit "object")) then sanitize_required o else o in
  let o := if bool_decide (type_str = Some (lit "array")) && negb combiner then sanitize_items o else o in
  if match type_str with Some t => bool_decide (t ≠ lit "object") | None => false end && negb combiner
  then drop_key "required" (drop_key "properties" o) else o.

(** The value under [k], its schemas sanitized. *)
Definition sanitize_part (f : Json → Json) (k : str) (v : Json) : Json :=
  if key_in k SCHEMA_KEYS then f v
  else if key_in k SCHEMA_LIST_KEYS then match v with Array a => Array (map f a) | _ => v end
  else if key_in k SCHEMA_MAP_KEYS then match v with Object m => Object (map (λ q, (q.1, f q.2)) m) | _ => v end
  else v.

Fixpoint sanitize_with (self : Json → Json) (node : Json) {struct node} : Json :=
  match node with
  | Array items => Array (map (sanitize_with self) items)
  | Object o => Object (sanitize_node self (map (λ p, (p.1, sanitize_part (sanitize_with self) p.1 p.2)) o))
  | other => other
  end.

Definition sanitize : Json → Json := sanitize_with (sanitize_with (λ v, v)).

(** ** Picking keys *)

Definition truthy_str (v : option Json) : option Json :=
  match v with Some (String_ s) => if bool_decide (s = []) then None else v | _ => v end.

(** [as_f64() == 0.0], of a number by its text: no digit but 0 before the exponent *)
Fixpoint is_zero (n : str) : bool :=
  match n with
  | [] => true
  | c :: n => if (c =? 101)%N || (c =? 69)%N then true
              else if ((49 <=? c) && (c <=? 57))%N then false else is_zero n
  end.

Definition truthy (v : option Json) : bool :=
  match v with
  | None | Some Null => false
  | Some (Bool b) => b
  | Some (String_ s) => negb (bool_decide (s = []))
  | Some (Number n) => negb (is_zero n)
  | Some _ => true
  end.

Definition is_empty_object (o : Map) : bool :=
  bool_decide (str_of "type" o = Some (lit "object"))
  && match map_get (lit "properties") o with Some (Object p) => bool_decide (p = []) | _ => true end
  && negb (truthy (map_get (lit "additionalProperties") o)).

Definition format_allowed (type_str : option str) (format : str) : bool :=
  match type_str with
  | Some t =>
      if decide (t = lit "string") then key_in format ["enum"; "date-time"]%string
      else if decide (t = lit "integer") then key_in format ["int32"; "int64"]%string
      else if decide (t = lit "number") then key_in format ["float"; "double"]%string
      else false
  | None => false
  end.

Definition is_null_schema (v : Json) : bool :=
  match v with Object o => bool_decide (str_of "type" o = Some (lit "null")) | _ => false end.

Definition put_some (k : string) (v : option Json) (o : Map) : Map :=
  match v with Some v => put k v o | None => o end.

Definition is_nullable (o : Map) : bool := bool_decide (map_get (lit "nullable") o = Some (Bool true)).

(** [members] with what each converts to. *)
Definition convert_any_of (out : Map) (members : list (Json * option Json)) : Map :=
  if negb (existsb (λ m, is_null_schema m.1) members) then put "anyOf" (Array (omap snd members)) out
  else
    match filter (λ m, is_null_schema m.1 = false) members with
    | [(_, converted)] =>
        match converted with
        | Some (Object c) => foldl (λ o p, map_insert p.1 p.2 o) (put "nullable" (Bool true) out) c
        | _ => out
        end
    | non_null => put "nullable" (Bool true) (put "anyOf" (Array (omap snd non_null)) out)
    end.

Definition not_null (v : option Json) : option Json := match v with Some Null => None | _ => v end.

(** The keys that say no more than their value. *)
Definition plain_keys (o : Map) : Map :=
  let out := put_some "description" (truthy_str (map_get (lit "description") o)) [] in
  let out := put_some "required" (not_null (map_get (lit "required") o)) out in
  let type_str := str_of "type" o in
  let out := match str_of "format" o with
             | Some f => if format_allowed type_str f then put "format" (String_ f) out else out
             | None => out
             end in
  let out := put_some "enum" ((λ c, Array [c]) <$> map_get (lit "const") o) out in
  let out := put_some "type" (String_ <$> type_str) out in
  let out := put_some "enum" (map_get (lit "enum") o) out in
  if is_nullable o then put "nullable" (Bool true) out else out.

Definition empty_object (o : Map) : Map :=
  let m := put_some "description" (truthy_str (map_get (lit "description") o)) [(lit "type", s_ "object")] in
  if is_nullable o then put "nullable" (Bool true) m else m.

(** A value and what its parts convert to. *)
Inductive Converted : Set :=
  | CValue (v : option Json)
  | CList (l : list (Json * option Json))
  | CMap (m : list (str * option Json)).

Definition named (m : list (str * option Json)) : Map := omap (λ p, (λ v, (p.1, v)) <$> p.2) m.

Definition combined (k : string) (c : option Converted) (out : Map) : Map :=
  match c with Some (CList l) => put k (Array (omap snd l)) out | _ => out end.

(** [to_openapi] of a node, from what its parts convert to. *)
Definition pick (o : Map) (part : string → option Converted) : Map :=
  let out := plain_keys o in
  let out := match part "properties"%string with Some (CMap m) => put "properties" (Object (named m)) out | _ => out end in
  let out := match part "items"%string with
             | Some (CList l) => put "items" (Array (omap snd l)) out
             | Some (CValue v) => put_some "items" v out
             | _ => out
             end in
  let out := combined "allOf" (part "allOf"%string) out in
  let out := match part "anyOf"%string with Some (CList l) => convert_any_of out l | _ => out end in
  let out := combined "oneOf" (part "oneOf"%string) out in
  put_some "minLength" (map_get (lit "minLength") o) out.

Fixpoint part_get (k : str) (l : list (str * Converted)) : option Converted :=
  match l with [] => None | p :: l => if decide (p.1 = k) then Some p.2 else part_get k l end.

(** What the schemas under [k] convert to. *)
Definition convert_part (f : Json → option Json) (k : str) (v : Json) : Converted :=
  if key_in k ["properties"]%string then match v with Object m => CMap (map (λ q, (q.1, f q.2)) m) | _ => CValue None end
  else if key_in k ["items"; "anyOf"; "oneOf"; "allOf"]%string then
    match v with Array a => CList (map (λ v, (v, f v)) a) | _ => CValue (f v) end
  else CValue None.

Fixpoint to_openapi (node : Json) (is_root : bool) {struct node} : option Json :=
  match node with
  | Bool allowed => if allowed then Some (obj [("type"%string, s_ "string")]) else None
  | Object o =>
      if is_empty_object o then if is_root then None else Some (Object (empty_object o))
      else
        let parts := map (λ p, (p.1, convert_part (λ v, to_openapi v false) p.1 p.2)) o in
        Some (Object (pick o (λ k, part_get (lit k) parts)))
  | _ => None
  end.

(** ** The repair *)

Definition repair_enum (o : Map) : Map :=
  match map_get (lit "enum") o with
  | Some (Array members) => put "type" (s_ "string") (put "enum" (Array (map enum_member_to_string members)) o)
  | _ => o
  end.

Definition cut_required (o : Map) : Map :=
  match map_get (lit "required") o with
  | Some (Array req) =>
      match map_get (lit "properties") o with
      | Some (Object p) => put "required" (Array (filter (λ r, declared p r = true) req)) o
      | _ => put "required" (Array []) o
      end
  | _ => o
  end.

Definition repair_required (o : Map) : Map :=
  let none := match map_get (lit "properties") o with Some (Object _) => false | _ => true end in
  let o := cut_required o in
  if none && bool_decide (map_get (lit "required") o = Some (Array [])) then drop_key "required" o else o.

Definition repair_type (o : Map) : Map :=
  if negb (has "type" o) && negb (has_combiner o) then put "type" (s_ "string") o else o.

Definition repair_items (ty : option str) (o : Map) : Map :=
  if bool_decide (ty = Some (lit "array")) && match map_get (lit "items") o with None | Some Null => true | _ => false end
  then put "items" (obj [("type"%string, s_ "string")]) o else o.

Definition repair_scalar (ty : option str) (combiner : bool) (o : Map) : Map :=
  if match ty with Some t => bool_decide (t ≠ lit "object") | None => false end && negb combiner
  then drop_key "required" (drop_key "properties" o) else o.

Definition repair_format (ty : option str) (o : Map) : Map :=
  match str_of "format" o with
  | Some f => if format_allowed ty f then o else drop_key "format" o
  | None => o
  end.

(** From the node with its parts repaired. *)
Definition repair_node (o : Map) : Map :=
  let combiner := has_combiner o in
  let o := repair_enum (repair_type o) in
  let ty := str_of "type" o in
  repair_required (repair_format ty (repair_scalar ty combiner (repair_items ty o))).

(** The value under [k], its schemas repaired. *)
Definition repair_part (f : Json → Json) (k : str) (v : Json) : Json :=
  if key_in k ["properties"]%string then match v with Object m => Object (map (λ q, (q.1, f q.2)) m) | _ => v end
  else if key_in k ["items"]%string then match v with Array a => Array (map f a) | _ => f v end
  else if key_in k COMBINERS then match v with Array a => Array (map f a) | _ => v end
  else v.

Fixpoint repair (node : Json) : Json :=
  match node with
  | Object o => Object (repair_node (map (λ p, (p.1, repair_part repair p.1 p.2)) o))
  | other => other
  end.

(** ** convert *)

Definition convert (schema : Json) : option Json :=
  match schema with
  | Object o =>
      if negb (has_intent schema) && negb (has_combiner o) then None
      else
        out ← to_openapi (sanitize (resolve_refs schema)) true;
        let out := repair out in
        if bool_decide ((t ← get "type" out; as_str t) = Some (lit "object")) then Some out else None
  | _ => None
  end.

(** ** The recursion of sanitize *)

(** The schemas under [k]. *)
Definition part_all (P : Json → bool) (k : str) (v : Json) : bool :=
  if key_in k SCHEMA_KEYS then P v
  else if key_in k SCHEMA_LIST_KEYS then match v with Array a => forallb P a | _ => true end
  else if key_in k SCHEMA_MAP_KEYS then match v with Object m => forallb (λ q, P q.2) m | _ => true end
  else true.

(** No node has a list of types. *)
Fixpoint plain (node : Json) : bool :=
  match node with
  | Array l => forallb plain l
  | Object o => negb (is_array (map_get (lit "type") o)) && forallb (λ p, part_all plain p.1 p.2) o
  | _ => true
  end.

Definition parts_plain (o : Map) : Prop := Forall (λ p, part_all plain p.1 p.2 = true) o.

Lemma plain_object (o : Map) : plain (Object o) = true ↔ is_array (map_get (lit "type") o) = false ∧ parts_plain o.
Proof. simpl. rewrite andb_true_iff, negb_true_iff. unfold parts_plain. by rewrite forallb_Forall. Qed.

(** A part that is no schema. *)
Lemma part_all_other (P : Json → bool) (k : string) (v : Json) :
  (k ∉ SCHEMA_KEYS ++ SCHEMA_LIST_KEYS ++ SCHEMA_MAP_KEYS) → part_all P (lit k) v = true.
Proof.
  rewrite !not_elem_of_app. intros (H1 & H2 & H3). unfold part_all, key_in.
  rewrite !bool_decide_eq_false_2; [done|..]; intros (k' & E%(inj lit) & Hk')%list_elem_of_fmap; by subst.
Qed.

Lemma parts_put (k : string) (v : Json) (o : Map) :
  part_all plain (lit k) v = true → parts_plain o → parts_plain (put k v o).
Proof. intros Hv Ho. by apply map_insert_Forall. Qed.

Lemma parts_put_other (k : string) (v : Json) (o : Map) :
  (k ∉ SCHEMA_KEYS ++ SCHEMA_LIST_KEYS ++ SCHEMA_MAP_KEYS) → parts_plain o → parts_plain (put k v o).
Proof. intros Hk. apply parts_put. by apply part_all_other. Qed.

Lemma parts_drop (k : string) (o : Map) : parts_plain o → parts_plain (drop_key k o).
Proof. apply map_remove_Forall. Qed.

Ltac no_schema := apply (bool_decide_unpack _); vm_compute; exact I.

Lemma get_put (k k' : string) (v : Json) (o : Map) :
  map_get (lit k) (put k' v o) = if decide (k' = k) then Some v else map_get (lit k) o.
Proof.
  unfold put. rewrite map_get_insert. destruct (decide (k' = k)) as [->|Hne]; [by rewrite decide_True|].
  rewrite decide_False; [done|]. by intros ?%(inj lit).
Qed.

Lemma get_drop (k k' : string) (o : Map) :
  map_get (lit k) (drop_key k' o) = if decide (k' = k) then None else map_get (lit k) o.
Proof.
  unfold drop_key. rewrite map_get_remove. destruct (decide (k' = k)) as [->|Hne]; [by rewrite decide_True|].
  rewrite decide_False; [done|]. by intros ?%(inj lit).
Qed.

(** What a put or a drop leaves under a key: decided by the keys. *)
Ltac gets := repeat (first [rewrite get_put|rewrite get_drop]; case_decide; simplify_eq; try done).

Lemma drops_parts (ks : list string) (o : Map) : parts_plain o → parts_plain (foldl (λ o k, drop_key k o) o ks).
Proof. revert o. induction ks as [|k ks IH]; intros o Ho; [done|]. simpl. by apply IH, parts_drop. Qed.

Lemma get_drops (ks : list string) (k : string) (o : Map) :
  map_get (lit k) o = None → map_get (lit k) (foldl (λ o k, drop_key k o) o ks) = None.
Proof. revert o. induction ks as [|k' ks IH]; intros o Ho; [done|]. simpl. apply IH. rewrite get_drop. by case_decide. Qed.

Lemma sanitize_enum_parts (o : Map) : parts_plain o → parts_plain (sanitize_enum o).
Proof.
  intros Ho. unfold sanitize_enum.
  assert (∀ v, parts_plain (put "enum" v o)) as H1 by (intros v; apply parts_put_other; [no_schema|done]).
  assert (∀ v, parts_plain (put "enum" v (drop_key "const" o))) as H2.
  { intros v. apply parts_put_other; [no_schema|by apply parts_drop]. }
  set (o1 := match map_get (lit "enum") o with Some (Array members) => _ | _ => _ end).
  assert (parts_plain o1) as Ho1 by (unfold o1; destruct (map_get (lit "enum") o) as [[]|], (map_get (lit "const") o); auto).
  destruct (_ && _); [apply parts_put_other; [no_schema|done]|done].
Qed.

Lemma member_parts (o : Map) (t : str) :
  parts_plain o → plain (Object (member o t)) = true.
Proof.
  intros Ho. unfold member. set (ks := member_keys o t).
  assert (Forall (λ k, k ≠ "type"%string) ks) as Hks.
  { unfold ks, member_keys. apply Forall_forall. intros k [_ Hk]%list_elem_of_filter Et. subst k. revert Hk.
    unfold type_keywords. intros Hk. repeat case_decide; revert Hk; apply (bool_decide_unpack _); vm_compute; exact I. }
  assert (∀ m, map_get (lit "type") m = Some (String_ t) → parts_plain m →
    plain (Object (foldl (λ m k, match map_get (lit k) o with Some v => put k v m | None => m end) m ks)) = true) as H.
  { induction Hks as [|k ks' Hk _ IH]; intros m Hm Hp; [cbn [foldl]; apply plain_object; by rewrite Hm|]. cbn [foldl].
    apply IH; (destruct (map_get (lit k) o) as [v|] eqn:Hv; [|done]).
    - by rewrite get_put, decide_False.
    - apply parts_put; [|done]. exact (map_get_Forall _ _ _ _ Ho Hv). }
  apply H; [done|]. constructor; [|constructor]. by apply part_all_other; no_schema.
Qed.

Lemma split_types_plain (self : Json → Json) (o : Map) :
  parts_plain o → (∀ v, plain v = true → plain (self v) = true) → plain (Object (split_types self o)) = true.
Proof.
  intros Ho Hself. unfold split_types. destruct (map_get (lit "type") o) as [[| | | |types|]|] eqn:Ht;
    try (by apply plain_object; rewrite Ht).
  set (has_null := existsb _ types).
  assert (∀ m, map_get (lit "type") m = None → parts_plain m →
    plain (Object (if has_null then put "nullable" (Bool true) m else m)) = true) as Hn.
  { intros m Hm Hp. apply plain_object. destruct has_null; simpl; [|by rewrite Hm]. split.
    - rewrite get_put, decide_False by done. by rewrite Hm.
    - apply parts_put_other; [no_schema|done]. }
  destruct (filter _ (omap as_str types)) as [|t non_null].
  - apply plain_object. rewrite get_put, decide_True by done. split; [done|]. apply parts_put_other; [no_schema|done].
  - destruct (has "anyOf" o).
    + apply Hn; [by rewrite get_drop, decide_True|by apply parts_drop].
    + apply Hn.
      * rewrite get_put, decide_False by done. apply get_drops. by rewrite get_drop, decide_True.
      * apply parts_put; [|by apply drops_parts, parts_drop].
        change (forallb plain (map (λ t, self (Object (member (drop_key "type" o) t))) (t :: non_null)) = true).
        apply forallb_Forall, Forall_forall. intros v Hv. apply list_elem_of_In, in_map_iff in Hv as (t' & <- & _).
        apply Hself. by apply member_parts, parts_drop.
Qed.

Lemma sanitize_items_parts (o : Map) : parts_plain o → parts_plain (sanitize_items o).
Proof.
  intros Ho. unfold sanitize_items. apply parts_put; [|by apply parts_drop].
  set (items := match map_get (lit "items") o with None | Some Null => Object [] | Some v => v end).
  assert (plain items = true) as Hi.
  { unfold items. destruct (map_get (lit "items") o) as [v|] eqn:Hv; [|done].
    pose proof (map_get_Forall _ _ _ _ Ho Hv) as H. change (plain v = true) in H. by destruct v. }
  clearbody items.
  destruct items as [| | | | |i]; try exact Hi. destruct (has_intent (Object i)); [exact Hi|]. change (plain (Object (put "type" (s_ "string") i)) = true).
  apply plain_object in Hi as [_ Hi]. apply plain_object. rewrite get_put, decide_True by done. split; [done|].
  apply parts_put_other; [no_schema|done].
Qed.

Lemma sanitize_node_plain (self : Json → Json) (o : Map) :
  parts_plain o → (∀ v, plain v = true → plain (self v) = true) → plain (Object (sanitize_node self o)) = true.
Proof.
  intros Ho Hself. unfold sanitize_node.
  pose proof (split_types_plain self (sanitize_enum o) (sanitize_enum_parts o Ho) Hself) as H.
  set (o1 := split_types self (sanitize_enum o)) in *. clearbody o1. apply plain_object in H as [Ht Hp].
  assert (∀ t, plain (Object (put "type" (s_ t) o1)) = true) as Hput.
  { intros t. apply plain_object. rewrite get_put, decide_True by done. split; [done|]. apply parts_put_other; [no_schema|done]. }
  set (p := match str_of "type" o1 with None => _ | Some _ => _ end).
  assert (plain (Object p.1) = true) as Hp1.
  { unfold p. destruct (str_of "type" o1); [by apply plain_object|]. destruct (has_combiner o1); [by apply plain_object|apply Hput]. }
  destruct p as [o2 ty]. simpl in Hp1. clear Hput Ht Hp.
  set (o3 := if bool_decide (ty = _) then sanitize_required o2 else o2).
  assert (plain (Object o3) = true) as Hp3.
  { unfold o3, sanitize_required. case_bool_decide; [|done]. apply plain_object in Hp1 as [Ht Hp].
    destruct (map_get (lit "properties") o2) as [[]|], (map_get (lit "required") o2) as [[]|]; try (by apply plain_object).
    apply plain_object. rewrite get_put, decide_False by done. split; [done|]. apply parts_put_other; [no_schema|done]. }
  set (o4 := if bool_decide (ty = _) && negb (has_combiner o1) then sanitize_items o3 else o3).
  assert (plain (Object o4) = true) as Hp4.
  { unfold o4. destruct (bool_decide (ty = Some (lit "array")) && negb (has_combiner o1)); [|done]. apply plain_object in Hp3 as [Ht Hp]. apply plain_object. split; [|by apply sanitize_items_parts].
    unfold sanitize_items. by rewrite get_put, decide_False, get_drop, decide_False. }
  set (scalar := match ty with Some t => _ | None => _ end && _). destruct scalar; [|done].
  apply plain_object in Hp4 as [Ht Hp]. apply plain_object.
  rewrite !get_drop, !decide_False by done. split; [done|]. by apply parts_drop, parts_drop.
Qed.

Lemma key_in_disjoint (k : str) (l l' : list string) :
  (∀ x, x ∈ l → x ∉ l') → key_in k l = true → key_in k l' = false.
Proof.
  intros Hd. unfold key_in. rewrite bool_decide_eq_true, bool_decide_eq_false.
  intros (x & -> & Hx)%list_elem_of_fmap (y & E%(inj lit) & Hy)%list_elem_of_fmap. subst. by eapply Hd.
Qed.

Lemma forallb_map {A B} (p : B → bool) (f : A → B) (l : list A) : forallb p (map f l) = forallb (λ x, p (f x)) l.
Proof. induction l as [|x l IH]; [done|]. simpl. by rewrite IH. Qed.

(** The parts of a node, sanitized, are plain when what sanitizes them makes plain schemas. *)
Lemma sanitized_parts (f : Json → Json) (o : Map) :
  Forall (λ p, plain (f p.2) = true
               ∧ match p.2 with
                 | Array a => Forall (λ v, plain (f v) = true) a
                 | Object m => Forall (λ q, plain (f q.2) = true) m
                 | _ => True
                 end) o →
  parts_plain (map (λ p, (p.1, sanitize_part f p.1 p.2)) o).
Proof.
  unfold parts_plain. intros Ho. apply Forall_map. eapply Forall_impl; [exact Ho|]. intros [k v] [Hv Hsub]. simpl in *.
  unfold part_all, sanitize_part.
  destruct (key_in k SCHEMA_KEYS); [done|]. destruct (key_in k SCHEMA_LIST_KEYS).
  - destruct v; try done. rewrite forallb_map. by apply forallb_Forall.
  - destruct (key_in k SCHEMA_MAP_KEYS); [|done]. destruct v; try done. rewrite forallb_map. by apply forallb_Forall.
Qed.

(** What holds of each value of an object, and of what is in it. *)
Lemma json_ind2 (P : Json → Prop) :
  P Null → (∀ b, P (Bool b)) → (∀ t, P (Number t)) → (∀ s, P (String_ s)) →
  (∀ l, Forall P l → P (Array l)) →
  (∀ m, Forall (λ p, P p.2 ∧ match p.2 with
                             | Array a => Forall P a
                             | Object m => Forall (λ q, P q.2) m
                             | _ => True
                             end) m → P (Object m)) → ∀ v, P v.
Proof.
  intros Hn Hb Hu Hs Ha Ho v.
  enough (P v ∧ match v with Array a => Forall P a | Object m => Forall (λ q, P q.2) m | _ => True end) as [H _] by done.
  induction v as [|b|t|s|l IH|m IH] using json_ind; split; try done; auto.
  - apply Ha. eapply Forall_impl; [exact IH|]. by intros ? [].
  - eapply Forall_impl; [exact IH|]. by intros ? [].
  - eapply Forall_impl; [exact IH|]. by intros ? [].
Qed.

Lemma sanitize_with_plain (self : Json → Json) (v : Json) :
  (∀ v, plain v = true → plain (self v) = true) → plain (sanitize_with self v) = true.
Proof.
  intros Hself. induction v as [|b|t|s|l IH|m IH] using json_ind2; try done.
  - simpl. rewrite forallb_map. by apply forallb_Forall.
  - cbn [sanitize_with]. apply sanitize_node_plain; [|done]. by apply sanitized_parts.
Qed.

Lemma sanitize_part_ext (f g : Json → Json) (k : str) (v : Json) :
  (f v = g v ∧ match v with
               | Array a => Forall (λ x, f x = g x) a
               | Object m => Forall (λ q, f q.2 = g q.2) m
               | _ => True
               end) → sanitize_part f k v = sanitize_part g k v.
Proof.
  intros [Hv Hsub]. unfold sanitize_part. destruct (key_in k SCHEMA_KEYS); [done|]. destruct (key_in k SCHEMA_LIST_KEYS).
  - destruct v; try done. f_equal. apply map_ext_in. intros x Hx. rewrite Forall_forall in Hsub. by apply Hsub, list_elem_of_In.
  - destruct (key_in k SCHEMA_MAP_KEYS); [|done]. destruct v; try done. f_equal. apply map_ext_in. intros x Hx.
    rewrite Forall_forall in Hsub. f_equal. by apply Hsub, list_elem_of_In.
Qed.

Lemma sanitize_part_type (f : Json → Json) (o : Map) :
  map_get (lit "type") (map (λ p, (p.1, sanitize_part f p.1 p.2)) o) = map_get (lit "type") o.
Proof. induction o as [|[k v] o IH]; [done|]. simpl. rewrite IH. by case_decide as E; [subst k|]. Qed.

Lemma sanitize_enum_type (o : Map) :
  is_array (map_get (lit "type") o) = false → is_array (map_get (lit "type") (sanitize_enum o)) = false.
Proof.
  intros Ho. unfold sanitize_enum. set (o1 := match map_get (lit "enum") o with Some (Array members) => _ | _ => _ end).
  assert (map_get (lit "type") o1 = map_get (lit "type") o) as E.
  { unfold o1. destruct (map_get (lit "enum") o) as [[]|], (map_get (lit "const") o); rewrite ?get_put, ?get_drop; done. }
  destruct (_ && _); [by rewrite get_put|by rewrite E].
Qed.

(** Where there is no list of types, no members are made. *)
Lemma sanitize_node_typed (f g : Json → Json) (o : Map) :
  is_array (map_get (lit "type") o) = false → sanitize_node f o = sanitize_node g o.
Proof.
  intros Ho%sanitize_enum_type. unfold sanitize_node.
  assert (split_types f (sanitize_enum o) = split_types g (sanitize_enum o)) as ->; [|done].
  unfold split_types. by destruct (map_get (lit "type") (sanitize_enum o)) as [[]|].
Qed.

Lemma plain_sub (k : str) (v : Json) (f g : Json → Json) (P : Json → Prop) :
  part_all plain k v = true → (plain v = true → f v = g v) →
  match v with
  | Array a => Forall (λ x, plain x = true → f x = g x) a
  | Object m => Forall (λ q, plain q.2 = true → f q.2 = g q.2) m
  | _ => True
  end → sanitize_part f k v = sanitize_part g k v.
Proof.
  intros Hp Hv Hsub. unfold part_all, sanitize_part in *. destruct (key_in k SCHEMA_KEYS); [by apply Hv|].
  destruct (key_in k SCHEMA_LIST_KEYS).
  - destruct v as [| | | |a|]; try done. f_equal. apply forallb_Forall in Hp. rewrite Forall_forall in Hp, Hsub.
    apply map_ext_in. intros x Hx%list_elem_of_In. by apply Hsub, Hp.
  - destruct (key_in k SCHEMA_MAP_KEYS); [|done]. destruct v as [| | | | |m]; try done. f_equal. apply forallb_Forall in Hp.
    rewrite Forall_forall in Hp, Hsub. apply map_ext_in. intros x Hx%list_elem_of_In. f_equal. by apply Hsub, Hp.
Qed.

Lemma sanitize_with_once (f g : Json → Json) (v : Json) :
  plain v = true → sanitize_with f v = sanitize_with g v.
Proof.
  induction v as [|b|t|s|l IH|m IH] using json_ind2; try done.
  - simpl. intros Hl%forallb_Forall. f_equal. rewrite Forall_forall in IH, Hl. apply map_ext_in. intros x Hx%list_elem_of_In.
    by apply IH, Hl.
  - intros [Ht Hm]%plain_object. cbn [sanitize_with]. f_equal.
    assert (map (λ p, (p.1, sanitize_part (sanitize_with f) p.1 p.2)) m = map (λ p, (p.1, sanitize_part (sanitize_with g) p.1 p.2)) m) as ->.
    { apply map_ext_in. intros [k v] Hx%list_elem_of_In. f_equal. simpl. unfold parts_plain in Hm. rewrite Forall_forall in IH, Hm.
      destruct (IH _ Hx) as [Hv Hsub]. apply (plain_sub k v _ _ (λ _, True)); [exact (Hm _ Hx)|done|exact Hsub]. }
    apply sanitize_node_typed. by rewrite sanitize_part_type.
Qed.

Lemma split_types_ext (f g : Json → Json) (o : Map) :
  parts_plain o → (∀ v, plain v = true → f v = g v) → split_types f o = split_types g o.
Proof.
  intros Ho Hfg. unfold split_types. destruct (map_get (lit "type") o) as [[| | | |types|]|]; try done.
  destruct (filter _ (omap as_str types)) as [|t l]; [done|]. destruct (has "anyOf" o); [done|].
  assert (map (λ t, f (Object (member (drop_key "type" o) t))) (t :: l) = map (λ t, g (Object (member (drop_key "type" o) t))) (t :: l)) as ->;
    [|done].
  apply map_ext. intros t'. by apply Hfg, member_parts, parts_drop.
Qed.

(** [sanitize] is what the code says it is: a recursion through the parts of a schema that
    calls itself once more on the members it makes of a list of types.  It ends, since a
    member has one type and parts without lists of types. *)
Theorem sanitize_unfold (v : Json) :
  sanitize v = match v with
               | Array items => Array (map sanitize items)
               | Object o => Object (sanitize_node sanitize (map (λ p, (p.1, sanitize_part sanitize p.1 p.2)) o))
               | other => other
               end
  ∧ plain (sanitize v) = true.
Proof.
  assert (∀ v, plain v = true → plain (sanitize_with (λ v, v) v) = true) as Hinner by (intros; by apply sanitize_with_plain).
  split; [|by apply sanitize_with_plain]. destruct v as [| | | |l|m]; try done. unfold sanitize at 1. cbn [sanitize_with]. fold sanitize.
  f_equal. unfold sanitize_node.
  assert (∀ o, parts_plain o → split_types (sanitize_with (λ v, v)) o = split_types sanitize o) as Hext.
  { intros o Ho. apply split_types_ext; [done|]. intros v Hv. by apply sanitize_with_once. }
  rewrite Hext; [done|]. apply sanitize_enum_parts, sanitized_parts, Forall_forall. intros [k v] _.
  split; [by apply sanitize_with_plain|]. destruct v; try done; apply Forall_forall; intros; by apply sanitize_with_plain.
Qed.

(** ** The types a schema names *)

Definition TYPES : list string := ["string"; "number"; "integer"; "boolean"; "array"; "object"; "null"]%string.

Definition known_type (t : str) : bool := key_in t TYPES.

(** The texts of a value of "type". *)
Definition type_texts (v : Json) : list str :=
  match v with String_ t => [t] | Array l => omap as_str l | _ => [] end.

Definition type_entry (k : str) (v : Json) : bool := negb (key_in k ["type"%string]) || forallb known_type (type_texts v).

(** Every type named in a value, by itself or in a list, is one that Gemini knows. *)
Fixpoint types_known (v : Json) : bool :=
  match v with
  | Array l => forallb types_known l
  | Object o => forallb (λ p, type_entry p.1 p.2 && types_known p.2) o
  | _ => true
  end.

Definition is_schema (v : Json) : bool := match v with Object _ | Bool _ => true | _ => false end.

(** What a server declares: known types, and definitions that are schemas. *)
Definition well_typed (schema : Json) : bool :=
  types_known schema && forallb (λ p, is_schema p.2) (defs_of schema).

Definition entry_known (p : str * Json) : Prop := type_entry p.1 p.2 = true ∧ types_known p.2 = true.

Lemma types_object (o : Map) : types_known (Object o) = true ↔ Forall entry_known o.
Proof. simpl. rewrite forallb_Forall. apply Forall_iff. intros p. apply andb_true_iff. Qed.

Lemma types_array (l : list Json) : types_known (Array l) = true ↔ Forall (λ v, types_known v = true) l.
Proof. apply forallb_Forall. Qed.

Lemma entry_put (k : string) (v : Json) (o : Map) :
  type_entry (lit k) v = true → types_known v = true → Forall entry_known o → Forall entry_known (put k v o).
Proof. intros. by apply map_insert_Forall. Qed.

Lemma entry_drop (k : string) (o : Map) : Forall entry_known o → Forall entry_known (drop_key k o).
Proof. apply map_remove_Forall. Qed.

Lemma entry_drops (ks : list string) (o : Map) : Forall entry_known o → Forall entry_known (foldl (λ o k, drop_key k o) o ks).
Proof. revert o. induction ks as [|k ks IH]; intros o Ho; [done|]. by apply IH, entry_drop. Qed.

Lemma entry_get (k : string) (v : Json) (o : Map) : Forall entry_known o → map_get (lit k) o = Some v → entry_known (lit k, v).
Proof. intros Ho Hv. exact (map_get_Forall _ _ _ _ Ho Hv). Qed.

Lemma known_text (o : Map) (t : str) : Forall entry_known o → str_of "type" o = Some t → known_type t = true.
Proof.
  intros Ho (v & Hv & Ht)%bind_Some. destruct (entry_get _ _ _ Ho Hv) as [H _]. destruct v as [| | |s| |]; try done.
  injection Ht as <-. unfold type_entry in H. simpl in H. by rewrite andb_true_r in H.
Qed.

(** A walk that keeps each text and makes none keeps the texts of a type. *)
Lemma same_texts (f : Json → Json) (l : list Json) : Forall (λ v, as_str (f v) = as_str v) l → omap as_str (map f l) = omap as_str l.
Proof. induction 1 as [|v l Hv _ IH]; [done|]. csimpl. by rewrite Hv, IH. Qed.

Lemma deref_object (defs : Map) (d : nat) (stack : list str) (o : Map) :
  deref defs d stack (Object o) =
    let parts := map (λ p, (p.1, deref defs d stack p.2)) o in
    match map_get (lit "$ref") o with
    | Some (String_ target) =>
        match map_get target defs, d with
        | Some def, S d =>
            if bool_decide (target ∈ stack) then generic o
            else match deref defs d (target :: stack) def with
                 | Object r => Object (foldl (λ r p, map_insert p.1 p.2 r) r (filter (λ p, p.1 ≠ lit "$ref") parts))
                 | other => other
                 end
        | _, _ => generic o
        end
    | _ => Object parts
    end.
Proof. destruct d; simpl; destruct (map_get (lit "$ref") o) as [[]|]; try done; by destruct (map_get _ defs). Qed.

Lemma deref_array (defs : Map) (d : nat) (stack : list str) (l : list Json) :
  deref defs d stack (Array l) = Array (map (deref defs d stack) l).
Proof. by destruct d. Qed.

Lemma deref_schema (defs : Map) (d : nat) : Forall (λ p, is_schema p.2 = true) defs →
  ∀ stack v, is_schema v = true → is_schema (deref defs d stack v) = true.
Proof.
  intros Hdefs. induction d as [|d IH]; intros stack [| | | | |o] Hv; try done; rewrite deref_object; simpl;
    destruct (map_get (lit "$ref") o) as [[| | |target| |]|]; try done; destruct (map_get target defs) as [def|] eqn:Hd; try done.
  case_bool_decide; [done|]. pose proof (IH (target :: stack) def (map_get_Forall _ _ _ _ Hdefs Hd)) as Hsch.
  by destruct (deref defs d (target :: stack) def).
Qed.

Lemma deref_texts (defs : Map) (d : nat) (stack : list str) (v : Json) : Forall (λ p, is_schema p.2 = true) defs →
  type_texts (deref defs d stack v) = type_texts v.
Proof.
  intros Hdefs. assert (∀ v, as_str (deref defs d stack v) = as_str v) as Hs.
  { intros w. destruct w as [| | | | |o]; try (by destruct d). pose proof (deref_schema defs d Hdefs stack (Object o) eq_refl) as H.
    by destruct (deref defs d stack (Object o)). }
  destruct v as [| | | |l|o]; try (by destruct d).
  - rewrite deref_array. apply same_texts, Forall_forall. auto.
  - pose proof (deref_schema defs d Hdefs stack (Object o) eq_refl) as H. by destruct (deref defs d stack (Object o)).
Qed.

Lemma generic_types (o : Map) : Forall entry_known o → types_known (generic o) = true.
Proof.
  intros Ho. unfold generic. apply types_object. assert (entry_known (lit "type", s_ "object")) as H by done.
  destruct (map_get (lit "description") o) as [v|] eqn:Hv; [|by constructor].
  apply entry_put; [done|by apply (entry_get "description" v o)|by constructor].
Qed.

(** Following references, no type comes up that is named nowhere. *)
Lemma deref_types (defs : Map) (d : nat) : Forall (λ p, is_schema p.2 = true ∧ types_known p.2 = true) defs →
  ∀ stack v, types_known v = true → types_known (deref defs d stack v) = true.
Proof.
  intros Hdefs. assert (Forall (λ p, is_schema p.2 = true) defs) as Hs by (eapply Forall_impl; [exact Hdefs|by intros p []]).
  induction d as [|d IHd]; intros stack v; induction v as [| | | |l IH|o IH] using json_ind2; try done.
  1, 3: rewrite deref_array, !types_array; intros Hl; apply Forall_map; rewrite Forall_forall in IH, Hl |- *; intros x Hx; by apply IH, Hl.
  all: intros Ho%types_object; rewrite deref_object; cbv zeta; set (parts := map _ o);
    assert (Forall entry_known parts) as Hparts by
      (apply Forall_map; rewrite Forall_forall in IH, Ho |- *; intros p Hp; destruct (Ho p Hp) as [Ht Hk]; split;
       [unfold type_entry; cbn [fst snd]; by rewrite deref_texts|by apply IH]);
    apply types_object in Hparts as Hobj;
    destruct (map_get (lit "$ref") o) as [[| | |target| |]|]; try done;
    destruct (map_get target defs) as [def|] eqn:Hd; try (by apply generic_types).
  case_bool_decide; [by apply generic_types|].
  pose proof (IHd (target :: stack) def (proj2 (map_get_Forall _ _ _ _ Hdefs Hd))) as Hr.
  destruct (deref defs d (target :: stack) def) as [| | | | |r]; try done. apply types_object. apply types_object in Hr.
  assert (Forall entry_known (filter (λ p, p.1 ≠ lit "$ref") parts)) as Hf.
  { rewrite Forall_forall in Hparts |- *. intros p [_ Hp]%list_elem_of_filter. by apply Hparts. }
  revert r Hr. induction Hf as [|p l Hp _ IHl]; intros r Hr; [done|]. simpl. apply IHl. apply map_insert_Forall; [|done].
  by destruct p.
Qed.

Lemma defs_known (root : Json) :
  well_typed root = true → Forall (λ p, is_schema p.2 = true ∧ types_known p.2 = true) (defs_of root).
Proof.
  unfold well_typed. rewrite andb_true_iff, forallb_Forall. intros [Hr Hs].
  assert (Forall (λ p, types_known p.2 = true) (defs_of root)) as Hk; [|by apply Forall_and].
  destruct root as [| | | | |o]; try constructor. apply types_object in Hr. unfold defs_of. clear Hs.
  assert (Forall (λ p, types_known p.2 = true) ([] : Map)) as H0 by constructor. revert H0. generalize ([] : Map).
  induction ["$defs"; "definitions"]%string as [|key keys IH]; intros m Hm; [done|]. simpl. apply IH.
  destruct (map_get (lit key) o) as [[| | | | |d]|] eqn:E; try done.
  destruct (entry_get _ _ _ Hr E) as [_ Hd]. apply types_object in Hd. clear E. revert m Hm.
  induction Hd as [|p d [_ Hp] _ IHd]; intros m Hm; [done|]. simpl. apply IHd. by apply (map_insert_Forall (λ p, types_known p.2 = true)).
Qed.

Lemma resolve_types (root : Json) : well_typed root = true → types_known (resolve_refs root) = true.
Proof.
  intros Hw. apply defs_known in Hw as Hd. unfold well_typed in Hw. apply andb_true_iff in Hw as [Hw _].
  pose proof (deref_types _ MAX_REF_DEPTH Hd [] root Hw) as H. unfold resolve_refs.
  destruct (deref (defs_of root) MAX_REF_DEPTH [] root) as [| | | | |o]; try done.
  apply types_object in H. by apply types_object, entry_drop, entry_drop.
Qed.

Lemma sanitize_texts (self : Json → Json) (v : Json) : type_texts (sanitize_with self v) = type_texts v.
Proof. destruct v as [| | | |l|]; try done. apply same_texts, Forall_forall. intros x _. by destruct x. Qed.

(** The entries of a node with its parts sanitized by [f]. *)
Lemma sanitized_known (f : Json → Json) (k : str) (v : Json) :
  entry_known (k, v) → (∀ v, type_texts (f v) = type_texts v) →
  ((types_known v = true → types_known (f v) = true)
   ∧ match v with
     | Array a => Forall (λ x, types_known x = true → types_known (f x) = true) a
     | Object m => Forall (λ q, types_known q.2 = true → types_known (f q.2) = true) m
     | _ => True
     end) → entry_known (k, sanitize_part f k v).
Proof.
  intros [Ht Hk] Hf [Hv Hsub]. simpl in Ht, Hk. split; simpl.
  - destruct (decide (k = lit "type")) as [->|Hne]; [exact Ht|]. unfold type_entry, key_in.
    rewrite bool_decide_eq_false_2; [done|]. set_solver.
  - unfold sanitize_part. destruct (key_in k SCHEMA_KEYS); [by apply Hv|]. destruct (key_in k SCHEMA_LIST_KEYS).
    + destruct v as [| | | |a|]; try done. rewrite types_array in Hk |- *. apply Forall_map.
      rewrite Forall_forall in Hk, Hsub |- *. intros x Hx. by apply Hsub, Hk.
    + destruct (key_in k SCHEMA_MAP_KEYS); [|done]. destruct v as [| | | | |m]; try done. rewrite types_object in Hk |- *.
      apply Forall_map. rewrite Forall_forall in Hk, Hsub |- *. intros q Hq. destruct (Hk q Hq) as [H1 H2]. split.
      * unfold type_entry. cbn [fst snd]. by rewrite Hf.
      * by apply Hsub.
Qed.

Lemma sanitize_enum_known (o : Map) : Forall entry_known o → Forall entry_known (sanitize_enum o).
Proof.
  intros Ho. unfold sanitize_enum. assert (∀ v, types_known (enum_member_to_string v) = true) as He by (by intros []).
  set (o1 := match map_get (lit "enum") o with Some (Array members) => _ | _ => _ end).
  assert (Forall entry_known o1) as H1.
  { assert (∀ c, Forall entry_known (put "enum" (Array [enum_member_to_string c]) (drop_key "const" o))) as Hc.
    { intros c. apply entry_put; [done| |by apply entry_drop]. apply types_array. by repeat constructor. }
    unfold o1. destruct (map_get (lit "enum") o) as [[| | | |l|]|], (map_get (lit "const") o); try done; try apply Hc;
      (apply entry_put; [done| |done]; apply types_array, Forall_map, Forall_forall; auto). }
  destruct (_ && _); [by apply entry_put|done].
Qed.

Lemma member_known (o : Map) (t : str) :
  Forall entry_known o → known_type t = true → types_known (Object (member o t)) = true.
Proof.
  intros Ho Ht. apply types_object. unfold member.
  assert (Forall entry_known [(lit "type", String_ t)]) as H0.
  { repeat constructor. unfold type_entry. simpl. by rewrite Ht. }
  revert H0. generalize [(lit "type", String_ t)]. induction (member_keys o t) as [|k ks IH]; intros m Hm; [done|].
  simpl. apply IH. destruct (map_get (lit k) o) as [v|] eqn:Hv; [|done].
  destruct (entry_get _ _ _ Ho Hv). by apply entry_put.
Qed.

Lemma split_types_known (self : Json → Json) (o : Map) :
  Forall entry_known o → (∀ v, types_known v = true → types_known (self v) = true) → Forall entry_known (split_types self o).
Proof.
  intros Ho Hself. unfold split_types. destruct (map_get (lit "type") o) as [[| | | |types|]|] eqn:Ht; try done.
  set (has_null := existsb _ types).
  assert (∀ m, Forall entry_known m → Forall entry_known (if has_null then put "nullable" (Bool true) m else m)) as Hn.
  { intros m Hm. destruct has_null; [by apply entry_put|done]. }
  assert (∀ t, t ∈ filter (λ t, t ≠ lit "null") (omap as_str types) → known_type t = true) as Hknown.
  { intros t [_ Hin]%list_elem_of_filter. destruct (entry_get _ _ _ Ho Ht) as [H _]. unfold type_entry in H. simpl in H.
    apply forallb_Forall in H. rewrite Forall_forall in H. by apply H. }
  destruct (filter _ (omap as_str types)) as [|t non_null]; [by apply entry_put|].
  destruct (has "anyOf" o); [by apply Hn, entry_drop|]. apply Hn, entry_put; [done| |by apply entry_drops, entry_drop].
  apply types_array, Forall_map, Forall_forall. intros t' Hin. apply Hself, member_known; [by apply entry_drop|by apply Hknown].
Qed.

Lemma infer_known (o : Map) : entry_known (lit "type", s_ (infer_type o)).
Proof.
  unfold infer_type. repeat case_match; by split.
Qed.

Lemma sanitize_items_known (o : Map) : Forall entry_known o → Forall entry_known (sanitize_items o).
Proof.
  intros Ho. unfold sanitize_items. apply entry_put; [done| |by apply entry_drop].
  set (items := match map_get (lit "items") o with None | Some Null => Object [] | Some v => v end).
  assert (types_known items = true) as Hi.
  { unfold items. destruct (map_get (lit "items") o) as [v|] eqn:Hv; [|done]. destruct (entry_get _ _ _ Ho Hv). by destruct v. }
  clearbody items. destruct items as [| | | | |i]; try done. destruct (has_intent (Object i)); [done|].
  apply types_object. apply types_object in Hi. by apply entry_put.
Qed.

Lemma sanitize_node_known (self : Json → Json) (o : Map) :
  Forall entry_known o → (∀ v, types_known v = true → types_known (self v) = true) → Forall entry_known (sanitize_node self o).
Proof.
  intros Ho Hself. unfold sanitize_node.
  pose proof (split_types_known self _ (sanitize_enum_known o Ho) Hself) as H1. set (o1 := split_types self (sanitize_enum o)) in *.
  clearbody o1. set (p := match str_of "type" o1 with None => _ | Some _ => _ end).
  assert (Forall entry_known p.1) as H2.
  { unfold p. destruct (str_of "type" o1); [done|]. destruct (has_combiner o1); [done|]. by apply entry_put; try apply infer_known. }
  destruct p as [o2 ty]. simpl in H2.
  set (o3 := if bool_decide (ty = _) then sanitize_required o2 else o2).
  assert (Forall entry_known o3) as H3.
  { unfold o3, sanitize_required. case_bool_decide; [|done].
    destruct (map_get (lit "properties") o2) as [[]|]; try done. destruct (map_get (lit "required") o2) as [[| | | |r|]|] eqn:Hr; try done.
    apply entry_put; [done| |done]. destruct (entry_get _ _ _ H2 Hr) as [_ Hk]. apply types_array. apply types_array in Hk.
    rewrite Forall_forall in Hk |- *. intros x [_ Hx]%list_elem_of_filter. by apply Hk. }
  set (o4 := if bool_decide (ty = _) && negb (has_combiner o1) then sanitize_items o3 else o3).
  assert (Forall entry_known o4) as H4 by (unfold o4; destruct (bool_decide (ty = Some (lit "array")) && negb (has_combiner o1)); [by apply sanitize_items_known|done]).
  set (scalar := match ty with Some t => _ | None => _ end && _). destruct scalar; [|done]. by apply entry_drop, entry_drop.
Qed.

Lemma sanitize_with_known (self : Json → Json) (v : Json) :
  (∀ v, types_known v = true → types_known (self v) = true) → types_known v = true → types_known (sanitize_with self v) = true.
Proof.
  intros Hself. induction v as [| | | |l IH|o IH] using json_ind2; try done.
  - cbn [sanitize_with]. rewrite !types_array. intros Hl. apply Forall_map. rewrite Forall_forall in IH, Hl |- *.
    intros x Hx. by apply IH, Hl.
  - cbn [sanitize_with]. rewrite !types_object. intros Ho. apply sanitize_node_known; [|done]. apply Forall_map.
    rewrite Forall_forall in IH, Ho |- *. intros [k w] Hp. apply sanitized_known; [by apply Ho|apply sanitize_texts|exact (IH _ Hp)].
Qed.

(** Sanitizing names no type of its own that Gemini does not know. *)
Lemma sanitize_types (v : Json) : types_known v = true → types_known (sanitize v) = true.
Proof. intros Hv. apply sanitize_with_known; [|done]. intros w Hw. by apply sanitize_with_known. Qed.

(** ** What Gemini takes *)

Definition DIALECT : list string :=
  ["description"; "required"; "format"; "type"; "nullable"; "enum"; "properties"; "items"; "allOf"; "anyOf"; "oneOf";
   "minLength"]%string.

Definition is_string (v : Json) : bool := match v with String_ _ => true | _ => false end.

Definition is_type (v : Json) : bool := match v with String_ t => known_type t | _ => false end.

(** A key of the dialect, with schemas [P] holds of where it has schemas, and a type that is
    known. *)
Definition dialect_part (P : Json → bool) (k : str) (v : Json) : bool :=
  if key_in k ["properties"]%string then match v with Object m => forallb (λ q, P q.2) m | _ => false end
  else if key_in k ["items"]%string then match v with Array a => forallb P a | _ => P v end
  else if key_in k COMBINERS then match v with Array a => forallb P a | _ => false end
  else if key_in k ["type"]%string then is_type v
  else key_in k DIALECT.

(** The rules of the validator for one node: a type or a combiner; an array has items; a
    scalar has no properties; enums are string enums; a format fits its type; what is
    required is declared. *)
Definition node_ok (o : Map) : bool :=
  let ty := str_of "type" o in
  (bool_decide (is_Some ty) || has_combiner o)
  && (negb (bool_decide (ty = Some (lit "array"))) || has "items" o)
  && (bool_decide (ty = None) || bool_decide (ty = Some (lit "object")) || has_combiner o
      || negb (has "properties" o) && negb (has "required" o))
  && match map_get (lit "enum") o with
     | Some (Array e) => bool_decide (ty = Some (lit "string")) && forallb is_string e
     | _ => true
     end
  && match str_of "format" o with Some f => format_allowed ty f | None => true end
  && match map_get (lit "required") o with
     | Some (Array r) => match map_get (lit "properties") o with Some (Object p) => forallb (declared p) r | _ => false end
     | _ => true
     end.

Fixpoint dialect (node : Json) : bool :=
  match node with Object o => forallb (λ p, dialect_part dialect p.1 p.2) o | _ => false end.

Fixpoint valid (node : Json) : bool :=
  match node with Object o => node_ok o && forallb (λ p, dialect_part valid p.1 p.2) o | _ => false end.

Definition in_dialect (P : Json → bool) (o : Map) : Prop := Forall (λ p, dialect_part P p.1 p.2 = true) o.

Lemma dialect_object (o : Map) : dialect (Object o) = true ↔ in_dialect dialect o.
Proof. simpl. apply forallb_Forall. Qed.

Lemma dialect_other (P : Json → bool) (k : string) (v : Json) :
  k ∈ ["description"; "required"; "format"; "nullable"; "enum"; "minLength"]%string → dialect_part P (lit k) v = true.
Proof. intros Hk. repeat (apply elem_of_cons in Hk as [->|Hk]; [reflexivity|]). by apply not_elem_of_nil in Hk. Qed.

Ltac in_list := apply (bool_decide_unpack _); vm_compute; exact I.

Lemma dialect_put (P : Json → bool) (k : string) (v : Json) (o : Map) :
  dialect_part P (lit k) v = true → in_dialect P o → in_dialect P (put k v o).
Proof. intros Hv Ho. by apply (map_insert_Forall (λ p, dialect_part P p.1 p.2 = true)). Qed.

Lemma dialect_put_other (P : Json → bool) (k : string) (v : Json) (o : Map) :
  k ∈ ["description"; "required"; "format"; "nullable"; "enum"; "minLength"]%string → in_dialect P o → in_dialect P (put k v o).
Proof. intros Hk. by apply dialect_put, dialect_other. Qed.

Lemma dialect_put_some (P : Json → bool) (k : string) (v : option Json) (o : Map) :
  (∀ x, v = Some x → dialect_part P (lit k) x = true) → in_dialect P o → in_dialect P (put_some k v o).
Proof. intros Hv Ho. destruct v as [x|]; [|done]. by apply dialect_put; [apply Hv|]. Qed.

Lemma plain_keys_dialect (P : Json → bool) (o : Map) : Forall entry_known o → in_dialect P (plain_keys o).
Proof.
  intros Ho. unfold plain_keys. set (o1 := put_some "description" _ []).
  assert (in_dialect P o1) as H1 by (apply dialect_put_some; [intros; by apply dialect_other; in_list|constructor]).
  set (o2 := put_some "required" _ o1).
  assert (in_dialect P o2) as H2 by (apply dialect_put_some; [intros; by apply dialect_other; in_list|done]).
  set (o3 := match str_of "format" o with Some f => _ | None => o2 end).
  assert (in_dialect P o3) as H3.
  { unfold o3. destruct (str_of "format" o); [|done]. destruct (format_allowed _ _); [|done]. apply dialect_put_other; [in_list|done]. }
  set (o4 := put_some "enum" _ o3).
  assert (in_dialect P o4) as H4 by (apply dialect_put_some; [intros; by apply dialect_other; in_list|done]).
  set (o5 := put_some "type" _ o4).
  assert (in_dialect P o5) as H5.
  { apply dialect_put_some; [|done]. intros x. destruct (str_of "type" o) as [t|] eqn:Et; [|done]. intros [= <-].
    exact (known_text o t Ho Et). }
  set (o6 := put_some "enum" _ o5).
  assert (in_dialect P o6) as H6 by (apply dialect_put_some; [intros; by apply dialect_other; in_list|done]).
  destruct (is_nullable o); [apply dialect_put_other; [in_list|done]|done].
Qed.

(** What the parts of a node convert to is in the dialect. *)
Definition converted_ok (c : Converted) : Prop :=
  match c with
  | CValue v => ∀ x, v = Some x → dialect x = true
  | CList l => ∀ p x, p ∈ l → p.2 = Some x → dialect x = true
  | CMap m => ∀ p x, p ∈ m → p.2 = Some x → dialect x = true
  end.

Lemma omap_snd_dialect (l : list (Json * option Json)) :
  (∀ p x, p ∈ l → p.2 = Some x → dialect x = true) → forallb dialect (omap snd l) = true.
Proof.
  intros H. apply forallb_Forall, Forall_forall. intros x (p & Hp & Hx)%list_elem_of_omap. by eapply H.
Qed.

Lemma convert_any_of_dialect (out : Map) (l : list (Json * option Json)) :
  in_dialect dialect out → converted_ok (CList l) → in_dialect dialect (convert_any_of out l).
Proof.
  intros Ho Hl. unfold convert_any_of.
  assert (∀ k : list (Json * option Json), k ⊆ l → in_dialect dialect (put "anyOf" (Array (omap snd k)) out)) as Hany.
  { intros k Hk. apply dialect_put; [|done]. apply omap_snd_dialect. intros p x Hp. apply Hl. by apply Hk. }
  destruct (negb _); [by apply Hany|].
  assert (∀ m, in_dialect dialect m → in_dialect dialect (put "nullable" (Bool true) m)) as Hnull.
  { intros m. apply dialect_put_other; in_list. }
  assert (filter (λ m, is_null_schema m.1 = false) l ⊆ l) as Hf by (intros p Hp; by apply list_elem_of_filter in Hp as [_ ?]).
  destruct (filter _ l) as [|[v c] [|p r]]; [apply Hnull, Hany; set_solver| |by apply Hnull, Hany].
  destruct c as [[| | | | |c]|]; try done. assert (dialect (Object c) = true) as Hc by (apply (Hl (v, Some (Object c))); [apply Hf; by left|done]).
  apply dialect_object in Hc. apply Hnull in Ho. revert Ho. generalize (put "nullable" (Bool true) out) as m.
  clear Hf Hl Hany. induction Hc as [|[k w] c Hk Hc IH]; intros m Hm; [done|]. simpl. apply IH.
  by apply (map_insert_Forall (λ p, dialect_part dialect p.1 p.2 = true)).
Qed.

Lemma named_dialect (m : list (str * option Json)) :
  converted_ok (CMap m) → forallb (λ q, dialect q.2) (named m) = true.
Proof.
  intros Hm. apply forallb_Forall, Forall_forall. intros [k x] (p & Hp & Hx)%list_elem_of_omap.
  apply fmap_Some in Hx as (y & Hy & [= -> ->]). by eapply Hm.
Qed.

Lemma pick_dialect (o : Map) (part : string → option Converted) :
  Forall entry_known o → (∀ k c, part k = Some c → converted_ok c) → in_dialect dialect (pick o part).
Proof.
  intros Ho Hpart. unfold pick. pose proof (plain_keys_dialect dialect o Ho) as H0. set (o0 := plain_keys o) in *. clearbody o0.
  set (o1 := match part "properties"%string with Some (CMap m) => _ | _ => o0 end).
  assert (in_dialect dialect o1) as H1.
  { unfold o1. destruct (part "properties"%string) as [[]|] eqn:E; try done. apply dialect_put; [|done]. apply named_dialect. by eapply Hpart. }
  set (o2 := match part "items"%string with Some (CList l) => _ | Some (CValue v) => _ | _ => o1 end).
  assert (in_dialect dialect o2) as H2.
  { unfold o2. destruct (part "items"%string) as [[v|l|]|] eqn:E; try done; specialize (Hpart _ _ E); simpl in Hpart.
    - apply dialect_put_some; [|done]. intros x Hx. specialize (Hpart x Hx). unfold dialect_part. simpl. by destruct x.
    - apply dialect_put; [|done]. by apply omap_snd_dialect. }
  assert (∀ k m, k ∈ COMBINERS → in_dialect dialect m → in_dialect dialect (combined k (part k) m)) as Hcomb.
  { intros k m Hk Hm. unfold combined. destruct (part k) as [[v|l|]|] eqn:E; try done. apply dialect_put; [|done].
    pose proof (omap_snd_dialect l (Hpart _ _ E)) as H. repeat (apply elem_of_cons in Hk as [->|Hk]; [exact H|]).
    by apply not_elem_of_nil in Hk. }
  set (o3 := combined "allOf" _ o2). assert (in_dialect dialect o3) as H3 by (apply Hcomb; [in_list|done]).
  set (o4 := match part "anyOf"%string with Some (CList l) => _ | _ => o3 end).
  assert (in_dialect dialect o4) as H4.
  { unfold o4. destruct (part "anyOf"%string) as [[]|] eqn:E; try done. apply convert_any_of_dialect; [done|]. by eapply Hpart. }
  apply dialect_put_some; [intros; by apply dialect_other; in_list|]. by apply Hcomb; [in_list|].
Qed.

Lemma to_openapi_dialect (v : Json) :
  types_known v = true → ∀ root out, to_openapi v root = Some out → dialect out = true.
Proof.
  induction v as [|b|t|s|l IH|m IH] using json_ind2; intros Hk root out; try done.
  - simpl. destruct b; [|done]. by intros [= <-].
  - apply types_object in Hk. cbn [to_openapi]. destruct (is_empty_object m).
    + destruct root; [done|]. intros [= <-]. apply dialect_object. unfold empty_object.
      assert (in_dialect dialect (put_some "description" (truthy_str (map_get (lit "description") m)) [(lit "type", s_ "object")])) as H.
      { apply dialect_put_some; [intros; by apply dialect_other; in_list|]. by repeat constructor. }
      destruct (is_nullable m); [apply dialect_put_other; [in_list|done]|done].
    + intros [= <-]. apply dialect_object, pick_dialect; [done|]. intros k c Hc.
      assert (∃ p, p ∈ m ∧ c = convert_part (λ v, to_openapi v false) p.1 p.2) as (p & Hp & ->).
      { revert Hc. clear IH Hk. induction m as [|p m IHm]; simpl; [done|]. case_decide.
        - intros [= <-]. exists p. split; [by left|done].
        - intros Hc. destruct (IHm Hc) as (q & Hq & ->). exists q. split; [by right|done]. }
      rewrite Forall_forall in IH, Hk. destruct (IH p Hp) as [Hv Hsub]. destruct (Hk p Hp) as [_ Hkp]. unfold convert_part.
      destruct (key_in p.1 _).
      * destruct p.2 as [| | | | |o]; try (by intros x). intros q x Hq Hx. apply list_elem_of_In, in_map_iff in Hq as (y & <- & Hy%list_elem_of_In).
        apply types_object in Hkp. rewrite Forall_forall in Hsub, Hkp. eapply (Hsub y Hy); [by apply Hkp|done].
      * destruct (key_in p.1 _); [|by intros x].
        destruct p.2 as [| | | |a|]; try (intros x Hx; by eapply (Hv Hkp)). intros q x Hq Hx.
        apply list_elem_of_In, in_map_iff in Hq as (y & <- & Hy%list_elem_of_In).
        apply types_array in Hkp. rewrite Forall_forall in Hsub, Hkp. eapply (Hsub y Hy); [by apply Hkp|done].
Qed.

(** ** The repair makes it so *)

Lemma dialect_drop (P : Json → bool) (k : string) (o : Map) : in_dialect P o → in_dialect P (drop_key k o).
Proof. apply map_remove_Forall. Qed.

Lemma dialect_get (P : Json → bool) (k : string) (v : Json) (o : Map) :
  in_dialect P o → map_get (lit k) o = Some v → dialect_part P (lit k) v = true.
Proof. intros Ho Hv. exact (map_get_Forall _ _ _ _ Ho Hv). Qed.

(** In the dialect a type is a string. *)
Lemma dialect_type (P : Json → bool) (o : Map) : in_dialect P o → has "type" o = bool_decide (is_Some (str_of "type" o)).
Proof.
  intros Ho. unfold has, str_of. destruct (map_get (lit "type") o) as [v|] eqn:Hv; simpl; [|done].
  pose proof (dialect_get P "type" v o Ho Hv) as H. by destruct v.
Qed.

Lemma has_combiner_put (k : string) (v : Json) (o : Map) : k ∉ COMBINERS → has_combiner (put k v o) = has_combiner o.
Proof.
  intros Hk. unfold has_combiner. unfold COMBINERS in *. cbn [existsb].
  rewrite !not_elem_of_cons in Hk. destruct Hk as (? & ? & ? & _). by rewrite !get_put, !decide_False.
Qed.

Lemma has_combiner_drop (k : string) (o : Map) : k ∉ COMBINERS → has_combiner (drop_key k o) = has_combiner o.
Proof.
  intros Hk. unfold has_combiner. unfold COMBINERS in *. cbn [existsb].
  rewrite !not_elem_of_cons in Hk. destruct Hk as (? & ? & ? & _). by rewrite !get_drop, !decide_False.
Qed.

(** Steps of [repair_node] that leave some keys alone. *)
Definition same_but (ks : list string) (o o' : Map) : Prop := ∀ k, k ∉ ks → map_get (lit k) o' = map_get (lit k) o.

Lemma same_refl ks o : same_but ks o o.
Proof. by intros k Hk. Qed.

Lemma same_put ks k v o : k ∈ ks → same_but ks o (put k v o).
Proof. intros Hk k' Hk'. rewrite get_put, decide_False; [done|]. congruence. Qed.

Lemma same_drop ks k o : k ∈ ks → same_but ks o (drop_key k o).
Proof. intros Hk k' Hk'. rewrite get_drop, decide_False; [done|]. congruence. Qed.

Lemma same_trans ks o o' o'' : same_but ks o o' → same_but ks o' o'' → same_but ks o o''.
Proof. intros H1 H2 k Hk. by rewrite H2, H1. Qed.

Lemma same_combiner ks o o' : same_but ks o o' → (∀ k, k ∈ COMBINERS → k ∉ ks) → has_combiner o' = has_combiner o.
Proof.
  intros Hs Hc. unfold has_combiner. unfold COMBINERS in *. cbn [existsb]. by rewrite !Hs by (apply Hc; set_solver).
Qed.

Lemma repair_required_same o : same_but ["required"%string] o (repair_required o).
Proof.
  assert (same_but ["required"%string] o (cut_required o)) as H.
  { unfold cut_required. destruct (map_get (lit "required") o) as [[]|]; try apply same_refl.
    destruct (map_get (lit "properties") o) as [[]|]; apply same_put; set_solver. }
  unfold repair_required. destruct (_ && _); [|done]. eapply same_trans; [exact H|]. apply same_drop. set_solver.
Qed.

Lemma repair_required_spec o :
  match map_get (lit "required") (repair_required o) with
  | Some (Array r) => match map_get (lit "properties") o with Some (Object p) => forallb (declared p) r = true | _ => False end
  | Some _ => True
  | None => True
  end
  ∧ (map_get (lit "required") o = None → map_get (lit "required") (repair_required o) = None).
Proof.
  unfold repair_required, cut_required. destruct (map_get (lit "required") o) as [r|] eqn:Hr.
  - split; [|done]. destruct r as [| | | |r|]; destruct (map_get (lit "properties") o) as [[| | | | |p]|] eqn:Hp; simpl;
      rewrite ?get_put, ?decide_True, ?Hr by done; simpl; rewrite ?get_drop, ?get_put, ?decide_True, ?Hr by done; try done.
    apply forallb_Forall, Forall_forall. intros x Hx. by apply list_elem_of_filter in Hx as [? _].
  - rewrite (bool_decide_eq_false_2 (map_get (lit "required") o = _)) by (by rewrite Hr). rewrite andb_false_r, Hr. by split.
Qed.

Lemma repair_items_same ty o : same_but ["items"%string] o (repair_items ty o).
Proof. unfold repair_items. destruct (_ && _); [apply same_put; set_solver|apply same_refl]. Qed.

Lemma repair_scalar_same ty c o : same_but ["properties"; "required"]%string o (repair_scalar ty c o).
Proof. unfold repair_scalar. destruct (_ && _); [|apply same_refl]. eapply same_trans; apply same_drop; set_solver. Qed.

Lemma repair_format_same ty o : same_but ["format"%string] o (repair_format ty o).
Proof.
  unfold repair_format. destruct (str_of "format" o) as [f|]; [|apply same_refl].
  destruct (format_allowed ty f); [apply same_refl|apply same_drop; set_solver].
Qed.

(** Each step keeps the dialect. *)
Lemma repair_type_dialect o : in_dialect valid o → in_dialect valid (repair_type o).
Proof. intros Ho. unfold repair_type. destruct (_ && _); [by apply dialect_put|done]. Qed.

Lemma repair_enum_dialect o : in_dialect valid o → in_dialect valid (repair_enum o).
Proof.
  intros Ho. unfold repair_enum. destruct (map_get (lit "enum") o) as [[]|]; try done.
  apply dialect_put; [done|]. apply dialect_put_other; [in_list|done].
Qed.

Lemma repair_items_dialect ty o : in_dialect valid o → in_dialect valid (repair_items ty o).
Proof. intros Ho. unfold repair_items. destruct (_ && _); [by apply dialect_put|done]. Qed.

Lemma repair_scalar_dialect ty c o : in_dialect valid o → in_dialect valid (repair_scalar ty c o).
Proof. intros Ho. unfold repair_scalar. destruct (_ && _); [by apply dialect_drop, dialect_drop|done]. Qed.

Lemma repair_format_dialect ty o : in_dialect valid o → in_dialect valid (repair_format ty o).
Proof.
  intros Ho. unfold repair_format. destruct (str_of "format" o); [|done]. destruct (format_allowed _ _); [done|by apply dialect_drop].
Qed.

Lemma repair_required_dialect o : in_dialect valid o → in_dialect valid (repair_required o).
Proof.
  intros Ho. assert (in_dialect valid (cut_required o)) as H.
  { unfold cut_required. destruct (map_get (lit "required") o) as [[]|]; try done.
    destruct (map_get (lit "properties") o) as [[]|]; by apply dialect_put_other; [in_list|]. }
  unfold repair_required. destruct (_ && _); [by apply dialect_drop|done].
Qed.

Lemma repair_node_dialect o : in_dialect valid o → in_dialect valid (repair_node o).
Proof.
  intros Ho. by apply repair_required_dialect, repair_format_dialect, repair_scalar_dialect, repair_items_dialect,
    repair_enum_dialect, repair_type_dialect.
Qed.

(** The node once its type is known. *)
Definition typed (o : Map) : Map := repair_enum (repair_type o).

Lemma typed_type o : in_dialect valid o → is_Some (str_of "type" (typed o)) ∨ has_combiner o = true.
Proof.
  intros Ho. assert (is_Some (str_of "type" (repair_type o)) ∨ has_combiner o = true) as H1.
  { unfold repair_type. rewrite (dialect_type valid o Ho). case_bool_decide as Ht; [by left|]. simpl.
    destruct (has_combiner o); [by right|]. left. unfold str_of. cbn [negb]. rewrite get_put, decide_True by done. by eexists. }
  unfold typed, repair_enum. destruct (map_get (lit "enum") (repair_type o)) as [[]|]; try exact H1.
  left. unfold str_of. rewrite get_put, decide_True by done. by eexists.
Qed.

Lemma typed_combiner o : has_combiner (typed o) = has_combiner o.
Proof.
  transitivity (has_combiner (repair_type o)).
  - unfold typed, repair_enum. destruct (map_get (lit "enum") (repair_type o)) as [[]|]; try done.
    by rewrite !has_combiner_put by (unfold COMBINERS; set_solver).
  - unfold repair_type. destruct (_ && _); [|done]. by rewrite has_combiner_put by (unfold COMBINERS; set_solver).
Qed.

Lemma same_weaken ks ks' o o' : ks ⊆ ks' → same_but ks o o' → same_but ks' o o'.
Proof. intros Hk Hs k Hn. apply Hs. set_solver. Qed.

(** From then on type, enum and combiners stay. *)
Lemma later_same o : same_but ["items"; "properties"; "required"; "format"]%string (typed o) (repair_node o).
Proof.
  unfold repair_node. fold (typed o). set (ty := str_of "type" (typed o)).
  eapply same_trans; [|eapply same_weaken; [|apply repair_required_same]; set_solver].
  eapply same_trans; [|eapply same_weaken; [|apply repair_format_same]; set_solver].
  eapply same_trans; [|eapply same_weaken; [|apply repair_scalar_same]; set_solver].
  eapply same_weaken; [|apply repair_items_same]. set_solver.
Qed.

Lemma node_combiner o : has_combiner (repair_node o) = has_combiner o.
Proof. rewrite (same_combiner _ _ _ (later_same o)); [apply typed_combiner|]. unfold COMBINERS. set_solver. Qed.

Lemma node_type o : str_of "type" (repair_node o) = str_of "type" (typed o).
Proof. unfold str_of. rewrite (later_same o "type"); [done|set_solver]. Qed.

Lemma node_items o : str_of "type" (typed o) = Some (lit "array") → is_Some (map_get (lit "items") (repair_node o)).
Proof.
  intros Ht. unfold repair_node. fold (typed o).
  rewrite (repair_required_same _ "items"), (repair_format_same _ _ "items"), (repair_scalar_same _ _ _ "items") by set_solver.
  unfold repair_items. rewrite bool_decide_eq_true_2 by done. simpl.
  destruct (map_get (lit "items") (typed o)) as [[]|] eqn:E; rewrite ?get_put, ?decide_True, ?E by done; by eexists.
Qed.

Lemma node_scalar o t :
  str_of "type" (typed o) = Some t → t ≠ lit "object" → has_combiner o = false →
  map_get (lit "properties") (repair_node o) = None ∧ map_get (lit "required") (repair_node o) = None.
Proof.
  intros Ht Hne Hc. unfold repair_node. fold (typed o). rewrite Ht, Hc.
  set (o4 := repair_scalar (Some t) false _).
  assert (map_get (lit "properties") o4 = None ∧ map_get (lit "required") o4 = None) as [Hp Hr].
  { unfold o4, repair_scalar. rewrite bool_decide_eq_true_2 by done. simpl. rewrite !get_drop. by repeat case_decide. }
  split.
  - by rewrite (repair_required_same _ "properties"), (repair_format_same _ _ "properties") by set_solver.
  - apply repair_required_spec. by rewrite (repair_format_same _ _ "required") by set_solver.
Qed.

Lemma node_enum o e :
  map_get (lit "enum") (repair_node o) = Some (Array e) →
  str_of "type" (typed o) = Some (lit "string") ∧ forallb is_string e = true.
Proof.
  rewrite (later_same o "enum") by set_solver. unfold typed, repair_enum.
  destruct (map_get (lit "enum") (repair_type o)) as [[| | | |l|]|] eqn:E; rewrite ?E; try done.
  unfold str_of. rewrite !get_put, decide_False, !decide_True by done. intros [= <-]. split; [done|]. rewrite forallb_map.
  apply forallb_Forall, Forall_forall. intros v _. by destruct v.
Qed.

Lemma node_format o f : str_of "format" (repair_node o) = Some f → format_allowed (str_of "type" (typed o)) f = true.
Proof.
  unfold repair_node. fold (typed o). set (ty := str_of "type" (typed o)). set (o4 := repair_scalar ty _ _).
  unfold str_of. rewrite (repair_required_same _ "format") by set_solver. fold (str_of "format" (repair_format ty o4)).
  unfold repair_format. destruct (str_of "format" o4) as [g|] eqn:E; [|by rewrite E].
  destruct (format_allowed ty g) eqn:Eg; [rewrite E; by intros [= <-]|]. unfold str_of. by rewrite get_drop, decide_True.
Qed.

Lemma repair_node_ok o : in_dialect valid o → node_ok (repair_node o) = true.
Proof.
  intros Ho. unfold node_ok. rewrite node_type, node_combiner. set (ty := str_of "type" (typed o)). rewrite !andb_true_iff. split_and!.
  - apply orb_true_iff. destruct (typed_type o Ho); [left; by apply bool_decide_eq_true|by right].
  - destruct (decide (ty = Some (lit "array"))) as [Ht|Ht]; [|by rewrite bool_decide_eq_false_2].
    apply orb_true_iff. right. by apply bool_decide_eq_true, node_items.
  - destruct ty as [t|] eqn:Ht; [|done]. destruct (decide (t = lit "object")) as [->|Hne]; [done|].
    destruct (has_combiner o) eqn:Hc; [by rewrite !orb_true_r|].
    destruct (node_scalar o t Ht Hne Hc) as [Hp Hr]. unfold has. rewrite Hp, Hr. by rewrite orb_true_r.
  - destruct (map_get (lit "enum") (repair_node o)) as [[| | | |e|]|] eqn:E; try done.
    destruct (node_enum o e E) as [Ht He]. unfold ty. by rewrite Ht, He.
  - destruct (str_of "format" (repair_node o)) as [f|] eqn:E; [|done]. by apply node_format.
  - unfold repair_node. set (o5 := repair_format _ _). destruct (repair_required_spec o5) as [H _].
    rewrite (repair_required_same o5 "properties") by set_solver.
    destruct (map_get (lit "required") (repair_required o5)) as [[]|]; try done.
    by destruct (map_get (lit "properties") o5) as [[]|].
Qed.

Lemma repair_part_valid (k : str) (v : Json) :
  dialect_part dialect k v = true →
  ((dialect v = true → valid (repair v) = true)
   ∧ match v with
     | Array a => Forall (λ x, dialect x = true → valid (repair x) = true) a
     | Object m => Forall (λ q, dialect q.2 = true → valid (repair q.2) = true) m
     | _ => True
     end) →
  dialect_part valid k (repair_part repair k v) = true.
Proof.
  unfold dialect_part, repair_part. intros Hd [Hv Hsub]. destruct (key_in k ["properties"%string]).
  { destruct v as [| | | | |m]; try done. rewrite forallb_map. apply forallb_Forall. apply forallb_Forall in Hd.
    rewrite Forall_forall in Hd, Hsub |- *. intros q Hq. by apply Hsub, Hd. }
  destruct (key_in k ["items"%string]).
  { destruct v as [| | | |a|m]; try done.
    - rewrite forallb_map. apply forallb_Forall. apply forallb_Forall in Hd. rewrite Forall_forall in Hd, Hsub |- *.
      intros x Hx. by apply Hsub, Hd.
    - specialize (Hv Hd). by destruct (repair (Object m)). }
  destruct (key_in k COMBINERS); [|done]. destruct v as [| | | |a|]; try done. rewrite forallb_map. apply forallb_Forall.
  apply forallb_Forall in Hd. rewrite Forall_forall in Hd, Hsub |- *. intros x Hx. by apply Hsub, Hd.
Qed.

Lemma repair_valid (v : Json) : dialect v = true → valid (repair v) = true.
Proof.
  induction v as [|b|t|s|l IH|m IH] using json_ind2; try done. intros Hd%dialect_object. cbn [repair valid].
  set (o := map _ m).
  assert (in_dialect valid o) as Ho.
  { unfold o, in_dialect in *. apply Forall_map. rewrite Forall_forall in Hd, IH |- *. intros [k v] Hp. simpl.
    apply repair_part_valid; [exact (Hd _ Hp)|exact (IH _ Hp)]. }
  rewrite repair_node_ok by done. apply forallb_Forall. by apply repair_node_dialect.
Qed.

(** C20: No tool can spoil a request by its schema: where the types a server names are types
    Gemini knows and its definitions are schemas, whatever else it declares, what [convert]
    makes of it is an object schema of Gemini's dialect that keeps every rule of its
    validator, at every depth: only known keys, a known type or a combiner at each node, arrays
    with items, string enums, formats that fit, nothing required that is not declared. *)
Theorem convert_valid (schema out : Json) :
  well_typed schema = true → convert schema = Some out →
  valid out = true ∧ (t ← get "type" out; as_str t) = Some (lit "object").
Proof.
  intros Hw. unfold convert. destruct schema as [| | | | |o]; try done. destruct (_ && _); [done|].
  intros (v & Hv & Hout)%bind_Some. case_bool_decide as Ht; [|done]. injection Hout as <-. split; [|done].
  apply repair_valid. eapply to_openapi_dialect; [|exact Hv]. by apply sanitize_types, resolve_types.
Qed.
End Schema.

(** ** On concrete schemas *)
Module Samples.
Definition no_print (_ : Json) : str := [].

(** A port that may be a number or a name, a nullable enum of numbers, and a node that refers
    to itself. *)
Definition tool_schema : Json :=
  obj [("type", s_ "object");
       ("properties",
        obj [("port", obj [("type", Array [s_ "integer"; s_ "string"]); ("format", s_ "int32")]);
             ("level", obj [("enum", Array [Number (lit "1"); Number (lit "2"); Null])]);
             ("tree", obj [("$ref", s_ "#/$defs/node")])]);
       ("required", Array [s_ "port"; s_ "gone"]);
       ("$defs",
        obj [("node", obj [("type", s_ "object"); ("properties", obj [("next", obj [("$ref", s_ "#/$defs/node")])])])])]%string.

(** What is asked of each property of [tool_schema]. *)
Definition property (v : Json) (k : string) : option Json := get "properties" v ≫= get k.

Definition converted : option Json := convert no_print tool_schema.

Example tool_schema_converted :
  (v ← converted; property v "port")
  = Some (obj [("anyOf", Array [obj [("type", s_ "integer"); ("format", s_ "int32")]; obj [("type", s_ "string")]])]%string)
  ∧ (v ← converted; property v "level")
    = Some (obj [("type", s_ "string"); ("enum", Array [s_ "1"; s_ "2"; s_ "null"])]%string)
  ∧ (v ← converted; property v "tree")
    = Some (obj [("type", s_ "object"); ("properties", obj [("next", obj [("type", s_ "object")])])]%string)
  ∧ (v ← converted; get "required" v) = Some (Array [s_ "port"]).
Proof. vm_compute. done. Qed.

Lemma convert_valid_witness :
  well_typed tool_schema = true ∧ is_Some converted ∧ from_option valid false converted = true.
Proof.
  assert (well_typed tool_schema = true) as Hw by (vm_compute; reflexivity). split; [exact Hw|].
  assert (is_Some converted) as H by (vm_compute; by eexists). split; [exact H|].
  destruct converted as [out|] eqn:E; [|destruct H; discriminate]. exact (proj1 (convert_valid no_print tool_schema out Hw E)).
Defined.

(** What [repair] lets through: its comment says that it enforces the invariants of Gemini's
    validator whatever shape the input had, but a type the dialect does not know and a
    [required] that is no list are both kept. *)
Lemma repair_lets_through :
  let schema := obj [("type", s_ "object"); ("required", Bool true); ("properties", obj [("p", obj [("type", s_ "file")])])]%string in
  let out := obj [("required", Bool true); ("type", s_ "object"); ("properties", obj [("p", obj [("type", s_ "file")])])]%string in
  well_typed schema = false ∧ convert no_print schema = Some out ∧ valid out = false.
Proof. vm_compute. done. Qed.
End Samples.
