(* ===== verification/Gemini.v ===== *)
(** * The Gemini provider (agent/src/provider/gemini.rs)

    The turns of a request ([to_contents]), the options of thinking, the request body,
    the accumulation of a stream ([StreamState]), the pages of models and the naming of a
    rejected tool.

    serde_json's reading of a chunk and its printing of a value, the ids of uuid and the
    translation of a tool's schema (gemini_schema.rs) are arguments.  A turn is its kind
    and its parts, from which the code builds its JSON in place.  The sums of [u32]
    counters wrap, as a release build does. *)

From S2P Require Import Prelude Json Transcript Classify Session Completion.

Definition SKIP_SIGNATURE : str := lit "skip_thought_signature_validator".

Definition MODELS_MAX_PAGES : nat := 10.

Definition NON_CHAT_MARKERS : list str :=
  lit <$> ["embed"; "tts"; "image"; "imagen"; "veo"; "lyria"; "live"; "audio"; "omni"; "robotics";
           "deep-research"; "computer-use"; "aqa"]%string.

(** ** Errors *)

Definition http_error (status : N) (body : str) : ProviderError :=
  if (status =? 400)%N && contains_str (lit "API_KEY_INVALID") body then Auth body
  else from_http_status status body.

(** [take_while] of digits *)
Fixpoint digits_of (s : str) : str :=
  match s with
  | c :: s => if is_ascii_digit c then c :: digits_of s else []
  | [] => []
  end.

Definition usize_max : N := 18446744073709551615.

Definition name_rejected_tool (err : ProviderError) (tools : list ToolSchema) : ProviderError :=
  match err with
  | Http (Some 400%N) body =>
      match (rest ← find_str (lit "function_declarations[") body;
             i ← parse_uint usize_max (digits_of rest);
             tools !! N.to_nat i) with
      | Some tool =>
          Http (Some 400%N)
            (body ++ LF :: lit "(Gemini rejected the schema of tool `" ++ schema_name tool ++ lit "` "
               ++ 8212%N :: lit " disable it or the MCP server that provides it)")
      | None => err
      end
  | _ => err
  end.

(** ** Models *)

Record ApiModel : Set := {
  api_name : str; display_name : option str; input_token_limit : option N; methods : list str;
}.

Record ModelsPage : Set := { page_models : list ApiModel; next_page_token : option str }.

Definition is_chat_model_id (id : str) : bool :=
  negb (existsb (λ m, contains_str m (str_to_ascii_lowercase id)) NON_CHAT_MARKERS).

Definition chat_model (m : ApiModel) : option ModelInfo :=
  if bool_decide (lit "generateContent" ∈ methods m) then
    let id := default (api_name m) (strip_prefix (lit "models/") (api_name m)) in
    if is_chat_model_id id
    then Some {| info_id := id; info_name := display_name m; context_length := input_token_limit m |} else None
  else None.

Definition parse_models_page (from_str : str → result ModelsPage str) (body : str) :
    result (list ModelInfo * option str) ProviderError :=
  match from_str body with
  | Err e => Err (Decode e)
  | Ok page =>
      Ok (omap chat_model (page_models page),
          t ← next_page_token page; if bool_decide (t = []) then None else Some t)
  end.

(** A response to a page: the server is asked with the token of the page before. *)
Definition page_of (from_str : str → result ModelsPage str) (resp : result Response str) :
    result (list ModelInfo * option str) ProviderError :=
  match resp with
  | Err e => Err (transport e)
  | Ok r => if is_success r then parse_models_page from_str (body_text r)
            else Err (http_error (status r) (body_text r))
  end.

Fixpoint fetch_pages (from_str : str → result ModelsPage str) (server : option str → result Response str)
    (pages : nat) (token : option str) : result (list ModelInfo) ProviderError :=
  match pages with
  | 0 => Ok []
  | S pages =>
      '(models, next) <-? page_of from_str (server token);
      match next with
      | Some t => rest <-? fetch_pages from_str server pages (Some t); Ok (models ++ rest)
      | None => Ok models
      end
  end.

Definition fetch_live_models (from_str : str → result ModelsPage str) (server : option str → result Response str) :
    result (list ModelInfo) ProviderError := fetch_pages from_str server MODELS_MAX_PAGES None.

Definition list_models (live : result (list ModelInfo) ProviderError) (cat static_models : list ModelInfo) :
    result (list ModelInfo) ProviderError :=
  match live with
  | Ok ((_ :: _) as l) => Ok l
  | _ =>
      if bool_decide (cat = []) then
        match live with
        | Ok l => Ok l
        | Err e => if bool_decide (static_models = []) then Err e else Ok static_models
        end
      else Ok cat
  end.

(** ** Thinking *)

Record Gates : Set := { g_vision : bool; g_temperature : bool; g_tools : bool; g_thinking : bool }.

Definition from_capabilities (caps : option ModelCapabilities) : Gates :=
  {| g_vision := allowed cap_vision caps; g_temperature := allowed cap_temperature caps;
     g_tools := allowed cap_tool_call caps;
     g_thinking := match caps with Some c => cap_reasoning c | None => false end |}.

(** [rsplit('/').next()] *)
Definition last_segment (model : str) : str := default model (last (split_char SLASH model)).

Definition gemini_major (id : str) : option N :=
  rest ← strip_prefix (lit "gemini-") id; parse_uint u32_max (digits_of rest).

Definition is_gemini_25 (id : str) : bool :=
  starts_with (lit "gemini-2.5") id || starts_with (lit "gemini-2-5") id.

Definition clamp (x lo hi : N) : N := N.max lo (N.min x hi).

Definition budget_of (effort : str) (max : N) : N :=
  if decide (effort = lit "none") then 0%N
  else if decide (effort = lit "minimal") then 1024%N
  else if decide (effort = lit "low") then 4096%N
  else if decide (effort = lit "medium") then 16000%N
  else max.

Definition level_of (flash : bool) (effort : option str) (budget_tokens : option N) : option str :=
  match effort with
  | Some e =>
      Some (if decide (e = lit "none" ∨ e = lit "minimal") then (if flash then lit "minimal" else lit "low")
            else if decide (e = lit "low") then lit "low"
            else if decide (e = lit "medium") then (if flash then lit "medium" else lit "high")
            else lit "high")
  | None => b ← budget_tokens; Some (if (b <=? 4096)%N then lit "low" else lit "high")
  end.

Definition thinking_config (model : str) (effort : option str) (budget_tokens : option N) : option Json :=
  let id := str_to_ascii_lowercase (last_segment model) in
  if is_gemini_25 id then
    let '(min, max) := if contains_str (lit "pro") id then (128, 32768)%N else (0, 24576)%N in
    b ← match budget_tokens with Some b => Some b | None => (λ e, budget_of e max) <$> effort end;
    Some (obj [("thinkingBudget"%string, nat_json (clamp b min max))])
  else if match gemini_major id with Some m => (3 <=? m)%N | None => false end then
    l ← level_of (contains_str (lit "flash") id) effort budget_tokens;
    Some (obj [("thinkingLevel"%string, String_ l)])
  else None.

(** ** Turns *)

Inductive Turn : Set := UserTurn | ToolResults | ModelTurn.

#[global] Instance Turn_eq_dec : EqDecision Turn.
Proof. solve_decision. Defined.

(** [contents] is kept with its last turn first. *)
Definition push_content (contents : list (Turn * list Json)) (turn : Turn) (parts : list Json) :
    list (Turn * list Json) :=
  match parts, contents with
  | [], _ => contents
  | _, (last_turn, existing) :: rest =>
      if decide (last_turn = turn) then (last_turn, existing ++ parts) :: rest
      else (turn, parts) :: contents
  | _, [] => [(turn, parts)]
  end.

Definition turn_json (c : Turn * list Json) : Json :=
  obj [("role"%string, String_ (if decide (c.1 = ModelTurn) then lit "model" else lit "user"));
       ("parts"%string, Array c.2)].

Definition is_gemma (model : str) : bool :=
  starts_with (lit "gemma-") (str_to_ascii_lowercase (last_segment model)).

Definition text_part (s : str) : Json := obj [("text"%string, String_ s)].

Definition image_part (img : ImageAttachment) : Json :=
  obj [("inlineData"%string, obj [("mimeType"%string, String_ (mime img)); ("data"%string, String_ (data img))])].

Section Contents.
Context (from_str : str → option Json).

Definition function_call_args (arguments : str) : Json :=
  match from_str arguments with Some (Object m) => Object m | _ => Object [] end.

Definition call_part (gemini3 : bool) (i : nat) (tc : ToolCall) : Json :=
  let signature := match thought_signature tc with
                   | Some s => Some s
                   | None => if gemini3 && (i =? 0) then Some SKIP_SIGNATURE else None
                   end in
  set_some "thoughtSignature" (String_ <$> signature)
    (obj [("functionCall"%string, obj [("name"%string, String_ (tc_name tc));
                                       ("args"%string, function_call_args (arguments tc))])]).

Definition user_parts (vision : bool) (m : ChatMessage) : list Json :=
  if negb (bool_decide (images m = [])) && negb vision
  then [text_part (dropped_images_note (content m) (length (images m)))]
  else (if bool_decide (content m = []) then [] else [text_part (content m)]) ++ (image_part <$> images m).

Definition model_parts (gemini3 : bool) (m : ChatMessage) : list Json :=
  (if bool_decide (content m = []) then [] else [text_part (content m)]) ++ imap (call_part gemini3) (tool_calls m).

Definition response_part (name content : str) : Json :=
  obj [("functionResponse"%string, obj [("name"%string, String_ name);
         ("response"%string, obj [("name"%string, String_ name);
            ("content"%string, String_ (if bool_decide (trim content = []) then lit "Tool executed successfully."
                                        else content))])])].

Definition response_name (call_names : gmap str str) (m : ChatMessage) : str :=
  default (lit "tool") (match msg_name m with
                        | Some n => Some n
                        | None => id ← tool_call_id m; call_names !! id
                        end).

Record Contents : Set := { system : list str; contents : list (Turn * list Json); call_names : gmap str str }.

Definition to_contents_step (vision gemini3 : bool) (s : Contents) (m : ChatMessage) : Contents :=
  match role m with
  | System =>
      {| system := if bool_decide (trim (content m) = []) then system s else system s ++ [content m];
         contents := contents s; call_names := call_names s |}
  | User =>
      {| system := system s; contents := push_content (contents s) UserTurn (user_parts vision m);
         call_names := call_names s |}
  | Assistant =>
      {| system := system s; contents := push_content (contents s) ModelTurn (model_parts gemini3 m);
         call_names := foldl (λ names tc, <[tc_id tc := tc_name tc]> names) (call_names s) (tool_calls m) |}
  | Tool =>
      {| system := system s;
         contents := push_content (contents s) ToolResults [response_part (response_name (call_names s) m) (content m)];
         call_names := call_names s |}
  end.

Definition is_gemini3 (model : str) : bool :=
  match gemini_major (str_to_ascii_lowercase (last_segment model)) with Some m => (3 <=? m)%N | None => false end.

Definition to_turns (model : str) (vision : bool) (l : list ChatMessage) : Contents :=
  foldl (to_contents_step vision (is_gemini3 model)) {| system := []; contents := []; call_names := ∅ |} l.

Definition to_contents (l : list ChatMessage) (model : str) (vision : bool) : option str * list (Turn * list Json) :=
  let s := to_turns model vision l in
  (if bool_decide (system s = []) then None else Some (join [LF; LF] (system s)), reverse (contents s)).

(** ** The request *)

(** The system prompt of a Gemma model leads its first user turn. *)
Definition lead_with (text : str) (contents : list (Turn * list Json)) : list (Turn * list Json) :=
  let lead := text_part (text ++ [LF; LF]) in
  match contents with
  | (turn, parts) :: rest =>
      if decide (turn ≠ ModelTurn) then (turn, lead :: parts) :: rest else (UserTurn, [lead]) :: contents
  | [] => [(UserTurn, [lead])]
  end.

Definition declaration (convert : Json → option Json) (t : ToolSchema) : Json :=
  set_some "parameters" (convert (parameters t))
    (obj [("name"%string, String_ (schema_name t)); ("description"%string, String_ (description t))]).

Definition generation_config (req : CompletionRequest) (gates : Gates) (reasoning : option Json) : Json :=
  let g := set_some "maxOutputTokens" (nat_json <$> max_tokens req) (Object []) in
  let g := if g_temperature gates then set_some "temperature" (Json.Number <$> temperature req) g else g in
  if g_thinking gates then
    let effort := r ← reasoning; e ← get "effort" r; as_str e in
    let budget := r ← reasoning; b ← get "budget_tokens" r; n ← as_u64 b; if (n <=? u32_max)%N then Some n else None in
    set_some "thinkingConfig" (thinking_config (model req) effort budget) g
  else g.

Definition build_request_body (convert : Json → option Json) (req : CompletionRequest) (gates : Gates) : Json :=
  let '(system, turns) := to_contents (messages req) (model req) (g_vision gates) in
  let gemma := is_gemma (model req) in
  let turns := match system with Some text => if gemma then lead_with text turns else turns | None => turns end in
  let body := obj [("contents"%string, Array (turn_json <$> turns))] in
  let body := match system with
              | Some text => set_when (negb gemma) "systemInstruction" (obj [("parts"%string, Array [text_part text])]) body
              | None => body
              end in
  let body := set_when (g_tools gates && negb (bool_decide (tools req = []))) "tools"
                (Array [obj [("functionDeclarations"%string, Array (declaration convert <$> tools req))]]) body in
  let reasoning := o ← provider_options req; get "reasoning" o in
  let g := generation_config req gates reasoning in
  let body := set_when (negb (bool_decide (g = Object []))) "generationConfig" g body in
  match provider_options req with
  | Some o => merge_top_level body (remove_key "reasoning" o)
  | None => body
  end.
End Contents.

(** ** The stream *)

Record FunctionCall : Set := { fc_name : str; fc_args : option Json; fc_id : option str }.

Record Part : Set := {
  p_text : option str; thought : option bool; p_signature : option str; function_call : option FunctionCall;
}.

Record Candidate : Set := { c_parts : option (list Part); c_finish : option str }.

Record UsageMetadata : Set := { u_prompt : N; u_candidates : N; u_thoughts : N; u_total : N }.

Record StreamChunk : Set := {
  candidates : list Candidate; usage_metadata : option UsageMetadata; block_reason : option str;
  chunk_error : option Json;
}.

Record StreamState : Set := {
  st_calls : list ToolCall; st_finish : option str; blocked : bool; st_usage : option TokenUsage;
}.

Definition new_state : StreamState := {| st_calls := []; st_finish := None; blocked := false; st_usage := None |}.

Definition usage_of (u : UsageMetadata) : TokenUsage :=
  let completion := as_u32 (u_candidates u + u_thoughts u) in
  {| prompt_tokens := u_prompt u; completion_tokens := completion;
     total_tokens := if (0 <? u_total u)%N then u_total u else as_u32 (u_prompt u + completion) |}.

Section Stream.
Context (from_str : str → option StreamChunk) (to_string : Json → str) (uuid : nat → str).

(** A call; the [n]th call of the stream gets the [n]th generated id when it brings none. *)
Definition call_of (n : nat) (fc : FunctionCall) (signature : option str) : ToolCall :=
  {| tc_id := match fc_id fc with
              | Some i => if bool_decide (i = []) then lit "call_" ++ uuid n else i
              | None => lit "call_" ++ uuid n
              end;
     tc_name := fc_name fc;
     arguments := match fc_args fc with Some (Object m) => to_string (Object m) | _ => lit "{}" end;
     thought_signature := s ← signature; if bool_decide (s = []) then None else Some s |}.

Definition announce (tc : ToolCall) : list CompletionEvent :=
  [ToolCallStart (tc_id tc) (tc_name tc); ToolCallArgsDelta (tc_id tc) (arguments tc); ToolCallEnd (tc_id tc)].

Definition on_function_call (fc : FunctionCall) (signature : option str) (s : StreamState) :
    StreamState * list CompletionEvent :=
  let tc := call_of (length (st_calls s)) fc signature in
  ({| st_calls := st_calls s ++ [tc]; st_finish := st_finish s; blocked := blocked s; st_usage := st_usage s |},
   announce tc).

Definition on_part (s : StreamState * list CompletionEvent) (p : Part) : StreamState * list CompletionEvent :=
  match function_call p with
  | Some fc => let '(t, evs) := on_function_call fc (p_signature p) s.1 in (t, s.2 ++ evs)
  | None =>
      match p_text p with
      | Some t => if bool_decide (thought p ≠ Some true) && negb (bool_decide (t = []))
                  then (s.1, s.2 ++ [TokenDelta t]) else s
      | None => s
      end
  end.

Definition chunk_failure (data : str) (err : Json) : ProviderError :=
  Http (c ← get "code" err; n ← as_u64 c; if (n <=? 65535)%N then Some n else None)
    (default data (m ← get "message" err; as_str m)).

(** What a chunk says besides its parts. *)
Definition note_chunk (c : StreamChunk) (s : StreamState) : StreamState :=
  {| st_calls := st_calls s;
     st_finish := match head (candidates c) with
                  | Some cand => match c_finish cand with Some r => Some r | None => st_finish s end
                  | None => st_finish s
                  end;
     blocked := blocked s || match block_reason c with Some r => negb (bool_decide (r = [])) | None => false end;
     st_usage := match usage_metadata c with Some u => Some (usage_of u) | None => st_usage s end |}.

Definition parts_of (c : StreamChunk) : list Part := default [] (cand ← head (candidates c); c_parts cand).

Definition on_data (s : StreamState * list CompletionEvent) (data : str) :
    result (StreamState * list CompletionEvent) ProviderError :=
  match from_str data with
  | None => Ok s
  | Some c =>
      match chunk_error c with
      | Some err => Err (chunk_failure data err)
      | None => Ok (foldl on_part (note_chunk c s.1, s.2) (parts_of c))
      end
  end.

Definition FILTERED : list str :=
  lit <$> ["SAFETY"; "RECITATION"; "BLOCKLIST"; "PROHIBITED_CONTENT"; "SPII"; "IMAGE_SAFETY"; "LANGUAGE"]%string.

Definition finish_of (s : StreamState) : FinishReason :=
  if negb (bool_decide (st_calls s = [])) then ToolCalls
  else if blocked s then ContentFilter
  else match st_finish s with
       | Some r => if decide (r = lit "MAX_TOKENS") then Length
                   else if decide (r ∈ FILTERED) then ContentFilter
                   else if decide (r = lit "STOP") then Stop
                   else Other
       | None => Stop
       end.

Definition finish (s : StreamState) : CompletionFinal :=
  {| finish_reason := finish_of s; final_calls := st_calls s; usage := st_usage s; final_reasoning := None;
     final_thinking := [] |}.

Fixpoint read_from (s : StreamState * list CompletionEvent) (cs : list (result str ProviderError)) : Streamed :=
  match cs with
  | [] => {| events := s.2; outcome := Ok (finish s.1) |}
  | Err e :: _ => {| events := s.2; outcome := Err e |}
  | Ok data :: cs =>
      match on_data s data with
      | Ok s => read_from s cs
      | Err e => {| events := s.2; outcome := Err e |}
      end
  end.

Definition read_stream : list (result str ProviderError) → Streamed := read_from (new_state, []).
End Stream.

(** From sending the request to the stream; a rejected schema is named. *)
Definition stream_completion (parse : str → option Json) (from_str : str → option StreamChunk)
    (to_string : Json → str) (uuid : nat → str) (convert : Json → option Json) (eventsource : Eventsource)
    (post : Json → result Response str) (caps : option ModelCapabilities) (req : CompletionRequest) : Streamed :=
  let gates := from_capabilities caps in
  match post (build_request_body parse convert req gates) with
  | Err e => {| events := []; outcome := Err (transport e) |}
  | Ok r =>
      if is_success r
      then read_stream from_str to_string uuid (sse_events eventsource (body_chunks r) STREAM_IDLE_TIMEOUT)
      else {| events := [];
              outcome := Err (name_rejected_tool (http_error (status r) (body_text r))
                                (if g_tools gates then tools req else [])) |}
  end.

(** ** What a stream says *)

Section Reads.
Context (from_str : str → option StreamChunk) (to_string : Json → str) (uuid : nat → str).

(** The chunks the loop acts on, and the error that ends it. *)
Fixpoint consumed (cs : list (result str ProviderError)) : list StreamChunk * option ProviderError :=
  match cs with
  | [] => ([], None)
  | Err e :: _ => ([], Some e)
  | Ok data :: cs =>
      match from_str data with
      | None => consumed cs
      | Some c =>
          match chunk_error c with
          | Some err => ([], Some (chunk_failure data err))
          | None => let '(l, e) := consumed cs in (c :: l, e)
          end
      end
  end.

Definition call_part_of (p : Part) : option (FunctionCall * option str) :=
  (λ fc, (fc, p_signature p)) <$> function_call p.

(** The calls of the parts, in their order. *)
Definition calls_of (ps : list Part) : list ToolCall :=
  imap (λ n c, call_of to_string uuid n c.1 c.2) (omap call_part_of ps).

Definition all_parts (l : list StreamChunk) : list Part := l ≫= parts_of.

(** The text of a part that is shown. *)
Definition shown_text (p : Part) : str :=
  match function_call p, p_text p with
  | None, Some t => if bool_decide (thought p ≠ Some true) then t else []
  | _, _ => []
  end.

Definition on_chunk (s : StreamState * list CompletionEvent) (c : StreamChunk) : StreamState * list CompletionEvent :=
  foldl (on_part to_string uuid) (note_chunk c s.1, s.2) (parts_of c).

Lemma read_chunks_consumed s cs :
  read_from from_str to_string uuid s cs
  = let '(l, e) := consumed cs in
    let r := foldl on_chunk s l in
    {| events := r.2; outcome := match e with Some e => Err e | None => Ok (finish r.1) end |}.
Proof.
  revert s. induction cs as [|[data|e] cs IH]; intros s; simpl; [done| |done]. unfold on_data.
  destruct (from_str data) as [c|]; [|apply IH]. destruct (chunk_error c); [done|]. rewrite IH.
  by destruct (consumed cs) as [l e].
Qed.

(** The events of the calls and the text, in the order of the parts. *)
Record has_read (ps : list Part) (s : StreamState * list CompletionEvent) : Prop := {
  read_calls : st_calls s.1 = calls_of ps;
  read_text : text_of s.2 = concat (shown_text <$> ps);
  read_about : ∀ i, filter (about i) s.2 = filter (about i) (calls_of ps ≫= announce);
}.

Lemma calls_of_snoc ps p :
  calls_of (ps ++ [p])
  = calls_of ps ++ match function_call p with
                   | Some fc => [call_of to_string uuid (length (calls_of ps)) fc (p_signature p)]
                   | None => []
                   end.
Proof.
  unfold calls_of. rewrite omap_app, imap_app, length_imap. simpl. unfold call_part_of at 3.
  destruct (function_call p); simpl; [|done]. by rewrite Nat.add_0_r.
Qed.

Lemma on_part_text p s out :
  function_call p = None →
  on_part to_string uuid (s, out) p
  = (s, out ++ if decide (shown_text p = []) then [] else [TokenDelta (shown_text p)]).
Proof.
  intros Ef. unfold on_part, shown_text. rewrite Ef. destruct (p_text p) as [[|c t]|];
    destruct (bool_decide (thought p ≠ Some true)); simpl; by rewrite ?(right_id_L [] (++)).
Qed.

Lemma on_part_read ps s p : has_read ps s → has_read (ps ++ [p]) (on_part to_string uuid s p).
Proof.
  intros [Hc Ht Ha]. destruct s as [s out]. simpl in *.
  assert (concat (shown_text <$> ps ++ [p]) = concat (shown_text <$> ps) ++ shown_text p) as Et.
  { rewrite fmap_app, concat_app. f_equal. apply (right_id_L [] (++)). }
  destruct (function_call p) as [fc|] eqn:Ef.
  - assert (shown_text p = []) as Es by (unfold shown_text; by rewrite Ef).
    unfold on_part. rewrite Ef. split; simpl.
    + by rewrite calls_of_snoc, Ef, <- Hc.
    + rewrite text_of_app, Et, Ht, Es. done.
    + intros i. rewrite calls_of_snoc, Ef, bind_app, !filter_app, Ha, <- Hc. f_equal.
  - rewrite on_part_text by done. split; simpl.
    + by rewrite calls_of_snoc, Ef, (right_id_L [] (++)).
    + rewrite text_of_app, Et, Ht. f_equal. destruct (decide (shown_text p = [])) as [->|]; [done|]. cbn.
      apply (right_id_L [] (++)).
    + intros i. rewrite calls_of_snoc, Ef, (right_id_L [] (++)), filter_app, Ha.
      destruct (decide (shown_text p = [])); apply (right_id_L [] (++)).
Qed.

Lemma on_parts_read ps qs s : has_read ps s → has_read (ps ++ qs) (foldl (on_part to_string uuid) s qs).
Proof.
  revert ps s. induction qs as [|q qs IH]; intros ps s H; [by rewrite (right_id_L [] (++))|].
  simpl. rewrite cons_middle, (assoc_L (++)). apply IH. by apply on_part_read.
Qed.

Lemma on_chunks_read (l : list StreamChunk) : has_read (all_parts l) (foldl on_chunk (new_state, []) l).
Proof.
  induction l as [|c l IH] using rev_ind; [by split|]. rewrite foldl_snoc. unfold all_parts. rewrite bind_app. simpl.
  rewrite (right_id_L [] (++)). unfold on_chunk at 1. apply on_parts_read. destruct IH as [Hc Ht Ha]. by split.
Qed.

(** A stream gives what its parts say, in their order: the calls whole, with their
    signatures, ids generated where the API sends none, and the text, without the thoughts,
    which are neither shown nor kept; a stream that fails ends with its failure. *)
Theorem parts_assembled (cs : list (result str ProviderError)) :
  let '(l, e) := consumed cs in
  let s := read_stream from_str to_string uuid cs in
  text_of (events s) = concat (shown_text <$> all_parts l)
  ∧ match e with
    | Some e => outcome s = Err e
    | None => ∃ fin, outcome s = Ok fin ∧ final_calls fin = calls_of (all_parts l)
        ∧ (final_calls fin ≠ [] → finish_reason fin = ToolCalls)
    end.
Proof.
  unfold read_stream. rewrite read_chunks_consumed. destruct (consumed cs) as [l e].
  pose proof (on_chunks_read l) as [Hc Ht _]. cbn [events outcome]. split; [done|].
  destruct e; [done|]. eexists. split; [done|]. split; [done|]. cbn. unfold finish_of. intros Hne.
  by rewrite bool_decide_eq_false_2.
Qed.

(** The protocol: calls have ids of their own. *)
Definition conforming (cs : list (result str ProviderError)) : Prop :=
  NoDup (tc_id <$> calls_of (all_parts (consumed cs).1)).

Lemma announce_about tc : filter (about (tc_id tc)) (announce tc) = announce tc.
Proof. unfold announce. by rewrite !filter_cons_True. Qed.

Lemma announce_other tc i : tc_id tc ≠ i → filter (about i) (announce tc) = [].
Proof. intros H. unfold announce. by rewrite !filter_cons_False. Qed.

Lemma announced_calls (l : list ToolCall) tc :
  NoDup (tc_id <$> l) → tc ∈ l → filter (about (tc_id tc)) (l ≫= announce) = announce tc.
Proof.
  induction l as [|t l IH]; [by intros _ ?%not_elem_of_nil|]. rewrite bind_cons, fmap_cons, filter_app.
  intros [Hn Hnd]%NoDup_cons [->|Hin]%elem_of_cons.
  - rewrite announce_about. assert (filter (about (tc_id t)) (l ≫= announce) = []) as ->; [|apply (right_id_L [] (++))].
    clear IH Hnd. induction l as [|u l IH]; [done|]. rewrite bind_cons, filter_app. apply not_elem_of_cons in Hn as [Hu Hn].
    rewrite announce_other by done. by apply IH.
  - rewrite announce_other; [by apply IH|]. intros E. apply Hn. rewrite E. by apply list_elem_of_fmap_2.
Qed.

#[global] Instance gemini_adapter : Adapter conforming (read_stream from_str to_string uuid).
Proof.
  split; intros cs fin Hc; unfold conforming, read_stream in *; rewrite read_chunks_consumed;
    destruct (consumed cs) as [l [e|]]; try done; pose proof (on_chunks_read l) as [Hcalls _ Ha];
    cbn [events outcome fst] in *; intros [= <-]; cbn [finish final_calls]; rewrite Hcalls; [done|].
  apply Forall_forall. intros tc Htc. exists [arguments tc]. rewrite Ha, announced_calls by done. split; [done|].
  left. apply (right_id_L [] (++)).
Qed.
End Reads.

(** ** What a request says

    Gemini wants the responses of a model turn's calls in the turn right behind it, one
    for each call, and wants Gemini 3 calls signed. *)

Definition part_field (kind field : string) (p : Json) : option str := f ← get kind p; x ← get field f; as_str x.

Definition called : list Json → list str := omap (part_field "functionCall" "name").

Definition responded : list Json → list str := omap (part_field "functionResponse" "name").

#[global] Arguments called : simpl never.

#[global] Arguments responded : simpl never.

Definition is_call_part (p : Json) : Prop := is_Some (get "functionCall" p).

#[global] Instance is_call_part_dec p : Decision (is_call_part p).
Proof. unfold is_call_part. apply _. Defined.

Definition first_signed (parts : list Json) : Prop :=
  match filter is_call_part parts with [] => True | p :: _ => is_Some (get "thoughtSignature" p) end.

Definition leads (t : Turn) (ts : list (Turn * list Json)) : Prop := fst <$> head ts = Some t.

(** The turns, the last one first, when the calls with the names [pending] have no response yet:
    turns of a kind are merged, none is empty, and the responses stand right behind the calls. *)
Fixpoint turns_ok (gemini3 : bool) (pending : list str) (ts : list (Turn * list Json)) : Prop :=
  match ts with
  | [] => pending = []
  | (turn, parts) :: rest =>
      parts ≠ [] ∧
      match turn with
      | UserTurn =>
          pending = [] ∧ called parts = [] ∧ responded parts = [] ∧ ¬ leads UserTurn rest ∧ turns_ok gemini3 [] rest
      | ModelTurn =>
          pending ≡ₚ called parts ∧ responded parts = [] ∧ (gemini3 = true → first_signed parts)
          ∧ ¬ leads ModelTurn rest ∧ turns_ok gemini3 [] rest
      | ToolResults =>
          called parts = [] ∧ length (responded parts) = length parts
          ∧ leads ModelTurn rest ∧ turns_ok gemini3 (pending ++ responded parts) rest
      end
  end.

(** Each call is answered once, right behind its message, under its own name where the answer
    says one; [pending] are the calls still to answer. *)
Fixpoint answered_from (pending : list ToolCall) (l : list ChatMessage) : Prop :=
  match l with
  | [] => pending = []
  | m :: l =>
      match role m with
      | Tool =>
          ∃ pre tc post, pending = pre ++ tc :: post ∧ tool_call_id m = Some (tc_id tc)
            ∧ (msg_name m = None ∨ msg_name m = Some (tc_name tc)) ∧ answered_from (pre ++ post) l
      | Assistant => pending = [] ∧ NoDup (tc_id <$> tool_calls m) ∧ answered_from (tool_calls m) l
      | _ => pending = [] ∧ answered_from [] l
      end
  end.

Lemma turns_ok_perm g3 p q ts : p ≡ₚ q → turns_ok g3 p ts → turns_ok g3 q ts.
Proof.
  revert p q. induction ts as [|[t ps] ts IH]; intros p q Hpq; simpl.
  - intros ->. by apply Permutation_nil_l in Hpq.
  - intros [Hne H]. split; [done|]. destruct t.
    + destruct H as (-> & H). split; [by apply Permutation_nil_l in Hpq|done].
    + destruct H as (H1 & H2 & H3 & H). split_and!; [done..|]. by eapply IH; [apply Permutation_app_tail|].
    + destruct H as (H1 & H). split; [by rewrite <- Hpq|done].
Qed.

Lemma omap_called ps qs : called (ps ++ qs) = called ps ++ called qs.
Proof. apply omap_app. Qed.

Lemma omap_responded ps qs : responded (ps ++ qs) = responded ps ++ responded qs.
Proof. apply omap_app. Qed.

Section Request.
Context (from_str : str → option Json) (vision : bool).

Lemma push_user g3 ts ps :
  turns_ok g3 [] ts → called ps = [] → responded ps = [] → turns_ok g3 [] (push_content ts UserTurn ps).
Proof.
  intros Ht Hc Hr. destruct ps as [|p ps]; [done|]. destruct ts as [|[t qs] ts]; simpl; [done|].
  case_decide as E; [subst t; simpl|].
  - destruct Ht as (Hne & _ & Hc' & Hr' & H). rewrite omap_called, omap_responded, Hc', Hr'. split; [by destruct qs|].
    by split_and!; destruct H.
  - split_and!; try done. unfold leads. simpl. congruence.
Qed.

Lemma push_model g3 ts ps :
  turns_ok g3 [] ts → responded ps = [] → (g3 = true → first_signed ps) →
  turns_ok g3 (called ps) (push_content ts ModelTurn ps).
Proof.
  intros Ht Hr Hs. destruct ps as [|p ps]; [done|]. destruct ts as [|[t qs] ts]; [by split_and!|].
  unfold push_content. case_decide as E; [subst t; simpl|].
  - destruct Ht as (Hne & Hc'%Permutation_nil_l & Hr' & Hs' & H). split; [by destruct qs|].
    rewrite omap_called, omap_responded, <- Hc', Hr', Hr. split_and!; [done..| |by destruct H|by destruct H].
    intros Hg. specialize (Hs Hg). specialize (Hs' Hg). unfold first_signed in *. rewrite filter_app.
    by destruct (filter is_call_part qs).
  - split_and!; try done. unfold leads. simpl. congruence.
Qed.

Lemma push_result g3 ts name pending c :
  turns_ok g3 (name :: pending) ts → turns_ok g3 pending (push_content ts ToolResults [response_part name c]).
Proof.
  intros Ht. destruct ts as [|[t qs] ts]; [done|]. destruct t; simpl in *.
  - by destruct Ht as (_ & [=] & _).
  - destruct Ht as (Hne & Hc & Hl & Hm & Ht). rewrite omap_called, omap_responded, Hc. split; [by destruct qs|].
    split_and!; [done| |done|].
    + rewrite !length_app. simpl. lia.
    + eapply turns_ok_perm; [|exact Ht]. simpl. rewrite (assoc_L (++)). by rewrite Permutation_cons_append.
  - destruct Ht as (Hne & Hp & Ht). repeat (split; [done|]). split; [|done].
    change (pending ++ [name] ≡ₚ called qs). by rewrite <- Permutation_cons_append.
Qed.

Lemma user_parts_plain m : called (user_parts vision m) = [] ∧ responded (user_parts vision m) = [].
Proof.
  unfold user_parts. destruct (_ && _); [done|]. rewrite omap_called, omap_responded.
  assert (called (image_part <$> images m) = [] ∧ responded (image_part <$> images m) = []) as [-> ->].
  { unfold called, responded. rewrite !omap_fmap. by induction (images m). }
  by destruct (bool_decide (content m = [])).
Qed.

Lemma call_part_fields g3 i tc :
  part_field "functionCall" "name" (call_part from_str g3 i tc) = Some (tc_name tc)
  ∧ part_field "functionResponse" "name" (call_part from_str g3 i tc) = None
  ∧ is_call_part (call_part from_str g3 i tc).
Proof. unfold call_part, is_call_part. by destruct (thought_signature tc), g3, i. Qed.

Lemma call_part_signed tc : is_Some (get "thoughtSignature" (call_part from_str true 0 tc)).
Proof. unfold call_part. by destruct (thought_signature tc). Qed.

Lemma called_imap (g : nat → ToolCall → Json) (l : list ToolCall) :
  (∀ n tc, part_field "functionCall" "name" (g n tc) = Some (tc_name tc)) → called (imap g l) = tc_name <$> l.
Proof.
  unfold called. revert g. induction l as [|tc l IH]; intros g Hg; [done|]. rewrite imap_cons. simpl. rewrite Hg.
  f_equal. apply IH. intros n x. apply Hg.
Qed.

Lemma responded_imap (g : nat → ToolCall → Json) (l : list ToolCall) :
  (∀ n tc, part_field "functionResponse" "name" (g n tc) = None) → responded (imap g l) = [].
Proof.
  unfold responded. revert g. induction l as [|tc l IH]; intros g Hg; [done|]. rewrite imap_cons. simpl. rewrite Hg.
  apply IH. intros n x. apply Hg.
Qed.

Lemma model_parts_calls g3 m :
  called (model_parts from_str g3 m) = tc_name <$> tool_calls m
  ∧ responded (model_parts from_str g3 m) = []
  ∧ (g3 = true → first_signed (model_parts from_str g3 m)).
Proof.
  unfold model_parts. set (text := if bool_decide (content m = []) then [] else _).
  assert (called text = [] ∧ responded text = [] ∧ filter is_call_part text = []) as (Ec & Er & Ef).
  { subst text. by case_bool_decide. }
  rewrite omap_called, omap_responded, Ec, Er. unfold first_signed. rewrite filter_app, Ef. clear Ec Er Ef text. simpl. split_and!.
  - apply called_imap. intros. apply call_part_fields.
  - apply responded_imap. intros. apply call_part_fields.
  - intros ->. destruct (tool_calls m) as [|tc l]; [done|]. rewrite imap_cons, filter_cons_True by apply call_part_fields.
    apply call_part_signed.
Qed.

Definition known (names : gmap str str) (tcs : list ToolCall) : Prop := Forall (λ tc, names !! tc_id tc = Some (tc_name tc)) tcs.

Lemma known_inserted (names : gmap str str) (tcs : list ToolCall) :
  NoDup (tc_id <$> tcs) → known (foldl (λ names tc, <[tc_id tc := tc_name tc]> names) names tcs) tcs.
Proof.
  induction tcs as [|tc tcs IH] using rev_ind; [constructor|]. rewrite fmap_app, foldl_snoc.
  intros (Hnd & Hd & _)%NoDup_app. apply Forall_app. split; [|constructor; [apply lookup_insert_eq|constructor]].
  specialize (IH Hnd). unfold known in *. rewrite Forall_forall in IH |- *. intros x Hx.
  rewrite lookup_insert_ne; [by apply IH|]. intros E. apply (Hd (tc_id x)); [by apply list_elem_of_fmap_2|].
  rewrite <- E. by left.
Qed.

Lemma to_contents_steps g3 (l : list ChatMessage) s pending :
  answered_from pending l → known (call_names s) pending → turns_ok g3 (tc_name <$> pending) (contents s) →
  turns_ok g3 [] (contents (foldl (to_contents_step from_str vision g3) s l)).
Proof.
  revert s pending. induction l as [|m l IH]; intros s pending Ha Hk Ht; simpl in *; [by subst|].
  destruct (role m) eqn:Hr.
  - destruct Ha as [-> Ha]. apply (IH _ []); try (unfold to_contents_step; rewrite Hr); [done|constructor|done].
  - destruct Ha as [-> Ha]. destruct (user_parts_plain m). apply (IH _ []); try (unfold to_contents_step; rewrite Hr); [done|constructor|].
    by apply push_user.
  - destruct Ha as (-> & Hnd & Ha). destruct (model_parts_calls g3 m) as (Hc & Hres & Hs).
    apply (IH _ (tool_calls m)); try (unfold to_contents_step; rewrite Hr); [done|by apply known_inserted|].
    cbn. rewrite <- Hc. by apply push_model.
  - destruct Ha as (pre & tc & post & -> & Hid & Hn & Ha).
    assert (known (call_names s) (tc :: pre ++ post)) as Hk'.
    { unfold known in *. by rewrite (Permutation_middle pre post tc). }
    apply Forall_cons in Hk' as [Hk1 Hk2].
    apply (IH _ (pre ++ post)); try (unfold to_contents_step; rewrite Hr); [done|done|]. cbn.
    assert (response_name (call_names s) m = tc_name tc) as ->.
    { unfold response_name. destruct Hn as [->| ->]; [|done]. rewrite Hid. simpl. by rewrite Hk1. }
    apply push_result. eapply turns_ok_perm; [|exact Ht]. by rewrite !fmap_app, fmap_cons, <- Permutation_middle.
Qed.

(** The turns of a transcript whose calls are answered are what Gemini takes: none is
    empty, turns of a kind are one turn, the calls of a model turn have their responses in
    the turn right behind it, one each and under their names, nothing else stands there,
    and on Gemini 3 the first call of every model turn is signed. *)
Theorem turns_accepted (model : str) (l : list ChatMessage) :
  answered_from [] l → turns_ok (is_gemini3 model) [] (reverse (to_contents from_str l model vision).2).
Proof.
  intros Ha. unfold to_contents. cbn [snd]. rewrite reverse_involutive. unfold to_turns.
  by apply (to_contents_steps _ l _ []); [done|constructor|].
Qed.
End Request.

(** What a model takes: a budget of Gemini 2.5 within its bounds (a Pro model cannot be
    silenced), the chosen one if it is; a level of Gemini 3 among its own. *)
Definition config_fits (model : str) (budget : option N) (cfg : Json) : Prop :=
  let id := str_to_ascii_lowercase (last_segment model) in
  if is_gemini_25 id then
    let '(lo, hi) := if contains_str (lit "pro") id then (128, 32768)%N else (0, 24576)%N in
    ∃ b, cfg = obj [("thinkingBudget"%string, nat_json b)] ∧ (lo ≤ b ≤ hi)%N
      ∧ ∀ x, budget = Some x → (lo ≤ x ≤ hi)%N → b = x
  else
    ∃ l, cfg = obj [("thinkingLevel"%string, String_ l)]
      ∧ l ∈ (if contains_str (lit "flash") id then lit <$> ["minimal"; "low"; "medium"; "high"]%string
             else lit <$> ["low"; "high"]%string).

Lemma thinking_within (model : str) (effort : option str) (budget : option N) (cfg : Json) :
  thinking_config model effort budget = Some cfg → config_fits model budget cfg.
Proof.
  unfold thinking_config, config_fits. cbv zeta. destruct (is_gemini_25 _).
  - destruct (contains_str _ _); intros (b & Hb & [= <-])%bind_Some; eexists; (split; [done|]);
      (split; [unfold clamp; lia|intros x -> Hx; injection Hb as <-; unfold clamp; lia]).
  - destruct (match gemini_major _ with Some m => _ | None => _ end); [|done].
    intros (l & Hl & [= <-])%bind_Some. exists l. split; [done|]. unfold level_of in Hl.
    destruct effort as [e|]; [|destruct budget as [b|]; [|done]]; simpl in Hl; injection Hl as <-;
      destruct (contains_str _ _); repeat case_decide; repeat case_match; set_solver.
Qed.

(** ** Samples *)

Module Samples.

Definition asks_two : list ChatMessage :=
  [plain User (lit "pods and nodes?");
   Transcript.Example_.asst [Transcript.Example_.call "a" "pods"; Transcript.Example_.call "b" "nodes"];
   Transcript.Example_.answer "b" ""; Transcript.Example_.answer "a" "three"; plain User (lit "and?")].

End Samples.

Lemma turns_accepted_witness :
  let turns := (to_contents (λ _, None) Samples.asks_two (lit "gemini-3-pro") false).2 in
  turns_ok (is_gemini3 (lit "gemini-3-pro")) [] (reverse turns)
  ∧ turns.*1 = [UserTurn; ModelTurn; ToolResults; UserTurn] ∧ is_gemini3 (lit "gemini-3-pro") = true.
Proof.
  split; [|split; reflexivity]. apply turns_accepted. simpl. split; [done|]. split; [done|]. split; [decided|].
  eexists [_], _, []. split; [reflexivity|]. split; [reflexivity|]. split; [by right + left|].
  eexists [], _, []. split; [reflexivity|]. split; [reflexivity|]. split; [by right + left|]. by split.
Defined.

(** Text behind tool results is a second turn of the role [user]. *)
Lemma user_turns_adjacent :
  (λ c, get "role" (turn_json c)) <$> (to_contents (λ _, None) Samples.asks_two (lit "gemini-3-pro") false).2
  = Some <$> [String_ (lit "user"); String_ (lit "model"); String_ (lit "user"); String_ (lit "user")].
Proof. reflexivity. Qed.
