(* ===== verification/Reasoning.v ===== *)
(** * Reasoning options (agent/src/provider/reasoning.rs)

    What a provider or model offers ([spec]), and how a saved choice becomes fields of the
    request ([lower]): the nearest effort a model accepts, the budgets of Claude, the
    families of wires.  The catalogue is [Catalogue]'s; Gemini's own translation is
    [Gemini.thinking_config]. *)

From stdpp Require Import sorting.

From S2P Require Import Prelude Order Json Transcript Classify Session Completion Catalogue AnthropicApi Gemini.

(** ** What is offered *)

Definition BUDGET_LADDER : list N := [1024; 2048; 4096; 8192; 16384; 32768; 65536]%N.

Definition ANTHROPIC_MIN_BUDGET : N := 1024.

Record BudgetRange : Set := { range_min : N; range_max : option N; range_presets : list N }.

Record ReasoningSpec : Set := {
  spec_efforts : list str; spec_budget : option BudgetRange; spec_toggle : bool; from_catalogue : bool;
}.

Definition presets (min : N) (max : option N) : list N :=
  let floor := N.max min 1 in
  let ceil := default u32_max max in
  match filter (λ b, (floor ≤ b)%N ∧ (b ≤ ceil)%N) BUDGET_LADDER with
  | [] => [N.min floor ceil]
  | out => out
  end.

Definition range_of (b : N * option N) : BudgetRange :=
  {| range_min := b.1; range_max := b.2; range_presets := presets b.1 b.2 |}.

Definition from_model (r : ModelReasoning) (catalogue : bool) : ReasoningSpec :=
  {| spec_efforts := efforts r; spec_budget := range_of <$> budget r; spec_toggle := toggle r; from_catalogue := catalogue |}.

Definition names (l : list string) : list str := lit <$> l.

Definition fallback (kind : ProviderKind) : ReasoningSpec :=
  let '(efforts, budget) :=
    match kind with
    | Anthropic | CustomAnthropic | KimiCoding => (["low"; "medium"; "high"]%string, Some (ANTHROPIC_MIN_BUDGET, None))
    | OpenAI => (["minimal"; "low"; "medium"; "high"]%string, None)
    | Google => (["low"; "medium"; "high"]%string, Some (128%N, Some 32768%N))
    | OpenRouter => (["low"; "medium"; "high"]%string, Some (1024%N, None))
    | _ => (["low"; "medium"; "high"]%string, None)
    end in
  {| spec_efforts := names efforts; spec_budget := range_of <$> budget; spec_toggle := false; from_catalogue := false |}.

(** [entries] are those of the catalogue in the order they are walked. *)
Definition spec (slot : option Catalogue) (entries : option (list (str * str * ModelCapabilities)))
    (kind : ProviderKind) (model : option str) : ReasoningSpec :=
  match (m ← model; reasoning_options_of slot kind m) with
  | Some opts => from_model opts true
  | None =>
      let union := provider_reasoning_union kind entries in
      if decide (union = no_reasoning) then fallback kind else from_model union true
  end.

(** ** The nearest effort *)

(** The order of the tuples [min_by_key] compares. *)
Definition pair_cmp : N * N → N * N → comparison := lex (by_key fst N.compare) (by_key snd N.compare).

(** [min_by_key]: the first of the least elements *)
Fixpoint min_by_key {A} (f : A → N * N) (l : list A) : option A :=
  match l with
  | [] => None
  | x :: l => Some match min_by_key f l with
                   | Some y => if decide (at_most pair_cmp (f x) (f y)) then x else y
                   | None => x
                   end
  end.

Definition abs_diff (a b : N) : N := (a - b) + (b - a).

Definition nearest_effort (requested : str) (supported : list str) : option str :=
  if bool_decide (supported = []) || bool_decide (requested ∈ supported) then Some requested
  else if decide (requested = lit "none") then None
  else
    let want := effort_rank requested in
    min_by_key (λ s, (abs_diff want (effort_rank s), effort_rank s)) (filter (λ s, s ≠ lit "none") supported).

(** ** Anthropic *)

(** [split("claude-").nth(1)] *)
Definition claude_rest (id : str) : option str :=
  before_str (lit "claude-") <$> find_str (lit "claude-") (str_to_ascii_lowercase id).

Definition is_separator (c : char) : bool := (c =? 45)%N || (c =? 46)%N || (c =? 64)%N || (c =? 58)%N.

Definition version_number (t : str) : option N := if (str_len t <=? 2)%N then parse_u32 t else None.

Definition claude_version (id : str) : option (N * N) :=
  rest ← claude_rest id;
  match omap version_number (split_by is_separator rest) with
  | [] => None
  | [major] => Some (major, 0%N)
  | major :: minor :: _ => Some (major, minor)
  end.

Inductive AnthropicStyle : Set := Adaptive | Hybrid | Budget.

#[global] Instance AnthropicStyle_eq_dec : EqDecision AnthropicStyle.
Proof. solve_decision. Defined.

Definition anthropic_style (model : str) (opts : option ModelReasoning) : AnthropicStyle :=
  let lower := str_to_ascii_lowercase model in
  if contains_str (lit "opus-4-5") lower || contains_str (lit "opus-4.5") lower then Hybrid
  else
    let by_version :=
      match claude_version model with
      | Some (major, minor) => if (4 <? major)%N || ((major =? 4)%N && (6 <=? minor)%N) then Adaptive else Budget
      | None => if contains_str (lit "claude-") lower then Adaptive else Budget
      end in
    match opts with
    | Some o =>
        if negb (bool_decide (efforts o = [])) then Adaptive
        else if bool_decide (is_Some (budget o)) then Budget
        else by_version
    | None => by_version
    end.

Definition claude_default_efforts (model : str) : list str :=
  match claude_version model with
  | Some (major, minor) =>
      if (4 <? major)%N || ((major =? 4)%N && (7 <=? minor)%N) || (5 <=? major)%N
      then names ["low"; "medium"; "high"; "xhigh"; "max"]%string
      else if (major =? 4)%N && (minor =? 6)%N then names ["low"; "medium"; "high"; "max"]%string
      else names ["low"; "medium"; "high"]%string
  | None => names ["low"; "medium"; "high"]%string
  end.

Definition effort_to_budget (effort : str) : N :=
  if decide (effort = lit "minimal") then 1024
  else if decide (effort = lit "low") then 4096
  else if decide (effort = lit "medium") then 16384
  else 32768.

Definition clamp_budget (budget : N) (range : option (N * option N)) : N :=
  let '(min, max) := default (ANTHROPIC_MIN_BUDGET, None) range in
  let min := N.max min ANTHROPIC_MIN_BUDGET in
  let b := N.max budget min in
  match max with Some m => N.min b (N.max m min) | None => b end.

(** A saved choice. *)
Record ProviderReasoning : Set := { effort : option str; budget_tokens : option N }.

Definition is_empty (c : ProviderReasoning) : bool :=
  match effort c, budget_tokens c with None, None => true | _, _ => false end.

Definition disabled : Json := obj [("thinking"%string, obj [("type"%string, String_ (lit "disabled"))])].

Definition enabled (budget : N) : Json :=
  obj [("type"%string, String_ (lit "enabled")); ("budget_tokens"%string, nat_json budget)].

Definition lower_anthropic (model : str) (choice : ProviderReasoning) (opts : option ModelReasoning) : option Json :=
  match anthropic_style model opts with
  | Budget =>
      if decide (effort choice = Some (lit "none")) then None
      else
        b ← match budget_tokens choice with Some b => Some b | None => effort_to_budget <$> effort choice end;
        Some (obj [("thinking"%string, enabled (clamp_budget b (o ← opts; budget o)))])
  | style =>
      let supported := match opts with
                       | Some o => if bool_decide (efforts o = []) then claude_default_efforts model else efforts o
                       | None => claude_default_efforts model
                       end in
      e ← effort choice;
      Some match nearest_effort e supported with
           | None => disabled
           | Some e =>
               if decide (e = lit "none") then disabled
               else
                 let thinking :=
                   if decide (style = Hybrid)
                   then enabled (clamp_budget (default 16000%N (budget_tokens choice)) (o ← opts; budget o))
                   else obj [("type"%string, String_ (lit "adaptive"))] in
                 obj [("thinking"%string, thinking); ("output_config"%string, obj [("effort"%string, String_ e)])]
           end
  end.

(** ** The other families *)

Definition supported_or (opts : option ModelReasoning) (default : list string) : list str :=
  match opts with Some o => efforts o | None => names default end.

(** The effort that is sent, of those supported. *)
Definition sent_effort (choice : ProviderReasoning) (supported : list str) : option str :=
  if bool_decide (supported = []) then None else e ← effort choice; nearest_effort e supported.

Definition lower_openai (choice : ProviderReasoning) (opts : option ModelReasoning) (oauth_codex : bool) : option Json :=
  e ← sent_effort choice (supported_or opts ["minimal"; "low"; "medium"; "high"]%string);
  Some (if oauth_codex then obj [("reasoning"%string, obj [("effort"%string, String_ e)])]
        else obj [("reasoning_effort"%string, String_ e)]).

Definition lower_compat (choice : ProviderReasoning) (opts : option ModelReasoning) : option Json :=
  e ← sent_effort choice (supported_or opts ["low"; "medium"; "high"]%string);
  Some (obj [("reasoning_effort"%string, String_ e)]).

Definition lower_openrouter (choice : ProviderReasoning) (opts : option ModelReasoning) : option Json :=
  match sent_effort choice (supported_or opts ["minimal"; "low"; "medium"; "high"; "xhigh"]%string) with
  | Some e => Some (obj [("reasoning"%string, obj [("effort"%string, String_ e)])])
  | None => (λ b, obj [("reasoning"%string, obj [("max_tokens"%string, nat_json b)])]) <$> budget_tokens choice
  end.

Definition lower_gemini (choice : ProviderReasoning) : option Json :=
  let node := set_some "budget_tokens" (nat_json <$> budget_tokens choice)
                (set_some "effort" (String_ <$> effort choice) (Object [])) in
  if decide (node = Object []) then None else Some (obj [("reasoning"%string, node)]).

(** ** Families *)

Inductive Family : Set := FAnthropic | FGemini | FOpenAi | FOpenRouter | FCompat.

#[global] Instance Family_eq_dec : EqDecision Family.
Proof. solve_decision. Defined.

Definition family (kind : ProviderKind) (wire : Wire) : Family :=
  match kind with
  | Anthropic | CustomAnthropic | KimiCoding => FAnthropic
  | Google => FGemini
  | OpenAI => FOpenAi
  | OpenRouter => FOpenRouter
  | OpencodeZen | OpencodeGo =>
      match wire, kind with
      | AnthropicMessages, _ => FAnthropic
      | Completion.Gemini, OpencodeZen => FGemini
      | _, _ => FCompat
      end
  | _ => FCompat
  end.

Definition lower_with (kind : ProviderKind) (model : str) (wire : Wire) (choice : ProviderReasoning) (oauth_codex : bool)
    (opts : option ModelReasoning) (non_reasoning : bool) : option Json :=
  if is_empty choice then None
  else if non_reasoning && match opts with Some o => bool_decide (o = no_reasoning) | None => true end then None
  else match family kind wire with
       | FAnthropic => lower_anthropic model choice opts
       | FGemini => lower_gemini choice
       | FOpenAi => lower_openai choice opts oauth_codex
       | FOpenRouter => lower_openrouter choice opts
       | FCompat => lower_compat choice opts
       end.

Definition lower (slot : option Catalogue) (kind : ProviderKind) (model : str) (choice : ProviderReasoning)
    (oauth_codex : bool) : option Json :=
  if is_empty choice then None
  else lower_with kind model (Catalogue.wire slot kind model) choice oauth_codex (reasoning_options_of slot kind model)
         match capabilities slot kind model with Some c => negb (cap_reasoning c) | None => false end.

(** ** What is sent *)

Lemma pair_cmp_at_most (p q : N * N) : at_most pair_cmp p q ↔ (p.1 < q.1)%N ∨ p.1 = q.1 ∧ (p.2 ≤ q.2)%N.
Proof.
  unfold at_most, pair_cmp, lex, by_key. destruct (N.compare_spec p.1 q.1) as [E|E|E]; simpl.
  - change (p.2 ?= q.2)%N with (N.compare p.2 q.2). rewrite N.compare_le_iff. lia.
  - split; [lia|done].
  - split; [done|lia].
Qed.

Lemma min_by_key_spec {A} (f : A → N * N) (l : list A) :
  match min_by_key f l with
  | Some x => x ∈ l ∧ ∀ y, y ∈ l → at_most pair_cmp (f x) (f y)
  | None => l = []
  end.
Proof.
  assert (Comparator pair_cmp) as Hc by (unfold pair_cmp; apply _).
  induction l as [|x l IH]; simpl; [done|]. destruct (min_by_key f l) as [y|].
  - destruct IH as [Hy Hall]. case_decide as Hxy.
    + split; [by left|]. intros z [->|Hz]%elem_of_cons; [by apply at_most_refl|].
      eapply (cmp_trans (cmp := pair_cmp)); [exact Hxy|by apply Hall].
    + split; [by right|]. intros z [->|Hz]%elem_of_cons; [|by apply Hall]. by destruct (at_most_total pair_cmp (f y) (f x)).
  - subst l. split; [by left|]. intros z Hz%list_elem_of_singleton. subst z. by apply at_most_refl.
Qed.

Definition distance (a b : str) : N := abs_diff (effort_rank a) (effort_rank b).

(** The effort that is sent for a requested one: the same where the model takes it, or
    where its levels are not known; else one the model takes, not "none", with none of its
    others nearer, the lower one of two as near; nothing where thinking is to be off and
    the model cannot switch it off. *)
Theorem nearest_effort_nearest (requested : str) (supported : list str) :
  match nearest_effort requested supported with
  | Some e =>
      (supported = [] ∨ requested ∈ supported) ∧ e = requested
      ∨ requested ∉ supported ∧ requested ≠ lit "none" ∧ e ∈ supported ∧ e ≠ lit "none"
        ∧ ∀ s, s ∈ supported → s ≠ lit "none" →
            (distance requested e < distance requested s)%N
            ∨ distance requested e = distance requested s ∧ (effort_rank e ≤ effort_rank s)%N
  | None =>
      supported ≠ [] ∧ requested ∉ supported ∧ (requested = lit "none" ∨ ∀ s, s ∈ supported → s = lit "none")
  end.
Proof.
  unfold nearest_effort. destruct (decide (supported = [])) as [->|Hs]; [by left; auto|].
  rewrite bool_decide_eq_false_2 by done. simpl. case_bool_decide as Hin; [by left; auto|]. case_decide as Hn; [by auto|].
  pose proof (min_by_key_spec (λ s, (distance requested s, effort_rank s)) (filter (λ s, s ≠ lit "none") supported)) as H.
  fold (distance requested). change (λ s, (abs_diff (effort_rank requested) (effort_rank s), effort_rank s))
    with (λ s, (distance requested s, effort_rank s)). destruct (min_by_key _ _) as [e|].
  - right. destruct H as [[He1 He2]%list_elem_of_filter Hall]. split_and!; [done..|]. intros s Hs1 Hs2.
    apply (pair_cmp_at_most (distance requested e, effort_rank e) (distance requested s, effort_rank s)), Hall.
    by apply list_elem_of_filter.
  - split_and!; [done..|]. right. intros s Hs1. destruct (decide (s = lit "none")) as [|Hs2]; [done|].
    assert (s ∈ filter (λ s, s ≠ lit "none") supported) as Hf by by apply list_elem_of_filter. rewrite H in Hf.
    by apply not_elem_of_nil in Hf.
Qed.

(** The effort a fragment of a request names. *)
Definition named_effort (v : Json) : option str :=
  match get "reasoning_effort" v with
  | Some e => as_str e
  | None =>
      match get2 "reasoning" "effort" v with
      | Some e => as_str e
      | None => e ← get2 "output_config" "effort" v; as_str e
      end
  end.

Lemma nearest_effort_in (r e : str) (l : list str) : l ≠ [] → nearest_effort r l = Some e → e ∈ l.
Proof.
  intros Hl. unfold nearest_effort. rewrite bool_decide_eq_false_2 by done. simpl. case_bool_decide as Hr; [by intros [= <-]|].
  case_decide; [done|]. intros He. pose proof (min_by_key_spec (λ s, (abs_diff (effort_rank r) (effort_rank s), effort_rank s))
    (filter (λ s, s ≠ lit "none") l)) as Hm. rewrite He in Hm. by destruct Hm as [[_ H']%list_elem_of_filter _].
Qed.

Lemma nearest_effort_same (r : str) (l : list str) : r ∈ l → nearest_effort r l = Some r.
Proof. intros H. unfold nearest_effort. rewrite (bool_decide_eq_true_2 (r ∈ l)) by done. by rewrite orb_true_r. Qed.

Lemma sent_effort_in (c : ProviderReasoning) (l : list str) e : sent_effort c l = Some e → e ∈ l.
Proof.
  unfold sent_effort. case_bool_decide as Hl; [done|]. intros (r & _ & He)%bind_Some. by eapply nearest_effort_in.
Qed.

Lemma clamp_budget_range (b : N) (range : option (N * option N)) :
  (1024 ≤ clamp_budget b range)%N
  ∧ (∀ lo hi, range = Some (lo, hi) → (lo ≤ clamp_budget b range)%N
       ∧ ∀ h, hi = Some h → (lo ≤ h)%N → (1024 ≤ h)%N → (clamp_budget b range ≤ h)%N)
  ∧ ((1024 ≤ b)%N → (∀ lo hi, range = Some (lo, hi) → (lo ≤ b)%N ∧ ∀ h, hi = Some h → (b ≤ h)%N) → clamp_budget b range = b).
Proof.
  unfold clamp_budget, ANTHROPIC_MIN_BUDGET. destruct range as [[lo [h|]]|]; simpl; (split; [lia|]); split.
  - intros ?? [= <- <-]. split; [lia|]. intros ? [= <-]. lia.
  - intros Hb H. destruct (H _ _ eq_refl) as [? Hh]. specialize (Hh _ eq_refl). lia.
  - intros ?? [= <- <-]. split; [lia|done].
  - intros Hb H. destruct (H _ _ eq_refl) as [? _]. lia.
  - done.
  - intros. lia.
Qed.

(** A fragment with a budget a model takes, if it has one. *)
Definition budget_fits (opts : option ModelReasoning) (v : Json) : Prop :=
  match get2 "thinking" "budget_tokens" v with
  | None => True
  | Some j => ∃ b, j = nat_json b ∧ (1024 ≤ b)%N
      ∧ ∀ o lo hi, opts = Some o → budget o = Some (lo, hi) →
          (lo ≤ b)%N ∧ ∀ h, hi = Some h → (lo ≤ h)%N → (1024 ≤ h)%N → (b ≤ h)%N
  end.

Lemma clamped_fits (opts : option ModelReasoning) (b : N) (v : Json) :
  get2 "thinking" "budget_tokens" v = Some (nat_json (clamp_budget b (o ← opts; budget o))) → budget_fits opts v.
Proof.
  unfold budget_fits. intros ->. eexists. split; [done|]. destruct (clamp_budget_range b (o ← opts; budget o)) as (H1 & H2 & _).
  split; [done|]. intros o lo hi -> Hb. by apply H2.
Qed.

(** The effort is one of the model's. *)
Definition effort_listed (opts : option ModelReasoning) (v : Json) : Prop :=
  ∀ e o, named_effort v = Some e → opts = Some o → efforts o ≠ [] → e ∈ efforts o.

Lemma lower_anthropic_sound model choice opts v :
  lower_anthropic model choice opts = Some v → effort_listed opts v ∧ budget_fits opts v ∧ named_effort v ≠ Some (lit "none").
Proof.
  unfold lower_anthropic. set (supported := match opts with Some o => _ | None => _ end).
  assert (∀ o, opts = Some o → efforts o ≠ [] → supported = efforts o) as Hsup.
  { intros o -> Ho. unfold supported. by rewrite bool_decide_eq_false_2. }
  assert (supported ≠ []) as Hne.
  { unfold supported. destruct opts as [o|]; [case_bool_decide; [|done]|]; unfold claude_default_efforts, names;
      repeat case_match; done. }
  assert (∀ r e b, nearest_effort r supported = Some e → e ≠ lit "none" →
    let v := obj [("thinking"%string, b); ("output_config"%string, obj [("effort"%string, String_ e)])] in
    effort_listed opts v ∧ named_effort v ≠ Some (lit "none")) as Hnamed.
  { intros r e b He Hn v'. assert (named_effort v' = Some e) as E by reflexivity. rewrite E. split; [|congruence].
    intros e' o E' Ho Heo. rewrite E in E'. injection E' as <-. rewrite <- (Hsup o Ho Heo). by eapply nearest_effort_in. }
  assert (effort_listed opts disabled ∧ budget_fits opts disabled ∧ named_effort disabled ≠ Some (lit "none")) as Hoff by done.
  destruct (anthropic_style model opts) eqn:Hst.
  - intros (r & _ & [= <-])%bind_Some. destruct (nearest_effort r supported) as [e|] eqn:He; [|done]. case_decide as Hn; [done|].
    destruct (Hnamed r e (obj [("type"%string, String_ (lit "adaptive"))]) He Hn). by split_and!.
  - intros (r & _ & [= <-])%bind_Some. destruct (nearest_effort r supported) as [e|] eqn:He; [|done]. case_decide as Hn; [done|].
    destruct (Hnamed r e (enabled (clamp_budget (default 16000%N (budget_tokens choice)) (o ← opts; budget o))) He Hn) as [H1 H2].
    split_and!; [exact H1| |exact H2].
    by apply (clamped_fits opts (default 16000%N (budget_tokens choice))).
  - case_decide; [done|]. intros (b & _ & [= <-])%bind_Some. split_and!; [done| |done]. by apply (clamped_fits opts b).
Qed.

(** What a saved choice becomes is what the model takes: its effort is one of the efforts
    the catalogue lists for the model, its thinking budget lies in the model's range and
    above Anthropic's floor, and OpenRouter gets an effort or a cap of tokens, never both;
    nothing is sent to a model that does not reason. *)
Theorem choice_lowered (kind : ProviderKind) (model : str) (w : Wire) (choice : ProviderReasoning) (oauth_codex : bool)
    (opts : option ModelReasoning) (non_reasoning : bool) (v : Json) :
  lower_with kind model w choice oauth_codex opts non_reasoning = Some v → family kind w ≠ FGemini →
  effort_listed opts v ∧ budget_fits opts v
  ∧ (named_effort v = None ∨ get2 "reasoning" "max_tokens" v = None)
  ∧ (non_reasoning = true → ∃ o, opts = Some o ∧ o ≠ no_reasoning)
  ∧ (effort choice ≠ None ∨ budget_tokens choice ≠ None).
Proof.
  unfold lower_with. destruct (is_empty choice) eqn:Hemp; [done|].
  assert (effort choice ≠ None ∨ budget_tokens choice ≠ None) as Hc.
  { unfold is_empty in Hemp. destruct (effort choice), (budget_tokens choice); auto. }
  destruct (non_reasoning && _) eqn:Hnr; [done|].
  assert (non_reasoning = true → ∃ o, opts = Some o ∧ o ≠ no_reasoning) as Ho.
  { intros ->. simpl in Hnr. destruct opts as [o|]; [|done]. exists o. split; [done|]. by apply bool_decide_eq_false in Hnr. }
  intros Hv Hf.
  assert (∀ l v e, sent_effort choice (supported_or opts l) = Some e → named_effort v = Some e → effort_listed opts v) as Hin.
  { intros l v' e He En e' o E' -> _. rewrite En in E'. injection E' as <-. by apply sent_effort_in in He. }
  enough (effort_listed opts v ∧ budget_fits opts v ∧ (named_effort v = None ∨ get2 "reasoning" "max_tokens" v = None))
    as (? & ? & ?) by done.
  destruct (family kind w).
  - apply lower_anthropic_sound in Hv as Hs. destruct Hs as (H1 & H2 & _). split_and!; [done..|]. right.
    unfold lower_anthropic in Hv. repeat case_match; simplify_eq; try done;
      apply bind_Some in Hv as (? & _ & [= <-]); repeat case_match; reflexivity.
  - done.
  - apply bind_Some in Hv as (e & He & [= <-]). destruct oauth_codex; (split_and!; [by eapply Hin|done|by right]).
  - unfold lower_openrouter in Hv. destruct (sent_effort _ _) as [e|] eqn:He.
    + injection Hv as <-. split_and!; [by eapply Hin|done|by right].
    + apply fmap_Some in Hv as (b & _ & ->). split_and!; [done|done|by left].
  - apply bind_Some in Hv as (e & He & [= <-]). split_and!; [by eapply Hin|done|by right].
Qed.

(** What the settings offer is what is sent: an effort the catalogue lists for the model,
    saved as the choice, reaches the request under that very name on every wire; only
    Claude's "none" is said by switching thinking off. *)
Theorem offered_is_sent (kind : ProviderKind) (model : str) (w : Wire) (choice : ProviderReasoning) (oauth_codex : bool)
    (o : ModelReasoning) (non_reasoning : bool) (e : str) :
  e ∈ spec_efforts (from_model o true) → effort choice = Some e →
  ∃ v, lower_with kind model w choice oauth_codex (Some o) non_reasoning = Some v
    ∧ (named_effort v = Some e ∨ family kind w = FAnthropic ∧ e = lit "none" ∧ v = disabled).
Proof.
  simpl. intros Hin Hc. unfold lower_with.
  assert (is_empty choice = false) as -> by (unfold is_empty; by rewrite Hc).
  assert (efforts o ≠ []) as Hne by (intros E; rewrite E in Hin; by apply not_elem_of_nil in Hin).
  rewrite (bool_decide_eq_false_2 (o = no_reasoning)) by (intros ->; done). rewrite andb_false_r.
  assert (∀ l, sent_effort choice (supported_or (Some o) l) = Some e) as Hs.
  { intros l. unfold sent_effort. simpl. rewrite bool_decide_eq_false_2 by done. rewrite Hc. by apply nearest_effort_same. }
  destruct (family kind w).
  - unfold lower_anthropic. rewrite Hc. simpl. rewrite (bool_decide_eq_false_2 (efforts o = [])), nearest_effort_same by done.
    assert (anthropic_style model (Some o) ≠ Budget) as Hst.
    { unfold anthropic_style. destruct (_ || _); [done|]. by rewrite bool_decide_eq_false_2. }
    destruct (anthropic_style model (Some o)); [| |done]; (eexists; split; [reflexivity|]);
      (case_decide; [right; auto|left; reflexivity]).
  - unfold lower_gemini. rewrite Hc. destruct (budget_tokens choice); (eexists; split; [reflexivity|]); left; reflexivity.
  - unfold lower_openai. rewrite Hs. destruct oauth_codex; (eexists; split; [reflexivity|]); left; reflexivity.
  - unfold lower_openrouter. rewrite Hs. eexists. split; [reflexivity|]. left; reflexivity.
  - unfold lower_compat. rewrite Hs. eexists. split; [reflexivity|]. left; reflexivity.
Qed.

(** ** From the saved choice to the request *)

Lemma merge_nothing (b : Json) : is_object b = true → merge_top_level b (Object []) = b.
Proof. by destruct b. Qed.

Lemma get_set_when (c : bool) (k k' : string) (v body : Json) :
  is_object body = true → get k (set_when c k' v body) = if c && bool_decide (lit k' = lit k) then Some v else get k body.
Proof.
  intros H. destruct c; [|done]. simpl. rewrite get_set_key by done. by case_decide; case_bool_decide.
Qed.

Lemma set_when_object (c : bool) (k : string) (v body : Json) : is_object body = true → is_object (set_when c k v body) = true.
Proof. by destruct c, body. Qed.

Lemma get_set_some (k k' : string) (v : option Json) (body : Json) :
  is_object body = true →
  get k (set_some k' v body) = if bool_decide (lit k' = lit k) then match v with Some v => Some v | None => get k body end else get k body.
Proof.
  intros H. destruct v as [v|]; [|by case_bool_decide]. simpl. rewrite get_set_key by done. by case_decide; case_bool_decide.
Qed.

Lemma set_some_object (k : string) (v : option Json) (body : Json) : is_object body = true → is_object (set_some k v body) = true.
Proof. by destruct v, body. Qed.

(** *** Gemini *)

Definition gemini_node (choice : ProviderReasoning) : Json :=
  set_some "budget_tokens" (nat_json <$> budget_tokens choice) (set_some "effort" (String_ <$> effort choice) (Object [])).

Lemma gemini_node_read (choice : ProviderReasoning) :
  (∀ b, budget_tokens choice = Some b → (b ≤ u32_max)%N) →
  (e ← get "effort" (gemini_node choice); as_str e) = effort choice
  ∧ (b ← get "budget_tokens" (gemini_node choice); n ← as_u64 b; if (n <=? u32_max)%N then Some n else None) = budget_tokens choice.
Proof.
  intros Hb. unfold gemini_node. rewrite !get_set_some by (by repeat apply set_some_object).
  rewrite (bool_decide_eq_false_2 (lit "budget_tokens" = lit "effort")), (bool_decide_eq_false_2 (lit "effort" = lit "budget_tokens")),
    !bool_decide_eq_true_2 by decided.
  split; [by destruct (effort choice), (budget_tokens choice)|]. destruct (budget_tokens choice) as [b|]; [|by destruct (effort choice)].
  specialize (Hb b eq_refl). cbn [fmap option_fmap option_map mbind option_bind].
  rewrite as_u64_nat by (unfold u32_max, u64_last in *; lia). cbn. by rewrite (proj2 (N.leb_le _ _)).
Qed.

Lemma generation_thinking (req : CompletionRequest) (gates : Gates) (choice : ProviderReasoning) :
  g_thinking gates = true → (∀ b, budget_tokens choice = Some b → (b ≤ u32_max)%N) →
  get "thinkingConfig" (generation_config req gates (Some (gemini_node choice)))
  = thinking_config (model req) (effort choice) (budget_tokens choice).
Proof.
  intros Hg Hb. unfold generation_config. rewrite Hg. cbn [mbind option_bind]. destruct (gemini_node_read choice Hb) as [-> ->].
  set (g := if g_temperature gates then _ else _).
  assert (is_object g = true ∧ get "thinkingConfig" g = None) as [Ho Hn].
  { unfold g. destruct (g_temperature gates), (temperature req), (max_tokens req); done. }
  rewrite get_set_some by done. rewrite bool_decide_eq_true_2 by done. rewrite Hn. by destruct (thinking_config _ _ _).
Qed.

(** On the wires of Gemini the saved choice arrives: the body of the request has the
    thinking options that the model in use makes of the effort and the budget that were
    saved, within what it takes, and no field of ours is left in it. *)
Theorem choice_on_gemini_wire (from_str : str → option Json) (convert : Json → option Json) (gates : Gates)
    (req : CompletionRequest) (kind : ProviderKind) (m : str) (w : Wire) (choice : ProviderReasoning) (oauth_codex : bool)
    (opts : option ModelReasoning) (non_reasoning : bool) (v : Json) :
  family kind w = FGemini → lower_with kind m w choice oauth_codex opts non_reasoning = Some v →
  provider_options req = Some v → g_thinking gates = true → (∀ b, budget_tokens choice = Some b → (b ≤ u32_max)%N) →
  let body := build_request_body from_str convert req gates in
  get2 "generationConfig" "thinkingConfig" body = thinking_config (model req) (effort choice) (budget_tokens choice)
  ∧ get "reasoning" body = None
  ∧ ∀ cfg, get2 "generationConfig" "thinkingConfig" body = Some cfg → config_fits (model req) (budget_tokens choice) cfg.
Proof.
  intros Hf Hv Hopt Hg Hb body. unfold lower_with in Hv. destruct (is_empty choice); [done|]. destruct (non_reasoning && _); [done|].
  rewrite Hf in Hv. unfold lower_gemini in Hv. fold (gemini_node choice) in Hv. case_decide; [done|]. injection Hv as <-.
  enough (get2 "generationConfig" "thinkingConfig" body = thinking_config (model req) (effort choice) (budget_tokens choice)
          ∧ get "reasoning" body = None) as [H1 H2].
  { split_and!; [done..|]. rewrite H1. intros cfg. apply thinking_within. }
  subst body. unfold build_request_body. rewrite Hopt. destruct (to_contents _ _ _ _) as [system turns].
  change (remove_key "reasoning" (obj [("reasoning"%string, gemini_node choice)])) with (Object []).
  change (o ← Some (obj [("reasoning"%string, gemini_node choice)]); get "reasoning" o) with (Some (gemini_node choice)).
  set (turns' := match system with Some text => _ | None => turns end). set (g := generation_config _ _ _).
  set (body0 := match system with Some text => _ | None => _ end).
  assert (is_object body0 = true ∧ get "generationConfig" body0 = None ∧ get "reasoning" body0 = None) as (Ho & Hn & Hr).
  { unfold body0. by destruct system, (is_gemma (model req)). }
  rewrite merge_nothing by (by repeat apply set_when_object).
  unfold get2. rewrite !get_set_when by (by repeat apply set_when_object).
  rewrite !(bool_decide_eq_false_2 (lit "tools" = _)), (bool_decide_eq_false_2 (lit "generationConfig" = lit "reasoning")),
    (bool_decide_eq_true_2 (lit "generationConfig" = lit "generationConfig")) by decided.
  rewrite !andb_false_r, andb_true_r, Hn, Hr. split; [|done].
  rewrite <- (generation_thinking req gates choice Hg Hb). fold g. destruct (decide (g = Object [])) as [E|E].
  - rewrite bool_decide_eq_true_2 by done. by rewrite E.
  - by rewrite bool_decide_eq_false_2.
Qed.

(** *** Anthropic *)

(** What [lower_anthropic] says of thinking, and of the effort. *)
Definition thinking_part (choice : ProviderReasoning) (opts : option ModelReasoning) (th : Json) : Prop :=
  th = obj [("type"%string, String_ (lit "disabled"))] ∨ th = obj [("type"%string, String_ (lit "adaptive"))]
  ∨ ∃ b, th = enabled (clamp_budget b (o ← opts; budget o)) ∧ (budget_tokens choice = Some b ∨ (b ≤ 32768)%N).

Lemma lower_anthropic_shape model choice opts v :
  lower_anthropic model choice opts = Some v →
  ∃ th, thinking_part choice opts th
    ∧ (v = obj [("thinking"%string, th)]
       ∨ ∃ e, v = obj [("thinking"%string, th); ("output_config"%string, obj [("effort"%string, String_ e)])]).
Proof.
  unfold lower_anthropic, thinking_part. destruct (anthropic_style model opts).
  - intros (e & _ & [= <-])%bind_Some. destruct (nearest_effort _ _); [case_decide|]; eexists; (split; [|by eauto]); auto.
  - intros (e & _ & [= <-])%bind_Some. destruct (nearest_effort _ _); [case_decide|]; (eexists; split; [|by eauto]); auto.
    right. right. eexists. split; [done|]. destruct (budget_tokens choice); simpl; [auto|right; lia].
  - case_decide; [done|]. intros (b & Hb & [= <-])%bind_Some. eexists. split; [|by eauto]. right. right. eexists. split; [done|].
    destruct (budget_tokens choice); [by left|]. right. apply fmap_Some in Hb as (e & _ & ->). unfold effort_to_budget.
    repeat case_decide; lia.
Qed.

(** A saved budget and the bounds of the catalogue fit a [u32]. *)
Definition u32_budgets (choice : ProviderReasoning) (opts : option ModelReasoning) : Prop :=
  (∀ b, budget_tokens choice = Some b → (b ≤ u32_max)%N)
  ∧ ∀ o lo hi, opts = Some o → budget o = Some (lo, hi) → (lo ≤ u32_max)%N.

Lemma clamp_budget_u32 (b : N) (range : option (N * option N)) :
  (b ≤ u32_max)%N → (∀ lo hi, range = Some (lo, hi) → (lo ≤ u32_max)%N) → (clamp_budget b range ≤ u32_max)%N.
Proof.
  intros Hb Hr. unfold clamp_budget, ANTHROPIC_MIN_BUDGET, u32_max in *.
  destruct range as [[lo [h|]]|]; simpl; try specialize (Hr _ _ eq_refl); lia.
Qed.

Lemma kind_of_enabled (b : N) (body : Json) :
  get "thinking" body = Some (enabled b) →
  kind_of body = Some (lit "enabled") ∧ get2 "thinking" "budget_tokens" body = Some (nat_json b).
Proof. intros H. unfold kind_of, get2. rewrite H. by split. Qed.

Lemma merge_fresh (k : string) (b o : Map) :
  NoDup o.*1 → map_get (lit k) b = None → get k (merge_top_level (Object b) (Object o)) = get k (Object o).
Proof. intros Hnd Hb. destruct (merge_get (lit k) b o Hnd) as (r & -> & Hr). simpl. rewrite Hr, Hb. by destruct (map_get (lit k) o). Qed.

(** The request without what the choice adds. *)
Definition without_choice (req : CompletionRequest) : CompletionRequest :=
  {| Completion.model := Completion.model req; messages := messages req; tools := tools req;
     temperature := temperature req; max_tokens := max_tokens req; provider_options := None |}.

(** What fitting thinking in leaves alone. *)
Definition refitted : list string := ["thinking"; "output_config"; "temperature"; "top_k"; "max_tokens"]%string.

Lemma fit_thinking_keeps (body : Json) (limit : option N) (k : string) :
  k ∉ refitted → get k (fit_thinking body limit) = get k body.
Proof.
  intros Hk. assert (∀ k', k' ∈ refitted → lit k' ≠ lit k) as Hne by (intros k' Hk' ->%(inj lit); done).
  pose proof (Hne "thinking"%string ltac:(decided)) as H1. pose proof (Hne "temperature"%string ltac:(decided)) as H2.
  pose proof (Hne "top_k"%string ltac:(decided)) as H3. pose proof (Hne "max_tokens"%string ltac:(decided)) as H4.
  unfold fit_thinking, set_in. destruct (kind_of body); [|done]. case_decide; [done|].
  case_decide; [by rewrite !get_remove_ne|]. destruct (t ← get2 _ _ _; as_u64 t); [|by rewrite !get_remove_ne].
  destruct (get "thinking" _); rewrite !get_set_key_ne by done; by rewrite !get_remove_ne.
Qed.

Section OnAnthropic.
Context (from_str : str → option Json) (kind : ProviderKind) (vision : bool) (output : option N) (req : CompletionRequest).
Context (slot : option Catalogue) (m : str) (choice : ProviderReasoning) (oauth_codex : bool) (v : Json).
Context (Hv : lower slot kind m choice oauth_codex = Some v) (Hreq : provider_options req = Some v).
Context (Hf : family kind (Catalogue.wire slot kind m) = FAnthropic).

Notation opts := (reasoning_options_of slot kind m).
Notation limit := (o ← output; if (0 <? o)%N then Some o else None).
Notation base := (request_body from_str kind vision output (without_choice req)).

Lemma lowered : lower_anthropic m choice opts = Some v.
Proof.
  pose proof Hv as H. unfold lower, lower_with in H. rewrite Hf in H. destruct (is_empty choice); [done|].
  by destruct (_ && _).
Qed.

(** The body before thinking is fitted in: that of the request with no choice, and the fields
    of the choice. *)
Lemma merged_body :
  ∃ body0, request_body from_str kind vision output req = fit_thinking body0 limit
    ∧ get "thinking" body0 = get "thinking" v ∧ get "output_config" body0 = get "output_config" v
    ∧ ∀ k, k ≠ "thinking"%string → k ≠ "output_config"%string → get k body0 = get k base.
Proof.
  destruct (lower_anthropic_shape _ _ _ _ lowered) as (th & _ & Hshape). unfold request_body. rewrite Hreq. cbn [without_choice provider_options
    Completion.model messages tools temperature max_tokens].
  destruct (build_messages _ _ _ _) as [system msgs]. eexists. split; [reflexivity|].
  set (b0 := set_when _ "tools" _ _).
  assert (∃ b, b0 = Object b ∧ map_get (lit "thinking") b = None ∧ map_get (lit "output_config") b = None) as (b & -> & Hn & Hc).
  { unfold b0. destruct (bool_decide (system = [])), (temperature req), (bool_decide (tools req = []));
      (eexists; split; [reflexivity|]); split; reflexivity. }
  assert (∃ o, v = Object o ∧ NoDup o.*1 ∧ ∀ k, k ≠ "thinking"%string → k ≠ "output_config"%string → map_get (lit k) o = None)
    as (o & -> & Hnd & Hother).
  { destruct Hshape as [->|[e ->]]; (eexists; split; [reflexivity|]); (split; [apply (bool_decide_unpack _); reflexivity|]);
      intros k H1 H2; simpl; rewrite !decide_False; try done; by intros ?%(inj lit). }
  split_and!; [by apply merge_fresh..|]. intros k H1 H2.
  assert (fit_thinking (Object b) limit = Object b) as -> by (unfold fit_thinking, kind_of, get2; simpl; by rewrite Hn).
  destruct (merge_get (lit k) b o Hnd) as (r & -> & Hr). simpl. by rewrite Hr, Hother.
Qed.

(** C23: On the wires of Claude the saved choice arrives, and fits the request: the effort is
    the one that was lowered; where it asks for a budget, the request's is at least 1024 and
    under [max_tokens], stays 1024 under an output limit that leaves room for it and is the
    one that was lowered where that fits, [max_tokens] is what the request had, raised to hold
    the budget, and no sampling options are left; where it does not, [max_tokens] is the
    request's own, and so are the sampling options where thinking is disabled.  Every other
    field is as in the request without a choice. *)
Theorem choice_on_anthropic_wire :
  (∀ o, output = Some o → (o ≤ u32_max)%N) → u32_budgets choice opts →
  let body := request_body from_str kind vision output req in
  (∀ k, k ∉ refitted → get k body = get k base)
  ∧ get "output_config" body = get "output_config" v
  ∧ match get2 "thinking" "budget_tokens" v with
    | None =>
        get "thinking" body = get "thinking" v ∧ get "max_tokens" body = get "max_tokens" base
        ∧ ∀ k, k ∈ ["temperature"; "top_k"]%string →
            get k body = if bool_decide (get2 "thinking" "type" v = Some (String_ (lit "disabled"))) then get k base else None
    | Some j =>
        ∃ asked b mx, j = nat_json asked
          ∧ (t ← get2 "thinking" "budget_tokens" body; as_u64 t) = Some b ∧ (t ← get "max_tokens" body; as_u64 t) = Some mx
          ∧ (1024 ≤ b < mx)%N ∧ (mx ≤ u32_max)%N
          ∧ (default 0 (clamp_u32 <$> (t ← get "max_tokens" base; as_u64 t)) ≤ mx)%N
          ∧ (∀ o, limit = Some o → (2048 ≤ o)%N → (b ≤ o - 1024)%N ∧ ((asked ≤ o - 1024)%N → b = asked))
          ∧ (limit = None → (asked ≤ u32_max - 1024)%N → b = asked)
          ∧ get "temperature" body = None ∧ get "top_k" body = None
    end.
Proof.
  intros Hout Hu32 body. destruct merged_body as (body0 & Eb & Hth & Hoc & Hrest). unfold body. rewrite Eb. clear body Eb.
  split.
  { intros k Hk. rewrite fit_thinking_keeps by done. apply Hrest; intros ->; apply Hk; decided. }
  destruct (lower_anthropic_shape _ _ _ _ lowered) as (th & Hpart & Hshape).
  assert (get "thinking" v = Some th) as Eth by (by destruct Hshape as [->|[e ->]]).
  assert (is_object body0 = true) as Hobj by (rewrite Eth in Hth; by destruct body0).
  destruct Hpart as [->|[->|(b0 & -> & Hb0)]].
  - assert (fit_thinking body0 limit = body0) as -> by (unfold fit_thinking, kind_of, get2; by rewrite Hth, Eth).
    unfold get2. rewrite Eth. split; [done|]. split; [by rewrite Hth|]. split; [by apply Hrest|].
    intros k Hk. cbn [mbind option_bind]. rewrite bool_decide_eq_true_2 by done. apply Hrest; intros ->; revert Hk; decided.
  - assert (fit_thinking body0 limit = remove_key "top_k" (remove_key "temperature" body0)) as ->.
    { unfold fit_thinking, kind_of, get2. by rewrite Hth, Eth. }
    unfold get2. rewrite Eth. split; [by rewrite !get_remove_ne by decided|]. rewrite !get_remove_ne by decided.
    split; [by rewrite Hth|]. split; [by apply Hrest|]. intros k Hk. cbn [mbind option_bind]. rewrite bool_decide_eq_false_2 by done.
    repeat (apply elem_of_cons in Hk as [->|Hk]); [by rewrite get_remove_ne, get_remove_key, decide_True by decided|
      by rewrite get_remove_key, decide_True|by apply not_elem_of_nil in Hk].
  - set (asked := clamp_budget b0 _) in *. destruct (kind_of_enabled asked body0 (eq_trans Hth Eth)) as [Hk Hb].
    assert (get2 "thinking" "budget_tokens" v = Some (nat_json asked)) as Ev by (unfold get2; by rewrite Eth).
    assert (asked ≤ u32_max)%N as Hasked.
    { destruct Hu32 as [Hc Hr]. apply clamp_budget_u32.
      - destruct Hb0 as [H|H]; [by apply Hc|unfold u32_max; lia].
      - intros lo hi (o & Ho & Hlo)%bind_Some. by eapply Hr. }
    assert (1024 ≤ asked)%N as Hmin by (apply clamp_budget_range).
    assert ((t ← get2 "thinking" "budget_tokens" body0; as_u64 t) = Some asked) as Hb'.
    { rewrite Hb. apply as_u64_nat. unfold u32_max, u64_last in *. lia. }
    assert (∀ o, limit = Some o → (o ≤ u32_max)%N) as Hlim.
    { destruct output as [o|]; [|done]. simpl. intros o'. destruct (0 <? o)%N; [|done]. intros [= <-]. by apply Hout. }
    destruct (fit_thinking_body body0 limit asked Hk Hb') as (th' & Eth' & Hth' & _ & ->). rewrite Ev.
    destruct (fit_arith limit asked (t ← get "max_tokens" body0; as_u64 t) Hlim) as (Hbm & Hmx & Hold & Hroom & Hkeep).
    set (b := fit_budget limit asked) in *. set (mx := fit_max limit b _) in *.
    set (body1 := remove_key "top_k" (remove_key "temperature" body0)).
    assert (is_object body1 = true) as Ho1 by (unfold body1; by destruct body0).
    set (body2 := set_key "thinking" _ body1). assert (is_object body2 = true) as Ho2 by (unfold body2; by destruct body1).
    assert (get "thinking" (set_key "max_tokens" (nat_json mx) body2) = Some (set_key "budget_tokens" (nat_json b) th')) as E2.
    { rewrite get_set_key_ne by decided. unfold body2. by rewrite get_set_key, decide_True. }
    split.
    { rewrite get_set_key_ne by decided. unfold body2. rewrite get_set_key_ne by decided. unfold body1.
      by rewrite !get_remove_ne by decided. }
    assert (get "max_tokens" (set_key "max_tokens" (nat_json mx) body2) = Some (nat_json mx)) as E3 by (by rewrite get_set_key, decide_True).
    assert (get "budget_tokens" (set_key "budget_tokens" (nat_json b) th') = Some (nat_json b)) as E4 by (by rewrite get_set_key, decide_True).
    exists asked, b, mx. unfold get2. rewrite E2, E3. cbn [mbind option_bind]. rewrite E4. cbn [mbind option_bind].
    split_and!; try done.
    + apply as_u64_nat. unfold u32_max, u64_last in *. lia.
    + apply as_u64_nat. unfold u32_max, u64_last in *. lia.
    + lia.
    + lia.
    + by rewrite <- Hrest.
    + intros o Eo Ho. rewrite Eo in Hroom, Hkeep. simpl in Hroom, Hkeep. specialize (Hroom Ho). split; [lia|]. intros. apply Hkeep. lia.
    + intros Eo Ho. rewrite Eo in Hkeep. simpl in Hkeep. apply Hkeep. lia.
    + rewrite get_set_key_ne by decided. unfold body2. rewrite get_set_key_ne by decided. unfold body1.
      by rewrite get_remove_ne, get_remove_key, decide_True by decided.
    + rewrite get_set_key_ne by decided. unfold body2. rewrite get_set_key_ne by decided. unfold body1.
      by rewrite get_remove_key, decide_True.
Qed.
End OnAnthropic.

(** The presets lie in the range, where the range is one. *)
Lemma presets_within (lo : N) (hi : option N) (b : N) :
  (N.max lo 1 ≤ default u32_max hi)%N → b ∈ presets lo hi → (N.max lo 1 ≤ b ≤ default u32_max hi)%N.
Proof.
  intros Hr. unfold presets. destruct (filter _ BUDGET_LADDER) as [|x l] eqn:E.
  - intros ->%list_elem_of_singleton. lia.
  - rewrite <- E. intros [H _]%list_elem_of_filter. lia.
Qed.

(** ** Samples *)

Module Samples.

Definition choice (e : string) (b : option N) : ProviderReasoning := {| effort := Some (lit e); budget_tokens := b |}.

Definition claude : ModelReasoning :=
  {| efforts := names ["low"; "medium"; "high"]%string; toggle := true; budget := Some (1024%N, Some 20000%N) |}.

Definition asking (model : string) (o : option Json) : CompletionRequest :=
  {| Completion.model := lit model; messages := [plain User (lit "hi")]; tools := []; temperature := Some (lit "0.5");
     max_tokens := Some 4096%N; provider_options := o |}.

Definition all_gates : Gates := {| g_vision := true; g_temperature := true; g_tools := true; g_thinking := true |}.

End Samples.

Import Samples.

Lemma choice_lowered_witness :
  ∃ v, lower_with Anthropic (lit "claude-opus-4-5") OpenAiChat (choice "max" (Some 50000%N)) false (Some claude) true = Some v
    ∧ named_effort v = Some (lit "high") ∧ get2 "thinking" "budget_tokens" v = Some (nat_json 20000)
    ∧ effort_listed (Some claude) v ∧ budget_fits (Some claude) v.
Proof.
  eexists. split; [reflexivity|]. split; [reflexivity|]. split; [reflexivity|].
  destruct (choice_lowered Anthropic (lit "claude-opus-4-5") OpenAiChat (choice "max" (Some 50000%N)) false (Some claude) true _
              eq_refl ltac:(discriminate)) as (H1 & H2 & _).
  split; [exact H1|exact H2].
Defined.

Lemma offered_is_sent_witness :
  ∃ v, lower_with OpenRouter (lit "x") OpenAiChat (choice "medium" None) false (Some claude) false = Some v
    ∧ (named_effort v = Some (lit "medium") ∨ family OpenRouter OpenAiChat = FAnthropic ∧ lit "medium" = lit "none" ∧ v = disabled).
Proof.
  apply (offered_is_sent OpenRouter (lit "x") OpenAiChat (choice "medium" None) false claude false (lit "medium")).
  - apply (bool_decide_unpack _). vm_compute. exact I.
  - reflexivity.
Defined.

Definition gemini_fields : Json := obj [("reasoning"%string, gemini_node (choice "high" (Some 100%N)))].

Lemma choice_on_gemini_wire_witness :
  let body := build_request_body (λ _, None) Some (asking "gemini-2.5-pro" (Some gemini_fields)) all_gates in
  get2 "generationConfig" "thinkingConfig" body = Some (obj [("thinkingBudget"%string, nat_json 128)])
  ∧ get "reasoning" body = None.
Proof.
  destruct (choice_on_gemini_wire (λ _, None) Some all_gates (asking "gemini-2.5-pro" (Some gemini_fields)) Google (lit "gemini-2.5-pro")
              OpenAiChat (choice "high" (Some 100%N)) false None false gemini_fields eq_refl eq_refl eq_refl eq_refl) as (H1 & H2 & _).
  - intros b [= <-]. unfold u32_max. lia.
  - split; [rewrite H1; reflexivity|exact H2].
Defined.

Definition claude_fields : Json := obj [("thinking"%string, enabled 50000); ("output_config"%string, obj [("effort"%string, String_ (lit "high"))])].

Lemma choice_on_anthropic_wire_witness :
  let body := request_body (λ _, None) Anthropic true (Some 8192%N) (asking "claude-opus-4-5" (Some claude_fields)) in
  (t ← get2 "thinking" "budget_tokens" body; as_u64 t) = Some 7168%N
  ∧ get "output_config" body = Some (obj [("effort"%string, String_ (lit "high"))]) ∧ get "temperature" body = None
  ∧ get "model" body = Some (String_ (lit "claude-opus-4-5")).
Proof.
  destruct (choice_on_anthropic_wire (λ _, None) Anthropic true (Some 8192%N) (asking "claude-opus-4-5" (Some claude_fields))
              None (lit "claude-opus-4-5") (choice "high" (Some 50000%N)) false claude_fields eq_refl eq_refl eq_refl) as (H0 & H1 & H2).
  - intros o [= <-]. unfold u32_max. lia.
  - split; [intros b [= <-]; unfold u32_max; lia|]. intros o lo hi [=].
  - assert (get2 "thinking" "budget_tokens" claude_fields = Some (nat_json 50000)) as Ev by reflexivity. rewrite Ev in H2.
    destruct H2 as (asked & b & mx & _ & Hb & _ & _ & _ & _ & _ & _ & Ht & _). split; [vm_compute; reflexivity|].
    split; [rewrite H1; reflexivity|]. split; [exact Ht|]. rewrite H0 by decided. reflexivity.
Defined.

(** An effort of "none" that a Claude does not list is not left out: thinking is switched off. *)
Lemma none_switches_off :
  nearest_effort (lit "none") (efforts claude) = None
  ∧ lower_with Anthropic (lit "claude-sonnet-5") OpenAiChat (choice "none" None) false (Some claude) false = Some disabled.
Proof. split; reflexivity. Qed.
