(* ===== verification/Gateway.v ===== *)
(** * The OpenCode gateways (agent/src/provider/gateway.rs)

    One gateway, each model on its native wire, with a retry on chat completions when the
    gateway refuses the wire.  The three providers behind it are functions from a request
    to its stream; [Wired] is what the retry relies on, a refused request that sends nothing
    to the sink, and the native providers keep it. *)

From S2P Require Import Prelude Json Transcript Classify Session Providers Completion Catalogue.
From S2P Require Import OpenAiCompat AnthropicApi Gemini Reasoning.

Definition NON_CHAT_PREFIXES : list str := [lit "jev-"].

Definition MISMATCH : str := lit "is not supported for format".

Definition is_wire_mismatch (e : ProviderError) : bool :=
  match e with
  | Auth b | Http _ b => contains_str MISMATCH b
  | _ => false
  end.

Record OpencodeGatewayProvider : Type := {
  gw_kind : ProviderKind;
  chat : CompletionRequest → Streamed;
  anthropic : CompletionRequest → Streamed;
  gemini : option (CompletionRequest → Streamed);
  wire_of : ProviderKind → str → Wire;
}.

(** Zen serves Gemini models on their native route; Go has none. *)
Definition new_gateway (kind : ProviderKind) (chat anthropic gemini : CompletionRequest → Streamed)
    (slot : option Catalogue) : OpencodeGatewayProvider :=
  {| gw_kind := kind; chat := chat; anthropic := anthropic;
     gemini := if bool_decide (kind = OpencodeZen) then Some gemini else None; wire_of := Catalogue.wire slot |}.

Definition target (g : OpencodeGatewayProvider) (model : str) : CompletionRequest → Streamed :=
  match wire_of g (gw_kind g) model with
  | AnthropicMessages => anthropic g
  | Completion.Gemini => default (chat g) (gemini g)
  | OpenAiChat | OpenAiResponses => chat g
  end.

Definition native (g : OpencodeGatewayProvider) (model : str) : bool :=
  match wire_of g (gw_kind g) model with
  | AnthropicMessages => true
  | Completion.Gemini => bool_decide (is_Some (gemini g))
  | OpenAiChat | OpenAiResponses => false
  end.

Definition list_models (chat_models : result (list ModelInfo) ProviderError) : result (list ModelInfo) ProviderError :=
  models <-? chat_models;
  Ok (filter (λ m, existsb (λ p, starts_with p (info_id m)) NON_CHAT_PREFIXES = false) models).

(** The retry goes to the same sink. *)
Definition stream_completion (g : OpencodeGatewayProvider) (req : CompletionRequest) : Streamed :=
  if negb (native g (Completion.model req)) then chat g req
  else
    let s := target g (Completion.model req) req in
    match outcome s with
    | Err e =>
        if is_wire_mismatch e then
          let r := chat g req in {| events := events s ++ events r; outcome := outcome r |}
        else s
    | Ok _ => s
    end.

(** ** What the retry relies on *)

(** A provider that posts its request and, refused, sends nothing: its error says what the
    response said. *)
Class Wired (complete : CompletionRequest → Streamed) (post : CompletionRequest → result Response str) : Prop :=
  refused_silently : ∀ req r, post req = Ok r → is_success r = false →
    events (complete req) = []
    ∧ ∃ e, outcome (complete req) = Err e ∧ (contains_str MISMATCH (body_text r) = true → is_wire_mismatch e = true).

Lemma from_status_mismatch (st : N) (b : str) : is_wire_mismatch (from_http_status st b) = contains_str MISMATCH b.
Proof. unfold from_http_status. by destruct (st =? 401)%N. Qed.

Lemma strip_prefix_more (p s t r : str) : strip_prefix p s = Some r → strip_prefix p (s ++ t) = Some (r ++ t).
Proof. intros ->%strip_prefix_Some. rewrite <- (assoc_L (++)). apply strip_prefix_app. Qed.

Lemma contains_str_more (p s t : str) : contains_str p s = true → contains_str p (s ++ t) = true.
Proof.
  assert (∀ s, starts_with p s = true → starts_with p (s ++ t) = true) as Hst.
  { intros u. unfold starts_with. destruct (strip_prefix p u) eqn:E; [|done]. by rewrite (strip_prefix_more _ _ t _ E). }
  induction s as [|c s IH]; simpl; rewrite ?orb_false_r.
  - intros H%Hst. simpl in H. destruct t; simpl; by rewrite H.
  - intros [H|H]%orb_true_iff; [|by rewrite IH, orb_true_r]. change (starts_with p ((c :: s) ++ t) || contains_str p (s ++ t) = true).
    by rewrite Hst.
Qed.

Section Refused.
Context (eventsource : Eventsource) (post : Json → result Response str).

#[global] Instance anthropic_wired (from_str : str → option Json) kind vision output :
  Wired (AnthropicApi.stream_completion from_str eventsource post kind vision output)
        (λ req, post (AnthropicApi.request_body from_str kind vision output req)).
Proof.
  intros req r Hr Hs. unfold AnthropicApi.stream_completion, exchange. rewrite Hr, Hs. split; [done|].
  eexists. split; [done|]. by rewrite from_status_mismatch.
Qed.

#[global] Instance gemini_wired parse from_str to_string uuid convert caps :
  Wired (Gemini.stream_completion parse from_str to_string uuid convert eventsource post caps)
        (λ req, post (build_request_body parse convert req (from_capabilities caps))).
Proof.
  intros req r Hr Hs. unfold Gemini.stream_completion. rewrite Hr, Hs. split; [done|]. eexists. split; [done|]. intros Hc.
  assert (is_wire_mismatch (http_error (status r) (body_text r)) = true) as H.
  { unfold http_error. destruct (_ && _); [done|]. by rewrite from_status_mismatch. }
  unfold name_rejected_tool. repeat case_match; simplify_eq/=; try done; by apply contains_str_more.
Qed.
End Refused.

(** A model that has moved still answers: a request whose native wire the gateway refuses
    is the request on chat completions, its stream whole and nothing before it; a model
    without a native wire, and a native answer that is not refused, are left as they are. *)
Theorem refused_wire_retried (g : OpencodeGatewayProvider) (req : CompletionRequest)
    (post : CompletionRequest → result Response str) `{!Wired (target g (Completion.model req)) post} :
  if native g (Completion.model req) then
    (∀ r, post req = Ok r → is_success r = false → contains_str MISMATCH (body_text r) = true →
       stream_completion g req = chat g req)
    ∧ (∀ fin, outcome (target g (Completion.model req) req) = Ok fin →
         stream_completion g req = target g (Completion.model req) req)
    ∧ (∀ e, outcome (target g (Completion.model req) req) = Err e → is_wire_mismatch e = false →
         stream_completion g req = target g (Completion.model req) req)
  else stream_completion g req = chat g req ∧ target g (Completion.model req) = chat g.
Proof.
  unfold stream_completion. destruct (native g (Completion.model req)) eqn:Hn; simpl.
  - split_and!.
    + intros r Hr Hs Hc. destruct (refused_silently req r Hr Hs) as (He & e & Ho & Hm). rewrite Ho, Hm, He by done.
      by destruct (chat g req).
    + intros fin Ho. by rewrite Ho.
    + intros e Ho Hm. by rewrite Ho, Hm.
  - split; [done|]. unfold native, target in *. destruct (wire_of g _ _); try done. by destruct (gemini g).
Qed.

(** ** The options of a request are those of its wire *)

(** The fields a saved choice becomes are in the shape of the provider the gateway sends
    the request to: the families of the options and the wires of the gateway, two tables of
    the code, agree for every model, on both gateways. *)
Theorem options_match_wire (kind : ProviderKind) (c a gem : CompletionRequest → Streamed) (slot : option Catalogue)
    (model : str) :
  is_opencode_gateway kind = true →
  let g := new_gateway kind c a gem slot in
  target g model = match family kind (Catalogue.wire slot kind model) with
                   | FAnthropic => a
                   | FGemini => gem
                   | _ => c
                   end
  ∧ native g model = bool_decide (family kind (Catalogue.wire slot kind model) ≠ FCompat).
Proof. intros Hk. unfold target, native. simpl. destruct kind; try done; by destruct (Catalogue.wire slot _ model). Qed.

(** ** Samples *)

Module Samples.

Definition says (text : string) (o : result CompletionFinal ProviderError) : CompletionRequest → Streamed :=
  λ _, {| events := [TokenDelta (lit text)]; outcome := o |}.

Definition done_ : CompletionFinal :=
  {| finish_reason := Stop; final_calls := []; usage := None; final_reasoning := None; final_thinking := [] |}.

(** A catalogue that serves every model on Anthropic's wire. *)
Definition claude_only : option Catalogue :=
  Some {| by_id := ∅; cost_by_id := ∅;
          caps_by_id := {[ (lit "opencode", lit "m") := {| cap_reasoning := true; cap_tool_call := true; cap_temperature := true;
            cap_vision := true; interleaved_field := None; cap_wire := AnthropicMessages; reasoning_options := None |} ]};
          models_by_provider := ∅ |}.

Definition refusal : Response := {| status := 400; body_text := lit "m is not supported for format anthropic"; body_chunks := [] |}.

Definition refusing : CompletionRequest → Streamed :=
  AnthropicApi.stream_completion (λ _, None) (λ _, []) (λ _, Ok refusal) OpencodeZen true None.

Definition ask : CompletionRequest :=
  {| Completion.model := lit "m"; messages := []; tools := []; temperature := None; max_tokens := None; provider_options := None |}.

(** A native stream that fails with the same text after it has spoken. *)
Definition fails_late : OpencodeGatewayProvider :=
  new_gateway OpencodeZen (says "from chat" (Ok done_))
    (says "from claude" (Err (Http None (lit "invalid_request_error: m is not supported for format anthropic"))))
    (says "" (Ok done_)) claude_only.

End Samples.

Import Samples.

Lemma refused_wire_retried_witness :
  let g := new_gateway OpencodeZen (says "from chat" (Ok done_)) refusing (says "" (Ok done_)) claude_only in
  native g (lit "m") = true ∧ stream_completion g ask = chat g ask.
Proof.
  split; [reflexivity|].
  pose proof (refused_wire_retried
    (new_gateway OpencodeZen (says "from chat" (Ok done_)) refusing (says "" (Ok done_)) claude_only) ask
    (λ req, Ok refusal)
    (Wired0 := anthropic_wired (λ _, []) (λ _, Ok refusal) (λ _, None) OpencodeZen true None)) as H.
  destruct H as [H _]. apply (H refusal); reflexivity.
Defined.

Lemma options_match_wire_witness :
  let g := new_gateway OpencodeGo (says "chat" (Ok done_)) (says "claude" (Ok done_)) (says "gemini" (Ok done_)) claude_only in
  target g (lit "m") = says "chat" (Ok done_) ∧ native g (lit "m") = false.
Proof.
  destruct (options_match_wire OpencodeGo (says "chat" (Ok done_)) (says "claude" (Ok done_)) (says "gemini" (Ok done_)) claude_only
              (lit "m") eq_refl) as [H1 H2].
  split; [exact H1|exact H2].
Defined.

(** A stream that fails with the gateway's text after it has emitted events is retried all the
    same, and the sink sees both answers. *)
Lemma late_mismatch_replayed :
  events (stream_completion fails_late ask) = [TokenDelta (lit "from claude"); TokenDelta (lit "from chat")].
Proof. reflexivity. Qed.
