(* ===== verification/Serde.v ===== *)
(** * What serde derives

    Reading and writing of the settings files, through [serde_json::Value]: a type with its
    [Serialize] and [Deserialize], the fields of a struct with the attributes the code uses
    ([default], [skip_serializing_if], [Option]), names of enums, maps and lists.

    A struct that is written as a list, which serde reads too, is not read here.  [Faithful]
    says that what is written is read back; it is the law the files of the settings need. *)

From S2P Require Import Prelude Json.

Class Serde (A : Type) : Type := { ser : A → Json; de : Json → option A }.

Class Faithful A `{Serde A} (fits : A → Prop) : Prop := de_ser (x : A) : fits x → de (ser x) = Some x.

Definition anything {A} (x : A) : Prop := True.

(** ** Scalars *)

#[global] Instance str_serde : Serde str := { ser := String_; de := as_str }.

#[global] Instance bool_serde : Serde bool := { ser := Bool; de := as_bool }.

(** [u32] *)
#[global] Instance u32_serde : Serde N :=
  { ser n := Number (dec_str n); de v := match v with Number t => parse_u32 t | _ => None end }.

Lemma parse_uint_le (max n : N) (s : str) : parse_uint max s = Some n → (n ≤ max)%N.
Proof.
  unfold parse_uint. destruct (match strip_prefix _ _ with Some r => r | None => s end); [done|].
  intros (u & _ & H)%bind_Some. destruct (_ <=? max)%N eqn:E; [|done]. injection H as <-. by apply N.leb_le.
Qed.

#[global] Instance str_faithful : Faithful str anything.
Proof. by intros s _. Qed.

#[global] Instance bool_faithful : Faithful bool anything.
Proof. by intros b _. Qed.

#[global] Instance u32_faithful : Faithful N (λ n, n ≤ u32_max)%N.
Proof. intros n Hn. by apply parse_uint_dec_str. Qed.

(** ** Enums without data, by the names of their variants *)

Definition variant (v : Json) : option str :=
  match v with
  | String_ s | Object [(s, Null)] => Some s
  | _ => None
  end.

Definition named {A} (names : list (string * A)) (s : str) : option A :=
  list_find (λ p, lit p.1 = s) names ≫= λ p, Some p.2.2.

(** ** Lists *)

#[global] Instance list_serde `{Serde A} : Serde (list A) | 10 :=
  { ser l := Array (ser <$> l); de v := l ← as_array v; mapM de l }.

#[global] Instance list_faithful `{Faithful A fits} : Faithful (list A) (Forall fits) | 10.
Proof.
  intros l Hl. simpl. apply mapM_Some. apply Forall2_fmap_l, Forall_Forall2_diag. eapply Forall_impl; [exact Hl|].
  intros x Hx. by apply de_ser.
Qed.

(** ** Maps with strings for keys *)

Definition written {K} `{Countable K} `{Serde V} (name : K → str) (m : gmap K V) : Map :=
  map_fold (λ k v o, map_insert (name k) (ser v) o) [] m.

Definition write_map {K} `{Countable K} `{Serde V} (name : K → str) (m : gmap K V) : Json := Object (written name m).

(** [HashMap<String, V>] *)
Definition read_map `{Serde V} (v : Json) : option (gmap str V) :=
  match v with
  | Object o => list_to_map <$> mapM (λ p, v ← de p.2; Some (p.1, v)) o
  | _ => None
  end.

#[global] Instance map_serde `{Serde V} : Serde (gmap str V) := { ser := write_map id; de := read_map }.

Lemma read_map_get `{Serde V} (o : Map) (g : gmap str V) (k : str) :
  read_map (Object o) = Some g → g !! k = (v ← map_get k o; de v).
Proof.
  simpl. revert g. induction o as [|[k' v] o IH]; simpl; [intros g [= <-]; apply lookup_empty|].
  intros g. destruct (de v) as [w|] eqn:Hw; simpl; [|done]. destruct (mapM _ o) as [l|] eqn:Hl; simpl; [|done]. intros [= <-].
  simpl. case_decide as Hk; [subst; by rewrite lookup_insert, decide_True by done|].
  rewrite lookup_insert_ne by done. by apply IH.
Qed.

Lemma read_map_is_Some `{Serde V} (o : Map) : Forall (λ p, is_Some (de (A := V) p.2)) o → is_Some (read_map (V := V) (Object o)).
Proof.
  intros Ho. unfold read_map. apply fmap_is_Some, mapM_is_Some. eapply Forall_impl; [exact Ho|]. intros [k v] [w Hw].
  simpl in *. rewrite Hw. by eexists.
Qed.

Section Written.
Context {K} `{Countable K} `{Faithful V fits} (name : K → str) `{!Inj (=) (=) name}.

Lemma written_get (m : gmap K V) (k : K) : map_get (name k) (written name m) = ser <$> m !! k.
Proof.
  unfold written. apply (map_fold_weak_ind (λ o m, map_get (name k) o = ser <$> m !! k)); [by rewrite lookup_empty|].
  intros k' v m' o Hk IH. rewrite map_get_insert. destruct (decide (k' = k)) as [->|Hne].
  - by rewrite decide_True, lookup_insert, decide_True by done.
  - rewrite decide_False, lookup_insert_ne by (done || by intros ?%(inj name)). exact IH.
Qed.

Lemma written_other (m : gmap K V) (s : str) : (∀ k, name k ≠ s) → map_get s (written name m) = None.
Proof.
  intros Hs. unfold written. apply (map_fold_weak_ind (λ o _, map_get s o = None)); [done|].
  intros k v _ o _ IH. by rewrite map_get_insert, decide_False.
Qed.

Lemma written_Forall (P : str * Json → Prop) (m : gmap K V) :
  map_Forall (λ k v, P (name k, ser v)) m → Forall P (written name m).
Proof.
  unfold written. intros Hm. apply (map_fold_weak_ind (λ o m, map_Forall (λ k v, P (name k, ser v)) m → Forall P o)); [constructor| |done].
  intros k v m' o Hk IH [Hv Hm']%map_Forall_insert; [|done]. apply map_insert_Forall; [done|by apply IH].
Qed.

Lemma written_read (m : gmap K V) : map_Forall (λ _, fits) m → is_Some (read_map (V := V) (Object (written name m))).
Proof.
  intros Hm. apply read_map_is_Some, written_Forall. intros k v Hk. simpl. rewrite de_ser; [by eexists|]. by apply (Hm k).
Qed.
End Written.

#[global] Instance map_faithful `{Faithful V fits} : Faithful (gmap str V) (map_Forall (λ _, fits)).
Proof.
  intros m Hm. destruct (written_read id m Hm) as [g Hg]. simpl. etrans; [exact Hg|]. f_equal. apply map_eq. intros k.
  rewrite (read_map_get _ g k Hg). change k with (id k) at 1. rewrite (written_get id). destruct (m !! k) as [v|] eqn:Hk; [|done].
  simpl. apply de_ser. by apply (Hm k).
Qed.

(** ** Structs *)

(** The fields that are written. *)
Definition struct (l : list (string * option Json)) : Json :=
  Object (foldl (λ m p, match p.2 with Some v => map_insert (lit p.1) v m | None => m end) [] l).

Fixpoint field (k : string) (l : list (string * option Json)) : option Json :=
  match l with
  | [] => None
  | p :: l => if String.eqb p.1 k then p.2 else field k l
  end.

Lemma get_struct (k : string) (l : list (string * option Json)) : NoDup l.*1 → get k (struct l) = field k l.
Proof.
  unfold struct. simpl. assert (∀ m, NoDup l.*1 → map_get (lit k) (foldl (λ m p, match p.2 with Some v => map_insert (lit p.1) v m | None => m end) m l)
    = match field k l with Some v => Some v | None => map_get (lit k) m end) as H; [|intros Hl; rewrite H by done; by destruct (field k l)].
  induction l as [|[k' v] l IH]; intros m Hl; [done|]. rewrite fmap_cons in Hl. apply NoDup_cons in Hl as [Hn Hl]. simpl in *. rewrite IH by done.
  destruct (String.eqb_spec k' k) as [->|Hne].
  - assert (field k l = None) as ->.
    { clear -Hn. induction l as [|[k' w] l IH]; [done|]. rewrite fmap_cons, not_elem_of_cons in Hn. simpl in *.
      destruct (String.eqb_spec k' k) as [->|_]; [by destruct Hn as [[] _]|]. by apply IH, Hn. }
    destruct v as [v|]; [by rewrite map_get_insert, decide_True|done].
  - destruct (field k l); [done|]. destruct v; [|done]. rewrite map_get_insert, decide_False; [done|]. by intros ?%(inj lit).
Qed.

(** A field that must be there, an [Option], and one with a default. *)
Definition required `{Serde A} (k : string) (o : Json) : option A := v ← get k o; de v.

Definition nullable `{Serde A} (k : string) (o : Json) : option (option A) :=
  match get k o with
  | None | Some Null => Some None
  | Some v => Some <$> de v
  end.

Definition defaulted_with {A} (read : Json → option A) (d : A) (k : string) (o : Json) : option A :=
  match get k o with Some v => read v | None => Some d end.

Definition defaulted `{Serde A} : A → string → Json → option A := defaulted_with de.

Definition is_struct (v : Json) : option () := match v with Object _ => Some () | _ => None end.

#[global] Arguments struct : simpl never.

#[global] Arguments ser : simpl never.

#[global] Arguments de : simpl never.

#[global] Arguments nullable : simpl never.

#[global] Arguments required : simpl never.

#[global] Arguments defaulted : simpl never.

#[global] Arguments defaulted_with : simpl never.

Lemma is_struct_struct (l : list (string * option Json)) : is_struct (struct l) = Some ().
Proof. done. Qed.

Section Fields.
Context `{Faithful A fits} (k : string) (l : list (string * option Json)).

Lemma required_back (x : A) :
  NoDup l.*1 → field k l = Some (ser x) → fits x → required k (struct l) = Some x.
Proof. intros Hl Hk Hx. unfold required. rewrite get_struct, Hk by done. by apply de_ser. Qed.

Lemma defaulted_back (x d : A) :
  NoDup l.*1 → field k l = Some (ser x) → fits x → defaulted d k (struct l) = Some x.
Proof. intros Hl Hk Hx. unfold defaulted, defaulted_with. rewrite get_struct, Hk by done. by apply de_ser. Qed.

(** A value that is only left out when it is the default. *)
Lemma skipped_back (x d : A) (b : bool) :
  NoDup l.*1 → field k l = (if b then None else Some (ser x)) → (b = true → x = d) → fits x →
  defaulted d k (struct l) = Some x.
Proof.
  intros Hl Hk Hd Hx. destruct b; [|by apply defaulted_back]. unfold defaulted, defaulted_with. rewrite get_struct, Hk by done.
  by rewrite Hd.
Qed.

(** [Option] in a field is read back unless what is in it is written as [null]. *)
Lemma nullable_back (x : option A) :
  NoDup l.*1 → field k l = ser <$> x → (∀ y, ser y ≠ Null) → (∀ y, x = Some y → fits y) → nullable k (struct l) = Some x.
Proof.
  intros Hl Hk Hn Hx. unfold nullable. rewrite get_struct, Hk by done. destruct x as [y|]; [|done]. simpl.
  specialize (Hn y). rewrite (de_ser y) by auto. by destruct (ser y).
Qed.
End Fields.

Lemma read_back (k : string) (l : list (string * option Json)) {B} (y : B) (read : Json → option B) (d : B) (v : Json) :
  NoDup l.*1 → field k l = Some v → read v = Some y → defaulted_with read d k (struct l) = Some y.
Proof. intros Hl Hk Hr. unfold defaulted_with. by rewrite get_struct, Hk. Qed.

(** The field [k] of a struct that was written, read as [x]. *)
Ltac back lemma k x :=
  match goal with
  | |- context [struct ?l] => erewrite (lemma _ _ _ _ k l x); [cbn [mbind option_bind]|decided|reflexivity|try done..]
  end.

Ltac back_with k x :=
  match goal with
  | |- context [struct ?l] => erewrite (read_back k l x); [cbn [mbind option_bind]|decided|reflexivity|try done..]
  end.
