(* ===== verification/Settings.v ===== *)
(** * The settings of the agent (agent/src/config.rs, app/src/agent/settings.rs)

    AgentSettings and the file it lives in: what serde reads and writes, the migrations of
    older files, the patches of the settings page (ai_set_settings of
    app/src/agent/commands.rs).

    The file is the [Value] of its text: reading the text is serde_json's.  The parse of an
    address is an argument (the url crate), and so is the listing that gives a new default
    model (Catalogue.default_model_for). *)

From stdpp Require Import finite.

From S2P Require Import Prelude Json Session Providers Reasoning Serde.

(** ** The data *)

(** [ProviderConfig] *)
Record ProviderConfig : Set := { base_url : option str; custom_models : list str; cfg_enabled : option bool }.

Definition default_config : ProviderConfig := {| base_url := None; custom_models := []; cfg_enabled := None |}.

Inductive ReasoningEffort : Set := Low | Medium | High.

Record ReasoningSettings : Set := { rs_effort : option ReasoningEffort; rs_budget : option N }.

Definition no_settings : ReasoningSettings := {| rs_effort := None; rs_budget := None |}.

Inductive McpTransport : Set := Stdio | Sse | Http_.

Record McpServerConfig : Set := {
  mcp_id : str; mcp_name : str; transport : McpTransport; command : str; url : option str; args : list str;
  env : gmap str str; headers : gmap str str; trust_as_read : bool; mcp_enabled : bool;
}.

Record AgentSettings : Set := {
  active_provider : ProviderKind;
  providers : gmap ProviderKind ProviderConfig;
  default_model : option str;
  default_approval_mode : ApprovalMode;
  system_prompt_override : option str;
  allow_plaintext_api_key : bool;
  mcp_servers : list McpServerConfig;
  mcp_binary_path : option str;
  reasoning : ReasoningSettings;
  provider_reasoning : gmap ProviderKind ProviderReasoning;
}.

Definition default_settings : AgentSettings :=
  {| active_provider := default_kind; providers := ∅; default_model := None; default_approval_mode := ApprovePerWrite;
     system_prompt_override := None; allow_plaintext_api_key := false; mcp_servers := []; mcp_binary_path := None;
     reasoning := no_settings; provider_reasoning := ∅ |}.

(** [plaintext_credentials] has the text of each credential. *)
Record PersistedSettings : Set := {
  settings : AgentSettings;
  plaintext_credentials : gmap ProviderKind str;
  configured_providers : gset ProviderKind;
  keychain_index_initialized : bool;
}.

Definition default_persisted : PersistedSettings :=
  {| settings := default_settings; plaintext_credentials := ∅; configured_providers := ∅;
     keychain_index_initialized := false |}.

(** ** Assignments *)

Definition set_active_provider (k : ProviderKind) (s : AgentSettings) : AgentSettings :=
  {| active_provider := k; providers := providers s; default_model := default_model s;
     default_approval_mode := default_approval_mode s; system_prompt_override := system_prompt_override s;
     allow_plaintext_api_key := allow_plaintext_api_key s; mcp_servers := mcp_servers s; mcp_binary_path := mcp_binary_path s;
     reasoning := reasoning s; provider_reasoning := provider_reasoning s |}.

Definition set_providers (c : gmap ProviderKind ProviderConfig) (s : AgentSettings) : AgentSettings :=
  {| active_provider := active_provider s; providers := c; default_model := default_model s;
     default_approval_mode := default_approval_mode s; system_prompt_override := system_prompt_override s;
     allow_plaintext_api_key := allow_plaintext_api_key s; mcp_servers := mcp_servers s; mcp_binary_path := mcp_binary_path s;
     reasoning := reasoning s; provider_reasoning := provider_reasoning s |}.

Definition set_default_model (m : option str) (s : AgentSettings) : AgentSettings :=
  {| active_provider := active_provider s; providers := providers s; default_model := m;
     default_approval_mode := default_approval_mode s; system_prompt_override := system_prompt_override s;
     allow_plaintext_api_key := allow_plaintext_api_key s; mcp_servers := mcp_servers s; mcp_binary_path := mcp_binary_path s;
     reasoning := reasoning s; provider_reasoning := provider_reasoning s |}.

Definition set_reasoning (r : ReasoningSettings) (own : gmap ProviderKind ProviderReasoning) (s : AgentSettings) : AgentSettings :=
  {| active_provider := active_provider s; providers := providers s; default_model := default_model s;
     default_approval_mode := default_approval_mode s; system_prompt_override := system_prompt_override s;
     allow_plaintext_api_key := allow_plaintext_api_key s; mcp_servers := mcp_servers s; mcp_binary_path := mcp_binary_path s;
     reasoning := r; provider_reasoning := own |}.

Definition set_settings (s : AgentSettings) (p : PersistedSettings) : PersistedSettings :=
  {| settings := s; plaintext_credentials := plaintext_credentials p; configured_providers := configured_providers p;
     keychain_index_initialized := keychain_index_initialized p |}.

Definition set_plaintext (c : gmap ProviderKind str) (p : PersistedSettings) : PersistedSettings :=
  {| settings := settings p; plaintext_credentials := c; configured_providers := configured_providers p;
     keychain_index_initialized := keychain_index_initialized p |}.

Definition edit (f : AgentSettings → AgentSettings) (p : PersistedSettings) : PersistedSettings :=
  set_settings (f (settings p)) p.

(** [providers.entry(kind).or_default()], changed *)
Definition edit_config (kind : ProviderKind) (f : ProviderConfig → ProviderConfig) : PersistedSettings → PersistedSettings :=
  edit (λ s, set_providers (<[kind := f (default default_config (providers s !! kind))]> (providers s)) s).

(** ** What serde derives *)

(** Maps keyed by providers skip the ids this build does not know. *)
Definition lenient_kind_map `{Serde V} (v : Json) : option (gmap ProviderKind V) :=
  raw ← read_map (V := V) v;
  Some (list_to_map (omap (λ p, k ← from_id p.1; Some (k, p.2)) (map_to_list raw))).

Definition lenient_kind_set (v : Json) : option (gset ProviderKind) :=
  raw ← de (A := list str) v; Some (list_to_set (omap from_id raw)).

Definition lenient_kind (v : Json) : option ProviderKind := id ← as_str v; Some (default default_kind (from_id id)).

Definition approval_names : list (string * ApprovalMode) :=
  [("approve_per_write", ApprovePerWrite); ("allow_all_writes", AllowAllWrites)]%string.

#[global] Instance approval_serde : Serde ApprovalMode :=
  { ser m := String_ (lit match m with ApprovePerWrite => "approve_per_write" | AllowAllWrites => "allow_all_writes" end);
    de v := variant v ≫= named approval_names }.

Definition effort_str (e : ReasoningEffort) : str := lit match e with Low => "low" | Medium => "medium" | High => "high" end.

#[global] Instance effort_serde : Serde ReasoningEffort :=
  { ser e := String_ (effort_str e);
    de v := variant v ≫= named [("low", Low); ("medium", Medium); ("high", High)]%string }.

#[global] Instance transport_serde : Serde McpTransport :=
  { ser t := String_ (lit match t with Stdio => "stdio" | Sse => "sse" | Http_ => "http" end);
    de v := variant v ≫= named [("stdio", Stdio); ("sse", Sse); ("http", Http_)]%string }.

Definition skip_none `{Serde A} (x : option A) : option Json := ser <$> x.

Definition skip_if (b : bool) (v : Json) : option Json := if b then None else Some v.

Open Scope string_scope.

#[global] Instance config_serde : Serde ProviderConfig :=
  { ser c := struct [("base_url", skip_none (base_url c));
                     ("custom_models", skip_if (bool_decide (custom_models c = [])) (ser (custom_models c)));
                     ("enabled", skip_none (cfg_enabled c))];
    de v := _ ← is_struct v;
            u ← nullable "base_url" v; m ← defaulted [] "custom_models" v; e ← nullable "enabled" v;
            Some {| base_url := u; custom_models := m; cfg_enabled := e |} }.

#[global] Instance own_reasoning_serde : Serde ProviderReasoning :=
  { ser r := struct [("effort", skip_none (effort r)); ("budget_tokens", skip_none (budget_tokens r))];
    de v := _ ← is_struct v;
            e ← nullable "effort" v; b ← nullable "budget_tokens" v; Some {| effort := e; budget_tokens := b |} }.

#[global] Instance reasoning_serde : Serde ReasoningSettings :=
  { ser r := struct [("effort", skip_none (rs_effort r)); ("budget_tokens", skip_none (rs_budget r))];
    de v := _ ← is_struct v;
            e ← nullable "effort" v; b ← nullable "budget_tokens" v; Some {| rs_effort := e; rs_budget := b |} }.

#[global] Instance mcp_serde : Serde McpServerConfig :=
  { ser c := struct [("id", Some (ser (mcp_id c))); ("name", Some (ser (mcp_name c))); ("transport", Some (ser (transport c)));
                     ("command", Some (ser (command c))); ("url", skip_none (url c)); ("args", Some (ser (args c)));
                     ("env", Some (ser (env c))); ("headers", Some (ser (headers c)));
                     ("trust_as_read", Some (ser (trust_as_read c))); ("enabled", Some (ser (mcp_enabled c)))];
    de v := _ ← is_struct v;
            i ← required "id" v; n ← required "name" v; t ← defaulted Stdio "transport" v; c ← defaulted [] "command" v;
            u ← nullable "url" v; a ← defaulted [] "args" v; e ← defaulted ∅ "env" v; h ← defaulted ∅ "headers" v;
            r ← defaulted false "trust_as_read" v; b ← defaulted true "enabled" v;
            Some {| mcp_id := i; mcp_name := n; transport := t; command := c; url := u; args := a; env := e; headers := h;
                    trust_as_read := r; mcp_enabled := b |} }.

Definition is_retired (r : ReasoningSettings) : bool :=
  match rs_effort r, rs_budget r with None, None => true | _, _ => false end.

#[global] Instance settings_serde : Serde AgentSettings :=
  { ser s := struct [("active_provider", Some (String_ (kind_name (active_provider s))));
                     ("providers", Some (write_map kind_name (providers s)));
                     ("default_model", skip_none (default_model s));
                     ("default_approval_mode", Some (ser (default_approval_mode s)));
                     ("system_prompt_override", skip_none (system_prompt_override s));
                     ("allow_plaintext_api_key", Some (ser (allow_plaintext_api_key s)));
                     ("mcp_servers", Some (ser (mcp_servers s)));
                     ("mcp_binary_path", skip_none (mcp_binary_path s));
                     ("reasoning", skip_if (is_retired (reasoning s)) (ser (reasoning s)));
                     ("provider_reasoning", Some (write_map kind_name (provider_reasoning s)))];
    de v := _ ← is_struct v;
            a ← defaulted_with lenient_kind default_kind "active_provider" v;
            c ← defaulted_with lenient_kind_map ∅ "providers" v;
            m ← nullable "default_model" v;
            d ← required "default_approval_mode" v;
            o ← nullable "system_prompt_override" v;
            t ← defaulted false "allow_plaintext_api_key" v;
            x ← defaulted [] "mcp_servers" v;
            b ← nullable "mcp_binary_path" v;
            r ← defaulted no_settings "reasoning" v;
            w ← defaulted_with lenient_kind_map ∅ "provider_reasoning" v;
            Some {| active_provider := a; providers := c; default_model := m; default_approval_mode := d;
                    system_prompt_override := o; allow_plaintext_api_key := t; mcp_servers := x; mcp_binary_path := b;
                    reasoning := r; provider_reasoning := w |} }.

#[global] Instance persisted_serde : Serde PersistedSettings :=
  { ser p := struct [("settings", Some (ser (settings p)));
                     ("plaintext_credentials", Some (write_map kind_name (plaintext_credentials p)));
                     ("configured_providers", Some (ser (kind_name <$> elements (configured_providers p))));
                     ("keychain_index_initialized", Some (ser (keychain_index_initialized p)))];
    de v := _ ← is_struct v;
            s ← defaulted default_settings "settings" v;
            t ← defaulted_with lenient_kind_map ∅ "plaintext_credentials" v;
            c ← defaulted_with lenient_kind_set ∅ "configured_providers" v;
            k ← defaulted false "keychain_index_initialized" v;
            Some {| settings := s; plaintext_credentials := t; configured_providers := c; keychain_index_initialized := k |} }.

Close Scope string_scope.

(** ** Readings of the settings *)

(** [effective_reasoning] *)
Definition effective_reasoning (s : AgentSettings) (kind : ProviderKind) : ProviderReasoning :=
  match provider_reasoning s !! kind with
  | Some own => own
  | None => {| effort := effort_str <$> rs_effort (reasoning s); budget_tokens := rs_budget (reasoning s) |}
  end.

Definition is_provider_enabled (s : AgentSettings) (kind : ProviderKind) : bool :=
  default (default_enabled kind) (c ← providers s !! kind; cfg_enabled c).

Definition disabled_text (kind : ProviderKind) : str :=
  meta_display_name (for_kind kind) ++ lit " is disabled " ++ dash ++ lit " enable it in Settings " ++ 8594%N :: lit " AI".

Definition ensure_enabled (kind : ProviderKind) (s : AgentSettings) : result () str :=
  if is_provider_enabled s kind then Ok () else Err (disabled_text kind).

(** ** The migrations *)

(** Pin the free tier on for those who relied on it. *)
Definition migrate_zen_opt_in (p : PersistedSettings) : PersistedSettings :=
  let zen := OpencodeZen in
  let undecided := match c ← providers (settings p) !! zen; cfg_enabled c with None => true | Some _ => false end in
  let in_use := bool_decide (active_provider (settings p) = zen) || bool_decide (zen ∈ configured_providers p)
                || bool_decide (is_Some (plaintext_credentials p !! zen)) in
  if undecided && in_use
  then edit_config zen (λ c, {| base_url := base_url c; custom_models := custom_models c; cfg_enabled := Some true |}) p
  else p.

(** The old choice for each provider that has none of its own; the targets in any order. *)
Definition migrate_global_reasoning (p : PersistedSettings) : PersistedSettings :=
  if is_retired (reasoning (settings p)) then p
  else
    let targets := elements (configured_providers p) ++ [active_provider (settings p)] in
    let hand := λ s kind,
      match provider_reasoning s !! kind with
      | Some _ => s
      | None => set_reasoning (reasoning s) (<[kind := effective_reasoning s kind]> (provider_reasoning s)) s
      end in
    let s := foldl hand (settings p) targets in
    set_settings (set_reasoning no_settings (provider_reasoning s) s) p.

Definition normalize_active_provider (p : PersistedSettings) : PersistedSettings * bool :=
  if is_provider_enabled (settings p) (active_provider (settings p)) then (p, false)
  else
    let enabled := filter (λ k, is_provider_enabled (settings p) k = true) all in
    match (match filter (λ k, k ∈ configured_providers p) enabled with [] => enabled | l => l end) with
    | [] => (p, false)
    | next :: _ => (edit (λ s, set_default_model None (set_active_provider next s)) p, true)
    end.

(** ** The file *)

(** A credential as it is written. *)
Inductive Credential : Set :=
  | ApiKey (key : str)
  | OAuth (access refresh : str) (expires_at_unix_ms : Z) (account_id : option str).

(** What is on the disk: a file that is missing or empty, or a text, with the value it reads as. *)
Definition Text : Set := option Json.

Record Disk : Set := { file : option Text; backup : option Text }.

Section File.
Context (cred_text : Credential → str).

(** [api_key_plaintext] goes to the active provider. *)
Definition migrate_plaintext_key (raw : Json) (p : PersistedSettings) : PersistedSettings :=
  match (v ← get "api_key_plaintext" raw; as_str v) with
  | Some ((_ :: _) as key) =>
      let active := active_provider (settings p) in
      match plaintext_credentials p !! active with
      | Some _ => p
      | None => set_plaintext (<[active := cred_text (ApiKey key)]> (plaintext_credentials p)) p
      end
  | _ => p
  end.

(** [settings.provider], of a file from before there was a map of providers. *)
Definition migrate_single_provider (raw : Json) (p : PersistedSettings) : PersistedSettings :=
  match (v ← get "settings" raw; get "provider" v) with
  | Some legacy =>
      match (k ← get "kind" legacy; s ← as_str k; from_id s) with
      | Some kind =>
          let url := u ← get "base_url" legacy; s ← as_str u; if bool_decide (s = []) then None else Some s in
          let p := edit (set_active_provider kind) p in
          match providers (settings p) !! kind with
          | Some _ => p
          | None => edit_config kind (λ _, {| base_url := url; custom_models := []; cfg_enabled := None |}) p
          end
      | None => p
      end
  | None => p
  end.

(** What every load ends with. *)
Definition settle_settings (p : PersistedSettings) : PersistedSettings :=
  (normalize_active_provider (migrate_global_reasoning (migrate_zen_opt_in p))).1.

Definition load_value (raw : Json) (p : PersistedSettings) : PersistedSettings :=
  settle_settings (migrate_single_provider raw (migrate_plaintext_key raw p)).

(** [opened] says whether the file, if it is there, could be read: otherwise the defaults are
    taken, and no backup.  [copied] says whether the backup could be written. *)
Definition load_persisted_at (opened copied : bool) (d : Disk) : PersistedSettings * Disk :=
  match file d with
  | None => (default_persisted, d)
  | Some text =>
      if negb opened then (default_persisted, d)
      else match text, (v ← text; de v) with
      | Some raw, Some p => (load_value raw p, d)
      | _, _ => (default_persisted, if copied then {| file := file d; backup := Some text |} else d)
      end
  end.
End File.

(** [written] is what the write of the file comes to. *)
Definition save_persisted (written : result () str) (p : PersistedSettings) (d : Disk) : result () str * Disk :=
  match written with
  | Ok () => (Ok (), {| file := Some (Some (ser p)); backup := backup d |})
  | Err e => (Err e, d)
  end.

(** ** Patches *)

Definition MAX_BUDGET_TOKENS : N := 1000000.

Definition effort_ok (e : str) : bool :=
  (str_len e <=? 16)%N
  && match e with c :: _ => is_ascii_lowercase c | [] => false end
  && forallb (λ c, is_ascii_lowercase c || is_ascii_digit c || (c =? HYPHEN)%N || (c =? 95)%N) e.

Record ProviderReasoningPatch : Set := { rp_provider : ProviderKind; rp_effort : option str; rp_budget : option N }.

Definition apply_provider_reasoning (patch : ProviderReasoningPatch) (p : PersistedSettings) : result PersistedSettings str :=
  let effort := e ← rp_effort patch; let e := trim e in if bool_decide (e = []) then None else Some e in
  let budget := b ← rp_budget patch; if (0 <? b)%N then Some b else None in
  _ <-? match effort with
        | Some e => if effort_ok e then Ok () else Err (lit "invalid reasoning effort `" ++ e ++ lit "`")
        | None => Ok ()
        end;
  _ <-? (if match budget with Some b => (MAX_BUDGET_TOKENS <? b)%N | None => false end
         then Err (lit "reasoning budget is too large (max 1000000)") else Ok ());
  let choice := {| Reasoning.effort := effort; budget_tokens := budget |} in
  let own := provider_reasoning (settings p) in
  let own := if is_empty choice then delete (rp_provider patch) own else <[rp_provider patch := choice]> own in
  Ok (edit (λ s, set_reasoning (reasoning s) own s) p).

Definition apply_provider_switch (enabled : option (ProviderKind * bool)) (active : option ProviderKind)
    (p : PersistedSettings) : result PersistedSettings str :=
  let p := match enabled with
           | Some (kind, b) =>
               edit_config kind (λ c, {| base_url := base_url c; custom_models := custom_models c; cfg_enabled := Some b |}) p
           | None => p
           end in
  match active with
  | Some kind => _ <-? ensure_enabled kind (settings p); Ok (edit (set_active_provider kind) p)
  | None => Ok p
  end.

(** [url::Url], as far as it is looked at *)
Record Url : Set := {
  scheme : str; host_str : option str; username : str; password : option str; query : option str; fragment : option str;
}.

Record AiSettingsPatch : Set := {
  pt_active_provider : option ProviderKind;
  pt_base_url : option (ProviderKind * str);
  pt_custom_models : option (ProviderKind * list str);
  pt_provider_enabled : option (ProviderKind * bool);
  pt_default_model : option str;
  pt_approval_mode : option ApprovalMode;
  pt_system_prompt : option str;
  pt_allow_plaintext : option bool;
  pt_mcp_servers : option (list McpServerConfig);
  pt_mcp_binary_path : option str;
  pt_provider_reasoning : option ProviderReasoningPatch;
}.

Section Patch.
Context (parse : str → result Url str).

Definition validate_base_url (raw : str) : result (option str) str :=
  let raw := trim raw in
  if bool_decide (raw = []) then Ok None
  else
    match parse raw with
    | Err e => Err (lit "invalid base URL: " ++ e)
    | Ok url =>
        if negb (bool_decide (scheme url = lit "http") || bool_decide (scheme url = lit "https"))
        then Err (lit "base URL must start with http:// or https://")
        else if bool_decide (host_str url = None) then Err (lit "base URL has no host")
        else if negb (bool_decide (username url = [])) || bool_decide (is_Some (password url))
        then Err (lit "don't put credentials in the base URL " ++ dash ++ lit " use the API key field")
        else if bool_decide (is_Some (query url)) || bool_decide (is_Some (fragment url))
        then Err (lit "base URL can't carry a query string or fragment")
        else Ok (Some (trim_end_matches (N.eqb SLASH) raw))
    end.

(** The operator's models: trimmed, none empty, none twice. *)
Definition custom_models_of (models : list str) : list str :=
  foldl (λ seen m, if bool_decide (m ∈ seen) then seen else seen ++ [m]) [] (filter (λ m, m ≠ []) (trim <$> models)).

Definition non_empty (s : str) : option str := if bool_decide (s = []) then None else Some s.

(** A server the operator added and abandoned is dropped. *)
Definition clean_server (s : McpServerConfig) : option McpServerConfig :=
  let name := trim (mcp_name s) in
  let command := trim (command s) in
  let url := u ← url s; non_empty (trim u) in
  if bool_decide (name = []) && (bool_decide (command = []) && bool_decide (url = None)) then None
  else Some {| mcp_id := mcp_id s; mcp_name := name; transport := transport s; command := command; url := url; args := args s;
               env := env s; headers := headers s; trust_as_read := trust_as_read s; mcp_enabled := mcp_enabled s |}.

Definition patch_settings (patch : AiSettingsPatch) (s : AgentSettings) : AgentSettings :=
  {| active_provider := active_provider s; providers := providers s;
     default_model := match pt_default_model patch with Some m => non_empty m | None => default_model s end;
     default_approval_mode := default (default_approval_mode s) (pt_approval_mode patch);
     system_prompt_override := match pt_system_prompt patch with Some t => non_empty t | None => system_prompt_override s end;
     allow_plaintext_api_key := default (allow_plaintext_api_key s) (pt_allow_plaintext patch);
     mcp_servers := match pt_mcp_servers patch with Some l => omap clean_server l | None => mcp_servers s end;
     mcp_binary_path := match pt_mcp_binary_path patch with Some b => non_empty b | None => mcp_binary_path s end;
     reasoning := reasoning s; provider_reasoning := provider_reasoning s |}.

(** The patch, before the active provider is looked after. *)
Definition apply_patch (patch : AiSettingsPatch) (p : PersistedSettings) : result PersistedSettings str :=
  p <-? apply_provider_switch (pt_provider_enabled patch) (pt_active_provider patch) p;
  p <-? match pt_base_url patch with
        | Some (kind, raw) =>
            u <-? validate_base_url raw;
            Ok (edit_config kind (λ c, {| base_url := u; custom_models := custom_models c; cfg_enabled := cfg_enabled c |}) p)
        | None => Ok p
        end;
  let p := match pt_custom_models patch with
           | Some (kind, l) =>
               edit_config kind (λ c, {| base_url := base_url c; custom_models := custom_models_of l; cfg_enabled := cfg_enabled c |}) p
           | None => p
           end in
  let p := edit (patch_settings patch) p in
  let p := match pt_allow_plaintext patch with Some false => set_plaintext ∅ p | _ => p end in
  match pt_provider_reasoning patch with
  | Some rp => apply_provider_reasoning rp p
  | None => Ok p
  end.

(** ai_set_settings up to what it answers: [pick] gives the first model of a provider. *)
Definition ai_set_settings (cred_text : Credential → str) (pick : ProviderKind → AgentSettings → option str)
    (opened copied : bool) (written : result () str) (patch : AiSettingsPatch) (d : Disk) : result PersistedSettings str * Disk :=
  let '(p0, d) := load_persisted_at cred_text opened copied d in
  let prev_active := active_provider (settings p0) in
  match apply_patch patch p0 with
  | Err e => (Err e, d)
  | Ok p =>
      let p := (normalize_active_provider p).1 in
      let p := if bool_decide (active_provider (settings p) ≠ prev_active) && bool_decide (pt_default_model patch = None)
               then edit (λ s, set_default_model (pick (active_provider s) s) s) p else p in
      let '(r, d) := save_persisted written p d in
      (_ <-? r; Ok p, d)
  end.
End Patch.

(** ** What is written is read back *)

#[global] Instance approval_faithful : Faithful ApprovalMode anything.
Proof. by intros [] _. Qed.

#[global] Instance effort_faithful : Faithful ReasoningEffort anything.
Proof. by intros [] _. Qed.

#[global] Instance transport_faithful : Faithful McpTransport anything.
Proof. by intros [] _. Qed.

#[global] Instance config_faithful : Faithful ProviderConfig anything.
Proof.
  intros [u m e] _. unfold ser at 1, de, config_serde. cbn [base_url custom_models cfg_enabled]. rewrite is_struct_struct.
  cbn [mbind option_bind]. back @nullable_back "base_url" u. back @skipped_back "custom_models" m.
  - by back @nullable_back "enabled" e.
  - by intros ?%bool_decide_eq_true.
  - by apply Forall_forall.
Qed.

(** A budget is a [u32]. *)
Definition fits_budget (b : option N) : Prop := ∀ n, b = Some n → (n ≤ u32_max)%N.

#[global] Instance own_reasoning_faithful : Faithful ProviderReasoning (λ r, fits_budget (budget_tokens r)).
Proof.
  intros [e b] Hb. unfold ser at 1, de, own_reasoning_serde. cbn [effort budget_tokens] in *. rewrite is_struct_struct.
  cbn [mbind option_bind]. back @nullable_back "effort" e. by back @nullable_back "budget_tokens" b.
Qed.

#[global] Instance reasoning_faithful : Faithful ReasoningSettings (λ r, fits_budget (rs_budget r)).
Proof.
  intros [e b] Hb. unfold ser at 1, de, reasoning_serde. cbn [rs_effort rs_budget] in *. rewrite is_struct_struct.
  cbn [mbind option_bind]. back @nullable_back "effort" e. by back @nullable_back "budget_tokens" b.
Qed.

#[global] Instance mcp_faithful : Faithful McpServerConfig anything.
Proof.
  intros [i n t c u a e h r b] _. unfold ser at 1, de, mcp_serde.
  cbn [mcp_id mcp_name transport command url args env headers trust_as_read mcp_enabled]. rewrite is_struct_struct.
  cbn [mbind option_bind]. back @required_back "id" i. back @required_back "name" n. back @defaulted_back "transport" t.
  back @defaulted_back "command" c. back @nullable_back "url" u. back @defaulted_back "args" a; [|by apply Forall_forall].
  back @defaulted_back "env" e. back @defaulted_back "headers" h. back @defaulted_back "trust_as_read" r.
  by back @defaulted_back "enabled" b.
Qed.

Lemma lenient_get `{Serde V} (o : Map) (g : gmap ProviderKind V) (kind : ProviderKind) :
  lenient_kind_map (Object o) = Some g → g !! kind = (v ← map_get (kind_name kind) o; de v).
Proof.
  unfold lenient_kind_map. intros (raw & Hraw & [= <-])%bind_Some. rewrite <- (read_map_get o raw _ Hraw).
  set (l := omap _ _). assert (∀ v, (kind, v) ∈ l ↔ raw !! kind_name kind = Some v) as Hl.
  { intros v. unfold l. rewrite list_elem_of_omap. split.
    - intros ([s w] & Hs%elem_of_map_to_list & (k & Hk%from_id_Some & [= -> ->])%bind_Some). simpl in *. by subst.
    - intros Hs. exists (kind_name kind, v). split; [by apply elem_of_map_to_list|]. simpl. by rewrite from_id_name. }
  assert (NoDup l.*1) as Hd.
  { unfold l. pose proof (NoDup_fst_map_to_list raw) as Hr. clear Hl. induction (map_to_list raw) as [|[s w] m IH]; [constructor|].
    rewrite fmap_cons in Hr. apply NoDup_cons in Hr as [Hs Hr]. simpl. destruct (from_id s) as [k|] eqn:Hk; simpl; [|by apply IH].
    apply NoDup_cons. split; [|by apply IH]. intros ([k' v] & -> & Hin)%list_elem_of_fmap. apply Hs.
    apply list_elem_of_omap in Hin as ([s' w'] & Hin & (k & Hk'%from_id_Some & [= -> ->])%bind_Some).
    apply from_id_Some in Hk. simpl in *. subst. apply list_elem_of_fmap. by exists (kind_name k', v). }
  apply option_eq. intros v. rewrite <- Hl. symmetry. by apply elem_of_list_to_map.
Qed.

Lemma lenient_back `{Faithful V fits} (m : gmap ProviderKind V) :
  map_Forall (λ _, fits) m → lenient_kind_map (V := V) (write_map kind_name m) = Some m.
Proof.
  intros Hm. destruct (written_read kind_name m Hm) as [raw Hraw].
  destruct (lenient_kind_map (V := V) (write_map kind_name m)) as [g|] eqn:Hg.
  - f_equal. apply map_eq. intros k. rewrite (lenient_get (written kind_name m) g k Hg), (written_get kind_name).
    destruct (m !! k) as [v|] eqn:Hk; [|done]. simpl. apply de_ser. by apply (Hm k).
  - unfold lenient_kind_map, write_map in Hg. by rewrite Hraw in Hg.
Qed.

Lemma lenient_set_back (s : gset ProviderKind) :
  lenient_kind_set (ser (kind_name <$> elements s)) = Some s.
Proof.
  unfold lenient_kind_set. rewrite de_ser by (by apply Forall_forall). simpl. f_equal. apply set_eq. intros k.
  rewrite elem_of_list_to_set, list_elem_of_omap. setoid_rewrite list_elem_of_fmap. setoid_rewrite elem_of_elements. split.
  - intros (x & (k' & -> & Hk) & Hf). by rewrite from_id_name in Hf; simplify_eq.
  - intros Hk. exists (kind_name k). split; [by exists k|apply from_id_name].
Qed.

(** What a [u32] in the settings holds. *)
Definition settings_fit (s : AgentSettings) : Prop :=
  fits_budget (rs_budget (reasoning s)) ∧ map_Forall (λ _ r, fits_budget (budget_tokens r)) (provider_reasoning s).

#[global] Instance settings_faithful : Faithful AgentSettings settings_fit.
Proof.
  intros [a c m d o t x b r w] [Hr Hw]. unfold ser at 1, de, settings_serde.
  cbn [active_provider providers default_model default_approval_mode system_prompt_override allow_plaintext_api_key
       mcp_servers mcp_binary_path reasoning provider_reasoning] in *. rewrite is_struct_struct. cbn [mbind option_bind].
  back_with "active_provider" a; [|unfold lenient_kind; simpl; by rewrite from_id_name].
  back_with "providers" c; [|by apply lenient_back]. back @nullable_back "default_model" m.
  back @required_back "default_approval_mode" d. back @nullable_back "system_prompt_override" o.
  back @defaulted_back "allow_plaintext_api_key" t. back @defaulted_back "mcp_servers" x; [|by apply Forall_forall].
  back @nullable_back "mcp_binary_path" b. back @skipped_back "reasoning" r.
  - by back_with "provider_reasoning" w; [|by apply lenient_back].
  - by destruct r as [[] []].
Qed.

Definition fits (p : PersistedSettings) : Prop := settings_fit (settings p).

#[global] Instance persisted_faithful : Faithful PersistedSettings fits.
Proof.
  intros [s t c k] Hs. unfold ser at 1, de, persisted_serde.
  cbn [settings plaintext_credentials configured_providers keychain_index_initialized] in *. rewrite is_struct_struct.
  cbn [mbind option_bind]. back @defaulted_back "settings" s.
  back_with "plaintext_credentials" t; [|by apply lenient_back]. back_with "configured_providers" c; [|by apply lenient_set_back].
  by back @defaulted_back "keychain_index_initialized" k.
Qed.

(** What is read is within the range of its type. *)
Lemma nullable_u32 (k : string) (v : Json) b : nullable (A := N) k v = Some b → fits_budget b.
Proof.
  unfold nullable. intros Hb n ->. destruct (get k v) as [w|]; [|done].
  assert ((x ← de (A := N) w; Some (Some x)) = Some (Some n)) as H by (destruct w; done). clear Hb.
  apply bind_Some in H as (x & Hx & [= <-]). unfold de, u32_serde in Hx. destruct w; try done. by eapply parse_uint_le.
Qed.

Lemma own_reasoning_read (v : Json) r : de (A := ProviderReasoning) v = Some r → fits_budget (budget_tokens r).
Proof.
  unfold de, own_reasoning_serde. intros (? & _ & (e & _ & (b & Hb & [= <-])%bind_Some)%bind_Some)%bind_Some.
  by apply nullable_u32 in Hb.
Qed.

Lemma lenient_Forall `{Serde V} (P : V → Prop) (v : Json) (g : gmap ProviderKind V) :
  (∀ w x, de w = Some x → P x) → lenient_kind_map v = Some g → map_Forall (λ _, P) g.
Proof.
  intros HP Hg k x Hk. destruct v as [| | | | |o]; try done.
  rewrite (lenient_get o g k Hg) in Hk. apply bind_Some in Hk as (w & _ & Hw). by eapply HP.
Qed.

Lemma settings_read (v : Json) s : de (A := AgentSettings) v = Some s → settings_fit s.
Proof.
  unfold de, settings_serde. intros H. repeat (apply bind_Some in H as (? & ? & H)). injection H as <-. split; simpl.
  - match goal with H : defaulted _ "reasoning" _ = _ |- _ => rename H into Hr end.
    unfold defaulted, defaulted_with in Hr. destruct (get "reasoning" v); [|by injection Hr as <-].
    unfold de, reasoning_serde in Hr. repeat (apply bind_Some in Hr as (? & ? & Hr)). injection Hr as <-. by eapply nullable_u32.
  - match goal with H : defaulted_with _ _ "provider_reasoning" _ = _ |- _ => rename H into Hw end.
    unfold defaulted_with in Hw. destruct (get "provider_reasoning" v); [|by injection Hw as <-].
    eapply lenient_Forall; [apply own_reasoning_read|exact Hw].
Qed.

Lemma persisted_read (v : Json) p : de (A := PersistedSettings) v = Some p → fits p.
Proof.
  unfold de, persisted_serde. intros H. repeat (apply bind_Some in H as (? & ? & H)). injection H as <-. unfold fits. simpl.
  match goal with H : defaulted _ "settings" _ = _ |- _ => rename H into Hs end.
  unfold defaulted, defaulted_with in Hs. destruct (get "settings" v); [by eapply settings_read|]. injection Hs as <-. done.
Qed.

(** ** Settled settings *)

(** The active provider is enabled, unless none is. *)
Definition active_ok (p : PersistedSettings) : Prop :=
  is_provider_enabled (settings p) (active_provider (settings p)) = true ∨ ∀ k, is_provider_enabled (settings p) k = false.

(** What the operator has said of a provider's switch. *)
Definition switch_of (s : AgentSettings) (kind : ProviderKind) : option bool := c ← providers s !! kind; cfg_enabled c.

Lemma is_provider_enabled_switch s kind : is_provider_enabled s kind = default (default_enabled kind) (switch_of s kind).
Proof. done. Qed.

(** The free tier is in use and nobody has decided on it. *)
Definition zen_due (p : PersistedSettings) : bool :=
  match switch_of (settings p) OpencodeZen with None => true | Some _ => false end
  && (bool_decide (active_provider (settings p) = OpencodeZen) || bool_decide (OpencodeZen ∈ configured_providers p)
      || bool_decide (is_Some (plaintext_credentials p !! OpencodeZen))).

Record settled (p : PersistedSettings) : Prop := {
  settled_zen : zen_due p = false;
  settled_reasoning : is_retired (reasoning (settings p)) = true;
  settled_active : active_ok p;
}.

Definition enabled_kinds (p : PersistedSettings) : list ProviderKind := filter (λ k, is_provider_enabled (settings p) k = true) all.

Lemma enabled_kinds_spec p k : k ∈ enabled_kinds p ↔ is_provider_enabled (settings p) k = true.
Proof. unfold enabled_kinds. rewrite list_elem_of_filter. pose proof (all_complete k). tauto. Qed.

(** Where the active provider goes: to an enabled one, from a disabled one. *)
Lemma normalize_spec p :
  ((normalize_active_provider p).1 = p ∧ active_ok p)
  ∨ (∃ k, (normalize_active_provider p).1 = edit (λ s, set_default_model None (set_active_provider k s)) p
          ∧ is_provider_enabled (settings p) k = true
          ∧ is_provider_enabled (settings p) (active_provider (settings p)) = false).
Proof.
  unfold normalize_active_provider, active_ok. destruct (is_provider_enabled _ (active_provider _)) eqn:Ha; [by left; split; [|left]|].
  fold (enabled_kinds p). destruct (match filter _ (enabled_kinds p) with [] => enabled_kinds p | l => l end) as [|k l] eqn:Hl.
  - left. split; [done|right]. intros k. apply not_true_is_false. intros Hk%enabled_kinds_spec.
    destruct (filter _ (enabled_kinds p)); [|done]. rewrite Hl in Hk. by apply not_elem_of_nil in Hk.
  - right. exists k. split; [done|]. split; [|done]. apply enabled_kinds_spec.
    destruct (filter (λ k, k ∈ configured_providers p) (enabled_kinds p)) as [|k' l'] eqn:Hf; [rewrite Hl; by left|].
    injection Hl as -> ->. assert (k ∈ filter (λ k, k ∈ configured_providers p) (enabled_kinds p)) as Hk by (rewrite Hf; by left).
    by apply list_elem_of_filter in Hk as [_ ?].
Qed.

Lemma normalize_active_ok p : active_ok (normalize_active_provider p).1.
Proof. destruct (normalize_spec p) as [[-> H]|(k & -> & Hk & _)]; [done|]. by left. Qed.

Lemma normalize_fix p : active_ok p → (normalize_active_provider p).1 = p.
Proof.
  intros H. destruct (normalize_spec p) as [[-> _]|(k & _ & Hk & Ha)]; [done|]. destruct H as [H|H]; [by rewrite H in Ha|].
  by rewrite H in Hk.
Qed.

Lemma zen_due_spec p :
  migrate_zen_opt_in p
  = if zen_due p then edit_config OpencodeZen (λ c, {| base_url := base_url c; custom_models := custom_models c; cfg_enabled := Some true |}) p
    else p.
Proof. done. Qed.

Lemma migrate_zen_done p : zen_due (migrate_zen_opt_in p) = false.
Proof.
  rewrite zen_due_spec. destruct (zen_due p) eqn:H; [|done]. unfold zen_due, switch_of. simpl.
  by rewrite lookup_insert, decide_True.
Qed.

Lemma normalize_zen p : zen_due p = false → zen_due (normalize_active_provider p).1 = false.
Proof.
  intros Hz. destruct (normalize_spec p) as [[-> _]|(k & -> & Hk & _)]; [done|]. unfold zen_due in *. simpl.
  change (switch_of (set_default_model None (set_active_provider k (settings p))) OpencodeZen)
    with (switch_of (settings p) OpencodeZen).
  destruct (switch_of (settings p) OpencodeZen) eqn:Hc; [done|]. simpl in *.
  apply orb_false_iff in Hz as [[_ H1]%orb_false_iff H2]. rewrite H1, H2, !orb_false_r. apply bool_decide_eq_false. intros ->.
  by rewrite is_provider_enabled_switch, Hc in Hk.
Qed.

(** The old global choice is gone, and nothing else has changed but the choices. *)
Lemma migrate_reasoning_spec p :
  ∃ own, migrate_global_reasoning p = edit (set_reasoning no_settings own) p
         ∧ (∀ k r, provider_reasoning (settings p) !! k = Some r → own !! k = Some r)
         ∧ (fits p → map_Forall (λ _ r, fits_budget (budget_tokens r)) own).
Proof.
  unfold migrate_global_reasoning. destruct (is_retired (reasoning (settings p))) eqn:Hr.
  { exists (provider_reasoning (settings p)). split; [|split; [done|by intros [_ ?]]].
    destruct p as [[? ? ? ? ? ? ? ? [[|] [|]] ?] ? ? ?]; try done. }
  set (hand := λ s kind, _). generalize (elements (configured_providers p) ++ [active_provider (settings p)]). intros ts.
  assert (∀ s, ∃ own, foldl hand s ts = set_reasoning (reasoning s) own s
    ∧ (∀ k r, provider_reasoning s !! k = Some r → own !! k = Some r)
    ∧ (settings_fit s → map_Forall (λ _ r, fits_budget (budget_tokens r)) own)) as H.
  { induction ts as [|k ts IH]; intros s; simpl; [exists (provider_reasoning s); by destruct s; split; [|split; [|intros [_ ?]]]|].
    unfold hand at 2. destruct (provider_reasoning s !! k) as [r|] eqn:Hk; [apply IH|].
    destruct (IH (set_reasoning (reasoning s) (<[k := effective_reasoning s k]> (provider_reasoning s)) s)) as (own & -> & Ho & Hf).
    exists own. split; [done|]. simpl in *. split.
    - intros k' r Hk'. apply Ho. rewrite lookup_insert_ne; [done|]. by intros ->; rewrite Hk in Hk'.
    - intros Hs. apply Hf. destruct Hs as [Hg Hs]. split; [done|]. simpl. apply map_Forall_insert_2; [|done].
      unfold effective_reasoning. by rewrite Hk. }
  destruct (H (settings p)) as (own & -> & Ho & Hf). by exists own.
Qed.

Lemma settle_settled p : settled (settle_settings p).
Proof.
  unfold settle_settings. destruct (migrate_reasoning_spec (migrate_zen_opt_in p)) as (own & -> & _ & _).
  pose proof (migrate_zen_done p) as Hz. set (q := edit _ _). assert (zen_due q = false) as Hq by exact Hz.
  split; [by apply normalize_zen| |apply normalize_active_ok].
  destruct (normalize_spec q) as [[-> _]|(k & -> & _ & _)]; done.
Qed.

Lemma settled_fix p : settled p → settle_settings p = p.
Proof.
  intros [Hz Hr Ha]. unfold settle_settings. rewrite zen_due_spec, Hz. unfold migrate_global_reasoning. rewrite Hr.
  by apply normalize_fix.
Qed.

Lemma zen_due_false p :
  zen_due p = false ↔ is_Some (switch_of (settings p) OpencodeZen)
    ∨ active_provider (settings p) ≠ OpencodeZen ∧ OpencodeZen ∉ configured_providers p
      ∧ plaintext_credentials p !! OpencodeZen = None.
Proof.
  unfold zen_due. destruct (switch_of (settings p) OpencodeZen); simpl; [split; [by left; eexists|done]|].
  rewrite !orb_false_iff, !bool_decide_eq_false, <- eq_None_not_Some. split; [tauto|]. intros [[]|]; [done|tauto].
Qed.

(** Only the opt-in moves a switch. *)
Lemma normalize_switch p k : switch_of (settings (normalize_active_provider p).1) k = switch_of (settings p) k.
Proof. by destruct (normalize_spec p) as [[-> _]|(k' & -> & _ & _)]. Qed.

Lemma settle_switch p k : zen_due p = false → switch_of (settings (settle_settings p)) k = switch_of (settings p) k.
Proof.
  intros Hz. unfold settle_settings. rewrite normalize_switch, zen_due_spec, Hz.
  by destruct (migrate_reasoning_spec p) as (own & -> & _ & _).
Qed.

(** ** A file and what is loaded of it *)

Section Files.
Context (cred_text : Credential → str) (parse : str → result Url str) (pick : ProviderKind → AgentSettings → option str).

Lemma load_value_saved p : load_value cred_text (ser p) p = settle_settings p.
Proof.
  unfold load_value. f_equal.
  assert (get "api_key_plaintext" (ser p) = None) as H1 by (unfold ser, persisted_serde; cbn beta iota; by rewrite get_struct by decided).
  assert (get "settings" (ser p) = Some (ser (settings p))) as H2
    by (unfold ser at 1, persisted_serde; cbn beta iota; by rewrite get_struct by decided).
  assert (get "provider" (ser (settings p)) = None) as H3 by (unfold ser, settings_serde; cbn beta iota; by rewrite get_struct by decided).
  unfold migrate_plaintext_key, migrate_single_provider. rewrite H1. cbn [mbind option_bind]. by rewrite H2; cbn [mbind option_bind]; rewrite H3.
Qed.

Lemma load_saved p copied b :
  fits p → load_persisted_at cred_text true copied {| file := Some (Some (ser p)); backup := b |}
           = (settle_settings p, {| file := Some (Some (ser p)); backup := b |}).
Proof. intros Hp. unfold load_persisted_at. simpl. rewrite de_ser by done. by rewrite load_value_saved. Qed.

Lemma settle_fits p : fits p → fits (settle_settings p).
Proof.
  intros Hp. unfold settle_settings. assert (fits (migrate_zen_opt_in p)) as Hz by (rewrite zen_due_spec; by destruct (zen_due p)).
  destruct (migrate_reasoning_spec (migrate_zen_opt_in p)) as (own & -> & _ & Hf). specialize (Hf Hz).
  set (q := edit _ _). assert (fits q) as Hq by (split; [by intros n|exact Hf]).
  destruct (normalize_spec q) as [[-> _]|(k & -> & _ & _)]; exact Hq.
Qed.

Lemma migrations_fit raw p : fits p → fits (migrate_single_provider raw (migrate_plaintext_key cred_text raw p)).
Proof.
  intros Hp. assert (fits (migrate_plaintext_key cred_text raw p)) as Hq.
  { unfold migrate_plaintext_key. repeat case_match; exact Hp. }
  revert Hq. generalize (migrate_plaintext_key cred_text raw p). intros q Hq. unfold migrate_single_provider.
  repeat case_match; exact Hq.
Qed.

Lemma load_settled opened copied d :
  settled (load_persisted_at cred_text opened copied d).1 ∧ fits (load_persisted_at cred_text opened copied d).1.
Proof.
  assert (settled default_persisted ∧ fits default_persisted) as Hd.
  { split; [|done]. split; [done|done|]. left. done. }
  unfold load_persisted_at. destruct (file d) as [text|]; [|exact Hd]. destruct opened; [|exact Hd]. destruct text as [v|]; simpl; [|exact Hd].
  destruct (de v) as [p|] eqn:Hp; simpl; [|exact Hd]. split; [apply settle_settled|].
  by apply settle_fits, migrations_fit, (persisted_read v).
Qed.

(** The settings survive a restart: what is saved is loaded as it was, up to the
    migrations of an older file, which once applied have nothing left to do; and a file that
    cannot be parsed is still there, in the backup, when the next save has replaced it. *)
Theorem settings_survive (p : PersistedSettings) (d : Disk) (copied : bool) :
  fits p →
  let '(saved, d') := save_persisted (Ok ()) p d in
  saved = Ok ()
  ∧ load_persisted_at cred_text true copied d' = (settle_settings p, d')
  ∧ (settled p → load_persisted_at cred_text true copied d' = (p, d'))
  ∧ (load_persisted_at cred_text true copied (save_persisted (Ok ()) (settle_settings p) d').2).1 = settle_settings p
  ∧ (∀ text, file d = Some text → (v ← text; de (A := PersistedSettings) v) = None →
       backup (save_persisted (Ok ()) p (load_persisted_at cred_text true true d).2).2 = Some text).
Proof.
  intros Hp. simpl. rewrite !load_saved by (done || by apply settle_fits). split_and!; [done|done| | |].
  - intros Hs. by rewrite settled_fix.
  - simpl. apply settled_fix, settle_settled.
  - intros text Hf Hr. unfold load_persisted_at. rewrite Hf. by destruct text as [v|]; [simpl in Hr; simpl; rewrite Hr|].
Qed.

(** ** Patches *)

Lemma switch_edit_config p kind f kind' :
  switch_of (settings (edit_config kind f p)) kind'
  = if decide (kind = kind') then cfg_enabled (f (default default_config (providers (settings p) !! kind)))
    else switch_of (settings p) kind'.
Proof. unfold switch_of. simpl. case_decide as H; [subst; by rewrite lookup_insert, decide_True|by rewrite lookup_insert_ne]. Qed.

(** A change of a provider's entry that leaves its switch, or sets it. *)
Lemma zen_edit_config p kind f :
  (∀ c, cfg_enabled (f c) = cfg_enabled c ∨ is_Some (cfg_enabled (f c))) →
  zen_due p = false → zen_due (edit_config kind f p) = false.
Proof.
  intros Hf. rewrite !zen_due_false, switch_edit_config. simpl. intros [H|H]; [left|by right]. case_decide as Hk; [subst|done].
  destruct (Hf (default default_config (providers (settings p) !! OpencodeZen))) as [->|Hc]; [|done].
  unfold switch_of in H. destruct (providers (settings p) !! OpencodeZen); [done|]. by destruct H.
Qed.

Definition kept (p : PersistedSettings) : Prop := zen_due p = false ∧ is_retired (reasoning (settings p)) = true ∧ fits p.

Lemma kept_edit_config p kind f :
  (∀ c, cfg_enabled (f c) = cfg_enabled c ∨ is_Some (cfg_enabled (f c))) → kept p → kept (edit_config kind f p).
Proof. intros Hf (Hz & Hr & Hp). split; [by apply zen_edit_config|by split]. Qed.

Lemma switch_kept enabled active p p' : apply_provider_switch enabled active p = Ok p' → kept p → kept p'.
Proof.
  unfold apply_provider_switch. intros H Hp.
  set (q := match enabled with Some _ => _ | None => p end) in H. assert (kept q) as Hq.
  { unfold q. destruct enabled as [[kind b]|]; [|done]. apply kept_edit_config; [|done]. intros c. right. by eexists. }
  destruct active as [kind|]; [|by injection H as <-]. unfold ensure_enabled in H.
  destruct (is_provider_enabled (settings q) kind) eqn:He; [|done]. injection H as <-. destruct Hq as (Hz & Hr & Hf).
  split; [|by split]. apply zen_due_false in Hz as [Hz|(Ha & Hc & Ht)]; apply zen_due_false; [by left|].
  destruct (decide (kind = OpencodeZen)) as [->|Hne]; [left|by right].
  rewrite is_provider_enabled_switch in He. simpl. change (is_Some (switch_of (settings q) OpencodeZen)).
  by destruct (switch_of (settings q) OpencodeZen); [eexists|].
Qed.

Lemma reasoning_patch_spec patch p p' :
  apply_provider_reasoning patch p = Ok p' →
  ∃ own, p' = edit (set_reasoning (reasoning (settings p)) own) p
         ∧ (∀ k, k ≠ rp_provider patch → own !! k = provider_reasoning (settings p) !! k)
         ∧ (fits p → map_Forall (λ _ r, fits_budget (budget_tokens r)) own).
Proof.
  unfold apply_provider_reasoning. set (e := x ← rp_effort patch; _). set (b := x ← rp_budget patch; _).
  destruct (match e with Some _ => _ | None => _ end) as [[]|]; simpl; [|done].
  destruct (match b with Some b => _ | None => false end) eqn:Hb; simpl; [done|]. intros [= <-].
  eexists. split; [done|]. split.
  - intros k Hk. destruct (is_empty _); [by rewrite lookup_delete_ne|by rewrite lookup_insert_ne].
  - intros [_ Hp]. destruct (is_empty _); [by apply map_Forall_delete|]. apply map_Forall_insert_2; [|done]. intros n Hn.
    simpl in Hn. rewrite Hn in Hb. apply N.ltb_ge in Hb. unfold MAX_BUDGET_TOKENS, u32_max in *. lia.
Qed.

Lemma apply_patch_kept patch p p' : apply_patch parse patch p = Ok p' → kept p → kept p'.
Proof.
  unfold apply_patch. destruct (apply_provider_switch _ _ p) as [q|] eqn:Hq; simpl; [|done]. intros H Hp.
  apply (switch_kept _ _ _ _ Hq) in Hp. clear Hq.
  destruct (match pt_base_url patch with Some _ => _ | None => Ok q end) as [q1|] eqn:H1; simpl in H; [|done].
  assert (kept q1) as Hk1.
  { destruct (pt_base_url patch) as [[kind raw]|]; [|by injection H1 as <-].
    destruct (validate_base_url parse raw) as [u|]; simpl in H1; [|done]. injection H1 as <-.
    apply kept_edit_config; [by left|done]. }
  clear H1 Hp q. set (q2 := match pt_custom_models patch with Some _ => _ | None => q1 end) in H.
  assert (kept q2) as Hk2.
  { unfold q2. destruct (pt_custom_models patch) as [[kind l]|]; [|done]. apply kept_edit_config; [by left|done]. }
  set (q3 := edit (patch_settings patch) q2) in H. assert (kept q3) as Hk3 by (destruct Hk2 as (? & ? & ?); by split).
  set (q4 := match pt_allow_plaintext patch with Some false => _ | _ => q3 end) in H. assert (kept q4) as Hk4.
  { unfold q4. destruct (pt_allow_plaintext patch) as [[]|]; [done| |done]. destruct Hk3 as (Hz & Hr & Hf). split; [|by split].
    apply zen_due_false in Hz as [Hz|(? & ? & _)]; apply zen_due_false; [by left|right]. by split_and!. }
  clearbody q4. destruct (pt_provider_reasoning patch) as [rp|]; [|by injection H as <-].
  apply reasoning_patch_spec in H as (own & -> & _ & Hf). destruct Hk4 as (Hz & Hr & Hf4). split; [done|]. split; [done|].
  split; [apply Hf4|by apply Hf].
Qed.

(** The switch of a provider is what the patch says of it, or what it was. *)
Lemma switch_kept_config p kind f k :
  (∀ c, cfg_enabled (f c) = cfg_enabled c) → switch_of (settings (edit_config kind f p)) k = switch_of (settings p) k.
Proof.
  intros Hf. rewrite switch_edit_config. case_decide as Hk; [subst|done]. rewrite Hf. unfold switch_of.
  by destruct (providers (settings p) !! k).
Qed.

Lemma apply_patch_switch patch p p' k :
  apply_patch parse patch p = Ok p' →
  switch_of (settings p') k
  = match pt_provider_enabled patch with
    | Some (kind, b) => if decide (kind = k) then Some b else switch_of (settings p) k
    | None => switch_of (settings p) k
    end.
Proof.
  unfold apply_patch. destruct (apply_provider_switch _ _ p) as [q|] eqn:Hq; simpl; [|done]. intros H.
  trans (switch_of (settings q) k).
  - clear Hq. destruct (match pt_base_url patch with Some _ => _ | None => Ok q end) as [q1|] eqn:H1; simpl in H; [|done].
    trans (switch_of (settings q1) k); [clear H1|].
    + set (q2 := match pt_custom_models patch with Some _ => _ | None => q1 end) in H.
      assert (switch_of (settings q2) k = switch_of (settings q1) k) as <-
        by (unfold q2; destruct (pt_custom_models patch) as [[kind l]|]; [by apply switch_kept_config|done]).
      clearbody q2. set (q4 := match pt_allow_plaintext patch with Some false => _ | _ => _ end) in H.
      assert (switch_of (settings q4) k = switch_of (settings q2) k) as <- by (unfold q4; by destruct (pt_allow_plaintext patch) as [[]|]).
      clearbody q4. destruct (pt_provider_reasoning patch); [|by injection H as <-].
      by apply reasoning_patch_spec in H as (own & -> & _).
    + destruct (pt_base_url patch) as [[kind raw]|]; [|by injection H1 as <-].
      destruct (validate_base_url parse raw); simpl in H1; [|done]. injection H1 as <-. by apply switch_kept_config.
  - clear H p'. unfold apply_provider_switch in Hq.
    set (r := match pt_provider_enabled patch with Some _ => _ | None => p end) in Hq.
    assert (switch_of (settings q) k = switch_of (settings r) k) as ->.
    { destruct (pt_active_provider patch) as [kind|]; [|by injection Hq as <-].
      destruct (ensure_enabled kind (settings r)); simpl in Hq; [|done]. by injection Hq as <-. }
    unfold r. destruct (pt_provider_enabled patch) as [[kind b]|]; [|done]. by rewrite switch_edit_config.
Qed.

(** C14: A patch of the settings page holds: the settings that are answered are those that the
    next start loads from the file, exactly, with an active provider that is enabled
    wherever one is, however the patch switched them; and a patch that is refused, by a
    disabled provider, an address, an effort or a budget, leaves the file as it was. *)
Theorem patch_persists (opened copied : bool) (written : result () str) (patch : AiSettingsPatch) (d : Disk) :
  match ai_set_settings parse cred_text pick opened copied written patch d with
  | (Ok p, d') => (∀ copied', load_persisted_at cred_text true copied' d' = (p, d')) ∧ active_ok p
  | (Err _, d') => file d' = file d
  end.
Proof.
  unfold ai_set_settings. destruct (load_settled opened copied d) as [Hs Hf].
  assert (file (load_persisted_at cred_text opened copied d).2 = file d) as Hd.
  { unfold load_persisted_at. destruct (file d) as [text|] eqn:E; [|done]. destruct opened; [|done].
    destruct text as [v|]; simpl; [destruct (de v); [done|]|]; by destruct copied. }
  destruct (load_persisted_at cred_text opened copied d) as [p0 d0]. simpl in *.
  destruct (apply_patch parse patch p0) as [p1|e] eqn:Hp; [|done].
  apply apply_patch_kept in Hp as (Hz & Hr & Hf1); [|by destruct Hs; split_and!].
  set (q := (normalize_active_provider p1).1). assert (kept q ∧ active_ok q) as [(Hqz & Hqr & Hqf) Hqa].
  { split; [|apply normalize_active_ok]. split; [by apply normalize_zen|]. unfold q.
    destruct (normalize_spec p1) as [[-> _]|(k & -> & _ & _)]; by split. }
  clearbody q. match goal with |- context [if ?b then ?x else q] => set (p := if b then x else q) end.
  assert (settled p ∧ fits p) as [Hps Hpf].
  { unfold p. destruct (_ && _); [|by split; [split|]]. split; [|exact Hqf]. by split. }
  clearbody p. destruct written as [[]|e]; simpl; [|done]. split; [|apply Hps]. intros copied'.
  rewrite load_saved by done. by rewrite settled_fix.
Qed.
End Files.

(** ** On concrete files *)
Module Samples.
Definition key_text (c : Credential) : str := match c with ApiKey k => lit "key:" ++ k | OAuth _ _ _ _ => lit "oauth" end.

(** A file of the time when there was one provider. *)
Definition old_file : Json :=
  obj [("settings", obj [("default_approval_mode", String_ (lit "approve_per_write"));
                         ("provider", obj [("kind", String_ (lit "anthropic")); ("base_url", String_ (lit "https://gw"))])]);
       ("api_key_plaintext", String_ (lit "sk-ant"))]%string.

Definition loaded : PersistedSettings := (load_persisted_at key_text true true {| file := Some (Some old_file); backup := None |}).1.

(** A file of a later version, which knows a provider more. *)
Definition newer_file : Json :=
  obj [("settings", obj [("active_provider", String_ (lit "from_the_future")); ("default_approval_mode", String_ (lit "approve_per_write"));
                         ("providers", obj [("from_the_future", obj []); ("groq", obj [("enabled", Bool true)])]);
                         ("system_prompt_override", String_ (lit "keep me"))]);
       ("configured_providers", Array [String_ (lit "from_the_future"); String_ (lit "groq")])]%string.

Definition changed : PersistedSettings :=
  edit (set_reasoning {| rs_effort := Some Medium; rs_budget := Some 16384%N |} ∅) default_persisted.
End Samples.

Import Samples.

(** The key of an old file, which the comment in the load says goes to the active provider,
    goes to the default one: the provider of the file is only read behind it. *)
Lemma old_key_misfiled :
  active_provider (settings loaded) = Anthropic
  ∧ plaintext_credentials loaded !! Anthropic = None
  ∧ plaintext_credentials loaded !! OpenAI = Some (lit "key:sk-ant").
Proof. vm_compute. done. Qed.

Example newer_file_read :
  let p := (load_persisted_at key_text true true {| file := Some (Some newer_file); backup := None |}).1 in
  active_provider (settings p) = OpenAI ∧ map_to_list (providers (settings p))
    = [(Groq, {| base_url := None; custom_models := []; cfg_enabled := Some true |})]
  ∧ elements (configured_providers p) = [Groq] ∧ system_prompt_override (settings p) = Some (lit "keep me").
Proof. vm_compute. done. Qed.

(** A file that cannot be read when a patch is saved, for a moment, is replaced by the defaults
    with that patch, and there is no backup: what the comment in the load guards against for a
    file that cannot be parsed. *)
Lemma unread_file_lost (patch : AiSettingsPatch) (d : Disk) (pick : ProviderKind → AgentSettings → option str) parse :
  match ai_set_settings parse key_text pick false true (Ok ()) patch d with
  | (Ok p, d') =>
      (ai_set_settings parse key_text pick true true (Ok ()) patch {| file := None; backup := backup d |}) = (Ok p, d')
  | (Err _, _) => True
  end.
Proof.
  unfold ai_set_settings, load_persisted_at. simpl.
  destruct (file d) as [text|]; simpl; (destruct (apply_patch parse patch default_persisted); [|done]); by destruct d.
Qed.

Lemma settings_survive_witness :
  fits changed ∧ (load_persisted_at key_text true true (save_persisted (Ok ()) changed {| file := None; backup := None |}).2).1
                 = settle_settings changed.
Proof.
  assert (fits changed) as H by (split; [by intros n [= <-]|done]). split; [exact H|].
  exact (f_equal fst (proj1 (proj2 (settings_survive key_text changed {| file := None; backup := None |} true H)))).
Defined.
