(* ===== verification/Secrets.v ===== *)
(** * Where the credentials are kept (app/src/secret_storage.rs, app/src/agent_keyring.rs)

    The interface of the secret storage and its two backends: the keychain of the system,
    with the JSON of a credential under the account of its provider, and an encrypted file
    with a version, a nonce and a ciphertext.

    The keychain (the keyring crate), the cipher (aes_gcm, with the key that is derived for the
    machine) and serde_json's reading and writing of text are arguments; the text of serde's
    errors is left out of the messages.  [SecretLaws] is what the credentials above rely on. *)

From stdpp Require Import countable.

From S2P Require Import Prelude Json Session Providers Serde Settings.

(** ** A credential as JSON *)

Definition i64_min : Z := -9223372036854775808.

Definition i64_max : Z := 9223372036854775807.

Definition z_str (z : Z) : str := if (z <? 0)%Z then HYPHEN :: dec_str (Z.to_N (- z)) else dec_str (Z.to_N z).

Definition parse_i64 (s : str) : option Z :=
  z ← match strip_prefix [HYPHEN] s with
      | Some r => (λ n, (- Z.of_N n)%Z) <$> parse_uint 9223372036854775808 r
      | None => Z.of_N <$> parse_uint 9223372036854775807 s
      end;
  Some z.

#[global] Instance i64_serde : Serde Z :=
  { ser z := Number (z_str z); de v := match v with Number t => parse_i64 t | _ => None end }.

Open Scope string_scope.

(** An enum with its variant under [type]. *)
#[global] Instance credential_serde : Serde Credential :=
  { ser c := match c with
             | ApiKey key => struct [("type", Some (String_ (lit "api_key"))); ("key", Some (ser key))]
             | OAuth access refresh expires account =>
                 struct [("type", Some (String_ (lit "o_auth"))); ("access", Some (ser access)); ("refresh", Some (ser refresh));
                         ("expires_at_unix_ms", Some (ser expires)); ("account_id", skip_none account)]
             end;
    de v := _ ← is_struct v;
            t ← get "type" v; t ← as_str t;
            if decide (t = lit "api_key") then k ← required "key" v; Some (ApiKey k)
            else if decide (t = lit "o_auth") then
              a ← required "access" v; r ← required "refresh" v; e ← required "expires_at_unix_ms" v;
              i ← nullable "account_id" v; Some (OAuth a r e i)
            else None }.

Close Scope string_scope.

Definition credential_fits (c : Credential) : Prop :=
  match c with ApiKey _ => True | OAuth _ _ e _ => (i64_min ≤ e ≤ i64_max)%Z end.

#[global] Instance i64_faithful : Faithful Z (λ z, i64_min ≤ z ≤ i64_max)%Z.
Proof.
  intros z Hz. unfold ser, de, i64_serde, z_str, parse_i64, i64_min, i64_max in *. destruct (Z.ltb_spec z 0).
  - change (strip_prefix [HYPHEN] (HYPHEN :: dec_str (Z.to_N (- z)))) with (Some (dec_str (Z.to_N (- z)))). cbn beta iota.
    rewrite parse_uint_dec_str by lia. simpl. f_equal. lia.
  - destruct (strip_prefix [HYPHEN] (dec_str (Z.to_N z))) as [r|] eqn:Hs.
    + apply strip_prefix_Some in Hs. pose proof (uint_str_digits (N.to_uint (Z.to_N z))) as Hd.
      fold (dec_str (Z.to_N z)) in Hd. rewrite Hs in Hd. by apply Forall_cons in Hd as [Hd _].
    + rewrite parse_uint_dec_str by lia. simpl. f_equal. lia.
Qed.

#[global] Instance credential_faithful : Faithful Credential credential_fits.
Proof.
  intros [k|a r e i] Hc; unfold ser at 1, de, credential_serde; cbn beta iota; rewrite is_struct_struct; cbn [mbind option_bind];
    rewrite get_struct by decided; cbn [field fst snd String.eqb Ascii.eqb Bool.eqb mbind option_bind as_str].
  - rewrite decide_True by done. by back @required_back "key" k.
  - rewrite decide_False, decide_True by done. back @required_back "access" a. back @required_back "refresh" r.
    back @required_back "expires_at_unix_ms" e. by back @nullable_back "account_id" i.
Qed.

(** ** The interface *)

Inductive SecretError : Set := Unavailable (s : str) | NotFound | OtherError (s : str).

Class SecretStore (S : Type) : Type := {
  sec_get : ProviderKind → S → result Credential SecretError;
  sec_set : ProviderKind → Credential → S → result () SecretError * S;
  sec_delete : ProviderKind → S → result () SecretError * S;
  (** a secret of the provider lies there, whether or not the platform gives it now *)
  sec_holds : ProviderKind → S → Prop;
}.

(** What a store promises where it is reachable: a credential that was set is there, one that was
    deleted is not, and the others are as they were; and, reachable or not, a failure changes
    nothing and no credential turns up that was not there. *)
Class SecretLaws (S : Type) `{SecretStore S} (usable : S → Prop) : Prop := {
  set_law k c s : usable s → credential_fits c →
    ∃ s', sec_set k c s = (Ok (), s') ∧ usable s' ∧ sec_get k s' = Ok c ∧ ∀ k', k' ≠ k → sec_get k' s' = sec_get k' s;
  delete_law k s : usable s →
    ∃ s', sec_delete k s = (Ok (), s') ∧ usable s' ∧ sec_get k s' = Err NotFound ∧ ∀ k', k' ≠ k → sec_get k' s' = sec_get k' s;
  set_failed k c s e s' : sec_set k c s = (Err e, s') → s' = s;
  delete_failed k s e s' : sec_delete k s = (Err e, s') → s' = s;
  set_only k c s k' c' : k' ≠ k → sec_get k' (sec_set k c s).2 = Ok c' → sec_get k' s = Ok c';
  delete_only k s k' c' : sec_get k' (sec_delete k s).2 = Ok c' → sec_get k' s = Ok c';
  get_holds k s c : sec_get k s = Ok c → sec_holds k s;
  set_holds k c s k' : k' ≠ k → sec_holds k' (sec_set k c s).2 → sec_holds k' s;
  delete_holds k s k' : sec_holds k' (sec_delete k s).2 → sec_holds k' s;
}.

(** ** The keychain *)

(** A call of the keyring crate. *)
Inductive KeyCall : Set := GetPassword (kind : ProviderKind) | SetPassword (kind : ProviderKind) | DeletePassword (kind : ProviderKind).

(** The entries of the service by account, and what the platform fails each call with.  It may
    be another function at any later time. *)
Record Keychain : Set := { passwords : gmap str str; failure : KeyCall → option SecretError }.

(** The platform serves every call. *)
Definition keychain_up (k : Keychain) : Prop := ∀ q, failure k q = None.

Section Keychain.
Context (to_string : Json → str) (from_str : str → option Json).

Definition decode_credential (raw : str) : result Credential str :=
  let trimmed := trim raw in
  if starts_with (lit "{") trimmed then
    match (v ← from_str trimmed; de v) with Some c => Ok c | None => Err (lit "invalid credential") end
  else if bool_decide (trimmed = []) then Err (lit "empty credential")
  else Ok (ApiKey trimmed).

Definition keyring_get (kind : ProviderKind) (k : Keychain) : result Credential SecretError :=
  match failure k (GetPassword kind) with
  | Some e => Err e
  | None =>
      match passwords k !! account_for kind with
      | Some s => match decode_credential s with Ok c => Ok c | Err e => Err (OtherError e) end
      | None => Err NotFound
      end
  end.

Definition keyring_set (kind : ProviderKind) (c : Credential) (k : Keychain) : result () SecretError * Keychain :=
  match failure k (SetPassword kind) with
  | Some e => (Err e, k)
  | None => (Ok (), {| passwords := <[account_for kind := to_string (ser c)]> (passwords k); failure := failure k |})
  end.

(** That there is no entry is no failure. *)
Definition keyring_delete (kind : ProviderKind) (k : Keychain) : result () SecretError * Keychain :=
  match failure k (DeletePassword kind) with
  | Some e => (Err e, k)
  | None => (Ok (), {| passwords := delete (account_for kind) (passwords k); failure := failure k |})
  end.

Definition keyring_store : SecretStore Keychain :=
  {| sec_get := keyring_get; sec_set := keyring_set; sec_delete := keyring_delete;
     sec_holds kind k := is_Some (passwords k !! account_for kind) |}.

(** serde_json reads the text it writes of an object, which begins with a brace and ends
    with one. *)
Definition text_read_back : Prop :=
  ∀ m, trim (to_string (Object m)) = to_string (Object m) ∧ starts_with (lit "{") (to_string (Object m)) = true
       ∧ from_str (to_string (Object m)) = Some (Object m).

Lemma credential_object (c : Credential) : ∃ m, ser c = Object m.
Proof. destruct c; by eexists. Qed.

Lemma decode_written (c : Credential) : text_read_back → credential_fits c → decode_credential (to_string (ser c)) = Ok c.
Proof.
  intros Ht Hc. destruct (credential_object c) as [m Hm]. destruct (Ht m) as (H1 & H2 & H3). unfold decode_credential.
  rewrite Hm, H1, H2, H3. cbn [mbind option_bind]. by rewrite <- Hm, de_ser.
Qed.

Lemma keyring_laws : text_read_back → SecretLaws (H := keyring_store) Keychain keychain_up.
Proof.
  intros Ht. split; simpl; unfold keyring_get, keyring_set, keyring_delete, keychain_up.
  - intros k c s Hs Hc. rewrite Hs. eexists. split; [done|]. simpl. split; [done|]. split.
    + by rewrite Hs, lookup_insert, decide_True, decode_written.
    + intros k' Hk. rewrite lookup_insert_ne; [done|]. by intros ?%(inj account_for).
  - intros k s Hs. rewrite Hs. eexists. split; [done|]. simpl. split; [done|]. split.
    + by rewrite Hs, lookup_delete, decide_True.
    + intros k' Hk. rewrite lookup_delete_ne; [done|]. by intros ?%(inj account_for).
  - intros k c s e s'. by destruct (failure s _); intros [= _ ->].
  - intros k s e s'. by destruct (failure s _); intros [= _ ->].
  - intros k c s k' c' Hk. destruct (failure s (SetPassword k)); simpl; [done|]. rewrite lookup_insert_ne; [done|].
    by intros ?%(inj account_for).
  - intros k s k' c'. destruct (failure s (DeletePassword k)); simpl; [done|]. rewrite lookup_delete. case_decide; [by destruct (failure s _)|done].
  - intros k s c. destruct (failure s _); [done|]. destruct (passwords s !! _); [by eexists|done].
  - intros k c s k' Hk. destruct (failure s (SetPassword k)); simpl; [done|]. rewrite lookup_insert_ne; [done|].
    by intros ?%(inj account_for).
  - intros k s k'. destruct (failure s (DeletePassword k)); simpl; [done|]. rewrite lookup_delete. case_decide; [by intros []|done].
Qed.
End Keychain.

(** ** The encrypted file *)

Definition FILE_VERSION : N := 1.

Definition NONCE_LEN : nat := 12.

(** The bytes on the disk; [None] is no file.  [config_dir] is that there is a place for it, [made]
    what creating the directory comes to, [key] the key that is derived for the machine, and
    [readable] and [writable] what the system lets through; [nonces] counts the nonces drawn. *)
Record Encrypted : Set := {
  bytes : option (list N); config_dir : bool; made : result () str; key : result () str;
  readable : result () str; writable : result () str; nonces : nat;
}.

Definition set_bytes (b : list N) (f : Encrypted) : Encrypted :=
  {| bytes := Some b; config_dir := config_dir f; made := made f; key := key f; readable := readable f; writable := writable f;
     nonces := S (nonces f) |}.

(** The same file where everything goes through. *)
Definition within_reach (f : Encrypted) : Encrypted :=
  {| bytes := bytes f; config_dir := true; made := Ok (); key := Ok (); readable := Ok (); writable := Ok (); nonces := nonces f |}.

#[global] Instance json_serde : Serde Json := { ser v := v; de v := Some v }.

#[global] Instance json_faithful : Faithful Json anything.
Proof. by intros v _. Qed.

Section Encrypted.
Context (to_vec : Json → list N) (from_slice : list N → option Json).
Context (nonce : nat → list N) (encrypt : list N → list N → option (list N)) (decrypt : list N → list N → option (list N)).

(** [Store], as it is read and written *)
Definition store_of (v : Json) : option (gmap str Json) := _ ← is_struct v; defaulted ∅ "providers" v.

Definition store_json (s : gmap str Json) : Json := struct [("providers"%string, Some (ser s))].

Definition no_config_dir : SecretError := Unavailable (lit "no config dir").

(** [cipher()?] *)
Definition cipher (f : Encrypted) : result () SecretError :=
  match key f with Ok () => Ok () | Err e => Err (Unavailable e) end.

Definition load_store (f : Encrypted) : result (gmap str Json) SecretError :=
  if negb (config_dir f) then Err no_config_dir
  else match bytes f with
  | None => Ok ∅
  | Some b =>
      match readable f with
      | Err e => Err (OtherError (lit "read credentials.enc: " ++ e))
      | Ok () =>
          if bool_decide (b = []) then Ok ∅
          else if length b <? 1 + NONCE_LEN + 16 then Err (OtherError (lit "credentials.enc truncated"))
          else if bool_decide (head b ≠ Some FILE_VERSION)
          then Err (OtherError (lit "unsupported credentials.enc version: " ++ dec_str (hd 0%N b)))
          else
            _ <-? cipher f;
            match decrypt (take NONCE_LEN (drop 1 b)) (drop (1 + NONCE_LEN) b) with
            | None => Err (OtherError (lit "credentials.enc: decryption failed"))
            | Some plain =>
                match (v ← from_slice plain; store_of v) with
                | Some s => Ok s
                | None => Err (OtherError (lit "credentials.enc: parse"))
                end
            end
      end
  end.

(** The old file stays unless the new one is written whole. *)
Definition save_store (s : gmap str Json) (f : Encrypted) : result () SecretError * Encrypted :=
  if negb (config_dir f) then (Err no_config_dir, f)
  else match made f with
  | Err e => (Err (OtherError (lit "create config dir: " ++ e)), f)
  | Ok () =>
      let n := nonce (nonces f) in
      match cipher f with
      | Err e => (Err e, f)
      | Ok () =>
          match encrypt n (to_vec (store_json s)) with
          | None => (Err (OtherError (lit "encryption failed")), f)
          | Some ct =>
              match writable f with
              | Err e => (Err (OtherError e), f)
              | Ok () => (Ok (), set_bytes (FILE_VERSION :: n ++ ct) f)
              end
          end
      end
  end.

Definition file_get (kind : ProviderKind) (f : Encrypted) : result Credential SecretError :=
  store <-? load_store f;
  match store !! account_for kind with
  | None => Err NotFound
  | Some raw => match de raw with Some c => Ok c | None => Err (OtherError (lit "decode credential")) end
  end.

Definition file_set (kind : ProviderKind) (c : Credential) (f : Encrypted) : result () SecretError * Encrypted :=
  match load_store f with
  | Err e => (Err e, f)
  | Ok store => save_store (<[account_for kind := ser c]> store) f
  end.

Definition file_delete (kind : ProviderKind) (f : Encrypted) : result () SecretError * Encrypted :=
  match load_store f with
  | Err e => (Err e, f)
  | Ok store =>
      match store !! account_for kind with
      | None => (Ok (), f)
      | Some _ => save_store (delete (account_for kind) store) f
      end
  end.

Definition file_store : SecretStore Encrypted :=
  {| sec_get := file_get; sec_set := file_set; sec_delete := file_delete;
     sec_holds kind f := ∃ s, load_store (within_reach f) = Ok s ∧ is_Some (s !! account_for kind) |}.

(** The cipher undoes itself, adds a tag of 16 bytes, and takes nonces of its size; serde_json
    reads what it writes. *)
Record cipher_ok : Prop := {
  nonce_len i : length (nonce i) = NONCE_LEN;
  encrypted n p : length n = NONCE_LEN → ∃ ct, encrypt n p = Some ct ∧ decrypt n ct = Some p ∧ 16 ≤ length ct;
  vec_read v : from_slice (to_vec v) = Some v;
}.

(** Everything goes through. *)
Record reached (f : Encrypted) : Prop := {
  reached_dir : config_dir f = true; reached_made : made f = Ok (); reached_key : key f = Ok ();
  reached_read : readable f = Ok (); reached_write : writable f = Ok ();
}.

Record file_usable (f : Encrypted) : Prop := {
  usable_load : ∃ s, load_store f = Ok s; usable_reached : reached f;
}.

Lemma store_back (s : gmap str Json) : store_of (store_json s) = Some s.
Proof.
  unfold store_of, store_json. rewrite is_struct_struct. cbn [mbind option_bind].
  erewrite (defaulted_back "providers" _ s); [done|decided|reflexivity|by intros ? ?].
Qed.

Lemma saved_bytes (s : gmap str Json) (f : Encrypted) (n : nat) ct :
  cipher_ok → decrypt (nonce n) ct = Some (to_vec (store_json s)) → 16 ≤ length ct → reached f →
  bytes f = Some (FILE_VERSION :: nonce n ++ ct) → load_store f = Ok s.
Proof.
  intros Hok Hd Hl [Hc _ Hk Hr _] Hb. unfold load_store, cipher. rewrite Hb, Hc, Hr, Hk. simpl negb. cbv iota.
  rewrite bool_decide_eq_false_2 by done.
  destruct (Nat.ltb_spec (length (FILE_VERSION :: nonce n ++ ct)) (1 + NONCE_LEN + 16)) as [H|_].
  { cbn [length] in H. rewrite length_app, (nonce_len Hok) in H. unfold NONCE_LEN in H. lia. }
  rewrite bool_decide_eq_false_2 by (by intros []). change (drop 1 (FILE_VERSION :: nonce n ++ ct)) with (nonce n ++ ct).
  change (drop (1 + NONCE_LEN) (FILE_VERSION :: nonce n ++ ct)) with (drop NONCE_LEN (nonce n ++ ct)).
  cbn beta iota.
  rewrite take_app_length', drop_app_length' by (symmetry; apply (nonce_len Hok)). rewrite Hd. cbn [mbind option_bind].
  rewrite (vec_read Hok). cbn [mbind option_bind]. by rewrite store_back.
Qed.

Lemma saved_is_read (s : gmap str Json) (f : Encrypted) :
  cipher_ok → reached f → ∃ f', save_store s f = (Ok (), f') ∧ load_store f' = Ok s ∧ reached f'.
Proof.
  intros Hok Hf. pose proof Hf as [Hc Hm Hk Hr Hw].
  destruct (encrypted Hok (nonce (nonces f)) (to_vec (store_json s)) (nonce_len Hok _)) as (ct & He & Hd & Hl).
  exists (set_bytes (FILE_VERSION :: nonce (nonces f) ++ ct) f).
  assert (reached (set_bytes (FILE_VERSION :: nonce (nonces f) ++ ct) f)) as Hf' by (by split).
  split; [by unfold save_store, cipher; rewrite Hc, Hm, Hk, He, Hw|]. split; [|done]. by eapply saved_bytes.
Qed.

Lemma save_failed (s : gmap str Json) (f : Encrypted) e f' : save_store s f = (Err e, f') → f' = f.
Proof. unfold save_store. repeat (case_match; try (by intros [= _ ->])). Qed.

(** What lies in a file that was saved is what was saved in it, within reach or not. *)
Lemma saved_lies (s : gmap str Json) (f f' : Encrypted) :
  cipher_ok → save_store s f = (Ok (), f') → load_store (within_reach f') = Ok s.
Proof.
  intros Hok. unfold save_store. destruct (negb _); [done|]. destruct (made f) as [[]|]; [|done]. destruct (cipher f) as [[]|]; [|done].
  destruct (encrypted Hok (nonce (nonces f)) (to_vec (store_json s)) (nonce_len Hok _)) as (ct & -> & Hd & Hl).
  destruct (writable f) as [[]|]; [|done]. intros [= <-]. by eapply saved_bytes.
Qed.

Lemma load_lies (f : Encrypted) (s : gmap str Json) : load_store f = Ok s → load_store (within_reach f) = Ok s.
Proof.
  unfold load_store, cipher. simpl. destruct (config_dir f); simpl; [|done]. destruct (bytes f) as [b|]; [|done].
  destruct (readable f) as [[]|]; [|done]. by repeat case_match.
Qed.

(** What is read from a file that was saved is what was saved in it. *)
Lemma saved_only (s s' : gmap str Json) (f f' : Encrypted) :
  cipher_ok → save_store s f = (Ok (), f') → load_store f' = Ok s' → s' = s.
Proof. intros Hok Hs%saved_lies Hl%load_lies; [|done]. congruence. Qed.

Lemma file_laws : cipher_ok → SecretLaws (H := file_store) Encrypted file_usable.
Proof.
  intros Hok. split; simpl; unfold file_get, file_set, file_delete.
  - intros k c f [[s Hs] Hf] Hc. rewrite Hs.
    destruct (saved_is_read (<[account_for k := ser c]> s) f Hok Hf) as (f' & -> & Hl & Hf').
    eexists. split; [done|]. split; [by split; [eexists|]|]. rewrite Hl. simpl. split.
    + rewrite lookup_insert, decide_True by done. by rewrite de_ser.
    + intros k' Hk. rewrite lookup_insert_ne; [done|]. by intros ?%(inj account_for).
  - intros k f Hu. pose proof Hu as [[s Hs] Hf]. rewrite Hs. destruct (s !! account_for k) as [v|] eqn:Hk.
    + destruct (saved_is_read (delete (account_for k) s) f Hok Hf) as (f' & -> & Hl & Hf').
      eexists. split; [done|]. split; [by split; [eexists|]|]. rewrite Hl. simpl. split; [by rewrite lookup_delete, decide_True|].
      intros k' Hne. rewrite lookup_delete_ne; [done|]. by intros ?%(inj account_for).
    + eexists. split; [done|]. split; [done|]. rewrite Hs. simpl. by rewrite Hk.
  - intros k c f e f'. destruct (load_store f) as [s|]; [|by intros [= _ ->]]. apply save_failed.
  - intros k f e f'. destruct (load_store f) as [s|]; [|by intros [= _ ->]]. case_match; [apply save_failed|done].
  - intros k c f k' c' Hk. destruct (load_store f) as [s|] eqn:Hs; simpl; [|by rewrite Hs].
    destruct (save_store (<[account_for k := ser c]> s) f) as [r f'] eqn:Hf. simpl.
    destruct r as [[]|e]; [|apply save_failed in Hf as ->; by rewrite Hs].
    destruct (load_store f') as [s'|] eqn:Hl; [|done]. rewrite (saved_only _ _ _ _ Hok Hf Hl). simpl.
    rewrite lookup_insert_ne; [done|]. by intros ?%(inj account_for).
  - intros k f k' c'. destruct (load_store f) as [s|] eqn:Hs; simpl; [|by rewrite Hs].
    destruct (s !! account_for k) eqn:Hk; simpl; [|by rewrite Hs].
    destruct (save_store (delete (account_for k) s) f) as [r f'] eqn:Hf. simpl.
    destruct r as [[]|e]; [|apply save_failed in Hf as ->; by rewrite Hs].
    destruct (load_store f') as [s'|] eqn:Hl; [|done]. rewrite (saved_only _ _ _ _ Hok Hf Hl). simpl.
    rewrite lookup_delete. by case_decide.
  - intros k f c. destruct (load_store f) as [s|] eqn:Hs; simpl; [|done]. intros Hg. exists s. split; [by apply load_lies|].
    destruct (s !! account_for k); [by eexists|done].
  - intros k c f k' Hk. destruct (load_store f) as [s|] eqn:Hs; simpl; [|done].
    destruct (save_store (<[account_for k := ser c]> s) f) as [[[]|e] f'] eqn:Hf; simpl; [|by apply save_failed in Hf as ->].
    rewrite (saved_lies _ _ _ Hok Hf). intros (s' & [= <-] & Hl). exists s. split; [by apply load_lies|].
    rewrite lookup_insert_ne in Hl; [done|]. by intros ?%(inj account_for).
  - intros k f k'. destruct (load_store f) as [s|] eqn:Hs; simpl; [|done].
    destruct (s !! account_for k) eqn:Hk; simpl; [|done].
    destruct (save_store (delete (account_for k) s) f) as [[[]|e] f'] eqn:Hf; simpl; [|by apply save_failed in Hf as ->].
    rewrite (saved_lies _ _ _ Hok Hf). intros (s' & [= <-] & Hl). exists s. split; [by apply load_lies|].
    rewrite lookup_delete in Hl. case_decide; [by destruct Hl|done].
Qed.
End Encrypted.

(** C28: Both backends keep the promises of the secret storage where the platform lets them: what
    is set is read back, what is deleted is gone, no other provider's credential is touched,
    a call that fails changes nothing, and no secret comes to lie there that was not set, whether the secrets lie in the keychain or in the
    encrypted file. *)
Theorem backends_lawful (to_string : Json → str) (from_str : str → option Json) (to_vec : Json → list N)
    (from_slice : list N → option Json) (nonce : nat → list N) (encrypt decrypt : list N → list N → option (list N)) :
  text_read_back to_string from_str → cipher_ok to_vec from_slice nonce encrypt decrypt →
  SecretLaws (H := keyring_store to_string from_str) Keychain keychain_up
  ∧ SecretLaws (H := file_store to_vec from_slice nonce encrypt decrypt) Encrypted (file_usable from_slice decrypt).
Proof. intros Ht Hc. split; [by apply keyring_laws|by apply file_laws]. Qed.

(** ** A concrete world *)
Module Samples.

(** A text for every value, and the value of it again. *)
Fixpoint tree_of (v : Json) : gen_tree (N * str) :=
  match v with
  | Null => GenLeaf (0%N, [])
  | Bool b => GenLeaf (if b then 1%N else 2%N, [])
  | Number t => GenLeaf (3%N, t)
  | String_ s => GenLeaf (4%N, s)
  | Array l => GenNode 0 (map tree_of l)
  | Object m => GenNode 1 (map (λ p, GenNode 2 [GenLeaf (5%N, p.1); tree_of p.2]) m)
  end.

Fixpoint of_tree (t : gen_tree (N * str)) : Json :=
  match t with
  | GenLeaf (1%N, _) => Bool true
  | GenLeaf (2%N, _) => Bool false
  | GenLeaf (3%N, t) => Number t
  | GenLeaf (4%N, s) => String_ s
  | GenNode 0 l => Array (map of_tree l)
  | GenNode 1 l => Object (map (λ c, match c with GenNode _ [GenLeaf k; t] => (k.2, of_tree t) | _ => ([], Null) end) l)
  | _ => Null
  end.

Lemma of_tree_of (v : Json) : of_tree (tree_of v) = v.
Proof.
  induction v as [|[]|t|s|l IH|m IH] using json_ind; try done; simpl; f_equal.
  - induction IH as [|v l Hv _ IHl]; [done|]. simpl. by rewrite Hv, IHl.
  - induction IH as [|[k v] m Hv _ IHm]; [done|]. simpl in *. by rewrite Hv, IHm.
Qed.

Definition written_text (v : Json) : str := 123%N :: Npos (encode (tree_of v)) :: [125%N].

Definition read_text (s : str) : option Json :=
  match s with [123%N; Npos p; 125%N] => of_tree <$> decode p | _ => None end.

Definition tag : list N := repeat 0%N 16.

Definition seal (n p : list N) : option (list N) := Some (p ++ tag).

Definition unseal (n c : list N) : option (list N) := Some (take (length c - 16) c).

Lemma text_ok : text_read_back written_text read_text.
Proof.
  intros m. split; [done|split; [done|]]. unfold read_text, written_text. rewrite decode_encode. simpl. f_equal. apply (of_tree_of (Object m)).
Qed.

Lemma sealed_ok : cipher_ok written_text read_text (λ _, repeat 0%N 12) seal unseal.
Proof.
  split; [done| |].
  - intros n p _. eexists. split; [done|]. unfold unseal. rewrite !length_app. change (length tag) with 16. split; [|lia].
    f_equal. by rewrite Nat.add_sub, take_app_length.
  - intros v. unfold read_text, written_text. rewrite decode_encode. simpl. by rewrite of_tree_of.
Qed.

Definition no_file : Encrypted :=
  {| bytes := None; config_dir := true; made := Ok (); key := Ok (); readable := Ok (); writable := Ok (); nonces := 0 |}.

End Samples.

Lemma backends_lawful_witness :
  let store := Samples.written_text in
  SecretLaws (H := keyring_store store Samples.read_text) Keychain keychain_up
  ∧ sec_get (SecretStore := file_store store Samples.read_text (λ _, repeat 0%N 12) Samples.seal Samples.unseal) Groq
      (sec_set (SecretStore := file_store store Samples.read_text (λ _, repeat 0%N 12) Samples.seal Samples.unseal) Groq
         (ApiKey (lit "gsk")) Samples.no_file).2 = Ok (ApiKey (lit "gsk")).
Proof.
  destruct (backends_lawful Samples.written_text Samples.read_text Samples.written_text Samples.read_text (λ _, repeat 0%N 12)
    Samples.seal Samples.unseal Samples.text_ok Samples.sealed_ok) as [Hk Hf].
  split; [exact Hk|]. destruct Hf as [Hset _ _ _ _ _ _ _ _].
  destruct (Hset Groq (ApiKey (lit "gsk")) Samples.no_file) as (s' & Hs & _ & Hg & _);
    [by split; [eexists|]|done|]. cbn zeta. rewrite Hs. exact Hg.
Defined.
