(* ===== verification/Credentials.v ===== *)
(** * Credentials (app/src/agent/credentials.rs)

    The credential of a provider, over the secret storage, the plaintext fallback in the
    settings file, the index of what is stored, and the cache of the process: reading,
    writing, clearing, the one-time sweep of an older install, and the switch that every
    request passes; with the commands of the settings page as steps.

    The proofs are about any storage that keeps [SecretLaws].  The text of a credential is
    serde_json's, an argument. *)

From stdpp Require Import finite relations.

From S2P Require Import Prelude Json Session Providers Reasoning Serde Settings Secrets.

Section Credentials.
Context {T : Type} `{SecretStore T}.
Context (cred_text : Credential → str) (cred_of : str → option Credential).

(** [cache] is [CRED_CACHE]: no entry is a provider that was never looked up.  [available] was
    probed when the process started. *)
Record State : Type := {
  disk : Disk; secrets : T; cache : gmap ProviderKind (option Credential); available : bool;
}.

Definition cache_set (kind : ProviderKind) (v : option Credential) (st : State) : State :=
  {| disk := disk st; secrets := secrets st; cache := <[kind := v]> (cache st); available := available st |}.

Definition with_disk (d : Disk) (st : State) : State :=
  {| disk := d; secrets := secrets st; cache := cache st; available := available st |}.

Definition with_secrets (s : T) (st : State) : State :=
  {| disk := disk st; secrets := s; cache := cache st; available := available st |}.

Definition set_configured (c : gset ProviderKind) (p : PersistedSettings) : PersistedSettings :=
  {| settings := settings p; plaintext_credentials := plaintext_credentials p; configured_providers := c;
     keychain_index_initialized := keychain_index_initialized p |}.

Definition set_initialized (p : PersistedSettings) : PersistedSettings :=
  {| settings := settings p; plaintext_credentials := plaintext_credentials p; configured_providers := configured_providers p;
     keychain_index_initialized := true |}.

(** What the storage and, if the operator opted in, the file have of a provider. *)
Definition look_up (p : PersistedSettings) (st : State) (kind : ProviderKind) : option Credential :=
  match sec_get kind (secrets st) with
  | Ok c => Some c
  | Err _ => if allow_plaintext_api_key (settings p) then t ← plaintext_credentials p !! kind; cred_of t else None
  end.

Definition backfill_credential_index (p : PersistedSettings) (st : State) : PersistedSettings * State :=
  let '(p, st) :=
    foldl (λ '(p, st) kind,
      match look_up p st kind with
      | Some c => (set_configured ({[kind]} ∪ configured_providers p) p, cache_set kind (Some c) st)
      | None => (p, cache_set kind None st)
      end) (p, st) all in
  (set_initialized p, st).

(** What the disk lets through in a step. *)
Record Io : Type := { opened : bool; copied : bool; written : result () str }.

Definition load (io : Io) (st : State) : PersistedSettings * State :=
  let '(p, d) := load_persisted_at cred_text (opened io) (copied io) (disk st) in (p, with_disk d st).

Definition save (io : Io) (p : PersistedSettings) (st : State) : result () str * State :=
  let '(r, d) := save_persisted (written io) p (disk st) in (r, with_disk d st).

(** Past the cache: the credential of a provider that is in the index. *)
Definition read_stored (kind : ProviderKind) (p : PersistedSettings) (st : State) : option Credential * State :=
  if decide (kind ∈ configured_providers p) then
    let c := look_up p st kind in (c, cache_set kind c st)
  else (None, cache_set kind None st).

Definition read_credential (io : Io) (kind : ProviderKind) (st : State) : option Credential * State :=
  match cache st !! kind with
  | Some slot => (slot, st)
  | None =>
      let '(p, st) := load io st in
      if keychain_index_initialized p then read_stored kind p st
      else
        let '(p, st) := backfill_credential_index p st in
        let '(_, st) := save io p st in
        match cache st !! kind with
        | Some slot => (slot, st)
        | None => read_stored kind p st
        end
  end.

Definition effective_credential (io : Io) (kind : ProviderKind) (st : State) : option Credential * State :=
  match read_credential io kind st with
  | (Some c, st) => (Some c, st)
  | (None, st) => (ApiKey <$> public_fallback_key kind, st)
  end.

Definition no_credential_text (kind : ProviderKind) : str :=
  lit "no credential configured for " ++ meta_display_name (for_kind kind) ++ lit " " ++ dash ++ lit " open Settings "
    ++ 8594%N :: lit " AI to connect it".

Definition resolve_credential (io : Io) (kind : ProviderKind) (s : AgentSettings) (st : State) : result Credential str * State :=
  match ensure_enabled kind s with
  | Err e => (Err e, st)
  | Ok () =>
      match effective_credential io kind st with
      | (Some c, st) => (Ok c, st)
      | (None, st) => (Err (no_credential_text kind), st)
      end
  end.

Definition secret_error_text (e : SecretError) : str :=
  match e with
  | Unavailable s => lit "secret storage unavailable: " ++ s
  | NotFound => lit "secret not found"
  | OtherError s => lit "secret storage error: " ++ s
  end.

(** The secret, or its text in the settings, and whether the settings have changed. *)
Definition store_secret (kind : ProviderKind) (c : Credential) (p : PersistedSettings) (st : State) :
    result (PersistedSettings * bool) str * State :=
  if available st then
    match sec_set kind c (secrets st) with
    | (Err e, s) => (Err (secret_error_text e), with_secrets s st)
    | (Ok (), s) =>
        (Ok (set_plaintext (delete kind (plaintext_credentials p)) p,
             bool_decide (is_Some (plaintext_credentials p !! kind))), with_secrets s st)
    end
  else if allow_plaintext_api_key (settings p)
  then (Ok (set_plaintext (<[kind := cred_text c]> (plaintext_credentials p)) p, true), st)
  else (Err (lit "no secret storage backend available and plaintext storage is not enabled"), st).

Definition write_credential (io : Io) (kind : ProviderKind) (c : Credential) (st : State) : result () str * State :=
  let '(p, st) := load io st in
  match store_secret kind c p st with
  | (Err e, st) => (Err e, st)
  | (Ok (p, dirty), st) =>
      let dirty := dirty || bool_decide (kind ∉ configured_providers p) || negb (keychain_index_initialized p) in
      let p := set_initialized (set_configured ({[kind]} ∪ configured_providers p) p) in
      match (if dirty then save io p st else (Ok (), st)) with
      | (Err e, st) => (Err e, st)
      | (Ok (), st) => (Ok (), cache_set kind (Some c) st)
      end
  end.

(** The storage is asked to delete, whatever comes of it. *)
Definition clear_credential (io : Io) (kind : ProviderKind) (st : State) : result () str * State :=
  let st := with_secrets (sec_delete kind (secrets st)).2 st in
  let '(p, st) := load io st in
  let dirty := bool_decide (is_Some (plaintext_credentials p !! kind)) || bool_decide (kind ∈ configured_providers p) in
  let p := set_configured (configured_providers p ∖ {[kind]}) (set_plaintext (delete kind (plaintext_credentials p)) p) in
  match (if dirty then save io p st else (Ok (), st)) with
  | (Err e, st) => (Err e, st)
  | (Ok (), st) => (Ok (), cache_set kind None st)
  end.

(** ** What a restart finds *)

(** The settings of the disk. *)
Definition index (st : State) : PersistedSettings := (load_persisted_at cred_text true true (disk st)).1.

(** What a load gives: the settings of the disk, or the defaults when they cannot be read. *)
Definition seen (io : Io) (st : State) : PersistedSettings :=
  (load_persisted_at cred_text (opened io) (copied io) (disk st)).1.

(** What the storage has of a provider that the index knows. *)
Definition stored (kind : ProviderKind) (st : State) : option Credential :=
  if decide (kind ∈ configured_providers (index st)) then look_up (index st) st kind else None.

(** A new process. *)
Definition restart (st : State) : State :=
  {| disk := disk st; secrets := secrets st; cache := ∅; available := available st |}.

(** The disk behind a load. *)
Definition after_load (io : Io) (st : State) : State :=
  with_disk (load_persisted_at cred_text (opened io) (copied io) (disk st)).2 st.

Lemma load_spec io st : load io st = (seen io st, after_load io st) ∧ index (after_load io st) = index st.
Proof.
  unfold load, seen, after_load, index, load_persisted_at. destruct st as [[f b] s c a]. simpl.
  destruct f as [text|]; simpl; [|done]. destruct (opened io), (copied io); simpl; try done;
    (destruct text as [v|]; simpl; [|done]); by destruct (de v) eqn:E; simpl; rewrite ?E.
Qed.

Lemma seen_opened io st : opened io = true → seen io st = index st.
Proof.
  intros Ho. unfold seen, index, load_persisted_at. rewrite Ho. destruct (file (disk st)) as [[v|]|]; try done. simpl.
  by destruct (de v).
Qed.

Lemma seen_cases io st : seen io st = index st ∨ seen io st = default_persisted.
Proof.
  destruct (opened io) eqn:Ho; [left; by apply seen_opened|]. unfold seen, load_persisted_at. rewrite Ho.
  destruct (file (disk st)); by right.
Qed.

Lemma seen_settled io st : settled (seen io st) ∧ fits (seen io st).
Proof. apply load_settled. Qed.

Lemma index_settled st : settled (index st) ∧ fits (index st).
Proof. apply load_settled. Qed.

(** What a save of [p] leaves: [p], with the migrations that are due. *)
Lemma save_spec io p st : written io = Ok () → fits p →
  ∃ st', save io p st = (Ok (), st') ∧ index st' = settle_settings p ∧ secrets st' = secrets st ∧ cache st' = cache st
         ∧ available st' = available st.
Proof.
  intros Hw Hp. unfold save, save_persisted. rewrite Hw. eexists. split; [done|]. split; [|done]. unfold index. simpl.
  by rewrite load_saved.
Qed.

(** The migrations leave what is known of the credentials. *)
Lemma settle_keeps p :
  configured_providers (settle_settings p) = configured_providers p
  ∧ plaintext_credentials (settle_settings p) = plaintext_credentials p
  ∧ keychain_index_initialized (settle_settings p) = keychain_index_initialized p
  ∧ allow_plaintext_api_key (settings (settle_settings p)) = allow_plaintext_api_key (settings p).
Proof.
  unfold settle_settings. destruct (migrate_reasoning_spec (migrate_zen_opt_in p)) as (own & -> & _ & _).
  set (q := edit _ _). assert (configured_providers q = configured_providers p ∧ plaintext_credentials q = plaintext_credentials p
    ∧ keychain_index_initialized q = keychain_index_initialized p ∧ allow_plaintext_api_key (settings q) = allow_plaintext_api_key (settings p))
    as Hq by (unfold q; rewrite zen_due_spec; by destruct (zen_due p)).
  destruct (normalize_spec q) as [[-> _]|(k & -> & _ & _)]; exact Hq.
Qed.

Lemma read_cached io kind v st : cache st !! kind = Some v → read_credential io kind st = (v, st).
Proof. unfold read_credential. by intros ->. Qed.

Lemma read_indexed io kind st :
  opened io = true → cache st !! kind = None → keychain_index_initialized (index st) = true → (read_credential io kind st).1 = stored kind st.
Proof.
  intros Hop Hc Hi. unfold read_credential. rewrite Hc. destruct (load_spec io st) as [-> _]. rewrite seen_opened, Hi by done. unfold read_stored, stored.
  by case_decide.
Qed.

(** Two states that know and have the same of a provider. *)
Definition agree (kind : ProviderKind) (st st' : State) : Prop :=
  (kind ∈ configured_providers (index st') ↔ kind ∈ configured_providers (index st))
  ∧ plaintext_credentials (index st') !! kind = plaintext_credentials (index st) !! kind
  ∧ allow_plaintext_api_key (settings (index st')) = allow_plaintext_api_key (settings (index st))
  ∧ sec_get kind (secrets st') = sec_get kind (secrets st).

Lemma agree_stored kind st st' : agree kind st st' → stored kind st' = stored kind st.
Proof.
  intros (Hc & Ht & Ha & Hs). unfold stored, look_up. rewrite Hs, Ha, Ht. by repeat case_decide; try tauto.
Qed.

(** ** A credential that is written is read *)

Context (usable : T → Prop) `{!SecretLaws T usable}.

(** What the storage of a secret comes to: the settings with the text gone or put in, marked as
    changed when they are. *)
Lemma store_secret_spec kind c st st1 :
  secrets st1 = secrets st → available st1 = available st → cache st1 = cache st →
  credential_fits c → cred_of (cred_text c) = Some c →
  (if available st then usable (secrets st)
   else allow_plaintext_api_key (settings (index st)) = true ∧ ∃ e, sec_get kind (secrets st) = Err e) →
  ∃ p st2 d, store_secret kind c (index st) st1 = (Ok (p, d), st2) ∧ (d = false → p = index st)
    ∧ settings p = settings (index st) ∧ configured_providers p = configured_providers (index st)
    ∧ keychain_index_initialized p = keychain_index_initialized (index st)
    ∧ (available st = true → plaintext_credentials p !! kind = None)
    ∧ (∀ k, k ≠ kind → plaintext_credentials p !! k = plaintext_credentials (index st) !! k)
    ∧ disk st2 = disk st1 ∧ cache st2 = cache st ∧ (∀ k, k ≠ kind → sec_get k (secrets st2) = sec_get k (secrets st))
    ∧ look_up p st2 kind = Some c.
Proof.
  intros Hs1 Hav1 Hc1 Hc Ht Ha. unfold store_secret, look_up. rewrite Hs1, Hav1. destruct (available st) eqn:Hav.
  - destruct (set_law kind c (secrets st) Ha Hc) as (s & -> & _ & Hg & Ho). do 3 eexists. split; [done|]. split.
    + intros Hd%bool_decide_eq_false%eq_None_not_Some. rewrite delete_id by done. by destruct (index st).
    + simpl. rewrite Hg. split_and!; try done; [by rewrite lookup_delete, decide_True|].
      intros k Hk. by rewrite lookup_delete_ne.
  - destruct Ha as [Ha [e He]]. rewrite Ha. do 3 eexists. split; [done|]. simpl. rewrite Hs1, He, Ha.
    split_and!; try done; [|by rewrite lookup_insert, decide_True].
    intros k Hk. by rewrite lookup_insert_ne.
Qed.

(** A save that is due, or none: what is on the disk behind it. *)
Lemma save_or_keep io q (dirty : bool) st :
  written io = Ok () → fits q → (dirty = false → q = index st) →
  ∃ st', (if dirty then save io q st else (Ok (), st)) = (Ok (), st') ∧ secrets st' = secrets st ∧ cache st' = cache st
    ∧ configured_providers (index st') = configured_providers q ∧ plaintext_credentials (index st') = plaintext_credentials q
    ∧ keychain_index_initialized (index st') = keychain_index_initialized q
    ∧ allow_plaintext_api_key (settings (index st')) = allow_plaintext_api_key (settings q).
Proof.
  intros Hw Hq Hd. destruct dirty.
  - destruct (save_spec io q st Hw Hq) as (st' & -> & Hi & Hs & Hc & _). exists st'. rewrite Hi.
    destruct (settle_keeps q) as (-> & -> & -> & ->). by split_and!.
  - exists st. rewrite Hd by done. by split_and!.
Qed.

(** A credential that is stored stays: behind a write that went through, to the storage or, with
    no storage and the operator's consent, to the settings file, every read gives that
    credential, in this process and in the next; nothing of it lies in the file when the
    storage has it, and every other provider has what it had. *)
Theorem written_is_read (io io' : Io) (kind : ProviderKind) (c : Credential) (st : State) :
  opened io = true → opened io' = true → written io = Ok () → credential_fits c → cred_of (cred_text c) = Some c →
  (if available st then usable (secrets st)
   else allow_plaintext_api_key (settings (index st)) = true ∧ ∃ e, sec_get kind (secrets st) = Err e) →
  ∃ st', write_credential io kind c st = (Ok (), st')
    ∧ (read_credential io' kind st').1 = Some c
    ∧ (read_credential io' kind (restart st')).1 = Some c
    ∧ (available st = true → plaintext_credentials (index st') !! kind = None)
    ∧ (∀ kind', kind' ≠ kind → stored kind' st' = stored kind' st ∧ cache st' !! kind' = cache st !! kind').
Proof.
  intros Hop Hop' Hw Hc Ht Ha. unfold write_credential. destruct (load_spec io st) as [-> Hi]. rewrite seen_opened by done.
  set (st1 := after_load io st) in *.
  destruct (store_secret_spec kind c st st1) as (p & st2 & d & -> & Hd & Hs & Hcf & Hin & Hpl & Hpo & Hdk & Hca & Hso & Hg); try done.
  set (q := set_initialized (set_configured _ p)). set (dirty := _ || _ || _).
  destruct (save_or_keep io q dirty st2 Hw) as (st3 & -> & Hs3 & Hc3 & Hcf3 & Hpl3 & Hin3 & Hal3).
  { unfold fits. simpl. rewrite Hs. apply index_settled. }
  { unfold dirty. intros [[-> Hk%bool_decide_eq_false]%orb_false_iff Hn%negb_false_iff]%orb_false_iff.
    assert (index st2 = index st) as -> by (rewrite <- Hi; unfold index; by rewrite Hdk).
    rewrite <- (Hd eq_refl) in *. unfold q, set_initialized, set_configured. destruct p as [a b cf n]. simpl in *. f_equal; [|done].
    apply dec_stable in Hk. set_solver. }
  simpl in Hcf3, Hpl3, Hin3, Hal3. rewrite Hcf in Hcf3.
  eexists. split; [done|]. set (st' := cache_set _ _ _).
  assert (look_up (index st3) st3 kind = Some c) as Hl by (unfold look_up in *; by rewrite Hs3, Hpl3, Hal3). rewrite Hs in Hal3.
  assert (stored kind st' = Some c) as Hst.
  { unfold stored. change (index st') with (index st3). rewrite decide_True by (rewrite Hcf3; set_solver). exact Hl. }
  split_and!.
  - by rewrite (read_cached _ _ (Some c)) by (simpl; by rewrite lookup_insert, decide_True).
  - by rewrite read_indexed.
  - intros Hav. change (index st') with (index st3). rewrite Hpl3. by apply Hpl.
  - intros k Hk. split; [|simpl; by rewrite lookup_insert_ne, Hc3, Hca by done]. apply agree_stored. split_and!; simpl.
    + change (index st') with (index st3). rewrite Hcf3. set_solver.
    + change (index st') with (index st3). rewrite Hpl3. by apply Hpo.
    + done.
    + rewrite Hs3. by apply Hso.
Qed.

(** A credential that is cleared is gone: behind a clear that went through, no read gives it, in
    this process or in the next, wherever it lay; and every other provider has what it had. *)
Theorem cleared_is_gone (io io' : Io) (kind : ProviderKind) (st : State) :
  opened io = true → opened io' = true → written io = Ok () → keychain_index_initialized (index st) = true → usable (secrets st) →
  ∃ st', clear_credential io kind st = (Ok (), st')
    ∧ (read_credential io' kind st').1 = None
    ∧ (read_credential io' kind (restart st')).1 = None
    ∧ plaintext_credentials (index st') !! kind = None ∧ sec_get kind (secrets st') = Err NotFound
    ∧ (∀ kind', kind' ≠ kind → stored kind' st' = stored kind' st ∧ cache st' !! kind' = cache st !! kind').
Proof.
  intros Hop Hop' Hw Hin Hu. unfold clear_credential. destruct (delete_law kind (secrets st) Hu) as (s & Hdel & _ & Hg & Ho). rewrite Hdel.
  set (st0 := with_secrets _ st). assert (index st0 = index st) as H0 by done. destruct (load_spec io st0) as [-> Hi].
  rewrite seen_opened by done. set (st1 := after_load io st0) in *. rewrite H0 in *. set (q := set_configured _ _).
  destruct (save_or_keep io q (bool_decide (is_Some (plaintext_credentials (index st) !! kind))
      || bool_decide (kind ∈ configured_providers (index st))) st1 Hw)
    as (st3 & -> & Hs3 & Hc3 & Hcf3 & Hpl3 & Hin3 & Hal3).
  { unfold fits. simpl. apply index_settled. }
  { rewrite Hi. intros [Ht%bool_decide_eq_false Hk%bool_decide_eq_false]%orb_false_iff. apply eq_None_not_Some in Ht.
    unfold q, set_configured, set_plaintext. rewrite delete_id by done. destruct (index st) as [a b cf d]. simpl in *. f_equal.
    set_solver. }
  eexists. split; [done|]. set (st' := cache_set _ _ _). change (index st') with (index st3).
  assert (kind ∉ configured_providers (index st3)) as Hn by (rewrite Hcf3; simpl; set_solver).
  split_and!.
  - by rewrite (read_cached _ _ None) by (simpl; by rewrite lookup_insert, decide_True).
  - rewrite read_indexed; [|done|done|exact (eq_trans Hin3 Hin)]. unfold stored. by rewrite decide_False.
  - rewrite Hpl3. simpl. by rewrite lookup_delete, decide_True.
  - simpl. by rewrite Hs3.
  - intros k Hk. split; [|simpl; by rewrite lookup_insert_ne, Hc3 by done]. apply agree_stored. split_and!; simpl.
    + change (index st') with (index st3). rewrite Hcf3. simpl. set_solver.
    + change (index st') with (index st3). rewrite Hpl3. simpl. by rewrite lookup_delete_ne.
    + done.
    + rewrite Hs3. simpl. by apply Ho.
Qed.
(** ** A provider with a public key is asked only when it is switched on *)

(** No secret of OpenCode Zen lies in the storage, within reach or not. *)
Definition no_zen (s : T) : Prop := ¬ sec_holds OpencodeZen s.

Lemma no_zen_get s : no_zen s → ∃ e, sec_get OpencodeZen s = Err e.
Proof. intros Hn. destruct (sec_get OpencodeZen s) as [c|e] eqn:E; [|by eexists]. by destruct Hn; eapply get_holds. Qed.

(** OpenCode Zen is off, and unless it was switched off, no secret of it lies anywhere that would
    make an older install of it. *)
Definition zen_off (p : PersistedSettings) (s : T) : Prop :=
  switch_of (settings p) OpencodeZen ≠ Some true
  ∧ (switch_of (settings p) OpencodeZen = None → no_zen s).

(** What the settings may become, without the operator having a say on the provider. *)
Definition may_save (p : PersistedSettings) (st : State) : Prop :=
  fits p ∧ zen_due p = false ∧ zen_off p (secrets st).

Lemma save_off io p st :
  may_save p st → zen_off (index st) (secrets st) → zen_off (index (save io p st).2) (secrets (save io p st).2).
Proof.
  intros (Hf & Hz & Hs) Ho. unfold save, save_persisted. destruct (written io) as [[]|e]; [|exact Ho]. unfold zen_off, index.
  cbn [fst snd with_disk disk secrets]. rewrite load_saved by done. cbn [fst]. by rewrite settle_switch by done.
Qed.

(** The settings that a load gives are as good, when the file is read, or no secret lies there. *)
Lemma seen_off io st :
  (opened io = true ∨ no_zen (secrets st)) → zen_off (index st) (secrets st) → zen_off (seen io st) (secrets st).
Proof.
  intros [Hop|Hn] Ho; [by rewrite seen_opened|]. destruct (seen_cases io st) as [-> | ->]; [done|]. by split.
Qed.

Lemma foldl_inv {A B} (P : A → Prop) (f : A → B → A) (l : list B) (a : A) : P a → (∀ a b, P a → P (f a b)) → P (foldl f a l).
Proof. intros Ha Hf. revert a Ha. induction l as [|b l IH]; intros a Ha; simpl; eauto. Qed.

(** The sweep puts into the index what is found, and touches nothing else. *)
Lemma backfill_spec p st :
  let '(p', st') := backfill_credential_index p st in
  settings p' = settings p ∧ plaintext_credentials p' = plaintext_credentials p ∧ disk st' = disk st ∧ secrets st' = secrets st
  ∧ ∀ k, k ∈ configured_providers p' → k ∈ configured_providers p ∨ is_Some (look_up p st k).
Proof.
  unfold backfill_credential_index. match goal with |- context [foldl ?g _ _] => set (f := g) end.
  set (inv := λ r : PersistedSettings * State, settings r.1 = settings p ∧ plaintext_credentials r.1 = plaintext_credentials p
    ∧ disk r.2 = disk st ∧ secrets r.2 = secrets st
    ∧ ∀ k, k ∈ configured_providers r.1 → k ∈ configured_providers p ∨ is_Some (look_up p st k)).
  assert (inv (foldl f (p, st) all)) as Hall; [|by destruct (foldl f (p, st) all)].
  apply (foldl_inv inv); [by split_and!; [| | | |by left]|]. intros [q st1] kind (H1 & H2 & H3 & H4 & H5). simpl in *.
  assert (look_up q st1 kind = look_up p st kind) as Hl by (unfold look_up; by rewrite H1, H2, H4). unfold f. rewrite Hl.
  destruct (look_up p st kind) eqn:E; [|by split_and!]. split_and!; try done. simpl. intros k [->%elem_of_singleton|Hk]%elem_of_union.
  - right. rewrite E. by eexists.
  - by apply H5.
Qed.

Lemma read_off io kind st :
  (opened io = true ∨ no_zen (secrets st)) → zen_off (index st) (secrets st) →
  zen_off (index (read_credential io kind st).2) (secrets (read_credential io kind st).2).
Proof.
  intros Hop Ho. unfold read_credential. destruct (cache st !! kind); [done|]. destruct (load_spec io st) as [-> Hi].
  pose proof (seen_off io st Hop Ho) as Hseen. destruct (seen_settled io st) as [[Hz _ _] Hf].
  set (st1 := after_load io st) in *. assert (zen_off (index st1) (secrets st1)) as Ho1 by (by rewrite Hi).
  assert (∀ p st', (read_stored kind p st').2 = st' ∨ ∃ c, (read_stored kind p st').2 = cache_set kind c st') as Hr
    by (intros; unfold read_stored; case_decide; eauto).
  destruct (keychain_index_initialized (seen io st)).
  { by destruct (Hr (seen io st) st1) as [->|[c ->]]. }
  pose proof (backfill_spec (seen io st) st1) as Hb. destruct (backfill_credential_index _ st1) as [p st2].
  destruct Hb as (Hs & Ht & Hd & Hx & Hc). assert (index st2 = index st) as Hi2 by (rewrite <- Hi; unfold index; by rewrite Hd).
  assert (may_save p st2) as Hm.
  { split; [unfold fits; by rewrite Hs|]. split; [|unfold zen_off; rewrite Hs, Hx; exact Hseen].
    apply zen_due_false. rewrite Hs, Ht. apply zen_due_false in Hz as [Hz|(Ha & Hcf & Hp)]; [by left|].
    destruct (switch_of (settings (seen io st)) OpencodeZen) eqn:E; [by left; eexists|]. right. split_and!; [done| |done].
    intros [Hk|Hk]%Hc; [done|]. destruct Hseen as [_ Hn]. destruct (no_zen_get _ (Hn E)) as [e He]. unfold look_up in Hk. simpl in Hk.
    rewrite He, Hp in Hk. simpl in Hk. by destruct (allow_plaintext_api_key _), Hk. }
  assert (zen_off (index st2) (secrets st2)) as Ho2 by (by rewrite Hi2, Hx).
  pose proof (save_off io p st2 Hm Ho2) as H3. destruct (save io p st2) as [r st3]. simpl in H3. destruct (cache st3 !! kind); [done|].
  by destruct (Hr p st3) as [->|[c ->]].
Qed.

Lemma zen_off_shrinks p s s' : (no_zen s → no_zen s') → zen_off p s → zen_off p s'.
Proof. intros Hs [H1 H2]. split; [done|]. intros E. by apply Hs, H2. Qed.

(** Storing a secret of another provider. *)
Lemma store_secret_off kind c p st :
  kind ≠ OpencodeZen →
  match store_secret kind c p st with
  | (Ok (p', _), st') =>
      settings p' = settings p ∧ plaintext_credentials p' !! OpencodeZen = plaintext_credentials p !! OpencodeZen
      ∧ configured_providers p' = configured_providers p ∧ disk st' = disk st ∧ (no_zen (secrets st) → no_zen (secrets st'))
  | (Err _, st') => disk st' = disk st ∧ secrets st' = secrets st
  end.
Proof.
  intros Hk. unfold store_secret. destruct (available st).
  - pose proof (set_holds kind c (secrets st) OpencodeZen (not_eq_sym Hk)) as Hon.
    pose proof (set_failed kind c (secrets st)) as Hfail. destruct (sec_set kind c (secrets st)) as [[[]|e] s]; simpl in *.
    + rewrite lookup_delete_ne by done. split_and!; try done. unfold no_zen. tauto.
    + split; [done|]. by eapply Hfail.
  - destruct (allow_plaintext_api_key _); [|done]. simpl. by rewrite lookup_insert_ne.
Qed.

Lemma write_off io kind c st :
  kind ≠ OpencodeZen → (opened io = true ∨ no_zen (secrets st)) → zen_off (index st) (secrets st) →
  zen_off (index (write_credential io kind c st).2) (secrets (write_credential io kind c st).2).
Proof.
  intros Hk Hop Ho. unfold write_credential. destruct (load_spec io st) as [-> Hi].
  pose proof (seen_off io st Hop Ho) as Hseen. destruct (seen_settled io st) as [[Hz _ _] Hf].
  set (st1 := after_load io st) in *. pose proof (store_secret_off kind c (seen io st) st1 Hk) as Hst.
  destruct (store_secret kind c (seen io st) st1) as [[[p d]|e] st2].
  - destruct Hst as (Hs & Ht & Hc & Hd & Hn).
    assert (index st2 = index st) as Hi2 by (rewrite <- Hi; unfold index; by rewrite Hd).
    assert (zen_off (index st2) (secrets st2)) as Ho2 by (rewrite Hi2; by eapply zen_off_shrinks).
    set (q := set_initialized _). assert (zen_off (index (save io q st2).2) (secrets (save io q st2).2)) as H3.
    { apply save_off; [|done]. unfold may_save, fits, zen_off. simpl. rewrite Hs.
      split; [done|]. split; [|exact (zen_off_shrinks (seen io st) _ _ Hn Hseen)]. apply zen_due_false. simpl. rewrite Hs, Ht, Hc.
      apply zen_due_false in Hz as [Hz|(? & ? & ?)]; [by left|right]. split_and!; [done|set_solver|done]. }
    by destruct (_ || _ || _); [destruct (save io q st2) as [[[]|e] st3]|].
  - destruct Hst as [Hd Hs]. cbn [snd]. unfold index. rewrite Hd, Hs. unfold index in Hi. by rewrite Hi.
Qed.

Lemma clear_off io kind st :
  (opened io = true ∨ no_zen (secrets st)) → zen_off (index st) (secrets st) →
  zen_off (index (clear_credential io kind st).2) (secrets (clear_credential io kind st).2).
Proof.
  intros Hop Ho. unfold clear_credential.
  pose proof (delete_holds kind (secrets st) OpencodeZen) as Hon. set (st0 := with_secrets _ st).
  assert (no_zen (secrets st) → no_zen (secrets st0)) as Hn by (unfold no_zen; simpl; tauto).
  assert (zen_off (index st0) (secrets st0)) as Ho0 by (by eapply (zen_off_shrinks _ (secrets st))).
  assert (opened io = true ∨ no_zen (secrets st0)) as Hop0 by (destruct Hop; auto).
  clearbody st0. destruct (load_spec io st0) as [-> Hi]. pose proof (seen_off io st0 Hop0 Ho0) as Hseen.
  destruct (seen_settled io st0) as [[Hz _ _] Hf]. set (st1 := after_load io st0) in *. set (q := set_configured _ _).
  assert (zen_off (index st1) (secrets st1)) as Ho1 by (by rewrite Hi).
  assert (zen_off (index (save io q st1).2) (secrets (save io q st1).2)) as H3.
  { apply save_off; [|exact Ho1]. split_and!; [exact Hf| |exact Hseen].
    apply zen_due_false. simpl. apply zen_due_false in Hz as [Hz|(? & ? & ?)]; [by left|right]. split_and!; [done|set_solver|].
    apply lookup_delete_None. by right. }
  by destruct (_ || _); [destruct (save io q st1) as [[[]|e] st3]|].
Qed.

(** ** The commands of the settings page *)

Context (parse : str → result Url str) (pick : ProviderKind → AgentSettings → option str).

Definition set_settings_at (io : Io) (patch : AiSettingsPatch) (st : State) : State :=
  with_disk (ai_set_settings parse cred_text pick (opened io) (copied io) (written io) patch (disk st)).2 st.

(** The commands; and what happens meanwhile: a restart of the application, and the secret
    storage coming into reach or going out of it. *)
Inductive Command : Type :=
  | Read (kind : ProviderKind)
  | Write (kind : ProviderKind) (c : Credential)
  | Clear (kind : ProviderKind)
  | Patch (patch : AiSettingsPatch)
  | Restart (found : bool)
  | Reach (s : T).

Definition exec (io : Io) (cmd : Command) (st : State) : State :=
  match cmd with
  | Read kind => (read_credential io kind st).2
  | Write kind c => (write_credential io kind c st).2
  | Clear kind => (clear_credential io kind st).2
  | Patch patch => set_settings_at io patch st
  | Restart found => {| disk := disk st; secrets := secrets st; cache := ∅; available := found |}
  | Reach s => with_secrets s st
  end.

Definition exec_all : State → list (Io * Command) → State := foldl (λ st '(io, cmd), exec io cmd st).

(** The two things an operator can do to use OpenCode Zen: switch it on, or sign in to it. *)
Definition asks_for_zen (cmd : Command) : bool :=
  match cmd with
  | Write kind _ => bool_decide (kind = OpencodeZen)
  | Patch patch => bool_decide (pt_provider_enabled patch = Some (OpencodeZen, true))
  | _ => false
  end.

Lemma patch_off io patch st :
  asks_for_zen (Patch patch) = false → (opened io = true ∨ no_zen (secrets st)) → zen_off (index st) (secrets st) →
  zen_off (index (set_settings_at io patch st)) (secrets st).
Proof.
  intros Hp%bool_decide_eq_false Hop Ho. unfold set_settings_at, ai_set_settings. destruct (load_spec io st) as [_ Hi].
  pose proof (seen_off io st Hop Ho) as Hseen. unfold after_load in Hi. unfold seen in *.
  destruct (load_settled cred_text (opened io) (copied io) (disk st)) as [[Hz Hr _] Hf].
  destruct (load_persisted_at cred_text (opened io) (copied io) (disk st)) as [p0 d0]. simpl in *.
  destruct (apply_patch parse patch p0) as [p1|e] eqn:Hpatch; [|cbn [snd]; by rewrite Hi].
  pose proof (apply_patch_switch parse patch _ _ OpencodeZen Hpatch) as Hsw.
  apply (apply_patch_kept parse) in Hpatch as (Hz1 & _ & Hf1); [|by split_and!]. set (q := if _ && _ then _ else _).
  assert (fits q ∧ zen_due q = false ∧ switch_of (settings q) OpencodeZen = switch_of (settings p1) OpencodeZen) as (Hqf & Hqz & Hqs).
  { assert (fits (normalize_active_provider p1).1) as H2 by (destruct (normalize_spec p1) as [[-> _]|(k & -> & _ & _)]; exact Hf1).
    pose proof (normalize_zen p1 Hz1). rewrite <- (normalize_switch p1). unfold q. by destruct (_ && _). }
  clearbody q. unfold save_persisted. destruct (written io) as [[]|e]; [|cbn [snd]; by rewrite Hi].
  unfold index. simpl. rewrite load_saved by done. unfold zen_off. cbn [fst]. rewrite settle_switch, Hqs, Hsw by done.
  destruct Hseen as [H1 H2]. destruct (pt_provider_enabled patch) as [[kind []]|]; [| |done]; case_decide; subst; done.
Qed.

(** A step without the operator asking for OpenCode Zen: the settings are read, or there is no
    secret of it that a sweep could find; and secrets do not turn up in the storage by themselves. *)
Definition unasked (io : Io) (cmd : Command) (st : State) : Prop :=
  match cmd with
  | Reach s => ∀ k, sec_holds k s → sec_holds k (secrets st)
  | Restart _ => True
  | _ => asks_for_zen cmd = false ∧ (opened io = true ∨ no_zen (secrets st))
  end.

Fixpoint all_unasked (cmds : list (Io * Command)) (st : State) : Prop :=
  match cmds with
  | [] => True
  | (io, cmd) :: cmds => unasked io cmd st ∧ all_unasked cmds (exec io cmd st)
  end.

Lemma exec_off io cmd st :
  unasked io cmd st → zen_off (index st) (secrets st) → zen_off (index (exec io cmd st)) (secrets (exec io cmd st)).
Proof.
  intros Hcmd Ho. destruct cmd as [kind|kind c|kind|patch|found|s]; simpl in *.
  - by apply read_off; [apply Hcmd|].
  - destruct Hcmd as [Hk%bool_decide_eq_false Hop]. by apply write_off.
  - by apply clear_off; [apply Hcmd|].
  - by apply patch_off; [apply Hcmd..|].
  - exact Ho.
  - eapply (zen_off_shrinks _ (secrets st)); [|exact Ho]. intros Hn Hs. by apply Hn, Hcmd.
Qed.

(** C4: OpenCode Zen is never asked behind the operator's back: from an install that has it
    switched off, or undecided with no secret of it in the storage, whatever is read, stored for
    other providers, cleared, changed in the settings or migrated at a restart, in any order,
    while writes of the disk fail and the secret storage comes and goes, a request to Zen is
    refused as switched off before a credential, or the public key, is looked up, whatever of
    the settings that request can read, until the operator switches Zen on or signs in to it.
    The condition is on the reads of the settings file: each of the steps reads it, if it is
    there, or no secret of Zen lies in the storage ([unread_settings_reenable_zen] is what
    happens otherwise). *)
Theorem zen_stays_off (cmds : list (Io * Command)) (st : State) (io : Io) :
  zen_off (index st) (secrets st) → all_unasked cmds st →
  let st' := exec_all st cmds in
  let s := settings (load io st').1 in
  resolve_credential io OpencodeZen s st' = (Err (disabled_text OpencodeZen), st')
  ∧ (active_provider s = OpencodeZen → ∀ k, is_provider_enabled s k = false).
Proof.
  intros Ho Hc st' s. assert (zen_off (index st') (secrets st')) as [H1 _].
  { unfold st'. clear s st' io. revert st Ho Hc. induction cmds as [|[io cmd] cmds IH]; intros st Ho Hc; [done|].
    destruct Hc as [Hcmd Hc]. simpl. apply IH; [by apply exec_off|done]. }
  assert (s = settings (seen io st')) as Hs by (unfold s; by rewrite (proj1 (load_spec io st'))). rewrite Hs. clear s Hs.
  assert (is_provider_enabled (settings (seen io st')) OpencodeZen = false) as He.
  { rewrite is_provider_enabled_switch. destruct (seen_cases io st') as [-> | ->]; [|done].
    destruct (switch_of _ OpencodeZen) as [[]|]; done. }
  split; [unfold resolve_credential, ensure_enabled; by rewrite He|]. intros Ha.
  destruct (seen_settled io st') as [[_ _ [Hx|Hx]] _]; [by rewrite Ha, He in Hx|done].
Qed.
End Credentials.

(** ** On concrete installs *)
Module Samples.
Definition kind_text (c : Credential) : str := match c with ApiKey k => k | OAuth _ _ _ _ => [] end.

Definition text_kind (s : str) : option Credential := Some (ApiKey s).

#[global] Instance chain : SecretStore Keychain := keyring_store Secrets.Samples.written_text Secrets.Samples.read_text.

#[global] Instance chain_laws : SecretLaws Keychain keychain_up.
Proof. apply keyring_laws, Secrets.Samples.text_ok. Qed.

Definition io : Io := {| opened := true; copied := true; Credentials.written := Ok () |}.

(** The settings file cannot be read. *)
Definition unread : Io := {| opened := false; copied := true; Credentials.written := Ok () |}.

Definition up : KeyCall → option SecretError := λ _, None.

Definition down : KeyCall → option SecretError := λ _, Some (Unavailable (lit "no keychain")).

(** A new install. *)
Definition fresh : State :=
  {| disk := {| file := None; backup := None |}; secrets := {| passwords := ∅; failure := up |}; cache := ∅; available := true |}.

(** An operator who allows the key into the file, on a system without a keychain. *)
Definition no_keychain : State :=
  {| disk := {| file := Some (Some (ser {| settings := {| active_provider := OpenAI; providers := ∅; default_model := None;
                  default_approval_mode := ApprovePerWrite; system_prompt_override := None; allow_plaintext_api_key := true;
                  mcp_servers := []; mcp_binary_path := None; reasoning := no_settings; provider_reasoning := ∅ |};
                plaintext_credentials := {[Groq := lit "gsk"]}; configured_providers := {[Groq]}; keychain_index_initialized := true |}));
            backup := None |};
     secrets := {| passwords := ∅; failure := down |}; cache := ∅; available := false |}.

Definition no_plaintext : AiSettingsPatch :=
  {| pt_active_provider := None; pt_base_url := None; pt_custom_models := None; pt_provider_enabled := None; pt_default_model := None;
     pt_approval_mode := None; pt_system_prompt := None; pt_allow_plaintext := Some false; pt_mcp_servers := None;
     pt_mcp_binary_path := None; pt_provider_reasoning := None |}.

Definition no_url (s : str) : result Url str := Err s.

Definition run (st : State) (cmds : list (Command (T := Keychain))) : State :=
  exec_all kind_text text_kind no_url (λ _ _, None) st (pair io <$> cmds).
End Samples.

Import Samples.

(** The key that an operator withdrew from the file still answers requests, out of the cache,
    until the application is started again. *)
Lemma withdrawn_key_served :
  let st := run no_keychain [Read Groq; Patch no_plaintext] in
  plaintext_credentials (index kind_text st) !! Groq = None
  ∧ (read_credential kind_text text_kind io Groq st).1 = Some (ApiKey (lit "gsk"))
  ∧ (read_credential kind_text text_kind io Groq (run st [Restart false])).1 = None.
Proof. vm_compute. done. Qed.

Lemma written_is_read_witness :
  let cred := ApiKey (lit "gsk-2") in
  ∃ st', write_credential kind_text io Groq cred fresh = (Ok (), st')
    ∧ (read_credential kind_text text_kind io Groq (restart st')).1 = Some cred.
Proof.
  destruct (written_is_read kind_text text_kind keychain_up io io Groq (ApiKey (lit "gsk-2")) fresh)
    as (st' & Hw & _ & Hr & _); try done. by exists st'.
Defined.

Lemma cleared_is_gone_witness :
  let st := run fresh [Write Groq (ApiKey (lit "gsk")); Write Mistral (ApiKey (lit "m"))] in
  (read_credential kind_text text_kind io Groq st).1 = Some (ApiKey (lit "gsk"))
  ∧ ∃ st', clear_credential kind_text io Groq st = (Ok (), st')
    ∧ (read_credential kind_text text_kind io Groq (restart st')).1 = None
    ∧ stored kind_text text_kind Mistral st' = Some (ApiKey (lit "m")).
Proof.
  intros st. split; [vm_compute; reflexivity|].
  destruct (cleared_is_gone kind_text text_kind keychain_up io io Groq st) as (st' & Hc & _ & Hr & _ & _ & Ho);
    [done|done|done|vm_compute; reflexivity|intros q; vm_compute; reflexivity|].
  exists st'. split_and!; [exact Hc|exact Hr|]. destruct (Ho Mistral) as [-> _]; [done|]. vm_compute. reflexivity.
Defined.

(** An operator who has switched OpenCode Zen off, and whose key for it is still in the keychain. *)
Definition switched_off : State :=
  {| disk := {| file := Some (Some (ser {| settings := {| active_provider := Groq;
                  providers := {[OpencodeZen := {| base_url := None; custom_models := []; cfg_enabled := Some false |}]};
                  default_model := None; default_approval_mode := ApprovePerWrite; system_prompt_override := None;
                  allow_plaintext_api_key := false; mcp_servers := []; mcp_binary_path := None; reasoning := no_settings;
                  provider_reasoning := ∅ |};
                plaintext_credentials := ∅; configured_providers := {[Groq; OpencodeZen]}; keychain_index_initialized := true |}));
            backup := None |};
     secrets := {| passwords := {[account_for OpencodeZen := lit "zen-key"]}; failure := up |}; cache := ∅; available := true |}.

(** One read of the settings that fails, while a credential is looked up, is enough: the defaults
    are swept, the sweep finds the key, the result replaces the file, and the migration of older
    installs takes the provider for one in use. *)
Lemma unread_settings_reenable_zen :
  let ask st := (resolve_credential kind_text text_kind io OpencodeZen (settings (index kind_text st)) st).1 in
  let st := exec_all kind_text text_kind no_url (λ _ _, None) switched_off [(unread, Read Groq)] in
  zen_off (index kind_text switched_off) (secrets switched_off)
  ∧ ask switched_off = Err (disabled_text OpencodeZen)
  ∧ ask st = Ok (ApiKey (lit "zen-key")).
Proof.
  assert (switch_of (settings (index kind_text switched_off)) OpencodeZen = Some false) as Hs by (vm_compute; reflexivity).
  split; [unfold zen_off; rewrite Hs; split; [intros [=]|intros [=]]|]. split; vm_compute; reflexivity.
Qed.

Lemma zen_stays_off_witness :
  let cmds : list (Io * Command) :=
    [(unread, Read OpencodeZen); (io, Write Groq (ApiKey (lit "gsk"))); (io, Reach {| passwords := ∅; failure := down |});
     (unread, Patch no_plaintext); (io, Clear Groq); (io, Restart true)] in
  let st := exec_all kind_text text_kind no_url (λ _ _, None) fresh cmds in
  (resolve_credential kind_text text_kind io OpencodeZen (settings (load kind_text io st).1) st).1
  = Err (disabled_text OpencodeZen).
Proof.
  intros cmds st. assert (zen_off (index kind_text fresh) (secrets fresh)) as H by (split; [done|by intros _ []]).
  assert (∀ s : Keychain, passwords s !! account_for OpencodeZen = None → no_zen s) as Hn
    by (intros s Hs [c Hc]; congruence).
  assert (all_unasked kind_text text_kind no_url (λ _ _, None) cmds fresh) as Hc.
  { unfold cmds. split; [split; [done|right; by apply Hn]|]. split; [split; [done|by left]|].
    split; [intros k [c Hk]; simpl in Hk; by rewrite lookup_empty in Hk|].
    split; [split; [done|right; by apply Hn]|]. split; [split; [done|by left]|]. by split. }
  exact (f_equal fst (proj1 (zen_stays_off kind_text text_kind keychain_up no_url (λ _ _, None) cmds fresh io H Hc))).
Defined.
