(* ===== verification/Codex.v ===== *)
(** * The Codex provider (agent/src/provider/openai_codex.rs)

    The Responses wire of a ChatGPT sign-in: the items of a request ([build_input]), its
    body, the tokens with their refresh and the one retry ([stream_completion]), and the
    accumulation of a stream ([ResponsesState]).

    serde_json's reading of an event and of the tokens, the clock, and which texts a header
    can carry (the http crate) are arguments, as are the answers of the two servers to the
    first and the second exchange.  One request runs at a time over the tokens, as each turn
    builds its own provider. *)

From S2P Require Import Prelude Json Transcript Classify Session Providers Completion Catalogue Settings.

Definition CLIENT_ID : str := lit "app_EMoamEEZ73f0CkXaXp7hrann".

Definition ISSUER : str := lit "https://auth.openai.com".

Definition ORIGINATOR : str := lit "ferrisscope".

(** ** The tokens *)

Record OauthState : Set := {
  access : str; refresh_token : str; expires_at_unix_ms : Z; account_id : option str;
}.

Definition new (cred : Credential) : OauthState :=
  match cred with
  | OAuth access refresh expires account =>
      {| access := access; refresh_token := refresh; expires_at_unix_ms := expires; account_id := account |}
  | ApiKey key => {| access := key; refresh_token := []; expires_at_unix_ms := 0; account_id := None |}
  end.

(** The credential that the sink gets. *)
Definition credential_of (o : OauthState) : Credential :=
  OAuth (access o) (refresh_token o) (expires_at_unix_ms o) (account_id o).

Definition auth_headers (header_value : str → bool) (user_agent : str) (session_id : option str) (o : OauthState) :
    list (str * str) :=
  let insert k v := if header_value v then [(lit k, v)] else [] in
  insert "authorization" (lit "Bearer " ++ access o)
  ++ match account_id o with Some account => insert "ChatGPT-Account-Id" account | None => [] end
  ++ [(lit "originator", ORIGINATOR)]
  ++ insert "user-agent" user_agent
  ++ match session_id with Some sid => insert "session_id" sid | None => [] end.

Record TokenResp : Set := { access_token : str; new_refresh_token : option str; expires_in : option N }.

Definition refresh_body (token : str) : str :=
  lit "grant_type=refresh_token&refresh_token=" ++ token ++ lit "&client_id=" ++ CLIENT_ID.

(** [u32::try_from(expires_in.unwrap_or(3600)).unwrap_or(3600)] *)
Definition lifetime (expires_in : option N) : N :=
  let n := default 3600%N expires_in in if (n <=? u32_max)%N then n else 3600%N.

Definition rotate (tokens : TokenResp) (now : Z) (o : OauthState) : OauthState :=
  {| access := access_token tokens;
     refresh_token := default (refresh_token o) (new_refresh_token tokens);
     expires_at_unix_ms := (now + Z.of_N (lifetime (expires_in tokens)) * 1000)%Z;
     account_id := account_id o |}.

(** [issuer] answers a body posted to [ISSUER/oauth/token].  The result is the state after a
    refresh that worked. *)
Definition refresh (issuer : str → result Response str) (decode : str → result TokenResp str) (now : Z)
    (o : OauthState) : result OauthState ProviderError :=
  if bool_decide (refresh_token o = []) then Err (Auth (lit "no refresh token; sign in again"))
  else match issuer (refresh_body (refresh_token o)) with
       | Err e => Err (Classify.transport e)
       | Ok r =>
           if is_success r then
             match decode (body_text r) with
             | Ok tokens => Ok (rotate tokens now o)
             | Err e => Err (Decode e)
             end
           else Err (Auth (lit "refresh failed: " ++ body_text r))
       end.

(** ** The request *)

Definition input_text (s : str) : Json :=
  obj [("type"%string, String_ (lit "input_text")); ("text"%string, String_ s)].

Definition input_image (img : ImageAttachment) : Json :=
  obj [("type"%string, String_ (lit "input_image")); ("image_url"%string, String_ (data_uri img))].

Definition user_input_content (m : ChatMessage) (supports_vision : bool) : list Json :=
  if supports_vision && negb (bool_decide (images m = [])) then
    (if bool_decide (content m = []) then [] else [input_text (content m)]) ++ (input_image <$> images m)
  else
    [input_text (if bool_decide (images m = []) then content m
                 else dropped_images_note (content m) (length (images m)))].

Definition call_item (tc : ToolCall) : Json :=
  obj [("type"%string, String_ (lit "function_call")); ("call_id"%string, String_ (tc_id tc));
       ("name"%string, String_ (tc_name tc)); ("arguments"%string, String_ (arguments tc))].

Definition output_item (id output : str) : Json :=
  obj [("type"%string, String_ (lit "function_call_output")); ("call_id"%string, String_ id);
       ("output"%string, String_ output)].

Definition assistant_item (text : str) : Json :=
  obj [("role"%string, String_ (lit "assistant"));
       ("content"%string, Array [obj [("type"%string, String_ (lit "output_text")); ("text"%string, String_ text)]])].

(** What the loop of [build_input] pushes for a message. *)
Definition items_of (supports_vision : bool) (m : ChatMessage) : list Json :=
  match role m with
  | System => []
  | User => [obj [("role"%string, String_ (lit "user")); ("content"%string, Array (user_input_content m supports_vision))]]
  | Assistant =>
      (if bool_decide (content m = []) then [] else [assistant_item (content m)]) ++ (call_item <$> tool_calls m)
  | Tool => [output_item (default [] (tool_call_id m)) (content m)]
  end.

Definition instruction_of (m : ChatMessage) : list str :=
  if bool_decide (role m = System) && negb (bool_decide (content m = [])) then [content m] else [].

Definition build_input (l : list ChatMessage) (supports_vision : bool) : str * list Json :=
  (join [LF; LF] (l ≫= instruction_of), l ≫= items_of supports_vision).

Definition tool_item (t : ToolSchema) : Json :=
  obj [("type"%string, String_ (lit "function")); ("name"%string, String_ (schema_name t));
       ("description"%string, String_ (description t)); ("parameters"%string, parameters t);
       ("strict"%string, Bool false)].

Definition build_request_body (caps : option ModelCapabilities) (req : CompletionRequest) (instructions : str)
    (input : list Json) : Json :=
  let supports_temperature := allowed cap_temperature caps in
  let body := obj [("model"%string, String_ (model req)); ("input"%string, Array input);
                   ("stream"%string, Bool true); ("store"%string, Bool false)] in
  let body := set_when (negb (bool_decide (instructions = []))) "instructions" (String_ instructions) body in
  let body := if supports_temperature then set_some "temperature" (Json.Number <$> temperature req) body else body in
  let body := set_some "max_output_tokens" (nat_json <$> max_tokens req) body in
  let body := set_when (negb (bool_decide (tools req = []))) "tools" (Array (tool_item <$> tools req)) body in
  let body := match provider_options req with Some opts => merge_top_level body opts | None => body end in
  if supports_temperature then body else remove_key "temperature" body.

(** ** The stream *)

(** The texts at a key; a value that is no text has none. *)
Definition text_of_key (k : string) (v : Json) : option str := x ← get k v; as_str x.

Definition codex_stream_error (v : Json) : option ProviderError :=
  let response := get "response" v in
  let candidates :=
    [r ← response; get "error" r;
     r ← response; d ← get "status_details" r; get "error" d;
     get "error" v] in
  err ← head (omap (λ c, c) candidates);
  let code := text_of_key "code" err in
  let message := match text_of_key "message" err with Some m => Some m | None => text_of_key "message" v end in
  match code, message with
  | Some c, Some m => Some (Http None (c ++ lit ": " ++ m))
  | Some c, None => Some (Http None c)
  | None, Some m => Some (Http None m)
  | None, None => None
  end.

Record ToolAccum : Set := { call_id : str; name : str; a_arguments : str; started : bool }.

Definition no_accum : ToolAccum := {| call_id := []; name := []; a_arguments := []; started := false |}.

Record ResponsesState : Set := {
  accums : gmap N ToolAccum; s_finish : FinishReason; s_usage : option TokenUsage;
}.

Definition new_state : ResponsesState := {| accums := ∅; s_finish := Stop; s_usage := None |}.

Definition put (i : N) (e : ToolAccum) (s : ResponsesState) : ResponsesState :=
  {| accums := <[i := e]> (accums s); s_finish := s_finish s; s_usage := s_usage s |}.

Definition set_finish (f : FinishReason) (s : ResponsesState) : ResponsesState :=
  {| accums := accums s; s_finish := f; s_usage := s_usage s |}.

Definition nonempty (s : str) : bool := negb (bool_decide (s = [])).

(** [v.get("output_index").and_then(as_u64).unwrap_or(0) as u32] *)
Definition output_index (v : Json) : N := as_u32 (default 0%N (x ← get "output_index" v; as_u64 x)).

Definition is_call_item (v : Json) : bool :=
  bool_decide ((item ← get "item" v; text_of_key "type" item) = Some (lit "function_call")).

Definition item_text (k : string) (v : Json) : str := default [] (item ← get "item" v; text_of_key k item).

(** What the handlers do to the entry of their index. *)
Definition add_item (v : Json) (e : ToolAccum) : ToolAccum * list CompletionEvent :=
  let id := item_text "call_id" v in
  let n := item_text "name" v in
  let start := nonempty id && nonempty n && negb (started e) in
  ({| call_id := id; name := n; a_arguments := a_arguments e; started := started e || start |},
   if start then [ToolCallStart id n] else []).

Definition add_args (v : Json) (e : ToolAccum) : ToolAccum * list CompletionEvent :=
  match text_of_key "delta" v with
  | Some delta =>
      if nonempty delta then
        ({| call_id := call_id e; name := name e; a_arguments := a_arguments e ++ delta; started := started e |},
         if started e then [ToolCallArgsDelta (call_id e) delta] else [])
      else (e, [])
  | None => (e, [])
  end.

Definition on_item_added (v : Json) (s : ResponsesState) : ResponsesState * list CompletionEvent :=
  if is_call_item v then
    let i := output_index v in
    let '(e, out) := add_item v (default no_accum (accums s !! i)) in (put i e s, out)
  else (s, []).

Definition on_text_delta (v : Json) : list CompletionEvent :=
  match text_of_key "delta" v with
  | Some delta => if nonempty delta then [TokenDelta delta] else []
  | None => []
  end.

Definition on_args_delta (v : Json) (s : ResponsesState) : ResponsesState * list CompletionEvent :=
  let i := output_index v in
  let '(e, out) := add_args v (default no_accum (accums s !! i)) in (put i e s, out).

Definition on_args_done (v : Json) (s : ResponsesState) : list CompletionEvent :=
  match accums s !! output_index v with
  | Some e => if started e then [ToolCallEnd (call_id e)] else []
  | None => []
  end.

(** [x.as_u64() as u32], saturating [total] *)
Definition count (k : string) (v : Json) : option N := x ← get k v; as_u32 <$> as_u64 x.

Definition usage_of (raw : Json) : option TokenUsage :=
  let input := default 0%N (count "input_tokens" raw) in
  let output := default 0%N (count "output_tokens" raw) in
  let total := default (clamp_u32 (input + output)) (count "total_tokens" raw) in
  if ((input =? 0) && (output =? 0) && (total =? 0))%N then None
  else Some {| prompt_tokens := input; completion_tokens := output; total_tokens := total |}.

(** The readings of an event, in the order in which they are looked at. *)
Definition readings (v : Json) : list TokenUsage :=
  omap (λ c, raw ← c; usage_of raw) [r ← get "response" v; get "usage" r; get "usage" v].

Definition harvest_usage (v : Json) (s : ResponsesState) : ResponsesState :=
  foldl (λ s u, {| accums := accums s; s_finish := s_finish s; s_usage := Some u |}) s (readings v).

Definition on_completed (v : Json) (s : ResponsesState) : ResponsesState :=
  let s := match (r ← get "response" v; text_of_key "status" r) with
           | Some reason =>
               set_finish (if negb (bool_decide (accums s = ∅)) then ToolCalls
                           else if decide (reason = lit "completed") then Stop else Other) s
           | None => s
           end in
  harvest_usage v s.

Definition call_of (e : ToolAccum) : option ToolCall :=
  if nonempty (call_id e) && nonempty (name e)
  then Some {| tc_id := call_id e; tc_name := name e;
               arguments := if bool_decide (a_arguments e = []) then lit "{}" else a_arguments e;
               thought_signature := None |}
  else None.

Definition into_tool_calls (s : ResponsesState) : list ToolCall := omap (λ p, call_of p.2) (in_order (accums s)).

(** The events the loop knows, by their [type]. *)
Inductive Kind : Set := ItemAdded | TextDelta | ArgsDelta | ArgsDone | ResponseCompleted | ResponseFailed | ErrorEvent | Ignored.

#[global] Instance Kind_eq_dec : EqDecision Kind.
Proof. solve_decision. Defined.

Definition kind_of (v : Json) : Kind :=
  let k := default [] (text_of_key "type" v) in
  if decide (k = lit "response.output_item.added") then ItemAdded
  else if decide (k = lit "response.output_text.delta") then TextDelta
  else if decide (k = lit "response.function_call_arguments.delta") then ArgsDelta
  else if decide (k = lit "response.function_call_arguments.done") then ArgsDone
  else if decide (k = lit "response.completed") then ResponseCompleted
  else if decide (k = lit "response.failed" ∨ k = lit "response.cancelled") then ResponseFailed
  else if decide (k = lit "error") then ErrorEvent
  else Ignored.

(** An event goes on, ends the loop, or fails. *)
Inductive Flow : Type :=
  | Continue (s : ResponsesState) (out : list CompletionEvent)
  | Break (s : ResponsesState)
  | Fail (e : ProviderError).

Definition on_event (v : Json) (s : ResponsesState) : Flow :=
  let s := harvest_usage v s in
  match kind_of v with
  | ItemAdded => let '(s, out) := on_item_added v s in Continue s out
  | TextDelta => Continue s (on_text_delta v)
  | ArgsDelta => let '(s, out) := on_args_delta v s in Continue s out
  | ArgsDone => Continue s (on_args_done v s)
  | ResponseCompleted => Break (on_completed v s)
  | ResponseFailed =>
      match codex_stream_error v with Some err => Fail err | None => Break (set_finish Other s) end
  | ErrorEvent => match codex_stream_error v with Some err => Fail err | None => Continue s [] end
  | Ignored => Continue s []
  end.

Definition finished (s : ResponsesState) (out : list CompletionEvent) : Streamed :=
  {| events := out;
     outcome := Ok {| finish_reason := s_finish s; final_calls := into_tool_calls s; usage := s_usage s;
                      final_reasoning := None; final_thinking := [] |} |}.

Section Stream.
Context (from_str : str → option Json).

Fixpoint read_from (s : ResponsesState) (out : list CompletionEvent) (cs : list (result str ProviderError)) : Streamed :=
  match cs with
  | [] => finished s out
  | Err e :: _ => {| events := out; outcome := Err e |}
  | Ok data :: cs =>
      if bool_decide (trim data = []) then read_from s out cs
      else match from_str data with
           | None => read_from s out cs
           | Some v =>
               match on_event v s with
               | Continue s' evs => read_from s' (out ++ evs) cs
               | Break s' => finished s' out
               | Fail e => {| events := out; outcome := Err e |}
               end
           end
  end.

Definition read_stream : list (result str ProviderError) → Streamed := read_from new_state [].
End Stream.

(** ** A completion *)

(** What the outside answers: the issuer and the endpoint to their first and second exchange. *)
Record Outside : Type := {
  clock : nat → Z;
  issuer : nat → str → result Response str;
  endpoint : nat → list (str * str) → Json → result Response str;
}.

(** What a completion leaves: the tokens, the credentials the sink got, the requests sent,
    each with its headers. *)
Record Completed : Type := {
  after : OauthState; reported : list Credential; sent : list (list (str * str) * Json); streamed : Streamed;
}.

Section Provider.
Context (header_value : str → bool) (user_agent : str) (session_id : option str).
Context (decode : str → result TokenResp str) (eventsource : Eventsource) (from_str : str → option Json).
Context (slot : option Catalogue) (w : Outside).

Definition headers (o : OauthState) : list (str * str) := auth_headers header_value user_agent session_id o.

(** Within a minute of its end, a token is refreshed beforehand; a refresh that fails is ignored. *)
Definition proactive (o : OauthState) : OauthState * list Credential :=
  if negb (bool_decide (expires_at_unix_ms o = 0%Z)) && (expires_at_unix_ms o <=? clock w 0 + 60000)%Z then
    match refresh (issuer w 0) decode (clock w 1) o with
    | Ok o => (o, [credential_of o])
    | Err _ => (o, [])
    end
  else (o, []).

Definition UNAUTHORIZED : N := 401.

(** What becomes of the response that counts. *)
Definition answer (resp : result Response str) : Streamed :=
  exchange eventsource resp (read_stream from_str).

Definition failed (e : ProviderError) : Streamed := {| events := []; outcome := Err e |}.

Definition stream_completion (o : OauthState) (req : CompletionRequest) : Completed :=
  let '(o, told) := proactive o in
  let '(instructions, input) := build_input (messages req) (supports_vision slot OpenAI (model req)) in
  let body := build_request_body (capabilities slot OpenAI (model req)) req instructions input in
  let first := (headers o, body) in
  match endpoint w 0 (headers o) body with
  | Err e => {| after := o; reported := told; sent := [first]; streamed := failed (Classify.transport e) |}
  | Ok r =>
      if (status r =? UNAUTHORIZED)%N then
        match refresh (issuer w 1) decode (clock w 2) o with
        | Err e => {| after := o; reported := told; sent := [first]; streamed := failed e |}
        | Ok o' =>
            {| after := o'; reported := told ++ [credential_of o']; sent := [first; (headers o', body)];
               streamed := answer (endpoint w 1 (headers o') body) |}
        end
      else {| after := o; reported := told; sent := [first]; streamed := answer (Ok r) |}
  end.
End Provider.

(** ** Models *)

Definition codex_models (slot : option Catalogue) : list ModelInfo :=
  let cat := Catalogue.list_models slot OpenAI in
  if bool_decide (cat = []) then
    (λ m, {| info_id := lit m.1; info_name := Some (lit m.2); context_length := None |}) <$> static_models OpenAI
  else cat.

(** ** The tokens, through a completion *)

Section Tokens.
Context (header_value : str → bool) (user_agent : str) (session_id : option str).
Context (decode : str → result TokenResp str) (eventsource : Eventsource) (from_str : str → option Json).
Context (slot : option Catalogue) (w : Outside).

Notation complete := (stream_completion header_value user_agent session_id decode eventsource from_str slot w).

Notation heads := (headers header_value user_agent session_id).

Definition body_of (req : CompletionRequest) : Json :=
  let '(instructions, input) := build_input (messages req) (supports_vision slot OpenAI (model req)) in
  build_request_body (capabilities slot OpenAI (model req)) req instructions input.

(** What OAuth asks of a refresh, apart from the code: the [k]-th exchange with the issuer
    carries the refresh token, and a success with tokens renews them. *)
Definition asked (k : nat) (o : OauthState) : result Response str :=
  issuer w k (lit "grant_type=refresh_token&refresh_token=" ++ refresh_token o ++ lit "&client_id=app_EMoamEEZ73f0CkXaXp7hrann").

Definition renewed (k : nat) (o o' : OauthState) : Prop :=
  refresh_token o ≠ [] ∧ ∃ r t, asked k o = Ok r ∧ is_success r = true ∧ decode (body_text r) = Ok t
  ∧ access o' = access_token t
  ∧ refresh_token o' = match new_refresh_token t with Some token => token | None => refresh_token o end
  ∧ expires_at_unix_ms o' = (clock w (S k) + Z.of_N (lifetime (expires_in t)) * 1000)%Z
  ∧ account_id o' = account_id o.

Definition refused (k : nat) (o : OauthState) (e : ProviderError) : Prop :=
  refresh_token o = [] ∧ e = Auth (lit "no refresh token; sign in again")
  ∨ refresh_token o ≠ [] ∧
    ((∃ x, asked k o = Err x ∧ e = Classify.transport x)
     ∨ ∃ r, asked k o = Ok r ∧
         (is_success r = false ∧ e = Auth (lit "refresh failed: " ++ body_text r)
          ∨ is_success r = true ∧ ∃ x, decode (body_text r) = Err x ∧ e = Decode x)).

Lemma refresh_outcome k o :
  match refresh (issuer w k) decode (clock w (S k)) o with
  | Ok o' => renewed k o o'
  | Err e => refused k o e
  end.
Proof.
  unfold refresh, renewed, refused, asked, refresh_body, CLIENT_ID. case_bool_decide as Ht; [by left|].
  destruct (issuer w k _) as [r|x]; [|right; split; [done|left; by eexists]].
  destruct (is_success r) eqn:Es; [|right; split; [done|right; by eauto]].
  destruct (decode (body_text r)) as [t|x] eqn:Ed; [|right; split; [done|right; by eauto 10]].
  split; [done|]. by exists r, t.
Qed.

(** The tokens run out within a minute. *)
Definition due (o : OauthState) : Prop := expires_at_unix_ms o ≠ 0%Z ∧ (expires_at_unix_ms o <= clock w 0 + 60000)%Z.

Lemma proactive_outcome o :
  match proactive decode w o with
  | (o1, told) =>
      due o ∧ renewed 0 o o1 ∧ told = [credential_of o1]
      ∨ (due o → ∃ e, refused 0 o e) ∧ o1 = o ∧ told = []
  end.
Proof.
  unfold proactive, due. pose proof (refresh_outcome 0 o) as Hr.
  destruct (bool_decide_reflect (expires_at_unix_ms o = 0%Z)) as [Hz|Hz]; simpl; [right; split; [by intros []|done]|].
  destruct (Z.leb_spec (expires_at_unix_ms o) (clock w 0 + 60000)) as [Hle|Hlt]; [|right; split; [lia|done]].
  destruct (refresh _ _ _ o) as [o1|e]; [by left|]. right. by eauto.
Qed.

(** The bearer tokens of a request. *)
Definition bearers (hs : list (str * str)) : list str := (filter (λ h, h.1 = lit "authorization") hs).*2.

Definition carries (o : OauthState) (hs : list (str * str)) : Prop :=
  bearers hs = let t := lit "Bearer " ++ access o in if header_value t then [t] else [].

Lemma headers_carry o : carries o (heads o).
Proof.
  unfold carries, bearers, headers, auth_headers.
  destruct (header_value (lit "Bearer " ++ access o)); destruct (account_id o) as [a|]; destruct session_id as [sid|];
    try destruct (header_value a); try destruct (header_value sid); destruct (header_value user_agent); reflexivity.
Qed.

(** C38: The tokens through a completion, against what OAuth asks. Tokens that run out within a
    minute are refreshed beforehand, and kept when that is refused. The request goes out with
    one bearer, the access token then held (when a header can carry it); on any response but a
    401 that is all, and the response is the answer. On a 401 the tokens are refreshed: when the
    issuer renews them, the same body is sent once more under the new access token and that
    answer counts, a second 401 as an authentication error; when it refuses, the completion
    fails with the reason. Every rotation, and nothing else, is told the sink, in order, with the
    new tokens and their lifetime (the old refresh token when no new one came), so that a
    provider made from the last of them holds what this one holds. *)
Theorem tokens_in_step (o : OauthState) (req : CompletionRequest) :
  let c := complete o req in
  let body := body_of req in
  let told os := (λ o, OAuth (access o) (refresh_token o) (expires_at_unix_ms o) (account_id o)) <$> os in
  after c = default o (last (new <$> reported c))
  ∧ ∃ o1 before hs1,
    (due o ∧ renewed 0 o o1 ∧ before = [o1] ∨ (due o → ∃ e, refused 0 o e) ∧ o1 = o ∧ before = [])
    ∧ carries o1 hs1
    ∧ let reply := endpoint w 0 hs1 body in
      ((∀ r, reply = Ok r → status r ≠ 401%N)
       ∧ sent c = [(hs1, body)] ∧ reported c = told before ∧ after c = o1
       ∧ streamed c = answer eventsource from_str reply)
      ∨ ∃ r, reply = Ok r ∧ status r = 401%N
        ∧ ((∃ o2 hs2, renewed 1 o1 o2 ∧ carries o2 hs2
            ∧ sent c = [(hs1, body); (hs2, body)] ∧ reported c = told (before ++ [o2]) ∧ after c = o2
            ∧ streamed c = answer eventsource from_str (endpoint w 1 hs2 body)
            ∧ ∀ r2, endpoint w 1 hs2 body = Ok r2 → status r2 = 401%N → outcome (streamed c) = Err (Auth (body_text r2)))
           ∨ ∃ e, refused 1 o1 e
            ∧ sent c = [(hs1, body)] ∧ reported c = told before ∧ after c = o1
            ∧ events (streamed c) = [] ∧ outcome (streamed c) = Err e).
Proof.
  intros c body told. unfold c, stream_completion.
  pose proof (proactive_outcome o) as Hp. destruct (proactive decode w o) as [o1 before].
  assert (∃ os, before = told os ∧ default o (last os) = o1
          ∧ (due o ∧ renewed 0 o o1 ∧ os = [o1] ∨ (due o → ∃ e, refused 0 o e) ∧ o1 = o ∧ os = []))
    as (os & -> & Hlast & Ho).
  { destruct Hp as [(Hd & Hr & ->)|(Hd & -> & ->)]; [exists [o1]|exists []]; split_and!; try done; [by left|by right]. }
  assert (∀ os, new <$> told os = os) as Hnew.
  { intros l. unfold told. rewrite <- list_fmap_compose. rewrite <- (list_fmap_id l) at 2. apply list_fmap_ext. by intros _ [] _. }
  unfold body, body_of. destruct (build_input _ _) as [ins input].
  set (bd := build_request_body _ req ins input). clearbody bd. pose proof (refresh_outcome 1 o1) as H2.
  destruct (endpoint w 0 (heads o1) bd) as [r|x] eqn:Er; [destruct (N.eqb_spec (status r) UNAUTHORIZED) as [Hs|Hs]|].
  - destruct (refresh (issuer w 1) decode (clock w 2) o1) as [o2|e]; cbn [after reported sent streamed].
    + split; [rewrite fmap_app, Hnew; csimpl; rewrite last_snoc; by destruct o2|]. exists o1, os, (heads o1).
      split; [done|]. split; [apply headers_carry|]. right. exists r. split; [done|]. split; [done|]. left.
      exists o2, (heads o2). split_and!; try done; [apply headers_carry|unfold told; by rewrite fmap_app|].
      intros r2 E H. unfold answer, exchange. rewrite E. unfold is_success. by rewrite H.
    + split; [by rewrite Hnew|]. exists o1, os, (heads o1). split; [done|]. split; [apply headers_carry|]. right. exists r.
      split; [done|]. split; [done|]. right. by exists e.
  - cbn [after reported sent streamed]. split; [by rewrite Hnew|]. exists o1, os, (heads o1). split; [done|].
    split; [apply headers_carry|]. left. rewrite Er. split_and!; try done; by intros ? [= <-].
  - cbn [after reported sent streamed]. split; [by rewrite Hnew|]. exists o1, os, (heads o1). split; [done|].
    split; [apply headers_carry|]. left. rewrite Er. split_and!; try done; by intros ? [=].
Qed.
End Tokens.

(** ** Calls and outputs of a request

    The items lie flat; an output must stand behind the call it answers, with nothing but
    calls and outputs in between. *)

Definition item_of (type : string) (v : Json) : option str :=
  if bool_decide (get "type" v = Some (String_ (lit type))) then text_of_key "call_id" v else None.

Definition called : Json → option str := item_of "function_call".

Definition put_out : Json → option str := item_of "function_call_output".

(** The calls answered by the outputs that come next, behind the other calls. *)
Fixpoint next_outputs (calling : bool) (l : list Json) : list str :=
  match l with
  | [] => []
  | v :: l =>
      match called v, put_out v with
      | Some _, _ => if calling then next_outputs true l else []
      | None, Some i => i :: next_outputs false l
      | None, None => []
      end
  end.

(** [open] are the calls whose outputs may come. *)
Fixpoint items_paired (calling : bool) (open : list str) (l : list Json) : Prop :=
  match l with
  | [] => True
  | v :: l =>
      match called v, put_out v with
      | Some i, _ => i ∈ next_outputs true l ∧ items_paired true (if calling then i :: open else [i]) l
      | None, Some i => i ∈ open ∧ items_paired false open l
      | None, None => items_paired false [] l
      end
  end.

Lemma called_call tc : called (call_item tc) = Some (tc_id tc).
Proof. reflexivity. Qed.

Lemma called_output i t : called (output_item i t) = None ∧ put_out (output_item i t) = Some i.
Proof. by split. Qed.

Lemma items_paired_open c1 c2 p q l : (c1 = true → c2 = true) → p ⊆ q → items_paired c1 p l → items_paired c2 q l.
Proof.
  revert c1 c2 p q. induction l as [|v l IH]; intros c1 c2 p q Hc Hpq; [done|]. simpl.
  destruct (called v) as [i|]; [|destruct (put_out v) as [i|]].
  - intros [Hi H]. split; [done|]. eapply IH; [done| |exact H]. destruct c1; [rewrite Hc by done|destruct c2]; set_solver.
  - intros [Hi H]. split; [by apply Hpq|]. by eapply IH.
  - by apply IH.
Qed.

Lemma next_outputs_calls tcs l : next_outputs true ((call_item <$> tcs) ++ l) = next_outputs true l.
Proof. induction tcs as [|tc tcs IH]; [done|]. exact IH. Qed.

Lemma items_paired_calls c open tcs l :
  Forall (λ tc, tc_id tc ∈ next_outputs true l) tcs →
  (∀ c' open', (tcs = [] → open' = open) → (tc_id <$> tcs) ⊆ open' → items_paired c' open' l) →
  items_paired c open ((call_item <$> tcs) ++ l).
Proof.
  intros Ht Hl. destruct tcs as [|tc tcs]; [apply Hl; [done|set_solver]|]. assert (∀ c' open', (tc_id <$> tc :: tcs) ⊆ open' → items_paired c' open' l) as Hl'
    by (intros; by apply Hl). clear Hl. revert c open.
  assert (∀ pre tcs, Forall (λ tc, tc_id tc ∈ next_outputs true l) tcs →
    (∀ c' open', pre ++ (tc_id <$> tcs) ⊆ open' → items_paired c' open' l) →
    ∀ open, pre ⊆ open → items_paired true open ((call_item <$> tcs) ++ l)) as Hgo.
  { clear. intros pre tcs Ht. revert pre. induction Ht as [|tc tcs Hi _ IH]; intros pre Hl open Hp.
    - apply Hl. set_solver.
    - cbn [fmap list_fmap app items_paired]. rewrite called_call, next_outputs_calls. split; [done|].
      apply (IH (tc_id tc :: pre)); [|set_solver]. intros c' open' H. apply Hl. set_solver. }
  intros c open. inversion Ht; subst. cbn [fmap list_fmap app items_paired]. rewrite called_call, next_outputs_calls.
  split; [done|]. apply items_paired_open with (c1 := true) (p := [tc_id tc]); [done|destruct c; set_solver|].
  apply (Hgo [tc_id tc]); [done| |done]. intros c' open' H. apply Hl'. set_solver.
Qed.

Lemma next_outputs_run c vision l i :
  i ∈ omap tool_call_id (tool_run l) → i ∈ next_outputs c (l ≫= items_of vision).
Proof.
  revert c. induction l as [|m l IH]; intros c; [by intros ?%not_elem_of_nil|]. simpl. unfold is_tool.
  destruct (role m) eqn:Er; simpl; try by intros ?%not_elem_of_nil.
  unfold items_of at 1. rewrite Er. cbn [app next_outputs]. destruct (called_output (default [] (tool_call_id m)) (content m)) as [-> ->].
  destruct (tool_call_id m) as [j|]; simpl; rewrite ?elem_of_cons; [intros [->|H]; [by left|]|intros H]; right; by apply IH.
Qed.

(** Whatever a model sees of a paired transcript, each function call among the items has
    its output in the run of outputs right behind the calls, and each output belongs to a
    call of the run before it. *)
Theorem items_answered (supports_vision : bool) (l : list ChatMessage) :
  well_paired l → items_paired false [] (build_input l supports_vision).2.
Proof.
  unfold well_paired, build_input. simpl. assert (∀ c allowed open, paired_from allowed l → allowed ⊆ open →
    items_paired c open (l ≫= items_of supports_vision)) as H; [|intros Hl; by apply (H false [] [])].
  induction l as [|m l IH]; intros c allowed open; [done|]. simpl. unfold items_of at 1.
  destruct (role m); intros Hp Ho; simpl.
  - apply (IH c []); [done|set_solver].
  - apply (IH false []); [done|set_solver].
  - destruct Hp as [Hc Hp]. rewrite <- (assoc_L (++)).
    assert (∀ c' open', items_paired c' open' ((call_item <$> tool_calls m) ++ (l ≫= items_of supports_vision))) as Hcalls.
    { intros c' open'. apply items_paired_calls.
      - eapply Forall_impl; [exact Hc|]. intros tc. apply next_outputs_run.
      - intros c'' open'' _ Hsub. by apply (IH c'' (tc_id <$> tool_calls m)). }
    case_bool_decide; [apply Hcalls|]. exact (Hcalls false []).
  - destruct Hp as [(i & -> & Hi) Hp]. split; [set_solver|]. by apply (IH false allowed).
Qed.

(** ** What a stream says *)

(** How a stream ends: by itself, at an event, or in a failure. *)
Inductive Ending : Set := Ran | At (v : Json) | Failed (e : ProviderError).

Definition ending (v : Json) : option Ending :=
  match kind_of v with
  | ResponseCompleted => Some (At v)
  | ResponseFailed => Some match codex_stream_error v with Some err => Failed err | None => At v end
  | ErrorEvent => Failed <$> codex_stream_error v
  | _ => None
  end.

(** What an event does to the entry of its index. *)
Definition upd (o : option ToolAccum) (v : Json) : option ToolAccum * list CompletionEvent :=
  match kind_of v with
  | ItemAdded =>
      if is_call_item v then let '(e, out) := add_item v (default no_accum o) in (Some e, out) else (o, [])
  | ArgsDelta => let '(e, out) := add_args v (default no_accum o) in (Some e, out)
  | ArgsDone => (o, match o with Some e => if started e then [ToolCallEnd (call_id e)] else [] | None => [] end)
  | _ => (o, [])
  end.

Definition text_events (v : Json) : list CompletionEvent :=
  match kind_of v with TextDelta => on_text_delta v | _ => [] end.

Definition step (p : ResponsesState * list CompletionEvent) (v : Json) : ResponsesState * list CompletionEvent :=
  match on_event v p.1 with Continue s evs => (s, p.2 ++ evs) | _ => p end.

Definition last_step (v : Json) (s : ResponsesState) : ResponsesState :=
  match on_event v s with Break s => s | _ => s end.

Lemma harvest_fields v s :
  accums (harvest_usage v s) = accums s ∧ s_finish (harvest_usage v s) = s_finish s
  ∧ s_usage (harvest_usage v s) = match last (readings v) with Some u => Some u | None => s_usage s end.
Proof.
  unfold harvest_usage. induction (readings v) as [|u us IH] using rev_ind; [done|].
  rewrite foldl_snoc, last_snoc. simpl. by destruct IH as (-> & -> & _).
Qed.

Lemma on_event_ending v s :
  match ending v with
  | None => ∃ s' evs, on_event v s = Continue s' evs
  | Some (At _) => on_event v s = Break (last_step v s)
  | Some (Failed e) => on_event v s = Fail e
  | Some Ran => False
  end.
Proof.
  unfold ending, last_step, on_event. destruct (kind_of v); eauto;
    try (destruct (codex_stream_error v); simpl; by eauto).
  - destruct (on_item_added _ _). eauto.
  - destruct (on_args_delta _ _). eauto.
Qed.

(** An event on the entries, as one on the entry of its index. *)
Lemma step_keyed s out evs v :
  ending v = None →
  let k := keyed output_index upd (accums s, evs) v in
  accums (step (s, out) v).1 = k.1
  ∧ ∃ new, k.2 = evs ++ new ∧ (step (s, out) v).2 = out ++ text_events v ++ new
  ∧ s_usage (step (s, out) v).1 = match last (readings v) with Some u => Some u | None => s_usage s end
  ∧ s_finish (step (s, out) v).1 = s_finish s.
Proof.
  assert (∀ m : gmap N ToolAccum, partial_alter (λ _, m !! output_index v) (output_index v) m = m) as Hid
    by (intros m; by apply partial_alter_self).
  assert (∀ (m : gmap N ToolAccum) e, partial_alter (λ _, Some e) (output_index v) m = <[output_index v := e]> m) as Hput by done.
  unfold ending, step, keyed, upd, on_event, text_events. cbn [fst snd]. destruct (harvest_fields v s) as (Ea & Ef & Eu).
  destruct (kind_of v); try done; intros He.
  - unfold on_item_added. rewrite Ea. destruct (is_call_item v); [|rewrite Hid; split; [done|]; eexists; by split_and!].
    destruct (add_item v (default no_accum (accums s !! output_index v))) as [e new] eqn:E. simpl. rewrite Hput, Ea. split; [done|]. exists new. by split_and!.
  - rewrite Hid. simpl. split; [done|]. exists []. rewrite !(right_id_L [] (++)). by split_and!.
  - unfold on_args_delta. rewrite Ea. destruct (add_args v (default no_accum (accums s !! output_index v))) as [e new] eqn:E. simpl. rewrite Hput, Ea. split; [done|].
    exists new. by split_and!.
  - unfold on_args_done. rewrite Ea, Hid. simpl. split; [done|]. eexists. by split_and!.
  - destruct (codex_stream_error v); [done|]. rewrite Hid. split; [done|]. eexists. by split_and!.
  - rewrite Hid. split; [done|]. eexists. by split_and!.
Qed.

Section Reads.
Context (from_str : str → option Json).

(** The events the loop goes on from, and how it ends. *)
Fixpoint said (cs : list (result str ProviderError)) : list Json * Ending :=
  match cs with
  | [] => ([], Ran)
  | Err e :: _ => ([], Failed e)
  | Ok data :: cs =>
      if bool_decide (trim data = []) then said cs
      else match from_str data with
           | None => said cs
           | Some v =>
               match ending v with
               | Some e => ([], e)
               | None => let '(vs, e) := said cs in (v :: vs, e)
               end
           end
  end.

Definition ended (e : Ending) (p : ResponsesState * list CompletionEvent) : Streamed :=
  match e with
  | Ran => finished p.1 p.2
  | At v => finished (last_step v p.1) p.2
  | Failed e => {| events := p.2; outcome := Err e |}
  end.

Lemma read_said s out cs :
  read_from from_str s out cs = let '(vs, e) := said cs in ended e (foldl step (s, out) vs).
Proof.
  revert s out. induction cs as [|[data|e] cs IH]; intros s out; simpl; [done| |done].
  case_bool_decide; [apply IH|]. destruct (from_str data) as [v|]; [|apply IH].
  pose proof (on_event_ending v s) as He. destruct (ending v) as [[|v'|e]|] eqn:Ev.
  - done.
  - assert (v' = v) as ->.
    { unfold ending in Ev. destruct (kind_of v), (codex_stream_error v); by simplify_eq/=. }
    by rewrite He.
  - by rewrite He.
  - destruct He as (s' & evs & He). rewrite He. simpl.
    assert (step (s, out) v = (s', out ++ evs)) as Es by (unfold step; simpl; by rewrite He).
    rewrite IH. destruct (said cs). simpl. by rewrite Es.
Qed.

Definition entries (vs : list Json) : gmap N ToolAccum * list CompletionEvent := foldl (keyed output_index upd) (∅, []) vs.

(** What the events leave behind. *)
Record has_read (vs : list Json) (p : ResponsesState * list CompletionEvent) : Prop := {
  read_accums : accums p.1 = (entries vs).1;
  read_usage : s_usage p.1 = last (vs ≫= readings);
  read_finish : s_finish p.1 = Stop;
  read_calls : ∀ i, filter (about i) p.2 = filter (about i) (entries vs).2;
  read_text : text_of p.2 = concat (text_of ∘ text_events <$> vs);
}.

Lemma upd_no_text o v : text_of (upd o v).2 = [].
Proof.
  unfold upd, add_item, add_args. destruct (kind_of v); try done; simpl.
  - destruct (is_call_item v); [|done]. by destruct (_ && _).
  - destruct (text_of_key "delta" v) as [d|]; [|done]. destruct (nonempty d); [|done]. simpl. by destruct (started _).
  - destruct o as [e|]; [|done]. by destruct (started e).
Qed.

Lemma text_events_about i v : filter (about i) (text_events v) = [].
Proof.
  unfold text_events, on_text_delta. destruct (kind_of v); try done. destruct (text_of_key "delta" v) as [d|]; [|done].
  by destruct (nonempty d).
Qed.

Lemma steps_read vs : (∀ v, v ∈ vs → ending v = None) → has_read vs (foldl step (new_state, []) vs).
Proof.
  induction vs as [|v vs IH] using rev_ind; intros Hv; [by split|]. rewrite foldl_snoc.
  destruct IH as [Ha Hu Hf Hc Ht]; [intros x Hx; apply Hv; set_solver|].
  destruct (foldl step (new_state, []) vs) as [s out]. cbn [fst snd] in *.
  destruct (step_keyed s out (entries vs).2 v) as (Ha' & new & Hk & Ho & Hu' & Hf'); [apply Hv; set_solver|].
  rewrite Ha, <- surjective_pairing in Ha', Hk.
  assert (entries (vs ++ [v]) = keyed output_index upd (entries vs) v) as E by (unfold entries; by rewrite foldl_snoc).
  assert (text_of new = []) as Hn.
  { unfold keyed in Hk. pose proof (upd_no_text ((entries vs).1 !! output_index v) v) as H.
    destruct (upd _ v) as [e out']. simpl in *. by apply app_inv_head in Hk as <-. }
  split.
  - by rewrite E.
  - rewrite Hu', bind_app, Hu. simpl. rewrite (right_id_L [] (++)). by rewrite last_app.
  - by rewrite Hf'.
  - intros i. rewrite Ho, E, Hk, !filter_app, text_events_about, Hc. done.
  - rewrite Ho, !text_of_app, Ht, Hn, fmap_app, concat_app. simpl. by rewrite !(right_id_L [] (++)).
Qed.

Lemma said_ongoing cs v : v ∈ (said cs).1 → ending v = None.
Proof.
  induction cs as [|[data|e] cs IH]; simpl; [by intros ?%not_elem_of_nil| |by intros ?%not_elem_of_nil].
  case_bool_decide; [done|]. destruct (from_str data) as [v'|]; [|done].
  destruct (ending v') eqn:E; [by intros ?%not_elem_of_nil|]. destruct (said cs). simpl in *.
  by intros [->|Hv]%elem_of_cons; [|apply IH].
Qed.

(** ** The calls of a stream that keeps the protocol

    An item of a call is added, its arguments come in pieces, and it is done. *)

Definition touches (v : Json) : Prop :=
  kind_of v = ItemAdded ∧ is_call_item v = true ∨ kind_of v = ArgsDelta ∨ kind_of v = ArgsDone.

#[local] Instance touches_dec v : Decision (touches v).
Proof. unfold touches. apply _. Defined.

Definition opens (v : Json) : Prop :=
  kind_of v = ItemAdded ∧ is_call_item v = true ∧ item_text "call_id" v ≠ [] ∧ item_text "name" v ≠ [].

Definition piece (v : Json) : str := default [] (text_of_key "delta" v).

(** The call that is added, its pieces, its end. *)
Definition whole (l : list Json) (a : Json) (ds : list Json) : Prop :=
  ∃ d, l = a :: ds ++ [d] ∧ opens a ∧ Forall (λ v, kind_of v = ArgsDelta) ds ∧ kind_of d = ArgsDone.

Definition entry_events (vs : list Json) : list Json := filter touches vs.

Notation part i vs := (of_index output_index i (entry_events vs)).

(** The id of the call at an index. *)
Definition id_at (vs : list Json) (i : N) : str :=
  match part i vs with a :: _ => item_text "call_id" a | [] => [] end.

Definition call_indices (vs : list Json) : list N := indices output_index (entry_events vs).

Record conforming (cs : list (result str ProviderError)) : Prop := {
  conf_whole : ∀ i, part i (said cs).1 ≠ [] → ∃ a ds, whole (part i (said cs).1) a ds;
  conf_ids : NoDup (id_at (said cs).1 <$> call_indices (said cs).1);
}.

Lemma upd_untouched o v : ¬ touches v → upd o v = (o, []).
Proof.
  unfold touches, upd. intros H. destruct (kind_of v); try done; try (by destruct H; auto).
  destruct (is_call_item v); [|done]. by destruct H; left.
Qed.

(** The other events say nothing of the calls. *)
Lemma entries_touched vs : entries vs = entries (entry_events vs).
Proof.
  unfold entry_events. induction vs as [|v vs IH] using rev_ind; [done|]. unfold entries in *.
  rewrite foldl_snoc, filter_app, filter_cons, filter_nil. case_decide as H; [by rewrite foldl_snoc, IH|].
  rewrite (right_id_L [] (++)), IH. unfold keyed at 1. rewrite upd_untouched by done.
  rewrite partial_alter_self, (right_id_L [] (++)). symmetry. apply surjective_pairing.
Qed.

Definition accum_of (a : Json) (ds : list Json) : ToolAccum :=
  {| call_id := item_text "call_id" a; name := item_text "name" a; a_arguments := concat (piece <$> ds); started := true |}.

Definition pieces_of (ds : list Json) : list str := filter (λ s, s ≠ []) (piece <$> ds).

Lemma concat_pieces ds : concat (pieces_of ds) = concat (piece <$> ds).
Proof.
  unfold pieces_of. induction (piece <$> ds) as [|[|c s] l IH]; [done| |]; rewrite filter_cons; case_decide; try done.
  exact (f_equal (app (c :: s)) IH).
Qed.

Lemma text_nonempty (s : str) : nonempty s = true ↔ s ≠ [].
Proof. unfold nonempty. rewrite negb_true_iff. apply bool_decide_eq_false. Qed.

Lemma add_args_started v id n args :
  add_args v {| call_id := id; name := n; a_arguments := args; started := true |}
  = ({| call_id := id; name := n; a_arguments := args ++ piece v; started := true |},
     if decide (piece v = []) then [] else [ToolCallArgsDelta id (piece v)]).
Proof.
  unfold add_args, piece. destruct (text_of_key "delta" v) as [[|c d]|]; simpl; by rewrite ?(right_id_L [] (++)).
Qed.

(** A call on its own, up to its end. *)
Lemma alone_pieces a ds :
  opens a → Forall (λ v, kind_of v = ArgsDelta) ds →
  foldl (alone upd) (None, []) (a :: ds)
  = (Some (accum_of a ds),
     ToolCallStart (item_text "call_id" a) (item_text "name" a)
       :: (ToolCallArgsDelta (item_text "call_id" a) <$> pieces_of ds)).
Proof.
  intros (Hk & Hc & Hi & Hn) Hd. apply text_nonempty in Hi, Hn. induction ds as [|d ds IH] using rev_ind.
  - unfold alone, upd, add_item, accum_of. simpl. rewrite Hk, Hc. simpl. by rewrite Hi, Hn.
  - apply Forall_app in Hd as [Hds Hd]. inversion Hd as [|? ? Hkd]; subst. rewrite app_comm_cons, foldl_snoc, IH by done.
    assert (pieces_of (ds ++ [d]) = pieces_of ds ++ if decide (piece d = []) then [] else [piece d]) as ->.
    { unfold pieces_of. rewrite fmap_app, filter_app. f_equal. simpl. rewrite filter_cons, filter_nil.
      destruct (decide (piece d = [])) as [E|E]; [rewrite E|]; by case_decide. }
    unfold alone, upd. cbn [fst snd]. rewrite Hkd. change (default no_accum (Some (accum_of a ds))) with (accum_of a ds).
    unfold accum_of. rewrite add_args_started.
    rewrite !fmap_app, concat_app. cbn. rewrite (right_id_L [] (++) (piece d)). by case_decide.
Qed.

Lemma alone_whole l a ds :
  whole l a ds →
  foldl (alone upd) (None, []) l
  = (Some (accum_of a ds),
     ToolCallStart (item_text "call_id" a) (item_text "name" a)
       :: (ToolCallArgsDelta (item_text "call_id" a) <$> pieces_of ds) ++ [ToolCallEnd (item_text "call_id" a)]).
Proof.
  intros (d & -> & Ha & Hds & Hd). rewrite app_comm_cons, foldl_snoc, alone_pieces by done.
  unfold alone, upd. rewrite Hd. done.
Qed.

Lemma whole_about l a ds v :
  whole l a ds → v ∈ (foldl (alone upd) (None, []) l).2 → about (item_text "call_id" a) v.
Proof.
  intros Hw. rewrite (alone_whole _ _ _ Hw). simpl. rewrite elem_of_cons, elem_of_app, list_elem_of_fmap, list_elem_of_singleton.
  by intros [->|[(s & -> & _)| ->]].
Qed.

(** The call at an index, as its pieces say. *)
Definition call_at (vs : list Json) (i : N) : option ToolCall :=
  match part i vs with
  | [] => None
  | a :: rest => call_of (accum_of a (filter (λ v, kind_of v = ArgsDelta) rest))
  end.

Lemma whole_deltas l a ds rest : whole l a ds → l = a :: rest → filter (λ v, kind_of v = ArgsDelta) rest = ds.
Proof.
  intros (d & -> & _ & Hds & Hd) [= <-]. rewrite filter_app, filter_cons, filter_nil, decide_False by congruence.
  rewrite (right_id_L [] (++)). rewrite Forall_forall in Hds. by apply list_filter_all.
Qed.

Section Conforming.
Context (cs : list (result str ProviderError)) (Hc : conforming cs).

Notation vs := (said cs).1.

Lemma whole_at i : i ∈ call_indices vs → ∃ a ds, whole (part i vs) a ds ∧ id_at vs i = item_text "call_id" a.
Proof.
  intros Hi%indices_elem. destruct (conf_whole _ Hc i Hi) as (a & ds & Hw). exists a, ds. split; [done|].
  destruct Hw as (d & E & _). unfold id_at. by rewrite E.
Qed.

Lemma entry_at i :
  (entries vs).1 !! i = if decide (i ∈ call_indices vs) then Some (default no_accum ((entries vs).1 !! i)) else None.
Proof.
  rewrite entries_touched. unfold entries. rewrite keyed_entry. case_decide as Hi.
  - destruct (whole_at i Hi) as (a & ds & Hw & _). by rewrite (alone_whole _ _ _ Hw).
  - unfold call_indices in Hi. rewrite indices_elem in Hi. apply dec_stable in Hi. by rewrite Hi.
Qed.

Lemma call_entry i :
  i ∈ call_indices vs →
  ∃ a ds, whole (part i vs) a ds ∧ (entries vs).1 !! i = Some (accum_of a ds)
    ∧ call_of (accum_of a ds) = call_at vs i ∧ is_Some (call_at vs i) ∧ id_at vs i = item_text "call_id" a.
Proof.
  intros Hi. destruct (whole_at i Hi) as (a & ds & Hw & Hid). exists a, ds. split; [done|].
  rewrite entries_touched. unfold entries. rewrite keyed_entry, (alone_whole _ _ _ Hw). split; [done|].
  assert (call_of (accum_of a ds) = call_at vs i) as E.
  { unfold call_at. destruct (part i vs) as [|a' rest] eqn:Ep; [by destruct Hw as (d & ? & _)|].
    rewrite (whole_deltas _ a ds rest Hw); destruct Hw as (d & [= <- _] & _); done. }
  split_and!; [done| |done]. rewrite <- E. destruct Hw as (d & _ & (_ & _ & Hi1%text_nonempty & Hi2%text_nonempty) & _).
  unfold call_of, accum_of. simpl. by rewrite Hi1, Hi2.
Qed.

Lemma omap_eq {A B} (f g : A → option B) (l : list A) : (∀ x, x ∈ l → f x = g x) → omap f l = omap g l.
Proof.
  induction l as [|x l IH]; intros H; [done|]. assert (omap f l = omap g l) as E by (apply IH; intros y Hy; apply H; by right).
  simpl. rewrite (H x) by left. destruct (g x); [f_equal|]; exact E.
Qed.

(** The calls of the state are those of the pieces, in the order of their indices. *)
Lemma entries_calls :
  omap (λ p, call_of p.2) (in_order (entries vs).1) = omap (call_at vs) (call_indices vs).
Proof.
  rewrite (in_order_map _ (call_indices vs) (λ i, default no_accum ((entries vs).1 !! i)));
    [|apply indices_sorted|apply entry_at].
  rewrite omap_fmap. apply omap_eq. intros i Hi. destruct (call_entry i Hi) as (a & ds & _ & E & Ec & _).
  rewrite E. exact Ec.
Qed.

Lemma calls_ids : tc_id <$> omap (call_at vs) (call_indices vs) = id_at vs <$> call_indices vs.
Proof.
  pose proof call_entry as H. induction (call_indices vs) as [|i l IH]; [done|].
  assert (tc_id <$> omap (call_at vs) l = id_at vs <$> l) as E by (apply IH; intros j Hj; apply H; by right).
  destruct (H i) as (a & ds & _ & _ & Ec & [tc Hs] & Hid); [left|]. simpl. rewrite Hs in *. simpl. rewrite Hid.
  f_equal; [|exact E]. unfold call_of in Ec. by destruct (_ && _); simplify_eq/=.
Qed.

(** What was announced of a call. *)
Lemma item_events i a ds :
  i ∈ call_indices vs → whole (part i vs) a ds → id_at vs i = item_text "call_id" a →
  filter (about (item_text "call_id" a)) (entries vs).2
  = ToolCallStart (item_text "call_id" a) (item_text "name" a)
      :: (ToolCallArgsDelta (item_text "call_id" a) <$> pieces_of ds) ++ [ToolCallEnd (item_text "call_id" a)].
Proof.
  intros Hi Hw Hid. rewrite entries_touched. unfold entries. rewrite (keyed_events _ _ _ i).
  - rewrite (alone_whole _ _ _ Hw). cbn [snd]. apply list_filter_all. intros v Hv.
    eapply whole_about; [exact Hw|]. by rewrite (alone_whole _ _ _ Hw).
  - intros j pre d post Hj Ej. assert (part j vs ≠ []) as Hne by (rewrite Ej; by destruct pre).
    assert (j ∈ call_indices vs) as Hjin by (by apply indices_elem).
    destruct (whole_at j Hjin) as (b & es & Hwj & Hidj). apply Forall_forall. intros v Hv Habout.
    assert (about (item_text "call_id" b) v) as Hb.
    { eapply whole_about; [exact Hwj|]. rewrite Ej. by apply alone_announces. }
    pose proof (about_inj _ _ _ Habout Hb) as E. rewrite <- Hid, <- Hidj in E. apply Hj.
    pose proof (conf_ids _ Hc) as Hnd. apply list_elem_of_lookup in Hi as (ki & Hki), Hjin as (kj & Hkj).
    rewrite NoDup_alt in Hnd. assert (ki = kj) as ->; [|congruence].
    apply (Hnd ki kj (id_at vs i)); rewrite list_lookup_fmap; [by rewrite Hki|]. rewrite Hkj. simpl. by rewrite E.
Qed.
End Conforming.

(** How a stream is read, in terms of what its events say. *)
Lemma read_stream_said cs fin :
  outcome (read_stream from_str cs) = Ok fin →
  let vs := (said cs).1 in
  (∀ i, filter (about i) (events (read_stream from_str cs)) = filter (about i) (entries vs).2)
  ∧ final_calls fin = omap (λ p, call_of p.2) (in_order (entries vs).1)
  ∧ text_of (events (read_stream from_str cs)) = concat (text_of ∘ text_events <$> vs).
Proof.
  unfold read_stream. rewrite read_said. pose proof (said_ongoing cs) as Hs. destruct (said cs) as [vs e]. cbn [fst] in *.
  destruct (steps_read vs Hs) as [Ha _ _ Hc Ht]. destruct (foldl step _ vs) as [s out]. cbn [fst snd] in *.
  destruct e as [|v|err]; [| |done]; cbn; intros [= <-]; cbn; split_and!; try done; unfold into_tool_calls.
  - by rewrite Ha.
  - assert (accums (last_step v s) = accums s) as ->; [|by rewrite Ha]. unfold last_step, on_event, on_completed.
    destruct (harvest_fields v s) as (E & _). destruct (kind_of v), (codex_stream_error v);
      repeat case_match; simplify_eq/=; try done; by rewrite ?(proj1 (harvest_fields _ _)).
Qed.

#[global] Instance codex_adapter : Adapter conforming (read_stream from_str).
Proof.
  split; intros cs fin Hc (Hev & Hcalls & _)%read_stream_said; rewrite Hcalls, (entries_calls cs Hc).
  - rewrite (calls_ids cs Hc). apply (conf_ids _ Hc).
  - apply Forall_forall. intros tc (i & Hi & E)%list_elem_of_omap.
    destruct (call_entry cs Hc i Hi) as (a & ds & Hw & _ & Ec & _ & Hid). rewrite E in Ec. unfold call_of in Ec.
    destruct (_ && _); [|done]. simplify_eq/=. exists (pieces_of ds). cbn [tc_id tc_name arguments].
    rewrite Hev, (item_events cs Hc i a ds Hi Hw Hid). split; [done|].
    rewrite concat_pieces. case_bool_decide; auto.
Qed.

(** A stream of the protocol gives what it says: each call with the id and the name it was
    added with and all the pieces of its arguments, an empty object for none, in the order of
    the indices; the text in its order; and an error inside the stream is the outcome, with
    what was shown before. *)
Theorem items_assembled (cs : list (result str ProviderError)) :
  conforming cs →
  let vs := (said cs).1 in
  let s := read_stream from_str cs in
  text_of (events s) = concat (text_of ∘ text_events <$> vs)
  ∧ (∀ e, (said cs).2 = Failed e → outcome s = Err e)
  ∧ ((∀ e, (said cs).2 ≠ Failed e) →
       ∃ fin, outcome s = Ok fin
         ∧ final_calls fin = omap (call_at vs) (call_indices vs)
         ∧ Forall (announces (events s)) (final_calls fin)).
Proof.
  intros Hc vs s. assert (∀ e, (said cs).2 = Failed e → outcome s = Err e) as Herr.
  { intros e E. unfold s, read_stream. rewrite read_said. destruct (said cs). simpl in E. by rewrite E. }
  split; [|split; [done|]].
  - unfold s, read_stream. rewrite read_said. unfold vs. pose proof (said_ongoing cs) as Hs.
    destruct (said cs) as [l e]. simpl in *. destruct (steps_read l Hs) as [_ _ _ _ Ht]. by destruct e.
  - intros Hne. assert (∃ fin, outcome s = Ok fin) as [fin Hfin].
    { unfold s, read_stream. rewrite read_said. destruct (said cs) as [l e]. simpl in Hne.
      destruct e as [|v|e]; [by eexists..|by destruct (Hne e)]. }
    exists fin. split; [done|]. destruct (read_stream_said cs fin Hfin) as (_ & Hcalls & _).
    split; [by rewrite Hcalls, entries_calls|]. exact (calls_announced (read := read_stream from_str) cs fin Hc Hfin).
Qed.
End Reads.

(** ** Samples *)

Module Samples.
Definition ev (type : string) (fields : list (string * Json)) : Json := obj (("type"%string, String_ (lit type)) :: fields).

Definition call_ev (i : N) (id name : string) : Json :=
  ev "response.output_item.added"
    [("output_index"%string, nat_json i);
     ("item"%string, obj [("type"%string, String_ (lit "function_call")); ("call_id"%string, String_ (lit id));
                          ("name"%string, String_ (lit name))])].

Definition args_ev (i : N) (delta : string) : Json :=
  ev "response.function_call_arguments.delta" [("output_index"%string, nat_json i); ("delta"%string, String_ (lit delta))].

Definition done_ev (i : N) : Json := ev "response.function_call_arguments.done" [("output_index"%string, nat_json i)].

Definition text_ev (delta : string) : Json := ev "response.output_text.delta" [("delta"%string, String_ (lit delta))].

Definition completed_ev : Json :=
  ev "response.completed" [("response"%string, obj [("status"%string, String_ (lit "completed"));
    ("usage"%string, obj [("input_tokens"%string, nat_json 7); ("output_tokens"%string, nat_json 5)])])].

(** Two calls whose pieces interleave. *)
Definition evs : list Json :=
  [text_ev "look"; call_ev 1 "a" "get"; call_ev 2 "b" "list"; args_ev 1 "{"; done_ev 2; args_ev 1 "}"; done_ev 1;
   completed_ev; text_ev "late"].

Definition from (l : list Json) (s : str) : option Json := i ← parse_uint 100 s; l !! N.to_nat i.

Definition stream (l : list Json) : list (result str ProviderError) := imap (λ i _, Ok (nat_str i)) l.

Example evs_read :
  read_stream (from evs) (stream evs)
  = {| events := [TokenDelta (lit "look"); ToolCallStart (lit "a") (lit "get"); ToolCallStart (lit "b") (lit "list");
                  ToolCallArgsDelta (lit "a") (lit "{"); ToolCallEnd (lit "b"); ToolCallArgsDelta (lit "a") (lit "}");
                  ToolCallEnd (lit "a")];
       outcome := Ok {| finish_reason := ToolCalls;
                        final_calls := [{| tc_id := lit "a"; tc_name := lit "get"; arguments := lit "{}"; thought_signature := None |};
                                        {| tc_id := lit "b"; tc_name := lit "list"; arguments := lit "{}"; thought_signature := None |}];
                        usage := Some {| prompt_tokens := 7; completion_tokens := 5; total_tokens := 12 |};
                        final_reasoning := None; final_thinking := [] |} |}.
Proof. vm_compute. reflexivity. Qed.

(** The bare error event of the API has its code and its message at the top: none of the
    places that are looked at is there, so that the error degrades to an empty turn. *)
Definition bare_error : Json :=
  ev "error" [("code"%string, String_ (lit "insufficient_quota")); ("message"%string, String_ (lit "You exceeded your quota"))].

Lemma bare_error_swallowed :
  codex_stream_error bare_error = None
  ∧ read_stream (from [bare_error]) (stream [bare_error])
    = {| events := [];
         outcome := Ok {| finish_reason := Stop; final_calls := []; usage := None; final_reasoning := None; final_thinking := [] |} |}.
Proof. split; vm_compute; reflexivity. Qed.

(** A refresh whose request fails is no authentication error, against its comment. *)
Definition signed_in : OauthState :=
  {| access := lit "old"; refresh_token := lit "r1"; expires_at_unix_ms := 0; account_id := Some (lit "acct") |}.

Lemma refresh_unreachable_is_transport :
  refresh (λ _, Err (lit "connection refused")) (λ _, Err (lit "no json")) 0 signed_in
  = Err (Http None (lit "connection refused")).
Proof. reflexivity. Qed.

(** Pieces of a call that was never added leave an entry without a name: the completion says
    that it ends in tool calls, and has none. *)
Lemma orphan_pieces_end_in_no_call :
  let l := [args_ev 3 "{}"; completed_ev] in
  match outcome (read_stream (from l) (stream l)) with
  | Ok fin => finish_reason fin = ToolCalls ∧ final_calls fin = []
  | Err _ => False
  end.
Proof. vm_compute. by split. Qed.

Lemma evs_said : said (from evs) (stream evs) = (take 7 evs, At completed_ev).
Proof. vm_compute. reflexivity. Qed.

Lemma evs_conforming : conforming (from evs) (stream evs).
Proof.
  split; rewrite evs_said; cbn [fst]; [|decided].
  assert (entry_events (take 7 evs)
          = [call_ev 1 "a" "get"; call_ev 2 "b" "list"; args_ev 1 "{"; done_ev 2; args_ev 1 "}"; done_ev 1]) as ->
    by (vm_compute; reflexivity).
  intros i Hi. assert (i = 1 ∨ i = 2)%N as [-> | ->].
  { set (l := [call_ev 1 _ _; _; _; _; _; _]) in Hi.
    assert (Forall (λ v, output_index v = 1 ∨ output_index v = 2)%N l) as Hl
      by (repeat (constructor; [vm_compute; auto|]); constructor).
    destruct (of_index output_index i l) as [|v k] eqn:E; [done|].
    assert (v ∈ of_index output_index i l) as [<- Hv]%list_elem_of_filter by (rewrite E; left).
    rewrite Forall_forall in Hl. by apply Hl. }
  - exists (call_ev 1 "a" "get"), [args_ev 1 "{"; args_ev 1 "}"], (done_ev 1). split; [by vm_compute|].
    split; [by repeat split|]. split; [by repeat constructor|done].
  - exists (call_ev 2 "b" "list"), [], (done_ev 2). split; [by vm_compute|]. split; [by repeat split|]. by split.
Qed.

Lemma items_assembled_witness :
  ∃ fin, outcome (read_stream (from evs) (stream evs)) = Ok fin
    ∧ tc_id <$> final_calls fin = [lit "a"; lit "b"]
    ∧ Forall (announces (events (read_stream (from evs) (stream evs)))) (final_calls fin).
Proof.
  destruct (items_assembled (from evs) (stream evs) evs_conforming) as (_ & _ & H).
  destruct H as (fin & Ho & Hf & Ha); [intros e; rewrite evs_said; by intros [=]|]. exists fin.
  split; [exact Ho|]. split; [|exact Ha]. rewrite Hf, evs_said. vm_compute. reflexivity.
Defined.

Lemma items_answered_witness :
  let msg r t calls i := {| role := r; content := lit t; tool_calls := calls; tool_call_id := i; msg_name := None;
                            reasoning_content := None; thinking_blocks := []; images := [] |} in
  let tc i := {| tc_id := lit i; tc_name := lit "get"; arguments := lit "{}"; thought_signature := None |} in
  items_paired false [] (build_input
    [msg System "be brief" [] None; msg User "what runs?" [] None; msg Assistant "" [tc "a"; tc "b"] None;
     msg Tool "pods" [] (Some (lit "b")); msg Tool "nodes" [] (Some (lit "a")); msg Assistant "two" [] None] true).2.
Proof.
  intros msg tc. apply items_answered. unfold well_paired. simpl. split_and!; try done; try decided; eexists; (split; [reflexivity|decided]).
Defined.

(** A token that has run out: the first request is refused, the tokens are refreshed, the
    second is answered, and the sink has the new tokens. *)
Example expired_token_refreshed :
  let w := {| clock := λ _, 1000%Z;
              issuer := λ _ _, Ok {| status := 200; body_text := lit "tokens"; body_chunks := [] |};
              endpoint := λ n hs _,
                if bool_decide ((lit "authorization", lit "Bearer new") ∈ hs)
                then Ok {| status := 200; body_text := []; body_chunks := [] |}
                else Ok {| status := 401; body_text := lit "expired"; body_chunks := [] |} |} in
  let tokens := {| access_token := lit "new"; new_refresh_token := Some (lit "r2"); expires_in := Some 60%N |} in
  let req := {| model := lit "gpt-5.5"; messages := []; tools := []; temperature := None; max_tokens := None; provider_options := None |} in
  let c := stream_completion (λ _, true) (lit "ferrisscope") None (λ _, Ok tokens) (λ _, []) (λ _, None) None w signed_in req in
  length (sent c) = 2
  ∧ reported c = [OAuth (lit "new") (lit "r2") 61000 (Some (lit "acct"))]
  ∧ reported c = [credential_of (after c)]
  ∧ events (streamed c) = [] ∧ (∃ fin, outcome (streamed c) = Ok fin).
Proof. vm_compute. repeat split. by eexists. Qed.
End Samples.
