(* ===== verification/TurnLoop.v ===== *)
(** * The turn loop of a chat

    run_turn_rounds and run_provider_round of app/src/agent/turn.rs with the compaction of
    app/src/agent/compaction.rs, over one chat: its live transcript, its log, the events
    sent to the interface and the requests sent to the provider.

    What the world does in a round is an argument ([Round]): the provider's replies, the
    results of the tools, and what the sends of the operator do in the gaps where the loop
    waits ([operator_sends]): each pushes its message under the lock, and appends it to the
    log some time later, in any gap, or fails to.  The loop's own appends succeed ([Session]
    has the failures).  Nobody aborts the task ([Approvals] has the gate).  A reply's text deltas
    are forwarded as they come; the deltas of its tool calls, which only the interface
    reads, are left out.  The loop takes fuel, one step per provider call; [turn_ends]
    bounds the calls. *)

From Stdlib Require Import SpecFloat.
From S2P Require Import Prelude Utf8 Transcript Classify Session Clip Json Completion Catalogue.

(** ** Messages to and from the outside *)

(** A streamed completion: the text deltas, then how it ends. *)
Record Reply : Set := { deltas : list str; ends : result CompletionFinal ProviderError }.

(** The events of the interface this code sends (ChatEvent of agent/wire.rs). *)
Inductive ChatEvent : Set :=
  | AssistantStart (message_id : str)
  | TokenDelta (delta : str)
  | AssistantEnd (message_id : str) (reason : FinishReason)
  | ToolResultEv (tool_call_id name content : str) (is_error : bool)
  | UsageEv (prompt completion total context_limit usable_context : N)
  | CompactionStarted (tokens_before head_message_count : N)
  | CompactionCompleted (summary_chars : N) (summary : str) (tail : list ChatMessage)
  | TurnState (running : bool)
  | ErrorEv (message : str)
  | Retrying (attempt max : N) (reason : str) (delay_ms : N).

(** The fields of ChatRuntime the loop touches, the log, and what was sent. *)
Record Chat : Set := {
  live : list ChatMessage;
  last_total : N;
  compaction_in_flight : bool;
  in_flight_message_id : option str;
  running : bool;
  log : list SessionEvent;
  channel : list ChatEvent;
  requests : list (list ChatMessage);
  unlogged : list ChatMessage;   (** pushed by a send that has not come to its append *)
}.

Definition with_live (l : list ChatMessage) (c : Chat) : Chat :=
  {| live := l; last_total := last_total c; compaction_in_flight := compaction_in_flight c;
     in_flight_message_id := in_flight_message_id c; running := running c; log := log c;
     channel := channel c; requests := requests c; unlogged := unlogged c |}.

Definition push (m : ChatMessage) (c : Chat) : Chat := with_live (live c ++ [m]) c.

Definition append_log (e : SessionEvent) (c : Chat) : Chat :=
  {| live := live c; last_total := last_total c; compaction_in_flight := compaction_in_flight c;
     in_flight_message_id := in_flight_message_id c; running := running c; log := log c ++ [e];
     channel := channel c; requests := requests c; unlogged := unlogged c |}.

Definition send (e : ChatEvent) (c : Chat) : Chat :=
  {| live := live c; last_total := last_total c; compaction_in_flight := compaction_in_flight c;
     in_flight_message_id := in_flight_message_id c; running := running c; log := log c;
     channel := channel c ++ [e]; requests := requests c; unlogged := unlogged c |}.

Definition set_last_total (n : N) (c : Chat) : Chat :=
  {| live := live c; last_total := n; compaction_in_flight := compaction_in_flight c;
     in_flight_message_id := in_flight_message_id c; running := running c; log := log c;
     channel := channel c; requests := requests c; unlogged := unlogged c |}.

Definition set_in_flight (b : bool) (c : Chat) : Chat :=
  {| live := live c; last_total := last_total c; compaction_in_flight := b;
     in_flight_message_id := in_flight_message_id c; running := running c; log := log c;
     channel := channel c; requests := requests c; unlogged := unlogged c |}.

Definition set_bubble (i : option str) (c : Chat) : Chat :=
  {| live := live c; last_total := last_total c; compaction_in_flight := compaction_in_flight c;
     in_flight_message_id := i; running := running c; log := log c;
     channel := channel c; requests := requests c; unlogged := unlogged c |}.

(** [turn.finish()] *)
Definition finish (c : Chat) : Chat :=
  {| live := live c; last_total := last_total c; compaction_in_flight := compaction_in_flight c;
     in_flight_message_id := in_flight_message_id c; running := false; log := log c;
     channel := channel c; requests := requests c; unlogged := unlogged c |}.

Definition request (l : list ChatMessage) (c : Chat) : Chat :=
  {| live := live c; last_total := last_total c; compaction_in_flight := compaction_in_flight c;
     in_flight_message_id := in_flight_message_id c; running := running c; log := log c;
     channel := channel c; requests := requests c ++ [l]; unlogged := unlogged c |}.

Definition set_unlogged (l : list ChatMessage) (c : Chat) : Chat :=
  {| live := live c; last_total := last_total c; compaction_in_flight := compaction_in_flight c;
     in_flight_message_id := in_flight_message_id c; running := running c; log := log c;
     channel := channel c; requests := requests c; unlogged := l |}.

Definition user_message (content : str) (imgs : list ImageAttachment) : ChatMessage :=
  {| role := User; content := content; tool_calls := []; tool_call_id := None; msg_name := None;
     reasoning_content := None; thinking_blocks := []; images := imgs |}.

Abbreviation Input := (str * list ImageAttachment)%type (only parsing).

(** A step of chat_send_message on a running chat: the push under the lock, or, later, the append
    of the [i]-th of the messages that wait for theirs, and whether it succeeds. *)
Inductive Sending : Set := Pushes (m : Input) | Appends (i : nat) (ok : bool).

Definition operator_step (now : Z) (c : Chat) (a : Sending) : Chat :=
  match a with
  | Pushes m => let u := user_message m.1 m.2 in set_unlogged (unlogged c ++ [u]) (push u c)
  | Appends i ok =>
      match unlogged c !! i with
      | None => c
      | Some u =>
          let c := set_unlogged (delete i (unlogged c)) c in
          if ok then append_log (Message u now) c else c
      end
  end.

Definition operator_sends (now : Z) (acts : list Sending) (c : Chat) : Chat := foldl (operator_step now) c acts.

(** ** Token budgets *)

(** [u32 as f32], [f32 * f32], in IEEE 754 binary32. *)
Definition f32_of_u32 (n : N) : spec_float := binary_normalize 24 128 (Z.of_N n) 0 false.

Definition f32_mul : spec_float → spec_float → spec_float := SFmul 24 128.

(** 0.90f32 *)
Definition COMPACTION_TRIGGER_FRACTION : spec_float := S754_finite false 15099494 (-24).

Definition compaction_trigger (usable : N) : N :=
  float_to_u32 (f32_mul (f32_of_u32 usable) COMPACTION_TRIGGER_FRACTION).

Definition lookup_limits (found : option ModelLimits) (default_context_window : N) : ModelLimits :=
  match found with
  | Some l => l
  | None => {| context := default_context_window; input := default_context_window; output := 8192%N |}
  end.

(** [(context, usable)] *)
Definition context_limits_for (found : option ModelLimits) (default_context_window : N) : N * N :=
  let l := lookup_limits found default_context_window in
  let reserved := N.max (N.min 20000 (N.max (output l) 1)) 2048 in
  (context l, (input l - reserved)%N).

(** The total from which run_compaction_internal compacts on its own. *)
Definition compaction_threshold (found : option ModelLimits) (default_context_window : N) : N :=
  compaction_trigger (context_window found default_context_window - reserved_tokens found).

(** ** Compaction *)

Definition COMPACTION_TAIL_KEEP : nat := 4.

(** The [while] that moves the cut past [Tool] messages. *)
Fixpoint advance_cut (fuel cut : nat) (messages : list ChatMessage) : nat :=
  match fuel with
  | 0 => cut
  | S fuel =>
      match messages !! cut with
      | Some m => if is_tool m then advance_cut fuel (S cut) messages else cut
      | None => cut
      end
  end.

Definition compaction_cut (messages : list ChatMessage) : nat :=
  advance_cut (length messages) (length messages - COMPACTION_TAIL_KEEP) messages.

(** [Vec::split_off] *)
Definition split_off {A} (at_ : nat) (l : list A) : result (list A * list A) Fault :=
  if decide (at_ ≤ length l) then Ok (take at_ l, drop at_ l) else Err Panic.

(** repair_orphan_tool_calls *)
Definition repair (c : Chat) : result Chat Fault :=
  '(l, _) <-? repair_tool_pairs (live c); Ok (with_live l c).

(** The first critical section: [Some (head, head_count)] marks the chat. *)
Definition compaction_begin (force : bool) (threshold : N) (c : Chat) : option (list ChatMessage * nat) :=
  if compaction_in_flight c then None
  else if decide (length (live c) ≤ COMPACTION_TAIL_KEEP + 2) then None
  else if negb force && (last_total c =? 0)%N then None
  else if negb force && (last_total c <? threshold)%N then None
  else let cut := compaction_cut (live c) in Some (take cut (live c), cut).

(** The last one: the head becomes the checkpoint, and the marker is logged with the tail. *)
Definition compaction_replace (now : Z) (head_count : nat) (tokens_before : N) (summary : str) (c : Chat) :
    result (Chat * list ChatMessage) Fault :=
  '(_, tail) <-? split_off head_count (live c);
  let c := with_live (checkpoint summary :: tail) c in
  let c := set_in_flight false (set_last_total 0 c) in
  Ok (append_log (Compaction (N.of_nat head_count) tokens_before summary tail now) c, tail).

(** run_compaction_internal; [queued] is sent while the summary streams. *)
Definition run_compaction (force : bool) (threshold : N) (now : Z) (reply : Reply)
    (queued : list Sending) (c : Chat) : result Chat Fault :=
  match compaction_begin force threshold c with
  | None => Ok c
  | Some (_, head_count) =>
      let tokens_before := last_total c in
      let c := set_in_flight true c in
      let c := send (CompactionStarted tokens_before (N.of_nat head_count)) c in
      let c := operator_sends now queued c in
      match ends reply with
      | Err _ => Ok (set_in_flight false c)
      | Ok _ =>
          let summary := trim (concat_str (deltas reply)) in
          if decide (summary = []) then Ok (set_in_flight false c)
          else
            '(c, tail) <-? compaction_replace now head_count tokens_before summary c;
            c <-? repair c;
            Ok (send (CompactionCompleted (str_len summary) summary tail) c)
      end
  end.

(** ** One round *)

(** Where the loop waits and messages of the operator may land. *)
Inductive Gap : Set :=
  | BeforeCompaction | DuringSummary | BeforeSnapshot | DuringStream | DuringTools
  | BeforeToolLog (i : nat) | DuringForced | DuringBackoff.

Record Round : Type := {
  now : Z;
  arrivals : Gap → list Sending;
  threshold : N;
  limits : N * N;
  summary_reply : Reply;
  forced_reply : Reply;
  reply : Reply;
  message_id : str;
  synthetic_id : str;
  executed : ToolCall → str * bool;
  stored : ToolCall → bool;
  decisions : list (str * ApprovalDecision);
  completed : list nat;
}.

Definition arrive (r : Round) (g : Gap) (c : Chat) : Chat := operator_sends (now r) (arrivals r g) c.

Inductive Outcome : Set :=
  | Continue (assistant_msg : ChatMessage) (reason : FinishReason) (calls : list ToolCall)
  | Stopped
  | RetryAfterCompaction (original_error : str)
  | EmptyTurn
  | UsageLimited
  | TransientFailure (reason original_error : str).

Definition MAX_TOOL_ROUNDS : nat := 500.

Definition MAX_EMPTY_RETRIES : nat := 2.

Definition MAX_TRANSIENT_RETRIES : nat := 5.

Definition MAX_OVERFLOW_RECOVERIES : nat := 2.

Definition fenced (s : str) : str := lit "```text" ++ LF :: s ++ LF :: lit "```".

Definition provider_error_text (s : str) : str :=
  lit "**Provider error.** The request failed before the model could respond."
    ++ LF :: LF :: fenced s.

Definition usage_limit_text (limit_reason s : str) : str :=
  lit "**Usage limit reached.** " ++ limit_reason ++ DOT :: LF :: LF :: fenced s ++ LF :: LF
    :: lit "_Retrying won't help until the limit resets. Wait it out, switch provider or model in the chat header, or check your plan / billing on the provider's dashboard._".

Definition overflow_text (original_error : str) : str :=
  provider_error_text original_error ++ LF :: LF
    :: lit "_Auto-compaction couldn't recover after " ++ nat_str MAX_OVERFLOW_RECOVERIES
    ++ lit " attempts. Try /compact or start a new chat._".

Definition empty_text : str :=
  lit "_The model returned no output after " ++ nat_str (MAX_EMPTY_RETRIES + 1)
    ++ lit " attempts. Send a message to continue._".

Definition transient_text (original_error : str) : str :=
  provider_error_text original_error ++ LF :: LF
    :: lit "_Auto-retry exhausted after " ++ nat_str MAX_TRANSIENT_RETRIES
    ++ lit " attempts. Likely a transient upstream issue " ++ EM_DASH
    :: lit " try sending the message again in a minute._".

Definition assistant_text (s : str) : ChatMessage := plain Assistant s.

(** The [Usage] a reply carries: shown, kept for the compaction trigger, logged. *)
Definition record_usage (r : Round) (u : TokenUsage) (c : Chat) : Chat :=
  let c := send (UsageEv (prompt_tokens u) (completion_tokens u) (total_tokens u)
                   (limits r).1 (limits r).2) c in
  let total := if (0 <? total_tokens u)%N then total_tokens u
               else N.min (prompt_tokens u + completion_tokens u) u32_max in
  append_log (Usage (prompt_tokens u) (completion_tokens u) total (now r)) (set_last_total total c).

(** Closing the bubble of a failed attempt that is retried. *)
Definition close_bubble (r : Round) (reason : FinishReason) (c : Chat) : Chat :=
  send (AssistantEnd (message_id r) reason) (set_bubble None c).

(** A failure shown in the bubble and kept as its content. *)
Definition render_failure (r : Round) (err_text : str) (c : Chat) : Chat :=
  let c := set_bubble None (send (TokenDelta err_text) c) in
  let c := push (assistant_text err_text) (append_log (Message (assistant_text err_text) (now r)) c) in
  send (AssistantEnd (message_id r) Other) c.

Definition run_provider_round (r : Round) (c : Chat) : Outcome * Chat :=
  let c := send (AssistantStart (message_id r)) (set_bubble (Some (message_id r)) c) in
  let c := arrive r DuringStream (foldl (λ c d, send (TokenDelta d) c) c (deltas (reply r))) in
  match ends (reply r) with
  | Err Cancelled =>
      let c := set_bubble None (send (TokenDelta (lit "_Cancelled by operator._")) c) in
      (Stopped, send (AssistantEnd (message_id r) Other) c)
  | Err e =>
      match classify_usage_limit e with
      | Some limit_reason =>
          (UsageLimited, render_failure r (usage_limit_text limit_reason (redact_secrets (error_text e))) c)
      | None =>
          if is_context_overflow_error e
          then (RetryAfterCompaction (error_text e), close_bubble r Other c)
          else match is_transient_error e with
          | Some reason => (TransientFailure reason (error_text e), close_bubble r Other c)
          | None => (Stopped, render_failure r (provider_error_text (redact_secrets (error_text e))) c)
          end
      end
  | Ok fin =>
      let c := match usage fin with Some u => record_usage r u c | None => c end in
      let final_text := concat_str (deltas (reply r)) in
      if bool_decide (trim final_text = []) && bool_decide (final_calls fin = [])
      then (EmptyTurn, close_bubble r (finish_reason fin) c)
      else
        let assistant_msg :=
          {| role := Assistant; content := final_text; tool_calls := final_calls fin;
             tool_call_id := None; msg_name := None; reasoning_content := final_reasoning fin;
             thinking_blocks := final_thinking fin; images := [] |} in
        let c := append_log (Message assistant_msg (now r)) (set_bubble None c) in
        (Continue assistant_msg (finish_reason fin) (final_calls fin),
         send (AssistantEnd (message_id r) (finish_reason fin)) c)
  end.

(** ** Tools *)

Definition tool_result (r : Round) (tc : ToolCall) : result (ToolCall * str * bool) Fault :=
  match maybe_spill (stored r tc) (tc_id tc) (executed r tc).1 with
  | Some content => Ok (tc, content, (executed r tc).2)
  | None => Err Panic
  end.

Fixpoint run_tools (r : Round) (calls : list ToolCall) : result (list (ToolCall * str * bool)) Fault :=
  match calls with
  | [] => Ok []
  | tc :: calls => x <-? tool_result r tc; xs <-? run_tools r calls; Ok (x :: xs)
  end.

Definition tool_message (x : ToolCall * str * bool) : ChatMessage :=
  let '(tc, content, _) := x in
  {| role := Tool; content := content; tool_calls := []; tool_call_id := Some (tc_id tc);
     msg_name := Some (tc_name tc); reasoning_content := None; thinking_blocks := []; images := [] |}.

(** The log of the [i]-th result. *)
Definition log_tool (r : Round) (c : Chat) (ix : nat * (ToolCall * str * bool)) : Chat :=
  let '(i, x) := ix in
  let '(tc, content, is_error) := x in
  let c := append_log (Message (tool_message x) (now r)) (arrive r (BeforeToolLog i) c) in
  append_log (ToolResult tc content (if is_error : bool then Some content else None) (now r)) c.

Definition show_tool (results : list (ToolCall * str * bool)) (c : Chat) (i : nat) : Chat :=
  match results !! i with
  | Some (tc, content, is_error) => send (ToolResultEv (tc_id tc) (tc_name tc) content is_error) c
  | None => c
  end.

(** Every call runs; results are shown as they complete, then the assistant message and
    the results in the order of the calls are pushed in one critical section, then logged. *)
Definition tool_batch (r : Round) (assistant_msg : ChatMessage) (calls : list ToolCall) (c : Chat) :
    result Chat Fault :=
  results <-? run_tools r calls;
  let c := foldl (λ c d, append_log (Approval d.1 d.2 (now r)) c) c (decisions r) in
  let c := arrive r DuringTools (foldl (show_tool results) c (completed r)) in
  let c := with_live (live c ++ assistant_msg :: (tool_message <$> results)) c in
  Ok (foldl (log_tool r) c (imap pair results)).

(** ** The loop *)

Record Budget : Set := {
  round : nat;
  overflow_recoveries : nat;
  empty_retries : nat;
  transient_retries : nat;
}.

Definition fresh_budget : Budget :=
  {| round := 0; overflow_recoveries := 0; empty_retries := 0; transient_retries := 0 |}.

(** An exhausted retry: the text is logged and pushed, the turn ends, the interface is told. *)
Definition give_up_with (r : Round) (err_text : str) (c : Chat) : Chat :=
  let c := append_log (Message (assistant_text err_text) (now r)) c in
  send (ErrorEv err_text) (finish (push (assistant_text err_text) c)).

(** What follows the provider's answer; [pre] is the length of the transcript the request
    was made from, [Some b] goes round again. *)
Definition settle (r : Round) (b : Budget) (pre : nat) (o : Outcome) (c : Chat) :
    result (Chat * option Budget) Fault :=
  match o with
  | Stopped => Ok (finish c, None)
  | UsageLimited => Ok (finish c, None)
  | RetryAfterCompaction original_error =>
      if decide (MAX_OVERFLOW_RECOVERIES ≤ overflow_recoveries b)
      then Ok (give_up_with r (overflow_text original_error) c, None)
      else
        c <-? run_compaction true (threshold r) (now r) (forced_reply r) (arrivals r DuringForced) c;
        Ok (c, Some {| round := round b - 1; overflow_recoveries := S (overflow_recoveries b);
                       empty_retries := empty_retries b; transient_retries := transient_retries b |})
  | EmptyTurn =>
      if decide (MAX_EMPTY_RETRIES ≤ empty_retries b) then
        let c := append_log (Message (assistant_text empty_text) (now r)) c in
        let c := finish (push (assistant_text empty_text) c) in
        let c := send (TokenDelta empty_text) (send (AssistantStart (synthetic_id r)) c) in
        Ok (send (AssistantEnd (synthetic_id r) Stop) c, None)
      else
        Ok (c, Some {| round := round b - 1; overflow_recoveries := overflow_recoveries b;
                       empty_retries := S (empty_retries b); transient_retries := transient_retries b |})
  | TransientFailure reason original_error =>
      if decide (MAX_TRANSIENT_RETRIES ≤ transient_retries b)
      then Ok (give_up_with r (transient_text original_error) c, None)
      else
        let attempt := S (transient_retries b) in
        let c := send (Retrying (N.of_nat attempt) (N.of_nat MAX_TRANSIENT_RETRIES) reason
                         (transient_retry_delay_ms (N.of_nat attempt))) c in
        Ok (arrive r DuringBackoff c,
            Some {| round := round b - 1; overflow_recoveries := overflow_recoveries b;
                    empty_retries := empty_retries b; transient_retries := attempt |})
  | Continue assistant_msg reason calls =>
      let b := {| round := round b; overflow_recoveries := overflow_recoveries b;
                  empty_retries := 0; transient_retries := 0 |} in
      if bool_decide (reason ≠ ToolCalls) || bool_decide (calls = []) then
        if user_queued_during_round (live c) pre then
          match place_final (live c) assistant_msg with
          | Some l =>
              Ok (with_live l c,
                  Some {| round := 0; overflow_recoveries := overflow_recoveries b;
                          empty_retries := 0; transient_retries := 0 |})
          | None => Err Panic
          end
        else Ok (finish (push assistant_msg c), None)
      else c <-? tool_batch r assistant_msg calls c; Ok (c, Some b)
  end.

Definition turn_round (r : Round) (b : Budget) (c : Chat) : result (Chat * option Budget) Fault :=
  if decide (MAX_TOOL_ROUNDS ≤ round b)
  then Ok (send (ErrorEv (lit "tool-call round limit reached (" ++ nat_str MAX_TOOL_ROUNDS ++ lit ")"))
             (finish c), None)
  else
    let b := {| round := S (round b); overflow_recoveries := overflow_recoveries b;
                empty_retries := empty_retries b; transient_retries := transient_retries b |} in
    c <-? repair c;
    let c := arrive r BeforeCompaction c in
    c <-? run_compaction false (threshold r) (now r) (summary_reply r) (arrivals r DuringSummary) c;
    let c := arrive r BeforeSnapshot c in
    let pre := length (live c) in
    let c := request (merge_trailing_user_run (live c)) c in
    let '(o, c) := run_provider_round r c in
    settle r b pre o c.

(** The loop from its [k]-th round on. *)
Fixpoint turn_rounds (fuel k : nat) (env : nat → Round) (b : Budget) (c : Chat) : result Chat Fault :=
  match fuel with
  | 0 => Err OutOfFuel
  | S fuel =>
      '(c, next) <-? turn_round (env k) b c;
      match next with
      | None => Ok c
      | Some b => turn_rounds fuel (S k) env b c
      end
  end.

(** run_turn_loop, when no send claims the next turn before its closing report. *)
Definition run_turn_loop (fuel : nat) (env : nat → Round) (c : Chat) : result Chat Fault :=
  c <-? turn_rounds fuel 0 env fresh_budget (send (TurnState true) c);
  Ok (if running c then c else send (TurnState false) c).

(** ** What the steps do to the transcript and its log *)

Definition users (ms : list Input) : list ChatMessage := (λ m, user_message m.1 m.2) <$> ms.

(** The messages that are pushed in a gap. *)
Definition pushed (acts : list Sending) : list Input :=
  omap (λ a, match a with Pushes m => Some m | Appends _ _ => None end) acts.

Definition quiet (acts : list Sending) : Prop := pushed acts = [].

(** Of the messages that wait, [q] and those that come, what a gap appends and what it leaves. *)
Fixpoint run_queue (q : list ChatMessage) (acts : list Sending) : list ChatMessage * list ChatMessage :=
  match acts with
  | [] => ([], q)
  | Pushes m :: acts => run_queue (q ++ [user_message m.1 m.2]) acts
  | Appends i ok :: acts =>
      match q !! i with
      | None => run_queue q acts
      | Some u => let '(logged, rest) := run_queue (delete i q) acts in
                  ((if ok then [u] else []) ++ logged, rest)
      end
  end.

(** Every message is logged before the gap is over, in the order of the pushes. *)
Definition prompt (acts : list Sending) : Prop := run_queue [] acts = (users (pushed acts), []).

Lemma quiet_queue (acts : list Sending) : quiet acts → run_queue [] acts = ([], []).
Proof. unfold quiet. induction acts as [|[m|i ok] acts IH]; simpl; [done..|]. by apply IH. Qed.

(** Sends that do not wait. *)
Definition at_once (ms : list Input) : list Sending := ms ≫= λ m, [Pushes m; Appends 0 true].

Lemma at_once_pushed (ms : list Input) : pushed (at_once ms) = ms.
Proof. induction ms as [|m ms IH]; [done|]. cbn. unfold at_once, pushed in *. by rewrite IH. Qed.

Lemma at_once_prompt (ms : list Input) : prompt (at_once ms).
Proof.
  unfold prompt. rewrite at_once_pushed. induction ms as [|m ms IH]; [done|]. cbn. fold (at_once ms). by rewrite IH.
Qed.

(** The transcript the log gives when the chat is opened again. *)
Definition saved (c : Chat) : list ChatMessage := replay (log c).

Lemma saved_append (e : SessionEvent) (c : Chat) : saved (append_log e c) = replay_step (saved c) e.
Proof. apply replay_snoc. Qed.

Lemma users_Forall (ms : list Input) : Forall (λ m, role m = User) (users ms).
Proof. apply Forall_fmap, Forall_true. done. Qed.

(** Everything but the transcript, the log, the channel and what waits to be logged. *)
Definition settings_eq (c c' : Chat) : Prop :=
  last_total c' = last_total c ∧ compaction_in_flight c' = compaction_in_flight c
  ∧ in_flight_message_id c' = in_flight_message_id c ∧ running c' = running c
  ∧ requests c' = requests c.

Lemma settings_eq_trans (c1 c2 c3 : Chat) : settings_eq c1 c2 → settings_eq c2 c3 → settings_eq c1 c3.
Proof. unfold settings_eq. intros (-> & -> & -> & -> & ->) (-> & -> & -> & -> & ->). done. Qed.

Lemma operator_sends_spec (t : Z) (acts : list Sending) (c : Chat) :
  live (operator_sends t acts c) = live c ++ users (pushed acts)
  ∧ saved (operator_sends t acts c) = saved c ++ (run_queue (unlogged c) acts).1
  ∧ settings_eq c (operator_sends t acts c)
  ∧ unlogged (operator_sends t acts c) = (run_queue (unlogged c) acts).2.
Proof.
  revert c. induction acts as [|[m|i ok] acts IH]; intros c; [simpl; by rewrite !app_nil_r|..];
    unfold operator_sends in *; cbn [foldl operator_step run_queue pushed omap list_omap].
  - destruct (IH (set_unlogged (unlogged c ++ [user_message m.1 m.2]) (push (user_message m.1 m.2) c))) as (-> & -> & ? & ->).
    simpl. rewrite <- (assoc_L (++)). by split_and!.
  - destruct (unlogged c !! i) as [u|]; [|apply IH].
    set (c1 := set_unlogged _ c). specialize (IH (if ok then append_log (Message u t) c1 else c1)).
    assert (unlogged (if ok then append_log (Message u t) c1 else c1) = delete i (unlogged c)) as Hu by (by destruct ok).
    assert (live (if ok then append_log (Message u t) c1 else c1) = live c) as Hl by (by destruct ok).
    assert (saved (if ok then append_log (Message u t) c1 else c1) = saved c ++ (if ok then [u] else [])) as Hs.
    { destruct ok; [by rewrite saved_append|by rewrite app_nil_r]. }
    rewrite Hu, Hl, Hs in IH. destruct IH as (-> & -> & IH & ->). destruct (run_queue (delete i (unlogged c)) acts) as [dn lf].
    cbn [fst snd]. rewrite <- (assoc_L (++)). split_and!; try done. by eapply settings_eq_trans; [|exact IH]; destruct ok.
Qed.

(** A gap in which nothing is pushed or waits, and one that keeps the log up. *)
Lemma operator_sends_prompt (t : Z) (acts : list Sending) (c : Chat) :
  unlogged c = [] → prompt acts →
  saved (operator_sends t acts c) = saved c ++ users (pushed acts) ∧ unlogged (operator_sends t acts c) = [].
Proof. intros Hu Hp. destruct (operator_sends_spec t acts c) as (_ & -> & _ & ->). by rewrite Hu, Hp. Qed.

Lemma sends_spec {A} (f : Chat → A → Chat) (l : list A) (c : Chat) :
  (∀ c a, live (f c a) = live c ∧ saved (f c a) = saved c ∧ settings_eq c (f c a) ∧ unlogged (f c a) = unlogged c) →
  live (foldl f c l) = live c ∧ saved (foldl f c l) = saved c ∧ settings_eq c (foldl f c l)
  ∧ unlogged (foldl f c l) = unlogged c.
Proof.
  intros Hf. revert c. induction l as [|a l IH]; intros c; simpl; [done|].
  destruct (IH (f c a)) as (-> & -> & H & ->). destruct (Hf c a) as (-> & -> & H' & ->). split_and!; try done.
  by eapply settings_eq_trans.
Qed.

(** The messages that come while the results from the [k]-th on are logged. *)
Definition pushed_behind (r : Round) (k : nat) (xs : list (ToolCall * str * bool)) : list Input :=
  concat (imap (λ i _, pushed (arrivals r (BeforeToolLog (k + i)))) xs).

Lemma log_tools_spec (r : Round) (k : nat) (xs : list (ToolCall * str * bool)) (c : Chat) :
  let c' := foldl (log_tool r) c (imap (λ i x, (k + i, x)) xs) in
  live c' = live c ++ users (pushed_behind r k xs)
  ∧ settings_eq c c'
  ∧ (unlogged c = [] → (∀ i, quiet (arrivals r (BeforeToolLog i))) →
     live c' = live c ∧ saved c' = saved c ++ (tool_message <$> xs) ∧ unlogged c' = []).
Proof.
  revert k c. induction xs as [|[[tc x] e] xs IH]; intros k c.
  { simpl. rewrite !app_nil_r. by split_and!. }
  cbn zeta. rewrite imap_cons. cbn [foldl].
  set (c1 := log_tool r c _).
  assert (imap ((λ i x0, (k + i, x0)) ∘ S) xs = imap (λ i x0, (S k + i, x0)) xs) as ->.
  { apply imap_ext. intros i y _. simpl. f_equal. lia. }
  destruct (IH (S k) c1) as (Hl & Hset & Hq). clear IH.
  destruct (operator_sends_spec (now r) (arrivals r (BeforeToolLog (k + 0))) c) as (Hl1 & Hs1 & Hset1 & Hu1).
  unfold c1, log_tool, arrive in Hl, Hset, Hq |- *. set (c2 := operator_sends _ _ c) in *.
  split_and!.
  - rewrite Hl. simpl. rewrite Hl1, <- (assoc_L (++)). f_equal. unfold pushed_behind. rewrite imap_cons. simpl.
    unfold users. rewrite fmap_app. do 3 f_equal. apply imap_ext. intros i y _. simpl. do 3 f_equal. lia.
  - eapply settings_eq_trans; [exact Hset1|exact Hset].
  - intros Hu Hqt. rewrite Hu, quiet_queue in Hs1, Hu1 by done. rewrite (Hqt (k + 0)) in Hl1. cbn in Hl1. rewrite app_nil_r in Hl1.
    destruct Hq as (-> & -> & ->); [exact Hu1|done|]. simpl. rewrite !saved_append. simpl. rewrite Hl1, Hs1. simpl.
    rewrite app_nil_r, <- (assoc_L (++)). by split_and!.
Qed.

#[global] Arguments operator_sends : simpl never.
#[global] Arguments repair_tool_pairs : simpl never.

Lemma ids_distinct_app (l k : list ChatMessage) : ids_distinct (l ++ k) ↔ ids_distinct l ∧ ids_distinct k.
Proof. apply Forall_app. Qed.

Lemma ids_distinct_plain (l : list ChatMessage) :
  Forall (λ m, role m ≠ Assistant ∨ tool_calls m = []) l → ids_distinct l.
Proof.
  intros H. eapply Forall_impl; [exact H|]. intros m Hm. unfold call_ids.
  destruct (role m) eqn:Er; [constructor..| |constructor]. destruct Hm as [?| ->]; [done|constructor].
Qed.

Lemma ids_distinct_users (l : list ChatMessage) : Forall (λ m, role m = User) l → ids_distinct l.
Proof. intros H. apply ids_distinct_plain. eapply Forall_impl; [exact H|]. intros m Hm. left. by rewrite Hm. Qed.

(** The repair of the live transcript. *)
Lemma repair_spec (c : Chat) :
  ids_distinct (live c) →
  ∃ l, repair c = Ok (with_live l c) ∧ well_paired l ∧ ids_distinct l ∧ (well_paired (live c) → l = live c).
Proof.
  intros Hd. destruct (repair_tool_pairs_repaired (live c) Hd) as (out & n & Hr & E).
  unfold repair. rewrite E. simpl. eexists. split; [done|]. split_and!.
  - by eapply repaired_paired.
  - apply (sublist_Forall _ _ _ (retain_answers_sublist [] out)). apply Forall_forall. intros x Hx.
    destruct (repaired_elem _ _ _ _ Hr Hx) as [Hin|(m & tc & _ & _ & _ & ->)]; [|constructor].
    unfold ids_distinct in Hd. rewrite Forall_forall in Hd. auto.
  - intros Hw. destruct (repaired_id _ _ _ _ Hr Hw) as [-> ->]. by apply paired_from_retain.
Qed.

(** *** Compaction *)

Lemma advance_cut_spec (fuel cut : nat) (l : list ChatMessage) :
  cut ≤ length l → length l ≤ cut + fuel →
  cut ≤ advance_cut fuel cut l ≤ length l
  ∧ role <$> head (drop (advance_cut fuel cut l) l) ≠ Some Tool
  ∧ ∀ i m, cut ≤ i < advance_cut fuel cut l → l !! i = Some m → role m = Tool.
Proof.
  revert cut. induction fuel as [|fuel IH]; intros cut Hc Hf; simpl.
  { rewrite drop_ge by lia. split_and!; [lia..|done|]. intros; lia. }
  destruct (l !! cut) as [m|] eqn:E.
  2: { rewrite drop_ge by by apply lookup_ge_None. split_and!; [lia..|done|]. intros; lia. }
  pose proof (lookup_lt_Some _ _ _ E). unfold is_tool. case_bool_decide as Hm.
  - destruct (IH (S cut)) as (H1 & H2 & H3); [lia..|]. split_and!; [lia..|done|].
    intros i x Hi Hx. destruct (decide (i = cut)) as [->|]; [by simplify_eq|]. apply (H3 i); [lia|done].
  - rewrite (drop_S _ _ _ E). split_and!; [lia..| |]; [simpl; congruence|]. intros; lia.
Qed.

Lemma compaction_cut_spec (l : list ChatMessage) :
  length l - COMPACTION_TAIL_KEEP ≤ compaction_cut l ≤ length l
  ∧ role <$> head (drop (compaction_cut l) l) ≠ Some Tool.
Proof. destruct (advance_cut_spec (length l) (length l - COMPACTION_TAIL_KEEP) l) as (? & ? & _); [lia..|done]. Qed.

Lemma paired_suffix (allowed : list str) (x y : list ChatMessage) :
  role <$> head y ≠ Some Tool → paired_from allowed (x ++ y) → well_paired y.
Proof.
  intros Hy. revert allowed. induction x as [|m x IH]; intros allowed H; simpl in H.
  - unfold well_paired. destruct y as [|m y]; [done|]. simpl in *.
    destruct (role m) eqn:E; try done.
  - destruct (role m); try destruct H as [_ H]; by eapply IH.
Qed.

(** What a compaction leaves: the transcript with what was queued meanwhile, or the
    checkpoint and a tail of it. *)
Definition compacted (q : list ChatMessage) (c c' : Chat) : Prop :=
  live c' = live c ++ q
  ∨ ∃ summary head tail, live c ++ q = head ++ tail ∧ live c' = checkpoint summary :: tail
      ∧ summary ≠ [] ∧ 3 ≤ length head ∧ length tail ≤ COMPACTION_TAIL_KEEP + length q
      ∧ last_total c' = 0%N.

Lemma compaction_begin_spec (force : bool) (th : N) (c : Chat) head n :
  compaction_begin force th c = Some (head, n) →
  compaction_in_flight c = false ∧ n = compaction_cut (live c) ∧ head = take n (live c)
  ∧ COMPACTION_TAIL_KEEP + 2 < length (live c).
Proof.
  unfold compaction_begin. destruct (compaction_in_flight c); [done|]. case_decide; [done|].
  repeat case_match; try done. intros; simplify_eq. split_and!; done || lia.
Qed.

Lemma compaction_replace_spec (t : Z) (n : nat) (before : N) (summary : str) (c : Chat) :
  n ≤ length (live c) → role <$> head (drop n (live c)) ≠ Some Tool →
  ids_distinct (live c) → well_paired (live c) →
  ∃ c', compaction_replace t n before summary c = Ok (c', drop n (live c)) ∧ repair c' = Ok c'
    ∧ live c' = checkpoint summary :: drop n (live c) ∧ saved c' = live c'
    ∧ well_paired (live c') ∧ ids_distinct (live c')
    ∧ last_total c' = 0%N ∧ compaction_in_flight c' = false
    ∧ running c' = running c ∧ requests c' = requests c
    ∧ in_flight_message_id c' = in_flight_message_id c ∧ unlogged c' = unlogged c.
Proof.
  intros Hn Ht Hd Hw. unfold compaction_replace, split_off. rewrite decide_True by done. cbn.
  set (c' := append_log _ _). exists c'.
  assert (well_paired (drop n (live c))) as Hwt.
  { rewrite <- (take_drop n (live c)) in Hw. by eapply paired_suffix. }
  assert (well_paired (checkpoint summary :: drop n (live c))) as Hwc by by split.
  assert (ids_distinct (checkpoint summary :: drop n (live c))) as Hdc.
  { constructor; [constructor|]. by apply Forall_drop. }
  destruct (repair_spec c' Hdc) as (l & E & _ & _ & Hid). rewrite E, (Hid Hwc).
  split_and!; try done. unfold c'. by rewrite saved_append.
Qed.

Lemma run_compaction_spec (force : bool) (th : N) (t : Z) (rep : Reply) (ms : list Sending) (c : Chat) :
  ids_distinct (live c) → well_paired (live c) →
  ∃ c' q, run_compaction force th t rep ms c = Ok c' ∧ (q = [] ∨ q = users (pushed ms))
    ∧ compacted q c c' ∧ well_paired (live c') ∧ ids_distinct (live c')
    ∧ (saved c = live c → unlogged c = [] → prompt ms → saved c' = live c' ∧ unlogged c' = [])
    ∧ running c' = running c ∧ requests c' = requests c
    ∧ in_flight_message_id c' = in_flight_message_id c
    ∧ compaction_in_flight c' = compaction_in_flight c.
Proof.
  intros Hd Hw. unfold run_compaction. destruct (compaction_begin force th c) as [[hd n]|] eqn:Eb.
  2: { exists c, []. split_and!; try done; [by left|]. left. by rewrite app_nil_r. }
  apply compaction_begin_spec in Eb as (Ef & -> & -> & Hlen). rewrite Ef.
  destruct (compaction_cut_spec (live c)) as [Hcut Htl]. set (n := compaction_cut (live c)) in *.
  set (c1 := send _ (set_in_flight true c)). cbv zeta.
  destruct (operator_sends_spec t ms c1) as (El & _ & (_ & _ & Ebub & Er & Erq) & _).
  assert (saved c = live c → unlogged c = [] → prompt ms →
    saved (operator_sends t ms c1) = live (operator_sends t ms c1) ∧ unlogged (operator_sends t ms c1) = []) as Es.
  { intros Hs Hu Hp. destruct (operator_sends_prompt t ms c1 Hu Hp) as [-> ->]. rewrite El. split; [|done]. f_equal. exact Hs. }
  set (c2 := operator_sends t ms c1) in *. pose proof (users_Forall (pushed ms)) as Hus. simpl in El.
  assert (well_paired (live c2) ∧ ids_distinct (live c2)) as [Hw2 Hd2].
  { rewrite El. split; [by apply paired_app_users|]. apply ids_distinct_app. by split; [|apply ids_distinct_users]. }
  assert (∃ c' q, Ok (E := Fault) (set_in_flight false c2) = Ok c' ∧ (q = [] ∨ q = users (pushed ms))
    ∧ compacted q c c' ∧ well_paired (live c') ∧ ids_distinct (live c')
    ∧ (saved c = live c → unlogged c = [] → prompt ms → saved c' = live c' ∧ unlogged c' = [])
    ∧ running c' = running c ∧ requests c' = requests c
    ∧ in_flight_message_id c' = in_flight_message_id c ∧ compaction_in_flight c' = false) as Hstay.
  { eexists _, (users (pushed ms)). split_and!; try done; [by right|by left]. }
  destruct (ends rep); [|exact Hstay]. case_decide as Hsum; [exact Hstay|]. clear Hstay.
  assert (drop n (live c2) = drop n (live c) ++ users (pushed ms)) as Etl by (rewrite El; apply drop_app_le; lia).
  destruct (compaction_replace_spec t n (last_total c) (trim (concat_str (deltas rep))) c2)
    as (c' & -> & Erep & Elive & Esav & Hw' & Hd' & Hlt & Hf & Hrun & Hreq & Hbub & Hunl); [| |done..|].
  { rewrite El, length_app. lia. }
  { rewrite Etl. destruct (drop n (live c)); [|done]. destruct (users (pushed ms)); [done|].
    apply Forall_cons in Hus as [Hu _]. simpl. by rewrite Hu. }
  cbn. rewrite Erep. cbn. rewrite Er in Hrun. rewrite Erq in Hreq. rewrite Ebub in Hbub.
  eexists _, (users (pushed ms)). split_and!; try done; [by right| |].
  2: { intros Hs Hu Hp. split; [done|]. destruct (Es Hs Hu Hp) as [_ <-]. exact Hunl. }
  right. eexists _, (take n (live c)), _. split_and!; [|exact Elive|done|..|done].
  - by rewrite Etl, (assoc_L (++)), take_drop.
  - rewrite length_take. unfold COMPACTION_TAIL_KEEP in *. lia.
  - rewrite Etl, length_app, length_drop. unfold COMPACTION_TAIL_KEEP in *. lia.
Qed.

(** *** The provider's answer *)

(** What the model and the tools answer, as far as the repair and the clipping need it:
    the calls of a reply have distinct ids, and text is text. *)
Record sane (r : Round) : Prop := {
  sane_calls : ∀ fin, ends (reply r) = Ok fin → NoDup (tc_id <$> final_calls fin);
  sane_output : ∀ tc, Forall (λ x, scalar x = true) (executed r tc).1;
}.

Definition closed_text (m : ChatMessage) : Prop := role m = Assistant ∧ tool_calls m = [].

(** What comes while the model streams, and what of it is logged then. *)
Definition answered (r : Round) (c : Chat) (o : Outcome) (c' : Chat) : Prop :=
  let us := users (pushed (arrivals r DuringStream)) in
  let ls := (run_queue (unlogged c) (arrivals r DuringStream)).1 in
  match o with
  | Continue m _ calls =>
      live c' = live c ++ us ∧ saved c' = (saved c ++ ls) ++ [m]
      ∧ role m = Assistant ∧ tool_calls m = calls
      ∧ ∃ fin, ends (reply r) = Ok fin ∧ final_calls fin = calls
  | Stopped | UsageLimited =>
      ∃ es, live c' = (live c ++ us) ++ es ∧ saved c' = (saved c ++ ls) ++ es ∧ Forall closed_text es
  | _ => live c' = live c ++ us ∧ saved c' = saved c ++ ls
  end.

Lemma provider_round_spec (r : Round) (c : Chat) o c' :
  run_provider_round r c = (o, c') →
  answered r c o c' ∧ running c' = running c ∧ requests c' = requests c
  ∧ in_flight_message_id c' = None ∧ compaction_in_flight c' = compaction_in_flight c
  ∧ unlogged c' = (run_queue (unlogged c) (arrivals r DuringStream)).2.
Proof.
  unfold run_provider_round. set (c1 := send (AssistantStart _) _).
  destruct (sends_spec (λ c d, send (TokenDelta d) c) (deltas (reply r)) c1) as (El & Es & (_ & Ef & _ & Er & Eq) & Eu); [done|].
  set (c2 := foldl _ c1 _) in *.
  destruct (operator_sends_spec (now r) (arrivals r DuringStream) c2) as (El' & Es' & (_ & Ef' & _ & Er' & Eq') & Eu').
  unfold arrive. set (c3 := operator_sends _ _ c2) in *. clearbody c3.
  rewrite El in El'. rewrite Es, Eu in Es'. rewrite Eu in Eu'. rewrite Ef in Ef'. rewrite Er in Er'. rewrite Eq in Eq'.
  change (live c3 = live c ++ users (pushed (arrivals r DuringStream))) in El'.
  change (saved c3 = saved c ++ (run_queue (unlogged c) (arrivals r DuringStream)).1) in Es'.
  change (unlogged c3 = (run_queue (unlogged c) (arrivals r DuringStream)).2) in Eu'.
  change (compaction_in_flight c3 = compaction_in_flight c) in Ef'.
  change (running c3 = running c) in Er'. change (requests c3 = requests c) in Eq'.
  unfold answered. cbv zeta. rewrite <- El', <- Es', <- Eu'.
  assert (∀ t, closed_text (assistant_text t)) as Ht by done.
  assert (∀ t, live (render_failure r t c3) = live c3 ++ [assistant_text t]
    ∧ saved (render_failure r t c3) = saved c3 ++ [assistant_text t]) as Hf.
  { intros t. split; [done|]. unfold render_failure. change (saved (send ?e ?x)) with (saved x).
    change (saved (push ?m ?x)) with (saved x). by rewrite saved_append. }
  destruct (ends (reply r)) as [fin|e].
  - set (c4 := match usage fin with Some u => _ | None => c3 end).
    assert (unlogged c4 = unlogged c3 ∧ live c4 = live c3 ∧ saved c4 = saved c3 ∧ running c4 = running c ∧ requests c4 = requests c
      ∧ compaction_in_flight c4 = compaction_in_flight c) as (Eu4 & El4 & Es4 & Er4 & Eq4 & Ef4).
    { unfold c4. destruct (usage fin); [|done]. split_and!; try done. unfold record_usage. by rewrite saved_append. }
    rewrite <- El4, <- Es4, <- Eu4. clearbody c4.
    destruct (bool_decide _ && bool_decide _); intros [= <- <-]; split_and!; try done; [|by eexists].
    change (saved (send ?e ?x)) with (saved x). by rewrite saved_append.
  - repeat case_match; intros; simplify_eq; split_and!; try done;
      first [by eexists []; rewrite ?app_nil_r | eexists [_]; split_and!; [apply Hf..|by constructor]].
Qed.

(** *** A batch of tools *)

Lemma run_tools_spec (r : Round) (calls : list ToolCall) :
  sane r → ∃ xs, run_tools r calls = Ok xs ∧ (λ x : ToolCall * str * bool, x.1.1) <$> xs = calls.
Proof.
  intros Hs. induction calls as [|tc calls (xs & E & Ex)]; [by exists []|]. simpl.
  assert (∃ x, tool_result r tc = Ok (tc, x, (executed r tc).2)) as [x ->].
  { unfold tool_result. destruct Hs as [_ Hs]. pose proof (Hs tc) as Ho.
    unfold maybe_spill, cap_tool_result.
    destruct (char_boundary_floor_cut _ MAX_TOOL_RESULT_BYTES Ho) as (kept & rest & _ & _ & Esl & _).
    case_decide; [by eexists|]. rewrite Esl. by eexists. }
  simpl. rewrite E. simpl. eexists. split; [done|]. by rewrite fmap_cons, Ex.
Qed.

Lemma paired_app_group (allowed : list str) (l k : list ChatMessage) :
  role <$> head k ≠ Some Tool → paired_from allowed l → well_paired k → paired_from allowed (l ++ k).
Proof.
  intros Hk Hl Hw. revert allowed Hl. induction l as [|x l IH]; intros allowed Hl; simpl in *.
  - destruct k as [|y k]; [done|]. unfold well_paired in Hw. simpl in *. by destruct (role y).
  - rewrite tool_run_app_other by done. destruct (role x); try destruct Hl; try split; auto.
Qed.

Lemma paired_tools (allowed : list str) (ts : list ChatMessage) :
  Forall (λ m, role m = Tool ∧ ∃ id, tool_call_id m = Some id ∧ id ∈ allowed) ts → paired_from allowed ts.
Proof. induction 1 as [|m ts [Hm Hid] _ IH]; simpl; [done|]. by rewrite Hm. Qed.

Lemma paired_answers (a : ChatMessage) (xs : list (ToolCall * str * bool)) :
  role a = Assistant → tool_calls a = (λ x, x.1.1) <$> xs → well_paired (a :: (tool_message <$> xs)).
Proof.
  intros Ha Hc. unfold well_paired. simpl. rewrite Ha, Hc.
  assert (Forall (λ m, role m = Tool) (tool_message <$> xs)) as Ht.
  { apply Forall_fmap, Forall_true. by intros [[? ?] ?]. }
  assert (omap tool_call_id (tool_message <$> xs) = tc_id <$> ((λ x, x.1.1) <$> xs)) as Eo.
  { clear. induction xs as [|[[tc x] e] xs IH]; [done|]. simpl. by f_equal. }
  split.
  - rewrite <- (app_nil_r (tool_message <$> xs)), tool_run_app by done. simpl. rewrite app_nil_r, Eo.
    apply Forall_forall. intros tc Htc. by apply list_elem_of_fmap_2.
  - apply paired_tools. apply Forall_fmap, Forall_forall. intros [[tc x] e] Hx. split; [done|].
    exists (tc_id tc). split; [done|]. apply (list_elem_of_fmap_2 _ _ tc). exact (list_elem_of_fmap_2 _ _ _ Hx).
Qed.

Lemma tool_batch_spec (r : Round) (a : ChatMessage) (calls : list ToolCall) (c : Chat) :
  sane r → role a = Assistant → tool_calls a = calls → NoDup (tc_id <$> calls) →
  ids_distinct (live c) →
  ∃ c' ts us, tool_batch r a calls c = Ok c' ∧ well_paired (a :: ts)
    ∧ live c' = ((live c ++ users (pushed (arrivals r DuringTools))) ++ a :: ts) ++ users us
    ∧ (unlogged c = [] → quiet (arrivals r DuringTools) → (∀ i, quiet (arrivals r (BeforeToolLog i))) →
       live c' = live c ++ a :: ts ∧ saved c' = saved c ++ ts ∧ unlogged c' = [])
    ∧ ids_distinct (live c') ∧ settings_eq c c'.
Proof.
  intros Hs Ha Hc Hnd Hd. destruct (run_tools_spec r calls Hs) as (xs & E & Ex).
  unfold tool_batch. rewrite E. cbn [result_bind].
  destruct (sends_spec (λ c d, append_log (Approval d.1 d.2 (now r)) c) (decisions r) c) as (El1 & Es1 & Hset1 & Eu1).
  { intros c0 d. split_and!; try done. by rewrite saved_append. }
  set (c1 := foldl _ c (decisions r)) in *. clearbody c1.
  destruct (sends_spec (show_tool xs) (completed r) c1) as (El2 & Es2 & Hset2 & Eu2).
  { intros c0 i. unfold show_tool. destruct (xs !! i) as [[[? ?] ?]|]; done. }
  set (c2 := foldl _ c1 _) in *. clearbody c2. unfold arrive.
  destruct (operator_sends_spec (now r) (arrivals r DuringTools) c2) as (El3 & Es3 & Hset3 & Eu3).
  set (c3 := operator_sends _ _ c2) in *. clearbody c3.
  set (c4 := with_live _ c3). destruct (log_tools_spec r 0 xs c4) as (El5 & Hset5 & Hq5). simpl plus in *.
  change (imap (λ i x, (i, x)) xs) with (imap pair xs) in *.
  set (c5 := foldl _ c4 (imap pair xs)) in *. clearbody c5.
  exists c5, (tool_message <$> xs), (pushed_behind r 0 xs). split_and!; [done|..].
  - apply paired_answers; congruence.
  - rewrite El5. unfold c4. simpl. by rewrite El3, El2, El1.
  - intros Hu Hqt Hqs. rewrite Eu2, Eu1, Hu, quiet_queue in Es3, Eu3 by done. rewrite Hqt in El3. cbn in El3.
    destruct Hq5 as (-> & -> & ->); [exact Eu3|done|]. unfold c4. simpl. change (saved (with_live ?l ?x)) with (saved x).
    rewrite El3, El2, El1, Es3, Es2, Es1. simpl. by rewrite !app_nil_r.
  - rewrite El5. unfold c4. simpl. rewrite El3, El2, El1, !ids_distinct_app.
    split_and!; [done|by apply ids_distinct_users, users_Forall| |by apply ids_distinct_users, users_Forall].
    constructor; [unfold call_ids; by rewrite Ha, Hc|]. apply ids_distinct_plain, Forall_fmap, Forall_true.
    intros [[? ?] ?]. by left.
  - eapply settings_eq_trans; [exact Hset1|]. eapply settings_eq_trans; [exact Hset2|].
    eapply settings_eq_trans; [exact Hset3|exact Hset5].
Qed.

(** *** A round *)

(** How many more rounds a budget allows while nothing is queued. *)
Definition allowance (b : Budget) : nat :=
  (MAX_TOOL_ROUNDS - round b) * 8 + (MAX_EMPTY_RETRIES - empty_retries b)
  + (MAX_TRANSIENT_RETRIES - transient_retries b) + (MAX_OVERFLOW_RECOVERIES - overflow_recoveries b).

Definition spent (b : Budget) : Budget :=
  {| round := S (round b); overflow_recoveries := overflow_recoveries b;
     empty_retries := empty_retries b; transient_retries := transient_retries b |}.

(** The operator's messages come only where the loop has nothing of its own in hand (before a
    round, while a summary streams, while it waits to retry), and each is logged in the gap it
    comes in. *)
Record orderly (r : Round) : Prop := {
  orderly_prompt : ∀ g, prompt (arrivals r g);
  orderly_stream : quiet (arrivals r DuringStream);
  orderly_tools : quiet (arrivals r DuringTools);
  orderly_logs : ∀ i, quiet (arrivals r (BeforeToolLog i));
}.

(** From the state [c0] before the provider's answer to the end of the round. *)
Definition settled (r : Round) (b : Budget) (c0 c c' : Chat) (next : option Budget) : Prop :=
  ids_distinct (live c') ∧ requests c' = requests c ∧ in_flight_message_id c' = in_flight_message_id c
  ∧ running c' = (if next then running c else false)
  ∧ (quiet (arrivals r DuringStream) → ∀ b', next = Some b' → allowance b' < allowance b)
  ∧ (saved c0 = live c0 → unlogged c0 = [] → orderly r →
       saved c' = live c' ∧ unlogged c' = [] ∧ (is_Some next → well_paired (live c'))).

#[local] Ltac budget :=
  intros _ ? [= <-]; unfold allowance, spent in *;
  cbn [round overflow_recoveries empty_retries transient_retries] in *;
  unfold MAX_TOOL_ROUNDS, MAX_EMPTY_RETRIES, MAX_TRANSIENT_RETRIES, MAX_OVERFLOW_RECOVERIES in *; lia.

Lemma closed_text_distinct (es : list ChatMessage) : Forall closed_text es → ids_distinct es.
Proof. intros H. apply ids_distinct_plain. eapply Forall_impl; [exact H|]. intros m [_ ?]. by right. Qed.

Lemma give_up_spec (r : Round) (t : str) (c : Chat) :
  live (give_up_with r t c) = live c ++ [assistant_text t]
  ∧ saved (give_up_with r t c) = saved c ++ [assistant_text t].
Proof.
  split; [done|]. unfold give_up_with. change (saved (send ?e ?x)) with (saved x).
  change (saved (finish ?x)) with (saved x). change (saved (push ?m ?x)) with (saved x).
  by rewrite saved_append.
Qed.

Lemma user_queued_none (l : list ChatMessage) : user_queued_during_round l (length l) = false.
Proof. unfold user_queued_during_round. by rewrite bool_decide_eq_false_2 by lia. Qed.

(** When the operator's messages wait, none came while the model streamed. *)
Lemma orderly_stream_spec (r : Round) (c0 c : Chat) :
  unlogged c = (run_queue (unlogged c0) (arrivals r DuringStream)).2 → unlogged c0 = [] → orderly r →
  run_queue (unlogged c0) (arrivals r DuringStream) = ([], []) ∧ pushed (arrivals r DuringStream) = [] ∧ unlogged c = [].
Proof.
  intros -> -> Ho. pose proof (orderly_stream r Ho) as Hq. by rewrite quiet_queue.
Qed.

Lemma settle_continue (r : Round) (b : Budget) (c0 c : Chat) m reason calls :
  round b < MAX_TOOL_ROUNDS → sane r → ids_distinct (live c0) → well_paired (live c0) →
  answered r c0 (Continue m reason calls) c →
  unlogged c = (run_queue (unlogged c0) (arrivals r DuringStream)).2 →
  ∃ c' next, settle r (spent b) (length (live c0)) (Continue m reason calls) c = Ok (c', next)
    ∧ settled r b c0 c c' next.
Proof.
  intros Hb Hs Hd Hw (El & Es & Hm & Hc & fin & Efin & Hfin) Eu.
  pose proof (orderly_stream_spec r c0 c Eu) as Hord.
  assert (NoDup (tc_id <$> calls)) as Hnd by (rewrite <- Hfin; by apply sane_calls with r).
  assert (ids_distinct (live c)) as Hdc.
  { rewrite El, ids_distinct_app. split; [done|apply ids_distinct_users, users_Forall]. }
  assert (ids_distinct [m]) as Hdm by (constructor; [unfold call_ids; by rewrite Hm, Hc|constructor]).
  unfold settle. destruct (bool_decide _ || bool_decide _) eqn:Efinal.
  - destruct (user_queued_during_round _ _) eqn:Eq.
    + destruct (trailing_users (live c)) as (pre & us & E & Hus & Hpre). rewrite E, place_final_app by done.
      eexists _, _. split; [done|]. split_and!; try done.
      * simpl. rewrite E in Hdc. apply ids_distinct_app in Hdc as [? ?].
        apply ids_distinct_app. split; [done|]. constructor; [by apply Forall_inv in Hdm|done].
      * intros Hn. exfalso. rewrite El, Hn, app_nil_r, user_queued_none in Eq. done.
      * intros _ Hu Ho. exfalso. destruct (Hord Hu Ho) as (_ & Hn & _). rewrite El, Hn, app_nil_r, user_queued_none in Eq. done.
    + eexists _, _. split; [done|]. split_and!; try done.
      * apply ids_distinct_app. done.
      * intros Hsv Hu Ho. destruct (Hord Hu Ho) as (Hq & Hn & Hc0). split_and!; [|done|by intros [? ?]].
        change (saved c = live c ++ [m]). rewrite Es, El, Hq, Hn, Hsv. simpl. by rewrite !app_nil_r.
  - destruct (tool_batch_spec r m calls c) as (c' & ts & us & Ebatch & Hpair & El' & Es' & Hd' & Hset); [done..|].
    rewrite Ebatch. eexists _, _. split; [done|]. destruct Hset as (_ & _ & ? & ? & ?). split_and!; try done.
    + budget.
    + intros Hsv Hu Ho. destruct (Hord Hu Ho) as (Hq & Hn & Hc0).
      destruct Es' as (-> & -> & ->); [done|apply (orderly_tools r Ho)|apply (orderly_logs r Ho)|].
      rewrite El, Es, Hq, Hn, Hsv. simpl. rewrite !app_nil_r.
      split_and!; [by rewrite <- (assoc_L (++))|done|]. intros _. apply paired_app_group; [simpl; congruence|done..].
Qed.

Lemma settle_spec (r : Round) (b : Budget) (c0 c : Chat) o :
  round b < MAX_TOOL_ROUNDS → sane r → ids_distinct (live c0) → well_paired (live c0) →
  answered r c0 o c →
  unlogged c = (run_queue (unlogged c0) (arrivals r DuringStream)).2 →
  ∃ c' next, settle r (spent b) (length (live c0)) o c = Ok (c', next) ∧ settled r b c0 c c' next.
Proof.
  intros Hb Hs Hd Hw Ha Eu. pose proof (orderly_stream_spec r c0 c Eu) as Hord.
  pose proof (users_Forall (pushed (arrivals r DuringStream))) as Hus.
  pose proof (ids_distinct_users _ Hus) as Hdu.
  assert (∀ es, Forall closed_text es → ids_distinct ((live c0 ++ users (pushed (arrivals r DuringStream))) ++ es)) as Hde.
  { intros es Hes. rewrite !ids_distinct_app. split_and!; try done. by apply closed_text_distinct. }
  assert (∀ t, Forall closed_text [assistant_text t]) as Ht by by repeat constructor.
  destruct o as [m reason calls| |e| | |reason e]; [by apply settle_continue|..];
    unfold settle, settled, answered in *.
  - destruct Ha as (es & El & Es & Hes). eexists _, _. split; [done|]. split_and!; try done; simpl.
    + rewrite El. auto.
    + intros Hsv Hu Ho. destruct (Hord Hu Ho) as (Hqq & Hn & Hc0). change (saved (finish c)) with (saved c).
      rewrite Hn in El. rewrite Hqq in Es. simpl in El, Es. split_and!; [congruence|done|by intros [? ?]].
  - destruct Ha as (El & Es). case_decide.
    + eexists _, _. split; [done|]. destruct (give_up_spec r (overflow_text e) c) as [El' Es']. split_and!; try done.
      * rewrite El', El. auto.
      * intros Hsv Hu Ho. destruct (Hord Hu Ho) as (Hqq & Hn & Hc0). rewrite El', Es', El, Es, Hqq, Hn, Hsv.
        split_and!; [done|done|by intros [? ?]].
    + destruct (run_compaction_spec true (threshold r) (now r) (forced_reply r) (arrivals r DuringForced) c)
        as (c' & q & E & _ & _ & Hw' & Hd' & Hsv' & Hr & Hq & Hbub & _).
      { rewrite El. apply ids_distinct_app. done. }
      { rewrite El. by apply paired_app_users. }
      rewrite E. eexists _, _. split; [done|]. split_and!; try done.
      * budget.
      * intros Hsv Hu Ho. destruct (Hord Hu Ho) as (Hqq & Hn & Hc0). rewrite Hqq in Es. rewrite Hn in El.
        destruct Hsv' as [-> ->]; [simpl in Es, El; congruence|done|apply (orderly_prompt r Ho)|]. by split_and!.
  - destruct Ha as (El & Es). case_decide.
    + eexists _, _. split; [done|]. split_and!; try done; simpl.
      * rewrite El. auto.
      * intros Hsv Hu Ho. destruct (Hord Hu Ho) as (Hqq & Hn & Hc0). rewrite Hqq in Es. rewrite Hn in El.
        split_and!; [|done|by intros [? ?]]. change (saved (append_log (Message (assistant_text empty_text) (now r)) c)
          = live c ++ [assistant_text empty_text]). rewrite saved_append. simpl. simpl in Es, El. congruence.
    + eexists _, _. split; [done|]. split_and!; try done.
      * rewrite El. apply ids_distinct_app. done.
      * budget.
      * intros Hsv Hu Ho. destruct (Hord Hu Ho) as (Hqq & Hn & Hc0). rewrite Hqq, Hsv in Es. rewrite Hn in El. simpl in Es, El.
        rewrite app_nil_r in Es, El. split_and!; [congruence|done|]. intros _. by rewrite El.
  - destruct Ha as (es & El & Es & Hes). eexists _, _. split; [done|]. split_and!; try done; simpl.
    + rewrite El. auto.
    + intros Hsv Hu Ho. destruct (Hord Hu Ho) as (Hqq & Hn & Hc0). change (saved (finish c)) with (saved c).
      rewrite Hn in El. rewrite Hqq in Es. simpl in El, Es. split_and!; [congruence|done|by intros [? ?]].
  - destruct Ha as (El & Es). case_decide.
    + eexists _, _. split; [done|]. destruct (give_up_spec r (transient_text e) c) as [El' Es']. split_and!; try done.
      * rewrite El', El. auto.
      * intros Hsv Hu Ho. destruct (Hord Hu Ho) as (Hqq & Hn & Hc0). rewrite El', Es', El, Es, Hqq, Hn, Hsv.
        split_and!; [done|done|by intros [? ?]].
    + cbv zeta. set (c1 := send _ c). unfold arrive.
      destruct (operator_sends_spec (now r) (arrivals r DuringBackoff) c1) as (El' & _ & (_ & _ & Hbub & Hr & Hq) & _).
      pose proof (operator_sends_prompt (now r) (arrivals r DuringBackoff) c1) as Es'.
      change (live c1) with (live c) in El'. change (saved c1) with (saved c) in Es'. change (unlogged c1) with (unlogged c) in Es'.
      pose proof (users_Forall (pushed (arrivals r DuringBackoff))) as Hus'.
      eexists _, _. split; [done|]. split_and!; try done.
      * rewrite El', El, !ids_distinct_app. split_and!; try done. by apply ids_distinct_users.
      * budget.
      * intros Hsv Hu Ho. destruct (Hord Hu Ho) as (Hqq & Hn & Hc0).
        destruct Es' as [-> ->]; [done|apply (orderly_prompt r Ho)|]. rewrite Hn in *. rewrite El', El, Es, Hqq, Hsv. simpl.
        rewrite !app_nil_r. split_and!; [done|done|]. intros _. by apply paired_app_users.
Qed.

(** What providers take: paired calls and results, and one message of the operator at
    most at the end. *)
Definition acceptable (l : list ChatMessage) : Prop :=
  well_paired l
  ∧ ∃ pre us, l = pre ++ us ∧ Forall (λ m, role m = User) us ∧ length us ≤ 1
      ∧ role <$> last pre ≠ Some User.

Lemma merged_acceptable (l : list ChatMessage) : well_paired l → acceptable (merge_trailing_user_run l).
Proof.
  intros Hw. destruct (trailing_users l) as (pre & us & -> & Hus & Hpre). rewrite merge_trailing_users by done.
  apply paired_app_users in Hw; [|done]. pose proof (folded_users us Hus) as Hf. split.
  - by apply paired_app_users.
  - exists pre, (folded us). split_and!; try done. by destruct us as [|u [|u' us]]; simpl; lia.
Qed.

Definition rounded (r : Round) (b : Budget) (c c' : Chat) (next : option Budget) : Prop :=
  ids_distinct (live c')
  ∧ (∃ ls, requests c' = requests c ++ ls ∧ length ls ≤ 1 ∧ Forall acceptable ls)
  ∧ (in_flight_message_id c = None → in_flight_message_id c' = None)
  ∧ running c' = (if next then running c else false)
  ∧ (quiet (arrivals r DuringStream) → ∀ b', next = Some b' → allowance b' < allowance b)
  ∧ (saved c = live c → well_paired (live c) → unlogged c = [] → orderly r →
       saved c' = live c' ∧ unlogged c' = [] ∧ (is_Some next → well_paired (live c'))).

Lemma turn_round_spec (r : Round) (b : Budget) (c : Chat) :
  sane r → ids_distinct (live c) →
  ∃ c' next, turn_round r b c = Ok (c', next) ∧ rounded r b c c' next.
Proof.
  intros Hs Hd. unfold turn_round. case_decide as Hb.
  { eexists _, _. split; [done|]. split_and!; try done.
    exists []. rewrite app_nil_r. split_and!; simpl; [done|lia|done]. }
  destruct (repair_spec c Hd) as (l & -> & Hw & Hdl & Hid). cbn [result_bind]. cbv zeta. unfold arrive.
  set (c0 := with_live l c).
  destruct (operator_sends_spec (now r) (arrivals r BeforeCompaction) c0) as (El1 & _ & (_ & _ & Hb1 & Hr1 & Hq1) & _).
  pose proof (operator_sends_prompt (now r) (arrivals r BeforeCompaction) c0) as Es1.
  set (c1 := operator_sends _ _ c0) in *. clearbody c1.
  pose proof (users_Forall (pushed (arrivals r BeforeCompaction))) as Hu1.
  destruct (run_compaction_spec false (threshold r) (now r) (summary_reply r) (arrivals r DuringSummary) c1)
    as (c2 & q & -> & _ & _ & Hw2 & Hd2 & Hsv2 & Hr2 & Hq2 & Hb2 & _).
  { rewrite El1. apply ids_distinct_app. split; [done|by apply ids_distinct_users]. }
  { rewrite El1. by apply paired_app_users. }
  cbn [result_bind]. cbv zeta.
  destruct (operator_sends_spec (now r) (arrivals r BeforeSnapshot) c2) as (El3 & _ & (_ & _ & Hb3 & Hr3 & Hq3) & _).
  pose proof (operator_sends_prompt (now r) (arrivals r BeforeSnapshot) c2) as Es3.
  set (c3 := operator_sends _ _ c2) in *. clearbody c3.
  pose proof (users_Forall (pushed (arrivals r BeforeSnapshot))) as Hu3.
  set (c4 := request _ c3). destruct (run_provider_round r c4) as [o c5] eqn:E.
  apply provider_round_spec in E as (Ha & Hr5 & Hq5 & Hb5 & _ & Eu5).
  assert (well_paired (live c3)) as Hw3 by (rewrite El3; by apply paired_app_users).
  assert (ids_distinct (live c3)) as Hd3.
  { rewrite El3. apply ids_distinct_app. split; [done|by apply ids_distinct_users]. }
  destruct (settle_spec r b c4 c5 o) as (c' & next & E & Hd' & Hq' & Hb' & Hr' & Hall & Hsv'); [lia|done..|].
  exists c', next. split; [exact E|]. split_and!; [done| | | |done|].
  - exists [merge_trailing_user_run (live c3)]. split_and!; [|done|].
    + rewrite Hq', Hq5. unfold c4. simpl. by rewrite Hq3, Hq2, Hq1.
    + constructor; [by apply merged_acceptable|done].
  - congruence.
  - rewrite Hr', Hr5. unfold c4. simpl. by rewrite Hr3, Hr2, Hr1.
  - intros Hsv Hwc Hu Ho. pose proof (orderly_prompt r Ho) as Hp.
    assert (saved c1 = live c1 ∧ unlogged c1 = []) as [Hs1 Hn1].
    { destruct Es1 as [-> ->]; [done|apply Hp|]. rewrite El1. unfold c0. simpl. rewrite (Hid Hwc). split; [|done]. by f_equal. }
    destruct (Hsv2 Hs1 Hn1 (Hp _)) as [Hs2 Hn2]. destruct Es3 as [Hs3 Hn3]; [done|apply Hp|].
    apply Hsv'; [|exact Hn3|done]. change (saved c3 = live c3). rewrite El3, Hs3. by f_equal.
Qed.

(** ** The loop *)

Lemma turn_rounds_quiet (fuel k : nat) (env : nat → Round) (b : Budget) (c : Chat) :
  (∀ i, sane (env i)) → ids_distinct (live c) →
  (∀ i, k ≤ i → quiet (arrivals (env i) DuringStream)) → allowance b < fuel →
  ∃ c', turn_rounds fuel k env b c = Ok c'.
Proof.
  intros Hs. revert k b c. induction fuel as [|fuel IH]; intros k b c Hd Hn Hf; [lia|]. simpl.
  destruct (turn_round_spec (env k) b c (Hs k) Hd) as (c' & next & -> & Hd' & _ & _ & _ & Hall & _). simpl.
  destruct next as [b'|]; [|by eexists]. apply IH; [done| |].
  - intros i Hi. apply Hn. lia.
  - specialize (Hall (Hn k (le_n k)) b' eq_refl). lia.
Qed.

Lemma allowance_le (b : Budget) : allowance b ≤ 4009.
Proof.
  unfold allowance, MAX_TOOL_ROUNDS, MAX_EMPTY_RETRIES, MAX_TRANSIENT_RETRIES, MAX_OVERFLOW_RECOVERIES. lia.
Qed.

Lemma turn_rounds_end (K k : nat) (env : nat → Round) (b : Budget) (c : Chat) :
  (∀ i, sane (env i)) → ids_distinct (live c) →
  (∀ i, k + K ≤ i → quiet (arrivals (env i) DuringStream)) →
  ∃ c', turn_rounds (K + 4010) k env b c = Ok c'.
Proof.
  intros Hs. revert k b c. induction K as [|K IH]; intros k b c Hd Hn.
  - apply turn_rounds_quiet; [done..| |]; [intros; apply Hn; lia|]. pose proof (allowance_le b). lia.
  - simpl. destruct (turn_round_spec (env k) b c (Hs k) Hd) as (c' & next & -> & Hd' & _). simpl.
    destruct next as [b'|]; [|by eexists]. apply IH; [done|]. intros i Hi. apply Hn. lia.
Qed.

(** What holds of a turn that has ended. *)
Lemma turn_rounds_spec (fuel k : nat) (env : nat → Round) (b : Budget) (c : Chat) :
  (∀ i, sane (env i)) → ids_distinct (live c) →
  match turn_rounds fuel k env b c with
  | Ok c' =>
      running c' = false ∧ (in_flight_message_id c = None → in_flight_message_id c' = None)
      ∧ ids_distinct (live c')
      ∧ (∃ ls, requests c' = requests c ++ ls ∧ length ls ≤ fuel ∧ Forall acceptable ls)
      ∧ (saved c = live c → well_paired (live c) → unlogged c = [] → (∀ i, orderly (env i)) →
         saved c' = live c' ∧ unlogged c' = [])
  | Err f => f = OutOfFuel
  end.
Proof.
  intros Hs. revert k b c. induction fuel as [|fuel IH]; intros k b c Hd; [done|]. simpl.
  destruct (turn_round_spec (env k) b c (Hs k) Hd)
    as (c1 & next & -> & Hd1 & (ls & Eq & Hlen & Hacc) & Hbub & Hrun & _ & Hsv). simpl.
  destruct next as [b'|].
  - specialize (IH (S k) b' c1 Hd1). destruct (turn_rounds fuel (S k) env b' c1) as [c'|]; [|done].
    destruct IH as (? & Hbub' & ? & (ls' & Eq' & Hlen' & Hacc') & Hsv'). split_and!; auto.
    + exists (ls ++ ls'). rewrite Eq', Eq, length_app, (assoc_L (++)). split_and!; [done|lia|].
      by apply Forall_app.
    + intros Hc Hw Hu Hn. destruct (Hsv Hc Hw Hu (Hn k)) as (? & ? & Hw1). auto.
  - split_and!; try done; [exists ls; split_and!; done || lia|].
    intros Hc Hw Hu Hn. by destruct (Hsv Hc Hw Hu (Hn k)) as (? & ? & _).
Qed.

(** C2: A turn ends: from a transcript whose assistant messages have calls of distinct ids, with
    no bubble open, and with replies that keep the ids of their calls distinct ([sane]; the
    repair panics otherwise, [repair_duplicate_ids_panics]), whatever else the provider and the
    tools answer, and whatever fails, once the operator stops sending messages while the model
    streams, run_turn_loop returns after a bounded number of provider calls, without a panic;
    the turn gate is free, no bubble is left open, and the last thing the interface hears is
    that the turn is over. *)
Theorem turn_ends (K : nat) (env : nat → Round) (c : Chat) :
  (∀ i, sane (env i)) → ids_distinct (live c) → in_flight_message_id c = None →
  (∀ i, K ≤ i → quiet (arrivals (env i) DuringStream)) →
  ∃ c', run_turn_loop (K + 4010) env c = Ok c' ∧ running c' = false ∧ in_flight_message_id c' = None
    ∧ last (channel c') = Some (TurnState false)
    ∧ length (requests c') ≤ length (requests c) + K + 4010.
Proof.
  intros Hs Hd Hb Hn. unfold run_turn_loop. set (c1 := send (TurnState true) c).
  destruct (turn_rounds_end K 0 env fresh_budget c1 Hs Hd Hn) as [c' E].
  pose proof (turn_rounds_spec (K + 4010) 0 env fresh_budget c1 Hs Hd) as H. rewrite E in H |- *.
  destruct H as (Hr & Hbub & _ & (ls & Eq & Hl & _) & _). cbn [result_bind]. rewrite Hr.
  eexists. split; [done|]. split_and!; [done|exact (Hbub Hb)|apply last_snoc|].
  simpl. rewrite Eq, length_app. simpl. lia.
Qed.

(** C16: From a transcript whose assistant messages have calls of distinct ids, and with replies
    that keep the ids of their calls distinct ([sane]), every request of a turn is one providers
    accept, whenever the operator sends messages and whatever fails: each tool call is answered
    right behind it, no result stands elsewhere, and the messages the operator queued make one
    message at the end; and the loop does not panic. *)
Theorem requests_paired (fuel : nat) (env : nat → Round) (c : Chat) :
  (∀ i, sane (env i)) → ids_distinct (live c) →
  match run_turn_loop fuel env c with
  | Ok c' => ∃ ls, requests c' = requests c ++ ls ∧ Forall acceptable ls
  | Err f => f = OutOfFuel
  end.
Proof.
  intros Hs Hd. unfold run_turn_loop.
  pose proof (turn_rounds_spec fuel 0 env fresh_budget (send (TurnState true) c) Hs Hd) as H.
  destruct (turn_rounds _ _ _ _ _) as [c'|]; [|done]. destruct H as (Hr & _ & _ & (ls & Eq & _ & Ha) & _).
  cbn [result_bind]. rewrite Hr. by exists ls.
Qed.

(** C7: The log and the live transcript agree: a chat whose log gives its transcript gives, when
    it is opened again after a turn with its retries, compactions, tools and failures, exactly
    the transcript the turn ended with, and no message waits to be logged. The conditions: the
    replies keep the ids of their calls distinct, the transcript is paired and its ids distinct,
    appends succeed, and the operator's messages come only where the loop has nothing of its own
    in hand, each logged in the gap it comes in ([orderly]). The append of a message is not
    under the lock of its push, so that the last is not ensured: [late_append_doubles] and
    [failed_append_loses] are turns without it. *)
Theorem reload_equals_live (fuel : nat) (env : nat → Round) (c c' : Chat) :
  (∀ i, sane (env i)) → (∀ i, orderly (env i)) →
  replay (log c) = live c → unlogged c = [] → ids_distinct (live c) → well_paired (live c) →
  run_turn_loop fuel env c = Ok c' → replay (log c') = live c' ∧ unlogged c' = [].
Proof.
  intros Hs Hn Hc Hu Hd Hw. unfold run_turn_loop.
  pose proof (turn_rounds_spec fuel 0 env fresh_budget (send (TurnState true) c) Hs Hd) as H.
  destruct (turn_rounds _ _ _ _ _) as [c1|]; [|done]. destruct H as (Hr & _ & _ & _ & Hsv).
  cbn [result_bind]. rewrite Hr. intros [= <-]. exact (Hsv Hc Hw Hu Hn).
Qed.

(** A compaction, forced or not, failing or not, leaves either the transcript it found
    with what was queued meanwhile, or the checkpoint and a tail of that: at least three
    messages are folded, at most four kept beside the queued ones, no call is torn from
    its results, the chat may compact again, and when what is queued is logged at once the
    log gives the same transcript. *)
Theorem compaction_keeps_tail (force : bool) (th : N) (t : Z) (rep : Reply) (ms : list Sending) (c : Chat) :
  ids_distinct (live c) → well_paired (live c) →
  ∃ c' q, run_compaction force th t rep ms c = Ok c' ∧ (q = [] ∨ q = users (pushed ms))
    ∧ compacted q c c' ∧ well_paired (live c')
    ∧ (replay (log c) = live c → unlogged c = [] → prompt ms → replay (log c') = live c')
    ∧ compaction_in_flight c' = compaction_in_flight c.
Proof.
  intros Hd Hw. destruct (run_compaction_spec force th t rep ms c Hd Hw)
    as (c' & q & E & Hq & Hc & Hw' & _ & Hs' & _ & _ & _ & Hf).
  exists c', q. split_and!; try done. intros Hs Hu Hp. by apply Hs'.
Qed.

(** ** Concrete turns *)

Module Samples.

Definition failing (e : ProviderError) : Reply := {| deltas := []; ends := Err e |}.

Definition saying (s : str) : Reply :=
  {| deltas := [s];
     ends := Ok {| finish_reason := Stop; final_calls := []; usage := None; final_reasoning := None;
                   final_thinking := [] |} |}.

Definition calling (tcs : list ToolCall) : Reply :=
  {| deltas := [];
     ends := Ok {| finish_reason := ToolCalls; final_calls := tcs; usage := None; final_reasoning := None;
                   final_thinking := [] |} |}.

Definition a_round (rep : Reply) (queued : list Input) : Round :=
  {| now := 0; arrivals := λ g, match g with DuringStream => at_once queued | _ => [] end;
     threshold := 900000%N; limits := (1000000%N, 980000%N); summary_reply := failing Cancelled;
     forced_reply := saying "what happened so far"; reply := rep; message_id := "msg-1";
     synthetic_id := "msg-2"; executed := λ _, (lit "three pods", false); stored := λ _, true;
     decisions := []; completed := [0] |}.

Definition asked (l : list ChatMessage) : Chat :=
  {| live := l; last_total := 0; compaction_in_flight := false; in_flight_message_id := None;
     running := true; log := (λ m, Message m 0) <$> l; channel := []; requests := []; unlogged := [] |}.

(** The model calls a tool, then answers. *)
Definition two_rounds (k : nat) : Round :=
  a_round (if decide (k = 0) then calling [Example_.call "a" "pods_list"] else saying "three pods") [].

End Samples.

Import Example_ Samples.

Lemma sane_round (rep : Reply) (q : list Input) :
  (∀ fin, ends rep = Ok fin → NoDup (tc_id <$> final_calls fin)) → sane (a_round rep q).
Proof. intros H. split; [exact H|]. intros tc. decided. Qed.

Lemma two_rounds_sane (i : nat) : sane (two_rounds i).
Proof.
  apply sane_round. intros fin. case_decide; intros [= <-]; simpl; [|constructor].
  constructor; [set_solver|constructor].
Qed.

Lemma turn_ends_witness :
  ∃ c', run_turn_loop 4010 two_rounds (asked [user "how many pods?"]) = Ok c' ∧ running c' = false.
Proof.
  destruct (turn_ends 0 two_rounds (asked [user "how many pods?"])) as (c' & E & Hr & _).
  - exact two_rounds_sane.
  - repeat constructor.
  - reflexivity.
  - intros i _. unfold two_rounds. by destruct (decide _).
  - by exists c'.
Defined.

Lemma requests_paired_witness :
  match run_turn_loop 3 two_rounds (asked [user "how many pods?"]) with
  | Ok c' => length (requests c') = 2 ∧ ∃ ls, requests c' = [] ++ ls ∧ Forall acceptable ls
  | Err _ => False
  end.
Proof.
  pose proof (requests_paired 3 two_rounds (asked [user "how many pods?"]) two_rounds_sane
                ltac:(repeat constructor)) as H.
  destruct (run_turn_loop _ _ _) as [c'|f] eqn:E; [|vm_compute in E; discriminate].
  split; [|exact H]. vm_compute in E. injection E as <-. reflexivity.
Defined.

Lemma reload_equals_live_witness :
  match run_turn_loop 3 two_rounds (asked [user "how many pods?"]) with
  | Ok c' => (replay (log c') = live c' ∧ unlogged c' = []) ∧ length (live c') = 4
  | Err _ => False
  end.
Proof.
  destruct (run_turn_loop _ _ _) as [c'|f] eqn:E; [|vm_compute in E; discriminate]. split.
  - apply (reload_equals_live 3 two_rounds (asked [user "how many pods?"])); try done.
    + exact two_rounds_sane.
    + intros i. unfold two_rounds. case_decide; by split; [intros []|..].
    + repeat constructor.
  - vm_compute in E. injection E as <-. reflexivity.
Defined.

Definition long_chat : list ChatMessage :=
  [user "1"; asst []; user "2"; asst [call "a" "pods_list"]; answer "a" "ok"; asst []; user "3"; asst []].

Lemma compaction_keeps_tail_witness :
  well_paired long_chat
  ∧ ∃ c' q, run_compaction true 0 0 (saying "so far") [] (asked long_chat) = Ok c'
      ∧ compacted q (asked long_chat) c' ∧ well_paired (live c') ∧ replay (log c') = live c'.
Proof.
  assert (well_paired long_chat) as Hw.
  { unfold long_chat. repeat split; repeat constructor; simpl; set_solver. }
  split; [exact Hw|].
  destruct (compaction_keeps_tail true 0 0 (saying "so far") [] (asked long_chat))
    as (c' & q & E & _ & Hc & Hw' & Hs & _).
  - decided.
  - exact Hw.
  - exists c', q. split_and!; try done. apply Hs; vm_compute; reflexivity.
Defined.

(** Errors of exhausted retries are kept as they came, while others are redacted. *)
Definition overloaded : ProviderError := Http (Some 503%N) "upstream refused: x-api-key: sk-ant-0123456789abcdef".

Example exhausted_error_not_redacted :
  match run_turn_loop 6 (λ _, a_round (failing overloaded) []) (asked [user "hi"]) with
  | Ok c' => content <$> last (live c') = Some (transient_text (error_text overloaded))
             ∧ content <$> last (saved c') = Some (transient_text (error_text overloaded))
  | Err _ => False
  end
  ∧ contains_str "sk-ant-0123456789abcdef" (transient_text (error_text overloaded)) = true
  ∧ contains_str "sk-ant-0123456789abcdef" (redact_secrets (transient_text (error_text overloaded))) = false.
Proof. vm_compute. repeat split. Qed.

(** A question, and another one queued while the first is answered: the answer goes
    before both, and the first question is asked again. *)
Example answer_before_question :
  match run_turn_loop 2 (λ k, if decide (k = 0) then a_round (saying "three") [(lit "and nodes?", [])]
                              else a_round (saying "five") [])
          (asked [user "how many pods?"]) with
  | Ok c' =>
      List.map content (live c') = [lit "three"; lit "how many pods?"; lit "and nodes?"; lit "five"]
      ∧ List.map (List.map content) (requests c')
        = [[lit "how many pods?"]; [lit "three"; lit "how many pods?" ++ [LF; LF] ++ lit "and nodes?"]]
      ∧ List.map content (saved c') = [lit "how many pods?"; lit "and nodes?"; lit "three"; lit "five"]
  | Err _ => False
  end.
Proof. vm_compute. repeat split. Qed.

(** gpt-5.5: 1050000 tokens of context, 922000 of input.  Compaction waits for more tokens
    than the model takes; from the input it would start at 811800. *)
Example threshold_above_input :
  let gpt := {| context := 1050000; input := 922000; output := 128000 |}%N in
  compaction_threshold (Some gpt) 0 = 927000%N
  ∧ compaction_trigger (context_limits_for (Some gpt) 0).2 = 811800%N.
Proof. vm_compute. split; reflexivity. Qed.

(** A round with these sends, which compacts a chat that is long enough. *)
Definition sending (arr : Gap → list Sending) : Round :=
  {| now := 0; arrivals := arr;
     threshold := 1%N; limits := (1000000%N, 980000%N); summary_reply := saying "so far";
     forced_reply := saying "so far"; reply := saying "five"; message_id := "msg-1";
     synthetic_id := "msg-2"; executed := λ _, ([], false); stored := λ _, true; decisions := []; completed := [] |}.

(** The texts of the live transcript behind a turn, and of the one that the log gives. *)
Definition texts_after (r : Round) (l : list ChatMessage) : option (list str * list str) :=
  match run_turn_loop 1 (λ _, r) (set_last_total 5 (asked l)) with
  | Ok c' => Some (List.map content (live c'), List.map content (saved c'))
  | Err _ => None
  end.

(** A message that is pushed while a summary streams, and whose append comes behind the marker:
    the marker has the message in its tail, and the append behind it gives it a second time. *)
Lemma late_append_doubles :
  let kept := [content (checkpoint "so far"); []; lit "3"; []; lit "and nodes?"] in
  let arr g := match g with DuringSummary => [Pushes (lit "and nodes?", [])] | BeforeSnapshot => [Appends 0 true] | _ => [] end in
  texts_after (sending arr) long_chat
  = Some (kept ++ [lit "five"], kept ++ [lit "and nodes?"; lit "five"]).
Proof. vm_compute. reflexivity. Qed.

(** A message whose append fails is answered, and is not there when the chat is opened again. *)
Lemma failed_append_loses :
  let arr g := match g with BeforeCompaction => [Pushes (lit "and nodes?", []); Appends 0 false] | _ => [] end in
  texts_after (sending arr) [user "how many pods?"]
  = Some ([lit "how many pods?"; lit "and nodes?"; lit "five"], [lit "how many pods?"; lit "five"]).
Proof. vm_compute. reflexivity. Qed.

(** /compact while a message is queued: the transcript shrinks below the length the round
    started from, and the message is not seen. *)
Example compaction_hides_queued :
  user_queued_during_round [checkpoint "so far"; asst []; user "and nodes?"] 8 = false.
Proof. reflexivity. Qed.
