(* ===== verification/Conversation.v ===== *)
(** * A turn over a provider

    run_turn_loop of app/src/agent/turn.rs on top of the readers of agent/src/provider/:
    what the sink of run_provider_round makes of a stream ([reply_of]), and what the
    interface [Adapter] gives the turn loop, whatever the provider: the hypothesis of
    [TurnLoop.sane] on call ids, so that the requests of a whole turn are accepted. *)

From S2P Require Import Prelude Utf8 Json Transcript Classify Session Completion OpenAiCompat TurnLoop.

(** ** The sink *)

(** A [Streamed] as the turn loop sees it: the text deltas and the end. *)
Definition reply_of (s : Streamed) : Reply :=
  {| deltas := omap (λ e, match e with Completion.TokenDelta t => Some t | _ => None end) (events s); ends := outcome s |}.

Lemma concat_str_concat (l : list str) : Clip.concat_str l = concat l.
Proof. induction l as [|s l IH]; [done|]. simpl. by rewrite <- IH. Qed.

Section Provider.
Context {conforming : list (result str ProviderError) → Prop} {read : list (result str ProviderError) → Streamed}.
Context `{Adapter conforming read}.

(** A round whose reply is a stream of the provider's protocol. *)
Record over (cs : list (result str ProviderError)) (r : Round) : Prop := {
  over_reply : reply r = reply_of (read cs);
  over_conforming : conforming cs;
  over_output : ∀ tc, Forall (λ x, scalar x = true) (executed r tc).1;
}.

Lemma over_sane cs r : over cs r → sane r.
Proof.
  intros [Hr Hc Ho]. split; [|done]. intros fin. rewrite Hr. intros E. by eapply calls_distinct.
Qed.

(** What a round runs was shown: the text kept in the transcript is the text that was
    streamed to the interface, and every call the turn goes on to run was announced there
    with its name and its arguments. *)
Theorem calls_shown (cs : list (result str ProviderError)) (r : Round) (c c' : Chat)
    (m : ChatMessage) (reason : FinishReason) (calls : list ToolCall) :
  over cs r → run_provider_round r c = (Continue m reason calls, c') →
  content m = text_of (events (read cs)) ∧ tool_calls m = calls ∧ Forall (announces (events (read cs))) calls.
Proof.
  intros [Hr Hc _]. unfold run_provider_round. rewrite Hr. change (ends (reply_of (read cs))) with (outcome (read cs)).
  destruct (outcome (read cs)) as [fin|e] eqn:E.
  - match goal with |- context [if ?b then (EmptyTurn, _) else _] => destruct b; [done|] end. intros [= <- <- <- _]. cbn. split_and!; [apply concat_str_concat|done|by eapply calls_announced].
  - destruct e; repeat case_match; done.
Qed.

(** C11: A whole turn over a provider: however the streams of its rounds end and whatever the
    tools answer, the messages of every request the turn sends are ones an
    OpenAI-compatible server accepts, each call with its answer right behind it, in the
    JSON of the body. *)
Theorem turn_on_wire (streams : nat → list (result str ProviderError)) (env : nat → Round) (fuel : nat) (c : Chat) :
  (∀ i, over (streams i) (env i)) → ids_distinct (live c) →
  match run_turn_loop fuel env c with
  | Ok c' => ∃ ls, requests c' = requests c ++ ls
      ∧ ∀ l p caps req, l ∈ ls → messages req = l → silent "messages" req →
          (∀ field, interleaved_of caps = Some field → field ∉ reserved) →
          ∃ ms, get "messages" (request_body p caps req) = Some (Array ms) ∧ wire_paired [] ms
  | Err f => f = OutOfFuel
  end.
Proof.
  intros Ho Hd. unfold run_turn_loop.
  pose proof (turn_rounds_spec fuel 0 env fresh_budget (send (TurnState true) c) (λ i, over_sane _ _ (Ho i)) Hd) as Hspec.
  destruct (turn_rounds _ _ _ _ _) as [c'|]; [|done]. destruct Hspec as (Hr & _ & _ & (ls & Eq & _ & Ha) & _).
  cbn [result_bind]. rewrite Hr. exists ls. split; [done|]. intros l p caps req Hl <- Hs Hf.
  eexists. rewrite request_body_get by (done || decided). split; [apply default_body_gates|].
  apply wire_paired_messages; [done|]. rewrite Forall_forall in Ha. by destruct (Ha _ Hl).
Qed.
End Provider.

(** ** A turn *)

Module Samples.

Definition a_call : OaToolCallDelta :=
  {| index := Some 0%N; d_id := Some (lit "a");
     function := Some {| d_name := Some (lit "pods_list"); d_arguments := Some (lit "{}") |} |}.

Definition no_delta : OaDelta :=
  {| d_content := None; d_tool_calls := None; d_reasoning_content := None; reasoning_details := None |}.

(** The model calls a tool, then answers. *)
Definition call_event : OaStreamEvent :=
  {| choices := [{| delta := {| d_content := None; d_tool_calls := Some [a_call]; d_reasoning_content := None;
                                reasoning_details := None |};
                    oa_finish_reason := Some (lit "tool_calls") |}];
     oa_usage := None; oa_error := None |}.

Definition text_event : OaStreamEvent :=
  {| choices := [{| delta := {| d_content := Some (lit "three pods"); d_tool_calls := None; d_reasoning_content := None;
                                reasoning_details := None |};
                    oa_finish_reason := Some (lit "stop") |}];
     oa_usage := None; oa_error := None |}.

Definition decode (s : str) : option OaStreamEvent :=
  if decide (s = lit "call") then Some call_event else if decide (s = lit "text") then Some text_event else None.

Definition streams (k : nat) : list (result str ProviderError) :=
  Ok <$> [lit (if decide (k = 0) then "call" else "text"); lit "[DONE]"].

Definition round_of (k : nat) : Round := TurnLoop.Samples.a_round (reply_of (read_stream decode None (streams k))) [].

End Samples.

Import Samples.

Lemma sample_rounds (k : nat) : over (conforming := conforming decode) (read := read_stream decode None) (streams k) (round_of k).
Proof.
  split; [done| |intros tc; decided]. unfold streams. destruct (decide (k = 0)) as [_|_]; split.
  - intros i d rest. assert (deltas_of decode (Ok <$> [lit "call"; lit "[DONE]"]) = [a_call]) as -> by reflexivity.
    unfold of_index. rewrite filter_cons, filter_nil. case_decide; [|done]. intros [= <- _].
    eexists _, _, _. split_and!; reflexivity || done.
  - apply (bool_decide_unpack _). vm_compute. exact I.
  - intros i d rest. by assert (deltas_of decode (Ok <$> [lit "text"; lit "[DONE]"]) = []) as -> by reflexivity.
  - apply (bool_decide_unpack _). vm_compute. exact I.
Qed.

Definition asking : Chat := TurnLoop.Samples.asked [Transcript.Example_.user "how many pods?"].

Lemma calls_shown_witness :
  ∃ m reason calls c', run_provider_round (round_of 0) asking = (Continue m reason calls, c')
    ∧ tc_id <$> calls = [lit "a"] ∧ Forall (announces (events (read_stream decode None (streams 0)))) calls.
Proof.
  destruct (run_provider_round (round_of 0) asking) as [o c'] eqn:E. pose proof E as E'.
  vm_compute in E. injection E as <- _. eexists _, _, _, _. split; [reflexivity|]. split; [reflexivity|].
  by destruct (calls_shown _ _ _ _ _ _ _ (sample_rounds 0) E') as (_ & _ & H).
Defined.

Lemma turn_on_wire_witness :
  match run_turn_loop 3 round_of asking with
  | Ok c' => length (requests c') = 2 ∧ ∃ ls, requests c' = [] ++ ls
      ∧ ∀ l p caps req, l ∈ ls → messages req = l → silent "messages" req →
          (∀ field, interleaved_of caps = Some field → field ∉ reserved) →
          ∃ ms, get "messages" (request_body p caps req) = Some (Array ms) ∧ wire_paired [] ms
  | Err _ => False
  end.
Proof.
  pose proof (turn_on_wire streams round_of 3 asking sample_rounds ltac:(repeat constructor)) as H.
  destruct (run_turn_loop _ _ _) as [c'|f] eqn:E; [|vm_compute in E; discriminate].
  split; [|exact H]. vm_compute in E. injection E as <-. reflexivity.
Defined.
