(* ===== verification/Approvals.v ===== *)
(** * Which tool calls run

    The gate of a chat's turns and the cleanup of its chats (app/src/agent/runtime.rs), the
    classification of tools (agent/src/mcp/mod.rs), execute_tool_call and request_approval
    of app/src/agent/tools.rs with the commands of app/src/agent/commands.rs that answer,
    cancel and close.

    The calls of a batch run concurrently and the operator acts at any time: each step
    below is one critical section of the chat's lock, and the steps interleave freely.
    Aborting a task takes effect at once.  What a tool then does is its own affair;
    [Executes] records that it was called. *)

From S2P Require Import Prelude Transcript Classify Session.

(** ** Classification by name *)

Inductive ToolCategory : Set := Read | Write | Unknown.

#[global] Instance ToolCategory_eq_dec : EqDecision ToolCategory.
Proof. solve_decision. Defined.

Definition WRITE_MARKERS : list str :=
  lit <$> ["create_or_update"; "_create"; "_update"; "_delete"; "_patch"; "_apply"; "_install";
           "_uninstall"; "_upgrade"; "_rollback"; "_exec"; "_run"; "_scale"; "_restart"; "_drain";
           "_cordon"; "_uncordon"; "_evict"]%string.

Definition READ_MARKERS : list str :=
  lit <$> ["_list"; "_get"; "_describe"; "_view"; "_top"; "_log"; "_logs"; "_status"; "events_";
           "configuration_"; "namespaces_"; "resources_list"; "resources_get"]%string.

Definition classify (name : str) : ToolCategory :=
  let n := str_to_ascii_lowercase name in
  if contains_any WRITE_MARKERS n then Write
  else if contains_any READ_MARKERS n then Read
  else Unknown.

(** ** Servers and native tools *)

Record McpTool : Set := { name : str; description : option str; input_schema : json }.

Record ToolSchema : Set := { schema_name : str; schema_description : str; parameters : json }.

(** [process] stands for the client of a running server. *)
Record McpServerHandle : Set := {
  server_id : str;
  server_name : str;
  process : option nat;
  tools : list McpTool;
  trust_as_read : bool;
  message : option str;
}.

Record NativeTool : Set := { schema : ToolSchema; category : ToolCategory }.

Definition tools_to_schemas (tools : list McpTool) : list ToolSchema :=
  (λ t, {| schema_name := name t; schema_description := default [] (description t);
           parameters := input_schema t |}) <$> tools.

(** The schemas of a round. *)
Definition round_schemas (servers : list McpServerHandle) (natives : list NativeTool) : list ToolSchema :=
  (servers ≫= λ s, tools_to_schemas (tools s)) ++ (schema <$> natives).

(** [NativeRegistry::find] *)
Definition find_native (natives : list NativeTool) (n : str) : option NativeTool :=
  snd <$> list_find (λ t, schema_name (schema t) = n) natives.

Definition serves (n : str) (s : McpServerHandle) : bool := existsb (λ t, name t =s n) (tools s).

Definition mcp_tool_is_trusted (servers : list McpServerHandle) (n : str) : bool :=
  existsb (λ s, trust_as_read s && serves n s) servers.

Definition mcp_category (trust : bool) (n : str) : ToolCategory := if trust then Read else classify n.

(** The category execute_tool_call goes by; [passed] is the caller's [classify]. *)
Definition effective_category (natives : list NativeTool) (servers : list McpServerHandle)
    (n : str) (passed : ToolCategory) : ToolCategory :=
  match find_native natives n with
  | Some t => category t
  | None => if mcp_tool_is_trusted servers n then Read else passed
  end.

(** The client dispatch goes to: the first server with the name and a process. *)
Fixpoint find_client (servers : list McpServerHandle) (n : str) : option nat :=
  match servers with
  | [] => None
  | s :: servers =>
      match (if serves n s then process s else None) with
      | Some p => Some p
      | None => find_client servers n
      end
  end.

(** ** The gate of the turns *)

(** Loops are numbered; a handle is the number of the loop it aborts. *)
Record TurnGate : Set := { handle : option nat; claimed : bool }.

Definition idle_gate : TurnGate := {| handle := None; claimed := false |}.

Definition busy (g : TurnGate) : bool := bool_decide (is_Some (handle g)) || claimed g.

Definition claim (g : TurnGate) : bool * TurnGate :=
  if busy g then (false, g) else (true, {| handle := handle g; claimed := true |}).

Definition release (g : TurnGate) : TurnGate := {| handle := handle g; claimed := false |}.

Definition start (i : nat) (g : TurnGate) : TurnGate := {| handle := Some i; claimed := false |}.

Definition finish (g : TurnGate) : TurnGate := {| handle := None; claimed := false |}.

(** The loop to abort, if there was one. *)
Definition abort (g : TurnGate) : option nat * TurnGate := (handle g, {| handle := None; claimed := false |}).

Module Gate.

(** The commands on their way between their claim and spawn_turn_loop, and the loops
    that run. *)
Record State : Set := { gate : TurnGate; starting : nat; loops : gset nat; next : nat }.

Definition gate_initial : State := {| gate := idle_gate; starting := 0; loops := ∅; next := 0 |}.

(** What happens to a gate: chat_send_message or autocontinue_if_idle claims, the latter
    may give the claim back, spawn_turn_loop starts, a loop ends by itself, and
    chat_cancel_streaming or close_chat_runtime aborts. *)
Inductive GateAct : Set := Claim | Release | Start | Finish (i : nat) | Abort_.

Definition gate_act (a : GateAct) (s : State) : option State :=
  match a with
  | Claim =>
      let '(granted, g) := claim (gate s) in
      Some {| gate := g; starting := if granted then S (starting s) else starting s;
              loops := loops s; next := next s |}
  | Release =>
      match starting s with
      | 0 => None
      | S n => Some {| gate := release (gate s); starting := n; loops := loops s; next := next s |}
      end
  | Start =>
      match starting s with
      | 0 => None
      | S n => Some {| gate := start (next s) (gate s); starting := n; loops := {[next s]} ∪ loops s;
                       next := S (next s) |}
      end
  | Finish i =>
      if decide (i ∈ loops s)
      then Some {| gate := finish (gate s); starting := starting s; loops := loops s ∖ {[i]};
                   next := next s |}
      else None
  | Abort_ =>
      let '(o, g) := abort (gate s) in
      Some {| gate := g; starting := starting s;
              loops := match o with Some i => loops s ∖ {[i]} | None => loops s end; next := next s |}
  end.

(** Everything but a cancel or close between a claim and its start. *)
Definition calm (a : GateAct) (s : State) : Prop := a = Abort_ → claimed (gate s) = false.

Definition gate_step (s s' : State) : Prop := ∃ a, calm a s ∧ gate_act a s = Some s'.

(** The gate knows the loop that runs, and of a command about to start one. *)
Definition consistent (s : State) : Prop :=
  match handle (gate s) with
  | Some i => loops s = {[i]} ∧ starting s = 0 ∧ claimed (gate s) = false
  | None => loops s = ∅ ∧ starting s = (if claimed (gate s) then 1 else 0)
  end.

Lemma consistent_step (s s' : State) : consistent s → gate_step s s' → consistent s'.
Proof.
  intros Hc (a & Hcalm & E). unfold consistent, calm in *. destruct s as [[[h|] cl] st ls nx]; simpl in *.
  - destruct Hc as (-> & -> & ->). destruct a; simpl in E; try done; simplify_eq; simpl.
    + done.
    + case_decide as Hi; [|done]. simplify_eq. simpl. split; [set_solver|done].
    + split; [set_solver|done].
  - destruct Hc as (-> & ->). destruct a, cl; simpl in E; try done; simplify_eq; simpl; try done.
    + rewrite (right_id_L ∅ (∪)). done.
    + specialize (Hcalm eq_refl). done.
Qed.

(** One turn at a time: however sends, automatic continuations, ends of turns,
    cancels and closes interleave, as long as no cancel or close falls between a claim and
    the start of its loop, at most one loop runs on a transcript; the gate is free exactly
    when none runs or is about to, and its handle is the one of the loop that runs. *)
Theorem single_loop (s : State) :
  rtc gate_step gate_initial s →
  size (loops s) ≤ 1
  ∧ (busy (gate s) = false ↔ loops s = ∅ ∧ starting s = 0)
  ∧ ∀ i, handle (gate s) = Some i ↔ i ∈ loops s.
Proof.
  intros H. assert (consistent s) as Hc.
  { revert H. apply (rtc_ind_r (R := gate_step) consistent gate_initial); [done|].
    intros s1 s2 _ Hs Hc. by eapply consistent_step. }
  unfold consistent, busy in *. destruct (gate s) as [[h|] cl]; simpl in *.
  - destruct Hc as (-> & -> & ->). rewrite size_singleton.
    split_and!; [lia|split; [done|set_solver]|]. intros i. rewrite elem_of_singleton. naive_solver.
  - destruct Hc as (-> & ->). rewrite size_empty.
    split_and!; [lia|destruct cl; naive_solver|]. intros i. set_solver.
Qed.

Lemma single_loop_witness :
  ∃ s, rtc gate_step gate_initial s ∧ loops s = {[0]} ∧ size (loops s) ≤ 1.
Proof.
  assert (rtc gate_step gate_initial {| gate := start 0 idle_gate; starting := 0; loops := {[0]} ∪ ∅; next := 1 |}) as H.
  { eapply rtc_l; [by exists Claim|]. eapply rtc_l; [by exists Start|]. apply rtc_refl. }
  eexists. split; [exact H|]. split; [vm_compute; reflexivity|].
  destruct (single_loop _ H) as [Hs _]. exact Hs.
Defined.

Definition gate_acts (l : list GateAct) (s : State) : option State := foldl (λ o a, s ← o; gate_act a s) (Some s) l.

(** A cancel in that window stops nothing, forgets the claim, and lets the next send in:
    two loops run on one transcript, and only the second can be cancelled. *)
Example cancel_after_claim :
  (λ s, (loops s, handle (gate s))) <$> gate_acts [Claim; Abort_; Claim; Start; Start] gate_initial
  = Some ({[1; 0]}, Some 1).
Proof. vm_compute. reflexivity. Qed.

End Gate.

(** ** The calls of a chat *)

Module Calls.

Inductive Target : Set := Native (t : NativeTool) | Client (p : nat).

(** Where execute_tool_call is: [Sorted] has the category, [Unapproved] found the name not
    always allowed, [Waiting] asked, [Answered] has the decision, [Cleared] may run. *)
Inductive Phase : Set :=
  | Fresh
  | Sorted (native : option NativeTool) (c : ToolCategory)
  | Unapproved (native : option NativeTool)
  | Waiting (native : option NativeTool)
  | Answered (native : option NativeTool) (d : ApprovalDecision)
  | Cleared (native : option NativeTool)
  | Over.

Record Fiber : Set := { call : ToolCall; fiber_mode : ApprovalMode; phase : Phase }.

(** What happened to the call a fiber executes. *)
Inductive Event : Set :=
  | Begun (n : nat) (tc : ToolCall) (mode : ApprovalMode)
  | Categorised (n : nat) (tc : ToolCall) (servers : list McpServerHandle) (natives : list NativeTool)
  | Asked (n : nat) (tc : ToolCall)
  | Decided (n : nat) (tc : ToolCall) (d : ApprovalDecision)
  | Executes (n : nat) (tc : ToolCall) (target : Target).

Record Runtime : Set := {
  mode : ApprovalMode;
  round_mode : ApprovalMode;
  servers : list McpServerHandle;
  natives : list NativeTool;
  pending_approvals : gmap str nat;
  approved_always : gset str;
  fibers : gmap nat Fiber;
  next_fiber : nat;
  trace : list Event;
}.

Definition set_fibers (f : gmap nat Fiber) (s : Runtime) : Runtime :=
  {| mode := mode s; round_mode := round_mode s; servers := servers s; natives := natives s;
     pending_approvals := pending_approvals s; approved_always := approved_always s; fibers := f;
     next_fiber := next_fiber s; trace := trace s |}.

Definition set_pending (p : gmap str nat) (s : Runtime) : Runtime :=
  {| mode := mode s; round_mode := round_mode s; servers := servers s; natives := natives s;
     pending_approvals := p; approved_always := approved_always s; fibers := fibers s;
     next_fiber := next_fiber s; trace := trace s |}.

Definition set_servers (l : list McpServerHandle) (s : Runtime) : Runtime :=
  {| mode := mode s; round_mode := round_mode s; servers := l; natives := natives s;
     pending_approvals := pending_approvals s; approved_always := approved_always s; fibers := fibers s;
     next_fiber := next_fiber s; trace := trace s |}.

Definition always (n : str) (s : Runtime) : Runtime :=
  {| mode := mode s; round_mode := round_mode s; servers := servers s; natives := natives s;
     pending_approvals := pending_approvals s; approved_always := {[n]} ∪ approved_always s;
     fibers := fibers s; next_fiber := next_fiber s; trace := trace s |}.

Definition emit (e : Event) (s : Runtime) : Runtime :=
  {| mode := mode s; round_mode := round_mode s; servers := servers s; natives := natives s;
     pending_approvals := pending_approvals s; approved_always := approved_always s; fibers := fibers s;
     next_fiber := next_fiber s; trace := trace s ++ [e] |}.

Definition set_modes (m r : ApprovalMode) (s : Runtime) : Runtime :=
  {| mode := m; round_mode := r; servers := servers s; natives := natives s;
     pending_approvals := pending_approvals s; approved_always := approved_always s; fibers := fibers s;
     next_fiber := next_fiber s; trace := trace s |}.

Definition go (n : nat) (f : Fiber) (p : Phase) (s : Runtime) : Runtime :=
  set_fibers (<[n := {| call := call f; fiber_mode := fiber_mode f; phase := p |}]> (fibers s)) s.

Section Act.
(** [serde_json::from_str] succeeds. *)
Context (parses : str → bool).

Definition args_ok (raw : str) : bool := bool_decide (trim raw = []) || parses raw.

Definition destructive (c : ToolCategory) : bool := bool_decide (c = Write) || bool_decide (c = Unknown).

(** A batch begins a call with the mode its round read. *)
Definition begin (tc : ToolCall) (s : Runtime) : Runtime :=
  let n := next_fiber s in
  {| mode := mode s; round_mode := round_mode s; servers := servers s; natives := natives s;
     pending_approvals := pending_approvals s; approved_always := approved_always s;
     fibers := <[n := {| call := tc; fiber_mode := round_mode s; phase := Fresh |}]> (fibers s);
     next_fiber := S n; trace := trace s ++ [Begun n tc (round_mode s)] |}.

(** execute_tool_call, up to the next lock. *)
Definition advance (n : nat) (f : Fiber) (s : Runtime) : option Runtime :=
  let tc := call f in
  match phase f with
  | Fresh =>
      if args_ok (arguments tc) then
        let c := effective_category (natives s) (servers s) (tc_name tc) (classify (tc_name tc)) in
        Some (go n f (Sorted (find_native (natives s) (tc_name tc)) c)
                (emit (Categorised n tc (servers s) (natives s)) s))
      else Some (go n f Over s)
  | Sorted native c =>
      if destructive c && negb (bool_decide (fiber_mode f = AllowAllWrites)) then
        if decide (tc_name tc ∈ approved_always s) then Some (go n f (Cleared native) s)
        else Some (go n f (Unapproved native) s)
      else Some (go n f (Cleared native) s)
  | Unapproved native =>
      let s := set_pending (<[tc_id tc := n]> (pending_approvals s)) s in
      Some (go n f (Waiting native) (emit (Asked n tc) s))
  | Waiting native =>
      (* the sender is gone *)
      if decide (pending_approvals s !! tc_id tc = Some n) then None else Some (go n f Over s)
  | Answered native Approved => Some (go n f (Cleared native) s)
  | Answered native ApprovedAlways => Some (go n f (Cleared native) (always (tc_name tc) s))
  | Answered native Denied => Some (go n f Over s)
  | Cleared (Some t) => Some (go n f Over (emit (Executes n tc (Native t)) s))
  | Cleared None =>
      match find_client (servers s) (tc_name tc) with
      | Some p => Some (go n f Over (emit (Executes n tc (Client p)) s))
      | None => Some (go n f Over s)
      end
  | Over => None
  end.

(** chat_approve_tool_call *)
Definition approve (id : str) (d : ApprovalDecision) (s : Runtime) : Runtime :=
  match pending_approvals s !! id with
  | None => s
  | Some n =>
      let s := set_pending (delete id (pending_approvals s)) s in
      match fibers s !! n with
      | Some f =>
          match phase f with
          | Waiting native => go n f (Answered native d) (emit (Decided n (call f) d) s)
          | _ => s
          end
      | None => s
      end
  end.

(** chat_cancel_streaming of a running turn, and close_chat_runtime: the task and its
    calls are gone, the senders are dropped. *)
Definition cancel (s : Runtime) : Runtime := set_pending ∅ (set_fibers ∅ s).

Definition close (s : Runtime) : Runtime := set_servers [] (cancel s).

Inductive Act : Set :=
  | BeginRound | Begin (tc : ToolCall) | Advance (n : nat) | Approve (id : str) (d : ApprovalDecision)
  | SetMode (m : ApprovalMode) | McpReady (i : nat) (h : McpServerHandle) | Cancel | Close.

Definition act (a : Act) (s : Runtime) : option Runtime :=
  match a with
  | BeginRound => Some (set_modes (mode s) (mode s) s)
  | Begin tc => Some (begin tc s)
  | Advance n => f ← fibers s !! n; advance n f s
  | Approve id d => Some (approve id d s)
  | SetMode m => Some (set_modes m (round_mode s) s)
  | McpReady i h => Some (set_servers (<[i := h]> (servers s)) s)
  | Cancel => Some (cancel s)
  | Close => Some (close s)
  end.

Definition initial (m : ApprovalMode) (ss : list McpServerHandle) (ns : list NativeTool) : Runtime :=
  {| mode := m; round_mode := m; servers := ss; natives := ns; pending_approvals := ∅;
     approved_always := ∅; fibers := ∅; next_fiber := 0; trace := [] |}.

Definition step (s s' : Runtime) : Prop := ∃ a, act a s = Some s'.

(** ** Why a call may run *)

Definition justified (tr : list Event) (n : nat) (tc : ToolCall) : Prop :=
  (∃ ss ns, Categorised n tc ss ns ∈ tr
     ∧ effective_category ns ss (tc_name tc) (classify (tc_name tc)) = Read)
  ∨ Begun n tc AllowAllWrites ∈ tr
  ∨ Decided n tc Approved ∈ tr
  ∨ ∃ n' tc', Decided n' tc' ApprovedAlways ∈ tr ∧ tc_name tc' = tc_name tc.

Definition event_fiber (e : Event) : nat :=
  match e with
  | Begun n _ _ | Categorised n _ _ _ | Asked n _ | Decided n _ _ | Executes n _ _ => n
  end.

Definition unexecuted (tr : list Event) (n : nat) : Prop := ∀ tc t, Executes n tc t ∉ tr.

Definition undecided (tr : list Event) (n : nat) : Prop := ∀ tc d, Decided n tc d ∉ tr.

Definition not_denied (tr : list Event) (n : nat) : Prop := ∀ tc, Decided n tc Denied ∉ tr.

Definition event_ok (tr : list Event) (e : Event) : Prop :=
  match e with
  | Executes n tc _ => justified tr n tc ∧ unexecuted tr n ∧ not_denied tr n
  | Decided n tc Denied => unexecuted tr n
  | _ => True
  end.

Definition trace_ok (tr : list Event) : Prop :=
  ∀ pre e post, tr = pre ++ e :: post → event_ok pre e.

Definition phase_ok (tr : list Event) (n : nat) (f : Fiber) : Prop :=
  match phase f with
  | Fresh | Unapproved _ | Waiting _ => undecided tr n
  | Sorted _ c =>
      undecided tr n
      ∧ ∃ ss ns, Categorised n (call f) ss ns ∈ tr
          ∧ c = effective_category ns ss (tc_name (call f)) (classify (tc_name (call f)))
  | Answered _ d => Decided n (call f) d ∈ tr ∧ (d = Denied ∨ not_denied tr n)
  | Cleared _ => justified tr n (call f) ∧ not_denied tr n
  | Over => True
  end.

Definition fiber_ok (tr : list Event) (n : nat) (f : Fiber) : Prop :=
  Begun n (call f) (fiber_mode f) ∈ tr ∧ (phase f ≠ Over → unexecuted tr n) ∧ phase_ok tr n f.

Record inv (s : Runtime) : Prop := {
  inv_trace : trace_ok (trace s);
  inv_fibers : ∀ n f, fibers s !! n = Some f → fiber_ok (trace s) n f;
  inv_next : ∀ n, is_Some (fibers s !! n) ∨ (∃ e, e ∈ trace s ∧ event_fiber e = n) → n < next_fiber s;
  inv_always : ∀ x, x ∈ approved_always s → ∃ n tc, Decided n tc ApprovedAlways ∈ trace s ∧ tc_name tc = x;
}.

Lemma trace_ok_snoc (tr : list Event) (e : Event) : trace_ok tr → event_ok tr e → trace_ok (tr ++ [e]).
Proof.
  intros Ht He pre e' post E. destruct post as [|x post _] using rev_ind.
  - apply app_inj_tail in E as [-> ->]. done.
  - rewrite app_comm_cons, (assoc_L (++)) in E. apply app_inj_tail in E as [E _]. by eapply Ht.
Qed.

Lemma justified_snoc (tr : list Event) (e : Event) n tc : justified tr n tc → justified (tr ++ [e]) n tc.
Proof. unfold justified. setoid_rewrite elem_of_app. naive_solver. Qed.

(** Events of other fibers change nothing. *)
Lemma fiber_ok_snoc (tr : list Event) (e : Event) n f :
  event_fiber e ≠ n → fiber_ok tr n f → fiber_ok (tr ++ [e]) n f.
Proof.
  intros He (Hb & Hx & Hp).
  assert (∀ x, event_fiber x = n → x ∉ tr → x ∉ tr ++ [e]) as Hnot.
  { intros x Hxn Hx'. rewrite elem_of_app, list_elem_of_singleton. intros [?| ->]; done. }
  split_and!; [by apply elem_of_app; left| |].
  - intros Ho tc t. apply Hnot; [done|]. by apply Hx.
  - unfold phase_ok in *. destruct (phase f); try done.
    1, 3, 4: intros tc d; apply Hnot; [done|]; apply Hp.
    + destruct Hp as (Hu & ss & ns & Hc & E). split; [intros tc d; apply Hnot; [done|]; apply Hu|].
      exists ss, ns. split; [|done]. apply elem_of_app. by left.
    + destruct Hp as [Hd Hn]. split; [apply elem_of_app; by left|]. destruct Hn as [?|Hn]; [by left|right].
      intros tc. apply Hnot; [done|]. apply Hn.
    + destruct Hp as [Hj Hn]. split; [by apply justified_snoc|]. intros tc. apply Hnot; [done|]. apply Hn.
Qed.

Lemma inv_go (s : Runtime) n f p :
  inv s → fibers s !! n = Some f → (phase f ≠ Over ∨ p = Over) →
  phase_ok (trace s) n {| call := call f; fiber_mode := fiber_mode f; phase := p |} →
  inv (go n f p s).
Proof.
  intros [Ht Hf Hn Ha] E Ho Hp. split; simpl; try done.
  - intros m g. rewrite lookup_insert_Some. intros [[-> <-]|[Hne Hg]]; [|by apply Hf].
    destruct (Hf m f E) as (Hb & Hx & _). split_and!; [done|simpl; tauto|done].
  - intros m [Hm|Hm]; apply Hn; [left|by right]. destruct (decide (n = m)) as [->|Hne]; [by eexists|].
    by rewrite lookup_insert_ne in Hm.
Qed.

Lemma inv_emit (s : Runtime) n f p e :
  inv s → fibers s !! n = Some f → event_fiber e = n → event_ok (trace s) e →
  (p ≠ Over → phase f ≠ Over ∧ ∀ tc t, e ≠ Executes n tc t) →
  phase_ok (trace s ++ [e]) n {| call := call f; fiber_mode := fiber_mode f; phase := p |} →
  inv (go n f p (emit e s)).
Proof.
  intros [Ht Hf Hn Ha] E He Hok Ho Hp. split; simpl.
  - by apply trace_ok_snoc.
  - intros m g. rewrite lookup_insert_Some. intros [[-> <-]|[Hne Hg]].
    + destruct (Hf m f E) as (Hb & Hx & _). split_and!; simpl; [by apply elem_of_app; left| |done].
      intros Hov tc t. destruct (Ho Hov) as [Hph Hex]. rewrite elem_of_app, list_elem_of_singleton.
      intros [Hin|Heq]; [by eapply Hx|by eapply Hex].
    + apply fiber_ok_snoc; [congruence|by apply Hf].
  - intros m [Hm|(x & Hx & Hxm)].
    + apply Hn. left. destruct (decide (n = m)) as [->|Hne]; [by eexists|]. by rewrite lookup_insert_ne in Hm.
    + apply elem_of_app in Hx as [Hx|Hx]; [apply Hn; right; by exists x|].
      apply list_elem_of_singleton in Hx as ->. apply Hn. left. rewrite <- Hxm, He. by eexists.
  - intros x Hx. destruct (Ha x Hx) as (m & tc & Hd & Hname). exists m, tc. split; [|done].
    apply elem_of_app. by left.
Qed.

Lemma inv_begin (tc : ToolCall) (s : Runtime) : inv s → inv (begin tc s).
Proof.
  intros [Ht Hf Hn Ha]. set (n := next_fiber s).
  assert (∀ e, e ∈ trace s → event_fiber e ≠ n) as Hfresh.
  { intros e He E. specialize (Hn n (or_intror (ex_intro _ e (conj He E)))). unfold n in Hn. lia. }
  split; simpl.
  - by apply trace_ok_snoc.
  - intros m g. rewrite lookup_insert_Some. intros [[<- <-]|[Hne Hg]]; [|by apply fiber_ok_snoc; [|apply Hf]].
    split_and!; simpl.
    + apply elem_of_app. right. by left.
    + intros _ tc' t. rewrite elem_of_app, list_elem_of_singleton. intros [Hin|?]; [|done]. by apply Hfresh in Hin.
    + intros tc' d. rewrite elem_of_app, list_elem_of_singleton. intros [Hin|?]; [|done]. by apply Hfresh in Hin.
  - intros m [Hm|(e & He & <-)].
    + destruct (decide (n = m)) as [<-|Hne]; [unfold n; lia|]. rewrite lookup_insert_ne in Hm by done.
      specialize (Hn m (or_introl Hm)). lia.
    + apply elem_of_app in He as [He|He]; [specialize (Hn _ (or_intror (ex_intro _ e (conj He eq_refl)))); lia|].
      apply list_elem_of_singleton in He as ->. simpl. unfold n. lia.
  - intros x Hx. destruct (Ha x Hx) as (m & tc' & Hd & Hname). exists m, tc'. split; [|done].
    apply elem_of_app. by left.
Qed.

Lemma undecided_not_denied (tr : list Event) n : undecided tr n → not_denied tr n.
Proof. intros H tc. apply H. Qed.

(** A state that differs in nothing the invariant speaks of, or has fewer fibers. *)
Lemma inv_frame (s s' : Runtime) :
  trace s' = trace s → fibers s' ⊆ fibers s → next_fiber s' = next_fiber s →
  approved_always s' = approved_always s → inv s → inv s'.
Proof.
  intros E1 Hs E2 E3 [Ht Hf Hn Ha]. split; rewrite ?E1, ?E2, ?E3; try done.
  - intros n f Hnf. apply Hf. by eapply lookup_weaken.
  - intros n [[f Hnf]|Hnf]; apply Hn; [left|by right]. exists f. by eapply lookup_weaken.
Qed.

Lemma inv_always_add (s : Runtime) n tc :
  Decided n tc ApprovedAlways ∈ trace s → inv s → inv (always (tc_name tc) s).
Proof.
  intros Hd [Ht Hf Hn Ha]. split; simpl; try done.
  intros x. rewrite elem_of_union, elem_of_singleton. intros [->|Hx]; [by exists n, tc|by apply Ha].
Qed.

Ltac snoc_absent H :=
  repeat intro; match goal with Hin : _ ∈ _ ++ [_] |- _ =>
    apply elem_of_app in Hin as [Hin|Hin]; [by eapply H|by apply list_elem_of_singleton in Hin] end.

Lemma inv_advance (n : nat) (f : Fiber) (s s' : Runtime) :
  inv s → fibers s !! n = Some f → advance n f s = Some s' → inv s'.
Proof.
  intros Hi E. pose proof (inv_fibers s Hi n f E) as (Hb & Hx & Hp).
  unfold advance. unfold phase_ok in Hp. destruct (phase f) as [|nat c|nat|nat|nat d|nat|] eqn:Ep; try done.
  - case_match; intros; simplify_eq; [|by apply inv_go; auto].
    apply inv_emit; [done..| |]; [rewrite Ep; done|]. split.
    + snoc_absent Hp.
    + eexists _, _. split; [|done]. apply elem_of_app. right. by left.
  - destruct Hp as (Hu & ss & ns & Hc & Hcat). pose proof (undecided_not_denied _ _ Hu).
    assert (∀ p, justified (trace s) n (call f) → inv (go n f (Cleared p) s)) as Hclear.
    { intros p Hj. apply inv_go; [done..| |]; [left; rewrite Ep; done|by split]. }
    destruct (destructive c && _) eqn:Ed; [destruct (decide (_ ∈ approved_always s)) as [Hal|]|]; intros HE; injection HE as <-.
    + apply Hclear. right. right. right. destruct (inv_always s Hi _ Hal) as (n' & tc' & ? & ?). by exists n', tc'.
    + apply inv_go; [done..| |done]. left. by rewrite Ep.
    + apply Hclear. apply andb_false_iff in Ed as [Ed|Ed].
      * left. exists ss, ns. split; [done|]. rewrite <- Hcat. unfold destructive in Ed.
        bool_to_prop. by destruct c.
      * right. left. bool_to_prop. by rewrite <- Ed.
  - intros; simplify_eq. apply inv_emit; [by eapply inv_frame; [..|exact Hi]|done..| |]; [rewrite Ep; done|].
    snoc_absent Hp.
  - case_decide; intros; simplify_eq. apply inv_go; auto. done.
  - destruct Hp as [Hd Hn]. assert (∀ s0 p, inv s0 → fibers s0 = fibers s → trace s0 = trace s →
      justified (trace s) n (call f) → d ≠ Denied → inv (go n f (Cleared p) s0)) as Hclear.
    { intros s0 p Hi0 Ef Et Hj Hnd. apply inv_go; [done|by rewrite Ef|left; rewrite Ep; done|].
      split; rewrite Et; [done|]. by destruct Hn. }
    destruct d; intros; simplify_eq; [apply Hclear; try done|apply inv_go; auto; done|apply Hclear; try done].
    + right. right. by left.
    + by eapply inv_always_add.
    + right. right. right. by exists n, (call f).
  - destruct Hp as [Hj Hn]. specialize (Hx ltac:(done)).
    destruct nat as [t|]; [|destruct (find_client _ _)]; intros; simplify_eq;
      [apply inv_emit; done..|by apply inv_go; auto].
Qed.

Lemma inv_approve (id : str) (d : ApprovalDecision) (s : Runtime) : inv s → inv (approve id d s).
Proof.
  intros Hi. unfold approve. destruct (pending_approvals s !! id) as [n|]; [|done].
  assert (inv (set_pending (delete id (pending_approvals s)) s)) as Hi' by by eapply inv_frame; [..|exact Hi].
  destruct (fibers (set_pending _ s) !! n) as [f|] eqn:E; [|done].
  destruct (phase f) as [| | |nat| | |] eqn:Ep; try done.
  pose proof (inv_fibers _ Hi' n f E) as (Hb & Hx & Hp). unfold phase_ok in Hp. rewrite Ep in *.
  apply inv_emit; [done..| | |].
  - destruct d; try done. by apply Hx.
  - intros _. by rewrite Ep.
  - split; simpl.
    + apply elem_of_app. right. by left.
    + destruct d; [right| by left|right]; snoc_absent Hp.
Qed.

Lemma calls_inv_step (s s' : Runtime) : inv s → step s s' → inv s'.
Proof.
  intros Hi [a E]. destruct a as [|tc|n|id d|m|i h| |]; simpl in E; simplify_eq.
  - by eapply inv_frame; [..|exact Hi].
  - by apply inv_begin.
  - destruct (fibers s !! n) as [f|] eqn:Ef; [|done]. by eapply inv_advance.
  - by apply inv_approve.
  - by eapply inv_frame; [..|exact Hi].
  - by eapply inv_frame; [..|exact Hi].
  - eapply inv_frame; [..|exact Hi]; try done. apply map_empty_subseteq.
  - eapply inv_frame; [..|exact Hi]; try done. apply map_empty_subseteq.
Qed.

Lemma inv_initial m ss ns : inv (initial m ss ns).
Proof.
  split; simpl; try done.
  - intros [] ? ? E; discriminate.
  - intros n [[? ?]|(e & He & _)]; [done|]. by apply not_elem_of_nil in He.
Qed.

(** C3: No call runs unasked: however the calls of a batch, the operator's decisions,
    changes of mode, servers coming up, cancels and closes interleave, a call that runs
    was classified as a read, or began in a round that allows all writes, or was approved
    itself, or calls a tool the operator approved for good before; it runs once at most,
    and never when it was denied. *)
Theorem calls_approved (m : ApprovalMode) (ss : list McpServerHandle) (ns : list NativeTool) (s : Runtime)
    (pre post : list Event) (n : nat) (tc : ToolCall) (t : Target) :
  rtc step (initial m ss ns) s → trace s = pre ++ Executes n tc t :: post →
  justified pre n tc ∧ unexecuted pre n ∧ unexecuted post n ∧ not_denied (trace s) n.
Proof.
  intros H E. assert (inv s) as Hi.
  { revert H. apply (rtc_ind_r (R := step) inv (initial m ss ns)); [apply inv_initial|].
    intros s1 s2 _ Hs Hinv. by eapply calls_inv_step. }
  pose proof (inv_trace s Hi) as Ht. destruct (Ht _ _ _ E) as (Hj & Hx & Hn). split_and!; [done..| |].
  - intros tc' t' (l1 & l2 & ->)%list_elem_of_split. rewrite app_comm_cons, (assoc_L (++)) in E.
    destruct (Ht _ _ _ E) as (_ & Hx' & _). apply (Hx' tc t). apply elem_of_app. right. by left.
  - intros tc'. rewrite E, elem_of_app, elem_of_cons. intros [?|[?|Hin]]; [by eapply Hn|done|].
    apply list_elem_of_split in Hin as (l1 & l2 & ->). rewrite app_comm_cons, (assoc_L (++)) in E.
    specialize (Ht _ _ _ E). simpl in Ht. apply (Ht tc t). apply elem_of_app. right. by left.
Qed.

(** Where a name has one server, trust is the trust of the server that gets the call. *)
Lemma trust_of_owner (servers : list McpServerHandle) (x : str) p :
  (∀ s s', s ∈ servers → s' ∈ servers → serves x s = true → serves x s' = true → s = s') →
  mcp_tool_is_trusted servers x = true → find_client servers x = Some p →
  ∃ s, s ∈ servers ∧ process s = Some p ∧ trust_as_read s = true.
Proof.
  intros Hu Ht Hf. apply existsb_exists in Ht as (s & Hs & Hts). bool_to_prop.
  apply list_elem_of_In in Hs. exists s.
  assert (∀ l, find_client l x = Some p → ∃ s', s' ∈ l ∧ serves x s' = true ∧ process s' = Some p) as Hfind.
  { clear. induction l as [|s l IH]; simpl; [done|]. intros E.
    assert (find_client l x = Some p → ∃ s', s' ∈ s :: l ∧ serves x s' = true ∧ process s' = Some p) as Hl.
    { intros El. destruct (IH El) as (s' & ? & ?). exists s'. split; [by right|done]. }
    destruct (serves x s) eqn:Es; [|by apply Hl].
    destruct (process s) as [q|] eqn:Eq; [|by apply Hl]. simplify_eq. exists s. split; [by left|done]. }
  destruct (Hfind servers Hf) as (s' & Hs' & Hx' & Hp).
  assert (s = s') as <- by by apply Hu. done.
Qed.
End Act.

(** *** Concrete calls *)

Definition tool (n : str) : McpTool := {| name := n; description := None; input_schema := "{}" |}.

Definition server (i : nat) (n : str) (trusted : bool) : McpServerHandle :=
  {| server_id := n; server_name := n; process := Some i; tools := [tool "pods_delete"];
     trust_as_read := trusted; message := None |}.

Definition delete_call : ToolCall := Example_.call "call_1" "pods_delete".

Definition acts (l : list Act) (s : Runtime) : option Runtime :=
  foldl (λ o a, s ← o; act (λ _, true) a s) (Some s) l.

Lemma acts_rtc (l : list Act) (s s' : Runtime) : acts l s = Some s' → rtc (step (λ _, true)) s s'.
Proof.
  revert s'. induction l as [|a l IH] using rev_ind; intros s'; [intros [= <-]; constructor|].
  unfold acts. rewrite foldl_app. simpl. destruct (foldl _ _ l) as [s1|] eqn:E; [|done]. simpl. intros Ha.
  eapply rtc_r; [by apply IH|]. by exists a.
Qed.

Definition approved_run : list Act :=
  [BeginRound; Begin delete_call; Advance 0; Advance 0; Advance 0; Approve "call_1" Approved; Advance 0; Advance 0].

Lemma calls_approved_witness :
  match acts approved_run (initial ApprovePerWrite [server 7 "kube" false] []) with
  | Some s => ∃ pre, trace s = pre ++ [Executes 0 delete_call (Client 7)]
                ∧ justified pre 0 delete_call ∧ unexecuted pre 0
  | None => False
  end.
Proof.
  destruct (acts _ _) as [s|] eqn:E; [|vm_compute in E; discriminate].
  pose proof (acts_rtc _ _ _ E) as Hr.
  exists (take 4 (trace s)).
  assert (trace s = take 4 (trace s) ++ Executes 0 delete_call (Client 7) :: []) as Ht.
  { vm_compute in E. injection E as <-. reflexivity. }
  destruct (calls_approved (λ _, true) _ _ _ s _ _ _ _ _ Hr Ht) as (H1 & H2 & _).
  split; [exact Ht|]. split; [exact H1|exact H2].
Defined.

(** Two servers with one name: the second is trusted, the first gets the call, unasked. *)
Example collision_runs_untrusted :
  trace <$> acts [BeginRound; Begin delete_call; Advance 0; Advance 0; Advance 0]
              (initial ApprovePerWrite [server 0 "anything" false; server 1 "trusted" true] [])
  = Some [Begun 0 delete_call ApprovePerWrite;
          Categorised 0 delete_call [server 0 "anything" false; server 1 "trusted" true] [];
          Executes 0 delete_call (Client 0)].
Proof. vm_compute. reflexivity. Qed.

(** Two calls under one id ask in turn: the second question takes the place of the first,
    which counts as denied. *)
Example same_id_denies_first :
  (λ s, (phase <$> fibers s !! 0, phase <$> fibers s !! 1)) <$>
    acts [Begin delete_call; Begin delete_call; Advance 0; Advance 0; Advance 0; Advance 1; Advance 1;
          Advance 1; Advance 0; Approve "call_1" Approved]
      (initial ApprovePerWrite [server 0 "kube" false] [])
  = Some (Some Over, Some (Answered None Approved)).
Proof. vm_compute. reflexivity. Qed.

End Calls.

(** A native tool under the name of an MCP tool: both schemas go out, the MCP one first,
    and the call goes to the native tool. *)
Definition native_delete : NativeTool :=
  {| schema := {| schema_name := "pods_delete"; schema_description := "native"; parameters := "{}" |};
     category := Read |}.

Example native_shadows_mcp :
  (schema_description <$> round_schemas [Calls.server 0 "kube" false] [native_delete])
    = [[]; lit "native"]
  ∧ find_native [native_delete] "pods_delete" = Some native_delete
  ∧ effective_category [native_delete] [Calls.server 0 "kube" false] "pods_delete" (classify "pods_delete") = Read.
Proof. vm_compute. repeat split. Qed.

(** ** The chats of a cluster *)

Module Chats.

Definition chats_matching_cluster (pairs : list (str * str)) (cluster_id : str) : list str :=
  fst <$> filter (λ p, p.2 = cluster_id) pairs.

(** AgentState::close_chats_for_cluster; [gone] are the chats others closed after the
    snapshot, before it gets to them.  A chat is its cluster. *)
Definition close_chats_for_cluster (cluster_id : str) (gone : gset str) (chats : gmap str str) :
    nat * gmap str str :=
  let matching := chats_matching_cluster (map_to_list chats) cluster_id in
  foldl (λ '(closed, chats) id,
           match chats !! id with Some _ => (S closed, delete id chats) | None => (closed, chats) end)
    (0, filter (λ p, p.1 ∉ gone) chats) matching.

#[local] Ltac filters :=
  apply map_eq; intros i; apply option_eq; intros x;
  rewrite ?lookup_insert_Some, ?lookup_empty, ?map_lookup_filter_Some, ?lookup_delete_Some; simpl;
  rewrite ?elem_of_cons, ?elem_of_nil;
  repeat match goal with j : str |- _ => assert_fails (constr_eq i j); destruct (decide (i = j)) as [->|]; clear j end;
  naive_solver.

Lemma closed_all (ids : list str) (n : nat) (m : gmap str str) :
  NoDup ids →
  foldl (λ '(closed, chats) id,
           match chats !! id with Some _ => (S closed, delete id chats) | None => (closed, chats) end) (n, m) ids
  = (n + size (filter (λ p, p.1 ∈ ids) m), filter (λ p, p.1 ∉ ids) m).
Proof.
  intros Hnd. revert n m. induction Hnd as [|id ids Hid _ IH]; intros n m.
  - cbn [foldl]. f_equal; [|by filters].
    assert (filter (λ p : str * str, p.1 ∈ []) m = ∅) as -> by filters. by rewrite map_size_empty, Nat.add_0_r.
  - cbn [foldl]. destruct (m !! id) as [c|] eqn:E; rewrite IH.
    + f_equal.
      * assert (filter (λ p, p.1 ∈ id :: ids) m = <[id := c]> (filter (λ p : str * str, p.1 ∈ ids) (delete id m))) as ->.
        { filters. }
        rewrite map_size_insert_None; [lia|]. apply map_lookup_filter_None. left. apply lookup_delete_eq.
      * filters.
    + f_equal; [f_equal; f_equal|]; filters.
Qed.

(** Exactly the chats of the cluster go, and each one that was still there is counted. *)
Lemma close_chats_spec (c : str) (gone : gset str) (chats : gmap str str) :
  let left := filter (λ p, p.1 ∉ gone) chats in
  close_chats_for_cluster c gone chats
  = (size (filter (λ p, p.2 = c) left), filter (λ p, p.2 ≠ c) left).
Proof.
  intros left. unfold close_chats_for_cluster. rewrite closed_all.
  2: { eapply sublist_NoDup; [apply (NoDup_fst_map_to_list chats)|]. apply fmap_sublist, sublist_filter. }
  assert (∀ i x, left !! i = Some x → i ∈ chats_matching_cluster (map_to_list chats) c ↔ x = c) as Hin.
  { intros i x Hx. apply map_lookup_filter_Some in Hx as [Hx _]. unfold chats_matching_cluster.
    rewrite list_elem_of_fmap. split.
    - intros ([j y] & -> & Hj). apply list_elem_of_filter in Hj as [Hy Hj]. simpl in *.
      apply elem_of_map_to_list in Hj. congruence.
    - intros ->. exists (i, c). split; [done|]. apply list_elem_of_filter. split; [done|].
      by apply elem_of_map_to_list. }
  rewrite Nat.add_0_l. f_equal; [f_equal|]; apply map_filter_ext; intros i x Hx; simpl; by rewrite Hin.
Qed.

End Chats.
