(* ===== verification/Kinds.v ===== *)
(** * The kinds of the rail

    The [meta] of every built-in kind (kube-ext/src/kinds/) in the order of registry(), and
    the well-known CRDs of kube-ext/src/well_known/ (short id, group, kind, category,
    columns).  The projections of rows are not modelled here. *)

From S2P Require Import Prelude.

(** ** Descriptors (kube-ext/src/registry.rs) *)

Inductive Category : Set := Workloads | Network | Config | Storage | Access | Cluster | Apps | CustomResources.

Inductive ColumnKind : Set := Text | Number | Age | Phase.

Record ColumnDef : Set := { column_id : str; header : str; column_kind : option ColumnKind }.

Record ResourceKind : Set := {
  id : str;
  group : str;
  version : str;
  kind : str;
  plural : str;
  namespaced : bool;
  category : Category;
  columns : list ColumnDef;
}.

Record WellKnownCrd : Set := {
  short_id : str;
  wk_group : str;
  wk_kind : str;
  wk_category : Category;
  wk_columns : list ColumnDef;
}.

#[global] Instance Category_eq_dec : EqDecision Category.
Proof. solve_decision. Defined.

#[global] Instance ColumnKind_eq_dec : EqDecision ColumnKind.
Proof. solve_decision. Defined.

#[global] Instance ColumnDef_eq_dec : EqDecision ColumnDef.
Proof. solve_decision. Defined.

#[global] Instance ResourceKind_eq_dec : EqDecision ResourceKind.
Proof. solve_decision. Defined.

#[global] Instance WellKnownCrd_eq_dec : EqDecision WellKnownCrd.
Proof. solve_decision. Defined.

Definition col (i h : string) (k : ColumnKind) : ColumnDef :=
  {| column_id := lit i; header := lit h; column_kind := Some k |}.

(** ** Built-in kinds *)

Definition pods_meta : ResourceKind :=
  {| id := "pods"; group := ""; version := "v1"; kind := "Pod"; plural := "pods";
     namespaced := true; category := Workloads;
     columns :=
      [col "name" "Name" Text; col "namespace" "Namespace" Text; col "phase" "Status" Phase;
       col "ready" "Ready" Text; col "restarts" "Restarts" Number; col "cpu" "CPU" Number;
       col "mem" "Mem" Number; col "controlled_by" "Controlled By" Text;
       col "node" "Node" Text; col "creation_timestamp" "Age" Age] |}.

Definition deployments_meta : ResourceKind :=
  {| id := "deployments"; group := "apps"; version := "v1"; kind := "Deployment"; plural := "deployments";
     namespaced := true; category := Workloads;
     columns :=
      [col "name" "Name" Text; col "namespace" "Namespace" Text; col "ready" "Ready" Text;
       col "up_to_date" "Up-to-date" Number; col "available" "Available" Number;
       col "creation_timestamp" "Age" Age] |}.

Definition replica_sets_meta : ResourceKind :=
  {| id := "replicasets"; group := "apps"; version := "v1"; kind := "ReplicaSet"; plural := "replicasets";
     namespaced := true; category := Workloads;
     columns :=
      [col "name" "Name" Text; col "namespace" "Namespace" Text;
       col "desired" "Desired" Number; col "current" "Current" Number;
       col "ready" "Ready" Number; col "creation_timestamp" "Age" Age] |}.

Definition replication_controllers_meta : ResourceKind :=
  {| id := "replicationcontrollers"; group := ""; version := "v1"; kind := "ReplicationController"; plural := "replicationcontrollers";
     namespaced := true; category := Workloads;
     columns :=
      [col "name" "Name" Text; col "namespace" "Namespace" Text;
       col "desired" "Desired" Number; col "current" "Current" Number;
       col "ready" "Ready" Number; col "creation_timestamp" "Age" Age] |}.

Definition stateful_sets_meta : ResourceKind :=
  {| id := "statefulsets"; group := "apps"; version := "v1"; kind := "StatefulSet"; plural := "statefulsets";
     namespaced := true; category := Workloads;
     columns :=
      [col "name" "Name" Text; col "namespace" "Namespace" Text; col "ready" "Ready" Text;
       col "service" "Service" Text; col "creation_timestamp" "Age" Age] |}.

Definition daemon_sets_meta : ResourceKind :=
  {| id := "daemonsets"; group := "apps"; version := "v1"; kind := "DaemonSet"; plural := "daemonsets";
     namespaced := true; category := Workloads;
     columns :=
      [col "name" "Name" Text; col "namespace" "Namespace" Text;
       col "desired" "Desired" Number; col "current" "Current" Number;
       col "ready" "Ready" Number; col "up_to_date" "Up-to-date" Number;
       col "available" "Available" Number; col "creation_timestamp" "Age" Age] |}.

Definition jobs_meta : ResourceKind :=
  {| id := "jobs"; group := "batch"; version := "v1"; kind := "Job"; plural := "jobs";
     namespaced := true; category := Workloads;
     columns :=
      [col "name" "Name" Text; col "namespace" "Namespace" Text; col "pods" "Pods" Number;
       col "completions" "Completions" Text; col "phase" "Status" Phase;
       col "creation_timestamp" "Age" Age] |}.

Definition cron_jobs_meta : ResourceKind :=
  {| id := "cronjobs"; group := "batch"; version := "v1"; kind := "CronJob"; plural := "cronjobs";
     namespaced := true; category := Workloads;
     columns :=
      [col "name" "Name" Text; col "namespace" "Namespace" Text;
       col "schedule" "Schedule" Text; col "suspend" "Suspend" Text;
       col "active" "Active" Number; col "last_schedule" "Last Schedule" Age;
       col "creation_timestamp" "Age" Age] |}.

Definition horizontal_pod_autoscalers_meta : ResourceKind :=
  {| id := "horizontalpodautoscalers"; group := "autoscaling"; version := "v2"; kind := "HorizontalPodAutoscaler"; plural := "horizontalpodautoscalers";
     namespaced := true; category := Workloads;
     columns :=
      [col "name" "Name" Text; col "namespace" "Namespace" Text;
       col "reference" "Reference" Text; col "targets" "Targets" Text;
       col "min_replicas" "Min" Number; col "max_replicas" "Max" Number;
       col "current_replicas" "Replicas" Number; col "creation_timestamp" "Age" Age] |}.

Definition pod_disruption_budgets_meta : ResourceKind :=
  {| id := "poddisruptionbudgets"; group := "policy"; version := "v1"; kind := "PodDisruptionBudget"; plural := "poddisruptionbudgets";
     namespaced := true; category := Workloads;
     columns :=
      [col "name" "Name" Text; col "namespace" "Namespace" Text;
       col "min_available" "Min Avail" Text; col "max_unavailable" "Max Unavail" Text;
       col "current_healthy" "Healthy" Number; col "desired_healthy" "Desired" Number;
       col "creation_timestamp" "Age" Age] |}.

Definition services_meta : ResourceKind :=
  {| id := "services"; group := ""; version := "v1"; kind := "Service"; plural := "services";
     namespaced := true; category := Network;
     columns :=
      [col "name" "Name" Text; col "namespace" "Namespace" Text; col "type" "Type" Text;
       col "cluster_ip" "Cluster IP" Text; col "external_ip" "External IP" Text;
       col "ports" "Ports" Text; col "creation_timestamp" "Age" Age] |}.

Definition endpoints_meta : ResourceKind :=
  {| id := "endpoints"; group := ""; version := "v1"; kind := "Endpoints"; plural := "endpoints";
     namespaced := true; category := Network;
     columns :=
      [col "name" "Name" Text; col "namespace" "Namespace" Text;
       col "endpoints" "Endpoints" Text; col "creation_timestamp" "Age" Age] |}.

Definition endpoint_slices_meta : ResourceKind :=
  {| id := "endpointslices"; group := "discovery.k8s.io"; version := "v1"; kind := "EndpointSlice"; plural := "endpointslices";
     namespaced := true; category := Network;
     columns :=
      [col "name" "Name" Text; col "namespace" "Namespace" Text;
       col "address_type" "Address Type" Text; col "ports" "Ports" Text;
       col "endpoints" "Endpoints" Number; col "creation_timestamp" "Age" Age] |}.

Definition ingresses_meta : ResourceKind :=
  {| id := "ingresses"; group := "networking.k8s.io"; version := "v1"; kind := "Ingress"; plural := "ingresses";
     namespaced := true; category := Network;
     columns :=
      [col "name" "Name" Text; col "namespace" "Namespace" Text; col "class" "Class" Text;
       col "hosts" "Hosts" Text; col "address" "Address" Text;
       col "creation_timestamp" "Age" Age] |}.

Definition ingress_classes_meta : ResourceKind :=
  {| id := "ingressclasses"; group := "networking.k8s.io"; version := "v1"; kind := "IngressClass"; plural := "ingressclasses";
     namespaced := false; category := Network;
     columns :=
      [col "name" "Name" Text; col "controller" "Controller" Text;
       col "creation_timestamp" "Age" Age] |}.

Definition network_policies_meta : ResourceKind :=
  {| id := "networkpolicies"; group := "networking.k8s.io"; version := "v1"; kind := "NetworkPolicy"; plural := "networkpolicies";
     namespaced := true; category := Network;
     columns :=
      [col "name" "Name" Text; col "namespace" "Namespace" Text;
       col "pod_selector" "Pod Selector" Text; col "ingress_rules" "Ingress" Number;
       col "egress_rules" "Egress" Number; col "creation_timestamp" "Age" Age] |}.

Definition config_maps_meta : ResourceKind :=
  {| id := "configmaps"; group := ""; version := "v1"; kind := "ConfigMap"; plural := "configmaps";
     namespaced := true; category := Config;
     columns :=
      [col "name" "Name" Text; col "namespace" "Namespace" Text; col "keys" "Keys" Number;
       col "creation_timestamp" "Age" Age] |}.

Definition secrets_meta : ResourceKind :=
  {| id := "secrets"; group := ""; version := "v1"; kind := "Secret"; plural := "secrets";
     namespaced := true; category := Config;
     columns :=
      [col "name" "Name" Text; col "namespace" "Namespace" Text; col "type" "Type" Text;
       col "keys" "Keys" Number; col "creation_timestamp" "Age" Age] |}.

Definition resource_quotas_meta : ResourceKind :=
  {| id := "resourcequotas"; group := ""; version := "v1"; kind := "ResourceQuota"; plural := "resourcequotas";
     namespaced := true; category := Config;
     columns :=
      [col "name" "Name" Text; col "namespace" "Namespace" Text; col "limits" "Limits" Number;
       col "creation_timestamp" "Age" Age] |}.

Definition limit_ranges_meta : ResourceKind :=
  {| id := "limitranges"; group := ""; version := "v1"; kind := "LimitRange"; plural := "limitranges";
     namespaced := true; category := Config;
     columns :=
      [col "name" "Name" Text; col "namespace" "Namespace" Text;
       col "limit_count" "Limits" Number; col "creation_timestamp" "Age" Age] |}.

Definition mutating_webhook_configurations_meta : ResourceKind :=
  {| id := "mutatingwebhookconfigurations"; group := "admissionregistration.k8s.io"; version := "v1"; kind := "MutatingWebhookConfiguration"; plural := "mutatingwebhookconfigurations";
     namespaced := false; category := Config;
     columns :=
      [col "name" "Name" Text; col "webhooks" "Webhooks" Number;
       col "creation_timestamp" "Age" Age] |}.

Definition validating_webhook_configurations_meta : ResourceKind :=
  {| id := "validatingwebhookconfigurations"; group := "admissionregistration.k8s.io"; version := "v1"; kind := "ValidatingWebhookConfiguration"; plural := "validatingwebhookconfigurations";
     namespaced := false; category := Config;
     columns :=
      [col "name" "Name" Text; col "webhooks" "Webhooks" Number;
       col "creation_timestamp" "Age" Age] |}.

Definition persistent_volume_claims_meta : ResourceKind :=
  {| id := "persistentvolumeclaims"; group := ""; version := "v1"; kind := "PersistentVolumeClaim"; plural := "persistentvolumeclaims";
     namespaced := true; category := Storage;
     columns :=
      [col "name" "Name" Text; col "namespace" "Namespace" Text; col "phase" "Status" Phase;
       col "volume" "Volume" Text; col "capacity" "Capacity" Text;
       col "access_modes" "Access Modes" Text; col "storage_class" "StorageClass" Text;
       col "creation_timestamp" "Age" Age] |}.

Definition persistent_volumes_meta : ResourceKind :=
  {| id := "persistentvolumes"; group := ""; version := "v1"; kind := "PersistentVolume"; plural := "persistentvolumes";
     namespaced := false; category := Storage;
     columns :=
      [col "name" "Name" Text; col "capacity" "Capacity" Text;
       col "access_modes" "Access Modes" Text; col "reclaim_policy" "Reclaim" Text;
       col "phase" "Status" Phase; col "claim" "Claim" Text;
       col "storage_class" "StorageClass" Text; col "creation_timestamp" "Age" Age] |}.

Definition storage_classes_meta : ResourceKind :=
  {| id := "storageclasses"; group := "storage.k8s.io"; version := "v1"; kind := "StorageClass"; plural := "storageclasses";
     namespaced := false; category := Storage;
     columns :=
      [col "name" "Name" Text; col "provisioner" "Provisioner" Text;
       col "reclaim_policy" "Reclaim" Text; col "binding_mode" "Binding Mode" Text;
       col "creation_timestamp" "Age" Age] |}.

Definition service_accounts_meta : ResourceKind :=
  {| id := "serviceaccounts"; group := ""; version := "v1"; kind := "ServiceAccount"; plural := "serviceaccounts";
     namespaced := true; category := Access;
     columns :=
      [col "name" "Name" Text; col "namespace" "Namespace" Text;
       col "secrets" "Secrets" Number; col "creation_timestamp" "Age" Age] |}.

Definition roles_meta : ResourceKind :=
  {| id := "roles"; group := "rbac.authorization.k8s.io"; version := "v1"; kind := "Role"; plural := "roles";
     namespaced := true; category := Access;
     columns :=
      [col "name" "Name" Text; col "namespace" "Namespace" Text; col "rules" "Rules" Number;
       col "creation_timestamp" "Age" Age] |}.

Definition role_bindings_meta : ResourceKind :=
  {| id := "rolebindings"; group := "rbac.authorization.k8s.io"; version := "v1"; kind := "RoleBinding"; plural := "rolebindings";
     namespaced := true; category := Access;
     columns :=
      [col "name" "Name" Text; col "namespace" "Namespace" Text; col "role" "Role" Text;
       col "subjects" "Subjects" Text; col "creation_timestamp" "Age" Age] |}.

Definition cluster_roles_meta : ResourceKind :=
  {| id := "clusterroles"; group := "rbac.authorization.k8s.io"; version := "v1"; kind := "ClusterRole"; plural := "clusterroles";
     namespaced := false; category := Access;
     columns :=
      [col "name" "Name" Text; col "rules" "Rules" Number; col "creation_timestamp" "Age" Age] |}.

Definition cluster_role_bindings_meta : ResourceKind :=
  {| id := "clusterrolebindings"; group := "rbac.authorization.k8s.io"; version := "v1"; kind := "ClusterRoleBinding"; plural := "clusterrolebindings";
     namespaced := false; category := Access;
     columns :=
      [col "name" "Name" Text; col "role" "Role" Text; col "subjects" "Subjects" Text;
       col "creation_timestamp" "Age" Age] |}.

Definition nodes_meta : ResourceKind :=
  {| id := "nodes"; group := ""; version := "v1"; kind := "Node"; plural := "nodes";
     namespaced := false; category := Cluster;
     columns :=
      [col "name" "Name" Text; col "phase" "Status" Phase; col "roles" "Roles" Text;
       col "version" "Version" Text; col "cpu" "CPU" Text; col "memory" "Memory" Text;
       col "taints" "Taints" Number; col "creation_timestamp" "Age" Age] |}.

Definition namespaces_meta : ResourceKind :=
  {| id := "namespaces"; group := ""; version := "v1"; kind := "Namespace"; plural := "namespaces";
     namespaced := false; category := Cluster;
     columns :=
      [col "name" "Name" Text; col "phase" "Status" Phase; col "creation_timestamp" "Age" Age] |}.

Definition events_meta : ResourceKind :=
  {| id := "events"; group := ""; version := "v1"; kind := "Event"; plural := "events";
     namespaced := true; category := Cluster;
     columns :=
      [col "namespace" "Namespace" Text; col "type" "Type" Phase; col "reason" "Reason" Text;
       col "object" "Object" Text; col "message" "Message" Text; col "count" "Count" Number;
       col "last_seen" "Last Seen" Age] |}.

Definition priority_classes_meta : ResourceKind :=
  {| id := "priorityclasses"; group := "scheduling.k8s.io"; version := "v1"; kind := "PriorityClass"; plural := "priorityclasses";
     namespaced := false; category := Cluster;
     columns :=
      [col "name" "Name" Text; col "value" "Value" Number;
       col "global_default" "Global Default" Text; col "preemption_policy" "Preemption" Text;
       col "creation_timestamp" "Age" Age] |}.

Definition leases_meta : ResourceKind :=
  {| id := "leases"; group := "coordination.k8s.io"; version := "v1"; kind := "Lease"; plural := "leases";
     namespaced := true; category := Cluster;
     columns :=
      [col "name" "Name" Text; col "namespace" "Namespace" Text; col "holder" "Holder" Text;
       col "lease_duration_seconds" "Lease (s)" Number; col "renew_time" "Renewed" Age;
       col "creation_timestamp" "Age" Age] |}.

Definition helm_releases_meta : ResourceKind :=
  {| id := "helm_releases"; group := ""; version := "v1"; kind := "HelmRelease"; plural := "secrets";
     namespaced := true; category := Apps;
     columns :=
      [col "name" "Name" Text; col "namespace" "Namespace" Text;
       col "revision" "Revision" Number; col "status" "Status" Phase;
       col "chart" "Chart" Text; col "app_version" "App Version" Text;
       col "updated" "Updated" Age] |}.

Definition helm_charts_meta : ResourceKind :=
  {| id := "helm_charts"; group := ""; version := "v1"; kind := "HelmChart"; plural := "secrets";
     namespaced := false; category := Apps;
     columns :=
      [col "name" "Name" Text; col "version" "Version" Text;
       col "app_version" "App Version" Text; col "repo" "Repo" Text;
       col "description" "Description" Text; col "used_by" "Used By" Number] |}.

Definition custom_resource_definitions_meta : ResourceKind :=
  {| id := "customresourcedefinitions"; group := "apiextensions.k8s.io"; version := "v1"; kind := "CustomResourceDefinition"; plural := "customresourcedefinitions";
     namespaced := false; category := CustomResources;
     columns :=
      [col "name" "Name" Text; col "group" "Group" Text; col "kind" "Kind" Text;
       col "scope" "Scope" Text; col "versions" "Versions" Text;
       col "creation_timestamp" "Age" Age] |}.

(** registry() *)
Definition builtin_registry : list ResourceKind :=
  [pods_meta;
   deployments_meta;
   replica_sets_meta;
   replication_controllers_meta;
   stateful_sets_meta;
   daemon_sets_meta;
   jobs_meta;
   cron_jobs_meta;
   horizontal_pod_autoscalers_meta;
   pod_disruption_budgets_meta;
   services_meta;
   endpoints_meta;
   endpoint_slices_meta;
   ingresses_meta;
   ingress_classes_meta;
   network_policies_meta;
   config_maps_meta;
   secrets_meta;
   resource_quotas_meta;
   limit_ranges_meta;
   mutating_webhook_configurations_meta;
   validating_webhook_configurations_meta;
   persistent_volume_claims_meta;
   persistent_volumes_meta;
   storage_classes_meta;
   service_accounts_meta;
   roles_meta;
   role_bindings_meta;
   cluster_roles_meta;
   cluster_role_bindings_meta;
   nodes_meta;
   namespaces_meta;
   events_meta;
   priority_classes_meta;
   leases_meta;
   helm_releases_meta;
   helm_charts_meta;
   custom_resource_definitions_meta].

(** ** well_known/gateway_api.rs *)

Definition gatewayclass_columns : list ColumnDef :=
      [col "name" "Name" Text; col "controller" "Controller" Text;
       col "accepted" "Accepted" Text; col "creation_timestamp" "Age" Age].

Definition gateway_columns : list ColumnDef :=
      [col "name" "Name" Text; col "namespace" "Namespace" Text; col "class" "Class" Text;
       col "addresses" "Address" Text; col "listeners" "Listeners" Number;
       col "programmed" "Programmed" Text; col "creation_timestamp" "Age" Age].

Definition route_columns : list ColumnDef :=
      [col "name" "Name" Text; col "namespace" "Namespace" Text;
       col "hostnames" "Hostnames" Text; col "parents" "Parents" Text;
       col "rules" "Rules" Number; col "creation_timestamp" "Age" Age].

Definition refgrant_columns : list ColumnDef :=
      [col "name" "Name" Text; col "namespace" "Namespace" Text; col "from" "From" Text;
       col "to" "To" Text; col "creation_timestamp" "Age" Age].

Definition gateway_api_overrides : list WellKnownCrd :=
  [{| short_id := "gatewayclasses"; wk_group := "gateway.networking.k8s.io"; wk_kind := "GatewayClass";
      wk_category := Network; wk_columns := gatewayclass_columns |};
   {| short_id := "gateways"; wk_group := "gateway.networking.k8s.io"; wk_kind := "Gateway";
      wk_category := Network; wk_columns := gateway_columns |};
   {| short_id := "httproutes"; wk_group := "gateway.networking.k8s.io"; wk_kind := "HTTPRoute";
      wk_category := Network; wk_columns := route_columns |};
   {| short_id := "grpcroutes"; wk_group := "gateway.networking.k8s.io"; wk_kind := "GRPCRoute";
      wk_category := Network; wk_columns := route_columns |};
   {| short_id := "referencegrants"; wk_group := "gateway.networking.k8s.io"; wk_kind := "ReferenceGrant";
      wk_category := Network; wk_columns := refgrant_columns |}].

(** ** well_known/argocd.rs *)

(** [gitops::columns] *)
Definition gitops_columns (extra : list ColumnDef) : list ColumnDef :=
  [col "name" "Name" Text; col "namespace" "Namespace" Text] ++ extra ++ [col "creation_timestamp" "Age" Age].

Definition application_columns : list ColumnDef :=
  gitops_columns
      [col "project" "Project" Text; col "sync" "Sync" Phase; col "health" "Health" Phase;
       col "destination" "Destination" Text; col "revision" "Revision" Text].

Definition applicationset_columns : list ColumnDef :=
  gitops_columns
      [col "generators" "Generators" Text; col "phase" "Status" Phase;
       col "project" "Project" Text].

Definition project_columns : list ColumnDef :=
  gitops_columns
      [col "description" "Description" Text; col "repositories" "Repositories" Number;
       col "destinations" "Destinations" Number].

Definition argocd_overrides : list WellKnownCrd :=
  [{| short_id := "argocd_applications"; wk_group := "argoproj.io"; wk_kind := "Application";
      wk_category := Apps; wk_columns := application_columns |};
   {| short_id := "argocd_applicationsets"; wk_group := "argoproj.io"; wk_kind := "ApplicationSet";
      wk_category := Apps; wk_columns := applicationset_columns |};
   {| short_id := "argocd_appprojects"; wk_group := "argoproj.io"; wk_kind := "AppProject";
      wk_category := Apps; wk_columns := project_columns |}].

(** ** well_known/fluxcd.rs *)

Definition kustomization_columns : list ColumnDef :=
  gitops_columns
      [col "phase" "Status" Phase; col "source" "Source" Text; col "path" "Path" Text;
       col "revision" "Applied revision" Text].

Definition helmrelease_columns : list ColumnDef :=
  gitops_columns
      [col "phase" "Status" Phase; col "chart" "Chart / source" Text;
       col "release" "Release" Text; col "revision" "Attempted revision" Text].

Definition source_columns : list ColumnDef :=
  gitops_columns
      [col "phase" "Status" Phase; col "url" "URL / endpoint" Text;
       col "reference" "Requested ref" Text; col "revision" "Artifact revision" Text].

Definition chart_columns : list ColumnDef :=
  gitops_columns
      [col "phase" "Status" Phase; col "chart" "Chart" Text; col "source" "Source" Text;
       col "revision" "Artifact revision" Text].

Definition fluxcd_overrides : list WellKnownCrd :=
  [{| short_id := "flux_kustomizations"; wk_group := "kustomize.toolkit.fluxcd.io"; wk_kind := "Kustomization";
      wk_category := Apps; wk_columns := kustomization_columns |};
   {| short_id := "flux_helmreleases"; wk_group := "helm.toolkit.fluxcd.io"; wk_kind := "HelmRelease";
      wk_category := Apps; wk_columns := helmrelease_columns |};
   {| short_id := "flux_gitrepositories"; wk_group := "source.toolkit.fluxcd.io"; wk_kind := "GitRepository";
      wk_category := Apps; wk_columns := source_columns |};
   {| short_id := "flux_ocirepositories"; wk_group := "source.toolkit.fluxcd.io"; wk_kind := "OCIRepository";
      wk_category := Apps; wk_columns := source_columns |};
   {| short_id := "flux_helmrepositories"; wk_group := "source.toolkit.fluxcd.io"; wk_kind := "HelmRepository";
      wk_category := Apps; wk_columns := source_columns |};
   {| short_id := "flux_buckets"; wk_group := "source.toolkit.fluxcd.io"; wk_kind := "Bucket";
      wk_category := Apps; wk_columns := source_columns |};
   {| short_id := "flux_helmcharts"; wk_group := "source.toolkit.fluxcd.io"; wk_kind := "HelmChart";
      wk_category := Apps; wk_columns := chart_columns |}].

Definition well_known : list WellKnownCrd := gateway_api_overrides ++ argocd_overrides ++ fluxcd_overrides.

Definition lookup_by_short_id (s : str) : option WellKnownCrd :=
  snd <$> list_find (λ w, short_id w = s) well_known.

Definition well_known_by_gk (g k : str) : option WellKnownCrd :=
  snd <$> list_find (λ w, wk_group w = g ∧ wk_kind w = k) well_known.

Definition lookup_builtin (i : str) : option ResourceKind := snd <$> list_find (λ e, id e = i) builtin_registry.
