(* ===== verification/Registry.v ===== *)
(** * From an id to a kind

    kube-ext/src/registry.rs: entries of discovered CRDs and well-known overrides, the ids
    that lead back to them, the cache of printer columns, and the projection of a row by
    printer columns.  [leak] interns strings and is the identity; the process-wide cache
    is the state passed along.  serde_json's printer is an argument.  A [String::truncate]
    off a character boundary panics. *)

From S2P Require Import Prelude Utf8 Transcript Clip Json Kinds.

(** ** Discovered CRDs *)

Record DiscoveredPrinterColumn : Set := { pc_name : str; json_path : str; type_ : str }.

#[global] Instance DiscoveredPrinterColumn_eq_dec : EqDecision DiscoveredPrinterColumn.
Proof. solve_decision. Defined.

Record DiscoveredCrd : Set := {
  crd_group : str;
  crd_version : str;
  crd_plural : str;
  crd_kind : str;
  crd_namespaced : bool;
  printer_columns : list DiscoveredPrinterColumn;
}.

(** ** Ids *)

Definition BAR : char := 124%N.

Definition scope_str (namespaced : bool) : str := if namespaced then lit "ns" else lit "cluster".

(** well_known::make_id *)
Definition make_id (short group version plural kind : str) (namespaced : bool) : str :=
  lit "wkcrd:" ++ join [BAR] [short; group; version; plural; kind; scope_str namespaced].

Record ParsedWkcrd : Set := {
  p_short_id : str; p_group : str; p_version : str; p_plural : str; p_kind : str; p_namespaced : bool;
}.

(** well_known::parse_id *)
Definition parse_id (id : str) : option ParsedWkcrd :=
  rest ← strip_prefix (lit "wkcrd:") id;
  match split_char BAR rest with
  | [a; b; c; d; e; f] =>
      Some {| p_short_id := a; p_group := b; p_version := c; p_plural := d; p_kind := e;
              p_namespaced := f =s lit "ns" |}
  | _ => None
  end.

Definition crd_id (crd : DiscoveredCrd) : str :=
  lit "crd:" ++ join [BAR] [crd_group crd; crd_version crd; crd_plural crd; crd_kind crd;
                            scope_str (crd_namespaced crd)].

(** ** The cache of printer columns *)

Definition PRINTER_COLUMN_CACHE_CAP : nat := N.to_nat 4096.

Record PrinterColumnCache : Set := {
  cache_map : gmap str (list DiscoveredPrinterColumn);
  order : list str;
}.

Definition empty_cache : PrinterColumnCache := {| cache_map := ∅; order := [] |}.

(** The [while] that drops the oldest entries. *)
Fixpoint evict (order : list str) (m : gmap str (list DiscoveredPrinterColumn)) : PrinterColumnCache :=
  match order with
  | old :: rest =>
      if decide (PRINTER_COLUMN_CACHE_CAP < length order) then evict rest (delete old m)
      else {| cache_map := m; order := order |}
  | [] => {| cache_map := m; order := [] |}
  end.

Definition cache_insert (id : str) (cols : list DiscoveredPrinterColumn) (c : PrinterColumnCache) :
    PrinterColumnCache :=
  let m := <[id := cols]> (cache_map c) in
  match cache_map c !! id with
  | Some _ => {| cache_map := m; order := order c |}
  | None => evict (order c ++ [id]) m
  end.

Definition cache_get (id : str) (c : PrinterColumnCache) : list DiscoveredPrinterColumn :=
  default [] (cache_map c !! id).

(** ** Columns *)

Definition leading_columns (namespaced : bool) : list ColumnDef :=
  col "name" "Name" Text :: if namespaced then [col "namespace" "Namespace" Text] else [].

Definition default_dynamic_columns (namespaced : bool) : list ColumnDef :=
  leading_columns namespaced ++ [col "creation_timestamp" "Age" Age].

(** kubectl's own "Age" column, which the table renders itself. *)
Definition is_age (c : DiscoveredPrinterColumn) : bool :=
  (str_to_ascii_lowercase (pc_name c) =s lit "age") && (type_ c =s lit "date").

Definition slot (idx : nat) : str := lit "pc" ++ nat_str idx.

Definition printer_kind (ty : str) : ColumnKind :=
  if (ty =s lit "integer") || (ty =s lit "number") then Number
  else if ty =s lit "date" then Age else Text.

Definition enumerate {A} (l : list A) : list (nat * A) := imap pair l.

Definition printer_column (p : nat * DiscoveredPrinterColumn) : option ColumnDef :=
  if is_age p.2 then None
  else Some {| column_id := slot p.1; header := pc_name p.2; column_kind := Some (printer_kind (type_ p.2)) |}.

Definition dynamic_columns_with_printer (namespaced : bool) (printer : list DiscoveredPrinterColumn) :
    list ColumnDef :=
  leading_columns namespaced ++ omap printer_column (enumerate printer)
    ++ [col "creation_timestamp" "Age" Age].

(** ** JSONPath *)

Definition LBRACKET : char := 91%N.

Definition RBRACKET : char := 93%N.

Definition head_char (c : char) : bool := is_ascii_alphanumeric c || (c =? 95)%N || (c =? HYPHEN)%N.

(** The characters before the first [\[], and the rest. *)
Fixpoint split_head (s : str) : str * str :=
  match s with
  | [] => ([], [])
  | c :: s' => if (c =? LBRACKET)%N then ([], s) else let '(h, r) := split_head s' in (c :: h, r)
  end.

(** The [\[N\]] suffixes of a segment. *)
Fixpoint index_suffixes (fuel : nat) (rest : str) : option (list str) :=
  match rest with
  | [] => Some []
  | c :: stripped =>
      if (c =? LBRACKET)%N then
        match fuel, split_once RBRACKET stripped with
        | S fuel, Some (inner, rest) =>
            if forallb is_ascii_digit inner && negb (bool_decide (inner = []))
            then cons inner <$> index_suffixes fuel rest else None
        | _, _ => None
        end
      else None
  end.

Definition parse_segment (raw : str) : option (list str) :=
  let '(h, rest) := split_head raw in
  if bool_decide (h = []) || negb (forallb head_char h) then None
  else cons h <$> index_suffixes (length rest) rest.

Definition parse_jsonpath_segments (path : str) : option (list str) :=
  let s := trim path in
  let s := default s (strip_prefix [DOT] s) in
  if bool_decide (s = []) then None
  else l ← mapM parse_segment (split_char DOT s); Some (mjoin l).

Definition usize_max : N := 18446744073709551615%N.

(** [arr.get(idx)] *)
Definition array_get (l : list Json) (idx : N) : option Json :=
  if (idx <? N.of_nat (length l))%N then l !! N.to_nat idx else None.

Fixpoint walk_jsonpath (cur : Json) (segs : list str) : option Json :=
  match segs with
  | [] => Some cur
  | seg :: segs =>
      match cur with
      | Object m => v ← map_get seg m; walk_jsonpath v segs
      | Array l => idx ← parse_uint usize_max seg; v ← array_get l idx; walk_jsonpath v segs
      | _ => None
      end
  end.

(** ** Rows *)

Record ObjectMeta : Set := {
  m_name : option str; m_namespace : option str; m_creation_timestamp : option str;
}.

Record DynamicObject : Set := { metadata : ObjectMeta; data : Json }.

(** (slot id, path segments, type) *)
Definition DynamicProjector : Set := list (str * list str * str).

Definition printer_slot (p : nat * DiscoveredPrinterColumn) : option (str * list str * str) :=
  if is_age p.2 then None
  else segs ← parse_jsonpath_segments (json_path p.2); Some (slot p.1, segs, type_ p.2).

Definition new_projector (printer : list DiscoveredPrinterColumn) : DynamicProjector :=
  omap printer_slot (enumerate printer).

Definition opt_string (o : option str) : Json := from_option String_ Null o.

Section Print.
(** [serde_json::to_string] *)
Context (json_text : Json → str).

Definition coerce_printer_value (v : option Json) (ty : str) : result Json Fault :=
  match v with
  | None | Some Null => Ok Null
  | Some (String_ s) => Ok (String_ s)
  | Some (Bool b) => Ok (String_ (bool_str b))
  | Some (Json.Number n) =>
      Ok (if (ty =s lit "integer") || (ty =s lit "number") then Json.Number n else String_ n)
  | Some other =>
      let s := json_text other in
      if decide (64 < byte_length s) then
        match slice_to 64 s with
        | Some s => Ok (String_ (s ++ [ELLIPSIS]))
        | None => Err Panic
        end
      else Ok (String_ s)
  end.

Fixpoint project_printer (p : DynamicProjector) (d : Json) (out : Map) : result Map Fault :=
  match p with
  | [] => Ok out
  | (slot, segs, ty) :: p =>
      v <-? coerce_printer_value (walk_jsonpath d segs) ty;
      project_printer p d (map_insert slot v out)
  end.

(** [DynamicProjector::project] *)
Definition project (p : DynamicProjector) (obj : DynamicObject) : result Map Fault :=
  let m := metadata obj in
  let out := map_insert (lit "name") (String_ (default [] (m_name m))) [] in
  let out := map_insert (lit "namespace") (opt_string (m_namespace m)) out in
  let out := map_insert (lit "creation_timestamp") (opt_string (m_creation_timestamp m)) out in
  project_printer p (data obj) out.

End Print.

(** ** Entries *)

(** Where the rows come from: a typed projection of [kinds/], an override of
    [well_known/], printer columns, or a synthetic kind without one. *)
Inductive Projection : Set :=
  | Typed | Override (short : str) | Dynamic (p : DynamicProjector) | Synthetic.

(** What the watcher is started on; [scoped] says whether the chosen namespace applies. *)
Record ResourceKindEntry : Set := {
  meta : ResourceKind;
  api_group : str;
  api_version : str;
  api_kind : str;
  api_plural : str;
  scoped : bool;
  projection : Projection;
}.

Definition from_well_known (wk : WellKnownCrd) (crd : DiscoveredCrd) : ResourceKindEntry :=
  {| meta :=
       {| id := make_id (short_id wk) (crd_group crd) (crd_version crd) (crd_plural crd) (crd_kind crd)
                  (crd_namespaced crd);
          group := wk_group wk; version := crd_version crd; kind := wk_kind wk; plural := crd_plural crd;
          namespaced := crd_namespaced crd; category := wk_category wk; columns := wk_columns wk |};
     api_group := crd_group crd; api_version := crd_version crd; api_kind := crd_kind crd;
     api_plural := crd_plural crd; scoped := crd_namespaced crd; projection := Override (short_id wk) |}.

Definition from_dynamic_crd (crd : DiscoveredCrd) (c : PrinterColumnCache) :
    ResourceKindEntry * PrinterColumnCache :=
  match well_known_by_gk (crd_group crd) (crd_kind crd) with
  | Some wk => (from_well_known wk crd, c)
  | None =>
      let i := crd_id crd in
      let '(printer, c) :=
        if bool_decide (printer_columns crd = []) then (cache_get i c, c)
        else (printer_columns crd, cache_insert i (printer_columns crd) c) in
      let cols := if bool_decide (printer = []) then default_dynamic_columns (crd_namespaced crd)
                  else dynamic_columns_with_printer (crd_namespaced crd) printer in
      ({| meta :=
            {| id := i; group := crd_group crd; version := crd_version crd; kind := crd_kind crd;
               plural := crd_plural crd; namespaced := crd_namespaced crd; category := CustomResources;
               columns := cols |};
          api_group := crd_group crd; api_version := crd_version crd; api_kind := crd_kind crd;
          api_plural := crd_plural crd; scoped := crd_namespaced crd;
          projection := Dynamic (new_projector printer) |}, c)
  end.

Definition synthetic (i : str) : bool := (i =s lit "helm_releases") || (i =s lit "helm_charts").

Definition builtin_entry (k : ResourceKind) : ResourceKindEntry :=
  {| meta := k; api_group := group k; api_version := version k; api_kind := kind k; api_plural := plural k;
     scoped := namespaced k; projection := if synthetic (id k) then Synthetic else Typed |}.

(** lookup_by_gk of registry.rs: kinds without a row projection are left out. *)
Definition lookup_by_gk (g k : str) : option ResourceKind :=
  snd <$> list_find (λ e, synthetic (id e) = false ∧ group e = g ∧ kind e = k) builtin_registry.

Definition lookup (i : str) (c : PrinterColumnCache) : option ResourceKindEntry * PrinterColumnCache :=
  match parse_id i with
  | Some p =>
      match lookup_by_short_id (p_short_id p) with
      | None => (None, c)
      | Some wk =>
          (Some (from_well_known wk
             {| crd_group := p_group p; crd_version := p_version p; crd_plural := p_plural p;
                crd_kind := p_kind p; crd_namespaced := p_namespaced p; printer_columns := [] |}), c)
      end
  | None =>
      match strip_prefix (lit "crd:") i with
      | Some rest =>
          match split_char BAR rest with
          | [g; v; p; k; sc] =>
              let '(e, c) := from_dynamic_crd
                {| crd_group := g; crd_version := v; crd_plural := p; crd_kind := k;
                   crd_namespaced := sc =s lit "ns"; printer_columns := [] |} c in
              (Some e, c)
          | _ => (None, c)
          end
      | None => (builtin_entry <$> lookup_builtin i, c)
      end
  end.

(** ** Ids lead back to their kinds *)

Lemma split_join_free (c : char) (x : str) (l : list str) :
  Forall (λ s, c ∉ s) (x :: l) → split_char c (join [c] (x :: l)) = x :: l.
Proof.
  intros H. apply split_char_join; [done|]. eapply Forall_impl; [exact H|].
  intros s Hs. apply Forall_forall. by intros d Hd ->.
Qed.

Lemma scope_str_ns (b : bool) : (scope_str b =s lit "ns") = b.
Proof. by destruct b. Qed.

Lemma scope_str_bar (b : bool) : BAR ∉ scope_str b.
Proof. destruct b; decided. Qed.

Definition bar_free (crd : DiscoveredCrd) : Prop :=
  BAR ∉ crd_group crd ∧ BAR ∉ crd_version crd ∧ BAR ∉ crd_plural crd ∧ BAR ∉ crd_kind crd.

(** The tables, checked by evaluation. *)
Lemma well_known_short_ids :
  NoDup (short_id <$> well_known) ∧ Forall (λ w, BAR ∉ short_id w) well_known.
Proof. split; decided. Qed.

Lemma list_find_elem {A} (P : A → Prop) `{!∀ x, Decision (P x)} (l : list A) i x :
  list_find P l = Some (i, x) → x ∈ l ∧ P x.
Proof. intros (Hl & Hx & _)%list_find_Some. split; [by eapply list_elem_of_lookup_2|done]. Qed.

Lemma list_find_key {A} (f : A → str) (l : list A) x :
  NoDup (f <$> l) → x ∈ l → snd <$> list_find (λ y, f y = f x) l = Some x.
Proof.
  intros Hnd Hx. destruct (list_find (λ y, f y = f x) l) as [[i y]|] eqn:E.
  - destruct (list_find_elem _ _ _ _ E) as [Hy Ef]. simpl. f_equal.
    apply list_elem_of_lookup in Hx as [j Hj]. apply list_elem_of_lookup in Hy as [k Hk].
    assert (k = j) as ->; [|congruence].
    apply (NoDup_lookup (f <$> l) k j (f x)); [done|rewrite list_lookup_fmap, Hk|rewrite list_lookup_fmap, Hj]; simpl; congruence.
  - apply list_find_None in E. rewrite Forall_forall in E. by specialize (E x Hx).
Qed.

Lemma well_known_by_gk_spec g k w :
  well_known_by_gk g k = Some w → w ∈ well_known ∧ wk_group w = g ∧ wk_kind w = k.
Proof.
  unfold well_known_by_gk. intros H. destruct (list_find _ _) as [[i x]|] eqn:E; [|done]. simpl in H. simplify_eq.
  apply (list_find_elem _ _ _ _ E).
Qed.

Lemma lookup_by_short_id_self w : w ∈ well_known → lookup_by_short_id (short_id w) = Some w.
Proof. intros H. apply (list_find_key short_id); [apply well_known_short_ids|done]. Qed.

(** *** The cache *)

(** The order lists the keys, each once, within the cap. *)
Record cache_ok (c : PrinterColumnCache) : Prop := {
  cache_keys : ∀ i, i ∈ order c ↔ is_Some (cache_map c !! i);
  cache_nodup : NoDup (order c);
  cache_cap : length (order c) ≤ PRINTER_COLUMN_CACHE_CAP;
}.

Lemma evict_le (l : list str) m : length l ≤ PRINTER_COLUMN_CACHE_CAP → evict l m = {| cache_map := m; order := l |}.
Proof. destruct l; simpl; [done|]. intros. by rewrite decide_False by lia. Qed.

Lemma cache_insert_cases (i : str) cols (c : PrinterColumnCache) :
  cache_ok c →
  (i ∈ order c ∧ cache_insert i cols c = {| cache_map := <[i := cols]> (cache_map c); order := order c |})
  ∨ (i ∉ order c ∧ length (order c) < PRINTER_COLUMN_CACHE_CAP
     ∧ cache_insert i cols c = {| cache_map := <[i := cols]> (cache_map c); order := order c ++ [i] |})
  ∨ (∃ old rest, i ∉ order c ∧ order c = old :: rest ∧ length (order c) = PRINTER_COLUMN_CACHE_CAP
     ∧ cache_insert i cols c
       = {| cache_map := delete old (<[i := cols]> (cache_map c)); order := rest ++ [i] |}).
Proof.
  intros [Hk Hnd Hc]. unfold cache_insert. destruct (cache_map c !! i) as [x|] eqn:E.
  { left. split; [apply Hk; by rewrite E|done]. }
  assert (i ∉ order c) as Hi by (rewrite Hk, E; by intros []).
  right. destruct (decide (length (order c) < PRINTER_COLUMN_CACHE_CAP)) as [Hlt|Hge].
  - left. split_and!; try done. apply evict_le. rewrite length_app. simpl. lia.
  - right. assert (0 < PRINTER_COLUMN_CACHE_CAP) as Hp by (unfold PRINTER_COLUMN_CACHE_CAP; lia).
    destruct (order c) as [|old rest] eqn:Eo; [simpl in *; lia|]. exists old, rest.
    split_and!; try done; [lia|]. cbn [app evict].
    rewrite decide_True by (cbn [length]; rewrite length_app; simpl in *; lia).
    apply evict_le. rewrite length_app. simpl in *. lia.
Qed.

Lemma cache_ok_insert (i : str) cols (c : PrinterColumnCache) : cache_ok c → cache_ok (cache_insert i cols c).
Proof.
  intros Hok. destruct (cache_insert_cases i cols c Hok) as [(Hi & ->)|[(Hi & Hl & ->)|(old & rest & Hi & Eo & Hl & ->)]];
    destruct Hok as [Hk Hnd Hc].
  - split; simpl; [|done..]. intros j. rewrite Hk, lookup_insert_is_Some. rewrite Hk in Hi. destruct (decide (i = j)) as [<-|]; tauto.
  - split; simpl; [| |rewrite length_app; simpl; lia].
    + intros j. rewrite elem_of_app, list_elem_of_singleton, Hk, lookup_insert_is_Some.
      destruct (decide (i = j)) as [<-|]; naive_solver.
    + apply NoDup_app. split_and!; [done|set_solver|]. apply NoDup_singleton.
  - rewrite Eo in *. apply not_elem_of_cons in Hi as [Hio Hir]. apply NoDup_cons in Hnd as [Hor Hnd].
    split; simpl; [| |rewrite length_app; simpl in *; lia].
    + intros j. rewrite elem_of_app, list_elem_of_singleton, lookup_delete_is_Some, lookup_insert_is_Some.
      specialize (Hk j). rewrite elem_of_cons in Hk. split.
      * intros [Hj| ->]; [split; [set_solver|]; right; split; [set_solver|tauto]|]. by split; [|left].
      * intros [Hj [->|[Hne Hs]]]; [by right|]. left. apply Hk in Hs as [?|?]; done.
    + apply NoDup_app. split_and!; [done|set_solver|]. apply NoDup_singleton.
Qed.

Lemma cache_get_insert (i : str) cols (c : PrinterColumnCache) : cache_ok c → cache_get i (cache_insert i cols c) = cols.
Proof.
  intros Hok. unfold cache_get.
  destruct (cache_insert_cases i cols c Hok) as [(Hi & ->)|[(Hi & Hl & ->)|(old & rest & Hi & Eo & Hl & ->)]]; simpl.
  - by rewrite lookup_insert_eq.
  - by rewrite lookup_insert_eq.
  - rewrite Eo, elem_of_cons in Hi. rewrite lookup_delete_ne by naive_solver. by rewrite lookup_insert_eq.
Qed.

Lemma cache_ok_from_dynamic_crd (crd : DiscoveredCrd) (c : PrinterColumnCache) :
  cache_ok c → cache_ok (from_dynamic_crd crd c).2.
Proof.
  intros Hok. unfold from_dynamic_crd. destruct (well_known_by_gk _ _); [done|].
  case_bool_decide; simpl; [done|by apply cache_ok_insert].
Qed.

(** *** Ids *)

Lemma parse_make_id s g v p k ns :
  BAR ∉ s → BAR ∉ g → BAR ∉ v → BAR ∉ p → BAR ∉ k →
  parse_id (make_id s g v p k ns)
  = Some {| p_short_id := s; p_group := g; p_version := v; p_plural := p; p_kind := k; p_namespaced := ns |}.
Proof.
  intros. unfold parse_id, make_id. rewrite strip_prefix_app. cbn [mbind option_bind].
  rewrite split_join_free by (pose proof (scope_str_bar ns); forall_list; done). by rewrite scope_str_ns.
Qed.

(** The id of a discovered kind leads back to it: looking it up after its discovery
    gives the very entry the discovery made, columns included, for CRDs and for
    well-known overrides, whatever the cache held; K8s names hold no bar. *)
Theorem entry_round_trip (crd : DiscoveredCrd) (c : PrinterColumnCache) :
  bar_free crd → cache_ok c →
  let '(e, c') := from_dynamic_crd crd c in lookup (id (meta e)) c' = (Some e, c').
Proof.
  intros (Hg & Hv & Hp & Hk) Hok. unfold from_dynamic_crd. destruct (well_known_by_gk _ _) as [w|] eqn:Ew.
  - destruct (well_known_by_gk_spec _ _ _ Ew) as (Hw & _ & _). unfold lookup. cbn [meta id from_well_known].
    rewrite parse_make_id; [| |done..].
    + cbn [p_short_id]. by rewrite lookup_by_short_id_self.
    + destruct well_known_short_ids as [_ Hs]. rewrite Forall_forall in Hs. auto.
  - assert (∀ cols (c' : PrinterColumnCache), cache_get (crd_id crd) c' = cols →
      lookup (crd_id crd) c' = (Some
        {| meta := {| id := crd_id crd; group := crd_group crd; version := crd_version crd; kind := crd_kind crd;
                      plural := crd_plural crd; namespaced := crd_namespaced crd; category := CustomResources;
                      columns := if bool_decide (cols = []) then default_dynamic_columns (crd_namespaced crd)
                                 else dynamic_columns_with_printer (crd_namespaced crd) cols |};
           api_group := crd_group crd; api_version := crd_version crd; api_kind := crd_kind crd;
           api_plural := crd_plural crd; scoped := crd_namespaced crd;
           projection := Dynamic (new_projector cols) |}, c')) as Hl.
    { intros cols c' Hcols. unfold lookup. change (parse_id (crd_id crd)) with (@None ParsedWkcrd). cbv iota.
      unfold crd_id at 1. rewrite strip_prefix_app.
      rewrite split_join_free by (pose proof (scope_str_bar (crd_namespaced crd)); forall_list; done).
      unfold from_dynamic_crd. cbn [crd_group crd_version crd_plural crd_kind crd_namespaced printer_columns].
      rewrite Ew, scope_str_ns, bool_decide_eq_true_2 by done.
      change (crd_id _) with (crd_id crd).
      destruct crd as [g v p k b cols0]; cbn in *. by rewrite Hcols. }
    case_bool_decide; simpl; apply Hl; [done|by apply cache_get_insert].
Qed.

(** The tables of kinds are well formed: ids are unique, also across the well-known
    overrides, and cannot be mistaken for discovered ones; no API kind is served twice;
    every kind shows its columns under distinct ids, a name among them (events have none),
    and a namespace exactly when it is namespaced; every id finds its kind. *)
Theorem registry_well_formed :
  NoDup ((id <$> builtin_registry) ++ (short_id <$> well_known))
  ∧ Forall (λ k, COLON ∉ id k ∧ BAR ∉ id k ∧ lookup_builtin (id k) = Some k
                 ∧ NoDup (column_id <$> columns k)
                 ∧ (lit "name" ∈ column_id <$> columns k ∨ id k = lit "events")
                 ∧ (namespaced k = true ↔ lit "namespace" ∈ column_id <$> columns k)) builtin_registry
  ∧ Forall (λ w, NoDup (column_id <$> wk_columns w) ∧ lit "name" ∈ column_id <$> wk_columns w
                 ∧ lookup_by_short_id (short_id w) = Some w) well_known
  ∧ NoDup (((λ k, (group k, kind k)) <$> filter (λ k, synthetic (id k) = false) builtin_registry)
           ++ ((λ w, (wk_group w, wk_kind w)) <$> well_known)).
Proof. split_and!; decided. Qed.

(** *** Rows *)

Lemma dec_str_inj (a b : N) : dec_str a = dec_str b → a = b.
Proof.
  intros E. pose proof (parse_uint_dec_str (N.max a b) a ltac:(lia)) as Ha.
  pose proof (parse_uint_dec_str (N.max a b) b ltac:(lia)) as Hb. rewrite E in Ha. congruence.
Qed.

#[global] Instance slot_inj : Inj (=) (=) slot.
Proof.
  intros i j E. unfold slot, nat_str in E. apply (app_inv_head (lit "pc")), dec_str_inj in E. lia.
Qed.

Definition base_keys : list str := [lit "name"; lit "namespace"; lit "creation_timestamp"].

Lemma slot_not_base (i : nat) : slot i ∉ base_keys.
Proof. unfold slot, base_keys. rewrite !elem_of_cons, elem_of_nil. intros [H|[H|[H|[]]]]; discriminate. Qed.

Lemma enumerate_lookup {A} (l : list A) i x : (i, x) ∈ enumerate l ↔ l !! i = Some x.
Proof.
  unfold enumerate. rewrite elem_of_lookup_imap. split; [by intros (j & y & [= -> ->] & ?)|].
  intros H. by exists i, x.
Qed.

Section Rows.
Context (json_text : Json → str).

(** What a row has under a key, once the projector has run over it. *)
Lemma project_printer_get (p : DynamicProjector) (d : Json) (out row : Map) (k : str) :
  NoDup p.*1.*1 → project_printer json_text p d out = Ok row →
  match list_find (λ x, x.1.1 = k) p with
  | Some (_, (_, segs, ty)) =>
      ∃ v, coerce_printer_value json_text (walk_jsonpath d segs) ty = Ok v ∧ map_get k row = Some v
  | None => map_get k row = map_get k out
  end.
Proof.
  revert out. induction p as [|[[s segs] ty] p IH]; intros out Hnd E; simpl in *; [by simplify_eq|].
  apply NoDup_cons in Hnd as [Hs Hnd].
  destruct (coerce_printer_value json_text (walk_jsonpath d segs) ty) as [v|] eqn:Ev; [|done]. simpl in E.
  specialize (IH _ Hnd E). case_decide as Hk.
  - subst. destruct (list_find _ p) as [[i [[s' ?] ?]]|] eqn:Ef.
    + apply list_find_elem in Ef as [Hin Heq]. simpl in Heq. subst. destruct Hs.
      apply list_elem_of_fmap. eexists (_, _). split; [done|]. apply list_elem_of_fmap. by eexists (_, _, _).
    + rewrite map_get_insert, decide_True in IH by done. by exists v.
  - destruct (list_find _ p) as [[i [[s' segs'] ty']]|]; simpl; [done|].
    by rewrite map_get_insert, decide_False in IH.
Qed.

Lemma project_printer_sorted (p : DynamicProjector) (d : Json) (out row : Map) :
  keys_sorted out → project_printer json_text p d out = Ok row → keys_sorted row.
Proof.
  revert out. induction p as [|[[s segs] ty] p IH]; intros out Hnd E; simpl in *; [by simplify_eq|].
  destruct (coerce_printer_value _ _ _); [|done]. simpl in E. eapply IH; [|exact E]. by apply map_insert_sorted.
Qed.
End Rows.

Lemma omap_keys_sublist {A B} (f : nat * A → option B) (key : B → str) (l : list (nat * A)) :
  (∀ p b, f p = Some b → key b = slot p.1) → key <$> omap f l `sublist_of` slot <$> l.*1.
Proof.
  intros Hf. induction l as [|p l IH]; [done|]. simpl. destruct (f p) as [b|] eqn:E; simpl.
  - rewrite (Hf _ _ E). by constructor.
  - by constructor.
Qed.

Lemma enumerate_keys {A} (l : list A) : (enumerate l).*1 = seq 0 (length l).
Proof.
  unfold enumerate. rewrite fmap_imap. etransitivity; [apply (imap_seq_0 l Datatypes.id)|]. apply list_fmap_id.
Qed.

Lemma slots_NoDup {A B} (f : nat * A → option B) (key : B → str) (l : list A) :
  (∀ p b, f p = Some b → key b = slot p.1) → NoDup (key <$> omap f (enumerate l)).
Proof.
  intros Hf. eapply sublist_NoDup; [|by apply omap_keys_sublist]. rewrite enumerate_keys.
  apply NoDup_fmap_2; [apply _|]. apply NoDup_seq.
Qed.

Lemma printer_slot_key p b : printer_slot p = Some b → b.1.1 = slot p.1.
Proof. unfold printer_slot. destruct (is_age _); [done|]. destruct (parse_jsonpath_segments _); [|done]. by intros [= <-]. Qed.

Lemma printer_column_key p b : printer_column p = Some b → column_id b = slot p.1.
Proof. unfold printer_column. destruct (is_age _); [done|]. by intros [= <-]. Qed.

Lemma slot_elem {A B} (f : nat * A → option B) (key : B → str) (l : list A) i b :
  (∀ p b, f p = Some b → key b = slot p.1) → b ∈ omap f (enumerate l) → key b = slot i →
  ∃ x, l !! i = Some x ∧ f (i, x) = Some b.
Proof.
  intros Hf ([j x] & Hx & E)%list_elem_of_omap Hk. rewrite (Hf _ _ E) in Hk. apply slot_inj in Hk. simpl in Hk. subst.
  exists x. split; [|done]. by apply enumerate_lookup.
Qed.

Lemma new_projector_find (l : list DiscoveredPrinterColumn) i c :
  l !! i = Some c →
  snd <$> list_find (λ x : str * list str * str, x.1.1 = slot i) (new_projector l) = printer_slot (i, c).
Proof.
  intros Hi. destruct (list_find _ _) as [[k x]|] eqn:E; simpl.
  - apply list_find_elem in E as [Hx Hk].
    destruct (slot_elem printer_slot (λ x, x.1.1) l i x printer_slot_key Hx Hk) as (c' & Hc' & Ef). congruence.
  - destruct (printer_slot (i, c)) as [x|] eqn:Ep; [|done]. apply list_find_None in E.
    rewrite Forall_forall in E. exfalso. apply (E x); [|by apply (printer_slot_key (i, c))].
    apply list_elem_of_omap. exists (i, c). split; [by apply enumerate_lookup|done].
Qed.

Lemma slot_columns_not_base (printer : list DiscoveredPrinterColumn) k :
  k ∈ column_id <$> omap printer_column (enumerate printer) → k ∉ base_keys.
Proof.
  intros (x & -> & Hx)%list_elem_of_fmap. apply list_elem_of_omap in Hx as (p & _ & Hp).
  rewrite (printer_column_key _ _ Hp). apply slot_not_base.
Qed.

Lemma dynamic_columns_NoDup (ns : bool) (printer : list DiscoveredPrinterColumn) :
  NoDup (column_id <$> dynamic_columns_with_printer ns printer).
Proof.
  pose proof (slot_columns_not_base printer) as Hs.
  unfold dynamic_columns_with_printer. rewrite !fmap_app. apply NoDup_app. split_and!.
  - destruct ns; decided.
  - intros k Hk [Hin|Hin]%elem_of_app; [apply (Hs k Hin); destruct ns; simpl in Hk; set_solver|].
    apply list_elem_of_singleton in Hin. subst.
    destruct ns; revert Hk; apply (bool_decide_unpack _); vm_compute; exact I.
  - apply NoDup_app. split_and!; [apply slots_NoDup, printer_column_key| |apply NoDup_singleton].
    intros k Hk Hin. apply (Hs k Hk). apply list_elem_of_singleton in Hin. subst. decided.
Qed.

(** A row of a CRD with printer columns, when its projection does not panic, answers to
    the columns of its table: the columns have distinct ids, the row one value per key;
    name, namespace and age are the object's; a printer column that is not kubectl's own
    age has its slot among the columns, with the value its path leads to, or no value when
    the path is not supported. *)
Theorem dynamic_row_matches_columns (json_text : Json → str) (ns : bool)
    (printer : list DiscoveredPrinterColumn) (obj : DynamicObject) (row : Map) :
  project json_text (new_projector printer) obj = Ok row →
  NoDup (column_id <$> dynamic_columns_with_printer ns printer) ∧ NoDup row.*1
  ∧ map_get (lit "name") row = Some (String_ (default [] (m_name (metadata obj))))
  ∧ map_get (lit "namespace") row = Some (opt_string (m_namespace (metadata obj)))
  ∧ map_get (lit "creation_timestamp") row = Some (opt_string (m_creation_timestamp (metadata obj)))
  ∧ ∀ i c, printer !! i = Some c → is_age c = false →
      slot i ∈ column_id <$> dynamic_columns_with_printer ns printer
      ∧ match parse_jsonpath_segments (json_path c) with
        | Some segs => ∃ v, coerce_printer_value json_text (walk_jsonpath (data obj) segs) (type_ c) = Ok v
                            ∧ map_get (slot i) row = Some v
        | None => map_get (slot i) row = None
        end.
Proof.
  intros E. unfold project in E. set (out := map_insert (lit "creation_timestamp") _ _) in E.
  assert (NoDup (new_projector printer).*1.*1) as Hnd.
  { rewrite <- list_fmap_compose. apply slots_NoDup, printer_slot_key. }
  assert (∀ k, k ∈ base_keys → map_get k row = map_get k out) as Hbase.
  { intros k Hk. pose proof (project_printer_get json_text _ _ _ _ k Hnd E) as H.
    destruct (list_find _ _) as [[j [[s segs] ty]]|] eqn:Ef; [|done]. apply list_find_elem in Ef as [Hx Hs].
    apply list_elem_of_omap in Hx as (p & _ & Hp). apply printer_slot_key in Hp. simpl in *. subst.
    by apply slot_not_base in Hk. }
  split_and!.
  - apply dynamic_columns_NoDup.
  - apply keys_sorted_NoDup. eapply project_printer_sorted; [|exact E]. unfold out. by repeat apply map_insert_sorted; constructor.
  - rewrite Hbase by set_solver. done.
  - rewrite Hbase by set_solver. done.
  - rewrite Hbase by set_solver. done.
  - intros i c Hi Hage. split.
    + unfold dynamic_columns_with_printer. rewrite !fmap_app. apply elem_of_app. right. apply elem_of_app. left.
      apply list_elem_of_fmap. eexists. split; [|apply list_elem_of_omap; exists (i, c); split; [by apply enumerate_lookup|]].
      2: { unfold printer_column. simpl. by rewrite Hage. } done.
    + pose proof (project_printer_get json_text _ _ _ _ (slot i) Hnd E) as H.
      pose proof (new_projector_find printer i c Hi) as Hf. unfold printer_slot in Hf. simpl in Hf. rewrite Hage in Hf.
      destruct (list_find _ _) as [[j [[s segs] ty]]|], (parse_jsonpath_segments (json_path c)); simpl in Hf; simplify_eq.
      * destruct H as (v & ? & ?). by exists v.
      * rewrite H. unfold out. rewrite !map_get_insert. repeat rewrite decide_False; [done|..];
          intros Heq; apply (slot_not_base i); rewrite <- Heq; unfold base_keys; set_solver.
Qed.

(** ** Concrete entries *)

Definition a_crd : DiscoveredCrd :=
  {| crd_group := "example.com"; crd_version := "v1"; crd_plural := "widgets"; crd_kind := "Widget";
     crd_namespaced := true;
     printer_columns := [{| pc_name := "Replicas"; json_path := ".spec.replicas"; type_ := "integer" |};
                         {| pc_name := "AGE"; json_path := ".metadata.creationTimestamp"; type_ := "date" |};
                         {| pc_name := "Ready"; json_path := ".status.conditions[?(@.type=='Ready')].status";
                            type_ := "string" |};
                         {| pc_name := "Owners"; json_path := ".spec.owners"; type_ := "string" |}] |}.

Lemma cache_ok_empty : cache_ok empty_cache.
Proof. split; simpl; [|constructor|unfold PRINTER_COLUMN_CACHE_CAP; lia]. intros i. rewrite lookup_empty. split; [set_solver|by intros []]. Qed.

Lemma entry_round_trip_witness :
  bar_free a_crd ∧ (let '(e, c) := from_dynamic_crd a_crd empty_cache in
                    id (meta e) = lit "crd:example.com|v1|widgets|Widget|ns" ∧ lookup (id (meta e)) c = (Some e, c)).
Proof.
  assert (bar_free a_crd) as Hb by by repeat split; decided.
  split; [exact Hb|]. pose proof (entry_round_trip a_crd empty_cache Hb cache_ok_empty) as H.
  destruct (from_dynamic_crd a_crd empty_cache) as [e c] eqn:E. split; [|exact H].
  unfold from_dynamic_crd in E. change (well_known_by_gk _ _) with (@None WellKnownCrd) in E.
  cbn in E. injection E as <- _. reflexivity.
Defined.

(** The compact form of values without escapes. *)
Fixpoint compact (j : Json) : str :=
  match j with
  | Null => lit "null"
  | Bool b => bool_str b
  | Json.Number n => n
  | String_ s => QUOTE :: s ++ [QUOTE]
  | Array l => lit "[" ++ join [COMMA] (compact <$> l) ++ lit "]"
  | Object m => lit "{" ++ join [COMMA] ((λ p, QUOTE :: p.1 ++ [QUOTE] ++ [COLON] ++ compact p.2) <$> m) ++ lit "}"
  end.

Definition widget (owners : list Json) : DynamicObject :=
  {| metadata := {| m_name := Some (lit "w1"); m_namespace := Some (lit "prod"); m_creation_timestamp := None |};
     data := Object [(lit "spec", Object [(lit "replicas", Json.Number "3"); (lit "owners", Array owners)])] |}.

Lemma dynamic_row_matches_columns_witness :
  match project compact (new_projector (printer_columns a_crd)) (widget [String_ "team-a"]) with
  | Ok row => map_get (lit "pc0") row = Some (Json.Number "3") ∧ map_get (lit "pc2") row = None
              ∧ map_get (lit "pc3") row = Some (String_ (compact (Array [String_ "team-a"])))
  | Err _ => False
  end.
Proof.
  destruct (project _ _ _) as [row|f] eqn:E; [|vm_compute in E; discriminate].
  destruct (dynamic_row_matches_columns compact true _ _ _ E) as (_ & _ & _ & _ & _ & H).
  destruct (H 0 _ eq_refl eq_refl) as [_ H0]. destruct (H 2 _ eq_refl eq_refl) as [_ H2].
  destruct (H 3 _ eq_refl eq_refl) as [_ H3].
  split; [|split; [exact H2|]].
  - destruct H0 as (v & Hv & Hg). vm_compute in Hv. injection Hv as <-. exact Hg.
  - destruct H3 as (v & Hv & Hg). vm_compute in Hv. injection Hv as <-. exact Hg.
Defined.

(** A list whose text has a two-byte character over its 64th byte: the projection panics. *)
Definition long_owner : str := replicate 61 97%N ++ [233%N; 233%N].

Example printer_value_panics :
  project compact (new_projector (printer_columns a_crd)) (widget [String_ long_owner]) = Err Panic.
Proof. vm_compute. reflexivity. Qed.

(** The cache knows no clusters: a CRD that declares no columns shows those another
    cluster declared for the same id. *)
Definition bare_crd : DiscoveredCrd :=
  {| crd_group := "example.com"; crd_version := "v1"; crd_plural := "widgets"; crd_kind := "Widget";
     crd_namespaced := true; printer_columns := [] |}.

Lemma columns_of_another_cluster :
  let '(_, c) := from_dynamic_crd a_crd empty_cache in
  columns (meta (from_dynamic_crd bare_crd c).1) = dynamic_columns_with_printer true (printer_columns a_crd)
  ∧ columns (meta (from_dynamic_crd bare_crd empty_cache).1) = default_dynamic_columns true.
Proof.
  pose proof (cache_get_insert (crd_id a_crd) (printer_columns a_crd) empty_cache cache_ok_empty) as Hg.
  unfold from_dynamic_crd. change (well_known_by_gk _ _) with (@None WellKnownCrd). cbv iota.
  change (crd_id bare_crd) with (crd_id a_crd).
  rewrite (bool_decide_eq_false_2 (printer_columns a_crd = [])) by done.
  rewrite (bool_decide_eq_true_2 (printer_columns bare_crd = [])) by done. by rewrite Hg.
Qed.
