(* ===== verification/Access.v ===== *)
(** * What the operator may do

    kube-ext/src/access.rs: the attributes an action needs ([plan]), how their verdicts
    combine, and the cache of access reviews of a cluster.

    The reviewer (the API server), time and the scheduler are the steps of [Cache]; a step
    is one critical section of the cache's lock or one await that ends.  A task that is
    aborted past its last await runs to its end.  Times count milliseconds. *)

From S2P Require Import Prelude Kinds Registry.

(** ** Attributes *)

Record Attr : Set := {
  verb : str;
  group : str;
  resource : str;
  subresource : str;
  namespace : str;
  name : str;
}.

#[global] Instance Attr_eq_dec : EqDecision Attr.
Proof. solve_decision. Defined.

#[global] Instance Attr_countable : Countable Attr.
Proof.
  refine (inj_countable'
    (λ a, (verb a, group a, resource a, subresource a, namespace a, name a))
    (λ '(v, g, r, s, ns, n), Build_Attr v g r s ns n) _).
  by intros [].
Defined.

Definition mk_attr (v g r s ns n : str) : Attr := Build_Attr v g r s ns n.

Definition SPACE : str := [32%N].

Definition QUOTED (s : str) : str := 34%N :: s ++ [34%N].

Definition describe (a : Attr) : str :=
  let what := resource a
    ++ (if decide (subresource a = []) then [] else SLASH :: subresource a)
    ++ (if decide (group a = []) then [] else DOT :: group a) in
  let nm := if decide (name a = []) then [] else SPACE ++ QUOTED (name a) in
  let scope := if decide (namespace a = []) then lit " (cluster-wide)" else lit " in " ++ namespace a in
  verb a ++ SPACE ++ what ++ nm ++ scope.

Definition set_scope (ns n : str) (a : Attr) : Attr :=
  Build_Attr (verb a) (group a) (resource a) (subresource a) ns n.

(** Any namespace, then any name, then the attribute itself. *)
Definition broadening (a : Attr) : list Attr :=
  (if decide (namespace a = []) then [] else [set_scope [] [] a])
  ++ (if decide (name a = []) then [] else [set_scope (namespace a) [] a])
  ++ [a].

(** ** Requests *)

Inductive Action : Set :=
  | Get | List_ | Watch | Create | Update | Patch | Delete | Logs | Exec | Attach | PortForward | Evict
  | Restart | Cordon | Drain | NodeShell | NodeProxy | Trigger | Rerun | Suspend | HelmInstall
  | HelmUpgrade | HelmRollback | HelmUninstall.

#[global] Instance Action_eq_dec : EqDecision Action.
Proof. solve_decision. Defined.

Record AccessRequest : Set := {
  kind_id : str; action : Action; req_namespace : option str; req_name : option str;
}.

(** [{:?}] *)
Definition action_debug (a : Action) : str :=
  match a with
  | Get => lit "Get" | List_ => lit "List" | Watch => lit "Watch" | Create => lit "Create"
  | Update => lit "Update" | Patch => lit "Patch" | Delete => lit "Delete" | Logs => lit "Logs"
  | Exec => lit "Exec" | Attach => lit "Attach" | PortForward => lit "PortForward" | Evict => lit "Evict"
  | Restart => lit "Restart" | Cordon => lit "Cordon" | Drain => lit "Drain"
  | NodeShell => lit "NodeShell" | NodeProxy => lit "NodeProxy" | Trigger => lit "Trigger"
  | Rerun => lit "Rerun" | Suspend => lit "Suspend" | HelmInstall => lit "HelmInstall"
  | HelmUpgrade => lit "HelmUpgrade" | HelmRollback => lit "HelmRollback"
  | HelmUninstall => lit "HelmUninstall"
  end.

(** [(group, plural, namespaced)] *)
Definition kind_target (kind_id : str) : option (str * str * bool) :=
  if (kind_id =s lit "helm_releases") || (kind_id =s lit "helm_charts")
  then Some ([], lit "secrets", true)
  else match parse_id kind_id with
  | Some p => Some (p_group p, p_plural p, p_namespaced p)
  | None =>
      match strip_prefix (lit "crd:") kind_id with
      | Some rest =>
          match split_char BAR rest with
          | [g; _; p; _; sc] => Some (g, p, sc =s lit "ns")
          | _ => None
          end
      | None => e ← lookup_builtin kind_id; Some (Kinds.group e, plural e, namespaced e)
      end
  end.

Definition POD_OWNERS : list str :=
  lit <$> ["deployments"; "statefulsets"; "daemonsets"; "replicasets"; "jobs"]%string.

Record Plan : Set := { all : list Attr; any : list (list Attr) }.

(** Every request the action makes on the kind. *)
Definition requirements (req : AccessRequest) : result (list Attr) str :=
  match kind_target (kind_id req) with
  | None => Err (lit "unknown kind: " ++ kind_id req)
  | Some (group, plural, namespaced) =>
      let is_ (i : string) := kind_id req =s lit i in
      let helm := is_ "helm_releases"%string || is_ "helm_charts"%string in
      let name := if helm then [] else default [] (req_name req) in
      let ns := if namespaced : bool then default [] (req_namespace req)
                else if bool_decide (group = []) && (plural =s lit "namespaces") then name else [] in
      let own (v : string) := mk_attr (lit v) group plural [] ns name in
      let own_sub (v s : string) := mk_attr (lit v) group plural (lit s) ns name in
      let core (v r s : string) (n : str) := mk_attr (lit v) [] (lit r) (lit s) ns n in
      let slices (ns : str) := mk_attr (lit "list") (lit "discovery.k8s.io") (lit "endpointslices") [] ns [] in
      let stream (s : string) (pod : str) := [core "get" "pods" s pod; core "create" "pods" s pod]%string in
      let unsupported := Err (action_debug (action req) ++ lit " doesn't apply to " ++ kind_id req) in
      let owner := bool_decide (kind_id req ∈ POD_OWNERS) in
      match action req with
      | Get => Ok (if is_ "helm_charts" then [] else if helm then [own "get"; own "list"] else [own "get"])
      | List_ => Ok (if helm then [own "list"; own "watch"] else [own "list"])
      | Watch => Ok [own "list"; own "watch"]
      | Create => if helm then unsupported else Ok [own "create"]
      | Update => if helm then unsupported else Ok [own "update"]
      | Patch => if helm then unsupported else Ok [own "patch"]
      | Delete =>
          if is_ "helm_charts" then unsupported
          else Ok (if helm then [own "list"; own "get"; own "delete"] else [own "delete"])
      | HelmUninstall => if helm then Ok [own "list"; own "get"; own "delete"] else unsupported
      | Logs =>
          if is_ "pods" then Ok [core "get" "pods" "" name; core "get" "pods" "log" name]
          else if owner
          then Ok [own "get"; core "list" "pods" "" []; core "watch" "pods" "" []; core "get" "pods" "log" []]
          else unsupported
      | Exec => if is_ "pods" then Ok [core "get" "pods" "" name; core "create" "pods" "exec" name] else unsupported
      | Attach =>
          if is_ "pods" then Ok [core "get" "pods" "" name; core "create" "pods" "attach" name] else unsupported
      | PortForward =>
          if is_ "pods" then Ok (stream "portforward" name)
          else if is_ "services" then Ok (own "get" :: slices ns :: stream "portforward" [])
          else if owner then Ok (own "get" :: core "list" "pods" "" [] :: stream "portforward" [])
          else if is_ "namespaces" then
            let svc (v : string) := mk_attr (lit v) [] (lit "services") [] name [] in
            let pf (v : string) := mk_attr (lit v) [] (lit "pods") (lit "portforward") name [] in
            Ok [svc "list"; svc "watch"; svc "get"; slices name; pf "get"; pf "create"]
          else unsupported
      | Evict => if is_ "pods" then Ok [core "create" "pods" "eviction" name] else unsupported
      | Restart =>
          if is_ "deployments" || is_ "statefulsets" || is_ "daemonsets" then Ok [own "patch"] else unsupported
      | Cordon => if is_ "nodes" then Ok [own "patch"] else unsupported
      | Drain =>
          if is_ "nodes"
          then Ok [own "patch"; mk_attr (lit "list") [] (lit "pods") [] [] [];
                   mk_attr (lit "create") [] (lit "pods") (lit "eviction") [] []]
          else unsupported
      | NodeShell =>
          if is_ "nodes" then
            let shell_ns := default (lit "default") (req_namespace req) in
            let pod (v s : string) := mk_attr (lit v) [] (lit "pods") (lit s) shell_ns [] in
            Ok [own "get"; pod "create" ""; pod "list" ""; pod "watch" ""; pod "create" "attach"; pod "delete" ""]
          else unsupported
      | NodeProxy => if is_ "nodes" then Ok [own_sub "get" "proxy"] else unsupported
      | Trigger =>
          if is_ "cronjobs" then Ok [own "get"; mk_attr (lit "create") (lit "batch") (lit "jobs") [] ns []]
          else unsupported
      | Rerun =>
          if is_ "jobs" then Ok [own "get"; mk_attr (lit "create") (lit "batch") (lit "jobs") [] ns []]
          else unsupported
      | Suspend => if is_ "jobs" || is_ "cronjobs" then Ok [own "patch"] else unsupported
      | HelmInstall => if helm then Ok [own "list"; own "create"; own "update"] else unsupported
      | HelmUpgrade | HelmRollback =>
          if is_ "helm_releases" then Ok [own "list"; own "get"; own "create"; own "update"; own "delete"]
          else unsupported
      end%string
  end.

Definition plan (req : AccessRequest) : result Plan str :=
  if (kind_id req =s lit "pods") && bool_decide (action req = Restart) then
    let ns := default [] (req_namespace req) in
    let apps (v r : string) := mk_attr (lit v) (lit "apps") (lit r) [] ns [] in
    Ok {| all := [mk_attr (lit "get") [] (lit "pods") [] ns (default [] (req_name req))];
          any := [[apps "patch" "deployments"; apps "get" "replicasets"]; [apps "patch" "statefulsets"];
                  [apps "patch" "daemonsets"]]%string |}
  else attrs <-? requirements req; Ok {| all := attrs; any := [] |}.

(** ** Verdicts *)

Inductive Verdict : Set := Allowed | Denied | Unknown (error : str).

#[global] Instance Verdict_eq_dec : EqDecision Verdict.
Proof. solve_decision. Defined.

Definition verdict_of (allowed : bool) : Verdict := if allowed then Allowed else Denied.

Inductive Access : Set := AccessAllowed | AccessDenied (reason : str) | AccessUnknown (error : str).

Definition denied (a : Attr) : Access := AccessDenied (lit "cannot " ++ describe a).

Section Combine.
Context (verdict : Attr → Verdict).

(** [unknown.get_or_insert(e)] *)
Definition get_or_insert {A} (o : option A) (x : A) : option A := match o with Some _ => o | None => Some x end.

(** The first denied attribute, else the first unknown error. *)
Fixpoint first_blocker (unknown : option str) (attrs : list Attr) : result (option str) Attr :=
  match attrs with
  | [] => Ok unknown
  | a :: attrs =>
      match verdict a with
      | Denied => Err a
      | Unknown e => first_blocker (get_or_insert unknown e) attrs
      | Allowed => first_blocker unknown attrs
      end
  end.

(** The loop over the groups: [None] when one is allowed. *)
Fixpoint scan_groups (any_unknown : option str) (first_denial : option Attr) (groups : list (list Attr)) :
    option (option str * option Attr) :=
  match groups with
  | [] => Some (any_unknown, first_denial)
  | g :: groups =>
      match first_blocker None g with
      | Ok None => None
      | Ok (Some e) => scan_groups (get_or_insert any_unknown e) first_denial groups
      | Err a => scan_groups any_unknown (get_or_insert first_denial a) groups
      end
  end.

Definition answer (unknown : option str) : Access :=
  match unknown with Some e => AccessUnknown e | None => AccessAllowed end.

Definition combine (p : Plan) : Access :=
  match first_blocker None (all p) with
  | Err a => denied a
  | Ok unknown =>
      match any p with
      | [] => answer unknown
      | groups =>
          match scan_groups None None groups with
          | None => answer unknown
          | Some (Some e, _) => answer (get_or_insert unknown e)
          | Some (None, Some a) => denied a
          | Some (None, None) => answer unknown
          end
      end
  end.

(** *** The same in Kleene's logic *)

Inductive Kleene : Set := False_ | Unsure | True_.

Definition kand (a b : Kleene) : Kleene :=
  match a, b with False_, _ | _, False_ => False_ | True_, True_ => True_ | _, _ => Unsure end.

Definition kor (a b : Kleene) : Kleene :=
  match a, b with True_, _ | _, True_ => True_ | False_, False_ => False_ | _, _ => Unsure end.

Definition truth (v : Verdict) : Kleene :=
  match v with Allowed => True_ | Denied => False_ | Unknown _ => Unsure end.

Definition access_truth (a : Access) : Kleene :=
  match a with AccessAllowed => True_ | AccessDenied _ => False_ | AccessUnknown _ => Unsure end.

Definition conj (attrs : list Attr) : Kleene := foldr (λ a k, kand (truth (verdict a)) k) True_ attrs.

Definition disj (groups : list (list Attr)) : Kleene := foldr (λ g k, kor (conj g) k) False_ groups.

(** What a plan means. *)
Definition plan_truth (p : Plan) : Kleene := kand (conj (all p)) (match any p with [] => True_ | gs => disj gs end).

Definition unsure_of (u : option str) : Kleene := match u with Some _ => Unsure | None => True_ end.

Lemma first_blocker_truth (u : option str) (attrs : list Attr) :
  match first_blocker u attrs with Err _ => False_ | Ok o => unsure_of o end = kand (conj attrs) (unsure_of u).
Proof.
  revert u. induction attrs as [|a attrs IH]; intros u; simpl; [by destruct u|].
  destruct (verdict a); simpl; [rewrite IH; by destruct (conj attrs)|by destruct u|].
  rewrite IH. destruct u; simpl; destruct (conj attrs); done.
Qed.

Lemma first_blocker_Err (u : option str) (attrs : list Attr) a :
  first_blocker u attrs = Err a →
  ∃ pre post, attrs = pre ++ a :: post ∧ verdict a = Denied ∧ Forall (λ b, verdict b ≠ Denied) pre.
Proof.
  revert u. induction attrs as [|b attrs IH]; intros u E; simpl in E; [done|].
  destruct (verdict b) eqn:Eb; simplify_eq;
    try (destruct (IH _ E) as (pre & post & -> & ? & ?); exists (b :: pre), post; split_and!; [done..|];
         constructor; [congruence|done]).
  by exists [], attrs.
Qed.

Lemma first_blocker_Ok (u o : option str) (attrs : list Attr) :
  first_blocker u attrs = Ok o → Forall (λ b, verdict b ≠ Denied) attrs.
Proof.
  revert u. induction attrs as [|a attrs IH]; intros u E; simpl in E; [constructor|].
  destruct (verdict a) eqn:Ea; [|done|]; (constructor; [congruence|by eapply IH]).
Qed.

Lemma scan_groups_truth (u : option str) (d : option Attr) (groups : list (list Attr)) :
  match scan_groups u d groups with None => True_ | Some (Some _, _) => Unsure | Some (None, _) => False_ end
  = kor (disj groups) (match u with Some _ => Unsure | None => False_ end).
Proof.
  revert u d. induction groups as [|g groups IH]; intros u d; simpl; [by destruct u|].
  pose proof (first_blocker_truth None g) as Hg. destruct (first_blocker None g) as [[e|]|a]; simpl in Hg.
  - rewrite IH. destruct (conj g); try discriminate. destruct u; simpl; by destruct (disj groups).
  - destruct (conj g); try discriminate. done.
  - rewrite IH. destruct (conj g); try discriminate. by destruct (disj groups).
Qed.

Lemma scan_groups_denial (u : option str) (d : option Attr) (groups : list (list Attr)) a :
  scan_groups u d groups = Some (None, Some a) → d = Some a ∨ ∃ g, g ∈ groups ∧ a ∈ g ∧ verdict a = Denied.
Proof.
  revert u d. induction groups as [|g groups IH]; intros u d E; simpl in E; [simplify_eq; by left|].
  destruct (first_blocker None g) as [[e|]|b] eqn:Eg; [|done|].
  - destruct (IH _ _ E) as [?|(g' & ? & ?)]; [by left|right; exists g'; set_solver].
  - apply first_blocker_Err in Eg as (pre & post & -> & Hb & _).
    destruct (IH _ _ E) as [Hd|(g' & ? & ?)]; [|right; exists g'; set_solver].
    destruct d; simpl in Hd; [by left|]. simplify_eq. right. exists (pre ++ a :: post). set_solver.
Qed.

Lemma scan_groups_reason (u : option str) (d : option Attr) (groups : list (list Attr)) :
  scan_groups u d groups = Some (None, None) → groups = [] ∧ d = None.
Proof.
  revert u d. induction groups as [|g groups IH]; intros u d E; simpl in E; [by simplify_eq|]. exfalso.
  destruct (first_blocker None g) as [[e|]|b]; [|done|]; destruct (IH _ _ E) as [-> Hd].
  - simpl in E. by destruct u.
  - by destruct d.
Qed.

(** Combining verdicts is exact: an action is denied, allowed or unknown exactly when
    its plan, every attribute of [all] and every attribute of one group of [any], is false,
    true or undecided in three-valued logic; a denial names an attribute of the plan that
    is denied, the first one of [all] when there is one. *)
Theorem combine_exact (p : Plan) :
  access_truth (combine p) = plan_truth p
  ∧ ∀ reason, combine p = AccessDenied reason →
      ∃ a, reason = lit "cannot " ++ describe a ∧ verdict a = Denied
        ∧ ((∃ pre post, all p = pre ++ a :: post ∧ Forall (λ b, verdict b ≠ Denied) pre)
           ∨ Forall (λ b, verdict b ≠ Denied) (all p) ∧ ∃ g, g ∈ any p ∧ a ∈ g).
Proof.
  unfold combine, plan_truth. pose proof (first_blocker_truth None (all p)) as Ha.
  destruct (first_blocker None (all p)) as [u|a] eqn:Eb; simpl in Ha.
  - assert (unsure_of u = conj (all p)) as Hu by (rewrite Ha; by destruct (conj (all p))). clear Ha.
    assert (∀ o, access_truth (answer o) = unsure_of o) as Hans by by intros [].
    destruct (any p) as [|g gs] eqn:Eg.
    { split; [rewrite Hans, Hu; by destruct (conj (all p))|]. by destruct u. }
    pose proof (scan_groups_truth None None (g :: gs)) as Hs.
    destruct (scan_groups None None (g :: gs)) as [[[e|] d]|] eqn:Es.
    + assert (disj (g :: gs) = Unsure) as -> by (destruct (disj (g :: gs)); done).
      split; [rewrite Hans, <- Hu; by destruct u|]. by destruct u.
    + assert (disj (g :: gs) = False_) as -> by (destruct (disj (g :: gs)); done).
      destruct d as [a|]; [|by apply scan_groups_reason in Es as [? _]].
      split; [simpl; rewrite <- Hu; by destruct u|]. intros r [= <-]. exists a.
      apply scan_groups_denial in Es as [?|(g' & ? & ? & ?)]; [done|]. split_and!; [done..|]. right.
      split; [by eapply first_blocker_Ok|by exists g'].
    + assert (disj (g :: gs) = True_) as -> by (destruct (disj (g :: gs)); done).
      split; [rewrite Hans, <- Hu; by destruct u|]. by destruct u.
  - destruct (first_blocker_Err _ _ _ Eb) as (pre & post & E & Hd & Hpre).
    split; [by destruct (conj (all p))|]. intros r [= <-]. exists a. split_and!; [done..|]. left. by exists pre, post.
Qed.
End Combine.

(** [check], once every attribute has its verdict: the answers in request order. *)
Definition check_results (verdict : Attr → Verdict) (requests : list AccessRequest) : list Access :=
  (λ req, match plan req with Ok p => combine verdict p | Err e => AccessUnknown e end) <$> requests.

(** ** The rules an identity is granted *)

Module Rules.

(** k8s_openapi's ResourceRule and NonResourceRule, as far as the code reads them. *)
Record ResourceRule : Set := {
  r_verbs : list str; r_api_groups : option (list str); r_resources : option (list str);
  r_resource_names : option (list str);
}.

Record NonResource : Set := { n_verbs : list str; n_urls : option (list str) }.

Record Rule : Set := {
  verbs : list str; api_groups : list str; resources : list str; resource_names : list str;
}.

#[global] Instance Rule_eq_dec : EqDecision Rule.
Proof. solve_decision. Defined.

Record NonResourceRule : Set := { nr_verbs : list str; urls : list str }.

#[global] Instance NonResourceRule_eq_dec : EqDecision NonResourceRule.
Proof. solve_decision. Defined.

Record RulesReview : Set := {
  rv_namespace : str; rules : list Rule; non_resource_rules : list NonResourceRule; incomplete : bool;
  evaluation_error : option str;
}.

(** The order of slices: lexicographic. *)
Fixpoint slice_leb (a b : list str) : bool :=
  match a, b with
  | [], _ => true
  | _, [] => false
  | x :: a, y :: b => if decide (x = y) then slice_leb a b else str_leb x y
  end.

Definition rule_leb (a b : Rule) : bool :=
  if decide (api_groups a = api_groups b) then
    if decide (resources a = resources b) then slice_leb (resource_names a) (resource_names b)
    else slice_leb (resources a) (resources b)
  else slice_leb (api_groups a) (api_groups b).

Definition url_leb (a b : NonResourceRule) : bool := slice_leb (urls a) (urls b).

(** [sort_by], which is stable. *)
Fixpoint insert_by {A} (leb : A → A → bool) (x : A) (l : list A) : list A :=
  match l with
  | [] => [x]
  | y :: l' => if leb x y then x :: l else y :: insert_by leb x l'
  end.

Definition sort_by {A} (leb : A → A → bool) (l : list A) : list A := foldr (insert_by leb) [] l.

(** [Vec::dedup]: of consecutive equal elements the first stays. *)
Fixpoint dedup {A} `{EqDecision A} (l : list A) : list A :=
  match l with
  | [] => []
  | x :: l' =>
      match dedup l' with
      | y :: l'' => if decide (x = y) then x :: l'' else x :: y :: l''
      | [] => [x]
      end
  end.

Definition review_rules (ns : str) (rs : list ResourceRule) (ns_rules : list NonResource) (incomplete : bool)
    (error : option str) : RulesReview :=
  {| rv_namespace := ns;
     rules := dedup (sort_by rule_leb
       ((λ r, {| verbs := r_verbs r; api_groups := default [] (r_api_groups r);
                 resources := default [] (r_resources r); resource_names := default [] (r_resource_names r) |}) <$> rs));
     non_resource_rules := dedup (sort_by url_leb ((λ r, {| nr_verbs := n_verbs r; urls := default [] (n_urls r) |}) <$> ns_rules));
     incomplete := incomplete;
     evaluation_error := e ← error; if decide (e = []) then None else Some e |}.

Lemma elem_of_dedup {A} `{EqDecision A} (l : list A) (x : A) : x ∈ dedup l ↔ x ∈ l.
Proof.
  induction l as [|y l IH]; simpl; [done|]. rewrite elem_of_cons, <- IH.
  destruct (dedup l) as [|z l']; [set_solver|]. case_decide; subst; set_solver.
Qed.

Lemma sort_by_Permutation {A} (leb : A → A → bool) (l : list A) : sort_by leb l ≡ₚ l.
Proof.
  assert (∀ x l, insert_by leb x l ≡ₚ x :: l) as Hi.
  { intros x l'. induction l' as [|y l' IH]; simpl; [done|]. destruct (leb x y); [done|]. rewrite IH. constructor. }
  induction l as [|x l IH]; simpl; [done|]. by rewrite Hi, IH.
Qed.

(** No grant is lost and none is made up. *)
Lemma review_rules_exact ns rs nrs inc e (r : Rule) :
  r ∈ rules (review_rules ns rs nrs inc e)
  ↔ ∃ x, x ∈ rs ∧ verbs r = r_verbs x ∧ api_groups r = default [] (r_api_groups x)
         ∧ resources r = default [] (r_resources x) ∧ resource_names r = default [] (r_resource_names x).
Proof.
  simpl. rewrite elem_of_dedup, sort_by_Permutation, list_elem_of_fmap. destruct r. naive_solver.
Qed.

(** [dedup] sees neighbours only and the sort ignores the verbs, so a rule listed twice
    around one with other verbs stays twice. *)
Example repeated_rule_stays :
  let r v := {| r_verbs := [lit v]; r_api_groups := Some [[]]; r_resources := Some [lit "pods"]; r_resource_names := None |} in
  length (rules (review_rules (lit "ns") [r "get"; r "list"; r "get"] [] false None)) = 3
  ∧ length (rules (review_rules (lit "ns") [r "get"; r "get"; r "list"] [] false None)) = 2.
Proof. by vm_compute. Qed.

End Rules.

(** ** The cache *)

Module Cache.

Definition TTL : N := 300000.

Definition INCONCLUSIVE_TTL : N := 30000.

Definition CONCURRENCY : nat := 16.

Definition PRUNE_FLOOR : nat := N.to_nat 4096.

(** What one review returned. *)
Inductive Reviewed : Set :=
  | RAllowed | RDenied | Inconclusive | Unsupported (e : str) | Failed (e : str).

Abbreviation Answer := (result (bool * N) str) (only parsing).

(** [review]: what the API server answered. *)
Inductive Reply : Set :=
  | Status (allowed : bool) (evaluation_error : option str)
  | NoStatus
  | ApiError (code : N) (message text : str)
  | OtherError (text : str).

Definition reviewed_of (r : Reply) : Reviewed :=
  match r with
  | Status true _ => RAllowed
  | Status false (Some e) => if decide (e = []) then RDenied else Inconclusive
  | Status false None => RDenied
  | NoStatus => Failed (lit "access review returned no status")
  | ApiError code message text =>
      if (code =? 403)%N || (code =? 404)%N
      then Unsupported (lit "permission checks unavailable on this cluster: " ++ message)
      else Failed text
  | OtherError text => Failed text
  end.

Definition answer_of (r : Reviewed) (now : N) : Answer :=
  match r with
  | RAllowed => Ok (true, now + TTL)%N
  | RDenied => Ok (false, now + TTL)%N
  | Inconclusive => Ok (false, now + INCONCLUSIVE_TTL)%N
  | Unsupported e | Failed e => Err e
  end.

(** A review on its own task. *)
Inductive Stage : Set :=
  | Queued | Reviewing | Answered (r : Reviewed) (a : Answer) | Over (a : Answer).

Record Task : Set := { t_attr : Attr; t_gen : nat; stage : Stage }.

(** A call of [resolve]: the candidates left, and where it is. *)
Inductive Place : Set :=
  | Asking | Waiting (task : nat) (candidate : Attr) | Remembering (candidate : Attr) (expires : N)
  | Finished (v : Verdict).

Record Caller : Set := { c_attr : Attr; c_gen : nat; rest : list Attr; place : Place }.

(** A review that was answered, as the ghost trace has it. *)
Record Review : Set := { r_gen : nat; r_attr : Attr; r_result : Reviewed; r_time : N }.

Record State : Set := {
  entries : gmap Attr (bool * N);
  flights : gmap Attr nat;
  unsupported : option str;
  generation : nat;
  prune_at : nat;
  tasks : gmap nat Task;
  callers : gmap nat Caller;
  clock : N;
  reviews : list Review;
}.

Definition initial : State :=
  {| entries := ∅; flights := ∅; unsupported := None; generation := 0; prune_at := PRUNE_FLOOR;
     tasks := ∅; callers := ∅; clock := 0; reviews := [] |}.

(** State::fresh *)
Definition fresh (s : State) (a : Attr) : option (bool * N) :=
  match unsupported s with
  | Some _ => None
  | None =>
      match entries s !! a with
      | Some (b, e) => if (clock s <? e)%N then Some (b, e) else None
      | None => None
      end
  end.

Definition set_entries (m : gmap Attr (bool * N)) (s : State) : State :=
  {| entries := m; flights := flights s; unsupported := unsupported s; generation := generation s;
     prune_at := prune_at s; tasks := tasks s; callers := callers s; clock := clock s; reviews := reviews s |}.

Definition set_flights (m : gmap Attr nat) (s : State) : State :=
  {| entries := entries s; flights := m; unsupported := unsupported s; generation := generation s;
     prune_at := prune_at s; tasks := tasks s; callers := callers s; clock := clock s; reviews := reviews s |}.

Definition set_unsupported (u : option str) (s : State) : State :=
  {| entries := entries s; flights := flights s; unsupported := u; generation := generation s;
     prune_at := prune_at s; tasks := tasks s; callers := callers s; clock := clock s; reviews := reviews s |}.

Definition set_tasks (m : gmap nat Task) (s : State) : State :=
  {| entries := entries s; flights := flights s; unsupported := unsupported s; generation := generation s;
     prune_at := prune_at s; tasks := m; callers := callers s; clock := clock s; reviews := reviews s |}.

Definition set_callers (m : gmap nat Caller) (s : State) : State :=
  {| entries := entries s; flights := flights s; unsupported := unsupported s; generation := generation s;
     prune_at := prune_at s; tasks := tasks s; callers := m; clock := clock s; reviews := reviews s |}.

Definition set_prune (p : nat) (s : State) : State :=
  {| entries := entries s; flights := flights s; unsupported := unsupported s; generation := generation s;
     prune_at := p; tasks := tasks s; callers := callers s; clock := clock s; reviews := reviews s |}.

Definition log_review (r : Review) (s : State) : State :=
  {| entries := entries s; flights := flights s; unsupported := unsupported s; generation := generation s;
     prune_at := prune_at s; tasks := tasks s; callers := callers s; clock := clock s;
     reviews := reviews s ++ [r] |}.

Definition tick (d : N) (s : State) : State :=
  {| entries := entries s; flights := flights s; unsupported := unsupported s; generation := generation s;
     prune_at := prune_at s; tasks := tasks s; callers := callers s; clock := (clock s + d)%N;
     reviews := reviews s |}.

(** State::remember *)
Definition remember (a : Attr) (allowed : bool) (expires : N) (s : State) : State :=
  let s :=
    if decide (prune_at s ≤ size (entries s)) then
      let m := filter (λ p, (clock s < p.2.2)%N) (entries s) in
      set_prune ((size m * 2) `max` PRUNE_FLOOR) (set_entries m s)
    else s in
  set_entries (<[a := (allowed, expires)]> (entries s)) s.

(** AccessCache::launch; [i] names the new task. *)
Definition launch (i : nat) (a : Attr) (s : State) : State :=
  set_flights (<[a := i]> (flights s))
    (set_tasks (<[i := {| t_attr := a; t_gen := generation s; stage := Queued |}]> (tasks s)) s).

(** AccessCache::decide up to its await: an answer, or the task to wait for. *)
Definition decide_ (i : nat) (a : Attr) (s : State) : (Answer + nat) * State :=
  match unsupported s with
  | Some error => (inl (Err error), s)
  | None =>
      match fresh s a with
      | Some hit => (inl (Ok hit), s)
      | None =>
          match flights s !! a with
          | Some j => (inr j, s)
          | None => (inr i, launch i a s)
          end
      end
  end.

(** What [resolve] does with the answer for a candidate. *)
Definition heard (c : Caller) (candidate : Attr) (ans : Answer) : Caller :=
  {| c_attr := c_attr c; c_gen := c_gen c; rest := rest c;
     place := match ans with
              | Ok (true, e) => Remembering candidate e
              | Ok (false, _) => Asking
              | Err e => Finished (Unknown e)
              end |}.

Definition goto (c : Caller) (p : Place) : Caller :=
  {| c_attr := c_attr c; c_gen := c_gen c; rest := rest c; place := p |}.

Definition put (n : nat) (c : Caller) (s : State) : State := set_callers (<[n := c]> (callers s)) s.

Definition resolve (n : nat) (a : Attr) (s : State) : State :=
  match fresh s a with
  | Some (b, _) => put n {| c_attr := a; c_gen := generation s; rest := []; place := Finished (verdict_of b) |} s
  | None => put n {| c_attr := a; c_gen := generation s; rest := broadening a; place := Asking |} s
  end.

(** [resolve], one lock or await further; [i] names a task it may launch. *)
Definition advance (n i : nat) (c : Caller) (s : State) : option State :=
  match place c with
  | Asking =>
      match rest c with
      | [] => Some (put n (goto c (Finished Denied)) s)
      | cand :: cands =>
          let c := {| c_attr := c_attr c; c_gen := c_gen c; rest := cands; place := Asking |} in
          match decide_ i cand s with
          | (inl ans, s) => Some (put n (heard c cand ans) s)
          | (inr j, s) => Some (put n (goto c (Waiting j cand)) s)
          end
      end
  | Waiting j cand =>
      t ← tasks s !! j;
      match stage t with
      | Over ans => Some (put n (heard c cand ans) s)
      | _ => None
      end
  | Remembering cand e =>
      let s := if bool_decide (generation s = c_gen c) && negb (bool_decide (cand = c_attr c))
               then remember (c_attr c) true e s else s in
      Some (put n (goto c (Finished Allowed)) s)
  | Finished _ => None
  end.

Definition is_reviewing (t : Task) : bool := match stage t with Reviewing => true | _ => false end.

Definition reviewing (s : State) : gmap nat Task := filter (λ p, is_reviewing p.2 = true) (tasks s).

Definition set_stage (i : nat) (t : Task) (g : Stage) (s : State) : State :=
  set_tasks (<[i := {| t_attr := t_attr t; t_gen := t_gen t; stage := g |}]> (tasks s)) s.

(** The last section of a task, under the lock. *)
Definition complete (i : nat) (t : Task) (r : Reviewed) (a : Answer) (s : State) : State :=
  let s := set_stage i t (Over a) s in
  if decide (generation s = t_gen t) then
    let s := set_flights (delete (t_attr t) (flights s)) s in
    match r, a with
    | Unsupported e, _ => set_unsupported (Some e) s
    | _, Ok (allowed, expires) => remember (t_attr t) allowed expires s
    | _, Err _ => s
    end
  else s.

(** Aborting a task takes effect at an await. *)
Definition aborted (t : Task) : Task :=
  match stage t with
  | Queued | Reviewing =>
      {| t_attr := t_attr t; t_gen := t_gen t; stage := Over (Err (lit "access review aborted: task was cancelled")) |}
  | _ => t
  end.

Definition invalidate (s : State) : State :=
  {| entries := ∅; flights := ∅; unsupported := None; generation := S (generation s);
     prune_at := prune_at s;
     tasks := map_imap (λ i t, Some (if bool_decide (flights s !! t_attr t = Some i) then aborted t else t)) (tasks s);
     callers := callers s; clock := clock s; reviews := reviews s |}.

Inductive Act : Set :=
  | Resolve (n : nat) (a : Attr)
  | Advance (n i : nat)
  | Acquire (i : nat)
  | Reviews (i : nat) (r : Reviewed)
  | Complete (i : nat)
  | Invalidate
  | Tick (d : N).

Definition act (x : Act) (s : State) : option State :=
  match x with
  | Resolve n a => if decide (callers s !! n = None) then Some (resolve n a s) else None
  | Advance n i => c ← callers s !! n; if decide (tasks s !! i = None) then advance n i c s else None
  | Acquire i =>
      t ← tasks s !! i;
      match stage t with
      | Queued => if decide (size (reviewing s) < CONCURRENCY) then Some (set_stage i t Reviewing s) else None
      | _ => None
      end
  | Reviews i r =>
      t ← tasks s !! i;
      match stage t with
      | Reviewing =>
          let rv := {| r_gen := t_gen t; r_attr := t_attr t; r_result := r; r_time := clock s |} in
          Some (set_stage i t (Answered r (answer_of r (clock s))) (log_review rv s))
      | _ => None
      end
  | Complete i =>
      t ← tasks s !! i;
      match stage t with
      | Answered r a => Some (complete i t r a s)
      | _ => None
      end
  | Invalidate => Some (invalidate s)
  | Tick d => Some (tick d s)
  end.

Definition step (s s' : State) : Prop := ∃ x, act x s = Some s'.

(** ** What the answers rest on *)

(** A review of generation [g] or later answered [b] for [a], good until [e]. *)
Definition backed (rs : list Review) (g : nat) (a : Attr) (b : bool) (e : N) : Prop :=
  ∃ rv, rv ∈ rs ∧ g ≤ r_gen rv ∧ r_attr rv = a ∧ answer_of (r_result rv) (r_time rv) = Ok (b, e).

(** So did one for the attribute or, when it allows, for a broader one. *)
Definition known (rs : list Review) (g : nat) (a : Attr) (b : bool) (e : N) : Prop :=
  ∃ a', a' ∈ broadening a ∧ (b = false → a' = a) ∧ backed rs g a' b e.

Definition unfinished (t : Task) : Prop := match stage t with Over _ => False | _ => True end.

Definition task_ok (s : State) (t : Task) : Prop :=
  t_gen t ≤ generation s
  ∧ match stage t with
    | Answered r a => ∃ now, a = answer_of r now
        ∧ {| r_gen := t_gen t; r_attr := t_attr t; r_result := r; r_time := now |} ∈ reviews s
    | Over (Ok (b, e)) => backed (reviews s) (t_gen t) (t_attr t) b e
    | _ => True
    end.

Definition heard_false (rs : list Review) (g : nat) (l : list Attr) : Prop :=
  Forall (λ x, ∃ e, known rs g x false e) l.

Definition caller_ok (s : State) (c : Caller) : Prop :=
  c_gen c ≤ generation s
  ∧ match place c with
    | Asking => ∃ pre, broadening (c_attr c) = pre ++ rest c ∧ heard_false (reviews s) (c_gen c) pre
    | Waiting j cand =>
        (∃ pre, broadening (c_attr c) = pre ++ cand :: rest c ∧ heard_false (reviews s) (c_gen c) pre)
        ∧ ∃ t, tasks s !! j = Some t ∧ t_attr t = cand ∧ c_gen c ≤ t_gen t
    | Remembering cand e => cand ∈ broadening (c_attr c) ∧ known (reviews s) (c_gen c) cand true e
    | Finished Allowed => ∃ e, known (reviews s) (c_gen c) (c_attr c) true e
    | Finished Denied => ∃ e, known (reviews s) (c_gen c) (c_attr c) false e
    | Finished (Unknown _) => True
    end.

Record inv (s : State) : Prop := {
  inv_flights : ∀ a i, flights s !! a = Some i →
    ∃ t, tasks s !! i = Some t ∧ t_attr t = a ∧ t_gen t = generation s ∧ unfinished t;
  inv_single : ∀ i t, tasks s !! i = Some t → t_gen t = generation s → unfinished t →
    flights s !! t_attr t = Some i;
  inv_tasks : ∀ i t, tasks s !! i = Some t → task_ok s t;
  inv_entries : ∀ a b e, entries s !! a = Some (b, e) → known (reviews s) (generation s) a b e;
  inv_callers : ∀ n c, callers s !! n = Some c → caller_ok s c;
  inv_reviews : ∀ rv, rv ∈ reviews s → r_gen rv ≤ generation s ∧ (r_time rv ≤ clock s)%N;
  inv_reviewing : size (reviewing s) ≤ CONCURRENCY;
}.

Lemma backed_mono (rs rs' : list Review) (g g' : nat) a b e :
  rs ⊆ rs' → g' ≤ g → backed rs g a b e → backed rs' g' a b e.
Proof. intros Hs Hg (rv & Hin & Hr & ? & ?). exists rv. split_and!; [by apply Hs|lia|done|done]. Qed.

Lemma known_mono (rs rs' : list Review) (g g' : nat) a b e :
  rs ⊆ rs' → g' ≤ g → known rs g a b e → known rs' g' a b e.
Proof. intros Hs Hg (a' & ? & ? & Hb). exists a'. split_and!; try done. by eapply backed_mono. Qed.

Lemma known_more (rs rs' : list Review) (g : nat) a b e : rs ⊆ rs' → known rs g a b e → known rs' g a b e.
Proof. intros Hs. by apply known_mono. Qed.

Lemma broadening_self (a : Attr) : a ∈ broadening a.
Proof. unfold broadening. rewrite !elem_of_app. right. right. by left. Qed.

Lemma elem_of_broadening (a b : Attr) :
  b ∈ broadening a ↔ b = a ∨ (namespace a ≠ [] ∧ b = set_scope [] [] a) ∨ (name a ≠ [] ∧ b = set_scope (namespace a) [] a).
Proof. unfold broadening. rewrite !elem_of_app, list_elem_of_singleton. repeat case_decide; set_solver. Qed.

Lemma broadening_trans (a b c : Attr) : c ∈ broadening b → b ∈ broadening a → c ∈ broadening a.
Proof.
  rewrite !elem_of_broadening. intros Hc [->|[[Hns ->]|[Hn ->]]]; [done|..]; unfold set_scope in *; simpl in *; naive_solver.
Qed.

Lemma known_broaden (rs : list Review) g a cand e : cand ∈ broadening a → known rs g cand true e → known rs g a true e.
Proof. intros Hc (a' & Ha & _ & Hb). exists a'. split_and!; [by eapply broadening_trans|done|done]. Qed.

Lemma backed_known (rs : list Review) g a b e : backed rs g a b e → known rs g a b e.
Proof. intros H. exists a. split_and!; [apply broadening_self|done|done]. Qed.

Lemma fresh_known (s : State) a b e : inv s → fresh s a = Some (b, e) → known (reviews s) (generation s) a b e ∧ (clock s < e)%N.
Proof.
  intros Hi. unfold fresh. destruct (unsupported s); [done|].
  destruct (entries s !! a) as [[b' e']|] eqn:E; [|done]. destruct (N.ltb_spec (clock s) e'); intros; simplify_eq.
  split; [by apply Hi|done].
Qed.

(** ** Every step keeps the invariant *)

(** What no step undoes. *)
Record grows (s s' : State) : Prop := {
  grows_reviews : reviews s ⊆ reviews s';
  grows_generation : generation s ≤ generation s';
  grows_tasks : ∀ j t, tasks s !! j = Some t →
    ∃ t', tasks s' !! j = Some t' ∧ t_attr t' = t_attr t ∧ t_gen t' = t_gen t;
}.

Lemma grows_same (s s' : State) :
  reviews s ⊆ reviews s' → generation s ≤ generation s' → tasks s' = tasks s → grows s s'.
Proof. intros ? ? E. split; [done..|]. rewrite E. by eauto. Qed.

Lemma heard_false_mono (rs rs' : list Review) g l : rs ⊆ rs' → heard_false rs g l → heard_false rs' g l.
Proof. intros Hs Hl. eapply Forall_impl; [exact Hl|]. intros x [e He]. exists e. by eapply known_more. Qed.

Lemma caller_ok_mono (s s' : State) (c : Caller) : grows s s' → caller_ok s c → caller_ok s' c.
Proof.
  intros [Hr Hg Ht] [Hc Hp]. split; [lia|].
  destruct (place c) as [|j cand|cand e|[| |e]]; [| | | | |done].
  - destruct Hp as (pre & ? & ?). exists pre. split; [done|by eapply heard_false_mono].
  - destruct Hp as [(pre & ? & ?) (t & Hj & ? & ?)]. split; [exists pre; split; [done|by eapply heard_false_mono]|].
    destruct (Ht _ _ Hj) as (t' & ? & ? & ?). exists t'. split_and!; [done|congruence|lia].
  - destruct Hp as [? ?]. split; [done|]. by eapply known_more.
  - destruct Hp as [e ?]. exists e. by eapply known_more.
  - destruct Hp as [e ?]. exists e. by eapply known_more.
Qed.

Lemma task_ok_mono (s s' : State) (t : Task) :
  reviews s ⊆ reviews s' → generation s ≤ generation s' → task_ok s t → task_ok s' t.
Proof.
  intros Hr Hg [Ht Hs]. split; [lia|]. destruct (stage t) as [| |r a|[[b e]|x]]; try done.
  - destruct Hs as (now & ? & ?). exists now. split; [done|by apply Hr].
  - by eapply backed_mono, Hs.
Qed.

Lemma initial_inv : inv initial.
Proof.
  split; simpl; try set_solver; try (intros; by simplify_map_eq).
  unfold reviewing. simpl. rewrite map_filter_empty, map_size_empty. unfold CONCURRENCY. lia.
Qed.

Lemma inv_put (n : nat) (c : Caller) (s : State) : inv s → caller_ok s c → inv (put n c s).
Proof.
  intros [] Hc. split; try done; simpl. intros n' c' [[-> ->]|[? E]]%lookup_insert_Some.
  - eapply caller_ok_mono, Hc. by apply grows_same.
  - eapply caller_ok_mono; [|by eauto]. by apply grows_same.
Qed.

Lemma remember_entries (a a' : Attr) (b : bool) (e : N) (s : State) p :
  entries (remember a b e s) !! a' = Some p → (a' = a ∧ p = (b, e)) ∨ entries s !! a' = Some p.
Proof.
  unfold remember. case_decide; simpl; intros [[-> ->]|[? E]]%lookup_insert_Some; auto.
  apply map_lookup_filter_Some in E as [? _]. by right.
Qed.

Lemma remember_frame (a : Attr) (b : bool) (e : N) (s : State) :
  flights (remember a b e s) = flights s ∧ tasks (remember a b e s) = tasks s
  ∧ callers (remember a b e s) = callers s ∧ generation (remember a b e s) = generation s
  ∧ reviews (remember a b e s) = reviews s ∧ clock (remember a b e s) = clock s
  ∧ unsupported (remember a b e s) = unsupported s.
Proof. unfold remember. by case_decide. Qed.

#[local] Arguments remember : simpl never.

Lemma frame_inv (s s' : State) :
  flights s' = flights s → tasks s' = tasks s → callers s' = callers s → generation s' = generation s →
  reviews s' = reviews s → (clock s ≤ clock s')%N →
  (∀ a b e, entries s' !! a = Some (b, e) → known (reviews s) (generation s) a b e) → inv s → inv s'.
Proof.
  intros Ef Et Ec Eg Er Hcl He [? ? Hts ? Hca Hrv Hn].
  split; unfold reviewing; rewrite ?Ef, ?Et, ?Ec, ?Eg, ?Er; try done.
  - intros i t Hi. eapply task_ok_mono; [| |by eapply Hts]; [by rewrite Er|by rewrite Eg].
  - intros n c Hi. eapply caller_ok_mono; [|by eapply Hca]. apply grows_same; rewrite ?Er, ?Eg; done.
  - intros rv Hin. specialize (Hrv rv Hin) as [? ?]. split; [done|lia].
Qed.

Lemma inv_remember (a : Attr) (b : bool) (e : N) (s : State) :
  inv s → known (reviews s) (generation s) a b e → inv (remember a b e s).
Proof.
  intros Hs Hk. destruct (remember_frame a b e s) as (?&?&?&?&?& Hcl &?).
  apply (frame_inv s); try done; [by rewrite Hcl|].
  intros a' b' e' [[-> [= -> ->]]|E]%remember_entries; [done|by eapply inv_entries].
Qed.

Lemma tick_inv (d : N) (s : State) : inv s → inv (tick d s).
Proof. intros Hs. apply (frame_inv s); try done; simpl; [lia|by apply Hs]. Qed.

Lemma inv_unsupported (u : option str) (s : State) : inv s → inv (set_unsupported u s).
Proof. intros Hs. apply (frame_inv s); try done. by apply Hs. Qed.

Lemma inv_log (rv : Review) (s : State) :
  r_gen rv ≤ generation s → (r_time rv ≤ clock s)%N → inv s → inv (log_review rv s).
Proof.
  intros Hg Ht [? ? Hts He Hca Hrv Hn].
  assert (reviews s ⊆ reviews s ++ [rv]) as Hsub by set_solver.
  split; simpl; try done.
  - intros i t Hi. eapply task_ok_mono; [done| |by eapply Hts]. done.
  - intros a b e Ha. by eapply known_more, He.
  - intros n c Hi. eapply caller_ok_mono; [|by eapply Hca]. by apply grows_same.
  - intros r [?| ->%list_elem_of_singleton]%elem_of_app; [by apply Hrv|done].
Qed.

(** *** Tasks *)

Lemma reviewing_insert_size (m : gmap nat Task) (i : nat) (t : Task) :
  size (filter (λ p, is_reviewing p.2 = true) (<[i := t]> m))
  ≤ (if is_reviewing t then 1 else 0) + size (filter (λ p : nat * Task, is_reviewing p.2 = true) m).
Proof.
  destruct (is_reviewing t) eqn:Et.
  - rewrite map_filter_insert_True by done. rewrite map_size_insert. case_match; simpl; lia.
  - rewrite map_filter_insert_False by (simpl; congruence). rewrite map_filter_delete.
    simpl. apply map_subseteq_size, delete_subseteq.
Qed.

(** A task moves on, and when it is over its flight ends with it. *)
Lemma inv_stage (s : State) (i : nat) (t : Task) (g : Stage) :
  let t' := {| t_attr := t_attr t; t_gen := t_gen t; stage := g |} in
  inv s → tasks s !! i = Some t → unfinished t → task_ok s t' →
  size (reviewing s) + (if is_reviewing t' then 1 else 0) ≤ CONCURRENCY →
  let s' := set_stage i t g s in
  inv (match g with
       | Over _ => if decide (generation s = t_gen t) then set_flights (delete (t_attr t) (flights s)) s' else s'
       | _ => s'
       end).
Proof.
  intros t' Hs Hi Hu Ht Hn s'. destruct Hs as [Hf H1 Hts He Hca Hrv Hn'].
  assert (∀ fl, (∀ a j, fl !! a = Some j → flights s !! a = Some j ∧ (j = i → unfinished t')) →
            (∀ a j, flights s !! a = Some j → fl !! a = Some j ∨ (j = i ∧ ¬ unfinished t')) →
            inv (set_flights fl s')) as Hfl.
  { intros fl Hfl Hfl'. split; simpl; try done.
    - intros a j [Hj Hji]%Hfl. destruct (Hf _ _ Hj) as (u & Hu' & ? & ? & ?). destruct (decide (j = i)) as [->|].
      + exists t'. simplify_map_eq. by auto.
      + exists u. by rewrite lookup_insert_ne.
    - intros j u [[<- <-]|[Hne Hu']]%lookup_insert_Some Hg Hun.
      + simpl in *. destruct (Hfl' (t_attr t) i) as [?|[_ ?]]; [by eapply H1|done|done].
      + destruct (Hfl' (t_attr u) j) as [?|[? _]]; [by eapply H1|done|done].
    - intros j u [[<- <-]|[Hne Hu']]%lookup_insert_Some; [done|]. by eapply task_ok_mono, Hts.
    - intros n c Hc. eapply caller_ok_mono, Hca, Hc. split; [done..|]. simpl. intros j u Hj.
      destruct (decide (i = j)) as [->|]; [|by rewrite lookup_insert_ne by done; eauto].
      rewrite lookup_insert_eq. exists t'. by simplify_eq.
    - unfold reviewing. simpl. etrans; [apply reviewing_insert_size|]. fold t'. unfold reviewing in Hn. lia. }
  assert (inv (set_flights (flights s) s') = inv s') as Hsame by by destruct s.
  destruct g as [| |r a|a]; [rewrite <- Hsame; apply Hfl; [by auto|by auto]..|].
  case_decide as Hg; [|rewrite <- Hsame]; apply Hfl.
  - intros a' j [Hne Hj]%lookup_delete_Some. split; [done|]. intros ->. destruct Hne.
    destruct (Hf _ _ Hj) as (u & ? & ? & _). by simplify_eq.
  - intros a' j Hj. destruct (decide (t_attr t = a')) as [<-|]; [|left; by rewrite lookup_delete_ne].
    right. split; [|by intros []]. destruct (Hf _ _ Hj) as (u & Hu' & Hua & Hug & Huu).
    pose proof (H1 _ _ Hi (eq_sym Hg) Hu). congruence.
  - intros a' j Hj. split; [done|]. intros ->. destruct (Hf _ _ Hj) as (u & Hu' & Hua & Hug & Huu). by simplify_eq.
  - by auto.
Qed.

Lemma inv_launch (i : nat) (a : Attr) (s : State) :
  inv s → tasks s !! i = None → flights s !! a = None → inv (launch i a s).
Proof.
  intros [Hf H1 Hts He Hca Hrv Hn] Hi Ha. split; simpl; try done.
  - intros a' j [[<- <-]|[Hne Hj]]%lookup_insert_Some; [rewrite lookup_insert_eq; by eexists|].
    destruct (Hf _ _ Hj) as (t & ? & ?). exists t. rewrite lookup_insert_ne; [done|]. congruence.
  - intros j t [[<- <-]|[Hne Hj]]%lookup_insert_Some Hg Hu; simpl in *; [by rewrite lookup_insert_eq|].
    pose proof (H1 _ _ Hj Hg Hu). rewrite lookup_insert_ne; [done|]. congruence.
  - intros j t [[<- <-]|[Hne Hj]]%lookup_insert_Some; [done|]. by eapply task_ok_mono, Hts.
  - intros n c Hc. eapply caller_ok_mono, Hca, Hc. split; [done..|]. simpl. intros j t Hj.
    rewrite lookup_insert_ne by congruence. by eauto.
  - unfold reviewing. simpl. etrans; [apply reviewing_insert_size|]. done.
Qed.

Lemma aborted_frame (t : Task) : t_attr (aborted t) = t_attr t ∧ t_gen (aborted t) = t_gen t.
Proof. unfold aborted. by destruct (stage t). Qed.

Lemma task_ok_aborted (s : State) (t : Task) : task_ok s t → task_ok s (aborted t).
Proof. intros [Ht Hst]. unfold aborted. destruct (stage t) eqn:E; split; simpl; rewrite ?E; done. Qed.

Lemma invalidate_tasks (s : State) j :
  tasks (invalidate s) !! j
  = (λ t, if bool_decide (flights s !! t_attr t = Some j) then aborted t else t) <$> tasks s !! j.
Proof. simpl. rewrite map_lookup_imap. by destruct (tasks s !! j). Qed.

Lemma invalidate_grows (s : State) : grows s (invalidate s).
Proof.
  split; [done|simpl; lia|]. intros j t Hj. rewrite invalidate_tasks, Hj. simpl. eexists. split; [done|].
  case_bool_decide; [apply aborted_frame|done].
Qed.

Lemma reviewing_invalidate (s : State) : size (reviewing (invalidate s)) ≤ size (reviewing s).
Proof.
  rewrite <- !size_dom. apply subseteq_size. intros j. rewrite !elem_of_dom.
  intros [t [Ht Hr]%map_lookup_filter_Some]. rewrite invalidate_tasks in Ht.
  destruct (tasks s !! j) as [u|] eqn:E; [|done]. simpl in Ht, Hr. exists u. apply map_lookup_filter_Some. split; [done|].
  simplify_eq. revert Hr. case_bool_decide; [|done]. unfold aborted, is_reviewing. simpl. by destruct (stage u) eqn:Eu; simpl; rewrite ?Eu.
Qed.

Lemma inv_invalidate (s : State) : inv s → inv (invalidate s).
Proof.
  intros [Hf H1 Hts He Hca Hrv Hn]. pose proof (invalidate_grows s) as Hgr.
  split; try (intros a **; by simplify_map_eq).
  - intros j t Ht Hg. exfalso. rewrite invalidate_tasks in Ht. destruct (tasks s !! j) as [u|] eqn:E; simplify_eq/=.
    apply Hts in E as [? _]. revert Hg. case_bool_decide; [destruct (aborted_frame u) as [_ ->]|]; lia.
  - intros j t Ht. rewrite invalidate_tasks in Ht. destruct (tasks s !! j) as [u|] eqn:E; simplify_eq/=.
    apply Hts in E. eapply task_ok_mono; [apply Hgr..|]. case_bool_decide; [by apply task_ok_aborted|done].
  - intros n c Hc. by eapply caller_ok_mono, Hca.
  - intros rv Hin. apply Hrv in Hin as [? ?]. split; simpl; [lia|done].
  - etrans; [apply reviewing_invalidate|done].
Qed.

(** *** Callers *)

Lemma caller_ok_heard (s : State) (c : Caller) (cand : Attr) (ans : Answer) :
  c_gen c ≤ generation s →
  (∃ pre, broadening (c_attr c) = pre ++ cand :: rest c ∧ heard_false (reviews s) (c_gen c) pre) →
  (∀ b e, ans = Ok (b, e) → known (reviews s) (c_gen c) cand b e) →
  caller_ok s (heard c cand ans).
Proof.
  intros Hg (pre & Hb & Hpre) Ha. split; [done|]. destruct ans as [[[] e]|x]; simpl; [|..|done].
  - split; [rewrite Hb; set_solver|by apply Ha].
  - exists (pre ++ [cand]). rewrite <- app_assoc. split; [done|]. apply Forall_app. split; [done|].
    constructor; [|constructor]. exists e. by apply Ha.
Qed.

Lemma decide_spec (s s' : State) (i : nat) (a : Attr) (r : Answer + nat) :
  inv s → tasks s !! i = None → decide_ i a s = (r, s') →
  inv s' ∧ grows s s' ∧ generation s' = generation s
  ∧ match r with
    | inl ans => ∀ b e, ans = Ok (b, e) → known (reviews s') (generation s') a b e
    | inr j => ∃ t, tasks s' !! j = Some t ∧ t_attr t = a ∧ t_gen t = generation s'
    end.
Proof.
  intros Hs Hi. unfold decide_. destruct (unsupported s).
  { intros [= <- <-]. split_and!; [done|by apply grows_same|done|done]. }
  destruct (fresh s a) as [[b e]|] eqn:Ef; [|destruct (flights s !! a) as [j|] eqn:Ej]; intros [= <- <-].
  - split_and!; [done|by apply grows_same|done|]. intros ? ? [= <- <-]. by eapply fresh_known.
  - split_and!; [done|by apply grows_same|done|]. destruct (inv_flights _ Hs _ _ Ej) as (t & ? & ? & ? & _). by eauto.
  - split_and!; [by apply inv_launch| |done|].
    + split; [done..|]. simpl. intros j t Hj. rewrite lookup_insert_ne by congruence. by eauto.
    + simpl. rewrite lookup_insert_eq. by eexists.
Qed.

Lemma inv_resolve (n : nat) (a : Attr) (s : State) : inv s → inv (resolve n a s).
Proof.
  intros Hs. unfold resolve. destruct (fresh s a) as [[b e]|] eqn:E; apply inv_put; try done; split; simpl; try lia.
  - apply fresh_known in E as [? _]; [|done]. destruct b; by exists e.
  - exists []. split; [done|constructor].
Qed.

Lemma advance_inv (n i : nat) (c : Caller) (s s' : State) :
  inv s → callers s !! n = Some c → tasks s !! i = None → advance n i c s = Some s' → inv s'.
Proof.
  intros Hs Hc Hi. pose proof (inv_callers _ Hs _ _ Hc) as [Hg Hp]. unfold advance.
  destruct (place c) as [|j cand|cand e|v] eqn:Epl; [| | |done].
  - destruct (rest c) as [|cand cands] eqn:Er; [intros [= <-]|].
    + apply inv_put; [done|]. destruct Hp as (pre & Hpre & Hf). rewrite app_nil_r in Hpre. subst pre.
      split; [done|]. simpl. eapply Forall_forall in Hf; [done|apply broadening_self].
    + destruct Hp as (pre & Hpre & Hf). destruct (decide_ i cand s) as [r s1] eqn:Ed.
      destruct (decide_spec _ _ _ _ _ Hs Hi Ed) as (Hs1 & Hgr & Hgen & Hr).
      assert (heard_false (reviews s1) (c_gen c) pre) by (eapply heard_false_mono, Hf; apply Hgr).
      destruct r as [ans|j]; intros [= <-]; apply inv_put; try done.
      * apply caller_ok_heard; simpl; [lia|by exists pre|]. intros b e Ha. eapply known_mono, Hr, Ha; [done|lia].
      * split; simpl; [lia|]. split; [by exists pre|]. destruct Hr as (t & ? & ? & Ht). exists t. split_and!; [done..|lia].
  - destruct Hp as [Hb (t & Hj & Ha & Ht)]. rewrite Hj. simpl. destruct (stage t) as [| |?|ans] eqn:Est; try done.
    intros [= <-]. apply inv_put; [done|]. apply caller_ok_heard; [done|done|]. intros b e ->.
    apply (inv_tasks _ Hs) in Hj as [_ Hj]. rewrite Est in Hj. subst cand. apply backed_known. by eapply backed_mono, Hj.
  - destruct Hp as [Hb Hk]. intros [= <-]. pose proof (known_broaden _ _ _ _ _ Hb Hk) as Hk'.
    case_bool_decide as Hgen; [|apply inv_put; [done|]; split; [done|by exists e]].
    destruct (negb _); simpl; (apply inv_put; [|split; [|exists e]]); try done.
    + apply inv_remember; [done|by rewrite Hgen].
    + destruct (remember_frame (c_attr c) true e s) as (_&_&_&Eg&_). by rewrite Eg.
    + destruct (remember_frame (c_attr c) true e s) as (_&_&_&_&Er&_). by rewrite Er.
Qed.

Lemma inv_complete (s : State) (i : nat) (t : Task) (r : Reviewed) (a : Answer) :
  inv s → tasks s !! i = Some t → stage t = Answered r a → inv (complete i t r a s).
Proof.
  intros Hs Hi Est. pose proof (inv_tasks _ Hs _ _ Hi) as [Hg Ht]. rewrite Est in Ht. destruct Ht as (now & Ha & Hin).
  assert (∀ b e, a = Ok (b, e) → backed (reviews s) (t_gen t) (t_attr t) b e) as Hb.
  { intros b e E. eexists. split_and!; [exact Hin|done|done|]. simpl. congruence. }
  pose proof (inv_stage s i t (Over a) Hs Hi) as Hst. simpl in Hst.
  ospecialize* Hst; [by unfold unfinished; rewrite Est| |pose proof (inv_reviewing _ Hs); lia|].
  { split; [done|]. simpl. destruct a as [[b e]|]; [by apply Hb|done]. }
  unfold complete. simpl. case_decide as Hgen; [|done].
  assert (∀ b e, a = Ok (b, e) → inv (remember (t_attr t) b e (set_flights (delete (t_attr t) (flights s)) (set_stage i t (Over a) s)))) as Hrem.
  { intros b e E. apply inv_remember; [done|]. simpl. apply backed_known. rewrite Hgen. by apply Hb. }
  destruct r; destruct a as [[b0 e0]|x0]; by auto using inv_unsupported.
Qed.

Lemma act_inv (x : Act) (s s' : State) : inv s → act x s = Some s' → inv s'.
Proof.
  intros Hs. destruct x as [n a|n i|i|i r|i| |d]; simpl.
  - case_decide; [|done]. intros [= <-]. by apply inv_resolve.
  - destruct (callers s !! n) as [c|] eqn:Ec; [simpl|done]. case_decide; [|done]. by apply advance_inv.
  - destruct (tasks s !! i) as [t|] eqn:Et; [simpl|done]. destruct (stage t) eqn:Est; try done. case_decide; [|done].
    intros [= <-]. apply (inv_stage s i t Reviewing Hs Et); [by unfold unfinished; rewrite Est| |simpl; lia].
    split; [by apply (inv_tasks _ Hs _ _ Et)|done].
  - destruct (tasks s !! i) as [t|] eqn:Et; [simpl|done]. destruct (stage t) eqn:Est; try done. intros [= <-].
    pose proof (inv_tasks _ Hs _ _ Et) as [Hg _].
    refine (inv_stage (log_review _ s) i t (Answered r _) _ Et _ _ _);
      [by apply inv_log|by unfold unfinished; rewrite Est| |simpl; pose proof (inv_reviewing _ Hs); unfold reviewing in *; simpl; lia].
    split; [done|]. simpl. exists (clock s). set_solver.
  - destruct (tasks s !! i) as [t|] eqn:Et; [simpl|done]. destruct (stage t) eqn:Est; try done. intros [= <-].
    by apply inv_complete.
  - intros [= <-]. by apply inv_invalidate.
  - intros [= <-]. by apply tick_inv.
Qed.

Lemma cache_reachable_inv (s : State) : rtc step initial s → inv s.
Proof.
  assert (∀ s0 s1, rtc step s0 s1 → inv s0 → inv s1) as Hall; [|intros ?; by eapply Hall, initial_inv].
  induction 1 as [|s0 s1 s2 [x Hx] _ IH]; [done|]. intros. by eapply IH, act_inv.
Qed.

(** ** What callers may rely on *)

Lemma answer_of_Ok (r : Reviewed) (t : N) b e :
  answer_of r t = Ok (b, e) →
  r = RAllowed ∧ b = true ∧ e = (t + TTL)%N
  ∨ b = false ∧ (r = RDenied ∧ e = (t + TTL)%N ∨ r = Inconclusive ∧ e = (t + INCONCLUSIVE_TTL)%N).
Proof. destruct r; intros; simplify_eq/=; naive_solver. Qed.

(** C9: An answer the cache serves was given by a review of the current generation, started
    after the last [invalidate]: an allowing review of the attribute or of a broader one, or
    a review that did not allow the attribute itself; it ended less than five minutes ago,
    thirty seconds when the review was inconclusive. *)
Theorem cached_answers_current (s : State) (a : Attr) (b : bool) (e : N) :
  rtc step initial s → fresh s a = Some (b, e) →
  ∃ rv, rv ∈ reviews s ∧ r_gen rv = generation s ∧ (r_time rv ≤ clock s)%N
    ∧ if b then r_result rv = RAllowed ∧ r_attr rv ∈ broadening a ∧ (clock s < r_time rv + TTL)%N
      else r_attr rv = a
           ∧ (r_result rv = RDenied ∧ (clock s < r_time rv + TTL)%N
              ∨ r_result rv = Inconclusive ∧ (clock s < r_time rv + INCONCLUSIVE_TTL)%N).
Proof.
  intros Hs%cache_reachable_inv Hf. destruct (fresh_known _ _ _ _ Hs Hf) as [(a' & Ha & Hb & rv & Hin & Hg & <- & He) Hlt].
  destruct (inv_reviews _ Hs _ Hin) as [Hg' Ht]. exists rv. split_and!; [done|lia|done|].
  apply answer_of_Ok in He as [(-> & -> & ->)|[-> [[-> ->]|[-> ->]]]]; [done|..]; auto.
Qed.

(** One review per attribute: two reviews of the current generation that are not over
    are the same when they ask the same, the cache joins callers to a review only while it
    runs, and at most sixteen requests are out at once, aborted ones included. *)
Theorem reviews_shared (s : State) :
  rtc step initial s →
  (∀ i j t u, tasks s !! i = Some t → tasks s !! j = Some u → unfinished t → unfinished u →
    t_gen t = generation s → t_gen u = generation s → t_attr t = t_attr u → i = j)
  ∧ (∀ a i, flights s !! a = Some i → ∃ t, tasks s !! i = Some t ∧ t_attr t = a ∧ unfinished t)
  ∧ size (reviewing s) ≤ CONCURRENCY.
Proof.
  intros Hs%cache_reachable_inv. split_and!.
  - intros i j t u Hi Hj Ht Hu Hg Hg' Ha. pose proof (inv_single _ Hs _ _ Hi Hg Ht) as H1.
    pose proof (inv_single _ Hs _ _ Hj Hg' Hu) as H2. congruence.
  - intros a i Hi. destruct (inv_flights _ Hs _ _ Hi) as (t & ? & ? & ? & ?). by exists t.
  - by apply inv_reviewing.
Qed.

(** A verdict rests on a review no older than the generation the caller began in: it
    says allowed only when the attribute or a broader one was allowed, and denied only when
    every candidate was asked and the attribute itself was not allowed; otherwise it carries
    an error. *)
Theorem verdicts_reviewed (s : State) (n : nat) (c : Caller) (v : Verdict) :
  rtc step initial s → callers s !! n = Some c → place c = Finished v →
  match v with
  | Allowed => ∃ rv, rv ∈ reviews s ∧ c_gen c ≤ r_gen rv ∧ r_result rv = RAllowed ∧ r_attr rv ∈ broadening (c_attr c)
  | Denied => ∃ rv, rv ∈ reviews s ∧ c_gen c ≤ r_gen rv ∧ r_attr rv = c_attr c
                    ∧ (r_result rv = RDenied ∨ r_result rv = Inconclusive)
  | Unknown _ => True
  end.
Proof.
  intros Hs%cache_reachable_inv Hn Hp. pose proof (inv_callers _ Hs _ _ Hn) as [_ Hc]. rewrite Hp in Hc.
  destruct v as [| |err]; [..|done]; destruct Hc as (e & a' & Ha & Hb & rv & Hin & Hg & <- & He); exists rv;
    apply answer_of_Ok in He as [(? & ? & _)|[? [[? _]|[? _]]]]; simplify_eq; auto.
Qed.

Definition acts (l : list Act) (s : State) : option State := foldl (λ o a, s ← o; act a s) (Some s) l.

Lemma acts_reachable (l : list Act) (s s' : State) : acts l s = Some s' → rtc step s s'.
Proof.
  unfold acts. revert s. induction l as [|x l IH]; intros s; simpl; [intros [= ->]; apply rtc_refl|].
  destruct (act x s) as [s1|] eqn:E.
  - intros H. eapply rtc_l; [by exists x|by apply IH].
  - intros H. exfalso. revert H. clear. induction l; simpl; auto. discriminate.
Qed.

(** Two callers ask for a named pod; the review of every pod in every namespace allows it. *)
Definition pod_attr : Attr := mk_attr (lit "get") [] (lit "pods") [] (lit "ns") (lit "web").

Definition shared_run : list Act :=
  [Resolve 0 pod_attr; Resolve 1 pod_attr; Advance 0 0; Advance 1 1; Acquire 0; Tick 5; Reviews 0 RAllowed;
   Complete 0; Advance 0 1; Advance 1 1; Advance 0 1; Tick 7].

(** One is refused after the broader reviews denied. *)
Definition denied_run : list Act :=
  Resolve 0 pod_attr
  :: concat ((λ i, [Advance 0 i; Acquire i; Reviews i RDenied; Complete i; Advance 0 9]) <$> [0; 1; 2]%nat)
  ++ [Advance 0 9].

Lemma acts_sees {A} (l : list Act) (f : State → A) (x : A) :
  f <$> acts l initial = Some x → ∃ s, acts l initial = Some s ∧ f s = x.
Proof. destruct (acts l initial) as [s|]; simpl; [|done]. intros [= <-]. by exists s. Qed.

Lemma cached_answers_current_witness :
  ∃ s, acts shared_run initial = Some s ∧ fresh s pod_attr = Some (true, 300005%N)
    ∧ ∃ rv, rv ∈ reviews s ∧ r_gen rv = generation s ∧ (r_time rv ≤ clock s)%N
      ∧ r_result rv = RAllowed ∧ r_attr rv ∈ broadening pod_attr ∧ (clock s < r_time rv + TTL)%N.
Proof.
  destruct (acts_sees shared_run (λ s, fresh s pod_attr) (Some (true, 300005%N))) as (s & E & Hf);
    [vm_compute; reflexivity|].
  exists s. split; [exact E|]. split; [exact Hf|].
  exact (cached_answers_current s pod_attr true _ (acts_reachable _ _ _ E) Hf).
Defined.

Lemma reviews_shared_witness :
  ∃ s, acts (take 5 shared_run) initial = Some s ∧ (size (tasks s), size (callers s)) = (1, 2)
    ∧ size (reviewing s) ≤ CONCURRENCY.
Proof.
  destruct (acts_sees (take 5 shared_run) (λ s, (size (tasks s), size (callers s))) (1, 2)) as (s & E & Hf);
    [vm_compute; reflexivity|].
  exists s. split; [exact E|]. split; [exact Hf|].
  exact (proj2 (proj2 (reviews_shared s (acts_reachable _ _ _ E)))).
Defined.

Lemma verdicts_reviewed_witness :
  ∃ s c, acts denied_run initial = Some s ∧ callers s !! 0 = Some c ∧ place c = Finished Denied
    ∧ ∃ rv, rv ∈ reviews s ∧ c_gen c ≤ r_gen rv ∧ r_attr rv = c_attr c
            ∧ (r_result rv = RDenied ∨ r_result rv = Inconclusive).
Proof.
  destruct (acts_sees denied_run (λ s, callers s !! 0)
              (Some {| c_attr := pod_attr; c_gen := 0; rest := []; place := Finished Denied |})) as (s & E & Ec);
    [vm_compute; reflexivity|].
  eexists s, _. split; [exact E|]. split; [exact Ec|]. split; [reflexivity|].
  exact (verdicts_reviewed s 0 _ Denied (acts_reachable _ _ _ E) Ec eq_refl).
Defined.

(** An [invalidate] forgets what was served and aborts the review that was out: the task
    joined by a caller fails, and a fresh review is asked for. *)
Example invalidate_starts_over :
  (λ s, (fresh s pod_attr, stage <$> tasks s !! 0, size (flights s)))
    <$> acts (shared_run ++ [Invalidate]) initial
  = Some (None, Some (Over (Ok (true, 300005%N))), 0).
Proof. vm_compute. reflexivity. Qed.

End Cache.
