(* ===== verification/Mcp.v ===== *)
(** * The client of an MCP server

    agent/src/mcp/mod.rs: requests, the pending map that correlates them with responses,
    the task that reads the transport's channel, and the flattening of results; the
    framing of agent/src/mcp/transport.rs (a message per line) and the responses of
    agent/src/mcp/http.rs.

    serde_json and the HTTP stack are arguments.  A step of [Client] is one critical
    section of the pending map or one await that ends; the trace records what was asked
    and what arrived.  Ids come from an [AtomicU64], which wraps around: the theorems
    hold until then. *)

From S2P Require Import Prelude Utf8 Json.

Inductive McpError : Set :=
  | Io | Decode (e : str) | Server (code : Z) (message : str) | Closed | InvalidResponse (e : str)
  | Transport (e : str).

Definition u64_modulus : N := 18446744073709551616.

(** ** Requests and responses *)

Record JsonRpcResponse : Set := {
  r_id : option Json; r_result : option Json; r_error : option (Z * str);
}.

Definition payload (r : JsonRpcResponse) : result Json McpError :=
  match r_error r with
  | Some (code, message) => Err (Server code message)
  | None => Ok (default Null (r_result r))
  end.

Module Client.

(** What a [oneshot] holds. *)
Inductive Slot : Set := Empty | Full (r : result Json McpError) | Gone.

(** A call of [request]: numbered, in the map and sending, waiting, returned; or its
    future was dropped. *)
Inductive Phase : Set := Numbered | Sending | Waiting | Returned (r : result Json McpError) | Dropped.

Record Caller : Set := { c_id : N; slot : Slot; phase : Phase }.

Inductive Event : Set := Inserted (n : nat) | Received (v : Json) | Drained.

Record State : Set := {
  next_id : N;
  pending : gmap N nat;
  incoming : list Json;
  hung_up : bool;
  reader : bool;
  callers : gmap nat Caller;
  issued : N;
  trace : list Event;
}.

(** from_transport *)
Definition initial : State :=
  {| next_id := 1; pending := ∅; incoming := []; hung_up := false; reader := true; callers := ∅;
     issued := 0; trace := [] |}.

Definition set_pending (p : gmap N nat) (s : State) : State :=
  {| next_id := next_id s; pending := p; incoming := incoming s; hung_up := hung_up s; reader := reader s;
     callers := callers s; issued := issued s; trace := trace s |}.

Definition set_callers (m : gmap nat Caller) (s : State) : State :=
  {| next_id := next_id s; pending := pending s; incoming := incoming s; hung_up := hung_up s; reader := reader s;
     callers := m; issued := issued s; trace := trace s |}.

Definition set_incoming (l : list Json) (s : State) : State :=
  {| next_id := next_id s; pending := pending s; incoming := l; hung_up := hung_up s; reader := reader s;
     callers := callers s; issued := issued s; trace := trace s |}.

Definition record (e : Event) (s : State) : State :=
  {| next_id := next_id s; pending := pending s; incoming := incoming s; hung_up := hung_up s; reader := reader s;
     callers := callers s; issued := issued s; trace := trace s ++ [e] |}.

(** [tx.send], or the drop of [tx]. *)
Definition fill (x : Slot) (c : Caller) : Caller :=
  {| c_id := c_id c; slot := match slot c with Empty => x | y => y end; phase := phase c |}.

Definition goto (p : Phase) (c : Caller) : Caller := {| c_id := c_id c; slot := slot c; phase := p |}.

Definition put (n : nat) (c : Caller) (s : State) : State := set_callers (<[n := c]> (callers s)) s.

Definition tell (n : nat) (x : Slot) (s : State) : State := set_callers (alter (fill x) n (callers s)) s.

(** [fetch_add] *)
Definition call (n : nat) (s : State) : State :=
  {| next_id := (next_id s + 1) mod u64_modulus; pending := pending s; incoming := incoming s;
     hung_up := hung_up s; reader := reader s;
     callers := <[n := {| c_id := next_id s; slot := Empty; phase := Numbered |}]> (callers s);
     issued := issued s + 1; trace := trace s |}.

(** [pending.insert]; a sender it replaces is dropped. *)
Definition insert_ (n : nat) (c : Caller) (s : State) : State :=
  let s := match pending s !! c_id c with Some m => tell m Gone s | None => s end in
  let s := set_pending (<[c_id c := n]> (pending s)) s in
  record (Inserted n) (put n (goto Sending c) s).

(** An error a transport's [send] returns. *)
Definition transport_error (e : McpError) : bool :=
  match e with Io | Decode _ | Transport _ => true | _ => false end.

Definition sent (n : nat) (c : Caller) (r : result unit McpError) (s : State) : State :=
  match r with
  | Ok _ => put n (goto Waiting c) s
  | Err e => put n (goto (Returned (Err e)) c) (set_pending (delete (c_id c) (pending s)) s)
  end.

Section Dispatch.
Context (from_value : Json → option JsonRpcResponse).

Definition dispatch_incoming (v : Json) (s : State) : State :=
  match from_value v with
  | None => s
  | Some resp =>
      match id ← r_id resp; as_u64 id with
      | None => s
      | Some i =>
          match pending s !! i with
          | Some n => tell n (Full (payload resp)) (set_pending (delete i (pending s)) s)
          | None => s
          end
      end
  end.

(** The end of the reader task: every sender gets [Closed]. *)
Definition drain (s : State) : State :=
  let waiting := (map_to_list (pending s)).*2 in
  let s := foldl (λ s n, tell n (Full (Err Closed)) s) s waiting in
  {| next_id := next_id s; pending := ∅; incoming := incoming s; hung_up := hung_up s; reader := false;
     callers := callers s; issued := issued s; trace := trace s ++ [Drained] |}.

Inductive Act : Set :=
  | Call (n : nat)
  | Insert (n : nat)
  | Sent (n : nat) (r : result unit McpError)
  | Await (n : nat)
  | Abandon (n : nat)
  | Arrive (v : Json)
  | HangUp
  | Receive.

Definition act (x : Act) (s : State) : option State :=
  match x with
  | Call n => if decide (callers s !! n = None) then Some (call n s) else None
  | Insert n =>
      c ← callers s !! n;
      match phase c with Numbered => Some (insert_ n c s) | _ => None end
  | Sent n r =>
      c ← callers s !! n;
      match phase c with
      | Sending =>
          if match r with Ok _ => true | Err e => transport_error e end then Some (sent n c r s) else None
      | _ => None
      end
  | Await n =>
      c ← callers s !! n;
      match phase c, slot c with
      | Waiting, Full r => Some (put n (goto (Returned r) c) s)
      | Waiting, Gone => Some (put n (goto (Returned (Err Closed)) c) s)
      | _, _ => None
      end
  | Abandon n =>
      c ← callers s !! n;
      match phase c with Returned _ => None | _ => Some (put n (goto Dropped c) s) end
  | Arrive v => if hung_up s then None else Some (set_incoming (incoming s ++ [v]) s)
  | HangUp =>
      Some {| next_id := next_id s; pending := pending s; incoming := incoming s; hung_up := true;
              reader := reader s; callers := callers s; issued := issued s; trace := trace s |}
  | Receive =>
      if reader s then
        match incoming s with
        | v :: l => Some (record (Received v) (dispatch_incoming v (set_incoming l s)))
        | [] => if hung_up s then Some (drain s) else None
        end
      else None
  end.

Definition step (s s' : State) : Prop := ∃ x, act x s = Some s'.

(** ** Which message a call returns with *)

(** [v] answers the call that took [i]. *)
Definition answers (v : Json) (i : N) (r : result Json McpError) : Prop :=
  ∃ resp, from_value v = Some resp ∧ (id ← r_id resp; as_u64 id) = Some i ∧ r = payload resp.

(** [r] came with a message received after the call was in the map, or with the end of
    the reader. *)
Definition answered (tr : list Event) (n : nat) (i : N) (r : result Json McpError) : Prop :=
  r = Err Closed ∨ ∃ pre v post, tr = pre ++ Received v :: post ∧ Inserted n ∈ pre ∧ answers v i r.

Definition late (tr : list Event) (n : nat) : Prop :=
  ∃ pre post, tr = pre ++ Drained :: post ∧ Inserted n ∈ post.

(** A call without its answer, or with one that is its own. *)
Definition caller_ok (tr : list Event) (n : nat) (c : Caller) : Prop :=
  (∀ r, slot c = Full r → answered tr n (c_id c) r)
  ∧ (phase c = Numbered → slot c = Empty)
  ∧ (∀ r, phase c = Returned r → answered tr n (c_id c) r ∨ ∃ e, r = Err e ∧ transport_error e = true).

Record inv (s : State) : Prop := {
  inv_next : next_id s = (issued s + 1)%N;
  inv_ids : ∀ n c, callers s !! n = Some c → (c_id c ≤ issued s)%N;
  inv_inj : ∀ n m c d, callers s !! n = Some c → callers s !! m = Some d → c_id c = c_id d → n = m;
  inv_pending : ∀ i n, pending s !! i = Some n →
    ∃ c, callers s !! n = Some c ∧ c_id c = i ∧ phase c ≠ Numbered ∧ Inserted n ∈ trace s;
  inv_listed : ∀ n c, callers s !! n = Some c → phase c = Sending ∨ phase c = Waiting →
    slot c = Empty → pending s !! c_id c = Some n;
  inv_caller : ∀ n c, callers s !! n = Some c → caller_ok (trace s) n c;
  inv_drained : reader s = false → Drained ∈ trace s;
  inv_late : reader s = false → ∀ i n, pending s !! i = Some n → late (trace s) n;
}.

Lemma answered_snoc (tr : list Event) n i r e : answered tr n i r → answered (tr ++ [e]) n i r.
Proof.
  intros [?|(pre & v & post & -> & ? & ?)]; [by left|right].
  exists pre, v, (post ++ [e]). split_and!; [by rewrite <- (assoc_L (++))|done|done].
Qed.

Lemma late_snoc (tr : list Event) n e : late tr n → late (tr ++ [e]) n.
Proof.
  intros (pre & post & -> & ?). exists pre, (post ++ [e]). split; [by rewrite <- (assoc_L (++))|]. set_solver.
Qed.

Lemma caller_ok_snoc (tr : list Event) n c e : caller_ok tr n c → caller_ok (tr ++ [e]) n c.
Proof.
  intros (H1 & H2 & H3). split_and!; [intros; by apply answered_snoc, H1|done|].
  intros r Hr. destruct (H3 r Hr); [left; by apply answered_snoc|by right].
Qed.

(** Events that only lengthen the trace. *)
Lemma mcp_record_inv (e : Event) (s : State) : inv s → inv (record e s).
Proof.
  intros []. split; try done; simpl.
  - intros i n Hi. destruct (inv_pending0 _ _ Hi) as (c & ? & ? & ? & ?). exists c. set_solver.
  - intros n c Hc. by apply caller_ok_snoc, inv_caller0.
  - intros Hr. apply elem_of_app. left. by apply inv_drained0.
  - intros Hr i n Hi. by eapply late_snoc, inv_late0.
Qed.

(** A caller changes, its id and the map do not. *)
Lemma mcp_put_inv (n : nat) (c c' : Caller) (s : State) :
  inv s → callers s !! n = Some c → c_id c' = c_id c → phase c' ≠ Numbered →
  (phase c' = Sending ∨ phase c' = Waiting → slot c' = Empty → pending s !! c_id c = Some n) →
  caller_ok (trace s) n c' → inv (put n c' s).
Proof.
  intros [] Hc Hid Hp' Hl Hok. split; try done; simpl.
  - intros m d [[<- <-]|[? ?]]%lookup_insert_Some; [rewrite Hid|]; by eauto.
  - intros m1 m2 d1 d2 [[<- <-]|[? ?]]%lookup_insert_Some [[<- <-]|[? ?]]%lookup_insert_Some; [done|..];
      rewrite ?Hid; intros; by eauto.
  - intros i m Hi. destruct (inv_pending0 _ _ Hi) as (d & Hd & ? & ? & ?). destruct (decide (n = m)) as [<-|].
    + exists c'. rewrite lookup_insert_eq. simplify_eq. split_and!; done || congruence.
    + exists d. by rewrite lookup_insert_ne.
  - intros m d [[<- <-]|[? ?]]%lookup_insert_Some; [rewrite Hid; auto|by eauto].
  - intros m d [[<- <-]|[? ?]]%lookup_insert_Some; [done|by eauto].
Qed.

Lemma tell_lookup (n m : nat) (x : Slot) (s : State) :
  callers (tell n x s) !! m = (if decide (n = m) then fill x else id) <$> callers s !! m.
Proof.
  simpl. case_decide as H; [subst; by rewrite lookup_alter_eq|rewrite lookup_alter_ne by done].
  by destruct (callers s !! m).
Qed.

(** A sender is used: its entry is gone. *)
Lemma mcp_tell_inv (n : nat) (i : N) (r : result Json McpError) (s : State) :
  inv s → pending s !! i = Some n → answered (trace s) n i r →
  inv (tell n (Full r) (set_pending (delete i (pending s)) s)).
Proof.
  intros [] Hi Ha. destruct (inv_pending0 _ _ Hi) as (c & Hc & <- & Hp & Ht).
  assert (∀ m d, callers (tell n (Full r) (set_pending (delete (c_id c) (pending s)) s)) !! m = Some d →
            ∃ d0, callers s !! m = Some d0 ∧ c_id d = c_id d0 ∧ phase d = phase d0
              ∧ (n = m ∧ d = fill (Full r) d0 ∨ n ≠ m ∧ d = d0)) as Hback.
  { intros m d. rewrite tell_lookup. simpl. destruct (callers s !! m) as [d0|]; [|done]. simpl.
    case_decide; intros [= <-]; exists d0; split_and!; by auto. }
  split; simpl in *; try done.
  - intros m d Hd. destruct (Hback m d Hd) as (d0 & ? & -> & _). by eauto.
  - intros m1 m2 d1 d2 H1 H2. destruct (Hback _ _ H1) as (? & ? & -> & _), (Hback _ _ H2) as (? & ? & -> & _). by eauto.
  - intros i m [Hne Hm]%lookup_delete_Some. destruct (inv_pending0 _ _ Hm) as (d & Hd & ? & ? & ?).
    exists d. rewrite lookup_alter_ne; [done|]. intros <-. congruence.
  - intros m d Hd Hph He. destruct (Hback _ _ Hd) as (d0 & Hd0 & Hid & Hph0 & [[-> ->]|[Hne ->]]).
    + simpl in He. by destruct (slot d0).
    + rewrite lookup_delete_ne; [by apply inv_listed0|]. intros E. apply Hne. by eapply inv_inj0.
  - intros m d Hd. destruct (Hback _ _ Hd) as (d0 & Hd0 & Hid & Hph0 & [[-> ->]|[Hne ->]]); [|by apply inv_caller0].
    simplify_eq. destruct (inv_caller0 _ _ Hc) as (H1 & H2 & H3). split_and!; simpl; [|done|done].
    intros r'. destruct (slot c) eqn:Es; intros; simplify_eq; [done|by apply H1].
  - intros Hr i m [? Hm]%lookup_delete_Some. by eapply inv_late0.
Qed.

Lemma tells_spec (l : list nat) (x : Slot) (s : State) :
  let s' := foldl (λ s n, tell n x s) s l in
  (∀ m, callers s' !! m = (if decide (m ∈ l) then fill x else id) <$> callers s !! m)
  ∧ next_id s' = next_id s ∧ issued s' = issued s ∧ trace s' = trace s.
Proof.
  revert s. induction l as [|n l IH]; intros s; simpl.
  - split_and!; [|done..]. intros m. by destruct (callers s !! m).
  - destruct (IH (tell n x s)) as (H & ? & ? & ?). split_and!; [|done..]. intros m. rewrite H, tell_lookup.
    destruct (callers s !! m) as [c|]; [|done]. simpl. f_equal.
    assert (fill x (fill x c) = fill x c) as Hff by (destruct c as [? [] ?], x; done).
    repeat case_decide; set_solver.
Qed.

Lemma mcp_drain_inv (s : State) : inv s → inv (drain s).
Proof.
  intros Hs. destruct (tells_spec (map_to_list (pending s)).*2 (Full (Err Closed)) s) as (Hl & En & Ei & Et).
  destruct Hs. unfold drain. set (s' := foldl _ s _) in *.
  assert (∀ m d, callers s' !! m = Some d → ∃ d0, callers s !! m = Some d0 ∧ c_id d = c_id d0 ∧ phase d = phase d0
            ∧ (d = d0 ∨ d = fill (Full (Err Closed)) d0 ∧ ∃ i, pending s !! i = Some m)
            ∧ (pending s !! c_id d0 = Some m → slot d ≠ Empty)) as Hback.
  { intros m d. rewrite Hl. destruct (callers s !! m) as [d0|]; [|done]. simpl. case_decide as Hm; intros [= <-];
      exists d0; split_and!; auto.
    - right. split; [done|]. apply list_elem_of_fmap in Hm as ([i k] & -> & Hik). exists i. by apply elem_of_map_to_list.
    - simpl. by destruct (slot d0).
    - intros Hp. destruct Hm. apply list_elem_of_fmap. exists (c_id d0, m). split; [done|]. by apply elem_of_map_to_list. }
  split; simpl; rewrite ?En, ?Ei, ?Et; try done.
  - intros m d Hd. destruct (Hback _ _ Hd) as (d0 & ? & -> & _). by eauto.
  - intros m1 m2 d1 d2 H1 H2. destruct (Hback _ _ H1) as (? & ? & -> & _), (Hback _ _ H2) as (? & ? & -> & _). by eauto.
  - intros m d Hd Hph He. destruct (Hback _ _ Hd) as (d0 & Hd0 & Hid & Hph0 & Hc & Hne). exfalso.
    rewrite Hph0 in Hph. destruct Hc as [->|[-> [i Hi]]]; [by apply Hne; [apply inv_listed0|]|].
    simpl in He. by destruct (slot d0).
  - intros m d Hd. apply caller_ok_snoc. destruct (Hback _ _ Hd) as (d0 & Hd0 & _ & _ & [->|[-> [i Hi]]] & _); [by apply inv_caller0|].
    destruct (inv_pending0 _ _ Hi) as (c & Hc & _ & Hnum & _). rewrite Hd0 in Hc. injection Hc as <-.
    destruct (inv_caller0 _ _ Hd0) as (H1 & H2 & H3). split_and!; simpl; [|done|done].
    intros r. destruct (slot d0) eqn:Es; intros; simplify_eq; [by left|by apply H1].
  - set_solver.
Qed.

Lemma mcp_dispatch_inv (v : Json) (s : State) : inv s → inv (record (Received v) (dispatch_incoming v s)).
Proof.
  intros Hs. unfold dispatch_incoming. pose proof (mcp_record_inv (Received v) s Hs) as Hr.
  destruct (from_value v) as [resp|] eqn:Ev; [|done]. destruct (r_id resp ≫= as_u64) as [i|] eqn:Ei; [|done].
  destruct (pending s !! i) as [n|] eqn:En; [|done].
  apply (mcp_tell_inv n i (payload resp) _ Hr En). right. exists (trace s), v, [].
  destruct (inv_pending _ Hs _ _ En) as (c & _ & _ & _ & Ht). split_and!; [done..|]. by exists resp.
Qed.

Lemma mcp_call_inv (n : nat) (s : State) :
  inv s → callers s !! n = None → (issued s + 1 < u64_last)%N → inv (call n s).
Proof.
  intros [] Hn Hlt. split; simpl; try done.
  - rewrite inv_next0, N.mod_small; unfold u64_modulus, u64_last in *; lia.
  - intros m c [[<- <-]|[? ?]]%lookup_insert_Some; simpl; [lia|]. pose proof (inv_ids0 m c). specialize (H1 H0). lia.
  - intros m1 m2 d1 d2 [[<- <-]|[? H1]]%lookup_insert_Some [[<- <-]|[? H2]]%lookup_insert_Some; simpl; [done|..|by eauto];
      [apply inv_ids0 in H2|apply inv_ids0 in H1]; intros; lia.
  - intros i m Hi. destruct (inv_pending0 _ _ Hi) as (c & Hc & ?). exists c. rewrite lookup_insert_ne; [done|congruence].
  - intros m c [[<- <-]|[? ?]]%lookup_insert_Some; [by intros []|by eauto].
  - intros m c [[<- <-]|[? ?]]%lookup_insert_Some; [|by eauto]. by split_and!.
Qed.

Lemma mcp_insert_inv (n : nat) (c : Caller) (s : State) :
  inv s → callers s !! n = Some c → phase c = Numbered → inv (insert_ n c s).
Proof.
  intros [] Hc Hp. assert (pending s !! c_id c = None) as Hnone.
  { destruct (pending s !! c_id c) as [m|] eqn:Hm; [|done]. destruct (inv_pending0 _ _ Hm) as (d & Hd & He & Hnum & _).
    assert (m = n) as -> by by eapply inv_inj0. congruence. }
  unfold insert_. rewrite Hnone. destruct (inv_caller0 _ _ Hc) as (H1 & H2 & H3). split; simpl; try done.
  - intros m d [[<- <-]|[? ?]]%lookup_insert_Some; simpl; by eauto.
  - intros m1 m2 d1 d2 [[<- <-]|[? ?]]%lookup_insert_Some [[<- <-]|[? ?]]%lookup_insert_Some; simpl; intros; by eauto.
  - intros i m [[<- <-]|[Hne Hi]]%lookup_insert_Some.
    + exists (goto Sending c). rewrite lookup_insert_eq. split_and!; [done..|]. set_solver.
    + destruct (inv_pending0 _ _ Hi) as (d & Hd & ? & ? & ?). exists d. rewrite lookup_insert_ne by congruence. set_solver.
  - intros m d [[<- <-]|[Hne Hd]]%lookup_insert_Some Hph He; [by rewrite lookup_insert_eq|].
    rewrite lookup_insert_ne; [by apply inv_listed0|]. intros E. apply Hne. by eapply inv_inj0.
  - intros m d [[<- <-]|[? ?]]%lookup_insert_Some; apply caller_ok_snoc; [|by eauto].
    split_and!; [done|done|]. simpl. intros r Hr. done.
  - intros Hr. apply elem_of_app. left. by apply inv_drained0.
  - intros Hr i m [[<- <-]|[Hne Hi]]%lookup_insert_Some; [|by eapply late_snoc, inv_late0].
    apply inv_drained0 in Hr as (pre & post & ->)%list_elem_of_split. exists pre, (post ++ [Inserted n]).
    split; [by rewrite <- (assoc_L (++))|set_solver].
Qed.

(** A sender nobody waits for is dropped. *)
Lemma mcp_forget_inv (i : N) (s : State) :
  inv s → (∀ n c, callers s !! n = Some c → c_id c = i → phase c ≠ Sending ∧ phase c ≠ Waiting) →
  inv (set_pending (delete i (pending s)) s).
Proof.
  intros [] Hi. split; simpl; try done.
  - intros j n [_ Hj]%lookup_delete_Some. by eauto.
  - intros n c Hc Hph He. rewrite lookup_delete_ne; [by eauto|]. intros E.
    destruct (Hi n c Hc (eq_sym E)) as [? ?]. by destruct Hph.
  - intros Hr j n [_ Hj]%lookup_delete_Some. by eapply inv_late0.
Qed.

Lemma mcp_sent_inv (n : nat) (c : Caller) (r : result unit McpError) (s : State) :
  inv s → callers s !! n = Some c → phase c = Sending →
  match r with Ok _ => True | Err e => transport_error e = true end → inv (sent n c r s).
Proof.
  intros Hs Hc Hp Hr. destruct (inv_caller _ Hs _ _ Hc) as (H1 & H2 & H3). destruct r as [u|e]; simpl.
  - eapply mcp_put_inv; try done. intros _ He. eapply inv_listed; auto.
  - change (inv (set_pending (delete (c_id c) (pending (put n (goto (Returned (Err e)) c) s))) (put n (goto (Returned (Err e)) c) s))).
    apply mcp_forget_inv.
    + eapply mcp_put_inv; try done; [by intros []|]. split_and!; [done|done|].
      simpl. intros r [= <-]. right. by exists e.
    + simpl. intros m d [[<- <-]|[Hne Hd]]%lookup_insert_Some He; [done|]. destruct Hne. by eapply inv_inj.
Qed.

Lemma mcp_await_inv (n : nat) (c : Caller) (r : result Json McpError) (s : State) :
  inv s → callers s !! n = Some c → phase c = Waiting → answered (trace s) n (c_id c) r →
  inv (put n (goto (Returned r) c) s).
Proof.
  intros Hs Hc Hp Ha. destruct (inv_caller _ Hs _ _ Hc) as (H1 & H2 & H3).
  eapply mcp_put_inv; try done; [by intros []|]. split_and!; [done|done|].
  simpl. intros r' [= <-]. by left.
Qed.

Lemma mcp_act_inv (x : Act) (s s' : State) :
  inv s → act x s = Some s' → (issued s' < u64_last)%N → inv s'.
Proof.
  intros Hs. destruct x as [n|n|n r|n|n|v| |]; simpl.
  - case_decide; [|done]. intros [= <-] Hlt. by apply mcp_call_inv.
  - destruct (callers s !! n) as [c|] eqn:Hc; [simpl|done]. destruct (phase c) eqn:Hp; try done. intros [= <-] _.
    by apply mcp_insert_inv.
  - destruct (callers s !! n) as [c|] eqn:Hc; [simpl|done]. destruct (phase c) eqn:Hp; try done.
    destruct r as [u|e]; [|destruct (transport_error e) eqn:Et; [|done]]; intros [= <-] _;
      [by apply (mcp_sent_inv n c (Ok u))|by apply (mcp_sent_inv n c (Err e))].
  - destruct (callers s !! n) as [c|] eqn:Hc; [simpl|done]. destruct (inv_caller _ Hs _ _ Hc) as (H1 & _).
    destruct (phase c) eqn:Hp, (slot c) eqn:Hsl; try done; intros [= <-] _; (eapply mcp_await_inv; [done..|]);
      [by apply H1|by left].
  - destruct (callers s !! n) as [c|] eqn:Hc; [simpl|done]. destruct (inv_caller _ Hs _ _ Hc) as (H1 & H2 & H3).
    assert (caller_ok (trace s) n (goto Dropped c)) as Hok by by split_and!.
    destruct (phase c); try done; intros [= <-] _; (eapply mcp_put_inv; try done; by intros []).
  - destruct (hung_up s); [done|]. intros [= <-] _. by destruct Hs.
  - intros [= <-] _. by destruct Hs.
  - destruct (reader s) eqn:Er; [|done]. destruct (incoming s) as [|v l] eqn:El.
    + destruct (hung_up s); [|done]. intros [= <-] _. by apply mcp_drain_inv.
    + intros [= <-] _. apply mcp_dispatch_inv. by destruct Hs.
Qed.

Lemma mcp_initial_inv : inv initial.
Proof. split; simpl; try done; intros; by simplify_map_eq. Qed.

Lemma tell_issued (l : list nat) (x : Slot) (s : State) : issued (foldl (λ s n, tell n x s) s l) = issued s.
Proof. apply tells_spec. Qed.

Lemma act_issued (x : Act) (s s' : State) : act x s = Some s' → (issued s ≤ issued s')%N.
Proof.
  destruct x as [n|n|n r|n|n|v| |]; simpl; [|destruct (callers s !! n) as [c|]; [simpl|done]..| | |].
  - case_decide; [|done]. intros [= <-]. simpl. lia.
  - destruct (phase c); try done. intros [= <-]. unfold insert_. by destruct (pending s !! c_id c).
  - destruct (phase c); try done. destruct (match r with Ok _ => true | Err e => transport_error e end); [|done].
    intros [= <-]. by destruct r.
  - destruct (phase c), (slot c); try done; by intros [= <-].
  - destruct (phase c); try done; by intros [= <-].
  - destruct (hung_up s); [done|]. by intros [= <-].
  - by intros [= <-].
  - destruct (reader s); [|done]. destruct (incoming s) as [|v l]; [destruct (hung_up s); [|done]|]; intros [= <-].
    + unfold drain. simpl. by rewrite tell_issued.
    + unfold dispatch_incoming. simpl. destruct (from_value v) as [resp|]; [|done].
      destruct (r_id resp ≫= as_u64); [|done]. simpl. by destruct (pending s !! _).
Qed.

Lemma mcp_reachable_inv (s : State) : rtc step initial s → (issued s < u64_last)%N → inv s.
Proof.
  apply (rtc_ind_r (R := step) (λ s, (issued s < u64_last)%N → inv s) initial); [intros _; apply mcp_initial_inv|].
  intros s1 s2 _ [x Hx] IH Hlt. pose proof (act_issued _ _ _ Hx). eapply mcp_act_inv; [|done..]. apply IH. lia.
Qed.

(** C24: Calls get their own answers: however requests, responses, failing sends, timeouts
    and the end of the server interleave, a call that returns a result or a server's error
    returns the payload of a message with its id that was received after the call was in
    the map, and no other call has that id; otherwise it returns a transport's error or
    [Closed]. When the reader has ended, a call that still waits came after it. *)
Theorem calls_answered (s : State) (n : nat) (c : Caller) :
  rtc step initial s → (issued s < u64_last)%N → callers s !! n = Some c →
  (∀ m d, callers s !! m = Some d → c_id d = c_id c → m = n)
  ∧ match phase c with
    | Returned (Err (InvalidResponse _)) => False
    | Returned (Err Closed | Err Io | Err (Decode _) | Err (Transport _)) => True
    | Returned r => ∃ pre v post, trace s = pre ++ Received v :: post ∧ Inserted n ∈ pre ∧ answers v (c_id c) r
    | Waiting => reader s = false → slot c = Empty → late (trace s) n
    | _ => True
    end.
Proof.
  intros Hr Hlt Hc. pose proof (mcp_reachable_inv s Hr Hlt) as Hs. split; [intros m d Hd He; by eapply inv_inj|].
  destruct (inv_caller _ Hs _ _ Hc) as (H1 & H2 & H3). destruct (phase c) as [| | |r|] eqn:Hp; try done.
  - intros Hre He. apply (inv_late s Hs Hre (c_id c)), (inv_listed s Hs); auto.
  - destruct (H3 r eq_refl) as [[->|(pre & v & post & Et & Hi & Ha)]|(e & -> & He)]; [done| |by destruct e].
    assert (∃ pre v post, trace s = pre ++ Received v :: post ∧ Inserted n ∈ pre ∧ answers v (c_id c) r) as Hex
      by by exists pre, v, post.
    destruct Ha as (resp & _ & _ & Hpay). unfold payload in Hpay. destruct (r_error resp) as [[code m]|]; by subst.
Qed.

Definition acts (l : list Act) (s : State) : option State := foldl (λ o x, s ← o; act x s) (Some s) l.

Lemma mcp_acts_reachable (l : list Act) (s s' : State) : acts l s = Some s' → rtc step s s'.
Proof.
  unfold acts. revert s. induction l as [|x l IH]; intros s; simpl; [intros [= ->]; apply rtc_refl|].
  destruct (act x s) as [s1|] eqn:E.
  - intros H. eapply rtc_l; [by exists x|by apply IH].
  - intros H. exfalso. revert H. clear. induction l; simpl; auto. discriminate.
Qed.

(** A call whose slot is empty once the reader is gone never returns: only its caller can
    give up. *)
Lemma waits_for_ever (x : Act) (s s' : State) (n : nat) (c : Caller) :
  reader s = false → callers s !! n = Some c → phase c = Waiting → slot c = Empty → pending s !! c_id c = Some n →
  inv s → x ≠ Abandon n → act x s = Some s' → (issued s' < u64_last)%N →
  reader s' = false ∧ callers s' !! n = Some c ∧ pending s' !! c_id c = Some n.
Proof.
  intros Hr Hc Hp He Hpe Hs Hne. destruct x as [m|m|m r|m|m|v| |]; simpl.
  - case_decide; [|done]. intros [= <-] _. simpl. rewrite lookup_insert_ne by congruence. done.
  - destruct (callers s !! m) as [d|] eqn:Hd; [simpl|done]. destruct (phase d) eqn:Hpd; try done. intros [= <-] _.
    assert (m ≠ n) by congruence. assert (c_id d ≠ c_id c) by (intros E; by eapply inv_inj in E).
    unfold insert_. assert (pending s !! c_id d = None) as ->.
    { destruct (pending s !! c_id d) as [k|] eqn:Hk; [|done]. destruct (inv_pending _ Hs _ _ Hk) as (a & Ha & Hid & Hnum & _).
      assert (k = m) as -> by by eapply inv_inj. congruence. }
    simpl. by rewrite !lookup_insert_ne.
  - destruct (callers s !! m) as [d|] eqn:Hd; [simpl|done]. destruct (phase d) eqn:Hpd; try done.
    destruct (match r with Ok _ => true | Err e => transport_error e end); [|done]. intros [= <-] _.
    assert (m ≠ n) by congruence. assert (c_id d ≠ c_id c) by (intros E; by eapply inv_inj in E).
    destruct r; simpl; rewrite lookup_insert_ne by done; [done|]. by rewrite lookup_delete_ne.
  - destruct (callers s !! m) as [d|] eqn:Hd; [simpl|done]. destruct (decide (m = n)) as [->|].
    { simplify_eq. by rewrite Hp, He. }
    destruct (phase d), (slot d); try done; intros [= <-] _; simpl; by rewrite lookup_insert_ne.
  - assert (m ≠ n) by congruence. destruct (callers s !! m) as [d|] eqn:Hd; [simpl|done].
    destruct (phase d); try done; intros [= <-] _; simpl; by rewrite lookup_insert_ne.
  - destruct (hung_up s); [done|]. by intros [= <-] _.
  - by intros [= <-] _.
  - by rewrite Hr.
Qed.
End Dispatch.

(** A decoder that reads the id and the result. *)
Definition plain_response (v : Json) : option JsonRpcResponse :=
  match v with
  | Object m => Some {| r_id := map_get (lit "id") m; r_result := map_get (lit "result") m; r_error := None |}
  | _ => None
  end.

Definition response (i : string) (r : Json) : Json := Object [(lit "id", Number (lit i)); (lit "result", r)].

(** Two calls whose responses arrive in the other order. *)
Definition crossed : list Act :=
  [Call 0; Call 1; Insert 1; Insert 0; Sent 0 (Ok ()); Sent 1 (Ok ()); Arrive (response "2" (Bool true));
   Arrive (response "1" (Bool false)); Receive; Receive; Await 0; Await 1].

Lemma calls_answered_witness :
  ∃ s c, acts plain_response crossed initial = Some s ∧ callers s !! 0 = Some c ∧ phase c = Returned (Ok (Bool false))
    ∧ ∃ pre v post, trace s = pre ++ Received v :: post ∧ Inserted 0 ∈ pre
        ∧ answers plain_response v (c_id c) (Ok (Bool false)).
Proof.
  destruct (acts plain_response crossed initial) as [s|] eqn:E; [|exfalso; revert E; vm_compute; discriminate].
  assert ((λ s, (callers s !! 0, issued s)) <$> acts plain_response crossed initial
          = Some (Some {| c_id := 1%N; slot := Full (Ok (Bool false)); phase := Returned (Ok (Bool false)) |}, 2%N)) as Hf
    by (vm_compute; reflexivity).
  rewrite E in Hf. injection Hf as Hc Hi.
  eexists s, _. split; [reflexivity|]. split; [exact Hc|]. split; [reflexivity|].
  refine (proj2 (calls_answered plain_response s 0 _ (mcp_acts_reachable _ _ _ _ E) _ Hc)).
  rewrite Hi. reflexivity.
Defined.

(** A call made after the server closed its output waits for an answer nobody will give:
    its request is accepted, the reader is gone. *)
Example late_call_hangs :
  (λ s, (reader s, (λ c, (phase c, slot c)) <$> callers s !! 0, pending s !! 1%N))
    <$> acts plain_response [HangUp; Receive; Call 0; Insert 0; Sent 0 (Ok ())] initial
  = Some (false, Some (Waiting, Empty), Some 0).
Proof. vm_compute. reflexivity. Qed.

End Client.

(** ** A message per line *)

Module Stdio.

(** serde_json, as far as the framing relies on it: what it prints is one line of text
    without surrounding white space, and reads back. *)
Class Codec := {
  to_vec : Json → option (list N);
  from_str : str → option Json;
  to_vec_line : ∀ v b, to_vec v = Some b →
    ∃ t, b = str_bytes t ∧ Forall (λ c, scalar c = true) t ∧ trim t = t ∧ t ≠ [] ∧ LF ∉ b ∧ from_str t = Some v;
}.

Section Framing.
Context `{Codec}.

(** StdioTransport::send, when its writes succeed. *)
Definition send (message : Json) : result (list N) McpError :=
  match to_vec message with Some b => Ok (b ++ [LF]) | None => Err (Decode []) end.

(** [read_line]: up to a line feed, or what is left. *)
Fixpoint read_line (bytes : list N) : list N * list N :=
  match bytes with
  | [] => ([], [])
  | b :: bytes => if (b =? LF)%N then ([b], bytes) else let '(l, rest) := read_line bytes in (b :: l, rest)
  end.

(** The reader task over everything the child writes: the messages it forwards, as long
    as the client is there. *)
Fixpoint read_loop (fuel : nat) (bytes : list N) : list Json :=
  match fuel with
  | 0 => []
  | S fuel =>
      match read_line bytes with
      | ([], _) => []
      | (line, rest) =>
          match utf8_decode line with
          | None => []
          | Some t =>
              let trimmed := trim t in
              if decide (trimmed = []) then read_loop fuel rest
              else match from_str trimmed with
                   | Some v => v :: read_loop fuel rest
                   | None => read_loop fuel rest
                   end
          end
      end
  end.

Definition reads (bytes : list N) : list Json := read_loop (length bytes) bytes.

Lemma read_line_length (bytes l rest : list N) : read_line bytes = (l, rest) → length bytes = length l + length rest.
Proof.
  revert l rest. induction bytes as [|b bytes IH]; intros l rest; simpl; [by intros [= <- <-]|].
  destruct (b =? LF)%N; [by intros [= <- <-]|]. destruct (read_line bytes) as [l' rest'].
  intros [= <- <-]. simpl. by rewrite (IH _ _ eq_refl).
Qed.

Lemma read_line_line (l rest : list N) : LF ∉ l → read_line (l ++ LF :: rest) = (l ++ [LF], rest).
Proof.
  induction l as [|b l IH]; simpl; intros Hl; [done|]. apply not_elem_of_cons in Hl as [Hb Hl].
  rewrite (proj2 (N.eqb_neq b LF)) by done. by rewrite IH.
Qed.

(** Fuel beyond the number of bytes changes nothing. *)
Lemma read_loop_fuel (fuel : nat) (bytes : list N) : length bytes ≤ fuel → read_loop fuel bytes = reads bytes.
Proof.
  unfold reads. remember (length bytes) as n eqn:En. revert fuel bytes En.
  induction n as [n IH] using lt_wf_ind. intros fuel bytes En Hf.
  destruct n as [|n]; [destruct bytes; [by destruct fuel|done]|]. destruct fuel as [|fuel]; [lia|]. simpl.
  destruct (read_line bytes) as [[|b l] rest] eqn:El; [done|]. apply read_line_length in El. simpl in El.
  assert (read_loop fuel rest = read_loop n rest) as ->; [|done].
  rewrite (IH (length rest) ltac:(lia) fuel rest), (IH (length rest) ltac:(lia) n rest) by lia. done.
Qed.

Lemma reads_line (l rest : list N) (t : str) :
  LF ∉ l → utf8_decode (l ++ [LF]) = Some t →
  reads (l ++ LF :: rest)
  = (if decide (trim t = []) then [] else option_list (from_str (trim t))) ++ reads rest.
Proof.
  intros Hl Ht. unfold reads at 1. rewrite length_app. simpl. rewrite Nat.add_succ_r. simpl.
  rewrite read_line_line by done. destruct (l ++ [LF]) as [|b l'] eqn:E; [by destruct l|]. rewrite Ht.
  rewrite read_loop_fuel by lia. case_decide; [done|]. by destruct (from_str (trim t)).
Qed.

Lemma send_line (v : Json) (f : list N) : send v = Ok f →
  ∃ b t, f = b ++ [LF] ∧ LF ∉ b ∧ utf8_decode f = Some (t ++ [LF]) ∧ trim t = t ∧ t ≠ [] ∧ from_str t = Some v.
Proof.
  unfold send. destruct (to_vec v) as [b|] eqn:E; [|done]. intros [= <-].
  apply to_vec_line in E as (t & -> & Hs & Ht & Hne & Hl & Hv). exists (str_bytes t), t. split_and!; try done.
  rewrite utf8_decode_app by done. simpl. done.
Qed.

(** What is sent is read: a stream of messages, each framed by [send], is read back as
    these messages in order, whatever follows them; a line that is not JSON is skipped and
    costs nothing else. *)
Theorem frames_read_back (ms : list Json) (frames : list (list N)) (rest : list N) :
  Forall2 (λ v f, send v = Ok f) ms frames →
  reads (concat frames ++ rest) = ms ++ reads rest
  ∧ ∀ junk t, LF ∉ junk → utf8_decode (junk ++ [LF]) = Some t → from_str (trim t) = None →
      reads (concat frames ++ junk ++ LF :: rest) = ms ++ reads rest.
Proof.
  assert (∀ rest, Forall2 (λ v f, send v = Ok f) ms frames → reads (concat frames ++ rest) = ms ++ reads rest) as Hall.
  { intros rest'. induction 1 as [|v f ms frames Hf _ IH]; [done|]. simpl.
    destruct (send_line v f Hf) as (b & t & -> & Hl & Hd & Ht & Hne & Hv). rewrite <- !(assoc_L (++)). simpl.
    rewrite (reads_line b _ (t ++ [LF]) Hl Hd), trim_snoc, Ht, decide_False, Hv by done. simpl. by rewrite IH. }
  intros Hf. split; [by apply Hall|]. intros junk t Hl Hd Hn. rewrite (Hall (junk ++ LF :: rest) Hf). f_equal.
  rewrite (reads_line junk rest t Hl Hd), Hn. by case_decide.
Qed.
End Framing.

(** A codec of the literals. *)
Definition literal (v : Json) : option str :=
  match v with
  | Null => Some (lit "null") | Bool true => Some (lit "true") | Bool false => Some (lit "false") | _ => None
  end.

Definition read_literal (t : str) : option Json :=
  if t =s lit "null" then Some Null
  else if t =s lit "true" then Some (Bool true)
  else if t =s lit "false" then Some (Bool false)
  else None.

#[refine] Instance literals : Codec := { to_vec v := str_bytes <$> literal v; from_str := read_literal }.
Proof.
  assert (∀ v t, literal v = Some t → t = lit "null" ∨ t = lit "true" ∨ t = lit "false") as Ht.
  { intros v t. destruct v as [|[]| | | |]; simpl; intros; simplify_eq; auto. }
  assert (∀ v t, literal v = Some t → read_literal t = Some v) as Hr.
  { intros v t. destruct v as [|[]| | | |]; simpl; intros; simplify_eq; reflexivity. }
  intros v b (t & E & ->)%fmap_Some. exists t. specialize (Hr _ _ E).
  split_and!; [done|..|done]; destruct (Ht _ _ E) as [-> |[-> | ->]]; decided.
Defined.

Lemma frames_read_back_witness :
  send (Bool true) = Ok (str_bytes "true" ++ [LF]) ∧ reads (str_bytes "true" ++ [LF] ++ str_bytes "nul") = [Bool true].
Proof.
  split; [reflexivity|].
  pose proof (proj1 (frames_read_back [Bool true] [str_bytes "true" ++ [LF]] (str_bytes "nul") ltac:(by repeat constructor))) as H.
  transitivity ([Bool true] ++ reads (str_bytes "nul")); [exact H|reflexivity].
Defined.

(** A line that is not UTF-8, such as a log line in another encoding, ends the reader: the
    messages behind it are never seen, although a line that is not JSON is skipped. *)
Example bad_byte_ends_reader :
  reads (str_bytes "caf" ++ [233%N; LF] ++ str_bytes "true" ++ [LF]) = []
  ∧ reads (str_bytes "cafe" ++ [LF] ++ str_bytes "true" ++ [LF]) = [Bool true].
Proof. by vm_compute. Qed.
End Stdio.

(** ** Messages over HTTP *)

Module Http.

(** What the server answered, as far as [send] looks at it; [events] are the data of the
    stream's events up to its end or its error. *)
Record HttpResponse : Set := {
  success : bool; status : str; session_header : option str; content_type : str;
  events : list (result str str); body : result str str;
}.

Record HttpTransport : Set := { session_id : option str; protocol_version : option str }.

Definition SESSION_HEADER : str := lit "mcp-session-id".

Definition PROTOCOL_HEADER : str := lit "mcp-protocol-version".

Section Send.
Context (from_str : str → result Json str) (header_value : str → bool).

Definition capture_meta (v : Json) (t : HttpTransport) : HttpTransport :=
  match r ← get "result" v; p ← get "protocolVersion" r; as_str p with
  | Some pv => {| session_id := session_id t; protocol_version := Some pv |}
  | None => t
  end.

(** What a request carries beside its body. *)
Definition request_headers (t : HttpTransport) : list (str * str) :=
  match session_id t with Some v => if header_value v then [(SESSION_HEADER, v)] else [] | None => [] end
  ++ match protocol_version t with Some v => if header_value v then [(PROTOCOL_HEADER, v)] else [] | None => [] end.

(** [deliver] of a list of messages to a client that takes [room] more: the loop breaks
    at the one it does not take. *)
Fixpoint deliver_all (room : nat) (vs : list Json) (t : HttpTransport) {struct vs} : list Json * HttpTransport :=
  match vs with
  | [] => ([], t)
  | v :: vs =>
      let t := capture_meta v t in
      match room with
      | 0 => ([], t)
      | S room => let '(out, t) := deliver_all room vs t in (v :: out, t)
      end
  end.

(** The messages of an event stream, and the error that ends it. *)
Fixpoint stream (es : list (result str str)) : list Json * option str :=
  match es with
  | [] => ([], None)
  | Err e :: _ => ([], Some e)
  | Ok data :: es =>
      if decide (trim data = []) then stream es
      else match from_str data with
           | Ok v => let '(vs, e) := stream es in (v :: vs, e)
           | Err _ => stream es
           end
  end.

Definition keep_session (r : HttpResponse) (t : HttpTransport) : HttpTransport :=
  match session_header r with
  | Some s => {| session_id := Some s; protocol_version := protocol_version t |}
  | None => t
  end.

(** HttpTransport::send once the POST has ended: the result, what the client got, and
    the transport.  A client that is gone ends the stream without an error. *)
Definition send (room : nat) (resp : result HttpResponse str) (t : HttpTransport) :
    result unit McpError * list Json * HttpTransport :=
  match resp with
  | Err e => (Err (Transport e), [], t)
  | Ok r =>
      let t := keep_session r t in
      let ct := str_to_ascii_lowercase (content_type r) in
      if negb (success r) then
        (Err (Transport (status r ++ lit ": " ++ match body r with Ok b => b | Err _ => [] end)), [], t)
      else if contains_str "text/event-stream" ct then
        let '(vs, e) := stream (events r) in
        let '(out, t) := deliver_all room vs t in
        (match e with
         | Some e => if decide (length vs ≤ room) then Err (Transport e) else Ok ()
         | None => Ok ()
         end, out, t)
      else if contains_str "application/json" ct then
        match body r with
        | Err e => (Err (Transport e), [], t)
        | Ok b =>
            if decide (trim b = []) then (Ok (), [], t)
            else match from_str b with
                 | Err e => (Err (Decode e), [], t)
                 | Ok v =>
                     let '(out, t) := deliver_all room (match v with Array items => items | _ => [v] end) t in
                     (Ok (), out, t)
                 end
        end
      else (Ok (), [], t)
  end.

Lemma capture_meta_session (v : Json) (t : HttpTransport) : session_id (capture_meta v t) = session_id t.
Proof. unfold capture_meta. by destruct (get "result" v ≫= _). Qed.

Lemma deliver_all_spec (room : nat) (vs : list Json) (t : HttpTransport) out t' :
  deliver_all room vs t = (out, t') → out = take room vs ∧ session_id t' = session_id t.
Proof.
  revert room t out. induction vs as [|v vs IH]; intros room t out; simpl.
  { intros E. simplify_eq. by destruct room. }
  destruct room as [|room]; [intros E; simplify_eq; by rewrite ?capture_meta_session|].
  destruct (deliver_all room vs (capture_meta v t)) as [out0 t0] eqn:E. intros [= <- <-].
  apply IH in E as [-> ->]. by rewrite capture_meta_session.
Qed.

(** Requests are sent in the session the last response named. *)
Lemma session_kept (room : nat) (r : HttpResponse) (t : HttpTransport) res out t' :
  send room (Ok r) t = (res, out, t') →
  session_id t' = match session_header r with Some s => Some s | None => session_id t end.
Proof.
  assert (session_id (keep_session r t) = match session_header r with Some s => Some s | None => session_id t end) as <-
    by (unfold keep_session; by destruct (session_header r)).
  unfold send. destruct (negb (success r)); [by intros [= <- <- <-]|].
  destruct (contains_str "text/event-stream" _).
  { destruct (stream (events r)) as [vs e]. destruct (deliver_all _ _ _) as [o t0] eqn:E. intros [= <- <- <-].
    by apply deliver_all_spec in E as [_ ->]. }
  destruct (contains_str "application/json" _); [|by intros [= <- <- <-]].
  destruct (body r) as [b|e]; [|by intros [= <- <- <-]]. case_decide; [by intros [= <- <- <-]|].
  destruct (from_str b) as [v|e]; [|by intros [= <- <- <-]]. destruct (deliver_all _ _ _) as [o t0] eqn:E.
  intros [= <- <- <-]. by apply deliver_all_spec in E as [_ ->].
Qed.
End Send.
End Http.

(** ** Methods *)

Section Methods.
Context {McpTool : Type} (decode_tool : Json → result McpTool str) (json_text : Json → str).

Definition PROTOCOL_VERSION : str := lit "2025-03-26".

(** The requests of [initialize] and [call_tool]. *)
Definition initialize_params (client_name client_version : str) : Json :=
  obj [("protocolVersion", String_ PROTOCOL_VERSION); ("capabilities", Object []);
       ("clientInfo", obj [("name", String_ client_name); ("version", String_ client_version)])]%string.

Definition call_params (name : str) (arguments : Json) : Json :=
  obj [("name", String_ name); ("arguments", arguments)]%string.

Fixpoint decode_tools (l : list Json) : result (list McpTool) McpError :=
  match l with
  | [] => Ok []
  | v :: l =>
      match decode_tool v with
      | Ok t => ts <-? decode_tools l; Ok (t :: ts)
      | Err e => Err (Decode e)
      end
  end.

(** [list_tools], from the reply to its request. *)
Definition list_tools (reply : result Json McpError) : result (list McpTool) McpError :=
  v <-? reply;
  match t ← get "tools" v; as_array t with
  | Some arr => decode_tools arr
  | None => Err (InvalidResponse (lit "tools/list response missing `tools`"))
  end.

Definition block_text (block : Json) : str :=
  match t ← get "text" block; as_str t with Some t => t | None => json_text block end.

Definition flatten_tool_result (value : Json) : str :=
  match c ← get "content" value; as_array c with
  | None => json_text value
  | Some arr => foldl (λ out b, (match out with [] => [] | _ => out ++ [LF] end) ++ block_text b) [] arr
  end.

(** A reply whose blocks have text is their texts, a line feed between them. *)
Lemma flatten_joins (value : Json) (arr : list Json) (ts : list str) :
  (c ← get "content" value; as_array c) = Some arr → block_text <$> arr = ts → Forall (λ t, t ≠ []) ts →
  flatten_tool_result value = join [LF] ts.
Proof.
  intros E <- Hne. unfold flatten_tool_result. rewrite E. clear E.
  destruct arr as [|b arr]; [done|]. apply Forall_cons in Hne as [Hb Hne]. rewrite fmap_cons.
  simpl foldl. generalize (block_text b) Hb. clear Hb b. induction arr as [|b arr IH]; intros out Ho; [done|].
  simpl in Hne. apply Forall_cons in Hne as [Hb Hne]. simpl foldl.
  destruct out as [|c out]; [done|]. rewrite IH; [|done..]. rewrite fmap_cons.
  destruct arr; simpl; by rewrite <- ?(assoc_L (++)).
Qed.
End Methods.
