(* ===== verification/ObjectStatus.v ===== *)
(** * Statuses of batches of objects (kube-ext/src/object_status.rs)

    The live status of a list of object references: answered from the caches of the
    watchers that run, then by a bounded number of LIST pages.  The kinds of the parts
    come from [Registry]; discovery, the pages of a LIST, and the row projections of the
    kinds are arguments.  The LIST jobs run as a step relation ([Pool]): a step is the
    start of a job, the taking of a request from the budget, or a reply. *)

From stdpp Require Import sorting.

From S2P Require Import Prelude Watcher Json Kinds Registry.

Definition MAX_REFS : nat := N.to_nat 5000.

Definition MAX_LIST_REQUESTS : nat := 20.

Definition PER_NAMESPACE_LIST_MAX : nat := 3.

Definition LIST_CONCURRENCY : nat := 4.

Record ObjectRef : Set := { ref_group : str; ref_kind : str; ref_namespace : option str; ref_name : str }.

Inductive StatusError : Set := Forbidden | Truncated | NamespaceRequired | Discovery | Timeout | Failed.

#[global] Instance status_error_eq_dec : EqDecision StatusError.
Proof. solve_decision. Defined.

Record ObjectStatus : Set := {
  o_group : str; o_kind : str; o_namespace : option str; o_name : str;
  kind_id : option str; found : bool; status : option str; ready : option str;
  error : option StatusError;
}.

Record ObjectStatuses : Set := { items : list ObjectStatus; truncated : bool }.

Record KindKey : Set := { k_group : str; k_kind : str; k_namespaced : bool }.

(** [parse_kind_id]: what an id of the registry stands for. *)
Definition parse_kind_id (i : str) : option KindKey :=
  match parse_id i with
  | Some p => Some {| k_group := p_group p; k_kind := p_kind p; k_namespaced := p_namespaced p |}
  | None =>
      match strip_prefix (lit "crd:") i with
      | Some rest =>
          match split_char BAR rest with
          | [g; _; _; k; sc] => Some {| k_group := g; k_kind := k; k_namespaced := sc =s lit "ns" |}
          | _ => None
          end
      | None =>
          e ← lookup_builtin i;
          if synthetic (id e) then None
          else Some {| k_group := group e; k_kind := kind e; k_namespaced := namespaced e |}
      end
  end.

Definition covers (scope : NsScope) (namespaced : bool) (ns : str) : bool :=
  match scope with All => true | One s => namespaced && (s =s ns) end.

(** The order of a [BTreeSet] of names. *)
Definition str_le (a b : str) : Prop := str_leb a b = true.

#[global] Instance str_le_dec : RelDecision str_le.
Proof. unfold str_le. solve_decision. Defined.

(** [plan_lists]: one LIST of the cluster, or one per namespace. *)
Definition plan_lists (namespaced : bool) (namespaces : gset str) : list (option str) :=
  if negb namespaced || bool_decide (namespaces = ∅) || (PER_NAMESPACE_LIST_MAX <? size namespaces)%nat then [None]
  else Some <$> merge_sort str_le (elements namespaces).

(** ** KeySet *)

Abbreviation Key := (str * str)%type.

Record KeySet : Set := { by_ns : gmap str (gset str); len : nat }.

Definition empty_keys : KeySet := {| by_ns := ∅; len := 0 |}.

Definition keys_insert (ns name : str) (k : KeySet) : KeySet :=
  let names := default ∅ (by_ns k !! ns) in
  {| by_ns := <[ns := {[name]} ∪ names]> (by_ns k);
     len := if bool_decide (name ∈ names) then len k else S (len k) |}.

Definition keys_contains (ns name : str) (k : KeySet) : bool :=
  match by_ns k !! ns with Some s => bool_decide (name ∈ s) | None => false end.

(** ** Rows *)

Section Rows.
(** serde_json's decoding of a row: its key alone, or all of it. *)
Context (row_key : str → option (option str * option str)) (from_str : str → option Json).

(** The key of a row. *)
Definition key_of_row (namespaced : bool) (row : str) : option Key :=
  '(name, ns) ← row_key row; Some (if namespaced then default [] ns else [], default [] name).

Fixpoint index_rows_from (out : gmap Key Json) (rows : list str) (wanted : KeySet) (namespaced : bool) :
    gmap Key Json :=
  match rows with
  | [] => out
  | row :: rows =>
      match key_of_row namespaced row with
      | None => index_rows_from out rows wanted namespaced
      | Some k =>
          if keys_contains k.1 k.2 wanted then
            let out := match from_str row with Some v => <[k := v]> out | None => out end in
            if size out =? len wanted then out else index_rows_from out rows wanted namespaced
          else index_rows_from out rows wanted namespaced
      end
  end.

Definition index_rows : list str → KeySet → bool → gmap Key Json := index_rows_from ∅.
End Rows.

(** ** From a row to a status *)

Definition EM_DASH : char := 8212%N.

Definition str_at (row : Json) (key : string) : option str :=
  s ← (v ← get key row; as_str v); if bool_decide (s = []) || (s =s [EM_DASH]) then None else Some s.

Definition i64_max : N := 9223372036854775807.

(** [str::parse::<i64>] *)
Definition parse_i64 (s : str) : option Z :=
  match strip_prefix (lit "-") s with
  | Some [] => None
  | Some r => u ← parse_digits r; let n := N.of_uint u in
              if (n <=? i64_max + 1)%N then Some (- Z.of_N n)%Z else None
  | None => Z.of_N <$> parse_uint i64_max s
  end.

(** [Value::as_i64] *)
Definition as_i64 (v : Json) : option Z := match v with Json.Number t => parse_i64 t | _ => None end.

Definition int_at (row : Json) (key : string) : option Z := v ← get key row; as_i64 v.

(** [Display] of an [i64] *)
Definition int_str (z : Z) : str :=
  if (z <? 0)%Z then HYPHEN :: dec_str (Z.to_N (- z)) else dec_str (Z.to_N z).

Definition replica_status (r d : Z) (zero_is_suspended : bool) : option str * option str :=
  (Some (if (d <=? 0)%Z then if zero_is_suspended then lit "Suspended" else lit "Healthy"
         else if (d <=? r)%Z then lit "Healthy" else lit "Progressing"),
   Some (int_str r ++ [SLASH] ++ int_str d)).

Definition parse_ratio (s : str) : option (Z * Z) :=
  '(r, d) ← split_once SLASH s; r ← parse_i64 (trim r); d ← parse_i64 (trim d); Some (r, d).

Definition or_else {A} (a b : option A) : option A := match a with Some _ => a | None => b end.

(** A container that fails, of the kinds [kind_ok]. *)
Fixpoint failing (kind_ok : str → bool) (containers : list Json) : option str :=
  match containers with
  | [] => None
  | c :: l =>
      let kind := default (lit "main") (v ← get "kind" c; as_str v) in
      match v ← get "state" c; as_str v with
      | Some state =>
          if kind_ok kind && negb (bool_decide (state ∈ lit <$> ["Running"; "Completed"; "Waiting"; "Unknown"]%string))
          then Some state else failing kind_ok l
      | None => failing kind_ok l
      end
  end.

Definition pod_status (row : Json) : option str :=
  let containers := default [] (v ← get "container_states" row; as_array v) in
  or_else (failing (λ k, negb (k =s lit "init")) containers)
    (or_else (failing (λ k, k =s lit "init") containers) (str_at row "phase")).

Definition gateway_condition (v : str) : option str :=
  if v =s lit "True" then Some (lit "Ready")
  else if v =s lit "False" then Some (lit "NotReady")
  else None.

Definition of_ints (row : Json) (zero_is_suspended : bool) : option str * option str :=
  match int_at row "ready", int_at row "desired" with
  | Some r, Some d => replica_status r d zero_is_suspended
  | _, _ => (None, None)
  end.

Definition one_of (i : str) (l : list string) : bool := bool_decide (i ∈ lit <$> l).

(** [normalize]: the status and readiness a row shows. *)
Definition normalize (i : str) (row : Json) : option str * option str :=
  if one_of i ["pods"%string] then (pod_status row, str_at row "ready")
  else if one_of i ["deployments"; "statefulsets"]%string then
    match s ← str_at row "ready"; parse_ratio s with
    | Some (r, d) => replica_status r d true
    | None => (None, str_at row "ready")
    end
  else if one_of i ["daemonsets"%string] then of_ints row false
  else if one_of i ["replicasets"; "replicationcontrollers"]%string then of_ints row true
  else if one_of i ["jobs"%string] then (str_at row "phase", str_at row "completions")
  else if one_of i ["cronjobs"%string] then
    (Some (match v ← get "suspend" row; as_bool v with Some true => lit "Suspended" | _ => lit "Active" end), None)
  else if one_of i ["persistentvolumeclaims"; "persistentvolumes"; "namespaces"; "nodes"]%string then
    (str_at row "phase", None)
  else if starts_with (lit "wkcrd:") i then
    (or_else (str_at row "health") (or_else (str_at row "phase") (or_else (str_at row "sync")
       (or_else (s ← str_at row "programmed"; gateway_condition s)
          (s ← str_at row "accepted"; gateway_condition s)))), None)
  else (None, None).

(** ** Batches *)

Abbreviation Gk := (str * str)%type.

Definition pending (r : ObjectRef) : ObjectStatus :=
  {| o_group := ref_group r; o_kind := ref_kind r; o_namespace := ref_namespace r; o_name := ref_name r;
     kind_id := None; found := false; status := None; ready := None; error := None |}.

Definition settle (i : str) (row : option Json) (item : ObjectStatus) : ObjectStatus :=
  let '(st, rd) := match row with Some v => normalize i v | None => (Some (lit "Missing"), None) end in
  {| o_group := o_group item; o_kind := o_kind item; o_namespace := o_namespace item; o_name := o_name item;
     kind_id := Some i; found := bool_decide (is_Some row); status := st; ready := rd; error := None |}.

Definition set_error (e : StatusError) (item : ObjectStatus) : ObjectStatus :=
  {| o_group := o_group item; o_kind := o_kind item; o_namespace := o_namespace item; o_name := o_name item;
     kind_id := kind_id item; found := found item; status := status item; ready := ready item;
     error := Some e |}.

Definition set_kind (i : str) (item : ObjectStatus) : ObjectStatus :=
  {| o_group := o_group item; o_kind := o_kind item; o_namespace := o_namespace item; o_name := o_name item;
     kind_id := Some i; found := found item; status := status item; ready := ready item;
     error := error item |}.

Definition set_missing (item : ObjectStatus) : ObjectStatus :=
  {| o_group := o_group item; o_kind := o_kind item; o_namespace := o_namespace item; o_name := o_name item;
     kind_id := kind_id item; found := false; status := Some (lit "Missing"); ready := ready item;
     error := error item |}.

Definition ref_key (item : ObjectStatus) (namespaced : bool) : option Key :=
  if namespaced then
    match o_namespace item with Some [] | None => None | Some ns => Some (ns, o_name item) end
  else Some ([], o_name item).

Record Batch : Set := { b_items : list ObjectStatus; b_truncated : bool; groups : gmap Gk (list nat) }.

Definition set_items (l : list ObjectStatus) (b : Batch) : Batch :=
  {| b_items := l; b_truncated := b_truncated b; groups := groups b |}.

Definition set_groups (g : gmap Gk (list nat)) (b : Batch) : Batch :=
  {| b_items := b_items b; b_truncated := b_truncated b; groups := g |}.

(** [Batch::new]: the loop over the items from index [i] on. *)
Fixpoint group_items (i : nat) (l : list ObjectStatus) (g : gmap Gk (list nat)) :
    list ObjectStatus * gmap Gk (list nat) :=
  match l with
  | [] => ([], g)
  | item :: l =>
      if decide (MAX_REFS ≤ i) then
        let '(l, g) := group_items (S i) l g in (set_error Truncated item :: l, g)
      else
        let gk := (o_group item, o_kind item) in
        let '(l, g) := group_items (S i) l (<[gk := default [] (g !! gk) ++ [i]]> g) in (item :: l, g)
  end.

Definition batch_new (refs : list ObjectRef) : Batch :=
  let '(l, g) := group_items 0 (pending <$> refs) ∅ in
  {| b_items := l; b_truncated := bool_decide (MAX_REFS < length refs); groups := g |}.

Definition pending_count (b : Batch) : nat := sum_list (length <$> (map_to_list (groups b)).*2).

Definition wants (gk : Gk) (b : Batch) : bool :=
  match groups b !! gk with Some (_ :: _) => true | _ => false end.

(** A synced cache. *)
Record CacheView : Set := { v_kind_id : str; scope : NsScope; rows : list str }.

(** The views of a kind, with the scope their id names. *)
Definition views_of (gk : Gk) (views : list CacheView) : list (CacheView * bool) :=
  omap (λ v, k ← parse_kind_id (v_kind_id v);
             if bool_decide ((k_group k, k_kind k) = gk) then Some (v, k_namespaced k) else None) views.

Fixpoint position {A} (p : A → bool) (l : list A) : option nat :=
  match l with [] => None | x :: l => if p x then Some 0 else S <$> position p l end.

Abbreviation Assigned := (list (KeySet * list (nat * Key))).

Definition assign (s i : nat) (k : Key) (a : Assigned) : Assigned :=
  alter (λ p, (keys_insert k.1 k.2 p.1, p.2 ++ [(i, k)])) s a.

(** The [retain] of [apply_cache]: what stays, the items, and who answers what. *)
Fixpoint retain_uncovered (slots : list (CacheView * bool)) (namespaced : bool) (idxs : list nat)
    (l : list ObjectStatus) (a : Assigned) : list nat * list ObjectStatus * Assigned :=
  match idxs with
  | [] => ([], l, a)
  | i :: idxs =>
      match item ← l !! i; ref_key item namespaced with
      | None => retain_uncovered slots namespaced idxs (alter (set_error NamespaceRequired) i l) a
      | Some k =>
          match position (λ p, covers (scope p.1) namespaced k.1) slots with
          | None =>
              let '(kept, l, a) := retain_uncovered slots namespaced idxs l a in (i :: kept, l, a)
          | Some s => retain_uncovered slots namespaced idxs l (assign s i k a)
          end
      end
  end.

Definition settle_refs (i : str) (found : gmap Key Json) (refs : list (nat * Key)) (l : list ObjectStatus) :
    list ObjectStatus :=
  foldl (λ l r, alter (settle i (found !! r.2)) r.1 l) l refs.

Section Cache.
Context (row_key : str → option (option str * option str)) (from_str : str → option Json).

Definition answer_slot (namespaced : bool) (l : list ObjectStatus) (p : CacheView * bool * (KeySet * list (nat * Key))) :
    list ObjectStatus :=
  let '(view, _, (wanted, refs)) := p in
  match refs with
  | [] => l
  | _ => settle_refs (v_kind_id view) (index_rows row_key from_str (rows view) wanted namespaced) refs l
  end.

Definition apply_cache_group (views : list CacheView) (b : Batch) (gk : Gk) : Batch :=
  match groups b !! gk, views_of gk views with
  | Some idxs, (v, namespaced) :: slots' =>
      let slots := (v, namespaced) :: slots' in
      let '(kept, l, a) :=
        retain_uncovered slots namespaced idxs (b_items b) ((λ _, (empty_keys, [])) <$> slots) in
      set_groups (<[gk := kept]> (groups b)) (set_items (foldl (answer_slot namespaced) l (zip slots a)) b)
  | _, _ => b
  end.

(** [apply_cache]; [order] is the iteration over the kinds of the views. *)
Definition apply_cache (order : list Gk) (views : list CacheView) (b : Batch) : Batch :=
  foldl (apply_cache_group views) b order.
End Cache.

Definition end_group (f : ObjectStatus → ObjectStatus) (gk : Gk) (b : Batch) : Batch :=
  set_groups (delete gk (groups b))
    (set_items (foldl (λ l i, alter f i l) (b_items b) (default [] (groups b !! gk))) b).

Definition fail_group (gk : Gk) (e : StatusError) : Batch → Batch := end_group (set_error e) gk.

Definition miss_group : Gk → Batch → Batch := end_group set_missing.

(** ** Jobs *)

Record ApiResource : Set := { ar_group : str; ar_version : str; ar_kind : str; ar_plural : str }.

Record ResolvedKind : Set := {
  rk_id : str; rk_namespaced : bool; ar : ApiResource; rk_project : Projection;
}.

Definition from_entry (e : ResourceKindEntry) : option ResolvedKind :=
  let m := meta e in
  match projection e with
  | Synthetic => None
  | p =>
      Some {| rk_id := id m; rk_namespaced := namespaced m;
              ar := {| ar_group := group m; ar_version := version m; ar_kind := kind m; ar_plural := plural m |};
              rk_project := p |}
  end.

Record ListJob : Set := {
  j_kind : ResolvedKind; j_namespace : option str; wanted : KeySet; j_refs : list (nat * Key);
}.

(** The keys of a group; refs that need a namespace and have none are told so. *)
Fixpoint key_refs (namespaced : bool) (idxs : list nat) (l : list ObjectStatus) :
    list ObjectStatus * list (nat * Key) :=
  match idxs with
  | [] => (l, [])
  | i :: idxs =>
      match item ← l !! i; ref_key item namespaced with
      | Some k => let '(l, keyed) := key_refs namespaced idxs l in (l, (i, k) :: keyed)
      | None => key_refs namespaced idxs (alter (set_error NamespaceRequired) i l)
      end
  end.

Definition in_list_scope (ns : option str) (r : nat * Key) : bool :=
  match ns with None => true | Some ns => ns =s r.2.1 end.

Definition mk_job (kind : ResolvedKind) (keyed : list (nat * Key)) (ns : option str) : ListJob :=
  let refs := filter (in_list_scope ns) keyed in
  {| j_kind := kind; j_namespace := ns;
     wanted := foldl (λ w r, keys_insert r.2.1 r.2.2 w) empty_keys refs; j_refs := refs |}.

Definition group_jobs (b : Batch) (p : Gk * ResolvedKind) : Batch * list ListJob :=
  let '(gk, kind) := p in
  match groups b !! gk with
  | None => (b, [])
  | Some idxs =>
      let '(l, keyed) := key_refs (rk_namespaced kind) idxs (b_items b) in
      (set_groups (delete gk (groups b)) (set_items l b),
       match keyed with
       | [] => []
       | _ => mk_job kind keyed <$> plan_lists (rk_namespaced kind) (list_to_set (fst <$> keyed.*2))
       end)
  end.

(** [list_jobs]; [kinds] in the order of the iteration. *)
Fixpoint list_jobs (kinds : list (Gk * ResolvedKind)) (b : Batch) : Batch * list ListJob :=
  match kinds with
  | [] => (b, [])
  | p :: kinds =>
      let '(b, jobs) := group_jobs b p in
      let '(b, jobs') := list_jobs kinds b in (b, jobs ++ jobs')
  end.

Record ListOutcome : Set := { l_found : gmap Key Json; complete : bool; l_error : option StatusError }.

Definition apply_ref (i : str) (outcome : ListOutcome) (b : Batch) (r : nat * Key) : Batch :=
  match l_found outcome !! r.2 with
  | Some v => set_items (alter (settle i (Some v)) r.1 (b_items b)) b
  | None =>
      if complete outcome then set_items (alter (settle i None) r.1 (b_items b)) b
      else
        let err := default Truncated (l_error outcome) in
        {| b_items := alter (λ x, set_error err (set_kind i x)) r.1 (b_items b);
           b_truncated := b_truncated b || bool_decide (err = Truncated); groups := groups b |}
  end.

Definition apply_outcome (b : Batch) (o : ListJob * ListOutcome) : Batch :=
  foldl (apply_ref (rk_id (j_kind o.1)) o.2) b (j_refs o.1).

Definition finish (b : Batch) : ObjectStatuses := {| items := b_items b; truncated := b_truncated b |}.

(** ** The LISTs *)

(** What the API server answers to a page: objects and the token to continue with, an
    error with a status, another error, or nothing for fifteen seconds. *)
Inductive Reply : Set :=
  | Page (objects : list DynamicObject) (continue_ : option str)
  | Refused (code : N)
  | Broken
  | TimedOut.

(** [run_list] of a job; [seen] are the pages it got. *)
Record Run : Set := {
  r_job : ListJob; r_found : gmap Key Json; r_token : option str; asked : bool;
  seen : list (list DynamicObject * option str);
}.

Record Ended : Set := { e_job : ListJob; e_outcome : ListOutcome; e_seen : list (list DynamicObject * option str) }.

(** The jobs of a batch under [buffer_unordered]; a request is a resource, a namespace
    and a continue token. *)
Record Pool : Set := {
  budget : nat; queue : list ListJob; running : list Run; ended : list Ended;
  requests : list (ApiResource * option str * option str);
}.

Definition pool_initial (jobs : list ListJob) : Pool :=
  {| budget := MAX_LIST_REQUESTS; queue := jobs; running := []; ended := []; requests := [] |}.

Definition start_run (j : ListJob) : Run :=
  {| r_job := j; r_found := ∅; r_token := None; asked := false; seen := [] |}.

Definition key_of_object (namespaced : bool) (o : DynamicObject) : Key :=
  (if namespaced then default [] (m_namespace (metadata o)) else [], default [] (m_name (metadata o))).

Definition classify (code : N) : StatusError :=
  if ((code =? 403) || (code =? 401))%N then Forbidden else Failed.

Section Lists.
(** The row projection of a kind. *)
Context (project_row : ResolvedKind → DynamicObject → option Json).

Definition list_object (j : ListJob) (out : gmap Key Json) (o : DynamicObject) : gmap Key Json :=
  let k := key_of_object (rk_namespaced (j_kind j)) o in
  if keys_contains k.1 k.2 (wanted j) then
    match project_row (j_kind j) o with Some row => <[k := row]> out | None => out end
  else out.

Definition end_run (r : Run) (out : gmap Key Json) (complete : bool) (e : option StatusError)
    (pages : list (list DynamicObject * option str)) : Ended :=
  {| e_job := r_job r; e_outcome := {| l_found := out; complete := complete; l_error := e |}; e_seen := pages |}.

(** From a page to the next request, or to the end of the run. *)
Definition receive (r : Run) (reply : Reply) : Run + Ended :=
  match reply with
  | Page objs cont =>
      let out := foldl (list_object (r_job r)) (r_found r) objs in
      let token := match cont with Some [] => None | _ => cont end in
      let pages := seen r ++ [(objs, token)] in
      if bool_decide (token = None) || (size out =? len (wanted (r_job r)))%nat
      then inr (end_run r out true None pages)
      else inl {| r_job := r_job r; r_found := out; r_token := token; asked := false; seen := pages |}
  | Refused code => inr (end_run r (r_found r) false (Some (classify code)) (seen r))
  | Broken => inr (end_run r (r_found r) false (Some Failed) (seen r))
  | TimedOut => inr (end_run r (r_found r) false (Some Timeout) (seen r))
  end.

Inductive Act : Set := Start | Take (n : nat) | Answer (n : nat) (reply : Reply).

Definition put_run (n : nat) (x : Run + Ended) (p : Pool) : Pool :=
  match x with
  | inl r =>
      {| budget := budget p; queue := queue p; running := <[n := r]> (running p); ended := ended p;
         requests := requests p |}
  | inr e =>
      {| budget := budget p; queue := queue p; running := delete n (running p); ended := ended p ++ [e];
         requests := requests p |}
  end.

Definition act (a : Act) (p : Pool) : option Pool :=
  match a with
  | Start =>
      match queue p with
      | j :: q =>
          if decide (length (running p) < LIST_CONCURRENCY) then
            Some {| budget := budget p; queue := q; running := running p ++ [start_run j]; ended := ended p;
                    requests := requests p |}
          else None
      | [] => None
      end
  | Take n =>
      r ← running p !! n;
      if asked r then None
      else match budget p with
      | 0 => Some (put_run n (inr (end_run r (r_found r) false None (seen r))) p)
      | S b =>
          Some {| budget := b; queue := queue p;
                  running := <[n := {| r_job := r_job r; r_found := r_found r; r_token := None; asked := true;
                                       seen := seen r |}]> (running p);
                  ended := ended p;
                  requests := requests p ++ [(ar (j_kind (r_job r)), j_namespace (r_job r), r_token r)] |}
      end
  | Answer n reply => r ← running p !! n; if asked r then Some (put_run n (receive r reply) p) else None
  end.

Definition step (p p' : Pool) : Prop := ∃ a, act a p = Some p'.

Definition pool_done (p : Pool) : Prop := queue p = [] ∧ running p = [].
End Lists.

(** ** Kinds *)

(** What discovery knows of a group: the recommended resource of a kind and whether it
    is namespaced. *)
Abbreviation ApiGroup := (str → option (ApiResource * bool)).

Inductive RunReply : Type := Served (group : str → option ApiGroup) | RunFailed | RunTimedOut.

Inductive GroupReply : Type := GroupServed (g : ApiGroup) | NoGroup | GroupFailed | GroupTimedOut.

Abbreviation Discovered := (result (option (ApiResource * bool)) StatusError).

Definition of_group (r : GroupReply) (kind : str) : Discovered :=
  match r with
  | GroupServed g => Ok (g kind)
  | NoGroup => Ok None
  | GroupFailed => Err Discovery
  | GroupTimedOut => Err Timeout
  end.

(** [discover_kinds]: one run for the groups, and one request per group when it fails. *)
Definition discover_kind (run : RunReply) (per_group : str → GroupReply) (gk : Gk) : Discovered :=
  match run with
  | Served d => Ok (g ← d gk.1; g gk.2)
  | RunTimedOut => Err Timeout
  | RunFailed => of_group (per_group gk.1) gk.2
  end.

Definition discover_kinds (run : RunReply) (per_group : str → GroupReply) (gks : list Gk) :
    gmap Gk Discovered :=
  list_to_map ((λ gk, (gk, discover_kind run per_group gk)) <$> gks).

Definition crd_of (a : ApiResource) (namespaced : bool) : DiscoveredCrd :=
  {| crd_group := ar_group a; crd_version := ar_version a; crd_plural := ar_plural a; crd_kind := ar_kind a;
     crd_namespaced := namespaced; printer_columns := [] |}.

Definition builtin_kind (gk : Gk) : option ResolvedKind :=
  k ← lookup_by_gk gk.1 gk.2; from_entry (builtin_entry k).

(** One discovered kind of [resolve_kinds]. *)
Definition resolve_found (columns : PrinterColumnCache) (s : gmap Gk ResolvedKind * Batch)
    (p : Gk * Discovered) : gmap Gk ResolvedKind * Batch :=
  let '(out, b) := s in
  match p.2 with
  | Err e => (out, fail_group p.1 e b)
  | Ok None => (out, miss_group p.1 b)
  | Ok (Some (a, ns)) =>
      match from_entry (from_dynamic_crd (crd_of a ns) columns).1 with
      | Some k => (<[p.1 := k]> out, b)
      | None => (out, miss_group p.1 b)
      end
  end.

Record CachedSlot : Set := { s_view : CacheView; s_init_done : bool }.

Section Resolve.
Context (row_key : str → option (option str * option str)) (from_str : str → option Json).
(** The iteration over hash maps, the cache of printer columns, the replies of discovery. *)
Context (iter : ∀ A : Type, list A → list A) (columns : PrinterColumnCache)
  (run : RunReply) (per_group : str → GroupReply).

Definition resolve_kinds (b : Batch) : gmap Gk ResolvedKind * Batch :=
  let gks := filter (λ gk, wants gk b = true) (map_to_list (groups b)).*1 in
  let out := list_to_map (omap (λ gk, pair gk <$> builtin_kind gk) gks) in
  let unresolved := filter (λ gk, builtin_kind gk = None) gks in
  foldl (resolve_found columns) (out, b)
    (iter _ (map_to_list (discover_kinds run per_group unresolved))).

(** The views [resolve_object_statuses] takes of the running watchers. *)
Definition cache_views (slots : list CachedSlot) (b : Batch) : list CacheView :=
  filter (λ v, from_option (λ k, wants (k_group k, k_kind k) b) false (parse_kind_id (v_kind_id v)) = true)
    (s_view <$> filter (λ s, s_init_done s = true) slots).

Definition view_kinds (views : list CacheView) : list Gk :=
  remove_dups (omap (λ v, k ← parse_kind_id (v_kind_id v); Some (k_group k, k_kind k)) views).

(** [resolve_object_statuses] up to the LISTs. *)
Definition prepare (refs : list ObjectRef) (slots : list CachedSlot) : Batch * list ListJob :=
  let b := batch_new refs in
  let views := cache_views slots b in
  let b := apply_cache row_key from_str (iter _ (view_kinds views)) views b in
  if pending_count b =? 0 then (b, [])
  else let '(kinds, b) := resolve_kinds b in list_jobs (iter _ (map_to_list kinds)) b.

Definition conclude (b : Batch) (p : Pool) : ObjectStatuses :=
  finish (foldl apply_outcome b ((λ e, (e_job e, e_outcome e)) <$> ended p)).
End Resolve.

(** ** Keys *)

(** [k] holds the keys [S]. *)
Definition holds_keys (k : KeySet) (S : gset Key) : Prop :=
  (∀ ns name, keys_contains ns name k = true ↔ (ns, name) ∈ S) ∧ len k = size S.

Lemma empty_keys_spec : holds_keys empty_keys ∅.
Proof. split; [|done]. intros ns name. unfold keys_contains. simpl. rewrite lookup_empty. set_solver. Qed.

Lemma keys_insert_spec (ns name : str) (k : KeySet) (S : gset Key) :
  holds_keys k S → holds_keys (keys_insert ns name k) ({[(ns, name)]} ∪ S).
Proof.
  intros [Hc Hl]. assert (name ∈ default ∅ (by_ns k !! ns) ↔ (ns, name) ∈ S) as Hin.
  { rewrite <- Hc. unfold keys_contains. destruct (by_ns k !! ns); simpl; [by rewrite bool_decide_eq_true|set_solver]. }
  split.
  - intros ns' name'. specialize (Hc ns' name'). unfold keys_contains, keys_insert in *. simpl.
    destruct (decide (ns = ns')) as [<-|Hne].
    + rewrite lookup_insert_eq, bool_decide_eq_true. destruct (by_ns k !! ns) as [s|]; simpl in *;
        [rewrite bool_decide_eq_true in Hc; set_solver|]. assert ((ns, name') ∉ S) by naive_solver. set_solver.
    + rewrite lookup_insert_ne by done. rewrite Hc. set_solver.
  - unfold keys_insert. simpl. case_bool_decide as H; rewrite Hin in H.
    + rewrite Hl. f_equal. set_solver.
    + rewrite size_union, size_singleton by set_solver. lia.
Qed.

Lemma keys_insert_all (refs : list (nat * Key)) (k : KeySet) (S : gset Key) :
  holds_keys k S → holds_keys (foldl (λ w r, keys_insert r.2.1 r.2.2 w) k refs) (list_to_set refs.*2 ∪ S).
Proof.
  revert k S. induction refs as [|[i [ns name]] refs IH]; intros k S Hk; simpl; [by rewrite (left_id_L ∅ (∪))|].
  rewrite (comm_L (∪) {[(ns, name)]}), <- (assoc_L (∪)). by apply IH, keys_insert_spec.
Qed.

(** All of a set of keys is found when the counts agree. *)
Lemma counts_agree {A} (m : gmap Key A) (S : gset Key) (k : Key) :
  (∀ k v, m !! k = Some v → k ∈ S) → size m = size S → k ∈ S → is_Some (m !! k).
Proof.
  intros Hs He Hk. apply elem_of_dom. assert (dom m = S) as ->; [|done].
  apply leibniz_equiv, set_subseteq_size_equiv; [|by rewrite size_dom, He].
  intros k' [v Hv]%elem_of_dom. by eapply Hs.
Qed.

(** ** Rows found *)

Section Index.
Context (row_key : str → option (option str * option str)) (from_str : str → option Json).
Context (namespaced : bool) (wanted : KeySet) (S : gset Key) (Hw : holds_keys wanted S).

Lemma index_rows_from_spec (rows : list str) (out : gmap Key Json) :
  (∀ k v, out !! k = Some v → k ∈ S) →
  let out' := index_rows_from row_key from_str out rows wanted namespaced in
  (∀ k v, out' !! k = Some v → k ∈ S ∧ (out !! k = Some v
     ∨ ∃ t, t ∈ rows ∧ key_of_row row_key namespaced t = Some k ∧ from_str t = Some v))
  ∧ (∀ k, k ∈ S → out' !! k = None → out !! k = None
     ∧ ∀ t, t ∈ rows → key_of_row row_key namespaced t = Some k → from_str t = None).
Proof.
  revert out. induction rows as [|row rows IH]; intros out Hd; simpl.
  { split; [by eauto|]. intros k _ Hk. split; [done|]. set_solver. }
  destruct (key_of_row row_key namespaced row) as [k0|] eqn:Ek.
  2:{ destruct (IH out Hd) as [H1 H2]. split; [set_solver|]. intros k Hk Hn. destruct (H2 k Hk Hn). split; set_solver. }
  destruct (keys_contains k0.1 k0.2 wanted) eqn:Ec.
  2:{ destruct (IH out Hd) as [H1 H2]. split; [set_solver|]. intros k Hk Hn. destruct (H2 k Hk Hn) as [? Hr].
      split; [done|]. intros t [->|Ht]%elem_of_cons E; [|by apply Hr]. rewrite Ek in E. injection E as <-.
      exfalso. destruct k0 as [ns name]. apply (proj1 Hw) in Hk. simpl in *. congruence. }
  assert (k0 ∈ S) as Hk0 by (destruct k0; by apply (proj1 Hw)).
  set (out1 := match from_str row with Some v => <[k0:=v]> out | None => out end).
  assert (∀ k v, out1 !! k = Some v → k ∈ S ∧ (out !! k = Some v ∨ k = k0 ∧ from_str row = Some v)) as Hd1.
  { intros k v. unfold out1. destruct (from_str row) as [w|]; [|by eauto].
    intros [[<- <-]|[? ?]]%lookup_insert_Some; by eauto. }
  assert (∀ k, out1 !! k = None → out !! k = None ∧ (k = k0 → from_str row = None)) as Hn1.
  { intros k. unfold out1. destruct (from_str row) as [w|]; [|done]. intros [? ?]%lookup_insert_None. naive_solver. }
  destruct (Nat.eqb_spec (size out1) (len wanted)) as [He|_].
  - split.
    + intros k v Hv. destruct (Hd1 k v Hv) as [? [?|[-> ?]]]; split; [done|by left|done|]. right. exists row. set_solver.
    + intros k Hk Hn. rewrite (proj2 Hw) in He. exfalso.
      destruct (counts_agree out1 S k (λ k v H, proj1 (Hd1 k v H)) He Hk) as [v Hv]. congruence.
  - destruct (IH out1 (λ k v H, proj1 (Hd1 k v H))) as [H1 H2]. split.
    + intros k v Hv. destruct (H1 k v Hv) as [? [Ho|(t & ? & ? & ?)]]; split; [done| |done|right; set_solver].
      destruct (Hd1 k v Ho) as [_ [?|[-> ?]]]; [by left|]. right. exists row. set_solver.
    + intros k Hk Hn. destruct (H2 k Hk Hn) as [Ho Hr]. destruct (Hn1 k Ho). split; [done|].
      intros t [->|Ht]%elem_of_cons E; [|by apply Hr]. simplify_eq. auto.
Qed.
End Index.

(** ** Batches *)

Definition gk_of (r : ObjectRef) : Gk := (ref_group r, ref_kind r).

Lemma fst_fmap_pair {A B} (f : A → B) (l : list A) : ((λ x, (x, f x)) <$> l).*1 = l.
Proof. induction l as [|x l IH]; [done|]. by rewrite !fmap_cons, IH. Qed.

(** The indices in the groups. *)
Definition listed (g : gmap Gk (list nat)) : list nat := map_to_list g ≫= snd.

Lemma listed_delete (g : gmap Gk (list nat)) (gk : Gk) (l : list nat) :
  g !! gk = Some l → listed g ≡ₚ l ++ listed (delete gk g).
Proof. intros H. unfold listed. by rewrite <- (map_to_list_delete g gk l H). Qed.

Lemma listed_insert (g : gmap Gk (list nat)) (gk : Gk) (l : list nat) :
  listed (<[gk := l]> g) ≡ₚ l ++ listed (delete gk g).
Proof. rewrite (listed_delete _ gk l) by apply lookup_insert_eq. by rewrite delete_insert_eq. Qed.

Lemma listed_elem (g : gmap Gk (list nat)) (i : nat) : i ∈ listed g ↔ ∃ gk l, g !! gk = Some l ∧ i ∈ l.
Proof.
  unfold listed. rewrite list_elem_of_bind. split.
  - intros ([gk l] & ? & ?%elem_of_map_to_list). by exists gk, l.
  - intros (gk & l & ?%elem_of_map_to_list & ?). by exists (gk, l).
Qed.

(** What a row of a view, or its absence, says of a key. *)
Definition row_shows (row_key : str → option (option str * option str)) (from_str : str → option Json)
    (v : CacheView) (ns : bool) (key : Key) (row : option Json) : Prop :=
  match row with
  | Some j => ∃ t, t ∈ rows v ∧ key_of_row row_key ns t = Some key ∧ from_str t = Some j
  | None => ∀ t, t ∈ rows v → key_of_row row_key ns t = Some key → from_str t = None
  end.

Lemma index_rows_shows (row_key : str → option (option str * option str)) (from_str : str → option Json) (v : CacheView) (wanted : KeySet) (ns : bool) (keys : gset Key) (key : Key) :
  holds_keys wanted keys → key ∈ keys →
  row_shows row_key from_str v ns key (index_rows row_key from_str (rows v) wanted ns !! key).
Proof.
  intros Hw Hk. unfold index_rows. destruct (index_rows_from_spec row_key from_str ns wanted keys Hw (rows v) ∅) as [H1 H2];
    [intros ?? H; by rewrite lookup_empty in H|]. destruct (_ !! key) as [j|] eqn:E; simpl.
  - destruct (H1 _ _ E) as [_ [H|?]]; [by rewrite lookup_empty in H|done].
  - by apply H2.
Qed.

Lemma position_Some {A} (p : A → bool) (l : list A) (n : nat) :
  position p l = Some n → ∃ x, l !! n = Some x ∧ p x = true.
Proof.
  revert n. induction l as [|x l IH]; intros n; simpl; [done|]. destruct (p x) eqn:E; [intros [= <-]; by eauto|].
  intros (m & Hm & ->)%fmap_Some. by apply IH.
Qed.

(** A kind that stands for [gk]: of the registry, or as discovery reports it. *)
Definition kind_of (columns : PrinterColumnCache) (run : RunReply) (per_group : str → GroupReply)
    (gk : Gk) (kind : ResolvedKind) : Prop :=
  builtin_kind gk = Some kind
  ∨ builtin_kind gk = None ∧ ∃ a ns, discover_kind run per_group gk = Ok (Some (a, ns))
      ∧ from_entry (from_dynamic_crd (crd_of a ns) columns).1 = Some kind.

Lemma from_dynamic_crd_listed (crd : DiscoveredCrd) (columns : PrinterColumnCache) :
  is_Some (from_entry (from_dynamic_crd crd columns).1).
Proof.
  unfold from_dynamic_crd. destruct (well_known_by_gk _ _); [by eexists|].
  destruct (if bool_decide (printer_columns crd = []) then _ else _). by eexists.
Qed.

(** What the pages of a job, or their end, say of a key. *)
Definition page_shows (project_row : ResolvedKind → DynamicObject → option Json) (e : Ended) (key : Key)
    (row : option Json) : Prop :=
  let kind := j_kind (e_job e) in
  match row with
  | Some v => ∃ p o, p ∈ e_seen e ∧ o ∈ p.1 ∧ key_of_object (rk_namespaced kind) o = key ∧ project_row kind o = Some v
  | None =>
      (∃ objs, last (e_seen e) = Some (objs, None))
      ∧ ∀ p o, p ∈ e_seen e → o ∈ p.1 → key_of_object (rk_namespaced kind) o = key → project_row kind o = None
  end.

(** The outcome of a job for the keys it asks for. *)
Definition ended_ok (project_row : ResolvedKind → DynamicObject → option Json) (e : Ended) : Prop :=
  ∀ key, key ∈ (j_refs (e_job e)).*2 →
    match l_found (e_outcome e) !! key with
    | Some v => page_shows project_row e key (Some v)
    | None => complete (e_outcome e) = true → page_shows project_row e key None
    end.

Definition job_keys (j : ListJob) : gset Key := list_to_set (j_refs j).*2.

Lemma mk_job_keys kind keyed ns : holds_keys (wanted (mk_job kind keyed ns)) (job_keys (mk_job kind keyed ns)).
Proof.
  pose proof (keys_insert_all (filter (in_list_scope ns) keyed) empty_keys ∅ empty_keys_spec) as Hk.
  by rewrite (right_id_L ∅ (∪)) in Hk.
Qed.

(** The lists a plan makes take every ref once. *)
Lemma filter_by_namespace (nss : list str) (keyed : list (nat * Key)) :
  NoDup nss → (∀ r, r ∈ keyed → r.2.1 ∈ nss) →
  (nss ≫= λ ns, (filter (in_list_scope (Some ns)) keyed)) ≡ₚ keyed.
Proof.
  revert keyed. induction nss as [|ns nss IH]; intros keyed Hnd Hin; simpl.
  { destruct keyed as [|r keyed]; [done|]. exfalso. apply (not_elem_of_nil (r.2.1)), Hin. by left. }
  apply NoDup_cons in Hnd as [Hns Hnd].
  trans (filter (in_list_scope (Some ns)) keyed ++ filter (λ r, ¬ in_list_scope (Some ns) r) keyed);
    [|apply filter_app_complement].
  apply Permutation_app_head.
  etrans; [|apply (IH (filter (λ r, ¬ in_list_scope (Some ns) r) keyed)); [done|]].
  - apply Permutation_refl', Forall_bind_ext, Forall_forall. intros n Hn. rewrite list_filter_filter_l; [done|].
    intros r. simpl. intros Hr1%Is_true_true%str_eqb_eq Hr2%Is_true_true%str_eqb_eq. congruence.
  - intros r [Hr Hk]%list_elem_of_filter. destruct (elem_of_cons nss r.2.1 ns) as [[E|?] _]; [by apply Hin| |done].
    destruct Hr. simpl. rewrite E. by apply Is_true_true, str_eqb_eq.
Qed.

Section Batches.
(** The refs of a batch and what justifies an answer. *)
Context (refs : list ObjectRef) (J : nat → ObjectRef → ObjectStatus → Prop).

(** The items at [L] are as they came, the others are answered. *)
Record items_ok (L : list nat) (l : list ObjectStatus) : Prop := {
  ok_NoDup : NoDup L;
  ok_length : length l = length refs;
  ok_bound : ∀ i, i ∈ L → i < length refs;
  ok_pending : ∀ i r, i ∈ L → refs !! i = Some r → l !! i = Some (pending r);
  ok_answered : ∀ i r, i ∉ L → refs !! i = Some r → ∃ it, l !! i = Some it ∧ J i r it;
}.

Lemma items_perm (L L' : list nat) (l : list ObjectStatus) : L ≡ₚ L' → items_ok L l → items_ok L' l.
Proof. intros HL []. split; try done; intros *; rewrite <- ?HL; auto. Qed.

Lemma items_pending (L : list nat) (l : list ObjectStatus) (i : nat) :
  items_ok L l → i ∈ L → ∃ r, refs !! i = Some r ∧ l !! i = Some (pending r).
Proof. intros [] Hi. destruct (lookup_lt_is_Some_2 refs i (ok_bound0 i Hi)) as [r Hr]. eauto. Qed.

Lemma items_settle (i : nat) (L : list nat) (l : list ObjectStatus) (f : ObjectStatus → ObjectStatus) :
  items_ok (i :: L) l → (∀ r, refs !! i = Some r → J i r (f (pending r))) → items_ok L (alter f i l).
Proof.
  intros [Hnd Hlen Hb Hp Ha] Hf. apply NoDup_cons in Hnd as [Hi Hnd]. split; [done|..].
  - by rewrite length_alter.
  - intros j Hj. apply Hb. by right.
  - intros j r Hj Hr. rewrite list_lookup_alter_ne by (intros ->; done). apply Hp; [by right|done].
  - intros j r Hj Hr. destruct (decide (i = j)) as [<-|Hne].
    + exists (f (pending r)). rewrite list_lookup_alter_eq, (Hp i r) by (done || by left). by split; [|apply Hf].
    + rewrite list_lookup_alter_ne by done. apply Ha; [set_solver|done].
Qed.

Lemma items_settle_all {A} (f : A → ObjectStatus → ObjectStatus) (xs : list (nat * A)) (L : list nat) l :
  items_ok (xs.*1 ++ L) l → (∀ i x r, (i, x) ∈ xs → refs !! i = Some r → J i r (f x (pending r))) →
  items_ok L (foldl (λ l p, alter (f p.2) p.1 l) l xs).
Proof.
  revert l. induction xs as [|[i x] xs IH]; intros l Hl Hf; simpl in *; [done|].
  apply IH; [|intros; apply Hf; [by right|done]]. apply items_settle; [done|]. intros r Hr. apply Hf; [by left|done].
Qed.

(** Groups hold the refs of their kind that are not answered; [R] are others. *)
Definition batch_ok (R : list nat) (b : Batch) : Prop :=
  items_ok (listed (groups b) ++ R) (b_items b)
  ∧ ∀ gk l i r, groups b !! gk = Some l → i ∈ l → refs !! i = Some r → gk_of r = gk.

Lemma batch_lookup (R : list nat) (b : Batch) gk l :
  batch_ok R b → groups b !! gk = Some l → items_ok (l ++ listed (delete gk (groups b)) ++ R) (b_items b).
Proof. intros [Hi _] Hg. eapply items_perm, Hi. by rewrite (listed_delete _ _ _ Hg), <- (assoc_L (++)). Qed.

Lemma batch_replace (R R' : list nat) (b : Batch) gk (kept : option (list nat)) (l : list nat) its :
  batch_ok R b → groups b !! gk = Some l → default [] kept ⊆ l →
  items_ok (default [] kept ++ listed (delete gk (groups b)) ++ R') its →
  batch_ok R' {| b_items := its; b_truncated := b_truncated b;
                 groups := match kept with Some k => <[gk := k]> (groups b) | None => delete gk (groups b) end |}.
Proof.
  intros [Hi Hg] Hl Hk Hits. split; simpl.
  - eapply items_perm, Hits. destruct kept as [k|]; simpl; [|done]. by rewrite listed_insert, <- (assoc_L (++)).
  - intros gk' l' i r. destruct kept as [k|]; simpl in *.
    + intros [[<- <-]|[? ?]]%lookup_insert_Some; [|by eauto]. intros Hin. eapply Hg; [done|]. by apply Hk.
    + intros [? ?]%lookup_delete_Some. by eauto.
Qed.

(** A group ends. *)
Lemma end_group_ok (R : list nat) (f : ObjectStatus → ObjectStatus) gk (b : Batch) :
  batch_ok R b → (∀ i r, refs !! i = Some r → gk_of r = gk → J i r (f (pending r))) →
  batch_ok R (end_group f gk b) ∧ groups (end_group f gk b) = delete gk (groups b).
Proof.
  intros Hb Hf. split; [|done]. unfold end_group. destruct (groups b !! gk) as [l|] eqn:Hg; simpl.
  - apply (batch_replace R R b gk None l); [done|done|simpl; set_solver|]. simpl.
    pose proof (items_settle_all (λ _ : (), f) ((λ i, (i, ())) <$> l) (listed (delete gk (groups b)) ++ R) (b_items b)) as H.
    rewrite fst_fmap_pair, foldl_fmap in H. apply H; [by apply batch_lookup|].
    intros i [] r (? & [= <-] & Hi)%list_elem_of_fmap Hr. apply Hf; [done|]. by eapply (proj2 Hb).
  - destruct Hb as [Hi Hgk]. split; simpl; rewrite delete_id by done; [done|]. by intros; eapply Hgk.
Qed.

Lemma group_items_spec (i : nat) (rs : list ObjectRef) (g : gmap Gk (list nat)) l g' :
  group_items i (pending <$> rs) g = (l, g') →
  length l = length rs
  ∧ (∀ j r, rs !! j = Some r →
       l !! j = Some ((if decide (MAX_REFS ≤ i + j) then set_error Truncated else λ x, x) (pending r)))
  ∧ listed g' ≡ₚ filter (λ j, j < MAX_REFS) (seq i (length rs)) ++ listed g
  ∧ (∀ gk x k, g' !! gk = Some k → x ∈ k →
       (∃ k0, g !! gk = Some k0 ∧ x ∈ k0) ∨ ∃ r, i ≤ x ∧ rs !! (x - i) = Some r ∧ gk_of r = gk).
Proof.
  revert i g l g'. induction rs as [|r rs IH]; intros i g l g'.
  { simpl. intros [= <- <-]. split_and!; [done|done|done|]. by eauto. }
  rewrite fmap_cons. cbn [group_items length seq o_group o_kind pending].
  assert (∀ gk x r0, (S i ≤ x ∧ rs !! (x - S i) = Some r0 ∧ gk_of r0 = gk) →
            i ≤ x ∧ (r :: rs) !! (x - i) = Some r0 ∧ gk_of r0 = gk) as Hshift.
  { intros gk x r0 (? & Hx & ?). split_and!; [lia| |done]. by replace (x - i) with (S (x - S i)) by lia. }
  case_decide as Hi; rewrite filter_cons.
  - destruct (group_items (S i) (pending <$> rs) g) as [l0 g0] eqn:E. intros [= <- <-].
    apply IH in E as (Hl & Hit & Hlist & Hg). rewrite decide_False by lia. split_and!; simpl; [by rewrite Hl| |done|].
    + intros [|j] r0 Hr; simpl in *; [simplify_eq; by rewrite Nat.add_0_r, decide_True|].
      rewrite (Hit j r0 Hr). by rewrite Nat.add_succ_r.
    + intros gk x k Hk Hx. destruct (Hg gk x k Hk Hx) as [?|(r0 & Hr0)]; [by left|]. right. exists r0.
      exact (Hshift gk x r0 Hr0).
  - set (gk0 := (ref_group r, ref_kind r)). destruct (group_items (S i) (pending <$> rs) _) as [l0 g0] eqn:E.
    intros [= <- <-]. apply IH in E as (Hl & Hit & Hlist & Hg). rewrite decide_True by lia.
    split_and!; simpl; [by rewrite Hl| | |].
    + intros [|j] r0 Hr; simpl in *; [simplify_eq; by rewrite Nat.add_0_r, decide_False|].
      rewrite (Hit j r0 Hr). by rewrite Nat.add_succ_r.
    + rewrite Hlist, listed_insert. destruct (g !! gk0) as [k0|] eqn:Hk0; simpl.
      * rewrite (listed_delete g gk0 k0 Hk0). solve_Permutation.
      * rewrite delete_id by done. solve_Permutation.
    + intros gk x k Hk Hx. destruct (Hg gk x k Hk Hx) as [(k0 & Hk0 & Hin)|(r0 & Hr0)].
      2:{ right. exists r0. exact (Hshift gk x r0 Hr0). }
      apply lookup_insert_Some in Hk0 as [[<- <-]|[? ?]]; [|by eauto].
      apply elem_of_app in Hin as [Hin|Hin]; [|apply list_elem_of_singleton in Hin as ->].
      * left. destruct (g !! gk0) as [k1|]; [by exists k1|]. by apply elem_of_nil in Hin.
      * right. exists r. by rewrite Nat.sub_diag.
Qed.

Lemma batch_new_ok :
  (∀ i r, refs !! i = Some r → MAX_REFS ≤ i → J i r (set_error Truncated (pending r))) →
  batch_ok [] (batch_new refs).
Proof.
  intros HJ. unfold batch_new. destruct (group_items 0 (pending <$> refs) ∅) as [l g] eqn:E.
  apply group_items_spec in E as (Hl & Hit & Hlist & Hg). change (listed ∅) with (@nil nat) in Hlist. rewrite (right_id_L [] (++)) in Hlist.
  assert (∀ i, i ∈ listed g ↔ i < MAX_REFS ∧ i < length refs) as Hin.
  { intros i. rewrite Hlist, list_elem_of_filter, elem_of_seq. lia. }
  split; simpl; [rewrite (right_id_L [] (++)); split|].
  - rewrite Hlist. apply NoDup_filter, NoDup_seq.
  - done.
  - intros i [_ ?]%Hin. done.
  - intros i r [? _]%Hin Hr. by rewrite (Hit i r Hr), decide_False by lia.
  - intros i r Hi Hr. rewrite Hin in Hi. apply lookup_lt_Some in Hr as Hlt.
    exists (set_error Truncated (pending r)). rewrite (Hit i r Hr), decide_True by lia.
    split; [done|]. apply HJ; [done|lia].
  - intros gk k i r Hk Hi Hr. destruct (Hg gk i k Hk Hi) as [(k0 & Hk0 & _)|(r0 & _ & Hr0 & <-)]; [by rewrite lookup_empty in Hk0|].
    rewrite Nat.sub_0_r in Hr0. by simplify_eq.
Qed.

Section Answers.
Context (row_key : str → option (option str * option str)) (from_str : str → option Json) (views : list CacheView).
Hypothesis (J_no_namespace : ∀ i r, refs !! i = Some r → ref_key (pending r) true = None →
  J i r (set_error NamespaceRequired (pending r))).
Hypothesis (J_cached : ∀ i r v w ns key row, refs !! i = Some r →
  head (views_of (gk_of r) views) = Some (w, ns) → v ∈ (views_of (gk_of r) views).*1 →
  ref_key (pending r) ns = Some key → covers (scope v) ns key.1 = true → row_shows row_key from_str v ns key row →
  J i r (settle (v_kind_id v) row (pending r))).

Lemma no_namespace_ok i r ns :
  refs !! i = Some r → ref_key (pending r) ns = None → J i r (set_error NamespaceRequired (pending r)).
Proof. destruct ns; [|done]. apply J_no_namespace. Qed.

(** The indices that wait for a view. *)
Definition assigned_ids (a : Assigned) : list nat := a ≫= λ x, x.2.*1.

Definition slot_ok (gk : Gk) (ns : bool) (p : CacheView * bool) (x : KeySet * list (nat * Key)) : Prop :=
  holds_keys x.1 (list_to_set x.2.*2)
  ∧ ∀ i key r, (i, key) ∈ x.2 → refs !! i = Some r →
      gk_of r = gk ∧ ref_key (pending r) ns = Some key ∧ covers (scope p.1) ns key.1 = true.

Lemma assign_ok gk ns (slots : list (CacheView * bool)) (a : Assigned) s i key r p :
  Forall2 (slot_ok gk ns) slots a → slots !! s = Some p → refs !! i = Some r → gk_of r = gk →
  ref_key (pending r) ns = Some key → covers (scope p.1) ns key.1 = true →
  Forall2 (slot_ok gk ns) slots (assign s i key a) ∧ assigned_ids (assign s i key a) ≡ₚ i :: assigned_ids a.
Proof.
  intros Ha Hp Hr Hgk Hk Hc. unfold assign, assigned_ids. revert s Hp.
  induction Ha as [|q x slots a [Hw Hx] Ha IH]; intros [|s] Hp; [done..| |]; simpl in *.
  - injection Hp as ->. split.
    + constructor; [|done]. split; simpl.
      * rewrite fmap_app, list_to_set_app_L. simpl. rewrite (right_id_L ∅ (∪)), (comm_L (∪)). destruct key. by apply keys_insert_spec.
      * intros i' key' r' Hin Hr'. apply elem_of_app in Hin as [Hin|Hin]; [by apply (Hx i')|].
        apply list_elem_of_singleton in Hin. by simplify_eq.
    + rewrite fmap_app. simpl. solve_Permutation.
  - destruct (IH s Hp) as [H1 H2]. split; [by constructor|]. rewrite H2. solve_Permutation.
Qed.

Lemma retain_ok gk ns (slots : list (CacheView * bool)) idxs l a kept l' a' R :
  retain_uncovered slots ns idxs l a = (kept, l', a') → Forall2 (slot_ok gk ns) slots a →
  items_ok (idxs ++ assigned_ids a ++ R) l → (∀ i r, i ∈ idxs → refs !! i = Some r → gk_of r = gk) →
  items_ok (kept ++ assigned_ids a' ++ R) l' ∧ Forall2 (slot_ok gk ns) slots a' ∧ kept ⊆ idxs.
Proof.
  revert l a kept l' a' R. induction idxs as [|i idxs IH]; intros l a kept l' a' R; simpl.
  { intros [= <- <- <-] Ha Hl _. by split_and!. }
  intros E Ha Hl Hgk. destruct (items_pending _ _ i Hl) as (r & Hr & Hli); [by left|].
  assert (∀ j r, j ∈ idxs → refs !! j = Some r → gk_of r = gk) as Hgk' by (intros; eapply Hgk; [by right|done]).
  rewrite Hli in E. simpl in E. destruct (ref_key (pending r) ns) as [key|] eqn:Hk.
  - destruct (position _ slots) as [s|] eqn:Hs.
    + apply position_Some in Hs as (p & Hp & Hc).
      destruct (assign_ok gk ns slots a s i key r p Ha Hp Hr) as [Ha' Hids]; [eapply Hgk; [by left|done]|done|done|].
      destruct (IH _ _ _ _ _ R E Ha') as (H1 & H2 & H3); [|done|split_and!; [done|done|set_solver]].
      eapply items_perm, Hl. rewrite Hids. solve_Permutation.
    + destruct (retain_uncovered slots ns idxs l a) as [[kept0 l0] a0] eqn:E0. injection E as <- <- <-.
      destruct (IH _ _ _ _ _ (i :: R) E0 Ha) as (H1 & H2 & H3); [eapply items_perm, Hl; solve_Permutation|done|].
      split_and!; [eapply items_perm, H1; solve_Permutation|done|set_solver].
  - destruct (IH _ _ _ _ _ R E Ha) as (H1 & H2 & H3); [|done|split_and!; [done|done|set_solver]].
    apply items_settle; [done|]. intros r' Hr'. simplify_eq. by eapply no_namespace_ok.
Qed.

Lemma answer_ok gk ns w (slots : list (CacheView * bool)) a l R :
  Forall2 (slot_ok gk ns) slots a → head (views_of gk views) = Some (w, ns) → slots ⊆ views_of gk views →
  items_ok (assigned_ids a ++ R) l → items_ok R (foldl (answer_slot row_key from_str ns) l (zip slots a)).
Proof.
  intros Ha Hh. revert l. induction Ha as [|[v b] [wanted xs] slots a [Hw Hx] Ha IH]; intros l Hs Hl; simpl in *; [done|].
  apply IH; [set_solver|]. unfold assigned_ids in Hl. simpl in Hl. rewrite <- (assoc_L (++)) in Hl.
  assert (items_ok (assigned_ids a ++ R) (settle_refs (v_kind_id v) (index_rows row_key from_str (rows v) wanted ns) xs l)) as H.
  { apply (items_settle_all (λ k : Key, settle (v_kind_id v) (index_rows row_key from_str (rows v) wanted ns !! k))); [done|].
    intros i key r Hin Hr. destruct (Hx i key r Hin Hr) as (<- & Hk & Hc). eapply J_cached; try done.
    - apply list_elem_of_fmap. exists (v, b). set_solver.
    - eapply index_rows_shows; [done|]. apply elem_of_list_to_set, list_elem_of_fmap. by exists (i, key). }
  destruct xs; [|done]. simpl in *. exact H.
Qed.

Lemma apply_cache_group_ok (R : list nat) (b : Batch) (gk : Gk) :
  batch_ok R b → batch_ok R (apply_cache_group row_key from_str views b gk).
Proof.
  intros Hb. unfold apply_cache_group. destruct (groups b !! gk) as [idxs|] eqn:Hg; [|done].
  destruct (views_of gk views) as [|[v ns] slots'] eqn:Hv; [done|]. set (slots := (v, ns) :: slots') in *.
  destruct (retain_uncovered slots ns idxs _ _) as [[kept l] a] eqn:E.
  assert (assigned_ids ((λ _, (empty_keys, [])) <$> slots) = []) as Hids.
  { unfold assigned_ids. clear. induction slots as [|p l IH]; [done|]. by simpl. }
  eapply (retain_ok gk ns _ _ _ _ _ _ _ (listed (delete gk (groups b)) ++ R)) in E as (Hi & Ha & Hsub).
  - eapply (batch_replace R R b gk (Some kept) idxs); [done|done|done|].
    change (default [] (Some kept)) with kept. eapply answer_ok; [exact Ha|by rewrite Hv|by rewrite Hv|]. eapply items_perm, Hi. solve_Permutation.
  - clear. induction slots; constructor; [|done]. split; [apply empty_keys_spec|]. intros ??? H. by apply elem_of_nil in H.
  - rewrite Hids. by apply batch_lookup.
  - intros i r Hi Hr. by eapply (proj2 Hb).
Qed.

Lemma apply_cache_ok (R : list nat) (order : list Gk) (b : Batch) :
  batch_ok R b → batch_ok R (apply_cache row_key from_str order views b).
Proof.
  unfold apply_cache. revert b. induction order as [|gk order IH]; intros b Hb; simpl; [done|].
  by apply IH, apply_cache_group_ok.
Qed.

(** ** Kinds and jobs *)

Context (iter : ∀ A : Type, list A → list A) (columns : PrinterColumnCache) (run : RunReply)
  (per_group : str → GroupReply).
Hypothesis (iter_perm : ∀ A (l : list A), iter A l ≡ₚ l).
Hypothesis (J_missing : ∀ i r, refs !! i = Some r → builtin_kind (gk_of r) = None →
  discover_kind run per_group (gk_of r) = Ok None → J i r (set_missing (pending r))).
Hypothesis (J_undiscovered : ∀ i r e, refs !! i = Some r → builtin_kind (gk_of r) = None →
  discover_kind run per_group (gk_of r) = Err e → J i r (set_error e (pending r))).

#[local] Abbreviation kind_ok := (kind_of columns run per_group).

Lemma resolve_found_ok (xs : list (Gk * Discovered)) (R : list nat) out (b : Batch) :
  (∀ gk d, (gk, d) ∈ xs → builtin_kind gk = None ∧ d = discover_kind run per_group gk) →
  batch_ok R b → (∀ gk k, out !! gk = Some k → kind_ok gk k) →
  (∀ gk l, groups b !! gk = Some l → l ≠ [] → is_Some (out !! gk) ∨ gk ∈ xs.*1) →
  let '(out', b') := foldl (resolve_found columns) (out, b) xs in
  batch_ok R b' ∧ (∀ gk k, out' !! gk = Some k → kind_ok gk k)
  ∧ (∀ gk l, groups b' !! gk = Some l → l ≠ [] → is_Some (out' !! gk)).
Proof.
  revert out b. induction xs as [|[gk d] xs IH]; intros out b Hx Hb Hk Hg.
  { simpl. split_and!; [done|done|]. intros gk l Hl Hne. by destruct (Hg gk l Hl Hne) as [?|?%elem_of_nil]. }
  destruct (Hx gk d) as [Hn Hd]; [by left|]. cbn [foldl].
  assert (∀ b', batch_ok R b' → groups b' = delete gk (groups b) →
    let '(out', b') := foldl (resolve_found columns) (out, b') xs in
    batch_ok R b' ∧ (∀ gk k, out' !! gk = Some k → kind_ok gk k)
    ∧ (∀ gk l, groups b' !! gk = Some l → l ≠ [] → is_Some (out' !! gk))) as Hdel.
  { intros b' Hb' Hdel. apply IH; [intros; apply Hx; by right|done|done|]. rewrite Hdel.
    intros gk' l [Hne Hl]%lookup_delete_Some Hl0. destruct (Hg gk' l Hl Hl0) as [?|Hin]; [by left|right].
    rewrite fmap_cons in Hin. apply elem_of_cons in Hin as [E|?]; [by destruct Hne|done]. }
  unfold resolve_found at 2. simpl. destruct d as [[[a ns]|]|e].
  - destruct (from_entry (from_dynamic_crd (crd_of a ns) columns).1) as [k|] eqn:Hf;
      [|exfalso; destruct (from_dynamic_crd_listed (crd_of a ns) columns) as [? ?]; congruence].
    apply IH; [intros; apply Hx; by right|done| |].
    + intros gk' k' [[<- <-]|[? ?]]%lookup_insert_Some; [|by eauto]. right. split; [done|]. by exists a, ns.
    + intros gk' l Hl Hl0. destruct (decide (gk = gk')) as [<-|Hne]; [left; rewrite lookup_insert_eq; by eexists|].
      rewrite lookup_insert_ne by done. destruct (Hg gk' l Hl Hl0) as [?|Hin]; [by left|right]. set_solver.
  - destruct (end_group_ok R set_missing gk b Hb) as [H1 H2]; [|by apply Hdel].
    intros i r Hr <-. by apply J_missing.
  - destruct (end_group_ok R (set_error e) gk b Hb) as [H1 H2]; [|by apply Hdel].
    intros i r Hr <-. by apply J_undiscovered.
Qed.

Lemma wants_spec gk (b : Batch) : wants gk b = true ↔ ∃ l, groups b !! gk = Some l ∧ l ≠ [].
Proof. unfold wants. destruct (groups b !! gk) as [[|]|]; naive_solver. Qed.

Lemma resolve_kinds_ok (R : list nat) (b : Batch) kinds b' :
  batch_ok R b → resolve_kinds iter columns run per_group b = (kinds, b') →
  batch_ok R b' ∧ (∀ gk k, kinds !! gk = Some k → kind_ok gk k)
  ∧ (∀ gk l, groups b' !! gk = Some l → l ≠ [] → is_Some (kinds !! gk)).
Proof.
  intros Hb. unfold resolve_kinds. set (gks := filter _ (map_to_list (groups b)).*1).
  set (out := list_to_map _). set (unresolved := filter _ gks).
  assert (∀ gk k, out !! gk = Some k → gk ∈ gks ∧ builtin_kind gk = Some k) as Hout.
  { intros gk k H%elem_of_list_to_map_2. apply list_elem_of_omap in H as (gk' & ? & (k' & ? & [= <- <-])%fmap_Some). done. }
  assert (∀ gk, gk ∈ gks → ∀ k, builtin_kind gk = Some k → is_Some (out !! gk)) as Hin.
  { intros gk Hgk k Hk. apply not_eq_None_Some. intros Hn. apply not_elem_of_list_to_map_2 in Hn. apply Hn.
    apply list_elem_of_fmap. exists (gk, k). split; [done|]. apply list_elem_of_omap. exists gk. by rewrite Hk. }
  intros E. pose proof (resolve_found_ok (iter _ (map_to_list (discover_kinds run per_group unresolved))) R out b) as H.
  rewrite E in H. apply H; [|done|intros gk k [_ ?]%Hout; by left|].
  - intros gk d. rewrite iter_perm, elem_of_map_to_list. unfold discover_kinds.
    intros Hd%elem_of_list_to_map_2. apply list_elem_of_fmap in Hd as (gk' & [= <- <-] & Hd).
    by apply list_elem_of_filter in Hd as [? _].
  - intros gk l Hl Hne. assert (gk ∈ gks) as Hgk.
    { apply list_elem_of_filter. split; [apply wants_spec; by eauto|]. apply list_elem_of_fmap. exists (gk, l).
      split; [done|]. by apply elem_of_map_to_list. }
    destruct (builtin_kind gk) as [k|] eqn:Hk; [left; by eapply Hin|right].
    rewrite iter_perm. apply list_elem_of_fmap. exists (gk, discover_kind run per_group gk). split; [done|].
    apply elem_of_map_to_list, elem_of_list_to_map_1.
    + rewrite fst_fmap_pair. apply NoDup_filter, NoDup_filter, NoDup_fst_map_to_list.
    + apply list_elem_of_fmap. exists gk. split; [done|]. by apply list_elem_of_filter.
Qed.

Definition job_ids (jobs : list ListJob) : list nat := jobs ≫= λ j, (j_refs j).*1.

(** A job asks for refs of its kind, in its namespace. *)
Definition job_ok (j : ListJob) : Prop :=
  holds_keys (wanted j) (job_keys j)
  ∧ ∀ i key r, (i, key) ∈ j_refs j → refs !! i = Some r →
      kind_ok (gk_of r) (j_kind j) ∧ ref_key (pending r) (rk_namespaced (j_kind j)) = Some key
      ∧ in_list_scope (j_namespace j) (i, key) = true.

Lemma key_refs_ok ns idxs l l' keyed R :
  key_refs ns idxs l = (l', keyed) → items_ok (idxs ++ R) l →
  items_ok (keyed.*1 ++ R) l' ∧ (∀ i key, (i, key) ∈ keyed → i ∈ idxs)
  ∧ ∀ i key r, (i, key) ∈ keyed → refs !! i = Some r → ref_key (pending r) ns = Some key.
Proof.
  revert l l' keyed R. induction idxs as [|i idxs IH]; intros l l' keyed R; simpl.
  { intros [= <- <-] Hl. split_and!; [done|..]; intros * ?%elem_of_nil; done. }
  intros E Hl. destruct (items_pending _ _ i Hl) as (r & Hr & Hli); [by left|]. rewrite Hli in E. simpl in E.
  destruct (ref_key (pending r) ns) as [key|] eqn:Hk.
  - destruct (key_refs ns idxs l) as [l0 keyed0] eqn:E0. injection E as <- <-.
    destruct (IH _ _ _ (i :: R) E0) as (H1 & H2 & H3); [eapply items_perm, Hl; solve_Permutation|].
    split_and!; [eapply items_perm, H1; simpl; solve_Permutation|set_solver|].
    intros i' key' r' [Hin|Hin]%elem_of_cons Hr'; [by simplify_eq|by eapply H3].
  - destruct (IH _ _ _ R E) as (H1 & H2 & H3).
    { apply items_settle; [done|]. intros r' Hr'. simplify_eq. by eapply no_namespace_ok. }
    split_and!; [done|set_solver|done].
Qed.

Lemma plan_lists_ids kind keyed ns :
  job_ids (mk_job kind keyed <$> plan_lists ns (list_to_set (fst <$> keyed.*2))) ≡ₚ keyed.*1.
Proof.
  unfold plan_lists, job_ids. destruct (_ || _) eqn:E.
  - simpl. rewrite (right_id_L [] (++)), list_filter_all; [done|]. by intros.
  - set (nss := merge_sort str_le _). trans ((nss ≫= λ n, filter (in_list_scope (Some n)) keyed).*1).
    + clear E. induction nss as [|n nss IH]; [done|]. simpl in *. by rewrite fmap_app, IH.
    + apply fmap_Permutation, filter_by_namespace.
      * unfold nss. rewrite merge_sort_Permutation. apply NoDup_elements.
      * intros r Hr. unfold nss. rewrite merge_sort_Permutation. apply elem_of_elements, elem_of_list_to_set.
        apply list_elem_of_fmap. exists r.2. split; [done|]. apply list_elem_of_fmap. by exists r.
Qed.

Lemma mk_job_ok kind keyed ns :
  (∀ i key r, (i, key) ∈ keyed → refs !! i = Some r →
     kind_ok (gk_of r) kind ∧ ref_key (pending r) (rk_namespaced kind) = Some key) →
  job_ok (mk_job kind keyed ns).
Proof.
  intros H. split; [apply mk_job_keys|]. simpl.
  intros i key r [Hs Hin]%list_elem_of_filter Hr. destruct (H i key r Hin Hr). split_and!; [done|done|]. by apply Is_true_true.
Qed.

Lemma list_jobs_ok (ks : list (Gk * ResolvedKind)) (R : list nat) (b b' : Batch) jobs :
  batch_ok R b → (∀ gk k, (gk, k) ∈ ks → kind_ok gk k) → list_jobs ks b = (b', jobs) →
  batch_ok (job_ids jobs ++ R) b' ∧ Forall job_ok jobs
  ∧ ∀ gk l, groups b' !! gk = Some l → groups b !! gk = Some l ∧ gk ∉ ks.*1.
Proof.
  revert R b b' jobs. induction ks as [|[gk k] ks IH]; intros R b b' jobs Hb Hk; simpl.
  { intros [= <- <-]. split_and!; [done|done|]. intros gk l Hl. split; [done|]. apply not_elem_of_nil. }
  assert (∀ gk k, (gk, k) ∈ ks → kind_ok gk k) as Hk' by (intros; apply Hk; by right).
  destruct (groups b !! gk) as [idxs|] eqn:Hg.
  2:{ destruct (list_jobs ks b) as [b0 jobs0] eqn:E. intros [= <- <-]. destruct (IH R _ _ _ Hb Hk' E) as (H1 & H2 & H3).
      split_and!; [done|done|]. intros gk' l Hl. destruct (H3 gk' l Hl). split; [done|]. rewrite not_elem_of_cons. naive_solver. }
  destruct (key_refs (rk_namespaced k) idxs (b_items b)) as [l0 keyed] eqn:Ek.
  destruct (list_jobs ks _) as [b1 jobs1] eqn:E. intros [= <- <-].
  eapply key_refs_ok in Ek as (Hi & Hsub & Hkey); [|by apply batch_lookup].
  set (jobs0 := match keyed with [] => [] | _ => _ end).
  assert (job_ids jobs0 ≡ₚ keyed.*1) as Hids by (unfold jobs0; destruct keyed; [done|apply plan_lists_ids]).
  assert (batch_ok (job_ids jobs0 ++ R) (set_groups (delete gk (groups b)) (set_items l0 b))) as Hb0.
  { apply (batch_replace R _ b gk None idxs); [done|done|simpl; set_solver|]. simpl.
    eapply items_perm, Hi. rewrite Hids. solve_Permutation. }
  destruct (IH _ _ _ _ Hb0 Hk' E) as ([H1 H1'] & H2 & H3). split_and!.
  - split; [|done]. eapply items_perm, H1. unfold job_ids. rewrite bind_app. solve_Permutation.
  - apply Forall_app. split; [|done].
    assert (∀ i key r, (i, key) ∈ keyed → refs !! i = Some r →
              kind_ok (gk_of r) k ∧ ref_key (pending r) (rk_namespaced k) = Some key) as Hkeyed.
    { intros i key r Hin Hr. split; [|by eapply Hkey]. assert (gk_of r = gk) as ->; [|apply Hk; by left].
      eapply (proj2 Hb); [exact Hg|by eapply Hsub|done]. }
    unfold jobs0. destruct keyed; [constructor|]. apply Forall_fmap, Forall_forall. intros ns _. by apply mk_job_ok.
  - intros gk' l Hl. destruct (H3 gk' l Hl) as [Hd ?].
    change (delete gk (groups b) !! gk' = Some l) in Hd. apply lookup_delete_Some in Hd as [Hne ?]. split; [done|]. rewrite not_elem_of_cons. split; [congruence|done].
Qed.

Lemma no_groups_listed (g : gmap Gk (list nat)) : (∀ gk l, g !! gk = Some l → l = []) → listed g = [].
Proof.
  intros H. apply elem_of_nil_inv. intros i (gk & l & Hl & Hi)%listed_elem. rewrite (H gk l Hl) in Hi. by apply elem_of_nil in Hi.
Qed.

Lemma pending_count_0 (b : Batch) : pending_count b = 0 → listed (groups b) = [].
Proof.
  unfold pending_count, listed. intros H. induction (map_to_list (groups b)) as [|[gk l] m IH]; [done|].
  simpl in *. destruct l; simpl in *; [by apply IH|lia].
Qed.

Lemma prepare_ok (slots : list CachedSlot) (b : Batch) jobs :
  views = cache_views slots (batch_new refs) →
  (∀ i r, refs !! i = Some r → MAX_REFS ≤ i → J i r (set_error Truncated (pending r))) →
  prepare row_key from_str iter columns run per_group refs slots = (b, jobs) →
  items_ok (job_ids jobs) (b_items b) ∧ Forall job_ok jobs.
Proof.
  intros Hv HJ. unfold prepare. rewrite <- Hv.
  pose proof (apply_cache_ok [] (iter _ (view_kinds views)) _ (batch_new_ok HJ)) as Hb.
  set (b0 := apply_cache _ _ _ _ _) in *. destruct (Nat.eqb_spec (pending_count b0) 0) as [H0|_].
  { intros [= <- <-]. split; [|done]. eapply items_perm, (proj1 Hb). by rewrite pending_count_0. }
  destruct (resolve_kinds iter columns run per_group b0) as [kinds b1] eqn:E1.
  destruct (resolve_kinds_ok _ _ _ _ Hb E1) as (Hb1 & Hk & Hg). intros E.
  assert (∀ gk k, (gk, k) ∈ iter _ (map_to_list kinds) → kind_ok gk k) as Hks
    by (intros gk k; rewrite iter_perm, elem_of_map_to_list; apply Hk).
  destruct (list_jobs_ok _ _ _ _ _ Hb1 Hks E) as (Hb2 & Hj & Hg2).
  split; [|done]. eapply items_perm, (proj1 Hb2). rewrite no_groups_listed, (right_id_L [] (++)); [done|].
  intros gk l Hl. destruct (Hg2 gk l Hl) as [Hl1 Hn]. destruct l as [|i l]; [done|]. exfalso. apply Hn.
  destruct (Hg gk _ Hl1) as [k Hkk]; [done|]. rewrite iter_perm. apply list_elem_of_fmap. exists (gk, k).
  split; [done|]. by apply elem_of_map_to_list.
Qed.

End Answers.

(** ** Outcomes *)

Section Outcomes.
Context (columns : PrinterColumnCache) (run : RunReply) (per_group : str → GroupReply).
Context (project_row : ResolvedKind → DynamicObject → option Json) (runs : list Ended).
Hypothesis (J_listed : ∀ i r e key row, refs !! i = Some r → e ∈ runs → kind_of columns run per_group (gk_of r) (j_kind (e_job e)) →
  ref_key (pending r) (rk_namespaced (j_kind (e_job e))) = Some key → in_list_scope (j_namespace (e_job e)) (i, key) = true →
  page_shows project_row e key row → J i r (settle (rk_id (j_kind (e_job e))) row (pending r))).
Hypothesis (J_unlisted : ∀ i r e, refs !! i = Some r → e ∈ runs → kind_of columns run per_group (gk_of r) (j_kind (e_job e)) →
  complete (e_outcome e) = false →
  (∃ key, (i, key) ∈ j_refs (e_job e) ∧ l_found (e_outcome e) !! key = None) →
  J i r (set_error (default Truncated (l_error (e_outcome e))) (set_kind (rk_id (j_kind (e_job e))) (pending r)))).

(** What an outcome makes of an item. *)
Definition outcome_item (i : str) (o : ListOutcome) (key : Key) : ObjectStatus → ObjectStatus :=
  match l_found o !! key with
  | Some v => settle i (Some v)
  | None => if complete o then settle i None else λ x, set_error (default Truncated (l_error o)) (set_kind i x)
  end.

Lemma apply_ref_items (i : str) (o : ListOutcome) (xs : list (nat * Key)) (b : Batch) :
  b_items (foldl (apply_ref i o) b xs) = foldl (λ l p, alter (outcome_item i o p.2) p.1 l) (b_items b) xs.
Proof.
  revert b. induction xs as [|[n key] xs IH]; intros b; simpl; [done|]. rewrite IH. f_equal.
  unfold apply_ref, outcome_item. simpl. by destruct (l_found o !! key), (complete o).
Qed.

Lemma apply_outcome_ok (e : Ended) (R : list nat) (b : Batch) :
  e ∈ runs → ended_ok project_row e → job_ok columns run per_group (e_job e) → items_ok ((j_refs (e_job e)).*1 ++ R) (b_items b) →
  items_ok R (b_items (apply_outcome b (e_job e, e_outcome e))).
Proof.
  intros He Hok [_ Hj] Hb. unfold apply_outcome. simpl. rewrite apply_ref_items.
  apply items_settle_all; [done|]. intros i key r Hin Hr. destruct (Hj i key r Hin Hr) as (Hk & Hkey & Hs).
  assert (key ∈ (j_refs (e_job e)).*2) as Hkeys by (apply list_elem_of_fmap; by exists (i, key)).
  specialize (Hok key Hkeys). unfold outcome_item.
  destruct (l_found (e_outcome e) !! key) as [v|] eqn:Hf; [by eapply J_listed|].
  destruct (complete (e_outcome e)) eqn:Hc; [by eapply J_listed; auto|]. apply J_unlisted; eauto.
Qed.

Lemma conclude_ok (es : list Ended) (b : Batch) :
  es ⊆ runs → Forall (ended_ok project_row) es → Forall (job_ok columns run per_group) (e_job <$> es) →
  items_ok (job_ids (e_job <$> es)) (b_items b) →
  items_ok [] (b_items (foldl apply_outcome b ((λ e, (e_job e, e_outcome e)) <$> es))).
Proof.
  revert b. induction es as [|e es IH]; intros b Hs Hok Hj Hb; [done|].
  apply Forall_cons in Hok as [He Hok], Hj as [Hj Hjs]. simpl.
  apply IH; [set_solver|done|done|]. apply apply_outcome_ok; [set_solver|done|done|exact Hb].
Qed.
End Outcomes.
End Batches.

(** ** Runs *)

Section Runs.
Context (project_row : ResolvedKind → DynamicObject → option Json).

(** What was found is what the objects show for the keys of the job. *)
Definition objects_found (j : ListJob) (m : gmap Key Json) (os : list DynamicObject) : Prop :=
  let key := key_of_object (rk_namespaced (j_kind j)) in
  (∀ k v, m !! k = Some v → k ∈ job_keys j ∧ ∃ o, o ∈ os ∧ key o = k ∧ project_row (j_kind j) o = Some v)
  ∧ ∀ k o, k ∈ job_keys j → m !! k = None → o ∈ os → key o = k → project_row (j_kind j) o = None.

Lemma list_object_ok (j : ListJob) (m : gmap Key Json) (os : list DynamicObject) (o : DynamicObject) :
  holds_keys (wanted j) (job_keys j) → objects_found j m os →
  objects_found j (list_object project_row j m o) (os ++ [o]).
Proof.
  intros [Hw _] [H1 H2]. unfold list_object. set (k0 := key_of_object _ o).
  assert (keys_contains k0.1 k0.2 (wanted j) = true ↔ k0 ∈ job_keys j) as Hk by (destruct k0; apply Hw).
  assert (∀ k o', k ∈ job_keys j → o' ∈ os ++ [o] → key_of_object (rk_namespaced (j_kind j)) o' = k →
            o' ∈ os ∨ k = k0 ∧ o' = o) as Hcases by (intros k o' _ [?|?%list_elem_of_singleton]%elem_of_app; naive_solver).
  destruct (keys_contains k0.1 k0.2 (wanted j)).
  2:{ split; [intros k v Hv; destruct (H1 k v Hv) as (? & ? & ? & ? & ?); set_solver|].
      intros k o' Hkk Hn Ho E. destruct (Hcases k o' Hkk Ho E) as [?|[-> ->]]; [by eapply H2|]. exfalso. intuition congruence. }
  destruct (project_row (j_kind j) o) as [row|] eqn:Hp.
  - split.
    + intros k v [[<- <-]|[_ Hv]]%lookup_insert_Some; [split; [by apply Hk|]; exists o; set_solver|].
      destruct (H1 k v Hv) as (? & ? & ? & ? & ?); set_solver.
    + intros k o' Hkk [Hn Hne]%lookup_insert_None Ho E. destruct (Hcases k o' Hkk Ho E) as [?|[-> _]]; [by eapply H2|done].
  - split; [intros k v Hv; destruct (H1 k v Hv) as (? & ? & ? & ? & ?); set_solver|].
    intros k o' Hkk Hn Ho E. destruct (Hcases k o' Hkk Ho E) as [?|[-> ->]]; [by eapply H2|done].
Qed.

Lemma list_page_ok (j : ListJob) (objs : list DynamicObject) (m : gmap Key Json) (os : list DynamicObject) :
  holds_keys (wanted j) (job_keys j) → objects_found j m os →
  objects_found j (foldl (list_object project_row j) m objs) (os ++ objs).
Proof.
  intros Hw. revert m os. induction objs as [|o objs IH]; intros m os Hm; simpl; [by rewrite (right_id_L [] (++))|].
  rewrite (cons_middle o os objs), (assoc_L (++)). by apply IH, list_object_ok.
Qed.

Definition run_ok (r : Run) : Prop :=
  holds_keys (wanted (r_job r)) (job_keys (r_job r)) ∧ objects_found (r_job r) (r_found r) (seen r ≫= fst).

(** Found keys, from objects to pages. *)
Lemma found_pages_ok (r : Run) (m : gmap Key Json) done e pages :
  objects_found (r_job r) m (pages ≫= fst) →
  (done = true → (∃ objs, last pages = Some (objs, None)) ∨ ∀ k, k ∈ job_keys (r_job r) → is_Some (m !! k)) →
  ended_ok project_row (end_run r m done e pages).
Proof.
  intros [H1 H2] Hd key Hkey. simpl in *. assert (key ∈ job_keys (r_job r)) as Hk by by apply elem_of_list_to_set.
  destruct (m !! key) as [v|] eqn:Hm; simpl.
  - destruct (H1 _ _ Hm) as (_ & o & Ho & ? & ?). apply list_elem_of_bind in Ho as (p & ? & ?). by exists p, o.
  - intros Hdone. destruct (Hd Hdone) as [?|Hall]; [|by destruct (Hall key Hk); congruence]. split; [done|].
    intros p o Hp Ho E. eapply H2; [done..| |done]. apply list_elem_of_bind. by exists p.
Qed.

Lemma receive_ok (r : Run) (reply : Reply) :
  run_ok r →
  match receive project_row r reply with
  | inl r' => run_ok r' ∧ r_job r' = r_job r ∧ asked r' = false
  | inr e => ended_ok project_row e ∧ e_job e = r_job r
             ∧ (complete (e_outcome e) = false → l_error (e_outcome e) ≠ None)
  end.
Proof.
  intros [Hw Hf]. destruct reply as [objs cont|code| |]; simpl.
  2-4: split_and!; [by apply found_pages_ok|done|done].
  assert (∀ token, objects_found (r_job r) (foldl (list_object project_row (r_job r)) (r_found r) objs)
            ((seen r ++ [(objs, token)]) ≫= fst)) as Hpage.
  { intros token. rewrite bind_app. simpl. rewrite (right_id_L [] (++)). by apply list_page_ok. }
  destruct (bool_decide _ || _) eqn:E; [|split_and!; [split; [done|apply Hpage]|done|done]].
  split_and!; [|done|done]. apply found_pages_ok; [by apply Hpage|]. intros _.
  apply orb_true_iff in E as [E%bool_decide_eq_true|E%Nat.eqb_eq].
  - left. rewrite E. exists objs. by rewrite last_snoc.
  - right. intros k Hk. eapply counts_agree; [|by rewrite E, (proj2 Hw)|done]. intros k' v Hv.
    by destruct (proj1 (Hpage None) k' v Hv).
Qed.

(** The jobs of a pool are queued, running or ended; requests come out of the budget. *)
Record pool_inv (jobs : list ListJob) (p : Pool) : Prop := {
  pi_jobs : queue p ++ (r_job <$> running p) ++ (e_job <$> ended p) ≡ₚ jobs;
  pi_running : Forall run_ok (running p);
  pi_ended : Forall (ended_ok project_row) (ended p);
  pi_slots : length (running p) ≤ LIST_CONCURRENCY;
  pi_budget : budget p + length (requests p) = MAX_LIST_REQUESTS;
  pi_cut : ∀ e, e ∈ ended p → complete (e_outcome e) = false → l_error (e_outcome e) = None → budget p = 0;
  pi_requests : ∀ q, q ∈ requests p → ∃ j, j ∈ jobs ∧ q.1 = (ar (j_kind j), j_namespace j);
}.

Lemma put_run_inv jobs (n : nat) (r : Run) (x : Run + Ended) (p : Pool) :
  pool_inv jobs p → running p !! n = Some r →
  match x with
  | inl r' => run_ok r' ∧ r_job r' = r_job r
  | inr e => ended_ok project_row e ∧ e_job e = r_job r
             ∧ (complete (e_outcome e) = false → l_error (e_outcome e) = None → budget p = 0)
  end → pool_inv jobs (put_run n x p).
Proof.
  intros [] Hr. destruct x as [r'|e]; simpl.
  - intros [Hok Hj]. split; simpl; try done.
    + rewrite list_fmap_insert, Hj, list_insert_id; [done|]. by rewrite list_lookup_fmap, Hr.
    + by apply Forall_insert.
    + by rewrite length_insert.
  - intros (Hok & Hj & Hcut). split; simpl; try done.
    + rewrite <- pi_jobs0. apply Permutation_app_head. rewrite fmap_app. simpl. rewrite Hj.
      rewrite (delete_Permutation (running p) n r Hr) at 2. simpl. solve_Permutation.
    + by apply Forall_delete.
    + by apply Forall_app_2; [|constructor].
    + rewrite length_delete by eauto. lia.
    + intros e' [?|?%list_elem_of_singleton]%elem_of_app; [by eapply pi_cut0|by subst].
Qed.

Lemma pool_step_inv jobs (p p' : Pool) :
  Forall (λ j, holds_keys (wanted j) (job_keys j)) jobs → step project_row p p' → pool_inv jobs p → pool_inv jobs p'.
Proof.
  intros Hjobs [a E] Hp. destruct a as [|n|n reply]; simpl in E.
  - destruct (queue p) as [|j q] eqn:Hq; [done|]. case_decide; [|done]. injection E as <-. destruct Hp. rewrite Hq in *.
    assert (j ∈ jobs) as Hj by (rewrite <- pi_jobs0; by left).
    split; simpl; try done.
    + rewrite <- pi_jobs0, fmap_app. simpl. solve_Permutation.
    + apply Forall_app_2; [done|]. constructor; [|done]. split; [by eapply Forall_forall in Hjobs|].
      split; simpl; [intros k v Hv; by rewrite lookup_empty in Hv|intros k o _ _ Ho; by apply elem_of_nil in Ho].
    + rewrite length_app. simpl. lia.
  - destruct (running p !! n) as [r|] eqn:Hr; [simpl in E|done]. destruct (asked r) eqn:Ha; [done|].
    assert (run_ok r) as Hok by (by eapply Forall_lookup_1; [apply Hp|]).
    destruct (budget p) as [|b] eqn:Hb; injection E as <-.
    + enough (pool_inv jobs (put_run n (inr (end_run r (r_found r) false None (seen r))) p)) as H
        by (unfold put_run in H; by rewrite Hb in H).
      apply (put_run_inv jobs n r); [done|done|]. split_and!; [|done|done]. by apply found_pages_ok; [apply Hok|].
    + set (r1 := {| r_job := r_job r; r_found := r_found r; r_token := None; asked := true; seen := seen r |}).
      destruct (put_run_inv jobs n r (inl r1) p Hp Hr (conj Hok eq_refl)). destruct Hp.
      split; simpl in *; try done.
      * rewrite length_app. simpl. lia.
      * intros e He Hc Hl. specialize (pi_cut0 e He Hc Hl). congruence.
      * intros q [?|?%list_elem_of_singleton]%elem_of_app; [by eauto|subst q]. exists (r_job r). split; [|done].
        rewrite <- pi_jobs0. apply elem_of_app. right. apply elem_of_app. left. apply list_elem_of_fmap.
        exists r1. split; [done|]. apply list_elem_of_lookup. exists n. rewrite list_lookup_insert_eq; [done|]. by eapply lookup_lt_Some.
  - destruct (running p !! n) as [r|] eqn:Hr; [simpl in E|done]. destruct (asked r) eqn:Ha; [|done]. injection E as <-.
    assert (run_ok r) as Hok by (by eapply Forall_lookup_1; [apply Hp|]). apply (put_run_inv jobs n r); [done|done|].
    pose proof (receive_ok r reply Hok) as H. destruct (receive project_row r reply); [naive_solver|].
    destruct H as (? & ? & ?). split_and!; naive_solver.
Qed.

Lemma pool_reachable_inv jobs (p : Pool) :
  Forall (λ j, holds_keys (wanted j) (job_keys j)) jobs → rtc (step project_row) (pool_initial jobs) p → pool_inv jobs p.
Proof.
  intros Hj Hr. eapply (rtc_preserves (step project_row)); [intros x y Hx Hs; by eapply pool_step_inv| |done].
  split; simpl; try done; [by rewrite (right_id_L [] (++))|unfold LIST_CONCURRENCY; lia|intros e He; by apply elem_of_nil in He|intros q Hq; by apply elem_of_nil in Hq].
Qed.

(** Steps that are left, at most. *)
Definition pool_measure (p : Pool) : nat :=
  2 * length (queue p) + sum_list ((λ r, if asked r then 2 else 1) <$> running p) + 2 * budget p.

Lemma weight_insert (l : list Run) (n : nat) (r r' : Run) (w : Run → nat) :
  l !! n = Some r → sum_list (w <$> <[n := r']> l) + w r = sum_list (w <$> l) + w r'.
Proof.
  intros Hr. rewrite (insert_take_drop l n r') by by eapply lookup_lt_Some.
  rewrite <- (take_drop_middle l n r Hr) at 3.
  assert (∀ a b : list nat, sum_list (a ++ b) = sum_list a + sum_list b) as Happ
    by (intros a b; induction a; simpl; lia).
  rewrite !fmap_app, !fmap_cons, !Happ. simpl. lia.
Qed.

Lemma weight_delete (l : list Run) (n : nat) (r : Run) (w : Run → nat) :
  l !! n = Some r → sum_list (w <$> delete n l) + w r = sum_list (w <$> l).
Proof.
  intros Hr. assert (∀ a b : list nat, a ≡ₚ b → sum_list a = sum_list b) as Hp
    by (induction 1; simpl; lia).
  rewrite (Hp (w <$> l) (w r :: (w <$> delete n l))); [simpl; lia|].
  rewrite (delete_Permutation l n r Hr) at 1. done.
Qed.

Lemma pool_step_measure (p p' : Pool) : step project_row p p' → pool_measure p' < pool_measure p.
Proof.
  intros [a E]. unfold pool_measure. set (w := λ r, if asked r then 2 else 1). destruct a as [|n|n reply]; simpl in E.
  - destruct (queue p) as [|j q] eqn:Hq; [done|]. case_decide; [|done]. injection E as <-. simpl.
    assert (∀ a b : list nat, sum_list (a ++ b) = sum_list a + sum_list b) as Happ by (intros a b; induction a; simpl; lia).
    rewrite fmap_app, Happ. simpl. lia.
  - destruct (running p !! n) as [r|] eqn:Hr; [simpl in E|done]. destruct (asked r) eqn:Ha; [done|].
    assert (w r = 1) by (unfold w; by rewrite Ha). destruct (budget p) as [|b] eqn:Hb; injection E as <-; simpl.
    + pose proof (weight_delete _ n r w Hr). lia.
    + set (r1 := {| r_job := r_job r; r_found := r_found r; r_token := None; asked := true; seen := seen r |}).
      pose proof (weight_insert _ n r r1 w Hr) as Hx. assert (w r1 = 2) by done. lia.
  - destruct (running p !! n) as [r|] eqn:Hr; [simpl in E|done]. destruct (asked r) eqn:Ha; [|done]. injection E as <-.
    assert (w r = 2) by (unfold w; by rewrite Ha). destruct (receive project_row r reply) as [r'|e] eqn:Hrec; simpl.
    + assert (w r' = 1) as Hw'.
      { unfold w. destruct reply; simpl in Hrec; try done. destruct (_ || _); [done|]. by injection Hrec as <-. }
      pose proof (weight_insert _ n r r' w Hr). lia.
    + pose proof (weight_delete _ n r w Hr). lia.
Qed.
End Runs.

(** ** What a status says *)

Section Justified.
Context (row_key : str → option (option str * option str)) (from_str : str → option Json)
  (iter : ∀ A : Type, list A → list A) (columns : PrinterColumnCache) (run : RunReply)
  (per_group : str → GroupReply) (project_row : ResolvedKind → DynamicObject → option Json).

(** Where the answer to the ref [r] at [i] comes from, given the caches and the LISTs. *)
Inductive justified (views : list CacheView) (p : Pool) (i : nat) (r : ObjectRef) : ObjectStatus → Prop :=
  | over_cap : MAX_REFS ≤ i → justified views p i r (set_error Truncated (pending r))
  | no_namespace :
      ref_key (pending r) true = None → justified views p i r (set_error NamespaceRequired (pending r))
  | cached v w ns key row :
      head (views_of (gk_of r) views) = Some (w, ns) → v ∈ (views_of (gk_of r) views).*1 →
      ref_key (pending r) ns = Some key → covers (scope v) ns key.1 = true →
      row_shows row_key from_str v ns key row →
      justified views p i r (settle (v_kind_id v) row (pending r))
  | not_served :
      builtin_kind (gk_of r) = None → discover_kind run per_group (gk_of r) = Ok None →
      justified views p i r (set_missing (pending r))
  | undiscovered e :
      builtin_kind (gk_of r) = None → discover_kind run per_group (gk_of r) = Err e →
      justified views p i r (set_error e (pending r))
  | listed_for e key row :
      e ∈ ended p → kind_of columns run per_group (gk_of r) (j_kind (e_job e)) →
      ref_key (pending r) (rk_namespaced (j_kind (e_job e))) = Some key →
      in_list_scope (j_namespace (e_job e)) (i, key) = true → page_shows project_row e key row →
      justified views p i r (settle (rk_id (j_kind (e_job e))) row (pending r))
  | cut_short e :
      e ∈ ended p → kind_of columns run per_group (gk_of r) (j_kind (e_job e)) →
      (∃ key, (i, key) ∈ j_refs (e_job e) ∧ l_found (e_outcome e) !! key = None) →
      complete (e_outcome e) = false →
      (l_error (e_outcome e) = None → length (requests p) = MAX_LIST_REQUESTS) →
      justified views p i r
        (set_error (default Truncated (l_error (e_outcome e))) (set_kind (rk_id (j_kind (e_job e))) (pending r))).

Lemma discover_kind_error gk e : discover_kind run per_group gk = Err e → e = Discovery ∨ e = Timeout.
Proof. unfold discover_kind. destruct run; [done| |intros [= <-]; by right]. destruct (per_group gk.1); naive_solver. Qed.

(** The flag of a batch stays, and an item that is cut raises it. *)
Lemma apply_ref_truncated (i : str) (o : ListOutcome) (xs : list (nat * Key)) (b : Batch) :
  b_truncated b = true ∨ (complete o = false ∧ default Truncated (l_error o) = Truncated
    ∧ ∃ n key, (n, key) ∈ xs ∧ l_found o !! key = None) →
  b_truncated (foldl (apply_ref i o) b xs) = true.
Proof.
  revert b. induction xs as [|[n key] xs IH]; intros b H; simpl; [destruct H as [?|(_ & _ & ? & ? & ?%elem_of_nil & _)]; done|].
  apply IH. destruct H as [H|(Hc & He & n' & key' & [Heq|Hin]%elem_of_cons & Hf)].
  - left. unfold apply_ref. simpl. destruct (l_found o !! key), (complete o); simpl; try done. by rewrite H.
  - simplify_eq. left. unfold apply_ref. simpl. rewrite Hf, Hc, He. simpl. apply orb_true_r.
  - right. split_and!; [done|done|]. by exists n', key'.
Qed.

Lemma conclude_truncated (es : list Ended) (b : Batch) :
  b_truncated b = true ∨ (∃ e n key, e ∈ es ∧ complete (e_outcome e) = false
    ∧ default Truncated (l_error (e_outcome e)) = Truncated
    ∧ (n, key) ∈ j_refs (e_job e) ∧ l_found (e_outcome e) !! key = None) →
  b_truncated (foldl apply_outcome b ((λ e, (e_job e, e_outcome e)) <$> es)) = true.
Proof.
  revert b. induction es as [|e es IH]; intros b H; simpl.
  { destruct H as [?|(? & _ & _ & ?%elem_of_nil & _)]; done. }
  apply IH. destruct H as [H|(e' & n & key & [->|Hin]%elem_of_cons & Hc & He & Hn & Hf)].
  - left. apply apply_ref_truncated. by left.
  - left. apply apply_ref_truncated. right. split_and!; [done|done|]. by exists n, key.
  - right. by exists e', n, key.
Qed.

Lemma apply_cache_truncated order views (b : Batch) :
  b_truncated (apply_cache row_key from_str order views b) = b_truncated b.
Proof.
  unfold apply_cache. revert b. induction order as [|gk order IH]; intros b; simpl; [done|]. rewrite IH.
  unfold apply_cache_group. destruct (groups b !! gk); [|done]. destruct (views_of gk views) as [|[v ns] slots]; [done|].
  by destruct (retain_uncovered _ _ _ _ _) as [[? ?] ?].
Qed.

Lemma resolve_truncated (xs : list (Gk * Discovered)) out (b : Batch) :
  b_truncated (foldl (resolve_found columns) (out, b) xs).2 = b_truncated b.
Proof.
  revert out b. induction xs as [|[gk d] xs IH]; intros out b; [done|]. cbn [foldl]. unfold resolve_found at 2. simpl.
  destruct d as [[[a ns]|]|e]; [|by rewrite IH..]. destruct (from_entry _); by rewrite IH.
Qed.

Lemma list_jobs_truncated ks (b : Batch) : b_truncated (list_jobs ks b).1 = b_truncated b.
Proof.
  revert b. induction ks as [|[gk k] ks IH]; intros b; [done|]. simpl. destruct (groups b !! gk) as [idxs|].
  - destruct (key_refs _ _ _) as [l keyed]. specialize (IH (set_groups (delete gk (groups b)) (set_items l b))).
    destruct (list_jobs ks _) as [b1 jobs1]. exact IH.
  - specialize (IH b). by destruct (list_jobs ks b) as [b1 jobs1].
Qed.

Lemma prepare_truncated (refs : list ObjectRef) slots b jobs :
  prepare row_key from_str iter columns run per_group refs slots = (b, jobs) →
  b_truncated b = bool_decide (MAX_REFS < length refs).
Proof.
  unfold prepare. set (b0 := apply_cache _ _ _ _ _).
  assert (b_truncated b0 = bool_decide (MAX_REFS < length refs)) as H0.
  { unfold b0. rewrite apply_cache_truncated. unfold batch_new. by destruct (group_items 0 _ _). }
  destruct (pending_count b0 =? 0); [by intros [= <- <-]|]. unfold resolve_kinds.
  match goal with |- context [foldl _ (?o, b0) ?l] => pose proof (resolve_truncated l o b0) as H1 end.
  destruct (foldl _ _ _) as [kinds b1]. intros E. simpl in H1.
  pose proof (list_jobs_truncated (iter _ (map_to_list kinds)) b1) as H2. rewrite E in H2. simpl in H2. congruence.
Qed.

Lemma conclude_justified (refs : list ObjectRef) (slots : list CachedSlot) b jobs p :
  (∀ A (l : list A), iter A l ≡ₚ l) →
  prepare row_key from_str iter columns run per_group refs slots = (b, jobs) →
  rtc (step project_row) (pool_initial jobs) p → pool_done p →
  items_ok refs (justified (cache_views slots (batch_new refs)) p) [] (items (conclude b p)).
Proof.
  intros Hiter Hprep Hr [Hq Hrun]. set (views := cache_views slots (batch_new refs)).
  destruct (prepare_ok refs (justified views p) row_key from_str views (λ i r _, no_namespace views p i r)
              (λ i r v w ns key row _, cached views p i r v w ns key row) iter columns run per_group Hiter
              (λ i r _, not_served views p i r) (λ i r e _, undiscovered views p i r e) slots b jobs eq_refl
              (λ i r _, over_cap views p i r) Hprep) as [Hb Hj].
  assert (Forall (λ j, holds_keys (wanted j) (job_keys j)) jobs) as Hk
    by (eapply Forall_impl; [exact Hj|]; by intros j [? _]).
  destruct (pool_reachable_inv project_row jobs p Hk Hr). rewrite Hq, Hrun in pi_jobs0. simpl in pi_jobs0.
  unfold conclude, finish. simpl.
  eapply (conclude_ok refs (justified views p) columns run per_group project_row (ended p)); [| |done|done| |].
  - intros i r e key row _. apply listed_for.
  - intros i r e _ He Hkk Hc Hkey. apply cut_short; try done. intros Hl. specialize (pi_cut0 e He Hc Hl). lia.
  - by rewrite pi_jobs0.
  - eapply items_perm, Hb. unfold job_ids. by rewrite pi_jobs0.
Qed.
End Justified.

(** C10: Every ref of a batch is answered, by what was seen: whatever the caches, discovery
    and the replies to the LISTs, each ref has its item at its place, and the item is the
    status of the row a covering cache or a page of a LIST shows for it, [Missing] only
    when such a cache, a LIST that ran to its end or the API server has no such object, or
    an error: over the cap, no namespace, discovery or LIST failed, or the budget of
    requests is spent.  An item that is cut raises the flag. *)
Theorem statuses_justified (row_key : str → option (option str * option str)) (from_str : str → option Json)
    (iter : ∀ A : Type, list A → list A) (columns : PrinterColumnCache) (run : RunReply)
    (per_group : str → GroupReply) (project_row : ResolvedKind → DynamicObject → option Json)
    (refs : list ObjectRef) (slots : list CachedSlot) (b : Batch) (jobs : list ListJob) (p : Pool) :
  (∀ A (l : list A), iter A l ≡ₚ l) →
  prepare row_key from_str iter columns run per_group refs slots = (b, jobs) →
  rtc (step project_row) (pool_initial jobs) p → pool_done p →
  let out := conclude b p in
  length (items out) = length refs
  ∧ (∀ i r, refs !! i = Some r → ∃ it, items out !! i = Some it
       ∧ justified row_key from_str columns run per_group project_row
           (cache_views slots (batch_new refs)) p i r it)
  ∧ ∀ it, it ∈ items out → error it = Some Truncated → truncated out = true.
Proof.
  intros Hiter Hprep Hr Hd out.
  destruct (conclude_justified _ _ _ _ _ _ _ _ _ _ _ _ Hiter Hprep Hr Hd) as [_ Hlen _ _ Hj].
  assert (∀ i r, refs !! i = Some r → ∃ it, items out !! i = Some it
       ∧ justified row_key from_str columns run per_group project_row
           (cache_views slots (batch_new refs)) p i r it) as Hall
    by (intros i r; apply Hj, not_elem_of_nil).
  split_and!; [done|done|]. intros it [i Hi]%list_elem_of_lookup He.
  destruct (lookup_lt_is_Some_2 refs i) as [r Hri]; [rewrite <- Hlen; by eapply lookup_lt_Some|].
  destruct (Hall i r Hri) as (it' & Hit & Hjust). simplify_eq.
  apply conclude_truncated. destruct Hjust as [Hi'| |v w ns key row|_ Hdisc|e _ Hdisc|e key row|e He' _ (key & Hkey & Hf) Hc _];
    simpl in He; try done.
  - left. rewrite (prepare_truncated _ _ _ _ _ _ _ _ _ _ Hprep). apply bool_decide_eq_true.
    apply lookup_lt_Some in Hri. lia.
  - unfold settle in He. by destruct (match row with Some _ => _ | None => _ end).
  - injection He as ->. by destruct (discover_kind_error _ _ _ _ Hdisc).
  - unfold settle in He. by destruct (match row with Some _ => _ | None => _ end).
  - injection He as He. right. by exists e, i, key.
Qed.

(** The LISTs of a batch end: whatever the API server answers, they make at most
    twenty requests, each for the resource and the namespace of a job, four jobs at a
    time at most, and finish within twice the jobs and forty steps; until then there is
    a step to take. *)
Theorem lists_bounded (project_row : ResolvedKind → DynamicObject → option Json) (jobs : list ListJob)
    (n : nat) (p : Pool) :
  Forall (λ j, holds_keys (wanted j) (job_keys j)) jobs →
  nsteps (step project_row) n (pool_initial jobs) p →
  n ≤ 2 * length jobs + 2 * MAX_LIST_REQUESTS
  ∧ length (requests p) ≤ MAX_LIST_REQUESTS ∧ length (running p) ≤ LIST_CONCURRENCY
  ∧ (∀ q, q ∈ requests p → ∃ j, j ∈ jobs ∧ q.1 = (ar (j_kind j), j_namespace j))
  ∧ (pool_done p ∨ ∃ p', step project_row p p').
Proof.
  intros Hj Hn. assert (∀ q m, nsteps (step project_row) m q p → m + pool_measure p ≤ pool_measure q) as Hm.
  { intros q m H. induction H as [q|m q q' p Hs _ IH]; [done|]. apply pool_step_measure in Hs. specialize (IH Hn). lia. }
  specialize (Hm _ _ Hn). apply rtc_nsteps_2 in Hn.
  destruct (pool_reachable_inv project_row jobs p Hj Hn). split_and!; [|lia|done|done|].
  - assert (pool_measure (pool_initial jobs) = 2 * length jobs + 2 * MAX_LIST_REQUESTS) by (unfold pool_measure; simpl; lia). lia.
  - destruct (running p) as [|r l] eqn:Hrun.
    + destruct (queue p) as [|j q] eqn:Hq; [by left|right]. eexists. exists Start. simpl. rewrite Hq, Hrun. reflexivity.
    + right. destruct (asked r) eqn:Ha.
      * eexists. exists (Answer 0 TimedOut). simpl. rewrite Hrun. simpl. by rewrite Ha.
      * destruct (budget p) as [|b'] eqn:Hb; eexists; exists (Take 0); simpl; rewrite Hrun; simpl; by rewrite Ha, Hb.
Qed.

(** ** Concrete batches *)

Definition acts (project_row : ResolvedKind → DynamicObject → option Json) (l : list Act) (p : Pool) : option Pool :=
  foldl (λ o a, p ← o; act project_row a p) (Some p) l.

Lemma pool_acts_reachable project_row (l : list Act) (p p' : Pool) :
  acts project_row l p = Some p' → nsteps (step project_row) (length l) p p'.
Proof.
  unfold acts. revert p. induction l as [|a l IH]; intros p; simpl; [intros [= <-]; constructor|].
  destruct (act project_row a p) as [q|] eqn:E.
  - intros H. econstructor; [by exists a|]. by apply IH.
  - intros H. exfalso. clear -H. induction l; [done|]. by apply IHl.
Qed.

Definition a_ref (g k : string) (ns : option string) (n : string) : ObjectRef :=
  {| ref_group := lit g; ref_kind := lit k; ref_namespace := lit <$> ns; ref_name := lit n |}.

Definition some_refs : list ObjectRef :=
  [a_ref "" "Pod" (Some "prod") "web"; a_ref "" "Pod" (Some "prod") "gone"; a_ref "" "Pod" None "web";
   a_ref "apps" "Deployment" (Some "prod") "web"; a_ref "example.com" "Widget" None "w"]%string.

(** A watcher of pods whose only row is the pod web. *)
Definition pods_slot : CachedSlot :=
  {| s_view := {| v_kind_id := lit "pods"; scope := One (lit "prod"); rows := [lit "web"] |}; s_init_done := true |}.

Definition web_object : DynamicObject :=
  {| metadata := {| m_name := Some (lit "web"); m_namespace := Some (lit "prod"); m_creation_timestamp := None |};
     data := Null |}.

Definition demo_key (t : str) : option (option str * option str) := Some (Some t, Some (lit "prod")).

Definition demo_row (t : str) : option Json := Some (Object [(lit "phase", String_ (lit "Running"))]).

Definition demo_project (k : ResolvedKind) (o : DynamicObject) : option Json :=
  Some (Object [(lit "ready", String_ (lit "1/2"))]).

Definition demo_prepare : Batch * list ListJob :=
  prepare demo_key demo_row (λ _ l, l) empty_cache (Served (λ _, None)) (λ _, NoGroup) some_refs [pods_slot].

Definition demo_replies : list Act := [Start; Take 0; Answer 0 (Page [web_object] None)].

Definition summary (it : ObjectStatus) : bool * option str * option StatusError := (found it, status it, error it).

Lemma statuses_justified_witness :
  ∃ p, acts demo_project demo_replies (pool_initial demo_prepare.2) = Some p
    ∧ summary <$> items (conclude demo_prepare.1 p)
      = [(true, Some (lit "Running"), None); (false, Some (lit "Missing"), None);
         (false, None, Some NamespaceRequired); (true, Some (lit "Progressing"), None);
         (false, Some (lit "Missing"), None)]
    ∧ ∃ it, items (conclude demo_prepare.1 p) !! 3 = Some it
        ∧ justified demo_key demo_row empty_cache (Served (λ _, None)) (λ _, NoGroup) demo_project
            (cache_views [pods_slot] (batch_new some_refs)) p 3 (a_ref "apps" "Deployment" (Some "prod"%string) "web") it.
Proof.
  destruct (acts demo_project demo_replies (pool_initial demo_prepare.2)) as [p|] eqn:E;
    [|exfalso; revert E; vm_compute; discriminate].
  assert ((λ p, (summary <$> items (conclude demo_prepare.1 p), bool_decide (length (queue p) + length (running p) = 0)))
            <$> acts demo_project demo_replies (pool_initial demo_prepare.2)
          = Some ([(true, Some (lit "Running"), None); (false, Some (lit "Missing"), None);
         (false, None, Some NamespaceRequired); (true, Some (lit "Progressing"), None);
         (false, Some (lit "Missing"), None)], true)) as Hf by (vm_compute; reflexivity).
  rewrite E in Hf. apply Some_inj, pair_equal_spec in Hf as [Hs Hd%bool_decide_eq_true].
  exists p. split; [reflexivity|]. split; [exact Hs|].
  apply (proj1 (proj2 (statuses_justified demo_key demo_row (λ _ l, l) empty_cache (Served (λ _, None)) (λ _, NoGroup)
           demo_project some_refs [pods_slot] demo_prepare.1 demo_prepare.2 p (λ _ _, reflexivity _)
           (surjective_pairing _) (rtc_nsteps_2 _ _ _ (pool_acts_reachable _ _ _ _ E))
           (conj (nil_length_inv (queue p) ltac:(lia)) (nil_length_inv (running p) ltac:(lia))))) 3).
  reflexivity.
Defined.

Definition a_kind : ResolvedKind :=
  {| rk_id := lit "deployments"; rk_namespaced := true;
     ar := {| ar_group := lit "apps"; ar_version := lit "v1"; ar_kind := lit "Deployment"; ar_plural := lit "deployments" |};
     rk_project := Typed |}.

Definition a_job (name : string) : ListJob := mk_job a_kind [(0, (lit "prod", lit name))] (Some (lit "prod")).

(** Two jobs, one of which gets two pages. *)
Definition two_jobs : list Act :=
  [Start; Take 0; Start; Answer 0 (Page [] (Some (lit "next"))); Take 1; Take 0].

Lemma lists_bounded_witness :
  ∃ p, acts demo_project two_jobs (pool_initial [a_job "web"; a_job "api"]) = Some p
    ∧ requests p = [(ar a_kind, Some (lit "prod"), None); (ar a_kind, Some (lit "prod"), None);
                    (ar a_kind, Some (lit "prod"), Some (lit "next"))]
    ∧ length (running p) ≤ LIST_CONCURRENCY ∧ (pool_done p ∨ ∃ p', step demo_project p p').
Proof.
  destruct (acts demo_project two_jobs (pool_initial [a_job "web"; a_job "api"])) as [p|] eqn:E;
    [|exfalso; revert E; vm_compute; discriminate].
  assert (requests <$> acts demo_project two_jobs (pool_initial [a_job "web"; a_job "api"])
          = Some [(ar a_kind, Some (lit "prod"), None); (ar a_kind, Some (lit "prod"), None);
                  (ar a_kind, Some (lit "prod"), Some (lit "next"))]) as Hf by (vm_compute; reflexivity).
  rewrite E in Hf. apply Some_inj in Hf. exists p. split; [reflexivity|]. split; [exact Hf|].
  assert (Forall (λ j, holds_keys (wanted j) (job_keys j)) [a_job "web"; a_job "api"]) as Hj
    by (repeat constructor; apply mk_job_keys).
  destruct (lists_bounded demo_project _ _ _ Hj (pool_acts_reachable _ _ _ _ E)) as (_ & _ & ? & _ & ?). by split.
Defined.

(** An object that does not deserialize into the struct of its kind is reported Missing,
    although a LIST returned it. *)
Example undecodable_is_missing :
  (λ p, summary <$> (items (conclude demo_prepare.1 p) !! 3))
    <$> acts (λ _ _, None) demo_replies (pool_initial demo_prepare.2)
  = Some (Some (false, Some (lit "Missing"), None)).
Proof. vm_compute. reflexivity. Qed.
