(* ===== verification/Logs.v ===== *)
(** * Log streams (core/src/logs.rs)

    The reader of a container's log: opening with the wait for a container that starts and
    for a server that cannot be reached, the lines of a session, what is skipped after a
    reconnect, and when the reader goes on, gives up or ends ([run_live], [run_previous]).

    What the API server answers is a [World], by the number of the request; a session is the
    lines that were read and how it ended, if it did.  A reader leaves a trace of what it sent,
    slept and opened.  Lowering a text to lower case, the texts of errors and of pods are
    arguments. *)

From Stdlib Require Import Sorted.
From stdpp Require Import sorting.
From S2P Require Import Prelude Order.

(** ** Events *)

Inductive LogEvent : Set :=
  | Line (text : str)
  | Batch (lines : list str)
  | Lagged (dropped : N)
  | Waiting (reason : str)
  | Ended (reason : str)
  | Interrupted (reason : str).

#[global] Instance LogEvent_eq_dec : EqDecision LogEvent.
Proof. solve_decision. Defined.

Definition DEFAULT_TAIL_LINES : Z := 200.

Definition RETRY_INTERVAL : N := 2.

Definition MAX_WAIT_ATTEMPTS : nat := 150.

Definition RECONNECT_DELAY : N := 2.

Definition MAX_DEAD_RECONNECTS : nat := 10.

Definition MAX_TRANSIENT_RETRIES : nat := 12.

Definition transient_backoff (attempt : nat) : N := N.min (N.shiftl 2 (N.of_nat (Nat.min attempt 4))) 30.

(** ** Errors *)

(** kube::Error; every text is its [Display]. *)
Inductive KubeError : Set :=
  | Api (code : N) (message display : str)
  | HyperError (display : str)
  | Service (display : str)
  | ReadEvents (display : str)
  | AuthError (display : str)
  | OtherError (display : str).

Definition display (e : KubeError) : str :=
  match e with
  | Api _ _ d | HyperError d | Service d | ReadEvents d | AuthError d | OtherError d => d
  end.

Inductive OpenFailure : Set := Starting (reason : str) | Fatal (reason : str) | Transient (reason : str).

Inductive StreamEnd : Set := Closed | ReadError (e : str).

Inductive ContainerLiveness : Set := Active | LiveWaiting (reason : str) | Done | Unknown | Unreachable (e : str).

Definition clean_kube_message (err : KubeError) : str :=
  match err with
  | Api _ message d => if bool_decide (trim message = []) then d else trim message
  | _ => display err
  end.

Definition STUCK : list str :=
  lit <$> ["imagepullbackoff"; "errimagepull"; "errimageneverpull"; "invalidimagename"; "imageinspecterror";
           "registryunavailable"; "createcontainerconfigerror"; "createcontainererror"; "runcontainererror";
           "crashloopbackoff"]%string.

Definition is_stuck_reason (lower : str) : bool := existsb (λ r, contains_str r lower) STUCK.

Definition is_transient (err : KubeError) : bool :=
  match err with
  | Api code _ _ => (code =? 429)%N || (500 <=? code)%N
  | HyperError _ | Service _ | ReadEvents _ | AuthError _ => true
  | OtherError _ => false
  end.

Definition classify_open_error (to_lowercase : str → str) (err : KubeError) : OpenFailure :=
  let msg := clean_kube_message err in
  if is_transient err then Transient msg
  else match err with
       | Api _ _ _ =>
           let lower := to_lowercase msg in
           if is_stuck_reason lower then Fatal msg
           else if contains_str (lit "waiting to start") lower || contains_str (lit "podinitializing") lower
                   || contains_str (lit "containercreating") lower
           then Starting msg else Fatal msg
       | _ => Fatal msg
       end.

(** ** Lines *)

Definition SPACE : char := 32%N.

Definition line_timestamp (line : str) : option str :=
  p ← split_once SPACE line;
  let head := p.1 in
  let starts_digit := match head with c :: _ => is_ascii_digit c | [] => false end in
  if (20 <=? str_len head)%N && starts_digit && contains_char 84%N head && bool_decide (last head = Some 90%N)
  then Some head else None.

(** ** Containers *)

(** As far as the code looks into a pod. *)
Record ContainerState : Set := { running : bool; waiting : option (option str); terminated : option (Z * option str) }.

Record ContainerStatus : Set := { cs_name : str; cs_state : option ContainerState }.

Record Pod : Set := {
  deleting : bool; container_statuses : option (list ContainerStatus); restart_policy : option str;
}.

Definition classify_container_liveness (pod : Pod) (container : option str) : ContainerLiveness :=
  if deleting pod then Done
  else
    let statuses := default [] (container_statuses pod) in
    let cs := match container with
              | Some name => head (filter (λ c, cs_name c = name) statuses)
              | None => head statuses
              end in
    match cs with
    | None => LiveWaiting (lit "pod initializing")
    | Some cs =>
        match cs_state cs with
        | None => Unknown
        | Some state =>
            if running state then Active
            else match waiting state with
                 | Some reason => LiveWaiting (default (lit "waiting") reason)
                 | None =>
                     match terminated state with
                     | Some (exit_code, reason) =>
                         let policy := default (lit "Always") (restart_policy pod) in
                         let restarts := if decide (policy = lit "Never") then false
                                         else if decide (policy = lit "OnFailure") then negb (exit_code =? 0)%Z
                                         else true in
                         if restarts then LiveWaiting (default (lit "restarting") reason) else Done
                     | None => Unknown
                     end
                 end
        end
    end.

Definition probe_container (answer : result (option Pod) KubeError) (container : option str) : ContainerLiveness :=
  match answer with
  | Ok (Some p) => classify_container_liveness p container
  | Ok None => Done
  | Err e => if is_transient e then Unreachable (clean_kube_message e) else Unknown
  end.

(** ** Requests *)

Record LogParams : Set := {
  follow : bool; previous : bool; container : option str; tail_lines : option Z; timestamps : bool;
}.

Definition tail_for_open (first : bool) (tail : option Z) : option Z :=
  if first then tail else Some (default DEFAULT_TAIL_LINES tail).

Definition live_log_params (c : option str) (tail : option Z) : LogParams :=
  {| follow := true; previous := false; container := c; tail_lines := tail; timestamps := true |}.

Definition previous_log_params (c : option str) : LogParams :=
  {| follow := false; previous := true; container := c; tail_lines := None; timestamps := true |}.

(** What was read, and how the stream ended; [None]: it is still open. *)
Record Session : Set := { lines : list str; session_end : option StreamEnd }.

Record World : Type := {
  opens : nat → LogParams → result Session KubeError;
  probes : nat → result (option Pod) KubeError;
}.

Inductive Out : Set := Sent (e : LogEvent) | Slept (secs : N) | Opened (i : nat) (p : LogParams) (s : Session).

Inductive Status : Set := Finished | Reading | OutOfFuel.

Definition reconnecting (detail : str) : Out := Sent (Waiting (lit "reconnecting " ++ 8212%N :: lit " " ++ detail)).

Section Reader.
Context (to_lowercase : str → str) (w : World) (cont : option str).

(** [open_stream], from request [i] on; the counters of the loop bound it. *)
Fixpoint open_stream (fuel i attempts transient : nat) (last_waiting : option str) (p : LogParams) :
    list Out * nat * option Session :=
  match fuel with
  | 0 => ([], i, None)
  | S fuel =>
      match opens w i p with
      | Ok s => ([Opened i p s], S i, Some s)
      | Err e =>
          match classify_open_error to_lowercase e with
          | Starting reason =>
              if attempts <? MAX_WAIT_ATTEMPTS then
                let signal := if bool_decide (last_waiting = Some reason) then [] else [Sent (Waiting reason)] in
                let '(t, i, s) := open_stream fuel (S i) (S attempts) transient (Some reason) p in
                (signal ++ Slept RETRY_INTERVAL :: t, i, s)
              else ([Sent (Ended (lit "gave up waiting for container: " ++ reason))], S i, None)
          | Fatal reason => ([Sent (Ended (lit "open failed: " ++ reason))], S i, None)
          | Transient reason =>
              if transient <? MAX_TRANSIENT_RETRIES then
                let '(t, i, s) := open_stream fuel (S i) attempts (S transient) None p in
                (reconnecting reason :: Slept (transient_backoff transient) :: t, i, s)
              else ([Sent (Interrupted reason)], S i, None)
          end
      end
  end.

Definition OPEN_FUEL : nat := S (MAX_WAIT_ATTEMPTS + MAX_TRANSIENT_RETRIES).

(** The lines a session forwards: those through [skip] are left out until one is behind it. *)
Fixpoint pump (skip last_ts : option str) (ls : list str) : list str * option str :=
  match ls with
  | [] => ([], last_ts)
  | l :: ls =>
      let ts := line_timestamp l in
      if match skip, ts with Some s, Some t => str_leb t s | _, _ => false end then pump skip last_ts ls
      else
        let '(out, last') := pump None (match ts with Some t => Some t | None => last_ts end) ls in (l :: out, last')
  end.

Record Live : Set := { first : bool; last_ts : option str; dead_reconnects : nat; unreachable : nat }.

Definition end_text (e : StreamEnd) : str := match e with ReadError e => e | Closed => lit "stream closed" end.

(** What follows a session that ended: whether the loop goes on. *)
Definition after_session (end_ : StreamEnd) (produced : bool) (liveness : ContainerLiveness) (st : Live) :
    list Out * option Live :=
  let dead := if produced then 0 else dead_reconnects st in
  let unreach := match liveness with Unreachable _ => unreachable st | _ => 0 end in
  let retry d := ([reconnecting d; Slept RECONNECT_DELAY],
    Some {| first := false; last_ts := last_ts st; dead_reconnects := if produced then dead else S dead; unreachable := unreach |}) in
  let gave_up := ([Sent (Ended (lit "stopped after " ++ nat_str MAX_DEAD_RECONNECTS ++ lit " reconnect attempts with no output"))], None) in
  match liveness with
  | Unreachable e =>
      if unreach <? MAX_TRANSIENT_RETRIES then
        ([reconnecting e; Slept (transient_backoff unreach)],
         Some {| first := false; last_ts := last_ts st; dead_reconnects := dead; unreachable := S unreach |})
      else ([Sent (Interrupted e)], None)
  | Active => if dead <? MAX_DEAD_RECONNECTS then retry (end_text end_) else gave_up
  | LiveWaiting r => if dead <? MAX_DEAD_RECONNECTS then retry r else gave_up
  | Done | Unknown =>
      ([Sent (Ended (match end_ with Closed => lit "stream closed" | ReadError e => lit "read error: " ++ e end))], None)
  end.

(** [n] sessions at most; [i] requests and [j] probes were made before. *)
Fixpoint run_live (n i j : nat) (tail : option Z) (st : Live) : list Out * Status :=
  match n with
  | 0 => ([], OutOfFuel)
  | S n =>
      let p := live_log_params cont (tail_for_open (first st) tail) in
      let '(opening, i, s) := open_stream OPEN_FUEL i 0 0 None p in
      match s with
      | None => (opening, Finished)
      | Some s =>
          let '(out, last') := pump (last_ts st) (last_ts st) (lines s) in
          let sent := (λ l, Sent (Line l)) <$> out in
          match session_end s with
          | None => (opening ++ sent, Reading)
          | Some end_ =>
              let st := {| first := false; last_ts := last'; dead_reconnects := dead_reconnects st; unreachable := unreachable st |} in
              let '(more, next) := after_session end_ (negb (bool_decide (out = []))) (probe_container (probes w j) cont) st in
              match next with
              | None => (opening ++ sent ++ more, Finished)
              | Some st => let '(t, status) := run_live n i (S j) tail st in (opening ++ sent ++ more ++ t, status)
              end
          end
      end
  end.

Definition start_live (resume_after : option str) : Live :=
  {| first := bool_decide (resume_after = None); last_ts := resume_after; dead_reconnects := 0; unreachable := 0 |}.

Definition run_previous : list Out * Status :=
  let p := previous_log_params cont in
  match opens w 0 p with
  | Err e => ([Sent (Ended (clean_kube_message e))], Finished)
  | Ok s =>
      let sent := Opened 0 p s :: ((λ l, Sent (Line l)) <$> lines s) in
      match session_end s with
      | None => (sent, Reading)
      | Some (ReadError e) => (sent ++ [Sent (Ended (lit "read error: " ++ e))], Finished)
      | Some Closed => (sent ++ [Sent (Ended (lit "reached end of previous instance logs"))], Finished)
      end
  end.

(** The task that [LogStream::start] spawns. *)
Definition log_task (n : nat) (prev : bool) (tail : option Z) (resume_after : option str) : list Out * Status :=
  if prev then run_previous else run_live n 0 0 tail (start_live resume_after).
End Reader.

(** ** The end of a stream *)

Definition is_final (e : LogEvent) : bool := match e with Ended _ | Interrupted _ => true | _ => false end.

Definition final_out (o : Out) : bool := match o with Sent e => is_final e | _ => false end.

(** One final event, behind all others. *)
Definition ends_once (t : list Out) : Prop :=
  ∃ t' e, t = t' ++ [Sent e] ∧ is_final e = true ∧ Forall (λ o, final_out o = false) t'.

Definition goes_on (t : list Out) : Prop := Forall (λ o, final_out o = false) t.

Lemma ends_once_app a b : goes_on a → ends_once b → ends_once (a ++ b).
Proof.
  intros Ha (t & e & -> & He & Ht). exists (a ++ t), e. rewrite (assoc_L (++)). split_and!; [done..|]. by apply Forall_app.
Qed.

Lemma goes_on_app a b : goes_on a → goes_on b → goes_on (a ++ b).
Proof. intros Ha Hb. by apply Forall_app. Qed.

Lemma goes_on_lines ls : goes_on ((λ l, Sent (Line l)) <$> ls).
Proof. unfold goes_on. rewrite Forall_fmap. apply Forall_forall. done. Qed.

#[local] Hint Resolve ends_once_app goes_on_app goes_on_lines : ferris.

Lemma ends_once_single e : is_final e = true → ends_once [Sent e].
Proof. intros H. exists [], e. by split_and!; [|done|constructor]. Qed.

(** Neither a session nor lines. *)
Definition quiet (t : list Out) : Prop :=
  Forall (λ o, match o with Opened _ _ _ | Sent (Line _) | Sent (Batch _) => False | _ => True end) t.

Lemma quiet_app a b : quiet a → quiet b → quiet (a ++ b).
Proof. intros Ha Hb. by apply Forall_app. Qed.

Section Reads.
Context (to_lowercase : str → str) (w : World) (cont : option str).

(** What opening leaves: a session, or the end. *)
Definition opening_ok (p : LogParams) (i : nat) (r : list Out * nat * option Session) : Prop :=
  let '(t, i', s) := r in
  i < i'
  ∧ match s with
    | Some s => goes_on t ∧ ∃ t' k, i ≤ k < i' ∧ opens w k p = Ok s ∧ t = t' ++ [Opened k p s] ∧ quiet t'
    | None => ends_once t ∧ quiet t
    end.

Lemma opening_ok_app p i t r :
  goes_on t → quiet t → opening_ok p (S i) r → let '(t', i', s) := r in opening_ok p i (t ++ t', i', s).
Proof.
  destruct r as [[t' i'] [s|]]; intros Hg Hq [Hi H]; (split; [lia|]).
  - destruct H as (Hgo & u & k & Hk & Ho & -> & Hu). split; [by apply goes_on_app|]. exists (t ++ u), k.
    rewrite (assoc_L (++)). split_and!; [lia..|done|done|by apply quiet_app].
  - destruct H as [He Ht]. split; [by apply ends_once_app|by apply quiet_app].
Qed.

Lemma open_stream_ok fuel i attempts transient lw p :
  MAX_WAIT_ATTEMPTS - attempts + (MAX_TRANSIENT_RETRIES - transient) < fuel →
  opening_ok p i (open_stream to_lowercase w fuel i attempts transient lw p).
Proof.
  revert i attempts transient lw. induction fuel as [|fuel IH]; intros i attempts transient lw Hf; [lia|]. cbn [open_stream].
  destruct (opens w i p) as [s|e] eqn:Eo.
  { split; [lia|]. split; [by repeat constructor|]. exists [], i. split_and!; [lia..|done|done|constructor]. }
  assert (∀ e, is_final e = true → opening_ok p i ([Sent e], S i, None)) as Hend
    by (intros e' He; split; [lia|]; split; [by apply ends_once_single|destruct e'; by repeat constructor]).
  destruct (classify_open_error to_lowercase e) as [reason|reason|reason]; [|by apply Hend|].
  - destruct (Nat.ltb_spec attempts MAX_WAIT_ATTEMPTS); [|by apply Hend].
    pose proof (opening_ok_app p i ((if bool_decide (lw = Some reason) then [] else [Sent (Waiting reason)]) ++ [Slept RETRY_INTERVAL])
      _ ltac:(case_bool_decide; by repeat constructor) ltac:(case_bool_decide; by repeat constructor)
      (IH (S i) (S attempts) transient (Some reason) ltac:(lia))) as H'.
    destruct (open_stream _ _ fuel _ _ _ _ _) as [[t i'] s]. by rewrite <- (assoc_L (++)) in H'.
  - destruct (Nat.ltb_spec transient MAX_TRANSIENT_RETRIES); [|by apply Hend].
    pose proof (opening_ok_app p i [reconnecting reason; Slept (transient_backoff transient)]
      _ ltac:(by repeat constructor) ltac:(by repeat constructor) (IH (S i) attempts (S transient) None ltac:(lia))) as H'.
    by destruct (open_stream _ _ fuel _ _ _ _ _) as [[t i'] s].
Qed.

Lemma after_session_ends end_ produced liveness st :
  let '(more, next) := after_session end_ produced liveness st in
  match next with None => ends_once more | Some _ => goes_on more end
  ∧ quiet more.
Proof.
  unfold after_session. destruct liveness; repeat case_match; simplify_eq;
    (split; [first [by apply ends_once_single|by repeat constructor]|by repeat constructor]).
Qed.

(** ** One session of the live loop *)

(** How many more sessions without a line the counters allow. *)
Definition patience (st : Live) : nat :=
  (MAX_DEAD_RECONNECTS - dead_reconnects st) * S MAX_TRANSIENT_RETRIES + (MAX_TRANSIENT_RETRIES - unreachable st).

Definition PATIENCE : nat := MAX_DEAD_RECONNECTS * S MAX_TRANSIENT_RETRIES + MAX_TRANSIENT_RETRIES.

Lemma patience_max st : patience st ≤ PATIENCE.
Proof. unfold patience, PATIENCE, MAX_DEAD_RECONNECTS, MAX_TRANSIENT_RETRIES. lia. Qed.

Lemma after_session_next end_ produced liveness st more st' :
  after_session end_ produced liveness st = (more, Some st') →
  last_ts st' = last_ts st ∧ (produced = false → patience st' < patience st).
Proof.
  unfold after_session, patience. intros H. repeat case_match; simplify_eq; simpl;
    (split; [done|]; intros ?; simplify_eq; rewrite ?Nat.ltb_lt in *; unfold MAX_DEAD_RECONNECTS, MAX_TRANSIENT_RETRIES in *; lia).
Qed.

(** What a session leaves: the stream is still open, it is the last one, or another follows. *)
Inductive continues (n i j : nat) (tail : option Z) (st : Live) (out : list str) (last' : option str) (t : list Out) (status : Status) : Prop :=
  | ContinuesOpen : t = [] → status = Reading → continues n i j tail st out last' t status
  | ContinuesEnd : quiet t → ends_once t → status = Finished → continues n i j tail st out last' t status
  | ContinuesNext more t' st' :
      t = more ++ t' → quiet more → goes_on more → run_live to_lowercase w cont n i (S j) tail st' = (t', status) →
      last_ts st' = last' → (out = [] → patience st' < patience st) →
      continues n i j tail st out last' t status.

Lemma run_live_cases n i j tail st t status :
  run_live to_lowercase w cont (S n) i j tail st = (t, status) →
  quiet t ∧ ends_once t ∧ status = Finished
  ∨ ∃ u k s out last' i' rest,
      quiet u ∧ goes_on u ∧ i ≤ k < i'
      ∧ opens w k (live_log_params cont (tail_for_open (first st) tail)) = Ok s
      ∧ pump (last_ts st) (last_ts st) (lines s) = (out, last')
      ∧ t = u ++ Opened k (live_log_params cont (tail_for_open (first st) tail)) s :: ((λ l, Sent (Line l)) <$> out) ++ rest
      ∧ continues n i' j tail st out last' rest status.
Proof.
  cbn [run_live]. set (p := live_log_params _ _). intros H.
  pose proof (open_stream_ok OPEN_FUEL i 0 0 None p ltac:(unfold OPEN_FUEL; lia)) as Ho.
  destruct (open_stream _ _ OPEN_FUEL _ _ _ _ _) as [[opening i'] [s|]]; destruct Ho as [Hi Ho]; [right|left; simplify_eq; naive_solver].
  destruct Ho as (Hg & u & k & Hk & Hopen & -> & Hu). apply Forall_app in Hg as [Hg _].
  destruct (pump _ _ _) as [out last'] eqn:Ep. exists u, k, s, out, last', i'.
  destruct (session_end s) as [e|].
  - destruct (after_session _ _ _ _) as [more next] eqn:Ea.
    match type of Ea with after_session ?a ?b ?c ?d = _ => pose proof (after_session_ends a b c d) as He end. rewrite Ea in He.
    destruct next as [st'|].
    + destruct (run_live _ _ _ _ _ _ _ _) as [t' status'] eqn:Er. simplify_eq. apply after_session_next in Ea as [Hl Hp].
      exists (more ++ t'). split_and!; try done; [lia..| |].
      * by rewrite <- !(assoc_L (++)).
      * eapply ContinuesNext; [done|apply He|apply He|done|done|]. intros ->. by apply Hp.
    + simplify_eq. exists more. split_and!; try done; [lia..| |by apply ContinuesEnd; destruct He]. by rewrite <- !(assoc_L (++)).
  - simplify_eq. exists []. split_and!; try done; [lia..| |by apply ContinuesOpen]. by rewrite (right_id_L [] (++)), <- (assoc_L (++)).
Qed.

(** ** The end of the task *)

Lemma run_live_ends n i j tail st :
  let '(t, status) := run_live to_lowercase w cont n i j tail st in
  match status with Finished => ends_once t | _ => goes_on t end.
Proof.
  revert i j st. induction n as [|n IH]; intros i j st; [by constructor|].
  destruct (run_live _ _ _ (S n) _ _ _ _) as [t status] eqn:E.
  apply run_live_cases in E as [(_ & He & ->)|(u & k & s & out & last' & i' & rest & _ & Hg & _ & _ & _ & -> & Hc)]; [done|].
  assert (goes_on (u ++ Opened k (live_log_params cont (tail_for_open (first st) tail)) s :: ((λ l, Sent (Line l)) <$> out))) as Hpre.
  { apply goes_on_app; [done|]. constructor; [done|apply goes_on_lines]. }
  rewrite app_comm_cons, (assoc_L (++)). destruct Hc as [-> ->|Hq He ->|more t' st' -> Hq Hm Hr _ _].
  - by rewrite (right_id_L [] (++)).
  - by apply ends_once_app.
  - specialize (IH i' (S j) st'). rewrite Hr, (assoc_L (++)) in *. pose proof (goes_on_app _ _ Hpre Hm). destruct status;
      [by apply ends_once_app|by apply goes_on_app..].
Qed.

Lemma run_previous_ends :
  let '(t, status) := run_previous w cont in
  match status with Finished => ends_once t | Reading => goes_on t | OutOfFuel => False end.
Proof.
  unfold run_previous. destruct (opens _ _ _) as [s|e]; [|by apply ends_once_single].
  assert (∀ p, goes_on (Opened 0 p s :: ((λ l, Sent (Line l)) <$> lines s))) as H by (intros p; constructor; [done|apply goes_on_lines]).
  destruct (session_end s) as [[|e]|]; [apply ends_once_app; [apply H|by apply ends_once_single]..|apply H].
Qed.

(** The reader sends its lines one by one. *)
Definition unbatched (t : list Out) : Prop := Forall (λ o, match o with Sent (Batch _) => False | _ => True end) t.

Lemma quiet_unbatched t : quiet t → unbatched t.
Proof. intros H. eapply Forall_impl; [exact H|]. by intros [[]| |]. Qed.

Lemma lines_unbatched ls : unbatched ((λ l, Sent (Line l)) <$> ls).
Proof. unfold unbatched. rewrite Forall_fmap. by apply Forall_true. Qed.

Lemma run_live_unbatched n i j tail st : unbatched (run_live to_lowercase w cont n i j tail st).1.
Proof.
  revert i j st. induction n as [|n IH]; intros i j st; [constructor|].
  destruct (run_live _ _ _ (S n) _ _ _ _) as [t status] eqn:E. simpl.
  apply run_live_cases in E as [(Hq & _)|(u & k & s & out & last' & i' & rest & Hu & _ & _ & _ & _ & -> & Hc)]; [by apply quiet_unbatched|].
  apply Forall_app. split; [by apply quiet_unbatched|]. constructor; [done|]. apply Forall_app. split; [apply lines_unbatched|].
  destruct Hc as [-> _|Hq _ _|more t' st' -> Hq _ Hr _ _]; [constructor|by apply quiet_unbatched|].
  apply Forall_app. split; [by apply quiet_unbatched|]. specialize (IH i' (S j) st'). by rewrite Hr in IH.
Qed.

Lemma log_task_unbatched n prev tail resume_after : unbatched (log_task to_lowercase w cont n prev tail resume_after).1.
Proof.
  destruct prev; [|apply run_live_unbatched]. simpl. unfold run_previous. destruct (opens _ _ _) as [s|e]; [|by repeat constructor].
  assert (∀ t, unbatched t → unbatched ((Opened 0 (previous_log_params cont) s :: ((λ l, Sent (Line l)) <$> lines s)) ++ t)) as H.
  { intros t Ht. constructor; [done|]. apply Forall_app. by split; [apply lines_unbatched|]. }
  destruct (session_end s) as [[|e]|]; [apply H; by repeat constructor..|].
  specialize (H [] ltac:(constructor)). by rewrite (right_id_L [] (++)) in H.
Qed.

Lemma log_task_ends n prev tail resume_after :
  let '(t, status) := log_task to_lowercase w cont n prev tail resume_after in
  match status with Finished => ends_once t | Reading | OutOfFuel => goes_on t end.
Proof.
  destruct prev; simpl.
  - pose proof run_previous_ends as H. destruct (run_previous w cont) as [t []]; done.
  - pose proof (run_live_ends n 0 0 tail (start_live resume_after)) as H. by destruct (run_live _ _ _ _ _ _ _ _) as [t []].
Qed.

(** a log stream says how it ended once, with its last event: whenever the task returns it
    has sent exactly one [Ended] or [Interrupted], and nothing behind it; while it runs it has
    sent none. *)
Theorem stream_ends_once n prev tail resume_after :
  let '(t, status) := log_task to_lowercase w cont n prev tail resume_after in
  match status with Finished => ends_once t | Reading | OutOfFuel => goes_on t end.
Proof. apply log_task_ends. Qed.

(** ** Every session is paid for *)

Definition sent_lines (t : list Out) : list str := omap (λ o, match o with Sent (Line l) => Some l | _ => None end) t.

(** The requests that were answered with a stream. *)
Definition opened (t : list Out) : list nat := omap (λ o, match o with Opened k _ _ => Some k | _ => None end) t.

Lemma quiet_nothing t : quiet t → sent_lines t = [] ∧ opened t = [].
Proof. induction 1 as [|o t Ho Ht [IHl IHo]]; [done|]. by destruct o as [[]| |]. Qed.

Lemma sent_lines_app a b : sent_lines (a ++ b) = sent_lines a ++ sent_lines b.
Proof. apply omap_app. Qed.

Lemma opened_app a b : opened (a ++ b) = opened a ++ opened b.
Proof. apply omap_app. Qed.

Lemma of_lines ls : sent_lines ((λ l, Sent (Line l)) <$> ls) = ls ∧ opened ((λ l, Sent (Line l)) <$> ls) = [].
Proof. induction ls as [|l ls [IHl IHo]]; [done|]. split; [|done]. unfold sent_lines in *. simpl. by f_equal. Qed.

Lemma of_session u k p s out rest :
  quiet u →
  sent_lines (u ++ Opened k p s :: ((λ l, Sent (Line l)) <$> out) ++ rest) = out ++ sent_lines rest
  ∧ opened (u ++ Opened k p s :: ((λ l, Sent (Line l)) <$> out) ++ rest) = k :: opened rest.
Proof.
  intros [Hl Ho]%quiet_nothing. rewrite sent_lines_app, opened_app, Hl, Ho. simpl. rewrite sent_lines_app, opened_app.
  destruct (of_lines out) as [-> ->]. done.
Qed.

Lemma run_live_paced n i j tail st t :
  run_live to_lowercase w cont n i j tail st = (t, OutOfFuel) → n ≤ patience st + S PATIENCE * length (sent_lines t).
Proof.
  revert i j st t. induction n as [|n IH]; intros i j st t E; [lia|].
  apply run_live_cases in E as [(_ & _ & ?)|(u & k & s & out & last' & i' & rest & Hu & _ & _ & _ & _ & -> & Hc)]; [done|].
  destruct (of_session u k (live_log_params cont (tail_for_open (first st) tail)) s out rest Hu) as [-> _].
  destruct Hc as [_ ?|_ _ ?|more t' st' -> Hq _ Hr _ Hp]; [done..|]. apply IH in Hr.
  rewrite sent_lines_app, (proj1 (quiet_nothing more Hq)), length_app. pose proof (patience_max st').
  generalize dependent PATIENCE. intros P Hr HP. destruct out as [|l out]; [specialize (Hp eq_refl)|]; cbn [length app]; nia.
Qed.

(** ** What is forwarded *)

(** The line is behind [r]. *)
Definition newer (r : option str) (l : str) : Prop :=
  match r, line_timestamp l with Some s, Some t => str_leb t s = false | _, _ => True end.

#[global] Instance newer_dec r l : Decision (newer r l).
Proof. unfold newer. repeat case_match; apply _. Defined.

Definition earlier (a b : str) : Prop :=
  match line_timestamp a, line_timestamp b with Some s, Some t => str_leb t s = false | _, _ => False end.

Lemma earlier_newer a b : earlier a b → newer (line_timestamp a) b.
Proof. unfold earlier, newer. by repeat case_match. Qed.

Lemma leb_lt_trans a b c : str_leb b a = false → str_leb c b = false → str_leb c a = false.
Proof.
  intros H1 H2. destruct (str_leb c a) eqn:E; [|done]. destruct (str_leb_total a b) as [H|H]; [|congruence].
  rewrite (str_leb_trans c a b) in H2; congruence.
Qed.

Lemma earlier_trans a b c : earlier a b → earlier b c → earlier a c.
Proof.
  unfold earlier. destruct (line_timestamp a), (line_timestamp b), (line_timestamp c); try done. apply leb_lt_trans.
Qed.

Lemma newer_earlier r a b : newer r a → earlier a b → newer r b.
Proof.
  unfold newer, earlier. destruct r, (line_timestamp a), (line_timestamp b); try done. apply leb_lt_trans.
Qed.

#[local] Hint Resolve earlier_newer : ferris.

Lemma pump_none lt ls :
  pump None lt ls = (ls, foldl (λ a l, match line_timestamp l with Some t => Some t | None => a end) lt ls).
Proof. revert lt. induction ls as [|l ls IH]; intros lt; [done|]. simpl. rewrite IH. by destruct (line_timestamp l). Qed.

(** The lines of a session in the order of their timestamps: exactly those behind the boundary. *)
Lemma pump_sorted r ls :
  StronglySorted earlier ls → Forall (λ l, is_Some (line_timestamp l)) ls →
  pump r r ls = (filter (newer r) ls, match last (filter (newer r) ls) with Some l => line_timestamp l | None => r end).
Proof.
  induction 1 as [|l ls Hs IH Hl]; intros Ht; [done|]. apply Forall_cons in Ht as [[t Et] Ht]. simpl. rewrite Et.
  rewrite filter_cons. case_decide as Hn.
  - replace (match r with Some s => str_leb t s | None => false end) with false
      by (unfold newer in Hn; rewrite Et in Hn; by destruct r).
    assert (filter (newer r) ls = ls) as ->.
    { apply list_filter_all. rewrite Forall_forall in Hl. intros l' Hl'. specialize (Hl l' Hl'). by eapply newer_earlier. }
    rewrite pump_none. f_equal. clear -Ht Et. revert l t Et.
    induction Ht as [|l' ls [t' Et'] Ht IH]; intros l t Et; [done|]. cbn [foldl]. rewrite Et'. by apply (IH l' t').
  - replace (match r with Some s => str_leb t s | None => false end) with true; [by apply IH|].
    unfold newer in Hn. rewrite Et in Hn. destruct r; [by destruct (str_leb _ _)|done].
Qed.

(** The lines of a session, each with its timestamp, in their order. *)
Definition in_order (ls : list str) : Prop := StronglySorted earlier ls ∧ Forall (λ l, is_Some (line_timestamp l)) ls.

Lemma in_order_nil : in_order [].
Proof. split; constructor. Qed.

Lemma in_order_filter r ls : in_order ls → in_order (filter (newer r) ls) ∧ Forall (newer r) (filter (newer r) ls).
Proof.
  intros [Hs Ht]. split; [split|].
  - induction Hs as [|l ls Hs IH Hl]; [constructor|]. apply Forall_cons in Ht as [_ Ht]. rewrite filter_cons.
    case_decide; [|by apply IH]. constructor; [by apply IH|]. rewrite Forall_forall in *. intros x [_ Hx]%list_elem_of_filter. by apply Hl.
  - rewrite Forall_forall in *. intros x [_ Hx]%list_elem_of_filter. by apply Ht.
  - apply Forall_forall. by intros x [Hx _]%list_elem_of_filter.
Qed.

Lemma in_order_last ls z x : in_order ls → last ls = Some z → x ∈ ls → x = z ∨ earlier x z.
Proof.
  intros [Hs _] Hz Hx. apply last_Some in Hz as [ls' ->]. apply elem_of_app in Hx as [Hx|Hx%list_elem_of_singleton]; [right|by subst; left].
  apply list_elem_of_lookup in Hx as [n Hn]. pose proof (lookup_lt_Some _ _ _ Hn).
  eapply StronglySorted_lookup; [exact Hs| |by apply lookup_app_l_Some|by apply list_lookup_middle]. done.
Qed.

(** What is behind the last of [a] goes behind [a]. *)
Lemma in_order_app r a b :
  in_order a → in_order b → Forall (newer r) a →
  Forall (newer (match last a with Some l => line_timestamp l | None => r end)) b →
  in_order (a ++ b) ∧ Forall (newer r) (a ++ b).
Proof.
  intros Ha Hb Hna Hnb. destruct (last a) as [z|] eqn:Ez.
  2: { apply last_None in Ez as ->. done. }
  assert (∀ y, y ∈ b → earlier z y) as Hzy.
  { intros y Hy. destruct Ha as [_ Hta], Hb as [_ Htb]. rewrite Forall_forall in Hta, Htb, Hnb. destruct (Htb y Hy) as [t Et].
    destruct (Hta z) as [t' Et']; [apply last_Some in Ez as [? ->]; set_solver|]. specialize (Hnb y Hy).
    unfold newer, earlier in *. by rewrite Et, Et' in *. }
  assert (∀ x y, x ∈ a → y ∈ b → earlier x y) as Hxy.
  { intros x y Hx Hy. destruct (in_order_last a z x Ha Ez Hx) as [->|H]; [by apply Hzy|]. eapply earlier_trans; [done|by apply Hzy]. }
  split; [split|].
  - destruct Ha as [Ha _], Hb as [Hb _]. clear -Ha Hb Hxy. induction Ha as [|x a Ha IH Hx]; [done|]. simpl. constructor.
    + apply IH. intros ????. apply Hxy; [by right|done].
    + apply Forall_app. split; [done|]. apply Forall_forall. intros y Hy. apply Hxy; [by left|done].
  - apply Forall_app. split; [apply Ha|apply Hb].
  - apply Forall_app. split; [done|]. rewrite Forall_forall in Hna |- *. intros y Hy.
    eapply newer_earlier; [apply (Hna z)|by apply Hzy]. apply last_Some in Ez as [? ->]. set_solver.
Qed.

Lemma run_live_in_order n i j tail st :
  (∀ k p s, opens w k p = Ok s → in_order (lines s)) →
  let '(t, _) := run_live to_lowercase w cont n i j tail st in in_order (sent_lines t) ∧ Forall (newer (last_ts st)) (sent_lines t).
Proof.
  intros Hw. revert i j st. induction n as [|n IH]; intros i j st; [by split; [apply in_order_nil|]|].
  destruct (run_live _ _ _ (S n) _ _ _ _) as [t status] eqn:E.
  apply run_live_cases in E as [(Hq & _ & _)|(u & k & s & out & last' & i' & rest & Hu & _ & _ & Ho & Hp & -> & Hc)].
  { rewrite (proj1 (quiet_nothing t Hq)). by split; [apply in_order_nil|]. }
  destruct (of_session u k (live_log_params cont (tail_for_open (first st) tail)) s out rest Hu) as [-> _].
  destruct (Hw _ _ _ Ho) as [Hs Ht]. rewrite pump_sorted in Hp by done. injection Hp as <- <-.
  destruct (in_order_filter (last_ts st) (lines s) (conj Hs Ht)) as [Hf Hn].
  destruct Hc as [-> _|Hq _ _|more t' st' -> Hq _ Hr Hl _].
  - change (sent_lines []) with (@nil str). by rewrite (right_id_L [] (++)).
  - by rewrite (proj1 (quiet_nothing rest Hq)), (right_id_L [] (++)).
  - rewrite sent_lines_app, (proj1 (quiet_nothing more Hq)). specialize (IH i' (S j) st'). rewrite Hr in IH. destruct IH as [Hi Hn'].
    apply in_order_app; [done..|]. by rewrite <- Hl.
Qed.

(** ** Windows of one log *)

Section Windows.
Context (log : list str) (window : nat → nat * nat).

(** What request [k] reads of the log. *)
Definition read_window (p : nat * nat) : list str := drop p.1 (take p.2 log).

Lemma elem_of_window l p : l ∈ read_window p ↔ ∃ x, p.1 ≤ x < p.2 ∧ log !! x = Some l.
Proof.
  unfold read_window. rewrite list_elem_of_lookup. split.
  - intros [n Hn]. rewrite lookup_drop in Hn. apply lookup_take_Some in Hn as [Hn Hlt]. exists (p.1 + n). split; [lia|done].
  - intros (x & Hx & Hl). exists (x - p.1). rewrite lookup_drop. apply lookup_take_Some. replace (p.1 + (x - p.1)) with x by lia. split; [done|lia].
Qed.

(** The log grows, and a later request reaches back to where an earlier one ended. *)
Definition overlapping : Prop := ∀ k k', k < k' → (window k').1 ≤ (window k).2 ≤ (window k').2.

Context (Hlog : in_order log) (Hover : overlapping).
Context (Hreads : ∀ k p s, opens w k p = Ok s → lines s = read_window (window k)).

Lemma in_order_window p : in_order (read_window p).
Proof.
  destruct Hlog as [Hs Ht]. unfold read_window. split.
  - apply (StronglySorted_app_1_r _ (take p.1 (take p.2 log))). rewrite take_drop.
    apply (StronglySorted_app_1_l _ _ (drop p.2 log)). by rewrite take_drop.
  - by apply Forall_drop, Forall_take.
Qed.

Lemma log_earlier x y a b : log !! x = Some a → log !! y = Some b → x < y ↔ earlier a b.
Proof.
  destruct Hlog as [Hs Ht]. intros Ha Hb. split; [intros; by eapply StronglySorted_lookup|]. intros He.
  destruct (Nat.lt_trichotomy x y) as [?|[->|Hyx]]; [done| |].
  - simplify_eq. unfold earlier in He. case_match; [|done]. by rewrite str_leb_refl in He.
  - pose proof (StronglySorted_lookup _ _ _ _ _ _ Hs Hyx Hb Ha) as Hba. pose proof (earlier_trans _ _ _ He Hba) as Haa.
    unfold earlier in Haa. case_match; [|done]. by rewrite str_leb_refl in Haa.
Qed.

(** Newer than a line of the log: behind it. *)
Lemma log_newer x y a b : log !! x = Some a → log !! y = Some b → newer (line_timestamp a) b ↔ x < y.
Proof.
  intros Ha Hb. rewrite (log_earlier x y a b) by done. destruct Hlog as [_ Ht]. rewrite Forall_forall in Ht.
  destruct (Ht a) as [s Es]; [by eapply list_elem_of_lookup_2|]. destruct (Ht b) as [t Et]; [by eapply list_elem_of_lookup_2|].
  unfold newer, earlier. by rewrite Es, Et.
Qed.

(** The lines that are sent are those of an interval. *)
Definition interval_sent (r : option str) (t : list Out) (a b : nat) : Prop :=
  ∀ l, l ∈ sent_lines t ↔ newer r l ∧ ∃ x, a ≤ x < b ∧ log !! x = Some l.

Definition interval_covered (i : nat) (r : option str) (t : list Out) : Prop :=
  opened t = [] ∧ sent_lines t = []
  ∨ ∃ k a b, head (opened t) = Some k ∧ i ≤ k ∧ a ≤ (window k).1 ∧ Forall (λ k, (window k).2 ≤ b) (opened t) ∧ interval_sent r t a b.

Lemma run_live_interval n i j tail st : interval_covered i (last_ts st) (run_live to_lowercase w cont n i j tail st).1.
Proof.
  revert i j st. induction n as [|n IH]; intros i j st; [by left|].
  destruct (run_live _ _ _ (S n) _ _ _ _) as [t status] eqn:E. simpl.
  apply run_live_cases in E as [(Hq & _ & _)|(u & k & s & out & last' & i' & rest & Hu & _ & Hk & Ho & Hp & -> & Hc)].
  { left. by destruct (quiet_nothing t Hq). }
  destruct (of_session u k (live_log_params cont (tail_for_open (first st) tail)) s out rest Hu) as [Hsent Hopened].
  rewrite (Hreads _ _ _ Ho) in Hp. destruct (in_order_window (window k)) as [Hs Ht].
  rewrite pump_sorted in Hp by done. injection Hp as <- <-.
  assert (interval_covered i' (match last (filter (newer (last_ts st)) (read_window (window k))) with Some l => line_timestamp l | None => last_ts st end) rest) as Hr.
  { destruct Hc as [-> _|Hq _ _|more t' st' -> Hq _ Hr Hl _]; [by left|left; by destruct (quiet_nothing rest Hq)|].
    specialize (IH i' (S j) st'). rewrite Hr, Hl in IH. unfold interval_covered, interval_sent in *. 
    destruct (quiet_nothing more Hq) as [Hm1 Hm2]. by rewrite sent_lines_app, opened_app, Hm1, Hm2. }
  clear Hc IH. right. set (r := last_ts st) in *. set (out := filter (newer r) (read_window (window k))) in *.
  assert (∀ l, l ∈ out ↔ newer r l ∧ ∃ x, (window k).1 ≤ x < (window k).2 ∧ log !! x = Some l) as Hout
    by (intros l; unfold out; by rewrite list_elem_of_filter, elem_of_window).
  destruct Hr as [[Hro Hrs]|(k1 & a & b & Hhd & Hk1 & Ha & Hb & Hint)].
  { exists k, (window k).1, (window k).2. rewrite Hopened, Hro. split_and!; [done|lia|done|by repeat constructor|].
    intros l. by rewrite Hsent, Hrs, (right_id_L [] (++)). }
  assert ((window k1).1 ≤ (window k).2 ≤ (window k1).2) as Hkk by (apply Hover; lia).
  assert ((window k1).2 ≤ b) as Hk1b.
  { rewrite Forall_forall in Hb. apply Hb. destruct (opened rest); [done|]. simplify_eq/=. by left. }
  assert (∃ a', a' ≤ (window k).1 ∧ interval_sent r (u ++ Opened k (live_log_params cont (tail_for_open (first st) tail)) s :: ((λ l, Sent (Line l)) <$> out) ++ rest) a' b) as (a' & Ha' & Hint').
  2: { exists k, a', b. rewrite Hopened. split_and!; [done|lia|done|constructor; [lia|done]|done]. }
  unfold interval_sent in *. destruct (last out) as [z|] eqn:Ez.
  - exists (window k).1. split; [done|].
    assert (z ∈ out) as (Hz & xz & Hxz & Hlz)%Hout by (apply last_Some in Ez as [? ->]; set_solver).
    intros l. rewrite Hsent, elem_of_app, Hint, Hout. split.
    + intros [(Hn & x & Hx & Hl)|(Hn & x & Hx & Hl)]; [by split; [|exists x; split; [lia|]]|].
      pose proof (proj1 (log_newer xz x z l Hlz Hl) Hn) as Hlt. split; [|exists x; by split; [lia|]].
      eapply newer_earlier; [done|]. by apply (log_earlier xz x).
    + intros (Hn & x & Hx & Hl). destruct (decide (x < (window k).2)); [left; naive_solver|right].
      split; [apply (log_newer xz x z l Hlz Hl); lia|]. exists x. by split; [lia|].
  - apply last_None in Ez. exists (Nat.min (window k).1 a). split; [lia|]. intros l. rewrite Hsent, Ez. simpl. rewrite Hint. split.
    + intros (Hn & x & Hx & Hl). split; [done|]. exists x. by split; [lia|].
    + intros (Hn & x & Hx & Hl). split; [done|]. exists x. split; [|done]. destruct (decide (x < a)); [|lia].
      assert (l ∈ out) as Hl' by (apply Hout; split; [done|]; exists x; split; [lia|done]). rewrite Ez in Hl'. by apply not_elem_of_nil in Hl'.
Qed.

Lemma earlier_irrefl a : ¬ earlier a a.
Proof. unfold earlier. destruct (line_timestamp a); [|intros []]. by rewrite str_leb_refl. Qed.

Lemma in_order_unique a b : in_order a → in_order b → (∀ l, l ∈ a ↔ l ∈ b) → a = b.
Proof.
  intros [Ha _] [Hb _]. revert b Hb. induction Ha as [|x a Ha IH Hx]; intros [|y b] Hb Hab; [done|set_solver..|].
  apply StronglySorted_inv in Hb as [Hb Hy]. rewrite Forall_forall in Hx, Hy.
  assert (x = y) as ->.
  { pose proof (proj1 (Hab x) ltac:(by left)) as [?|Hxb]%elem_of_cons; [done|].
    pose proof (proj2 (Hab y) ltac:(by left)) as [?|Hya]%elem_of_cons; [done|].
    destruct (earlier_irrefl x). eapply earlier_trans; [by apply Hx|by apply Hy]. }
  f_equal. apply IH; [done|]. intros l. specialize (Hab l). rewrite !elem_of_cons in Hab.
  split; intros Hl; [specialize (Hx l Hl)|specialize (Hy l Hl)]; destruct (decide (l = y)) as [->|]; try (by destruct (earlier_irrefl y)); naive_solver.
Qed.

(** C34: reconnecting shows every line of the log once, in its order: when the timestamps of the
    log increase and every request reaches back to where an earlier one ended, the lines that
    were sent are, behind [resume_after], those of one interval of the log, which begins no later
    than the first session did and ends no earlier than any session. *)
Theorem live_contiguous n tail resume_after :
  let '(t, _) := log_task to_lowercase w cont n false tail resume_after in
  ∃ a b, sent_lines t = filter (newer resume_after) (read_window (a, b))
    ∧ (∀ k, head (opened t) = Some k → a ≤ (window k).1) ∧ Forall (λ k, (window k).2 ≤ b) (opened t).
Proof.
  pose proof (run_live_interval n 0 0 tail (start_live resume_after)) as H.
  pose proof (run_live_in_order n 0 0 tail (start_live resume_after)
    ltac:(intros k p s Ho; rewrite (Hreads _ _ _ Ho); apply in_order_window)) as Hs.
  simpl. destruct (run_live _ _ _ _ _ _ _ _) as [t status]. destruct Hs as [Hs _]. cbn [fst] in H.
  destruct H as [[Ho Hn]|(k & a & b & Hk & _ & Ha & Hb & Hint)].
  { exists 0, 0. simpl in *. rewrite Ho, Hn. split_and!; [done|intros ? [=]|constructor]. }
  exists a, b. split_and!; [|intros k' Hk'; rewrite Hk in Hk'; by injection Hk' as <-|done]. apply in_order_unique; [done|apply in_order_filter, in_order_window|].
  intros l. rewrite list_elem_of_filter, elem_of_window. apply Hint.
Qed.
End Windows.

(** with increasing timestamps in every session no line is sent twice, and none through [resume_after]. *)
Theorem live_no_repeat n tail resume_after :
  (∀ k p s, opens w k p = Ok s → in_order (lines s)) →
  let '(t, _) := log_task to_lowercase w cont n false tail resume_after in
  in_order (sent_lines t) ∧ NoDup (sent_lines t) ∧ Forall (newer resume_after) (sent_lines t).
Proof.
  intros Hw. pose proof (run_live_in_order n 0 0 tail (start_live resume_after) Hw) as Hs. simpl.
  destruct (run_live _ _ _ _ _ _ _ _) as [t status]. destruct Hs as [Hs Hn]. split_and!; [done| |done]. clear -Hs.
  destruct Hs as [Hs _]. induction Hs as [|l ls _ IH Hl]; constructor; [|done]. intros Hin. rewrite Forall_forall in Hl.
  by destruct (earlier_irrefl l (Hl l Hin)).
Qed.

(** reconnecting does not go on without output: of [n] sessions there are at most 143 for
    every line that was sent, and 142 more. *)
Theorem live_paced n prev tail resume_after t :
  log_task to_lowercase w cont n prev tail resume_after = (t, OutOfFuel) →
  n ≤ PATIENCE + S PATIENCE * length (sent_lines t).
Proof.
  destruct prev; simpl; intros H; [by pose proof run_previous_ends as Hp; rewrite H in Hp|].
  apply run_live_paced in H. exact (Nat.le_trans _ _ _ H (Nat.add_le_mono _ _ _ _ (patience_max _) (le_n _))).
Qed.
End Reads.

(** ** Samples *)

Module Samples.
Definition line (ts text : string) : str := lit ts ++ SPACE :: lit text.

Definition log : list str :=
  [line "2024-05-01T10:00:00.100000000Z" "one"; line "2024-05-01T10:00:00.200000000Z" "two";
   line "2024-05-01T10:00:01.000000000Z" "three"; line "2024-05-01T10:00:02.500000000Z" "four"].

Definition window (k : nat) : nat * nat := match k with 0 => (0, 2) | 1 => (0, 2) | _ => (1, 4) end.

Definition a_pod : Pod :=
  {| deleting := false; container_statuses := Some [{| cs_name := lit "app"; cs_state := Some {| running := true; waiting := None; terminated := None |} |}];
     restart_policy := None |}.

(** Two lines, a drop, an unreachable server, two more lines behind the one read again, the pod gone. *)
Definition world : World :=
  {| opens k _ := match k with
                  | 1 => Err (HyperError (lit "refused"))
                  | _ => Ok {| lines := read_window log (window k); session_end := Some (if decide (k = 0) then ReadError (lit "reset") else Closed) |}
                  end;
     probes j := match j with 0 => Ok (Some a_pod) | _ => Ok None end |}.

Definition run (w : World) (n : nat) : list Out * Status := log_task (λ s, s) w (Some (lit "app")) n false None None.

Example shown : sent_lines (run world 5).1 = log ∧ opened (run world 5).1 = [0; 2] ∧ (run world 5).2 = Finished.
Proof. split_and!; by vm_compute. Qed.

Lemma log_in_order : in_order log.
Proof. unfold log. split; repeat first [apply SSorted_nil|apply Forall_nil_2|apply SSorted_cons|apply Forall_cons_2]; vm_compute; eauto. Qed.

Lemma window_overlapping : overlapping window.
Proof. intros [|[|k]] [|[|k']] ?; simpl; lia. Qed.

Lemma live_contiguous_witness :
  ∃ a b, sent_lines (run world 5).1 = filter (newer None) (read_window log (a, b))
    ∧ (∀ k, head (opened (run world 5).1) = Some k → a ≤ (window k).1) ∧ Forall (λ k, (window k).2 ≤ b) (opened (run world 5).1).
Proof.
  pose proof (live_contiguous (λ s, s) world (Some (lit "app")) log window log_in_order window_overlapping) as H.
  unfold run. specialize (H ltac:(intros [|[|k]] p s Ho; [by injection Ho as <-|done|by injection Ho as <-]) 5 None None).
  destruct (log_task _ _ _ _ _ _ _) as [t status]. exact H.
Defined.

Lemma live_no_repeat_witness :
  in_order (sent_lines (run world 5).1) ∧ NoDup (sent_lines (run world 5).1) ∧ Forall (newer None) (sent_lines (run world 5).1).
Proof.
  pose proof (live_no_repeat (λ s, s) world (Some (lit "app")) 5 None None) as H. unfold run.
  specialize (H ltac:(intros [|[|k]] p s Ho; [injection Ho as <-|done|injection Ho as <-]; apply in_order_window, log_in_order)).
  destruct (log_task _ _ _ _ _ _ _) as [t status]. exact H.
Defined.

(** A server that accepts every request and closes it at once. *)
Definition empty_world : World :=
  {| opens _ _ := Ok {| lines := []; session_end := Some Closed |}; probes _ := Ok (Some a_pod) |}.

Lemma live_paced_witness : (run empty_world 5).2 = OutOfFuel ∧ (run empty_world 20).2 = Finished ∧ 5 ≤ PATIENCE.
Proof.
  split_and!; [by vm_compute..|].
  exact (live_paced (λ s, s) empty_world (Some (lit "app")) 5 false None None _ eq_refl).
Defined.

(** With the offset of a zone instead of [Z] a line has no timestamp: it is sent again by every session. *)
Definition zoned : World :=
  {| opens _ _ := Ok {| lines := [line "2024-05-01T12:00:00.100000000+02:00" "one"]; session_end := Some Closed |};
     probes j := match j with 0 => Ok (Some a_pod) | _ => Ok None end |}.

Lemma zoned_repeated :
  sent_lines (run zoned 5).1 = [line "2024-05-01T12:00:00.100000000+02:00" "one"; line "2024-05-01T12:00:00.100000000+02:00" "one"].
Proof. by vm_compute. Qed.

(** Lines of one instant that a session ended between: the second is not sent. *)
Definition instant : World :=
  {| opens k _ := Ok {| lines := take (S k) [line "2024-05-01T10:00:00.100000000Z" "one"; line "2024-05-01T10:00:00.100000000Z" "two"];
                        session_end := Some Closed |};
     probes j := match j with 0 => Ok (Some a_pod) | _ => Ok None end |}.

Lemma same_instant_lost : sent_lines (run instant 5).1 = [line "2024-05-01T10:00:00.100000000Z" "one"].
Proof. by vm_compute. Qed.

(** A chosen tail is requested again, not [DEFAULT_TAIL_LINES]. *)
Lemma reconnect_keeps_tail (n : Z) : tail_for_open false (Some n) = Some n ∧ tail_for_open false None = Some DEFAULT_TAIL_LINES.
Proof. done. Qed.

(** A crash loop is final, a container that starts is waited for. *)
Example opens_classified :
  classify_open_error (λ s, s) (Api 400 (lit "container is waiting to start: crashloopbackoff") (lit "d"))
    = Fatal (lit "container is waiting to start: crashloopbackoff")
  ∧ classify_open_error (λ s, s) (Api 400 (lit "container is waiting to start: containercreating") (lit "d"))
    = Starting (lit "container is waiting to start: containercreating")
  ∧ classify_open_error (λ s, s) (Api 503 [] (lit "d")) = Transient (lit "d").
Proof. split_and!; by vm_compute. Qed.
End Samples.
