(* ===== verification/LogFeed.v ===== *)
(** * From the log stream to the panel (app/src/commands.rs)

    The forwarder between the broadcast channel of a [LogStream] and the panel's channel
    ([spawn_log_forwarder]): lines that wait are coalesced into one [Batch], what lagged is
    counted, and the first final event ends it.

    What the receiver of the broadcast channel answers is a list: an event, how many were
    overwritten, nothing at the moment ([recv] waits then, [try_recv] does not), or that the
    sender is gone.  The panel's channel accepts by the number of the message. *)

From S2P Require Import Prelude Logs.

Inductive Recv : Set := Got (e : LogEvent) | RecvLagged (n : N) | RecvEmpty | RecvClosed.

Definition LOG_BATCH_MAX : nat := 64.

Definition stream_torn_down : LogEvent := Interrupted (lit "cluster connection reset").

Definition is_final_log_event (evt : LogEvent) : bool :=
  match evt with Ended _ | Interrupted _ => true | _ => false end.

(** The inner loop of [spawn_log_forwarder]: [room] more lines fit. *)
Fixpoint drain (room : nat) (lines : list str) (answers : list Recv) : list str * option LogEvent * list Recv :=
  match room, answers with
  | 0, _ => (lines, None, answers)
  | S _, [] => (lines, None, [])
  | S _, RecvEmpty :: answers => (lines, None, answers)
  | S room, Got (Line text) :: answers => drain room (lines ++ [text]) answers
  | S _, Got other :: answers => (lines, Some other, answers)
  | S _, RecvLagged n :: answers => (lines, Some (Lagged n), answers)
  | S _, RecvClosed :: answers => (lines, Some stream_torn_down, answers)
  end.

Definition payload_of (lines : list str) : LogEvent :=
  match lines with [text] => Line text | _ => Batch lines end.

Section Channel.
Context (accepts : nat → bool).

(** The loop of [spawn_log_forwarder] from message [k] on: what the panel was sent, and whether
    the forwarder returned.  Every round takes an answer at least. *)
Fixpoint forward_log (fuel k : nat) (answers : list Recv) : list LogEvent * bool :=
  match fuel with
  | 0 => ([], false)
  | S fuel =>
      match answers with
      | [] => ([], false)
      | RecvEmpty :: answers => forward_log fuel k answers
      | RecvLagged n :: answers =>
          if accepts k then let '(out, r) := forward_log fuel (S k) answers in (Lagged n :: out, r) else ([], true)
      | RecvClosed :: _ => (if accepts k then [stream_torn_down] else [], true)
      | Got (Line text) :: answers =>
          let '(lines, trailing, answers) := drain (LOG_BATCH_MAX - 1) [text] answers in
          let payload := payload_of lines in
          if accepts k then
            match trailing with
            | Some t =>
                if accepts (S k) then
                  if is_final_log_event t then ([payload; t], true)
                  else let '(out, r) := forward_log fuel (S (S k)) answers in (payload :: t :: out, r)
                else ([payload], true)
            | None => let '(out, r) := forward_log fuel (S k) answers in (payload :: out, r)
            end
          else ([], true)
      | Got first :: answers =>
          if accepts k then
            if is_final_log_event first then ([first], true)
            else let '(out, r) := forward_log fuel (S k) answers in (first :: out, r)
          else ([], true)
      end
  end.

Definition spawn_log_forwarder (answers : list Recv) : list LogEvent * bool := forward_log (S (length answers)) 0 answers.
End Channel.

(** ** What arrives *)

(** The events one by one. *)
Definition flat (e : LogEvent) : list LogEvent := match e with Batch ls => Line <$> ls | e => [e] end.

(** What an answer tells the panel. *)
Definition told (a : Recv) : list LogEvent :=
  match a with Got e => [e] | RecvLagged n => [Lagged n] | RecvEmpty => [] | RecvClosed => [stream_torn_down] end.

(** Through the first final event, and whether there is one. *)
Fixpoint until_final (es : list LogEvent) : list LogEvent * bool :=
  match es with
  | [] => ([], false)
  | e :: es => if is_final_log_event e then ([e], true) else let '(out, r) := until_final es in (e :: out, r)
  end.

Lemma until_final_app a b :
  Forall (λ e, is_final_log_event e = false) a → until_final (a ++ b) = (a ++ (until_final b).1, (until_final b).2).
Proof.
  induction 1 as [|e a He Ha IH]; [simpl; by destruct (until_final b)|]. simpl. rewrite He, IH. done.
Qed.

(** The inner loop loses nothing, and fills a batch at most. *)
Lemma drain_ok room lines answers :
  let '(ls, trailing, rest) := drain room lines answers in
  (Line <$> lines) ++ (answers ≫= told) = (Line <$> ls) ++ option_list trailing ++ (rest ≫= told)
  ∧ length lines ≤ length ls ≤ length lines + room ∧ length rest ≤ length answers.
Proof.
  revert lines answers. induction room as [|room IH]; intros lines answers; [by split_and!; [|lia..]|].
  destruct answers as [|[[]| | |] answers]; simpl; try (by split_and!; [|lia..]).
  - specialize (IH (lines ++ [text]) answers). destruct (drain room _ answers) as [[ls trailing] rest]. destruct IH as (IH & Hl & Hr).
    rewrite length_app in Hl. simpl in Hl. split_and!; [|lia..]. by rewrite <- IH, fmap_app, <- (assoc_L (++)).

Qed.

(** An event that is not final, line by line. *)
Lemma until_final_flat a b :
  is_final_log_event a = false → until_final (flat a ++ b) = (flat a ++ (until_final b).1, (until_final b).2).
Proof.
  intros H. apply until_final_app. destruct a; simpl in *; try by repeat constructor. rewrite Forall_fmap. by apply Forall_true.
Qed.

Lemma payload_flat lines : lines ≠ [] → flat (payload_of lines) = Line <$> lines.
Proof. by destruct lines as [|? []]. Qed.

Lemma until_final_last a b :
  is_final_log_event a = true → until_final (flat a ++ b) = ([a], true) ∧ flat a = [a].
Proof. by destruct a. Qed.

(** One message that is not final, and what goes behind it. *)
Lemma flat_step e out r es :
  is_final_log_event e = false → (out ≫= flat, r) = until_final es → ((e :: out) ≫= flat, r) = until_final (flat e ++ es).
Proof. intros He H. rewrite until_final_flat by done. rewrite <- H. done. Qed.

Lemma flat_lines ls es out r :
  (out ≫= flat, r) = until_final es → ((Line <$> ls) ++ (out ≫= flat), r) = until_final ((Line <$> ls) ++ es).
Proof. intros H. rewrite until_final_app; [by rewrite <- H|]. rewrite Forall_fmap. by apply Forall_true. Qed.

Lemma forward_log_flat fuel k answers :
  length answers < fuel →
  let '(out, r) := forward_log (λ _, true) fuel k answers in
  (out ≫= flat, r) = until_final ((answers ≫= told) ≫= flat).
Proof.
  revert k answers. induction fuel as [|fuel IH]; intros k answers Hf; [lia|].
  destruct answers as [|a answers]; [done|]. cbn [length] in Hf.
  assert (∀ k e, is_final_log_event e = false →
    let '(out, r) := let '(out, r) := forward_log (λ _, true) fuel k answers in (e :: out, r) in
    (out ≫= flat, r) = until_final (flat e ++ ((answers ≫= told) ≫= flat))) as Hone.
  { intros k' e He. specialize (IH k' answers ltac:(lia)). destruct (forward_log _ _ _ _) as [out r]. by apply flat_step. }
  destruct a as [e|n| |]; cbn [forward_log].
  2: apply (Hone (S k) (Lagged n) eq_refl).
  2: exact (IH k answers ltac:(lia)).
  2: done.
  destruct (is_final_log_event e) eqn:He.
  { destruct e; done. }
  destruct e as [text| | | | |]; try (by apply Hone); try done.
  pose proof (drain_ok (LOG_BATCH_MAX - 1) [text] answers) as Hd. destruct (drain _ [text] answers) as [[ls trailing] rest].
  destruct Hd as (Hd & Hl & Hr). assert (ls ≠ []) as Hne by (intros ->; simpl in Hl; lia).
  change ((Got (Line text) :: answers) ≫= told) with ((Line <$> [text]) ++ (answers ≫= told)). rewrite Hd, !bind_app.
  assert ((Line <$> ls) ≫= flat = Line <$> ls) as -> by (clear; induction ls as [|l ls IH]; [done|]; simpl; by f_equal).
  destruct trailing as [t|].
  - destruct (is_final_log_event t) eqn:Ht.
    + rewrite until_final_app by (rewrite Forall_fmap; by apply Forall_true).
      change ([payload_of ls; t] ≫= flat) with (flat (payload_of ls) ++ flat t ++ []). rewrite payload_flat by done.
      by destruct t.
    + specialize (IH (S (S k)) rest ltac:(lia)). destruct (forward_log _ fuel _ _) as [out r].
      change ((payload_of ls :: t :: out) ≫= flat) with (flat (payload_of ls) ++ ((t :: out) ≫= flat)). rewrite payload_flat by done.
      assert (option_list (Some t) ≫= flat = flat t) as -> by apply (right_id_L [] (++)). by apply flat_lines, flat_step.
  - specialize (IH (S k) rest ltac:(lia)). destruct (forward_log _ fuel _ _) as [out r].
    change ((payload_of ls :: out) ≫= flat) with (flat (payload_of ls) ++ (out ≫= flat)). rewrite payload_flat by done. by apply flat_lines.
Qed.

(** what the panel is sent is what the stream said: taken line by line it is the answers of
    the receiver in their order, the lagged ones as how many were lost, through the first final
    event, and the forwarder returns exactly when that was sent. *)
Theorem panel_is_told answers :
  let '(out, returned) := spawn_log_forwarder (λ _, true) answers in
  (out ≫= flat, returned) = until_final ((answers ≫= told) ≫= flat).
Proof. apply forward_log_flat. lia. Qed.

(** What is left of the answers. *)
Lemma drain_rest (P : Recv → Prop) room lines answers :
  Forall P answers →
  let '(_, trailing, rest) := drain room lines answers in
  Forall P rest ∧ match trailing with Some (Batch ls) => P (Got (Batch ls)) | _ => True end.
Proof.
  revert lines answers. induction room as [|room IH]; intros lines answers Ha; [done|].
  destruct Ha as [|[[]| | |] answers Hp Ha]; try done. by apply IH.
Qed.

(** Messages are lines, batches of two to [LOG_BATCH_MAX] lines and the events of the stream. *)
Definition fits (e : LogEvent) : Prop := match e with Batch ls => 2 ≤ length ls ≤ LOG_BATCH_MAX | _ => True end.

Lemma messages_fit accepts fuel k answers :
  Forall (λ a, match a with Got (Batch _) => False | _ => True end) answers →
  Forall fits (forward_log accepts fuel k answers).1.
Proof.
  revert k answers. induction fuel as [|fuel IH]; intros k answers Ha; [constructor|].
  destruct Ha as [|a answers Ha Hans]; [constructor|].
  assert (∀ k e, fits e → Forall fits (let '(out, r) := forward_log accepts fuel k answers in (e :: out, r)).1) as Hone.
  { intros k' e He. specialize (IH k' answers Hans). destruct (forward_log _ _ _ _) as [out r]. by constructor. }
  destruct a as [e|n| |]; cbn [forward_log].
  2: destruct (accepts k); [by apply Hone|constructor].
  2: by apply IH.
  2: destruct (accepts k); by repeat constructor.
  assert (match e with Line _ => True | _ => Forall fits
    (if accepts k then if is_final_log_event e then ([e], true) else let '(out, r) := forward_log accepts fuel (S k) answers in (e :: out, r)
     else ([], true)).1 end) as Hother.
  { destruct e; try done; (destruct (accepts k); [|constructor]); simpl; try (by repeat constructor); by apply Hone. }
  destruct e as [text| | | | |]; try done. clear Hone Hother.
  pose proof (drain_rest _ (LOG_BATCH_MAX - 1) [text] answers Hans) as Hd. pose proof (drain_ok (LOG_BATCH_MAX - 1) [text] answers) as Hl.
  destruct (drain _ [text] answers) as [[ls trailing] rest]. destruct Hd as [Hrest Ht], Hl as (_ & Hl & _).
  assert (fits (payload_of ls)) as Hp
    by (unfold payload_of; destruct ls as [|? []]; simpl in *; [lia|done|unfold LOG_BATCH_MAX in *; lia]).
  destruct (accepts k); [|constructor]. destruct trailing as [t|].
  - assert (fits t) as Hft by (by destruct t). destruct (accepts (S k)); [|by repeat constructor].
    destruct (is_final_log_event t); [by repeat constructor|]. specialize (IH (S (S k)) rest Hrest).
    destruct (forward_log _ _ _ _) as [out r]. by repeat constructor.
  - specialize (IH (S k) rest Hrest). destruct (forward_log _ _ _ _) as [out r]. by constructor.
Qed.

(** The reader's events, whatever waits in between. *)
Definition sent_events (t : list Out) : list LogEvent := omap (λ o, match o with Sent e => Some e | _ => None end) t.

Lemma until_final_goes_on t :
  goes_on t → ∀ es, until_final (sent_events t ++ es) = (sent_events t ++ (until_final es).1, (until_final es).2).
Proof.
  intros Ht es. apply until_final_app. induction Ht as [|o t Ho Ht IH]; [constructor|]. destruct o as [e| |]; [|done..].
  constructor; [|done]. by destruct e.
Qed.

Lemma until_final_ends t : ends_once t → until_final (sent_events t) = (sent_events t, true).
Proof.
  intros (t' & e & -> & He & Ht'). unfold sent_events. rewrite omap_app. rewrite (until_final_goes_on t' Ht').
  destruct e; done.
Qed.

Lemma sent_events_flat t : unbatched t → sent_events t ≫= flat = sent_events t.
Proof.
  induction 1 as [|o t Ho Ht IH]; [done|]. destruct o as [e| |]; [|done..].
  change (flat e ++ (sent_events t ≫= flat) = e :: sent_events t). rewrite IH. by destruct e.
Qed.

Lemma sent_events_app a b : sent_events (a ++ b) = sent_events a ++ sent_events b.
Proof. apply omap_app. Qed.

(** What was sent before the end goes on. *)
Lemma before_the_end t' t'' : ends_once (t' ++ t'') → t'' ≠ [] → goes_on t'.
Proof.
  intros (u & e & Heq & _ & Hu) Hne. destruct (exists_last Hne) as (v & o & ->). rewrite (assoc_L (++)) in Heq.
  apply app_inj_tail in Heq as [<- _]. by apply Forall_app in Hu as [Hu _].
Qed.

(** C33: the panel sees the stream: a receiver that kept up hands it the events of the reader, in
    their order, with the final one last, and the forwarder returns when the reader has; and when
    the reader was aborted before its end, the panel sees what was sent and then that the
    connection was reset. *)
Theorem panel_sees_stream to_lowercase w cont n prev tail resume_after answers :
  let '(t, status) := log_task to_lowercase w cont n prev tail resume_after in
  let '(out, returned) := spawn_log_forwarder (λ _, true) answers in
  (answers ≫= told = sent_events t → out ≫= flat = sent_events t ∧ returned = match status with Finished => true | _ => false end)
  ∧ (∀ t' t'', t = t' ++ t'' → t'' ≠ [] ∨ status ≠ Finished → answers ≫= told = sent_events t' ++ [stream_torn_down] →
     out ≫= flat = sent_events t' ++ [stream_torn_down] ∧ returned = true).
Proof.
  pose proof (log_task_ends to_lowercase w cont n prev tail resume_after) as He.
  pose proof (log_task_unbatched to_lowercase w cont n prev tail resume_after) as Hb.
  destruct (log_task _ _ _ _ _ _ _) as [t status]. cbn [fst] in Hb.
  pose proof (forward_log_flat (S (length answers)) 0 answers ltac:(lia)) as Hf. unfold spawn_log_forwarder.
  destruct (forward_log _ _ _ _) as [out returned]. split.
  - intros Ht. rewrite Ht, sent_events_flat in Hf by done.
    destruct status; [rewrite until_final_ends in Hf by done|
      pose proof (until_final_goes_on t He []) as Hu; cbn [until_final fst snd] in Hu; rewrite !(right_id_L [] (++)) in Hu; rewrite Hu in Hf..];
      by injection Hf as -> ->.
  - intros t' t'' -> Hmore Ht. rewrite Ht, bind_app in Hf. apply Forall_app in Hb as [Hb _]. rewrite sent_events_flat in Hf by done.
    assert (goes_on t') as Hg.
    { destruct status; [destruct Hmore; [by eapply before_the_end|done]|by apply Forall_app in He as [He _]..]. }
    rewrite until_final_goes_on in Hf by done. by injection Hf as -> ->.
Qed.

(** ** Samples *)

Module Samples.
(** The lines of a burst come in one batch with what follows them. *)
Example coalesced :
  spawn_log_forwarder (λ _, true)
    [Got (Waiting (lit "w")); RecvEmpty; Got (Line (lit "a")); Got (Line (lit "b")); RecvLagged 3; Got (Line (lit "c")); RecvEmpty;
     Got (Line (lit "d")); Got (Ended (lit "e")); Got (Line (lit "never"))]
  = ([Waiting (lit "w"); Batch [lit "a"; lit "b"]; Lagged 3; Line (lit "c"); Line (lit "d"); Ended (lit "e")], true).
Proof. by vm_compute. Qed.

Example full_batch :
  (spawn_log_forwarder (λ _, true) (repeat (Got (Line [])) 130)).1 = [Batch (repeat [] 64); Batch (repeat [] 64); Batch (repeat [] 2)].
Proof. by vm_compute. Qed.

(** A panel that is gone ends the forwarder. *)
Example gone : spawn_log_forwarder (λ k, k <? 1) [Got (Line (lit "a")); RecvEmpty; Got (Line (lit "b")); RecvEmpty] = ([Line (lit "a")], true).
Proof. by vm_compute. Qed.

Definition said : list LogEvent := sent_events (Logs.Samples.run Logs.Samples.world 5).1.

Lemma panel_sees_stream_witness :
  (spawn_log_forwarder (λ _, true) (Got <$> said)).1 ≫= flat = said ∧ (spawn_log_forwarder (λ _, true) (Got <$> said)).2 = true
  ∧ length said = 7.
Proof.
  pose proof (panel_sees_stream (λ s, s) Logs.Samples.world (Some (lit "app")) 5 false None None (Got <$> said)) as H.
  assert (log_task (λ s, s) Logs.Samples.world (Some (lit "app")) 5 false None None = ((Logs.Samples.run Logs.Samples.world 5).1, Finished)) as E
    by (by vm_compute).
  rewrite E in H. destruct (spawn_log_forwarder _ _) as [out returned]. destruct H as [H _]. destruct H as [Ho Hr].
  - by vm_compute.
  - split_and!; [exact Ho|exact Hr|by vm_compute].
Defined.
End Samples.
