(* ===== verification/LogPods.v ===== *)
(** * The pods of a log view (kube-ext/src/log_pods.rs)

    What the operator selected resolved to pods ([resolve_log_pods]), the label selector of a
    workload as a query ([selector_query]), and the watch that keeps the set of pods current
    ([watch_step], the body of [LogPodWatch::start]'s loop).

    The answers of the API server are the arguments of the sections; a map is a [gmap], its
    iteration the sorted list of its entries.  Label maps are their entries in key order. *)

From Stdlib Require Import Sorted.
From stdpp Require Import sorting.
From S2P Require Import Prelude Order.

Definition MAX_RESOLVED_PODS : nat := 500.

Record LogPodTarget : Set := { kind_id : str; target_namespace : str; target_name : str }.

Inductive LogContainerKind : Set := Init | Sidecar | Main.

#[global] Instance LogContainerKind_eq_dec : EqDecision LogContainerKind.
Proof. solve_decision. Defined.

Record LogContainer : Set := { lc_name : str; lc_kind : LogContainerKind }.

#[global] Instance LogContainer_eq_dec : EqDecision LogContainer.
Proof. solve_decision. Defined.

Record ResolvedLogPod : Set := { rp_namespace : str; rp_name : str; rp_containers : list LogContainer }.

#[global] Instance ResolvedLogPod_eq_dec : EqDecision ResolvedLogPod.
Proof. solve_decision. Defined.

Record ResolvedLogPods : Set := { rps_pods : list ResolvedLogPod; rps_warnings : list str }.

(** As far as the code looks into the objects. *)
Record Container : Set := { c_name : str; c_restart_policy : option str }.

Record PodSpec : Set := { init_containers : option (list Container); containers : list Container }.

Record Pod : Set := { meta_namespace : option str; meta_name : option str; pod_spec : option PodSpec }.

Record Requirement : Set := { req_key : str; operator : str; req_values : option (list str) }.

Record LabelSelector : Set := { match_labels : option (list (str * str)); match_expressions : option (list Requirement) }.

Inductive FetchError : Set := UnknownKind (kind : str) | Kube (display : str) | NoSelector (name : str).

Definition fetch_error_text (e : FetchError) : str :=
  match e with
  | UnknownKind k => lit "unknown kind: " ++ k
  | Kube d => lit "kube error: " ++ d
  | NoSelector n => n ++ lit " has no usable pod selector " ++ 8212%N :: lit " can't list its pods"
  end.

(** ** Selectors *)

Definition requirement_term (e : Requirement) : option str :=
  let values := default [] (req_values e) in
  if decide (operator e = lit "In") then Some (req_key e ++ lit " in (" ++ join (lit ",") values ++ lit ")")
  else if decide (operator e = lit "NotIn") then Some (req_key e ++ lit " notin (" ++ join (lit ",") values ++ lit ")")
  else if decide (operator e = lit "Exists") then Some (req_key e)
  else if decide (operator e = lit "DoesNotExist") then Some (lit "!" ++ req_key e)
  else None.

Definition selector_query (sel : LabelSelector) : option str :=
  let parts : list str := (λ '(k, v), k ++ lit "=" ++ v) <$> default [] (match_labels sel) in
  exprs ← mapM requirement_term (default [] (match_expressions sel));
  match parts ++ exprs with [] => None | parts => Some (join (lit ",") parts) end.

(** ** Pods *)

Definition log_containers (pod : Pod) : list LogContainer :=
  match pod_spec pod with
  | None => []
  | Some spec =>
      ((λ c, {| lc_name := c_name c;
                lc_kind := if decide (c_restart_policy c = Some (lit "Always")) then Sidecar else Init |})
        <$> default [] (init_containers spec))
      ++ ((λ c, {| lc_name := c_name c; lc_kind := Main |}) <$> containers spec)
  end.

Definition resolved_from_pod (pod : Pod) : ResolvedLogPod :=
  {| rp_namespace := default [] (meta_namespace pod); rp_name := default [] (meta_name pod); rp_containers := log_containers pod |}.

Definition kind_label (kind_id : str) : str :=
  if decide (kind_id = lit "pods") then lit "Pod"
  else if decide (kind_id = lit "deployments") then lit "Deployment"
  else if decide (kind_id = lit "statefulsets") then lit "StatefulSet"
  else if decide (kind_id = lit "daemonsets") then lit "DaemonSet"
  else if decide (kind_id = lit "replicasets") then lit "ReplicaSet"
  else if decide (kind_id = lit "jobs") then lit "Job"
  else kind_id.

Definition PodKey : Type := str * str.

Definition key_of (p : ResolvedLogPod) : PodKey := (rp_namespace p, rp_name p).

(** The order of a [BTreeMap] with these keys. *)
Definition key_cmp : PodKey → PodKey → comparison := lex (by_key fst str_cmp) (by_key snd str_cmp).

Definition into_values {A} (m : gmap PodKey A) : list A := (sort_by (by_key fst key_cmp) (map_to_list m)).*2.

Definition keys {A} (m : gmap PodKey A) : list PodKey := (sort_by (by_key fst key_cmp) (map_to_list m)).*1.

(** ** Resolving *)

Section Resolve.
(** The server: a pod, the selector of a workload, that of a job, and the pods of a query. *)
Context (get_pod : str → str → result Pod str).
Context (get_workload : str → str → str → result (option LabelSelector) str).
Context (get_job : str → str → result (option (option LabelSelector)) str).
Context (list_pods : str → str → result (list Pod) str).

Definition kube {A} (r : result A str) : result A FetchError := match r with Ok a => Ok a | Err e => Err (Kube e) end.

Definition workload_selector (kind_id namespace name : str) : result (option LabelSelector) FetchError :=
  if bool_decide (kind_id ∈ lit <$> ["deployments"; "statefulsets"; "daemonsets"; "replicasets"]%string)
  then kube (get_workload kind_id namespace name)
  else if decide (kind_id = lit "jobs") then
    match kube (get_job namespace name) with Ok s => Ok (s ≫= id) | Err e => Err e end
  else Err (UnknownKind kind_id).

Definition list_by_selector (t : LogPodTarget) (selector : option LabelSelector) : result (list ResolvedLogPod) FetchError :=
  match selector ≫= selector_query with
  | None => Err (NoSelector (target_name t))
  | Some query =>
      match kube (list_pods (target_namespace t) query) with
      | Ok items => Ok (resolved_from_pod <$> items)
      | Err e => Err e
      end
  end.

Definition resolve_one (t : LogPodTarget) : result (list ResolvedLogPod) FetchError :=
  if decide (kind_id t = lit "pods") then
    match kube (get_pod (target_namespace t) (target_name t)) with
    | Ok pod => Ok [resolved_from_pod pod]
    | Err e => Err e
    end
  else
    match workload_selector (kind_id t) (target_namespace t) (target_name t) with
    | Ok selector => list_by_selector t selector
    | Err e => Err e
    end.

Definition target_text (t : LogPodTarget) : str :=
  kind_label (kind_id t) ++ lit " " ++ target_namespace t ++ lit "/" ++ target_name t ++ lit ": ".

(** [seen.entry(..).or_insert(p)] *)
Definition or_insert (seen : gmap PodKey ResolvedLogPod) (p : ResolvedLogPod) : gmap PodKey ResolvedLogPod :=
  match seen !! key_of p with Some _ => seen | None => <[key_of p := p]> seen end.

(** One round of the loop over the results. *)
Definition merge_one (acc : gmap PodKey ResolvedLogPod * list str) (t : LogPodTarget) : gmap PodKey ResolvedLogPod * list str :=
  let '(seen, warnings) := acc in
  match resolve_one t with
  | Ok pods =>
      (foldl or_insert seen pods,
       if bool_decide (pods = []) && negb (bool_decide (kind_id t = lit "pods"))
       then warnings ++ [target_text t ++ lit "no pods matched its selector"] else warnings)
  | Err e => (seen, warnings ++ [target_text t ++ fetch_error_text e])
  end.

Definition truncate_pods (out : ResolvedLogPods) : ResolvedLogPods :=
  if MAX_RESOLVED_PODS <? length (rps_pods out) then
    let dropped := length (rps_pods out) - MAX_RESOLVED_PODS in
    {| rps_pods := take MAX_RESOLVED_PODS (rps_pods out);
       rps_warnings := rps_warnings out ++
         [lit "selection matched too many pods " ++ 8212%N :: lit " showing the first " ++ nat_str MAX_RESOLVED_PODS
          ++ lit ", " ++ nat_str dropped ++ lit " more omitted"] |}
  else out.

Definition resolve_log_pods (targets : list LogPodTarget) : ResolvedLogPods :=
  let '(seen, warnings) := foldl merge_one (∅, []) targets in
  truncate_pods {| rps_pods := into_values seen; rps_warnings := warnings |}.

(** [start_log_pod_watch]: the query that is watched. *)
Definition start_log_pod_watch (target : LogPodTarget) : result str FetchError :=
  match workload_selector (kind_id target) (target_namespace target) (target_name target) with
  | Ok selector => match selector ≫= selector_query with Some query => Ok query | None => Err (NoSelector (target_name target)) end
  | Err e => Err e
  end.
End Resolve.

(** ** The watch *)

Inductive LogPodEvent : Set :=
  | Added (pod : ResolvedLogPod)
  | Removed (namespace name : str)
  | InitDone.

(** kube::runtime::watcher::Event, and an error of the stream. *)
Inductive WatchEvent : Set :=
  | WInit
  | WInitApply (pod : Pod)
  | WInitDone
  | WApply (pod : Pod)
  | WDelete (pod : Pod)
  | WErr.

Abbreviation Seen := (gmap PodKey (list LogContainer)).

Definition upsert_pod (seen : Seen) (pod : ResolvedLogPod) : Seen * option LogPodEvent :=
  if decide (seen !! key_of pod = Some (rp_containers pod)) then (seen, None)
  else (<[key_of pod := rp_containers pod]> seen, Some (Added pod)).

Definition remove_pod (seen : Seen) (namespace name : str) : Seen * option LogPodEvent :=
  match seen !! (namespace, name) with
  | Some _ => (delete (namespace, name) seen, Some (Removed namespace name))
  | None => (seen, None)
  end.

Record Watch : Type := { seen : Seen; init_keys : option (gset PodKey) }.

Definition new_watch : Watch := {| seen := ∅; init_keys := None |}.

(** The keys that a list did not have leave, in their order. *)
Fixpoint remove_all (seen : Seen) (stale : list PodKey) : Seen * list LogPodEvent :=
  match stale with
  | [] => (seen, [])
  | (ns, name) :: stale =>
      let '(seen, ev) := remove_pod seen ns name in
      let '(seen, evs) := remove_all seen stale in (seen, option_list ev ++ evs)
  end.

(** One event of the stream: what is broadcast, and the state after it. *)
Definition watch_step (w : Watch) (event : WatchEvent) : Watch * list LogPodEvent :=
  match event with
  | WInit => ({| seen := seen w; init_keys := Some ∅ |}, [])
  | WInitApply pod =>
      let r := resolved_from_pod pod in
      let '(seen', ev) := upsert_pod (seen w) r in
      ({| seen := seen'; init_keys := (λ keys, {[key_of r]} ∪ keys) <$> init_keys w |}, option_list ev)
  | WApply pod =>
      let '(seen', ev) := upsert_pod (seen w) (resolved_from_pod pod) in
      ({| seen := seen'; init_keys := init_keys w |}, option_list ev)
  | WDelete pod =>
      let '(seen', ev) := remove_pod (seen w) (default [] (meta_namespace pod)) (default [] (meta_name pod)) in
      ({| seen := seen'; init_keys := init_keys w |}, option_list ev)
  | WInitDone =>
      match init_keys w with
      | Some ks =>
          let '(seen', evs) := remove_all (seen w) (filter (λ k, k ∉ ks) (keys (seen w))) in
          ({| seen := seen'; init_keys := None |}, evs ++ [InitDone])
      | None => (w, [InitDone])
      end
  | WErr => (w, [])
  end.

Fixpoint watch_run (w : Watch) (events : list WatchEvent) : Watch * list LogPodEvent :=
  match events with
  | [] => (w, [])
  | event :: events =>
      let '(w, out) := watch_step w event in
      let '(w, out') := watch_run w events in (w, out ++ out')
  end.

(** ** The set of the panel *)

(** What the panel makes of an event. *)
Definition panel_apply (m : Seen) (e : LogPodEvent) : Seen :=
  match e with
  | Added pod => <[key_of pod := rp_containers pod]> m
  | Removed namespace name => delete (namespace, name) m
  | InitDone => m
  end.

(** Every event but [InitDone] changes the set. *)
Fixpoint effective (m : Seen) (es : list LogPodEvent) : Prop :=
  match es with
  | [] => True
  | e :: es => (e = InitDone ∨ panel_apply m e ≠ m) ∧ effective (panel_apply m e) es
  end.

Lemma effective_app m a b : effective m (a ++ b) ↔ effective m a ∧ effective (foldl panel_apply m a) b.
Proof. revert m. induction a as [|e a IH]; intros m; simpl; [tauto|]. rewrite IH. tauto. Qed.

(** The panel follows: from [m] the events lead to [m']. *)
Definition follows (m m' : Seen) (es : list LogPodEvent) : Prop := foldl panel_apply m es = m' ∧ effective m es.

Lemma follows_app m m' m'' a b : follows m m' a → follows m' m'' b → follows m m'' (a ++ b).
Proof. intros [<- Ha] [<- Hb]. split; [apply foldl_app|]. by apply effective_app. Qed.

Lemma follows_nil m : follows m m [].
Proof. done. Qed.

Lemma upsert_ok m p :
  let '(m', ev) := upsert_pod m p in m' = <[key_of p := rp_containers p]> m ∧ follows m m' (option_list ev).
Proof.
  unfold upsert_pod. case_decide as H; [by rewrite insert_id|]. split; [done|]. split; [done|]. split; [|done]. right. simpl. intros He. apply H. rewrite <- He. apply lookup_insert_eq.
Qed.

Lemma remove_ok m ns name :
  let '(m', ev) := remove_pod m ns name in m' = delete (ns, name) m ∧ follows m m' (option_list ev).
Proof.
  unfold remove_pod. destruct (m !! (ns, name)) as [c|] eqn:E; [|by rewrite delete_id].
  split; [done|]. split; [done|]. split; [|done]. right. simpl. intros He. assert (delete (ns, name) m !! (ns, name) = Some c) as H by (by rewrite He).
  by rewrite lookup_delete_eq in H.
Qed.

Lemma remove_all_ok m stale :
  let '(m', evs) := remove_all m stale in follows m m' evs ∧ ∀ k, m' !! k = if decide (k ∈ stale) then None else m !! k.
Proof.
  revert m. induction stale as [|[ns name] stale IH]; intros m; [by split; [apply follows_nil|]|]. simpl.
  pose proof (remove_ok m ns name) as Hr. destruct (remove_pod m ns name) as [m1 ev]. destruct Hr as [-> Hr].
  specialize (IH (delete (ns, name) m)). destruct (remove_all _ _) as [m2 evs]. destruct IH as [Hf Hl].
  split; [by eapply follows_app|]. intros k. rewrite Hl. destruct (decide (k = (ns, name))) as [->|Hne].
  - rewrite lookup_delete_eq. repeat case_decide; set_solver.
  - rewrite lookup_delete_ne by done. repeat case_decide; set_solver.
Qed.

Lemma elem_of_keys {A} (m : gmap PodKey A) k : k ∈ keys m ↔ is_Some (m !! k).
Proof.
  unfold keys. rewrite sort_by_perm, list_elem_of_fmap. split.
  - intros ([k' a] & -> & H%elem_of_map_to_list). by eexists.
  - intros [a H]. exists (k, a). by rewrite elem_of_map_to_list.
Qed.

(** What the API server last told: the pods of the last list with what changed since, and the
    list that is being read.  While it is read, and when it is given up and read again, the
    pods that were shown stay. *)
Record Told : Type := { store : Seen; buffer : option Seen }.

Definition current (t : Told) : Seen := match buffer t with Some b => b ∪ store t | None => store t end.

Definition tell (t : Told) (event : WatchEvent) : Told :=
  let put pod m := <[key_of (resolved_from_pod pod) := log_containers pod]> m in
  match event with
  | WInit => {| store := current t; buffer := Some ∅ |}
  | WInitApply pod => {| store := store t; buffer := put pod <$> buffer t |}
  | WInitDone => {| store := default (store t) (buffer t); buffer := None |}
  | WApply pod => {| store := put pod (store t); buffer := buffer t |}
  | WDelete pod => {| store := delete (default [] (meta_namespace pod), default [] (meta_name pod)) (store t); buffer := buffer t |}
  | WErr => t
  end.

Definition listing (t : Told) : bool := match buffer t with Some _ => true | None => false end.

(** The watcher lists, and then watches. *)
Fixpoint phased (t : Told) (events : list WatchEvent) : Prop :=
  match events with
  | [] => True
  | event :: events =>
      match event with
      | WInitApply _ => listing t = true
      | WApply _ | WDelete _ => listing t = false
      | _ => True
      end ∧ phased (tell t event) events
  end.

Definition tracks (w : Watch) (t : Told) : Prop := seen w = current t ∧ init_keys w = (λ b, dom b) <$> buffer t.

Lemma watch_step_tracks w t event :
  tracks w t → phased t [event] →
  let '(w', out) := watch_step w event in tracks w' (tell t event) ∧ follows (seen w) (seen w') out.
Proof.
  intros [Hs Hk] [Hp _]. destruct w as [sn ik], t as [st bf]. unfold tracks, listing, current in *. simpl in *. subst sn ik.
  destruct event as [|pod| |pod|pod|]; simpl in *.
  - split; [|apply follows_nil]. split; [|by rewrite dom_empty_L]. by rewrite (left_id_L ∅ (∪)).
  - destruct bf as [b|]; [|done]. simpl. pose proof (upsert_ok (b ∪ st) (resolved_from_pod pod)) as Hu.
    destruct (upsert_pod _ _) as [m' ev]. destruct Hu as [-> Hf]. split; [split|done]; simpl.
    + by rewrite insert_union_l.
    + f_equal. by rewrite dom_insert_L.
  - assert (∀ m, follows m m [InitDone]) as Hdone by (by intros m; split; [|split; [left|]]).
    destruct bf as [b|]; simpl; [|by split].
    pose proof (remove_all_ok (b ∪ st) (filter (λ k, k ∉ dom b) (keys (b ∪ st)))) as Hr.
    destruct (remove_all _ _) as [m' evs]. destruct Hr as [Hf Hl]. split; [split; [|done]|].
    + apply map_eq. intros k. rewrite Hl. case_decide as Hin.
      * apply list_elem_of_filter in Hin as [Hin _]. symmetry. by apply not_elem_of_dom in Hin.
      * destruct (b !! k) as [c|] eqn:E; [by apply lookup_union_Some_l|]. rewrite lookup_union_r by done.
        destruct (st !! k) as [c|] eqn:E'; [|done]. destruct Hin. apply list_elem_of_filter. split; [by apply not_elem_of_dom|].
        apply elem_of_keys. rewrite lookup_union_r by done. by eexists.
    + by eapply follows_app; [exact Hf|].
  - destruct bf; [done|]. pose proof (upsert_ok st (resolved_from_pod pod)) as Hu. destruct (upsert_pod _ _) as [m' ev].
    destruct Hu as [-> Hf]. by split.
  - destruct bf; [done|]. pose proof (remove_ok st (default [] (meta_namespace pod)) (default [] (meta_name pod))) as Hu.
    destruct (remove_pod _ _ _) as [m' ev]. destruct Hu as [-> Hf]. by split.
  - by split; [|apply follows_nil].
Qed.

Lemma watch_run_tracks w t events :
  tracks w t → phased t events →
  let '(w', out) := watch_run w events in tracks w' (foldl tell t events) ∧ follows (seen w) (seen w') out.
Proof.
  revert w t. induction events as [|event events IH]; intros w t Ht Hp; [by split; [|apply follows_nil]|]. destruct Hp as [Hp Hps]. simpl.
  pose proof (watch_step_tracks w t event Ht (conj Hp I)) as Hstep. destruct (watch_step w event) as [w1 out]. destruct Hstep as [Ht1 Hf1].
  specialize (IH w1 (tell t event) Ht1 Hps). destruct (watch_run w1 events) as [w2 out']. destruct IH as [Ht2 Hf2].
  split; [done|]. by eapply follows_app.
Qed.

Definition nothing_told : Told := {| store := ∅; buffer := None |}.

(** C39: the set of pods that the panel builds from the events of the watch is what the API
    server last told, each pod with its containers, also when a relist shows that pods left
    while nothing was watched, and every event changes the set: a status heartbeat sends
    nothing. *)
Theorem panel_is_current events :
  phased nothing_told events →
  let '(_, out) := watch_run new_watch events in
  foldl panel_apply ∅ out = current (foldl tell nothing_told events) ∧ effective ∅ out.
Proof.
  intros Hp. pose proof (watch_run_tracks new_watch nothing_told events (conj eq_refl eq_refl) Hp) as H.
  destruct (watch_run new_watch events) as [w out]. destruct H as [[Hs _] [Hf He]]. by rewrite <- Hs, <- Hf.
Qed.

(** After a relist: the pods that were listed, whatever was shown before. *)
Lemma relisted_is_listed t pods :
  current (foldl tell t (WInit :: (WInitApply <$> pods) ++ [WInitDone]))
  = foldl (λ m pod, <[key_of (resolved_from_pod pod) := log_containers pod]> m) ∅ pods.
Proof.
  cbn [foldl]. rewrite foldl_app. simpl. generalize (current t) as st. intros st.
  assert (∀ b, foldl tell {| store := st; buffer := Some b |} (WInitApply <$> pods)
    = {| store := st; buffer := Some (foldl (λ m pod, <[key_of (resolved_from_pod pod) := log_containers pod]> m) b pods) |}) as ->; [|done].
  induction pods as [|pod pods IH]; intros b; [done|]. rewrite fmap_cons. simpl. apply IH.
Qed.

(** ** What is resolved *)

#[local] Instance key_cmp_comparator : Comparator key_cmp := _.
#[local] Instance key_cmp_distinguishes : Distinguishes key_cmp.
Proof.
  intros [a1 a2] [b1 b2]. unfold key_cmp, lex, by_key, then_with. simpl. intros H. destruct (str_cmp a1 b1) eqn:E; try done.
  apply (cmp_eq (cmp := str_cmp)) in E, H. by subst.
Qed.

Definition key_lt (a b : ResolvedLogPod) : Prop := key_cmp (key_of a) (key_of b) = Lt.

(** A map from keys to the pods that have them. *)
Definition keyed (m : gmap PodKey ResolvedLogPod) : Prop := ∀ k p, m !! k = Some p → key_of p = k.

Lemma elem_of_into_values (m : gmap PodKey ResolvedLogPod) p :
  keyed m → p ∈ into_values m ↔ m !! key_of p = Some p.
Proof.
  intros Hm. unfold into_values. rewrite sort_by_perm, list_elem_of_fmap. split.
  - intros ([k p'] & -> & H%elem_of_map_to_list). simpl. by rewrite (Hm k p' H).
  - intros H. exists (key_of p, p). by rewrite elem_of_map_to_list.
Qed.

Lemma into_values_sorted (m : gmap PodKey ResolvedLogPod) : keyed m → StronglySorted key_lt (into_values m).
Proof.
  intros Hm. unfold into_values. pose proof (sort_by_sorted (by_key fst key_cmp) (map_to_list m)) as Hs.
  assert (NoDup (sort_by (by_key fst key_cmp) (map_to_list m)).*1) as Hnd
    by (rewrite sort_by_perm; apply NoDup_fst_map_to_list).
  assert (Forall (λ kp, key_of kp.2 = kp.1) (sort_by (by_key fst key_cmp) (map_to_list m))) as Hk.
  { rewrite sort_by_perm. apply Forall_forall. intros [k p] H%elem_of_map_to_list. by apply Hm. }
  induction Hs as [|[k p] l Hs IH Hl]; [constructor|]. apply NoDup_cons in Hnd as [Hn Hnd]. apply Forall_cons in Hk as [Hkp Hk].
  rewrite fmap_cons. constructor; [by apply IH|]. apply Forall_fmap. rewrite Forall_forall in Hl, Hk |- *. intros [k' p'] Hin.
  specialize (Hl _ Hin). specialize (Hk _ Hin). simpl in *. unfold key_lt. simpl. rewrite Hkp, Hk. unfold at_most, by_key in Hl. simpl in Hl.
  destruct (key_cmp k k') eqn:E; [|done|done]. apply (cmp_eq (cmp := key_cmp)) in E as ->. destruct Hn.
  apply list_elem_of_fmap. by exists (k', p').
Qed.

Lemma lookup_or_inserts m ps k :
  foldl or_insert m ps !! k = match m !! k with Some q => Some q | None => head (filter (λ q, key_of q = k) ps) end.
Proof.
  revert m. induction ps as [|p ps IH]; intros m; [simpl; by destruct (m !! k)|]. simpl. rewrite IH, filter_cons. unfold or_insert.
  destruct (m !! key_of p) as [p'|] eqn:E.
  - destruct (m !! k) eqn:Ek; [done|]. by rewrite decide_False by congruence.
  - destruct (decide (key_of p = k)) as [<-|Hne]; [by rewrite lookup_insert_eq, E|by rewrite lookup_insert_ne].
Qed.

Lemma keyed_inserts ps : keyed (foldl or_insert ∅ ps).
Proof.
  intros k p. rewrite lookup_or_inserts, lookup_empty. intros H. apply head_Some_elem_of in H. by apply list_elem_of_filter in H as [H _].
Qed.

Section Resolved.
Context (get_pod : str → str → result Pod str).
Context (get_workload : str → str → str → result (option LabelSelector) str).
Context (get_job : str → str → result (option (option LabelSelector)) str).
Context (list_pods : str → str → result (list Pod) str).

Let resolve := resolve_one get_pod get_workload get_job list_pods.

(** The pods of a target. *)
Definition answered (t : LogPodTarget) : list ResolvedLogPod := match resolve t with Ok pods => pods | Err _ => [] end.

(** What is said of a target. *)
Definition complaint (t : LogPodTarget) : list str :=
  match resolve t with
  | Ok [] => if decide (kind_id t = lit "pods") then [] else [target_text t ++ lit "no pods matched its selector"]
  | Ok _ => []
  | Err e => [target_text t ++ fetch_error_text e]
  end.

Lemma merge_all acc targets :
  foldl (merge_one get_pod get_workload get_job list_pods) acc targets
  = (foldl or_insert acc.1 (targets ≫= answered), acc.2 ++ (targets ≫= complaint)).
Proof.
  revert acc. induction targets as [|t targets IH]; intros [m ws]; [simpl; by rewrite (right_id_L [] (++))|]. simpl. rewrite IH, foldl_app. clear IH.
  unfold merge_one, answered, complaint, resolve. destruct (resolve_one _ _ _ _ t) as [[|p ps]|e]; simpl.
  - unfold bool_decide. repeat case_decide; simpl; try done; by rewrite <- (assoc_L (++)).
  - done.
  - by rewrite <- (assoc_L (++)).
Qed.

(** the selection resolves to every pod of its targets once, by namespace and name, as the
    first target that has it resolved it; over the cap to the first [MAX_RESOLVED_PODS], and the
    last warning says how many more there are; a target that cannot be resolved or selects
    nothing costs its warning and nothing else. *)
Theorem resolve_log_pods_ok targets :
  let out := resolve_log_pods get_pod get_workload get_job list_pods targets in
  ∃ ps, StronglySorted key_lt ps
    ∧ (∀ p, p ∈ ps ↔ head (filter (λ q, key_of q = key_of p) (targets ≫= answered)) = Some p)
    ∧ rps_pods out = take MAX_RESOLVED_PODS ps
    ∧ rps_warnings out = (targets ≫= complaint) ++
        (if MAX_RESOLVED_PODS <? length ps
         then [lit "selection matched too many pods " ++ 8212%N :: lit " showing the first " ++ nat_str MAX_RESOLVED_PODS
               ++ lit ", " ++ nat_str (length ps - MAX_RESOLVED_PODS) ++ lit " more omitted"] else []).
Proof.
  unfold resolve_log_pods. rewrite merge_all. cbn [fst snd app]. set (m := foldl or_insert ∅ _).
  exists (into_values m). split; [apply into_values_sorted, keyed_inserts|]. split.
  { intros p. rewrite elem_of_into_values by apply keyed_inserts. unfold m. by rewrite lookup_or_inserts, lookup_empty. }
  unfold truncate_pods. cbn [rps_pods rps_warnings]. destruct (Nat.ltb_spec MAX_RESOLVED_PODS (length (into_values m))) as [H|H]; [done|].
  split; [by rewrite take_ge|]. symmetry. apply (right_id_L [] (++)).
Qed.
End Resolved.

(** a query has every term of its selector: there is one unless the selector is empty or has
    an operator that the code does not know, and then nothing is listed. *)
Theorem query_has_every_term sel :
  let labels : list str := (λ '(k, v), k ++ lit "=" ++ v) <$> default [] (match_labels sel) in
  match selector_query sel with
  | Some q => ∃ terms, Forall2 (λ r t, requirement_term r = Some t) (default [] (match_expressions sel)) terms
      ∧ labels ++ terms ≠ [] ∧ q = join (lit ",") (labels ++ terms)
  | None => (∃ r, r ∈ default [] (match_expressions sel) ∧ requirement_term r = None)
      ∨ default [] (match_labels sel) = [] ∧ default [] (match_expressions sel) = []
  end.
Proof.
  intros labels. unfold selector_query. fold labels. destruct (mapM requirement_term _) as [terms|] eqn:E; unfold mbind, option_bind; cbv beta iota.
  - apply mapM_Some in E. destruct (labels ++ terms) as [|x l] eqn:El.
    + right. apply app_nil in El. destruct El as [El ->]. split; [by apply fmap_nil_inv in El|by apply Forall2_nil_inv_r in E].
    + exists terms. by rewrite El.
  - left. apply mapM_None in E. apply Exists_exists in E as (r & Hr & H). by exists r.
Qed.

(** ** Samples *)

Module Samples.
Definition c (name : string) (policy : option string) : Container := {| c_name := lit name; c_restart_policy := lit <$> policy |}.

Definition pod (name : string) : Pod :=
  {| meta_namespace := Some (lit "ns"); meta_name := Some (lit name);
     pod_spec := Some {| init_containers := Some [c "init" None; c "mesh" (Some "Always"%string)]; containers := [c "app" None] |} |}.

Example containers_classified :
  lc_kind <$> log_containers (pod "a") = [Init; Sidecar; Main].
Proof. done. Qed.

(** A scale-up, heartbeats, a rollout that nothing watched. *)
Definition history : list WatchEvent :=
  [WInit; WInitApply (pod "a"); WInitApply (pod "b"); WInitDone; WApply (pod "c"); WApply (pod "a"); WDelete (pod "b"); WErr;
   WInit; WInitApply (pod "c"); WInitApply (pod "d"); WInitDone].

Lemma panel_is_current_witness :
  phased nothing_told history
  ∧ foldl panel_apply ∅ (watch_run new_watch history).2 = current (foldl tell nothing_told history)
  ∧ size (current (foldl tell nothing_told history)) = 2 ∧ length (watch_run new_watch history).2 = 8.
Proof.
  assert (phased nothing_told history) as Hp by (vm_compute; repeat split).
  pose proof (panel_is_current history Hp) as H. split; [exact Hp|].
  rewrite (surjective_pairing (watch_run new_watch history)) in H. split; [exact (proj1 H)|]. split; by vm_compute.
Defined.

(** A panel that lost an event: the relist does not send the pod again. *)
Lemma lost_added_stays_lost :
  let '(w, out) := watch_run new_watch [WInit; WInitApply (pod "a"); WInitDone] in
  let '(_, relist) := watch_run w [WInit; WInitApply (pod "a"); WInitDone] in
  out = [Added (resolved_from_pod (pod "a")); InitDone] ∧ relist = [InitDone]
  ∧ foldl panel_apply (foldl panel_apply ∅ (drop 1 out)) relist = ∅.
Proof. vm_compute. by split_and!. Qed.

Definition sel : LabelSelector :=
  {| match_labels := Some [(lit "app", lit "web")];
     match_expressions := Some [{| req_key := lit "tier"; operator := lit "NotIn"; req_values := Some [lit "a"; lit "b"] |};
                                {| req_key := lit "x"; operator := lit "DoesNotExist"; req_values := None |}] |}.

Example queried : selector_query sel = Some (lit "app=web,tier notin (a,b),!x").
Proof. by vm_compute. Qed.

Example over_cap :
  let out := resolve_log_pods (λ _ n, Ok {| meta_namespace := Some (lit "ns"); meta_name := Some n; pod_spec := None |})
    (λ _ _ _, Err (lit "gone")) (λ _ _, Ok (Some None)) (λ _ _, Ok [])
    ([{| kind_id := lit "deployments"; target_namespace := lit "ns"; target_name := lit "web" |};
      {| kind_id := lit "jobs"; target_namespace := lit "ns"; target_name := lit "once" |}]
     ++ ((λ i, {| kind_id := lit "pods"; target_namespace := lit "ns"; target_name := nat_str i |}) <$> seq 0 502)) in
  length (rps_pods out) = 500 ∧ length (rps_warnings out) = 3
  ∧ last (rps_warnings out) = Some (lit "selection matched too many pods " ++ 8212%N :: lit " showing the first 500, 2 more omitted").
Proof. split_and!; by vm_compute. Qed.
End Samples.
