(* ===== verification/Quantity.v ===== *)
(** * Quantities (core/src/quantity.rs, and their uses in core/src/metrics.rs)

    Kubernetes' quantities as binary64 numbers, with the arithmetic of IEEE 754 in Corelib's
    [SpecFloat]: [parse_quantity], and the millicores and MiB that the metrics take of it. *)

From Stdlib Require Import SpecFloat.
From S2P Require Import Prelude.

(** ** f64::from_str *)

Definition f64_mul : spec_float → spec_float → spec_float := SFmul 53 1024.

Definition f64_div : spec_float → spec_float → spec_float := SFdiv 53 1024.

(** [m] times ten to the [e], rounded to the nearest even. *)
Definition decimal_f64 (neg : bool) (m : N) (e : Z) : spec_float :=
  match m with
  | 0%N => S754_zero neg
  | Npos p =>
      if (0 <=? e)%Z then binary_round 53 1024 neg (Z.to_pos (Zpos p * 10 ^ e)) 0
      else let '(q, e', l) := SFdiv_core_binary 53 1024 (Zpos p) 0 (10 ^ (- e)) 0 in binary_round_aux 53 1024 neg q e' l
  end.

Fixpoint span_digits (s : str) : str * str :=
  match s with
  | c :: s' => if is_ascii_digit c then let '(ds, r) := span_digits s' in (c :: ds, r) else ([], s)
  | [] => ([], [])
  end.

Definition digits_value (ds : str) : N := foldl (λ a c, 10 * a + (c - 48))%N 0%N ds.

Definition PLUS : char := 43%N.

Definition take_sign (s : str) : bool * str :=
  match s with
  | c :: s' => if (c =? HYPHEN)%N then (true, s') else if (c =? PLUS)%N then (false, s') else (false, s)
  | [] => (false, [])
  end.

(** The numbers that can be spelled with digits, a point, signs and an exponent: what
    [parse_quantity] passes has no other characters, so that inf and nan are left out. *)
Definition parse_f64 (s : str) : option spec_float :=
  let '(neg, s) := take_sign s in
  let '(int, s) := span_digits s in
  let '(frac, s) := match s with c :: s' => if (c =? DOT)%N then span_digits s' else ([], s) | [] => ([], []) end in
  if bool_decide (int ++ frac = []) then None
  else
    e ← match s with
        | [] => Some 0%Z
        | c :: s =>
            if (c =? 101)%N || (c =? 69)%N then
              let '(neg_e, s) := take_sign s in
              let '(ds, s) := span_digits s in
              if bool_decide (ds = []) || negb (bool_decide (s = [])) then None
              else Some (if neg_e then - Z.of_N (digits_value ds) else Z.of_N (digits_value ds))%Z
            else None
        end;
    Some (decimal_f64 neg (digits_value (int ++ frac)) (e - Z.of_nat (length frac))).

(** ** Quantities *)

Definition numeric (c : char) : bool :=
  is_ascii_digit c || existsb (N.eqb c) (lit ".+-eE").

Fixpoint split_number (s : str) : str * str :=
  match s with
  | c :: s' => if numeric c then let '(num, suf) := split_number s' in (c :: num, suf) else ([], s)
  | [] => ([], [])
  end.

(** The literal 1e[e], and 1024 to the [k]. *)
Definition ten (e : Z) : spec_float := decimal_f64 false 1 e.

Definition kibi (k : Z) : spec_float := binary_round 53 1024 false 1 (10 * k).

Definition SUFFIXES : list (str * spec_float) :=
  prod_map lit id <$>
    [("", ten 0); ("n", ten (-9)); ("u", ten (-6)); ("m", ten (-3)); ("K", ten 3); ("k", ten 3); ("M", ten 6); ("G", ten 9);
     ("T", ten 12); ("P", ten 15); ("E", ten 18);
     ("Ki", kibi 1); ("Mi", kibi 2); ("Gi", kibi 3); ("Ti", kibi 4); ("Pi", kibi 5); ("Ei", kibi 6)]%string.

Definition multiplier (suf : str) : option spec_float := snd <$> head (filter (λ p, p.1 = suf) SUFFIXES).

Definition parse_quantity (s : str) : option spec_float :=
  let s := trim s in
  if bool_decide (s = []) then None
  else
    let '(num, suf) := split_number s in
    n ← parse_f64 num; mult ← multiplier suf; Some (f64_mul n mult).

(** ** What the metrics take *)

Definition U64_MAX : N := 18446744073709551615%N.

(** [x.round().max(0.0) as u64] *)
Definition round_u64 (x : spec_float) : N :=
  match x with
  | S754_finite false m e =>
      N.min U64_MAX (if (0 <=? e)%Z then N.shiftl (Npos m) (Z.to_N e)
                     else (2 * Npos m + N.shiftl 1 (Z.to_N (- e))) / N.shiftl 2 (Z.to_N (- e)))%N
  | S754_infinity false => U64_MAX
  | _ => 0%N
  end.

Definition cpu_milli (s : str) : N :=
  match parse_quantity s with Some c => round_u64 (f64_mul c (ten 3)) | None => 0%N end.

Definition mem_mib (s : str) : N :=
  match parse_quantity s with Some b => round_u64 (f64_div b (kibi 2)) | None => 0%N end.
