(* ===== verification/Metrics.v ===== *)
(** * Metrics of a cluster (core/src/metrics.rs)

    The poll of metrics-server, node capacity and the kubelets' volume stats ([poll] over a
    [PollCache]), the fan-out to the kubelets ([FanOut]), the service that polls what its
    subscribers need and broadcasts what changed ([ServiceStep]), and the slot that starts and
    drops it (subscribe_metrics of app/src/commands.rs).

    The answers of the API server are arguments; times are seconds.  A HashMap is a [gmap], and
    the order of a list that the code takes from its keys is an argument.  Sums of u64 wrap, as
    the release profile has it. *)

From S2P Require Import Prelude Quantity.

(** ** Readings *)

Record ContainerMetric : Set := { ct_name : str; ct_cpu_milli : N; ct_mem_mib : N }.

#[global] Instance ContainerMetric_eq_dec : EqDecision ContainerMetric.
Proof. solve_decision. Defined.

Record PodMetric : Set := { pm_namespace : str; pm_name : str; pm_cpu_milli : N; pm_mem_mib : N; pm_containers : list ContainerMetric }.

#[global] Instance PodMetric_eq_dec : EqDecision PodMetric.
Proof. solve_decision. Defined.

Record ClusterMetrics : Set := { cpu_used_milli : N; cpu_capacity_milli : N; mem_used_mib : N; mem_capacity_mib : N }.

#[global] Instance ClusterMetrics_eq_dec : EqDecision ClusterMetrics.
Proof. solve_decision. Defined.

Record VolumeMetric : Set := {
  pod_namespace : str; pod_name : str; volume_name : str; pvc_namespace : option str; pvc_name : option str;
  used_bytes : N; capacity_bytes : N; available_bytes : N; used_inodes : N; capacity_inodes : N;
}.

#[global] Instance VolumeMetric_eq_dec : EqDecision VolumeMetric.
Proof. solve_decision. Defined.

Definition NodeCaps : Type := gmap str (N * N).

Definition VolumeStats : Type := gmap str (list VolumeMetric) * gmap str VolumeMetric.

Record MetricsSnapshot : Type := {
  pods : gmap str PodMetric; cluster : option ClusterMetrics; pod_volumes : gmap str (list VolumeMetric);
  pvcs : gmap str VolumeMetric; available : bool; forbidden : option str; volumes_available : option bool;
  fetched_at_unix_ms : Z;
}.

Definition pod_containers (s : MetricsSnapshot) (key : str) : list ContainerMetric :=
  default [] (pm_containers <$> pods s !! key).

Definition same_readings (a b : MetricsSnapshot) : bool :=
  Bool.eqb (available a) (available b) && bool_decide (volumes_available a = volumes_available b)
  && bool_decide (cluster a = cluster b) && bool_decide (pods a = pods b) && bool_decide (pod_volumes a = pod_volumes b)
  && bool_decide (pvcs a = pvcs b) && bool_decide (forbidden a = forbidden b).

(** ** Wire shapes *)

Record MetaWire : Set := { name : option str; namespace : option str }.

Record UsageWire : Set := { cpu : option str; memory : option str }.

Record ContainerMetricsWire : Set := { cw_name : option str; cw_usage : option UsageWire }.

Record PodMetricsWire : Set := { pw_metadata : option MetaWire; pw_containers : option (list ContainerMetricsWire) }.

Record NodeMetricsWire : Set := { nm_metadata : option MetaWire; nm_usage : option UsageWire }.

Record NodeStatusWire : Type := { capacity : option (gmap str str); allocatable : option (gmap str str) }.

Record NodeWire : Type := { nw_metadata : option MetaWire; nw_status : option NodeStatusWire }.

Record VolumeWire : Set := {
  vw_name : option str; vw_used_bytes : option N; vw_capacity_bytes : option N; vw_available_bytes : option N;
  vw_inodes_used : option N; vw_inodes : option N; vw_pvc_ref : option MetaWire;
}.

Record PodStatsWire : Set := { pod_ref : option MetaWire; volume : option (list VolumeWire) }.

(** [ListWire] and [SummaryWire] are the option of their list. *)

Definition sum_u64 (l : list N) : N := foldl (λ a b, (a + b) mod 18446744073709551616)%N 0%N l.

Definition path (ns n : str) : str := ns ++ SLASH :: n.

Definition container_metric (c : ContainerMetricsWire) : option ContainerMetric :=
  usage ← cw_usage c;
  Some {| ct_name := default [] (cw_name c); ct_cpu_milli := from_option cpu_milli 0%N (cpu usage);
          ct_mem_mib := from_option mem_mib 0%N (memory usage) |}.

Definition names_of (m : option MetaWire) : str * str :=
  match m with Some m => (default [] (namespace m), default [] (name m)) | None => ([], []) end.

Definition pod_metric (obj : PodMetricsWire) : option (str * PodMetric) :=
  let '(ns, n) := names_of (pw_metadata obj) in
  if bool_decide (n = []) then None
  else
    let containers := omap container_metric (default [] (pw_containers obj)) in
    Some (path ns n, {| pm_namespace := ns; pm_name := n; pm_cpu_milli := sum_u64 (ct_cpu_milli <$> containers);
                        pm_mem_mib := sum_u64 (ct_mem_mib <$> containers); pm_containers := containers |}).

(** A later entry of a key takes its place. *)
Definition collect {A} (l : list (str * A)) : gmap str A := foldl (λ m p, <[p.1 := p.2]> m) ∅ l.

Definition pod_metrics_from (items : option (list PodMetricsWire)) : gmap str PodMetric :=
  collect (omap pod_metric (default [] items)).

Definition named (m : option MetaWire) : option str :=
  m ← m; n ← name m; if bool_decide (n = []) then None else Some n.

Definition node_metric (obj : NodeMetricsWire) : option (str * (N * N)) :=
  n ← named (nm_metadata obj);
  Some (n, (from_option cpu_milli 0%N (nm_usage obj ≫= cpu), from_option mem_mib 0%N (nm_usage obj ≫= memory))).

Definition node_metrics_from (items : option (list NodeMetricsWire)) : NodeCaps := collect (omap node_metric (default [] items)).

Definition node_capacity (obj : NodeWire) : option (str * (N * N)) :=
  n ← named (nw_metadata obj);
  let cap := s ← nw_status obj; match capacity s with Some c => Some c | None => allocatable s end in
  let get k := c ← cap; c !! lit k in
  Some (n, (from_option cpu_milli 0%N (get "cpu"%string), from_option mem_mib 0%N (get "memory"%string))).

Definition node_capacity_from (items : option (list NodeWire)) : NodeCaps := collect (omap node_capacity (default [] items)).

Definition volume_metric (vol : VolumeWire) (pod_ns pod_n : str) : option VolumeMetric :=
  n ← vw_name vol;
  Some {| pod_namespace := pod_ns; pod_name := pod_n; volume_name := n;
          pvc_namespace := vw_pvc_ref vol ≫= namespace; pvc_name := vw_pvc_ref vol ≫= name;
          used_bytes := default 0%N (vw_used_bytes vol); capacity_bytes := default 0%N (vw_capacity_bytes vol);
          available_bytes := default 0%N (vw_available_bytes vol); used_inodes := default 0%N (vw_inodes_used vol);
          capacity_inodes := default 0%N (vw_inodes vol) |}.

Definition claim_of (m : VolumeMetric) : option str :=
  ns ← pvc_namespace m; n ← pvc_name m; Some (path ns n).

(** One pod of a summary. *)
Definition parse_pod (acc : VolumeStats) (pod : PodStatsWire) : VolumeStats :=
  let '(by_pod, by_pvc) := acc in
  let '(ns, n) := names_of (pod_ref pod) in
  if bool_decide (n = []) then acc
  else
    let metrics := omap (λ v, volume_metric v ns n) (default [] (volume pod)) in
    (if bool_decide (metrics = []) then by_pod else <[path ns n := default [] (by_pod !! path ns n) ++ metrics]> by_pod,
     foldl (λ m v, match claim_of v with Some k => <[k := v]> m | None => m end) by_pvc metrics).

Definition parse_summary (summary : option (list PodStatsWire)) (acc : VolumeStats) : VolumeStats :=
  foldl parse_pod acc (default [] summary).

(** ** The poll *)

(** kube::Error *)
Inductive MetricsError : Set := Api (code : N) (reason message : str) | Other (display : str).

Record Wants : Set := { w_pods : bool; w_volumes : bool }.

#[global] Instance Wants_eq_dec : EqDecision Wants.
Proof. solve_decision. Defined.

Definition CAPACITY_TTL : N := 300.

Definition VOLUME_EVERY_TICKS : N := 2.

Record PollCache : Type := { caps : option (N * NodeCaps); volumes : option VolumeStats; tick : N }.

Definition empty_cache : PollCache := {| caps := None; volumes := None; tick := 0 |}.

Definition fresh_caps (now : N) (c : PollCache) : option NodeCaps :=
  '(at_, m) ← caps c; if (now - at_ <? CAPACITY_TTL)%N then Some m else None.

Definition volumes_due (wanted : bool) (c : PollCache) : PollCache * bool :=
  if wanted then
    let due := bool_decide (volumes c = None) || (VOLUME_EVERY_TICKS <=? tick c)%N in
    ({| caps := caps c; volumes := volumes c; tick := (if due then 0 else tick c) + 1 |}, due)
  else ({| caps := caps c; volumes := None; tick := tick c |}, false).

Definition has_unknown_node (used caps : NodeCaps) : bool := negb (bool_decide (dom used ⊆ dom caps)).

Definition aggregate (used caps : NodeCaps) : ClusterMetrics :=
  {| cpu_used_milli := sum_u64 ((map_to_list used).*2).*1; cpu_capacity_milli := sum_u64 ((map_to_list caps).*2).*1;
     mem_used_mib := sum_u64 ((map_to_list used).*2).*2; mem_capacity_mib := sum_u64 ((map_to_list caps).*2).*2 |}.

Definition cluster_aggregate (nodes caps : option NodeCaps) : option ClusterMetrics :=
  n ← nodes; c ← caps; Some (aggregate n c).

Definition refused {A} (r : result A MetricsError) : option str :=
  match r with Err (Api 403 reason message) => if decide (reason = lit "Forbidden") then Some message else None | _ => None end.

Definition forbidden_reading {P N} (pods : option (result P MetricsError)) (nodes : result N MetricsError) : option str :=
  match pods with Some p => refused p | None => refused nodes end.

(** What the requests of one poll answer.  [relist] is the second list of the nodes, [order] that
    of the nodes whose kubelets answered, as they did. *)
Record Answers : Type := {
  at_start : N; at_stored : N; unix_ms : Z;
  pod_list : result (option (list PodMetricsWire)) MetricsError;
  node_list : result (option (list NodeMetricsWire)) MetricsError;
  capacity_list : result (option (list NodeWire)) MetricsError;
  relist : result (option (list NodeWire)) MetricsError;
  order : list str;
  summary : str → result (option (list PodStatsWire)) MetricsError;
}.

Definition map_ok {A B E} (f : A → B) (r : result A E) : result B E := match r with Ok a => Ok (f a) | Err e => Err e end.

Definition ok {A E} (r : result A E) : option A := match r with Ok a => Some a | Err _ => None end.

(** What arrived, in its order. *)
Definition volume_stats (a : Answers) (names : list str) : VolumeStats :=
  foldl (λ acc n, match summary a n with Ok s => parse_summary s acc | Err _ => acc end) (∅, ∅) names.

(** The capacity that a poll works with, and whether it was listed now. *)
Definition resolve_caps (a : Answers) (c : PollCache) (nodes : result NodeCaps MetricsError) : result (NodeCaps * bool) MetricsError :=
  let listed r := map_ok (λ items, (node_capacity_from items, true)) r in
  match fresh_caps (at_start a) c with
  | Some m => if match nodes with Ok n => has_unknown_node n m | Err _ => false end then listed (relist a) else Ok (m, false)
  | None => listed (capacity_list a)
  end.

Definition poll (a : Answers) (c : PollCache) (wants : Wants) : PollCache * MetricsSnapshot :=
  let pods_res := if w_pods wants then Some (map_ok pod_metrics_from (pod_list a)) else None in
  let nodes_res := map_ok node_metrics_from (node_list a) in
  let caps_res := resolve_caps a c nodes_res in
  let c := match caps_res with
           | Ok (m, true) => {| caps := Some (at_stored a, m); volumes := volumes c; tick := tick c |}
           | _ => c
           end in
  let caps_res := map_ok fst caps_res in
  let '(c, due) := volumes_due (w_volumes wants) c in
  let c := if due then {| caps := caps c;
                          volumes := Some (match caps_res with Ok _ => volume_stats a (order a) | Err _ => (∅, ∅) end);
                          tick := tick c |} else c in
  let '(avail, ps) := match pods_res with
                      | Some (Ok p) => (true, p)
                      | Some (Err _) => (false, ∅)
                      | None => (match nodes_res with Ok _ => true | Err _ => false end, ∅)
                      end in
  let '(pv, pc) := default (∅, ∅) (volumes c) in
  (c, {| pods := ps; cluster := cluster_aggregate (ok nodes_res) (ok caps_res); pod_volumes := pv; pvcs := pc; available := avail;
         forbidden := forbidden_reading pods_res nodes_res;
         volumes_available := (λ _, negb (bool_decide (pv = ∅)) || negb (bool_decide (pc = ∅))) <$> volumes c;
         fetched_at_unix_ms := unix_ms a |}).

(** ** The fan-out of [list_volume_stats] *)

Definition KUBELET_FETCH_CONCURRENCY : nat := 16.

(** The names that wait, those that are asked, and those that have answered, in their order. *)
Record FanOut : Set := { queue : list str; flight : list str; arrived : list str }.

Definition fan_start (names : list str) : FanOut :=
  {| queue := drop KUBELET_FETCH_CONCURRENCY names; flight := take KUBELET_FETCH_CONCURRENCY names; arrived := [] |}.

(** An answer arrives, and the next name is asked. *)
Inductive FanStep : FanOut → FanOut → Prop :=
  | FanAnswer q l1 n l2 d :
      FanStep {| queue := q; flight := l1 ++ n :: l2; arrived := d |}
              {| queue := tail q; flight := l1 ++ l2 ++ option_list (head q); arrived := d ++ [n] |}.

(** ** The service *)

Inductive MetricsNeed : Set := Cluster | Pods | Volumes.

#[global] Instance MetricsNeed_eq_dec : EqDecision MetricsNeed.
Proof. solve_decision. Defined.

(** The counters of [Demand]. *)
Record Demand : Set := { pods_wanted : N; volumes_wanted : N }.

Definition no_demand : Demand := {| pods_wanted := 0; volumes_wanted := 0 |}.

Definition demand_wants (d : Demand) : Wants := {| w_pods := (0 <? pods_wanted d)%N; w_volumes := (0 <? volumes_wanted d)%N |}.

(** [want]: whether the poller is to be woken. *)
Definition want (need : MetricsNeed) (d : Demand) : Demand * bool :=
  match need with
  | Cluster => (d, false)
  | Pods => ({| pods_wanted := pods_wanted d + 1; volumes_wanted := volumes_wanted d |}, (pods_wanted d =? 0)%N)
  | Volumes => ({| pods_wanted := pods_wanted d; volumes_wanted := volumes_wanted d + 1 |}, (volumes_wanted d =? 0)%N)
  end.

Definition release (need : MetricsNeed) (d : Demand) : Demand :=
  match need with
  | Cluster => d
  | Pods => {| pods_wanted := N.pred (pods_wanted d); volumes_wanted := volumes_wanted d |}
  | Volumes => {| pods_wanted := pods_wanted d; volumes_wanted := N.pred (volumes_wanted d) |}
  end.

(** Where the task of [MetricsService::start] is: in its first delay, waiting for a tick or a wake,
    in a poll, or about to broadcast. *)
Inductive Pc : Type := Delayed | Idle | Polling (w : Wants) | Sending (s : MetricsSnapshot).

(** [notifying]: callers of [want] between the counter and the wake.  [outstanding], [asked] and
    [sent] are traces: what was wanted and not released, what the last poll asked for, what was
    broadcast. *)
Record Service : Type := {
  demand : Demand; notifying : nat; permit : bool; pc : Pc; cache : PollCache; last_snapshot : option MetricsSnapshot;
  outstanding : list MetricsNeed; asked : Wants; sent : list MetricsSnapshot;
}.

Definition service_start : Service :=
  {| demand := no_demand; notifying := 0; permit := false; pc := Delayed; cache := empty_cache; last_snapshot := None;
     outstanding := []; asked := {| w_pods := false; w_volumes := false |}; sent := [] |}.

Definition set_pc (p : Pc) (s : Service) : Service :=
  {| demand := demand s; notifying := notifying s; permit := permit s; pc := p; cache := cache s; last_snapshot := last_snapshot s;
     outstanding := outstanding s; asked := asked s; sent := sent s |}.

(** A poll begins with what is wanted now. *)
Definition begin_poll (permit' : bool) (s : Service) : Service :=
  {| demand := demand s; notifying := notifying s; permit := permit'; pc := Polling (demand_wants (demand s)); cache := cache s;
     last_snapshot := last_snapshot s; outstanding := outstanding s; asked := demand_wants (demand s); sent := sent s |}.

(** The end of a poll: the snapshot is kept, and broadcast if its readings moved. *)
Definition end_poll (a : Answers) (w : Wants) (s : Service) : Service :=
  let '(c, snap) := poll a (cache s) w in
  let unchanged := match last_snapshot s with Some p => same_readings p snap | None => false end in
  {| demand := demand s; notifying := notifying s; permit := permit s; pc := if unchanged then Idle else Sending snap; cache := c;
     last_snapshot := Some snap; outstanding := outstanding s; asked := asked s; sent := sent s |}.

Inductive ServiceStep : Service → Service → Prop :=
  | SWant s need :
      ServiceStep s
        {| demand := (want need (demand s)).1; notifying := (if (want need (demand s)).2 then 1 else 0) + notifying s;
           permit := permit s; pc := pc s; cache := cache s; last_snapshot := last_snapshot s;
           outstanding := need :: outstanding s; asked := asked s; sent := sent s |}
  | SNotify s n :
      notifying s = S n →
      ServiceStep s
        {| demand := demand s; notifying := n; permit := true; pc := pc s; cache := cache s; last_snapshot := last_snapshot s;
           outstanding := outstanding s; asked := asked s; sent := sent s |}
  | SRelease s need l1 l2 :
      outstanding s = l1 ++ need :: l2 →
      ServiceStep s
        {| demand := release need (demand s); notifying := notifying s; permit := permit s; pc := pc s; cache := cache s;
           last_snapshot := last_snapshot s; outstanding := l1 ++ l2; asked := asked s; sent := sent s |}
  | SStart s : pc s = Delayed → ServiceStep s (set_pc Idle s)
  | STick s : pc s = Idle → ServiceStep s (begin_poll (permit s) s)
  | SWake s : pc s = Idle → permit s = true → ServiceStep s (begin_poll false s)
  | SAnswer s w a : pc s = Polling w → ServiceStep s (end_poll a w s)
  | SSend s snap :
      pc s = Sending snap →
      ServiceStep s
        {| demand := demand s; notifying := notifying s; permit := permit s; pc := Idle; cache := cache s;
           last_snapshot := last_snapshot s; outstanding := outstanding s; asked := asked s; sent := sent s ++ [snap] |}.

(** ** The slot of a cluster *)

(** [MetricsSlot] with the entry's forwarder: a service is what it was asked for. *)
Record Slot : Set := { slot_service : option Demand; subscribers : N; forwarder : bool }.

Definition empty_slot : Slot := {| slot_service := None; subscribers := 0; forwarder := false |}.

(** [subscribe_metrics] under the lock of the slot, and its check before. *)
Definition subscribe_locked (need : MetricsNeed) (s : Slot) : Slot :=
  let '(d, fwd) := match slot_service s with Some d => (d, forwarder s) | None => (no_demand, true) end in
  {| slot_service := Some (want need d).1; subscribers := subscribers s + 1; forwarder := fwd |}.

Definition subscribe_metrics (unavailable : bool) (cluster_id : str) (need : MetricsNeed) (s : Slot) : result Slot str :=
  if unavailable then Err (lit "cluster " ++ cluster_id ++ lit " is unavailable " ++ 8212%N :: lit " reconnect first")
  else Ok (subscribe_locked need s).

Definition unsubscribe_metrics (need : MetricsNeed) (s : Slot) : Slot :=
  let service := release need <$> slot_service s in
  let n := N.pred (subscribers s) in
  if (n =? 0)%N then {| slot_service := None; subscribers := n; forwarder := false |}
  else {| slot_service := service; subscribers := n; forwarder := forwarder s |}.

(** The part of [drop_entry_watchers] and [tear_down_unhealthy]. *)
Definition drop_metrics (s : Slot) : Slot := {| slot_service := None; subscribers := 0; forwarder := false |}.

(** ** Readings that are the same *)

Lemma same_readings_iff a b :
  same_readings a b = true ↔
  available a = available b ∧ volumes_available a = volumes_available b ∧ cluster a = cluster b ∧ pods a = pods b
  ∧ pod_volumes a = pod_volumes b ∧ pvcs a = pvcs b ∧ forbidden a = forbidden b.
Proof. unfold same_readings. rewrite !andb_true_iff, !bool_decide_eq_true, Bool.eqb_true_iff. tauto. Qed.

Lemma same_readings_refl a : same_readings a a = true.
Proof. by apply same_readings_iff. Qed.

Lemma same_readings_trans a b c : same_readings a b = true → same_readings b c = true → same_readings a c = true.
Proof. rewrite !same_readings_iff. intros (? & ? & ? & ? & ? & ? & ?) (? & ? & ? & ? & ? & ? & ?). split_and!; congruence. Qed.

Lemma same_readings_comm a b : same_readings a b = same_readings b a.
Proof. apply Bool.eq_true_iff_eq. rewrite !same_readings_iff. split; intros (? & ? & ? & ? & ? & ? & ?); by split_and!. Qed.

(** ** What a poll reads *)

(** The capacity of a poll is listed in it, or fresh and with every node that reports. *)
Lemma resolve_caps_known a c nodes m :
  resolve_caps a c nodes = Ok (m, false) →
  (∃ t, caps c = Some (t, m) ∧ (at_start a - t < CAPACITY_TTL)%N) ∧ ∀ used, nodes = Ok used → dom used ⊆ dom m.
Proof.
  unfold resolve_caps, fresh_caps. destruct (caps c) as [[t m']|]; simpl; [|by destruct (capacity_list a)].
  destruct (N.ltb_spec (at_start a - t) CAPACITY_TTL); [|by destruct (capacity_list a)].
  intros H'. destruct nodes as [used|e].
  - unfold has_unknown_node in H'. case_bool_decide; simpl in H'; [|by destruct (relist a)]. simplify_eq. split; [by exists t|naive_solver].
  - simplify_eq. split; [by exists t|done].
Qed.

(** Whether a poll asks the kubelets. *)
Definition polls_volumes (w : Wants) (c : PollCache) : bool := (volumes_due (w_volumes w) c).2.

Lemma poll_volumes a c w :
  let c' := (poll a c w).1 in
  volumes c' = (if polls_volumes w c
                then Some (match resolve_caps a c (map_ok node_metrics_from (node_list a)) with
                           | Ok _ => volume_stats a (order a) | Err _ => (∅, ∅) end)
                else if w_volumes w then volumes c else None)
  ∧ tick c' = (if w_volumes w then (if polls_volumes w c then 1 else tick c + 1) else tick c)%N.
Proof.
  unfold poll, polls_volumes, volumes_due. destruct (resolve_caps _ _ _) as [[m [|]]|e]; simpl;
    destruct (w_volumes w); simpl; try destruct (_ || _) eqn:E; simpl; repeat case_match; simplify_eq/=; split; try done; lia.
Qed.

(** The cache after [n] polls. *)
Fixpoint cache_after (a : nat → Answers) (w : nat → Wants) (n : nat) (c : PollCache) : PollCache :=
  match n with 0 => c | S n => (poll (a n) (cache_after a w n c) (w n)).1 end.

(** volumes are asked for at once when they come to be wanted, and at every second poll while
    they are; between, what was read is shown, and when they are not wanted it is dropped. *)
Theorem volume_cadence a w c n :
  volumes c = None → (∀ i, w_volumes (w i) = true) →
  polls_volumes (w n) (cache_after a w n c) = Nat.even n.
Proof.
  intros Hc Hw. assert (∀ n, let c' := cache_after a w n c in
    if Nat.even n then volumes c' = None ∨ tick c' = 2%N else is_Some (volumes c') ∧ tick c' = 1%N) as H.
  { clear n. induction n as [|n IH]; [by left|]. cbn [cache_after]. rewrite Nat.even_succ, <- Nat.negb_even.
    destruct (poll_volumes (a n) (cache_after a w n c) (w n)) as [Hv Ht]. rewrite Hv, Ht, Hw. clear Hv Ht.
    unfold polls_volumes, volumes_due. rewrite Hw. simpl. destruct (Nat.even n); simpl.
    - replace (bool_decide (volumes (cache_after a w n c) = None) || (VOLUME_EVERY_TICKS <=? tick (cache_after a w n c))%N) with true; [done|].
      symmetry. apply orb_true_iff. destruct IH as [E | E]; rewrite E; [by left|by right].
    - destruct IH as [[v Hv] Ht]. rewrite Hv, Ht. simpl. right. done. }
  specialize (H n). unfold polls_volumes, volumes_due. rewrite Hw. simpl. destruct (Nat.even n).
  - apply orb_true_iff. destruct H as [E | E]; rewrite E; [by left|by right].
  - destruct H as [[v ->] ->]. done.
Qed.

(** What the kubelets report of a pod. *)
Definition pod_vols (k : str) (pod : PodStatsWire) : list VolumeMetric :=
  let '(ns, n) := names_of (pod_ref pod) in
  if bool_decide (n ≠ [] ∧ path ns n = k) then omap (λ v, volume_metric v ns n) (default [] (volume pod)) else [].

Definition all_vols (pod : PodStatsWire) : list VolumeMetric :=
  let '(ns, n) := names_of (pod_ref pod) in
  if bool_decide (n = []) then [] else omap (λ v, volume_metric v ns n) (default [] (volume pod)).

Definition summary_pods (a : Answers) (n : str) : list PodStatsWire := match summary a n with Ok s => default [] s | Err _ => [] end.

Lemma parse_pod_pods acc pod k :
  default [] ((parse_pod acc pod).1 !! k) = default [] (acc.1 !! k) ++ pod_vols k pod.
Proof.
  destruct acc as [bp bv]. unfold parse_pod, pod_vols. destruct (names_of (pod_ref pod)) as [ns n].
  destruct (decide (n = [])) as [->|Hn].
  { rewrite bool_decide_true by done. rewrite bool_decide_false by naive_solver. simpl. by rewrite (right_id_L [] (++)). }
  rewrite bool_decide_false by done. simpl. set (ms := omap _ _). destruct (decide (path ns n = k)) as [<-|Hk].
  - rewrite (bool_decide_true (n ≠ [] ∧ _)) by done. case_bool_decide as Hms; [by rewrite Hms, (right_id_L [] (++))|].
    by rewrite lookup_insert_eq.
  - rewrite (bool_decide_false (n ≠ [] ∧ _)) by naive_solver. rewrite (right_id_L [] (++)). case_bool_decide; [done|]. by rewrite lookup_insert_ne.
Qed.

Lemma last_app {A} (l k : list A) : last (l ++ k) = match last k with Some x => Some x | None => last l end.
Proof. destruct k as [|x k] using rev_ind; [by rewrite (right_id_L [] (++))|]. by rewrite (assoc_L (++)), !last_snoc. Qed.

Lemma parse_pod_claims acc pod k :
  (parse_pod acc pod).2 !! k = match last (filter (λ v, claim_of v = Some k) (all_vols pod)) with Some v => Some v | None => acc.2 !! k end.
Proof.
  destruct acc as [bp bv]. unfold parse_pod, all_vols. destruct (names_of (pod_ref pod)) as [ns n]. case_bool_decide; [done|]. simpl.
  generalize (omap (λ v, volume_metric v ns n) (default [] (volume pod))) as ms. intros ms. induction ms as [|v ms IH] using rev_ind; [done|].
  rewrite foldl_app, filter_app, last_app. simpl. rewrite filter_cons, filter_nil. destruct (claim_of v) as [k'|] eqn:E.
  - destruct (decide (k' = k)) as [->|Hne].
    + rewrite decide_True by congruence. simpl. by rewrite lookup_insert_eq.
    + rewrite decide_False by congruence. simpl. by rewrite lookup_insert_ne.
  - by rewrite decide_False by congruence.
Qed.

Lemma volume_stats_pods a names k : default [] ((volume_stats a names).1 !! k) = (names ≫= summary_pods a) ≫= pod_vols k.
Proof.
  unfold volume_stats. induction names as [|n names IH] using rev_ind; [done|].
  rewrite foldl_app, !bind_app. simpl. rewrite (right_id_L [] (++)). unfold summary_pods at 2. rewrite <- IH. clear IH.
  generalize (foldl (λ acc n, match summary a n with Ok s => parse_summary s acc | Err _ => acc end) (∅, ∅) names) as acc. intros acc.
  destruct (summary a n) as [s|e]; simpl; [|by rewrite (right_id_L [] (++))]. unfold parse_summary.
  generalize (default [] s) as ps. intros ps. induction ps as [|p ps IH] using rev_ind; [simpl; by rewrite (right_id_L [] (++))|].
  rewrite foldl_app, bind_app, (assoc_L (++)), <- IH. simpl. by rewrite parse_pod_pods, (right_id_L [] (++)).
Qed.

Lemma parse_summary_claims acc ps k :
  (foldl parse_pod acc ps).2 !! k
  = match last (filter (λ v, claim_of v = Some k) (ps ≫= all_vols)) with Some v => Some v | None => acc.2 !! k end.
Proof.
  induction ps as [|p ps IH] using rev_ind; [done|]. rewrite foldl_app, bind_app, filter_app, last_app. simpl.
  rewrite parse_pod_claims, (right_id_L [] (++)), IH. by destruct (last (filter _ (all_vols p))).
Qed.

Lemma volume_stats_claims a names k :
  (volume_stats a names).2 !! k = last (filter (λ v, claim_of v = Some k) ((names ≫= summary_pods a) ≫= all_vols)).
Proof.
  unfold volume_stats. induction names as [|n names IH] using rev_ind; [done|].
  rewrite foldl_app, !bind_app, filter_app, last_app. simpl. rewrite (right_id_L [] (++)). unfold summary_pods at 1. rewrite <- IH. clear IH.
  destruct (summary a n) as [s|e]; simpl; [|done]. apply parse_summary_claims.
Qed.

(** ** The fan-out *)

Lemma fan_step_inv f f' names :
  FanStep f f' →
  (length (flight f) ≤ KUBELET_FETCH_CONCURRENCY ∧ arrived f ++ flight f ++ queue f ≡ₚ names
   ∧ (queue f = [] ∨ length (flight f) = KUBELET_FETCH_CONCURRENCY)) →
  (length (flight f') ≤ KUBELET_FETCH_CONCURRENCY ∧ arrived f' ++ flight f' ++ queue f' ≡ₚ names
   ∧ (queue f' = [] ∨ length (flight f') = KUBELET_FETCH_CONCURRENCY)).
Proof.
  intros [q l1 n l2 d]. simpl. rewrite !length_app. intros (Hl & Hp & Hq). simpl in *. split_and!.
  - destruct q; simpl in *; lia.
  - rewrite <- Hp. destruct q as [|m q]; simpl; solve_Permutation.
  - destruct q as [|m q]; [by left|right]. destruct Hq as [|Hq]; [done|]. simpl. lia.
Qed.

(** C36: the fan-out asks every kubelet once, sixteen at a time at most, and ends: after as many
    answers as there are nodes.  Then each pod has what the kubelets that answered reported of
    it, each claim one of the volumes that mount it, and both are what the poll keeps. *)
Theorem fan_out_complete a names f :
  rtc FanStep (fan_start names) f →
  length (flight f) ≤ KUBELET_FETCH_CONCURRENCY
  ∧ arrived f ++ flight f ++ queue f ≡ₚ names
  ∧ (flight f = [] → arrived f ≡ₚ names)
  ∧ (flight f ≠ [] → ∃ f', FanStep f f' ∧ length (arrived f') = S (length (arrived f)))
  ∧ (flight f = [] → ∀ k,
       default [] ((volume_stats a (arrived f)).1 !! k) ≡ₚ (names ≫= summary_pods a) ≫= pod_vols k
       ∧ match (volume_stats a (arrived f)).2 !! k with
         | Some v => v ∈ (names ≫= summary_pods a) ≫= all_vols ∧ claim_of v = Some k
         | None => ∀ v, v ∈ (names ≫= summary_pods a) ≫= all_vols → claim_of v ≠ Some k
         end).
Proof.
  intros Hr.
  assert (length (flight f) ≤ KUBELET_FETCH_CONCURRENCY ∧ arrived f ++ flight f ++ queue f ≡ₚ names
    ∧ (queue f = [] ∨ length (flight f) = KUBELET_FETCH_CONCURRENCY)) as (Hl & Hp & Hq).
  { revert Hr. apply (rtc_preserves FanStep (λ f, length (flight f) ≤ KUBELET_FETCH_CONCURRENCY ∧ arrived f ++ flight f ++ queue f ≡ₚ names
      ∧ (queue f = [] ∨ length (flight f) = KUBELET_FETCH_CONCURRENCY))).
    - intros x y Hx Hs. by eapply fan_step_inv.
    - simpl. rewrite length_take, take_drop. split_and!; [lia|done|].
      destruct (decide (length names ≤ KUBELET_FETCH_CONCURRENCY)); [left; by apply drop_ge|right; lia]. }
  assert (flight f = [] → arrived f ≡ₚ names) as Hdone.
  { intros He. rewrite <- Hp, He. destruct Hq as [Hq|Hq]; [|by rewrite He in Hq]. by rewrite Hq, !(right_id_L [] (++)). }
  split_and!; [done..| |].
  - intros Hne. destruct f as [q [|n l] d]; [done|]. eexists. split; [apply (FanAnswer q [] n l d)|]. simpl. rewrite length_app. simpl. lia.
  - intros He k. rewrite volume_stats_pods, volume_stats_claims. split; [by rewrite (Hdone He)|].
    assert (∀ v, v ∈ (arrived f ≫= summary_pods a) ≫= all_vols ↔ v ∈ (names ≫= summary_pods a) ≫= all_vols) as Hin
      by (intros v; by rewrite (Hdone He)).
    destruct (last _) as [v|] eqn:E.
    + apply last_Some_elem_of, list_elem_of_filter in E as [Hc Hv]. by rewrite <- Hin.
    + apply last_None in E. intros v Hv Hc. rewrite <- Hin in Hv. assert (v ∈ ([] : list VolumeMetric)) as H; [|by apply elem_of_nil in H].
      rewrite <- E. by apply list_elem_of_filter.
Qed.

(** ** The service *)

Definition count_needs (need : MetricsNeed) (l : list MetricsNeed) : N := N.of_nat (length (filter (need =.) l)).

(** The counters are what is outstanding. *)
Definition counted (d : Demand) (l : list MetricsNeed) : Prop :=
  pods_wanted d = count_needs Pods l ∧ volumes_wanted d = count_needs Volumes l.

Lemma count_cons need n l : count_needs need (n :: l) = ((if decide (need = n) then 1 else 0) + count_needs need l)%N.
Proof. unfold count_needs. rewrite filter_cons. case_decide; simpl; lia. Qed.

Lemma count_middle need n l1 l2 : count_needs need (l1 ++ n :: l2) = ((if decide (need = n) then 1 else 0) + count_needs need (l1 ++ l2))%N.
Proof. unfold count_needs. rewrite !filter_app, filter_cons, !length_app. case_decide; simpl; lia. Qed.

Lemma count_needs_in need l : need ∈ l ↔ (0 < count_needs need l)%N.
Proof.
  induction l as [|n l IH]; [split; [by intros H%elem_of_nil|done]|]. rewrite elem_of_cons, count_cons, IH. case_decide; intuition lia.
Qed.

Lemma want_counted need d l : counted d l → counted (want need d).1 (need :: l).
Proof. intros [Hp Hv]. unfold counted. rewrite !count_cons. destruct need; simpl; rewrite Hp, Hv; split; simpl; lia. Qed.

Lemma release_counted need d l1 l2 : counted d (l1 ++ need :: l2) → counted (release need d) (l1 ++ l2).
Proof. unfold counted. rewrite !count_middle. intros [Hp Hv]. destruct need; simpl in *; rewrite Hp, Hv; split; simpl; lia. Qed.

(** A part that is wanted is asked for by the last poll, or a wake is on its way. *)
Definition heard (s : Service) : Prop :=
  let w := demand_wants (demand s) in
  (w_pods w = true → w_pods (asked s) = true ∨ permit s = true ∨ 0 < notifying s)
  ∧ (w_volumes w = true → w_volumes (asked s) = true ∨ permit s = true ∨ 0 < notifying s).

(** What is kept is what was broadcast last, or is being broadcast. *)
Definition shown (s : Service) : Prop :=
  match pc s with
  | Sending snap => last_snapshot s = Some snap ∧ ∀ p, last (sent s) = Some p → same_readings p snap = false
  | Delayed => last_snapshot s = None ∧ sent s = []
  | _ => match last_snapshot s, last (sent s) with
         | None, None => True
         | Some l, Some p => same_readings p l = true
         | _, _ => False
         end
  end.

(** Broadcasts that follow each other differ. *)
Definition changing (l : list MetricsSnapshot) : Prop :=
  ∀ i a b, l !! i = Some a → l !! S i = Some b → same_readings a b = false.

Lemma changing_snoc l s : changing l → (∀ p, last l = Some p → same_readings p s = false) → changing (l ++ [s]).
Proof.
  intros Hl Hs i a b Ha Hb. apply lookup_app_Some in Hb as [Hb|[Hge Hb]].
  - apply (Hl i a b); [|done]. rewrite lookup_app_l in Ha; [done|]. apply lookup_lt_Some in Hb. lia.
  - apply list_lookup_singleton_Some in Hb as [Hi <-]. apply Hs. rewrite last_lookup. rewrite lookup_app_l in Ha by lia.
    by replace (pred (length l)) with i by lia.
Qed.

Definition service_inv (s : Service) : Prop := counted (demand s) (outstanding s) ∧ heard s ∧ shown s ∧ changing (sent s).

Lemma service_start_inv : service_inv service_start.
Proof. by split_and!. Qed.

Lemma want_heard need d : demand_wants (want need d).1 = demand_wants d ∨ (want need d).2 = true.
Proof.
  destruct need; simpl; [by left|..]; unfold demand_wants; simpl;
    [destruct (N.eqb_spec (pods_wanted d) 0)|destruct (N.eqb_spec (volumes_wanted d) 0)]; [by right|left|by right|left]; f_equal;
    apply eq_bool_prop_intro; rewrite !Is_true_true, !N.ltb_lt; lia.
Qed.

Lemma release_wants need d :
  (w_pods (demand_wants (release need d)) = true → w_pods (demand_wants d) = true)
  ∧ (w_volumes (demand_wants (release need d)) = true → w_volumes (demand_wants d) = true).
Proof. unfold demand_wants. destruct need; simpl; rewrite ?N.ltb_lt; split; try done; rewrite ?N.ltb_lt; lia. Qed.

Lemma end_poll_shown a w s : pc s = Polling w → shown s → shown (end_poll a w s) ∧ sent (end_poll a w s) = sent s.
Proof.
  intros Hpc Hs. unfold shown in *. rewrite Hpc in Hs. unfold end_poll. destruct (poll a (cache s) w) as [c snap]. simpl. split; [|done].
  destruct (last_snapshot s) as [l|], (last (sent s)) as [p|]; try done.
  destruct (same_readings l snap) eqn:E; simpl; [by eapply same_readings_trans|]. split; [done|]. intros p' [= <-].
  destruct (same_readings p snap) eqn:E'; [|done].
  rewrite (same_readings_trans l p snap) in E; [done|by rewrite same_readings_comm|done].
Qed.

Lemma service_step_inv s s' : service_inv s → ServiceStep s s' → service_inv s'.
Proof.
  intros (Hc & Hh & Hs & Hch) Hstep. destruct Hstep as [s need|s n Hn|s need l1 l2 Ho|s Hp|s Hp|s Hp Hperm|s w a Hp|s snap Hp].
  - split_and!; [by apply want_counted| |done|done]. destruct Hh as [Hhp Hhv].
    destruct (want_heard need (demand s)) as [E|E]; unfold heard; cbn [demand notifying permit asked]; rewrite E; [|split; intros _; right; right; lia].
    destruct (want need (demand s)).2; split; intros H; [apply Hhp in H|apply Hhv in H|apply Hhp in H|apply Hhv in H];
      destruct H as [?| [?|?]]; try (by left); try (by right; left); right; right; lia.
  - split_and!; [done| |done|done]. split; intros _; right; by left.
  - split_and!; [rewrite Ho in Hc; by eapply release_counted| |done|done]. destruct (release_wants need (demand s)) as [Hrp Hrv].
    destruct Hh as [Hhp Hhv]. split; intros H; [by apply Hhp, Hrp|by apply Hhv, Hrv].
  - split_and!; [done|done| |done]. unfold shown in *. rewrite Hp in Hs. simpl. by destruct Hs as [-> ->].
  - split_and!; [done| |unfold shown in *; by rewrite Hp in Hs|done]. split; intros H; by left.
  - split_and!; [done| |unfold shown in *; by rewrite Hp in Hs|done]. split; intros H; by left.
  - destruct (end_poll_shown a w s Hp Hs) as [Hs' Hsent]. split_and!; [| |done|by rewrite Hsent];
      unfold end_poll; destruct (poll a (cache s) w); done.
  - unfold shown in Hs. rewrite Hp in Hs. destruct Hs as [Hl Hd]. split_and!; [done|done| |by apply changing_snoc].
    unfold shown. simpl. rewrite Hl, last_snoc. apply same_readings_refl.
Qed.

Lemma service_reachable_inv s : rtc ServiceStep service_start s → service_inv s.
Proof. apply (rtc_preserves ServiceStep service_inv); [intros ????; by eapply service_step_inv|apply service_start_inv]. Qed.

(** in every interleaving of subscribers and polls, the parts that are polled are the parts
    that are wanted: each is asked for by the last poll, or a wake is on its way, and when the
    task is at its select with the wake delivered it can begin a poll that asks for it; and who
    reads the snapshot has the readings of the last broadcast unless the next is being sent, and
    broadcasts that follow each other differ. *)
Theorem service_sound s :
  rtc ServiceStep service_start s →
  (∀ need, need ≠ Cluster → need ∈ outstanding s ↔
     (if decide (need = Pods) then w_pods else w_volumes) (demand_wants (demand s)) = true)
  ∧ (∀ part, part ∈ [w_pods; w_volumes] → part (demand_wants (demand s)) = true →
       part (asked s) = true ∨ 0 < notifying s
       ∨ permit s = true ∧ (pc s = Idle → ∃ s' w, ServiceStep s s' ∧ pc s' = Polling w ∧ part w = true))
  ∧ (match pc s, last_snapshot s with
     | Sending snap, l => l = Some snap
     | _, None => sent s = []
     | _, Some l => ∃ p, last (sent s) = Some p ∧ same_readings p l = true
     end)
  ∧ changing (sent s).
Proof.
  intros Hr. destruct (service_reachable_inv s Hr) as ([Hp Hv] & [Hhp Hhv] & Hs & Hch). split_and!; [| | |done].
  - intros need Hn. rewrite count_needs_in. destruct need; [done|..]; simpl; [rewrite Hp|rewrite Hv]; by rewrite N.ltb_lt.
  - intros part Hpart Hw.
    assert (part (asked s) = true ∨ permit s = true ∨ 0 < notifying s) as [?|[Hperm|?]]; [|by left| |by right; left].
    { apply elem_of_cons in Hpart as [->|[->|Hn]%elem_of_cons]; [by apply Hhp|by apply Hhv|by apply elem_of_nil in Hn]. }
    right. right. split; [done|]. intros Hidle. exists (begin_poll false s), (demand_wants (demand s)).
    split_and!; [by apply SWake|done|done].
  - unfold shown in Hs. destruct (pc s); [destruct Hs as [-> ->]; done|..|by destruct Hs]; destruct (last_snapshot s) as [l|];
      destruct (last (sent s)) as [p|] eqn:E; try done; try (by exists p); by apply last_None in E.
Qed.

(** ** The slot *)

(** Subscriptions and the ends of some, each of a subscription before it. *)
Inductive SlotOp : Set := OpSubscribe (need : MetricsNeed) | OpUnsubscribe (need : MetricsNeed).

Definition slot_op (s : Slot) (op : SlotOp) : Slot :=
  match op with OpSubscribe need => subscribe_locked need s | OpUnsubscribe need => unsubscribe_metrics need s end.

(** [l] is subscribed after [ops]. *)
Inductive paired : list SlotOp → list MetricsNeed → Prop :=
  | PairedNil : paired [] []
  | PairedSubscribe ops l need : paired ops l → paired (ops ++ [OpSubscribe need]) (need :: l)
  | PairedUnsubscribe ops l1 l2 need : paired ops (l1 ++ need :: l2) → paired (ops ++ [OpUnsubscribe need]) (l1 ++ l2).

(** a slot has a service and its forwarder exactly while someone is subscribed, counts the
    subscribers, and its service counts what each of them needs. *)
Theorem slot_counts ops l :
  paired ops l →
  let s := foldl slot_op empty_slot ops in
  subscribers s = N.of_nat (length l) ∧ forwarder s = negb (bool_decide (l = []))
  ∧ match slot_service s with Some d => l ≠ [] ∧ counted d l | None => l = [] end.
Proof.
  induction 1 as [|ops l need _ IH|ops l1 l2 need _ IH]; [done|..]; rewrite foldl_app; simpl; destruct IH as (Hn & Hf & Hd).
  - unfold subscribe_locked. destruct (slot_service _) as [d|]; simpl; rewrite Hn.
    + destruct Hd as [Hne Hd]. rewrite Hf, bool_decide_false by done. split_and!; [lia|done|done|by apply want_counted].
    + subst l. split_and!; [done..|by apply want_counted].
  - unfold unsubscribe_metrics. rewrite Hn, length_app. simpl. destruct (slot_service _) as [d|]; [|by destruct l1].
    destruct Hd as [_ Hd]. rewrite Hf, bool_decide_false by (by destruct l1).
    destruct (N.eqb_spec (N.pred (N.of_nat (length l1 + S (length l2)))) 0) as [H|H]; simpl.
    + assert (l1 = [] ∧ l2 = []) as [-> ->] by (split; apply nil_length_inv; lia). done.
    + assert (l1 ++ l2 ≠ []) as Hne by (intros [-> ->]%app_nil; done). rewrite length_app, bool_decide_false by done.
      split_and!; [lia|done|done|by apply release_counted].
Qed.

(** ** Samples *)

Module Samples.
(** The examples of the code's tests. *)
Example quantities :
  cpu_milli <$> [lit "142m"; lit "1"; lit "0.5"; lit "100u"; lit "2.5"; lit "999999n"; lit "1000000000"; lit "--1"; lit "-1"; []]
    = [142; 1000; 500; 0; 2500; 1; 1000000000000; 0; 0; 0]%N
  ∧ mem_mib <$> [lit "384Mi"; lit "1024Ki"; lit "2M"; lit "1G"; lit "1T"; lit "524287"; lit "524288"; lit "Mi"; lit "5E"]
    = [384; 1; 2; 954; 953674; 0; 1; 0; 0]%N.
Proof. split; by vm_compute. Qed.

Definition node (n : string) : NodeWire :=
  {| nw_metadata := Some {| name := Some (lit n); namespace := None |};
     nw_status := Some {| capacity := Some {[lit "cpu" := lit "4"; lit "memory" := lit "16Gi"]}; allocatable := None |} |}.

Definition usage (n c : string) : NodeMetricsWire :=
  {| nm_metadata := Some {| name := Some (lit n); namespace := None |}; nm_usage := Some {| cpu := Some (lit c); memory := Some (lit "2Gi") |} |}.

Definition a_volume (n claim : string) (used : N) : VolumeWire :=
  {| vw_name := Some (lit n); vw_used_bytes := Some used; vw_capacity_bytes := None; vw_available_bytes := None; vw_inodes_used := None;
     vw_inodes := None; vw_pvc_ref := Some {| name := Some (lit claim); namespace := Some (lit "ns") |} |}.

Definition stats (p : string) (used : N) : PodStatsWire :=
  {| pod_ref := Some {| name := Some (lit p); namespace := Some (lit "ns") |}; volume := Some [a_volume "data" "shared" used] |}.

(** Two nodes, the second of which is new, and at [at_] seconds. *)
Definition answers (at_ : N) (c : string) : Answers :=
  {| at_start := at_; at_stored := at_; unix_ms := Z.of_N (1000 * at_);
     pod_list := Err (Api 403 (lit "Forbidden") (lit "pods.metrics.k8s.io is forbidden"));
     node_list := Ok (Some [usage "a" c; usage "b" "500m"]);
     capacity_list := Ok (Some [node "a"]); relist := Ok (Some [node "a"; node "b"]); order := [lit "a"; lit "b"];
     summary := λ n, if decide (n = lit "a") then Ok (Some [stats "db-0" 10]) else Ok (Some [stats "db-1" 20]) |}.

Definition nothing_wanted : Wants := {| w_pods := false; w_volumes := false |}.

Definition all_wanted : Wants := {| w_pods := true; w_volumes := true |}.

(** A node that joined is looked up at the next poll, not after five minutes. *)
Example joined_node :
  let '(c, s1) := poll (answers 0 "1") empty_cache nothing_wanted in
  let '(_, s2) := poll (answers 30 "1") c nothing_wanted in
  (cpu_capacity_milli <$> cluster s1) = Some 4000%N ∧ (cpu_capacity_milli <$> cluster s2) = Some 8000%N
  ∧ available s1 = true ∧ volumes_available s1 = None.
Proof. vm_compute. by split_and!. Qed.

Example refusal_shown :
  let '(_, s) := poll (answers 0 "1") empty_cache all_wanted in
  available s = false ∧ forbidden s = Some (lit "pods.metrics.k8s.io is forbidden") ∧ volumes_available s = Some true
  ∧ (used_bytes <$> pvcs s !! lit "ns/shared") = Some 20%N.
Proof. vm_compute. by split_and!. Qed.

Lemma volume_cadence_witness : polls_volumes all_wanted (cache_after (λ i, answers (30 * N.of_nat i) "1") (λ _, all_wanted) 3 empty_cache) = false.
Proof. exact (volume_cadence (λ i, answers (30 * N.of_nat i) "1") (λ _, all_wanted) empty_cache 3 eq_refl (λ _, eq_refl)). Defined.

Lemma fan_out_complete_witness :
  let names := nat_str <$> seq 0 17 in
  ∃ f, rtc FanStep (fan_start names) f ∧ length (flight f) = 16 ∧ arrived f ++ flight f ++ queue f ≡ₚ names.
Proof.
  set (f := {| queue := []; flight := nat_str <$> [0; 1; 2; 4; 5; 6; 7; 8; 9; 10; 11; 12; 13; 14; 15; 16]; arrived := [nat_str 3] |}).
  assert (rtc FanStep (fan_start (nat_str <$> seq 0 17)) f) as H.
  { eapply rtc_l; [|apply rtc_refl].
    exact (FanAnswer [nat_str 16] (nat_str <$> [0; 1; 2]) (nat_str 3) (nat_str <$> seq 4 12) []). }
  exists f. split; [exact H|]. split; [done|]. exact (proj1 (proj2 (fan_out_complete (answers 0 "1") _ _ H))).
Defined.

(** Someone wants pods while the first poll runs: the next begins with the wake. *)
Definition s_asked : Service :=
  {| demand := {| pods_wanted := 1; volumes_wanted := 0 |}; notifying := 0; permit := true; pc := Polling nothing_wanted; cache := empty_cache;
     last_snapshot := None; outstanding := [Pods]; asked := nothing_wanted; sent := [] |}.

Lemma s_asked_reachable : rtc ServiceStep service_start s_asked.
Proof.
  eapply rtc_l; [by apply SStart|]. eapply rtc_l; [by apply STick|]. eapply rtc_l; [apply (SWant _ Pods)|].
  eapply rtc_l; [by apply (SNotify _ 0)|]. apply rtc_refl.
Qed.

Lemma service_sound_witness :
  ∃ s, rtc ServiceStep service_start s ∧ Pods ∈ outstanding s ∧ w_pods (asked s) = false ∧ length (sent s) = 1
    ∧ ∃ s' w, ServiceStep s s' ∧ pc s' = Polling w ∧ w_pods w = true.
Proof.
  destruct (poll (answers 0 "1") empty_cache nothing_wanted) as [c snap] eqn:Ep.
  assert (end_poll (answers 0 "1") nothing_wanted s_asked
    = {| demand := demand s_asked; notifying := 0; permit := true; pc := Sending snap; cache := c; last_snapshot := Some snap;
         outstanding := [Pods]; asked := nothing_wanted; sent := [] |}) as Ee by (unfold end_poll; change (cache s_asked) with empty_cache; by rewrite Ep).
  set (s := {| demand := demand s_asked; notifying := 0; permit := true; pc := Idle; cache := c; last_snapshot := Some snap;
               outstanding := [Pods]; asked := nothing_wanted; sent := [snap] |}).
  assert (rtc ServiceStep service_start s) as Hr.
  { eapply rtc_r; [eapply rtc_r; [exact s_asked_reachable|by apply (SAnswer _ nothing_wanted (answers 0 "1"))]|]. rewrite Ee.
    match goal with |- ServiceStep ?x _ => pose proof (SSend x snap eq_refl) as Hs end. exact Hs. }
  destruct (service_sound s Hr) as (_ & Hpart & _).
  exists s. split; [exact Hr|]. split; [by left|]. split; [done|]. split; [done|].
  destruct (Hpart w_pods ltac:(by left) eq_refl) as [H|[H|[_ H]]]; [discriminate|simpl in H; lia|exact (H eq_refl)].
Defined.

Lemma slot_counts_witness :
  subscribers (foldl slot_op empty_slot [OpSubscribe Pods; OpSubscribe Cluster; OpUnsubscribe Pods]) = 1%N
  ∧ forwarder (foldl slot_op empty_slot [OpSubscribe Pods; OpSubscribe Cluster; OpUnsubscribe Pods]) = true.
Proof.
  assert (paired [OpSubscribe Pods; OpSubscribe Cluster; OpUnsubscribe Pods] [Cluster]) as Hp.
  { apply (PairedUnsubscribe [OpSubscribe Pods; OpSubscribe Cluster] [Cluster] [] Pods), (PairedSubscribe [OpSubscribe Pods]), (PairedSubscribe []), PairedNil. }
  destruct (slot_counts _ _ Hp) as (Hn & Hf & _). exact (conj Hn Hf).
Defined.

(** A subscription whose check came before the teardown: a service for a cluster that is gone. *)
Lemma metrics_after_teardown :
  ∀ s, subscribe_metrics false (lit "c") Pods s = Ok (subscribe_locked Pods s) ∧ slot_service (subscribe_locked Pods (drop_metrics s)) ≠ None.
Proof. done. Qed.
End Samples.
